(* ===== verification/_CoqProject ===== *)
-Q . S2P
Prelude.v
StateSet.v
Bits.v
Bitmap.v
EdgeSet.v
EdgeIter.v
EdgeCompact.v
Probe.v
Endids.v
EagerOutput.v
Lang.v
Fsm.v
FsmSpec.v
Queue.v
Search.v
FsmCompact.v
FsmInv.v
Pred.v
Trim.v
Capture.v
Combine.v
Concat.v
Clone.v
Reverse.v
TupleSet.v
Walk2.v
Walk2Spec.v
Exec.v
Closure.v
Epsilons.v
EpsilonsSpec.v
HashView.v
InternedSet.v
DetSort.v
DetCache.v
DetAnalysis.v
DetResults.v
DetSingle.v
DetPairs.v
DetAnalysisSpec.v
DetMap.v
Determinise.v
DetLoop.v
DetBuild.v
DetSpec.v
SetOps.v
SetOpsSpec.v
ComplementSpec.v
Pv.v
Consolidate.v
Minimise.v
MinClasses.v
MinRefine.v
MinInit.v
MinSplit.v
MinMapping.v
ConsolidateSpec.v
MinimiseSpec.v
