(* ===== verification/Prelude.v ===== *)
(** * libfsm: a verification of the automaton library

    libfsm represents finite automata over octets and transforms them. An
    automaton ([struct fsm], src/libfsm/internal.h) owns an array of states; a
    state has a set of labelled edges (src/adt/edgeset.c), a set of epsilon
    transitions (src/adt/stateset.c), an end mark and flags. Beside the states
    there are tables of metadata: end ids, eager outputs and capture actions.
    Callers build automata, combine them, remove their epsilon transitions,
    determinise, minimise, trim, and run them on inputs. This library translates that
    code definition by definition, keeping the source's names, and proves what
    it computes: in most cases in terms of the language of the automaton.

    ** How the code is represented

    - An id or a machine integer is an [N]; where it can wrap at its width the
      wrap is written out ([u32], [u64], [u24]). Array sizes and indices are
      [nat], cut to their width where the code keeps them in an [unsigned]
      ([u32n]) or in a bit field ([u31]). A sentinel such as [BUCKET_NO_STATE]
      is a number like in the code.
    - Memory is not modelled as such. A pointer that may be NULL is an option
      or has a constructor for it; an array is a list, with its capacity beside
      it where the code uses it. Where objects are shared by address (the
      mappings of the determiniser) there is a heap indexed by their order of
      allocation. Freeing is left out.
    - Allocation may fail: [allocator] is a class whose one operation says
      whether a request of a size succeeds, and every operation is defined for
      any allocator, with its error path. The theorems on results assume
      [alloc_total], requests succeed; those on error paths take particular
      allocators ([always], [no_buf] and others).
    - A result [option (bool * _)] is [None] where the C would fail an assertion
      or access memory out of bounds, and otherwise carries the status the C
      function returns. Theorems therefore also say that neither happens.
    - A loop is a fixpoint on the list it goes through or on fuel. The fuel is
      chosen from the state of the loop, and theorems show that it is enough:
      one iteration per state for searches ([Search]), one call per pair of
      states for [fsm_walk2] ([walk2_fuel], (n + 1)(m + 1) + 1), 257 passes for
      the labels of a state ([passes_fuel]), (n + 1)^2 + 1 steps for the rounds
      of pairs ([pairwise_fuel]), n + 1 rounds for the refinement of
      [fsm_minimise], and one iteration per set of states reached for the loop
      of [fsm_determinise], the argument [fuel] of the model.
    - Bounds. An automaton has fewer than 2^31 states, as [endcount] has 31 bits
      ([fsm_wf]). Hash tables have at most 2^32 buckets, so that a table that
      doubles when half full has room for 2^30 entries; ids are below 2^30
      ([id_ok]), so that the ids of a state, and those of a pair of states, fit
      an [unsigned] capacity that doubles; the determiniser keeps offsets in 32
      bits ([fits]); [struct fsm_edge] has 24 bits for a state ([ids_fit]).
      These are hypotheses or part of the invariants where they matter.

    ** Files

    Shared: [Prelude] (this file: integers, sorted arrays, allocation, tactics
    and hints), [Lang] (nondeterministic automata with epsilon transitions,
    paths, acceptance: the specification), [Probe] and [HashView] (hash tables
    with linear probing, include/adt/hash.h), [Search] (worklist searches).

    Containers of src/adt: [StateSet] (stateset.c), [Bits] (u64bitset.h),
    [Bitmap] (bitmap.c), [EdgeSet], [EdgeIter] and [EdgeCompact] (edgeset.c),
    [Queue] (queue.c), [TupleSet] (set.inc, tupleset.c), [InternedSet]
    (internedstateset.c). Each is shown to implement sets, relations, lists or
    maps of mathematics, for any sequence of its operations.

    The automaton: [Fsm] (fsm.c, state.c, edge.c, start.c, end.c), [FsmSpec]
    (its invariant [fsm_wf] and the automaton [nfa_of] it stands for),
    [FsmInv] ([fsm_inv], kept by the calls that build an automaton and set its
    metadata, failed ones included; a trim keeps it when it has the memory it
    needs, and leaves flags set when it fails), [Endids] (endids.c), [EagerOutput] (eager_output.c), [Capture] (capture.c),
    [FsmCompact] ([fsm_compact_states]).

    Operations: [Pred] (pred/, walk/, empty.c), [Trim] (trim.c), [Combine] with
    [Clone] and [Concat] (merge.c, clone.c, union.c, concat.c, collate.c),
    [Reverse] (reverse.c), [Walk2] and [Walk2Spec] (walk2.c), [Exec] (exec.c),
    [Closure] (closure.c), [Epsilons] and [EpsilonsSpec] (epsilons.c), [SetOps]
    (intersect.c, subtract.c, equal.c, charset.c, complete.c, complement.c) with
    [SetOpsSpec] and [ComplementSpec].

    Minimisation: [Pv] (include/adt/pv.h), [Consolidate] with [ConsolidateSpec]
    (consolidate.c), [Minimise] (minimise.c) with its lemmas: [MinClasses] (the
    equivalence classes as the arrays hold them), [MinInit] (the classes of
    states with the same distance to an end), [MinSplit] (splitting by end
    metadata), [MinRefine] (the refinement by labels), [MinMapping] (the mapping
    it gives) and [MinimiseSpec].

    Determinisation (determinise.c) is in several files. Definitions: [DetSort]
    (sorting destination sets), [DetCache] (sets of destinations, results and
    the cache of pairs), [DetAnalysis] (the analysis of a set of states, in a
    state and error monad over [analyze_closures_env]), [DetMap] (the map from
    sets to states, the stack), [Determinise] (the main loop, the automaton
    built from the mappings, what is carried over). Lemmas: [DetResults],
    [DetSingle], [DetPairs], [DetAnalysisSpec] (the analysis gives disjoint sets
    of labels, each with the set of states it leads to), [DetLoop] (the loop is
    the subset construction), [DetBuild] (the new automaton), [DetSpec].

    ** What is proved

    - Containers: refinement of sets, relations, FIFO lists and maps; the
      iterators, comparison, sorting and interning; equality of the ways of
      sorting.
    - [fsm_inv] holds after any sequence of building and metadata calls, failed
      ones included, and of trims with enough memory; building calls implement
      the construction of an automaton step by step.
    - Languages: union, concatenation, copying, reversal, product,
      intersection, subtraction, complement, trimming, epsilon removal and
      determinisation give the language they are meant to (or, where the code
      departs from it, the language the code gives). What is attached to states
      (end ids, eager outputs) is followed as well: [observes] in
      [EpsilonsSpec] gathers what can be seen of a state, and the state a word
      leads to after determinisation shows what the states it leads to in the
      original show.
    - [fsm_minimise] gives a DFA with the same language and the same end ids for
      each word, and without eager outputs, and where the label sets it leaves
      uninitialised are clear, one with the fewest states.
    - [fsm_equal] decides equality of languages.
    - [fsm_exec] decides the language of a deterministic automaton, and after
      [fsm_determinise] that of any automaton.
    - Termination of all of these, as part of the same statements.
    - Errors: what operations leave behind when they fail, and the inputs for
      which the code reads out of bounds, fails an assertion or gives a result
      other than the one intended. These are stated of the code as it is.

    ** Not modelled

    Freeing of memory, logging and statistics. Of libfsm: shuffle.c,
    subgraph.c, mergestates.c and mode.c, the queries (shortest.c, example.c, gen.c),
    the virtual machine (vm/), printing (print/), the generated parser and lexer
    of the fsm language, [fsm_capture_set_path] and
    [fsm_union_repeated_pattern_group], which work on data of libre. The other
    parts of the repository: libre (regular expressions), lx (lexer generator)
    and the command-line tools. *)

From stdpp Require Export prelude sorting.
From Stdlib Require Export NArith Lia.

(** ** Scopes, hint databases and tactics *)

Declare Scope cint_scope.
Delimit Scope cint_scope with cint.

Create HintDb fsm.
Create HintDb fsm_bits.

(** [split_bool] turns boolean comparisons on [N] and [nat] in the context
    and in the goal into propositions. *)
Ltac split_bool :=
  repeat match goal with
  | H : (_ && _) = true |- _ => apply andb_true_iff in H; destruct H
  | H : (_ || _) = false |- _ => apply orb_false_iff in H; destruct H
  | H : negb _ = true |- _ => apply negb_true_iff in H
  | H : negb _ = false |- _ => apply negb_false_iff in H
  | H : (_ =? _)%N = true |- _ => apply N.eqb_eq in H
  | H : (_ =? _)%N = false |- _ => apply N.eqb_neq in H
  | H : (_ <? _)%N = true |- _ => apply N.ltb_lt in H
  | H : (_ <? _)%N = false |- _ => apply N.ltb_ge in H
  | H : (_ <=? _)%N = true |- _ => apply N.leb_le in H
  | H : (_ <=? _)%N = false |- _ => apply N.leb_gt in H
  | H : (_ =? _) = true |- _ => apply Nat.eqb_eq in H
  | H : (_ =? _) = false |- _ => apply Nat.eqb_neq in H
  | H : (_ <? _) = true |- _ => apply Nat.ltb_lt in H
  | H : (_ <? _) = false |- _ => apply Nat.ltb_ge in H
  | H : (_ <=? _) = true |- _ => apply Nat.leb_le in H
  | H : (_ <=? _) = false |- _ => apply Nat.leb_gt in H
  end.

(** [case_if] case-splits on the innermost boolean test of the goal. *)
Ltac case_if :=
  match goal with
  | |- context [if ?b then _ else _] =>
      lazymatch b with
      | context [if _ then _ else _] => fail
      | _ => let E := fresh "E" in destruct b eqn:E; split_bool
      end
  end.

(** The same on a hypothesis. *)
Ltac case_if_in H :=
  match type of H with
  | context [if ?b then _ else _] =>
      lazymatch b with
      | context [if _ then _ else _] => fail
      | _ => let E := fresh "E" in destruct b eqn:E; split_bool
      end
  end.

(** [by_compute] proves a decidable proposition by evaluating its decision. *)
Ltac by_compute := refine (bool_decide_unpack _ _); vm_compute; exact I.

(** ** Machine integers

    A [w]-bit unsigned integer is an [N]; the wrap-around of C is written out
    where the code can wrap. *)

Definition u8 (n : N) : N := (n mod 256)%N.
Definition u24 (n : N) : N := (n mod 16777216)%N.
Definition u32 (n : N) : N := (n mod 4294967296)%N.
Definition u64 (n : N) : N := (n mod 18446744073709551616)%N.

(** A [nat] that is stored in an [unsigned], and in a 31-bit field. *)
Definition u32n (n : nat) : nat := N.to_nat (u32 (N.of_nat n)).
Definition u31 (n : N) : nat := N.to_nat (n mod 2147483648)%N.

Notation "x +32 y" := (u32 (x + y)%N)
  (at level 50, left associativity) : cint_scope.
Notation "x +64 y" := (u64 (x + y)%N)
  (at level 50, left associativity) : cint_scope.
Notation "x *64 y" := (u64 (x * y)%N)
  (at level 40, left associativity) : cint_scope.

Lemma u32_small n : (n < 4294967296)%N → u32 n = n.
Proof. apply N.mod_small. Qed.

Lemma u32n_small n : (N.of_nat n < 4294967296)%N → u32n n = n.
Proof. intros Hn. unfold u32n. rewrite u32_small by done. apply Nat2N.id. Qed.

Lemma u31_small n : (n < 2147483648)%N → u31 n = N.to_nat n.
Proof. intros Hn. unfold u31. by rewrite N.mod_small. Qed.

Lemma u32_lt n : (u32 n < 4294967296)%N.
Proof. by apply N.mod_lt. Qed.

Lemma u24_small n : (n < 16777216)%N → u24 n = n.
Proof. apply N.mod_small. Qed.

Lemma u64_small n : (n < 18446744073709551616)%N → u64 n = n.
Proof. apply N.mod_small. Qed.

#[export] Hint Resolve u32_lt : fsm.

(** ** The allocator

    The memory allocator is not part of the library: [f_malloc], [f_calloc]
    and [f_realloc] (src/adt/alloc.c) call libc when the [fsm_alloc] pointer
    is NULL and the hooks of the caller otherwise. The model keeps the pointer
    (an [N], 0 for NULL) and one bit of each answer: whether a block of the
    requested size is returned. *)

Definition fsm_alloc := N.

Class allocator := {
  libc_malloc : N → bool;
  libc_calloc : N → N → bool;
  libc_realloc : N → bool;
  hook_malloc : fsm_alloc → N → bool;
  hook_calloc : fsm_alloc → N → N → bool;
  hook_realloc : fsm_alloc → N → bool;
}.

Definition f_malloc `{allocator} (a : fsm_alloc) (sz : N) : bool :=
  if (a =? 0)%N then libc_malloc sz else hook_malloc a sz.

Definition f_calloc `{allocator} (a : fsm_alloc) (n sz : N) : bool :=
  if (a =? 0)%N then libc_calloc n sz else hook_calloc a n sz.

Definition f_realloc `{allocator} (a : fsm_alloc) (sz : N) : bool :=
  if (a =? 0)%N then libc_realloc sz else hook_realloc a sz.

(** An allocator that never fails: the assumption of the theorems that say an
    operation succeeds. *)
Class alloc_total `{allocator} : Prop := {
  f_malloc_total a sz : f_malloc a sz = true;
  f_calloc_total a n sz : f_calloc a n sz = true;
  f_realloc_total a sz : f_realloc a sz = true;
}.

(** Concrete allocators, for examples: one that always succeeds, one that
    always fails. *)
Definition always : allocator := {|
  libc_malloc _ := true; libc_calloc _ _ := true; libc_realloc _ := true;
  hook_malloc _ _ := true; hook_calloc _ _ _ := true; hook_realloc _ _ := true;
|}.

Definition never : allocator := {|
  libc_malloc _ := false; libc_calloc _ _ := false; libc_realloc _ := false;
  hook_malloc _ _ := false; hook_calloc _ _ _ := false; hook_realloc _ _ := false;
|}.

Lemma always_total : @alloc_total always.
Proof.
  split; intros; unfold f_malloc, f_calloc, f_realloc; simpl; by destruct (_ =? _)%N.
Defined.

Ltac alloc_ok :=
  rewrite ?f_malloc_total, ?f_calloc_total, ?f_realloc_total.

(** ** Sorted arrays of keys

    The sets of the library are arrays sorted by a key. [lower_bound ks x] is
    the reference for their binary searches: the index of the first key that
    is not below [x], one past the end when there is none. *)

Fixpoint lower_bound (ks : list N) (x : N) : nat :=
  match ks with
  | [] => 0
  | k :: ks => if (k <? x)%N then S (lower_bound ks x) else 0
  end.

Abbreviation increasing := (StronglySorted N.lt).

Lemma lower_bound_le ks x : lower_bound ks x ≤ length ks.
Proof. induction ks; simpl; [done|]. case_if; simpl; lia. Qed.

Lemma lower_bound_below ks x i k :
  ks !! i = Some k → i < lower_bound ks x → (k < x)%N.
Proof.
  revert i; induction ks as [|k' ks IH]; intros [|i] Hi Hlt; simplify_eq/=;
    case_if_in Hlt; try lia. apply (IH i); [done|lia].
Qed.

Lemma lower_bound_at ks x k : ks !! lower_bound ks x = Some k → (x ≤ k)%N.
Proof. induction ks; simpl; [done|]. case_if; simpl; naive_solver. Qed.

Lemma increasing_lookup ks i j a b :
  increasing ks → i < j → ks !! i = Some a → ks !! j = Some b → (a < b)%N.
Proof.
  intros Hs; revert i j; induction Hs as [|k ks _ IH Hk]; intros [|i] [|j] Hij Ha Hb;
    simplify_eq/=; try lia.
  - rewrite Forall_forall in Hk. apply Hk, list_elem_of_lookup; eauto.
  - apply (IH i j); [lia|done|done].
Qed.

(** In an increasing array, an index that separates the keys below [x] from
    the others is the lower bound. *)
Lemma lower_bound_unique ks x p :
  p ≤ length ks →
  (∀ i k, ks !! i = Some k → i < p → (k < x)%N) →
  (∀ k, ks !! p = Some k → (x ≤ k)%N) →
  lower_bound ks x = p.
Proof.
  revert p; induction ks as [|k ks IH]; intros p Hp Hb Ha; simpl in *; [lia|].
  destruct p as [|p].
  - specialize (Ha k eq_refl). case_if; lia.
  - pose proof (Hb 0 k eq_refl ltac:(lia)). case_if; [|lia].
    f_equal. apply IH; [lia| |by auto].
    intros i k' Hi Hlt. apply (Hb (S i)); [done|lia].
Qed.

Lemma elem_of_lower_bound ks x :
  increasing ks → x ∈ ks → ks !! lower_bound ks x = Some x.
Proof.
  intros Hs Hx. induction Hs as [|k ks Hs IH Hk]; [by apply not_elem_of_nil in Hx|].
  rewrite Forall_forall in Hk. simpl. case_if.
  - apply IH. by apply elem_of_cons in Hx as [->|Hx]; [lia|].
  - apply elem_of_cons in Hx as [->|Hx]; [done|]. specialize (Hk x Hx). lia.
Qed.

Lemma lookup_lower_bound ks x :
  increasing ks → ks !! lower_bound ks x = Some x ↔ x ∈ ks.
Proof.
  intros Hs; split; [|by apply elem_of_lower_bound].
  intros H; apply list_elem_of_lookup; eauto.
Qed.

Lemma lower_bound_end ks x :
  (∀ k, last ks = Some k → (k < x)%N) → increasing ks → lower_bound ks x = length ks.
Proof.
  intros Hl Hs. apply lower_bound_unique; [done| |].
  - intros i k Hi _. destruct ks as [|k0 ks]; [done|].
    destruct (last (k0 :: ks)) as [m|] eqn:E; [|by apply last_None in E].
    specialize (Hl m eq_refl). rewrite last_lookup in E. simpl in E.
    destruct (decide (i = length ks)) as [->|Hne]; [simplify_eq/=; by destruct (length ks); simplify_eq/=|].
    assert (i < length ks) by (apply lookup_lt_Some in Hi; simpl in Hi; lia).
    etrans; [eapply increasing_lookup; [exact Hs| |exact Hi|exact E]; lia|done].
  - intros k Hk. apply lookup_lt_Some in Hk. lia.
Qed.

Lemma filter_all {A} (P : A → Prop) `{∀ x, Decision (P x)} (l : list A) :
  (∀ x, x ∈ l → P x) → filter P l = l.
Proof.
  induction l as [|x l IH]; intros Hp; [done|]. rewrite filter_cons_True by (apply Hp; left).
  f_equal. apply IH. intros. apply Hp. by right.
Qed.

(** ** Arrays updated by [memmove] and a store *)

(** [memmove(&a[i+1], &a[i], n - i); a[i] = x] *)
Definition insert_at {A} (i : nat) (x : A) (l : list A) : list A :=
  take i l ++ x :: drop i l.

(** [memmove(&a[i], &a[i+1], n - i - 1)], one element fewer *)
Definition delete_at {A} (i : nat) (l : list A) : list A :=
  take i l ++ drop (S i) l.

Lemma elem_of_insert_at {A} i (x y : A) l : y ∈ insert_at i x l ↔ y = x ∨ y ∈ l.
Proof.
  unfold insert_at. rewrite elem_of_app, elem_of_cons.
  rewrite <-(take_drop i l) at 3. rewrite elem_of_app. tauto.
Qed.

Lemma length_insert_at {A} i (x : A) l : i ≤ length l → length (insert_at i x l) = S (length l).
Proof.
  intros. unfold insert_at. rewrite length_app. simpl.
  rewrite length_take, length_drop. lia.
Qed.

Lemma fmap_insert_at {A B} (f : A → B) i x l :
  f <$> insert_at i x l = insert_at i (f x) (f <$> l).
Proof. unfold insert_at. by rewrite fmap_app, fmap_cons, fmap_take, fmap_drop. Qed.

Lemma fmap_delete_at {A B} (f : A → B) i l : f <$> delete_at i l = delete_at i (f <$> l).
Proof. unfold delete_at. by rewrite fmap_app, fmap_take, fmap_drop. Qed.

Lemma length_delete_at {A} i (l : list A) : i < length l → S (length (delete_at i l)) = length l.
Proof.
  intros. unfold delete_at. rewrite length_app, length_take, length_drop. lia.
Qed.

Lemma split_at {A} i (x : A) l : l !! i = Some x → l = take i l ++ x :: drop (S i) l.
Proof. intros. by rewrite take_drop_middle. Qed.

Lemma increasing_insert_at ks x :
  increasing ks → x ∉ ks → increasing (insert_at (lower_bound ks x) x ks).
Proof.
  intros Hs Hx. unfold insert_at. rewrite StronglySorted_app, StronglySorted_cons, Forall_forall.
  rewrite <-(take_drop (lower_bound ks x) ks) in Hs. rewrite StronglySorted_app in Hs.
  destruct Hs as (Hlt & H1 & H2).
  assert (∀ a, a ∈ take (lower_bound ks x) ks → (a < x)%N) as Ha.
  { intros a [i Hi]%list_elem_of_lookup. apply lookup_take_Some in Hi as [Hi ?].
    eapply lower_bound_below; eauto. }
  assert (∀ b, b ∈ drop (lower_bound ks x) ks → (x < b)%N) as Hb.
  { intros b Hb. destruct (drop (lower_bound ks x) ks) as [|b0 l] eqn:E;
      [by apply not_elem_of_nil in Hb|].
    assert (ks !! lower_bound ks x = Some b0) as E0.
    { rewrite <-(Nat.add_0_r (lower_bound _ _)), <-lookup_drop. by rewrite E. }
    pose proof (lower_bound_at _ _ _ E0).
    assert (b0 ≠ x) by (intros ->; apply Hx, list_elem_of_lookup; eauto).
    apply elem_of_cons in Hb as [->|Hb]; [lia|].
    apply StronglySorted_cons in H2 as [H2 _]. rewrite Forall_forall in H2.
    specialize (H2 b Hb). lia. }
  split; [|done]. intros a b Ha' [->|Hb']%elem_of_cons; [auto|].
  specialize (Ha a Ha'). specialize (Hb b Hb'). lia.
Qed.

Lemma increasing_delete_at ks i : increasing ks → increasing (delete_at i ks).
Proof.
  intros Hs. unfold delete_at. destruct (ks !! i) as [k|] eqn:E.
  - rewrite (split_at _ _ _ E) in Hs. rewrite StronglySorted_app, StronglySorted_cons in *.
    destruct Hs as (H1 & H2 & H3 & H4). repeat split; auto.
    intros. apply H1; [done|]. by apply elem_of_cons; right.
  - apply lookup_ge_None in E. rewrite take_ge, drop_ge by lia. by rewrite app_nil_r.
Qed.

Lemma elem_of_delete_at_increasing ks i k x :
  increasing ks → ks !! i = Some k → x ∈ delete_at i ks ↔ x ∈ ks ∧ x ≠ k.
Proof.
  intros Hs Hk. rewrite (split_at _ _ _ Hk) at 2. unfold delete_at.
  rewrite (split_at _ _ _ Hk) in Hs. rewrite StronglySorted_app, StronglySorted_cons, Forall_forall in Hs.
  destruct Hs as (H1 & H2 & H3 & H4). rewrite !elem_of_app, elem_of_cons.
  assert (x ∈ take i ks → (x < k)%N) by (intros; apply H1; [done|by left]).
  pose proof (H3 x). split; [|naive_solver]. intros [?|?]; split; auto; naive_solver lia.
Qed.

Lemma increasing_NoDup ks : increasing ks → NoDup ks.
Proof.
  induction 1 as [|k ks _ IH Hk]; [constructor|]. constructor; [|done].
  rewrite Forall_forall in Hk. intros Hin. specialize (Hk k Hin). lia.
Qed.

(** Two increasing arrays with the same elements are equal. *)
(** An increasing array of keys below [m] has at most [m] of them. *)
Lemma increasing_length ks m :
  increasing ks → Forall (λ k, (k < m)%N) ks → (N.of_nat (length ks) ≤ m)%N.
Proof.
  intros Hs Hm.
  assert (∀ i k, ks !! i = Some k → (N.of_nat i ≤ k)%N) as Hi.
  { induction i as [|i IH]; intros k Hk; [lia|].
    destruct (lookup_lt_is_Some_2 ks i) as [k' Hk']; [apply lookup_lt_Some in Hk; lia|].
    pose proof (IH k' Hk'). pose proof (increasing_lookup ks i (S i) k' k Hs ltac:(lia) Hk' Hk). lia. }
  destruct ks as [|k0 ks0] eqn:E; [simpl; lia|]. rewrite <-E in *.
  destruct (lookup_lt_is_Some_2 ks (length ks - 1)) as [k Hk]; [rewrite E; simpl; lia|].
  pose proof (Hi _ _ Hk). pose proof (Forall_lookup_1 _ _ _ _ Hm Hk). simpl in *. lia.
Qed.

Lemma bounded_length (l : list N) m : NoDup l → Forall (λ x, (x < m)%N) l → (N.of_nat (length l) ≤ m)%N.
Proof.
  intros Hn Hl. rewrite <-(length_fmap N.to_nat). enough (length (N.to_nat <$> l) ≤ length (seq 0 (N.to_nat m))) as Hx by (rewrite length_seq in Hx; lia).
  apply submseteq_length, NoDup_submseteq; [by apply (NoDup_fmap_2 N.to_nat)|]. intros i (x & -> & Hx)%list_elem_of_fmap.
  rewrite Forall_forall in Hl. apply elem_of_seq. specialize (Hl x Hx). lia.
Qed.

Lemma increasing_ext ks ks' :
  increasing ks → increasing ks' → (∀ x, x ∈ ks ↔ x ∈ ks') → ks = ks'.
Proof.
  intros H1 H2 Heq. apply (StronglySorted_unique_strong N.lt); [|done|done|].
  - intros x y _ _ ? ?; lia.
  - apply NoDup_Permutation; auto using increasing_NoDup.
Qed.

#[export] Hint Resolve increasing_insert_at increasing_delete_at increasing_NoDup : fsm.

(** ** In-place removal of adjacent duplicates

    The loop [for (i = 1; i < max; i++) if (a[i-1] != a[i]) a[curr++] = a[i]]
    on a sorted array, which state_set_add_bulk, fsm_endid_set_bulk and
    fsm_mapendids share. The result is the array and the final [curr]. *)
Fixpoint dedup_loop (n i curr : nat) (a : list N) : list N * nat :=
  match n with
  | 0 => (a, curr)
  | S n =>
      if N.eqb (a !!! (i - 1)) (a !!! i) then dedup_loop n (S i) curr a
      else dedup_loop n (S i) (S curr) (<[curr := a !!! i]> a)
  end.

Definition dedup_inplace (a : list N) : list N :=
  let '(a', curr) := dedup_loop (length a - 1) 1 1 a in take curr a'.

(** The reference: keep an element unless it equals its predecessor. *)
Fixpoint uniq_after (prev : N) (l : list N) : list N :=
  match l with
  | [] => []
  | x :: l => if (prev =? x)%N then uniq_after x l else x :: uniq_after x l
  end.

Definition uniq (l : list N) : list N :=
  match l with [] => [] | x :: l => x :: uniq_after x l end.

(** What the loop has kept so far, followed by what it will keep, is [uniq] of
    the original array [o]; cells from [curr] on are untouched. *)
Lemma dedup_loop_spec n : ∀ i curr a o p,
  i + n = length o → 1 ≤ curr ≤ i → length a = length o →
  o !! (i - 1) = Some p →
  (∀ j, curr ≤ j → a !! j = o !! j) → (curr = i → a = o) →
  let '(a', c) := dedup_loop n i curr a in
  take c a' = take curr a ++ uniq_after p (drop i o) ∧ c ≤ length a'.
Proof.
  induction n as [|n IH]; intros i curr a o p Hn Hc Hl Hp Hrest Heq; simpl.
  { rewrite drop_ge by lia. simpl. rewrite app_nil_r. split; [done|lia]. }
  destruct (lookup_lt_is_Some_2 o i) as [x Hx]; [lia|].
  assert (a !! i = Some x) as Hax by (rewrite Hrest by lia; done).
  assert (a !! (i - 1) = Some p) as Hap.
  { destruct (decide (curr = i)) as [->|]; [by rewrite Heq|rewrite Hrest by lia; done]. }
  rewrite !list_lookup_total_alt, Hax, Hap. simpl.
  rewrite (drop_S _ _ _ Hx). simpl. case_if.
  - subst x. apply IH; try lia; try done.
    by replace (S i - 1) with i by lia.
  - specialize (IH (S i) (S curr) (<[curr:=x]> a) o x).
    destruct (dedup_loop n (S i) (S curr) (<[curr:=x]> a)) as [a' c].
    destruct IH as [IH1 IH2]; try lia.
    + by rewrite length_insert.
    + by replace (S i - 1) with i by lia.
    + intros j Hj. rewrite list_lookup_insert_ne by lia. apply Hrest; lia.
    + intros [= ->]. rewrite (Heq eq_refl). by apply list_insert_id.
    + split; [|done]. rewrite IH1.
      rewrite (take_S_r _ _ x) by (apply list_lookup_insert_eq; lia).
      rewrite take_insert_ge by lia. by rewrite <-(assoc app).
Qed.

Lemma dedup_inplace_uniq a : dedup_inplace a = uniq a.
Proof.
  unfold dedup_inplace. destruct a as [|x l]; [done|].
  pose proof (dedup_loop_spec (length l) 1 1 (x :: l) (x :: l) x) as H.
  simpl in H. replace (length (x :: l) - 1) with (length l) by (simpl; lia).
  destruct (dedup_loop (length l) 1 1 (x :: l)) as [a' c].
  destruct H as [H _]; auto with lia.
Qed.

Lemma elem_of_uniq_after p l x : x ∈ l → x = p ∨ x ∈ uniq_after p l.
Proof.
  revert p; induction l as [|y l IH]; intros p Hx; [by apply not_elem_of_nil in Hx|].
  simpl. apply elem_of_cons in Hx as [->|Hx].
  - case_if; [by left|right; by left].
  - destruct (IH y Hx) as [->|H].
    + case_if; [by left|right; by left].
    + case_if; [by right|right; by right].
Qed.

Lemma uniq_after_subseteq p l x : x ∈ uniq_after p l → x ∈ l.
Proof.
  revert p; induction l as [|y l IH]; intros p; simpl; [done|].
  case_if; rewrite ?elem_of_cons; naive_solver.
Qed.

Lemma elem_of_uniq l x : x ∈ uniq l ↔ x ∈ l.
Proof.
  destruct l as [|y l]; [done|]. simpl. rewrite !elem_of_cons. split.
  - intros [->|H]; [by left|right]. eauto using uniq_after_subseteq.
  - intros [->|H]; [by left|]. destruct (elem_of_uniq_after y l x H); auto.
Qed.

Lemma uniq_after_increasing p l :
  StronglySorted N.le (p :: l) → increasing (p :: uniq_after p l).
Proof.
  revert p; induction l as [|y l IH]; intros p Hs; simpl.
  { repeat constructor. }
  apply StronglySorted_cons in Hs as [Hp Hs]. specialize (IH y Hs).
  apply Forall_cons in Hp as [Hpy _]. case_if; [by subst|].
  apply StronglySorted_cons; split; [|done].
  apply StronglySorted_cons in IH as [IH _]. rewrite Forall_forall in IH.
  apply Forall_forall. intros z [->|Hz]%elem_of_cons; [lia|]. specialize (IH z Hz). lia.
Qed.

Lemma uniq_increasing l : StronglySorted N.le l → increasing (uniq l).
Proof. destruct l; simpl; [constructor|apply uniq_after_increasing]. Qed.

(** [qsort] with a three-way comparison on unsigned values, then the removal
    of duplicates: the elements, once each, in order. *)
Definition qsort_N (l : list N) : list N := merge_sort N.le l.

Lemma qsort_N_sorted l : StronglySorted N.le (qsort_N l).
Proof. apply StronglySorted_merge_sort; [intros ???; lia|intros ??; lia]. Qed.

Lemma elem_of_qsort_N l x : x ∈ qsort_N l ↔ x ∈ l.
Proof. unfold qsort_N. by rewrite merge_sort_Permutation. Qed.

Lemma sort_dedup_increasing l : increasing (dedup_inplace (qsort_N l)).
Proof. rewrite dedup_inplace_uniq. apply uniq_increasing, qsort_N_sorted. Qed.

Lemma elem_of_sort_dedup l x : x ∈ dedup_inplace (qsort_N l) ↔ x ∈ l.
Proof. by rewrite dedup_inplace_uniq, elem_of_uniq, elem_of_qsort_N. Qed.

Lemma length_dedup_inplace l : length (dedup_inplace (qsort_N l)) ≤ length l.
Proof.
  rewrite dedup_inplace_uniq.
  assert (∀ p l, length (uniq_after p l) ≤ length l) as Hua.
  { intros p l'; revert p; induction l' as [|y l' IH]; intros p; simpl; [done|].
    case_if; simpl; specialize (IH y); lia. }
  transitivity (length (qsort_N l)).
  - destruct (qsort_N l) as [|y l']; simpl; [done|]. specialize (Hua y l'). lia.
  - unfold qsort_N. by rewrite merge_sort_Permutation.
Qed.

#[export] Hint Resolve sort_dedup_increasing : fsm.
