(* ===== verification/StateSet.v ===== *)
(** * State sets: src/adt/stateset.c

    A [struct state_set *] is NULL, a single state encoded in the pointer
    itself (bit 0 set), or a pointer to a heap array of states. The model has
    a constructor for each form; [SINGLETON_ENCODE] and its round trip justify
    the second one. An array carries the allocator it was created with, the
    [i] used entries of [a] and the capacity [n]. *)

From S2P Require Import Prelude.
From stdpp Require Import gmap.

Definition SET_INITIAL : nat := 8.

(** ** Pointer encoding of singletons *)

Definition SINGLETON_ENCODE (state : N) : N :=
  u64 (N.lor (N.shiftl state 1) 1).
Definition SINGLETON_DECODE (ptr : N) : N := u32 (N.shiftr ptr 1).
Definition IS_SINGLETON (ptr : N) : bool := negb (N.land ptr 1 =? 0)%N.

Inductive state_set :=
  | SSNull
  | SSSingle (state : N)
  | SSArray (alloc : fsm_alloc) (a : list N) (n : nat).

#[export] Instance state_set_inhabited : Inhabited state_set := populate SSNull.

(** The states of a set, in the order of iteration. *)
Definition ss_elems (set : state_set) : list N :=
  match set with
  | SSNull => []
  | SSSingle s => [s]
  | SSArray _ a _ => a
  end.

Definition ss_has (set : state_set) (s : N) : Prop := s ∈ ss_elems set.

#[export] Instance ss_has_dec set s : Decision (ss_has set s).
Proof. unfold ss_has. apply _. Defined.

(** ** Operations *)

Definition state_set_cmpval (a b : N) : Z :=
  if (b <? a)%N then 1%Z
  else if (a <? b)%N then (-1)%Z
  else 0%Z.

Fixpoint search_loop (fuel : nat) (a : list N) (state : N) (start end_ mid : nat) : nat :=
  match fuel with
  | 0 => mid
  | S fuel =>
      if start <? end_ then
        let mid := start + (end_ - start) / 2 in
        let r := state_set_cmpval state (a !!! mid) in
        if (r <? 0)%Z then search_loop fuel a state start mid mid
        else if (0 <? r)%Z then
          let start := mid + 1 in
          let mid := if start =? end_ then start else mid in
          search_loop fuel a state start end_ mid
        else mid
      else mid
  end.

Definition state_set_search (a : list N) (state : N) : nat :=
  let i := length a in
  if (0 <? i) && N.ltb (a !!! (i - 1)) state then i
  else search_loop (S i) a state 0 i 0.

Definition state_set_empty (set : state_set) : bool :=
  match set with
  | SSNull => true
  | SSSingle _ => false
  | SSArray _ a _ => length a =? 0
  end.

Definition state_set_count (set : state_set) : nat :=
  match set with
  | SSNull => 0
  | SSSingle _ => 1
  | SSArray _ a _ => length a
  end.

Definition state_set_contains (set : state_set) (state : N) : bool :=
  if state_set_empty set then false
  else match set with
  | SSNull => false
  | SSSingle s => (s =? state)%N
  | SSArray _ a _ =>
      let i := state_set_search a state in
      (i <? length a) && N.eqb (a !!! i) state
  end.

(** [state_set_only] reads the single element; [None] where its assertions
    fail. *)
Definition state_set_only (set : state_set) : option N :=
  match set with
  | SSNull => None
  | SSSingle s => Some s
  | SSArray _ a n => if (1 <=? n) && (length a =? 1) then a !! 0 else None
  end.

Section Ops.
Context `{allocator}.

Definition state_set_create (al : fsm_alloc) : option state_set :=
  if f_malloc al 32 then
    if f_malloc al (N.of_nat SET_INITIAL * 4) then Some (SSArray al [] SET_INITIAL)
    else None
  else None.

(** The branch of [state_set_add] for a set that is an array. *)
Definition state_set_add_array (al : fsm_alloc) (a : list N) (n : nat) (state : N)
    : bool * state_set :=
  let i := if length a =? 0 then 0 else state_set_search a state in
  if negb (length a =? 0) && ((i <? length a) && N.eqb (a !!! i) state) then
    (true, SSArray al a n)
  else if negb (length a =? 0) then
    if length a =? n then
      if f_realloc al (4 * (N.of_nat n * 2)) then
        (true, SSArray al (insert_at i state a) (n * 2))
      else (false, SSArray al a n)
    else (true, SSArray al (insert_at i state a) n)
  else (true, SSArray al [state] n).

(** The part of [state_set_add_bulk] after the set has been made an array:
    grow, append, sort and remove duplicates. *)
Definition state_set_add_bulk_array (al : fsm_alloc) (a : list N) (n : nat) (l : list N)
    : bool * state_set :=
  let newlen := length a + length l in
  if n <? newlen then
    let newcap := if newlen <? 2 * n then 2 * n else newlen in
    if f_realloc al (N.of_nat newcap * 4) then
      (true, SSArray al (dedup_inplace (qsort_N (a ++ l))) newcap)
    else (false, SSArray al a n)
  else (true, SSArray al (dedup_inplace (qsort_N (a ++ l))) n).

(** [state_set_add]. A singleton is first dropped ([*setp = NULL]), then the
    two states are added in bulk to a new array. *)
Definition state_set_add (set : state_set) (al : fsm_alloc) (state : N)
    : bool * state_set :=
  match set with
  | SSNull => (true, SSSingle state)
  | SSSingle s =>
      match state_set_create al with
      | Some (SSArray al' a n) => state_set_add_bulk_array al' a n [s; state]
      | _ => (false, SSNull)
      end
  | SSArray al' a n => state_set_add_array al' a n state
  end.

Definition state_set_add_bulk (set : state_set) (al : fsm_alloc) (l : list N)
    : bool * state_set :=
  match l with
  | [] => (true, set)
  | [s] => state_set_add set al s
  | _ =>
      match set with
      | SSNull =>
          match state_set_create al with
          | Some (SSArray al' a n) => state_set_add_bulk_array al' a n l
          | _ => (false, SSNull)
          end
      | SSSingle prev =>
          match state_set_create al with
          | Some (SSArray al' a n) =>
              match state_set_add_array al' a n prev with
              | (true, SSArray al'' a' n') => state_set_add_bulk_array al'' a' n' l
              | (_, set') => (false, set')
              end
          | _ => (false, SSNull)
          end
      | SSArray al' a n => state_set_add_bulk_array al' a n l
      end
  end.

Definition state_set_copy (dst : state_set) (al : fsm_alloc) (src : state_set)
    : bool * state_set :=
  match src with
  | SSNull => (true, dst)
  | SSSingle s => state_set_add dst al s
  | SSArray _ a _ => state_set_add_bulk dst al a
  end.
End Ops.

(** The value a remapping callback returns for a state to drop. *)
Definition FSM_STATE_REMAP_NO_STATE : N := 4294967295.

(** [None] where [assert(new_id <= s)] fails. *)
Definition state_set_compact (set : state_set) (remap : N → N) : option state_set :=
  match set with
  | SSNull => Some SSNull
  | SSSingle s =>
      let new_id := remap s in
      if (new_id =? FSM_STATE_REMAP_NO_STATE)%N then Some SSNull
      else if (new_id <=? s)%N then Some (SSSingle new_id) else None
  | SSArray al a n =>
      Some (SSArray al (filter (λ s, s ≠ FSM_STATE_REMAP_NO_STATE) (remap <$> a)) n)
  end.

Definition state_set_remove (set : state_set) (state : N) : state_set :=
  match set with
  | SSNull => SSNull
  | SSSingle s => if (s =? state)%N then SSNull else set
  | SSArray al a n =>
      if length a =? 0 then set
      else
        let i := state_set_search a state in
        if (i <? length a) && N.eqb (a !!! i) state then SSArray al (delete_at i a) n
        else set
  end.

Definition state_set_rebase (set : state_set) (base : N) : state_set :=
  match set with
  | SSNull => SSNull
  | SSSingle s => SSSingle (s +32 base)%cint
  | SSArray al a n => SSArray al ((λ s, (s +32 base)%cint) <$> a) n
  end.

Definition state_set_replace (set : state_set) (old new : N) : state_set :=
  match set with
  | SSNull => SSNull
  | SSSingle s => if (s =? old)%N then SSSingle new else set
  | SSArray al a n => SSArray al ((λ s, if (s =? old)%N then new else s) <$> a) n
  end.

(** ** Iteration *)

Record state_iter := { si_i : nat; si_set : state_set }.

Definition state_set_reset (set : state_set) : state_iter :=
  {| si_i := 0; si_set := set |}.

Definition state_set_next (it : state_iter) : option (N * state_iter) :=
  match si_set it with
  | SSNull => None
  | SSSingle s =>
      if 1 <=? si_i it then None
      else Some (s, {| si_i := si_i it + 1; si_set := si_set it |})
  | SSArray _ a _ =>
      if length a <=? si_i it then None
      else Some (a !!! si_i it, {| si_i := si_i it + 1; si_set := si_set it |})
  end.

(** The states a [for (state_set_reset(...); state_set_next(...); )] loop
    visits. *)
Fixpoint state_iter_run (fuel : nat) (it : state_iter) : list N :=
  match fuel with
  | 0 => []
  | S fuel =>
      match state_set_next it with
      | None => []
      | Some (s, it) => s :: state_iter_run fuel it
      end
  end.

Definition state_set_has (set : state_set) (predicate : N → bool) : bool :=
  existsb predicate (state_iter_run (S (state_set_count set)) (state_set_reset set)).

(** ** Comparison *)

Definition le_bytes32 (n : N) : list N :=
  [n mod 256; (n / 256) mod 256; (n / 65536) mod 256; (n / 16777216) mod 256]%N.

(** [memcmp] of two byte arrays of the same length: the sign of the first
    difference. *)
Fixpoint memcmp (a b : list N) : Z :=
  match a, b with
  | x :: a, y :: b =>
      if (x <? y)%N then (-1)%Z else if (y <? x)%N then 1%Z else memcmp a b
  | _, _ => 0%Z
  end.

Definition cmp3 (sa sb : N) : Z :=
  ((if (sb <? sa)%N then 1 else 0) - (if (sa <? sb)%N then 1 else 0))%Z.

(** [state_set_cmp]; [None] where an assertion fails. *)
Definition state_set_cmp (a b : state_set) : option Z :=
  match a, b with
  | SSNull, _ => None
  | _, SSNull => None
  | _, _ =>
      let count_a := state_set_count a in
      let count_b := state_set_count b in
      if negb (count_a =? count_b) then Some (Z.of_nat count_a - Z.of_nat count_b)%Z
      else match a, b with
      | SSSingle sa, SSSingle sb => Some (cmp3 sa sb)
      | SSSingle sa, _ => sb ← state_set_only b; Some (cmp3 sa sb)
      | _, SSSingle sb => sa ← state_set_only a; Some (cmp3 sa sb)
      | SSArray _ xa _, SSArray _ xb _ =>
          Some (memcmp (xa ≫= le_bytes32) (xb ≫= le_bytes32))
      | _, _ => None
      end
  end.

(** ** Invariant *)

Definition state_set_wf (set : state_set) : Prop :=
  increasing (ss_elems set) ∧
  Forall (λ s, (s < 4294967296)%N) (ss_elems set) ∧
  match set with SSArray _ a n => length a ≤ n ∧ 0 < n | _ => True end.

#[export] Instance state_set_wf_dec set : Decision (state_set_wf set).
Proof. unfold state_set_wf. destruct set; apply _. Defined.

(** ** Lemmas *)

Lemma state_set_cmpval_spec a b :
  (a < b)%N ∧ state_set_cmpval a b = (-1)%Z ∨
  a = b ∧ state_set_cmpval a b = 0%Z ∨
  (b < a)%N ∧ state_set_cmpval a b = 1%Z.
Proof. unfold state_set_cmpval. repeat case_if; auto with lia. Qed.

Lemma half_between s e : s < e → s ≤ s + (e - s) / 2 < e.
Proof.
  intros. pose proof (Nat.div_lt (e - s) 2 ltac:(lia) ltac:(lia)). lia.
Qed.

(** The loop keeps the keys left of [start] below [x], the keys from [end_] on
    above it, and [mid = start] when it is about to stop. *)
Lemma search_loop_spec fuel a x : ∀ s e m,
  increasing a → s ≤ e ≤ length a → e - s < fuel →
  (∀ i k, a !! i = Some k → i < s → (k < x)%N) →
  (∀ i k, a !! i = Some k → e ≤ i → (x < k)%N) →
  (s = e → m = s) →
  search_loop fuel a x s e m = lower_bound a x.
Proof.
  induction fuel as [|fuel IH]; intros s e m Hs Hse Hf Hlo Hhi Hm; [lia|].
  cbn [search_loop]. case_if; rename E into E1.
  2:{ symmetry. rewrite (Hm ltac:(lia)). apply lower_bound_unique; [lia|done|].
      intros k Hk. specialize (Hhi _ _ Hk). lia. }
  pose proof (half_between s e E1) as Hmid.
  set (mid := s + (e - s) / 2) in *.
  destruct (lookup_lt_is_Some_2 a mid) as [k Hk]; [lia|].
  rewrite (list_lookup_total_correct _ _ _ Hk).
  assert (∀ i k', a !! i = Some k' → mid < i → (k < k')%N) as Hup
    by (intros; eapply increasing_lookup; eauto).
  assert (∀ i k', a !! i = Some k' → i < mid → (k' < k)%N) as Hdn
    by (intros; eapply increasing_lookup; eauto).
  destruct (state_set_cmpval_spec x k) as [[? ->]|[[-> ->]|[? ->]]]; cbn [Z.ltb Z.compare].
  - apply IH; try lia; auto. intros i k' Hi Hle.
    destruct (decide (i = mid)) as [->|]; [by simplify_eq|]. specialize (Hup _ _ Hi). lia.
  - symmetry. apply lower_bound_unique; [lia|eauto|]. intros. simplify_eq. lia.
  - apply IH; try lia; auto.
    + intros i k' Hi Hlt. destruct (decide (i = mid)) as [->|]; [by simplify_eq|].
      specialize (Hdn _ _ Hi). lia.
    + intros Heq. by rewrite (proj2 (Nat.eqb_eq _ _) Heq).
Qed.

Lemma state_set_search_spec a x : increasing a → state_set_search a x = lower_bound a x.
Proof.
  intros Hs. unfold state_set_search. case_if.
  - symmetry. apply lower_bound_end; [|done]. intros k Hk. rewrite last_lookup in Hk.
    replace (pred (length a)) with (length a - 1) in Hk by lia.
    by rewrite (list_lookup_total_correct _ _ _ Hk) in *.
  - apply search_loop_spec; [done|lia|lia|lia| |lia].
    intros i k Hi. apply lookup_lt_Some in Hi. lia.
Qed.

Lemma search_hit a x :
  increasing a →
  (lower_bound a x <? length a) && N.eqb (a !!! lower_bound a x) x = bool_decide (x ∈ a).
Proof.
  intros Hs. case_bool_decide as Hx.
  - pose proof (elem_of_lower_bound _ _ Hs Hx) as Hl.
    rewrite (list_lookup_total_correct _ _ _ Hl), N.eqb_refl, andb_true_r.
    apply Nat.ltb_lt. by apply lookup_lt_Some in Hl.
  - apply andb_false_iff. destruct (lower_bound a x <? length a) eqn:E; [right|by left].
    split_bool. destruct (lookup_lt_is_Some_2 a _ E) as [k Hk].
    rewrite (list_lookup_total_correct _ _ _ Hk). apply N.eqb_neq. intros ->.
    apply Hx, list_elem_of_lookup; eauto.
Qed.

Lemma state_set_empty_spec set : state_set_empty set = true ↔ ss_elems set = [].
Proof.
  destruct set as [| |al a n]; simpl; [done|done|].
  rewrite Nat.eqb_eq. by destruct a.
Qed.

Lemma state_set_count_spec set : state_set_count set = length (ss_elems set).
Proof. by destruct set. Qed.

Lemma state_set_contains_bool set x :
  state_set_wf set → state_set_contains set x = bool_decide (ss_has set x).
Proof.
  intros (Hs & _ & _). unfold state_set_contains, ss_has. destruct set as [|s|al a n]; simpl in *.
  - done.
  - case_bool_decide as Hx; rewrite list_elem_of_singleton in Hx;
      [apply N.eqb_eq|apply N.eqb_neq]; congruence.
  - rewrite state_set_search_spec, search_hit by done. case_if; [|done].
    by destruct a.
Qed.

Lemma state_set_wf_array al a n :
  increasing a → Forall (λ s, (s < 4294967296)%N) a → length a ≤ n → 0 < n →
  state_set_wf (SSArray al a n).
Proof. done. Qed.

Lemma state_set_wf_null : state_set_wf SSNull.
Proof. by repeat constructor. Qed.

Lemma state_set_wf_single s : (s < 4294967296)%N → state_set_wf (SSSingle s).
Proof. by repeat constructor. Qed.

#[export] Hint Resolve state_set_wf_array state_set_wf_null state_set_wf_single : fsm.

Ltac ss_solver := unfold ss_has in *; simpl in *; set_solver.

Section OpLemmas.
Context `{allocator}.

(** What an insertion promises: on success the set is the old one with the
    new states. *)
Definition ss_extends (set set' : state_set) (l : list N) : Prop :=
  state_set_wf set' ∧ ∀ x, ss_has set' x ↔ ss_has set x ∨ x ∈ l.

Lemma state_set_add_array_spec al a n x b set' :
  state_set_wf (SSArray al a n) → (x < 4294967296)%N →
  state_set_add_array al a n x = (b, set') →
  if b then ss_extends (SSArray al a n) set' [x] else set' = SSArray al a n.
Proof.
  intros (Hs & Hb & Hn & Hpos) Hx. unfold state_set_add_array. simpl in Hs, Hb.
  rewrite state_set_search_spec by done. destruct n as [|n]; [lia|].
  destruct a as [|k a]; simpl length; cbn [Nat.eqb negb andb].
  { intros [= <- <-]. split; [|ss_solver]. apply state_set_wf_array; simpl; [|by repeat constructor|lia|lia].
    by repeat constructor. }
  pose proof (search_hit (k :: a) x Hs) as Hhit. simpl length in Hhit. rewrite Hhit.
  assert (length (insert_at (lower_bound (k :: a) x) x (k :: a)) = S (S (length a))) as Hlen
    by (rewrite length_insert_at by apply lower_bound_le; done).
  assert (Forall (λ s, (s < 4294967296)%N) (insert_at (lower_bound (k :: a) x) x (k :: a))).
  { apply Forall_forall. intros y [->|Hy]%elem_of_insert_at; [done|].
    rewrite Forall_forall in Hb. by apply Hb. }
  simpl in Hn. case_bool_decide as Hin.
  - intros [= <- <-]. split; [done|]. ss_solver.
  - assert (∀ n', S (S (length a)) ≤ n' →
      ss_extends (SSArray al (k :: a) (S n)) (SSArray al (insert_at (lower_bound (k :: a) x) x (k :: a)) n') [x]) as Hok.
    { intros n' Hn'. split.
      { apply state_set_wf_array; [by apply increasing_insert_at|done|lia|lia]. }
      intros y. unfold ss_has. cbn [ss_elems]. rewrite elem_of_insert_at, list_elem_of_singleton. tauto. }
    case_if; [case_if|]; intros [= <- <-]; [apply Hok; lia|done|apply Hok; lia].
Qed.

Lemma state_set_add_bulk_array_spec al a n l b set' :
  length a ≤ n → 0 < n → Forall (λ s, (s < 4294967296)%N) (a ++ l) →
  state_set_add_bulk_array al a n l = (b, set') →
  if b then state_set_wf set' ∧ ∀ x, ss_has set' x ↔ x ∈ a ++ l
  else set' = SSArray al a n.
Proof.
  intros Hn Hpos Hb. unfold state_set_add_bulk_array.
  assert (∀ n', length a + length l ≤ n' → 0 < n' →
    state_set_wf (SSArray al (dedup_inplace (qsort_N (a ++ l))) n') ∧
    ∀ x, ss_has (SSArray al (dedup_inplace (qsort_N (a ++ l))) n') x ↔ x ∈ a ++ l) as Hok.
  { intros n' Hn' Hp. split; [|intros; apply elem_of_sort_dedup].
    apply state_set_wf_array; [by auto with fsm| | |done].
    - apply Forall_forall. intros x. rewrite elem_of_sort_dedup. rewrite Forall_forall in Hb. apply Hb.
    - pose proof (length_dedup_inplace (a ++ l)). rewrite length_app in *. lia. }
  repeat case_if; intros; simplify_eq; try done; apply Hok; lia.
Qed.

Lemma state_set_create_spec al set :
  state_set_create al = Some set → set = SSArray al [] SET_INITIAL.
Proof. unfold state_set_create. by repeat case_if; intros; simplify_eq. Qed.

Lemma state_set_add_extends set al x set' :
  state_set_wf set → (x < 4294967296)%N →
  state_set_add set al x = (true, set') → ss_extends set set' [x].
Proof.
  intros Hwf Hx. destruct set as [|s|al' a n]; simpl.
  - intros [= <-]. split; [by auto with fsm|ss_solver].
  - destruct (state_set_create al) as [set0|] eqn:E; [|done].
    apply state_set_create_spec in E as ->. intros Heq.
    apply state_set_add_bulk_array_spec in Heq; simpl; [|lia|unfold SET_INITIAL; lia|].
    + destruct Heq as [? Heq]. split; [done|]. intros y. rewrite Heq. ss_solver.
    + destruct Hwf as (_ & Hf & _). simpl in Hf. by repeat constructor; [inversion Hf|].
  - intros Heq. by apply state_set_add_array_spec in Heq.
Qed.

Lemma state_set_add_bulk_extends set al l set' :
  state_set_wf set → Forall (λ s, (s < 4294967296)%N) l →
  state_set_add_bulk set al l = (true, set') → ss_extends set set' l.
Proof.
  intros Hwf Hl. destruct l as [|x [|y l]]; cbn [state_set_add_bulk].
  - intros [= <-]. split; [done|]. ss_solver.
  - intros Heq. apply state_set_add_extends in Heq; [done|done|by inversion Hl].
  - set (l' := x :: y :: l) in *. destruct set as [|s|al' a n].
    + destruct (state_set_create al) as [set0|] eqn:E; [|done].
      apply state_set_create_spec in E as ->. intros Heq.
      apply state_set_add_bulk_array_spec in Heq as [? Heq]; simpl;
        [|lia|unfold SET_INITIAL; lia|done].
      split; [done|]. intros z. rewrite Heq. ss_solver.
    + destruct (state_set_create al) as [set0|] eqn:E; [|done].
      apply state_set_create_spec in E as ->.
      destruct Hwf as (_ & Hf & _). simpl in Hf.
      cbn [state_set_add_array length Nat.eqb negb andb]. intros Heq.
      apply state_set_add_bulk_array_spec in Heq as [? Heq]; simpl;
        [|unfold SET_INITIAL; lia|unfold SET_INITIAL; lia|].
      * split; [done|]. intros z. rewrite Heq. ss_solver.
      * constructor; [by inversion Hf|done].
    + intros Heq. destruct Hwf as (_ & Hf & Hn & ?).
      apply state_set_add_bulk_array_spec in Heq as [? Heq]; [|done|done|by apply Forall_app].
      split; [done|]. intros z. rewrite Heq. unfold ss_has. simpl. by rewrite elem_of_app.
Qed.
End OpLemmas.

Section OpLemmas2.
Context `{allocator}.

Lemma state_set_copy_extends dst al src dst' :
  state_set_wf dst → state_set_wf src →
  state_set_copy dst al src = (true, dst') → ss_extends dst dst' (ss_elems src).
Proof.
  intros Hd (_ & Hb & _). destruct src as [|s|al' a n]; simpl in *; intros Heq.
  - simplify_eq. split; [done|]. ss_solver.
  - by apply state_set_add_extends in Heq; [|done|inversion Hb].
  - by apply state_set_add_bulk_extends in Heq.
Qed.

Lemma state_set_add_total `{!alloc_total} set al x :
  ∃ set', state_set_add set al x = (true, set').
Proof.
  destruct set as [|s|al' a n]; simpl; [eauto| |].
  - unfold state_set_create, state_set_add_bulk_array. alloc_ok. simpl. eauto.
  - unfold state_set_add_array. alloc_ok. repeat case_if; eauto.
Qed.

Lemma state_set_add_bulk_array_total `{!alloc_total} al a n l :
  ∃ set', state_set_add_bulk_array al a n l = (true, set').
Proof. unfold state_set_add_bulk_array. alloc_ok. repeat case_if; eauto. Qed.

Lemma state_set_add_bulk_total `{!alloc_total} set al l :
  ∃ set', state_set_add_bulk set al l = (true, set').
Proof.
  destruct l as [|x [|y l]]; cbn [state_set_add_bulk]; [eauto|apply state_set_add_total|].
  destruct set as [|s|al' a n]; unfold state_set_create; alloc_ok;
    cbn [state_set_add_array length Nat.eqb negb andb]; apply state_set_add_bulk_array_total.
Qed.

Lemma state_set_copy_total `{!alloc_total} dst al src :
  ∃ dst', state_set_copy dst al src = (true, dst').
Proof.
  destruct src; simpl; eauto using state_set_add_total, state_set_add_bulk_total.
Qed.
End OpLemmas2.

Lemma state_set_remove_spec set x :
  state_set_wf set →
  state_set_wf (state_set_remove set x) ∧
  ∀ y, ss_has (state_set_remove set x) y ↔ ss_has set y ∧ y ≠ x.
Proof.
  intros Hwf. destruct set as [|s|al a n]; simpl.
  - split; [done|]. ss_solver.
  - case_if; subst; (split; [by auto with fsm|]); ss_solver.
  - destruct Hwf as (Hs & Hb & Hn & Hp). simpl in Hs, Hb. rewrite state_set_search_spec by done.
    rewrite search_hit by done. destruct (length a =? 0) eqn:E0; split_bool.
    { destruct a; [|done]. split; [done|]. ss_solver. }
    case_bool_decide as Hx.
    + pose proof (elem_of_lower_bound _ _ Hs Hx) as Hl.
      split; [apply state_set_wf_array; [by auto with fsm| | |done]|].
      * apply Forall_forall. intros y. rewrite elem_of_delete_at_increasing by done.
        rewrite Forall_forall in Hb. naive_solver.
      * pose proof (length_delete_at _ a (lookup_lt_Some _ _ _ Hl)). lia.
      * intros y. by apply elem_of_delete_at_increasing.
    + split; [done|]. unfold ss_has; simpl. naive_solver.
Qed.

Lemma state_set_rebase_elems set base :
  ss_elems (state_set_rebase set base) = (λ s, (s +32 base)%cint) <$> ss_elems set.
Proof. by destruct set. Qed.

Lemma rebase_no_wrap l base :
  Forall (λ s, (s + base < 4294967296)%N) l →
  (λ s, (s +32 base)%cint) <$> l = (λ s, (s + base)%N) <$> l.
Proof. intros Hl. apply list_fmap_ext. intros i s Hs. apply u32_small. by eapply Forall_lookup in Hl. Qed.

Lemma state_set_rebase_spec set base :
  state_set_wf set → Forall (λ s, (s + base < 4294967296)%N) (ss_elems set) →
  state_set_wf (state_set_rebase set base) ∧
  ss_elems (state_set_rebase set base) = (λ s, (s + base)%N) <$> ss_elems set.
Proof.
  intros (Hs & _ & Hn) Hb. pose proof (state_set_rebase_elems set base) as He.
  rewrite rebase_no_wrap in He by done. split; [|done]. unfold state_set_wf. rewrite He.
  split; [|split].
  - eapply StronglySorted_fmap; [|done]. intros; lia.
  - by apply Forall_fmap.
  - destruct set; simpl in *; [done|done|]. by rewrite length_fmap.
Qed.

(** A remapping that keeps the order of the states it keeps, such as the one
    built by fsm_compact_states. *)
Definition order_preserving (remap : N → N) : Prop :=
  (∀ s, remap s = FSM_STATE_REMAP_NO_STATE ∨ (remap s ≤ s)%N) ∧
  ∀ s t, (s < t)%N → remap s ≠ FSM_STATE_REMAP_NO_STATE →
    remap t ≠ FSM_STATE_REMAP_NO_STATE → (remap s < remap t)%N.

Lemma remap_increasing remap a :
  order_preserving remap → increasing a →
  increasing (filter (λ s, s ≠ FSM_STATE_REMAP_NO_STATE) (remap <$> a)).
Proof.
  intros [_ Hmono]. induction 1 as [|k a _ IH Hk]; simpl; [constructor|].
  rewrite filter_cons. case_decide; [|done].
  apply StronglySorted_cons; split; [|done].
  apply Forall_forall. intros y [Hy (x & -> & Hx)%list_elem_of_fmap]%list_elem_of_filter.
  rewrite Forall_forall in Hk. auto.
Qed.

Lemma state_set_compact_spec set remap :
  state_set_wf set → order_preserving remap →
  ∃ set', state_set_compact set remap = Some set' ∧ state_set_wf set' ∧
    ∀ y, ss_has set' y ↔
      ∃ x, ss_has set x ∧ remap x = y ∧ y ≠ FSM_STATE_REMAP_NO_STATE.
Proof.
  intros (Hs & Hb & Hn) Hop. pose proof Hop as [Hle _].
  destruct set as [|s|al a n]; cbn [state_set_compact].
  - eexists; split; [done|]. split; [done|]. ss_solver.
  - case_if.
    { eexists; split; [done|]. split; [by auto with fsm|]. unfold ss_has; simpl. set_solver. }
    destruct (Hle s) as [?|Hs']; [done|]. rewrite (proj2 (N.leb_le _ _) Hs').
    eexists; split; [done|]. split.
    + inversion Hb; subst. apply state_set_wf_single. lia.
    + unfold ss_has; simpl. set_solver.
  - simpl in Hs, Hb. eexists; split; [done|]. split.
    + assert (Forall (λ s, (s < 4294967296)%N) (filter (λ s, s ≠ FSM_STATE_REMAP_NO_STATE) (remap <$> a))).
      { apply Forall_forall. intros y [Hy (x & -> & Hx)%list_elem_of_fmap]%list_elem_of_filter.
        rewrite Forall_forall in Hb. specialize (Hb x Hx). destruct (Hle x); [done|lia]. }
      assert (length (filter (λ s, s ≠ FSM_STATE_REMAP_NO_STATE) (remap <$> a)) ≤ n).
      { etrans; [apply length_filter|]. rewrite length_fmap. tauto. }
      apply state_set_wf_array; [|done|done|tauto].
      by apply remap_increasing.
    + intros y. unfold ss_has; simpl. rewrite list_elem_of_filter, list_elem_of_fmap. naive_solver.
Qed.

Lemma state_iter_run_array al a n : ∀ fuel i,
  length a < fuel + i →
  state_iter_run fuel {| si_i := i; si_set := SSArray al a n |} = drop i a.
Proof.
  induction fuel as [|fuel IH]; intros i Hf; simpl.
  { by rewrite drop_ge by lia. }
  unfold state_set_next. simpl. case_if.
  { by rewrite drop_ge by lia. }
  destruct (lookup_lt_is_Some_2 a i E) as [x Hx].
  rewrite (drop_S _ _ _ Hx), (list_lookup_total_correct _ _ _ Hx).
  f_equal. rewrite IH by lia. f_equal. lia.
Qed.

Lemma state_iter_run_elems set fuel :
  state_set_count set < fuel → state_iter_run fuel (state_set_reset set) = ss_elems set.
Proof.
  intros Hf. destruct set as [|s|al a n]; simpl in *.
  - by destruct fuel.
  - destruct fuel as [|[|fuel]]; [lia|lia|done].
  - unfold state_set_reset. rewrite state_iter_run_array by lia. by rewrite drop_0.
Qed.

(** The states a loop over the set goes through. *)
Definition state_loop (set : state_set) : list N :=
  state_iter_run (S (state_set_count set)) (state_set_reset set).

Lemma state_loop_elems set : state_loop set = ss_elems set.
Proof. apply state_iter_run_elems. lia. Qed.

(** ** The set interface and its refinement

    The abstract state is a finite set of states; a client sees insertions,
    removals, unions, membership, the count and the iteration order. *)

Inductive ss_op :=
  | OpAdd (s : N)
  | OpAddBulk (l : list N)
  | OpRemove (s : N)
  | OpCopy (src : state_set).

Definition ss_op_ok (op : ss_op) : Prop :=
  match op with
  | OpAdd s => (s < 4294967296)%N
  | OpAddBulk l => Forall (λ s, (s < 4294967296)%N) l
  | OpRemove _ => True
  | OpCopy src => state_set_wf src
  end.

Definition ss_spec (S : gset N) (op : ss_op) : gset N :=
  match op with
  | OpAdd s => {[ s ]} ∪ S
  | OpAddBulk l => list_to_set l ∪ S
  | OpRemove s => S ∖ {[ s ]}
  | OpCopy src => list_to_set (ss_elems src) ∪ S
  end.

(** A sequence of calls that stops at the first failure. *)
Definition ss_exec `{allocator} (al : fsm_alloc) (set : state_set) (op : ss_op)
    : bool * state_set :=
  match op with
  | OpAdd s => state_set_add set al s
  | OpAddBulk l => state_set_add_bulk set al l
  | OpRemove s => (true, state_set_remove set s)
  | OpCopy src => state_set_copy set al src
  end.

Fixpoint ss_exec_all `{allocator} (al : fsm_alloc) (set : state_set) (ops : list ss_op)
    : bool * state_set :=
  match ops with
  | [] => (true, set)
  | op :: ops =>
      match ss_exec al set op with
      | (true, set') => ss_exec_all al set' ops
      | (false, set') => (false, set')
      end
  end.

Definition ss_refines (set : state_set) (S : gset N) : Prop :=
  state_set_wf set ∧ ∀ x, ss_has set x ↔ x ∈ S.

Lemma ss_exec_refines `{allocator} al set S op set' :
  ss_refines set S → ss_op_ok op → ss_exec al set op = (true, set') →
  ss_refines set' (ss_spec S op).
Proof.
  intros [Hwf HS] Hop Heq. destruct op as [s|l|s|src]; simpl in *.
  - apply state_set_add_extends in Heq as [? He]; [|done|done].
    split; [done|]. intros x. rewrite He, HS. set_solver.
  - apply state_set_add_bulk_extends in Heq as [? He]; [|done|done].
    split; [done|]. intros x. rewrite He, HS. set_solver.
  - simplify_eq. destruct (state_set_remove_spec set s Hwf) as [? He].
    split; [done|]. intros x. rewrite He, HS. set_solver.
  - apply state_set_copy_extends in Heq as [? He]; [|done|done].
    split; [done|]. intros x. rewrite He, HS. set_solver.
Qed.

Lemma ss_exec_total `{allocator, !alloc_total} al set op :
  ∃ set', ss_exec al set op = (true, set').
Proof.
  destruct op; simpl; eauto using state_set_add_total, state_set_add_bulk_total,
    state_set_copy_total.
Qed.

Lemma ss_exec_all_refines `{allocator, !alloc_total} al ops : ∀ set S,
  ss_refines set S → Forall ss_op_ok ops →
  ∃ set', ss_exec_all al set ops = (true, set') ∧ ss_refines set' (foldl ss_spec S ops).
Proof.
  induction ops as [|op ops IH]; intros set S Hr Hok; simpl; [eauto|].
  apply Forall_cons in Hok as [Hop Hok]. destruct (ss_exec_total al set op) as [set' E].
  rewrite E. apply IH; [|done]. by eapply ss_exec_refines.
Qed.

Lemma ss_refines_observations set S :
  ss_refines set S →
  (∀ x, state_set_contains set x = bool_decide (x ∈ S)) ∧
  state_set_count set = size S ∧
  state_set_empty set = bool_decide (S = ∅) ∧
  state_iter_run (1 + state_set_count set) (state_set_reset set) = merge_sort N.le (elements S).
Proof.
  intros [Hwf HS]. pose proof Hwf as (Hs & _ & _).
  assert (ss_elems set ≡ₚ elements S) as Hp.
  { apply NoDup_Permutation; [by auto with fsm|apply NoDup_elements|].
    intros x. rewrite elem_of_elements. apply HS. }
  split; [|split; [|split]].
  - intros x. rewrite state_set_contains_bool by done. by apply bool_decide_ext.
  - rewrite state_set_count_spec. by rewrite Hp.
  - pose proof (state_set_empty_spec set) as He. case_bool_decide as HSe.
    + apply He. subst. rewrite elements_empty in Hp. by apply Permutation_nil_r in Hp.
    + apply not_true_is_false. rewrite He. intros Hn. apply HSe. apply set_eq.
      intros x. rewrite <-HS. unfold ss_has. rewrite Hn. set_solver.
  - rewrite state_iter_run_elems by lia.
    apply (StronglySorted_unique N.le).
    + clear -Hs. induction Hs as [|k a _ IH Hk]; constructor; [done|].
      eapply Forall_impl; [done|]. intros; lia.
    + apply StronglySorted_merge_sort; [intros ???; lia|intros ??; lia].
    + by rewrite merge_sort_Permutation.
Qed.

(** C20. The refinement theorem for state sets: from the empty (NULL) set, any
    sequence of insertions, bulk insertions, removals and copies succeeds when
    allocation does, keeps the representation invariant (strictly sorted
    array, within capacity), and every observation (membership by binary
    search, count, emptiness, the order of iteration) is that of the finite
    set the sequence denotes. *)
Theorem state_set_refines_gset `{allocator, !alloc_total} al ops :
  Forall ss_op_ok ops →
  ∃ set, ss_exec_all al SSNull ops = (true, set) ∧ state_set_wf set ∧
    let S := foldl ss_spec ∅ ops in
    (∀ x, state_set_contains set x = bool_decide (x ∈ S)) ∧
    state_set_count set = size S ∧
    state_set_empty set = bool_decide (S = ∅) ∧
    state_iter_run (1 + state_set_count set) (state_set_reset set)
      = merge_sort N.le (elements S).
Proof.
  intros Hok. destruct (ss_exec_all_refines al ops SSNull ∅) as (set & E & Hr); [|done|].
  { split; [by auto with fsm|]. ss_solver. }
  exists set. split; [done|]. split; [apply Hr|]. by apply ss_refines_observations.
Qed.

Lemma state_set_refines_gset_witness :
  ∃ set, @ss_exec_all always 0%N SSNull [OpAdd 5; OpAdd 3; OpAddBulk [9; 3; 4]; OpRemove 5]%N
    = (true, set) ∧ state_set_contains set 4 = true.
Proof.
  destruct (@state_set_refines_gset always always_total 0%N
    [OpAdd 5; OpAdd 3; OpAddBulk [9; 3; 4]; OpRemove 5]%N) as (set & E & _ & Hc & _).
  - repeat constructor.
  - exists set. split; [exact E|]. rewrite Hc. reflexivity.
Defined.

(** ** Errors, encodings and comparison *)

Lemma state_set_add_false `{allocator} set al x set' :
  state_set_wf set → (x < 4294967296)%N →
  state_set_add set al x = (false, set') →
  (∃ al' a n, set = SSArray al' a n ∧ set' = set) ∨
  (∃ s, set = SSSingle s ∧ set' = SSNull ∧ state_set_create al = None).
Proof.
  intros Hwf Hx. destruct set as [|s|al' a n]; simpl; [done| |].
  - destruct (state_set_create al) as [set0|] eqn:E.
    + apply state_set_create_spec in E as ->. simpl. done.
    + intros [= <-]. right. eauto.
  - intros Heq. apply state_set_add_array_spec in Heq; [|done|done]. subst. left. eauto.
Qed.

(** When [state_set_add] fails for lack of memory, an array set is left as it
    was, but a singleton set is lost: its pointer has already been overwritten
    with NULL. *)
Theorem state_set_add_failure `{allocator} set al x set' :
  state_set_wf set → (x < 4294967296)%N →
  state_set_add set al x = (false, set') →
  (∃ al' a n, set = SSArray al' a n ∧ set' = set) ∨
  (∃ s, set = SSSingle s ∧ set' = SSNull ∧ state_set_create al = None).
Proof. apply state_set_add_false. Qed.

Lemma state_set_add_failure_witness :
  @state_set_add never (SSSingle 7) 0%N 9 = (false, SSNull) ∧
  ((∃ al' a n, SSSingle 7 = SSArray al' a n ∧ SSNull = SSSingle 7) ∨
   (∃ s, SSSingle 7 = SSSingle s ∧ SSNull = SSNull ∧ @state_set_create never 0%N = None)).
Proof.
  split; [reflexivity|].
  apply (@state_set_add_failure never (SSSingle 7) 0%N 9%N SSNull);
    [apply state_set_wf_single; reflexivity|reflexivity|reflexivity].
Defined.

(** Replacing the id of a state in an array set writes the new id in the place
    of the old one, without moving it: the order is lost, and the binary search
    no longer finds a state that is in the set. *)
Example state_set_replace_unsorted :
  let set := state_set_replace (SSArray 0%N [2; 5; 9]%N 8) 9 1 in
  state_set_wf (SSArray 0%N [2; 5; 9]%N 8) ∧ ss_has set 1 ∧
  state_set_contains set 1 = false ∧ ¬ state_set_wf set.
Proof.
  cbn. split; [|split; [|split]].
  - apply state_set_wf_array; [repeat constructor|repeat constructor|simpl; lia|lia].
  - right; right; left.
  - reflexivity.
  - intros [Hs _]. apply (increasing_lookup _ 1 2 5 1) in Hs; [lia|lia|reflexivity|reflexivity].
Qed.

(** C31. Encoding a state in the pointer is reversible for every 32-bit id, and
    marks the pointer as a singleton. *)
Theorem singleton_roundtrip s :
  (s < 4294967296)%N →
  SINGLETON_DECODE (SINGLETON_ENCODE s) = s ∧ IS_SINGLETON (SINGLETON_ENCODE s) = true.
Proof.
  intros Hs. unfold SINGLETON_DECODE, SINGLETON_ENCODE, IS_SINGLETON.
  assert (N.lor (N.shiftl s 1) 1 = (2 * s + 1)%N) as ->.
  { rewrite N.shiftl_mul_pow2, N.pow_1_r, N.mul_comm.
    destruct s; [done|]. simpl. done. }
  rewrite u64_small by lia. split.
  - rewrite N.shiftr_div_pow2, N.pow_1_r. rewrite N.mul_comm, N.div_add_l by done.
    rewrite N.div_small by done. rewrite N.add_0_r. by apply u32_small.
  - assert (N.land (2 * s + 1) 1 = 1)%N as ->; [|done].
    rewrite (N.land_ones _ 1), N.pow_1_r. rewrite N.add_comm, N.mul_comm, N.Div0.mod_add. done.
Qed.

Lemma singleton_roundtrip_witness :
  SINGLETON_DECODE (SINGLETON_ENCODE 4294967295) = 4294967295%N.
Proof. apply (singleton_roundtrip 4294967295). reflexivity. Defined.

Lemma le_bytes32_inj a b :
  (a < 4294967296)%N → (b < 4294967296)%N → le_bytes32 a = le_bytes32 b → a = b.
Proof.
  intros Ha Hb [= H0 H1 H2 H3].
  assert (∀ n, (n < 4294967296)%N →
    n = (n mod 256 + 256 * ((n / 256) mod 256) + 65536 * ((n / 65536) mod 256)
        + 16777216 * ((n / 16777216) mod 256))%N) as Hn.
  { clear. intros n Hn. replace 65536%N with (256 * 256)%N by done.
    replace 16777216%N with (256 * 256 * 256)%N by done. rewrite <-!N.Div0.div_div.
    pose proof (N.div_mod n 256 ltac:(done)). pose proof (N.div_mod (n / 256) 256 ltac:(done)).
    pose proof (N.div_mod (n / 256 / 256) 256 ltac:(done)).
    assert (n / 256 / 256 / 256 < 256)%N as Hlt.
    { rewrite !N.Div0.div_div. apply N.Div0.div_lt_upper_bound. lia. }
    rewrite (N.mod_small (n / 256 / 256 / 256)) by done. lia. }
  rewrite (Hn a Ha), (Hn b Hb). congruence.
Qed.

Lemma memcmp_zero a b : length a = length b → memcmp a b = 0%Z ↔ a = b.
Proof.
  revert b; induction a as [|x a IH]; intros [|y b] Hl; simplify_eq/=; [done|].
  destruct (x <? y)%N eqn:E1; [split_bool; split; [done|intros; simplify_eq; lia]|].
  destruct (y <? x)%N eqn:E2; [split_bool; split; [done|intros; simplify_eq; lia]|].
  split_bool. rewrite IH by done. assert (x = y) by lia. subst. naive_solver.
Qed.

Lemma le_bytes32_bind_inj xa xb :
  Forall (λ s, (s < 4294967296)%N) xa → Forall (λ s, (s < 4294967296)%N) xb →
  length xa = length xb → xa ≫= le_bytes32 = xb ≫= le_bytes32 → xa = xb.
Proof.
  revert xb; induction xa as [|a xa IH]; intros [|b xb] Ha Hb Hl; simplify_eq/=; [done|].
  inversion Ha; inversion Hb; subst. intros [= ???? Hx]. f_equal; [|by apply IH].
  apply le_bytes32_inj; [done|done|]. unfold le_bytes32. congruence.
Qed.

Lemma cmp3_zero sa sb : cmp3 sa sb = 0%Z ↔ sa = sb.
Proof. unfold cmp3. repeat case_if; split; intros; lia. Qed.

(** [state_set_cmp] on two non-NULL sets returns zero exactly for sets with
    the same states, whichever of the two representations each has. *)
Theorem state_set_cmp_zero a b :
  state_set_wf a → state_set_wf b → a ≠ SSNull → b ≠ SSNull →
  ∃ r, state_set_cmp a b = Some r ∧ (r = 0%Z ↔ ss_elems a = ss_elems b).
Proof.
  intros (_ & Ha & Hna) (_ & Hb & Hnb) HA HB.
  assert (state_set_count a ≠ state_set_count b → ss_elems a ≠ ss_elems b) as Hc.
  { rewrite !state_set_count_spec. congruence. }
  destruct a as [|sa|al xa n]; [done| |]; destruct b as [|sb|al' xb n']; try done;
    cbn [state_set_cmp].
  - eexists; split; [done|]. rewrite cmp3_zero. simpl. naive_solver.
  - simpl in *. destruct xb as [|sb [|? ?]]; simpl.
    + eexists; split; [done|]. split; done.
    + destruct n'; [lia|]. simpl. eexists; split; [done|]. rewrite cmp3_zero. naive_solver.
    + eexists; split; [done|]. split; [lia|done].
  - simpl in *. destruct xa as [|sa [|? ?]]; simpl.
    + eexists; split; [done|]. split; done.
    + destruct n; [lia|]. simpl. eexists; split; [done|]. rewrite cmp3_zero. naive_solver.
    + eexists; split; [done|]. split; [lia|done].
  - simpl in *. destruct (length xa =? length xb) eqn:E; simpl; split_bool.
    + eexists; split; [done|]. rewrite memcmp_zero.
      * split; [|by intros ->]. by apply le_bytes32_bind_inj.
      * clear -E. revert xb E; induction xa as [|x xa IH]; intros [|y xb] E; simplify_eq/=; auto.
        by rewrite (IH _ E).
    + eexists; split; [done|]. split; [lia|]. intros ->. lia.
Qed.

Lemma state_set_cmp_zero_witness :
  ∃ r, state_set_cmp (SSSingle 3) (SSArray 0%N [3%N] 8) = Some r ∧ (r = 0%Z ↔ [3%N] = [3%N]).
Proof.
  apply (state_set_cmp_zero (SSSingle 3) (SSArray 0%N [3%N] 8)).
  - apply state_set_wf_single. reflexivity.
  - apply state_set_wf_array; [repeat constructor|repeat constructor|simpl; lia|lia].
  - discriminate.
  - discriminate.
Defined.
