(* ===== verification/Bits.v ===== *)
(** * Bit sets: include/adt/u64bitset.h and src/adt/bitmap.c

    A bare [uint64_t] array used as a set of small numbers, and the 256-bit
    map of characters built on it. A word is an [N] below 2^64, an array a list
    of words. *)

From S2P Require Import Prelude.

Definition W64 : N := 18446744073709551616.

(** [s[i]]; zero out of range, where the code does not read. *)
Definition word (s : list N) (i : nat) : N := default 0%N (s !! i).

(** [(uint64_t)1 << (id & 63)] *)
Definition bit64 (id : nat) : N := N.shiftl 1 (N.of_nat (Nat.land id 63)).

Definition u64bitset_get (s : list N) (id : nat) : N :=
  N.land (word s (id / 64)) (bit64 id).

Definition u64bitset_set (s : list N) (id : nat) : list N :=
  <[id / 64 := N.lor (word s (id / 64)) (bit64 id)]> s.

Definition u64bitset_clear (s : list N) (id : nat) : list N :=
  <[id / 64 := N.ldiff (word s (id / 64)) (bit64 id)]> s.

Definition u64bitset_words (count : nat) : nat :=
  count / 64 + (if Nat.land count 63 =? 0 then 0 else 1).

(** [__builtin_popcountl] *)
Fixpoint pos_popcount (p : positive) : N :=
  match p with
  | xH => 1
  | xO p => pos_popcount p
  | xI p => N.succ (pos_popcount p)
  end.

Definition u64bitset_popcount (s : N) : N :=
  u8 match s with N0 => 0 | Npos p => pos_popcount p end.

(** The test every caller makes on the result of [u64bitset_get]. *)
Definition bs_get (s : list N) (id : nat) : bool := negb (u64bitset_get s id =? 0)%N.

(** Word-wise union, intersection and difference of two arrays. *)
Definition words_or (a b : list N) : list N := zip_with N.lor a b.
Definition words_and (a b : list N) : list N := zip_with N.land a b.
Definition words_diff (a b : list N) : list N := zip_with N.ldiff a b.

(** An array of [n] 64-bit words. *)
Definition words_ok (n : nat) (s : list N) : Prop :=
  length s = n ∧ Forall (λ w, (w < W64)%N) s.

#[export] Instance words_ok_dec n s : Decision (words_ok n s).
Proof. unfold words_ok. apply _. Defined.

(** ** Lemmas *)

Lemma word_Some s i w : s !! i = Some w → word s i = w.
Proof. unfold word. by intros ->. Qed.

Lemma word_None s i : s !! i = None → word s i = 0%N.
Proof. unfold word. by intros ->. Qed.

Lemma word_insert_eq s i x : i < length s → word (<[i:=x]> s) i = x.
Proof. intros. unfold word. by rewrite list_lookup_insert_eq. Qed.

Lemma word_insert_ne s i j x : i ≠ j → word (<[i:=x]> s) j = word s j.
Proof. intros. unfold word. by rewrite list_lookup_insert_ne. Qed.

Lemma land_63 id : Nat.land id 63 = id mod 64.
Proof. change 63 with (Nat.ones 6). by rewrite Nat.land_ones. Qed.

Lemma bit64_testbit id j : N.testbit (bit64 id) j = (j =? N.of_nat (id mod 64))%N.
Proof.
  unfold bit64. rewrite land_63, N.shiftl_1_l, N.pow2_bits_eqb. apply N.eqb_sym.
Qed.

Lemma bit64_lt id : (bit64 id < W64)%N.
Proof.
  unfold bit64. rewrite land_63, N.shiftl_1_l. change W64 with (2 ^ 64)%N.
  apply N.pow_lt_mono_r; [done|]. pose proof (Nat.mod_upper_bound id 64). lia.
Qed.

Lemma land_pow2_zero w k : (N.land w (2 ^ k) =? 0)%N = negb (N.testbit w k).
Proof.
  destruct (N.testbit w k) eqn:E; simpl.
  - apply N.eqb_neq. intros H0. apply (f_equal (λ n, N.testbit n k)) in H0.
    rewrite N.land_spec, N.pow2_bits_true, E, N.bits_0 in H0. done.
  - apply N.eqb_eq. apply N.bits_inj. intros j. rewrite N.land_spec, N.pow2_bits_eqb, N.bits_0.
    destruct (N.eqb_spec k j) as [->|]; [by rewrite E|apply andb_false_r].
Qed.

Lemma bs_get_testbit s id :
  bs_get s id = N.testbit (word s (id / 64)) (N.of_nat (id mod 64)).
Proof.
  unfold bs_get, u64bitset_get, bit64.
  by rewrite land_63, N.shiftl_1_l, land_pow2_zero, negb_involutive.
Qed.

Lemma same_word_bit i j : i / 64 = j / 64 → i mod 64 = j mod 64 → i = j.
Proof.
  intros H1 H2. pose proof (Nat.div_mod_eq i 64). pose proof (Nat.div_mod_eq j 64). lia.
Qed.

Lemma bs_get_set s id j :
  id / 64 < length s → bs_get (u64bitset_set s id) j = bs_get s j || (j =? id).
Proof.
  intros Hl. rewrite !bs_get_testbit. unfold u64bitset_set.
  destruct (decide (id / 64 = j / 64)) as [E|E].
  - rewrite <-E, word_insert_eq by done.
    rewrite N.lor_spec, bit64_testbit. f_equal.
    destruct (N.eqb_spec (N.of_nat (j mod 64)) (N.of_nat (id mod 64))) as [E'|E'];
      symmetry; [apply Nat.eqb_eq|apply Nat.eqb_neq].
    + apply same_word_bit; [done|lia].
    + intros ->; lia.
  - rewrite word_insert_ne by done.
    replace (j =? id) with false; [by rewrite orb_false_r|].
    symmetry. apply Nat.eqb_neq. congruence.
Qed.

Lemma bs_get_clear s id j :
  id / 64 < length s → bs_get (u64bitset_clear s id) j = bs_get s j && negb (j =? id).
Proof.
  intros Hl. rewrite !bs_get_testbit. unfold u64bitset_clear.
  destruct (decide (id / 64 = j / 64)) as [E|E].
  - rewrite <-E, word_insert_eq by done.
    rewrite N.ldiff_spec, bit64_testbit. do 2 f_equal.
    destruct (N.eqb_spec (N.of_nat (j mod 64)) (N.of_nat (id mod 64))) as [E'|E'];
      symmetry; [apply Nat.eqb_eq|apply Nat.eqb_neq].
    + apply same_word_bit; [done|lia].
    + intros ->; lia.
  - rewrite word_insert_ne by done.
    replace (j =? id) with false; [by rewrite andb_true_r|].
    symmetry. apply Nat.eqb_neq. congruence.
Qed.

(** Reading beyond the array gives no bit: the default word is zero. *)
Lemma bs_get_ge s id : length s ≤ id / 64 → bs_get s id = false.
Proof.
  intros. rewrite bs_get_testbit. unfold word. rewrite lookup_ge_None_2 by done. apply N.bits_0.
Qed.

Lemma word_zip_with (f : N → N → N) a b i :
  f 0%N 0%N = 0%N → length a = length b →
  word (zip_with f a b) i = f (word a i) (word b i).
Proof.
  intros Hf Hl. unfold word; rewrite lookup_zip_with.
  destruct (a !! i) eqn:Ea, (b !! i) eqn:Eb; simpl; try done.
  - apply lookup_lt_Some in Ea. apply lookup_ge_None in Eb. lia.
  - apply lookup_lt_Some in Eb. apply lookup_ge_None in Ea. lia.
Qed.

Lemma bs_get_or a b j : length a = length b → bs_get (words_or a b) j = bs_get a j || bs_get b j.
Proof.
  intros. rewrite !bs_get_testbit. unfold words_or.
  by rewrite word_zip_with, N.lor_spec.
Qed.

Lemma bs_get_and a b j : length a = length b → bs_get (words_and a b) j = bs_get a j && bs_get b j.
Proof.
  intros. rewrite !bs_get_testbit. unfold words_and.
  by rewrite word_zip_with, N.land_spec.
Qed.

Lemma bs_get_diff a b j :
  length a = length b → bs_get (words_diff a b) j = bs_get a j && negb (bs_get b j).
Proof.
  intros. rewrite !bs_get_testbit. unfold words_diff.
  by rewrite word_zip_with, N.ldiff_spec.
Qed.

Lemma word_replicate n (x : N) i : i < n → word (replicate n x) i = x.
Proof. intros. unfold word; rewrite lookup_replicate_2; done. Qed.

Lemma bs_get_zero n j : bs_get (replicate n 0%N) j = false.
Proof.
  rewrite bs_get_testbit. destruct (decide (j / 64 < n)).
  - rewrite word_replicate by done. apply N.bits_0.
  - unfold word; rewrite lookup_ge_None_2 by (rewrite length_replicate; lia). apply N.bits_0.
Qed.

(** The word of an index below the size the bitset was made for. *)
Lemma words_index n i : i < n → i / 64 < u64bitset_words n.
Proof.
  intros Hi. unfold u64bitset_words. rewrite land_63. pose proof (Nat.div_mod_eq n 64). pose proof (Nat.div_mod_eq i 64).
  pose proof (Nat.mod_upper_bound n 64 ltac:(lia)). pose proof (Nat.mod_upper_bound i 64 ltac:(lia)).
  repeat case_match; split_bool; lia.
Qed.

Lemma W64_testbit w : (∀ k, (64 ≤ k)%N → N.testbit w k = false) → (w < W64)%N.
Proof.
  intros Hk. destruct (decide (w < W64)%N) as [|Hge]; [done|]. exfalso.
  assert (w ≠ 0%N) as Hw by (intros ->; apply Hge; done).
  assert (64 ≤ N.log2 w)%N as Hl.
  { apply N.log2_le_pow2; [lia|]. change (2 ^ 64)%N with W64. lia. }
  pose proof (N.bit_log2 w Hw) as H. rewrite Hk in H; done.
Qed.

Lemma W64_high w k : (w < W64)%N → (64 ≤ k)%N → N.testbit w k = false.
Proof.
  intros Hw Hk. destruct (decide (w = 0%N)) as [->|]; [apply N.bits_0|].
  apply N.bits_above_log2. eapply N.lt_le_trans; [|exact Hk].
  apply N.log2_lt_pow2; [lia|exact Hw].
Qed.

Lemma W64_lor a b : (a < W64)%N → (b < W64)%N → (N.lor a b < W64)%N.
Proof. intros. apply W64_testbit. intros. by rewrite N.lor_spec, !W64_high. Qed.

Lemma W64_ldiff a b : (a < W64)%N → (N.ldiff a b < W64)%N.
Proof. intros. apply W64_testbit. intros. by rewrite N.ldiff_spec, W64_high. Qed.

Lemma W64_land a b : (a < W64)%N → (N.land a b < W64)%N.
Proof. intros. apply W64_testbit. intros. by rewrite N.land_spec, W64_high. Qed.

#[export] Hint Resolve bit64_lt W64_lor W64_ldiff W64_land : fsm_bits.

Lemma words_ok_zero n : words_ok n (replicate n 0%N).
Proof. split; [by rewrite length_replicate|]. by apply Forall_replicate. Qed.

Lemma words_ok_word n s i : words_ok n s → (word s i < W64)%N.
Proof.
  intros [_ H]. unfold word. destruct (s !! i) eqn:E; simpl; [|done].
  exact (Forall_lookup_1 _ _ _ _ H E).
Qed.

#[export] Hint Resolve words_ok_word : fsm_bits.

Lemma words_ok_set n s id : words_ok n s → words_ok n (u64bitset_set s id).
Proof.
  intros Hs. pose proof Hs as [Hl Hf]. unfold u64bitset_set. split; [by rewrite length_insert|].
  apply Forall_insert; eauto with fsm_bits.
Qed.

Lemma words_ok_clear n s id : words_ok n s → words_ok n (u64bitset_clear s id).
Proof.
  intros Hs. pose proof Hs as [Hl Hf]. unfold u64bitset_clear. split; [by rewrite length_insert|].
  apply Forall_insert; eauto with fsm_bits.
Qed.

Lemma words_ok_zip_with n f a b :
  (∀ x y, (x < W64 → y < W64 → f x y < W64)%N) → words_ok n a → words_ok n b →
  words_ok n (zip_with f a b).
Proof.
  intros Hf [Hla Ha] [Hlb Hb]. split; [rewrite length_zip_with; lia|].
  apply Forall_lookup. intros i x Hx. apply lookup_zip_with_Some in Hx as (u & v & -> & Hu & Hv).
  apply Hf; [exact (Forall_lookup_1 _ _ _ _ Ha Hu)|exact (Forall_lookup_1 _ _ _ _ Hb Hv)].
Qed.

Lemma words_ok_or n a b : words_ok n a → words_ok n b → words_ok n (words_or a b).
Proof. apply words_ok_zip_with. intros; auto with fsm_bits. Qed.

Lemma words_ok_and n a b : words_ok n a → words_ok n b → words_ok n (words_and a b).
Proof. apply words_ok_zip_with. intros; auto with fsm_bits. Qed.

Lemma words_ok_diff n a b : words_ok n a → words_ok n b → words_ok n (words_diff a b).
Proof. apply words_ok_zip_with. intros; auto with fsm_bits. Qed.

#[export] Hint Resolve words_ok_zero words_ok_set words_ok_clear words_ok_or words_ok_and
  words_ok_diff : fsm_bits.

(** Arrays of the same size with the same bits are equal. *)
Lemma words_ext n a b :
  words_ok n a → words_ok n b → (∀ j, j < 64 * n → bs_get a j = bs_get b j) → a = b.
Proof.
  intros Ha Hb Heq. pose proof Ha as [Hla Hfa]; pose proof Hb as [Hlb Hfb].
  apply list_eq_same_length with n; [done|done|].
  intros i x y Hi Hx Hy. apply N.bits_inj. intros k.
  destruct (decide (k < 64)%N) as [Hk|Hk].
  - specialize (Heq (64 * i + N.to_nat k) ltac:(lia)). rewrite !bs_get_testbit in Heq.
    assert ((64 * i + N.to_nat k) / 64 = i) as E1.
    { rewrite (Nat.mul_comm 64), Nat.div_add_l by done. rewrite Nat.div_small by lia. lia. }
    assert ((64 * i + N.to_nat k) mod 64 = N.to_nat k) as E2.
    { rewrite Nat.add_comm, Nat.mul_comm, Nat.Div0.mod_add. apply Nat.mod_small. lia. }
    rewrite E1, E2, N2Nat.id in Heq.
    unfold word in Heq; by rewrite Hx, Hy in Heq.
  - rewrite !W64_high; [done| |lia| |lia];
      [exact (Forall_lookup_1 _ _ _ _ Hfb Hy)|exact (Forall_lookup_1 _ _ _ _ Hfa Hx)].
Qed.

Lemma words_none n a : words_ok n a → (∀ j, j < 64 * n → bs_get a j = false) → a = replicate n 0%N.
Proof.
  intros Ha Hj. apply (words_ext n); auto with fsm_bits.
  intros. by rewrite bs_get_zero, Hj.
Qed.

(** A word is zero when none of its bits is set. *)
Lemma word_zero n a i :
  words_ok n a → (word a i =? 0)%N = true ↔ (∀ k, k < 64 → bs_get a (64 * i + k) = false).
Proof.
  intros Ha. rewrite N.eqb_eq.
  assert (∀ k, k < 64 → bs_get a (64 * i + k) = N.testbit (word a i) (N.of_nat k)) as Hb.
  { intros k Hk. rewrite bs_get_testbit.
    rewrite (Nat.mul_comm 64), Nat.div_add_l by done. rewrite Nat.div_small, Nat.add_0_r by lia.
    rewrite Nat.add_comm, Nat.Div0.mod_add, Nat.mod_small by lia. done. }
  split.
  - intros E k Hk. rewrite Hb, E by done. apply N.bits_0.
  - intros Hk. apply N.bits_inj. intros j. rewrite N.bits_0.
    destruct (decide (j < 64)%N).
    + specialize (Hk (N.to_nat j) ltac:(lia)). rewrite Hb, N2Nat.id in Hk by lia. done.
    + apply W64_high; [eauto with fsm_bits|lia].
Qed.

(** ** Population count *)

(** The reference: how many of the [n] lowest bits are set. *)
Fixpoint bits_below (n : nat) (w : N) : nat :=
  match n with
  | 0 => 0
  | S n => bits_below n w + (if N.testbit w (N.of_nat n) then 1 else 0)
  end.

Lemma bits_below_zero n : bits_below n 0 = 0.
Proof. induction n; simpl; [done|]. by rewrite IHn. Qed.

Lemma bits_below_succ n w :
  bits_below (S n) w = (if N.odd w then 1 else 0) + bits_below n (N.div2 w).
Proof.
  induction n as [|n IH].
  - cbn [bits_below]. change (N.of_nat 0) with 0%N. rewrite N.bit0_odd. lia.
  - change (bits_below (S (S n)) w)
      with (bits_below (S n) w + (if N.testbit w (N.of_nat (S n)) then 1 else 0)).
    rewrite IH. simpl bits_below at 2.
    replace (N.testbit (N.div2 w) (N.of_nat n)) with (N.testbit w (N.of_nat (S n))); [lia|].
    rewrite N.div2_spec, N.shiftr_spec by lia. f_equal. lia.
Qed.

Lemma pos_popcount_bits n p :
  (Npos p < 2 ^ N.of_nat n)%N → pos_popcount p = N.of_nat (bits_below n (Npos p)).
Proof.
  revert p; induction n as [|n IH]; intros p Hp; [simpl in Hp; lia|].
  assert (2 ^ N.of_nat (S n) = 2 * 2 ^ N.of_nat n)%N as E.
  { rewrite Nat2N.inj_succ, N.pow_succ_r'. done. }
  rewrite bits_below_succ. destruct p as [p|p|]; cbn [N.div2 pos_popcount Pos.div2].
  - rewrite (IH p) by lia. change (if N.odd (Npos p~1) then 1 else 0) with 1. lia.
  - rewrite (IH p) by lia. change (if N.odd (Npos p~0) then 1 else 0) with 0. lia.
  - by rewrite bits_below_zero.
Qed.

Lemma bits_below_le n w : bits_below n w ≤ n.
Proof. induction n; simpl; [done|]. case_match; lia. Qed.

Lemma u64bitset_popcount_spec w :
  (w < W64)%N → u64bitset_popcount w = N.of_nat (bits_below 64 w).
Proof.
  intros Hw. unfold u64bitset_popcount. destruct w as [|p]; [by rewrite bits_below_zero|].
  rewrite (pos_popcount_bits 64) by exact Hw. apply N.mod_small.
  pose proof (bits_below_le 64 (Npos p)). lia.
Qed.

(** How many of the ids below [n] are in the set. *)
Fixpoint count_below (n : nat) (s : list N) : nat :=
  match n with
  | 0 => 0
  | S n => count_below n s + (if bs_get s n then 1 else 0)
  end.

Lemma bs_get_word s i k : k < 64 → bs_get s (64 * i + k) = N.testbit (word s i) (N.of_nat k).
Proof.
  intros Hk. rewrite bs_get_testbit.
  rewrite (Nat.mul_comm 64), Nat.div_add_l by done. rewrite Nat.div_small, Nat.add_0_r by lia.
  rewrite Nat.add_comm, Nat.Div0.mod_add, Nat.mod_small by lia. done.
Qed.

Lemma count_below_word s i k :
  k ≤ 64 → count_below (64 * i + k) s = count_below (64 * i) s + bits_below k (word s i).
Proof.
  induction k as [|k IH]; intros Hk; [by rewrite !Nat.add_0_r|].
  rewrite Nat.add_succ_r. cbn [count_below bits_below]. rewrite IH, bs_get_word by lia. lia.
Qed.

(** Counting word by word is counting bit by bit. *)
Lemma count_below_words s n :
  count_below (64 * n) s = sum_list (bits_below 64 ∘ word s <$> seq 0 n).
Proof.
  induction n as [|n IH]; [done|].
  replace (64 * S n) with (64 * n + 64) by lia. rewrite count_below_word, IH by done.
  rewrite seq_S, fmap_app, sum_list_with_app.
  change (sum_list (bits_below 64 ∘ word s <$> [0 + n])) with (bits_below 64 (word s n) + 0). lia.
Qed.

Lemma count_below_ge s n m :
  n ≤ m → (∀ j, n ≤ j < m → bs_get s j = false) → count_below m s = count_below n s.
Proof.
  induction m as [|m IH]; intros Hnm Hj; [by replace n with 0 by lia|].
  destruct (decide (n = S m)) as [->|]; [done|]. cbn [count_below].
  rewrite (Hj m), IH by (try lia; intros; apply Hj; lia). lia.
Qed.
