(* ===== verification/Bitmap.v ===== *)
(** * Character bitmaps: src/adt/bitmap.c

    [struct bm] has [256 / CHAR_BIT] words, 32 of them, of which a bitmap of
    characters uses the first four. The assertion [i <= UCHAR_MAX] of
    [bm_get], [bm_set] and [bm_unset] is a precondition. *)

From S2P Require Import Prelude Bits.

Definition BM_WORDS : nat := 256 / 8.
Abbreviation UCHAR_MAX := 255.

Definition bm := list N.

Definition bm_get (b : bm) (i : nat) : bool := negb (u64bitset_get b i =? 0)%N.
Definition bm_set (b : bm) (i : nat) : bm := u64bitset_set b i.
Definition bm_unset (b : bm) (i : nat) : bm := u64bitset_clear b i.

(** The index of the word a pointer is returned to, [None] for NULL. *)
Definition bm_nth_word (b : bm) (n : nat) : option nat :=
  if n <? BM_WORDS then Some n else None.

Fixpoint bm_next_loop (fuel : nat) (b : bm) (n : nat) (value : bool) : nat :=
  match fuel with
  | 0 => UCHAR_MAX + 1
  | S fuel =>
      if n <=? UCHAR_MAX then
        if eqb (u64bitset_get b n =? 0)%N (negb value) then n
        else bm_next_loop fuel b (n + 1) value
      else UCHAR_MAX + 1
  end.

(** [i] is [-1] to start, a character afterwards: [n = i + 1]. *)
Definition bm_next (b : bm) (i : Z) (value : bool) : nat :=
  let n := Z.to_nat (i + 1) in
  bm_next_loop (S (UCHAR_MAX + 1 - n)) b n value.

(** The loop bound [sizeof(sizeof(bm->map)/sizeof(bm->map[0]))] is the size of
    a [size_t]. *)
Definition bm_count (b : bm) : N :=
  foldl (λ count n, (count +32 u64bitset_popcount (word b n))%cint) 0%N (seq 0 8).

Definition bm_clear (b : bm) : bm := replicate BM_WORDS 0%N.

Definition bm_invert (b : bm) : bm := (λ w, N.lnot w 64) <$> b.

Definition bm_copy (dst src : bm) : bm := src.
Definition bm_intersect (dst src : bm) : bm := words_and dst src.
Definition bm_union (dst src : bm) : bm := words_or dst src.
Definition bm_any (b : bm) : bool := existsb (λ w, negb (w =? 0)%N) b.

(** A bitmap of characters: 32 words, nothing above bit 255. *)
Definition bm_wf (b : bm) : Prop :=
  words_ok BM_WORDS b ∧ Forall (λ w, w = 0%N) (drop 4 b).

#[export] Instance bm_wf_dec b : Decision (bm_wf b).
Proof. unfold bm_wf. apply _. Defined.

Definition bm_empty : bm := replicate BM_WORDS 0%N.

(** ** Lemmas *)

Lemma char_word i : i ≤ UCHAR_MAX → i / 64 < BM_WORDS.
Proof.
  intros Hi. unfold BM_WORDS.
  assert (i / 64 < 4) by (apply Nat.Div0.div_lt_upper_bound; lia).
  change (256 / 8) with 32. lia.
Qed.

Lemma bm_get_bs b i : bm_get b i = bs_get b i.
Proof. done. Qed.

(** Setting or clearing a character changes that character only. *)
Lemma bm_get_set b i j :
  bm_wf b → i ≤ UCHAR_MAX → bm_get (bm_set b i) j = bm_get b j || (j =? i).
Proof. intros [[Hl _] _] Hi. apply bs_get_set. rewrite Hl. by apply char_word. Qed.

Lemma bm_get_unset b i j :
  bm_wf b → i ≤ UCHAR_MAX → bm_get (bm_unset b i) j = bm_get b j && negb (j =? i).
Proof. intros [[Hl _] _] Hi. apply bs_get_clear. rewrite Hl. by apply char_word. Qed.

Lemma bm_wf_high b j : bm_wf b → UCHAR_MAX < j → bm_get b j = false.
Proof.
  intros [_ Hf] Hj. rewrite bm_get_bs, bs_get_testbit.
  destruct (b !! (j / 64)) as [w|] eqn:E; [rewrite (word_Some _ _ _ E)|by rewrite (word_None _ _ E), N.bits_0].
  assert (4 ≤ j / 64) as H4 by (apply Nat.div_le_lower_bound; lia).
  assert (drop 4 b !! (j / 64 - 4) = Some w) as E'.
  { rewrite lookup_drop. rewrite <-E. f_equal. lia. }
  assert (w = 0%N) as -> by exact (Forall_lookup_1 _ _ _ _ Hf E'). apply N.bits_0.
Qed.

Lemma bm_wf_intro b :
  words_ok BM_WORDS b → (∀ j, UCHAR_MAX < j → bm_get b j = false) → bm_wf b.
Proof.
  intros Hok Hj. split; [done|]. apply Forall_lookup. intros i w Hi.
  rewrite lookup_drop in Hi.
  enough (word b (4 + i) = 0%N) as E0 by (unfold word in E0; by rewrite Hi in E0).
  apply N.eqb_eq. apply (word_zero BM_WORDS); [done|]. intros k Hk.
  rewrite <-bm_get_bs. apply Hj. lia.
Qed.

Lemma bm_wf_set b i : bm_wf b → i ≤ UCHAR_MAX → bm_wf (bm_set b i).
Proof.
  intros Hb Hi. apply bm_wf_intro; [apply words_ok_set, Hb|].
  intros j Hj. rewrite bm_get_set, bm_wf_high by done. apply Nat.eqb_neq. lia.
Qed.

Lemma bm_wf_unset b i : bm_wf b → i ≤ UCHAR_MAX → bm_wf (bm_unset b i).
Proof.
  intros Hb Hi. apply bm_wf_intro; [apply words_ok_clear, Hb|].
  intros j Hj. by rewrite bm_get_unset, bm_wf_high by done.
Qed.

Lemma bm_wf_empty : bm_wf bm_empty.
Proof. apply bm_wf_intro; [apply words_ok_zero|]. intros. apply bs_get_zero. Qed.

Lemma bm_wf_clear b : bm_wf (bm_clear b).
Proof. apply bm_wf_empty. Qed.

Lemma bm_wf_intersect a b : bm_wf a → bm_wf b → bm_wf (bm_intersect a b).
Proof.
  intros Ha Hb. apply bm_wf_intro; [apply words_ok_and; [apply Ha|apply Hb]|].
  intros j Hj. unfold bm_intersect. rewrite bm_get_bs, bs_get_and.
  - by rewrite <-!bm_get_bs, bm_wf_high.
  - destruct Ha as [[-> _] _], Hb as [[-> _] _]. done.
Qed.

Lemma bm_wf_union a b : bm_wf a → bm_wf b → bm_wf (bm_union a b).
Proof.
  intros Ha Hb. apply bm_wf_intro; [apply words_ok_or; [apply Ha|apply Hb]|].
  intros j Hj. unfold bm_union. rewrite bm_get_bs, bs_get_or.
  - by rewrite <-!bm_get_bs, !bm_wf_high.
  - destruct Ha as [[-> _] _], Hb as [[-> _] _]. done.
Qed.

#[export] Hint Resolve bm_wf_set bm_wf_unset bm_wf_empty bm_wf_intersect bm_wf_union : fsm_bits.

Lemma bm_get_union a b j :
  bm_wf a → bm_wf b → bm_get (bm_union a b) j = bm_get a j || bm_get b j.
Proof. intros [[Ha _] _] [[Hb _] _]. apply bs_get_or. congruence. Qed.

Lemma bm_get_intersect a b j :
  bm_wf a → bm_wf b → bm_get (bm_intersect a b) j = bm_get a j && bm_get b j.
Proof. intros [[Ha _] _] [[Hb _] _]. apply bs_get_and. congruence. Qed.

(** Inversion complements the characters. *)
Lemma bm_get_invert b j :
  bm_wf b → j ≤ UCHAR_MAX → bm_get (bm_invert b) j = negb (bm_get b j).
Proof.
  intros [[Hl _] _] Hj. rewrite !bm_get_bs, !bs_get_testbit. unfold bm_invert.
  pose proof (char_word _ Hj).
  destruct (lookup_lt_is_Some_2 b (j / 64)) as [w Hw]; [lia|].
  rewrite (word_Some _ _ _ Hw), (word_Some _ _ (N.lnot w 64)) by (by rewrite list_lookup_fmap, Hw).
  apply N.lnot_spec_low. pose proof (Nat.mod_upper_bound j 64). lia.
Qed.

(** The search for the next character: the least one above [i] with the
    given value, or 256 when there is none. *)
Lemma bm_next_loop_spec fuel b n value :
  UCHAR_MAX + 1 - n < fuel →
  let r := bm_next_loop fuel b n value in
  r ≤ UCHAR_MAX + 1 ∧ (r ≤ UCHAR_MAX → n ≤ r ∧ bm_get b r = value) ∧
  (∀ j, n ≤ j < r → bm_get b j = negb value).
Proof.
  revert n; induction fuel as [|fuel IH]; intros n Hf; simpl; [lia|].
  case_if; [|split; [done|]; split; [lia|intros; lia]].
  destruct (eqb (u64bitset_get b n =? 0)%N (negb value)) eqn:E1.
  - split; [lia|]. split; [|lia]. intros _. split; [done|].
    apply eqb_prop in E1. unfold bm_get. rewrite E1. apply negb_involutive.
  - assert (bm_get b n = negb value) as Hn.
    { unfold bm_get. apply eqb_false_iff in E1.
      by destruct (u64bitset_get b n =? 0)%N, value. }
    destruct (IH (n + 1)) as (H1 & H2 & H3); [lia|].
    split; [done|]. split; [intros Hr; destruct (H2 Hr); split; [lia|done]|].
    intros j Hj. destruct (decide (j = n)) as [->|]; [done|]. apply H3; lia.
Qed.

(** The count of a bitmap of characters is the number of its characters. *)
Lemma foldl_add32_spec (f : nat → nat) l acc :
  (acc + N.of_nat (sum_list (f <$> l)) < 4294967296)%N →
  foldl (λ count n, (count +32 N.of_nat (f n))%cint) acc l
    = (acc + N.of_nat (sum_list (f <$> l)))%N.
Proof.
  revert acc; induction l as [|x l IH]; intros acc Hlt; [simpl; lia|].
  change (sum_list (f <$> x :: l)) with (f x + sum_list (f <$> l)) in *.
  cbn [foldl]. rewrite u32_small by lia. rewrite IH by lia. lia.
Qed.

Lemma count_below_le n s : count_below n s ≤ n.
Proof. induction n; simpl; [done|]. case_match; lia. Qed.

Lemma bm_count_words b : words_ok BM_WORDS b → bm_count b = N.of_nat (count_below (64 * 8) b).
Proof.
  intros Hok. unfold bm_count. rewrite (count_below_words b 8).
  rewrite <-(N.add_0_l (N.of_nat _)), <-(foldl_add32_spec (bits_below 64 ∘ word b) (seq 0 8) 0).
  - generalize 0%N. induction (seq 0 8) as [|n l IH]; intros acc; [done|].
    cbn [foldl]. rewrite u64bitset_popcount_spec by eauto with fsm_bits. apply IH.
  - rewrite <-count_below_words. pose proof (count_below_le (64 * 8) b). lia.
Qed.

(** Counting a bitmap of characters gives the number of characters in it. *)
Lemma bm_count_spec b : bm_wf b → bm_count b = N.of_nat (count_below 256 b).
Proof.
  intros Hb. rewrite bm_count_words by apply Hb.
  rewrite (count_below_ge b 256); [done|lia|]. intros; apply bm_wf_high; [done|lia].
Qed.

Lemma bm_get_clear b j : bm_get (bm_clear b) j = false.
Proof. apply bs_get_zero. Qed.

Lemma count_below_all n b : count_below n b = n ↔ ∀ j, j < n → bs_get b j = true.
Proof.
  induction n as [|n IH]; cbn [count_below]; [split; [lia|done]|].
  pose proof (count_below_le n b). destruct (bs_get b n) eqn:E.
  - split.
    + intros Hc j Hj. destruct (decide (j = n)) as [->|]; [done|]. apply IH; lia.
    + intros Hj. rewrite (proj2 IH); [lia|]. intros; apply Hj; lia.
  - split; [lia|]. intros Hj. by rewrite Hj in E by lia.
Qed.

(** ** Properties *)

(** Inverting a bitmap also flips the 28 words no character uses: the empty
    bitmap inverted counts 512 characters, and the full one inverted is not
    empty although it has no character. *)
Theorem bm_invert_unused_words :
  bm_count (bm_invert bm_empty) = 512%N ∧
  (∀ j, j ≤ UCHAR_MAX → bm_get (bm_invert (words_or bm_empty (replicate 4 (N.ones 64) ++ replicate 28 0%N))) j = false) ∧
  bm_any (bm_invert (words_or bm_empty (replicate 4 (N.ones 64) ++ replicate 28 0%N))) = true.
Proof.
  split; [reflexivity|]. split; [|reflexivity].
  intros j Hj. assert (j ∈ seq 0 256) as Hin by (apply elem_of_seq; lia).
  clear Hj; revert j Hin. apply Forall_forall; by_compute.
Qed.
