(* ===== verification/EdgeSet.v ===== *)
(** * Edge sets: src/adt/edgeset.c

    The labelled edges of a state: an array of groups sorted by destination,
    each with the 256-bit set of the symbols that lead there. The empty set is
    the NULL pointer, [None] here. This file has the operations that build,
    query and edit a set; [EdgeCompact] has the renumbering of destinations and
    [EdgeIter] the iterators. *)

From S2P Require Import Prelude StateSet Bits Bitmap.

Record edge_group := mk_group {
  eg_symbols : list N; (* 256/64 words *)
  eg_to : N;
}.

(** [count] is the length of [es_groups], the used part of the array. *)
Record edge_set := mk_edge_set {
  es_ceil : nat;
  es_groups : list edge_group;
}.

Abbreviation edge_set_ptr := (option edge_set).

Record fsm_edge := mk_edge { fe_symbol : nat; fe_state : N }.

(** [struct fsm_edge] keeps the destination in a 24-bit field. *)
Definition set_fsm_edge (symbol : nat) (to : N) : fsm_edge :=
  {| fe_symbol := symbol; fe_state := u24 to |}.

#[export] Instance edge_group_inhabited : Inhabited edge_group :=
  populate (mk_group (replicate 4 0%N) 0).
#[export] Instance edge_group_eq_dec : EqDecision edge_group.
Proof. solve_decision. Defined.
#[export] Instance edge_set_eq_dec : EqDecision edge_set.
Proof. solve_decision. Defined.
#[export] Instance fsm_edge_eq_dec : EqDecision fsm_edge.
Proof. solve_decision. Defined.

Definition DEF_EDGE_GROUP_CEIL : nat := 1.
Definition sizeof_edge_group : N := 40.
Definition sizeof_edge_set : N := 24.

(** The macros on the symbols of a group. *)
Definition SYMBOLS_SET (s : list N) (id : nat) : list N := u64bitset_set s id.
Definition SYMBOLS_GET (s : list N) (id : nat) : bool := bs_get s id.
Definition SYMBOLS_CLEAR (s : list N) (id : nat) : list N := u64bitset_clear s id.

Definition edge_set_new : edge_set_ptr := None.

Definition to_at (gs : list edge_group) (i : nat) : N := default 0%N (eg_to <$> gs !! i).

(** ** Searching *)

Inductive fsp_res := FSP_FOUND_INSERT_POSITION | FSP_FOUND_VALUE_PRESENT.

Fixpoint fsp_loop (fuel : nat) (gs : list edge_group) (state : N) (lo hi mid : nat)
    : fsp_res * nat :=
  match fuel with
  | 0 => (FSP_FOUND_INSERT_POSITION, mid)
  | S fuel =>
      if lo <? hi then
        let mid := lo + (hi - lo) / 2 in
        let cur := to_at gs mid in
        if (state =? cur)%N then (FSP_FOUND_VALUE_PRESENT, mid)
        else if (cur <? state)%N then
          let lo := mid + 1 in
          let mid := if lo =? hi then lo else mid in
          fsp_loop fuel gs state lo hi mid
        else fsp_loop fuel gs state lo mid mid
      else (FSP_FOUND_INSERT_POSITION, mid)
  end.

Definition find_state_position (set : edge_set) (state : N) : fsp_res * nat :=
  let gs := es_groups set in
  let hi := length gs in
  if hi =? 0 then (FSP_FOUND_INSERT_POSITION, 0)
  else
    let last := to_at gs (hi - 1) in
    if (last <? state)%N then (FSP_FOUND_INSERT_POSITION, hi)
    else if (state =? last)%N then (FSP_FOUND_VALUE_PRESENT, hi - 1)
    else fsp_loop (S hi) gs state 0 hi 0.

(** The first label of a group, word by word and bit by bit. *)
Fixpoint first_bit (n bit : nat) (w : N) : option nat :=
  match n with
  | 0 => None
  | S n =>
      if negb (N.land w (N.shiftl 1 (N.of_nat bit)) =? 0)%N then Some bit
      else first_bit n (bit + 1) w
  end.

Fixpoint first_label_from (n i : nat) (symbols : list N) : option nat :=
  match n with
  | 0 => None
  | S n =>
      if (word symbols i =? 0)%N then first_label_from n (i + 1) symbols
      else match first_bit 64 0 (word symbols i) with
      | Some bit => Some (i * 64 + bit)
      | None => first_label_from n (i + 1) symbols
      end
  end.

Definition find_first_group_label (g : edge_group) : option nat :=
  first_label_from 4 0 (eg_symbols g).

Definition edge_set_empty (set : edge_set_ptr) : bool :=
  match set with
  | None => true
  | Some s =>
      if length (es_groups s) =? 0 then true
      else forallb (λ g, match find_first_group_label g with Some _ => false | None => true end)
        (es_groups s)
  end.

(** The loop of [edge_set_find] and [edge_set_contains]: the first group with
    the symbol. *)
Fixpoint find_group (gs : list edge_group) (symbol : nat) : option edge_group :=
  match gs with
  | [] => None
  | eg :: gs => if SYMBOLS_GET (eg_symbols eg) symbol then Some eg else find_group gs symbol
  end.

Definition edge_set_find (set : edge_set_ptr) (symbol : nat) : option fsm_edge :=
  match set with
  | None => None
  | Some s => eg ← find_group (es_groups s) symbol; Some (set_fsm_edge symbol (eg_to eg))
  end.

Definition edge_set_contains (set : edge_set_ptr) (symbol : nat) : bool :=
  if edge_set_empty set then false
  else match set with
  | None => false
  | Some s => match find_group (es_groups s) symbol with Some _ => true | None => false end
  end.

Definition edge_set_transition (set : edge_set_ptr) (symbol : nat) : option N :=
  e ← edge_set_find set symbol; Some (fe_state e).

(** [edge_set_check_edges_with_EC_mapping]: [None] where
    [assert(eg->to < ec_map_count)] fails, [Some None] for a return of 0,
    otherwise the destination and the labels. *)
Definition edge_set_check_edges_with_EC_mapping (set : edge_set_ptr) (label : nat)
    (state_ecs : list N) : option (option (N * list N)) :=
  match set with
  | None => Some None
  | Some s =>
      match find_group (es_groups s) label with
      | None => Some None
      | Some eg =>
          first_ec ← state_ecs !! N.to_nat (eg_to eg);
          labels ← foldl (λ acc g,
              labels ← acc;
              ec ← state_ecs !! N.to_nat (eg_to g);
              Some (if (ec =? first_ec)%N then words_or labels (eg_symbols g) else labels))
            (Some (replicate 4 0%N)) (es_groups s);
          Some (Some (eg_to eg, labels))
      end
  end.

(** ** Adding edges *)

(** The bit-parallel union of labels into a group. *)
Definition group_or (g : edge_group) (symbols : list N) : edge_group :=
  mk_group (words_or (eg_symbols g) symbols) (eg_to g).

Section Ops.
Context `{allocator}.

Definition grow_groups (set : edge_set) (al : fsm_alloc) : bool * edge_set :=
  let nceil := 2 * es_ceil set in
  if f_realloc al (N.of_nat nceil * sizeof_edge_group) then
    (true, mk_edge_set nceil (es_groups set))
  else (false, set).

Definition init_empty (al : fsm_alloc) : edge_set_ptr :=
  if f_malloc al sizeof_edge_set then
    if f_malloc al (N.of_nat DEF_EDGE_GROUP_CEIL * sizeof_edge_group) then
      Some (mk_edge_set DEF_EDGE_GROUP_CEIL [])
    else None
  else None.

(** The least power of two that is at least [target], by doubling. *)
Fixpoint nceil_loop (fuel nceil target : nat) : nat :=
  match fuel with
  | 0 => nceil
  | S fuel => if nceil <? target then nceil_loop fuel (nceil * 2) target else nceil
  end.

Definition edge_set_advise_growth (pset : edge_set_ptr) (al : fsm_alloc) (count : nat)
    : bool * edge_set_ptr :=
  match (match pset with Some s => Some s | None => init_empty al end) with
  | None => (false, None)
  | Some s =>
      let target := es_ceil s + count in
      let nceil := nceil_loop target 1 target in
      if f_realloc al (N.of_nat nceil * sizeof_edge_group) then
        (true, Some (mk_edge_set nceil (es_groups s)))
      else (false, Some s)
  end.

(** [find_state_position] answers where a group with a larger destination (or
    the end of the array) is, so the insertion is a shift and a store. *)
Definition edge_set_add_bulk (pset : edge_set_ptr) (al : fsm_alloc) (symbols : list N) (state : N)
    : bool * edge_set_ptr :=
  match pset with
  | None =>
      match init_empty al with
      | None => (false, None)
      | Some s => (true, Some (mk_edge_set (es_ceil s) [mk_group symbols state]))
      end
  | Some s =>
      match find_state_position s state with
      | (FSP_FOUND_VALUE_PRESENT, i) =>
          (true, Some (mk_edge_set (es_ceil s)
            (alter (λ eg, group_or eg symbols) i (es_groups s))))
      | (FSP_FOUND_INSERT_POSITION, i) =>
          let '(ok, s) :=
            if length (es_groups s) =? es_ceil s then grow_groups s al else (true, s) in
          if ok then
            (true, Some (mk_edge_set (es_ceil s)
              (insert_at i (mk_group symbols state) (es_groups s))))
          else (false, Some s)
      end
  end.

Definition edge_set_add (pset : edge_set_ptr) (al : fsm_alloc) (symbol : nat) (state : N)
    : bool * edge_set_ptr :=
  edge_set_add_bulk pset al (SYMBOLS_SET (replicate 4 0%N) symbol) state.

(** The loop over a state set stops at the first failure. *)
Fixpoint add_states (pset : edge_set_ptr) (al : fsm_alloc) (symbol : nat) (l : list N)
    : bool * edge_set_ptr :=
  match l with
  | [] => (true, pset)
  | state :: l =>
      let '(ok, pset) := edge_set_add pset al symbol state in
      if ok then add_states pset al symbol l else (false, pset)
  end.

Definition edge_set_add_state_set (pset : edge_set_ptr) (al : fsm_alloc) (symbol : nat)
    (set : state_set) : bool * edge_set_ptr :=
  add_states pset al symbol (state_iter_run (S (state_set_count set)) (state_set_reset set)).

(** ** Copying *)

(** The merge of the two sorted arrays; [None] where an assertion fails or the
    fuel runs out. *)
Fixpoint copy_into_loop (fuel : nat) (al : fsm_alloc) (src : list edge_group) (dst : edge_set)
    (sg_i dg_i : nat) : option (bool * edge_set) :=
  match fuel with
  | 0 => None
  | S fuel =>
      match src !! sg_i with
      | None => Some (true, dst)
      | Some src_g =>
          let need_add := match es_groups dst !! dg_i with
            | None => true
            | Some dst_g => (eg_to src_g <? eg_to dst_g)%N
            end in
          match (if need_add then
                   match find_first_group_label src_g with
                   | None => None
                   | Some label => Some (edge_set_add (Some dst) al label (eg_to src_g))
                   end
                 else Some (true, Some dst)) with
          | None => copy_into_loop fuel al src dst (sg_i + 1) dg_i
          | Some (false, Some dst) => Some (false, dst)
          | Some (_, None) => None
          | Some (true, Some dst) =>
              dst_g ← es_groups dst !! dg_i;
              if (eg_to dst_g <? eg_to src_g)%N then
                copy_into_loop fuel al src dst sg_i (dg_i + 1)
              else if (eg_to dst_g =? eg_to src_g)%N then
                copy_into_loop fuel al src
                  (mk_edge_set (es_ceil dst)
                    (<[dg_i := group_or dst_g (eg_symbols src_g)]>
                      (es_groups dst)))
                  (sg_i + 1) (dg_i + 1)
              else None
          end
      end
  end.

Definition edge_set_copy_into (dst : edge_set) (al : fsm_alloc) (src : edge_set)
    : option (bool * edge_set) :=
  copy_into_loop (S (length (es_groups src) + length (es_groups dst))) al (es_groups src) dst 0 0.

(** [None] where the code follows a NULL pointer: a NULL source copied into a
    set that is not NULL. *)
Definition edge_set_copy (pdst : edge_set_ptr) (al : fsm_alloc) (psrc : edge_set_ptr)
    : option (bool * edge_set_ptr) :=
  match pdst with
  | Some dst =>
      src ← psrc;
      '(ok, dst) ← edge_set_copy_into dst al src;
      Some (ok, Some dst)
  | None =>
      if edge_set_empty psrc then Some (true, None)
      else
        src ← psrc;
        if f_malloc al sizeof_edge_set then
          if f_malloc al (N.of_nat (es_ceil src) * sizeof_edge_group) then
            Some (true, Some (mk_edge_set (es_ceil src) (es_groups src)))
          else Some (false, None)
        else Some (false, None)
  end.

(** ** Removing and replacing *)

Definition edge_set_remove (pset : edge_set_ptr) (symbol : nat) : edge_set_ptr :=
  if edge_set_empty pset then pset
  else
    s ← pset;
    Some (mk_edge_set (es_ceil s)
      ((λ eg, mk_group (SYMBOLS_CLEAR (eg_symbols eg) symbol) (eg_to eg)) <$> es_groups s)).

(** [memmove(&groups[i], &groups[i + 1], (count - i) * sizeof)] reads the group
    at index [count], which must be within the [ceil] groups allocated: [None]
    when it is not. *)
Definition remove_group (s : edge_set) (i : nat) : option edge_set :=
  if length (es_groups s) <? es_ceil s then
    Some (mk_edge_set (es_ceil s) (delete_at i (es_groups s)))
  else None.

Fixpoint remove_state_loop (fuel : nat) (s : edge_set) (state : N) (i : nat) : option edge_set :=
  match fuel with
  | 0 => None
  | S fuel =>
      match es_groups s !! i with
      | None => Some s
      | Some eg =>
          if (eg_to eg =? state)%N then
            s ← remove_group s i;
            remove_state_loop fuel s state i
          else remove_state_loop fuel s state (i + 1)
      end
  end.

Definition edge_set_remove_state (pset : edge_set_ptr) (state : N) : option edge_set_ptr :=
  if edge_set_empty pset then Some pset
  else
    s ← pset;
    s' ← remove_state_loop (S (length (es_groups s))) s state 0;
    Some (Some s').

(** The group with destination [old], the first one in the array, is taken out
    and its labels are added again under [new]. *)
Definition reinsert_group (s : edge_set) (al : fsm_alloc) (i : nat) (cp : edge_group) (new : N)
    : option (bool * edge_set) :=
  match find_first_group_label cp with
  | None => Some (true, s)
  | Some label =>
      s ← remove_group s i;
      match edge_set_add (Some s) al label new with
      | (true, Some s) =>
          '(j, eg) ← list_find (λ g, eg_to g = new) (es_groups s);
          Some (true, mk_edge_set (es_ceil s)
            (<[j := group_or eg (eg_symbols cp)]> (es_groups s)))
      | (false, Some s) => Some (false, s)
      | (_, None) => None
      end
  end.

Definition edge_set_replace_state (pset : edge_set_ptr) (al : fsm_alloc) (old new : N)
    : option (bool * edge_set_ptr) :=
  if edge_set_empty pset then Some (true, pset)
  else
    s ← pset;
    match list_find (λ g, eg_to g = old) (es_groups s) with
    | None => Some (true, Some s)
    | Some (i, eg) =>
        '(ok, s) ← reinsert_group s al i eg new;
        Some (ok, Some s)
    end.

Definition edge_set_rebase (pset : edge_set_ptr) (base : N) : edge_set_ptr :=
  if edge_set_empty pset then pset
  else
    s ← pset;
    Some (mk_edge_set (es_ceil s)
      ((λ eg, mk_group (eg_symbols eg) (eg_to eg +32 base)%cint) <$> es_groups s)).
End Ops.

(** ** Meaning and invariant *)

Definition groups_edge (gs : list edge_group) (sym : nat) (t : N) : Prop :=
  ∃ g, g ∈ gs ∧ eg_to g = t ∧ bs_get (eg_symbols g) sym = true.

Definition set_groups (p : edge_set_ptr) : list edge_group :=
  match p with None => [] | Some s => es_groups s end.

(** The edge [sym → t] is in the set. *)
Definition has_edge (p : edge_set_ptr) (sym : nat) (t : N) : Prop :=
  groups_edge (set_groups p) sym t.

Definition group_ok (g : edge_group) : Prop :=
  words_ok 4 (eg_symbols g) ∧ (eg_to g < 4294967296)%N.

Definition groups_wf (gs : list edge_group) : Prop :=
  increasing (eg_to <$> gs) ∧ Forall group_ok gs.

Definition edge_set_wf (p : edge_set_ptr) : Prop :=
  match p with
  | None => True
  | Some s => groups_wf (es_groups s) ∧ length (es_groups s) ≤ es_ceil s ∧ 0 < es_ceil s
  end.

#[export] Instance group_ok_dec g : Decision (group_ok g).
Proof. unfold group_ok. apply _. Defined.
#[export] Instance groups_wf_dec gs : Decision (groups_wf gs).
Proof. unfold groups_wf. apply _. Defined.
#[export] Instance edge_set_wf_dec p : Decision (edge_set_wf p).
Proof. destruct p; simpl; apply _. Defined.

(** ** Lemmas: searching *)

Lemma to_at_key gs i k : (eg_to <$> gs) !! i = Some k → to_at gs i = k.
Proof. unfold to_at. rewrite list_lookup_fmap. by intros ->. Qed.

Lemma fsp_loop_spec fuel gs x : ∀ lo hi mid,
  increasing (eg_to <$> gs) → lo ≤ hi ≤ length gs → hi - lo < fuel →
  (∀ i k, (eg_to <$> gs) !! i = Some k → i < lo → (k < x)%N) →
  (∀ i k, (eg_to <$> gs) !! i = Some k → hi ≤ i → (x < k)%N) →
  (lo = hi → mid = lo) →
  fsp_loop fuel gs x lo hi mid =
    (if bool_decide (x ∈ eg_to <$> gs) then FSP_FOUND_VALUE_PRESENT
     else FSP_FOUND_INSERT_POSITION, lower_bound (eg_to <$> gs) x).
Proof.
  induction fuel as [|fuel IH]; intros lo hi mid Hs Hse Hf Hlo Hhi Hm; [lia|].
  cbn [fsp_loop]. case_if; rename E into E1.
  2:{ rewrite (Hm ltac:(lia)). rewrite bool_decide_false.
      - f_equal. symmetry. apply lower_bound_unique; [rewrite length_fmap; lia|done|].
        intros k Hk. specialize (Hhi _ _ Hk). lia.
      - intros [i Hi]%list_elem_of_lookup. destruct (decide (i < lo)).
        + specialize (Hlo _ _ Hi). lia.
        + specialize (Hhi _ _ Hi). lia. }
  pose proof (half_between lo hi E1) as Hmid.
  set (m := lo + (hi - lo) / 2) in *.
  destruct (lookup_lt_is_Some_2 (eg_to <$> gs) m) as [k Hk]; [rewrite length_fmap; lia|].
  rewrite (to_at_key _ _ _ Hk). case_if; [subst x|case_if].
  - rewrite bool_decide_true by (apply list_elem_of_lookup; eauto). f_equal. symmetry.
    apply lower_bound_unique; [rewrite length_fmap; lia| |naive_solver lia].
    intros i k' Hi Hlt. by eapply (increasing_lookup _ i m).
  - apply IH; try done; try lia.
    + intros i k' Hi Hlt. destruct (decide (i = m)) as [->|]; [simplify_eq; lia|].
      assert (k' < k)%N by (eapply (increasing_lookup _ i m); eauto; lia). lia.
    + intros Heq. by rewrite (proj2 (Nat.eqb_eq _ _) Heq).
  - apply IH; try done; try lia.
    intros i k' Hi Hge. destruct (decide (i = m)) as [->|]; [simplify_eq; lia|].
    assert (k < k')%N by (eapply (increasing_lookup _ m i); eauto; lia). lia.
Qed.

(** The binary search finds the position where the destination is or belongs,
    and says which. *)
Lemma find_state_position_spec s x :
  groups_wf (es_groups s) →
  find_state_position s x =
    (if bool_decide (x ∈ eg_to <$> es_groups s) then FSP_FOUND_VALUE_PRESENT
     else FSP_FOUND_INSERT_POSITION, lower_bound (eg_to <$> es_groups s) x).
Proof.
  intros [Hs _]. unfold find_state_position. set (gs := es_groups s) in *.
  destruct gs as [|g0 gs0] eqn:Egs; [done|].
  rewrite <-Egs in *. replace (length gs =? 0) with false by (by rewrite Egs).
  assert (0 < length gs) as Hl by (rewrite Egs; simpl; lia).
  destruct (lookup_lt_is_Some_2 (eg_to <$> gs) (length gs - 1)) as [k Hk];
    [rewrite length_fmap; lia|].
  rewrite (to_at_key _ _ _ Hk). case_if; [|case_if].
  - assert (lower_bound (eg_to <$> gs) x = length (eg_to <$> gs)) as Hlb.
    { apply lower_bound_end; [|done]. intros k'. rewrite last_lookup, length_fmap.
      replace (pred (length gs)) with (length gs - 1) by lia. rewrite Hk. by intros [= <-]. }
    rewrite bool_decide_false; [by rewrite Hlb, length_fmap|].
    intros Hin%(elem_of_lower_bound _ _ Hs). rewrite Hlb in Hin.
    apply lookup_lt_Some in Hin. lia.
  - subst k. rewrite bool_decide_true by (apply list_elem_of_lookup; eauto). f_equal. symmetry.
    apply lower_bound_unique; [rewrite length_fmap; lia| |naive_solver lia].
    intros i k Hi Hlt. by eapply (increasing_lookup _ i (length gs - 1)).
  - apply fsp_loop_spec; try done; try lia.
    intros i k' Hi Hge. apply lookup_lt_Some in Hi. rewrite length_fmap in Hi. lia.
Qed.

(** ** Lemmas: editing the array of groups *)

Lemma groups_edge_nil sym t : groups_edge [] sym t ↔ False.
Proof. split; [|done]. intros (g & Hg & _). by apply not_elem_of_nil in Hg. Qed.

Lemma groups_edge_cons g gs sym t :
  groups_edge (g :: gs) sym t ↔
  (eg_to g = t ∧ bs_get (eg_symbols g) sym = true) ∨ groups_edge gs sym t.
Proof. unfold groups_edge. setoid_rewrite elem_of_cons. naive_solver. Qed.

Lemma groups_edge_app gs gs' sym t :
  groups_edge (gs ++ gs') sym t ↔ groups_edge gs sym t ∨ groups_edge gs' sym t.
Proof. unfold groups_edge. setoid_rewrite elem_of_app. naive_solver. Qed.

Lemma groups_edge_insert_at i g gs sym t :
  groups_edge (insert_at i g gs) sym t ↔
  groups_edge gs sym t ∨ (eg_to g = t ∧ bs_get (eg_symbols g) sym = true).
Proof. unfold groups_edge. setoid_rewrite elem_of_insert_at. naive_solver. Qed.

Lemma groups_wf_lookup gs i g : groups_wf gs → gs !! i = Some g → group_ok g.
Proof. intros [_ Hf] Hi. exact (Forall_lookup_1 _ _ _ _ Hf Hi). Qed.

Lemma groups_edge_or gs i g symbols sym t :
  gs !! i = Some g → length symbols = length (eg_symbols g) →
  groups_edge (<[i := group_or g symbols]> gs) sym t ↔
  groups_edge gs sym t ∨ (t = eg_to g ∧ bs_get symbols sym = true).
Proof.
  intros Hi Hl. assert (i < length gs) as Hlt by (by apply lookup_lt_Some in Hi).
  rewrite insert_take_drop by done. rewrite (split_at _ _ _ Hi) at 3.
  rewrite !groups_edge_app, !groups_edge_cons. cbn [group_or eg_to eg_symbols].
  rewrite bs_get_or by done. rewrite orb_true_iff. naive_solver.
Qed.

Lemma groups_wf_or gs i g symbols :
  groups_wf gs → gs !! i = Some g → words_ok 4 symbols → groups_wf (<[i := group_or g symbols]> gs).
Proof.
  intros Hwf Hi Hs. pose proof (groups_wf_lookup _ _ _ Hwf Hi) as [Hg1 Hg2].
  destruct Hwf as [Hinc Hf]. split.
  - rewrite list_fmap_insert. cbn [group_or eg_to]. rewrite list_insert_id; [done|].
    by rewrite list_lookup_fmap, Hi.
  - apply Forall_insert; [done|]. split; [by apply words_ok_or|done].
Qed.

Lemma groups_wf_insert gs g :
  groups_wf gs → group_ok g → eg_to g ∉ eg_to <$> gs →
  groups_wf (insert_at (lower_bound (eg_to <$> gs) (eg_to g)) g gs).
Proof.
  intros [Hinc Hf] Hg Hnin. split.
  - rewrite fmap_insert_at. by apply increasing_insert_at.
  - apply Forall_forall. intros x [->|Hx]%elem_of_insert_at; [done|]. by eapply Forall_forall in Hf.
Qed.

Lemma groups_wf_key_unique gs i j g g' :
  groups_wf gs → gs !! i = Some g → gs !! j = Some g' → eg_to g = eg_to g' → i = j.
Proof.
  intros [Hinc _] Hi Hj Heq. eapply NoDup_lookup; [by apply increasing_NoDup| |].
  - by rewrite list_lookup_fmap, Hi.
  - by rewrite list_lookup_fmap, Hj, Heq.
Qed.

Lemma groups_edge_dec_keys gs sym t : groups_edge gs sym t → t ∈ eg_to <$> gs.
Proof. intros (g & Hg & <- & _). by apply list_elem_of_fmap_2. Qed.

(** What an operation that adds edges promises. *)
Definition adds (p p' : edge_set_ptr) (new : nat → N → Prop) : Prop :=
  edge_set_wf p' ∧ ∀ sym t, has_edge p' sym t ↔ has_edge p sym t ∨ new sym t.

Section AddLemmas.
Context `{allocator}.

Lemma init_empty_Some al s : init_empty al = Some s → s = mk_edge_set 1 [].
Proof. unfold init_empty. repeat case_if; naive_solver. Qed.

Lemma grow_groups_spec s al b s' :
  grow_groups s al = (b, s') → 0 < es_ceil s → length (es_groups s) ≤ es_ceil s →
  es_groups s' = es_groups s ∧ (if b then length (es_groups s) < es_ceil s' else s' = s).
Proof. unfold grow_groups. case_if; intros [= <- <-] ? ?; simpl; [split; [done|lia]|done]. Qed.

Lemma edge_set_add_bulk_spec p al symbols state b p' :
  edge_set_wf p → words_ok 4 symbols → (state < 4294967296)%N →
  edge_set_add_bulk p al symbols state = (b, p') →
  if b then adds p p' (λ sym t, t = state ∧ bs_get symbols sym = true) else p' = p.
Proof.
  intros Hwf Hsym Hst. unfold edge_set_add_bulk. destruct p as [s|].
  2:{ destruct (init_empty al) as [s|] eqn:Ei; intros [= <- <-]; [|done].
      apply init_empty_Some in Ei as ->. split.
      - simpl. split; [|lia]. split; [repeat constructor|repeat constructor; simpl; try apply Hsym; done].
      - intros sym t. unfold has_edge. simpl. rewrite groups_edge_cons, groups_edge_nil. simpl. naive_solver. }
  destruct Hwf as (Hg & Hlen & Hpos). rewrite find_state_position_spec by done.
  case_bool_decide as Hin.
  - intros [= <- <-]. destruct (lookup_lower_bound (eg_to <$> es_groups s) state) as [_ Hlb]; [apply Hg|].
    specialize (Hlb Hin). rewrite list_lookup_fmap in Hlb.
    destruct (es_groups s !! _) as [g|] eqn:Eg; simplify_eq/=.
    assert (alter (λ eg, group_or eg symbols)
        (lower_bound (eg_to <$> es_groups s) (eg_to g)) (es_groups s)
      = <[lower_bound (eg_to <$> es_groups s) (eg_to g) := group_or g symbols]> (es_groups s)) as ->.
    { apply list_eq. intros j. destruct (decide (lower_bound (eg_to <$> es_groups s) (eg_to g) = j)) as [<-|].
      - rewrite list_lookup_alter_eq, list_lookup_insert_eq, Eg; [done|by apply lookup_lt_Some in Eg].
      - by rewrite list_lookup_alter_ne, list_lookup_insert_ne. }
    split; [split; [by apply groups_wf_or|simpl; by rewrite length_insert]|].
    intros sym t. apply groups_edge_or; [done|]. pose proof (groups_wf_lookup _ _ _ Hg Eg) as [[-> _] _].
    apply Hsym.
  - destruct (if length (es_groups s) =? es_ceil s then grow_groups s al else (true, s)) as [ok s1] eqn:E1.
    assert (es_groups s1 = es_groups s ∧ (if ok then length (es_groups s) < es_ceil s1 else s1 = s)) as [Hgs Hok].
    { case_if_in E1; [by eapply grow_groups_spec|]. simplify_eq. split; [done|lia]. }
    destruct ok; intros [= <- <-]; [|by subst]. rewrite Hgs. split.
    + split; [|].
      * apply (groups_wf_insert (es_groups s) (mk_group symbols state)); done.
      * cbn [es_groups es_ceil]. rewrite length_insert_at; [lia|].
        rewrite <-(length_fmap eg_to). apply lower_bound_le.
    + intros sym t. unfold has_edge. cbn [set_groups es_groups]. rewrite groups_edge_insert_at.
      simpl. naive_solver.
Qed.

Lemma edge_set_add_bulk_total `{!alloc_total} p al symbols state :
  (edge_set_add_bulk p al symbols state).1 = true.
Proof.
  unfold edge_set_add_bulk, init_empty, grow_groups. alloc_ok.
  destruct p as [s|]; [|done]. destruct (find_state_position s state) as [[] i]; [|done].
  alloc_ok. by destruct (length (es_groups s) =? es_ceil s).
Qed.

Lemma bs_get_single sym i :
  i < 256 → bs_get (SYMBOLS_SET (replicate 4 0%N) i) sym = (sym =? i).
Proof.
  intros Hi. unfold SYMBOLS_SET. rewrite bs_get_set, bs_get_zero; [done|].
  rewrite length_replicate. apply Nat.Div0.div_lt_upper_bound. lia.
Qed.

Lemma edge_set_add_spec p al symbol state b p' :
  edge_set_wf p → symbol < 256 → (state < 4294967296)%N →
  edge_set_add p al symbol state = (b, p') →
  if b then adds p p' (λ sym t, t = state ∧ sym = symbol) else p' = p.
Proof.
  intros Hwf Hsym Hst Ha. unfold edge_set_add in Ha.
  apply edge_set_add_bulk_spec in Ha; [|done|apply words_ok_set, words_ok_zero|done].
  destruct b; [|done]. destruct Ha as [H1 H2]. split; [done|].
  intros sym t. rewrite H2. by rewrite bs_get_single, Nat.eqb_eq.
Qed.

Lemma edge_set_add_total `{!alloc_total} p al symbol state :
  (edge_set_add p al symbol state).1 = true.
Proof. apply edge_set_add_bulk_total. Qed.

Lemma add_states_spec l al symbol : ∀ p b p',
  edge_set_wf p → symbol < 256 → Forall (λ s, (s < 4294967296)%N) l →
  add_states p al symbol l = (b, p') →
  edge_set_wf p' ∧ (b = true → ∀ sym t, has_edge p' sym t ↔ has_edge p sym t ∨ (t ∈ l ∧ sym = symbol)).
Proof.
  induction l as [|s l IH]; intros p b p' Hwf Hsym Hl; simpl.
  { intros [= <- <-]. split; [done|]. intros _ sym t. rewrite elem_of_nil. tauto. }
  apply Forall_cons in Hl as [Hs Hl].
  destruct (edge_set_add p al symbol s) as [ok p1] eqn:E.
  apply edge_set_add_spec in E; [|done|done|done].
  destruct ok; [|intros [= <- <-]; by subst].
  destruct E as [Hwf1 H1]. intros E. apply IH in E as [Hwf' H']; [|done|done|done].
  split; [done|]. intros Hb sym t. rewrite (H' Hb), H1, elem_of_cons. naive_solver.
Qed.

Lemma edge_set_add_state_set_spec p al symbol set b p' :
  edge_set_wf p → symbol < 256 → state_set_wf set →
  edge_set_add_state_set p al symbol set = (b, p') →
  edge_set_wf p' ∧ (b = true → ∀ sym t, has_edge p' sym t ↔ has_edge p sym t ∨ (ss_has set t ∧ sym = symbol)).
Proof.
  intros Hwf Hsym Hset. unfold edge_set_add_state_set.
  rewrite state_iter_run_elems by lia. intros E. eapply add_states_spec in E; [|done|done|apply Hset].
  exact E.
Qed.
End AddLemmas.

(** ** Lemmas: queries *)

Lemma first_bit_spec n bit w :
  match first_bit n bit w with
  | Some r => bit ≤ r < bit + n ∧ N.testbit w (N.of_nat r) = true
  | None => ∀ k, bit ≤ k < bit + n → N.testbit w (N.of_nat k) = false
  end.
Proof.
  revert bit; induction n as [|n IH]; intros bit; simpl; [lia|].
  rewrite N.shiftl_1_l, land_pow2_zero, negb_involutive.
  destruct (N.testbit w (N.of_nat bit)) eqn:E; [split; [lia|done]|].
  specialize (IH (bit + 1)). destruct (first_bit n (bit + 1) w).
  - destruct IH. split; [lia|done].
  - intros k Hk. destruct (decide (k = bit)) as [->|]; [done|]. apply IH; lia.
Qed.

Lemma first_label_from_spec n i s :
  words_ok 4 s →
  match first_label_from n i s with
  | Some l => 64 * i ≤ l < 64 * (i + n) ∧ bs_get s l = true
  | None => ∀ l, 64 * i ≤ l < 64 * (i + n) → bs_get s l = false
  end.
Proof.
  intros Hs. revert i; induction n as [|n IH]; intros i; cbn [first_label_from]; [lia|].
  specialize (IH (i + 1)).
  assert ((∀ k, k < 64 → bs_get s (64 * i + k) = false) →
    match first_label_from n (i + 1) s with
    | Some l => 64 * i ≤ l < 64 * (i + S n) ∧ bs_get s l = true
    | None => ∀ l, 64 * i ≤ l < 64 * (i + S n) → bs_get s l = false
    end) as Hskip.
  { intros Hz. destruct (first_label_from n (i + 1) s).
    - destruct IH. split; [lia|done].
    - intros l Hl. destruct (decide (l < 64 * (i + 1))).
      + replace l with (64 * i + (l - 64 * i)) by lia. apply Hz. lia.
      + apply IH. lia. }
  destruct (word s i =? 0)%N eqn:E.
  { apply Hskip. by apply (word_zero 4). }
  pose proof (first_bit_spec 64 0 (word s i)) as Hb. destruct (first_bit 64 0 (word s i)) as [r|].
  - destruct Hb as [Hr Hb]. replace (i * 64 + r) with (64 * i + r) by lia.
    split; [lia|]. by rewrite bs_get_word by lia.
  - apply Hskip. intros k Hk. rewrite bs_get_word by done. apply Hb. lia.
Qed.

Lemma bs_get_lt n s j : words_ok n s → bs_get s j = true → j < 64 * n.
Proof.
  intros [Hl _] Hj. destruct (decide (j < 64 * n)); [done|].
  rewrite bs_get_ge in Hj; [done|]. rewrite Hl. apply Nat.div_le_lower_bound; lia.
Qed.

Lemma has_edge_symbol p sym t : edge_set_wf p → has_edge p sym t → sym < 256.
Proof.
  destruct p as [s|]; [|intros _ H; by apply groups_edge_nil in H].
  intros ([_ Hf] & _) (g & Hg & _ & Hs). eapply Forall_forall in Hf as [Hok _]; [|exact Hg].
  by apply (bs_get_lt 4) in Hs.
Qed.

(** A group has a first label exactly when it has one. *)
Lemma find_first_group_label_spec g :
  group_ok g →
  match find_first_group_label g with
  | Some l => l < 256 ∧ bs_get (eg_symbols g) l = true
  | None => ∀ l, bs_get (eg_symbols g) l = false
  end.
Proof.
  intros [Hok _]. unfold find_first_group_label.
  pose proof (first_label_from_spec 4 0 _ Hok) as Hl.
  destruct (first_label_from 4 0 (eg_symbols g)).
  - destruct Hl. split; [lia|done].
  - intros l. destruct (bs_get (eg_symbols g) l) eqn:E; [|done].
    pose proof (bs_get_lt 4 _ _ Hok E). rewrite Hl in E; [done|lia].
Qed.

Lemma edge_set_empty_spec p :
  edge_set_wf p → edge_set_empty p = true ↔ ∀ sym t, ¬ has_edge p sym t.
Proof.
  destruct p as [s|]; cbn [edge_set_empty]; intros Hwf.
  2:{ split; [|done]. intros _ sym t. unfold has_edge. simpl. intros []%groups_edge_nil. }
  assert (forallb (λ g, match find_first_group_label g with Some _ => false | None => true end)
    (es_groups s) = true ↔ ∀ sym t, ¬ has_edge (Some s) sym t) as Hall.
  { rewrite forallb_forall. destruct Hwf as ([_ Hf] & _). rewrite Forall_forall in Hf. split.
    - intros Ha sym t (g & Hg & _ & Hs). specialize (Ha g (proj1 (list_elem_of_In _ _) Hg)).
      pose proof (find_first_group_label_spec g (Hf g Hg)) as Hl.
      destruct (find_first_group_label g); [done|]. by rewrite Hl in Hs.
    - intros Hn g Hg. rewrite <-list_elem_of_In in Hg. pose proof (find_first_group_label_spec g (Hf g Hg)) as Hl.
      destruct (find_first_group_label g) as [l|]; [|done]. destruct (Hn l (eg_to g)).
      exists g. naive_solver. }
  destruct (length (es_groups s) =? 0) eqn:E; [|done]. split_bool.
  destruct (es_groups s) eqn:Eg; [|done]. split; [|done]. intros _ sym t.
  unfold has_edge. simpl. rewrite Eg. intros []%groups_edge_nil.
Qed.

Lemma edge_set_empty_edge p sym t : edge_set_wf p → edge_set_empty p = true → ¬ has_edge p sym t.
Proof. intros Hwf He. by apply edge_set_empty_spec. Qed.

Lemma find_group_spec gs symbol :
  match find_group gs symbol with
  | Some g => g ∈ gs ∧ bs_get (eg_symbols g) symbol = true
  | None => ∀ g, g ∈ gs → bs_get (eg_symbols g) symbol = false
  end.
Proof.
  induction gs as [|g gs IH]; simpl; [by intros g ?%not_elem_of_nil|].
  unfold SYMBOLS_GET. destruct (bs_get (eg_symbols g) symbol) eqn:E.
  - split; [by left|done].
  - destruct (find_group gs symbol).
    + destruct IH. split; [by right|done].
    + intros g' [->|Hg]%elem_of_cons; auto.
Qed.

(** The transition function finds an edge with the symbol whenever there is
    one, reduced to 24 bits. *)
Lemma edge_set_transition_spec p symbol :
  match edge_set_transition p symbol with
  | Some t => ∃ t', has_edge p symbol t' ∧ t = u24 t'
  | None => ∀ t, ¬ has_edge p symbol t
  end.
Proof.
  unfold edge_set_transition, edge_set_find, has_edge. destruct p as [s|]; simpl.
  2:{ intros t []%groups_edge_nil. }
  pose proof (find_group_spec (es_groups s) symbol) as Hf.
  destruct (find_group (es_groups s) symbol) as [g|]; simpl.
  - exists (eg_to g). split; [|done]. exists g. naive_solver.
  - intros t (g & Hg & _ & Hs). by rewrite Hf in Hs.
Qed.

Lemma edge_set_contains_spec p symbol :
  edge_set_wf p → edge_set_contains p symbol = true ↔ ∃ t, has_edge p symbol t.
Proof.
  intros Hwf. unfold edge_set_contains. destruct (edge_set_empty p) eqn:E.
  { split; [done|]. intros [t Ht]. by apply edge_set_empty_edge in Ht. }
  destruct p as [s|]; [|done]. pose proof (find_group_spec (es_groups s) symbol) as Hf.
  destruct (find_group (es_groups s) symbol) as [g|].
  - split; [|done]. intros _. exists (eg_to g), g. naive_solver.
  - split; [done|]. intros (t & g & Hg & _ & Hs). by rewrite Hf in Hs.
Qed.

(** ** Lemmas: removing, replacing, renumbering *)

Lemma groups_edge_map (f : edge_group → edge_group) gs sym t :
  groups_edge (f <$> gs) sym t ↔
  ∃ g, g ∈ gs ∧ eg_to (f g) = t ∧ bs_get (eg_symbols (f g)) sym = true.
Proof.
  unfold groups_edge. split.
  - intros (g & (g' & -> & Hg)%list_elem_of_fmap & ?). eauto.
  - intros (g & Hg & ?). exists (f g). split; [by apply list_elem_of_fmap_2|done].
Qed.

Lemma edge_set_remove_spec p symbol :
  edge_set_wf p → symbol < 256 →
  edge_set_wf (edge_set_remove p symbol) ∧
  ∀ sym t, has_edge (edge_set_remove p symbol) sym t ↔ has_edge p sym t ∧ sym ≠ symbol.
Proof.
  intros Hwf Hsym. unfold edge_set_remove. destruct (edge_set_empty p) eqn:E.
  { split; [done|]. intros sym t. pose proof (edge_set_empty_edge p sym t Hwf E). tauto. }
  destruct p as [s|]; [|done]. simpl in Hwf. destruct Hwf as ([Hinc Hf] & Hlen & Hpos).
  assert (symbol / 64 < 4) as Hw by (apply Nat.Div0.div_lt_upper_bound; lia).
  split.
  - simpl. rewrite length_fmap. split; [|done]. split.
    + rewrite <-list_fmap_compose. exact Hinc.
    + apply Forall_fmap. eapply Forall_impl; [exact Hf|]. intros g [Hg1 Hg2].
      split; [by apply words_ok_clear|done].
  - intros sym t. unfold has_edge. cbn [set_groups es_groups mbind option_bind].
    rewrite groups_edge_map. cbn [eg_to eg_symbols]. unfold SYMBOLS_CLEAR. split.
    + intros (g & Hg & Ht & Hs). rewrite Forall_forall in Hf. pose proof (Hf g Hg) as [[Hl _] _].
      rewrite bs_get_clear in Hs by lia. split_bool. split; [exists g; naive_solver|done].
    + intros [(g & Hg & Ht & Hs) Hne]. exists g. split; [done|]. split; [done|].
      rewrite Forall_forall in Hf. pose proof (Hf g Hg) as [[Hl _] _].
      rewrite bs_get_clear by lia. rewrite Hs. apply Nat.eqb_neq in Hne. by rewrite Hne.
Qed.

Lemma increasing_filter_fmap (P : edge_group → Prop) `{∀ g, Decision (P g)} gs :
  increasing (eg_to <$> gs) → increasing (eg_to <$> filter P gs).
Proof.
  induction gs as [|g gs IH]; [done|]. cbn [fmap list_fmap].
  intros [Hg Hs]%StronglySorted_cons. rewrite filter_cons. case_decide; [|by auto].
  cbn [fmap list_fmap]. apply StronglySorted_cons. split; [|by apply IH].
  rewrite Forall_fmap, Forall_forall in *. intros g' Hg'%list_elem_of_filter. apply Hg, Hg'.
Qed.

Lemma groups_wf_filter (P : edge_group → Prop) `{∀ g, Decision (P g)} gs :
  groups_wf gs → groups_wf (filter P gs).
Proof.
  intros [Hi Hf]. split; [by apply increasing_filter_fmap|].
  apply Forall_forall. intros g Hg%list_elem_of_filter. rewrite Forall_forall in Hf. naive_solver.
Qed.

Lemma remove_state_loop_spec fuel x : ∀ s i,
  length (es_groups s) < es_ceil s → i ≤ length (es_groups s) < i + fuel →
  remove_state_loop fuel s x i = Some (mk_edge_set (es_ceil s)
    (take i (es_groups s) ++ filter (λ g, eg_to g ≠ x) (drop i (es_groups s)))).
Proof.
  induction fuel as [|fuel IH]; intros s i Hc Hf; cbn [remove_state_loop].
  { lia. }
  destruct (es_groups s !! i) as [g|] eqn:E.
  - rewrite (drop_S _ _ _ E), filter_cons. case_if.
    + unfold remove_group. replace (length (es_groups s) <? es_ceil s) with true by (symmetry; by apply Nat.ltb_lt).
      cbn [mbind option_bind]. pose proof (lookup_lt_Some _ _ _ E).
      pose proof (length_delete_at i (es_groups s) ltac:(done)).
      rewrite IH by (cbn [es_groups es_ceil]; lia). cbn [es_groups es_ceil]. do 2 f_equal.
      rewrite decide_False by naive_solver. unfold delete_at.
      rewrite take_app_le by (rewrite length_take; lia). rewrite take_take, Nat.min_id.
      rewrite drop_app_ge by (rewrite length_take; lia).
      rewrite length_take, Nat.min_l, Nat.sub_diag, drop_0 by lia. done.
    + pose proof (lookup_lt_Some _ _ _ E). rewrite IH by lia. rewrite decide_True by done. do 2 f_equal.
      rewrite Nat.add_1_r, (take_S_r _ _ _ E), <-(assoc app). done.
  - apply lookup_ge_None in E. rewrite take_ge, drop_ge by lia.
    rewrite filter_nil, app_nil_r. by destruct s.
Qed.

Lemma remove_state_loop_absent fuel x : ∀ s i,
  x ∉ eg_to <$> es_groups s → i ≤ length (es_groups s) < i + fuel →
  remove_state_loop fuel s x i = Some s.
Proof.
  induction fuel as [|fuel IH]; intros s i Hc Hf; cbn [remove_state_loop]; [lia|].
  destruct (es_groups s !! i) as [g|] eqn:E; [|done]. pose proof (lookup_lt_Some _ _ _ E). case_if; [|apply IH; [done|lia]].
  destruct Hc. subst x. apply list_elem_of_fmap_2, list_elem_of_lookup. eauto.
Qed.

Lemma remove_state_loop_oob fuel x : ∀ s i,
  es_ceil s ≤ length (es_groups s) → x ∈ eg_to <$> drop i (es_groups s) →
  remove_state_loop fuel s x i = None.
Proof.
  induction fuel as [|fuel IH]; intros s i Hc Hx; cbn [remove_state_loop]; [done|].
  destruct (es_groups s !! i) as [g|] eqn:E.
  - rewrite (drop_S _ _ _ E) in Hx. case_if.
    + unfold remove_group. by replace (length (es_groups s) <? es_ceil s) with false
        by (symmetry; by apply Nat.ltb_ge).
    + apply IH; [done|]. rewrite Nat.add_1_r. cbn [fmap list_fmap] in Hx.
      apply elem_of_cons in Hx as [->|Hx]; [done|exact Hx].
  - apply lookup_ge_None in E. rewrite drop_ge in Hx by done. by apply not_elem_of_nil in Hx.
Qed.

Lemma groups_edge_filter_to gs x sym t :
  groups_edge (filter (λ g, eg_to g ≠ x) gs) sym t ↔ groups_edge gs sym t ∧ t ≠ x.
Proof.
  unfold groups_edge. setoid_rewrite list_elem_of_filter. naive_solver.
Qed.

(** Removing a destination, when the array has a free slot or the destination
    is not there. *)
Lemma edge_set_remove_state_spec p x :
  edge_set_wf p →
  (∀ s, p = Some s → length (es_groups s) < es_ceil s ∨ x ∉ eg_to <$> es_groups s) →
  ∃ p', edge_set_remove_state p x = Some p' ∧ edge_set_wf p' ∧
    ∀ sym t, has_edge p' sym t ↔ has_edge p sym t ∧ t ≠ x.
Proof.
  intros Hwf Hfree. unfold edge_set_remove_state. destruct (edge_set_empty p) eqn:E.
  { exists p. split; [done|]. split; [done|]. intros sym t.
    pose proof (edge_set_empty_edge p sym t Hwf E). tauto. }
  destruct p as [s|]; [|done]. cbn [mbind option_bind]. specialize (Hfree s eq_refl).
  destruct Hfree as [Hlt|Hx].
  - rewrite remove_state_loop_spec by lia. cbn [mbind option_bind take drop app].
    eexists; split; [done|]. destruct Hwf as (Hg & Hlen & Hpos). split.
    + simpl. split; [by apply groups_wf_filter|]. split; [|done].
      etrans; [apply length_filter|done].
    + intros sym t. apply groups_edge_filter_to.
  - rewrite remove_state_loop_absent by (done || lia). cbn [mbind option_bind].
    eexists; split; [done|]. split; [done|]. intros sym t. split; [|tauto].
    intros He. split; [done|]. intros ->. by apply Hx, (groups_edge_dec_keys _ sym).
Qed.

Lemma edge_set_add_bulk_insert `{allocator} s al symbols state s' :
  groups_wf (es_groups s) → state ∉ eg_to <$> es_groups s →
  edge_set_add_bulk (Some s) al symbols state = (true, Some s') →
  es_groups s' =
    insert_at (lower_bound (eg_to <$> es_groups s) state) (mk_group symbols state) (es_groups s).
Proof.
  intros Hg Hn. unfold edge_set_add_bulk. rewrite find_state_position_spec by done.
  rewrite bool_decide_false by done. unfold grow_groups.
  repeat case_match; intros; simplify_eq/=; done.
Qed.

Lemma edge_set_add_bulk_Some `{allocator} s al symbols state b p :
  edge_set_add_bulk (Some s) al symbols state = (b, p) → is_Some p.
Proof. unfold edge_set_add_bulk. repeat case_match; intros; simplify_eq/=; eauto. Qed.

(** A group added where there is a free slot needs no memory. *)
Lemma edge_set_add_bulk_free `{allocator} s al symbols state b p :
  length (es_groups s) < es_ceil s →
  edge_set_add_bulk (Some s) al symbols state = (b, p) → b = true.
Proof.
  intros Hlt. unfold edge_set_add_bulk.
  replace (length (es_groups s) =? es_ceil s) with false by (symmetry; apply Nat.eqb_neq; lia).
  repeat case_match; intros; simplify_eq/=; done.
Qed.

Lemma list_find_key (x : N) gs i g :
  list_find (λ g, eg_to g = x) gs = Some (i, g) → gs !! i = Some g ∧ eg_to g = x.
Proof. intros (? & ? & _)%list_find_Some. done. Qed.

Lemma groups_wf_delete gs i : groups_wf gs → groups_wf (delete_at i gs).
Proof.
  intros [Hi Hf]. split; [rewrite fmap_delete_at; by apply increasing_delete_at|].
  unfold delete_at. apply Forall_app. split; [by apply Forall_take|by apply Forall_drop].
Qed.

Lemma groups_edge_delete gs i g sym t :
  groups_wf gs → gs !! i = Some g →
  groups_edge (delete_at i gs) sym t ↔ groups_edge gs sym t ∧ t ≠ eg_to g.
Proof.
  intros Hwf Hi. pose proof Hwf as [Hinc _].
  pose proof (elem_of_delete_at_increasing _ i (eg_to g) t Hinc
    ltac:(by rewrite list_lookup_fmap, Hi)) as Hk.
  assert (groups_edge (delete_at i gs) sym t → groups_edge gs sym t ∧ t ≠ eg_to g) as H1.
  { intros He. split.
    - rewrite (split_at _ _ _ Hi), groups_edge_app, groups_edge_cons.
      unfold delete_at in He. rewrite groups_edge_app in He. tauto.
    - apply groups_edge_dec_keys in He. rewrite fmap_delete_at in He. by apply Hk in He as [_ ?]. }
  split; [exact H1|]. rewrite (split_at _ _ _ Hi) at 1. unfold delete_at.
  rewrite !groups_edge_app, groups_edge_cons. naive_solver.
Qed.

(** Replacing a destination moves its labels to the new one; it never runs out
    of memory, because the group it removes leaves a slot. *)
Lemma edge_set_replace_state_spec `{allocator} p al old new b p' :
  edge_set_wf p → (new < 4294967296)%N →
  edge_set_replace_state p al old new = Some (b, p') →
  b = true ∧ edge_set_wf p' ∧
  ∀ sym t, has_edge p' sym t ↔ (has_edge p sym t ∧ t ≠ old) ∨ (t = new ∧ has_edge p sym old).
Proof.
  intros Hwf Hnew. unfold edge_set_replace_state. destruct (edge_set_empty p) eqn:E.
  { intros [= <- <-]. split; [done|]. split; [done|]. intros sym t.
    pose proof (edge_set_empty_edge p sym t Hwf E). pose proof (edge_set_empty_edge p sym old Hwf E). tauto. }
  destruct p as [s|]; [|done]. cbn [mbind option_bind].
  destruct (list_find (λ g, eg_to g = old) (es_groups s)) as [[i g]|] eqn:Ef.
  2:{ intros [= <- <-]. split; [done|]. split; [done|]. intros sym t.
      rewrite list_find_None, Forall_forall in Ef.
      assert (∀ sym, ¬ has_edge (Some s) sym old) as Hno.
      { intros sym' (g & Hg & Ht & _). by apply (Ef g). }
      split; [|naive_solver]. intros He. left. split; [done|]. intros ->. by apply (Hno sym). }
  apply list_find_key in Ef as [Hi <-]. destruct Hwf as (Hg & Hlen & Hpos).
  pose proof (groups_wf_lookup _ _ _ Hg Hi) as Hgok.
  assert (∀ sym, has_edge (Some s) sym (eg_to g) ↔ bs_get (eg_symbols g) sym = true) as Hold.
  { intros sym. split; [|intros; exists g; split; [apply list_elem_of_lookup; eauto|done]].
    intros (g' & [j Hj]%list_elem_of_lookup & Ht & Hs).
    cbn [set_groups] in Hj. assert (j = i) as -> by (by eapply groups_wf_key_unique). congruence. }
  unfold reinsert_group. pose proof (find_first_group_label_spec g Hgok) as Hl.
  destruct (find_first_group_label g) as [label|].
  2:{ cbn. intros [= <- <-]. split; [done|]. split; [done|]. intros sym t. rewrite Hold, Hl.
      split; [|naive_solver]. intros He. left. split; [done|]. intros ->.
      apply (proj1 (Hold _)) in He. by rewrite Hl in He. }
  unfold remove_group. case_if; [|done]. cbn [mbind option_bind].
  pose proof (lookup_lt_Some _ _ _ Hi) as Hilt.
  pose proof (length_delete_at i _ Hilt) as Hdel.
  destruct (edge_set_add (Some _) al label new) as [ok p1] eqn:Ea.
  assert (ok = true) as ->.
  { eapply edge_set_add_bulk_free; [|exact Ea]. cbn [es_groups es_ceil]. lia. }
  destruct (edge_set_add_bulk_Some _ _ _ _ _ _ Ea) as [s1 ->].
  apply edge_set_add_spec in Ea; [|split; [by apply groups_wf_delete|cbn [es_groups es_ceil]; lia]|apply Hl|done].
  destruct Ea as [(Hg1 & Hlen1 & Hpos1) He1].
  destruct (list_find (λ g0, eg_to g0 = new) (es_groups s1)) as [[j g1]|] eqn:Ef; [|done].
  cbn [mbind option_bind]. intros [= <- <-]. apply list_find_key in Ef as [Hj <-].
  pose proof (groups_wf_lookup _ _ _ Hg1 Hj) as [Hw1 _]. destruct Hgok as [Hw _].
  split; [done|]. split.
  - split; [by apply groups_wf_or|]. cbn [es_groups es_ceil]. by rewrite length_insert.
  - intros sym t. rewrite Hold. unfold has_edge at 1. cbn [set_groups es_groups].
    rewrite (groups_edge_or _ _ g1) by (done || (destruct Hw as [-> _], Hw1 as [-> _]; done)).
    change (groups_edge (es_groups s1) sym t) with (has_edge (Some s1) sym t).
    rewrite He1. unfold has_edge at 1. cbn [set_groups es_groups].
    rewrite (groups_edge_delete _ _ g) by done. unfold has_edge. naive_solver.
Qed.

Lemma increasing_fmap_mono (f : N → N) ks :
  (∀ a b, a ∈ ks → b ∈ ks → (a < b → f a < f b)%N) → increasing ks → increasing (f <$> ks).
Proof.
  induction ks as [|k ks IH]; intros Hf; [done|]. intros [Hk Hs]%StronglySorted_cons.
  cbn [fmap list_fmap]. apply StronglySorted_cons. split.
  - rewrite Forall_fmap, Forall_forall in *. intros k' Hk'. apply Hf; [by left|by right|by apply Hk].
  - apply IH; [|done]. intros. apply Hf; [by right|by right|done].
Qed.

(** Rebasing adds the base to every destination, when none overflows. *)
Lemma edge_set_rebase_spec p base :
  edge_set_wf p → (∀ g, g ∈ set_groups p → (eg_to g + base < 4294967296)%N) →
  edge_set_wf (edge_set_rebase p base) ∧
  ∀ sym t, has_edge (edge_set_rebase p base) sym t ↔ ∃ t', has_edge p sym t' ∧ t = (t' + base)%N.
Proof.
  intros Hwf Hno. unfold edge_set_rebase. destruct (edge_set_empty p) eqn:E.
  { split; [done|]. intros sym t. split.
    - intros He. by apply edge_set_empty_edge in He.
    - intros (t' & He & _). by apply edge_set_empty_edge in He. }
  destruct p as [s|]; [|done]. destruct Hwf as ([Hinc Hf] & Hlen & Hpos).
  cbn [mbind option_bind set_groups] in *. split.
  - simpl. rewrite length_fmap. split; [|done]. split.
    + rewrite <-list_fmap_compose.
      change (increasing ((λ t, u32 (t + base)%N) ∘ eg_to <$> es_groups s)).
      rewrite list_fmap_compose. apply increasing_fmap_mono; [|done].
      intros a b (ga & -> & Ha)%list_elem_of_fmap (gb & -> & Hb)%list_elem_of_fmap Hlt.
      rewrite !u32_small by auto. lia.
    + apply Forall_fmap. rewrite Forall_forall in *. intros g Hg. destruct (Hf g Hg).
      split; [done|]. apply u32_lt.
  - intros sym t. unfold has_edge. cbn [set_groups es_groups]. rewrite groups_edge_map.
    cbn [eg_to eg_symbols]. split.
    + intros (g & Hg & <- & Hs). exists (eg_to g). rewrite u32_small by auto.
      split; [|done]. exists g. done.
    + intros (t' & (g & Hg & <- & Hs) & ->). exists g. by rewrite u32_small by auto.
Qed.

(** ** Lemmas: copying *)

Section CopyLemmas.
Context `{allocator}.

(** The keys of [dst] before [dg] are below every key of [src] from [sg] on. *)
Definition merge_inv (src dst : list edge_group) (sg dg : nat) : Prop :=
  ∀ j k d s, j < dg → sg ≤ k → dst !! j = Some d → src !! k = Some s → (eg_to d < eg_to s)%N.

Lemma merge_inv_step_src src dst sg dg : merge_inv src dst sg dg → merge_inv src dst (sg + 1) dg.
Proof. intros Hm j k d s Hj Hk. apply Hm; lia. Qed.

Lemma groups_key_lt gs i j a b :
  groups_wf gs → i < j → gs !! i = Some a → gs !! j = Some b → (eg_to a < eg_to b)%N.
Proof.
  intros [Hinc _] Hij Ha Hb. eapply (increasing_lookup _ i j); [exact Hinc|done| |];
    by rewrite list_lookup_fmap, ?Ha, ?Hb.
Qed.

Lemma merge_inv_advance src dst sg dg s d :
  groups_wf src → src !! sg = Some s → dst !! dg = Some d → (eg_to d < eg_to s)%N →
  merge_inv src dst sg dg → merge_inv src dst sg (dg + 1).
Proof.
  intros Hw Hs Hd Hlt Hm j k d' s' Hj Hk Hd' Hs'.
  destruct (decide (j = dg)) as [->|]; [|apply (Hm j k); [lia|done|done|done]]. simplify_eq.
  destruct (decide (k = sg)) as [->|]; [by simplify_eq|].
  etrans; [exact Hlt|]. apply (groups_key_lt src sg k); [done|lia|done|done].
Qed.

Lemma merge_inv_both src dst sg dg s d x :
  groups_wf src → groups_wf dst → src !! sg = Some s → dst !! dg = Some d → eg_to d = eg_to s →
  merge_inv src dst sg dg → merge_inv src (<[dg := group_or d x]> dst) (sg + 1) (dg + 1).
Proof.
  intros Hw Hwd Hs Hd Heq Hm j k d' s' Hj Hk Hd' Hs'.
  assert (eg_to s < eg_to s')%N as Hss' by (apply (groups_key_lt src sg k); [done|lia|done|done]).
  destruct (decide (j = dg)) as [->|].
  - rewrite list_lookup_insert_eq in Hd' by (by apply lookup_lt_Some in Hd). simplify_eq.
    cbn [group_or eg_to]. lia.
  - rewrite list_lookup_insert_ne in Hd' by done.
    apply (Hm j k); [lia|lia|done|done].
Qed.

(** Where a missing destination is inserted during the merge. *)
Lemma merge_position src dst sg dg s :
  groups_wf dst → src !! sg = Some s → dg ≤ length dst → merge_inv src dst sg dg →
  (∀ d, dst !! dg = Some d → (eg_to s < eg_to d)%N) →
  (eg_to s ∉ (eg_to <$> dst)) ∧ lower_bound (eg_to <$> dst) (eg_to s) = dg.
Proof.
  intros Hwd Hs Hle Hm Hd.
  assert (lower_bound (eg_to <$> dst) (eg_to s) = dg) as Hlb.
  { apply lower_bound_unique; [by rewrite length_fmap| |].
    - intros i k Hi Hlt. rewrite list_lookup_fmap in Hi. destruct (dst !! i) as [d|] eqn:Ed; simplify_eq/=.
      by apply (Hm i sg).
    - intros k Hk. rewrite list_lookup_fmap in Hk. destruct (dst !! dg) as [d|] eqn:Ed; simplify_eq/=.
      specialize (Hd d eq_refl). lia. }
  split; [|done]. intros Hin. apply elem_of_lower_bound in Hin; [|apply Hwd].
  rewrite Hlb, list_lookup_fmap in Hin. destruct (dst !! dg) as [d|]; simplify_eq/=.
  specialize (Hd d eq_refl). lia.
Qed.

Lemma merge_inv_insert src dst sg dg g s :
  groups_wf src → dg ≤ length dst → src !! sg = Some s → merge_inv src dst sg dg →
  merge_inv src (insert_at dg g dst) sg dg.
Proof.
  intros Hw Hle Hs Hm j k d s' Hj Hk Hd Hs'. apply (Hm j k); [done|done| |done].
  unfold insert_at in Hd. rewrite lookup_app_l in Hd by (rewrite length_take; lia).
  by rewrite lookup_take_lt in Hd.
Qed.

Lemma insert_at_lookup {A} i (x : A) l : i ≤ length l → insert_at i x l !! i = Some x.
Proof.
  intros Hi. unfold insert_at. rewrite lookup_app_r by (rewrite length_take; lia).
  by rewrite length_take, Nat.min_l, Nat.sub_diag by lia.
Qed.

Lemma groups_edge_drop_S gs i g sym t :
  gs !! i = Some g →
  groups_edge (drop i gs) sym t ↔
  (eg_to g = t ∧ bs_get (eg_symbols g) sym = true) ∨ groups_edge (drop (i + 1) gs) sym t.
Proof. intros Hi. by rewrite (drop_S _ _ _ Hi), groups_edge_cons, Nat.add_1_r. Qed.

Definition copy_post (src : list edge_group) (dst : edge_set) (sg : nat) (r : bool * edge_set) : Prop :=
  edge_set_wf (Some r.2) ∧
  (r.1 = true → ∀ sym t, has_edge (Some r.2) sym t ↔
     has_edge (Some dst) sym t ∨ groups_edge (drop sg src) sym t).

Lemma copy_post_step src dst dst' sg g r :
  src !! sg = Some g →
  (∀ sym t, has_edge (Some dst') sym t ↔ has_edge (Some dst) sym t ∨
     (eg_to g = t ∧ bs_get (eg_symbols g) sym = true)) →
  copy_post src dst' (sg + 1) r → copy_post src dst sg r.
Proof.
  intros Hg He [H1 H2]. split; [done|]. intros Hr sym t.
  rewrite (H2 Hr), He, (groups_edge_drop_S _ _ _ _ _ Hg). tauto.
Qed.

Lemma copy_into_loop_spec al src : ∀ fuel dst sg dg,
  groups_wf src → edge_set_wf (Some dst) →
  dg ≤ length (es_groups dst) → merge_inv src (es_groups dst) sg dg →
  (length src - sg) + (length (es_groups dst) - dg) < fuel →
  ∃ r, copy_into_loop fuel al src dst sg dg = Some r ∧ copy_post src dst sg r ∧
    (alloc_total → r.1 = true).
Proof.
  induction fuel as [|fuel IH]; intros dst sg dg Hws Hwd Hdg Hm Hf; [lia|].
  cbn [copy_into_loop]. destruct (src !! sg) as [s|] eqn:Es.
  2:{ eexists; split; [done|]. split; [|done]. split; [done|]. intros _ sym t. simpl.
      apply lookup_ge_None in Es. rewrite drop_ge, groups_edge_nil by done. tauto. }
  pose proof (lookup_lt_Some _ _ _ Es) as Hsg. pose proof (groups_wf_lookup _ _ _ Hws Es) as Hsok.
  (* the case of a destination group at [dg] with the same key *)
  assert (∀ dst1 d, edge_set_wf (Some dst1) → es_groups dst1 !! dg = Some d → eg_to d = eg_to s →
    merge_inv src (es_groups dst1) sg dg →
    length (es_groups dst1) - (dg + 1) ≤ length (es_groups dst) - dg →
    (∀ sym t, has_edge (Some dst1) sym t ∨ (eg_to s = t ∧ bs_get (eg_symbols s) sym = true) ↔
      has_edge (Some dst) sym t ∨ (eg_to s = t ∧ bs_get (eg_symbols s) sym = true)) →
    ∃ r, copy_into_loop fuel al src (mk_edge_set (es_ceil dst1)
          (<[dg := group_or d (eg_symbols s)]> (es_groups dst1))) (sg + 1) (dg + 1) = Some r ∧
      copy_post src dst sg r ∧ (alloc_total → r.1 = true)) as Hsame.
  { intros dst1 d (Hg1 & Hlen1 & Hpos1) Hd Heq Hm1 Hl1 He1. pose proof (lookup_lt_Some _ _ _ Hd).
    pose proof (groups_wf_lookup _ _ _ Hg1 Hd) as [Hdok _]. destruct Hsok as [Hsok _].
    destruct (IH (mk_edge_set (es_ceil dst1) (<[dg := group_or d (eg_symbols s)]> (es_groups dst1)))
      (sg + 1) (dg + 1)) as (r & Hr & Hp & Ht); [done| | | | |].
    - split; [by apply groups_wf_or|]. cbn [es_groups es_ceil]. by rewrite length_insert.
    - cbn [es_groups]. rewrite length_insert. lia.
    - by eapply merge_inv_both.
    - cbn [es_groups]. rewrite length_insert. lia.
    - exists r. split; [done|]. split; [|done]. eapply copy_post_step; [done| |exact Hp].
      intros sym t. unfold has_edge at 1. cbn [set_groups es_groups].
      rewrite (groups_edge_or _ _ d) by (done || (destruct Hdok as [-> _], Hsok as [-> _]; done)).
      rewrite <-He1. rewrite Heq. unfold has_edge. simpl. naive_solver. }
  destruct (match es_groups dst !! dg with None => true | Some d => (eg_to s <? eg_to d)%N end) eqn:En.
  - destruct (merge_position src (es_groups dst) sg dg s) as [Hnin Hlb];
      [apply Hwd|done|done|done|intros d Hd; rewrite Hd in En; by split_bool|].
    pose proof (find_first_group_label_spec s Hsok) as Hl.
    destruct (find_first_group_label s) as [label|].
    2:{ destruct (IH dst (sg + 1) dg) as (r & Hr & Hp & Ht);
          [done|done|done|by apply merge_inv_step_src|lia|].
        exists r. split; [done|]. split; [|done]. eapply copy_post_step; [done| |exact Hp].
        intros sym t. rewrite Hl. naive_solver. }
    destruct Hl as [Hlab Hlabs]. destruct (edge_set_add (Some dst) al label (eg_to s)) as [ok p1] eqn:Ea.
    destruct (edge_set_add_bulk_Some _ _ _ _ _ _ Ea) as [dst1 ->].
    pose proof (edge_set_add_spec _ _ _ _ _ _ Hwd Hlab (proj2 Hsok) Ea) as Hadd.
    destruct ok.
    2:{ eexists; split; [done|]. injection Hadd as ->. split; [split; [done|intros; done]|].
        intros Ht. pose proof (edge_set_add_total (Some dst) al label (eg_to s)) as Htt.
        rewrite Ea in Htt. done. }
    destruct Hadd as [Hwd1 He1].
    pose proof (edge_set_add_bulk_insert _ _ _ _ _ (proj1 Hwd) Hnin Ea) as Hins. rewrite Hlb in Hins.
    rewrite Hins, insert_at_lookup by done. cbn [mbind option_bind eg_to].
    rewrite N.ltb_irrefl, N.eqb_refl. rewrite <-Hins. apply Hsame.
    + done.
    + rewrite Hins. by apply insert_at_lookup.
    + done.
    + rewrite Hins. by eapply merge_inv_insert.
    + rewrite Hins, length_insert_at by done. lia.
    + intros sym t. rewrite He1. naive_solver.
  - destruct (es_groups dst !! dg) as [d|] eqn:Ed; [|done]. split_bool.
    pose proof (lookup_lt_Some _ _ _ Ed). cbn [mbind option_bind]. case_if; [|case_if; [|lia]].
    + destruct (IH dst sg (dg + 1)) as (r & Hr & Hp & Ht); [done|done|lia|by eapply merge_inv_advance|lia|].
      eauto.
    + apply Hsame; [done|done|done|done|lia|done].
Qed.

(** Copying merges the edges of the source into the destination, and on
    success the destination has exactly the edges of both. *)
Lemma edge_set_copy_spec al pdst psrc :
  edge_set_wf pdst → edge_set_wf psrc → (pdst ≠ None → psrc ≠ None) →
  ∃ b p', edge_set_copy pdst al psrc = Some (b, p') ∧ edge_set_wf p' ∧
    (b = true → ∀ sym t, has_edge p' sym t ↔ has_edge pdst sym t ∨ has_edge psrc sym t) ∧
    (alloc_total → b = true).
Proof.
  intros Hwd Hws Hnull. unfold edge_set_copy. destruct pdst as [dst|].
  - destruct psrc as [src|]; [|by destruct Hnull]. cbn [mbind option_bind].
    destruct (copy_into_loop_spec al (es_groups src) (S (length (es_groups src) + length (es_groups dst)))
      dst 0 0) as ([b dst'] & Hr & [H1 H2] & Ht); [apply Hws|done|lia|intros ?; lia|lia|].
    unfold edge_set_copy_into. rewrite Hr. cbn. eauto 10.
  - destruct (edge_set_empty psrc) eqn:E.
    { exists true, None. split; [done|]. split; [done|]. split; [|done]. intros _ sym t.
      pose proof (edge_set_empty_edge psrc sym t Hws E). unfold has_edge at 1 2. simpl.
      rewrite groups_edge_nil. tauto. }
    destruct psrc as [src|]; [|done]. cbn [mbind option_bind].
    assert (∀ sym t, has_edge (Some src) sym t ↔ has_edge None sym t ∨ has_edge (Some src) sym t).
    { intros. unfold has_edge at 2. simpl. rewrite groups_edge_nil. tauto. }
    destruct src as [c gs]. simpl in *.
    repeat case_if; eexists _, _; (split; [done|]); (split; [done|]); (split; [done|]);
      intros Ht; rewrite ?f_malloc_total in *; done.
Qed.
End CopyLemmas.

(** ** Lemmas: the destinations an operation can leave in the array *)

Definition edge_keys (p : edge_set_ptr) : list N := eg_to <$> set_groups p.

Lemma has_edge_key p sym t : has_edge p sym t → t ∈ edge_keys p.
Proof. apply groups_edge_dec_keys. Qed.

Lemma elem_of_fmap_alter (f : edge_group → edge_group) (i : nat) (gs : list edge_group) (t : N) :
  (∀ g, eg_to (f g) = eg_to g) → t ∈ eg_to <$> alter f i gs → t ∈ eg_to <$> gs.
Proof.
  intros Hf. rewrite list_elem_of_fmap. intros (g & -> & [j Hj]%list_elem_of_lookup).
  destruct (decide (i = j)) as [->|].
  - rewrite list_lookup_alter_eq in Hj. destruct (gs !! j) as [g0|] eqn:E; simplify_eq/=.
    rewrite Hf. apply list_elem_of_fmap_2, list_elem_of_lookup. eauto.
  - rewrite list_lookup_alter_ne in Hj by done. apply list_elem_of_fmap_2, list_elem_of_lookup. eauto.
Qed.

Lemma edge_set_add_bulk_keys `{allocator} p al symbols state b p' t :
  edge_set_add_bulk p al symbols state = (b, p') → t ∈ edge_keys p' → t ∈ edge_keys p ∨ t = state.
Proof.
  unfold edge_set_add_bulk, edge_keys. destruct p as [s|].
  - destruct (find_state_position s state) as [[] i].
    + destruct (if length (es_groups s) =? es_ceil s then _ else _) as [ok s1] eqn:E.
      assert (es_groups s1 = es_groups s) as Hs.
      { revert E. unfold grow_groups. repeat case_match; intros; simplify_eq; done. }
      destruct ok; intros [= <- <-]; cbn [set_groups es_groups]; rewrite Hs; [|by left].
      rewrite fmap_insert_at, elem_of_insert_at. cbn [eg_to]. tauto.
    + intros [= <- <-]. cbn [set_groups es_groups]. intros Ht. left. eapply elem_of_fmap_alter; [|exact Ht]. done.
  - destruct (init_empty al); intros [= <- <-]; cbn; [|by left].
    rewrite elem_of_cons. intros [?|?%not_elem_of_nil]; [by right|done].
Qed.

Lemma edge_set_add_keys `{allocator} p al symbol state b p' t :
  edge_set_add p al symbol state = (b, p') → t ∈ edge_keys p' → t ∈ edge_keys p ∨ t = state.
Proof. apply edge_set_add_bulk_keys. Qed.

Lemma add_states_keys `{allocator} al symbol l : ∀ p b p' t,
  add_states p al symbol l = (b, p') → t ∈ edge_keys p' → t ∈ edge_keys p ∨ t ∈ l.
Proof.
  induction l as [|s l IH]; intros p b p' t; simpl; [intros [= <- <-]; by left|].
  destruct (edge_set_add p al symbol s) as [ok p1] eqn:E. destruct ok.
  - intros Ha Ht. destruct (IH _ _ _ _ Ha Ht) as [H1|H1]; [|right; by right].
    destruct (edge_set_add_keys _ _ _ _ _ _ _ E H1) as [?| ->]; [by left|right; left].
  - intros [= <- <-] Ht. destruct (edge_set_add_keys _ _ _ _ _ _ _ E Ht) as [?| ->]; [by left|right; left].
Qed.

Lemma copy_into_loop_keys `{allocator} al src fuel : ∀ dst sg dg b dst' t,
  copy_into_loop fuel al src dst sg dg = Some (b, dst') →
  t ∈ edge_keys (Some dst') → t ∈ edge_keys (Some dst) ∨ t ∈ eg_to <$> src.
Proof.
  induction fuel as [|fuel IH]; intros dst sg dg b dst' t; cbn [copy_into_loop]; [done|].
  destruct (src !! sg) as [s|] eqn:Es; [|intros [= <- <-]; by left].
  assert (eg_to s ∈ eg_to <$> src) as Hs by (apply list_elem_of_fmap_2, list_elem_of_lookup; eauto).
  set (r := if match es_groups dst !! dg with None => true | Some d => (eg_to s <? eg_to d)%N end then _ else _).
  assert (∀ ok d1 t, r = Some (ok, Some d1) → t ∈ edge_keys (Some d1) → t ∈ edge_keys (Some dst) ∨ t ∈ eg_to <$> src) as Hr.
  { intros ok d1 t'. unfold r. case_match; [|intros [= <- <-]; by left].
    destruct (find_first_group_label s); [|done]. intros Ha%(inj Some) Ht.
    destruct (edge_set_add_keys _ _ _ _ _ _ _ Ha Ht) as [?| ->]; [by left|by right]. }
  clearbody r. destruct r as [[ok [d1|]]|]; [| |by apply IH].
  - destruct ok; [|intros [= <- <-]; by eapply Hr].
    destruct (es_groups d1 !! dg) as [d|] eqn:Ed; cbn [mbind option_bind]; [|done].
    destruct (eg_to d <? eg_to s)%N.
    + intros Ha Ht. destruct (IH _ _ _ _ _ _ Ha Ht) as [H1|H1]; [by eapply Hr|by right].
    + destruct (eg_to d =? eg_to s)%N; [|done].
      intros Ha Ht. destruct (IH _ _ _ _ _ _ Ha Ht) as [H1|H1]; [|by right].
      eapply Hr; [done|]. unfold edge_keys in *. cbn [set_groups es_groups] in *.
      rewrite list_fmap_insert in H1. cbn [group_or eg_to] in H1. rewrite list_insert_id in H1; [done|].
      by rewrite list_lookup_fmap, Ed.
  - by destruct ok.
Qed.

Lemma edge_set_copy_keys `{allocator} al pdst psrc b p' t :
  edge_set_copy pdst al psrc = Some (b, p') → t ∈ edge_keys p' → t ∈ edge_keys pdst ∨ t ∈ edge_keys psrc.
Proof.
  unfold edge_set_copy. destruct pdst as [dst|].
  - destruct psrc as [src|]; [|done]. cbn [mbind option_bind]. unfold edge_set_copy_into.
    destruct (copy_into_loop _ al (es_groups src) dst 0 0) as [[b' d']|] eqn:E; [|done].
    cbn [mbind option_bind]. intros [= <- <-] Ht. by eapply copy_into_loop_keys.
  - destruct (edge_set_empty psrc); [intros [= <- <-]; by left|]. destruct psrc as [src|]; [|done].
    cbn [mbind option_bind]. repeat case_match; intros [= <- <-] Ht; [by right|by left|by left].
Qed.

(** ** Properties *)

(** A client of the component: a sequence of edits applied to the empty set. *)
Inductive es_op :=
  | EAdd (symbol : nat) (state : N)
  | EAddBulk (symbols : list N) (state : N)
  | EAddStates (symbol : nat) (set : state_set)
  | ECopy (src : edge_set_ptr)
  | ERemove (symbol : nat).

Definition es_op_ok (op : es_op) : Prop :=
  match op with
  | EAdd symbol state => symbol < 256 ∧ (state < 4294967296)%N
  | EAddBulk symbols state => words_ok 4 symbols ∧ (state < 4294967296)%N
  | EAddStates symbol set => symbol < 256 ∧ state_set_wf set
  | ECopy src => src ≠ None ∧ edge_set_wf src
  | ERemove symbol => symbol < 256
  end.

(** What the edit does to the edges, as a relation between symbols and
    destinations. *)
Definition es_op_edges (op : es_op) (E : nat → N → Prop) (sym : nat) (t : N) : Prop :=
  match op with
  | EAdd symbol state => E sym t ∨ (t = state ∧ sym = symbol)
  | EAddBulk symbols state => E sym t ∨ (t = state ∧ bs_get symbols sym = true)
  | EAddStates symbol set => E sym t ∨ (ss_has set t ∧ sym = symbol)
  | ECopy src => E sym t ∨ has_edge src sym t
  | ERemove symbol => E sym t ∧ sym ≠ symbol
  end.

Definition es_exec `{allocator} (al : fsm_alloc) (p : edge_set_ptr) (op : es_op)
    : option (bool * edge_set_ptr) :=
  match op with
  | EAdd symbol state => Some (edge_set_add p al symbol state)
  | EAddBulk symbols state => Some (edge_set_add_bulk p al symbols state)
  | EAddStates symbol set => Some (edge_set_add_state_set p al symbol set)
  | ECopy src => edge_set_copy p al src
  | ERemove symbol => Some (true, edge_set_remove p symbol)
  end.

Fixpoint es_exec_all `{allocator} (al : fsm_alloc) (p : edge_set_ptr) (ops : list es_op)
    : option (bool * edge_set_ptr) :=
  match ops with
  | [] => Some (true, p)
  | op :: ops =>
      '(b, p) ← es_exec al p op;
      if (b : bool) then es_exec_all al p ops else Some (false, p)
  end.

Definition es_edges (ops : list es_op) : nat → N → Prop :=
  foldl (λ E op, es_op_edges op E) (λ _ _, False) ops.

Lemma add_states_total `{alloc_total} al symbol l : ∀ p, (add_states p al symbol l).1 = true.
Proof.
  induction l as [|s l IH]; intros p; simpl; [done|].
  pose proof (edge_set_add_total p al symbol s). destruct (edge_set_add p al symbol s) as [[] p1]; [|done].
  apply IH.
Qed.

Lemma es_exec_spec `{alloc_total} al p op :
  edge_set_wf p → es_op_ok op →
  ∃ p', es_exec al p op = Some (true, p') ∧ edge_set_wf p' ∧
    ∀ sym t, has_edge p' sym t ↔ es_op_edges op (has_edge p) sym t.
Proof.
  intros Hwf Hop. destruct op as [symbol state|symbols state|symbol set|src|symbol];
    cbn [es_exec es_op_ok es_op_edges] in *.
  - destruct Hop. pose proof (edge_set_add_total p al symbol state) as Ht.
    destruct (edge_set_add p al symbol state) as [b p'] eqn:E. simpl in Ht. subst b.
    apply edge_set_add_spec in E as [? ?]; eauto.
  - destruct Hop. pose proof (edge_set_add_bulk_total p al symbols state) as Ht.
    destruct (edge_set_add_bulk p al symbols state) as [b p'] eqn:E. simpl in Ht. subst b.
    apply edge_set_add_bulk_spec in E as [? ?]; eauto.
  - destruct Hop. unfold edge_set_add_state_set.
    pose proof (add_states_total al symbol (state_iter_run (S (state_set_count set)) (state_set_reset set)) p) as Ht.
    destruct (edge_set_add_state_set p al symbol set) as [b p'] eqn:E.
    assert (b = true) as -> by (by unfold edge_set_add_state_set in E; rewrite E in Ht).
    unfold edge_set_add_state_set in E. rewrite E.
    apply edge_set_add_state_set_spec in E as [? ?]; eauto.
  - destruct Hop. destruct (edge_set_copy_spec al p src) as (b & p' & Hc & Hw & He & Ht); [done|done|done|].
    assert (b = true) as -> by (by apply Ht). eauto.
  - destruct (edge_set_remove_spec p symbol) as [? ?]; eauto.
Qed.

Lemma es_op_edges_proper op E E' :
  (∀ sym t, E sym t ↔ E' sym t) → ∀ sym t, es_op_edges op E sym t ↔ es_op_edges op E' sym t.
Proof. intros HE sym t. destruct op; simpl; rewrite HE; done. Qed.

Lemma es_edges_proper ops E E' :
  (∀ sym t, E sym t ↔ E' sym t) →
  ∀ sym t, foldl (λ E op, es_op_edges op E) E ops sym t ↔ foldl (λ E op, es_op_edges op E) E' ops sym t.
Proof.
  revert E E'; induction ops as [|op ops IH]; intros E E' HE; simpl; [done|].
  apply IH. by apply es_op_edges_proper.
Qed.

Lemma es_exec_all_spec `{alloc_total} al ops : ∀ p,
  edge_set_wf p → Forall es_op_ok ops →
  ∃ p', es_exec_all al p ops = Some (true, p') ∧ edge_set_wf p' ∧
    ∀ sym t, has_edge p' sym t ↔ foldl (λ E op, es_op_edges op E) (has_edge p) ops sym t.
Proof.
  induction ops as [|op ops IH]; intros p Hwf Hops; [by exists p|].
  apply Forall_cons in Hops as [Hop Hops]. cbn [es_exec_all foldl].
  destruct (es_exec_spec al p op Hwf Hop) as (p1 & -> & Hwf1 & He1). cbn [mbind option_bind].
  destruct (IH p1 Hwf1 Hops) as (p' & -> & Hwf' & He'). exists p'. split; [done|]. split; [done|].
  intros sym t. rewrite He'. apply es_edges_proper. done.
Qed.

(** C19. An edge set implements a finite relation between symbols and states: after
    any sequence of additions, bulk additions, copies and removals it has
    exactly the edges the sequence describes, [edge_set_contains] and
    [edge_set_empty] decide the relation, and a transition gives a destination
    (for states that fit the 24 bits of an edge). *)
Theorem edge_set_refines_relation `{alloc_total} al ops :
  Forall es_op_ok ops →
  ∃ p, es_exec_all al None ops = Some (true, p) ∧ edge_set_wf p ∧
    (∀ sym t, has_edge p sym t ↔ es_edges ops sym t) ∧
    (∀ sym, edge_set_contains p sym = true ↔ ∃ t, es_edges ops sym t) ∧
    (edge_set_empty p = true ↔ ∀ sym t, ¬ es_edges ops sym t) ∧
    (∀ sym, match edge_set_transition p sym with
      | Some t => ∃ t', es_edges ops sym t' ∧ t = u24 t'
      | None => ∀ t, ¬ es_edges ops sym t
      end).
Proof.
  intros Hops. destruct (es_exec_all_spec al ops None I Hops) as (p & Hp & Hwf & He).
  exists p. split; [done|]. split; [done|].
  assert (∀ sym t, has_edge p sym t ↔ es_edges ops sym t) as Heq.
  { intros sym t. rewrite He. apply es_edges_proper. intros. apply groups_edge_nil. }
  split; [done|]. split; [|split].
  - intros sym. rewrite edge_set_contains_spec by done. by setoid_rewrite Heq.
  - rewrite edge_set_empty_spec by done. by setoid_rewrite Heq.
  - intros sym. pose proof (edge_set_transition_spec p sym) as Ht.
    destruct (edge_set_transition p sym); [|by setoid_rewrite <-Heq].
    destruct Ht as (t' & Ht & ->). exists t'. by rewrite <-Heq.
Qed.

Lemma edge_set_refines_relation_witness :
  ∃ p, @es_exec_all always 0%N None [EAdd 97 5; EAdd 98 3; EAddBulk [1; 0; 0; 0]%N 5; ERemove 98] = Some (true, p) ∧
    has_edge p 0 5.
Proof.
  destruct (@edge_set_refines_relation always always_total 0%N
    [EAdd 97 5; EAdd 98 3; EAddBulk [1; 0; 0; 0]%N 5; ERemove 98]) as (p & Hp & _ & He & _).
  - repeat constructor.
  - exists p. split; [exact Hp|]. apply He. cbn. split; [|lia]. right. split; reflexivity.
Defined.

(** C38. Removing a destination from a full array reads one group past its end: the
    number of groups moved down is [count - i], not [count - i - 1]. *)
Theorem edge_set_remove_state_reads_past_end s x :
  edge_set_wf (Some s) → edge_set_empty (Some s) = false →
  length (es_groups s) = es_ceil s → x ∈ eg_to <$> es_groups s →
  edge_set_remove_state (Some s) x = None.
Proof.
  intros Hwf He Hl Hx. unfold edge_set_remove_state. rewrite He. cbn [mbind option_bind].
  rewrite remove_state_loop_oob; [done|lia|done].
Qed.

Lemma edge_set_remove_state_reads_past_end_witness :
  edge_set_remove_state (Some (mk_edge_set 1 [mk_group [2; 0; 0; 0]%N 7])) 7 = None.
Proof.
  apply (edge_set_remove_state_reads_past_end (mk_edge_set 1 [mk_group [2; 0; 0; 0]%N 7]) 7).
  - by_compute.
  - reflexivity.
  - reflexivity.
  - left.
Defined.
