(* ===== verification/EdgeIter.v ===== *)
(** * Iterating over edge sets: src/adt/edgeset.c

    The three iterators (by group and symbol, by symbol, by group), the count
    of edges and the test for nondeterminism. Each is related to one reference
    enumeration, [edge_list]. *)

From S2P Require Import Prelude StateSet Bits Bitmap EdgeSet.

(** ** Reference enumeration *)

(** The symbols of a bit set, in order. *)
Definition sym_list (s : list N) : list nat := filter (λ i, bs_get s i = true) (seq 0 256).

Definition group_edges (g : edge_group) : list (nat * N) :=
  (λ sym, (sym, eg_to g)) <$> sym_list (eg_symbols g).

Definition edge_list (p : edge_set_ptr) : list (nat * N) := set_groups p ≫= group_edges.

(** ** [edge_set_reset] and [edge_set_next] *)

Record edge_iter := { ei_i : nat; ei_j : nat; ei_set : edge_set_ptr }.

Definition edge_set_reset (set : edge_set_ptr) : edge_iter :=
  {| ei_i := 0; ei_j := 0; ei_set := set |}.

(** The inner loop: the next symbol of a group from [j] on, and the new [j]. *)
Fixpoint next_symbol (fuel : nat) (symbols : list N) (j : nat) : option nat * nat :=
  match fuel with
  | 0 => (None, j)
  | S fuel =>
      if j <? 256 then
        if (Nat.land j 63 =? 0) && (word symbols (j / 64) =? 0)%N then
          next_symbol fuel symbols (j + 64)
        else if SYMBOLS_GET symbols j then (Some j, j + 1)
        else next_symbol fuel symbols (j + 1)
      else (None, j)
  end.

Fixpoint next_edge (fuel : nat) (gs : list edge_group) (i j : nat) : option (fsm_edge * nat * nat) :=
  match fuel with
  | 0 => None
  | S fuel =>
      match gs !! i with
      | None => None
      | Some eg =>
          match next_symbol 257 (eg_symbols eg) j with
          | (Some sym, j) => Some (set_fsm_edge sym (eg_to eg), i, j)
          | (None, _) => next_edge fuel gs (i + 1) 0
          end
      end
  end.

Definition edge_set_next (it : edge_iter) : option (fsm_edge * edge_iter) :=
  match ei_set it with
  | None => None
  | Some s =>
      '(e, i, j) ← next_edge (S (length (es_groups s))) (es_groups s) (ei_i it) (ei_j it);
      Some (e, {| ei_i := i; ei_j := j; ei_set := ei_set it |})
  end.

(** The edges a [for (edge_set_reset(...); edge_set_next(...); )] loop
    visits. *)
Fixpoint edge_iter_run (fuel : nat) (it : edge_iter) : list fsm_edge :=
  match fuel with
  | 0 => []
  | S fuel =>
      match edge_set_next it with
      | None => []
      | Some (e, it) => e :: edge_iter_run fuel it
      end
  end.

(** ** The ordered iterator *)

Record edge_ordered_iter := { eoi_set : edge_set_ptr; eoi_pos : nat; eoi_symbol : nat }.

Definition edge_set_ordered_iter_reset_to (set : edge_set_ptr) (symbol : nat) : edge_ordered_iter :=
  {| eoi_set := set; eoi_pos := 0; eoi_symbol := symbol |}.

Definition edge_set_ordered_iter_reset (set : edge_set_ptr) : edge_ordered_iter :=
  edge_set_ordered_iter_reset_to set 0.

(** The groups from [pos] on: the first one with the symbol, and the position
    after it. *)
Fixpoint ordered_scan (fuel : nat) (gs : list edge_group) (pos symbol : nat)
    : option (fsm_edge * nat) :=
  match fuel with
  | 0 => None
  | S fuel =>
      match gs !! pos with
      | None => None
      | Some eg =>
          if SYMBOLS_GET (eg_symbols eg) symbol then Some (set_fsm_edge symbol (eg_to eg), pos + 1)
          else ordered_scan fuel gs (pos + 1) symbol
      end
  end.

Fixpoint ordered_next (fuel : nat) (gs : list edge_group) (pos symbol : nat)
    : option (fsm_edge * nat * nat) :=
  match fuel with
  | 0 => None
  | S fuel =>
      match ordered_scan (S (length gs)) gs pos symbol with
      | Some (e, pos) => Some (e, pos, symbol)
      | None => if symbol =? 255 then None else ordered_next fuel gs 0 (symbol + 1)
      end
  end.

(** The edge, if any, and the iterator, whose set becomes NULL at the end. *)
Definition edge_set_ordered_iter_next (eoi : edge_ordered_iter)
    : option fsm_edge * edge_ordered_iter :=
  match eoi_set eoi with
  | None => (None, eoi)
  | Some s =>
      match ordered_next 256 (es_groups s) (eoi_pos eoi) (eoi_symbol eoi) with
      | Some (e, pos, symbol) =>
          (Some e, {| eoi_set := eoi_set eoi; eoi_pos := pos; eoi_symbol := symbol |})
      | None => (None, {| eoi_set := None; eoi_pos := length (es_groups s); eoi_symbol := 255 |})
      end
  end.

Fixpoint ordered_iter_run (fuel : nat) (eoi : edge_ordered_iter) : list fsm_edge :=
  match fuel with
  | 0 => []
  | S fuel =>
      match edge_set_ordered_iter_next eoi with
      | (None, _) => []
      | (Some e, eoi) => e :: ordered_iter_run fuel eoi
      end
  end.

(** ** The group iterator *)

Inductive edge_group_iter_type := EDGE_GROUP_ITER_ALL | EDGE_GROUP_ITER_UNIQUE.

(** [egi_flag] is the iteration type, or [EDGE_GROUP_ITER_UNIQUE + 1] between
    the two halves of a group. *)
Record edge_group_iter := {
  egi_set : edge_set_ptr;
  egi_flag : nat;
  egi_i : nat;
  egi_internal : list N;
}.

Record edge_group_iter_info := mk_info {
  egii_unique : option bool; (* [None]: not written *)
  egii_to : N;
  egii_symbols : list N;
}.

(** One group of the pass that finds the labels of more than one group. *)
Fixpoint mark_symbols (fuel : nat) (symbols : list N) (i : nat) (seen internal : list N)
    : list N * list N :=
  match fuel with
  | 0 => (seen, internal)
  | S fuel =>
      if i <? 256 then
        if (Nat.land i 63 =? 0) && (word symbols (i / 64) =? 0)%N then
          mark_symbols fuel symbols (i + 64) seen internal
        else if SYMBOLS_GET symbols i then
          if SYMBOLS_GET seen i then mark_symbols fuel symbols (i + 1) seen (SYMBOLS_SET internal i)
          else mark_symbols fuel symbols (i + 1) (SYMBOLS_SET seen i) internal
        else mark_symbols fuel symbols (i + 1) seen internal
      else (seen, internal)
  end.

Definition mark_groups (gs : list edge_group) : list N * list N :=
  foldl (λ '(seen, internal) g, mark_symbols 257 (eg_symbols g) 0 seen internal)
    (replicate 4 0%N, replicate 4 0%N) gs.

Definition edge_set_group_iter_reset (set : edge_set_ptr) (iter_type : edge_group_iter_type)
    : edge_group_iter :=
  match iter_type, set with
  | EDGE_GROUP_ITER_ALL, _ =>
      {| egi_set := set; egi_flag := 0; egi_i := 0; egi_internal := replicate 4 0%N |}
  | EDGE_GROUP_ITER_UNIQUE, None =>
      {| egi_set := set; egi_flag := 1; egi_i := 0; egi_internal := replicate 4 0%N |}
  | EDGE_GROUP_ITER_UNIQUE, Some s =>
      {| egi_set := set; egi_flag := 1; egi_i := 0; egi_internal := (mark_groups (es_groups s)).2 |}
  end.

Definition any_word (s : list N) : bool := existsb (λ w, negb (w =? 0)%N) s.

(** The function from its label [advance], once per [goto]. *)
Fixpoint group_iter_advance (fuel : nat) (egi : edge_group_iter)
    : option (edge_group_iter_info * edge_group_iter) :=
  match fuel with
  | 0 => None
  | S fuel =>
      match set_groups (egi_set egi) !! egi_i egi with
      | None => None
      | Some g =>
          let with_flag f i := {| egi_set := egi_set egi; egi_flag := f; egi_i := i;
            egi_internal := egi_internal egi |} in
          let non_unique :=
            let syms := words_and (eg_symbols g) (egi_internal egi) in
            let egi := with_flag 1 (egi_i egi + 1) in
            if any_word syms then Some (mk_info (Some false) (eg_to g) syms, egi)
            else group_iter_advance fuel egi in
          match egi_flag egi with
          | 0 =>
              let egi := with_flag 0 (egi_i egi + 1) in
              if any_word (eg_symbols g) then Some (mk_info None (eg_to g) (eg_symbols g), egi)
              else group_iter_advance fuel egi
          | 1 =>
              let syms := words_diff (eg_symbols g) (egi_internal egi) in
              if any_word syms then
                Some (mk_info (Some true) (eg_to g) syms, with_flag 2 (egi_i egi))
              else non_unique
          | 2 => non_unique
          | _ => None
          end
      end
  end.

Definition edge_set_group_iter_next (egi : edge_group_iter)
    : option (edge_group_iter_info * edge_group_iter) :=
  group_iter_advance (S (length (set_groups (egi_set egi)))) egi.

Fixpoint group_iter_run (fuel : nat) (egi : edge_group_iter) : list edge_group_iter_info :=
  match fuel with
  | 0 => []
  | S fuel =>
      match edge_set_group_iter_next egi with
      | None => []
      | Some (info, egi) => info :: group_iter_run fuel egi
      end
  end.

(** ** Counting and nondeterminism *)

(** [for (bit = 1; bit; bit <<= 1)] *)
Fixpoint count_bits (fuel : nat) (w bit : N) (res : nat) : nat :=
  match fuel with
  | 0 => res
  | S fuel =>
      if (bit =? 0)%N then res
      else count_bits fuel w (u64 (N.shiftl bit 1))
        (if (N.land w bit =? 0)%N then res else res + 1)
  end.

Definition group_count (res : nat) (eg : edge_group) : nat :=
  foldl (λ res w_i, let w := word (eg_symbols eg) w_i in
    if (w =? 0)%N then res else count_bits 65 w 1 res) res (seq 0 4).

Definition edge_set_count (set : edge_set_ptr) : nat :=
  match set with
  | None => 0
  | Some s => foldl group_count 0 (es_groups s)
  end.

Fixpoint nd_bits (n b_i w_i : nat) (cur : N) (b : bm) : bool * bm :=
  match n with
  | 0 => (false, b)
  | S n =>
      if negb (N.land cur (N.shiftl 1 (N.of_nat b_i)) =? 0)%N then
        let bit := 64 * w_i + b_i in
        if bm_get b bit then (true, b)
        else nd_bits n (b_i + 1) w_i cur (bm_set b bit)
      else nd_bits n (b_i + 1) w_i cur b
  end.

Fixpoint nd_words (n w_i : nat) (symbols : list N) (b : bm) : bool * bm :=
  match n with
  | 0 => (false, b)
  | S n =>
      let cur := word symbols w_i in
      if (cur =? 0)%N then nd_words n (w_i + 1) symbols b
      else
        let '(hit, b) := nd_bits 64 0 w_i cur b in
        if hit then (true, b) else nd_words n (w_i + 1) symbols b
  end.

Fixpoint nd_groups (gs : list edge_group) (b : bm) : bool * bm :=
  match gs with
  | [] => (false, b)
  | eg :: gs =>
      let '(hit, b) := nd_words 4 0 (eg_symbols eg) b in
      if hit then (true, b) else nd_groups gs b
  end.

Definition edge_set_hasnondeterminism (set : edge_set_ptr) (b : bm) : bool * bm :=
  if edge_set_empty set then (false, b)
  else nd_groups (set_groups set) b.

(** ** Lemmas: the enumeration *)

Lemma elem_of_sym_list s i : words_ok 4 s → i ∈ sym_list s ↔ bs_get s i = true.
Proof.
  intros Hs. unfold sym_list. rewrite list_elem_of_filter, elem_of_seq. split; [tauto|].
  intros Hi. split; [done|]. apply (bs_get_lt 4) in Hi; [lia|done].
Qed.

Lemma NoDup_sym_list s : NoDup (sym_list s).
Proof. apply NoDup_filter, NoDup_seq. Qed.

Lemma elem_of_group_edges g sym t :
  group_ok g → (sym, t) ∈ group_edges g ↔ t = eg_to g ∧ bs_get (eg_symbols g) sym = true.
Proof.
  intros [Hg _]. unfold group_edges. rewrite list_elem_of_fmap. setoid_rewrite elem_of_sym_list; [|done].
  naive_solver.
Qed.

(** The enumeration has each edge of the set. *)
Lemma elem_of_edge_list p sym t : edge_set_wf p → (sym, t) ∈ edge_list p ↔ has_edge p sym t.
Proof.
  intros Hwf. unfold edge_list, has_edge, groups_edge. rewrite list_elem_of_bind.
  assert (Forall group_ok (set_groups p)) as Hf by (destruct p as [s|]; [apply Hwf|constructor]).
  rewrite Forall_forall in Hf. split.
  - intros (g & Hin & Hg). apply elem_of_group_edges in Hin; [|by apply Hf].
    exists g. naive_solver.
  - intros (g & Hg & <- & Hs). exists g. split; [|done]. by apply elem_of_group_edges; [apply Hf|].
Qed.

Lemma NoDup_edge_list p : edge_set_wf p → NoDup (edge_list p).
Proof.
  intros Hwf. unfold edge_list.
  assert (increasing (eg_to <$> set_groups p)) as Hs by (destruct p as [s|]; [apply Hwf|constructor]).
  apply increasing_NoDup in Hs. induction (set_groups p) as [|g gs IH]; simpl; [constructor|].
  cbn [fmap list_fmap] in Hs. apply NoDup_cons in Hs as [Hg Hs]. apply NoDup_app. split; [|split; [|by apply IH]].
  - apply NoDup_fmap_2; [|apply NoDup_sym_list]. intros ?? [=]. done.
  - intros [sym t] (? & [= -> ->] & _)%list_elem_of_fmap (g' & (? & [= _ Heq] & _)%list_elem_of_fmap & Hg')%list_elem_of_bind.
    apply Hg. rewrite Heq. by apply list_elem_of_fmap_2.
Qed.

(** The symbols of a bit set from [j] on. *)
Definition syms_from (s : list N) (j : nat) : list nat :=
  filter (λ i, bs_get s i = true) (seq j (256 - j)).

Lemma syms_from_end s j : 256 ≤ j → syms_from s j = [].
Proof. intros. unfold syms_from. by replace (256 - j) with 0 by lia. Qed.

Lemma syms_from_step s j :
  j < 256 → syms_from s j = if bs_get s j then j :: syms_from s (j + 1) else syms_from s (j + 1).
Proof.
  intros Hj. unfold syms_from. replace (256 - j) with (S (256 - (j + 1))) by lia.
  cbn [seq]. rewrite filter_cons, Nat.add_1_r. destruct (bs_get s j); [by rewrite decide_True|by rewrite decide_False].
Qed.

Lemma syms_from_skip s j :
  words_ok 4 s → j < 256 → (Nat.land j 63 =? 0) && (word s (j / 64) =? 0)%N = true →
  syms_from s j = syms_from s (j + 64).
Proof.
  intros Hs Hj Hz. apply andb_true_iff in Hz as [Hm Hz]. apply Nat.eqb_eq in Hm. rewrite land_63 in Hm.
  rewrite (word_zero 4) in Hz by done.
  assert (64 * (j / 64) = j) as Ej by (pose proof (Nat.div_mod_eq j 64); lia).
  rewrite Ej in Hz.
  assert (j ≤ 192) as Hle by (pose proof (Nat.Div0.div_lt_upper_bound j 64 4 ltac:(lia)); lia).
  unfold syms_from. replace (256 - j) with (64 + (256 - (j + 64))) by lia.
  rewrite seq_app, filter_app.
  replace (filter (λ i, bs_get s i = true) (seq j 64)) with (@nil nat); [done|].
  symmetry. apply elem_of_nil_inv. intros i [Hi [Hi1 Hi2]%elem_of_seq]%list_elem_of_filter.
  replace i with (j + (i - j)) in Hi by lia. by rewrite Hz in Hi by lia.
Qed.

Lemma next_symbol_spec s fuel : ∀ j,
  words_ok 4 s → 256 - j < fuel →
  match next_symbol fuel s j with
  | (Some k, j') => syms_from s j = k :: syms_from s j'
  | (None, _) => syms_from s j = []
  end.
Proof.
  induction fuel as [|fuel IH]; intros j Hs Hf; [lia|]. cbn [next_symbol].
  destruct (j <? 256) eqn:E; split_bool; [|by apply syms_from_end].
  destruct ((Nat.land j 63 =? 0) && (word s (j / 64) =? 0)%N) eqn:Ez.
  - rewrite (syms_from_skip _ _ Hs E Ez). apply IH; [done|lia].
  - rewrite syms_from_step by done. unfold SYMBOLS_GET. destruct (bs_get s j); [done|]. apply IH; [done|lia].
Qed.

(** The edges an iterator at [(i, j)] has still to visit. *)
Definition edges_from (gs : list edge_group) (i j : nat) : list (nat * N) :=
  match gs !! i with
  | None => []
  | Some g => ((λ sym, (sym, eg_to g)) <$> syms_from (eg_symbols g) j) ++ (drop (i + 1) gs ≫= group_edges)
  end.

Lemma edges_from_0 gs i : edges_from gs i 0 = drop i gs ≫= group_edges.
Proof.
  unfold edges_from. destruct (gs !! i) as [g|] eqn:E.
  - rewrite (drop_S _ _ _ E), Nat.add_1_r. done.
  - apply lookup_ge_None in E. by rewrite drop_ge.
Qed.

Lemma next_edge_spec gs fuel : ∀ i j,
  Forall group_ok gs → length gs < i + fuel → i ≤ length gs →
  match next_edge fuel gs i j with
  | Some (e, i', j') => ∃ sym t, e = set_fsm_edge sym t ∧ edges_from gs i j = (sym, t) :: edges_from gs i' j'
      ∧ i' ≤ length gs
  | None => edges_from gs i j = []
  end.
Proof.
  induction fuel as [|fuel IH]; intros i j Hf Hlen Hi; [lia|]. cbn [next_edge].
  destruct (gs !! i) as [g|] eqn:E; [|unfold edges_from; by rewrite E].
  pose proof (Forall_lookup_1 _ _ _ _ Hf E) as [Hg _]. pose proof (lookup_lt_Some _ _ _ E).
  pose proof (next_symbol_spec _ 257 j Hg ltac:(lia)) as Hn.
  destruct (next_symbol 257 (eg_symbols g) j) as [[k|] j'].
  - exists k, (eg_to g). split; [done|]. split; [|lia]. unfold edges_from. rewrite E, Hn. done.
  - assert (edges_from gs i j = edges_from gs (i + 1) 0) as ->.
    { rewrite edges_from_0. unfold edges_from. by rewrite E, Hn. }
    apply IH; [done|lia|lia].
Qed.

Definition edge_of (e : nat * N) : fsm_edge := set_fsm_edge e.1 e.2.

Lemma edge_iter_run_from s fuel : ∀ i j,
  Forall group_ok (es_groups s) → i ≤ length (es_groups s) →
  length (edges_from (es_groups s) i j) < fuel →
  edge_iter_run fuel {| ei_i := i; ei_j := j; ei_set := Some s |}
    = edge_of <$> edges_from (es_groups s) i j.
Proof.
  induction fuel as [|fuel IH]; intros i j Hf Hi Hl; [lia|]. cbn [edge_iter_run].
  unfold edge_set_next. cbn [ei_set ei_i ei_j].
  pose proof (next_edge_spec (es_groups s) (S (length (es_groups s))) i j Hf ltac:(lia) Hi) as Hn.
  destruct (next_edge _ (es_groups s) i j) as [[[e i'] j']|]; cbn [mbind option_bind].
  - destruct Hn as (sym & t & -> & Heq & Hi'). rewrite Heq in *. simpl in Hl.
    rewrite IH by (done || lia). done.
  - by rewrite Hn.
Qed.

(** The iteration visits every edge once, group by group. *)
Lemma edge_iter_run_edges p fuel :
  edge_set_wf p → length (edge_list p) < fuel →
  edge_iter_run fuel (edge_set_reset p) = edge_of <$> edge_list p.
Proof.
  intros Hwf Hf. destruct p as [s|].
  - unfold edge_set_reset. rewrite edge_iter_run_from; [| |lia|].
    + by rewrite edges_from_0, drop_0.
    + apply Hwf.
    + by rewrite edges_from_0, drop_0.
  - by destruct fuel.
Qed.

(** ** Lemmas: the ordered iterator *)

Definition sym_edges (gs : list edge_group) (sym : nat) : list (nat * N) :=
  (λ g, (sym, eg_to g)) <$> filter (λ g, bs_get (eg_symbols g) sym = true) gs.

(** The enumeration by symbol, from a position in the groups of one symbol. *)
Definition ordered_from (gs : list edge_group) (pos sym : nat) : list (nat * N) :=
  sym_edges (drop pos gs) sym ++ (seq (sym + 1) (255 - sym) ≫= sym_edges gs).

Lemma ordered_scan_spec gs sym fuel : ∀ pos,
  length gs < pos + fuel → pos ≤ length gs →
  match ordered_scan fuel gs pos sym with
  | Some (e, pos') => ∃ t, e = set_fsm_edge sym t ∧
      sym_edges (drop pos gs) sym = (sym, t) :: sym_edges (drop pos' gs) sym ∧ pos' ≤ length gs
  | None => sym_edges (drop pos gs) sym = []
  end.
Proof.
  induction fuel as [|fuel IH]; intros pos Hl Hp; [lia|]. cbn [ordered_scan].
  destruct (gs !! pos) as [g|] eqn:E.
  - pose proof (lookup_lt_Some _ _ _ E). rewrite (drop_S _ _ _ E). unfold sym_edges at 1 3, SYMBOLS_GET.
    rewrite filter_cons. destruct (bs_get (eg_symbols g) sym).
    + exists (eg_to g). rewrite decide_True, Nat.add_1_r by done. split; [done|]. split; [done|lia].
    + rewrite decide_False by done. specialize (IH (pos + 1) ltac:(lia) ltac:(lia)).
      rewrite Nat.add_1_r in *. exact IH.
  - apply lookup_ge_None in E. by rewrite drop_ge.
Qed.

Lemma ordered_next_spec gs fuel : ∀ pos sym,
  sym < 256 → pos ≤ length gs → 256 < sym + fuel + 1 →
  match ordered_next fuel gs pos sym with
  | Some (e, pos', sym') => ∃ x, e = edge_of x ∧
      ordered_from gs pos sym = x :: ordered_from gs pos' sym' ∧ pos' ≤ length gs ∧ sym' < 256
  | None => ordered_from gs pos sym = []
  end.
Proof.
  induction fuel as [|fuel IH]; intros pos sym Hs Hp Hf; [lia|]. cbn [ordered_next].
  pose proof (ordered_scan_spec gs sym (S (length gs)) pos ltac:(lia) Hp) as Ho.
  destruct (ordered_scan (S (length gs)) gs pos sym) as [[e pos']|].
  - destruct Ho as (t & -> & Heq & Hp'). exists (sym, t). split; [done|]. unfold ordered_from.
    rewrite Heq. done.
  - unfold ordered_from. rewrite Ho. destruct (sym =? 255) eqn:E; split_bool.
    + subst. done.
    + cbn [app]. specialize (IH 0 (sym + 1) ltac:(lia) ltac:(lia) ltac:(lia)).
      assert (seq (sym + 1) (255 - sym) ≫= sym_edges gs = ordered_from gs 0 (sym + 1)) as ->; [|exact IH].
      unfold ordered_from. rewrite drop_0. replace (255 - sym) with (S (255 - (sym + 1))) by lia.
      cbn [seq mbind list_bind]. by rewrite (Nat.add_1_r (sym + 1)).
Qed.

Lemma ordered_iter_run_from s fuel : ∀ pos sym,
  sym < 256 → pos ≤ length (es_groups s) → length (ordered_from (es_groups s) pos sym) < fuel →
  ordered_iter_run fuel {| eoi_set := Some s; eoi_pos := pos; eoi_symbol := sym |}
    = edge_of <$> ordered_from (es_groups s) pos sym.
Proof.
  induction fuel as [|fuel IH]; intros pos sym Hs Hp Hl; [lia|]. cbn [ordered_iter_run].
  unfold edge_set_ordered_iter_next. cbn [eoi_set eoi_pos eoi_symbol].
  pose proof (ordered_next_spec (es_groups s) 256 pos sym Hs Hp ltac:(lia)) as Ho.
  destruct (ordered_next 256 (es_groups s) pos sym) as [[[e pos'] sym']|].
  - destruct Ho as (x & -> & Heq & ? & ?). rewrite Heq in *. simpl in Hl. rewrite IH by (done || lia). done.
  - by rewrite Ho.
Qed.

Definition ordered_list (p : edge_set_ptr) : list (nat * N) := seq 0 256 ≫= sym_edges (set_groups p).

Lemma ordered_iter_run_edges p fuel :
  length (ordered_list p) < fuel →
  ordered_iter_run fuel (edge_set_ordered_iter_reset p) = edge_of <$> ordered_list p.
Proof.
  intros Hf. destruct p as [s|].
  - assert (ordered_list (Some s) = ordered_from (es_groups s) 0 0) as E by done.
    rewrite E in *. unfold edge_set_ordered_iter_reset, edge_set_ordered_iter_reset_to.
    apply ordered_iter_run_from; [lia|lia|done].
  - destruct fuel; done.
Qed.

Lemma elem_of_sym_edges gs sym x t :
  (x, t) ∈ sym_edges gs sym ↔ x = sym ∧ groups_edge gs sym t.
Proof.
  unfold sym_edges, groups_edge. rewrite list_elem_of_fmap. setoid_rewrite list_elem_of_filter. naive_solver.
Qed.

Lemma elem_of_ordered_list p sym t :
  edge_set_wf p → (sym, t) ∈ ordered_list p ↔ has_edge p sym t.
Proof.
  intros Hwf. unfold ordered_list. rewrite list_elem_of_bind. setoid_rewrite elem_of_sym_edges.
  setoid_rewrite elem_of_seq. split; [naive_solver|]. intros He. exists sym. split; [done|].
  apply has_edge_symbol in He; [lia|done].
Qed.

(** By symbol first, then by destination. *)
Definition edge_lt (a b : nat * N) : Prop := a.1 < b.1 ∨ a.1 = b.1 ∧ (a.2 < b.2)%N.

Lemma sym_edges_sorted gs sym : increasing (eg_to <$> gs) → StronglySorted edge_lt (sym_edges gs sym).
Proof.
  intros Hs%(increasing_filter_fmap (λ g, bs_get (eg_symbols g) sym = true)). unfold sym_edges.
  induction (filter _ gs) as [|g l IH]; [constructor|]. cbn [fmap list_fmap] in *.
  apply StronglySorted_cons in Hs as [Hg Hs]. apply StronglySorted_cons. split; [|by apply IH].
  rewrite Forall_forall in Hg. apply Forall_fmap, Forall_forall. intros g' Hg'. right.
  split; [done|]. apply (Hg (eg_to g')). by apply list_elem_of_fmap_2.
Qed.

Lemma ordered_list_sorted p : edge_set_wf p → StronglySorted edge_lt (ordered_list p).
Proof.
  intros Hwf.
  assert (increasing (eg_to <$> set_groups p)) as Hs by (destruct p as [s|]; [apply Hwf|constructor]).
  unfold ordered_list. generalize 256 as n. intros n. generalize 0 as m. induction n as [|n IH]; intros m; [constructor|].
  cbn [seq mbind list_bind]. apply StronglySorted_app. split; [|split; [by apply sym_edges_sorted|apply IH]].
  intros [x t] [y u] [-> _]%elem_of_sym_edges (z & [-> _]%elem_of_sym_edges & Hz%elem_of_seq)%list_elem_of_bind.
  left. simpl. lia.
Qed.

(** ** Lemmas: the group iterator *)

Lemma any_word_spec s : words_ok 4 s → any_word s = true ↔ ∃ j, bs_get s j = true.
Proof.
  intros Hs. unfold any_word. rewrite existsb_exists. split.
  - intros (w & Hw & Hz). rewrite <-list_elem_of_In in Hw. apply list_elem_of_lookup in Hw as [i Hi].
    destruct (word s i =? 0)%N eqn:E; [rewrite (word_Some _ _ _ Hi) in E; by rewrite E in Hz|].
    destruct (sym_list s) as [|j l] eqn:El.
    + exfalso. rewrite (proj2 (word_zero 4 s i Hs)) in E; [done|].
      intros k _. destruct (bs_get s (64 * i + k)) eqn:Eb; [|done].
      rewrite <-elem_of_sym_list, El in Eb by done. by apply not_elem_of_nil in Eb.
    + exists j. apply elem_of_sym_list; [done|]. rewrite El. left.
  - intros [j Hj]. rewrite bs_get_testbit in Hj. destruct (s !! (j / 64)) as [w|] eqn:E.
    + rewrite (word_Some _ _ _ E) in Hj. exists w. split; [apply list_elem_of_In, list_elem_of_lookup; eauto|].
      apply negb_true_iff, N.eqb_neq. intros ->. by rewrite N.bits_0 in Hj.
    + by rewrite (word_None _ _ E), N.bits_0 in Hj.
Qed.

Definition all_info (g : edge_group) : edge_group_iter_info := mk_info None (eg_to g) (eg_symbols g).

Definition info_if (u : bool) (to : N) (syms : list N) : list edge_group_iter_info :=
  if any_word syms then [mk_info (Some u) to syms] else [].

Definition unique_infos (internal : list N) (g : edge_group) : list edge_group_iter_info :=
  info_if true (eg_to g) (words_diff (eg_symbols g) internal) ++
  info_if false (eg_to g) (words_and (eg_symbols g) internal).

(** What an iterator has still to yield. *)
Definition infos_from (egi : edge_group_iter) : list edge_group_iter_info :=
  let gs := set_groups (egi_set egi) in
  match egi_flag egi with
  | 0 => all_info <$> filter (λ g, any_word (eg_symbols g) = true) (drop (egi_i egi) gs)
  | 1 => drop (egi_i egi) gs ≫= unique_infos (egi_internal egi)
  | _ =>
      match gs !! egi_i egi with
      | None => []
      | Some g => info_if false (eg_to g) (words_and (eg_symbols g) (egi_internal egi)) ++
          (drop (egi_i egi + 1) gs ≫= unique_infos (egi_internal egi))
      end
  end.

Definition egi_at (set : edge_set_ptr) (internal : list N) (f i : nat) : edge_group_iter :=
  {| egi_set := set; egi_flag := f; egi_i := i; egi_internal := internal |}.

Lemma infos_from_all set internal i g :
  set_groups set !! i = Some g →
  infos_from (egi_at set internal 0 i) =
    (if any_word (eg_symbols g) then [all_info g] else []) ++ infos_from (egi_at set internal 0 (i + 1)).
Proof.
  intros E. unfold infos_from. cbn [egi_at egi_set egi_flag egi_i].
  rewrite (drop_S _ _ _ E), filter_cons, Nat.add_1_r.
  destruct (any_word (eg_symbols g)); [by rewrite decide_True|by rewrite decide_False].
Qed.

Lemma infos_from_unique set internal i g :
  set_groups set !! i = Some g →
  infos_from (egi_at set internal 1 i) =
    info_if true (eg_to g) (words_diff (eg_symbols g) internal) ++ infos_from (egi_at set internal 2 i).
Proof.
  intros E. unfold infos_from. cbn [egi_at egi_set egi_flag egi_i egi_internal].
  rewrite E, (drop_S _ _ _ E), Nat.add_1_r. cbn [mbind list_bind]. unfold unique_infos at 1.
  by rewrite <-(assoc app).
Qed.

Lemma infos_from_rest set internal i g :
  set_groups set !! i = Some g →
  infos_from (egi_at set internal 2 i) =
    info_if false (eg_to g) (words_and (eg_symbols g) internal) ++ infos_from (egi_at set internal 1 (i + 1)).
Proof. intros E. unfold infos_from. cbn [egi_at egi_set egi_flag egi_i egi_internal]. by rewrite E. Qed.

Definition advance_post (egi : edge_group_iter)
    (r : option (edge_group_iter_info * edge_group_iter)) : Prop :=
  match r with
  | Some (info, egi') => infos_from egi = info :: infos_from egi' ∧ egi_flag egi' ≤ 2 ∧
      egi_set egi' = egi_set egi ∧ egi_i egi' ≤ length (set_groups (egi_set egi))
  | None => infos_from egi = []
  end.

Lemma group_iter_advance_spec fuel : ∀ set internal f i,
  f ≤ 2 → i ≤ length (set_groups set) → length (set_groups set) < i + fuel →
  advance_post (egi_at set internal f i) (group_iter_advance fuel (egi_at set internal f i)).
Proof.
  induction fuel as [|fuel IH]; intros set internal f i Hf Hi Hl; [lia|].
  cbn [group_iter_advance egi_at egi_set egi_flag egi_i egi_internal].
  destruct (set_groups set !! i) as [g|] eqn:E.
  2:{ unfold advance_post, infos_from. cbn [egi_at egi_set egi_flag egi_i]. rewrite E.
      apply lookup_ge_None in E. rewrite drop_ge by done. by destruct f as [|[|[|]]]. }
  pose proof (lookup_lt_Some _ _ _ E) as Hlt.
  assert (∀ info f' i', f' ≤ 2 → i' ≤ length (set_groups set) →
    infos_from (egi_at set internal f i) = info :: infos_from (egi_at set internal f' i') →
    advance_post (egi_at set internal f i) (Some (info, egi_at set internal f' i'))) as Hhit by done.
  assert (∀ f', f' ≤ 1 →
    infos_from (egi_at set internal f i) = infos_from (egi_at set internal f' (i + 1)) →
    advance_post (egi_at set internal f i) (group_iter_advance fuel (egi_at set internal f' (i + 1)))) as Hnext.
  { intros f' Hf' Heq. specialize (IH set internal f' (i + 1) ltac:(lia) ltac:(lia) ltac:(lia)).
    unfold advance_post in *. by rewrite Heq. }
  pose proof (infos_from_all _ internal _ _ E) as H0.
  pose proof (infos_from_unique _ internal _ _ E) as H1.
  pose proof (infos_from_rest _ internal _ _ E) as H2. unfold info_if in *.
  destruct f as [|[|[|f]]]; [| | |lia].
  - destruct (any_word (eg_symbols g)); [apply (Hhit _ 0); auto with lia|apply (Hnext 0); auto with lia].
  - destruct (any_word (words_diff (eg_symbols g) internal)); [apply (Hhit _ 2); auto with lia|].
    rewrite H2 in H1. destruct (any_word (words_and (eg_symbols g) internal));
      [apply (Hhit _ 1); auto with lia|apply (Hnext 1); auto with lia].
  - destruct (any_word (words_and (eg_symbols g) internal));
      [apply (Hhit _ 1); auto with lia|apply (Hnext 1); auto with lia].
Qed.

Lemma group_iter_run_from fuel : ∀ egi,
  egi_flag egi ≤ 2 → egi_i egi ≤ length (set_groups (egi_set egi)) →
  length (infos_from egi) < fuel → group_iter_run fuel egi = infos_from egi.
Proof.
  induction fuel as [|fuel IH]; intros egi Hf Hi Hl; [lia|]. cbn [group_iter_run].
  unfold edge_set_group_iter_next.
  pose proof (group_iter_advance_spec (S (length (set_groups (egi_set egi)))) (egi_set egi)
    (egi_internal egi) (egi_flag egi) (egi_i egi) Hf Hi ltac:(lia)) as Hs.
  change (egi_at (egi_set egi) (egi_internal egi) (egi_flag egi) (egi_i egi)) with
    {| egi_set := egi_set egi; egi_flag := egi_flag egi; egi_i := egi_i egi; egi_internal := egi_internal egi |} in Hs.
  replace {| egi_set := egi_set egi; egi_flag := egi_flag egi; egi_i := egi_i egi; egi_internal := egi_internal egi |}
    with egi in Hs by (by destruct egi).
  destruct (group_iter_advance _ egi) as [[info egi']|]; [|done].
  destruct Hs as (Heq & Hf' & Hset & Hi'). rewrite Heq in *. simpl in Hl.
  rewrite IH; [done|done|by rewrite Hset|lia].
Qed.

Lemma mark_symbols_spec symbols fuel : ∀ i seen internal,
  words_ok 4 symbols → words_ok 4 seen → words_ok 4 internal → 256 - i < fuel →
  let '(seen', internal') := mark_symbols fuel symbols i seen internal in
  words_ok 4 seen' ∧ words_ok 4 internal' ∧
  (∀ j, bs_get seen' j = true ↔ bs_get seen j = true ∨ j ∈ syms_from symbols i) ∧
  (∀ j, bs_get internal' j = true ↔
     bs_get internal j = true ∨ (j ∈ syms_from symbols i ∧ bs_get seen j = true)).
Proof.
  induction fuel as [|fuel IH]; intros i seen internal Hs Hse Hin Hf; [lia|]. cbn [mark_symbols].
  destruct (i <? 256) eqn:E; split_bool.
  2:{ rewrite syms_from_end by done. setoid_rewrite elem_of_nil. split_and!; try done; intros; tauto. }
  assert (i / 64 < 4) as Hw by (apply Nat.Div0.div_lt_upper_bound; lia).
  destruct ((Nat.land i 63 =? 0) && (word symbols (i / 64) =? 0)%N) eqn:Ez.
  { rewrite (syms_from_skip _ _ Hs E Ez). apply IH; [done|done|done|lia]. }
  rewrite (syms_from_step _ _ E). unfold SYMBOLS_GET, SYMBOLS_SET.
  assert (∀ j, j ∈ syms_from symbols (i + 1) → j ≠ i) as Hne.
  { intros j [_ Hj%elem_of_seq]%list_elem_of_filter. lia. }
  destruct (bs_get symbols i) eqn:Es; [destruct (bs_get seen i) eqn:Ese|].
  - specialize (IH (i + 1) seen (u64bitset_set internal i) Hs Hse (words_ok_set _ _ _ Hin) ltac:(lia)).
    destruct (mark_symbols fuel symbols (i + 1) seen (u64bitset_set internal i)) as [seen' internal'].
    destruct IH as (H1 & H2 & H3 & H4). split_and!; [done|done| |]; intros j; rewrite ?H3, ?H4, ?elem_of_cons.
    + naive_solver.
    + rewrite bs_get_set by (destruct Hin as [-> _]; lia). rewrite orb_true_iff, Nat.eqb_eq. naive_solver.
  - specialize (IH (i + 1) (u64bitset_set seen i) internal Hs (words_ok_set _ _ _ Hse) Hin ltac:(lia)).
    destruct (mark_symbols fuel symbols (i + 1) (u64bitset_set seen i) internal) as [seen' internal'].
    destruct IH as (H1 & H2 & H3 & H4). split_and!; [done|done| |]; intros j; rewrite ?H3, ?H4, ?elem_of_cons;
      rewrite bs_get_set by (destruct Hse as [-> _]; lia); rewrite orb_true_iff, Nat.eqb_eq.
    + naive_solver.
    + specialize (Hne j). destruct (decide (j = i)) as [->|]; [rewrite Ese|];
        intuition congruence.
  - apply IH; [done|done|done|lia].
Qed.

(** After the first pass, the marked labels are those of two groups at least. *)
Lemma mark_groups_spec gs :
  Forall group_ok gs →
  let '(seen, internal) := mark_groups gs in
  words_ok 4 seen ∧ words_ok 4 internal ∧
  (∀ j, bs_get seen j = true ↔ ∃ t, groups_edge gs j t) ∧
  (∀ j, bs_get internal j = true ↔ ∃ a b ga gb, a < b ∧ gs !! a = Some ga ∧ gs !! b = Some gb ∧
     bs_get (eg_symbols ga) j = true ∧ bs_get (eg_symbols gb) j = true).
Proof.
  induction gs as [|g gs IH] using rev_ind; intros Hf.
  { unfold mark_groups. cbn [foldl].
    split; [apply words_ok_zero|]. split; [apply words_ok_zero|]. split; intros j; rewrite (bs_get_zero 4).
    - split; [discriminate|]. intros [t []%groups_edge_nil].
    - split; [discriminate|]. intros (a & b & ga & gb & _ & [=] & _). }
  apply Forall_app in Hf as [Hf Hg]. apply Forall_singleton in Hg as [Hg _].
  specialize (IH Hf). unfold mark_groups in *. rewrite foldl_app. cbn [foldl].
  destruct (foldl _ _ gs) as [seen internal]. destruct IH as (H1 & H2 & H3 & H4).
  pose proof (mark_symbols_spec (eg_symbols g) 257 0 seen internal Hg H1 H2 ltac:(lia)) as Hm.
  destruct (mark_symbols 257 (eg_symbols g) 0 seen internal) as [seen' internal'].
  destruct Hm as (K1 & K2 & K3 & K4). split_and!; [done|done| |]; intros j.
  - rewrite K3, H3, (elem_of_sym_list _ _ Hg). setoid_rewrite groups_edge_app.
    setoid_rewrite groups_edge_cons. setoid_rewrite groups_edge_nil. naive_solver.
  - rewrite K4, H4, H3, (elem_of_sym_list _ _ Hg). split.
    + intros [(a & b & ga & gb & Hab & Ha & Hb & ?)|[Hj (t & ga & [a Ha]%list_elem_of_lookup & _ & Hs)]].
      * exists a, b, ga, gb. rewrite !lookup_app_l by (by eapply lookup_lt_Some). done.
      * exists a, (length gs), ga, g. pose proof (lookup_lt_Some _ _ _ Ha).
        rewrite lookup_app_l by done. rewrite list_lookup_middle by done. done.
    + intros (a & b & ga & gb & Hab & Ha & Hb & Hja & Hjb).
      pose proof (lookup_lt_Some _ _ _ Hb) as Hlt. rewrite length_app in Hlt. simpl in Hlt.
      rewrite lookup_app_l in Ha by lia. destruct (decide (b = length gs)) as [->|].
      * right. rewrite list_lookup_middle in Hb by done. simplify_eq. split; [done|].
        exists (eg_to ga), ga. split; [apply list_elem_of_lookup; eauto|done].
      * left. rewrite lookup_app_l in Hb by lia. eauto 10.
Qed.

(** ** Lemmas: counting *)

Lemma count_bits_spec w fuel : ∀ k res,
  (w < W64)%N → k ≤ 64 → 64 < k + fuel →
  count_bits fuel w (u64 (2 ^ N.of_nat k)) res = res + (bits_below 64 w - bits_below k w).
Proof.
  assert (∀ a b, a ≤ b → bits_below a w ≤ bits_below b w) as Hmono.
  { intros a b. induction 1; simpl; lia. }
  induction fuel as [|fuel IH]; intros k res Hw Hk Hf; [lia|]. cbn [count_bits].
  destruct (decide (k = 64)) as [->|Hne].
  { change (u64 (2 ^ N.of_nat 64)) with 0%N. rewrite Nat.sub_diag. simpl. lia. }
  assert (2 ^ N.of_nat k < W64)%N as Hlt by (change W64 with (2 ^ 64)%N; apply N.pow_lt_mono_r; lia).
  rewrite (u64_small _ Hlt).
  replace (2 ^ N.of_nat k =? 0)%N with false by (symmetry; apply N.eqb_neq, N.pow_nonzero; done).
  rewrite N.shiftl_mul_pow2, N.pow_1_r, N.mul_comm, <-N.pow_succ_r'.
  replace (N.succ (N.of_nat k)) with (N.of_nat (S k)) by lia.
  rewrite IH by (done || lia). rewrite land_pow2_zero. pose proof (Hmono (S k) 64 ltac:(lia)) as Hm.
  revert Hm. generalize (bits_below 64 w). intros n Hm. cbn [bits_below] in Hm |- *.
  destruct (N.testbit w (N.of_nat k)); simpl; lia.
Qed.

Lemma length_filter_seq s n : length (filter (λ i, bs_get s i = true) (seq 0 n)) = count_below n s.
Proof.
  induction n as [|n IH]; [done|]. rewrite seq_S, filter_app, length_app, IH. cbn [count_below].
  rewrite filter_cons, filter_nil. simpl. destruct (bs_get s n); [by rewrite decide_True|by rewrite decide_False].
Qed.

Lemma group_count_spec g res : group_ok g → group_count res g = res + length (group_edges g).
Proof.
  intros [Hg _]. unfold group_edges. rewrite length_fmap. unfold sym_list. rewrite length_filter_seq.
  rewrite (count_below_words _ 4). unfold group_count.
  generalize (seq 0 4) as l. intros l. revert res; induction l as [|i l IH]; intros res; [simpl; lia|].
  cbn [foldl]. rewrite IH.
  change (sum_list (bits_below 64 ∘ word (eg_symbols g) <$> i :: l)) with
    (bits_below 64 (word (eg_symbols g) i) + sum_list (bits_below 64 ∘ word (eg_symbols g) <$> l)).
  destruct (word (eg_symbols g) i =? 0)%N eqn:E.
  - split_bool. rewrite E, bits_below_zero. lia.
  - pose proof (count_bits_spec (word (eg_symbols g) i) 65 0 res
      (words_ok_word _ _ _ Hg) ltac:(lia) ltac:(lia)) as Hc.
    change (u64 (2 ^ N.of_nat 0)) with 1%N in Hc. rewrite Hc. cbn [bits_below]. rewrite Nat.sub_0_r. lia.
Qed.

(** ** Lemmas: nondeterminism *)

(** The reference: walk a list of symbols, marking each, until one is marked
    already. *)
Fixpoint nd_scan (l : list nat) (b : bm) : bool * bm :=
  match l with
  | [] => (false, b)
  | sym :: l => if bm_get b sym then (true, b) else nd_scan l (bm_set b sym)
  end.

Lemma nd_scan_app l l' b :
  nd_scan (l ++ l') b = let '(hit, b) := nd_scan l b in if hit then (true, b) else nd_scan l' b.
Proof. revert b; induction l as [|x l IH]; intros b; simpl; [done|]. destruct (bm_get b x); auto. Qed.

Lemma nd_bits_scan cur w_i n : ∀ b_i b,
  nd_bits n b_i w_i cur b =
  nd_scan ((λ k, 64 * w_i + k) <$> filter (λ k, N.testbit cur (N.of_nat k) = true) (seq b_i n)) b.
Proof.
  induction n as [|n IH]; intros b_i b; [done|]. cbn [nd_bits seq].
  rewrite filter_cons, N.shiftl_1_l, land_pow2_zero, negb_involutive.
  destruct (N.testbit cur (N.of_nat b_i)).
  - rewrite decide_True by done. rewrite fmap_cons. cbn [nd_scan].
    rewrite IH, Nat.add_1_r. done.
  - rewrite decide_False by done. by rewrite IH, Nat.add_1_r.
Qed.

Definition word_syms (s : list N) (w_i : nat) : list nat :=
  filter (λ i, bs_get s i = true) (seq (64 * w_i) 64).

Lemma fmap_filter_seq (f : nat → nat) (P Q : nat → bool) (l : list nat) :
  (∀ k, k ∈ l → Q (f k) = P k) →
  f <$> filter (λ k, P k = true) l = filter (λ k, Q k = true) (f <$> l).
Proof.
  induction l as [|x l IH]; intros Hpq; [done|]. rewrite fmap_cons, !filter_cons, (Hpq x) by left.
  destruct (P x); [rewrite !decide_True by done; rewrite fmap_cons|rewrite !decide_False by done];
    rewrite IH; try done; intros; apply Hpq; by right.
Qed.

Lemma word_syms_bits s w_i :
  (λ k, 64 * w_i + k) <$> filter (λ k, N.testbit (word s w_i) (N.of_nat k) = true) (seq 0 64)
  = word_syms s w_i.
Proof.
  unfold word_syms. rewrite (fmap_filter_seq _ (λ k, N.testbit (word s w_i) (N.of_nat k)) (bs_get s)).
  - change (λ k, 64 * w_i + k) with (Nat.add (64 * w_i)). by rewrite fmap_add_seq, Nat.add_0_r.
  - intros k Hk%elem_of_seq. apply bs_get_word. lia.
Qed.

Lemma nd_words_scan s n : ∀ w_i b,
  words_ok 4 s → nd_words n w_i s b = nd_scan (filter (λ i, bs_get s i = true) (seq (64 * w_i) (64 * n))) b.
Proof.
  induction n as [|n IH]; intros w_i b Hs; [by rewrite Nat.mul_0_r|]. cbn [nd_words].
  replace (64 * S n) with (64 + 64 * n) by lia. rewrite seq_app, filter_app, nd_scan_app.
  replace (64 * w_i + 64) with (64 * (w_i + 1)) by lia.
  change (filter (λ i, bs_get s i = true) (seq (64 * w_i) 64)) with (word_syms s w_i).
  destruct (word s w_i =? 0)%N eqn:E.
  - assert (word_syms s w_i = []) as ->; [|by apply IH].
    apply elem_of_nil_inv. intros i [Hi [Hi1 Hi2]%elem_of_seq]%list_elem_of_filter.
    rewrite (word_zero 4) in E by done. replace i with (64 * w_i + (i - 64 * w_i)) in Hi by lia.
    by rewrite E in Hi by lia.
  - rewrite nd_bits_scan, word_syms_bits. destruct (nd_scan (word_syms s w_i) b) as [[] b']; [done|]. by apply IH.
Qed.

Lemma nd_groups_scan gs : ∀ b,
  Forall group_ok gs → nd_groups gs b = nd_scan ((gs ≫= group_edges).*1) b.
Proof.
  induction gs as [|g gs IH]; intros b Hf; [done|]. apply Forall_cons in Hf as [[Hg _] Hf].
  cbn [nd_groups mbind list_bind]. rewrite fmap_app, nd_scan_app, nd_words_scan by done.
  assert ((group_edges g).*1 = sym_list (eg_symbols g)) as ->.
  { unfold group_edges. rewrite <-list_fmap_compose. apply list_fmap_id. }
  change (seq (64 * 0) (64 * 4)) with (seq 0 256).
  change (filter (λ i, bs_get (eg_symbols g) i = true) (seq 0 256)) with (sym_list (eg_symbols g)).
  destruct (nd_scan (sym_list (eg_symbols g)) b) as [[] b']; [done|]. by apply IH.
Qed.

Lemma nd_scan_spec l : ∀ b,
  bm_wf b → Forall (λ sym, sym ≤ 255) l →
  let '(hit, b') := nd_scan l b in
  (hit = false ↔ NoDup l ∧ ∀ sym, sym ∈ l → bm_get b sym = false) ∧
  bm_wf b' ∧ (hit = false → ∀ sym, bm_get b' sym = true ↔ bm_get b sym = true ∨ sym ∈ l).
Proof.
  induction l as [|x l IH]; intros b Hb Hl; cbn [nd_scan].
  { split; [|split; [done|]].
    - split; [|done]. intros _. split; [constructor|]. by intros sym ?%not_elem_of_nil.
    - intros _ sym. rewrite elem_of_nil. tauto. }
  apply Forall_cons in Hl as [Hx Hl]. destruct (bm_get b x) eqn:E.
  { split; [|split; [done|done]]. split; [done|]. intros [_ Hn]. rewrite (Hn x) in E by left. done. }
  specialize (IH (bm_set b x) (bm_wf_set _ _ Hb Hx) Hl). destruct (nd_scan l (bm_set b x)) as [hit b'].
  destruct IH as (H1 & H2 & H3). split; [|split; [done|]].
  - rewrite H1, NoDup_cons. split.
    + intros [Hnd Hn]. split; [split; [|done]|].
      * intros Hin. specialize (Hn x Hin). rewrite bm_get_set, Nat.eqb_refl, orb_true_r in Hn by done. done.
      * intros sym [->|Hs]%elem_of_cons; [done|]. specialize (Hn sym Hs).
        rewrite bm_get_set in Hn by done. by apply orb_false_iff in Hn as [? _].
    + intros [[Hxl Hnd] Hn]. split; [done|]. intros sym Hs. rewrite bm_get_set by done.
      apply orb_false_iff. split; [apply Hn; by right|]. apply Nat.eqb_neq. by intros ->.
  - intros Hh sym. rewrite (H3 Hh), bm_get_set, orb_true_iff, Nat.eqb_eq, elem_of_cons by done. tauto.
Qed.

(** ** Properties *)

Lemma NoDup_fst_edges p :
  edge_set_wf p →
  NoDup (edge_list p).*1 ↔ ∀ sym t t', has_edge p sym t → has_edge p sym t' → t = t'.
Proof.
  intros Hwf. setoid_rewrite <-elem_of_edge_list; [|done|done].
  pose proof (NoDup_edge_list p Hwf) as Hnd. split.
  - intros Hn sym t t' H1 H2. apply list_elem_of_lookup in H1 as [i Hi], H2 as [j Hj].
    assert (i = j) as ->; [|congruence].
    eapply NoDup_lookup; [exact Hn|rewrite list_lookup_fmap, Hi; done|rewrite list_lookup_fmap, Hj; done].
  - intros Hu. induction Hnd as [|[sym t] l Hx Hnd IH]; [constructor|]. rewrite fmap_cons. constructor.
    + intros ([sym' t'] & [= <-] & Hin)%list_elem_of_fmap.
      assert (t' = t) as -> by (apply (Hu sym); [by right|by left]). done.
    + apply IH. intros. eapply Hu; by right.
Qed.

(** Without a shared symbol in the list of edges, either two edges disagree or
    the set is deterministic. *)
Lemma edges_disagree p :
  edge_set_wf p → ¬ NoDup (edge_list p).*1 →
  ∃ sym t t', has_edge p sym t ∧ has_edge p sym t' ∧ t ≠ t'.
Proof.
  intros Hwf Hd. rewrite NoDup_fst_edges in Hd by done.
  destruct (decide (Exists (λ x, Exists (λ y, x.1 = y.1 ∧ x.2 ≠ y.2) (edge_list p)) (edge_list p))) as [He|He].
  - apply Exists_exists in He as ([s1 t1] & Hx & ([s2 t2] & Hy & Heq & Hne)%Exists_exists).
    simpl in *. subst s2. exists s1, t1, t2. by rewrite <-!elem_of_edge_list.
  - exfalso. apply Hd. intros sym t t' Ht Ht'. destruct (decide (t = t')); [done|]. destruct He.
    apply Exists_exists. exists (sym, t). split; [by apply elem_of_edge_list|].
    apply Exists_exists. exists (sym, t'). split; [by apply elem_of_edge_list|done].
Qed.

(** [edge_set_hasnondeterminism] reports that some symbol leads to two states,
    or that a symbol of the set is marked in the bitmap already; when it
    reports nothing, the bitmap has gained exactly the symbols of the set. *)
Lemma edge_set_hasnondeterminism_spec p b :
  edge_set_wf p → bm_wf b →
  let '(hit, b') := edge_set_hasnondeterminism p b in
  (hit = true ↔ (∃ sym t t', has_edge p sym t ∧ has_edge p sym t' ∧ t ≠ t') ∨
                (∃ sym t, has_edge p sym t ∧ bm_get b sym = true)) ∧
  bm_wf b' ∧
  (hit = false → ∀ sym, bm_get b' sym = true ↔ bm_get b sym = true ∨ ∃ t, has_edge p sym t).
Proof.
  intros Hwf Hb. unfold edge_set_hasnondeterminism. destruct (edge_set_empty p) eqn:E.
  { assert (∀ sym t, ¬ has_edge p sym t) as Hn by (intros; by apply edge_set_empty_edge).
    split; [|split; [done|]]; [split; [done|]; intros [(sym & t & _ & He & _)|(sym & t & He & _)]; by destruct (Hn sym t)|].
    intros _ sym. split; [by left|]. intros [?|[t Ht]]; [done|]. by destruct (Hn sym t). }
  assert (Forall group_ok (set_groups p)) as Hf by (destruct p as [s|]; [apply Hwf|constructor]).
  rewrite nd_groups_scan by done. change (set_groups p ≫= group_edges) with (edge_list p).
  assert (∀ sym, sym ∈ (edge_list p).*1 ↔ ∃ t, has_edge p sym t) as Hel.
  { intros sym. rewrite list_elem_of_fmap. setoid_rewrite <-elem_of_edge_list; [|done]. split.
    - intros ([sym' t] & -> & Hin). eauto.
    - intros [t Ht]. exists (sym, t). done. }
  pose proof (nd_scan_spec (edge_list p).*1 b Hb) as Hs.
  destruct (nd_scan (edge_list p).*1 b) as [hit b'].
  destruct Hs as (H1 & H2 & H3).
  { apply Forall_forall. intros sym [t Ht]%Hel. apply has_edge_symbol in Ht; [lia|done]. }
  split; [|split; [done|]].
  - rewrite NoDup_fst_edges in H1 by done. destruct hit.
    + split; [|done]. intros _.
      destruct (decide (NoDup (edge_list p).*1)) as [Hd|Hd].
      * right. destruct (decide (Forall (λ sym, bm_get b sym = false) (edge_list p).*1)) as [Hd'|Hd'].
        -- rewrite Forall_forall in Hd'. rewrite NoDup_fst_edges in Hd by done. discriminate (proj2 H1 (conj Hd Hd')).
        -- apply not_Forall_Exists in Hd'; [|apply _]. apply Exists_exists in Hd' as (sym & Hin & Hg).
           apply Hel in Hin as [t Ht]. exists sym, t. split; [done|]. destruct (bm_get b sym) eqn:Eb; [done|by destruct Hg].
      * left. by apply edges_disagree.
    + split; [done|]. destruct (proj1 H1 eq_refl) as [Hu Hn]. intros [(sym & t & t' & ? & ? & ?)|(sym & t & Ht & Hg)].
      * naive_solver.
      * rewrite Hn in Hg; [done|]. apply Hel. eauto.
  - intros Hh sym. by rewrite (H3 Hh), Hel.
Qed.

Lemma edge_set_count_edges p : edge_set_wf p → edge_set_count p = length (edge_list p).
Proof.
  intros Hwf. destruct p as [s|]; [|done]. destruct Hwf as ([_ Hf] & _). unfold edge_list. cbn [edge_set_count set_groups].
  enough (∀ n, foldl group_count n (es_groups s) = n + length (es_groups s ≫= group_edges)) by auto.
  induction Hf as [|g gs Hg Hf IH]; intros n; cbn [foldl mbind list_bind]; [simpl; lia|].
  rewrite group_count_spec, IH, length_app by done. lia.
Qed.

(** C29. The iterators of a set visit its edges: [edge_set_next] visits each edge
    exactly once, the ordered iterator visits the same edges by symbol and then
    by destination, and [edge_set_count] is exactly how many there are. *)
Theorem edge_iterators_agree p :
  edge_set_wf p →
  edge_set_count p = length (edge_list p) ∧
  edge_iter_run (S (edge_set_count p)) (edge_set_reset p) = edge_of <$> edge_list p ∧
  NoDup (edge_list p) ∧ (∀ sym t, (sym, t) ∈ edge_list p ↔ has_edge p sym t) ∧
  ordered_iter_run (S (edge_set_count p)) (edge_set_ordered_iter_reset p) = edge_of <$> ordered_list p ∧
  StronglySorted edge_lt (ordered_list p) ∧ edge_list p ≡ₚ ordered_list p.
Proof.
  intros Hwf.
  pose proof (edge_set_count_edges p Hwf) as Hc.
  assert (NoDup (ordered_list p)) as Hnd.
  { pose proof (ordered_list_sorted p Hwf) as Hs. induction Hs as [|x l _ IH Hx]; [constructor|].
    constructor; [|done]. rewrite Forall_forall in Hx. intros Hin. destruct (Hx x Hin) as [?|[_ ?]]; lia. }
  assert (edge_list p ≡ₚ ordered_list p) as Hperm.
  { apply NoDup_Permutation; [by apply NoDup_edge_list|done|]. intros [sym t].
    by rewrite elem_of_edge_list, elem_of_ordered_list. }
  split_and!; [done|apply edge_iter_run_edges; [done|lia]|by apply NoDup_edge_list|by intros; apply elem_of_edge_list| |by apply ordered_list_sorted|done].
  apply ordered_iter_run_edges. rewrite Hc, Hperm. lia.
Qed.

Lemma edge_iterators_agree_witness :
  edge_set_count (Some (mk_edge_set 2 [mk_group [6; 0; 0; 0]%N 3; mk_group [4; 0; 0; 0]%N 8])) = 3 ∧
  ordered_iter_run 4 (edge_set_ordered_iter_reset
    (Some (mk_edge_set 2 [mk_group [6; 0; 0; 0]%N 3; mk_group [4; 0; 0; 0]%N 8])))
  = [mk_edge 1 3; mk_edge 2 3; mk_edge 2 8].
Proof.
  destruct (edge_iterators_agree
    (Some (mk_edge_set 2 [mk_group [6; 0; 0; 0]%N 3; mk_group [4; 0; 0; 0]%N 8])) ltac:(by_compute))
    as (Hc & _ & _ & _ & H & _).
  vm_compute in Hc. vm_compute in H. split; [exact Hc|exact H].
Defined.

(** The labels the first pass marks are those that lead to two states. *)
Lemma marked_shared p internal :
  groups_wf (set_groups p) →
  (∀ j, bs_get internal j = true ↔ ∃ a b ga gb, a < b ∧ set_groups p !! a = Some ga ∧
     set_groups p !! b = Some gb ∧ bs_get (eg_symbols ga) j = true ∧ bs_get (eg_symbols gb) j = true) →
  ∀ g sym, g ∈ set_groups p → bs_get (eg_symbols g) sym = true →
  bs_get internal sym = false ↔ ∀ t', has_edge p sym t' → t' = eg_to g.
Proof.
  intros Hg Hint g sym [c Hc]%list_elem_of_lookup Hs. split.
  - intros Hi t' (g' & [d Hd]%list_elem_of_lookup & <- & Hs').
    destruct (Nat.lt_trichotomy c d) as [Hlt|[->|Hlt]]; [|congruence|];
      (assert (bs_get internal sym = true) by (apply Hint; eauto 10)); congruence.
  - intros Hu. destruct (bs_get internal sym) eqn:E; [|done]. exfalso.
    apply Hint in E as (a & b & ga & gb & Hab & Ha & Hb & Hsa & Hsb).
    assert (eg_to ga = eg_to g) as H1 by (apply Hu; exists ga; split; [apply list_elem_of_lookup; eauto|done]).
    assert (eg_to gb = eg_to g) as H2 by (apply Hu; exists gb; split; [apply list_elem_of_lookup; eauto|done]).
    assert (a = b) by (eapply groups_wf_key_unique; [exact Hg|done|done|congruence]). lia.
Qed.

Lemma unique_reset p :
  groups_wf (set_groups p) →
  ∃ internal, edge_set_group_iter_reset p EDGE_GROUP_ITER_UNIQUE = egi_at p internal 1 0 ∧
    words_ok 4 internal ∧
    ∀ g sym, g ∈ set_groups p → bs_get (eg_symbols g) sym = true →
      bs_get internal sym = false ↔ ∀ t', has_edge p sym t' → t' = eg_to g.
Proof.
  intros Hg. destruct p as [s|]; cbn [edge_set_group_iter_reset].
  - pose proof (mark_groups_spec (es_groups s) (proj2 Hg)) as Hm.
    destruct (mark_groups (es_groups s)) as [seen internal]. destruct Hm as (_ & H1 & _ & H2).
    exists internal. split; [done|]. split; [done|]. by apply (marked_shared (Some s)).
  - exists (replicate 4 0%N). split; [done|]. split; [apply words_ok_zero|].
    by intros g sym ?%not_elem_of_nil.
Qed.

Lemma elem_of_unique_infos internal g i :
  i ∈ unique_infos internal g ↔ ∃ u syms, i = mk_info (Some u) (eg_to g) syms ∧ any_word syms = true ∧
    syms = if (u : bool) then words_diff (eg_symbols g) internal else words_and (eg_symbols g) internal.
Proof.
  unfold unique_infos, info_if. rewrite elem_of_app. split.
  - intros [Hi|Hi]; case_match; [| by apply not_elem_of_nil in Hi| |by apply not_elem_of_nil in Hi];
      apply list_elem_of_singleton in Hi as ->; [exists true|exists false]; eauto.
  - intros (u & syms & -> & Ha & ->). destruct u; rewrite Ha; [left|right]; by apply list_elem_of_singleton.
Qed.

Lemma length_unique_infos internal gs : length (gs ≫= unique_infos internal) ≤ 2 * length gs.
Proof.
  induction gs as [|g gs IH]; cbn [mbind list_bind]; [done|].
  rewrite length_app. unfold unique_infos at 1, info_if. rewrite length_app. simpl.
  repeat case_match; simpl; lia.
Qed.

(** The group iterator with [EDGE_GROUP_ITER_UNIQUE] yields every edge once,
    marked unique exactly when its label leads to one state only. *)
Theorem group_iter_unique_spec p fuel u sym t :
  edge_set_wf p → 2 * length (set_groups p) < fuel →
  (∃ i, i ∈ group_iter_run fuel (edge_set_group_iter_reset p EDGE_GROUP_ITER_UNIQUE) ∧
     egii_unique i = Some u ∧ egii_to i = t ∧ bs_get (egii_symbols i) sym = true) ↔
  has_edge p sym t ∧ (u = true ↔ ∀ t', has_edge p sym t' → t' = t).
Proof.
  intros Hwf Hf.
  assert (groups_wf (set_groups p)) as Hg by (destruct p as [s|]; [apply Hwf|by repeat constructor]).
  pose proof Hg as [_ Hok]. rewrite Forall_forall in Hok.
  destruct (unique_reset p Hg) as (internal & -> & Hiok & Huniq).
  assert (infos_from (egi_at p internal 1 0) = set_groups p ≫= unique_infos internal) as E.
  { unfold infos_from. cbn [egi_at egi_i egi_set egi_flag egi_internal]. by rewrite drop_0. }
  pose proof (length_unique_infos internal (set_groups p)).
  rewrite group_iter_run_from by (rewrite ?E; cbn; lia). rewrite E.
  assert (∀ g, g ∈ set_groups p → words_ok 4 (eg_symbols g) ∧ length (eg_symbols g) = length internal) as Hlen.
  { intros g Hin. destruct (Hok g Hin) as [Hgw _]. split; [done|]. destruct Hgw as [-> _], Hiok as [-> _]. done. }
  split.
  - intros (i & (g & (u' & syms & -> & _ & ->)%elem_of_unique_infos & Hin)%list_elem_of_bind & Hu & <- & Hs).
    cbn in Hu, Hs |- *. simplify_eq. destruct (Hlen g Hin) as [_ Hl].
    destruct u; [rewrite bs_get_diff in Hs by done|rewrite bs_get_and in Hs by done]; split_bool;
      (split; [exists g; done|]); rewrite <-Huniq by done; [done|split; congruence].
  - intros [(g & Hin & <- & Hs) Hu]. destruct (Hlen g Hin) as [Hgw Hl]. rewrite <-Huniq in Hu by done.
    set (syms := if u then words_diff (eg_symbols g) internal else words_and (eg_symbols g) internal).
    assert (bs_get syms sym = true) as Hb.
    { unfold syms. destruct u; [rewrite bs_get_diff by done|rewrite bs_get_and by done]; rewrite Hs;
        destruct (bs_get internal sym); naive_solver. }
    exists (mk_info (Some u) (eg_to g) syms). split; [|done]. apply list_elem_of_bind. exists g.
    split; [|done]. apply elem_of_unique_infos. exists u, syms. split; [done|]. split; [|done].
    apply any_word_spec; [|eauto]. unfold syms. destruct u; [by apply words_ok_diff|by apply words_ok_and].
Qed.

Lemma group_iter_unique_spec_witness :
  let p := Some (mk_edge_set 2 [mk_group [6; 0; 0; 0]%N 3; mk_group [4; 0; 0; 0]%N 8]) in
  ∃ i, i ∈ group_iter_run 5 (edge_set_group_iter_reset p EDGE_GROUP_ITER_UNIQUE) ∧
     egii_unique i = Some true ∧ egii_to i = 3%N ∧ bs_get (egii_symbols i) 1 = true.
Proof.
  intros p. apply (group_iter_unique_spec p 5 true 1 3%N); [by_compute|simpl; lia|]. split.
  - exists (mk_group [6; 0; 0; 0]%N 3). split; [left|split; reflexivity].
  - split; [|reflexivity]. intros _ t' (g & Hg & <- & Hs).
    apply elem_of_cons in Hg as [->|Hg]; [reflexivity|].
    apply list_elem_of_singleton in Hg as ->. discriminate Hs.
Defined.

(** With [EDGE_GROUP_ITER_ALL] it yields the groups that have a label. *)
Lemma group_iter_all_infos p fuel :
  length (set_groups p) < fuel →
  group_iter_run fuel (edge_set_group_iter_reset p EDGE_GROUP_ITER_ALL) =
  all_info <$> filter (λ g, any_word (eg_symbols g) = true) (set_groups p).
Proof.
  intros Hf. assert (infos_from (edge_set_group_iter_reset p EDGE_GROUP_ITER_ALL) =
    all_info <$> filter (λ g, any_word (eg_symbols g) = true) (set_groups p)) as E.
  { unfold infos_from. cbn [edge_set_group_iter_reset egi_i egi_set egi_flag]. by rewrite drop_0. }
  pose proof (length_filter (λ g, any_word (eg_symbols g) = true) (set_groups p)).
  rewrite group_iter_run_from; [done|cbn; lia|cbn; lia|]. rewrite E, length_fmap. lia.
Qed.

Lemma group_iter_all_spec p fuel sym t :
  edge_set_wf p → length (set_groups p) < fuel →
  (∃ i, i ∈ group_iter_run fuel (edge_set_group_iter_reset p EDGE_GROUP_ITER_ALL) ∧
     egii_to i = t ∧ bs_get (egii_symbols i) sym = true) ↔ has_edge p sym t.
Proof.
  intros Hwf Hf. rewrite group_iter_all_infos by done.
  assert (Forall group_ok (set_groups p)) as Hok by (destruct p as [s|]; [apply Hwf|constructor]).
  rewrite Forall_forall in Hok. split.
  - intros (i & (g & -> & [_ Hin]%list_elem_of_filter)%list_elem_of_fmap & <- & Hs). exists g. done.
  - intros (g & Hin & <- & Hs). exists (all_info g). split; [|done].
    apply list_elem_of_fmap_2, list_elem_of_filter. split; [|done].
    apply any_word_spec; [by apply Hok|eauto].
Qed.

(** ** Loops

    The values the loops of the other components go through. *)

Definition edge_loop (p : edge_set_ptr) : list fsm_edge :=
  edge_iter_run (S (edge_set_count p)) (edge_set_reset p).
Definition group_loop (p : edge_set_ptr) : list edge_group_iter_info :=
  group_iter_run (S (length (set_groups p))) (edge_set_group_iter_reset p EDGE_GROUP_ITER_ALL).

Lemma edge_loop_edges p : edge_set_wf p → edge_loop p = edge_of <$> edge_list p.
Proof. intros Hwf. apply edge_iter_run_edges; [done|]. rewrite edge_set_count_edges by done. lia. Qed.

(** The destinations of the loop, as the 24-bit field holds them. *)
Lemma elem_of_edge_loop p t :
  edge_set_wf p → t ∈ fe_state <$> edge_loop p ↔ ∃ sym t', has_edge p sym t' ∧ t = u24 t'.
Proof.
  intros Hwf. rewrite edge_loop_edges by done. rewrite list_elem_of_fmap. split.
  - intros (e & -> & ([sym t'] & -> & Hin)%list_elem_of_fmap). exists sym, t'. by rewrite <-elem_of_edge_list.
  - intros (sym & t' & He & ->). exists (edge_of (sym, t')). split; [done|].
    apply list_elem_of_fmap_2. by apply elem_of_edge_list.
Qed.

Lemma group_loop_infos p :
  group_loop p = all_info <$> filter (λ g, any_word (eg_symbols g) = true) (set_groups p).
Proof. apply group_iter_all_infos. lia. Qed.

Lemma group_loop_spec p sym t :
  edge_set_wf p →
  (∃ i, i ∈ group_loop p ∧ egii_to i = t ∧ bs_get (egii_symbols i) sym = true) ↔ has_edge p sym t.
Proof. intros Hwf. apply group_iter_all_spec; [done|lia]. Qed.

Lemma elem_of_group_loop p t :
  edge_set_wf p → (∃ i, i ∈ group_loop p ∧ egii_to i = t) ↔ ∃ sym, has_edge p sym t.
Proof.
  intros Hwf. setoid_rewrite <-group_loop_spec; [|done]. split; [|naive_solver].
  intros (i & Hi & Ht). pose proof Hi as Hi'. rewrite group_loop_infos in Hi.
  apply list_elem_of_fmap in Hi as (g & -> & [Ha Hin]%list_elem_of_filter).
  assert (group_ok g) as [Hg _].
  { destruct p as [s|]; [|by apply not_elem_of_nil in Hin]. destruct Hwf as ([_ Hf] & _).
    by apply (proj1 (Forall_forall _ _) Hf). }
  apply any_word_spec in Ha as [j Hj]; [|done]. exists j, (all_info g). done.
Qed.
