(* ===== verification/EdgeCompact.v ===== *)
(** * Renumbering the destinations of an edge set: src/adt/edgeset.c

    [edge_set_compact] applies a remapping of state ids to the destinations of
    a set: destinations mapped to no state are dropped, destinations mapped to
    the same state are merged, and the groups are put back in order. *)

From S2P Require Import Prelude StateSet Bits EdgeSet.

Record to_info := mk_to_info { old_to : N; new_to : N; assignment : N }.

Definition sizeof_to_info : N := 12.

(** The orders of the two sorts, [collate_info_by_new_to] and
    [collate_info_by_old_to]. *)
Definition collate_info_by_new_to (a b : to_info) : Prop := (new_to a ≤ new_to b)%N.
Definition collate_info_by_old_to (a b : to_info) : Prop := (old_to a ≤ old_to b)%N.

#[export] Instance collate_new_dec : RelDecision collate_info_by_new_to.
Proof. unfold collate_info_by_new_to. solve_decision. Defined.
#[export] Instance collate_old_dec : RelDecision collate_info_by_old_to.
Proof. unfold collate_info_by_old_to. solve_decision. Defined.

(** The loop that numbers the new destinations, from the second entry on:
    [prev] is the entry before. *)
Fixpoint assign_loop (prev : to_info) (l : list to_info) (ncount : nat) : list to_info * nat :=
  match l with
  | [] => ([], ncount)
  | x :: l' =>
      if (new_to x =? FSM_STATE_REMAP_NO_STATE)%N then (l, ncount)
      else
        let '(x, ncount) :=
          if (new_to x =? new_to prev)%N then
            (mk_to_info (old_to x) (new_to x) (assignment prev), ncount)
          else (mk_to_info (old_to x) (new_to x) (assignment prev +32 1)%cint, ncount + 1) in
        let '(l', ncount) := assign_loop x l' ncount in
        (x :: l', ncount)
  end.

Definition assign (info : list to_info) : list to_info * nat :=
  match info with
  | [] => ([], 0)
  | x :: l =>
      let x := mk_to_info (old_to x) (new_to x) 0 in
      let '(l, ncount) := assign_loop x l 1 in (x :: l, ncount)
  end.

(** The second pass: merge each group into the new group assigned to it. *)
Definition condense (ngroups : list edge_group) (p : to_info * edge_group) : list edge_group :=
  let '(x, g) := p in
  if (new_to x =? FSM_STATE_REMAP_NO_STATE)%N then ngroups
  else alter (λ h, mk_group (words_or (eg_symbols h) (eg_symbols g)) (new_to x))
    (N.to_nat (assignment x)) ngroups.

Definition zero_group : edge_group := mk_group (replicate 4 0%N) 0.

Definition edge_set_compact `{allocator} (pset : edge_set_ptr) (al : fsm_alloc) (remap : N → N)
    : bool * edge_set_ptr :=
  if edge_set_empty pset then (true, pset)
  else match pset with
  | None => (true, None)
  | Some s =>
      if f_malloc al (N.of_nat (length (es_groups s)) * sizeof_to_info) then
        if f_calloc al (N.of_nat (es_ceil s)) sizeof_edge_group then
          let info := (λ eg, mk_to_info (eg_to eg) (remap (eg_to eg)) 4294967295) <$> es_groups s in
          let info := merge_sort collate_info_by_new_to info in
          let '(info, ncount) := assign info in
          let info := merge_sort collate_info_by_old_to info in
          let ngroups := foldl condense (replicate (es_ceil s) zero_group) (zip info (es_groups s)) in
          (true, Some (mk_edge_set (es_ceil s) (take ncount ngroups)))
        else (false, pset)
      else (false, pset)
  end.

(** ** Lemmas: numbering *)

Definition kept (l : list N) : list N := filter (λ n, n ≠ FSM_STATE_REMAP_NO_STATE) l.

Lemma assign_loop_spec l : ∀ prev n,
  StronglySorted N.le (new_to <$> prev :: l) →
  (new_to prev ≠ FSM_STATE_REMAP_NO_STATE)%N →
  Forall (λ x, (new_to x ≤ FSM_STATE_REMAP_NO_STATE)%N) l →
  (assignment prev + N.of_nat (length l) < 4294967296)%N →
  let '(l', n') := assign_loop prev l n in
  let D := new_to prev :: uniq_after (new_to prev) (kept (new_to <$> l)) in
  old_to <$> l' = old_to <$> l ∧ new_to <$> l' = new_to <$> l ∧
  n' = n + length D - 1 ∧
  (∀ x, x ∈ l' → new_to x ≠ FSM_STATE_REMAP_NO_STATE →
     (assignment prev ≤ assignment x)%N ∧
     D !! N.to_nat (assignment x - assignment prev) = Some (new_to x)).
Proof.
  induction l as [|x l IH]; intros prev n Hs Hp Hle Hb; cbn [assign_loop].
  { cbn. split_and!; [done|done|lia|]. by intros x ?%not_elem_of_nil. }
  rewrite !fmap_cons in Hs. apply StronglySorted_cons in Hs as [Hpx Hs].
  apply Forall_cons in Hle as [Hx Hle]. apply Forall_cons in Hpx as [Hpx _]. simpl in Hb.
  destruct (new_to x =? FSM_STATE_REMAP_NO_STATE)%N eqn:E; split_bool.
  { (* the rest maps to no state *)
    assert (kept (new_to <$> x :: l) = []) as Hk.
    { apply elem_of_nil_inv. intros y [Hy Hin]%list_elem_of_filter. apply Hy.
      rewrite fmap_cons in Hin. apply elem_of_cons in Hin as [->|Hin]; [done|].
      apply StronglySorted_cons in Hs as [Hs _]. rewrite Forall_forall in Hs. specialize (Hs y Hin).
      apply list_elem_of_fmap in Hin as (z & -> & Hz). rewrite Forall_forall in Hle. specialize (Hle z Hz). lia. }
    rewrite Hk. split_and!; [done|done|simpl; lia|].
    intros y Hy Hn. exfalso. apply Hn. destruct (decide (new_to y = FSM_STATE_REMAP_NO_STATE)); [done|].
    assert (new_to y ∈ kept (new_to <$> x :: l)) as Hin.
    { apply list_elem_of_filter. split; [done|]. by apply list_elem_of_fmap_2. }
    rewrite Hk in Hin. by apply not_elem_of_nil in Hin. }
  assert (kept (new_to <$> x :: l) = new_to x :: kept (new_to <$> l)) as ->.
  { unfold kept. rewrite fmap_cons, filter_cons, decide_True by done. done. }
  cbn [uniq_after]. rewrite (N.eqb_sym (new_to prev)).
  set (x' := mk_to_info (old_to x) (new_to x)
    (if (new_to x =? new_to prev)%N then assignment prev else assignment prev +32 1)%cint).
  set (n1 := if (new_to x =? new_to prev)%N then n else n + 1).
  assert ((if (new_to x =? new_to prev)%N
      then (mk_to_info (old_to x) (new_to x) (assignment prev), n)
      else (mk_to_info (old_to x) (new_to x) (assignment prev +32 1)%cint, n + 1)) = (x', n1)) as ->.
  { unfold x', n1. by destruct (new_to x =? new_to prev)%N. }
  specialize (IH x' n1). destruct (assign_loop x' l n1) as [l' n'].
  assert (assignment x' = if (new_to x =? new_to prev)%N then assignment prev else (assignment prev + 1)%N) as Ha.
  { unfold x'. cbn [assignment]. destruct (new_to x =? new_to prev)%N; [done|]. rewrite u32_small; lia. }
  destruct IH as (H1 & H2 & H3 & H4); [done|done|done|rewrite Ha; case_if; lia|].
  cbn [new_to x'] in *. split_and!.
  - rewrite !fmap_cons, H1. done.
  - rewrite !fmap_cons, H2. done.
  - unfold n1 in H3. case_if; simpl in *; lia.
  - intros y [->|Hy]%elem_of_cons Hn.
    + rewrite Ha. cbn [new_to x']. case_if; (split; [lia|]).
      * rewrite N.sub_diag. simpl. congruence.
      * replace (N.to_nat (assignment prev + 1 - assignment prev)) with 1 by lia. done.
    + destruct (H4 y Hy Hn) as [H5 H6]. rewrite Ha in H5, H6. case_if; (split; [lia|]).
      * by rewrite <-E0.
      * replace (N.to_nat (assignment y - assignment prev))
          with (S (N.to_nat (assignment y - (assignment prev + 1)))) by lia. done.
Qed.

(** The numbering of a sorted array: [D] is the list of new destinations, and
    every entry that is kept is numbered by its place in [D]. *)
Definition numbered (D : list N) (l : list to_info) : Prop :=
  increasing D ∧ (∀ d, d ∈ D → d ≠ FSM_STATE_REMAP_NO_STATE → d ∈ new_to <$> l) ∧
  ∀ x, x ∈ l → new_to x ≠ FSM_STATE_REMAP_NO_STATE → D !! N.to_nat (assignment x) = Some (new_to x).

Lemma kept_sorted l : StronglySorted N.le l → StronglySorted N.le (kept l).
Proof.
  induction 1 as [|x l Hs IH Hx]; [constructor|]. unfold kept. rewrite filter_cons. case_decide; [|done].
  apply StronglySorted_cons. split; [|done]. rewrite Forall_forall in *.
  intros y [_ Hy]%list_elem_of_filter. auto.
Qed.

Lemma assign_spec info :
  info ≠ [] → StronglySorted N.le (new_to <$> info) →
  Forall (λ x, (new_to x ≤ FSM_STATE_REMAP_NO_STATE)%N) info →
  (N.of_nat (length info) ≤ 4294967296)%N →
  let '(info', n) := assign info in
  old_to <$> info' = old_to <$> info ∧ new_to <$> info' = new_to <$> info ∧
  ∃ D, numbered D info' ∧ length D = n ∧ 1 ≤ n ≤ length info ∧
    ((∀ d, d ∈ D → d ≠ FSM_STATE_REMAP_NO_STATE) ∨ n = 1 ∧ kept (new_to <$> info) = []).
Proof.
  intros Hne Hs Hle Hlen. destruct info as [|x l]; [done|]. unfold assign.
  destruct (decide (new_to x = FSM_STATE_REMAP_NO_STATE)) as [Hx|Hx].
  - (* everything maps to no state *)
    assert (∀ y, y ∈ x :: l → new_to y = FSM_STATE_REMAP_NO_STATE) as Hall.
    { intros y Hy. rewrite fmap_cons in Hs. apply StronglySorted_cons in Hs as [Hs _].
      rewrite !Forall_forall in *. specialize (Hle y Hy). apply elem_of_cons in Hy as [->|Hy]; [done|].
      specialize (Hs (new_to y) (list_elem_of_fmap_2 _ _ _ Hy)). lia. }
    assert (assign_loop (mk_to_info (old_to x) (new_to x) 0) l 1 = (l, 1)) as ->.
    { destruct l as [|y l]; [done|]. cbn [assign_loop].
      rewrite (Hall y) by (right; left). by rewrite N.eqb_refl. }
    split; [done|]. split; [done|]. exists [FSM_STATE_REMAP_NO_STATE]. split; [|split; [done|]].
    + split; [repeat constructor|]. split.
      * intros d ->%list_elem_of_singleton. done.
      * intros y Hy Hn. exfalso. apply Hn. apply elem_of_cons in Hy as [->|Hy]; [done|]. apply Hall. by right.
    + split; [simpl; lia|]. right. split; [done|]. apply elem_of_nil_inv.
      intros y [Hy (z & -> & Hz)%list_elem_of_fmap]%list_elem_of_filter. by apply Hy, Hall.
  - apply Forall_cons in Hle as [_ Hle].
    pose proof (assign_loop_spec l (mk_to_info (old_to x) (new_to x) 0) 1 Hs Hx Hle) as Ha.
    destruct (assign_loop (mk_to_info (old_to x) (new_to x) 0) l 1) as [l' n].
    destruct Ha as (H1 & H2 & H3 & H4); [simpl in *; lia|]. cbn [assignment new_to] in *.
    rewrite !fmap_cons, H1, H2. split; [done|]. split; [done|].
    exists (new_to x :: uniq_after (new_to x) (kept (new_to <$> l))).
    assert (∀ d, d ∈ uniq_after (new_to x) (kept (new_to <$> l)) → d ∈ kept (new_to <$> l)) as Hsub
      by (intros; by eapply uniq_after_subseteq).
    assert (∀ m p, length (uniq_after p m) ≤ length m) as Hul.
    { induction m as [|y m IHm]; intros p; simpl; [done|]. case_if; simpl; specialize (IHm y); lia. }
    split; [|split; [simpl in *; lia|split]].
    + split; [|split].
      * apply uniq_after_increasing. apply kept_sorted in Hs. unfold kept in Hs.
        rewrite fmap_cons, filter_cons, decide_True in Hs by done. exact Hs.
      * intros d [->|Hd]%elem_of_cons _; rewrite fmap_cons; [by left|].
        right. rewrite H2. by apply Hsub, list_elem_of_filter in Hd as [_ ?].
      * intros y [->|Hy]%elem_of_cons Hn; [done|]. destruct (H4 y Hy Hn) as [_ H5]. by rewrite N.sub_0_r in H5.
    + specialize (Hul (kept (new_to <$> l)) (new_to x)).
      pose proof (length_filter (λ n, n ≠ FSM_STATE_REMAP_NO_STATE) (new_to <$> l)) as Hlf.
      rewrite length_fmap in Hlf. unfold kept in *. simpl in *. lia.
    + left. intros d [->|Hd]%elem_of_cons; [done|].
      by apply Hsub, list_elem_of_filter in Hd as [? _].
Qed.

(** ** Lemmas: the second pass *)

Definition hits (k : nat) (p : to_info * edge_group) : Prop :=
  new_to p.1 ≠ FSM_STATE_REMAP_NO_STATE ∧ N.to_nat (assignment p.1) = k.

(** What the new groups hold after some of the pairs have been merged. *)
Definition condensed (D : list N) (done : list (to_info * edge_group)) (ng : list edge_group) : Prop :=
  ∀ k h, ng !! k = Some h →
    words_ok 4 (eg_symbols h) ∧
    (∀ sym, bs_get (eg_symbols h) sym = true ↔ ∃ p, p ∈ done ∧ hits k p ∧ bs_get (eg_symbols p.2) sym = true) ∧
    ((∃ p, p ∈ done ∧ hits k p) → D !! k = Some (eg_to h)) ∧
    ((∀ p, p ∈ done → ¬ hits k p) → eg_to h = 0%N).

Lemma condense_spec D pairs ceil :
  (∀ p, p ∈ pairs → words_ok 4 (eg_symbols p.2) ∧
     (new_to p.1 ≠ FSM_STATE_REMAP_NO_STATE → D !! N.to_nat (assignment p.1) = Some (new_to p.1))) →
  let ng := foldl condense (replicate ceil zero_group) pairs in
  length ng = ceil ∧ condensed D pairs ng.
Proof.
  induction pairs as [|[x g] pairs IH] using rev_ind; intros Hp.
  { cbn [foldl]. split; [by rewrite length_replicate|]. intros k h [-> _]%lookup_replicate.
    cbn [zero_group eg_symbols eg_to]. split; [apply words_ok_zero|].
    split; [|split; [|done]].
    - intros sym. rewrite (bs_get_zero 4). split; [discriminate|]. by intros (p & ?%not_elem_of_nil & _).
    - by intros (p & ?%not_elem_of_nil & _). }
  rewrite foldl_app. cbn [foldl]. destruct IH as [IHl IH].
  { intros p Hin. apply Hp. apply elem_of_app. by left. }
  destruct (Hp (x, g)) as [Hg Hx]; [apply elem_of_app; right; left|]. cbn [fst snd] in *.
  set (ng := foldl condense (replicate ceil zero_group) pairs) in *. unfold condense.
  destruct (new_to x =? FSM_STATE_REMAP_NO_STATE)%N eqn:E; split_bool.
  - split; [done|]. intros k h Hk. destruct (IH k h Hk) as (H1 & H2 & H3 & H4).
    assert (∀ p, p ∈ pairs ++ [(x, g)] ∧ hits k p ↔ p ∈ pairs ∧ hits k p) as Hh.
    { intros p. rewrite elem_of_app, list_elem_of_singleton. split; [|tauto].
      intros [[?| ->] [Hn ?]]; [done|]. done. }
    split_and!; [done| | |].
    + intros sym. rewrite H2. setoid_rewrite (assoc and). by setoid_rewrite Hh.
    + setoid_rewrite Hh. done.
    + intros Hn. apply H4. intros p Hin. apply Hn. apply elem_of_app. by left.
  - split; [by rewrite length_alter|]. intros k h Hk.
    destruct (decide (N.to_nat (assignment x) = k)) as [<-|Hne].
    + rewrite list_lookup_alter_eq in Hk. destruct (ng !! N.to_nat (assignment x)) as [h0|] eqn:E0; [|done].
      simplify_eq/=. destruct (IH _ _ E0) as (H1 & H2 & H3 & H4). split_and!.
      * by apply words_ok_or.
      * intros sym. rewrite bs_get_or by (destruct H1 as [-> _], Hg as [-> _]; done).
        rewrite orb_true_iff, H2. setoid_rewrite elem_of_app. setoid_rewrite list_elem_of_singleton. split.
        -- intros [(p & ? & ? & ?)|?]; [eauto 10|]. exists (x, g). by repeat (split || right).
        -- intros (p & [?| ->] & ? & ?); [left; eauto|by right].
      * intros _. by apply Hx.
      * intros Hn. exfalso. apply (Hn (x, g)); [apply elem_of_app; right; left|done].
    + rewrite list_lookup_alter_ne in Hk by done. destruct (IH k h Hk) as (H1 & H2 & H3 & H4).
      assert (∀ p, p ∈ pairs ++ [(x, g)] ∧ hits k p ↔ p ∈ pairs ∧ hits k p) as Hh.
      { intros p. rewrite elem_of_app, list_elem_of_singleton. split; [|tauto].
        intros [[?| ->] [Hn ?]]; [done|]. done. }
      split_and!; [done| | |].
      * intros sym. rewrite H2. setoid_rewrite (assoc and). by setoid_rewrite Hh.
      * setoid_rewrite Hh. done.
      * intros Hn. apply H4. intros p Hin. apply Hn. apply elem_of_app. by left.
Qed.

(** ** The result *)

Lemma merge_sort_old_groups info gs :
  increasing (eg_to <$> gs) → old_to <$> info ≡ₚ eg_to <$> gs →
  old_to <$> merge_sort collate_info_by_old_to info = eg_to <$> gs.
Proof.
  intros Hinc Hperm. apply (StronglySorted_unique N.le).
  - assert (StronglySorted collate_info_by_old_to (merge_sort collate_info_by_old_to info)) as Hs.
    { apply StronglySorted_merge_sort; [intros ???; unfold collate_info_by_old_to; lia|].
      intros ??; unfold collate_info_by_old_to; lia. }
    induction Hs as [|x l _ IH Hx]; [constructor|]. rewrite fmap_cons. apply StronglySorted_cons.
    split; [|done]. by apply Forall_fmap.
  - clear -Hinc. induction Hinc as [|x l _ IH Hx]; [constructor|]. constructor; [done|].
    eapply Forall_impl; [exact Hx|]. intros; simpl in *; lia.
  - by rewrite merge_sort_Permutation.
Qed.

(** An entry of the sorted array goes with the group it was made from. *)
Lemma zip_same_keys info gs p :
  old_to <$> info = eg_to <$> gs → p ∈ zip info gs → p.1 ∈ info ∧ p.2 ∈ gs ∧ old_to p.1 = eg_to p.2.
Proof.
  intros Heq [i Hi]%list_elem_of_lookup. destruct p as [x g].
  apply lookup_zip_with_Some in Hi as (x' & g' & [= -> ->] & Hx & Hg). simpl.
  split; [apply list_elem_of_lookup; eauto|]. split; [apply list_elem_of_lookup; eauto|].
  assert ((old_to <$> info) !! i = (eg_to <$> gs) !! i) as E by (by rewrite Heq).
  rewrite !list_lookup_fmap, Hx, Hg in E. by injection E.
Qed.

Lemma zip_same_keys_2 info gs g :
  old_to <$> info = eg_to <$> gs → g ∈ gs → ∃ x, (x, g) ∈ zip info gs ∧ x ∈ info ∧ old_to x = eg_to g.
Proof.
  intros Heq [i Hi]%list_elem_of_lookup.
  assert ((old_to <$> info) !! i = Some (eg_to g)) as E by (by rewrite Heq, list_lookup_fmap, Hi).
  rewrite list_lookup_fmap in E. destruct (info !! i) as [x|] eqn:Ex; simplify_eq/=.
  exists x. split; [|split; [apply list_elem_of_lookup; eauto|done]].
  apply list_elem_of_lookup. exists i. apply lookup_zip_with_Some. eauto.
Qed.

Section Compact.
Context (remap : N → N) (gs : list edge_group) (info : list to_info) (D : list N) (ceil : nat).
Hypothesis Hgs : groups_wf gs.
Hypothesis Hremap : ∀ g, g ∈ gs → (remap (eg_to g) < 4294967296)%N.
Hypothesis Hold : old_to <$> info = eg_to <$> gs.
Hypothesis Hnew : ∀ x, x ∈ info → new_to x = remap (old_to x).
Hypothesis HD : numbered D info.
Hypothesis Hceil : length D ≤ ceil.
Hypothesis Hcase : (∀ d, d ∈ D → d ≠ FSM_STATE_REMAP_NO_STATE) ∨
  length D = 1 ∧ ∀ x, x ∈ info → new_to x = FSM_STATE_REMAP_NO_STATE.

Let ng := foldl condense (replicate ceil zero_group) (zip info gs).

Lemma compact_condensed : length ng = ceil ∧ condensed D (zip info gs) ng.
Proof.
  apply condense_spec. intros p Hp. destruct (zip_same_keys _ _ _ Hold Hp) as (Hx & Hg & _).
  split; [|by apply HD]. destruct Hgs as [_ Hf]. rewrite Forall_forall in Hf. by apply Hf.
Qed.

(** Every new destination is the destination of its group. *)
Lemma compact_hit k d :
  (∀ d, d ∈ D → d ≠ FSM_STATE_REMAP_NO_STATE) → D !! k = Some d →
  ∃ p, p ∈ zip info gs ∧ hits k p ∧ new_to p.1 = d.
Proof.
  intros Hno Hk. destruct HD as (Hinc & HDin & HDx).
  assert (d ∈ D) as Hd by (apply list_elem_of_lookup; eauto).
  specialize (HDin d Hd (Hno d Hd)). apply list_elem_of_fmap in HDin as (x & -> & Hx).
  assert (∃ g, (x, g) ∈ zip info gs) as [g Hg].
  { apply list_elem_of_lookup in Hx as [i Hi].
    assert ((eg_to <$> gs) !! i = Some (old_to x)) as E by (by rewrite <-Hold, list_lookup_fmap, Hi).
    rewrite list_lookup_fmap in E. destruct (gs !! i) as [g|] eqn:Eg; simplify_eq/=.
    exists g. apply list_elem_of_lookup. exists i. apply lookup_zip_with_Some. eauto. }
  exists (x, g). split; [done|]. split; [|done]. split; [by apply Hno|].
  eapply NoDup_lookup; [by apply increasing_NoDup|by apply HDx, Hno|done].
Qed.

Lemma compact_keys : increasing (eg_to <$> take (length D) ng).
Proof.
  destruct compact_condensed as [Hl Hc]. destruct Hcase as [Hno|[H1 Hno]].
  - assert (eg_to <$> take (length D) ng = D) as ->; [|by apply HD].
    apply list_eq_same_length with (length D); [done|rewrite length_fmap, length_take; lia|].
    intros k h d Hk Hh Hd. rewrite list_lookup_fmap, lookup_take_lt in Hh by done.
    destruct (ng !! k) as [g|] eqn:E; simplify_eq/=. destruct (Hc k g E) as (_ & _ & H3 & _).
    destruct (compact_hit k d Hno Hd) as (p & ? & ? & _). rewrite H3 in Hd by eauto. congruence.
  - rewrite H1. destruct ng as [|h l]; cbn; repeat constructor.
Qed.

Lemma compact_wf : groups_wf (take (length D) ng).
Proof.
  split; [apply compact_keys|]. destruct compact_condensed as [Hl Hc].
  apply Forall_lookup. intros k h [Hk Hlt]%lookup_take_Some. destruct (Hc k h Hk) as (H1 & _ & H3 & H4).
  split; [done|]. destruct Hcase as [Hno|[H1' Hno]].
  - destruct (lookup_lt_is_Some_2 D k Hlt) as [d Hd].
    destruct (compact_hit k d Hno Hd) as (p & Hp & Hh & <-). rewrite H3 in Hd by eauto. injection Hd as ->.
    destruct (zip_same_keys _ _ _ Hold Hp) as (Hx & Hg & Heq). rewrite (Hnew _ Hx), Heq. by apply Hremap.
  - rewrite H4; [done|]. intros p Hp [Hn _]. apply Hn, Hno. by destruct (zip_same_keys _ _ _ Hold Hp).
Qed.

Lemma compact_edges sym t :
  groups_edge (take (length D) ng) sym t ↔
  t ≠ FSM_STATE_REMAP_NO_STATE ∧ ∃ t', groups_edge gs sym t' ∧ remap t' = t.
Proof.
  destruct compact_condensed as [Hl Hc]. split.
  - intros (h & [k [Hk Hlt]%lookup_take_Some]%list_elem_of_lookup & <- & Hs).
    destruct (Hc k h Hk) as (_ & H2 & H3 & _). apply H2 in Hs as ([x g] & Hp & Hh & Hs).
    destruct (zip_same_keys _ _ _ Hold Hp) as (Hx & Hg & Heq). simpl in *.
    assert (D !! k = Some (eg_to h)) as HDk by eauto. pose proof Hh as [Hn Hk'].
    destruct HD as (_ & _ & HDx). simpl in Hn, Hk'. specialize (HDx x Hx Hn). rewrite Hk', HDk in HDx.
    injection HDx as HDx. rewrite HDx. split; [done|]. exists (eg_to g). split; [exists g; done|].
    by rewrite <-Heq, Hnew.
  - intros [Hn (t' & (g & Hg & <- & Hs) & Ht)].
    destruct (zip_same_keys_2 _ _ _ Hold Hg) as (x & Hp & Hx & Heq).
    assert (new_to x = t) as Hxt by (by rewrite Hnew, Heq).
    destruct HD as (_ & _ & HDx). specialize (HDx x Hx ltac:(congruence)). rewrite Hxt in HDx.
    pose proof (lookup_lt_Some _ _ _ HDx) as Hlt.
    destruct (lookup_lt_is_Some_2 ng (N.to_nat (assignment x))) as [h Hh]; [lia|].
    destruct (Hc _ _ Hh) as (_ & H2 & H3 & _).
    assert (hits (N.to_nat (assignment x)) (x, g)) as Hhit by (split; [simpl; congruence|done]).
    exists h. split; [apply list_elem_of_lookup; exists (N.to_nat (assignment x)); by rewrite lookup_take_lt|].
    split; [|apply H2; eauto]. rewrite H3 in HDx by eauto. congruence.
Qed.

(** A new group without symbols leads to state 0, if this was so before. *)
Lemma compact_blank :
  (∀ g, g ∈ gs → eg_to g = 0%N ∨ ∃ sym, groups_edge gs sym (eg_to g)) →
  remap 0%N = 0%N ∨ remap 0%N = FSM_STATE_REMAP_NO_STATE →
  ∀ h, h ∈ take (length D) ng → eg_to h = 0%N ∨ ∃ sym, groups_edge (take (length D) ng) sym (eg_to h).
Proof.
  intros Hb H0 h [k [Hk Hlt]%lookup_take_Some]%list_elem_of_lookup.
  destruct compact_condensed as [Hl Hc]. destruct (Hc k h Hk) as (_ & _ & H3 & H4).
  destruct Hcase as [Hno|[_ Hno]].
  - destruct (lookup_lt_is_Some_2 D k Hlt) as [d Hd].
    destruct (compact_hit k d Hno Hd) as (p & Hp & Hh & Hdp). rewrite H3 in Hd by eauto. injection Hd as ->.
    destruct (zip_same_keys _ _ _ Hold Hp) as (Hx & Hg & Heq).
    rewrite (Hnew _ Hx), Heq in Hdp. destruct Hh as [Hn _]. rewrite (Hnew _ Hx), Heq in Hn.
    destruct (Hb _ Hg) as [E|[sym Hs]].
    + left. rewrite <-Hdp. rewrite E in *. destruct H0; [congruence|done].
    + right. exists sym. apply compact_edges. rewrite <-Hdp. split; [done|eauto].
  - left. apply H4. intros p Hp [Hn _]. apply Hn, Hno. by destruct (zip_same_keys _ _ _ Hold Hp).
Qed.
End Compact.

(** Groups without symbols: a renumbering that drops every destination leaves
    one, to state 0. *)
Definition blank_zero (p : edge_set_ptr) : Prop :=
  ∀ k, k ∈ edge_keys p → k = 0%N ∨ ∃ sym, has_edge p sym k.

(** Renumbering the destinations of a set: on success the set is well formed
    again and has the edge [sym → t] exactly when it had an edge [sym → t'] that
    the map takes to [t], which is not the value that drops a state. On failure
    it is unchanged. The map need not be monotone or injective. *)
Lemma edge_set_compact_spec `{allocator} p al remap b p' :
  edge_set_wf p → (∀ t, t ∈ eg_to <$> set_groups p → (remap t < 4294967296)%N) →
  edge_set_compact p al remap = (b, p') →
  if b then edge_set_wf p' ∧ (∀ sym t, has_edge p' sym t ↔
      t ≠ FSM_STATE_REMAP_NO_STATE ∧ ∃ t', has_edge p sym t' ∧ remap t' = t) ∧
    (blank_zero p → remap 0%N = 0%N ∨ remap 0%N = FSM_STATE_REMAP_NO_STATE → blank_zero p')
  else p' = p.
Proof.
  intros Hwf Hremap. unfold edge_set_compact. destruct (edge_set_empty p) eqn:E.
  { intros [= <- <-]. split; [done|]. split; [|done]. intros sym t.
    assert (∀ t, ¬ has_edge p sym t) as Hno by (intros; by apply edge_set_empty_edge).
    split; [intros He; by apply Hno in He|]. intros (_ & t' & He & _). by apply Hno in He. }
  destruct p as [s|]; [|done]. destruct (f_malloc _ _); [destruct (f_calloc _ _ _)|]; [|by intros [= <- <-]|by intros [= <- <-]].
  destruct Hwf as (Hg & Hlen & Hpos). cbn [set_groups] in *.
  set (info0 := (λ eg, mk_to_info (eg_to eg) (remap (eg_to eg)) 4294967295) <$> es_groups s).
  assert (StronglySorted N.le (new_to <$> merge_sort collate_info_by_new_to info0)) as Hsort.
  { assert (StronglySorted collate_info_by_new_to (merge_sort collate_info_by_new_to info0)) as Hs.
    { apply StronglySorted_merge_sort; [intros ???; unfold collate_info_by_new_to; lia|].
      intros ??; unfold collate_info_by_new_to; lia. }
    induction Hs as [|x l _ IH Hx]; [constructor|]. rewrite fmap_cons. apply StronglySorted_cons.
    split; [|done]. by apply Forall_fmap. }
  assert (∀ x, x ∈ info0 → new_to x = remap (old_to x) ∧ old_to x ∈ eg_to <$> es_groups s) as Hinfo0.
  { intros x (g & -> & Hin)%list_elem_of_fmap. split; [done|]. cbn [old_to]. by apply list_elem_of_fmap_2. }
  pose proof (assign_spec (merge_sort collate_info_by_new_to info0)) as Ha.
  destruct (assign (merge_sort collate_info_by_new_to info0)) as [info n].
  assert (length (merge_sort collate_info_by_new_to info0) = length (es_groups s)) as Hl0.
  { rewrite merge_sort_Permutation. unfold info0. by rewrite length_fmap. }
  destruct Ha as (Ho & Hn & D & HD & HDn & Hn1 & Hcase); [| | | |].
  - intros Hnil. rewrite Hnil in Hl0. destruct (es_groups s) eqn:Egs; [|done].
    unfold edge_set_empty in E. by rewrite Egs in E.
  - done.
  - apply Forall_forall. intros x Hx. rewrite merge_sort_Permutation in Hx.
    destruct (Hinfo0 x Hx) as [-> Hin]. specialize (Hremap _ Hin). unfold FSM_STATE_REMAP_NO_STATE. lia.
  - rewrite Hl0, <-(length_fmap eg_to). apply increasing_length; [apply Hg|].
    apply Forall_fmap. eapply Forall_impl; [apply Hg|]. intros g [_ ?]. done.
  - intros [= <- <-]. subst n.
    assert (∀ x, x ∈ info → new_to x = remap (old_to x)) as Hni.
    { intros x [i Hi]%list_elem_of_lookup.
      assert ((old_to <$> merge_sort collate_info_by_new_to info0) !! i = Some (old_to x)) as E1
        by (by rewrite <-Ho, list_lookup_fmap, Hi).
      assert ((new_to <$> merge_sort collate_info_by_new_to info0) !! i = Some (new_to x)) as E2
        by (by rewrite <-Hn, list_lookup_fmap, Hi).
      rewrite list_lookup_fmap in E1, E2.
      destruct (merge_sort collate_info_by_new_to info0 !! i) as [y|] eqn:Ey; [|done].
      simpl in E1, E2. injection E1 as E1. injection E2 as E2. rewrite <-E1, <-E2. apply Hinfo0. rewrite <-(merge_sort_Permutation collate_info_by_new_to).
      apply list_elem_of_lookup. eauto. }
    assert (old_to <$> merge_sort collate_info_by_old_to info = eg_to <$> es_groups s) as Hold.
    { apply merge_sort_old_groups; [apply Hg|]. rewrite Ho, merge_sort_Permutation.
      unfold info0. by rewrite <-list_fmap_compose. }
    assert (numbered D (merge_sort collate_info_by_old_to info)) as HD'.
    { destruct HD as (K1 & K2 & K3). split; [done|]. setoid_rewrite merge_sort_Permutation. done. }
    assert ((∀ d, d ∈ D → d ≠ FSM_STATE_REMAP_NO_STATE) ∨ length D = 1 ∧
      ∀ x, x ∈ merge_sort collate_info_by_old_to info → new_to x = FSM_STATE_REMAP_NO_STATE) as Hcase'.
    { destruct Hcase as [?|[? Hk]]; [by left|]. right. split; [done|]. intros x Hx.
      rewrite merge_sort_Permutation in Hx. destruct (decide (new_to x = FSM_STATE_REMAP_NO_STATE)); [done|].
      assert (new_to x ∈ kept (new_to <$> merge_sort collate_info_by_new_to info0)) as Hin.
      { apply list_elem_of_filter. split; [done|]. rewrite <-Hn. by apply list_elem_of_fmap_2. }
      rewrite Hk in Hin. by apply not_elem_of_nil in Hin. }
    assert (∀ g, g ∈ es_groups s → (remap (eg_to g) < 4294967296)%N) as Hr.
    { intros g Hin. by apply Hremap, list_elem_of_fmap_2. }
    assert (∀ x, x ∈ merge_sort collate_info_by_old_to info → new_to x = remap (old_to x)) as Hni'.
    { intros x Hx. rewrite merge_sort_Permutation in Hx. auto. }
    split.
    + split; [apply (compact_wf remap); try done; lia|]. cbn [es_groups es_ceil]. rewrite length_take. lia.
    + split; [intros sym t; apply compact_edges; try done; lia|]. intros Hb H0 d (h & -> & Hin)%list_elem_of_fmap.
      apply (compact_blank remap (es_groups s)); try done; try lia.
      intros g Hg'. apply Hb. by apply list_elem_of_fmap_2.
Qed.

Lemma edge_set_compact_total `{alloc_total} p al remap : (edge_set_compact p al remap).1 = true.
Proof.
  unfold edge_set_compact. destruct (edge_set_empty p); [done|]. destruct p as [s|]; [|done].
  rewrite f_malloc_total, f_calloc_total. by destruct (assign _) as [info n].
Qed.

(** ** Properties *)

(** C22. Renumbering the destinations of a set succeeds with enough memory, and
    keeps exactly the edges whose destination is kept, under its new number:
    dropping, merging and reordering destinations. *)
Theorem edge_set_compact_remaps `{alloc_total} p al remap :
  edge_set_wf p → (∀ t, t ∈ eg_to <$> set_groups p → (remap t < 4294967296)%N) →
  ∃ p', edge_set_compact p al remap = (true, p') ∧ edge_set_wf p' ∧
    ∀ sym t, has_edge p' sym t ↔
      t ≠ FSM_STATE_REMAP_NO_STATE ∧ ∃ t', has_edge p sym t' ∧ remap t' = t.
Proof.
  intros Hwf Hr. pose proof (edge_set_compact_total p al remap) as Hb.
  destruct (edge_set_compact p al remap) as [b p'] eqn:E. cbn in Hb. subst b.
  apply edge_set_compact_spec in E as (? & ? & _); [|done|done]. eauto.
Qed.

Lemma edge_set_compact_remaps_witness :
  let p := Some (mk_edge_set 4 [mk_group [2; 0; 0; 0]%N 3; mk_group [4; 0; 0; 0]%N 5; mk_group [8; 0; 0; 0]%N 9]) in
  let remap := λ t, if (t =? 3)%N then 7%N else if (t =? 5)%N then 4294967295%N else 2%N in
  ∃ p', @edge_set_compact always p 0%N remap = (true, p') ∧ has_edge p' 3 2 ∧ ¬ has_edge p' 2 4294967295.
Proof.
  intros p remap. destruct (@edge_set_compact_remaps always always_total p 0%N remap) as (p' & E & _ & He).
  - by_compute.
  - intros t Ht. unfold remap. repeat case_if; reflexivity.
  - exists p'. split; [exact E|]. split.
    + apply He. split; [discriminate|]. exists 9%N. split; [|reflexivity].
      exists (mk_group [8; 0; 0; 0]%N 9). split; [right; right; left|split; reflexivity].
    + intros [Hn _]%He. apply Hn. reflexivity.
Defined.
