(* ===== verification/Probe.v ===== *)
(** * Hash tables with linear probing: include/adt/hash.h and its users

    The metadata tables of the library (end ids, eager outputs, id maps,
    capture actions) and those of the determiniser are arrays of a power-of-two
    size, probed linearly from the hash of the key. This file has the hash
    functions and the lemmas on probing they share, over any type of keys with a
    hash ([Hashed]). A bucket is [None] when it is empty. *)

From S2P Require Import Prelude.

(** ** The hash function *)

Definition hash_id (id : N) : N :=
  let x := (id +64 1)%cint in
  let x := N.lxor x (N.shiftr x 12) in
  let x := N.lxor x (u64 (N.shiftl x 25)) in
  let x := N.lxor x (N.shiftr x 27) in
  (x *64 2685821657736338717)%cint.

Definition hash_ids (ids : list N) : N :=
  foldl (λ h id, hash_id (N.lxor h id)) 0%N ids.

(** What a table needs of its keys. *)
Class Hashed (K : Type) := hash_key : K → N.

#[export] Instance hashed_id : Hashed N := hash_id.

(** ** Probing *)

Section Probe.
Context {K : Type} `{!EqDecision K, !Hashed K} {V : Type}.

Abbreviation table := (list (option (K * V))).

(** The index [(hash + i) & mask] of the [i]-th probe. *)
Definition slot (t : table) (key : K) (i : nat) : nat :=
  let mask := (N.of_nat (length t) - 1)%N in
  N.to_nat (N.land (hash_key key +64 N.of_nat i)%cint mask).

(** The loop over probes: the first bucket that has the key or is empty. *)
Fixpoint probe_loop (n i : nat) (t : table) (key : K) : option (nat * option V) :=
  match n with
  | 0 => None
  | S n =>
      match t !! slot t key i with
      | Some (Some (k, v)) =>
          if bool_decide (k = key) then Some (slot t key i, Some v) else probe_loop n (i + 1) t key
      | Some None => Some (slot t key i, None)
      | None => None
      end
  end.

Definition probe (t : table) (key : K) : option (nat * option V) :=
  probe_loop (length t) 0 t key.

Definition table_get (t : table) (key : K) : option V :=
  match probe t key with Some (_, o) => o | None => None end.

(** The loop that moves an entry to a table where its key is not: the first
    empty bucket. *)
Fixpoint place_loop (n i : nat) (t : table) (key : K) : option nat :=
  match n with
  | 0 => None
  | S n =>
      match t !! slot t key i with
      | Some None => Some (slot t key i)
      | _ => place_loop n (i + 1) t key
      end
  end.

Definition place (t : table) (key : K) (v : V) : option table :=
  j ← place_loop (length t) 0 t key; Some (<[j := Some (key, v)]> t).

(** Moving every entry of [old] whose key [f] keeps to an empty table of [n]
    buckets; [None] where an entry finds no bucket. *)
Definition rehash_step (f : K → option K) (acc : option table) (b : option (K * V)) : option table :=
  t ← acc;
  match b with
  | None => Some t
  | Some (k, v) => match f k with None => Some t | Some k' => place t k' v end
  end.

Definition rehash (f : K → option K) (n : nat) (old : table) : option table :=
  foldl (rehash_step f) (Some (replicate n None)) old.

(** The entries of a table, in the order of the buckets. *)
Definition entries (t : table) : list (K * V) := omap id t.

(** ** Invariant *)

Definition other (t : table) (key : K) (i : nat) : Prop :=
  ∃ k v, t !! slot t key i = Some (Some (k, v)) ∧ k ≠ key.

(** The size is a power of two. *)
Definition pow2_size (t : table) : Prop := ∃ m, m ≤ 32 ∧ length t = 2 ^ m.

(** Every entry is found before any empty bucket. *)
Definition table_ok (t : table) : Prop :=
  pow2_size t ∧
  ∀ j k v, t !! j = Some (Some (k, v)) →
    ∃ d, d < length t ∧ slot t k d = j ∧ ∀ i, i < d → other t k i.

(** ** Lemmas *)

Lemma slot_mod t key i m :
  m ≤ 32 → length t = 2 ^ m →
  slot t key i = (N.to_nat (hash_key key mod 2 ^ N.of_nat m) + i) mod length t.
Proof.
  intros Hm Hl. unfold slot. rewrite Hl.
  assert (N.of_nat (2 ^ m) = 2 ^ N.of_nat m)%N as E.
  { change 2%N with (N.of_nat 2). by rewrite <-Nat2N.inj_pow. }
  rewrite E, <-N.pred_sub, <-N.ones_equiv, N.land_ones. unfold u64.
  assert (18446744073709551616 = 2 ^ N.of_nat m * 2 ^ (64 - N.of_nat m))%N as ->.
  { rewrite <-N.pow_add_r. replace (N.of_nat m + (64 - N.of_nat m))%N with 64%N by lia. done. }
  assert (2 ^ N.of_nat m ≠ 0)%N by (by apply N.pow_nonzero).
  rewrite N.Div0.mod_mul_r, N.mul_comm, N.Div0.mod_add, N.Div0.mod_mod.
  rewrite <-N.Div0.add_mod_idemp_l. rewrite <-E.
  rewrite N2Nat.inj_mod, N2Nat.inj_add, !Nat2N.id. done.
Qed.

Lemma slot_in t key i : pow2_size t → slot t key i < length t.
Proof.
  intros (m & Hm & Hl). rewrite (slot_mod _ _ _ m) by done. apply Nat.mod_upper_bound.
  rewrite Hl. by apply Nat.pow_nonzero.
Qed.

Lemma slot_lt t key i : table_ok t → slot t key i < length t.
Proof. intros [Hp _]. by apply slot_in. Qed.

Lemma slot_onto t key j : pow2_size t → j < length t → ∃ i, i < length t ∧ slot t key i = j.
Proof.
  intros (m & Hm & Hl) Hj. set (n := length t) in *.
  set (s := N.to_nat (hash_key key mod 2 ^ N.of_nat m)).
  assert (n ≠ 0) as Hn by lia. pose proof (Nat.mod_upper_bound s n Hn) as Hs.
  exists ((j + (n - s mod n)) mod n). split; [by apply Nat.mod_upper_bound|].
  rewrite (slot_mod _ _ _ m) by done. fold s n.
  rewrite Nat.Div0.add_mod_idemp_r, <-Nat.Div0.add_mod_idemp_l.
  replace (s mod n + (j + (n - s mod n))) with (j + 1 * n) by lia.
  rewrite Nat.Div0.mod_add. by apply Nat.mod_small.
Qed.

Lemma slot_surj t key j : table_ok t → j < length t → ∃ i, i < length t ∧ slot t key i = j.
Proof. intros [Hp _]. by apply slot_onto. Qed.

Lemma slot_length t t' key i : length t = length t' → slot t key i = slot t' key i.
Proof. unfold slot. by intros ->. Qed.

Lemma probe_loop_spec t key n : ∀ i,
  table_ok t → i + n = length t → (∀ i', i' < i → other t key i') →
  match probe_loop n i t key with
  | Some (j, o) => ∃ d, d < length t ∧ slot t key d = j ∧ (∀ i', i' < d → other t key i') ∧
      t !! j = Some ((λ v, (key, v)) <$> o)
  | None => ∀ d, d < length t → other t key d
  end.
Proof.
  induction n as [|n IH]; intros i Hok Hn Ho; cbn [probe_loop].
  { intros d Hd. apply Ho. lia. }
  destruct (lookup_lt_is_Some_2 t (slot t key i)) as [b Hb]; [by apply slot_lt|]. rewrite Hb.
  destruct b as [[k v]|].
  - case_bool_decide.
    + subst k. exists i. split_and!; [lia|done|done|done].
    + apply IH; [done|lia|]. intros i' Hi'. destruct (decide (i' = i)) as [->|]; [exists k, v; done|]. apply Ho. lia.
  - exists i. split_and!; [lia|done|done|done].
Qed.

Lemma probe_spec t key :
  table_ok t →
  match probe t key with
  | Some (j, o) => ∃ d, d < length t ∧ slot t key d = j ∧ (∀ i', i' < d → other t key i') ∧
      t !! j = Some ((λ v, (key, v)) <$> o)
  | None => ∀ d, d < length t → other t key d
  end.
Proof. intros Hok. apply probe_loop_spec; [done|lia|lia]. Qed.

Lemma path_unique t key d d' v j o :
  (∀ i, i < d → other t key i) → t !! slot t key d = Some (Some (key, v)) →
  (∀ i, i < d' → other t key i) → slot t key d' = j → t !! j = Some ((λ v, (key, v)) <$> o) →
  j = slot t key d ∧ o = Some v.
Proof.
  intros H1 H2 H3 <- H4. destruct (Nat.lt_trichotomy d d') as [Hlt|[->|Hlt]].
  - destruct (H3 d Hlt) as (k & v' & H5 & H6). simplify_eq.
  - split; [done|]. rewrite H2 in H4. destruct o; simplify_eq/=. done.
  - destruct (H1 d' Hlt) as (k & v' & H5 & H6). rewrite H4 in H5. destruct o; simplify_eq/=.
Qed.

(** Probing finds the entry of a key that has one. *)
Lemma probe_found t key j v :
  table_ok t → t !! j = Some (Some (key, v)) → probe t key = Some (j, Some v).
Proof.
  intros Hok Hj. pose proof (probe_spec t key Hok) as Hp. pose proof Hok as [_ Hpath].
  destruct (Hpath j key v Hj) as (d & Hd & Hs & Ho). subst j.
  destruct (probe t key) as [[j' o]|].
  - destruct Hp as (d' & Hd' & Hs' & Ho' & Hj').
    destruct (path_unique t key d d' v j' o) as [-> ->]; done.
  - destruct (Hp d Hd) as (k & v' & H1 & H2). simplify_eq.
Qed.

Lemma table_get_spec t key v : table_ok t → table_get t key = Some v ↔ Some (key, v) ∈ t.
Proof.
  intros Hok. unfold table_get. split.
  - pose proof (probe_spec t key Hok) as Hp. destruct (probe t key) as [[j o]|]; [|done].
    intros ->. destruct Hp as (_ & _ & _ & _ & Hj). apply list_elem_of_lookup. eauto.
  - intros [j Hj]%list_elem_of_lookup. by rewrite (probe_found _ _ _ _ Hok Hj).
Qed.

(** The keys of a table are distinct. *)
Lemma table_key_unique t key v v' i j :
  table_ok t → t !! i = Some (Some (key, v)) → t !! j = Some (Some (key, v')) → i = j.
Proof.
  intros Hok Hi Hj. pose proof (probe_found _ _ _ _ Hok Hi) as E.
  rewrite (probe_found _ _ _ _ Hok Hj) in E. by injection E.
Qed.

Lemma probe_fresh t key j v : table_ok t → probe t key = Some (j, None) → Some (key, v) ∉ t.
Proof.
  intros Hok Hp [i Hi]%list_elem_of_lookup. rewrite (probe_found _ _ _ _ Hok Hi) in Hp. done.
Qed.

(** With an empty bucket, probing always ends at a bucket. *)
Lemma probe_total t key i : table_ok t → t !! i = Some None → is_Some (probe t key).
Proof.
  intros Hok Hi. pose proof (probe_spec t key Hok) as Hp. destruct (probe t key); [eauto|].
  destruct (slot_surj t key i Hok) as (d & Hd & Hs); [by apply lookup_lt_Some in Hi|].
  destruct (Hp d Hd) as (k & v & H1 & _). rewrite Hs, Hi in H1. done.
Qed.

Lemma other_insert t key d j b k v :
  other t key d → j < length t → (b = Some (k, v) ∧ (slot t key d = j → k ≠ key)) →
  other (<[j := b]> t) key d.
Proof.
  intros (k' & v' & H1 & H2) Hj [-> Hk].
  assert (slot (<[j := Some (k, v)]> t) key d = slot t key d) as E
    by (apply slot_length; by rewrite length_insert).
  unfold other. rewrite E. destruct (decide (j = slot t key d)) as [->|].
  - exists k, v. rewrite list_lookup_insert_eq by done. auto.
  - exists k', v'. by rewrite list_lookup_insert_ne.
Qed.

(** Storing a value in the bucket that probing found. *)
Lemma table_ok_insert t key j o v :
  table_ok t → probe t key = Some (j, o) → table_ok (<[j := Some (key, v)]> t).
Proof.
  intros Hok Hp. pose proof (probe_spec t key Hok) as Hs. rewrite Hp in Hs.
  destruct Hs as (d & Hd & Hsl & Ho & Hj). pose proof Hok as [Hsize Hpath].
  assert (j < length t) as Hjl by (by apply lookup_lt_Some in Hj).
  split; [unfold pow2_size; by rewrite length_insert|]. intros j' k v' Hj'. rewrite length_insert.
  assert (∀ k i, slot (<[j := Some (key, v)]> t) k i = slot t k i) as E
    by (intros; apply slot_length; by rewrite length_insert).
  setoid_rewrite E.
  assert (∀ d', (∀ i, i < d' → other t k i) → (∀ i, i < d' → slot t k i = j → key ≠ k) →
    ∀ i, i < d' → other (<[j := Some (key, v)]> t) k i) as Hoth.
  { intros d' H1 H2 i Hi. eapply other_insert; eauto. }
  destruct (decide (j' = j)) as [->|Hne].
  - rewrite list_lookup_insert_eq in Hj' by done. simplify_eq. exists d. split_and!; [done|done|].
    apply Hoth; [done|]. intros i Hi Hi'. destruct (Ho i Hi) as (k' & v'' & H1 & H2).
    rewrite Hi', Hj in H1. by destruct o; simplify_eq/=.
  - rewrite list_lookup_insert_ne in Hj' by done. destruct (Hpath j' k v' Hj') as (d' & Hd' & Hs' & Ho').
    exists d'. split_and!; [done|done|]. apply Hoth; [done|]. intros i Hi Hi' ->.
    destruct (Ho' i Hi) as (k' & v'' & H1 & H2). rewrite Hi', Hj in H1. destruct o as [v0|]; simplify_eq/=.
Qed.

Lemma elem_of_insert_slot t key j o v k' v' :
  table_ok t → probe t key = Some (j, o) →
  Some (k', v') ∈ <[j := Some (key, v)]> t ↔
  (k' = key ∧ v' = v) ∨ (k' ≠ key ∧ Some (k', v') ∈ t).
Proof.
  intros Hok Hp. pose proof (probe_spec t key Hok) as Hs. rewrite Hp in Hs.
  destruct Hs as (_ & _ & _ & _ & Hj). assert (j < length t) as Hjl by (by apply lookup_lt_Some in Hj).
  split.
  - intros [i Hi]%list_elem_of_lookup. destruct (decide (i = j)) as [->|Hne].
    + rewrite list_lookup_insert_eq in Hi by done. simplify_eq. by left.
    + rewrite list_lookup_insert_ne in Hi by done. right. split; [|apply list_elem_of_lookup; eauto].
      intros ->. pose proof (probe_found _ _ _ _ Hok Hi) as E. rewrite Hp in E. by injection E as -> ->.
  - intros [[-> ->]|[Hne [i Hi]%list_elem_of_lookup]]; apply list_elem_of_lookup.
    + exists j. by apply list_lookup_insert_eq.
    + exists i. rewrite list_lookup_insert_ne; [done|]. intros ->. rewrite Hj in Hi.
      destruct o; simplify_eq/=.
Qed.

Lemma entries_cons b (t : table) :
  entries (b :: t) = match b with Some kv => kv :: entries t | None => entries t end.
Proof. by destruct b. Qed.

Lemma elem_of_entries t kv : kv ∈ entries t ↔ Some kv ∈ t.
Proof.
  unfold entries. rewrite list_elem_of_omap. split; [|naive_solver].
  intros ([?|] & ? & ?); simplify_eq/=; done.
Qed.

Lemma NoDup_keys t : table_ok t → NoDup (entries t).*1.
Proof.
  intros Hok.
  assert (∀ i j k v v', t !! i = Some (Some (k, v)) → t !! j = Some (Some (k, v')) → i = j) as Hu
    by (intros; by eapply table_key_unique).
  clear Hok. induction t as [|b t IH]; [constructor|].
  assert (NoDup (entries t).*1) as Hnd.
  { apply IH. intros i j k v v' Hi Hj. specialize (Hu (S i) (S j) k v v' Hi Hj). lia. }
  rewrite entries_cons. destruct b as [[k v]|]; [|done]. rewrite fmap_cons. constructor; [|done].
  simpl. intros ([k' v'] & Heq & Hin)%list_elem_of_fmap. simpl in Heq. subst k. apply elem_of_entries, list_elem_of_lookup in Hin as [i Hi].
  specialize (Hu 0 (S i) k' v v' eq_refl Hi). lia.
Qed.

Lemma length_entries_le t : length (entries t) ≤ length t.
Proof. induction t as [|b t IH]; [done|]. rewrite entries_cons. destruct b; simpl; lia. Qed.

Definition occupied (b : option (K * V)) : nat := match b with Some _ => 1 | None => 0 end.

Lemma length_entries_insert (t : table) j b c :
  t !! j = Some c →
  length (entries (<[j := b]> t)) + occupied c = length (entries t) + occupied b.
Proof.
  revert j; induction t as [|c' t IH]; intros [|j] Hj; [done|done| |].
  - change (<[0 := b]> (c' :: t)) with (b :: t). injection Hj as ->. rewrite !entries_cons. destruct b, c; simpl; lia.
  - change (<[S j := b]> (c' :: t)) with (c' :: <[j := b]> t). specialize (IH j Hj).
    rewrite !entries_cons. destruct c'; simpl; lia.
Qed.

Lemma entries_empty_slot (t : table) : length (entries t) < length t → ∃ i, t !! i = Some None.
Proof.
  induction t as [|b t IH]; [simpl; lia|]. rewrite entries_cons. destruct b as [kv|]; [|by exists 0].
  simpl. intros Hl. destruct IH as [i Hi]; [lia|]. by exists (S i).
Qed.

Lemma table_ok_empty m : m ≤ 32 → table_ok (replicate (2 ^ m) (@None (K * V))).
Proof.
  intros Hm. split; [exists m; by rewrite length_replicate|].
  intros j k v [[=] _]%lookup_replicate.
Qed.

Lemma entries_replicate n : entries (replicate n (@None (K * V))) = [].
Proof. induction n; done. Qed.

(** Where the key is not in the table, the first empty bucket is the one that
    probing finds. *)
Lemma place_loop_probe t key n : ∀ i,
  (∀ v, Some (key, v) ∉ t) → table_ok t →
  place_loop n i t key = match probe_loop n i t key with Some (j, _) => Some j | None => None end.
Proof.
  induction n as [|n IH]; intros i Hno Hok; cbn [place_loop probe_loop]; [done|].
  destruct (lookup_lt_is_Some_2 t (slot t key i)) as [b Hb]; [by apply slot_lt|]. rewrite Hb.
  destruct b as [[k v]|]; [|done]. case_bool_decide; [|by apply IH]. subst k.
  destruct (Hno v). apply list_elem_of_lookup. eauto.
Qed.

Lemma place_spec t key v :
  table_ok t → (∀ v, Some (key, v) ∉ t) → length (entries t) < length t →
  ∃ t', place t key v = Some t' ∧ table_ok t' ∧ length t' = length t ∧
    length (entries t') = S (length (entries t)) ∧
    ∀ k' v', Some (k', v') ∈ t' ↔ (k' = key ∧ v' = v) ∨ Some (k', v') ∈ t.
Proof.
  intros Hok Hno Hl. destruct (entries_empty_slot t Hl) as [i Hi].
  destruct (probe_total t key i Hok Hi) as [[j o] Hp]. pose proof (probe_spec t key Hok) as Hs.
  rewrite Hp in Hs. destruct Hs as (_ & _ & _ & _ & Hj).
  destruct o as [v0|]; [destruct (Hno v0); apply list_elem_of_lookup; eauto|].
  unfold place. rewrite place_loop_probe by done. unfold probe in Hp. rewrite Hp.
  exists (<[j := Some (key, v)]> t). split; [done|]. split; [by eapply table_ok_insert|].
  split; [by rewrite length_insert|]. split.
  - pose proof (length_entries_insert t j (Some (key, v)) _ Hj) as H. simpl in H. lia.
  - intros k' v'. rewrite (elem_of_insert_slot t key j None) by done. split; [tauto|].
    intros [?|Hin]; [by left|]. right. split; [|done]. intros ->. by destruct (Hno v').
Qed.

(** Moving the entries of a table: the new table has exactly the entries whose
    key is kept, under the new key. *)
Lemma rehash_spec f n m (old : table) :
  m ≤ 32 → n = 2 ^ m → length (entries old) ≤ n → NoDup (entries old).*1 →
  (∀ k1 k2 k', k1 ∈ (entries old).*1 → k2 ∈ (entries old).*1 → f k1 = Some k' → f k2 = Some k' → k1 = k2) →
  ∃ t, rehash f n old = Some t ∧ table_ok t ∧ length t = n ∧
    length (entries t) = length (filter (λ kv, is_Some (f kv.1)) (entries old)) ∧
    ∀ k' v, Some (k', v) ∈ t ↔ ∃ k, Some (k, v) ∈ old ∧ f k = Some k'.
Proof.
  intros Hm ->. unfold rehash. induction old as [|b old IH] using rev_ind; intros Hl Hnd Hinj.
  { exists (replicate (2 ^ m) None). cbn [foldl]. split_and!; [done|by apply table_ok_empty|by rewrite length_replicate| |].
    - by rewrite entries_replicate.
    - intros k' v. split; [intros [[=] _]%elem_of_replicate|]. by intros (k & ?%not_elem_of_nil & _). }
  assert (entries (old ++ [b]) = entries old ++ entries [b]) as E by apply omap_app.
  rewrite E, ?fmap_app, ?length_app in *.
  destruct IH as (t & Ht & Hok & Hlen & Hcount & Hin); [lia|by apply NoDup_app in Hnd as (? & _ & _)| |].
  { intros k1 k2 k' H1 H2. apply Hinj; apply elem_of_app; by left. }
  rewrite foldl_app, Ht. cbn [foldl rehash_step mbind option_bind].
  assert (∀ k v, Some (k, v) ∈ old ++ [b] ↔ Some (k, v) ∈ old ∨ Some (k, v) = b) as Hel.
  { intros. by rewrite elem_of_app, list_elem_of_singleton. }
  rewrite filter_app, length_app. destruct b as [[k v]|].
  2:{ exists t. split_and!; [done|done|done|cbn; rewrite Hcount; lia|].
      intros k' v'. rewrite Hin. setoid_rewrite Hel. naive_solver. }
  cbn [entries omap list_omap id] in *. rewrite filter_cons, filter_nil. cbn [fst].
  destruct (f k) as [k'|] eqn:Ef.
  2:{ exists t. rewrite decide_False by (intros [? ?]; congruence). split_and!; [done|done|done|cbn; rewrite Hcount; lia|].
      intros k' v'. rewrite Hin. setoid_rewrite Hel. split; [naive_solver|].
      intros (k0 & [?|[= -> ->]] & ?); [eauto|congruence]. }
  rewrite decide_True by eauto.
  destruct (place_spec t k' v Hok) as (t' & Ht' & Hok' & Hlen' & Hcount' & Hin').
  - intros v' (k0 & Hk0 & Hf0)%Hin. assert (k0 = k) as ->.
    { apply (Hinj k0 k k'); [|apply elem_of_app; right; left|done|done].
      apply elem_of_app. left. apply list_elem_of_fmap. exists (k0, v'). split; [done|]. by apply elem_of_entries. }
    apply NoDup_app in Hnd as (_ & Hnd & _). apply (Hnd k); [|left].
    apply list_elem_of_fmap. exists (k, v'). split; [done|]. by apply elem_of_entries.
  - rewrite Hlen, Hcount. pose proof (length_filter (λ kv, is_Some (f kv.1)) (entries old)). simpl in Hl. lia.
  - exists t'. split_and!; [done|done|congruence|rewrite Hcount', Hcount; simpl; lia|].
    intros k'' v''. rewrite Hin', Hin. setoid_rewrite Hel. split.
    + intros [[-> ->]|(k0 & ? & ?)]; [|by eauto]. exists k. eauto.
    + intros (k0 & [?|[= -> ->]] & ?); [right; eauto|]. left. split; congruence.
Qed.
End Probe.
