(* ===== verification/Endids.v ===== *)
(** * End ids: src/libfsm/endids.c

    A hash table from end states to sorted arrays of ids, kept beside the
    states. The functions take a [struct fsm *] but use only its [endid_info]
    and its allocator, which are the arguments here. A bucket whose state is
    [BUCKET_NO_STATE] is [None], also one that was given to that state: it stays
    marked empty. The counts are 32-bit numbers in the code, and wrap where it
    computes with them. [None] as a result means that an assertion fails, that
    memory is read that was not written, or that a loop does not end. *)

From S2P Require Import Prelude StateSet Probe.

Definition DEF_BUCKET_COUNT : nat := 4.
Definition DEF_BUCKET_ID_COUNT : nat := 16.
Definition BUCKET_NO_STATE : N := 4294967295.

(** [count] is the length of [eii_ids]. *)
Record end_info_ids := mk_ids { eii_ids : list N; eii_ceil : nat }.

Abbreviation endid_buckets := (list (option (N * end_info_ids))).

(** [bucket_count] is the length of [ei_buckets]. *)
Record endid_info := mk_endid_info { ei_buckets : endid_buckets; ei_buckets_used : nat }.

Section Ops.
Context `{allocator}.

(** ** Initialisation and growth *)

Definition fsm_endid_init (al : fsm_alloc) : option endid_info :=
  if f_malloc al 16 then
    if f_malloc al (N.of_nat DEF_BUCKET_COUNT * 16) then
      Some (mk_endid_info (replicate DEF_BUCKET_COUNT None) 0)
    else None
  else None.

Definition grow_endid_buckets (al : fsm_alloc) (info : endid_info) : option (bool * endid_info) :=
  let new_count := u32n (2 * length (ei_buckets info)) in
  if new_count <=? length (ei_buckets info) then None
  else if f_malloc al (N.of_nat new_count * 16) then
    new_buckets ← rehash Some new_count (ei_buckets info);
    let new_used := length (entries (ei_buckets info)) in
    if new_used =? ei_buckets_used info then
      Some (true, mk_endid_info new_buckets (ei_buckets_used info))
    else None
  else Some (false, info).

(** The bucket of a state, by its index, or [None] for NULL. When the bucket
    found is empty and half of the table is used, the table grows and the
    search starts again; not for [BUCKET_NO_STATE], which an empty bucket
    matches. *)
Definition endid_find_bucket (al : fsm_alloc) (ei : endid_info) (state : N)
    : option (option nat * endid_info) :=
  '(b, found) ← probe (ei_buckets ei) state;
  match found with
  | Some _ => Some (Some b, ei)
  | None =>
      if (state =? BUCKET_NO_STATE)%N then Some (Some b, ei)
      else if ei_buckets_used ei =? length (ei_buckets ei) / 2 then
        '(ok, ei) ← grow_endid_buckets al ei;
        if (ok : bool) then
          '(b, found) ← probe (ei_buckets ei) state;
          match found with
          | Some _ => Some (Some b, ei)
          | None =>
              if ei_buckets_used ei =? length (ei_buckets ei) / 2 then None
              else Some (Some b, ei)
          end
        else Some (None, ei)
      else Some (Some b, ei)
  end.

(** ** Ids of a state *)

(** The binary search on [ptrdiff_t] bounds. *)
Fixpoint bisect_loop (fuel : nat) (itm : N) (ids : list N) (lo hi : Z) : Z :=
  match fuel with
  | 0 => lo
  | S fuel =>
      if (lo <=? hi)%Z then
        let mid := ((lo + hi) ÷ 2)%Z in
        let x := ids !!! Z.to_nat mid in
        if (itm =? x)%N then mid
        else
          let hi := if (itm <? x)%N then (mid - 1)%Z else hi in
          let lo := if (x <? itm)%N then (mid + 1)%Z else lo in
          bisect_loop fuel itm ids lo hi
      else lo
  end.

Definition bisect_left_sorted_ids (itm : N) (ids : list N) : nat :=
  let n := length ids in
  if n =? 0 then 0
  else if N.ltb itm (ids !!! 0) then 0
  else if N.ltb (ids !!! (n - 1)) itm then n
  else Z.to_nat (bisect_loop (S n) itm ids 0 (Z.of_nat n - 1)).

Definition allocate_ids (al : fsm_alloc) (n : nat) : bool :=
  f_realloc al (12 + (N.of_nat n - 1) * 4).

(** Room for one more id: [2*b->ids->ceil] is computed in 32 bits. *)
Definition ids_grow (al : fsm_alloc) (e : end_info_ids) : option (bool * end_info_ids) :=
  if length (eii_ids e) =? eii_ceil e then
    let nceil := u32n (2 * eii_ceil e) in
    if nceil <=? eii_ceil e then None
    else Some (if allocate_ids al nceil then (true, mk_ids (eii_ids e) nceil) else (false, e))
  else Some (true, e).

(** Adding an id to the array of a state. *)
Definition ids_add (al : fsm_alloc) (e : end_info_ids) (id : N) : option (bool * end_info_ids) :=
  '(ok, e) ← ids_grow al e;
  Some (if (ok : bool) then
    let ids := eii_ids e in
    let ind := bisect_left_sorted_ids id ids in
    if ind =? length ids then (true, mk_ids (ids ++ [id]) (eii_ceil e))
    else if N.eqb (ids !!! ind) id then (true, e)
    else (true, mk_ids (insert_at ind id ids) (eii_ceil e))
  else (false, e)).

(** What a bucket holds once it is given to a state. *)
Definition endid_bucket (state : N) (e : end_info_ids) : option (N * end_info_ids) :=
  if (state =? BUCKET_NO_STATE)%N then None else Some (state, e).

Definition fsm_endid_set (al : fsm_alloc) (ei : endid_info) (state id : N)
    : option (bool * endid_info) :=
  '(b, ei) ← endid_find_bucket al ei state;
  match b with
  | None => Some (false, ei)
  | Some i =>
      match ei_buckets ei !! i with
      | Some None =>
          if allocate_ids al DEF_BUCKET_ID_COUNT then
            Some (true, mk_endid_info
              (<[i := endid_bucket state (mk_ids [id] DEF_BUCKET_ID_COUNT)]> (ei_buckets ei))
              (ei_buckets_used ei + 1))
          else Some (false, ei)
      | Some (Some (s, e)) =>
          if (s =? state)%N then
            '(ok, e) ← ids_add al e id;
            Some (ok, mk_endid_info (<[i := Some (s, e)]> (ei_buckets ei)) (ei_buckets_used ei))
          else None
      | None => None
      end
  end.

Inductive fsm_endid_bulk_op := FSM_ENDID_BULK_REPLACE | FSM_ENDID_BULK_APPEND.

(** [while (c < target && c <= SIZE_MAX/2) c *= 2] *)
Fixpoint double_until (fuel : nat) (c target : nat) : nat :=
  match fuel with
  | 0 => c
  | S fuel =>
      if (c <? target) && (N.of_nat c <=? 9223372036854775807)%N then double_until fuel (c * 2) target
      else c
  end.

(** Sort and remove duplicates. The loop starts from [j = 1], so an empty
    array gets a count of one and the id [stale] that the memory of the first
    element holds; [None] when that was never written. *)
Definition sort_ids (stale : option N) (ids : list N) (ceil : nat) : option end_info_ids :=
  match ids with
  | [] => id ← stale; Some (mk_ids [id] ceil)
  | _ => Some (mk_ids (dedup_inplace (qsort_N ids)) ceil)
  end.

(** [ceil] and [count] are stored in 32 bits; a [ceil] that wraps to 0 is
    doubled without end. *)
Definition fsm_endid_set_bulk (al : fsm_alloc) (ei : endid_info) (state : N) (ids : list N)
    (op : fsm_endid_bulk_op) : option (bool * endid_info) :=
  '(b, ei) ← endid_find_bucket al ei state;
  match b with
  | None => Some (false, ei)
  | Some i =>
      match ei_buckets ei !! i with
      | Some (Some (s, e)) =>
          if (s =? state)%N then
            let prev := match op with FSM_ENDID_BULK_REPLACE => [] | FSM_ENDID_BULK_APPEND => eii_ids e end in
            let total_count := length ids + length prev in
            if eii_ceil e <? total_count then
              let twice := u32n (2 * eii_ceil e) in
              let new_ceil := double_until total_count twice total_count in
              if twice =? 0 then None
              else if new_ceil <? total_count then Some (false, ei)
              else if allocate_ids al new_ceil then
                if u32n new_ceil <? total_count then None
                else
                  e ← sort_ids (eii_ids e !! 0) (prev ++ ids) (u32n new_ceil);
                  Some (true, mk_endid_info (<[i := Some (s, e)]> (ei_buckets ei)) (ei_buckets_used ei))
              else Some (false, ei)
            else
              e ← sort_ids (eii_ids e !! 0) (prev ++ ids) (eii_ceil e);
              Some (true, mk_endid_info (<[i := Some (s, e)]> (ei_buckets ei)) (ei_buckets_used ei))
          else None
      | Some None =>
          if (state =? BUCKET_NO_STATE)%N then None
          else
            let n := double_until (length ids) DEF_BUCKET_ID_COUNT (length ids) in
            if n <? length ids then Some (false, ei)
            else if allocate_ids al n then
              e ← sort_ids (ids !! 0) (take (u32n (length ids)) ids) (u32n n);
              Some (true, mk_endid_info (<[i := Some (state, e)]> (ei_buckets ei)) (ei_buckets_used ei + 1))
            else Some (false, ei)
      | None => None
      end
  end.

(** ** Reading *)

(** [None] where the search runs over a full table. *)
Definition fsm_endid_count (ei : endid_info) (state : N) : option nat :=
  '(_, found) ← probe (ei_buckets ei) state;
  Some (match found with Some e => length (eii_ids e) | None => 0 end).

(** The result and the part of the caller's array that is written. *)
Definition fsm_endid_get (ei : endid_info) (end_state : N) (count : nat) : option (bool * list N) :=
  '(_, found) ← probe (ei_buckets ei) end_state;
  match found with
  | None => Some (true, [])
  | Some e =>
      if count <? length (eii_ids e) then Some (false, [])
      else Some (true, qsort_N (eii_ids e))
  end.

(** The calls of the callback: [fsm_endid_iter_state] for one state,
    [fsm_endid_iter] for all. A callback returns [false] to stop. *)
Fixpoint iter_ids {E} (cb : N → N → E → bool * E) (state : N) (ids : list N) (env : E) : bool * E :=
  match ids with
  | [] => (true, env)
  | id :: ids =>
      let '(ok, env) := cb state id env in
      if ok then iter_ids cb state ids env else (false, env)
  end.

Definition fsm_endid_iter_state {E} (ei : endid_info) (state : N) (cb : N → N → E → bool * E) (env : E) : option E :=
  if (state =? BUCKET_NO_STATE)%N then None
  else Some match probe (ei_buckets ei) state with
    | Some (_, Some e) => (iter_ids cb state (eii_ids e) env).2
    | _ => env
    end.

(** A [break] in the inner loop goes on to the next bucket. *)
Definition fsm_endid_iter {E} (ei : endid_info) (cb : N → N → E → bool * E) (env : E) : E :=
  foldl (λ env b, match b with
    | None => env
    | Some (s, e) => (iter_ids cb s (eii_ids e) env).2
    end) env (ei_buckets ei).

Fixpoint iter_bulk_loop {E} (bs : endid_buckets) (cb : N → list N → E → bool * E) (env : E) : bool * E :=
  match bs with
  | [] => (true, env)
  | None :: bs => iter_bulk_loop bs cb env
  | Some (s, e) :: bs =>
      let '(ok, env) := cb s (eii_ids e) env in
      if ok then iter_bulk_loop bs cb env else (false, env)
  end.

Definition fsm_endid_iter_bulk {E} (ei : endid_info) (cb : N → list N → E → bool * E) (env : E) : bool * E :=
  iter_bulk_loop (ei_buckets ei) cb env.

(** ** Changing the ids of every state *)

(** [remap] returns its result and the ids it writes at the start of the
    array, no more than it was given. *)
Definition remap_bucket (remap : N → list N → bool * list N) (s : N) (e : end_info_ids)
    : bool * end_info_ids :=
  let '(ret, written) := remap s (eii_ids e) in
  let e := match written with
    | [] => e
    | [x] => mk_ids [x] (eii_ceil e)
    | _ => mk_ids (dedup_inplace (qsort_N written)) (eii_ceil e)
    end in
  (ret, e).

Fixpoint mapendids_loop (remap : N → list N → bool * list N) (bs : endid_buckets)
    : bool * endid_buckets :=
  match bs with
  | [] => (true, [])
  | None :: bs => let '(ok, bs) := mapendids_loop remap bs in (ok, None :: bs)
  | Some (s, e) :: bs =>
      let '(ret, e) := remap_bucket remap s e in
      if ret then let '(ok, bs) := mapendids_loop remap bs in (ok, Some (s, e) :: bs)
      else (false, Some (s, e) :: bs)
  end.

Definition fsm_mapendids (ei : endid_info) (remap : N → list N → bool * list N) : bool * endid_info :=
  let '(ok, bs) := mapendids_loop remap (ei_buckets ei) in
  (ok, mk_endid_info bs (ei_buckets_used ei)).

(** [endids[i] += delta], with an [int] delta converted to unsigned. *)
Definition incr_remap (delta : Z) (s : N) (ids : list N) : bool * list N :=
  (true, (λ id, Z.to_N ((Z.of_N id + delta) mod 4294967296)) <$> ids).

Definition fsm_increndids (ei : endid_info) (delta : Z) : endid_info :=
  if (delta =? 0)%Z then ei else (fsm_mapendids ei (incr_remap delta)).2.

(** The renumbering of states: [mapping] is the array, [None] of it out of
    range (an assertion). [buckets_used] is not changed. *)
Definition mapping_identity (mapping : list N) : bool :=
  bool_decide (mapping = N.of_nat <$> seq 0 (length mapping)).

Definition keep_key (mapping : list N) (k : N) : option N :=
  match mapping !! N.to_nat k with
  | Some n => if (n =? FSM_STATE_REMAP_NO_STATE)%N then None else Some n
  | None => None
  end.

Definition fsm_endid_compact (al : fsm_alloc) (ei : endid_info) (mapping : list N)
    : option (bool * endid_info) :=
  if mapping_identity mapping then Some (true, ei)
  else if f_malloc al (N.of_nat (length (ei_buckets ei)) * 16) then
    if forallb (λ kv, N.to_nat kv.1 <? length mapping) (entries (ei_buckets ei)) then
      nbuckets ← rehash (keep_key mapping) (length (ei_buckets ei)) (ei_buckets ei);
      Some (true, mk_endid_info nbuckets (ei_buckets_used ei))
    else None
  else Some (false, ei).
End Ops.

(** ** Meaning and invariant *)

(** The ids of a state. *)
Definition endids (ei : endid_info) (state : N) : list N :=
  match table_get (ei_buckets ei) state with Some e => eii_ids e | None => [] end.

(** Ids are 32-bit numbers. With those below [2^30] no array of distinct ids
    comes near the size at which [ceil] wraps when it is doubled. *)
Definition id_ok (x : N) : Prop := (x < 1073741824)%N.

Definition ids_wf (e : end_info_ids) : Prop :=
  increasing (eii_ids e) ∧ 0 < length (eii_ids e) ≤ eii_ceil e ∧ Forall id_ok (eii_ids e).

Definition endid_wf (ei : endid_info) : Prop :=
  table_ok (ei_buckets ei) ∧ 4 ≤ length (ei_buckets ei) ∧
  length (entries (ei_buckets ei)) = ei_buckets_used ei ∧
  ei_buckets_used ei ≤ length (ei_buckets ei) / 2 ∧
  (∀ k e, Some (k, e) ∈ ei_buckets ei → ids_wf e).

(** What renumbering keeps: it leaves [buckets_used] as it was, so the number
    of entries is only bounded by it. *)
Definition endid_weak (ei : endid_info) : Prop :=
  table_ok (ei_buckets ei) ∧ 4 ≤ length (ei_buckets ei) ∧
  length (entries (ei_buckets ei)) ≤ ei_buckets_used ei ≤ length (ei_buckets ei) / 2 ∧
  (∀ k e, Some (k, e) ∈ ei_buckets ei → ids_wf e).

Lemma endid_wf_weak ei : endid_wf ei → endid_weak ei.
Proof. intros (H1 & H2 & H3 & H4 & H5). split_and!; try done. lia. Qed.

Lemma endids_ok ei state x : endid_weak ei → x ∈ endids ei state → id_ok x.
Proof.
  intros (Hok & _ & _ & Hids). unfold endids. destruct (table_get (ei_buckets ei) state) as [e|] eqn:E; [|by intros ?%not_elem_of_nil].
  apply table_get_spec in E; [|done]. destruct (Hids _ _ E) as (_ & _ & Hall). rewrite Forall_forall in Hall. apply Hall.
Qed.

(** ** Lemmas: the binary search *)

Lemma bisect_loop_spec itm ids fuel : ∀ lo hi,
  increasing ids → (0 ≤ lo)%Z → (hi < Z.of_nat (length ids))%Z → (lo ≤ hi + 1)%Z →
  (hi - lo + 1 < Z.of_nat fuel)%Z →
  (∀ i k, ids !! i = Some k → (Z.of_nat i < lo)%Z → (k < itm)%N) →
  (∀ i k, ids !! i = Some k → (hi < Z.of_nat i)%Z → (itm < k)%N) →
  Z.to_nat (bisect_loop fuel itm ids lo hi) = lower_bound ids itm.
Proof.
  induction fuel as [|fuel IH]; intros lo hi Hs Hlo Hhi Hle Hf Hbelow Habove; [lia|].
  cbn [bisect_loop]. destruct (lo <=? hi)%Z eqn:E.
  2:{ apply Z.leb_gt in E. symmetry. apply lower_bound_unique; [lia| |].
      - intros i k Hi Hlt. apply (Hbelow i); [done|lia].
      - intros k Hk. apply Habove in Hk; lia. }
  apply Z.leb_le in E. set (mid := ((lo + hi) ÷ 2)%Z).
  assert (lo ≤ mid ≤ hi)%Z as Hmid.
  { unfold mid. rewrite Z.quot_div_nonneg by lia. pose proof (Z.div_mod (lo + hi) 2). 
    pose proof (Z.mod_pos_bound (lo + hi) 2). lia. }
  destruct (lookup_lt_is_Some_2 ids (Z.to_nat mid)) as [x Hx]; [lia|].
  rewrite (list_lookup_total_correct _ _ _ Hx).
  assert (∀ i k, ids !! i = Some k → i < Z.to_nat mid → (k < x)%N) as Hdn
    by (intros; by eapply (increasing_lookup _ _ (Z.to_nat mid))).
  assert (∀ i k, ids !! i = Some k → Z.to_nat mid < i → (x < k)%N) as Hup
    by (intros; by eapply (increasing_lookup _ (Z.to_nat mid))).
  destruct (itm =? x)%N eqn:E1; split_bool.
  - subst x. symmetry. apply lower_bound_unique; [lia|done|]. intros k Hk. simplify_eq. lia.
  - destruct (itm <? x)%N eqn:E2, (x <? itm)%N eqn:E3; split_bool; try lia.
    + apply IH; try done; try lia. intros i k Hi Hlt.
      destruct (decide (i = Z.to_nat mid)) as [->|]; [simplify_eq; lia|].
      assert (x < k)%N by (apply (Hup i); [done|lia]). lia.
    + apply IH; try done; try lia. intros i k Hi Hlt.
      destruct (decide (i = Z.to_nat mid)) as [->|]; [simplify_eq; lia|].
      assert (k < x)%N by (apply (Hdn i); [done|lia]). lia.
Qed.

Lemma bisect_left_spec itm ids :
  increasing ids → bisect_left_sorted_ids itm ids = lower_bound ids itm.
Proof.
  intros Hs. unfold bisect_left_sorted_ids. destruct ids as [|x0 ids0] eqn:E; [done|]. rewrite <-E in *.
  replace (length ids =? 0) with false by (by rewrite E).
  assert (ids !! 0 = Some x0) as H0 by (by rewrite E).
  assert (0 < length ids) as Hl by (rewrite E; simpl; lia).
  destruct (lookup_lt_is_Some_2 ids (length ids - 1)) as [y Hy]; [lia|].
  rewrite (list_lookup_total_correct _ _ _ H0), (list_lookup_total_correct _ _ _ Hy).
  destruct (itm <? x0)%N eqn:E1; split_bool.
  - symmetry. apply lower_bound_unique; [lia|lia|]. intros k Hk. simplify_eq. lia.
  - destruct (y <? itm)%N eqn:E2; split_bool.
    + symmetry. apply lower_bound_end; [|done]. intros k. rewrite last_lookup.
      replace (pred (length ids)) with (length ids - 1) by lia. by intros ?; simplify_eq.
    + apply bisect_loop_spec; try done; try lia.
      intros i k Hi Hlt. apply lookup_lt_Some in Hi. lia.
Qed.

(** ** Lemmas: adding an id *)

Section SetLemmas.
Context `{allocator}.

Lemma ids_few l : increasing l → Forall id_ok l → (N.of_nat (length l) ≤ 1073741824)%N.
Proof. intros Hs Hl. by apply increasing_length. Qed.

Lemma ids_grow_spec al e :
  ids_wf e → ∃ b e', ids_grow al e = Some (b, e') ∧
    (if b then eii_ids e' = eii_ids e ∧ length (eii_ids e) < eii_ceil e' else e' = e) ∧ (alloc_total → b = true).
Proof.
  intros (Hs & [Hpos Hceil] & Hids). pose proof (ids_few _ Hs Hids) as Hfew. unfold ids_grow.
  destruct (length (eii_ids e) =? eii_ceil e) eqn:E; split_bool; [|by eexists _, _; split; [done|]; split; [split; [done|lia]|]].
  rewrite u32n_small by lia. rewrite (proj2 (Nat.leb_gt _ _)) by lia. destruct (allocate_ids al _) eqn:Ea.
  - eexists _, _. split; [done|]. split; [|done]. split; [done|]. cbn. lia.
  - eexists _, _. split; [done|]. split; [done|]. intros Ht. unfold allocate_ids in Ea. by rewrite f_realloc_total in Ea.
Qed.

Lemma ids_add_spec al e id :
  ids_wf e → id_ok id → ∃ b e', ids_add al e id = Some (b, e') ∧
    (if b then ids_wf e' ∧ ∀ x, x ∈ eii_ids e' ↔ x ∈ eii_ids e ∨ x = id else e' = e) ∧ (alloc_total → b = true).
Proof.
  intros Hwf Hid. destruct (ids_grow_spec al e Hwf) as (ok & e1 & E1 & H1 & Ht). unfold ids_add. rewrite E1. cbn [mbind option_bind].
  destruct Hwf as (Hs & [Hpos Hceil] & Hok).
  destruct ok; [|by eexists _, _]. destruct H1 as [Hids Hc]. rewrite Hids, bisect_left_spec by done.
  assert (∀ x, x ∈ insert_at (lower_bound (eii_ids e) id) id (eii_ids e) → id_ok x) as Hall.
  { intros x [->|Hx]%elem_of_insert_at; [done|]. rewrite Forall_forall in Hok. by apply Hok. }
  rewrite <-Forall_forall in Hall.
  destruct (lower_bound (eii_ids e) id =? length (eii_ids e)) eqn:E2; split_bool.
  - eexists _, _. split; [done|]. split; [|done]. assert (id ∉ eii_ids e) as Hn.
    { intros Hin%(elem_of_lower_bound _ _ Hs). rewrite E2 in Hin. apply lookup_lt_Some in Hin. lia. }
    assert (eii_ids e ++ [id] = insert_at (lower_bound (eii_ids e) id) id (eii_ids e)) as ->.
    { unfold insert_at. rewrite E2, take_ge, drop_ge by done. done. }
    split.
    + split; [by apply increasing_insert_at|]. cbn [eii_ids eii_ceil]. rewrite length_insert_at by lia. split; [lia|done].
    + intros x. cbn [eii_ids]. rewrite elem_of_insert_at. tauto.
  - pose proof (lower_bound_le (eii_ids e) id).
    destruct (lookup_lt_is_Some_2 (eii_ids e) (lower_bound (eii_ids e) id)) as [x Hx]; [lia|].
    rewrite (list_lookup_total_correct _ _ _ Hx). destruct (x =? id)%N eqn:E3; split_bool; (eexists _, _; split; [done|]; split; [|done]).
    + subst x. rewrite Hids. split.
      * split; [by rewrite Hids|]. rewrite Hids. split; [lia|done].
      * intros x. split; [by left|]. intros [?| ->]; [done|]. apply list_elem_of_lookup. eauto.
    + assert (id ∉ eii_ids e) as Hn by (intros Hin%(elem_of_lower_bound _ _ Hs); congruence). split.
      * split; [by apply increasing_insert_at|]. cbn [eii_ids eii_ceil]. rewrite length_insert_at by lia. split; [lia|done].
      * intros y. cbn [eii_ids]. rewrite elem_of_insert_at. tauto.
Qed.

(** Growing keeps every entry. *)
Lemma grow_endid_buckets_spec al ei m :
  endid_wf ei → length (ei_buckets ei) = 2 ^ m → m < 31 →
  ∃ ok ei', grow_endid_buckets al ei = Some (ok, ei') ∧
    if ok then endid_wf ei' ∧ length (ei_buckets ei') = 2 * length (ei_buckets ei) ∧
      ei_buckets_used ei' = ei_buckets_used ei ∧
      (∀ k e, Some (k, e) ∈ ei_buckets ei' ↔ Some (k, e) ∈ ei_buckets ei)
    else ei' = ei ∧ ¬ alloc_total.
Proof.
  intros (Hok & H4 & Hent & Hhalf & Hids) Hl Hm. unfold grow_endid_buckets.
  assert (N.of_nat (2 * length (ei_buckets ei)) < 4294967296)%N as Hfit.
  { rewrite Hl, Nat2N.inj_mul, Nat2N.inj_pow. change (N.of_nat 2) with 2%N. rewrite <-N.pow_succ_r'.
    change 4294967296%N with (2 ^ 32)%N. apply N.pow_lt_mono_r; lia. }
  rewrite u32n_small by done. rewrite (proj2 (Nat.leb_gt _ _)) by lia.
  destruct (f_malloc _ _) eqn:Em; [|exists false, ei; split; [done|]; split; [done|]; intros ?; by rewrite f_malloc_total in Em].
  destruct (rehash_spec Some (2 * length (ei_buckets ei)) (S m) (ei_buckets ei))
    as (t & Ht & Htok & Htl & Hte & Htin); [lia|rewrite Hl; simpl; lia| |by apply NoDup_keys|intros; congruence|].
  { pose proof (length_entries_le (ei_buckets ei)). lia. }
  rewrite Ht. cbn [mbind option_bind]. rewrite Hent, Nat.eqb_refl.
  eexists true, _. split; [done|].
  assert (∀ k e, Some (k, e) ∈ t ↔ Some (k, e) ∈ ei_buckets ei) as Hin.
  { intros k e. rewrite Htin. naive_solver. }
  split; [|done]. split; [done|]. cbn [ei_buckets ei_buckets_used]. rewrite Htl. split; [lia|].
  split; [|split].
  - rewrite Hte, <-Hent. by rewrite filter_all by eauto.
  - rewrite Nat.mul_comm, Nat.div_mul by done. etrans; [exact Hhalf|]. apply Nat.Div0.div_le_upper_bound. lia.
  - intros k e Hke%Hin. eauto.
Qed.

(** The room the table has: the number of buckets, doubled, fits 32 bits. *)
Definition endid_room (ei : endid_info) : Prop := (N.of_nat (ei_buckets_used ei) < 1073741824)%N.

Lemma table_size ei : endid_wf ei → ∃ m, m ≤ 32 ∧ length (ei_buckets ei) = 2 ^ m.
Proof. intros [[? _] _]. done. Qed.

Lemma grow_room ei m :
  endid_room ei → length (ei_buckets ei) = 2 ^ m → 4 ≤ length (ei_buckets ei) →
  ei_buckets_used ei = length (ei_buckets ei) / 2 → m < 31.
Proof.
  unfold endid_room. intros Hr Hl H4 Hu. destruct (decide (m < 31)); [done|]. exfalso.
  assert (N.of_nat (2 ^ m) = 2 ^ N.of_nat m)%N as E by (by rewrite Nat2N.inj_pow).
  assert (2 ^ 31 ≤ 2 ^ N.of_nat m)%N by (apply N.pow_le_mono_r; lia).
  pose proof (Nat.div_mod_eq (length (ei_buckets ei)) 2).
  pose proof (Nat.mod_upper_bound (length (ei_buckets ei)) 2). lia.
Qed.

Lemma half_free ei : endid_wf ei → length (entries (ei_buckets ei)) < length (ei_buckets ei).
Proof.
  intros (_ & H4 & Hent & Hhalf & _). rewrite Hent.
  pose proof (Nat.div_lt (length (ei_buckets ei)) 2). lia.
Qed.

Lemma probe_is_Some ei state : endid_wf ei → is_Some (probe (ei_buckets ei) state).
Proof.
  intros Hwf. destruct (entries_empty_slot _ (half_free _ Hwf)) as [i Hi].
  eapply probe_total; [apply Hwf|exact Hi].
Qed.

(** What a search for a bucket promises: nothing is lost, and there is room
    for one more entry when the bucket is empty. *)
Lemma endid_find_bucket_spec al ei state :
  endid_wf ei → endid_room ei → state ≠ BUCKET_NO_STATE →
  ∃ b ei', endid_find_bucket al ei state = Some (b, ei') ∧ endid_wf ei' ∧
    ei_buckets_used ei' = ei_buckets_used ei ∧
    (∀ k e, Some (k, e) ∈ ei_buckets ei' ↔ Some (k, e) ∈ ei_buckets ei) ∧
    (∀ i, b = Some i → ∃ found, probe (ei_buckets ei') state = Some (i, found) ∧
       (found = None → ei_buckets_used ei' < length (ei_buckets ei') / 2)) ∧
    (alloc_total → b ≠ None).
Proof.
  intros Hwf Hroom Hno. unfold endid_find_bucket.
  destruct (probe_is_Some ei state Hwf) as [[b found] Hp]. rewrite Hp. cbn [mbind option_bind].
  destruct found as [e|].
  { exists (Some b), ei. split_and!; try done. intros i [= ->]. by exists (Some e). }
  rewrite (proj2 (N.eqb_neq _ _) Hno). destruct (ei_buckets_used ei =? length (ei_buckets ei) / 2) eqn:E; split_bool.
  2:{ exists (Some b), ei. split_and!; try done. intros i [= ->]. exists None. split; [done|].
      destruct Hwf as (_ & _ & _ & ? & _). lia. }
  destruct (table_size ei Hwf) as (m & Hm & Hl).
  destruct (grow_endid_buckets_spec al ei m Hwf Hl) as (ok & ei1 & Hg & Hpost);
    [apply (grow_room ei); [done|done|apply Hwf|done]|].
  rewrite Hg. cbn [mbind option_bind]. destruct ok.
  - destruct Hpost as (Hwf1 & Hl1 & Hu1 & Hin1).
    destruct (probe_is_Some ei1 state Hwf1) as [[b1 found1] Hp1]. rewrite Hp1. cbn [mbind option_bind].
    assert (ei_buckets_used ei1 < length (ei_buckets ei1) / 2) as Hlt.
    { rewrite Hu1, Hl1, E, (Nat.mul_comm 2), Nat.div_mul by done.
      apply Nat.div_lt; [|lia]. destruct Hwf as (_ & ? & _). lia. }
    destruct found1 as [e1|].
    + exists (Some b1), ei1. split_and!; try done. intros i [= ->]. by exists (Some e1).
    + replace (ei_buckets_used ei1 =? length (ei_buckets ei1) / 2) with false by (symmetry; apply Nat.eqb_neq; lia).
      exists (Some b1), ei1. split_and!; try done. intros i [= ->]. by exists None.
  - destruct Hpost as [-> Hnt]. exists None, ei. by split_and!.
Qed.

Lemma endid_wf_insert ei state i found e :
  endid_wf ei → probe (ei_buckets ei) state = Some (i, found) → ids_wf e →
  (found = None → ei_buckets_used ei < length (ei_buckets ei) / 2) →
  endid_wf (mk_endid_info (<[i := Some (state, e)]> (ei_buckets ei))
    (ei_buckets_used ei + (if found is None then 1 else 0))).
Proof.
  intros (Hok & H4 & Hent & Hhalf & Hids) Hp He Hlt. split; [by eapply table_ok_insert|].
  cbn [ei_buckets ei_buckets_used]. rewrite length_insert. split; [done|].
  pose proof (probe_spec _ state Hok) as Hs. rewrite Hp in Hs. destruct Hs as (_ & _ & _ & _ & Hi).
  pose proof (length_entries_insert _ i (Some (state, e)) _ Hi) as Hl. simpl in Hl.
  split; [|split].
  - destruct found; simpl in *; lia.
  - destruct found; simpl in *; [lia|]. specialize (Hlt eq_refl). lia.
  - intros k e' [[-> ->]|[_ Hin]]%(elem_of_insert_slot _ state i found e); eauto.
Qed.

Lemma table_get_ext t t' k :
  table_ok t → table_ok t' → (∀ v : end_info_ids, Some (k, v) ∈ t ↔ Some (k, v) ∈ t') → table_get t k = table_get t' k.
Proof.
  intros Ht Ht' He. apply option_eq. intros v. by rewrite !table_get_spec.
Qed.

Lemma endids_insert ei state i found e k :
  endid_wf ei → probe (ei_buckets ei) state = Some (i, found) → ∀ u,
  endids (mk_endid_info (<[i := Some (state, e)]> (ei_buckets ei)) u) k =
  if decide (k = state) then eii_ids e else endids ei k.
Proof.
  intros Hwf Hp u. destruct Hwf as (Hok & _). unfold endids. cbn [ei_buckets].
  assert (table_ok (<[i := Some (state, e)]> (ei_buckets ei))) as Hok' by (by eapply table_ok_insert).
  case_decide as Hk.
  - subst k. assert (table_get (<[i := Some (state, e)]> (ei_buckets ei)) state = Some e) as ->; [|done].
    apply table_get_spec; [done|]. apply (elem_of_insert_slot _ state i found); [done|done|]. by left.
  - rewrite (table_get_ext _ (ei_buckets ei)); [done|done|done|]. intros v.
    rewrite (elem_of_insert_slot _ state i found) by done. naive_solver.
Qed.

Lemma endids_same ei ei' :
  endid_wf ei → endid_wf ei' → (∀ k e, Some (k, e) ∈ ei_buckets ei' ↔ Some (k, e) ∈ ei_buckets ei) →
  ∀ k, endids ei' k = endids ei k.
Proof.
  intros (Hok & _) (Hok' & _) Heq k. unfold endids. by rewrite (table_get_ext (ei_buckets ei') (ei_buckets ei)).
Qed.

Lemma endids_probe ei state i found :
  probe (ei_buckets ei) state = Some (i, found) →
  endids ei state = match found with Some e => eii_ids e | None => [] end.
Proof. intros Hp. unfold endids, table_get. by rewrite Hp. Qed.

(** Setting an id adds it to the ids of the state and changes nothing else. *)
Lemma fsm_endid_set_spec al ei state id :
  endid_wf ei → endid_room ei → state ≠ BUCKET_NO_STATE → id_ok id →
  ∃ b ei', fsm_endid_set al ei state id = Some (b, ei') ∧ endid_wf ei' ∧
    (∀ k, k ≠ state → endids ei' k = endids ei k) ∧
    (b = true → ∀ x, x ∈ endids ei' state ↔ x ∈ endids ei state ∨ x = id) ∧
    (b = false → ∀ k, endids ei' k = endids ei k) ∧
    (alloc_total → b = true).
Proof.
  intros Hwf Hroom Hno Hid. unfold fsm_endid_set.
  destruct (endid_find_bucket_spec al ei state Hwf Hroom Hno) as (b & ei1 & Hf & Hwf1 & Hu & Hin & Hb & Hnn).
  rewrite Hf. cbn [mbind option_bind]. pose proof (endids_same ei ei1 Hwf Hwf1 Hin) as Hsame.
  destruct b as [i|].
  2:{ exists false, ei1. split_and!; try done. intros Ht. by destruct (Hnn Ht). }
  destruct (Hb i eq_refl) as (found & Hp & Hlt).
  pose proof (probe_spec _ state (proj1 Hwf1)) as Hs. rewrite Hp in Hs. destruct Hs as (_ & _ & _ & _ & Hi).
  rewrite Hi. destruct found as [e|]; cbn [fmap option_fmap option_map].
  - rewrite N.eqb_refl.
    assert (ids_wf e) as He by (destruct Hwf1 as (_ & _ & _ & _ & Hids); eapply Hids, list_elem_of_lookup; eauto).
    destruct (ids_add_spec al e id He Hid) as (ok & e' & -> & Hadd & Hok). cbn [mbind option_bind]. exists ok. eexists. split; [done|].
    assert (ids_wf e') as He' by (destruct ok; [apply Hadd|by subst]).
    split.
    { pose proof (endid_wf_insert ei1 state i (Some e) e' Hwf1 Hp He' ltac:(done)) as Hw.
      by rewrite Nat.add_0_r in Hw. }
    assert (∀ k, endids (mk_endid_info (<[i := Some (state, e')]> (ei_buckets ei1)) (ei_buckets_used ei1)) k =
      if decide (k = state) then eii_ids e' else endids ei1 k) as Hget by (intros; by eapply endids_insert).
    split_and!.
    + intros k Hk. rewrite Hget, decide_False by done. apply Hsame.
    + intros -> x. rewrite Hget, decide_True by done. rewrite <-Hsame, (endids_probe _ _ _ _ Hp). apply Hadd.
    + intros -> k. rewrite Hget. subst e'. case_decide as Hk; [|apply Hsame]. subst k.
      by rewrite <-Hsame, (endids_probe _ _ _ _ Hp).
    + done.
  - unfold endid_bucket. rewrite (proj2 (N.eqb_neq _ _) Hno). destruct (allocate_ids al DEF_BUCKET_ID_COUNT) eqn:Ea.
    + exists true. eexists. split; [done|]. split.
      { apply (endid_wf_insert ei1 state i None (mk_ids [id] 16)); [done|done| |done]. split; [repeat constructor|]. split; [simpl; lia|]. by repeat constructor. }
      assert (∀ k u, endids (mk_endid_info (<[i := Some (state, mk_ids [id] 16)]> (ei_buckets ei1)) u) k =
        if decide (k = state) then [id] else endids ei1 k) as Hget by (intros; by eapply (endids_insert _ _ _ _ (mk_ids [id] 16))).
      split_and!; try done.
      * intros k Hk. rewrite Hget, decide_False by done. apply Hsame.
      * intros _ x. rewrite Hget, decide_True by done. rewrite <-Hsame, (endids_probe _ _ _ _ Hp).
        rewrite list_elem_of_singleton, elem_of_nil. tauto.
    + exists false, ei1. split_and!; try done. intros Ht. unfold allocate_ids in Ea. by rewrite f_realloc_total in Ea.
Qed.
End SetLemmas.

(** ** Lemmas: reading, bulk setting, renumbering *)

Lemma fsm_endid_count_spec ei state :
  endid_wf ei → fsm_endid_count ei state = Some (length (endids ei state)).
Proof.
  intros Hwf. unfold fsm_endid_count. destruct (probe_is_Some ei state Hwf) as [[b found] Hp].
  rewrite Hp, (endids_probe _ _ _ _ Hp). by destruct found.
Qed.

Lemma qsort_N_id l : increasing l → qsort_N l = l.
Proof.
  intros Hs. apply (StronglySorted_unique N.le).
  - apply qsort_N_sorted.
  - induction Hs as [|x l _ IH Hx]; [constructor|]. constructor; [done|].
    eapply Forall_impl; [exact Hx|]. intros; simpl in *; lia.
  - apply merge_sort_Permutation.
Qed.

Lemma endids_increasing ei state : endid_wf ei → increasing (endids ei state).
Proof.
  intros (Hok & _ & _ & _ & Hids). unfold endids. destruct (table_get (ei_buckets ei) state) as [e|] eqn:E; [|constructor].
  apply table_get_spec in E; [|done]. by apply (Hids state).
Qed.

Lemma fsm_endid_get_spec ei state count :
  endid_wf ei →
  fsm_endid_get ei state count =
    Some (if count <? length (endids ei state) then (false, []) else (true, endids ei state)).
Proof.
  intros Hwf. unfold fsm_endid_get. destruct (probe_is_Some ei state Hwf) as [[b found] Hp].
  pose proof (endids_increasing ei state Hwf) as Hs.
  rewrite (endids_probe _ _ _ _ Hp) in *. rewrite Hp. cbn [mbind option_bind]. destruct found as [e|]; [|done].
  destruct (count <? length (eii_ids e)); [done|]. by rewrite qsort_N_id.
Qed.

Lemma double_until_ge fuel : ∀ c target,
  1 ≤ c → target ≤ c + fuel → (N.of_nat target < 9223372036854775807)%N → target ≤ double_until fuel c target.
Proof.
  induction fuel as [|fuel IH]; intros c target Hc Hf Ht; cbn [double_until]; [lia|].
  destruct (c <? target) eqn:E; split_bool; cbn [andb]; [|lia].
  replace (N.of_nat c <=? 9223372036854775807)%N with true by (symmetry; apply N.leb_le; lia).
  apply IH; lia.
Qed.

Lemma double_until_le fuel : ∀ c target, double_until fuel c target ≤ Nat.max c (2 * target - 2).
Proof.
  induction fuel as [|fuel IH]; intros c target; cbn [double_until]; [lia|].
  destruct (c <? target) eqn:E; split_bool; cbn [andb]; [|lia]. destruct (_ <=? _)%N; [|lia]. specialize (IH (c * 2) target). lia.
Qed.

Lemma sort_ids_spec stale ids ceil e :
  sort_ids stale ids ceil = Some e → ids ≠ [] → length ids ≤ ceil → Forall id_ok ids →
  ids_wf e ∧ ∀ x, x ∈ eii_ids e ↔ x ∈ ids.
Proof.
  unfold sort_ids. destruct ids as [|x0 ids0] eqn:E; [done|]. rewrite <-E. intros [= <-] Hne Hl Hall.
  split; [|intros x; apply elem_of_sort_dedup]. split; [apply sort_dedup_increasing|]. cbn [eii_ids eii_ceil].
  pose proof (length_dedup_inplace ids).
  split; [|apply Forall_forall; intros x Hx; apply (proj1 (elem_of_sort_dedup ids x)) in Hx; exact (proj1 (Forall_forall _ _) Hall x Hx)]. split; [|lia].
  destruct (dedup_inplace (qsort_N ids)) as [|y l] eqn:Ed; [|simpl; lia].
  assert (x0 ∈ dedup_inplace (qsort_N ids)) as Hin by (apply elem_of_sort_dedup; rewrite E; left).
  rewrite Ed in Hin. by apply not_elem_of_nil in Hin.
Qed.

(** Setting ids in bulk replaces the ids of the state, or appends to them. *)
Lemma fsm_endid_set_bulk_spec `{alloc_total} al ei state ids op :
  endid_wf ei → endid_room ei → state ≠ BUCKET_NO_STATE → ids ≠ [] → Forall id_ok ids →
  (N.of_nat (length ids + length (endids ei state)) ≤ 2147483648)%N →
  ∃ ei', fsm_endid_set_bulk al ei state ids op = Some (true, ei') ∧ endid_wf ei' ∧
    (∀ k, k ≠ state → endids ei' k = endids ei k) ∧
    ∀ x, x ∈ endids ei' state ↔
      x ∈ ids ∨ (op = FSM_ENDID_BULK_APPEND ∧ x ∈ endids ei state).
Proof.
  intros Hwf Hroom Hno Hne Hall Hbig. unfold fsm_endid_set_bulk.
  destruct (endid_find_bucket_spec al ei state Hwf Hroom Hno) as (b & ei1 & Hf & Hwf1 & Hu & Hin & Hb & Hnn).
  rewrite Hf. cbn [mbind option_bind]. pose proof (endids_same ei ei1 Hwf Hwf1 Hin) as Hsame.
  destruct b as [i|]; [|by destruct (Hnn _)]. destruct (Hb i eq_refl) as (found & Hp & Hlt).
  pose proof (probe_spec _ state (proj1 Hwf1)) as Hs. rewrite Hp in Hs. destruct Hs as (_ & _ & _ & _ & Hi).
  rewrite <-Hsame, (endids_probe _ _ _ _ Hp) in Hbig.
  (* storing the sorted ids *)
  assert (∀ stale l c, l ≠ [] → length l ≤ c → Forall id_ok l →
    ∃ e', sort_ids stale l c = Some e' ∧ ∀ u, u = ei_buckets_used ei1 + (if found is None then 1 else 0) →
      let ei' := mk_endid_info (<[i := Some (state, e')]> (ei_buckets ei1)) u in
      endid_wf ei' ∧ (∀ k, k ≠ state → endids ei' k = endids ei k) ∧ ∀ x, x ∈ endids ei' state ↔ x ∈ l) as Hstore.
  { intros stale l c Hl Hc Hlok. destruct (sort_ids stale l c) as [e'|] eqn:Es; [|by destruct l].
    pose proof (sort_ids_spec _ _ _ _ Es Hl Hc Hlok) as [He' Hx]. exists e'. split; [done|]. intros u -> ei'.
    split; [by apply endid_wf_insert|]. split.
    - intros k Hk. unfold ei'. rewrite (endids_insert _ _ _ found), decide_False by done. apply Hsame.
    - intros x. unfold ei'. rewrite (endids_insert _ _ _ found), decide_True by done. apply Hx. }
  rewrite Hi. unfold allocate_ids. destruct found as [e|]; cbn [fmap option_fmap option_map].
  - rewrite N.eqb_refl. set (prev := match op with FSM_ENDID_BULK_REPLACE => [] | FSM_ENDID_BULK_APPEND => eii_ids e end).
    assert (length prev ≤ length (eii_ids e)) as Hpl by (unfold prev; destruct op; simpl; lia).
    assert (prev ++ ids ≠ []) as Hpn by (intros [_ ?]%app_eq_nil; done).
    assert (∀ x, x ∈ prev ++ ids ↔ x ∈ ids ∨ (op = FSM_ENDID_BULK_APPEND ∧ x ∈ endids ei state)) as Hpx.
    { intros x. rewrite elem_of_app, <-Hsame, (endids_probe _ _ _ _ Hp). unfold prev.
      destruct op; [rewrite elem_of_nil|]; naive_solver. }
    assert (ids_wf e) as (_ & Hec & Heok) by (destruct Hwf1 as (_ & _ & _ & _ & Hids); eapply Hids, list_elem_of_lookup; eauto).
    assert (Forall id_ok (prev ++ ids)) as Hpok by (apply Forall_app; split; [unfold prev; by destruct op|done]).
    set (total := length ids + length prev). assert (length (prev ++ ids) = total) as Hpt by (rewrite length_app; unfold total; lia).
    assert (N.of_nat total ≤ 2147483648)%N as Htot by (unfold total; lia). clearbody total.
    destruct (eii_ceil e <? total) eqn:Ec; split_bool.
    + rewrite u32n_small by lia. replace (2 * eii_ceil e =? 0) with false by (symmetry; apply Nat.eqb_neq; lia).
      pose proof (double_until_ge total (2 * eii_ceil e) total ltac:(lia) ltac:(lia) ltac:(lia)) as Hd.
      pose proof (double_until_le total (2 * eii_ceil e) total) as Hd'. set (n := double_until _ _ _) in *. clearbody n.
      rewrite (proj2 (Nat.ltb_ge _ _)) by exact Hd. rewrite f_realloc_total, (u32n_small n) by lia. rewrite (proj2 (Nat.ltb_ge _ _)) by exact Hd.
      destruct (Hstore (eii_ids e !! 0) (prev ++ ids) n) as (e' & -> & He'); [done|lia|done|]. cbn [mbind option_bind].
      destruct (He' (ei_buckets_used ei1) ltac:(lia)) as (? & ? & Hx). eexists; split_and!; [done|done|done|].
      intros x. by rewrite Hx, Hpx.
    + destruct (Hstore (eii_ids e !! 0) (prev ++ ids) (eii_ceil e)) as (e' & -> & He'); [done|lia|done|].
      cbn [mbind option_bind].
      destruct (He' (ei_buckets_used ei1) ltac:(lia)) as (? & ? & Hx). eexists; split_and!; [done|done|done|].
      intros x. by rewrite Hx, Hpx.
  - rewrite (proj2 (N.eqb_neq _ _) Hno).
    pose proof (double_until_ge (length ids) DEF_BUCKET_ID_COUNT (length ids)
      ltac:(unfold DEF_BUCKET_ID_COUNT; lia) ltac:(lia) ltac:(lia)) as Hd.
    pose proof (double_until_le (length ids) DEF_BUCKET_ID_COUNT (length ids)) as Hd'. set (n := double_until _ _ _) in *. clearbody n.
    unfold DEF_BUCKET_ID_COUNT in Hd'. rewrite (proj2 (Nat.ltb_ge _ _)) by exact Hd. rewrite f_realloc_total, !u32n_small, take_ge by lia.
    destruct (Hstore (ids !! 0) ids n) as (e' & -> & He'); [done|exact Hd|done|].
    cbn [mbind option_bind].
    destruct (He' (ei_buckets_used ei1 + 1) eq_refl) as (? & ? & Hx). eexists; split_and!; [done|done|done|].
    intros x. rewrite Hx, <-Hsame, (endids_probe _ _ _ _ Hp), elem_of_nil. tauto.
Qed.

(** The renumbering of states gives each kept state its ids under its new
    number, provided the mapping covers the states of the table and does not
    merge two of them. Only [buckets_used] is left as it was. *)
Lemma mapping_identity_keep mapping k :
  (N.of_nat (length mapping) ≤ 4294967295)%N → mapping_identity mapping = true → N.to_nat k < length mapping →
  keep_key mapping k = Some k.
Proof.
  intros Hlen Hid%bool_decide_eq_true Hk. unfold keep_key.
  rewrite Hid, list_lookup_fmap, lookup_seq_lt by done. simpl. rewrite N2Nat.id.
  unfold FSM_STATE_REMAP_NO_STATE. destruct (k =? 4294967295)%N eqn:E; [|done]. apply N.eqb_eq in E. lia.
Qed.

Lemma fsm_endid_compact_spec `{alloc_total} al ei mapping :
  endid_weak ei → (N.of_nat (length mapping) ≤ 4294967295)%N →
  (∀ k e, Some (k, e) ∈ ei_buckets ei → N.to_nat k < length mapping) →
  (∀ k1 k2 n, keep_key mapping k1 = Some n → keep_key mapping k2 = Some n → k1 = k2) →
  ∃ ei', fsm_endid_compact al ei mapping = Some (true, ei') ∧
    endid_weak ei' ∧ ei_buckets_used ei' = ei_buckets_used ei ∧
    (∀ n e, Some (n, e) ∈ ei_buckets ei' → ∃ k, Some (k, e) ∈ ei_buckets ei ∧ keep_key mapping k = Some n) ∧
    (∀ k n, keep_key mapping k = Some n → N.to_nat k < length mapping → endids ei' n = endids ei k).
Proof.
  intros Hweak Hmlen Hcov Hinj. pose proof Hweak as (Hok & H4 & [Hent Hhalf] & Hids). unfold fsm_endid_compact.
  destruct (mapping_identity mapping) eqn:Eid.
  { exists ei. split; [done|]. split; [done|]. split; [done|]. split.
    - intros n e Hin. exists n. split; [done|]. apply mapping_identity_keep; eauto.
    - intros k n Hk Hlt. rewrite mapping_identity_keep in Hk by done. by simplify_eq. }
  rewrite f_malloc_total.
  replace (forallb _ _) with true.
  2:{ symmetry. apply forallb_forall. intros [k e] Hin. rewrite <-list_elem_of_In in Hin.
      apply elem_of_entries in Hin. apply Nat.ltb_lt. by eapply Hcov. }
  destruct Hok as [(m & Hm & Hl) Hpath] eqn:Eok. clear Eok.
  destruct (rehash_spec (keep_key mapping) (length (ei_buckets ei)) m (ei_buckets ei))
    as (t & Ht & Htok & Htl & Hte & Htin); [done|done|apply length_entries_le|by apply NoDup_keys|naive_solver|].
  rewrite Ht. cbn [mbind option_bind]. eexists; split; [done|]. cbn [ei_buckets ei_buckets_used].
  split; [split; [done|]; cbn [ei_buckets ei_buckets_used]; rewrite Htl; split_and!; [done| |done|]|split; [done|split]].
  - rewrite Hte. etrans; [apply length_filter|done].
  - intros k e (k0 & Hk0 & _)%Htin. eauto.
  - intros n e (k & Hk & Hn)%Htin. eauto.
  - intros k n Hk Hlt. unfold endids. cbn [ei_buckets].
    assert (table_get t n = table_get (ei_buckets ei) k) as ->; [|done].
    apply option_eq. intros e. rewrite !table_get_spec by done. rewrite Htin. split; [|eauto].
    intros (k' & Hk' & Hn). by rewrite (Hinj k k' n).
Qed.

(** ** Properties *)

(** A client that sets one id after another. *)
Fixpoint set_all `{allocator} (al : fsm_alloc) (ei : endid_info) (l : list (N * N)) : option (bool * endid_info) :=
  match l with
  | [] => Some (true, ei)
  | (state, id) :: l =>
      '(b, ei) ← fsm_endid_set al ei state id;
      if (b : bool) then set_all al ei l else Some (false, ei)
  end.

Lemma fsm_endid_set_used `{allocator} al ei state id b ei' :
  endid_wf ei → endid_room ei → state ≠ BUCKET_NO_STATE → fsm_endid_set al ei state id = Some (b, ei') →
  ei_buckets_used ei' ≤ ei_buckets_used ei + 1.
Proof.
  intros Hwf Hroom Hno. unfold fsm_endid_set.
  destruct (endid_find_bucket_spec al ei state Hwf Hroom Hno) as (c & ei1 & Hf & _ & Hu & _).
  rewrite Hf. cbn [mbind option_bind]. destruct c as [i|]; [|intros [= <- <-]; lia].
  destruct (ei_buckets ei1 !! i) as [[[s e]|]|]; [|repeat case_match; intros; simplify_eq/=; lia|done].
  destruct (s =? state)%N; [|done]. destruct (ids_add al e id) as [[ok e']|]; [|done]. intros [= <- <-]. cbn. lia.
Qed.

(** A state other than [BUCKET_NO_STATE] and an id in range. *)
Definition settable (kv : N * N) : Prop := kv.1 ≠ BUCKET_NO_STATE ∧ id_ok kv.2.

Lemma set_all_spec `{alloc_total} al l : ∀ ei,
  endid_wf ei → (N.of_nat (ei_buckets_used ei + length l) < 1073741824)%N → Forall settable l →
  ∃ ei', set_all al ei l = Some (true, ei') ∧ endid_wf ei' ∧
    ∀ k x, x ∈ endids ei' k ↔ x ∈ endids ei k ∨ (k, x) ∈ l.
Proof.
  induction l as [|[state id] l IH]; intros ei Hwf Hb Hl.
  { exists ei. split_and!; try done. intros k x. rewrite elem_of_nil. tauto. }
  apply Forall_cons in Hl as [[Hno Hid] Hl]. cbn [set_all]. simpl in Hb. assert (endid_room ei) as Hroom by (unfold endid_room; lia).
  destruct (fsm_endid_set_spec al ei state id Hwf Hroom Hno Hid) as (b & ei1 & Hs & Hwf1 & Ho & Hx & _ & Ht).
  assert (b = true) as -> by (by apply Ht). rewrite Hs. cbn [mbind option_bind].
  pose proof (fsm_endid_set_used _ _ _ _ _ _ Hwf Hroom Hno Hs).
  destruct (IH ei1 Hwf1) as (ei' & Hr & Hwf' & He); [lia|done|]. exists ei'. split_and!; try done.
  intros k x. rewrite He, elem_of_cons. destruct (decide (k = state)) as [->|Hk].
  - rewrite (Hx eq_refl). naive_solver.
  - rewrite (Ho k Hk). naive_solver.
Qed.

Lemma fsm_endid_init_spec `{alloc_total} al :
  ∃ ei, fsm_endid_init al = Some ei ∧ endid_wf ei ∧ ei_buckets_used ei = 0 ∧ ∀ k, endids ei k = [].
Proof.
  unfold fsm_endid_init. rewrite !f_malloc_total. eexists; split; [done|].
  assert (table_ok (replicate DEF_BUCKET_COUNT (@None (N * end_info_ids)))) as Hok by apply (table_ok_empty 2 ltac:(lia)).
  assert (∀ k e, Some (k, e) ∉ replicate DEF_BUCKET_COUNT (@None (N * end_info_ids))) as Hno
    by (intros k e [[=] _]%elem_of_replicate).
  split; [|split; [done|]].
  - split; [done|]. split; [cbn; lia|]. split; [done|]. split; [cbn; lia|]. intros k e Hin. by apply Hno in Hin.
  - intros k. unfold endids. cbn [ei_buckets]. destruct (table_get _ k) as [e|] eqn:E; [|done].
    apply table_get_spec in E; [|done]. by apply Hno in E.
Qed.

(** C25. The end ids implement a map from states to sets of ids: after setting any
    list of fewer than 2^30 ids, the count of a state is the number of distinct
    ids set on it, and reading them with enough room gives exactly those,
    sorted. The ids are below 2^30, so that the [unsigned] capacity of a bucket
    never wraps, and no state is [BUCKET_NO_STATE], which marks a bucket as
    empty ([settable]). *)
Theorem endids_refine_sets `{alloc_total} al l :
  (N.of_nat (length l) < 1073741824)%N → Forall settable l →
  ∃ ei0 ei, fsm_endid_init al = Some ei0 ∧ set_all al ei0 l = Some (true, ei) ∧ endid_wf ei ∧
    ∀ state, let ids := dedup_inplace (qsort_N (filter (λ kv, kv.1 = state) l).*2) in
      fsm_endid_count ei state = Some (length ids) ∧
      ∀ count, fsm_endid_get ei state count =
        Some (if count <? length ids then (false, []) else (true, ids)).
Proof.
  intros Hl Hall. destruct (fsm_endid_init_spec al) as (ei0 & Hi & Hwf0 & Hu0 & He0).
  destruct (set_all_spec al l ei0 Hwf0) as (ei & Hs & Hwf & He); [lia|done|].
  exists ei0, ei. split_and!; try done. intros state ids.
  assert (endids ei state = ids) as E.
  { apply increasing_ext; [by apply endids_increasing|apply sort_dedup_increasing|].
    intros x. unfold ids. rewrite He, He0, elem_of_nil, elem_of_sort_dedup, list_elem_of_fmap.
    setoid_rewrite list_elem_of_filter. split.
    - intros [[]|Hin]. by exists (state, x).
    - intros ([k y] & -> & Hk & Hin). simpl in *. subst k. by right. }
  rewrite fsm_endid_count_spec, E by done. split; [done|]. intros count.
  by rewrite fsm_endid_get_spec, E by done.
Qed.

Lemma endids_refine_sets_witness :
  ∃ ei0 ei, @fsm_endid_init always 0%N = Some ei0 ∧
    @set_all always 0%N ei0 [(3, 7); (9, 1); (3, 2); (4, 4); (3, 7)]%N = Some (true, ei) ∧
    fsm_endid_get ei 3 2 = Some (true, [2; 7]%N).
Proof.
  destruct (@endids_refine_sets always always_total 0%N [(3, 7); (9, 1); (3, 2); (4, 4); (3, 7)]%N)
    as (ei0 & ei & H1 & H2 & _ & H3); [reflexivity|repeat constructor; discriminate|].
  exists ei0, ei. split; [exact H1|]. split; [exact H2|].
  destruct (H3 3%N) as [_ H4]. rewrite H4. vm_compute. reflexivity.
Defined.

(** C26. Setting ids in bulk is one sorted insertion: the ids of the state are the
    given ones, with the previous ones when appending, and no other state
    changes. The state is not the mark of an empty bucket, and the ids given and
    those before are at most 2^31, which the [unsigned] capacity can hold. *)
Theorem fsm_endid_set_bulk_sets `{alloc_total} al ei state ids op :
  endid_wf ei → endid_room ei → state ≠ BUCKET_NO_STATE → ids ≠ [] → Forall id_ok ids →
  (N.of_nat (length ids + length (endids ei state)) ≤ 2147483648)%N →
  ∃ ei', fsm_endid_set_bulk al ei state ids op = Some (true, ei') ∧ endid_wf ei' ∧
    endids ei' state = dedup_inplace (qsort_N (ids ++
      match op with FSM_ENDID_BULK_REPLACE => [] | FSM_ENDID_BULK_APPEND => endids ei state end)) ∧
    (∀ k, k ≠ state → endids ei' k = endids ei k).
Proof.
  intros Hwf Hroom Hno Hne Hall Hb. destruct (fsm_endid_set_bulk_spec al ei state ids op Hwf Hroom Hno Hne Hall Hb)
    as (ei' & Hs & Hwf' & Ho & Hx). exists ei'. split_and!; try done.
  apply increasing_ext; [by apply endids_increasing|apply sort_dedup_increasing|].
  intros x. rewrite Hx, elem_of_sort_dedup, elem_of_app. destruct op; [rewrite elem_of_nil|]; naive_solver.
Qed.

Lemma fsm_endid_set_bulk_sets_witness :
  let ei := mk_endid_info (replicate 4 None) 0 in
  ∃ ei', @fsm_endid_set_bulk always 0%N ei 3 [5; 2; 5]%N FSM_ENDID_BULK_APPEND = Some (true, ei') ∧
    endids ei' 3 = [2; 5]%N.
Proof.
  intros ei. destruct (@fsm_endid_set_bulk_sets always always_total 0%N ei 3%N [5; 2; 5]%N FSM_ENDID_BULK_APPEND)
    as (ei' & H1 & _ & H2 & _).
  - split; [apply (table_ok_empty 2); lia|]. split; [simpl; lia|]. split; [reflexivity|]. split; [simpl; lia|].
    intros k e Hin. apply elem_of_replicate in Hin as [Hin _]. discriminate.
  - reflexivity.
  - discriminate.
  - discriminate.
  - repeat constructor.
  - discriminate.
  - exists ei'. split; [exact H1|]. rewrite H2. reflexivity.
Defined.

(** Renumbering does not update [buckets_used]. Once a state with ids has been
    dropped, the next growth of the table finds fewer entries than it counts,
    and its assertion fails. *)
Example fsm_endid_compact_stale_count :
  ∃ ei ei', @set_all always 0%N (mk_endid_info (replicate 4 None) 0) [(0, 1); (1, 1)]%N = Some (true, ei) ∧
    @fsm_endid_compact always 0%N ei [0; 4294967295; 1]%N = Some (true, ei') ∧
    @fsm_endid_set always 0%N ei' 1 8 = None.
Proof. eexists _, _. split; [vm_compute; reflexivity|]. split; [vm_compute; reflexivity|]. vm_compute. reflexivity. Qed.
