(* ===== verification/EagerOutput.v ===== *)
(** * Eager outputs: src/libfsm/eager_output.c

    A hash table from states to the ids to report when the state is reached,
    in the order they were set. The functions take a [struct fsm *] but use
    only its [eager_output_info] and its allocator; the flag
    [has_eager_outputs] that [fsm_eager_output_set] sets on the state is part
    of its result here. A bucket whose entry is NULL is [None]. The [ceil] of
    an entry is a 32-bit number and wraps when it is doubled. [None] as a result
    means that an assertion fails or that memory is read out of bounds. *)

From S2P Require Import Prelude StateSet Probe Endids.

Definition DEF_ENTRY_CEIL : nat := 2.

(** [used] is the length of [eoe_ids]. *)
Record eager_output_entry := mk_entry { eoe_ids : list N; eoe_ceil : nat }.

Abbreviation eager_buckets := (list (option (N * eager_output_entry))).

(** The table, and the callback with its argument, which are pointers (0 for
    NULL). *)
Record eager_output_info := mk_eager {
  eo_cb : N;
  eo_opaque : N;
  eo_buckets : eager_buckets;
  eo_buckets_used : nat;
}.

Definition fsm_eager_output_set_cb (info : eager_output_info) (cb opaque : N) : eager_output_info :=
  mk_eager cb opaque (eo_buckets info) (eo_buckets_used info).

Definition fsm_eager_output_get_cb (info : eager_output_info) : N * N := (eo_cb info, eo_opaque info).

Section Ops.
Context `{allocator}.

Definition fsm_eager_output_init (al : fsm_alloc) : option eager_output_info :=
  if f_calloc al 1 40 then
    if f_calloc al (N.of_nat DEF_BUCKET_COUNT) 16 then
      Some (mk_eager 0 0 (replicate DEF_BUCKET_COUNT None) 0)
    else None
  else None.

Definition grow_htab (al : fsm_alloc) (info : eager_output_info) : option (bool * eager_output_info) :=
  let nbucket_count := 2 * length (eo_buckets info) in
  if f_calloc al (N.of_nat nbucket_count) 16 then
    nbuckets ← rehash Some nbucket_count (eo_buckets info);
    Some (true, mk_eager (eo_cb info) (eo_opaque info) nbuckets (eo_buckets_used info))
  else Some (false, info).

(** Room for one more id: [2 * e->ceil] is computed in 32 bits, and where it
    wraps the array becomes shorter than what is read of it next. *)
Definition entry_grow (al : fsm_alloc) (e : eager_output_entry) : option (bool * eager_output_entry) :=
  if length (eoe_ids e) =? eoe_ceil e then
    let nceil := u32n (2 * eoe_ceil e) in
    if f_realloc al (8 + N.of_nat nceil * 4) then
      if nceil <? length (eoe_ids e) then None else Some (true, mk_entry (eoe_ids e) nceil)
    else Some (false, e)
  else Some (true, e).

(** Adding an id to an entry, growing its array first when it is full. *)
Definition entry_add (al : fsm_alloc) (e : eager_output_entry) (id : N)
    : option (bool * eager_output_entry * bool) :=
  '(ok, e) ← entry_grow al e;
  Some (if (ok : bool) then
    if existsb (N.eqb id) (eoe_ids e) then (true, e, false)
    else (true, mk_entry (eoe_ids e ++ [id]) (eoe_ceil e), true)
  else (false, e, false)).

(** The last component says whether the flag of the state is set. *)
Definition fsm_eager_output_set (al : fsm_alloc) (info : eager_output_info) (state id : N)
    : option (bool * eager_output_info * bool) :=
  '(ok, info) ←
    (if length (eo_buckets info) / 2 <=? eo_buckets_used info then grow_htab al info
     else Some (true, info));
  if (ok : bool) then
    let store i e u mark := (mk_eager (eo_cb info) (eo_opaque info)
      (<[i := Some (state, e)]> (eo_buckets info)) u, mark : bool) in
    match probe (eo_buckets info) state with
    | None => Some (true, info, false)
    | Some (i, None) =>
        if f_calloc al 1 (8 + N.of_nat DEF_ENTRY_CEIL * 4) then
          '(ok, e, mark) ← entry_add al (mk_entry [] DEF_ENTRY_CEIL) id;
          let '(info, mark) := store i e (eo_buckets_used info + 1) mark in
          Some (ok, info, mark)
        else Some (false, info, false)
    | Some (i, Some e) =>
        '(ok, e, mark) ← entry_add al e id;
        let '(info, mark) := store i e (eo_buckets_used info) mark in
        Some (ok, info, mark)
    end
  else Some (false, info, false).

Definition fsm_eager_output_has_eager_output (info : eager_output_info) : bool :=
  existsb (λ b, match b with None => false | Some (_, e) => 0 <? length (eoe_ids e) end) (eo_buckets info).

(** The calls of the callback for one state. *)
Definition fsm_eager_output_iter_state {E} (info : eager_output_info) (state : N)
    (cb : N → N → E → bool * E) (env : E) : E :=
  match probe (eo_buckets info) state with
  | Some (_, Some e) => (iter_ids cb state (eoe_ids e) env).2
  | _ => env
  end.

Definition inc_cb (state id : N) (count : nat) : bool * nat := (true, count + 1).

Definition fsm_eager_output_count (info : eager_output_info) (state : N) : nat :=
  fsm_eager_output_iter_state info state inc_cb 0.

(** The buffer of [fsm_eager_output_get] and the flag [ok]. *)
Definition append_cb (ceil : nat) (state id : N) (env : bool * list N) : bool * (bool * list N) :=
  let '(ok, buf) := env in
  if length buf =? ceil then (false, (false, buf)) else (true, (ok, buf ++ [id])).

Definition fsm_eager_output_get (info : eager_output_info) (state : N) (buf_count : nat) : bool * list N :=
  let '(ok, buf) := fsm_eager_output_iter_state info state (append_cb buf_count) (true, []) in
  (ok, qsort_N buf).

Fixpoint iter_all_loop {E} (bs : eager_buckets) (cb : N → N → E → bool * E) (env : E) : E :=
  match bs with
  | [] => env
  | None :: bs => iter_all_loop bs cb env
  | Some (s, e) :: bs =>
      let '(ok, env) := iter_ids cb s (eoe_ids e) env in
      if ok then iter_all_loop bs cb env else env
  end.

Definition fsm_eager_output_iter_all {E} (info : eager_output_info) (cb : N → N → E → bool * E) (env : E) : E :=
  iter_all_loop (eo_buckets info) cb env.

Definition fsm_eager_output_compact (al : fsm_alloc) (info : eager_output_info) (mapping : list N)
    : option (bool * eager_output_info) :=
  if mapping_identity mapping then Some (true, info)
  else if f_calloc al (N.of_nat (length (eo_buckets info))) 16 then
    if forallb (λ kv, N.to_nat kv.1 <? length mapping) (entries (eo_buckets info)) then
      nbuckets ← rehash (keep_key mapping) (length (eo_buckets info)) (eo_buckets info);
      Some (true, mk_eager (eo_cb info) (eo_opaque info) nbuckets (eo_buckets_used info))
    else None
  else Some (false, info).
End Ops.

(** ** Meaning and invariant *)

Definition eager_outputs (info : eager_output_info) (state : N) : list N :=
  match table_get (eo_buckets info) state with Some e => eoe_ids e | None => [] end.

Definition entry_wf (e : eager_output_entry) : Prop :=
  NoDup (eoe_ids e) ∧ length (eoe_ids e) ≤ eoe_ceil e ∧ 0 < eoe_ceil e ∧ Forall id_ok (eoe_ids e).

(** Renumbering leaves [buckets_used] as it was, so it is only a bound. *)
Definition eager_wf (info : eager_output_info) : Prop :=
  table_ok (eo_buckets info) ∧ 4 ≤ length (eo_buckets info) ∧
  length (entries (eo_buckets info)) ≤ eo_buckets_used info ≤ length (eo_buckets info) / 2 ∧
  (∀ k e, Some (k, e) ∈ eo_buckets info → entry_wf e).

Definition eager_room (info : eager_output_info) : Prop :=
  (N.of_nat (eo_buckets_used info) < 1073741824)%N.

(** ** Lemmas *)

Lemma eager_outputs_ok info state x : eager_wf info → x ∈ eager_outputs info state → id_ok x.
Proof.
  intros (Hok & _ & _ & Hids). unfold eager_outputs. destruct (table_get (eo_buckets info) state) as [e|] eqn:E; [|by intros ?%not_elem_of_nil].
  apply table_get_spec in E; [|done]. destruct (Hids _ _ E) as (_ & _ & _ & Hall). rewrite Forall_forall in Hall. apply Hall.
Qed.

Section Lemmas.
Context `{allocator}.

Lemma entry_grow_spec al e :
  entry_wf e → ∃ b e', entry_grow al e = Some (b, e') ∧
    (if b then eoe_ids e' = eoe_ids e ∧ length (eoe_ids e) < eoe_ceil e' else e' = e) ∧ (alloc_total → b = true).
Proof.
  intros (Hnd & Hl & Hpos & Hids). pose proof (bounded_length _ _ Hnd Hids) as Hfew. unfold entry_grow.
  destruct (length (eoe_ids e) =? eoe_ceil e) eqn:E; split_bool; [|by eexists _, _; split; [done|]; split; [split; [done|lia]|]].
  rewrite u32n_small by lia. rewrite (proj2 (Nat.ltb_ge _ _)) by lia. destruct (f_realloc al _) eqn:Ea.
  - eexists _, _. split; [done|]. split; [|done]. split; [done|]. cbn. lia.
  - eexists _, _. split; [done|]. split; [done|]. intros Ht. by rewrite f_realloc_total in Ea.
Qed.

Lemma entry_add_spec al e id :
  entry_wf e → id_ok id → ∃ ok e' mark, entry_add al e id = Some (ok, e', mark) ∧ entry_wf e' ∧
  (if ok then eoe_ids e' = (if mark then eoe_ids e ++ [id] else eoe_ids e) ∧ (mark = false ↔ id ∈ eoe_ids e)
   else e' = e ∧ mark = false) ∧ (alloc_total → ok = true).
Proof.
  intros Hwf Hid. destruct (entry_grow_spec al e Hwf) as (ok1 & e1 & E1 & H1 & Ht). unfold entry_add. rewrite E1. cbn [mbind option_bind].
  pose proof Hwf as (Hnd & Hl & Hpos & Hids0).
  destruct ok1; [|eexists _, _, _; split; [done|]; subst; split_and!; done].
  destruct H1 as [Hids Hc]. rewrite Hids. destruct (existsb (N.eqb id) (eoe_ids e)) eqn:E2; (eexists _, _, _; split; [done|]).
  - split; [split_and!; [by rewrite Hids|rewrite Hids; lia|lia|by rewrite Hids]|].
    split; [|done]. split; [done|]. split; [|done]. intros _. apply existsb_exists in E2 as (x & Hx & ->%N.eqb_eq).
    by apply list_elem_of_In.
  - assert (id ∉ eoe_ids e) as Hn.
    { intros Hin. rewrite (proj2 (existsb_exists _ _)) in E2; [done|]. exists id.
      split; [by apply list_elem_of_In|by apply N.eqb_eq]. }
    split; [|split; [split; [done|]; split; done|done]]. split_and!; cbn [eoe_ids eoe_ceil].
    + apply NoDup_app. split_and!; [done| |by apply NoDup_singleton]. by intros x Hx ->%list_elem_of_singleton.
    + rewrite length_app. simpl. lia.
    + lia.
    + apply Forall_app. split; [done|by constructor].
Qed.

Lemma grow_htab_spec al info :
  eager_wf info → eager_room info → length (eo_buckets info) / 2 ≤ eo_buckets_used info →
  ∃ ok info', grow_htab al info = Some (ok, info') ∧ eager_wf info' ∧
    eo_buckets_used info' = eo_buckets_used info ∧
    (∀ k e, Some (k, e) ∈ eo_buckets info' ↔ Some (k, e) ∈ eo_buckets info) ∧
    (ok = true → eo_buckets_used info' < length (eo_buckets info') / 2) ∧ (alloc_total → ok = true).
Proof.
  intros (Hok & H4 & [Hent Hhalf] & Hids) Hroom Hge. unfold grow_htab.
  destruct (f_calloc _ _ _) eqn:Ec; [|exists false, info; split_and!; try done; intros ?; by rewrite f_calloc_total in Ec].
  destruct Hok as [(m & Hm & Hl) Hpath] eqn:Eok. clear Eok.
  assert (m < 31) as Hm'.
  { apply (grow_room (mk_endid_info (replicate (length (eo_buckets info)) None) (eo_buckets_used info)));
      cbn [ei_buckets ei_buckets_used]; rewrite ?length_replicate; [done|done|done|lia]. }
  destruct (rehash_spec Some (2 * length (eo_buckets info)) (S m) (eo_buckets info))
    as (t & Ht & Htok & Htl & Hte & Htin); [lia|rewrite Hl; simpl; lia| |by apply NoDup_keys|intros; congruence|].
  { pose proof (length_entries_le (eo_buckets info)). lia. }
  rewrite Ht. cbn [mbind option_bind]. eexists true, _. split; [done|].
  assert (∀ k e, Some (k, e) ∈ t ↔ Some (k, e) ∈ eo_buckets info) as Hin by (intros; rewrite Htin; naive_solver).
  rewrite filter_all in Hte by eauto.
  assert (eo_buckets_used info < length t / 2) as Hlt.
  { rewrite Htl, Nat.mul_comm, Nat.div_mul by done. eapply Nat.le_lt_trans; [exact Hhalf|]. apply Nat.div_lt; lia. }
  split_and!; try done; cbn [eo_buckets eo_buckets_used].
  split; [done|]. cbn [eo_buckets eo_buckets_used]. split_and!; [lia|lia|lia|]. intros k e Hke%Hin. eauto.
Qed.

(** Setting an eager output appends the id to those of the state, unless it is
    there already, marks the state when it does, and changes nothing else. *)
Lemma fsm_eager_output_set_spec al info state id :
  eager_wf info → eager_room info → id_ok id →
  ∃ b info' mark, fsm_eager_output_set al info state id = Some (b, info', mark) ∧ eager_wf info' ∧
    (∀ k, k ≠ state → eager_outputs info' k = eager_outputs info k) ∧
    (b = true → eager_outputs info' state =
       (if mark then eager_outputs info state ++ [id] else eager_outputs info state) ∧
       (mark = false ↔ id ∈ eager_outputs info state)) ∧
    (b = false → mark = false ∧ ∀ k, eager_outputs info' k = eager_outputs info k) ∧
    (alloc_total → b = true).
Proof.
  intros Hwf Hroom Hid. unfold fsm_eager_output_set.
  assert (∃ ok info1, (if length (eo_buckets info) / 2 <=? eo_buckets_used info then grow_htab al info
      else Some (true, info)) = Some (ok, info1) ∧ eager_wf info1 ∧
    (∀ k e, Some (k, e) ∈ eo_buckets info1 ↔ Some (k, e) ∈ eo_buckets info) ∧
    (ok = true → eo_buckets_used info1 < length (eo_buckets info1) / 2) ∧ (alloc_total → ok = true))
    as (ok & info1 & -> & Hwf1 & Hin & Hlt & Htot).
  { destruct (_ <=? _) eqn:E; split_bool.
    - destruct (grow_htab_spec al info Hwf Hroom E) as (ok & info1 & Hg & ? & _ & ? & ? & ?). eauto 10.
    - exists true, info. split_and!; done || lia. }
  cbn [mbind option_bind].
  assert (∀ k, eager_outputs info1 k = eager_outputs info k) as Hsame.
  { intros k. unfold eager_outputs. destruct Hwf as [Hok _], Hwf1 as [Hok1 _].
    assert (table_get (eo_buckets info1) k = table_get (eo_buckets info) k) as ->; [|done].
    apply option_eq. intros v. by rewrite !table_get_spec. }
  destruct ok.
  2:{ exists false, info1, false. split_and!; done. }
  specialize (Hlt eq_refl). destruct Hwf1 as (Hok & H4 & [Hent Hhalf] & Hids).
  assert (length (entries (eo_buckets info1)) < length (eo_buckets info1)) as Hfree.
  { pose proof (Nat.div_lt (length (eo_buckets info1)) 2). lia. }
  destruct (entries_empty_slot _ Hfree) as [i0 Hi0]. destruct (probe_total _ state i0 Hok Hi0) as [[i found] Hp].
  rewrite Hp. pose proof (probe_spec _ state Hok) as Hs. rewrite Hp in Hs. destruct Hs as (_ & _ & _ & _ & Hi).
  assert (eager_outputs info1 state = match found with Some e => eoe_ids e | None => [] end) as Hst
    by (unfold eager_outputs, table_get; by rewrite Hp).
  (* storing an entry in the bucket *)
  assert (∀ e, entry_wf e → let info' := mk_eager (eo_cb info1) (eo_opaque info1)
      (<[i := Some (state, e)]> (eo_buckets info1)) (eo_buckets_used info1 + (if found is None then 1 else 0)) in
    eager_wf info' ∧ (∀ k, k ≠ state → eager_outputs info' k = eager_outputs info k) ∧
    eager_outputs info' state = eoe_ids e) as Hstore.
  { intros e He info'. assert (table_ok (<[i := Some (state, e)]> (eo_buckets info1))) as Hok' by (by eapply table_ok_insert).
    split_and!.
    - split; [done|]. cbn [eo_buckets eo_buckets_used info']. rewrite length_insert. split; [done|].
      pose proof (length_entries_insert _ i (Some (state, e)) _ Hi) as Hl. simpl in Hl.
      split; [destruct found; simpl in *; lia|].
      intros k e' [[-> ->]|[_ Hin']]%(elem_of_insert_slot _ state i found e); eauto.
    - intros k Hk. rewrite <-Hsame. unfold eager_outputs. cbn [eo_buckets info'].
      assert (table_get (<[i := Some (state, e)]> (eo_buckets info1)) k = table_get (eo_buckets info1) k) as ->; [|done].
      apply option_eq. intros v. rewrite !table_get_spec, (elem_of_insert_slot _ state i found) by done. naive_solver.
    - unfold eager_outputs. cbn [eo_buckets info'].
      assert (table_get (<[i := Some (state, e)]> (eo_buckets info1)) state = Some e) as ->; [|done].
      apply table_get_spec; [done|]. apply (elem_of_insert_slot _ state i found); [done|done|]. by left. }
  destruct found as [e|]; cbn [fmap option_fmap option_map] in Hi.
  - assert (entry_wf e) as He by (eapply Hids, list_elem_of_lookup; eauto).
    destruct (entry_add_spec al e id He Hid) as (ok & e' & mark & -> & He' & Hcase & Ht). cbn [mbind option_bind].
    destruct (Hstore e' He') as (K1 & K2 & K3). rewrite Nat.add_0_r in K1, K2, K3.
    eexists ok, _, mark. split; [done|]. split_and!; [done|done| | |done].
    + intros ->. rewrite K3, <-Hsame, Hst. done.
    + intros ->. destruct Hcase as [-> ->]. split; [done|]. intros k.
      destruct (decide (k = state)) as [->|]; [by rewrite K3, <-Hsame, Hst|by apply K2].
  - destruct (f_calloc _ _ _) eqn:Ecal.
    2:{ exists false, info1, false. split_and!; try done. intros Ht. by rewrite f_calloc_total in Ecal. }
    assert (entry_wf (mk_entry [] DEF_ENTRY_CEIL)) as He by (split_and!; [apply NoDup_nil_2|simpl; lia|simpl; unfold DEF_ENTRY_CEIL; lia|constructor]).
    destruct (entry_add_spec al _ id He Hid) as (ok & e' & mark & -> & He' & Hcase & Ht). cbn [mbind option_bind].
    destruct (Hstore e' He') as (K1 & K2 & K3).
    eexists ok, _, mark. split; [done|]. split_and!; [done|done| | |done].
    + intros ->. rewrite K3, <-Hsame, Hst. done.
    + intros ->. destruct Hcase as [-> ->]. split; [done|]. intros k.
      destruct (decide (k = state)) as [->|]; [by rewrite K3, <-Hsame, Hst|by apply K2].
Qed.

(** Only the state set may be new among the keys. *)
Lemma fsm_eager_output_set_keys al info state id b info' mark k e :
  eager_wf info → eager_room info → fsm_eager_output_set al info state id = Some (b, info', mark) →
  Some (k, e) ∈ eo_buckets info' → k = state ∨ ∃ e', Some (k, e') ∈ eo_buckets info.
Proof.
  intros Hwf Hroom. unfold fsm_eager_output_set.
  assert (∃ ok info1, (if length (eo_buckets info) / 2 <=? eo_buckets_used info then grow_htab al info
      else Some (true, info)) = Some (ok, info1) ∧
    (∀ k e, Some (k, e) ∈ eo_buckets info1 ↔ Some (k, e) ∈ eo_buckets info)) as (ok & info1 & -> & Hin).
  { destruct (_ <=? _) eqn:E; split_bool; [|by eexists _, _].
    destruct (grow_htab_spec al info Hwf Hroom E) as (ok & info1 & Hg & _ & _ & ? & _). eauto. }
  cbn [mbind option_bind].
  assert (∀ i x, Some (k, e) ∈ (<[i := Some (state, x)]> (eo_buckets info1)) →
    k = state ∨ ∃ e', Some (k, e') ∈ eo_buckets info) as Hins.
  { intros i x [j Hj]%list_elem_of_lookup. destruct (decide (i = j)) as [->|Hne].
    - destruct (decide (j < length (eo_buckets info1))) as [Hlt|Hge].
      + rewrite list_lookup_insert_eq in Hj by done. simplify_eq. by left.
      + rewrite list_insert_ge in Hj by lia. right. exists e. apply Hin, list_elem_of_lookup. eauto.
    - rewrite list_lookup_insert_ne in Hj by done. right. exists e. apply Hin, list_elem_of_lookup. eauto. }
  assert (Some (k, e) ∈ eo_buckets info1 → k = state ∨ ∃ e', Some (k, e') ∈ eo_buckets info) as Hsame.
  { intros Hk%Hin. eauto. }
  destruct ok; [|intros; simplify_eq; eauto]. destruct (probe (eo_buckets info1) state) as [[i [e0|]]|]; [| |intros; simplify_eq; eauto].
  - destruct (entry_add al e0 id) as [[[ok1 e1] m1]|]; [|done]. cbn [mbind option_bind]. intros; simplify_eq; cbn [eo_buckets] in *; eauto.
  - destruct (f_calloc _ _ _); [|intros; simplify_eq; eauto].
    destruct (entry_add al _ id) as [[[ok1 e1] m1]|]; [|done]. cbn [mbind option_bind]. intros; simplify_eq; cbn [eo_buckets] in *; eauto.
Qed.
End Lemmas.

(** ** Lemmas: reading and renumbering *)

Lemma iter_ids_inc state ids n : (iter_ids inc_cb state ids n).2 = n + length ids.
Proof. revert n; induction ids as [|x ids IH]; intros n; simpl; [lia|]. rewrite IH. lia. Qed.

Lemma iter_ids_append state ids ceil : ∀ buf,
  length buf ≤ ceil →
  (iter_ids (append_cb ceil) state ids (true, buf)).2 =
    (length buf + length ids <=? ceil, buf ++ take (ceil - length buf) ids).
Proof.
  induction ids as [|x ids IH]; intros buf Hb; simpl.
  { rewrite take_nil, app_nil_r. by rewrite Nat.add_0_r, (proj2 (Nat.leb_le _ _) Hb). }
  destruct (length buf =? ceil) eqn:E; split_bool.
  - simpl. rewrite E, Nat.sub_diag. simpl. rewrite app_nil_r.
    replace (ceil + S (length ids) <=? ceil) with false by (symmetry; apply Nat.leb_gt; lia). done.
  - rewrite IH by (rewrite length_app; simpl; lia). rewrite length_app. simpl.
    replace (length buf + 1 + length ids) with (length buf + S (length ids)) by lia.
    replace (ceil - length buf) with (S (ceil - (length buf + 1))) by lia. simpl.
    by rewrite <-(assoc app).
Qed.

Lemma eager_iter_state {E} info state cb (env : E) :
  fsm_eager_output_iter_state info state cb env = (iter_ids cb state (eager_outputs info state) env).2.
Proof.
  unfold fsm_eager_output_iter_state, eager_outputs, table_get.
  by destruct (probe (eo_buckets info) state) as [[i [e|]]|].
Qed.

Lemma fsm_eager_output_compact_spec `{alloc_total} al info mapping :
  eager_wf info → (N.of_nat (length mapping) ≤ 4294967295)%N →
  (∀ k e, Some (k, e) ∈ eo_buckets info → N.to_nat k < length mapping) →
  (∀ k1 k2 n, keep_key mapping k1 = Some n → keep_key mapping k2 = Some n → k1 = k2) →
  ∃ info', fsm_eager_output_compact al info mapping = Some (true, info') ∧ eager_wf info' ∧
    (∀ n e, Some (n, e) ∈ eo_buckets info' → ∃ k, Some (k, e) ∈ eo_buckets info ∧ keep_key mapping k = Some n) ∧
    (∀ k n, keep_key mapping k = Some n → N.to_nat k < length mapping →
       eager_outputs info' n = eager_outputs info k).
Proof.
  intros Hwf Hmlen Hcov Hinj. pose proof Hwf as (Hok & H4 & [Hent Hhalf] & Hids). unfold fsm_eager_output_compact.
  destruct (mapping_identity mapping) eqn:Eid.
  { exists info. split; [done|]. split; [done|]. split.
    - intros n e Hin. exists n. split; [done|]. apply mapping_identity_keep; eauto.
    - intros k n Hk Hlt. rewrite mapping_identity_keep in Hk by done. by simplify_eq. }
  rewrite f_calloc_total. replace (forallb _ _) with true.
  2:{ symmetry. apply forallb_forall. intros [k e] Hin. rewrite <-list_elem_of_In in Hin.
      apply elem_of_entries in Hin. apply Nat.ltb_lt. by eapply Hcov. }
  destruct Hok as [(m & Hm & Hl) Hpath] eqn:Eok. clear Eok.
  destruct (rehash_spec (keep_key mapping) (length (eo_buckets info)) m (eo_buckets info))
    as (t & Ht & Htok & Htl & Hte & Htin); [done|done|apply length_entries_le|by apply NoDup_keys|naive_solver|].
  rewrite Ht. cbn [mbind option_bind]. eexists; split; [done|]. split.
  - split; [done|]. cbn [eo_buckets eo_buckets_used]. rewrite Htl. split_and!; [done| |done|].
    + rewrite Hte. etrans; [apply length_filter|done].
    + intros k e (k0 & Hk0 & _)%Htin. eauto.
  - split; [intros n e (k & Hk & Hn)%Htin; eauto|]. intros k n Hk Hlt. unfold eager_outputs. cbn [eo_buckets].
    assert (table_get t n = table_get (eo_buckets info) k) as ->; [|done].
    apply option_eq. intros e. rewrite !table_get_spec by done. rewrite Htin. split; [|eauto].
    intros (k' & Hk' & Hn). by rewrite (Hinj k k' n).
Qed.

(** ** Properties *)


