(* ===== verification/Lang.v ===== *)
(** * Automata and their languages

    The specification the operations of the library are held to: a
    nondeterministic automaton with epsilon transitions over octets, given by
    its transition relations, and the words it accepts. Equality of automata is
    pointwise equivalence of their relations, a setoid for which acceptance is
    a morphism. *)

From S2P Require Import Prelude.

Record nfa := mk_nfa {
  n_edge : N → nat → N → Prop;
  n_eps : N → N → Prop;
  n_end : N → Prop;
  n_start : N → Prop;
}.

#[export] Instance nfa_equiv : Equiv nfa := λ A B,
  (∀ s c t, n_edge A s c t ↔ n_edge B s c t) ∧ (∀ s t, n_eps A s t ↔ n_eps B s t) ∧
  (∀ s, n_end A s ↔ n_end B s) ∧ (∀ s, n_start A s ↔ n_start B s).

#[export] Instance nfa_equivalence : Equivalence nfa_equiv.
Proof.
  split.
  - intros A. by split_and!.
  - intros A B (H1 & H2 & H3 & H4). split_and!; intros; symmetry; auto.
  - intros A B C (H1 & H2 & H3 & H4) (K1 & K2 & K3 & K4). split_and!; intros; etrans; eauto.
Qed.

(** [path A s w t]: the automaton can go from [s] to [t] reading [w]. *)
Inductive path (A : nfa) : N → list nat → N → Prop :=
  | path_nil s : path A s [] s
  | path_eps s s' w t : n_eps A s s' → path A s' w t → path A s w t
  | path_step s c s' w t : n_edge A s c s' → path A s' w t → path A s (c :: w) t.

Definition accepts (A : nfa) (w : list nat) : Prop :=
  ∃ s t, n_start A s ∧ path A s w t ∧ n_end A t.

#[export] Hint Constructors path : fsm.

Lemma path_app A s w t w' u : path A s w t → path A t w' u → path A s (w ++ w') u.
Proof. induction 1; simpl; eauto with fsm. Qed.

Lemma path_mono A B s w t :
  (∀ s c t, n_edge A s c t → n_edge B s c t) → (∀ s t, n_eps A s t → n_eps B s t) →
  path A s w t → path B s w t.
Proof. intros He Hp. induction 1; eauto with fsm. Qed.

#[export] Instance path_proper : Proper ((≡) ==> (=) ==> (=) ==> (=) ==> iff) path.
Proof.
  intros A B (H1 & H2 & _) s ? <- w ? <- t ? <-. split; apply path_mono; naive_solver.
Qed.

#[export] Instance accepts_proper : Proper ((≡) ==> (=) ==> iff) accepts.
Proof.
  intros A B HAB w ? <-. unfold accepts.
  assert (∀ s t, path A s w t ↔ path B s w t) as Hp by (intros; by rewrite HAB).
  destruct HAB as (_ & _ & H3 & H4). setoid_rewrite Hp. setoid_rewrite H3. setoid_rewrite H4. done.
Qed.

(** Epsilon closure. *)
Lemma path_nil_rtc A s t : path A s [] t ↔ rtc (n_eps A) s t.
Proof.
  split.
  - intros Hp. remember [] as w. induction Hp; simplify_eq; [done|]. eapply rtc_l; eauto.
  - induction 1; eauto with fsm.
Qed.

Lemma path_cons_inv A s c w t :
  path A s (c :: w) t → ∃ s1 s2, rtc (n_eps A) s s1 ∧ n_edge A s1 c s2 ∧ path A s2 w t.
Proof.
  intros Hp. remember (c :: w) as cw. induction Hp as [| s s' w' t He Hp IH |s c' s' w' t He Hp IH]; simplify_eq.
  - destruct IH as (s1 & s2 & H1 & H2 & H3); [done|]. exists s1, s2. split; [|done]. eapply rtc_l; eauto.
  - exists s, s'. done.
Qed.

Lemma path_cons A s c w t s1 s2 :
  rtc (n_eps A) s s1 → n_edge A s1 c s2 → path A s2 w t → path A s (c :: w) t.
Proof. intros Hs He Hp. induction Hs; eauto with fsm. Qed.

Lemma path_app_inv A w w' : ∀ s u,
  path A s (w ++ w') u → ∃ t, path A s w t ∧ path A t w' u.
Proof.
  induction w as [|c w IH]; intros s u Hp; [eauto with fsm|].
  apply path_cons_inv in Hp as (s1 & s2 & H1 & H2 & H3). apply IH in H3 as (t & H3 & H4).
  exists t. split; [|done]. by eapply path_cons.
Qed.

(** ** Deterministic automata *)

Definition deterministic (A : nfa) : Prop :=
  (∀ s t, ¬ n_eps A s t) ∧ (∀ s c t t', n_edge A s c t → n_edge A s c t' → t = t') ∧
  (∀ s s', n_start A s → n_start A s' → s = s').

Lemma path_det A s w t t' :
  deterministic A → path A s w t → path A s w t' → t = t'.
Proof.
  intros (He & Hd & _) Hp. revert t'. induction Hp as [s|s s' w t Hs|s c s' w t Hs _ IH]; intros t' Hp'.
  - apply path_nil_rtc in Hp'. inversion Hp' as [|? ? ? Hx]; [done|]. by apply He in Hx.
  - by apply He in Hs.
  - apply path_cons_inv in Hp' as (s1 & s2 & H1 & H2 & H3).
    inversion H1 as [|? ? ? Hx]; subst; [|by apply He in Hx].
    rewrite (Hd _ _ _ _ Hs H2) in IH. auto.
Qed.

(** ** Renaming states

    An automaton [B] that is [A] with its live states renumbered by a function
    that is injective on them. *)

Record renames (A B : nfa) (live : N → Prop) (f : N → N) : Prop := {
  ren_inj s s' : live s → live s' → f s = f s' → s = s';
  ren_edge_live s c t : n_edge A s c t → live s → live t;
  ren_eps_live s t : n_eps A s t → live s → live t;
  ren_edge s c t : live s → n_edge B (f s) c t ↔ ∃ t', n_edge A s c t' ∧ t = f t';
  ren_eps s t : live s → n_eps B (f s) t ↔ ∃ t', n_eps A s t' ∧ t = f t';
  ren_end s : live s → n_end B (f s) ↔ n_end A s;
}.

Lemma path_renames A B live f s w t :
  renames A B live f → live s →
  path B (f s) w t ↔ ∃ t', path A s w t' ∧ live t' ∧ t = f t'.
Proof.
  intros Hr Hs. split.
  - intros Hp. remember (f s) as fs. revert s Hs Heqfs.
    induction Hp as [fs|fs fs' w t He Hp IH|fs c fs' w t He Hp IH]; intros s Hs ->.
    + exists s. split_and!; [constructor|done|done].
    + apply (ren_eps _ _ _ _ Hr) in He as (s' & He & ->); [|done].
      destruct (IH s' (ren_eps_live _ _ _ _ Hr _ _ He Hs) eq_refl) as (t' & H1 & H2 & H3). eauto with fsm.
    + apply (ren_edge _ _ _ _ Hr) in He as (s' & He & ->); [|done].
      destruct (IH s' (ren_edge_live _ _ _ _ Hr _ _ _ He Hs) eq_refl) as (t' & H1 & H2 & H3). eauto with fsm.
  - intros (t' & Hp & _ & ->). revert Hs. induction Hp as [s|s s' w t He Hp IH|s c s' w t He Hp IH]; intros Hs.
    + constructor.
    + eapply path_eps; [apply (ren_eps _ _ _ _ Hr); eauto|]. apply IH. by eapply (ren_eps_live _ _ _ _ Hr).
    + eapply path_step; [apply (ren_edge _ _ _ _ Hr); eauto|]. apply IH. by eapply (ren_edge_live _ _ _ _ Hr).
Qed.

Lemma path_live A B live f s w t : renames A B live f → live s → path A s w t → live t.
Proof.
  intros Hr Hs Hp. induction Hp as [s|s s' w t He Hp IH|s c s' w t He Hp IH]; [done| |];
    apply IH; [by eapply (ren_eps_live _ _ _ _ Hr)|by eapply (ren_edge_live _ _ _ _ Hr)].
Qed.

(** Renaming keeps the language. *)
Lemma accepts_renames A B live f w :
  renames A B live f → (∀ s, n_start A s → live s) → (∀ s, n_start B s ↔ ∃ s', n_start A s' ∧ s = f s') →
  accepts B w ↔ accepts A w.
Proof.
  intros Hr Hls Hst. unfold accepts. split.
  - intros (s & t & Hs & Hp & He). apply Hst in Hs as (s' & Hs & ->).
    apply (path_renames _ _ _ _ _ _ _ Hr) in Hp as (t' & Hp & Ht & ->); [|by apply Hls].
    exists s', t'. split_and!; [done|done|]. by apply (ren_end _ _ _ _ Hr).
  - intros (s & t & Hs & Hp & He). exists (f s), (f t).
    assert (live s) as Hl by auto. pose proof (path_live _ _ _ _ _ _ _ Hr Hl Hp) as Hlt.
    split_and!; [apply Hst; eauto| |by apply (ren_end _ _ _ _ Hr)].
    apply (path_renames _ _ _ _ _ _ _ Hr); eauto.
Qed.

(** ** Languages of states *)

(** The words read from a state to an end state. *)
Definition reaches_end (A : nfa) (s : N) (w : list nat) : Prop := ∃ t, path A s w t ∧ n_end A t.

Lemma accepts_reaches A w : accepts A w ↔ ∃ s, n_start A s ∧ reaches_end A s w.
Proof. unfold accepts, reaches_end. naive_solver. Qed.

Lemma reaches_renames A B live f s w :
  renames A B live f → live s → reaches_end B (f s) w ↔ reaches_end A s w.
Proof.
  intros Hr Hs. unfold reaches_end. split.
  - intros (t & Hp & He). apply (path_renames _ _ _ _ _ _ _ Hr) in Hp as (t' & Hp & Ht & ->); [|done].
    exists t'. split; [done|]. by apply (ren_end _ _ _ _ Hr).
  - intros (t & Hp & He). pose proof (path_live _ _ _ _ _ _ _ Hr Hs Hp) as Ht. exists (f t).
    split; [apply (path_renames _ _ _ _ _ _ _ Hr); eauto|]. by apply (ren_end _ _ _ _ Hr).
Qed.

#[export] Instance reaches_end_proper : Proper ((≡) ==> (=) ==> (=) ==> iff) reaches_end.
Proof.
  intros A B HAB s ? <- w ? <-. unfold reaches_end.
  assert (∀ t, path A s w t ↔ path B s w t) as Hp by (intros; by rewrite HAB).
  destruct HAB as (_ & _ & H3 & _). setoid_rewrite Hp. setoid_rewrite H3. done.
Qed.

(** A state left by epsilon transitions only. *)
Lemma reaches_eps_only A s w :
  (∀ c t, ¬ n_edge A s c t) → ¬ n_end A s →
  reaches_end A s w ↔ ∃ t, n_eps A s t ∧ reaches_end A t w.
Proof.
  intros Hne He. split.
  - intros (t & Hp & Ht). inversion Hp as [|? s' ? ? Hs Hp'|? c s' ? ? Hs]; subst; [done| |by apply Hne in Hs].
    exists s'. split; [done|]. exists t. done.
  - intros (s' & Hs & t & Hp & Ht). exists t. split; [|done]. by eapply path_eps.
Qed.

#[export] Instance renames_proper : Proper ((≡) ==> (≡) ==> (=) ==> (=) ==> iff) renames.
Proof.
  assert (∀ A A' B B' live f, A ≡ A' → B ≡ B' → renames A B live f → renames A' B' live f) as Hg.
  { intros A A' B B' live f (H1 & H2 & H3 & _) (K1 & K2 & K3 & _) [R1 R2 R3 R4 R5 R6]. split.
    - done.
    - intros s c t He. apply (R2 s c t). by apply H1.
    - intros s t He. apply (R3 s t). by apply H2.
    - intros s c t Hs. rewrite <-K1, R4 by done. by setoid_rewrite H1.
    - intros s t Hs. rewrite <-K2, R5 by done. by setoid_rewrite H2.
    - intros s Hs. rewrite <-K3, R6 by done. apply H3. }
  intros A A' HA B B' HB live ? <- f ? <-. split; apply Hg; done.
Qed.

(** Two automata in sequence: [C] is [A] under [f], linked from its state [ea],
    no longer an end, to the state [sb]. *)
Lemma reaches_join A C (live : N → Prop) f ea sb s w :
  (∀ s c t, live s → n_edge A s c t → live t) → (∀ s t, live s → n_eps A s t → live t) →
  (∀ s c t, live s → n_edge C (f s) c t ↔ ∃ t', n_edge A s c t' ∧ t = f t') →
  (∀ s t, live s → n_eps C (f s) t ↔ (∃ t', n_eps A s t' ∧ t = f t') ∨ s = ea ∧ t = sb) →
  (∀ s, live s → n_end C (f s) ↔ n_end A s ∧ s ≠ ea) → live s →
  reaches_end C (f s) w ↔
  (∃ t, path A s w t ∧ n_end A t ∧ t ≠ ea) ∨ ∃ u v, w = u ++ v ∧ path A s u ea ∧ reaches_end C sb v.
Proof.
  intros Hel Hpl He Hp Hn Hs. split.
  - intros (t & Hc & Ht). remember (f s) as fs eqn:Efs. revert s Hs Efs.
    induction Hc as [fs|fs fs' w t Hx Hc IH|fs c fs' w t Hx Hc IH]; intros s Hs ->.
    + left. exists s. split; [constructor|by apply Hn].
    + apply Hp in Hx as [(s' & Hx & ->)|[-> ->]]; [| |done].
      * destruct (IH Ht s' (Hpl _ _ Hs Hx) eq_refl) as [(t' & ? & ?)|(u & v & -> & ? & ?)]; [left|right]; eauto 10 with fsm.
      * right. exists [], w. split; [done|]. split; [constructor|]. by exists t.
    + apply He in Hx as (s' & Hx & ->); [|done].
      destruct (IH Ht s' (Hel _ _ _ Hs Hx) eq_refl) as [(t' & ? & ?)|(u & v & -> & ? & ?)]; [left; eauto 10 with fsm|].
      right. exists (c :: u), v. eauto with fsm.
  - assert (∀ u t, path A s u t → live t ∧ path C (f s) u (f t)) as Hpath.
    { intros u t Hu. induction Hu as [s|s s' u t Hx Hu IH|s c s' u t Hx Hu IH]; [split; [done|constructor]| |].
      - destruct IH as [? ?]; [by eapply Hpl|]. split; [done|]. eapply path_eps; [apply Hp; eauto|done].
      - destruct IH as [? ?]; [by eapply Hel|]. split; [done|]. eapply path_step; [apply He; eauto|done]. }
    intros [(t & Hu & Ht)|(u & v & -> & Hu & t & Hv & Ht)]; destruct (Hpath _ _ Hu) as [Hl Hc].
    + exists (f t). split; [done|]. by apply Hn.
    + exists t. split; [|done]. eapply path_app; [exact Hc|]. eapply path_eps; [apply Hp; eauto|done].
Qed.

(** An automaton with a new state that its end states lead to. *)
Lemma path_collated A B new s w t :
  (∀ s c t, n_edge B s c t ↔ n_edge A s c t) → (∀ s t, n_eps B s t ↔ n_eps A s t ∨ t = new ∧ n_end A s) →
  (∀ c t, ¬ n_edge A new c t) → (∀ t, ¬ n_eps A new t) → ¬ n_end A new →
  (∀ s c, ¬ n_edge A s c new) → (∀ s, ¬ n_eps A s new) → s ≠ new →
  path B s w t ↔ (t ≠ new ∧ path A s w t) ∨ (t = new ∧ reaches_end A s w).
Proof.
  intros He Hp N1 N2 N3 N4 N5 Hs. split.
  - induction 1 as [s|s s' w t Hx Hb IH|s c s' w t Hx Hb IH].
    + left. split; [done|constructor].
    + apply Hp in Hx as [Hx|[-> Hx]].
      * destruct IH as [[? ?]|[? (t' & ? & ?)]]; [intros ->; by eapply N5|left; eauto with fsm|right].
        split; [done|]. exists t'. eauto with fsm.
      * right. inversion Hb as [|? s2 ? ? Hy|? ? ? ? ? Hy]; subst.
        -- split; [done|]. exists s. split; [constructor|done].
        -- apply Hp in Hy as [Hy|[_ Hy]]; [by apply N2 in Hy|done].
        -- by apply He, N1 in Hy.
    + apply He in Hx. destruct IH as [[? ?]|[? (t' & ? & ?)]]; [intros ->; by eapply N4|left; eauto with fsm|right].
      split; [done|]. exists t'. eauto with fsm.
  - assert (∀ u, path A s w u → path B s w u) as Hm by (intros u; apply path_mono; [intros; by apply He|intros; apply Hp; auto]).
    intros [[_ Hx]|[-> (u & Hx & Hu)]]; [by apply Hm|]. rewrite <-(app_nil_r w).
    eapply path_app; [by apply Hm|]. eapply path_eps; [apply Hp; by right|constructor].
Qed.

(** Every transition turned around. *)
Lemma path_reverse A B s w t :
  (∀ s c t, n_edge B t c s ↔ n_edge A s c t) → (∀ s t, n_eps B t s ↔ n_eps A s t) →
  path B t w s ↔ path A s (reverse w) t.
Proof.
  assert (∀ A B s w t, (∀ s c t, n_edge A s c t → n_edge B t c s) → (∀ s t, n_eps A s t → n_eps B t s) →
    path A s w t → path B t (reverse w) s) as Hg.
  { clear. intros A B s w t He Hp. induction 1 as [s|s s' w t Hx _ IH|s c s' w t Hx _ IH]; [constructor| |].
    - rewrite <-(app_nil_r (reverse w)). eapply path_app; [exact IH|]. eapply path_eps; [by apply Hp|constructor].
    - rewrite reverse_cons. eapply path_app; [exact IH|]. eapply path_step; [by apply He|constructor]. }
  intros He Hp. split.
  - apply Hg; intros; [by apply He|by apply Hp].
  - rewrite <-(reverse_involutive w) at 2. apply Hg; intros; [by apply He|by apply Hp].
Qed.
