(* ===== verification/Fsm.v ===== *)
(** * The automaton: src/libfsm/fsm.c, state.c, edge.c, end.c, start.c

    [struct fsm] owns an array of [statealloc] states of which [statecount] are
    in use, the start state and the metadata tables. The model keeps the whole
    array, since a slot that is used again keeps the flag
    [has_capture_actions] of the state it held before. State ids are 32-bit
    numbers. The assertions on the arguments of the functions ([state <
    statecount]) are hypotheses of the lemmas. *)

From S2P Require Import Prelude StateSet Bits EdgeSet EdgeIter EdgeCompact Probe Endids EagerOutput.

Record fsm_state := mk_state {
  st_edges : edge_set_ptr;
  st_epsilons : state_set;
  st_end : bool;
  st_has_capture_actions : bool;
  st_visited : bool;
  st_has_eager_outputs : bool;
}.

#[export] Instance fsm_state_inhabited : Inhabited fsm_state :=
  populate (mk_state None SSNull false false false false).

(** Capture metadata; only its initialisation concerns this file. *)
Inductive capture_action_type :=
  | CAPTURE_ACTION_START | CAPTURE_ACTION_EXTEND | CAPTURE_ACTION_COMMIT_ZERO_STEP | CAPTURE_ACTION_COMMIT.

Record fsm_capture_action := mk_action { ca_id : N; ca_type : capture_action_type; ca_to : N }.

Record fsm_capture_info := mk_capture {
  ci_max_capture_id : N;
  ci_buckets_used : nat;
  ci_buckets : list (option (N * fsm_capture_action));
}.

Record linkage_info := mk_linkage {
  li_unanchored_start_loop : N;
  li_unanchored_end_loop : N;
  li_unanchored_end_loop_end : N;
  li_anchored_starts : state_set;
  li_anchored_ends : state_set;
}.

(** [statealloc] is the length of [f_states]. *)
Record fsm := mk_fsm {
  f_states : list fsm_state;
  f_alloc : fsm_alloc;
  f_statecount : nat;
  f_endcount : nat;
  f_hasstart : bool;
  f_start : N;
  f_capture_info : fsm_capture_info;
  f_endid_info : endid_info;
  f_eager_output_info : eager_output_info;
  f_linkage_info : option linkage_info;
}.

Definition FSM_DEFAULT_STATEALLOC : nat := 128.
Definition sizeof_fsm : N := 72.
Definition sizeof_fsm_state : N := 24.

Definition get_state (f : fsm) (s : N) : fsm_state := f_states f !!! N.to_nat s.

(** Updates of one field. *)
Definition with_states (f : fsm) (l : list fsm_state) : fsm :=
  mk_fsm l (f_alloc f) (f_statecount f) (f_endcount f) (f_hasstart f) (f_start f)
    (f_capture_info f) (f_endid_info f) (f_eager_output_info f) (f_linkage_info f).
Definition with_statecount (f : fsm) (n : nat) : fsm :=
  mk_fsm (f_states f) (f_alloc f) n (f_endcount f) (f_hasstart f) (f_start f)
    (f_capture_info f) (f_endid_info f) (f_eager_output_info f) (f_linkage_info f).
Definition with_endcount (f : fsm) (n : nat) : fsm :=
  mk_fsm (f_states f) (f_alloc f) (f_statecount f) n (f_hasstart f) (f_start f)
    (f_capture_info f) (f_endid_info f) (f_eager_output_info f) (f_linkage_info f).
Definition with_start (f : fsm) (has : bool) (s : N) : fsm :=
  mk_fsm (f_states f) (f_alloc f) (f_statecount f) (f_endcount f) has s
    (f_capture_info f) (f_endid_info f) (f_eager_output_info f) (f_linkage_info f).
Definition with_endid_info (f : fsm) (ei : endid_info) : fsm :=
  mk_fsm (f_states f) (f_alloc f) (f_statecount f) (f_endcount f) (f_hasstart f) (f_start f)
    (f_capture_info f) ei (f_eager_output_info f) (f_linkage_info f).
Definition with_eager_output_info (f : fsm) (eo : eager_output_info) : fsm :=
  mk_fsm (f_states f) (f_alloc f) (f_statecount f) (f_endcount f) (f_hasstart f) (f_start f)
    (f_capture_info f) (f_endid_info f) eo (f_linkage_info f).

Definition with_capture_info (f : fsm) (ci : fsm_capture_info) : fsm :=
  mk_fsm (f_states f) (f_alloc f) (f_statecount f) (f_endcount f) (f_hasstart f) (f_start f)
    ci (f_endid_info f) (f_eager_output_info f) (f_linkage_info f).

Definition upd_state (f : fsm) (s : N) (g : fsm_state → fsm_state) : fsm :=
  with_states f (alter g (N.to_nat s) (f_states f)).

Definition set_edges (p : edge_set_ptr) (st : fsm_state) : fsm_state :=
  mk_state p (st_epsilons st) (st_end st) (st_has_capture_actions st) (st_visited st) (st_has_eager_outputs st).
Definition set_epsilons (e : state_set) (st : fsm_state) : fsm_state :=
  mk_state (st_edges st) e (st_end st) (st_has_capture_actions st) (st_visited st) (st_has_eager_outputs st).
Definition set_end (b : bool) (st : fsm_state) : fsm_state :=
  mk_state (st_edges st) (st_epsilons st) b (st_has_capture_actions st) (st_visited st) (st_has_eager_outputs st).
Definition set_has_capture (b : bool) (st : fsm_state) : fsm_state :=
  mk_state (st_edges st) (st_epsilons st) (st_end st) b (st_visited st) (st_has_eager_outputs st).
Definition set_visited (b : bool) (st : fsm_state) : fsm_state :=
  mk_state (st_edges st) (st_epsilons st) (st_end st) (st_has_capture_actions st) b (st_has_eager_outputs st).
Definition set_has_eager (b : bool) (st : fsm_state) : fsm_state :=
  mk_state (st_edges st) (st_epsilons st) (st_end st) (st_has_capture_actions st) (st_visited st) b.

(** ** start.c and end.c *)

Definition fsm_clearstart (f : fsm) : fsm := with_start f false (f_start f).
Definition fsm_setstart (f : fsm) (state : N) : fsm := with_start f true state.
Definition fsm_getstart (f : fsm) : option N := if f_hasstart f then Some (f_start f) else None.

Definition fsm_isend (f : fsm) (state : N) : bool := st_end (get_state f state).

(** [endcount] is a field of 31 bits. *)
Definition fsm_setend (f : fsm) (state : N) (end_ : bool) : fsm :=
  if eqb (st_end (get_state f state)) end_ then f
  else
    upd_state (with_endcount f (u31 (if end_ then N.of_nat (f_endcount f) + 1 else N.of_nat (f_endcount f) + 2147483647)))
      state (set_end end_).

Section Ops.
Context `{allocator}.

(** ** fsm.c *)

(** [fsm_capture_init] clears the capture flag of all the slots; the other
    fields of a slot are set when it is first used. *)
Definition fsm_new_statealloc (al : fsm_alloc) (statealloc : nat) : option fsm :=
  let statealloc := if statealloc =? 0 then FSM_DEFAULT_STATEALLOC else statealloc in
  if f_malloc al sizeof_fsm then
    if f_malloc al (N.of_nat statealloc * sizeof_fsm_state) then
      if f_malloc al 24 then
        endids ← fsm_endid_init al;
        eager ← fsm_eager_output_init al;
        Some (mk_fsm (replicate statealloc inhabitant) al 0 0 false 0
          (mk_capture 0 0 []) endids eager None)
      else None
    else None
  else None.

Definition fsm_new (al : fsm_alloc) : option fsm := fsm_new_statealloc al FSM_DEFAULT_STATEALLOC.

(** [fsm_move] takes everything but the allocator, which must be the same. *)
Definition fsm_move (dst src : fsm) : fsm :=
  if (f_alloc dst =? f_alloc src)%N then
    mk_fsm (f_states src) (f_alloc dst) (f_statecount src) (f_endcount src) (f_hasstart src) (f_start src)
      (f_capture_info src) (f_endid_info src) (f_eager_output_info src) (f_linkage_info src)
  else dst.

Definition fsm_countstates (f : fsm) : N := u32 (N.of_nat (f_statecount f)).

Definition fsm_countedges (f : fsm) : N :=
  foldl (λ n i, (n +32 N.of_nat (edge_set_count (st_edges (f_states f !!! i))))%cint) 0%N (seq 0 (f_statecount f)).

(** ** state.c *)

(** The fields [fsm_addstate] sets in the slot. *)
Definition init_slot (st : fsm_state) : fsm_state :=
  mk_state None SSNull false (st_has_capture_actions st) false false.

Definition fsm_addstate (f : fsm) : bool * fsm * N :=
  if (N.of_nat (f_statecount f) =? 4294967295)%N then (false, f, 0%N)
  else
    let '(ok, f) :=
      if f_statecount f =? length (f_states f) then
        let n := length (f_states f) * 2 in
        if f_realloc (f_alloc f) (N.of_nat n * sizeof_fsm_state) then
          (true, with_states f (f_states f ++ replicate (n - length (f_states f)) inhabitant))
        else (false, f)
      else (true, f) in
    if ok then
      let state := N.of_nat (f_statecount f) in
      (true, with_statecount (upd_state f state init_slot) (f_statecount f + 1), state)
    else (false, f, 0%N).

Fixpoint addstate_loop (n : nat) (f : fsm) : bool * fsm :=
  match n with
  | 0 => (true, f)
  | S n =>
      let '(ok, f, _) := fsm_addstate f in
      if ok then addstate_loop n f else (false, f)
  end.

Definition fsm_addstate_bulk (f : fsm) (n : nat) : bool * fsm :=
  if f_statecount f + n <=? length (f_states f) then
    let f := foldl (λ f i, upd_state f (N.of_nat (f_statecount f + i)) init_slot) f (seq 0 n) in
    (true, with_statecount f (f_statecount f + n))
  else addstate_loop n f.

(** ** edge.c *)

Definition fsm_addedge_epsilon (f : fsm) (from to : N) : bool * fsm :=
  let '(ok, e) := state_set_add (st_epsilons (get_state f from)) (f_alloc f) to in
  (ok, upd_state f from (set_epsilons e)).

Definition fsm_addedge_literal (f : fsm) (from to : N) (c : nat) : bool * fsm :=
  let '(ok, p) := edge_set_add (st_edges (get_state f from)) (f_alloc f) c to in
  (ok, upd_state f from (set_edges p)).

Fixpoint addedge_any_loop (n i : nat) (f : fsm) (from to : N) : bool * fsm :=
  match n with
  | 0 => (true, f)
  | S n =>
      let '(ok, f) := fsm_addedge_literal f from to i in
      if ok then addedge_any_loop n (i + 1) f from to else (false, f)
  end.

Definition fsm_addedge_any (f : fsm) (from to : N) : bool * fsm := addedge_any_loop 256 0 f from to.

(** ** state.c: removal *)

Definition live_ids (f : fsm) : list N := N.of_nat <$> seq 0 (f_statecount f).

(** Dropping the edges to a state; [None] where [edge_set_remove_state] reads
    out of bounds. *)
Definition remove_edges_to (f : fsm) (state i : N) : option fsm :=
  let st := get_state f i in
  p ← match st_edges st with None => Some None | Some _ => edge_set_remove_state (st_edges st) state end;
  Some (upd_state f i (λ st, set_edges p (set_epsilons (state_set_remove (st_epsilons st) state) st))).

(** Renumbering the edges to the last state, which is moved over the removed
    one. *)
Fixpoint replace_loop (l : list N) (f : fsm) (old new : N) : option (bool * fsm) :=
  match l with
  | [] => Some (true, f)
  | i :: l =>
      let st := get_state f i in
      let eps := state_set_replace (st_epsilons st) old new in
      '(ok, p) ← edge_set_replace_state (st_edges st) (f_alloc f) old new;
      let f := upd_state f i (λ st, set_edges p (set_epsilons eps st)) in
      if (ok : bool) then replace_loop l f old new else Some (false, f)
  end.

Definition fsm_removestate (f : fsm) (state : N) : option (bool * fsm) :=
  let f := fsm_setend f state false in
  f ← foldl (λ acc i, f ← acc; remove_edges_to f state i) (Some f) (live_ids f);
  let f := if bool_decide (fsm_getstart f = Some state) then fsm_clearstart f else f in
  let last := N.of_nat (f_statecount f - 1) in
  '(ok, f) ←
    (if (state <? last)%N then
       let f := upd_state f state (λ _, get_state f last) in
       replace_loop (N.of_nat <$> seq 0 (f_statecount f - 1)) f last state
     else Some (true, f));
  if (ok : bool) then Some (true, with_statecount f (f_statecount f - 1)) else Some (false, f).

(** ** state.c: compaction *)

(** The mapping built from the filter: the number of states kept before each
    state, or [FSM_STATE_REMAP_NO_STATE]. *)
Fixpoint build_mapping (filter : N → bool) (l : list N) (kept : nat) : list N :=
  match l with
  | [] => []
  | i :: l =>
      if filter i then N.of_nat kept :: build_mapping filter l (kept + 1)
      else FSM_STATE_REMAP_NO_STATE :: build_mapping filter l kept
  end.

Definition mapping_cb (mapping : list N) (id : N) : N :=
  default FSM_STATE_REMAP_NO_STATE (mapping !! N.to_nat id).

(** The destinations [mapping_cb] is called on, which index [mapping]. *)
Definition mapped_ids (st : fsm_state) : list N :=
  ss_elems (st_epsilons st) ++
  (if edge_set_empty (st_edges st) then [] else edge_keys (st_edges st)).

(** The renumbering of one live state; [None] for a read past the end of
    [mapping]. The result of [edge_set_compact] is ignored. *)
Definition compact_state (mapping : list N) (f : fsm) (i : N) : option fsm :=
  if (mapping_cb mapping i =? FSM_STATE_REMAP_NO_STATE)%N then Some f
  else
    let st := get_state f i in
    if negb (forallb (λ t, (t <? N.of_nat (length mapping))%N) (mapped_ids st)) then None else
    eps ← state_set_compact (st_epsilons st) (mapping_cb mapping);
    let p := match st_edges st with
      | None => None
      | Some _ => (edge_set_compact (st_edges st) (f_alloc f) (mapping_cb mapping)).2
      end in
    Some (upd_state f i (λ st, set_edges p (set_epsilons eps st))).

(** Moving the kept states down over the dropped ones, in place. *)
Fixpoint move_states (mapping : list N) (l : list N) (dst : nat) (f : fsm) : fsm * nat :=
  match l with
  | [] => (f, dst)
  | i :: l =>
      if (mapping_cb mapping i =? FSM_STATE_REMAP_NO_STATE)%N then
        move_states mapping l dst (with_statecount f (f_statecount f - 1))
      else
        let f := if dst =? N.to_nat i then f
          else with_states f (<[dst := get_state f i]> (f_states f)) in
        move_states mapping l (dst + 1) f
  end.

(** The result is the return value, the automaton and the number of states
    removed; [None] where an assertion fails. *)
Definition fsm_compact_states (f : fsm) (filter : N → bool) : option (bool * fsm * nat) :=
  let orig_statecount := f_statecount f in
  if f_malloc (f_alloc f) (N.of_nat orig_statecount * 4) then
    let ids := live_ids f in
    let mapping := build_mapping filter ids 0 in
    let f := foldl (λ f i, if filter i then f else fsm_setend f i false) f ids in
    let old_start :=
      match fsm_getstart f with
      | Some s => mapping_cb mapping s
      | None => FSM_STATE_REMAP_NO_STATE
      end in
    let f := match fsm_getstart f with
      | Some s => if (mapping_cb mapping s =? FSM_STATE_REMAP_NO_STATE)%N then fsm_clearstart f else f
      | None => f
      end in
    f ← foldl (λ acc i, f ← acc; compact_state mapping f i) (Some f) ids;
    let '(f, dst) := move_states mapping ids 0 f in
    '(ok, ei) ← fsm_endid_compact (f_alloc f) (f_endid_info f) mapping;
    let f := with_endid_info f ei in
    if (ok : bool) then
      '(ok, eo) ← fsm_eager_output_compact (f_alloc f) (f_eager_output_info f) mapping;
      let f := with_eager_output_info f eo in
      if (ok : bool) then
        let f :=
          if f_statecount f =? 0 then fsm_clearstart f
          else if (old_start =? FSM_STATE_REMAP_NO_STATE)%N then f
          else fsm_setstart f old_start in
        Some (true, f, orig_statecount - dst)
      else Some (false, f, 0)
    else Some (false, f, 0)
  else Some (false, f, 0).

(** ** Metadata of all the end states *)

Fixpoint setendid_loop (l : list N) (f : fsm) (id : N) : option (bool * fsm) :=
  match l with
  | [] => Some (true, f)
  | i :: l =>
      if fsm_isend f i then
        '(ok, ei) ← fsm_endid_set (f_alloc f) (f_endid_info f) i id;
        let f := with_endid_info f ei in
        if (ok : bool) then setendid_loop l f id else Some (false, f)
      else setendid_loop l f id
  end.

Definition fsm_setendid (f : fsm) (id : N) : option (bool * fsm) := setendid_loop (live_ids f) f id.

Definition eager_set (f : fsm) (state id : N) : option (bool * fsm) :=
  '(ok, eo, mark) ← fsm_eager_output_set (f_alloc f) (f_eager_output_info f) state id;
  let f := with_eager_output_info f eo in
  Some (ok, if (mark : bool) then upd_state f state (set_has_eager true) else f).

Fixpoint eager_on_ends_loop (l : list N) (f : fsm) (id : N) : option (bool * fsm) :=
  match l with
  | [] => Some (true, f)
  | i :: l =>
      if fsm_isend f i then
        '(ok, f) ← eager_set f i id;
        if (ok : bool) then eager_on_ends_loop l f id else Some (false, f)
      else eager_on_ends_loop l f id
  end.

Definition fsm_eager_output_set_on_ends (f : fsm) (id : N) : option (bool * fsm) :=
  eager_on_ends_loop (live_ids f) f id.

(** ** vacuum.c *)

Fixpoint vacuum_loop (fuel statecount nceil : nat) : nat :=
  match fuel with
  | 0 => nceil
  | S fuel =>
      if (statecount <? nceil / 2) && (1 <? nceil) then vacuum_loop fuel statecount (nceil / 2) else nceil
  end.

Definition fsm_vacuum (f : fsm) : bool * fsm :=
  let nceil := vacuum_loop (length (f_states f)) (f_statecount f) (length (f_states f)) in
  if nceil =? length (f_states f) then (true, f)
  else if f_realloc (f_alloc f) (N.of_nat nceil * sizeof_fsm_state) then
    (true, with_states f (take nceil (f_states f)))
  else (false, f).
End Ops.
