(* ===== verification/FsmSpec.v ===== *)
(** * The automaton: invariant and meaning

    The invariant of [struct fsm], the nondeterministic automaton it stands
    for, and what the operations that build an automaton do to both. *)

From S2P Require Import Prelude StateSet Bits EdgeSet EdgeCompact Probe Endids EagerOutput Lang Fsm.

(** ** Invariant *)

Definition live (f : fsm) (s : N) : Prop := N.to_nat s < f_statecount f.

#[export] Instance live_dec f s : Decision (live f s).
Proof. unfold live. apply _. Defined.

(** A state whose edges are well formed and lead to the first [n] states. *)
Definition state_ok (n : nat) (st : fsm_state) : Prop :=
  edge_set_wf (st_edges st) ∧ state_set_wf (st_epsilons st) ∧
  (∀ t, t ∈ edge_keys (st_edges st) → N.to_nat t < n) ∧
  (∀ t, ss_has (st_epsilons st) t → N.to_nat t < n).

Definition end_states (f : fsm) : list fsm_state :=
  filter (λ st, st_end st = true) (take (f_statecount f) (f_states f)).

Record fsm_wf (f : fsm) : Prop := {
  wf_alloc : f_statecount f ≤ length (f_states f);
  wf_alloc_pos : 0 < length (f_states f);
  wf_count : (N.of_nat (f_statecount f) < 2147483648)%N;
  wf_states s : live f s → state_ok (f_statecount f) (get_state f s);
  wf_endcount : f_endcount f = length (end_states f);
  wf_start s : fsm_getstart f = Some s → live f s;
}.

(** State ids fit 32 bits; [endcount], of 31 bits, cannot wrap. *)
Lemma wf_count32 f : fsm_wf f → (N.of_nat (f_statecount f) < 4294967296)%N.
Proof. intros Hwf. pose proof (wf_count _ Hwf). lia. Qed.

Lemma live_bucket f s : fsm_wf f → live f s → s ≠ BUCKET_NO_STATE.
Proof. intros Hwf Hs ->. pose proof (wf_count _ Hwf). unfold live, BUCKET_NO_STATE in *. lia. Qed.

(** The invariant is decidable. *)
Lemma fsm_wf_alt f :
  fsm_wf f ↔
  f_statecount f ≤ length (f_states f) ∧ 0 < length (f_states f) ∧
  (N.of_nat (f_statecount f) < 2147483648)%N ∧
  Forall (λ s, edge_set_wf (st_edges (get_state f s)) ∧ state_set_wf (st_epsilons (get_state f s)) ∧
    Forall (λ t, N.to_nat t < f_statecount f) (edge_keys (st_edges (get_state f s))) ∧
    Forall (λ t, N.to_nat t < f_statecount f) (ss_elems (st_epsilons (get_state f s)))) (live_ids f) ∧
  f_endcount f = length (end_states f) ∧
  match fsm_getstart f with Some s => live f s | None => True end.
Proof.
  assert (∀ s, s ∈ live_ids f ↔ live f s) as Hl.
  { intros s. unfold live_ids, live. rewrite list_elem_of_fmap. setoid_rewrite elem_of_seq. split.
    - intros (i & -> & Hi). lia.
    - intros Hs. exists (N.to_nat s). lia. }
  rewrite Forall_forall. setoid_rewrite Hl. setoid_rewrite Forall_forall. split.
  - intros [H1 H2 H3 H4 H5 H6]. split_and!; try done. destruct (fsm_getstart f); auto.
  - intros (H1 & H2 & H3 & H4 & H5 & H6). split; try done. intros s Hs. by rewrite Hs in H6.
Qed.

#[export] Instance fsm_wf_dec f : Decision (fsm_wf f).
Proof.
  assert (Decision (match fsm_getstart f with Some s => live f s | None => True end)) by (case_match; apply _).
  refine (cast_if (decide (
    f_statecount f ≤ length (f_states f) ∧ 0 < length (f_states f) ∧
    (N.of_nat (f_statecount f) < 2147483648)%N ∧
    Forall (λ s, edge_set_wf (st_edges (get_state f s)) ∧ state_set_wf (st_epsilons (get_state f s)) ∧
      Forall (λ t, N.to_nat t < f_statecount f) (edge_keys (st_edges (get_state f s))) ∧
      Forall (λ t, N.to_nat t < f_statecount f) (ss_elems (st_epsilons (get_state f s)))) (live_ids f) ∧
    f_endcount f = length (end_states f) ∧
    match fsm_getstart f with Some s => live f s | None => True end)));
    abstract (by rewrite fsm_wf_alt).
Defined.

(** ** Meaning *)

Definition f_edge (f : fsm) (s : N) (c : nat) (t : N) : Prop :=
  live f s ∧ has_edge (st_edges (get_state f s)) c t.
Definition f_eps (f : fsm) (s t : N) : Prop :=
  live f s ∧ ss_has (st_epsilons (get_state f s)) t.
Definition f_end (f : fsm) (s : N) : Prop := live f s ∧ fsm_isend f s = true.

Definition nfa_of (f : fsm) : nfa := {|
  n_edge := f_edge f;
  n_eps := f_eps f;
  n_end := f_end f;
  n_start := λ s, fsm_getstart f = Some s;
|}.

(** The language of an automaton. *)
Definition language (f : fsm) (w : list nat) : Prop := accepts (nfa_of f) w.

(** ** Lemmas on the array of states *)

Lemma live_lookup f s : fsm_wf f → live f s → f_states f !! N.to_nat s = Some (get_state f s).
Proof.
  intros Hwf Hs. unfold get_state. apply list_lookup_lookup_total_lt.
  pose proof (wf_alloc _ Hwf). unfold live in Hs. lia.
Qed.

Lemma get_upd f s g t :
  N.to_nat s < length (f_states f) →
  get_state (upd_state f s g) t = if decide (t = s) then g (get_state f s) else get_state f t.
Proof.
  intros Hs. unfold get_state, upd_state. cbn [with_states f_states]. case_decide as Ht.
  - subst t. destruct (lookup_lt_is_Some_2 _ _ Hs) as [st Hst].
    apply list_lookup_total_correct. by rewrite list_lookup_alter_eq, Hst, (list_lookup_total_correct _ _ _ Hst).
  - rewrite !list_lookup_total_alt, list_lookup_alter_ne; [done|]. intros ?. apply Ht. lia.
Qed.

Lemma state_ok_mono n m st : n ≤ m → state_ok n st → state_ok m st.
Proof. intros Hnm (H1 & H2 & H3 & H4). split_and!; [done|done| |]; intros t Ht; [specialize (H3 t Ht)|specialize (H4 t Ht)]; lia. Qed.

Lemma f_edge_live f s c t : fsm_wf f → f_edge f s c t → live f t.
Proof.
  intros Hwf [Hs He]. destruct (wf_states _ Hwf s Hs) as (_ & _ & Hk & _).
  by eapply Hk, has_edge_key.
Qed.

Lemma f_eps_live f s t : fsm_wf f → f_eps f s t → live f t.
Proof. intros Hwf [Hs He]. destruct (wf_states _ Hwf s Hs) as (_ & _ & _ & Hk). by apply Hk. Qed.

Lemma path_states_live f s w t : fsm_wf f → live f s → path (nfa_of f) s w t → live f t.
Proof.
  intros Hwf Hs Hp. induction Hp as [s|s s' w t He Hp IH|s c s' w t He Hp IH]; [done| |]; apply IH;
    [exact (f_eps_live f s s' Hwf He)|exact (f_edge_live f s c s' Hwf He)].
Qed.

Lemma live_lt32 f s : fsm_wf f → live f s → (s < 4294967296)%N.
Proof. intros Hwf Hs. pose proof (wf_count _ Hwf). unfold live in Hs. lia. Qed.

Lemma take_alter_comm (g : fsm_state → fsm_state) n i (l : list fsm_state) :
  take n (alter g i l) = alter g i (take n l).
Proof.
  revert n i; induction l as [|x l IH]; intros [|n] [|i]; try done.
  cbn [alter list_alter take]. f_equal. apply IH.
Qed.

Lemma length_filter_alter (g : fsm_state → fsm_state) i (l : list fsm_state) st :
  l !! i = Some st → st_end (g st) = st_end st →
  length (filter (λ st, st_end st = true) (alter g i l)) = length (filter (λ st, st_end st = true) l).
Proof.
  revert i; induction l as [|x l IH]; intros [|i] Hi He; [done|done| |].
  - injection Hi as ->. cbn [alter list_alter]. rewrite !filter_cons, He. by destruct (decide _).
  - cbn [alter list_alter]. specialize (IH i Hi He). rewrite !filter_cons.
    destruct (decide _); simpl; unfold alter in *; congruence.
Qed.

(** Changing the edges of one live state. *)
Lemma fsm_wf_upd f s g :
  fsm_wf f → live f s → state_ok (f_statecount f) (g (get_state f s)) →
  st_end (g (get_state f s)) = st_end (get_state f s) → fsm_wf (upd_state f s g).
Proof.
  intros Hwf Hs Hg Hend. pose proof (wf_alloc _ Hwf) as Ha.
  assert (N.to_nat s < length (f_states f)) as Hsl by (unfold live in Hs; lia).
  split; try apply Hwf.
  - cbn. by rewrite length_alter.
  - cbn. rewrite length_alter. apply Hwf.
  - intros t Ht. rewrite get_upd by done. case_decide; [done|]. by apply (wf_states _ Hwf).
  - cbn [upd_state with_states f_endcount]. rewrite (wf_endcount _ Hwf).
    unfold end_states. cbn [upd_state with_states f_states f_statecount].
    pose proof (live_lookup f s Hwf Hs) as Hl.
    rewrite take_alter_comm. symmetry. eapply length_filter_alter; [|exact Hend]. by rewrite lookup_take_lt.
Qed.

(** ** Lemmas: adding edges *)

(** The automaton with one more edge or epsilon transition. *)
Definition add_edge (A : nfa) (s : N) (c : nat) (t : N) : nfa :=
  mk_nfa (λ s' c' t', n_edge A s' c' t' ∨ (s' = s ∧ c' = c ∧ t' = t)) (n_eps A) (n_end A) (n_start A).
Definition add_eps (A : nfa) (s t : N) : nfa :=
  mk_nfa (n_edge A) (λ s' t', n_eps A s' t' ∨ (s' = s ∧ t' = t)) (n_end A) (n_start A).

Section EdgeLemmas.
Context `{allocator}.

Lemma fsm_addedge_epsilon_spec f from to b f' :
  fsm_wf f → live f from → live f to → fsm_addedge_epsilon f from to = (b, f') →
  fsm_wf f' ∧ f_statecount f' = f_statecount f ∧ (alloc_total → b = true) ∧
  (b = true → nfa_of f' ≡ add_eps (nfa_of f) from to).
Proof.
  intros Hwf Hfrom Hto. unfold fsm_addedge_epsilon.
  destruct (state_set_add (st_epsilons (get_state f from)) (f_alloc f) to) as [ok e] eqn:E.
  intros [= <- <-]. destruct (wf_states _ Hwf from Hfrom) as (H1 & H2 & H3 & H4).
  pose proof (live_lt32 f to Hwf Hto) as Hlt.
  assert (state_set_wf e ∧ (∀ t, ss_has e t → ss_has (st_epsilons (get_state f from)) t ∨ t = to) ∧
    (ok = true → ∀ t, ss_has e t ↔ ss_has (st_epsilons (get_state f from)) t ∨ t = to)) as (He1 & He2 & He3).
  { destruct ok.
    - destruct (state_set_add_extends _ _ _ _ H2 Hlt E) as [Hw Hx]. split_and!; [done| |].
      + intros t. rewrite Hx, list_elem_of_singleton. done.
      + intros _ t. rewrite Hx, list_elem_of_singleton. done.
    - destruct (state_set_add_false _ _ _ _ H2 Hlt E) as [(? & ? & ? & ? & ->)|(? & ? & -> & _)].
      + split_and!; [done|by left|done].
      + split_and!; [apply state_set_wf_null|by intros t ?%not_elem_of_nil|done]. }
  assert (N.to_nat from < length (f_states f)) as Hfl by (pose proof (wf_alloc _ Hwf); unfold live in *; lia).
  split_and!; [|done| |].
  - apply fsm_wf_upd; [done|done| |done]. cbn. split_and!; [done|done|done|].
    intros t [Ht| ->]%He2; [by apply H4|done].
  - intros Ht. destruct (state_set_add_total (st_epsilons (get_state f from)) (f_alloc f) to) as [? Htt].
    congruence.
  - intros Hok. unfold nfa_of, add_eps. split_and!; cbn; intros.
    + unfold f_edge. rewrite get_upd by done. case_decide; subst; done.
    + unfold f_eps. rewrite get_upd by done. unfold live. cbn. case_decide; subst; cbn; [|naive_solver].
      rewrite He3 by done. naive_solver.
    + unfold f_end, fsm_isend. rewrite get_upd by done. case_decide; subst; done.
    + done.
Qed.

Lemma fsm_addedge_literal_spec f from to c b f' :
  fsm_wf f → live f from → live f to → c < 256 → fsm_addedge_literal f from to c = (b, f') →
  fsm_wf f' ∧ f_statecount f' = f_statecount f ∧ (alloc_total → b = true) ∧
  (b = true → nfa_of f' ≡ add_edge (nfa_of f) from c to).
Proof.
  intros Hwf Hfrom Hto Hc. unfold fsm_addedge_literal.
  destruct (edge_set_add (st_edges (get_state f from)) (f_alloc f) c to) as [ok p] eqn:E.
  intros [= <- <-]. destruct (wf_states _ Hwf from Hfrom) as (H1 & H2 & H3 & H4).
  pose proof (live_lt32 f to Hwf Hto) as Hlt.
  pose proof (edge_set_add_spec _ _ _ _ _ _ H1 Hc Hlt E) as Hadd.
  assert (edge_set_wf p) as Hp by (destruct ok; [apply Hadd|by subst]).
  assert (N.to_nat from < length (f_states f)) as Hfl by (pose proof (wf_alloc _ Hwf); unfold live in *; lia).
  split_and!; [|done| |].
  - apply fsm_wf_upd; [done|done| |done]. cbn. split_and!; [done|done| |done].
    intros t Ht. destruct (edge_set_add_keys _ _ _ _ _ _ _ E Ht) as [?| ->]; [by apply H3|done].
  - intros Ht. pose proof (edge_set_add_total (st_edges (get_state f from)) (f_alloc f) c to) as Htt.
    rewrite E in Htt. done.
  - intros Hok. destruct ok; [|done]. destruct Hadd as [_ Hadd]. unfold nfa_of, add_edge. split_and!; cbn; intros.
    + unfold f_edge. rewrite get_upd by done. unfold live. cbn. case_decide; subst; cbn; [|naive_solver].
      rewrite Hadd. naive_solver.
    + unfold f_eps. rewrite get_upd by done. case_decide; subst; done.
    + unfold f_end, fsm_isend. rewrite get_upd by done. case_decide; subst; done.
    + done.
Qed.
End EdgeLemmas.

(** ** Lemmas: adding states *)

Section StateLemmas.
Context `{allocator}.

(** Growing the array and initialising the slot keep the states in use. *)
Lemma fsm_addstate_spec f b f' s :
  fsm_wf f → (N.of_nat (f_statecount f) < 2147483647)%N → fsm_addstate f = (b, f', s) →
  (b = false → f' = f) ∧
  (alloc_total → b = true) ∧
  (b = true → fsm_wf f' ∧ f_statecount f' = f_statecount f + 1 ∧ s = N.of_nat (f_statecount f) ∧
    nfa_of f' ≡ nfa_of f ∧ (∀ t, live f t → get_state f' t = get_state f t) ∧
    f_alloc f' = f_alloc f ∧ f_start f' = f_start f ∧ f_hasstart f' = f_hasstart f ∧
    (∀ c t, ¬ f_edge f' s c t) ∧ (∀ t, ¬ f_eps f' s t) ∧ fsm_isend f' s = false).
Proof.
  intros Hwf Hroom. unfold fsm_addstate. rewrite (proj2 (N.eqb_neq _ _)) by lia.
  destruct (if f_statecount f =? length (f_states f) then _ else _) as [ok f1] eqn:E1.
  assert (if ok then ∃ ext, f1 = with_states f (f_states f ++ ext) ∧ f_statecount f < length (f_states f ++ ext)
    else f1 = f) as H1.
  { revert E1. destruct (f_statecount f =? length (f_states f)) eqn:E; split_bool.
    - destruct (f_realloc _ _); intros [= <- <-]; [|done]. eexists; split; [done|].
      rewrite length_app, length_replicate. pose proof (wf_alloc_pos _ Hwf). lia.
    - intros [= <- <-]. exists []. rewrite app_nil_r. split; [by destruct f|].
      pose proof (wf_alloc _ Hwf). lia. }
  assert (alloc_total → ok = true) as Ht.
  { intros Ht. revert E1. rewrite f_realloc_total. by destruct (_ =? _); intros [= <- <-]. }
  destruct ok; [|intros [= <- <- <-]; subst; split_and!; [done|naive_solver|done]].
  destruct H1 as (ext & -> & Hlen). intros [= <- <- <-]. split_and!; [done|done|intros _].
  set (n := f_statecount f) in *. cbn [with_states f_statecount f_states].
  set (f2 := upd_state (with_states f (f_states f ++ ext)) (N.of_nat n) init_slot).
  assert (f_states f2 = alter init_slot n (f_states f ++ ext)) as Hst by (unfold f2; cbn; by rewrite Nat2N.id).
  assert (∀ t, live f t → get_state f2 t = get_state f t) as Hget.
  { intros t Hlt. unfold get_state. rewrite Hst, !list_lookup_total_alt. unfold live in Hlt. fold n in Hlt.
    rewrite list_lookup_alter_ne, lookup_app_l; [done| |lia]. pose proof (wf_alloc _ Hwf). lia. }
  assert (get_state f2 (N.of_nat n) = init_slot ((f_states f ++ ext) !!! n)) as Hnew.
  { unfold get_state. rewrite Hst, Nat2N.id. destruct (lookup_lt_is_Some_2 _ _ Hlen) as [st Hs].
    apply list_lookup_total_correct. by rewrite list_lookup_alter_eq, Hs, (list_lookup_total_correct _ _ _ Hs). }
  change (get_state (with_statecount f2 (n + 1))) with (get_state f2).
  assert (∀ t, live (with_statecount f2 (n + 1)) t ↔ live f t ∨ t = N.of_nat n) as Hlive.
  { intros t. unfold live. cbn. fold n. lia. }
  assert (state_ok 0 (get_state f2 (N.of_nat n))) as Hok0.
  { rewrite Hnew. split_and!; cbn; [done|apply state_set_wf_null|by intros t ?%not_elem_of_nil|by intros t ?%not_elem_of_nil]. }
  split_and!; try done.
  - split.
    + cbn [with_statecount f_statecount f_states]. rewrite Hst, length_alter. lia.
    + cbn [with_statecount f_states]. rewrite Hst, length_alter. lia.
    + cbn. fold n. pose proof (wf_count _ Hwf). lia.
    + intros t [Hlt| ->]%Hlive; change (get_state (with_statecount f2 (n + 1))) with (get_state f2).
      * rewrite Hget by done. eapply state_ok_mono; [|by apply (wf_states _ Hwf)]. cbn. lia.
      * eapply state_ok_mono; [|exact Hok0]. lia.
    + cbn [with_statecount f_endcount]. change (f_endcount f2) with (f_endcount f). rewrite (wf_endcount _ Hwf).
      unfold end_states.
      change (take (f_statecount (with_statecount f2 (n + 1))) (f_states (with_statecount f2 (n + 1))))
        with (take (n + 1) (f_states f2)). fold n.
      assert (take n (f_states f2) = take n (f_states f)) as Htk.
      { pose proof (wf_alloc _ Hwf) as Hwa. rewrite Hst, take_alter, decide_False by lia. by rewrite take_app_le. }
      assert (f_states f2 !! n = Some (get_state f2 (N.of_nat n))) as Hn.
      { unfold get_state. rewrite Nat2N.id. apply list_lookup_lookup_total_lt. rewrite Hst, length_alter. lia. }
      rewrite Nat.add_1_r, (take_S_r _ _ _ Hn), filter_app, length_app, filter_cons_False by (rewrite Hnew; done).
      rewrite filter_nil, Htk. simpl. lia.
    + intros t Hs. apply Hlive. left. by apply (wf_start _ Hwf).
  - split_and!; cbn; intros; [| | |done].
    + unfold f_edge. rewrite Hlive. change (get_state (with_statecount f2 (n + 1))) with (get_state f2). split.
      * intros [[Hl| ->] He]; [by rewrite Hget in He|]. rewrite Hnew in He. by apply groups_edge_nil in He.
      * intros [Hl He]. split; [by left|]. by rewrite Hget.
    + unfold f_eps. rewrite Hlive. change (get_state (with_statecount f2 (n + 1))) with (get_state f2). split.
      * intros [[Hl| ->] He]; [by rewrite Hget in He|]. rewrite Hnew in He. by apply not_elem_of_nil in He.
      * intros [Hl He]. split; [by left|]. by rewrite Hget.
    + unfold f_end, fsm_isend. rewrite Hlive. change (get_state (with_statecount f2 (n + 1))) with (get_state f2). split.
      * intros [[Hl| ->] He]; [by rewrite Hget in He|]. by rewrite Hnew in He.
      * intros [Hl He]. split; [by left|]. by rewrite Hget.
  - intros c t [_ He]. change (get_state (with_statecount f2 (n + 1))) with (get_state f2) in He.
    rewrite Hnew in He. by apply groups_edge_nil in He.
  - intros t [_ He]. change (get_state (with_statecount f2 (n + 1))) with (get_state f2) in He.
    rewrite Hnew in He. by apply not_elem_of_nil in He.
  - unfold fsm_isend. change (get_state (with_statecount f2 (n + 1))) with (get_state f2). by rewrite Hnew.
Qed.

Lemma fsm_new_spec `{!alloc_total} al :
  ∃ f, fsm_new al = Some f ∧ fsm_wf f ∧ f_statecount f = 0 ∧ f_alloc f = al ∧ fsm_getstart f = None ∧
    endid_wf (f_endid_info f).
Proof.
  unfold fsm_new, fsm_new_statealloc. rewrite !f_malloc_total.
  destruct (fsm_endid_init_spec al) as (ei & -> & Hei & _). cbn [mbind option_bind].
  unfold fsm_eager_output_init. rewrite !f_calloc_total. cbn [mbind option_bind].
  eexists; split; [done|]. split_and!; try done. split; try done.
  - cbn. lia.
  - cbn. lia.
  - intros s Hs. unfold live in Hs. cbn in Hs. lia.
Qed.
End StateLemmas.

(** ** Lemmas: end and start *)

Definition with_end (A : nfa) (s : N) (b : bool) : nfa :=
  mk_nfa (n_edge A) (n_eps A) (λ s', if decide (s' = s) then b = true else n_end A s') (n_start A).
Definition with_start_at (A : nfa) (s : N) : nfa := mk_nfa (n_edge A) (n_eps A) (n_end A) (λ s', s' = s).

Lemma length_filter_set_end b i (l : list fsm_state) st :
  l !! i = Some st → st_end st = negb b →
  (if b then length (filter (λ st, st_end st = true) (alter (set_end b) i l)) =
    length (filter (λ st, st_end st = true) l) + 1
   else length (filter (λ st, st_end st = true) l) =
    length (filter (λ st, st_end st = true) (alter (set_end b) i l)) + 1).
Proof.
  revert i; induction l as [|x l IH]; intros [|i] Hi He; [done|done| |].
  - injection Hi as ->. cbn [alter list_alter]. rewrite !filter_cons. cbn [set_end st_end]. rewrite He.
    destruct b; cbn [negb]; repeat case_decide; simpl; congruence || lia.
  - change (alter (set_end b) (S i) (x :: l)) with (x :: alter (set_end b) i l).
    specialize (IH i Hi He). rewrite !filter_cons.
    destruct b; destruct (decide (st_end x = true)); simpl; lia.
Qed.

Lemma fsm_setend_spec f s b :
  fsm_wf f → live f s →
  fsm_wf (fsm_setend f s b) ∧ nfa_of (fsm_setend f s b) ≡ with_end (nfa_of f) s b ∧
  f_statecount (fsm_setend f s b) = f_statecount f ∧ f_alloc (fsm_setend f s b) = f_alloc f ∧
  (f_start (fsm_setend f s b) = f_start f ∧ f_hasstart (fsm_setend f s b) = f_hasstart f) ∧
  (∀ t, st_edges (get_state (fsm_setend f s b) t) = st_edges (get_state f t) ∧
        st_epsilons (get_state (fsm_setend f s b) t) = st_epsilons (get_state f t)).
Proof.
  intros Hwf Hs. unfold fsm_setend. destruct (eqb (st_end (get_state f s)) b) eqn:E.
  { apply eqb_prop in E. split_and!; try done. unfold nfa_of, with_end. split_and!; cbn; intros; try done.
    case_decide; [|done]. subst. unfold f_end, fsm_isend. split; [naive_solver|]. by split. }
  apply eqb_false_iff in E. assert (st_end (get_state f s) = negb b) as Eb by (by destruct (st_end _), b).
  set (f1 := with_endcount f (u31 (if b then N.of_nat (f_endcount f) + 1 else N.of_nat (f_endcount f) + 2147483647))).
  assert (N.to_nat s < length (f_states f1)) as Hsl by (pose proof (wf_alloc _ Hwf); unfold live in Hs; cbn; lia).
  pose proof (λ t, get_upd f1 s (set_end b) t Hsl) as Hget. change (get_state f1) with (get_state f) in Hget.
  split_and!; try done.
  - split.
    + cbn. rewrite length_alter. apply Hwf.
    + cbn. rewrite length_alter. apply Hwf.
    + apply (wf_count _ Hwf).
    + intros t Ht. rewrite Hget. case_decide; [subst; cbn|]; by apply (wf_states _ Hwf).
    + change (f_endcount (upd_state f1 s (set_end b))) with (f_endcount f1).
      unfold end_states. cbn [upd_state with_states f_states f_statecount f1 with_endcount f_endcount].
      rewrite take_alter_comm. pose proof (live_lookup f s Hwf Hs) as Hl.
      pose proof (length_filter_set_end b (N.to_nat s) (take (f_statecount f) (f_states f)) (get_state f s)
        ltac:(by rewrite lookup_take_lt) Eb) as Hlen.
      pose proof (wf_endcount _ Hwf) as Hec. unfold end_states in Hec. pose proof (wf_count _ Hwf) as Hcnt.
      pose proof (length_filter (λ st, st_end st = true) (alter (set_end b) (N.to_nat s) (take (f_statecount f) (f_states f)))) as Hle.
      pose proof (length_filter (λ st, st_end st = true) (take (f_statecount f) (f_states f))) as Hle'.
      rewrite length_alter in Hle. rewrite length_take in Hle, Hle'. unfold u31. destruct b; [rewrite N.mod_small by lia; lia|].
      replace (N.of_nat (f_endcount f) + 2147483647)%N with (N.of_nat (f_endcount f - 1) + 1 * 2147483648)%N by lia.
      rewrite N.Div0.mod_add, N.mod_small by lia. lia.
    + apply (wf_start _ Hwf).
  - unfold nfa_of, with_end. split_and!; cbn; intros; [| | |done].
    + unfold f_edge. rewrite Hget. case_decide; subst; done.
    + unfold f_eps. rewrite Hget. case_decide; subst; done.
    + unfold f_end, fsm_isend. rewrite Hget. case_decide; subst; cbn; [|done].
      change (live (upd_state f1 s (set_end b)) s) with (live f s). naive_solver.
  - intros t. rewrite Hget. by case_decide; subst.
Qed.

Lemma fsm_setstart_spec f s :
  fsm_wf f → live f s → fsm_wf (fsm_setstart f s) ∧ nfa_of (fsm_setstart f s) ≡ with_start_at (nfa_of f) s.
Proof.
  intros Hwf Hs. split.
  - split; try apply Hwf. intros t [= <-]. done.
  - split_and!; cbn; intros; try done. split; [by intros [= ->]|by intros ->].
Qed.

Lemma fsm_clearstart_spec f :
  fsm_wf f → fsm_wf (fsm_clearstart f) ∧
  nfa_of (fsm_clearstart f) ≡ mk_nfa (n_edge (nfa_of f)) (n_eps (nfa_of f)) (n_end (nfa_of f)) (λ _, False).
Proof. intros Hwf. split; [split; try apply Hwf; done|]. split_and!; cbn; naive_solver. Qed.

(** ** Refinement: building an automaton *)

Inductive build_op :=
  | BAddState
  | BEpsilon (from to : N)
  | BLiteral (from to : N) (c : nat)
  | BAny (from to : N)
  | BEnd (s : N) (b : bool)
  | BStart (s : N)
  | BClearStart.

(** What the calls assert of their arguments, for an automaton of [n]
    states. *)
Definition build_op_ok (n : nat) (op : build_op) : Prop :=
  match op with
  | BAddState => (N.of_nat n < 2147483647)%N
  | BEpsilon from to | BAny from to => N.to_nat from < n ∧ N.to_nat to < n
  | BLiteral from to c => N.to_nat from < n ∧ N.to_nat to < n ∧ c < 256
  | BEnd s _ | BStart s => N.to_nat s < n
  | BClearStart => True
  end.

#[export] Instance build_op_ok_dec n op : Decision (build_op_ok n op).
Proof. destruct op; simpl; apply _. Defined.

Definition build_count (n : nat) (op : build_op) : nat := match op with BAddState => n + 1 | _ => n end.

Fixpoint build_ok (n : nat) (ops : list build_op) : bool :=
  match ops with
  | [] => true
  | op :: ops => bool_decide (build_op_ok n op) && build_ok (build_count n op) ops
  end.

Definition build_exec `{allocator} (f : fsm) (op : build_op) : bool * fsm :=
  match op with
  | BAddState => (fsm_addstate f).1
  | BEpsilon from to => fsm_addedge_epsilon f from to
  | BLiteral from to c => fsm_addedge_literal f from to c
  | BAny from to => fsm_addedge_any f from to
  | BEnd s b => (true, fsm_setend f s b)
  | BStart s => (true, fsm_setstart f s)
  | BClearStart => (true, fsm_clearstart f)
  end.

Fixpoint build_all `{allocator} (f : fsm) (ops : list build_op) : bool * fsm :=
  match ops with
  | [] => (true, f)
  | op :: ops =>
      let '(ok, f) := build_exec f op in
      if ok then build_all f ops else (false, f)
  end.

Definition empty_nfa : nfa := mk_nfa (λ _ _ _, False) (λ _ _, False) (λ _, False) (λ _, False).

Definition build_spec (A : nfa) (op : build_op) : nfa :=
  match op with
  | BAddState => A
  | BEpsilon from to => add_eps A from to
  | BLiteral from to c => add_edge A from c to
  | BAny from to =>
      mk_nfa (λ s c t, n_edge A s c t ∨ (s = from ∧ c < 256 ∧ t = to)) (n_eps A) (n_end A) (n_start A)
  | BEnd s b => with_end A s b
  | BStart s => with_start_at A s
  | BClearStart => mk_nfa (n_edge A) (n_eps A) (n_end A) (λ _, False)
  end.

#[export] Instance build_spec_proper : Proper ((≡) ==> (=) ==> (≡)) build_spec.
Proof.
  intros A B (H1 & H2 & H3 & H4) op ? <-.
  destruct op; split_and!; cbn; intros; rewrite ?H1, ?H2, ?H3, ?H4; try done. by case_decide; rewrite ?H3.
Qed.

Section Build.
Context `{allocator, !alloc_total}.

Lemma addedge_any_loop_spec n : ∀ i f from to,
  fsm_wf f → live f from → live f to → i + n ≤ 256 →
  ∃ f', addedge_any_loop n i f from to = (true, f') ∧ fsm_wf f' ∧ f_statecount f' = f_statecount f ∧
    nfa_of f' ≡ mk_nfa (λ s c t, f_edge f s c t ∨ (s = from ∧ i ≤ c < i + n ∧ t = to))
      (f_eps f) (f_end f) (n_start (nfa_of f)).
Proof.
  induction n as [|n IH]; intros i f from to Hwf Hf Ht Hi; cbn [addedge_any_loop].
  { exists f. split_and!; try done. split_and!; cbn; intros; try done. split; [by left|]. intros [?|(_ & ? & _)]; [done|lia]. }
  destruct (fsm_addedge_literal f from to i) as [b f1] eqn:E.
  destruct (fsm_addedge_literal_spec f from to i b f1) as (H1 & H2 & H3 & H4); [done|done|done|lia|done|].
  rewrite H3 by done. destruct (IH (i + 1) f1 from to) as (f' & -> & K1 & K2 & K3 & K4 & K5 & K6);
    [done|unfold live in *; lia|unfold live in *; lia|lia|].
  destruct (H4 (H3 _)) as (L1 & L2 & L3 & L4). cbn in *.
  exists f'. split_and!; [done|done|lia|]. split_and!; cbn; intros.
  - rewrite K3, L1. split; [intros [[?|?]|?]|intros [?|(? & ? & ?)]]; [by left|right; lia|right; lia|by left; left|].
    destruct (decide (c = i)) as [->|]; [left; by right|right; lia].
  - by rewrite K4, L2.
  - by rewrite K5, L3.
  - by rewrite K6, L4.
Qed.

Lemma build_exec_spec f op :
  fsm_wf f → build_op_ok (f_statecount f) op →
  ∃ f', build_exec f op = (true, f') ∧ fsm_wf f' ∧ f_statecount f' = build_count (f_statecount f) op ∧
    nfa_of f' ≡ build_spec (nfa_of f) op.
Proof.
  intros Hwf Hok. destruct op as [|from to|from to c|from to|s b|s|]; cbn in *.
  - destruct (fsm_addstate f) as [[b f'] s] eqn:E. destruct (fsm_addstate_spec f b f' s Hwf Hok E) as (_ & H2 & H3).
    rewrite H2 in * by done. destruct H3 as (H3 & H4 & _ & H5 & _); [done|]. eauto.
  - destruct (fsm_addedge_epsilon f from to) as [b f'] eqn:E.
    destruct (fsm_addedge_epsilon_spec f from to b f') as (H1 & H2 & H3 & H4); [done|apply Hok|apply Hok|done|].
    rewrite H3 in * by done. exists f'. split_and!; auto.
  - destruct (fsm_addedge_literal f from to c) as [b f'] eqn:E.
    destruct (fsm_addedge_literal_spec f from to c b f') as (H1 & H2 & H3 & H4); [done|apply Hok|apply Hok|apply Hok|done|].
    rewrite H3 in * by done. exists f'. split_and!; auto.
  - destruct (addedge_any_loop_spec 256 0 f from to) as (f' & H1 & H2 & H3 & H4 & H5 & H6 & H7);
      [done|apply Hok|apply Hok|lia|].
    exists f'. split_and!; [done|done|done|]. split_and!; cbn in *; intros; [|by rewrite H5|by rewrite H6|by rewrite H7].
    rewrite H4. naive_solver lia.
  - destruct (fsm_setend_spec f s b Hwf Hok) as (H1 & H2 & H3 & _). eauto.
  - destruct (fsm_setstart_spec f s Hwf Hok) as (H1 & H2). eauto.
  - destruct (fsm_clearstart_spec f Hwf) as (H1 & H2). eauto.
Qed.

Lemma build_all_spec ops : ∀ f,
  fsm_wf f → build_ok (f_statecount f) ops = true →
  ∃ f', build_all f ops = (true, f') ∧ fsm_wf f' ∧ f_statecount f' = foldl build_count (f_statecount f) ops ∧
    nfa_of f' ≡ foldl build_spec (nfa_of f) ops.
Proof.
  induction ops as [|op ops IH]; intros f Hwf Hok; cbn [build_all build_ok foldl] in *; [eauto|].
  apply andb_true_iff in Hok as [Hok%bool_decide_eq_true Hoks].
  destruct (build_exec_spec f op Hwf Hok) as (f1 & -> & H1 & H2 & H3). rewrite <-H2 in Hoks |- *.
  destruct (IH f1 H1 Hoks) as (f' & K1 & K2 & K3 & K4). exists f'. split_and!; [done|done|done|]. rewrite K4.
  clear -H3. revert H3. generalize (nfa_of f1) (build_spec (nfa_of f) op).
  induction ops as [|op' ops IH]; intros A B HAB; [done|]. cbn [foldl]. apply IH. by rewrite HAB.
Qed.

(** C7. An automaton built by any sequence of calls with ids in range and fewer
    than 2^31 states, which the 31 bits of [endcount] can count, is well formed
    ([endcount] included), and has exactly the transitions, end states
    and start state that the calls described: the table of states with its
    growth, sets and edge groups implements the abstract automaton. *)
Theorem build_refines_nfa al ops :
  build_ok 0 ops = true →
  ∃ f0 f, fsm_new al = Some f0 ∧ build_all f0 ops = (true, f) ∧ fsm_wf f ∧
    f_statecount f = foldl build_count 0 ops ∧ nfa_of f ≡ foldl build_spec empty_nfa ops.
Proof.
  intros Hok. destruct (fsm_new_spec al) as (f0 & -> & Hwf & Hc & _ & Hs & _).
  rewrite <-Hc in Hok |- *. destruct (build_all_spec ops f0 Hwf Hok) as (f & H1 & H2 & H3 & H4).
  exists f0, f. split_and!; [done|done|done|done|]. rewrite H4.
  assert (nfa_of f0 ≡ empty_nfa) as He.
  { split_and!; cbn; intros; (split; [|done]); unfold f_edge, f_eps, f_end, live; try lia. by rewrite Hs. }
  clear -He. revert He. generalize (nfa_of f0) empty_nfa.
  induction ops as [|op' ops IH]; intros A B HAB; [done|]. cbn [foldl]. apply IH. by rewrite HAB.
Qed.
End Build.

(** A small automaton for the witnesses: [a(b|c)*], state 1 its end. *)
Definition sample_ops : list build_op :=
  [BAddState; BAddState; BStart 0%N; BLiteral 0%N 1%N 97; BLiteral 1%N 1%N 98; BLiteral 1%N 1%N 99; BEnd 1%N true].

Definition build_from_new `{allocator} (ops : list build_op) : fsm :=
  match fsm_new 0%N with
  | Some f => (build_all f ops).2
  | None => mk_fsm [] 0%N 0 0 false 0%N (mk_capture 0%N 0 []) (mk_endid_info [] 0) (mk_eager 0%N 0%N [] 0) None
  end.

Lemma build_refines_nfa_witness :
  build_ok 0 sample_ops = true ∧ fsm_wf (@build_from_new always sample_ops) ∧
  nfa_of (@build_from_new always sample_ops) ≡ foldl build_spec empty_nfa sample_ops.
Proof.
  split; [reflexivity|].
  destruct (@build_refines_nfa always always_total 0%N sample_ops eq_refl) as (f0 & f & H1 & H2 & H3 & _ & H4).
  unfold build_from_new. rewrite H1, H2. split; [exact H3|exact H4].
Defined.
