(* ===== verification/Queue.v ===== *)
(** * FIFO queue of states: src/adt/queue.c

    The queue is a fixed array with a read and a write offset. When the write
    offset reaches the end, [queue_push] shifts the entries down over the ones
    that were read. The model keeps the array and both offsets; the
    specification is a list, pushed at the end and popped at the front. *)

From S2P Require Import Prelude.

Record queue := mk_queue {
  q_rd : nat;
  q_wr : nat;
  q_capacity : nat;
  q_q : list N;
}.

(** The array as allocated holds unspecified values, read here as 0. *)
Definition queue_new `{allocator} (a : fsm_alloc) (max_capacity : nat) : option queue :=
  if max_capacity =? 0 then None
  else if f_malloc a (32 + (N.of_nat max_capacity - 1) * 4) then
    Some (mk_queue 0 0 max_capacity (replicate max_capacity 0%N))
  else None.

(** [memmove] of [n] entries from index [from] to the front. *)
Definition shift_down (q : list N) (from n : nat) : list N :=
  take n (drop from q) ++ drop n q.

Definition queue_push (q : queue) (state : N) : bool * queue :=
  let '(ok, q) :=
    if q_wr q =? q_capacity q then
      if (0 <? q_rd q) && (q_rd q <? q_wr q) then
        (true, mk_queue 0 (q_wr q - q_rd q) (q_capacity q) (shift_down (q_q q) (q_rd q) (q_capacity q - q_rd q)))
      else (false, q)
    else (true, q) in
  if ok then (true, mk_queue (q_rd q) (q_wr q + 1) (q_capacity q) (<[q_wr q := state]> (q_q q)))
  else (false, q).

Definition queue_pop (q : queue) : option (N * queue) :=
  if q_rd q =? q_wr q then None
  else
    let state := q_q q !!! q_rd q in
    let rd := q_rd q + 1 in
    Some (state,
      if rd =? q_wr q then mk_queue 0 0 (q_capacity q) (q_q q)
      else mk_queue rd (q_wr q) (q_capacity q) (q_q q)).

(** ** Specification *)

(** What the assertions of the functions state, and that the array has the
    capacity allocated. A queue with [rd = wr] has both at 0, since
    [queue_pop] resets them: a full array always has an entry to read. *)
Record queue_wf (q : queue) : Prop := {
  qw_rd : q_rd q ≤ q_wr q;
  qw_wr : q_wr q ≤ q_capacity q;
  qw_len : length (q_q q) = q_capacity q;
  qw_pos : 0 < q_capacity q;
  qw_empty : q_rd q = q_wr q → q_wr q = 0;
}.

(** The entries not read yet, oldest first. *)
Definition queue_elems (q : queue) : list N := take (q_wr q - q_rd q) (drop (q_rd q) (q_q q)).

Lemma length_queue_elems q : queue_wf q → length (queue_elems q) = q_wr q - q_rd q.
Proof.
  intros Hw. unfold queue_elems. rewrite length_take, length_drop, (qw_len _ Hw).
  pose proof (qw_wr _ Hw). lia.
Qed.

Lemma queue_new_spec `{allocator} a n q :
  queue_new a n = Some q → queue_wf q ∧ queue_elems q = [] ∧ q_capacity q = n.
Proof.
  unfold queue_new. destruct (n =? 0) eqn:E; [done|]. split_bool. destruct (f_malloc _ _); [|done].
  intros [= <-]. split_and!; [|done|done]. split; cbn; rewrite ?length_replicate; lia.
Qed.

Lemma queue_new_total `{allocator, !alloc_total} a n : 0 < n → ∃ q, queue_new a n = Some q.
Proof.
  intros Hn. unfold queue_new. rewrite f_malloc_total. destruct (n =? 0) eqn:E; split_bool; [lia|eauto].
Qed.

(** Writing the entry after the last one. *)
Lemma push_elems (l : list N) rd wr x :
  rd ≤ wr → wr < length l →
  take (wr + 1 - rd) (drop rd (<[wr := x]> l)) = take (wr - rd) (drop rd l) ++ [x].
Proof.
  intros Hle Hlt. rewrite drop_insert_ge by lia.
  replace (wr + 1 - rd) with (S (wr - rd)) by lia.
  rewrite (take_S_r _ _ x), take_insert_ge; [done|lia|].
  rewrite list_lookup_insert_eq; [done|]. rewrite length_drop. lia.
Qed.

Lemma queue_push_spec q x b q' :
  queue_wf q → queue_push q x = (b, q') →
  queue_wf q' ∧ q_capacity q' = q_capacity q ∧
  (b = true → queue_elems q' = queue_elems q ++ [x]) ∧
  (b = false → q' = q ∧ length (queue_elems q) = q_capacity q).
Proof.
  intros Hw. pose proof (length_queue_elems q Hw) as Hlen. destruct Hw as [H1 H2 H3 H4 H5].
  unfold queue_push. destruct (q_wr q =? q_capacity q) eqn:E; split_bool.
  - destruct ((0 <? q_rd q) && (q_rd q <? q_wr q)) eqn:E2; split_bool; intros [= <- <-].
    + set (l := shift_down (q_q q) (q_rd q) (q_capacity q - q_rd q)).
      assert (length l = length (q_q q)) as Hl.
      { unfold l, shift_down. rewrite length_app, length_take, !length_drop. lia. }
      split_and!; [|done| |done].
      * split; cbn; rewrite ?length_insert; lia.
      * intros _. unfold queue_elems. cbn [q_rd q_wr q_q].
        rewrite push_elems by lia. f_equal. rewrite Nat.sub_0_r. unfold l, shift_down.
        rewrite drop_0, E, take_app_le by (rewrite length_take, length_drop; lia).
        by rewrite take_take, Nat.min_id.
    + split_and!; [by split|done|done|]. intros _. split; [done|]. rewrite Hlen.
      apply andb_false_iff in E2 as [E2|E2]; split_bool; lia.
  - intros [= <- <-]. split_and!; [|done| |done].
    + split; cbn; rewrite ?length_insert; lia.
    + intros _. unfold queue_elems. cbn [q_rd q_wr q_q]. by apply push_elems; lia.
Qed.

(** A push succeeds whenever fewer entries than the capacity are waiting. *)
Lemma queue_push_room q x :
  queue_wf q → length (queue_elems q) < q_capacity q → ∃ q', queue_push q x = (true, q').
Proof.
  intros Hw Hlt. destruct (queue_push q x) as [[] q'] eqn:E; [eauto|].
  destruct (queue_push_spec _ _ _ _ Hw E) as (_ & _ & _ & Hf). destruct (Hf eq_refl). lia.
Qed.

Lemma queue_pop_spec q :
  queue_wf q →
  match queue_pop q with
  | None => queue_elems q = []
  | Some (x, q') => queue_wf q' ∧ q_capacity q' = q_capacity q ∧ queue_elems q = x :: queue_elems q'
  end.
Proof.
  intros [H1 H2 H3 H4 H5]. unfold queue_pop. destruct (q_rd q =? q_wr q) eqn:E; split_bool.
  { unfold queue_elems. by rewrite E, Nat.sub_diag. }
  assert (queue_elems q = (q_q q !!! q_rd q) :: take (q_wr q - (q_rd q + 1)) (drop (q_rd q + 1) (q_q q))) as Hel.
  { unfold queue_elems. assert (q_rd q < length (q_q q)) as Hlt by lia.
    destruct (lookup_lt_is_Some_2 _ _ Hlt) as [y Hy].
    rewrite (drop_S _ y) by done. replace (q_wr q - q_rd q) with (S (q_wr q - (q_rd q + 1))) by lia.
    rewrite (list_lookup_total_correct _ _ _ Hy). cbn [take]. by rewrite Nat.add_1_r. }
  destruct (q_rd q + 1 =? q_wr q) eqn:E2; split_bool.
  - split_and!; [split; cbn; lia|done|]. rewrite Hel, E2, Nat.sub_diag. done.
  - split_and!; [split; cbn; lia|done|]. exact Hel.
Qed.

(** ** Property: the queue is a bounded FIFO *)

Inductive q_op := QPush (s : N) | QPop.

(** A run of operations, with what each returned. *)
Fixpoint queue_run (q : queue) (ops : list q_op) : list (option N) * queue :=
  match ops with
  | [] => ([], q)
  | QPush s :: ops =>
      let '(ok, q) := queue_push q s in
      let '(r, q) := queue_run q ops in ((if ok then Some 1%N else Some 0%N) :: r, q)
  | QPop :: ops =>
      match queue_pop q with
      | Some (s, q) => let '(r, q) := queue_run q ops in (Some s :: r, q)
      | None => let '(r, q) := queue_run q ops in (None :: r, q)
      end
  end.

(** The same on a list of at most [cap] entries. *)
Fixpoint fifo_run (cap : nat) (l : list N) (ops : list q_op) : list (option N) * list N :=
  match ops with
  | [] => ([], l)
  | QPush s :: ops =>
      if length l <? cap then let '(r, l) := fifo_run cap (l ++ [s]) ops in (Some 1%N :: r, l)
      else let '(r, l) := fifo_run cap l ops in (Some 0%N :: r, l)
  | QPop :: ops =>
      match l with
      | [] => let '(r, l) := fifo_run cap [] ops in (None :: r, l)
      | s :: l => let '(r, l) := fifo_run cap l ops in (Some s :: r, l)
      end
  end.

Lemma queue_run_fifo ops : ∀ q,
  queue_wf q →
  (queue_run q ops).1 = (fifo_run (q_capacity q) (queue_elems q) ops).1 ∧
  queue_elems (queue_run q ops).2 = (fifo_run (q_capacity q) (queue_elems q) ops).2 ∧
  queue_wf (queue_run q ops).2.
Proof.
  induction ops as [|[s|] ops IH]; intros q Hw; cbn [queue_run fifo_run]; [done| |].
  - destruct (queue_push q s) as [b q'] eqn:E.
    destruct (queue_push_spec _ _ _ _ Hw E) as (Hw' & Hc & Ht & Hf). specialize (IH q' Hw'). rewrite Hc in IH.
    destruct (length (queue_elems q) <? q_capacity q) eqn:El; split_bool.
    + destruct (queue_push_room q s Hw El) as [q'' Hq]. rewrite E in Hq. injection Hq as -> ->.
      rewrite Ht in IH by done. destruct (queue_run _ _), (fifo_run _ _ _). naive_solver.
    + destruct b.
      { pose proof (length_queue_elems q' Hw') as Hl. rewrite Ht, length_app in Hl by done.
        pose proof (qw_wr _ Hw'). simpl in Hl. lia. }
      destruct (Hf eq_refl) as [-> _]. destruct (queue_run _ _), (fifo_run _ _ _). naive_solver.
  - pose proof (queue_pop_spec q Hw) as Hp. destruct (queue_pop q) as [[s q']|].
    + destruct Hp as (Hw' & Hc & ->). specialize (IH q' Hw'). rewrite Hc in IH.
      destruct (queue_run _ _), (fifo_run _ _ _). naive_solver.
    + specialize (IH q Hw). rewrite Hp in IH |- *. destruct (queue_run _ _), (fifo_run _ _ _). naive_solver.
Qed.

(** C30. The queue behaves as a first-in first-out list bounded by its capacity: a
    push fails exactly when [capacity] entries are waiting, wherever the
    offsets are in the array, and the pops return the entries in the order
    pushed. *)
Theorem queue_refines_fifo `{allocator} a n q ops :
  queue_new a n = Some q →
  (queue_run q ops).1 = (fifo_run n [] ops).1 ∧ queue_elems (queue_run q ops).2 = (fifo_run n [] ops).2 ∧
  queue_wf (queue_run q ops).2.
Proof.
  intros Hq. destruct (queue_new_spec _ _ _ Hq) as (Hw & He & <-). rewrite <- He. by apply queue_run_fifo.
Qed.

Lemma queue_refines_fifo_witness :
  (queue_run (mk_queue 0 0 2 [0; 0]%N) [QPush 7; QPush 8; QPop; QPush 9; QPush 4; QPop; QPop; QPop]%N).1 =
    [Some 1; Some 1; Some 7; Some 1; Some 0; Some 8; Some 9; None]%N.
Proof.
  destruct (@queue_refines_fifo always 0%N 2 (mk_queue 0 0 2 [0; 0]%N)
    [QPush 7; QPush 8; QPop; QPush 9; QPush 4; QPop; QPop; QPop]%N eq_refl) as [-> _]. reflexivity.
Defined.
