(* ===== verification/Search.v ===== *)
(** * Worklist searches

    The invariant shared by the graph searches of the library (reachability,
    epsilon closures, trimming): a list of states that are done, a worklist,
    and visited flags in [struct fsm_state]. Each state enters the worklist at
    most once, which bounds the search and the room the worklist needs. *)

From S2P Require Import Prelude StateSet Bits EdgeSet EdgeCompact Probe Endids EagerOutput Lang Fsm FsmSpec.

Section Search.
Context (R : N → N → Prop) (n : nat) (root : N).

Record search_inv (dn wl : list N) : Prop := {
  se_nodup : NoDup (dn ++ wl);
  se_lt s : s ∈ dn ++ wl → N.to_nat s < n;
  se_reach s : s ∈ dn ++ wl → rtc R root s;
  se_closed s t : s ∈ dn → R s t → t ∈ dn ++ wl;
  se_root : root ∈ dn ++ wl;
}.

Lemma search_start : N.to_nat root < n → search_inv [] [root].
Proof.
  intros Hr. split; simpl.
  - apply NoDup_singleton.
  - by intros s ->%list_elem_of_singleton.
  - intros s ->%list_elem_of_singleton. apply rtc_refl.
  - by intros s t ?%not_elem_of_nil.
  - by apply list_elem_of_singleton.
Qed.

Lemma search_perm dn wl wl' : wl ≡ₚ wl' → search_inv dn wl → search_inv dn wl'.
Proof.
  intros Hp [H1 H2 H3 H4 H5].
  assert (∀ s, s ∈ dn ++ wl' ↔ s ∈ dn ++ wl) as He by (intros s; by rewrite Hp).
  split; [by rewrite <-Hp| | | |by apply He].
  - intros s Hs%He. auto.
  - intros s Hs%He. auto.
  - intros s t Hs Hr. apply He. eauto.
Qed.

(** A successor that was not visited joins the worklist. *)
Lemma search_push dn wl s t :
  search_inv dn wl → s ∈ dn ++ wl → R s t → N.to_nat t < n → t ∉ dn ++ wl → search_inv dn (t :: wl).
Proof.
  intros [H1 H2 H3 H4 H5] Hs Hr Ht Hn.
  assert (∀ u, u ∈ dn ++ t :: wl ↔ u = t ∨ u ∈ dn ++ wl) as He.
  { intros u. by rewrite <-Permutation_middle, elem_of_cons. }
  split.
  - rewrite <-Permutation_middle. by constructor.
  - intros u [->|Hu]%He; auto.
  - intros u [->|Hu]%He; [|auto]. eapply rtc_r; eauto.
  - intros u v Hu Hv. apply He. eauto.
  - apply He. by right.
Qed.

(** A state whose successors are all visited is done. *)
Lemma search_done dn wl s :
  search_inv dn (s :: wl) → (∀ t, R s t → t ∈ dn ++ s :: wl) → search_inv (s :: dn) wl.
Proof.
  intros [H1 H2 H3 H4 H5] Hs.
  assert (∀ u, u ∈ (s :: dn) ++ wl ↔ u ∈ dn ++ s :: wl) as He.
  { intros u. by rewrite <-Permutation_middle. }
  split.
  - by rewrite <-Permutation_middle in H1.
  - intros u Hu%He. auto.
  - intros u Hu%He. auto.
  - intros u v [->|Hu]%elem_of_cons Hr; apply He; eauto.
  - by apply He.
Qed.

Lemma search_bound dn wl : search_inv dn wl → length dn + length wl ≤ n.
Proof.
  intros Hi. rewrite <-length_app.
  assert (dn ++ wl ⊆ (N.of_nat <$> seq 0 n)) as Hsub.
  { intros s Hs. apply list_elem_of_fmap. exists (N.to_nat s). split; [lia|].
    apply elem_of_seq. pose proof (se_lt _ _ Hi s Hs). lia. }
  pose proof (submseteq_length _ _ (NoDup_submseteq _ _ (se_nodup _ _ Hi) Hsub)) as Hl.
  by rewrite length_fmap, length_seq in Hl.
Qed.

(** When the worklist is empty the search has found what is reachable. *)
Lemma search_end dn t : search_inv dn [] → t ∈ dn ↔ rtc R root t.
Proof.
  intros Hi. destruct Hi as [H1 H2 H3 H4 H5]. rewrite app_nil_r in *. split; [auto|].
  clear H1 H2 H3. intros Hr. induction Hr as [|s u t Hs Hr IH]; eauto.
Qed.
End Search.

(** ** Breadth-first search from several roots

    [D] is the distance noted for each state when it joins the queue. The
    states in the queue are ordered by it, and differ by at most one. *)
Section Breadth.
Context (R : N → N → Prop) (n : nat) (roots : list N).

(** The distance from the nearest root. *)
Definition nearest (s : N) (k : nat) : Prop :=
  (∃ r, r ∈ roots ∧ nsteps R k r s) ∧ ∀ j r, r ∈ roots → nsteps R j r s → k ≤ j.

Record bfs_inv (D : N → nat) (dn wl : list N) : Prop := {
  bf_nodup : NoDup (dn ++ wl);
  bf_lt s : s ∈ dn ++ wl → N.to_nat s < n;
  bf_reach s : s ∈ dn ++ wl → ∃ r, r ∈ roots ∧ nsteps R (D s) r s;
  bf_closed s t : s ∈ dn → R s t → t ∈ dn ++ wl ∧ D t ≤ S (D s);
  bf_root r : r ∈ roots → r ∈ dn ++ wl ∧ D r = 0;
  bf_sorted : StronglySorted (λ s t, D s ≤ D t ≤ S (D s)) wl;
  bf_done s t : s ∈ dn → t ∈ wl → D s ≤ D t;
}.

Lemma bfs_start D :
  NoDup roots → (∀ r, r ∈ roots → N.to_nat r < n ∧ D r = 0) → bfs_inv D [] roots.
Proof.
  intros Hnd Hr. split; cbn [app].
  - done.
  - intros s Hs. by apply Hr.
  - intros s Hs. exists s. split; [done|]. destruct (Hr s Hs) as [_ ->]. constructor.
  - by intros s t ?%not_elem_of_nil.
  - intros r Hin. by destruct (Hr r Hin).
  - clear Hnd. induction roots as [|r l IH]; constructor.
    + apply IH. intros; apply Hr. by right.
    + apply Forall_forall. intros t Ht. destruct (Hr r ltac:(left)) as [_ ->], (Hr t ltac:(by right)) as [_ ->]. lia.
  - by intros s t ?%not_elem_of_nil.
Qed.

Lemma bfs_ext D D' dn wl : (∀ s, s ∈ dn ++ wl → D' s = D s) → bfs_inv D dn wl → bfs_inv D' dn wl.
Proof.
  intros He [H1 H2 H3 H4 H5 H6 H7].
  assert (∀ s, s ∈ dn → D' s = D s) as Hd by (intros; apply He, elem_of_app; by left).
  assert (∀ s, s ∈ wl → D' s = D s) as Hw by (intros; apply He, elem_of_app; by right). split.
  - done.
  - done.
  - intros s Hs. rewrite He by done. auto.
  - intros s t Hs Hr. destruct (H4 s t Hs Hr) as [Ht Hle]. rewrite (He t Ht), (Hd s Hs). done.
  - intros r Hr. destruct (H5 r Hr) as [Hin Hz]. by rewrite (He r Hin).
  - clear -H6 Hw. induction H6 as [|s l Hs IH Hl]; constructor.
    + apply IH. intros; apply Hw. by right.
    + rewrite Forall_forall in Hl |- *. intros t Ht. rewrite (Hw s ltac:(left)), (Hw t ltac:(by right)). auto.
  - intros s t Hs Ht. rewrite (Hd s Hs), (Hw t Ht). auto.
Qed.

(** A successor of the state at the head that was not visited joins at the
    end, one step further. *)
Lemma bfs_push D dn s wl t :
  bfs_inv D dn (s :: wl) → R s t → N.to_nat t < n → t ∉ dn ++ s :: wl → D t = S (D s) →
  bfs_inv D dn (s :: wl ++ [t]).
Proof.
  intros [H1 H2 H3 H4 H5 H6 H7] Hr Ht Hn HD.
  assert (∀ u, u ∈ dn ++ s :: wl ++ [t] ↔ u = t ∨ u ∈ dn ++ s :: wl) as He by (intros; set_solver).
  inversion H6 as [|? ? Hwl Hs]; subst. rewrite Forall_forall in Hs. split.
  - rewrite app_comm_cons, app_assoc, (Permutation_app_comm _ [t]). by constructor.
  - intros u [->|Hu]%He; auto.
  - intros u [->|Hu]%He; [|auto]. destruct (H3 s) as (r & Hrt & Hp); [set_solver|]. exists r. split; [done|].
    rewrite HD. by eapply nsteps_r.
  - intros u v Hu Hv. destruct (H4 u v Hu Hv) as [Hin Hle]. split; [|done]. apply He. by right.
  - intros r Hrt. destruct (H5 r Hrt) as [Hin Hz]. split; [|done]. apply He. by right.
  - rewrite app_comm_cons. clear -H6 HD Hs.
    assert (∀ u, u ∈ s :: wl → D u ≤ D t ≤ S (D u)) as Hu.
    { intros u [->|Hu]%elem_of_cons; [lia|]. specialize (Hs u Hu). lia. }
    clear Hs HD. induction H6 as [|x l Hx IH Hl]; [repeat constructor|]. cbn [app]. constructor.
    + apply IH. intros; apply Hu. by right.
    + apply Forall_app. split; [done|]. constructor; [|constructor]. apply Hu. left.
  - intros u v Hu Hv. rewrite app_comm_cons in Hv. apply elem_of_app in Hv as [Hv|Hv%list_elem_of_singleton]; [auto|].
    subst v. specialize (H7 u s Hu ltac:(left)). lia.
Qed.

(** A visited successor of the head needs no correction. *)
Lemma bfs_visited D dn s wl t : bfs_inv D dn (s :: wl) → t ∈ dn ++ s :: wl → D t ≤ S (D s).
Proof.
  intros [H1 H2 H3 H4 H5 H6 H7] [Ht|[->|Ht]%elem_of_cons]%elem_of_app.
  - specialize (H7 t s Ht ltac:(left)). lia.
  - lia.
  - inversion H6 as [|? ? Hwl Hs]; subst. rewrite Forall_forall in Hs. specialize (Hs t Ht). lia.
Qed.

Lemma bfs_pop D dn s wl :
  bfs_inv D dn (s :: wl) → (∀ t, R s t → t ∈ dn ++ s :: wl) → bfs_inv D (s :: dn) wl.
Proof.
  intros Hi Hs. pose proof (bfs_visited D dn s wl) as Hv. destruct Hi as [H1 H2 H3 H4 H5 H6 H7] eqn:E.
  assert (∀ u, u ∈ (s :: dn) ++ wl ↔ u ∈ dn ++ s :: wl) as He by (intros u; by rewrite <-Permutation_middle).
  inversion H6 as [|? ? Hwl Hsl]; subst. rewrite Forall_forall in Hsl. split.
  - by rewrite <-Permutation_middle in H1.
  - intros u Hu%He. auto.
  - intros u Hu%He. auto.
  - intros u t [->|Hu]%elem_of_cons Hr.
    + split; [apply He; auto|]. apply Hv; [done|auto].
    + destruct (H4 u t Hu Hr). split; [by apply He|done].
  - intros r Hr. destruct (H5 r Hr). split; [by apply He|done].
  - done.
  - intros u t [->|Hu]%elem_of_cons Ht; [by apply Hsl|]. apply H7; [done|]. by right.
Qed.

Lemma bfs_bound D dn wl : bfs_inv D dn wl → length dn + length wl ≤ n.
Proof.
  intros Hi. rewrite <-length_app.
  assert (dn ++ wl ⊆ (N.of_nat <$> seq 0 n)) as Hsub.
  { intros s Hs. apply list_elem_of_fmap. exists (N.to_nat s). split; [lia|].
    apply elem_of_seq. pose proof (bf_lt _ _ _ Hi s Hs). lia. }
  pose proof (submseteq_length _ _ (NoDup_submseteq _ _ (bf_nodup _ _ _ Hi) Hsub)) as Hl.
  by rewrite length_fmap, length_seq in Hl.
Qed.

(** A distance is less than the number of states. *)
Lemma bfs_steps D dn wl : bfs_inv D dn wl → ∀ k r s, nsteps R k r s → r ∈ roots → s ∈ dn ++ wl → wl = [] → D s ≤ k.
Proof.
  intros Hi k r s Hk Hr Hs ->. rewrite app_nil_r in Hs.
  enough (∀ k s, nsteps R k r s → s ∈ dn ∧ D s ≤ k) as Hg by (by apply Hg).
  clear k s Hk Hs. induction k as [|k IH]; intros s Hk.
  - inversion Hk; subst. destruct (bf_root _ _ _ Hi s Hr) as [Hin ->]. rewrite app_nil_r in Hin. split; [done|lia].
  - apply nsteps_inv_r in Hk as (t & Ht & Hts). destruct (IH t Ht) as [Hd Hle].
    destruct (bf_closed _ _ _ Hi t s Hd Hts) as [Hin Hle']. rewrite app_nil_r in Hin. split; [done|lia].
Qed.

(** When the queue is empty, the search has found what is reachable and how
    far it is. *)
Lemma bfs_end D dn s :
  bfs_inv D dn [] → (s ∈ dn ↔ ∃ r, r ∈ roots ∧ rtc R r s) ∧ (s ∈ dn → nearest s (D s)).
Proof.
  intros Hi. split; [split|].
  - intros Hs. destruct (bf_reach _ _ _ Hi s) as (r & Hr & Hp); [by rewrite app_nil_r|].
    exists r. split; [done|]. by eapply rtc_nsteps_2.
  - intros (r & Hr & Hp). destruct (bf_root _ _ _ Hi r Hr) as [Hin _]. rewrite app_nil_r in Hin. clear Hr.
    induction Hp as [x|x y z Hxy Hyz IH]; [done|]. apply IH. destruct (bf_closed _ _ _ Hi x y Hin Hxy) as [Hy _].
    by rewrite app_nil_r in Hy.
  - intros Hs. split; [apply (bf_reach _ _ _ Hi); by rewrite app_nil_r|].
    intros j r Hr Hp. eapply bfs_steps; [done|done|done| |done]. by rewrite app_nil_r.
Qed.
End Breadth.

(** ** Visited flags *)

Definition visited (f : fsm) (s : N) : bool := st_visited (get_state f s).

(** The flags of the states in use are those of a list. *)
Definition flags (f : fsm) (l : list N) : Prop :=
  ∀ s, live f s → visited f s = true ↔ s ∈ l.

(** What a search leaves unchanged: everything but the flags. *)
Definition same_graph (f f' : fsm) : Prop :=
  f_statecount f' = f_statecount f ∧ f_alloc f' = f_alloc f ∧
  length (f_states f') = length (f_states f) ∧
  f_endcount f' = f_endcount f ∧ f_start f' = f_start f ∧ f_hasstart f' = f_hasstart f ∧
  f_capture_info f' = f_capture_info f ∧ f_endid_info f' = f_endid_info f ∧
  f_eager_output_info f' = f_eager_output_info f ∧ f_linkage_info f' = f_linkage_info f ∧
  (∀ s, set_visited false (get_state f' s) = set_visited false (get_state f s)).

#[export] Instance same_graph_equivalence : Equivalence same_graph.
Proof.
  split.
  - intros f. by split_and!.
  - intros f g (H1 & H2 & H3 & H4 & H5 & H6 & H7 & H8 & H9 & H10 & H11). by split_and!.
  - intros f g h (H1 & H2 & H3 & H4 & H5 & H6 & H7 & H8 & H9 & H10 & H11)
      (K1 & K2 & K3 & K4 & K5 & K6 & K7 & K8 & K9 & K10 & K11). split_and!; congruence.
Qed.

Lemma same_graph_visited f s b : same_graph f (upd_state f s (set_visited b)).
Proof.
  split_and!; try done; [cbn; by rewrite length_alter|].
  intros t. destruct (decide (N.to_nat s < length (f_states f))) as [Hs|Hs].
  - rewrite get_upd by done. by case_decide; subst.
  - unfold get_state, upd_state. cbn [with_states f_states].
    rewrite !list_lookup_total_alt. destruct (decide (N.to_nat s = N.to_nat t)) as [<-|Hne].
    + by rewrite list_lookup_alter_eq, (lookup_ge_None_2 _ (N.to_nat s)) by lia.
    + by rewrite list_lookup_alter_ne.
Qed.

(** The fields a search reads are those of the automaton it started on. *)
Lemma same_graph_state f f' s :
  same_graph f f' →
  st_edges (get_state f' s) = st_edges (get_state f s) ∧
  st_epsilons (get_state f' s) = st_epsilons (get_state f s) ∧
  st_end (get_state f' s) = st_end (get_state f s) ∧
  st_has_capture_actions (get_state f' s) = st_has_capture_actions (get_state f s) ∧
  st_has_eager_outputs (get_state f' s) = st_has_eager_outputs (get_state f s).
Proof.
  intros (_ & _ & _ & _ & _ & _ & _ & _ & _ & _ & Hg). specialize (Hg s).
  destruct (get_state f' s), (get_state f s). unfold set_visited in Hg. cbn in *. by simplify_eq.
Qed.

Lemma same_graph_live f f' s : same_graph f f' → live f' s ↔ live f s.
Proof. intros (Hc & _). unfold live. by rewrite Hc. Qed.

Lemma end_states_count f :
  length (end_states f) = sum_list ((λ i, Nat.b2n (st_end (f_states f !!! i))) <$> seq 0 (f_statecount f `min` length (f_states f))).
Proof.
  unfold end_states. generalize (f_statecount f) as n. generalize (f_states f) as l. clear f.
  induction l as [|x l IH]; intros [|n]; try done.
  cbn [take length]. rewrite <-Nat.succ_min_distr. cbn [seq]. rewrite filter_cons, <-fmap_S_seq, fmap_cons.
  rewrite <-list_fmap_compose. specialize (IH n). cbn [sum_list]. case_decide as E.
  - cbn [length]. rewrite IH. cbn. by rewrite E.
  - apply not_true_is_false in E. rewrite IH. cbn. by rewrite E.
Qed.

Lemma same_graph_wf f f' : same_graph f f' → fsm_wf f → fsm_wf f'.
Proof.
  intros Hs Hwf. pose proof Hs as (H1 & H2 & H3 & H4 & H5 & H6 & _). split.
  - rewrite H1, H3. apply Hwf.
  - rewrite H3. apply Hwf.
  - rewrite H1. apply Hwf.
  - intros s Hl. rewrite (same_graph_live f f') in Hl by done. rewrite H1.
    destruct (same_graph_state _ _ s Hs) as (E1 & E2 & _). unfold state_ok. rewrite E1, E2. by apply Hwf.
  - rewrite H4, (wf_endcount _ Hwf), !end_states_count, H1, H3. f_equal.
    apply list_fmap_ext. intros i j _. destruct (same_graph_state _ _ (N.of_nat j) Hs) as (_ & _ & E & _).
    unfold get_state in E. rewrite Nat2N.id in E. by rewrite E.
  - intros s. unfold fsm_getstart. rewrite H5, H6, (same_graph_live f f') by done. apply Hwf.
Qed.

Lemma same_graph_nfa f f' : same_graph f f' → nfa_of f' ≡ nfa_of f.
Proof.
  intros Hs. pose proof Hs as (_ & _ & _ & _ & H5 & H6 & _).
  split_and!; cbn; intros.
  - unfold f_edge. rewrite same_graph_live by done. by destruct (same_graph_state _ _ s Hs) as (-> & _).
  - unfold f_eps. rewrite same_graph_live by done. by destruct (same_graph_state _ _ s Hs) as (_ & -> & _).
  - unfold f_end, fsm_isend. rewrite same_graph_live by done. by destruct (same_graph_state _ _ s Hs) as (_ & _ & -> & _).
  - unfold fsm_getstart. by rewrite H5, H6.
Qed.

(** Setting or clearing one flag. *)
Lemma visited_upd f s b t :
  N.to_nat s < length (f_states f) →
  visited (upd_state f s (set_visited b)) t = if decide (t = s) then b else visited f t.
Proof. intros Hs. unfold visited. rewrite get_upd by done. by case_decide. Qed.

Lemma flags_mark f l s :
  fsm_wf f → live f s → flags f l → flags (upd_state f s (set_visited true)) (s :: l).
Proof.
  intros Hwf Hs Hf t Ht. pose proof (wf_alloc _ Hwf). rewrite visited_upd by (unfold live in Hs; lia).
  rewrite elem_of_cons. case_decide; [naive_solver|]. rewrite (Hf t Ht). naive_solver.
Qed.

Lemma flags_perm f l l' : l ≡ₚ l' → flags f l → flags f l'.
Proof. intros Hp Hf s Hs. by rewrite <-Hp, (Hf s Hs). Qed.

(** [for (i = 0; i < fsm->statecount; i++) fsm->states[i].visited = 0] *)
Definition clear_visited (f : fsm) : fsm := foldl (λ f i, upd_state f i (set_visited false)) f (live_ids f).

Lemma clear_list_spec l : ∀ f,
  (∀ s, s ∈ l → N.to_nat s < length (f_states f)) →
  same_graph f (foldl (λ f i, upd_state f i (set_visited false)) f l) ∧
  (∀ t, visited (foldl (λ f i, upd_state f i (set_visited false)) f l) t = if decide (t ∈ l) then false else visited f t).
Proof.
  induction l as [|s l IH]; intros f Hl; cbn [foldl].
  { split; [reflexivity|]. intros t. rewrite decide_False; [done|apply not_elem_of_nil]. }
  destruct (IH (upd_state f s (set_visited false))) as [IH1 IH2].
  { intros t Ht. cbn. rewrite length_alter. apply Hl. by right. }
  split; [etrans; [apply same_graph_visited|done]|]. intros t. rewrite IH2, visited_upd by (apply Hl; left).
  repeat case_decide; set_solver.
Qed.

Lemma elem_of_live_ids f s : s ∈ live_ids f ↔ live f s.
Proof.
  unfold live_ids, live. rewrite list_elem_of_fmap. setoid_rewrite elem_of_seq. split.
  - intros (i & -> & Hi). lia.
  - intros Hs. exists (N.to_nat s). lia.
Qed.

Lemma clear_visited_spec f :
  fsm_wf f → same_graph f (clear_visited f) ∧ flags (clear_visited f) [].
Proof.
  intros Hwf. destruct (clear_list_spec (live_ids f) f) as [Hs Hv].
  { intros s Hs%elem_of_live_ids. pose proof (wf_alloc _ Hwf). unfold live in Hs. lia. }
  split; [done|]. intros s Hl. rewrite (same_graph_live f) in Hl by done.
  unfold clear_visited. rewrite Hv, decide_True by (by apply elem_of_live_ids). split; [done|by intros ?%not_elem_of_nil].
Qed.
