(* ===== verification/FsmCompact.v ===== *)
(** * Dropping states: [fsm_compact_states] of src/libfsm/state.c

    The states a filter keeps are renumbered in order and moved down over the
    dropped ones. What remains is the automaton restricted to the kept states,
    up to that renumbering, with the metadata of the kept states. *)

From S2P Require Import Prelude StateSet Bits EdgeSet EdgeIter EdgeCompact Probe Endids EagerOutput.
From S2P Require Import Lang Fsm FsmSpec Search.

(** ** Restricting an automaton *)

Definition restrict (A : nfa) (keep : N → Prop) : nfa :=
  mk_nfa (λ s c t, n_edge A s c t ∧ keep s ∧ keep t) (λ s t, n_eps A s t ∧ keep s ∧ keep t)
    (λ s, n_end A s ∧ keep s) (λ s, n_start A s ∧ keep s).

(** A path to an end state stays in states that include those on accepting
    paths. *)
Lemma path_restrict A (keep : N → Prop) s w t :
  (∀ s0 u s v t, n_start A s0 → path A s0 u s → path A s v t → n_end A t → keep s) →
  n_start A s → path A s w t → n_end A t → path (restrict A keep) s w t.
Proof.
  intros Hk Hs Hp He. assert (∀ u x v, path A s u x → path A x v t → path (restrict A keep) x v t) as Hmain.
  { intros u x v Hu Hv. revert u Hu. induction Hv as [x|x y v t Hxy Hv IH|x c y v t Hxy Hv IH]; intros u Hu.
    - constructor.
    - assert (path A s u y) as Hu' by (rewrite <-(app_nil_r u); eapply path_app; [done|]; eauto with fsm).
      eapply path_eps; [|by eapply IH]. split_and!; [done| |].
      + eapply (Hk s u x v t); [done|done| |done]. eauto with fsm.
      + by eapply (Hk s u y v t).
    - assert (path A s (u ++ [c]) y) as Hu' by (eapply path_app; [done|]; eauto with fsm).
      eapply path_step; [|by eapply IH]. split_and!; [done| |].
      + eapply (Hk s u x (c :: v) t); [done|done| |done]. eauto with fsm.
      + by eapply (Hk s (u ++ [c]) y v t). }
  eapply (Hmain []); [constructor|done].
Qed.

(** Restricting to states that include those on accepting paths loses no
    word. *)
Lemma accepts_restrict A (keep : N → Prop) w :
  (∀ s0 u s v t, n_start A s0 → path A s0 u s → path A s v t → n_end A t → keep s) →
  accepts (restrict A keep) w ↔ accepts A w.
Proof.
  intros Hk. split.
  - intros (s & t & [Hs _] & Hp & [He _]). exists s, t. split_and!; [done| |done].
    eapply path_mono; [| |exact Hp]; cbn; naive_solver.
  - intros (s & t & Hs & Hp & He). exists s, t. split_and!.
    + split; [done|]. eapply (Hk s [] s w t); [done|constructor|done|done].
    + by apply path_restrict.
    + split; [done|]. eapply (Hk s w t [] t); [done|done|constructor|done].
Qed.

(** ** The mapping *)

Section Mapping.
Context (keep : N → bool).

(** The new number of a state: how many are kept before it. *)
Definition rank (s : N) : N :=
  N.of_nat (length (filter (λ t, keep t = true) (N.of_nat <$> seq 0 (N.to_nat s)))).

Lemma rank_le s : (rank s ≤ s)%N.
Proof.
  unfold rank. pose proof (length_filter (λ t, keep t = true) (N.of_nat <$> seq 0 (N.to_nat s))) as Hl.
  rewrite length_fmap, length_seq in Hl. lia.
Qed.

Lemma ids_split i j : i < j → N.of_nat <$> seq 0 j = (N.of_nat <$> seq 0 i) ++ N.of_nat i :: (N.of_nat <$> seq (S i) (j - S i)).
Proof.
  intros Hij. replace j with (i + S (j - S i)) at 1 by lia. rewrite seq_app, fmap_app. simpl. done.
Qed.

Lemma rank_lt s t : (s < t)%N → keep s = true → (rank s < rank t)%N.
Proof.
  intros Hlt Hk. unfold rank. rewrite (ids_split (N.to_nat s) (N.to_nat t)) by lia.
  rewrite filter_app, length_app, filter_cons, N2Nat.id, decide_True by done. simpl. lia.
Qed.

Lemma rank_inj s t : keep s = true → keep t = true → rank s = rank t → s = t.
Proof.
  intros Hs Ht E. destruct (N.lt_trichotomy s t) as [Hlt|[?|Hlt]]; [|done|];
    pose proof (rank_lt _ _ Hlt) as Hr; [specialize (Hr Hs)|specialize (Hr Ht)]; lia.
Qed.

(** The states kept, in order; a kept state is at its rank. *)
Definition kept_ids (n : nat) : list N := filter (λ t, keep t = true) (N.of_nat <$> seq 0 n).

Lemma kept_at_rank n s : N.to_nat s < n → keep s = true → kept_ids n !! N.to_nat (rank s) = Some s.
Proof.
  intros Hs Hk. unfold kept_ids, rank. rewrite Nat2N.id, (ids_split (N.to_nat s) n) by lia.
  rewrite filter_app, lookup_app_r, Nat.sub_diag, filter_cons, N2Nat.id, decide_True by done. done.
Qed.

Lemma rank_of_kept n i s : kept_ids n !! i = Some s → keep s = true ∧ N.to_nat s < n ∧ N.to_nat (rank s) = i.
Proof.
  intros Hi. assert (s ∈ kept_ids n) as Hin by (apply list_elem_of_lookup; eauto).
  apply list_elem_of_filter in Hin as [Hk (j & -> & Hj%elem_of_seq)%list_elem_of_fmap].
  split_and!; [done|lia|]. assert (NoDup (kept_ids n)) as Hnd.
  { apply NoDup_filter, NoDup_fmap_2; [apply _|apply NoDup_seq]. }
  pose proof (kept_at_rank n (N.of_nat j) ltac:(lia) Hk) as Hr. by eapply NoDup_lookup.
Qed.

Lemma length_kept_ids n : length (kept_ids n) ≤ n.
Proof. unfold kept_ids. pose proof (length_filter (λ t, keep t = true) (N.of_nat <$> seq 0 n)). rewrite length_fmap, length_seq in *. lia. Qed.

Lemma rank_lt_length n s : N.to_nat s < n → keep s = true → N.to_nat (rank s) < length (kept_ids n).
Proof. intros Hs Hk. apply lookup_lt_is_Some_1. rewrite kept_at_rank; eauto. Qed.

Lemma build_mapping_lookup l : ∀ k i s,
  l !! i = Some s →
  build_mapping keep l k !! i =
  Some (if keep s then N.of_nat (k + length (filter (λ t, keep t = true) (take i l))) else FSM_STATE_REMAP_NO_STATE).
Proof.
  induction l as [|x l IH]; intros k i s Hi; [done|]. cbn [build_mapping]. destruct i as [|i].
  - injection Hi as ->. destruct (keep s); cbn; by rewrite ?Nat.add_0_r.
  - cbn [take]. simpl in Hi. rewrite filter_cons. destruct (keep x) eqn:E.
    + rewrite decide_True by done. transitivity (build_mapping keep l (k + 1) !! i); [done|].
      rewrite (IH (k + 1) i s Hi). simpl. by rewrite <-Nat.add_assoc.
    + rewrite decide_False by done. transitivity (build_mapping keep l k !! i); [done|]. by apply IH.
Qed.

Lemma length_build_mapping l : ∀ k, length (build_mapping keep l k) = length l.
Proof. induction l as [|x l IH]; intros k; [done|]. cbn [build_mapping]. destruct (keep x); simpl; by rewrite IH. Qed.

Definition id_mapping (n : nat) : list N := build_mapping keep (N.of_nat <$> seq 0 n) 0.

Lemma id_mapping_lookup n s :
  N.to_nat s < n →
  id_mapping n !! N.to_nat s = Some (if keep s then rank s else FSM_STATE_REMAP_NO_STATE).
Proof.
  intros Hs. unfold id_mapping. rewrite (build_mapping_lookup _ 0 (N.to_nat s) s).
  - rewrite <-fmap_take, take_seq, Nat.min_l by lia. done.
  - rewrite list_lookup_fmap, lookup_seq_lt by done. simpl. by rewrite N2Nat.id.
Qed.

Lemma mapping_cb_spec n s :
  mapping_cb (id_mapping n) s = if decide (N.to_nat s < n) then (if keep s then rank s else FSM_STATE_REMAP_NO_STATE)
    else FSM_STATE_REMAP_NO_STATE.
Proof.
  unfold mapping_cb. case_decide as Hs; [by rewrite id_mapping_lookup|].
  rewrite lookup_ge_None_2; [done|]. unfold id_mapping. rewrite length_build_mapping, length_fmap, length_seq. lia.
Qed.

Lemma rank_no_state n s : (N.of_nat n < 4294967296)%N → N.to_nat s < n → rank s ≠ FSM_STATE_REMAP_NO_STATE.
Proof. intros Hn Hs. pose proof (rank_le s). unfold FSM_STATE_REMAP_NO_STATE. lia. Qed.

Lemma mapping_order n : (N.of_nat n < 4294967296)%N → order_preserving (mapping_cb (id_mapping n)).
Proof.
  intros Hn. split.
  - intros s. rewrite mapping_cb_spec. repeat case_match; [right; apply rank_le|by left..].
  - intros s t Hst. rewrite !mapping_cb_spec. repeat case_match; try done. intros _ _. by apply rank_lt.
Qed.

Lemma mapping_is_state n s :
  (N.of_nat n < 4294967296)%N →
  mapping_cb (id_mapping n) s ≠ FSM_STATE_REMAP_NO_STATE ↔ N.to_nat s < n ∧ keep s = true.
Proof.
  intros Hn. rewrite mapping_cb_spec. destruct (decide _) as [Hs|]; [|naive_solver].
  destruct (keep s); [|naive_solver]. pose proof (rank_no_state n s Hn Hs). naive_solver.
Qed.

Lemma keep_key_mapping n s r :
  (N.of_nat n < 4294967296)%N →
  keep_key (id_mapping n) s = Some r ↔ N.to_nat s < n ∧ keep s = true ∧ r = rank s.
Proof.
  intros Hn. unfold keep_key. destruct (decide (N.to_nat s < n)) as [Hs|Hs].
  - rewrite id_mapping_lookup by done. destruct (keep s).
    + rewrite (proj2 (N.eqb_neq _ _) (rank_no_state n s Hn Hs)). naive_solver.
    + rewrite N.eqb_refl. naive_solver.
  - rewrite lookup_ge_None_2; [naive_solver|]. unfold id_mapping. rewrite length_build_mapping, length_fmap, length_seq. lia.
Qed.
End Mapping.

(** ** The states *)

(** What dropping and renumbering edges leaves alone. *)
Definition same_frame (f f' : fsm) : Prop :=
  f' = with_endcount (with_states f (f_states f')) (f_endcount f') ∧ length (f_states f') = length (f_states f).

Lemma same_frame_refl f : same_frame f f.
Proof. by destruct f. Qed.

Lemma same_frame_trans f g h : same_frame f g → same_frame g h → same_frame f h.
Proof. intros [H1 H2] [H3 H4]. split; [|congruence]. rewrite H3 at 1. by rewrite H1. Qed.

Lemma same_frame_upd f s g : same_frame f (upd_state f s g).
Proof. split; [by destruct f|]. cbn. apply length_alter. Qed.

Lemma same_frame_count f f' : same_frame f f' → f_statecount f' = f_statecount f.
Proof. intros [-> _]. done. Qed.

Lemma get_state_setend f s b t :
  N.to_nat s < length (f_states f) →
  get_state (fsm_setend f s b) t = if decide (t = s) then set_end b (get_state f s) else get_state f t.
Proof.
  intros Hs. unfold fsm_setend. destruct (eqb _ _) eqn:E.
  - apply eqb_prop in E. case_decide; [|done]. subst. destruct (get_state f s). cbn in *. by subst.
  - by rewrite get_upd.
Qed.

Lemma same_frame_setend f s b : same_frame f (fsm_setend f s b).
Proof.
  unfold fsm_setend. destruct (eqb _ _); [apply same_frame_refl|]. split; [by destruct f|]. cbn. apply length_alter.
Qed.

Section States.
Context (keep : N → bool).

Definition drop_end (f : fsm) (i : N) : fsm := if keep i then f else fsm_setend f i false.

Lemma drop_ends_spec l : ∀ f,
  fsm_wf f → (∀ i, i ∈ l → live f i) →
  fsm_wf (foldl drop_end f l) ∧ same_frame f (foldl drop_end f l) ∧
  ∀ t, get_state (foldl drop_end f l) t =
    if decide (t ∈ l ∧ keep t = false) then set_end false (get_state f t) else get_state f t.
Proof.
  induction l as [|i l IH]; intros f Hwf Hl; cbn [foldl].
  { split; [done|]. split; [apply same_frame_refl|]. intros t. rewrite decide_False; [done|]. by intros [?%not_elem_of_nil _]. }
  assert (live f i) as Hi by (apply Hl; left).
  assert (N.to_nat i < length (f_states f)) as Hlen by (pose proof (wf_alloc _ Hwf); unfold live in Hi; lia).
  assert (fsm_wf (drop_end f i) ∧ same_frame f (drop_end f i) ∧ ∀ t, get_state (drop_end f i) t =
    if decide (t = i ∧ keep i = false) then set_end false (get_state f t) else get_state f t) as (H1 & H2 & H3).
  { unfold drop_end. destruct (keep i).
    - split; [done|]. split; [apply same_frame_refl|]. intros t. rewrite decide_False; [done|]. by intros [_ ?].
    - split; [by apply fsm_setend_spec|]. split; [apply same_frame_setend|]. intros t.
      rewrite get_state_setend by done. repeat case_decide; naive_solver. }
  destruct (IH (drop_end f i)) as (K1 & K2 & K3); [done| |].
  { intros j Hj. unfold live. rewrite (same_frame_count _ _ H2). apply Hl. by right. }
  split; [done|]. split; [by eapply same_frame_trans|]. intros t. rewrite K3, H3.
  pose proof (elem_of_cons l t i) as He.
  repeat case_decide; try done; exfalso; naive_solver.
Qed.

(** One state after its edges are renumbered. *)
Definition compacted `{allocator} (al : fsm_alloc) (mapping : list N) (st : fsm_state) : fsm_state :=
  set_edges (match st_edges st with
    | None => None
    | Some _ => (edge_set_compact (st_edges st) al (mapping_cb mapping)).2
    end) (set_epsilons (default SSNull (state_set_compact (st_epsilons st) (mapping_cb mapping))) st).

Lemma compacted_spec `{alloc_total} al n st :
  (N.of_nat n < 4294967296)%N → state_ok n st → blank_zero (st_edges st) → 0 < length (kept_ids keep n) →
  let st' := compacted al (id_mapping keep n) st in
  state_ok (length (kept_ids keep n)) st' ∧ blank_zero (st_edges st') ∧
  (∀ c t, has_edge (st_edges st') c t ↔ ∃ t', has_edge (st_edges st) c t' ∧ keep t' = true ∧ t = rank keep t') ∧
  (∀ t, ss_has (st_epsilons st') t ↔ ∃ t', ss_has (st_epsilons st) t' ∧ keep t' = true ∧ t = rank keep t').
Proof.
  intros Hn (H1 & H2 & H3 & H4) Hb Hk st'. pose proof (mapping_is_state keep n) as Hms.
  pose proof (mapping_cb_spec keep n) as Hcb.
  assert (∀ t, mapping_cb (id_mapping keep n) t < 4294967296)%N as Hr.
  { intros t. rewrite Hcb. repeat case_match; unfold FSM_STATE_REMAP_NO_STATE; try lia.
    pose proof (rank_le keep t). lia. }
  assert (mapping_cb (id_mapping keep n) 0 = 0%N ∨ mapping_cb (id_mapping keep n) 0 = FSM_STATE_REMAP_NO_STATE) as Hz.
  { rewrite Hcb. repeat case_match; auto. }
  destruct (state_set_compact_spec (st_epsilons st) (mapping_cb (id_mapping keep n)) H2 (mapping_order keep n Hn))
    as (eps & Heps & He1 & He2).
  assert (edge_set_wf (st_edges st') ∧ blank_zero (st_edges st') ∧ ∀ c t, has_edge (st_edges st') c t ↔
    ∃ t', has_edge (st_edges st) c t' ∧ keep t' = true ∧ t = rank keep t') as (K1 & K2 & K3).
  { destruct (st_edges st) as [s|] eqn:Es.
    2: { unfold st', compacted. rewrite Es. cbn. split; [done|]. split; [done|]. unfold has_edge. cbn.
         intros c t. split; [intros ?%groups_edge_nil; done|]. by intros (t' & ?%groups_edge_nil & _). }
    assert (st_edges st' = (edge_set_compact (Some s) al (mapping_cb (id_mapping keep n))).2) as ->.
    { unfold st', compacted. by rewrite Es. }
    pose proof (edge_set_compact_total (Some s) al (mapping_cb (id_mapping keep n))) as Ht.
    destruct (edge_set_compact _ _ _) as [b p'] eqn:E. cbn in Ht. subst b.
    apply edge_set_compact_spec in E as (L1 & L2 & L3); [|done|auto]. cbn [snd]. split; [done|]. split; [auto|].
    intros c t. rewrite L2. split.
    - intros [Hno (t' & He & <-)]. apply Hms in Hno as [Hlt Hkt]; [|done]. exists t'. split; [done|]. split; [done|].
      by rewrite Hcb, decide_True, Hkt by done.
    - intros (t' & He & Hkt & ->). assert (N.to_nat t' < n) as Hlt by (by eapply H3, has_edge_key).
      split; [by eapply rank_no_state|]. exists t'. split; [done|]. by rewrite Hcb, decide_True, Hkt by done. }
  assert (∀ t, ss_has (st_epsilons st') t ↔ ∃ t', ss_has (st_epsilons st) t' ∧ keep t' = true ∧ t = rank keep t') as K4.
  { intros t. unfold st', compacted. cbn [set_edges set_epsilons st_epsilons]. rewrite Heps. cbn [default from_option id]. rewrite He2. split.
    - intros (x & Hx & <- & Hno). apply Hms in Hno as [Hlt Hkt]; [|done]. exists x. split; [done|]. split; [done|].
      by rewrite Hcb, decide_True, Hkt by done.
    - intros (t' & Hx & Hkt & ->). specialize (H4 t' Hx). exists t'. split; [done|].
      rewrite Hcb, decide_True, Hkt by done. split; [done|]. by eapply rank_no_state. }
  split; [|done]. split; [done|]. split.
  { unfold st', compacted. cbn [set_edges set_epsilons st_epsilons]. by rewrite Heps. }
  split.
  - intros t [->|[sym Hs]]%K2; [lia|]. apply K3 in Hs as (t' & He & Hkt & ->).
    apply rank_lt_length; [by eapply H3, has_edge_key|done].
  - intros t (t' & He & Hkt & ->)%K4. apply rank_lt_length; [by apply H4|done].
Qed.

Lemma mapped_ids_lt n st : state_ok n st → forallb (λ t, (t <? N.of_nat n)%N) (mapped_ids st) = true.
Proof.
  intros (_ & _ & H3 & H4). apply forallb_forall. intros t Ht%list_elem_of_In. apply N.ltb_lt.
  unfold mapped_ids in Ht. apply elem_of_app in Ht as [Ht|Ht]; [specialize (H4 t Ht); lia|].
  destruct (edge_set_empty _); [by apply not_elem_of_nil in Ht|]. specialize (H3 t Ht). lia.
Qed.

Lemma compact_state_spec `{alloc_total} n f i :
  (N.of_nat n < 4294967296)%N → N.to_nat i < n → n ≤ length (f_states f) → state_ok n (get_state f i) →
  ∃ f', compact_state (id_mapping keep n) f i = Some f' ∧ same_frame f f' ∧ f_endcount f' = f_endcount f ∧
    ∀ t, get_state f' t = if decide (t = i ∧ keep i = true) then compacted (f_alloc f) (id_mapping keep n) (get_state f t)
      else get_state f t.
Proof.
  intros Hn Hi Hlen Hok. unfold compact_state. rewrite mapping_cb_spec, decide_True by done. destruct (keep i) eqn:Hk.
  - rewrite (proj2 (N.eqb_neq _ _) (rank_no_state keep n i Hn Hi)).
    replace (length (id_mapping keep n)) with n by (unfold id_mapping; by rewrite length_build_mapping, length_fmap, length_seq).
    rewrite mapped_ids_lt by done. cbn [negb].
    destruct (state_set_compact_spec (st_epsilons (get_state f i)) (mapping_cb (id_mapping keep n)))
      as (eps & Heps & _); [apply Hok|by apply mapping_order|].
    rewrite Heps. cbn [mbind option_bind]. eexists; split; [done|]. split; [apply same_frame_upd|]. split; [done|].
    intros t. rewrite get_upd by lia. destruct (decide (t = i)) as [->|Ht].
    + rewrite decide_True by done. unfold compacted. by rewrite Heps.
    + rewrite decide_False; [done|]. by intros [? _].
  - rewrite N.eqb_refl. exists f. split; [done|]. split; [apply same_frame_refl|]. split; [done|].
    intros t. rewrite decide_False; [done|]. by intros [_ ?].
Qed.

Lemma compact_fold_spec `{alloc_total} n l : ∀ f,
  (N.of_nat n < 4294967296)%N → NoDup l → n ≤ length (f_states f) →
  (∀ i, i ∈ l → N.to_nat i < n ∧ state_ok n (get_state f i)) →
  ∃ f', foldl (λ acc i, f ← acc; compact_state (id_mapping keep n) f i) (Some f) l = Some f' ∧
    same_frame f f' ∧ f_endcount f' = f_endcount f ∧
    ∀ t, get_state f' t = if decide (t ∈ l ∧ keep t = true) then compacted (f_alloc f) (id_mapping keep n) (get_state f t)
      else get_state f t.
Proof.
  induction l as [|i l IH]; intros f Hn Hnd Hlen Hl; cbn [foldl].
  { exists f. split; [done|]. split; [apply same_frame_refl|]. split; [done|]. intros t.
    rewrite decide_False; [done|]. by intros [?%not_elem_of_nil _]. }
  apply NoDup_cons in Hnd as [Hni Hnd]. destruct (Hl i ltac:(left)) as [Hi Hok].
  destruct (compact_state_spec n f i Hn Hi Hlen Hok) as (f1 & E & Hf & Hec & Hg).
  cbn [mbind option_bind]. rewrite E.
  destruct (IH f1 Hn Hnd) as (f' & E' & Hf' & Hec' & Hg').
  { destruct Hf as [_ ->]. done. }
  { intros j Hj. destruct (Hl j ltac:(by right)) as [? ?]. split; [done|]. rewrite Hg, decide_False; [done|].
    intros [-> _]. done. }
  exists f'. split; [done|]. split; [by eapply same_frame_trans|]. split; [congruence|]. intros t. rewrite Hg', Hg.
  replace (f_alloc f1) with (f_alloc f) by (by destruct Hf as [-> _]).
  pose proof (elem_of_cons l t i) as He.
  repeat case_decide; try done; exfalso; naive_solver.
Qed.

(** Moving the kept states down: reads are ahead of writes. *)
Lemma move_states_spec n m : ∀ i dst f,
  (N.of_nat n < 4294967296)%N → i + m = n → dst ≤ i → n ≤ length (f_states f) →
  let ids := filter (λ t, keep t = true) (N.of_nat <$> seq i m) in
  let r := move_states (id_mapping keep n) (N.of_nat <$> seq i m) dst f in
  r.2 = dst + length ids ∧
  r.1 = with_statecount (with_states f (f_states r.1)) (f_statecount f - (m - length ids)) ∧
  length (f_states r.1) = length (f_states f) ∧
  take r.2 (f_states r.1) = take dst (f_states f) ++ (get_state f <$> ids).
Proof.
  induction m as [|m IH]; intros i dst f Hn Him Hd Hlen; cbn [seq fmap list_fmap move_states].
  { cbn. rewrite Nat.add_0_r, app_nil_r. split; [done|]. split; [|done]. destruct f; cbn. by rewrite Nat.sub_0_r. }
  rewrite mapping_cb_spec, decide_True by lia. rewrite filter_cons. destruct (keep (N.of_nat i)) eqn:Hk.
  - rewrite (proj2 (N.eqb_neq _ _) (rank_no_state keep n (N.of_nat i) Hn ltac:(lia))), decide_True by done.
    set (f1 := if dst =? N.to_nat (N.of_nat i) then f else with_states f (<[dst:=get_state f (N.of_nat i)]> (f_states f))).
    assert (f1 = with_states f (f_states f1) ∧ length (f_states f1) = length (f_states f) ∧
      take (dst + 1) (f_states f1) = take dst (f_states f) ++ [get_state f (N.of_nat i)] ∧
      (∀ t, i < N.to_nat t → get_state f1 t = get_state f t)) as (E1 & E2 & E3 & E4).
    { unfold f1. rewrite Nat2N.id. destruct (dst =? i) eqn:Ed.
      - apply Nat.eqb_eq in Ed. subst dst. split; [by destruct f|]. split; [done|]. split; [|done].
        rewrite Nat.add_1_r. apply take_S_r. unfold get_state. rewrite Nat2N.id.
        apply list_lookup_lookup_total_lt. lia.
      - apply Nat.eqb_neq in Ed. split; [done|]. cbn [with_states f_states]. split; [apply length_insert|]. split.
        + rewrite Nat.add_1_r. rewrite (take_S_r _ _ (get_state f (N.of_nat i))) by (apply list_lookup_insert_eq; lia).
          by rewrite take_insert_ge.
        + intros t Ht. unfold get_state. cbn. rewrite !list_lookup_total_alt, list_lookup_insert_ne by lia. done. }
    clearbody f1. specialize (IH (S i) (dst + 1) f1 Hn ltac:(lia) ltac:(lia) ltac:(lia)).
    set (ids := filter _ (N.of_nat <$> seq (S i) m)) in *.
    change (match seq (S i) m with [] => [] | x :: l => N.of_nat x :: list_fmap nat N N.of_nat l end)
      with (N.of_nat <$> seq (S i) m).
    destruct IH as (H1 & H2 & H3 & H4). rewrite H1 in H4. split; [|split; [|split]].
    + rewrite H1. simpl. lia.
    + rewrite H2 at 1. rewrite E1. cbn. f_equal.
    + congruence.
    + rewrite H1. cbn [fmap list_fmap]. rewrite H4, E3, <-app_assoc. f_equal. cbn [app]. f_equal.
      apply list_fmap_ext. intros k t Ht. apply E4.
      assert (t ∈ ids) as (_ & (j & -> & Hj%elem_of_seq)%list_elem_of_fmap)%list_elem_of_filter by (apply list_elem_of_lookup; eauto).
      lia.
  - rewrite N.eqb_refl, decide_False by done.
    specialize (IH (S i) dst (with_statecount f (f_statecount f - 1)) Hn ltac:(lia) ltac:(lia) Hlen).
    destruct IH as (H1 & H2 & H3 & H4). split; [done|]. split; [|done].
    assert (length (filter (λ t, keep t = true) (N.of_nat <$> seq (S i) m)) ≤ m) as Hm.
    { etrans; [apply length_filter|]. by rewrite length_fmap, length_seq. }
    rewrite H2 at 1. cbn. f_equal. lia.
Qed.
End States.

(** ** The automaton *)

(** The metadata tables hold entries for states in use only. *)
Definition fsm_meta (f : fsm) : Prop :=
  endid_weak (f_endid_info f) ∧ eager_wf (f_eager_output_info f) ∧
  (∀ k e, Some (k, e) ∈ ei_buckets (f_endid_info f) → live f k) ∧
  (∀ k e, Some (k, e) ∈ eo_buckets (f_eager_output_info f) → live f k).

Definition blanks_ok (f : fsm) : Prop := ∀ s, live f s → blank_zero (st_edges (get_state f s)).

Lemma take_states f : f_statecount f ≤ length (f_states f) → take (f_statecount f) (f_states f) = get_state f <$> live_ids f.
Proof.
  intros Hl. apply list_eq. intros i. unfold live_ids. rewrite !list_lookup_fmap.
  destruct (decide (i < f_statecount f)) as [Hi|Hi].
  - rewrite lookup_take_lt, lookup_seq_lt by done. cbn. unfold get_state. rewrite Nat2N.id.
    apply list_lookup_lookup_total_lt. lia.
  - rewrite lookup_ge_None_2 by (rewrite length_take; lia). rewrite lookup_seq_ge by lia. done.
Qed.

Lemma length_filter_fmap {A B} (g : A → B) (P : B → Prop) `{∀ x, Decision (P x)} (l : list A) :
  length (filter P (g <$> l)) = length (filter (λ x, P (g x)) l).
Proof. induction l as [|x l IH]; [done|]. rewrite fmap_cons, !filter_cons. case_decide; simpl; congruence. Qed.

Lemma length_filter_ext {A} (P Q : A → Prop) `{∀ x, Decision (P x), ∀ x, Decision (Q x)} (l : list A) :
  (∀ x, x ∈ l → P x ↔ Q x) → length (filter P l) = length (filter Q l).
Proof.
  induction l as [|x l IH]; intros He; [done|]. rewrite !filter_cons.
  assert (∀ y, y ∈ l → P y ↔ Q y) as He' by (intros y Hy; apply He; by right).
  specialize (He x ltac:(left)). repeat case_decide; simpl; rewrite IH by done; tauto || done.
Qed.

Section Compact.
Context `{allocator, !alloc_total} (keep : N → bool).

(** What is left of an automaton when the states [keep] rejects are gone. *)
Record compacts (f f' : fsm) : Prop := {
  cp_wf : fsm_wf f';
  cp_meta : fsm_meta f';
  cp_blanks : blanks_ok f';
  cp_count : f_statecount f' = length (kept_ids keep (f_statecount f));
  cp_alloc : f_alloc f' = f_alloc f;
  cp_state s : live f s → keep s = true →
    get_state f' (rank keep s) = compacted (f_alloc f) (id_mapping keep (f_statecount f)) (get_state f s);
  cp_start s : fsm_getstart f' = Some s ↔ ∃ s', fsm_getstart f = Some s' ∧ keep s' = true ∧ s = rank keep s';
  cp_captures : f_capture_info f' = f_capture_info f;
  cp_endids s : live f s → keep s = true → endids (f_endid_info f') (rank keep s) = endids (f_endid_info f) s;
  cp_eager s : live f s → keep s = true →
    eager_outputs (f_eager_output_info f') (rank keep s) = eager_outputs (f_eager_output_info f) s;
}.

(** The states of the result are the kept ones. *)
Lemma live_kept f f' s' :
  f_statecount f' = length (kept_ids keep (f_statecount f)) →
  live f' s' ↔ ∃ s, live f s ∧ keep s = true ∧ s' = rank keep s.
Proof.
  intros Hc. unfold live. rewrite Hc. split.
  - intros Hs. destruct (lookup_lt_is_Some_2 _ _ Hs) as [s Hi]. apply rank_of_kept in Hi as (Hk & Hl & Hr).
    exists s. split; [done|]. split; [done|]. lia.
  - intros (s & Hs & Hk & ->). by apply rank_lt_length.
Qed.

Lemma keep_key_inj n k1 k2 r :
  (N.of_nat n < 4294967296)%N → keep_key (id_mapping keep n) k1 = Some r → keep_key (id_mapping keep n) k2 = Some r → k1 = k2.
Proof.
  intros Hn (_ & H1 & ->)%keep_key_mapping (_ & H2 & E)%keep_key_mapping; try done. by eapply rank_inj.
Qed.

(** The count of end states after the move. *)
Lemma end_states_kept (f1 f3 f4 : fsm) al :
  let n := f_statecount f1 in
  fsm_wf f1 → (∀ t, live f1 t → keep t = false → st_end (get_state f1 t) = false) →
  (∀ t, live f1 t → keep t = true → get_state f3 t = compacted al (id_mapping keep n) (get_state f1 t)) →
  f_statecount f4 = length (kept_ids keep n) →
  take (length (kept_ids keep n)) (f_states f4) = get_state f3 <$> kept_ids keep n →
  length (end_states f4) = f_endcount f1.
Proof.
  intros n Hwf Hend H3 Hc Htk. rewrite (wf_endcount _ Hwf). unfold end_states. rewrite Hc, Htk, take_states by apply Hwf.
  rewrite !length_filter_fmap. unfold kept_ids. rewrite list_filter_filter.
  apply length_filter_ext. intros t Ht%elem_of_live_ids. destruct (keep t) eqn:Hk.
  - rewrite H3 by done. cbn. naive_solver.
  - rewrite (Hend t Ht Hk). naive_solver.
Qed.

(** Everything up to the metadata. *)
Lemma compact_core f :
  fsm_wf f →
  let n := f_statecount f in
  let f1 := foldl (drop_end keep) f (live_ids f) in
  ∀ f2, f2 = with_start f1 (f_hasstart f2) (f_start f2) →
  ∃ f3 f4, foldl (λ acc i, f ← acc; compact_state (id_mapping keep n) f i) (Some f2) (live_ids f) = Some f3 ∧
    move_states (id_mapping keep n) (live_ids f) 0 f3 = (f4, length (kept_ids keep n)) ∧
    f4 = with_endcount (with_statecount (with_states f2 (f_states f4)) (length (kept_ids keep n))) (length (end_states f4)) ∧
    length (f_states f4) = length (f_states f) ∧
    (∀ s, live f s → keep s = true → get_state f4 (rank keep s) = compacted (f_alloc f) (id_mapping keep n) (get_state f s)).
Proof.
  intros Hwf n f1 f2 Hf2. pose proof (wf_count32 _ Hwf) as Hn. fold n in Hn.
  destruct (drop_ends_spec keep (live_ids f) f Hwf) as (D1 & D2 & D3); [intros i; apply elem_of_live_ids|].
  fold f1 in D1, D2, D3. assert (f_statecount f1 = n) as Hn1 by apply (same_frame_count _ _ D2).
  assert (f_states f2 = f_states f1) as S2 by (by rewrite Hf2).
  assert (f_statecount f2 = n) as N2 by (rewrite Hf2; exact Hn1).
  assert (f_endcount f2 = f_endcount f1) as C2 by (by rewrite Hf2).
  assert (∀ t, get_state f2 t = get_state f1 t) as G2 by (intros t; unfold get_state; by rewrite S2).
  destruct (compact_fold_spec keep n (live_ids f) f2) as (f3 & E3 & F3 & C3 & G3).
  { done. }
  { apply NoDup_fmap_2; [apply _|apply NoDup_seq]. }
  { rewrite S2. destruct D2 as [_ ->]. apply Hwf. }
  { intros i Hi%elem_of_live_ids. split; [done|]. rewrite G2. replace n with (f_statecount f1).
    apply D1. unfold live. by rewrite Hn1. }
  assert (length (f_states f3) = length (f_states f)) as L3.
  { destruct F3 as [_ ->]. rewrite S2. by destruct D2 as [_ ->]. }
  assert (f_alloc f2 = f_alloc f) as A2 by (rewrite Hf2; cbn; by destruct D2 as [-> _]).
  destruct (move_states_spec keep n n 0 0 f3 Hn eq_refl (le_n 0)) as (M1 & M2 & M3 & M4).
  { rewrite L3. apply Hwf. }
  fold (kept_ids keep n) in M1, M2, M4. change (N.of_nat <$> seq 0 n) with (live_ids f) in M1, M2, M3, M4.
  destruct (move_states (id_mapping keep n) (live_ids f) 0 f3) as [f4 dst] eqn:E4. cbn [fst snd] in *.
  rewrite Nat.add_0_l in M1. subst dst. exists f3, f4. split; [done|]. split; [done|].
  assert (∀ t, live f1 t → keep t = true → get_state f3 t = compacted (f_alloc f) (id_mapping keep n) (get_state f1 t)) as G31.
  { intros t Ht Hk. rewrite G3, A2, G2, decide_True; [done|]. split; [|done]. apply elem_of_live_ids.
    unfold live in *. by rewrite Hn1 in Ht. }
  pose proof (length_kept_ids keep n) as Hlk.
  assert (f_statecount f4 = length (kept_ids keep n)) as Hc4.
  { rewrite M2. cbn. rewrite (same_frame_count _ _ F3), N2. lia. }
  split; [|split; [congruence|]].
  - erewrite (end_states_kept f1 f3 f4 (f_alloc f)); [|done| |by rewrite Hn1|by rewrite Hn1|by rewrite Hn1].
    + pose proof (same_frame_count _ _ F3) as N3. destruct F3 as [F3 _]. rewrite N3, N2 in M2.
      replace (n - (n - length (kept_ids keep n))) with (length (kept_ids keep n)) in M2 by lia.
      rewrite M2 at 1. rewrite F3, C3, C2. done.
    + intros t Ht Hk. rewrite D3, decide_True; [done|]. split; [|done]. apply elem_of_live_ids. unfold live in *. by rewrite Hn1 in Ht.
  - intros s Hs Hk. assert (f_states f4 !! N.to_nat (rank keep s) = Some (get_state f3 s)) as Hl4.
    { rewrite <-(lookup_take_lt _ (length (kept_ids keep n))) by (by apply rank_lt_length).
      rewrite M4, take_0, app_nil_l, list_lookup_fmap, kept_at_rank by done. done. }
    unfold get_state at 1. rewrite (list_lookup_total_correct _ _ _ Hl4).
    rewrite G31; [|unfold live; by rewrite Hn1|done]. f_equal. rewrite D3, decide_False; [done|]. naive_solver congruence.
Qed.

Lemma kept_states_ok f f' :
  fsm_wf f → blanks_ok f → f_statecount f' = length (kept_ids keep (f_statecount f)) →
  (∀ s, live f s → keep s = true →
    get_state f' (rank keep s) = compacted (f_alloc f) (id_mapping keep (f_statecount f)) (get_state f s)) →
  ∀ s, live f' s → state_ok (f_statecount f') (get_state f' s) ∧ blank_zero (st_edges (get_state f' s)).
Proof.
  intros Hwf Hb Hc Hg s' Hs'. pose proof Hs' as (s & Hs & Hk & ->)%(live_kept f f'); [|done].
  rewrite Hg by done. rewrite Hc. unfold live in Hs'. rewrite Hc in Hs'.
  destruct (compacted_spec keep (f_alloc f) (f_statecount f) (get_state f s)) as (H1 & H2 & _); auto.
  - apply (wf_count32 _ Hwf).
  - by apply (wf_states _ Hwf).
  - lia.
Qed.

Lemma fsm_compact_states_spec f :
  fsm_wf f → fsm_meta f → blanks_ok f →
  ∃ f', fsm_compact_states f keep = Some (true, f', f_statecount f - f_statecount f') ∧ compacts f f'.
Proof.
  intros Hwf (M1 & M2 & M3 & M4) Hb. set (n := f_statecount f). pose proof (wf_count32 _ Hwf) as Hn. fold n in Hn.
  unfold fsm_compact_states. rewrite f_malloc_total. change (build_mapping keep (live_ids f) 0) with (id_mapping keep n).
  change (foldl (λ f i, if keep i then f else fsm_setend f i false) f (live_ids f)) with (foldl (drop_end keep) f (live_ids f)).
  set (f1 := foldl (drop_end keep) f (live_ids f)).
  assert (same_frame f f1) as Hfr by (apply drop_ends_spec; [done|]; intros i; apply elem_of_live_ids).
  assert (fsm_getstart f1 = fsm_getstart f) as -> by (by destruct Hfr as [-> _]).
  set (f2 := match fsm_getstart f with
    | Some s => if (mapping_cb (id_mapping keep n) s =? FSM_STATE_REMAP_NO_STATE)%N then fsm_clearstart f1 else f1
    | None => f1 end).
  set (old_start := match fsm_getstart f with Some s => mapping_cb (id_mapping keep n) s | None => FSM_STATE_REMAP_NO_STATE end).
  assert (f2 = with_start f1 (f_hasstart f2) (f_start f2)) as Hf2 by (unfold f2; repeat case_match; by destruct f1).
  destruct (compact_core f Hwf f2 Hf2) as (f3 & f4 & E3 & E4 & F4 & L4 & G4). fold n in E3, E4, F4, G4.
  rewrite E3. cbn [mbind option_bind]. rewrite E4. pose proof (length_kept_ids keep n) as Hlk.
  assert (length (id_mapping keep n) = n) as Hlm by (unfold id_mapping; by rewrite length_build_mapping, length_fmap, length_seq).
  assert (f_endid_info f4 = f_endid_info f) as -> by (rewrite F4, Hf2; cbn; by destruct Hfr as [-> _]).
  destruct (fsm_endid_compact_spec (f_alloc f4) (f_endid_info f) (id_mapping keep n)) as (ei & -> & W1 & _ & W2 & W3);
    [done|lia|intros k e Hk; rewrite Hlm; by eapply M3|intros; by eapply keep_key_inj|].
  cbn [mbind option_bind]. cbn [with_endid_info f_alloc f_eager_output_info].
  assert (f_eager_output_info f4 = f_eager_output_info f) as -> by (rewrite F4, Hf2; cbn; by destruct Hfr as [-> _]).
  destruct (fsm_eager_output_compact_spec (f_alloc f4) (f_eager_output_info f) (id_mapping keep n)) as (eo & -> & V1 & V2 & V3);
    [done|lia|intros k e Hk; rewrite Hlm; by eapply M4|intros; by eapply keep_key_inj|].
  cbn [mbind option_bind]. set (f6 := with_eager_output_info (with_endid_info f4 ei) eo).
  set (f7 := if f_statecount f6 =? 0 then fsm_clearstart f6
    else if (old_start =? FSM_STATE_REMAP_NO_STATE)%N then f6 else fsm_setstart f6 old_start).
  assert (f7 = with_start f6 (f_hasstart f7) (f_start f7)) as F7 by (unfold f7; repeat case_match; by destruct f6).
  assert (f_statecount f7 = length (kept_ids keep n)) as C7 by (rewrite F7; cbn; by rewrite F4).
  assert (∀ s, get_state f7 s = get_state f4 s) as G7 by (intros s; by rewrite F7).
  exists f7. rewrite C7. split; [done|].
  assert (∀ s, fsm_getstart f7 = Some s ↔ ∃ s', fsm_getstart f = Some s' ∧ keep s' = true ∧ s = rank keep s') as Hst.
  { assert (fsm_getstart f6 = fsm_getstart f2) as S6 by (unfold fsm_getstart; cbn; by rewrite F4).
    assert (fsm_getstart f1 = fsm_getstart f) as S1 by (by destruct Hfr as [-> _]).
    assert (f_statecount f6 = length (kept_ids keep n)) as C6 by (cbn; by rewrite F4).
    intros s. unfold f7, f2, old_start in *. destruct (fsm_getstart f) as [s0|] eqn:Es.
    - assert (live f s0) as Hs0 by (by apply (wf_start _ Hwf)).
      rewrite mapping_cb_spec, decide_True in S6 |- * by done. destruct (keep s0) eqn:Hk.
      + rewrite C6, (proj2 (N.eqb_neq _ _) (rank_no_state keep n s0 Hn Hs0)).
        pose proof (rank_lt_length keep n s0 Hs0 Hk). rewrite (proj2 (Nat.eqb_neq _ _)) by lia. cbn. naive_solver.
      + rewrite N.eqb_refl in S6 |- *. assert (fsm_getstart f6 = None) as S6' by done.
        destruct (f_statecount f6 =? 0); [|rewrite S6']; cbn; naive_solver congruence.
    - rewrite N.eqb_refl. rewrite S1 in S6. destruct (f_statecount f6 =? 0); [|rewrite S6]; cbn; naive_solver. }
  assert (∀ s, live f s → keep s = true →
    get_state f7 (rank keep s) = compacted (f_alloc f) (id_mapping keep n) (get_state f s)) as Hg.
  { intros s Hs Hk. rewrite G7. by apply G4. }
  pose proof (kept_states_ok f f7 Hwf Hb C7 Hg) as Hok.
  assert (∀ k, live f k → keep k = true → live f7 (rank keep k)) as Hlive.
  { intros k Hk Hkk. apply (live_kept f f7); [done|]. eauto. }
  split; try done.
  - split.
    + rewrite C7, F7. cbn. rewrite L4. pose proof (wf_alloc _ Hwf). lia.
    + rewrite F7. cbn. rewrite L4. apply Hwf.
    + rewrite C7. pose proof (wf_count _ Hwf) as Hc31. fold n in Hc31. lia.
    + intros s Hs. by apply Hok.
    + rewrite F7. cbn. by rewrite F4 at 1.
    + intros s Hs. apply Hst in Hs as (s' & Hs & Hk & ->). apply Hlive; [|done]. by apply (wf_start _ Hwf).
  - rewrite F7. unfold fsm_meta. cbn. split; [done|]. split; [done|]. rewrite <-F7. split.
    + intros k e Hk. destruct (W2 k e Hk) as (k' & Hk' & (_ & Hkk & ->)%keep_key_mapping); [|done]. apply Hlive; eauto.
    + intros k e Hk. destruct (V2 k e Hk) as (k' & Hk' & (_ & Hkk & ->)%keep_key_mapping); [|done]. apply Hlive; eauto.
  - intros s Hs. by apply Hok.
  - rewrite F7. cbn. rewrite F4, Hf2. cbn. by destruct Hfr as [-> _].
  - rewrite F7. cbn. rewrite F4, Hf2. cbn. by destruct Hfr as [-> _].
  - intros s Hs Hk. rewrite F7. cbn. apply W3; [by apply keep_key_mapping|by rewrite Hlm].
  - intros s Hs Hk. rewrite F7. cbn. apply V3; [by apply keep_key_mapping|by rewrite Hlm].
Qed.

(** The result is the automaton restricted to the kept states, renumbered. *)
Lemma compacts_renames f f' :
  fsm_wf f → blanks_ok f → compacts f f' →
  renames (restrict (nfa_of f) (λ s, keep s = true)) (nfa_of f') (λ s, live f s ∧ keep s = true) (rank keep).
Proof.
  intros Hwf Hb Hc. pose proof (live_kept f f') as Hl.
  assert (∀ s, live f s → keep s = true →
    (∀ c t, has_edge (st_edges (get_state f' (rank keep s))) c t ↔
       ∃ t', has_edge (st_edges (get_state f s)) c t' ∧ keep t' = true ∧ t = rank keep t') ∧
    (∀ t, ss_has (st_epsilons (get_state f' (rank keep s))) t ↔
       ∃ t', ss_has (st_epsilons (get_state f s)) t' ∧ keep t' = true ∧ t = rank keep t')) as Hst.
  { intros s Hs Hk. rewrite (cp_state _ _ Hc) by done.
    destruct (compacted_spec keep (f_alloc f) (f_statecount f) (get_state f s)) as (_ & _ & ? & ?); [| | | |done].
    - apply (wf_count32 _ Hwf).
    - by apply (wf_states _ Hwf).
    - auto.
    - pose proof (rank_lt_length keep _ s Hs Hk). lia. }
  assert (∀ s, live f s → keep s = true → live f' (rank keep s)) as Hlr.
  { intros s Hs Hk. apply Hl; [apply (cp_count _ _ Hc)|eauto]. }
  split.
  - intros s s' [_ H1] [_ H2]. by apply rank_inj.
  - intros s c t (He & _ & Hk) _. split; [exact (f_edge_live f s c t Hwf He)|done].
  - intros s t (He & _ & Hk) _. split; [exact (f_eps_live f s t Hwf He)|done].
  - intros s c t [Hs Hk]. cbn. unfold f_edge. destruct (Hst s Hs Hk) as [-> _]. pose proof (Hlr s Hs Hk). naive_solver.
  - intros s t [Hs Hk]. cbn. unfold f_eps. destruct (Hst s Hs Hk) as [_ ->]. pose proof (Hlr s Hs Hk). naive_solver.
  - intros s [Hs Hk]. cbn. unfold f_end, fsm_isend. rewrite (cp_state _ _ Hc) by done. cbn.
    pose proof (Hlr s Hs Hk). naive_solver.
Qed.

Lemma compacts_language f f' w :
  fsm_wf f → blanks_ok f → compacts f f' →
  (∀ s0 u s v t, fsm_getstart f = Some s0 → path (nfa_of f) s0 u s → path (nfa_of f) s v t → f_end f t → keep s = true) →
  language f' w ↔ language f w.
Proof.
  intros Hwf Hb Hc Hk. unfold language.
  rewrite <-(accepts_restrict (nfa_of f) (λ s, keep s = true) w) by (intros *; apply Hk).
  eapply accepts_renames; [by apply compacts_renames| |].
  - intros s [Hs Hks]. split; [by apply (wf_start _ Hwf)|done].
  - intros s. cbn. rewrite (cp_start _ _ Hc). naive_solver.
Qed.
End Compact.

(** ** Out of memory *)

(** Memory for everything but the groups of a renumbered edge set. *)
Definition no_groups : allocator := {|
  libc_malloc _ := true; libc_calloc _ sz := negb (sz =? 40)%N; libc_realloc _ := true;
  hook_malloc _ _ := true; hook_calloc _ _ _ := true; hook_realloc _ _ := true;
|}.

(** [fsm_compact_states] ignores that [edge_set_compact] failed: it reports
    success, but the edges keep the old numbers of their destinations, here
    state 2 in an automaton of two states. *)
Theorem fsm_compact_states_ignores_failure :
  let f := @build_from_new always [BAddState; BAddState; BAddState; BStart 0%N; BLiteral 0%N 2%N 97; BEnd 2%N true] in
  ∃ f', @fsm_compact_states no_groups f (λ s, negb (s =? 1)%N) = Some (true, f', 1) ∧
    f_statecount f' = 2 ∧ has_edge (st_edges (get_state f' 0)) 97 2 ∧ ¬ fsm_wf f'.
Proof.
  intros f. eexists. split; [vm_compute; reflexivity|]. split; [reflexivity|]. split.
  - eexists. split; [left|]. split; reflexivity.
  - refine (bool_decide_unpack _ _). vm_compute. exact I.
Qed.
