(* ===== verification/FsmInv.v ===== *)
(** * The invariant of an automaton between calls

    [fsm_inv] collects what every call that builds an automaton keeps, whether
    it succeeds or runs out of memory: the table of states is well formed, the
    metadata is keyed by states in use, groups without symbols lead to state 0,
    and no visited flag is left set. It is what trimming and renumbering rely
    on. *)

From S2P Require Import Prelude StateSet Bits EdgeSet EdgeIter EdgeCompact Probe Endids EagerOutput.
From S2P Require Import Lang Fsm FsmSpec Search FsmCompact.

Record fsm_inv (f : fsm) : Prop := {
  inv_wf : fsm_wf f;
  inv_meta : fsm_meta f;
  inv_blanks : blanks_ok f;
  inv_flags : flags f [];
}.

#[export] Hint Resolve inv_wf inv_meta inv_blanks inv_flags : fsm.

Lemma flags_nil f : flags f [] ↔ ∀ s, live f s → visited f s = false.
Proof.
  unfold flags. split.
  - intros Hf s Hs. specialize (Hf s Hs). destruct (visited f s); [|done].
    by destruct (not_elem_of_nil s (proj1 Hf eq_refl)).
  - intros Hf s Hs. rewrite (Hf s Hs). split; [done|by intros ?%not_elem_of_nil].
Qed.

(** What an update of a state's edges has to keep. *)
Lemma inv_upd f s g :
  fsm_inv f → live f s → fsm_wf (upd_state f s g) → blank_zero (st_edges (g (get_state f s))) →
  st_visited (g (get_state f s)) = st_visited (get_state f s) → fsm_inv (upd_state f s g).
Proof.
  intros [H1 H2 H3 H4] Hs Hwf Hb Hv.
  assert (N.to_nat s < length (f_states f)) as Hl by (pose proof (wf_alloc _ H1); unfold live in Hs; lia).
  split; [done|exact H2| |].
  - intros t Ht. rewrite get_upd by done. case_decide; [done|]. by apply H3.
  - rewrite flags_nil in H4 |- *. intros t Ht. unfold visited. rewrite get_upd by done.
    case_decide as Hd; [rewrite Hv; by apply H4|by apply H4].
Qed.

(** The tables of a new automaton. *)
Lemma not_elem_of_empty_table {A} n k (e : A) : Some (k, e) ∉ replicate n (@None (N * A)).
Proof. by intros [[=] _]%elem_of_replicate. Qed.

Lemma fresh_endid_wf : endid_wf (mk_endid_info (replicate DEF_BUCKET_COUNT None) 0).
Proof.
  split; [apply (table_ok_empty 2 ltac:(lia))|]. split; [cbn; lia|]. split; [done|].
  split; [cbn; lia|]. intros k e Hk. by destruct (not_elem_of_empty_table DEF_BUCKET_COUNT k e).
Qed.

Lemma fresh_eager_wf : eager_wf (mk_eager 0 0 (replicate DEF_BUCKET_COUNT None) 0).
Proof.
  split; [apply (table_ok_empty 2 ltac:(lia))|]. split; [cbn; lia|]. split; [cbn; lia|].
  intros k e Hk. by destruct (not_elem_of_empty_table DEF_BUCKET_COUNT k e).
Qed.

Section Inv.
Context `{allocator}.

Lemma inv_new_statealloc al n f :
  fsm_new_statealloc al n = Some f →
    fsm_inv f ∧ f_statecount f = 0 ∧ f_alloc f = al ∧ fsm_getstart f = None ∧
    f_endid_info f = mk_endid_info (replicate DEF_BUCKET_COUNT None) 0.
Proof.
  unfold fsm_new_statealloc. set (m := if n =? 0 then _ else _).
  assert (0 < m) as Hm by (unfold m; destruct (n =? 0) eqn:E; split_bool; unfold FSM_DEFAULT_STATEALLOC; lia).
  destruct (f_malloc _ sizeof_fsm); [|done]. destruct (f_malloc _ _); [|done].
  destruct (f_malloc _ 24); [|done]. unfold fsm_endid_init. destruct (f_malloc _ 16); [|done].
  destruct (f_malloc _ _); [|done]. cbn [mbind option_bind]. unfold fsm_eager_output_init.
  destruct (f_calloc _ 1 40); [|done]. destruct (f_calloc _ _ _); [|done]. intros [= <-]. split; [|done].
  assert (∀ s, ¬ live (mk_fsm (replicate m inhabitant) al 0 0 false 0 (mk_capture 0 0 [])
    (mk_endid_info (replicate DEF_BUCKET_COUNT None) 0) (mk_eager 0 0 (replicate DEF_BUCKET_COUNT None) 0) None) s) as Hno
    by (intros s Hs; unfold live in Hs; cbn in Hs; lia).
  split.
  - split; try done; try (cbn; rewrite ?length_replicate; lia). intros s Hs. by apply Hno in Hs.
  - split; [apply endid_wf_weak, fresh_endid_wf|]. split; [apply fresh_eager_wf|].
    split; intros k e Hk; by destruct (not_elem_of_empty_table DEF_BUCKET_COUNT k e).
  - intros s Hs. by apply Hno in Hs.
  - intros s Hs. by apply Hno in Hs.
Qed.

Lemma inv_new al f : fsm_new al = Some f → fsm_inv f.
Proof. intros E. by apply inv_new_statealloc in E as [? _]. Qed.

Lemma fsm_addstate_frame f b f' s :
  fsm_wf f → fsm_addstate f = (b, f', s) →
  f_endid_info f' = f_endid_info f ∧ f_eager_output_info f' = f_eager_output_info f ∧
  f_capture_info f' = f_capture_info f ∧ f_endcount f' = f_endcount f ∧
  (b = true → st_edges (get_state f' s) = None ∧ st_epsilons (get_state f' s) = SSNull ∧ visited f' s = false).
Proof.
  intros Hwf. pose proof (wf_alloc _ Hwf) as Ha. pose proof (wf_alloc_pos _ Hwf) as Hp. unfold fsm_addstate.
  destruct (_ =? 4294967295)%N; [intros [= <- <- <-]; done|].
  destruct (if f_statecount f =? length (f_states f) then _ else _) as [ok f1] eqn:E1.
  assert (∃ ext, f1 = with_states f (f_states f ++ ext) ∧ (ok = true → f_statecount f < length (f_states f ++ ext))) as (ext & -> & Hlen).
  { revert E1. destruct (f_statecount f =? length (f_states f)) eqn:E; split_bool.
    - destruct (f_realloc _ _); intros [= <- <-].
      + eexists; split; [done|]. intros _. rewrite length_app, length_replicate. lia.
      + exists []. rewrite app_nil_r. split; [by destruct f|done].
    - intros [= <- <-]. exists []. rewrite app_nil_r. split; [by destruct f|]. lia. }
  destruct ok; intros [= <- <- <-]; [|done].
  cbn [f_statecount with_states] in *. split; [done|]. split; [done|]. split; [done|]. split; [done|]. intros _.
  unfold visited. match goal with |- context [get_state (with_statecount ?g ?n)] => change (get_state (with_statecount g n)) with (get_state g) end.
  rewrite get_upd, decide_True; [done|done|]. cbn. rewrite Nat2N.id. by apply Hlen.
Qed.

Lemma inv_addstate f b f' s :
  fsm_inv f → (N.of_nat (f_statecount f) < 2147483647)%N → fsm_addstate f = (b, f', s) → fsm_inv f'.
Proof.
  intros [H1 H2 H3 H4] Hroom E. destruct (fsm_addstate_frame f b f' s H1 E) as (F1 & F2 & _ & _ & F3).
  destruct (fsm_addstate_spec f b f' s H1 Hroom E) as (Hf & _ & Ht). destruct b; [|by rewrite Hf by done].
  destruct Ht as (T1 & T2 & -> & _ & T5 & _); [done|]. destruct F3 as (F3 & _ & F4); [done|].
  assert (∀ t, live f' t ↔ live f t ∨ t = N.of_nat (f_statecount f)) as Hl by (intros t; unfold live; lia). split.
  - done.
  - destruct H2 as (M1 & M2 & M3 & M4). unfold fsm_meta. rewrite F1, F2. split; [done|]. split; [done|].
    split; intros k e Hk; apply Hl; left; eauto.
  - intros t [Ht| ->]%Hl; [rewrite T5 by done; auto|]. rewrite F3. by intros k ?%not_elem_of_nil.
  - rewrite flags_nil in H4 |- *. intros t [Ht| ->]%Hl; [|done]. unfold visited. rewrite T5 by done. by apply H4.
Qed.

Lemma inv_addedge_epsilon f from to b f' :
  fsm_inv f → live f from → live f to → fsm_addedge_epsilon f from to = (b, f') → fsm_inv f'.
Proof.
  intros Hi Hf Ht E. destruct (fsm_addedge_epsilon_spec f from to b f' (inv_wf _ Hi) Hf Ht E) as (W & _).
  unfold fsm_addedge_epsilon in E. destruct (state_set_add _ _ _) as [ok e]. injection E as <- <-.
  apply inv_upd; auto with fsm. by apply (inv_blanks _ Hi).
Qed.

(** An edge gives its destination's group a symbol. *)
Lemma blank_zero_add p al c t b p' :
  edge_set_wf p → c < 256 → (t < 4294967296)%N → edge_set_add p al c t = (b, p') → blank_zero p → blank_zero p'.
Proof.
  intros Hw Hc Ht E Hb. pose proof (edge_set_add_spec _ _ _ _ _ _ Hw Hc Ht E) as Ha. destruct b; [|by subst].
  destruct Ha as [_ Ha]. intros k Hk. destruct (edge_set_add_keys _ _ _ _ _ _ _ E Hk) as [Hk'| ->].
  - destruct (Hb k Hk') as [->|[sym Hs]]; [by left|]. right. exists sym. apply Ha. by left.
  - right. exists c. apply Ha. by right.
Qed.

Lemma inv_addedge_literal f from to c b f' :
  fsm_inv f → live f from → live f to → c < 256 → fsm_addedge_literal f from to c = (b, f') → fsm_inv f'.
Proof.
  intros Hi Hf Ht Hc E. pose proof (inv_wf _ Hi) as Hw.
  destruct (fsm_addedge_literal_spec f from to c b f' Hw Hf Ht Hc E) as (W & _).
  unfold fsm_addedge_literal in E. destruct (edge_set_add _ _ _ _) as [ok p] eqn:Ea. injection E as <- <-.
  apply inv_upd; auto with fsm. eapply blank_zero_add; [|exact Hc| |exact Ea|by apply (inv_blanks _ Hi)].
  - by apply (wf_states _ Hw).
  - by eapply live_lt32.
Qed.

Lemma inv_addedge_any n : ∀ i f from to b f',
  fsm_inv f → live f from → live f to → i + n ≤ 256 → addedge_any_loop n i f from to = (b, f') → fsm_inv f'.
Proof.
  induction n as [|n IH]; intros i f from to b f' Hi Hf Ht Hn; cbn [addedge_any_loop]; [by intros [= <- <-]|].
  destruct (fsm_addedge_literal f from to i) as [ok f1] eqn:E.
  assert (fsm_inv f1) as Hi1 by (eapply inv_addedge_literal; [exact Hi|exact Hf|exact Ht| |exact E]; lia).
  destruct ok; [|by intros [= <- <-]].
  destruct (fsm_addedge_literal_spec f from to i true f1 (inv_wf _ Hi) Hf Ht ltac:(lia) E) as (_ & Hc & _).
  apply IH; [done|unfold live in *; congruence|unfold live in *; congruence|lia].
Qed.

Lemma inv_setend f s b : fsm_inv f → live f s → fsm_inv (fsm_setend f s b).
Proof.
  intros Hi Hs. pose proof (inv_wf _ Hi) as Hw. destruct (fsm_setend_spec f s b Hw Hs) as (W & _).
  pose proof (wf_alloc _ Hw) as Ha. pose proof (same_frame_setend f s b) as [Hfr _].
  assert (N.to_nat s < length (f_states f)) as Hl by (unfold live in Hs; lia). split.
  - done.
  - rewrite Hfr. apply Hi.
  - intros t Ht. rewrite get_state_setend by done. rewrite Hfr in Ht.
    pose proof (inv_blanks _ Hi t Ht). case_decide; subst; done.
  - pose proof (inv_flags _ Hi) as Hv. rewrite flags_nil in Hv |- *. intros t Ht. unfold visited.
    rewrite get_state_setend by done. rewrite Hfr in Ht. specialize (Hv t Ht). case_decide; subst; done.
Qed.

Lemma inv_setstart f s : fsm_inv f → live f s → fsm_inv (fsm_setstart f s).
Proof. intros [H1 H2 H3 H4] Hs. split; try done. by apply fsm_setstart_spec. Qed.

Lemma inv_clearstart f : fsm_inv f → fsm_inv (fsm_clearstart f).
Proof. intros [H1 H2 H3 H4]. split; try done. by apply fsm_clearstart_spec. Qed.

(** Keys of the table of end ids are the states with ids. *)
Lemma endid_key ei k : endid_wf ei → (∃ e, Some (k, e) ∈ ei_buckets ei) ↔ endids ei k ≠ [].
Proof.
  intros (Hok & _ & _ & _ & Hids). unfold endids. split.
  - intros [e He]. rewrite (proj2 (table_get_spec _ k e Hok) He). destruct (Hids k e He) as [_ [Hp _]].
    by destruct (eii_ids e); [simpl in Hp; lia|].
  - destruct (table_get (ei_buckets ei) k) as [e|] eqn:E; [|done]. intros _. exists e. by apply table_get_spec.
Qed.

Lemma inv_endid_set f s id b ei :
  fsm_inv f → endid_wf (f_endid_info f) → endid_room (f_endid_info f) → live f s → id_ok id →
  fsm_endid_set (f_alloc f) (f_endid_info f) s id = Some (b, ei) → fsm_inv (with_endid_info f ei) ∧ endid_wf ei.
Proof.
  intros [H1 (M1 & M2 & M3 & M4) H3 H4] Hw Hr Hs Hid E.
  destruct (fsm_endid_set_spec (f_alloc f) (f_endid_info f) s id Hw Hr (live_bucket _ _ H1 Hs) Hid) as (b' & ei' & E' & W & K1 & _).
  rewrite E in E'. injection E' as <- <-. split; [|done]. split; try done.
  - destruct H1. by split.
  - split; [by apply endid_wf_weak|]. split; [done|]. split; [|done]. intros k e Hk. cbn in Hk.
    destruct (decide (k = s)) as [->|Hne]; [done|].
    assert (endids ei k ≠ []) as Hn by (apply endid_key; eauto). rewrite K1 in Hn by done.
    apply endid_key in Hn as [e' He']; [|done]. by eapply M3.
Qed.

Lemma inv_setendid l id : ∀ f b f',
  fsm_inv f → endid_wf (f_endid_info f) → (N.of_nat (ei_buckets_used (f_endid_info f) + length l) < 1073741824)%N →
  (∀ s, s ∈ l → live f s) → id_ok id → setendid_loop l f id = Some (b, f') → fsm_inv f'.
Proof.
  induction l as [|s l IH]; intros f b f' Hi Hw Hr Hl Hid; cbn [setendid_loop]; [by intros [= <- <-]|].
  destruct (fsm_isend f s).
  - destruct (fsm_endid_set _ _ _ _) as [[ok ei]|] eqn:E; [|done]. cbn [mbind option_bind].
    assert (endid_room (f_endid_info f)) as Hroom by (unfold endid_room; simpl in Hr; lia).
    destruct (inv_endid_set f s id ok ei Hi Hw Hroom (Hl s ltac:(left)) Hid E) as [Hi' Hw'].
    destruct ok; [|by intros [= <- <-]]. apply IH; [done|done| |intros t Ht; apply (Hl t); by right|done].
    cbn. pose proof (fsm_endid_set_used _ _ _ _ _ _ Hw Hroom (live_bucket _ _ (inv_wf _ Hi) (Hl s ltac:(left))) E). simpl in Hr. lia.
  - apply IH; [done|done|simpl in Hr; lia|intros t Ht; apply (Hl t); by right|done].
Qed.

Lemma inv_eager_set f s id b f' :
  fsm_inv f → eager_room (f_eager_output_info f) → live f s → id_ok id → eager_set f s id = Some (b, f') → fsm_inv f'.
Proof.
  intros [H1 (M1 & M2 & M3 & M4) H3 H4] Hr Hs Hid. unfold eager_set.
  destruct (fsm_eager_output_set_spec (f_alloc f) (f_eager_output_info f) s id M2 Hr Hid) as (b' & eo & mark & E & W & _).
  rewrite E. cbn [mbind option_bind].
  assert (fsm_inv (with_eager_output_info f eo)) as Hi.
  { split; try done; [destruct H1; by split|]. split; [done|]. split; [done|]. split; [done|]. intros k e Hk.
    destruct (fsm_eager_output_set_keys _ _ _ _ _ _ _ _ _ M2 Hr E Hk) as [->|[e' He']]; [done|]. by eapply M4. }
  intros [= <- <-]. destruct mark; [|done]. apply inv_upd; try done.
  - apply fsm_wf_upd; [apply Hi|done| |done]. by apply (wf_states _ H1).
  - by apply H3.
Qed.

(** ** Building *)

Lemma inv_build_exec f op b f' :
  fsm_inv f → build_op_ok (f_statecount f) op → build_exec f op = (b, f') → fsm_inv f'.
Proof.
  intros Hi Hok. destruct op as [|from to|from to c|from to|s e|s|]; cbn in *.
  - destruct (fsm_addstate f) as [[ok f1] s] eqn:E. intros [= <- <-]. by eapply inv_addstate.
  - destruct Hok. by apply inv_addedge_epsilon.
  - destruct Hok as (? & ? & ?). by apply inv_addedge_literal.
  - destruct Hok. apply (inv_addedge_any 256 0); [done|done|done|lia].
  - intros [= <- <-]. by apply inv_setend.
  - intros [= <- <-]. by apply inv_setstart.
  - intros [= <- <-]. by apply inv_clearstart.
Qed.
End Inv.

Lemma inv_build_all `{alloc_total} ops : ∀ f,
  fsm_inv f → build_ok (f_statecount f) ops = true → fsm_inv (build_all f ops).2.
Proof.
  induction ops as [|op ops IH]; intros f Hi Hok; cbn [build_all build_ok] in *; [done|].
  apply andb_true_iff in Hok as [Hop%bool_decide_eq_true Hoks].
  destruct (build_exec_spec f op (inv_wf _ Hi) Hop) as (f1 & E & _ & Hc & _). rewrite E.
  apply IH; [by eapply inv_build_exec|by rewrite Hc].
Qed.

(** Automata for the witnesses. *)
Lemma inv_build_from_new ops : build_ok 0 ops = true → fsm_inv (@build_from_new always ops).
Proof.
  intros Hok. unfold build_from_new. destruct (@fsm_new always 0%N) as [f0|] eqn:E; [|done].
  apply (@inv_build_all always always_total); [by eapply (@inv_new always)|].
  replace (f_statecount f0) with 0; [done|]. vm_compute in E. by injection E as <-.
Qed.
