(* ===== verification/Pred.v ===== *)
(** * Predicates and searches: src/libfsm/pred/, src/libfsm/walk/, empty.c

    Predicates on a state, the walks over all states ([fsm_all], [fsm_count],
    [fsm_has]) and over the reachable ones ([fsm_reachable]). A predicate reads
    the automaton and a state, [fsm → N → bool], its result taken as C takes
    an [int] in a condition. [fsm_reachable] marks states in the [visited]
    flags of the automaton it is given. *)

From S2P Require Import Prelude StateSet Bits Bitmap EdgeSet EdgeIter EdgeCompact Probe Endids EagerOutput.
From S2P Require Import Lang Fsm FsmSpec Search.

(** ** walk/all.c, walk/count.c, walk/has.c *)

Definition fsm_all (f : fsm) (predicate : fsm → N → bool) : bool := forallb (predicate f) (live_ids f).

Definition fsm_count (f : fsm) (predicate : fsm → N → bool) : N :=
  foldl (λ n i, (n +32 N.b2n (predicate f i))%cint) 0%N (live_ids f).

Definition fsm_has (f : fsm) (predicate : fsm → N → bool) : bool := existsb (predicate f) (live_ids f).

(** ** pred/ *)

Definition fsm_epsilonsonly (f : fsm) (state : N) : bool :=
  if state_set_empty (st_epsilons (get_state f state)) then false
  else if negb (edge_set_empty (st_edges (get_state f state))) then false
  else true.

Definition fsm_hasepsilons (f : fsm) (state : N) : bool :=
  negb (state_set_empty (st_epsilons (get_state f state))).

Definition fsm_hasincoming (f : fsm) (state : N) : bool :=
  existsb (λ i,
    if state_set_contains (st_epsilons (get_state f i)) state then true
    else existsb (λ info, (egii_to info =? state)%N) (group_loop (st_edges (get_state f i))))
    (live_ids f).

Definition fsm_hasoutgoing (f : fsm) (state : N) : bool :=
  if negb (state_set_empty (st_epsilons (get_state f state))) then true
  else if negb (edge_set_empty (st_edges (get_state f state))) then true
  else false.

Definition fsm_isany (f : fsm) (state : N) : bool := true.

(** One group's labels into the first four words. *)
Definition or_labels (b : bm) (info : edge_group_iter_info) : bm :=
  foldl (λ b i,
    match bm_nth_word b i with
    | Some j => <[j := N.lor (word b j) (word (egii_symbols info) i)]> b
    | None => b
    end) b (seq 0 4).

(** [None] where the assertion on the destinations fails. *)
Definition fsm_iscomplete (f : fsm) (state : N) : option bool :=
  let infos := group_loop (st_edges (get_state f state)) in
  if forallb (λ info, (egii_to info <? N.of_nat (f_statecount f))%N) infos then
    Some (bm_count (foldl or_labels (bm_clear bm_empty) infos) =? 256)%N
  else None.

Definition state_hasnondeterminism (f : fsm) (state : N) (b : bm) : bool * bm :=
  edge_set_hasnondeterminism (st_edges (get_state f state)) b.

Definition fsm_isdfa (f : fsm) (state : N) : bool :=
  match fsm_getstart f with
  | None => false
  | Some _ =>
      if negb (state_set_empty (st_epsilons (get_state f state))) then false
      else if (state_hasnondeterminism f state (bm_clear bm_empty)).1 then false
      else true
  end.

Section Ops.
Context `{allocator}.

(** The loop over the epsilon transitions of a state, [rec] the recursive
    call. *)
Fixpoint follow_epsilons (rec : N → state_set → option (bool * state_set)) (l : list N) (closure : state_set)
    : option (bool * state_set) :=
  match l with
  | [] => Some (true, closure)
  | s :: l =>
      '(ok, closure) ← rec s closure;
      if (ok : bool) then follow_epsilons rec l closure else Some (false, closure)
  end.

(** The result is whether the set returned is not NULL, and the set; [None]
    when the depth of the recursion exceeds [fuel]. *)
Fixpoint state_epsilon_closure (fuel : nat) (f : fsm) (state : N) (closure : state_set)
    : option (bool * state_set) :=
  match fuel with
  | 0 => None
  | S fuel =>
      if state_set_contains closure state then Some (true, closure)
      else
        let '(ok, closure) := state_set_add closure (f_alloc f) state in
        if ok then
          follow_epsilons (state_epsilon_closure fuel f) (state_loop (st_epsilons (get_state f state))) closure
        else Some (false, closure)
  end.

(** The loop over the states of the closure, one bitmap for all of them. *)
Fixpoint closure_nondeterminism (f : fsm) (l : list N) (b : bm) : bool :=
  match l with
  | [] => false
  | s :: l =>
      let '(hit, b) := state_hasnondeterminism f s b in
      if hit then true else closure_nondeterminism f l b
  end.

(** The recursion is at most one level deeper than there are states. *)
Definition fsm_hasnondeterminism (f : fsm) (state : N) : option Z :=
  if negb (fsm_hasepsilons f state) then
    Some (Z.b2z (state_hasnondeterminism f state (bm_clear bm_empty)).1)
  else
    '(ok, ec) ← state_epsilon_closure (f_statecount f + 1) f state SSNull;
    if (ok : bool) then Some (Z.b2z (closure_nondeterminism f (state_loop ec) (bm_clear bm_empty)))
    else Some (-1)%Z.

(** ** walk/reachable.c *)

(** Marking and stacking the states not visited yet; [None] where
    [assert(qtop < fsm->statecount)] fails. The top of the stack is the head of
    the list. *)
Fixpoint push_unvisited (l : list N) (f : fsm) (q : list N) : option (fsm * list N) :=
  match l with
  | [] => Some (f, q)
  | dst :: l =>
      if visited f dst then push_unvisited l f q
      else if length q <? f_statecount f then
        push_unvisited l (upd_state f dst (set_visited true)) (dst :: q)
      else None
  end.

(** The search; [None] also when [fuel] iterations are not enough. *)
Fixpoint reachable_loop (fuel : nat) (predicate : fsm → N → bool) (stopcond : bool) (f : fsm) (q : list N)
    : option (bool * fsm) :=
  match fuel with
  | 0 => None
  | S fuel =>
      match q with
      | [] => Some (negb stopcond, f)
      | state :: q =>
          if eqb (predicate f state) stopcond then Some (stopcond, f)
          else
            '(f, q) ← push_unvisited (fe_state <$> edge_loop (st_edges (get_state f state))) f q;
            '(f, q) ← push_unvisited (state_loop (st_epsilons (get_state f state))) f q;
            reachable_loop fuel predicate stopcond f q
      end
  end.

Definition fsm_reachable (f : fsm) (state : N) (any : bool) (predicate : fsm → N → bool) : option (Z * fsm) :=
  let f := clear_visited f in
  if f_malloc (f_alloc f) (N.of_nat (f_statecount f) * 4) then
    let f := upd_state f state (set_visited true) in
    '(r, f) ← reachable_loop (f_statecount f + 1) predicate any f [state];
    Some (Z.b2z r, clear_visited f)
  else Some ((-1)%Z, f).

Definition fsm_reachableall (f : fsm) (state : N) (predicate : fsm → N → bool) : option (Z * fsm) :=
  fsm_reachable f state false predicate.

Definition fsm_reachableany (f : fsm) (state : N) (predicate : fsm → N → bool) : option (Z * fsm) :=
  fsm_reachable f state true predicate.

(** ** empty.c *)

Definition fsm_empty (f : fsm) : option (Z * fsm) :=
  match fsm_getstart f with
  | None => Some ((-1)%Z, f)
  | Some start =>
      '(r, f) ← fsm_reachableany f start fsm_isend;
      Some (if (r =? 0)%Z then 1%Z else 0%Z, f)
  end.
End Ops.

(** ** Lemmas: predicates *)

(** The edges a state has. *)
Lemma wf_edges f s : fsm_wf f → live f s → edge_set_wf (st_edges (get_state f s)).
Proof. intros Hwf Hs. apply (wf_states _ Hwf s Hs). Qed.

Lemma state_set_empty_has set : state_set_empty set = true ↔ ∀ t, ¬ ss_has set t.
Proof.
  rewrite state_set_empty_spec. unfold ss_has. split.
  - intros ->. apply not_elem_of_nil.
  - apply elem_of_nil_inv.
Qed.

Lemma no_eps_empty f s : live f s → state_set_empty (st_epsilons (get_state f s)) = true ↔ ∀ t, ¬ f_eps f s t.
Proof. intros Hs. rewrite state_set_empty_has. unfold f_eps. naive_solver. Qed.

Lemma no_edge_empty f s :
  fsm_wf f → live f s → edge_set_empty (st_edges (get_state f s)) = true ↔ ∀ c t, ¬ f_edge f s c t.
Proof.
  intros Hwf Hs. rewrite edge_set_empty_spec by (by apply wf_edges). unfold f_edge. naive_solver.
Qed.

Lemma fsm_hasincoming_spec f s :
  fsm_wf f → fsm_hasincoming f s = true ↔ ∃ i, f_eps f i s ∨ ∃ c, f_edge f i c s.
Proof.
  intros Hwf. unfold fsm_hasincoming. rewrite existsb_exists.
  setoid_rewrite <-list_elem_of_In. setoid_rewrite elem_of_live_ids. split.
  - intros (i & Hi & E). exists i. destruct (state_set_contains (st_epsilons (get_state f i)) s) eqn:Ec.
    + left. split; [done|]. destruct (wf_states _ Hwf i Hi) as (_ & Hw & _).
      rewrite state_set_contains_bool in Ec by apply Hw. by apply bool_decide_eq_true in Ec.
    + right. apply existsb_exists in E as (info & Hin%list_elem_of_In & Ht%N.eqb_eq).
      destruct (proj1 (elem_of_group_loop (st_edges (get_state f i)) s (wf_edges f i Hwf Hi))) as [c Hc]; [eauto|].
      exists c. done.
  - intros (i & [[Hi He]|(c & Hi & He)]); exists i; (split; [done|]).
    + destruct (wf_states _ Hwf i Hi) as (_ & Hw & _).
      rewrite state_set_contains_bool by apply Hw. by rewrite bool_decide_eq_true_2.
    + destruct (state_set_contains _ _); [done|]. apply existsb_exists.
      destruct (proj2 (elem_of_group_loop (st_edges (get_state f i)) s (wf_edges f i Hwf Hi))) as (info & Hin & Ht); [eauto|].
      exists info. split; [by apply list_elem_of_In|]. by apply N.eqb_eq.
Qed.

Lemma fsm_count_spec f p :
  fsm_wf f → fsm_count f p = N.of_nat (length (filter (λ i, p f i = true) (live_ids f))).
Proof.
  intros Hwf. unfold fsm_count.
  enough (∀ l acc, (acc + N.of_nat (length l) < 4294967296)%N →
    foldl (λ n i, (n +32 N.b2n (p f i))%cint) acc l = (acc + N.of_nat (length (filter (λ i, p f i = true) l)))%N) as Hg.
  { rewrite Hg; [done|]. unfold live_ids. rewrite length_fmap, length_seq. apply (wf_count32 _ Hwf). }
  induction l as [|x l IH]; intros acc Hlt; [simpl; lia|]. cbn [foldl]. simpl length in Hlt.
  rewrite filter_cons. rewrite u32_small by (destruct (p f x); cbn; lia).
  rewrite IH by (destruct (p f x); cbn; lia). destruct (p f x); case_decide; simpl; done || lia.
Qed.

Lemma edge_set_nonempty p : edge_set_wf p → edge_set_empty p = false ↔ ∃ c t, has_edge p c t.
Proof.
  intros Hw. pose proof (edge_set_empty_spec p Hw) as He. setoid_rewrite <-elem_of_edge_list in He; [|done].
  setoid_rewrite <-elem_of_edge_list; [|done]. destruct (edge_set_empty p).
  - split; [done|]. intros (c & t & Ht). destruct (proj1 He eq_refl c t Ht).
  - split; [|done]. intros _. destruct (edge_list p) as [|[c t] l]; [|exists c, t; left].
    discriminate (proj2 He). intros c t. apply not_elem_of_nil.
Qed.

(** ** Lemmas: determinism *)

Lemma fsm_isdfa_spec f s :
  fsm_wf f → live f s →
  fsm_isdfa f s = true ↔
  is_Some (fsm_getstart f) ∧ (∀ t, ¬ f_eps f s t) ∧ (∀ c t t', f_edge f s c t → f_edge f s c t' → t = t').
Proof.
  intros Hwf Hs. unfold fsm_isdfa. destruct (fsm_getstart f) as [s0|]; [|naive_solver].
  pose proof (no_eps_empty f s Hs) as He.
  pose proof (edge_set_hasnondeterminism_spec (st_edges (get_state f s)) (bm_clear bm_empty)
    (wf_edges _ _ Hwf Hs) (bm_wf_clear _)) as Hn.
  unfold state_hasnondeterminism. destruct (edge_set_hasnondeterminism _ _) as [hit b']. destruct Hn as [Hn _].
  destruct (state_set_empty _); cbn [negb fst].
  - destruct hit.
    + split; [done|]. intros (_ & _ & Hu). destruct (proj1 Hn eq_refl) as [(c & t & t' & H1 & H2 & H3)|(c & t & _ & Hb)].
      * destruct H3. eapply Hu; by split.
      * by rewrite bm_get_clear in Hb.
    + split; [|done]. intros _. split_and!; [eauto|by apply He|]. intros c t t' [_ H1] [_ H2].
      destruct (decide (t = t')) as [|Hne]; [done|]. discriminate (proj2 Hn). left. eauto 6.
  - split; [done|]. intros (_ & Hne & _). discriminate (proj2 He Hne).
Qed.

(** All states of an automaton satisfy [fsm_isdfa] exactly when it is
    deterministic and, unless it has no states, has a start state. *)
Lemma fsm_all_isdfa f :
  fsm_wf f → fsm_all f fsm_isdfa = true ↔
  deterministic (nfa_of f) ∧ (f_statecount f = 0 ∨ is_Some (fsm_getstart f)).
Proof.
  intros Hwf. unfold fsm_all. rewrite forallb_forall. setoid_rewrite <-list_elem_of_In.
  setoid_rewrite elem_of_live_ids. split.
  - intros Ha. split; [split_and!; cbn|].
    + intros s t Ht. pose proof Ht as [Hs _]. destruct (proj1 (fsm_isdfa_spec f s Hwf Hs) (Ha s Hs)) as (_ & Hn & _). by apply (Hn t).
    + intros s c t t' H1 H2. pose proof H1 as [Hs _].
      destruct (proj1 (fsm_isdfa_spec f s Hwf Hs) (Ha s Hs)) as (_ & _ & Hu). by eapply Hu.
    + congruence.
    + destruct (f_statecount f) as [|n] eqn:E; [by left|right].
      assert (live f 0) as H0 by (unfold live; lia). apply (proj1 (fsm_isdfa_spec f 0 Hwf H0) (Ha 0%N H0)).
  - intros [(He & Hd & _) Hst] s Hs. apply fsm_isdfa_spec; [done|done|]. split_and!.
    + destruct Hst as [E|]; [|done]. unfold live in Hs. lia.
    + intros t. apply (He s t).
    + intros c t t'. apply (Hd s c t t').
Qed.

(** ** Lemmas: completeness *)

Lemma or_labels_spec b info :
  bm_wf b → words_ok 4 (egii_symbols info) →
  bm_wf (or_labels b info) ∧
  ∀ j, bm_get (or_labels b info) j = bm_get b j || bs_get (egii_symbols info) j.
Proof.
  intros Hb Hs. assert (or_labels b info = words_or b (egii_symbols info ++ replicate 28 0%N)) as ->.
  { pose proof Hb as [[Hl _] _]. destruct Hs as [Hs _]. unfold or_labels, words_or.
    destruct (egii_symbols info) as [|w0 [|w1 [|w2 [|w3 [|]]]]]; try done.
    destruct b as [|b0 [|b1 [|b2 [|b3 b]]]]; try done. injection Hl as Hl.
    cbn -[replicate]. do 4 f_equal. rewrite <-Hl. clear. induction b as [|x b IH]; [done|].
    cbn. by rewrite N.lor_0_r, <-IH. }
  assert (bm_wf (egii_symbols info ++ replicate 28 0%N)) as Hi.
  { destruct Hs as [Hl Hw]. split; [split|].
    - by rewrite length_app, length_replicate, Hl.
    - apply Forall_app. split; [done|]. by apply Forall_replicate.
    - rewrite drop_app_length' by done. by apply Forall_replicate. }
  split; [by apply bm_wf_union|]. intros j. rewrite bm_get_union.
  - f_equal. rewrite bm_get_bs, !bs_get_testbit. f_equal. unfold word.
    destruct (decide (j / 64 < 4)).
    + rewrite lookup_app_l; [done|]. destruct Hs as [-> _]. done.
    + destruct Hs as [Hl _]. rewrite lookup_app_r, (lookup_ge_None_2 (egii_symbols info)) by lia.
      destruct (replicate 28 0%N !! _) eqn:E; [|done]. by apply lookup_replicate in E as [-> _].
  - done.
  - done.
Qed.

Lemma fsm_iscomplete_spec f s :
  fsm_wf f → live f s →
  ∃ b, fsm_iscomplete f s = Some b ∧ (b = true ↔ ∀ c, c < 256 → ∃ t, f_edge f s c t).
Proof.
  intros Hwf Hs. pose proof (wf_edges _ _ Hwf Hs) as Hw. unfold fsm_iscomplete.
  set (infos := group_loop (st_edges (get_state f s))).
  assert (forallb (λ info, (egii_to info <? N.of_nat (f_statecount f))%N) infos = true) as ->.
  { apply forallb_forall. intros i Hi%list_elem_of_In.
    destruct (proj1 (elem_of_group_loop _ (egii_to i) Hw)) as [c Hc]; [eauto|].
    apply N.ltb_lt. pose proof (f_edge_live f s c (egii_to i) Hwf (conj Hs Hc)) as Hl. unfold live in Hl. lia. }
  eexists; split; [done|].
  assert (∀ i, i ∈ infos → words_ok 4 (egii_symbols i)) as Hok.
  { intros i Hi. unfold infos in Hi. rewrite group_loop_infos in Hi.
    apply list_elem_of_fmap in Hi as (g & -> & [_ Hin]%list_elem_of_filter).
    destruct (st_edges (get_state f s)) as [es|]; [|by apply not_elem_of_nil in Hin].
    destruct Hw as ([_ Hf] & _). rewrite Forall_forall in Hf. apply (Hf _ Hin). }
  assert (∀ l b, bm_wf b → (∀ i, i ∈ l → words_ok 4 (egii_symbols i)) →
    bm_wf (foldl or_labels b l) ∧
    ∀ j, bm_get (foldl or_labels b l) j = true ↔ bm_get b j = true ∨ ∃ i, i ∈ l ∧ bs_get (egii_symbols i) j = true) as Hfold.
  { clear. induction l as [|i l IH]; intros b Hb Hl; cbn [foldl].
    { split; [done|]. intros j. split; [by left|]. intros [?|(i & []%not_elem_of_nil & _)]. done. }
    destruct (or_labels_spec b i Hb (Hl i ltac:(by left))) as [H1 H2].
    destruct (IH (or_labels b i) H1) as [H3 H4]; [intros; apply Hl; by right|].
    split; [done|]. intros j. rewrite H4, H2, orb_true_iff. set_solver. }
  destruct (Hfold infos (bm_clear bm_empty) (bm_wf_clear _) Hok) as [Hwf' Hget].
  rewrite N.eqb_eq, bm_count_spec by done. change 256%N with (N.of_nat 256). rewrite Nat2N.inj_iff, count_below_all.
  assert (∀ j, bs_get (foldl or_labels (bm_clear bm_empty) infos) j = true ↔ ∃ t, f_edge f s j t) as Hj.
  { intros j. rewrite <-bm_get_bs, Hget, bm_get_clear. split.
    - intros [?|(i & Hi & Hg)]; [done|]. exists (egii_to i). split; [done|]. apply group_loop_spec; [done|]. eauto.
    - intros (t & _ & Ht). right. apply group_loop_spec in Ht as (i & Hi & _ & Hg); [|done]. eauto. }
  by setoid_rewrite Hj.
Qed.

(** ** Lemmas: nondeterminism through epsilon transitions *)

(** Two transitions of a set of states on the same symbol. *)
Definition conflict (f : fsm) (S : N → Prop) (s s' : N) (c : nat) (t t' : N) : Prop :=
  S s ∧ S s' ∧ f_edge f s c t ∧ f_edge f s' c t' ∧ (s ≠ s' ∨ t ≠ t').

Lemma closure_nondeterminism_spec f l : ∀ b,
  fsm_wf f → bm_wf b → NoDup l → (∀ s, s ∈ l → live f s) →
  closure_nondeterminism f l b = true ↔
  (∃ s s' c t t', conflict f (.∈ l) s s' c t t') ∨ (∃ s c t, s ∈ l ∧ f_edge f s c t ∧ bm_get b c = true).
Proof.
  induction l as [|s l IH]; intros b Hwf Hb Hnd Hl; cbn [closure_nondeterminism].
  { split; [done|]. intros [(s & s' & c & t & t' & []%not_elem_of_nil & _)|(s & c & t & []%not_elem_of_nil & _)]. }
  assert (live f s) as Hs by (apply Hl; left). apply NoDup_cons in Hnd as [Hns Hnd].
  pose proof (edge_set_hasnondeterminism_spec (st_edges (get_state f s)) b (wf_edges _ _ Hwf Hs) Hb) as Hn.
  unfold state_hasnondeterminism. destruct (edge_set_hasnondeterminism _ _) as [hit b']. destruct Hn as (Hn & Hb' & Hn').
  destruct hit.
  - split; [|done]. intros _. destruct (proj1 Hn eq_refl) as [(c & t & t' & H1 & H2 & H3)|(c & t & Ht & Hg)].
    + left. exists s, s, c, t, t'. split_and!; [left|left|done|done|by right].
    + right. exists s, c, t. split_and!; [left|done|done].
  - specialize (Hn' eq_refl). rewrite IH; [|done|done|done|intros; apply Hl; by right].
    assert (¬ ∃ c t, f_edge f s c t ∧ bm_get b c = true) as Hn1.
    { intros (c & t & [_ ?] & ?). discriminate (proj2 Hn). eauto. }
    assert (∀ c t t', f_edge f s c t → f_edge f s c t' → t = t') as Hn2.
    { intros c t t' [_ H1] [_ H2]. destruct (decide (t = t')); [done|]. discriminate (proj2 Hn). left. eauto 6. }
    split.
    + intros [(s1 & s2 & c & t & t' & H1 & H2 & H3)|(s1 & c & t & H1 & H2 & H3)].
      * left. exists s1, s2, c, t, t'. split_and!; [by right|by right|apply H3..].
      * apply Hn' in H3 as [H3|[t' Ht']].
        -- right. exists s1, c, t. split_and!; [by right|done|done].
        -- left. exists s1, s, c, t, t'. split_and!; [by right|left|done|done|left]. by intros ->.
    + intros [(s1 & s2 & c & t & t' & [->|H1]%elem_of_cons & [->|H2]%elem_of_cons & H3 & H4 & H5)|
              (s1 & c & t & [->|H1]%elem_of_cons & H2 & H3)].
      * destruct H5 as [?|H5]; [done|]. destruct H5. eauto.
      * right. exists s2, c, t'. split_and!; [done|done|]. apply Hn'. right. exists t. apply H3.
      * right. exists s1, c, t. split_and!; [done|done|]. apply Hn'. right. exists t'. apply H4.
      * left. exists s1, s2, c, t, t'. done.
      * destruct Hn1. eauto.
      * right. exists s1, c, t. split_and!; [done|done|]. apply Hn'. by left.
Qed.

Section Closure.
Context `{allocator, !alloc_total} (f : fsm) (Hwf : fsm_wf f).

Definition closure_ok (c : state_set) : Prop := state_set_wf c ∧ ∀ t, ss_has c t → live f t.

(** [c'] extends [c] by states reached from [src], closed under epsilon
    transitions. *)
Definition closure_step (src : N → Prop) (c c' : state_set) : Prop :=
  closure_ok c' ∧ (∀ t, src t → ss_has c' t) ∧ (∀ t, ss_has c t → ss_has c' t) ∧
  (∀ t, ss_has c' t → ss_has c t ∨ ∃ s, src s ∧ rtc (f_eps f) s t) ∧
  (∀ t u, ss_has c' t → ¬ ss_has c t → f_eps f t u → ss_has c' u).

Lemma closure_length c : closure_ok c → length (ss_elems c) ≤ f_statecount f.
Proof.
  intros [Hw Hl]. assert (ss_elems c ⊆ live_ids f) as Hsub.
  { intros s Hs. apply elem_of_live_ids. by apply Hl. }
  assert (NoDup (ss_elems c)) as Hnd by apply increasing_NoDup, Hw.
  pose proof (submseteq_length _ _ (NoDup_submseteq _ _ Hnd Hsub)) as Hle.
  unfold live_ids in Hle. by rewrite length_fmap, length_seq in Hle.
Qed.

Lemma closure_step_length src c c' :
  closure_ok c → closure_step src c c' → length (ss_elems c) ≤ length (ss_elems c').
Proof.
  intros [Hw _] (_ & _ & Hm & _). apply submseteq_length, NoDup_submseteq; [apply increasing_NoDup, Hw|].
  intros t Ht. by apply Hm.
Qed.

Lemma closure_step_trans src1 src2 c1 c2 c3 :
  closure_step src1 c1 c2 → closure_step src2 c2 c3 → closure_step (λ t, src1 t ∨ src2 t) c1 c3.
Proof.
  intros (A1 & A2 & A3 & A4 & A5) (B1 & B2 & B3 & B4 & B5). split_and!; [done| |naive_solver| |].
  - intros t [Ht|Ht]; auto.
  - intros t [Ht|(s & Hs & Hr)]%B4; [|eauto]. apply A4 in Ht as [?|(s & Hs & Hr)]; eauto.
  - intros t u Ht Hn He. destruct (decide (ss_has c2 t)); eauto.
Qed.

Lemma follow_epsilons_spec rec l : ∀ c,
  (∀ s, s ∈ l → live f s) → closure_ok c →
  (∀ s c1, s ∈ l → closure_ok c1 → length (ss_elems c) ≤ length (ss_elems c1) →
     ∃ c', rec s c1 = Some (true, c') ∧ closure_step (.= s) c1 c') →
  ∃ c', follow_epsilons rec l c = Some (true, c') ∧ closure_step (.∈ l) c c'.
Proof.
  induction l as [|s l IH]; intros c Hl Hc Hrec; cbn [follow_epsilons].
  { exists c. split; [done|]. split_and!; [done|by intros t ?%not_elem_of_nil|done|by left|done]. }
  destruct (Hrec s c) as (c1 & -> & H1); [left|done|done|]. cbn [mbind option_bind].
  pose proof (closure_step_length _ _ _ Hc H1) as Hlen.
  destruct (IH c1) as (c2 & -> & H2).
  - intros; apply Hl; by right.
  - apply H1.
  - intros s' c' Hs' Hc' Hle. apply Hrec; [by right|done|lia].
  - exists c2. split; [done|]. destruct (closure_step_trans _ _ _ _ _ H1 H2) as (K1 & K2 & K3 & K4 & K5).
    split_and!; [done| |done| |done].
    + intros t [->|Ht]%elem_of_cons; apply K2; auto.
    + intros t [?|(u & [->|Hu] & Hr)]%K4; [by left| |]; right; eexists; (split; [|done]); [left|by right].
Qed.

Lemma state_epsilon_closure_spec fuel : ∀ s c,
  live f s → closure_ok c → f_statecount f < fuel + length (ss_elems c) →
  ∃ c', state_epsilon_closure fuel f s c = Some (true, c') ∧ closure_step (.= s) c c'.
Proof.
  induction fuel as [|fuel IH]; intros s c Hs Hc Hf.
  { pose proof (closure_length c Hc). lia. }
  cbn [state_epsilon_closure]. rewrite state_set_contains_bool by apply Hc. case_bool_decide as Hin.
  { exists c. split; [done|]. split_and!; [done|by intros t ->|done|by left|done]. }
  destruct (state_set_add_total c (f_alloc f) s) as [c1 Hadd]. rewrite Hadd.
  destruct (state_set_add_extends _ _ _ _ (proj1 Hc) (live_lt32 _ _ Hwf Hs) Hadd) as [Hw1 Hx].
  assert (∀ t, ss_has c1 t ↔ ss_has c t ∨ t = s) as Hx1.
  { intros t. unfold ss_has in *. rewrite Hx. by rewrite list_elem_of_singleton. }
  assert (closure_ok c1) as Hc1.
  { split; [done|]. intros t [Ht| ->]%Hx1; [by apply Hc|done]. }
  assert (length (ss_elems c) < length (ss_elems c1)) as Hlen.
  { assert (s :: ss_elems c ⊆+ ss_elems c1) as Hsub.
    { apply NoDup_submseteq; [constructor; [done|apply increasing_NoDup, Hc]|].
      intros t [->|Ht]%elem_of_cons; apply Hx1; auto. }
    apply submseteq_length in Hsub. simpl in Hsub. lia. }
  rewrite state_loop_elems.
  assert (∀ t, t ∈ ss_elems (st_epsilons (get_state f s)) ↔ f_eps f s t) as Heps by (unfold f_eps, ss_has; naive_solver).
  destruct (follow_epsilons_spec (state_epsilon_closure fuel f) (ss_elems (st_epsilons (get_state f s))) c1)
    as (c2 & -> & K1 & K2 & K3 & K4 & K5).
  - intros t Ht%Heps. by eapply f_eps_live.
  - done.
  - intros t c' Ht%Heps Hc' Hle. apply IH; [by eapply f_eps_live|done|lia].
  - exists c2. split; [done|]. split_and!; [done| | | |].
    + intros t ->. apply K3, Hx1. by right.
    + intros t Ht. apply K3, Hx1. by left.
    + intros t [[Ht| ->]%Hx1|(u & Hu%Heps & Hr)]%K4; [by left|right; eauto using rtc_refl|right].
      exists s. split; [done|]. by eapply rtc_l.
    + intros t u Ht Hn He. destruct (decide (t = s)) as [->|Hne]; [by apply K2, Heps|].
      apply (K5 t); [done| |done]. rewrite Hx1. naive_solver.
Qed.

(** The recursion ends, and its set is the epsilon closure. *)
Lemma state_epsilon_closure_rtc s :
  live f s →
  ∃ c, state_epsilon_closure (f_statecount f + 1) f s SSNull = Some (true, c) ∧ state_set_wf c ∧
    ∀ t, ss_has c t ↔ rtc (f_eps f) s t.
Proof.
  intros Hs. destruct (state_epsilon_closure_spec (f_statecount f + 1) s SSNull) as (c & -> & K1 & K2 & K3 & K4 & K5).
  - done.
  - split; [apply state_set_wf_null|]. by intros t ?%not_elem_of_nil.
  - simpl. lia.
  - exists c. split_and!; [done|apply K1|]. intros t. split.
    + intros [[]%not_elem_of_nil|(u & -> & Hr)]%K4. done.
    + intros Hr. assert (ss_has c s) as Hcs by auto. clear K2 K4 Hs. induction Hr as [|s u t He Hr IH]; [done|].
      apply IH. apply (K5 s); [done|by intros []%not_elem_of_nil|done].
Qed.

(** [fsm_hasnondeterminism] ends; it reports whether two transitions of the
    states the given state reaches by epsilon transitions have the same
    symbol, the same destination included. *)
Lemma fsm_hasnondeterminism_spec s :
  live f s →
  ∃ r, fsm_hasnondeterminism f s = Some (Z.b2z r) ∧
    (r = true ↔ ∃ s1 s2 c t t', conflict f (rtc (f_eps f) s) s1 s2 c t t').
Proof.
  intros Hs. unfold fsm_hasnondeterminism, fsm_hasepsilons. rewrite negb_involutive.
  pose proof (no_eps_empty f s Hs) as He. destruct (state_set_empty _).
  - pose proof (closure_nondeterminism_spec f [s] (bm_clear bm_empty) Hwf (bm_wf_clear _) (NoDup_singleton s)) as Hc.
    cbn [closure_nondeterminism] in Hc. destruct (state_hasnondeterminism f s _) as [hit b']. exists hit. split; [done|].
    assert (hit = true ↔ (if hit then true else false) = true) as -> by (by destruct hit).
    rewrite Hc by (by intros t ->%list_elem_of_singleton). clear Hc.
    assert (∀ t, rtc (f_eps f) s t ↔ t ∈ [s]) as Hr.
    { intros t. rewrite list_elem_of_singleton. split; [|intros ->; apply rtc_refl].
      intros Hr. inversion Hr as [|? u ? Hx]; [done|]. by apply (proj1 He eq_refl) in Hx. }
    unfold conflict. setoid_rewrite Hr. setoid_rewrite bm_get_clear.
    split; [intros [?|(?&?&?&_&_&?)]; done|by left].
  - destruct (state_epsilon_closure_rtc s Hs) as (c & -> & Hw & Hc). cbn [mbind option_bind].
    eexists; split; [done|]. rewrite state_loop_elems, closure_nondeterminism_spec.
    + unfold conflict. setoid_rewrite <-Hc. setoid_rewrite bm_get_clear.
      split; [intros [?|(?&?&?&_&_&?)]; done|by left].
    + done.
    + apply bm_wf_clear.
    + apply increasing_NoDup, Hw.
    + intros t Ht. apply Hc in Ht. clear Hc He. induction Ht as [|x y z Hx Hy IH]; [done|]. apply IH. by eapply f_eps_live.
Qed.
End Closure.

(** ** Lemmas: reachability *)

(** One transition, whatever its label. *)
Definition f_step (f : fsm) (s t : N) : Prop := (∃ c, f_edge f s c t) ∨ f_eps f s t.

Lemma f_step_live f s t : fsm_wf f → f_step f s t → live f t.
Proof. intros Hwf [[c Hc]|He]; [by eapply f_edge_live|by eapply f_eps_live]. Qed.

Lemma f_step_rtc_path f s t : rtc (f_step f) s t ↔ ∃ w, path (nfa_of f) s w t.
Proof.
  split.
  - induction 1 as [s|s u t [[c Hc]|He] _ [w Hw]]; [exists []; constructor| |].
    + exists (c :: w). by eapply path_step.
    + exists w. by eapply path_eps.
  - intros [w Hp]. induction Hp as [s|s u w t He Hp IH|s c u w t He Hp IH]; [done| |].
    + apply (rtc_l _ _ u); [right; exact He|done].
    + apply (rtc_l _ _ u); [left; by exists c|done].
Qed.

(** Ids that fit the 24-bit field of [struct fsm_edge]. *)
Definition ids_fit (f : fsm) : Prop := (N.of_nat (f_statecount f) <= 16777216)%N.

#[export] Instance ids_fit_dec f : Decision (ids_fit f).
Proof. unfold ids_fit. apply _. Defined.

Lemma ids_fit_u24 f t : ids_fit f → live f t → u24 t = t.
Proof. intros Hf Ht. apply u24_small. unfold ids_fit, live in *. lia. Qed.

Lemma push_unvisited_spec R root p dn l : ∀ f q,
  fsm_wf f → (∀ t, t ∈ l → R p t ∧ live f t) →
  search_inv R (f_statecount f) root dn (p :: q) → flags f (dn ++ p :: q) →
  ∃ f' q', push_unvisited l f q = Some (f', q') ∧ same_graph f f' ∧
    search_inv R (f_statecount f) root dn (p :: q') ∧ flags f' (dn ++ p :: q') ∧
    (∀ t, t ∈ l → t ∈ dn ++ p :: q') ∧ (∀ t, t ∈ dn ++ p :: q → t ∈ dn ++ p :: q').
Proof.
  induction l as [|t l IH]; intros f q Hwf Hl Hinv Hfl; cbn [push_unvisited].
  { exists f, q. split_and!; [done|reflexivity|done|done|by intros t ?%not_elem_of_nil|done]. }
  destruct (Hl t ltac:(by left)) as [Hpt Htl]. pose proof (Hfl t Htl) as Hv. destruct (visited f t).
  - destruct (IH f q Hwf) as (f' & q' & -> & H1 & H2 & H3 & H4 & H5); [|done|done|].
    { intros; apply Hl; by right. }
    exists f', q'. split_and!; [done|done|done|done| |done].
    intros u [->|Hu]%elem_of_cons; [apply H5; by apply Hv|auto].
  - pose proof (search_bound _ _ _ _ _ Hinv) as Hb. simpl in Hb.
    assert ((length q <? f_statecount f) = true) as -> by (apply Nat.ltb_lt; lia).
    set (f1 := upd_state f t (set_visited true)).
    assert (same_graph f f1) as Hsg by apply same_graph_visited.
    assert (p :: t :: q ≡ₚ t :: p :: q) as Hperm by constructor.
    destruct (IH f1 (t :: q)) as (f' & q' & -> & H1 & H2 & H3 & H4 & H5).
    + by eapply same_graph_wf.
    + intros u Hu. apply Hl. by right.
    + eapply search_perm; [symmetry; exact Hperm|]. eapply (search_push _ _ _ _ _ p); [done| |done|done|].
      * apply elem_of_app. right. left.
      * intros Hin. discriminate (proj2 Hv Hin).
    + eapply flags_perm; [|by apply flags_mark]. rewrite Hperm. by rewrite Permutation_middle.
    + exists f', q'. split_and!; [done|by etrans|done|done| |].
      * intros u [->|Hu]%elem_of_cons; [|auto]. apply H5. rewrite Hperm. set_solver.
      * intros u Hu. apply H5. rewrite Hperm. set_solver.
Qed.

(** A predicate that does not read the visited flags. *)
Definition stable_pred (predicate : fsm → N → bool) : Prop :=
  ∀ f f' s, same_graph f f' → predicate f' s = predicate f s.

(** The successors the search pushes are those of the automaton. *)
Lemma push_successors R root p dn f q :
  fsm_wf f → ids_fit f → live f p → (∀ t, R p t ↔ f_step f p t) →
  search_inv R (f_statecount f) root dn (p :: q) → flags f (dn ++ p :: q) →
  ∃ f' q',
    ('(f, q) ← push_unvisited (fe_state <$> edge_loop (st_edges (get_state f p))) f q;
     push_unvisited (state_loop (st_epsilons (get_state f p))) f q) = Some (f', q') ∧
    same_graph f f' ∧ search_inv R (f_statecount f) root (p :: dn) q' ∧ flags f' ((p :: dn) ++ q').
Proof.
  intros Hwf Hfit Hp HR Hinv Hfl. pose proof (wf_edges f p Hwf Hp) as Hw.
  assert (∀ t, t ∈ fe_state <$> edge_loop (st_edges (get_state f p)) ↔ ∃ c, f_edge f p c t) as Hed.
  { intros t. rewrite elem_of_edge_loop by done. split.
    - intros (c & t' & He & ->). exists c. assert (f_edge f p c t') as He' by done.
      rewrite (ids_fit_u24 f t'); [done|done|by eapply f_edge_live].
    - intros (c & _ & He). exists c, t. split; [done|]. symmetry. eapply ids_fit_u24; [done|].
      by apply (f_edge_live f p c t Hwf). }
  destruct (push_unvisited_spec R root p dn (fe_state <$> edge_loop (st_edges (get_state f p))) f q)
    as (f1 & q1 & -> & H1 & H2 & H3 & H4 & H5); [done| |done|done|].
  { intros t [c Hc]%Hed. split; [|by eapply f_edge_live]. apply HR. left. eauto. }
  cbn [mbind option_bind]. destruct (same_graph_state f f1 p H1) as (_ & Eeps & _).
  pose proof H1 as (Esc & _). rewrite state_loop_elems, Eeps.
  destruct (push_unvisited_spec R root p dn (ss_elems (st_epsilons (get_state f p))) f1 q1)
    as (f2 & q2 & -> & K1 & K2 & K3 & K4 & K5).
  - by eapply same_graph_wf.
  - intros t Ht. assert (f_eps f p t) as He by done. split; [apply HR; by right|].
    rewrite same_graph_live by done. by eapply f_eps_live.
  - by rewrite Esc.
  - done.
  - exists f2, q2. rewrite Esc in K2. split_and!; [done|by etrans| |].
    + apply search_done; [done|]. intros t [Hc%Hed|[_ He]]%HR; auto.
    + eapply flags_perm; [|done]. by rewrite <-Permutation_middle.
Qed.

Lemma reachable_loop_spec predicate stopcond root f0 fuel : ∀ f q dn,
  fsm_wf f0 → ids_fit f0 → stable_pred predicate → same_graph f0 f →
  search_inv (f_step f0) (f_statecount f0) root dn q → flags f (dn ++ q) →
  (∀ s, s ∈ dn → predicate f0 s ≠ stopcond) → f_statecount f0 < fuel + length dn →
  ∃ r f', reachable_loop fuel predicate stopcond f q = Some (r, f') ∧ same_graph f0 f' ∧
    (r = stopcond ↔ ∃ t, rtc (f_step f0) root t ∧ predicate f0 t = stopcond).
Proof.
  induction fuel as [|fuel IH]; intros f q dn Hwf Hfit Hst Hsg Hinv Hfl Hdn Hf.
  { pose proof (search_bound _ _ _ _ _ Hinv). lia. }
  cbn [reachable_loop]. destruct q as [|p q].
  { eexists _, f. split_and!; [done|done|]. split; [by destruct stopcond|].
    intros (t & Ht & Hp). by apply (search_end _ _ _ _ _ Hinv), Hdn in Ht. }
  assert (live f0 p) as Hp by (apply (se_lt _ _ _ _ _ Hinv); set_solver).
  rewrite (Hst f0 f) by done. destruct (eqb (predicate f0 p) stopcond) eqn:E.
  { eexists _, f. split_and!; [done|done|]. split; [|done]. intros _. exists p. split; [|by apply eqb_prop].
    apply (se_reach _ _ _ _ _ Hinv). set_solver. }
  pose proof Hsg as (Esc & _).
  destruct (push_successors (f_step f0) root p dn f q) as (f2 & q2 & E2 & H1 & H2 & H3).
  - by eapply same_graph_wf.
  - unfold ids_fit. by rewrite Esc.
  - by rewrite (same_graph_live f0).
  - intros t. pose proof (same_graph_nfa _ _ Hsg) as (Ha & Hb & _). cbn in Ha, Hb.
    unfold f_step. setoid_rewrite Ha. by rewrite Hb.
  - by rewrite Esc.
  - done.
  - rewrite Esc in H2. destruct (push_unvisited (fe_state <$> _) f q) as [[f1 q1]|]; [|done].
    cbn [mbind option_bind] in E2 |- *. rewrite E2. cbn [mbind option_bind].
    apply (IH f2 q2 (p :: dn)); [done|done|done|by etrans|done|done| |simpl; lia].
    intros s [->|Hs]%elem_of_cons; [|by apply Hdn]. by apply eqb_false_iff in E.
Qed.

Section Reachable.
Context `{allocator, !alloc_total}.

(** The search ends, leaves the automaton as it was with the flags clear, and
    finds whether a reachable state satisfies the predicate ([any]) or all of
    them do. *)
Lemma fsm_reachable_spec f state any predicate :
  fsm_wf f → ids_fit f → live f state → stable_pred predicate →
  ∃ r f', fsm_reachable f state any predicate = Some (Z.b2z r, f') ∧ same_graph f f' ∧ flags f' [] ∧
    (r = any ↔ ∃ t, rtc (f_step f) state t ∧ predicate f t = any).
Proof.
  intros Hwf Hfit Hs Hst. destruct (clear_visited_spec f Hwf) as [Hsg Hfl].
  unfold fsm_reachable. set (f1 := clear_visited f) in *. rewrite f_malloc_total.
  pose proof (same_graph_wf _ _ Hsg Hwf) as Hwf1.
  assert (live f1 state) as Hs1 by (by rewrite (same_graph_live f)).
  assert (f_statecount (upd_state f1 state (set_visited true)) = f_statecount f) as -> by apply Hsg.
  destruct (reachable_loop_spec predicate any state f (f_statecount f + 1)
    (upd_state f1 state (set_visited true)) [state] []) as (r & f2 & -> & H1 & H2); [done|done|done| | | |by intros s ?%not_elem_of_nil|simpl; lia|].
  - etrans; [done|apply same_graph_visited].
  - by apply search_start.
  - by apply flags_mark.
  - cbn [mbind option_bind]. destruct (clear_visited_spec f2) as [K1 K2]; [by eapply same_graph_wf|].
    exists r, (clear_visited f2). split_and!; [done|by etrans|done|done].
Qed.

Lemma fsm_isend_stable : stable_pred fsm_isend.
Proof. intros f f' s Hs. unfold fsm_isend. by destruct (same_graph_state _ _ s Hs) as (_ & _ & -> & _). Qed.

Lemma empty_decides f s :
  fsm_wf f → ids_fit f → fsm_getstart f = Some s →
  ∃ r f', fsm_empty f = Some (r, f') ∧ same_graph f f' ∧ flags f' [] ∧
    (r = 1%Z ∧ (∀ w, ¬ language f w) ∨ r = 0%Z ∧ ∃ w, language f w).
Proof.
  intros Hwf Hfit Hs. pose proof (wf_start _ Hwf s Hs) as Hl. unfold fsm_empty, fsm_reachableany. rewrite Hs.
  destruct (fsm_reachable_spec f s true fsm_isend Hwf Hfit Hl fsm_isend_stable) as (r & f' & -> & H1 & H2 & H3).
  cbn [mbind option_bind]. eexists _, f'. split_and!; [done|done|done|].
  assert (∀ t, rtc (f_step f) s t → live f t) as Hlt.
  { clear -Hwf Hl. induction 1 as [|x y z Hx Hy IH]; [done|]. apply IH. by eapply f_step_live. }
  destruct r; cbn; [right|left]; (split; [done|]).
  - destruct (proj1 H3 eq_refl) as (t & Ht & He). pose proof (Hlt t Ht) as Htl.
    apply f_step_rtc_path in Ht as [w Hw]. exists w. exists s, t. done.
  - intros w (s' & t & Hs' & Hp & [Htl He]). cbn in Hs'. rewrite Hs in Hs'. injection Hs' as <-.
    discriminate (proj2 H3). exists t. split; [|done]. apply f_step_rtc_path. eauto.
Qed.

(** ** Properties *)

(** C21. The predicates of pred/ say what their names do, of the transitions of the
    automaton: [fsm_iscomplete] that every symbol has a transition,
    [fsm_hasnondeterminism] that two transitions out of the epsilon closure
    share a symbol (it always ends, the recursion bounded by the number of
    states), and [fsm_all] with [fsm_isdfa] that the automaton is
    deterministic. *)
Theorem state_predicates_spec f s :
  fsm_wf f → live f s →
  (fsm_hasepsilons f s = true ↔ ∃ t, f_eps f s t) ∧
  (fsm_hasoutgoing f s = true ↔ ∃ t, f_step f s t) ∧
  (fsm_epsilonsonly f s = true ↔ (∃ t, f_eps f s t) ∧ ∀ c t, ¬ f_edge f s c t) ∧
  (fsm_hasincoming f s = true ↔ ∃ t, f_step f t s) ∧
  (∃ b, fsm_iscomplete f s = Some b ∧ (b = true ↔ ∀ c, c < 256 → ∃ t, f_edge f s c t)) ∧
  (∃ r, fsm_hasnondeterminism f s = Some (Z.b2z r) ∧
    (r = true ↔ ∃ s1 s2 c t t', conflict f (rtc (f_eps f) s) s1 s2 c t t')) ∧
  (fsm_all f fsm_isdfa = true ↔ deterministic (nfa_of f) ∧ is_Some (fsm_getstart f)).
Proof.
  intros Hwf Hs. pose proof (no_eps_empty f s Hs) as He. pose proof (no_edge_empty f s Hwf Hs) as Hd.
  assert (state_set_empty (st_epsilons (get_state f s)) = false ↔ ∃ t, f_eps f s t) as He'.
  { unfold f_eps, ss_has. destruct (st_epsilons (get_state f s)) as [|x|al [|x l] n]; split; try done;
      try (intros (t & _ & []%not_elem_of_nil)); intros _; exists x; (split; [done|left]). }
  assert (edge_set_empty (st_edges (get_state f s)) = false ↔ ∃ c t, f_edge f s c t) as Hd'.
  { rewrite edge_set_nonempty by (by apply wf_edges). unfold f_edge. naive_solver. }
  split_and!.
  - unfold fsm_hasepsilons. by rewrite negb_true_iff.
  - unfold fsm_hasoutgoing, f_step. destruct (state_set_empty _), (edge_set_empty _); cbn [negb]; naive_solver.
  - unfold fsm_epsilonsonly. destruct (state_set_empty _), (edge_set_empty _); cbn [negb]; naive_solver.
  - rewrite fsm_hasincoming_spec by done. unfold f_step. naive_solver.
  - by apply fsm_iscomplete_spec.
  - by apply fsm_hasnondeterminism_spec.
  - rewrite fsm_all_isdfa by done. unfold live in Hs. split.
    + intros [Hdet [E|Hsome]]; [lia|done].
    + intros [Hdet Hsome]. split; [done|by right].
Qed.

(** [fsm_empty] reports 1 exactly when the automaton matches no string at all
    and 0 exactly when it matches one, for automata with a start state, and
    leaves the automaton unchanged up to visited flags, which end up clear. *)
Theorem fsm_empty_spec f s :
  fsm_wf f → ids_fit f → fsm_getstart f = Some s →
  ∃ r f', fsm_empty f = Some (r, f') ∧ same_graph f f' ∧ flags f' [] ∧
    (r = 1%Z ∧ (∀ w, ¬ language f w) ∨ r = 0%Z ∧ ∃ w, language f w).
Proof. apply empty_decides. Qed.
End Reachable.

Lemma state_predicates_spec_witness :
  fsm_all (@build_from_new always sample_ops) fsm_isdfa = true ∧
  @fsm_hasnondeterminism always (@build_from_new always sample_ops) 1 = Some 0%Z.
Proof.
  destruct (@state_predicates_spec always always_total (@build_from_new always sample_ops) 1%N
    ltac:(by_compute) ltac:(by_compute)) as (_ & _ & _ & _ & _ & (r & H1 & H2) & H3).
  split; [vm_compute; reflexivity|]. rewrite H1. destruct r; [|reflexivity].
  exfalso. vm_compute in H1. discriminate H1.
Defined.

Lemma fsm_empty_spec_witness :
  ∃ f', @fsm_empty always (@build_from_new always sample_ops) = Some (0%Z, f') ∧
    ∃ w, language (@build_from_new always sample_ops) w.
Proof.
  destruct (@fsm_empty_spec always always_total (@build_from_new always sample_ops) 0%N
    ltac:(by_compute) ltac:(by_compute) eq_refl) as (r & f' & H1 & _ & _ & [[-> _]|[-> H2]]).
  - exfalso. vm_compute in H1. discriminate H1.
  - exists f'. split; [exact H1|exact H2].
Defined.
