(* ===== verification/Trim.v ===== *)
(** * Trimming: src/libfsm/trim.c

    [fsm_trim] marks the states on a path from the start state, or the ones
    from which an end state can also be reached, and sweeps the others away
    with [fsm_compact_states]. The marks are the [visited] flags, which are
    assumed clear on entry. [None] stands for a failed assertion or an access
    out of bounds, and for a search that [fuel] iterations do not finish. *)

From S2P Require Import Prelude StateSet Bits EdgeSet EdgeIter EdgeCompact Probe Endids EagerOutput.
From S2P Require Import Lang Fsm FsmSpec Queue Search FsmCompact FsmInv Pred.

Definition DEF_EDGES_CEIL : nat := 8.
Definition DEF_ENDS_CEIL : nat := 8.
Definition NO_END_DISTANCE : N := 4294967295.

Inductive fsm_trim_mode := FSM_TRIM_START_REACHABLE | FSM_TRIM_START_AND_END_REACHABLE.

Record edge := mk_edge { e_from : N; e_to : N }.

#[export] Instance edge_eq_dec : EqDecision edge.
Proof. solve_decision. Defined.
#[export] Instance edge_inhabited : Inhabited edge := populate (mk_edge 0 0).

(** An array that is grown by doubling, with the entries in use. *)
Record growing (A : Type) := mk_growing { g_items : list A; g_ceil : nat }.
Arguments mk_growing {A}.
Arguments g_items {A}.
Arguments g_ceil {A}.

(** What the first walk works on; [edges] and [ends] are NULL when only the
    start state matters. *)
Record mark_state := mk_mark {
  ms_fsm : fsm;
  ms_queue : queue;
  ms_edges : option (growing edge);
  ms_ends : option (growing N);
}.

(** The order [cmp_edges_by_to] sorts by. *)
Definition cmp_edges_by_to (a b : edge) : Z :=
  if (e_to a <? e_to b)%N then -1
  else if (e_to b <? e_to a)%N then 1
  else if (e_from a <? e_from b)%N then -1
  else if (e_from b <? e_from a)%N then 1
  else 0.

Definition edges_by_to (a b : edge) : Prop := (cmp_edges_by_to a b ≤ 0)%Z.
#[export] Instance edges_by_to_dec a b : Decision (edges_by_to a b).
Proof. unfold edges_by_to. apply _. Defined.

Section Ops.
Context `{allocator}.

Definition grow_ends (al : fsm_alloc) (g : growing N) : bool * growing N :=
  let nceil := 2 * g_ceil g in
  if f_realloc al (N.of_nat nceil * 4) then (true, mk_growing (g_items g) nceil) else (false, g).

Definition save_edge (al : fsm_alloc) (g : growing edge) (from to : N) : bool * growing edge :=
  let '(ok, g) :=
    if length (g_items g) =? g_ceil g then
      let nceil := 2 * g_ceil g in
      if f_realloc al (N.of_nat nceil * 8) then (true, mk_growing (g_items g) nceil) else (false, g)
    else (true, g) in
  if ok then (true, mk_growing (g_items g ++ [mk_edge from to]) (g_ceil g)) else (false, g).

(** [ends[end_count] = s_id] *)
Definition save_end (al : fsm_alloc) (g : growing N) (s_id : N) : bool * growing N :=
  let '(ok, g) := if length (g_items g) =? g_ceil g then grow_ends al g else (true, g) in
  if ok then (true, mk_growing (g_items g ++ [s_id]) (g_ceil g)) else (false, g).

(** The loop over the successors of [s_id], by epsilon transitions or by
    labelled edges. *)
Fixpoint mark_nexts (l : list N) (s_id : N) (m : mark_state) : option (bool * mark_state) :=
  match l with
  | [] => Some (true, m)
  | next :: l =>
      let f := ms_fsm m in
      if (next <? N.of_nat (f_statecount f))%N then
        let '(ok, f, q) :=
          if visited f next then (true, f, ms_queue m)
          else
            let '(ok, q) := queue_push (ms_queue m) next in
            if ok then (true, upd_state f next (set_visited true), q) else (false, f, q) in
        let m := mk_mark f q (ms_edges m) (ms_ends m) in
        if (ok : bool) then
          match ms_edges m with
          | None => mark_nexts l s_id m
          | Some g =>
              let '(ok, g) := save_edge (f_alloc f) g s_id next in
              let m := mk_mark f q (Some g) (ms_ends m) in
              if ok then mark_nexts l s_id m else Some (false, m)
          end
        else Some (false, m)
      else None
  end.

Definition mark_visit (s_id : N) (m : mark_state) : option (bool * mark_state) :=
  let f := ms_fsm m in
  if (s_id <? N.of_nat (f_statecount f))%N && visited f s_id then
    let '(ok, m) :=
      match ms_ends m with
      | Some g =>
          if fsm_isend f s_id then
            let '(ok, g) := save_end (f_alloc f) g s_id in
            (ok, mk_mark f (ms_queue m) (ms_edges m) (Some g))
          else (true, m)
      | None => (true, m)
      end in
    if (ok : bool) then
      '(ok, m) ← mark_nexts (state_loop (st_epsilons (get_state f s_id))) s_id m;
      if (ok : bool) then mark_nexts (egii_to <$> group_loop (st_edges (get_state f s_id))) s_id m
      else Some (false, m)
    else Some (false, m)
  else None.

Fixpoint mark_loop (fuel : nat) (m : mark_state) : option (bool * mark_state) :=
  match fuel with
  | 0 => None
  | S fuel =>
      match queue_pop (ms_queue m) with
      | None => Some (true, m)
      | Some (s_id, q) =>
          '(ok, m) ← mark_visit s_id (mk_mark (ms_fsm m) q (ms_edges m) (ms_ends m));
          if (ok : bool) then mark_loop fuel m else Some (false, m)
      end
  end.

(** Seeding the queue with the end states. *)
Fixpoint seed_ends (l : list N) (f : fsm) (q : queue) (sed : option (list N))
    : option (bool * fsm * queue * option (list N)) :=
  match l with
  | [] => Some (true, f, q, sed)
  | end_id :: l =>
      if (end_id <? N.of_nat (f_statecount f))%N then
        let '(ok, q) := queue_push q end_id in
        if ok then
          seed_ends l (upd_state f end_id (set_visited true)) q ((λ sed, <[N.to_nat end_id := 0%N]> sed) <$> sed)
        else Some (false, f, q, sed)
      else None
  end.

(** The offset table: the index after the last edge to each state, then the
    gaps up to [max_to]. *)
Definition set_offsets (edges : list edge) (n : nat) : list nat :=
  foldl (λ offsets '(i, e), <[N.to_nat (e_to e) := i + 1]> offsets) (replicate n 0) (imap pair edges).

Definition fill_gap (offsets : list nat) (i : nat) : list nat :=
  if (0 <? i) && (offsets !!! i =? 0) then <[i := offsets !!! (i - 1)]> offsets else offsets.

Definition build_offsets (edges : list edge) (n max_to : nat) : list nat :=
  foldl fill_gap (set_offsets edges n) (seq 0 (max_to + 1)).

(** The edges that lead to a state. *)
Definition edges_to (edges : list edge) (offsets : list nat) (s_id : N) : list edge :=
  let base := if (s_id =? 0)%N then 0 else offsets !!! (N.to_nat s_id - 1) in
  let limit := offsets !!! N.to_nat s_id in
  take (limit - base) (drop base edges).

(** The loop over them. *)
Fixpoint mark_froms (l : list edge) (s_id : N) (f : fsm) (q : queue) (sed : option (list N))
    : option (bool * fsm * queue * option (list N)) :=
  match l with
  | [] => Some (true, f, q, sed)
  | e :: l =>
      let from := e_from e in
      if (from <? N.of_nat (f_statecount f))%N then
        let sed :=
          match sed with
          | None => None
          | Some d =>
              let end_distance := d !!! N.to_nat s_id in
              if (d !!! N.to_nat from =? NO_END_DISTANCE)%N || (end_distance <? d !!! N.to_nat from)%N then
                Some (<[N.to_nat from := (end_distance +32 1)%cint]> d)
              else Some d
          end in
        if visited f from then mark_froms l s_id f q sed
        else
          let f := upd_state f from (set_visited true) in
          let '(ok, q) := queue_push q from in
          if ok then mark_froms l s_id f q sed else Some (false, f, q, sed)
      else None
  end.

Fixpoint mark_back_loop (fuel : nat) (edges : list edge) (offsets : list nat) (f : fsm) (q : queue) (sed : option (list N))
    : option (bool * fsm * option (list N)) :=
  match fuel with
  | 0 => None
  | S fuel =>
      match queue_pop q with
      | None => Some (true, f, sed)
      | Some (s_id, q) =>
          if visited f s_id then
            '(ok, f, q, sed) ← mark_froms (edges_to edges offsets s_id) s_id f q sed;
            if (ok : bool) then mark_back_loop fuel edges offsets f q sed else Some (false, f, sed)
          else None
      end
  end.

(** The second walk, from the end states against the edges. *)
Definition mark_back (f : fsm) (q : queue) (edges : list edge) (ends : list N) (sed : option (list N))
    : option (bool * fsm * option (list N)) :=
  let f := clear_visited f in
  let edges := merge_sort edges_by_to edges in
  '(ok, f, q, sed) ← seed_ends ends f q sed;
  if (ok : bool) then
    match last edges with
    | None => Some (true, f, sed)
    | Some e =>
        let max_to := e_to e in
        let offset_count := N.to_nat (fsm_countstates f) in
        if f_calloc (f_alloc f) (N.of_nat offset_count) 8 then
          if N.to_nat max_to <? offset_count then
            let offsets := build_offsets edges offset_count (N.to_nat max_to) in
            if offsets !!! N.to_nat max_to =? length edges then
              mark_back_loop (f_statecount f + 1) edges offsets f q sed
            else None
          else None
        else Some (false, f, sed)
    end
  else Some (false, f, sed).

Definition mark_states (f : fsm) (mode : fsm_trim_mode) (sed : option (list N))
    : option (bool * fsm * option (list N)) :=
  match fsm_getstart f with
  | None => Some (true, f, sed)
  | Some start =>
      match queue_new (f_alloc f) (f_statecount f) with
      | None => Some (false, f, sed)
      | Some q =>
          let '(ok, edges, ends) :=
            match mode with
            | FSM_TRIM_START_AND_END_REACHABLE =>
                if f_malloc (f_alloc f) (N.of_nat DEF_EDGES_CEIL * 8) then
                  if f_malloc (f_alloc f) (N.of_nat DEF_ENDS_CEIL * 4) then
                    (true, Some (mk_growing [] DEF_EDGES_CEIL), Some (mk_growing [] DEF_ENDS_CEIL))
                  else (false, None, None)
                else (false, None, None)
            | FSM_TRIM_START_REACHABLE => (true, None, None)
            end in
          if (ok : bool) then
            let f := upd_state f start (set_visited true) in
            let '(ok, q) := queue_push q start in
            if ok then
              '(ok, m) ← mark_loop (f_statecount f + 1) (mk_mark f q edges ends);
              if (ok : bool) then
                match mode with
                | FSM_TRIM_START_REACHABLE => Some (true, ms_fsm m, sed)
                | FSM_TRIM_START_AND_END_REACHABLE =>
                    mark_back (ms_fsm m) (ms_queue m) (default [] (g_items <$> ms_edges m))
                      (default [] (g_items <$> ms_ends m)) sed
                end
              else Some (false, ms_fsm m, sed)
            else Some (false, f, sed)
          else Some (false, f, sed)
      end
  end.

(** The marks as a filter, read while [fsm_compact_states] builds the
    mapping, before it changes any state's flag. *)
Definition marks_filter_cb (f : fsm) (id : N) : bool := visited f id.

Definition sweep_states (f : fsm) : option (Z * fsm) :=
  '(ok, f, swept) ← fsm_compact_states f (marks_filter_cb f);
  Some (if (ok : bool) then Z.of_nat swept else (-1)%Z, f).

Fixpoint compact_sed_loop (l : list N) (f : fsm) (dst : nat) (sed : list N) : option (list N) :=
  match l with
  | [] => Some sed
  | src :: l =>
      if visited f src then
        let sed := if dst <? N.to_nat src then <[dst := sed !!! N.to_nat src]> sed else sed in
        compact_sed_loop l f (dst + 1) sed
      else if (sed !!! N.to_nat src =? NO_END_DISTANCE)%N then compact_sed_loop l f dst sed
      else None
  end.

Definition compact_shortest_end_distance (f : fsm) (sed : list N) : option (list N) :=
  compact_sed_loop (live_ids f) f 0 sed.

(** The result is the return value, the automaton and what is stored through
    [shortest_end_distance], which is NULL if [want_sed] is false. *)
Definition fsm_trim (f : fsm) (mode : fsm_trim_mode) (want_sed : bool) : option (Z * fsm * option (list N)) :=
  if f_statecount f =? 0 then Some (1%Z, f, None)
  else
    let '(ok, sed) :=
      match want_sed, mode with
      | true, FSM_TRIM_START_AND_END_REACHABLE =>
          if f_malloc (f_alloc f) (N.of_nat (f_statecount f) * 4) then
            (true, Some (replicate (f_statecount f) NO_END_DISTANCE))
          else (false, None)
      | _, _ => (true, None)
      end in
    if (ok : bool) then
      '(ok, f, sed) ← mark_states f mode sed;
      if (ok : bool) then
        sed ← match sed with None => Some None | Some d => Some <$> compact_shortest_end_distance f d end;
        '(ret, f) ← sweep_states f;
        let f := clear_visited f in
        if (ret <? 0)%Z then Some (ret, f, None) else Some (ret, f, sed)
      else Some ((-1)%Z, f, None)
    else Some ((-1)%Z, f, None).
End Ops.

(** ** Lemmas: the first walk *)

(** The arrays grow by what was saved, or stay NULL. *)
Definition appended {A} (o o' : option (growing A)) (l : list A) : Prop :=
  match o, o' with
  | None, None => True
  | Some g, Some g' => g_items g' = g_items g ++ l
  | _, _ => False
  end.

Lemma appended_nil {A} (o : option (growing A)) : appended o o [].
Proof. destruct o; [|done]. cbn. by rewrite app_nil_r. Qed.

Lemma appended_trans {A} (o1 o2 o3 : option (growing A)) l l' :
  appended o1 o2 l → appended o2 o3 l' → appended o1 o3 (l ++ l').
Proof. destruct o1, o2, o3; cbn; try done. intros -> ->. by rewrite app_assoc. Qed.

Section Forward.
Context `{allocator, !alloc_total} (f0 : fsm) (root : N).
Hypothesis Hwf : fsm_wf f0.

(** The walk with [p] the state being visited: [dn] the states that are
    done. *)
Record walking (p : N) (dn : list N) (m : mark_state) : Prop := {
  wk_graph : same_graph f0 (ms_fsm m);
  wk_queue : queue_wf (ms_queue m);
  wk_cap : q_capacity (ms_queue m) = f_statecount f0;
  wk_inv : search_inv (f_step f0) (f_statecount f0) root dn (p :: queue_elems (ms_queue m));
  wk_flags : flags (ms_fsm m) (dn ++ p :: queue_elems (ms_queue m));
}.

Lemma save_edge_spec al g from to :
  ∃ g', save_edge al g from to = (true, g') ∧ g_items g' = g_items g ++ [mk_edge from to].
Proof. unfold save_edge. rewrite f_realloc_total. destruct (_ =? _); eauto. Qed.

Lemma save_end_spec al g s : ∃ g', save_end al g s = (true, g') ∧ g_items g' = g_items g ++ [s].
Proof. unfold save_end, grow_ends. rewrite f_realloc_total. destruct (_ =? _); eauto. Qed.

(** One successor, before its edge is saved. *)
Lemma mark_next_spec p dn m next :
  walking p dn m → f_step f0 p next →
  ∃ f' q', (if visited (ms_fsm m) next then (true, ms_fsm m, ms_queue m)
     else let '(ok, q) := queue_push (ms_queue m) next in
       if ok then (true, upd_state (ms_fsm m) next (set_visited true), q) else (false, ms_fsm m, q)) = (true, f', q') ∧
    (∀ oe os, walking p dn (mk_mark f' q' oe os)) ∧ next ∈ dn ++ p :: queue_elems q' ∧
    (∀ t, t ∈ dn ++ p :: queue_elems (ms_queue m) → t ∈ dn ++ p :: queue_elems q').
Proof.
  intros Hw Hst. destruct Hw as [H1 H2 H3 H4 H5].
  assert (live f0 next) as Hl0 by (by eapply f_step_live).
  assert (live (ms_fsm m) next) as Hl by (by rewrite (same_graph_live f0)).
  pose proof (H5 next Hl) as Hv. destruct (visited (ms_fsm m) next).
  { eexists _, _. split; [done|]. split; [done|]. split; [by apply Hv|done]. }
  pose proof (search_bound _ _ _ _ _ H4) as Hb. simpl in Hb.
  destruct (queue_push_room (ms_queue m) next H2 ltac:(lia)) as [q1 Hpush]. rewrite Hpush.
  destruct (queue_push_spec _ _ _ _ H2 Hpush) as (Hq1 & Hc1 & He1 & _). specialize (He1 eq_refl).
  assert (p :: queue_elems q1 ≡ₚ next :: p :: queue_elems (ms_queue m)) as Hperm.
  { rewrite He1, (Permutation_app_comm _ [next]). simpl. constructor. }
  eexists _, _. split; [done|]. split; [|split].
  - intros oe os. split; cbn.
    + etrans; [done|apply same_graph_visited].
    + done.
    + congruence.
    + eapply search_perm; [symmetry; exact Hperm|]. eapply (search_push _ _ _ _ _ p); [done| |done|done|].
      * apply elem_of_app. right. left.
      * intros Hin. discriminate (proj2 Hv Hin).
    + eapply flags_perm; [|apply flags_mark; [by eapply same_graph_wf|done|done]].
      rewrite Hperm. by rewrite Permutation_middle.
  - rewrite Hperm. set_solver.
  - intros t Ht. rewrite Hperm. set_solver.
Qed.

Lemma mark_nexts_spec p dn l : ∀ m,
  walking p dn m → (∀ t, t ∈ l → f_step f0 p t) →
  ∃ m', mark_nexts l p m = Some (true, m') ∧ walking p dn m' ∧
    (∀ t, t ∈ l → t ∈ dn ++ p :: queue_elems (ms_queue m')) ∧
    (∀ t, t ∈ dn ++ p :: queue_elems (ms_queue m) → t ∈ dn ++ p :: queue_elems (ms_queue m')) ∧
    appended (ms_edges m) (ms_edges m') (mk_edge p <$> l) ∧ ms_ends m' = ms_ends m.
Proof.
  induction l as [|next l IH]; intros m Hw Hl; cbn [mark_nexts].
  { exists m. split; [done|]. split; [done|]. split; [by intros t ?%not_elem_of_nil|]. split; [done|].
    split; [apply appended_nil|done]. }
  assert (f_step f0 p next) as Hst by (apply Hl; left).
  pose proof (f_step_live _ _ _ Hwf Hst) as Hlive.
  replace (next <? N.of_nat (f_statecount (ms_fsm m)))%N with true.
  2: { symmetry. apply N.ltb_lt. destruct (wk_graph _ _ _ Hw) as (-> & _). unfold live in Hlive. lia. }
  destruct (mark_next_spec p dn m next Hw Hst) as (f1 & q1 & -> & Hw1 & Hin & Hmono). cbn [ms_edges ms_ends].
  assert (∀ m1, ms_queue m1 = q1 → ms_fsm m1 = f1 → ms_ends m1 = ms_ends m →
    appended (ms_edges m) (ms_edges m1) [mk_edge p next] →
    ∃ m', mark_nexts l p m1 = Some (true, m') ∧ walking p dn m' ∧
      (∀ t, t ∈ next :: l → t ∈ dn ++ p :: queue_elems (ms_queue m')) ∧
      (∀ t, t ∈ dn ++ p :: queue_elems (ms_queue m) → t ∈ dn ++ p :: queue_elems (ms_queue m')) ∧
      appended (ms_edges m) (ms_edges m') (mk_edge p <$> next :: l) ∧ ms_ends m' = ms_ends m) as Hk.
  { intros [f2 q2 e2 s2] E1 E2 E3 Happ. cbn in *. subst f2 q2.
    destruct (IH (mk_mark f1 q1 e2 s2)) as (m' & -> & K1 & K2 & K3 & K4 & K5); [apply Hw1|intros; apply Hl; by right|].
    cbn in *. exists m'. split; [done|]. split; [done|]. split; [|split; [|split]].
    - intros t [->|Ht]%elem_of_cons; auto.
    - auto.
    - by apply (appended_trans _ e2 _ [mk_edge p next] (mk_edge p <$> l)).
    - congruence. }
  destruct (ms_edges m) as [g|] eqn:Eg.
  - destruct (save_edge_spec (f_alloc f1) g p next) as (g' & -> & Hg'). by apply Hk.
  - by apply Hk.
Qed.

(** The edges and the end states noted so far are those of the states that
    are done. *)
Record walked (dn : list N) (m : mark_state) : Prop := {
  wd_graph : same_graph f0 (ms_fsm m);
  wd_queue : queue_wf (ms_queue m);
  wd_cap : q_capacity (ms_queue m) = f_statecount f0;
  wd_inv : search_inv (f_step f0) (f_statecount f0) root dn (queue_elems (ms_queue m));
  wd_flags : flags (ms_fsm m) (dn ++ queue_elems (ms_queue m));
  wd_edges g e : ms_edges m = Some g → e ∈ g_items g ↔ e_from e ∈ dn ∧ f_step f0 (e_from e) (e_to e);
  wd_ends g : ms_ends m = Some g → NoDup (g_items g) ∧ ∀ s, s ∈ g_items g ↔ s ∈ dn ∧ fsm_isend f0 s = true;
}.

Lemma elem_of_nexts s t :
  live f0 s →
  t ∈ state_loop (st_epsilons (get_state f0 s)) ++ (egii_to <$> group_loop (st_edges (get_state f0 s))) ↔ f_step f0 s t.
Proof.
  intros Hs. rewrite elem_of_app, state_loop_elems. pose proof (elem_of_group_loop (st_edges (get_state f0 s)) t) as Hg.
  rewrite list_elem_of_fmap. unfold f_step, f_edge, f_eps, ss_has.
  assert (edge_set_wf (st_edges (get_state f0 s))) as He by (by apply wf_edges). specialize (Hg He). naive_solver.
Qed.

Lemma mark_visit_spec p dn m :
  walking p dn m →
  (∀ g e, ms_edges m = Some g → e ∈ g_items g ↔ e_from e ∈ dn ∧ f_step f0 (e_from e) (e_to e)) →
  (∀ g, ms_ends m = Some g → NoDup (g_items g) ∧ ∀ s, s ∈ g_items g ↔ s ∈ dn ∧ fsm_isend f0 s = true) →
  ∃ m', mark_visit p m = Some (true, m') ∧ walked (p :: dn) m' ∧
    (ms_edges m' = None ↔ ms_edges m = None) ∧ (ms_ends m' = None ↔ ms_ends m = None).
Proof.
  intros Hw Hes Hns. assert (p ∈ dn ++ p :: queue_elems (ms_queue m)) as Hpin by set_solver.
  pose proof (wk_inv _ _ _ Hw) as Hinv. assert (live f0 p) as Hp by (by apply (se_lt _ _ _ _ _ Hinv)).
  pose proof (wk_graph _ _ _ Hw) as Hsg. unfold mark_visit.
  replace (_ && _) with true.
  2: { symmetry. apply andb_true_iff. split.
       - apply N.ltb_lt. destruct Hsg as (-> & _). unfold live in Hp. lia.
       - apply (wk_flags _ _ _ Hw); [by rewrite (same_graph_live f0)|done]. }
  destruct (same_graph_state _ _ p Hsg) as (Eed & Eep & Een & _).
  assert (∃ m1, (match ms_ends m with
      | Some g => if fsm_isend (ms_fsm m) p then
          let '(ok, g) := save_end (f_alloc (ms_fsm m)) g p in (ok, mk_mark (ms_fsm m) (ms_queue m) (ms_edges m) (Some g))
        else (true, m)
      | None => (true, m) end) = (true, m1) ∧ ms_fsm m1 = ms_fsm m ∧ ms_queue m1 = ms_queue m ∧ ms_edges m1 = ms_edges m ∧
    appended (ms_ends m) (ms_ends m1) (if fsm_isend f0 p then [p] else [])) as (m1 & -> & E1 & E2 & E3 & E4).
  { replace (fsm_isend (ms_fsm m) p) with (fsm_isend f0 p) by (by unfold fsm_isend; rewrite Een).
    destruct (ms_ends m) as [g|] eqn:Eg.
    - destruct (fsm_isend f0 p).
      + destruct (save_end_spec (f_alloc (ms_fsm m)) g p) as (g' & -> & Hg'). eexists. split; [done|]. by cbn.
      + exists m. split; [done|]. split; [done|]. split; [done|]. split; [done|]. rewrite Eg. apply (appended_nil (Some g)).
    - exists m. split; [done|]. split; [done|]. split; [done|]. split; [done|]. by rewrite Eg. }
  rewrite Eep, Eed.
  assert (∀ t, t ∈ state_loop (st_epsilons (get_state f0 p)) ++ (egii_to <$> group_loop (st_edges (get_state f0 p))) → f_step f0 p t) as Hn
    by (intros t; by apply elem_of_nexts).
  destruct (mark_nexts_spec p dn (state_loop (st_epsilons (get_state f0 p))) m1) as (m2 & -> & A1 & A2 & A3 & A4 & A5).
  { destruct m1; cbn in *. subst. by destruct Hw. }
  { intros t Ht. apply Hn, elem_of_app. by left. }
  cbn [mbind option_bind].
  destruct (mark_nexts_spec p dn (egii_to <$> group_loop (st_edges (get_state f0 p))) m2) as (m3 & -> & B1 & B2 & B3 & B4 & B5).
  { done. }
  { intros t Ht. apply Hn, elem_of_app. by right. }
  pose proof (appended_trans _ _ _ _ _ A4 B4) as Happ. rewrite <-fmap_app, E3 in Happ.
  exists m3. split; [done|]. split; [|split].
  - destruct B1 as [K1 K2 K3 K4 K5]. split; try done.
    + apply search_done; [done|]. intros t [Ht|Ht]%(elem_of_nexts p t Hp)%elem_of_app; auto.
    + eapply flags_perm; [|done]. by rewrite <-Permutation_middle.
    + intros g e Hg. rewrite Hg in Happ. destruct (ms_edges m) as [g0|] eqn:Eg; [|done]. cbn in Happ.
      rewrite Happ, elem_of_app, (Hes g0 e eq_refl), list_elem_of_fmap, elem_of_cons. setoid_rewrite (elem_of_nexts p); [|done].
      destruct e as [a b]; cbn. split; [intros [?|(t & [= -> ->] & ?)]; naive_solver|].
      intros [[->|?] ?]; [right; eauto|by left].
    + intros g Hg. rewrite B5, A5 in Hg. rewrite Hg in E4. destruct (ms_ends m) as [g0|] eqn:Eg; [|done]. cbn in E4.
      destruct (Hns g0 eq_refl) as [Hnd Hin]. rewrite E4.
      assert (p ∉ g_items g0) as Hni.
      { rewrite Hin. intros [Hd _]. pose proof (se_nodup _ _ _ _ _ Hinv) as Hnd'.
        rewrite <-Permutation_middle in Hnd'. apply NoDup_cons in Hnd' as [Hx _]. apply Hx, elem_of_app. by left. }
      split.
      * apply NoDup_app. split; [done|]. split; [|destruct (fsm_isend f0 p); repeat constructor; apply not_elem_of_nil].
        intros x Hx Hx'. destruct (fsm_isend f0 p); [|by apply not_elem_of_nil in Hx'].
        apply list_elem_of_singleton in Hx' as ->. done.
      * intros s. rewrite elem_of_app, Hin, elem_of_cons. destruct (fsm_isend f0 p) eqn:Ee.
        -- rewrite list_elem_of_singleton. naive_solver.
        -- split; [intros [?|?%not_elem_of_nil]; naive_solver|]. intros [[->|?] ?]; [congruence|by left].
  - destruct (ms_edges m), (ms_edges m3); done.
  - rewrite B5, A5. destruct (ms_ends m), (ms_ends m1); done.
Qed.

Lemma mark_loop_spec fuel : ∀ dn m,
  walked dn m → f_statecount f0 < fuel + length dn →
  ∃ m' dn', mark_loop fuel m = Some (true, m') ∧ walked dn' m' ∧ queue_elems (ms_queue m') = [] ∧
    (ms_edges m' = None ↔ ms_edges m = None) ∧ (ms_ends m' = None ↔ ms_ends m = None).
Proof.
  induction fuel as [|fuel IH]; intros dn m Hw Hf.
  { pose proof (search_bound _ _ _ _ _ (wd_inv _ _ Hw)). lia. }
  cbn [mark_loop]. pose proof (queue_pop_spec _ (wd_queue _ _ Hw)) as Hpop.
  destruct (queue_pop (ms_queue m)) as [[p q]|].
  - destruct Hpop as (K1 & K2 & K3). destruct Hw as [W1 W2 W3 W4 W5 W6 W7]. rewrite K3 in W4, W5.
    destruct (mark_visit_spec p dn (mk_mark (ms_fsm m) q (ms_edges m) (ms_ends m))) as (m1 & -> & V1 & V2 & V3); [|done|done|].
    { split; cbn; try done. congruence. }
    cbn [mbind option_bind]. destruct (IH (p :: dn) m1 V1) as (m' & dn' & -> & L1 & L2 & L3 & L4); [simpl; lia|].
    exists m', dn'. rewrite L3, L4. done.
  - exists m, dn. done.
Qed.
End Forward.

(** ** Lemmas: the index of edges *)

Lemma edges_by_to_le a b : edges_by_to a b → (e_to a ≤ e_to b)%N.
Proof. unfold edges_by_to, cmp_edges_by_to. repeat case_match; split_bool; lia. Qed.

#[export] Instance edges_by_to_total : Total edges_by_to.
Proof. intros a b. unfold edges_by_to, cmp_edges_by_to. repeat case_match; split_bool; lia. Qed.
#[export] Instance edges_by_to_trans : Transitive edges_by_to.
Proof. intros a b c. unfold edges_by_to, cmp_edges_by_to. repeat case_match; split_bool; lia. Qed.

(** How many edges lead to the states up to [i]. *)
Definition upto (es : list edge) (i : nat) : nat := length (filter (λ e, N.to_nat (e_to e) ≤ i) es).

Lemma upto_index es j e i :
  StronglySorted edges_by_to es → es !! j = Some e → N.to_nat (e_to e) ≤ i ↔ j < upto es i.
Proof.
  unfold upto. intros Hs. revert j. induction Hs as [|x l Hl IH Hx]; intros j Hj; [done|].
  rewrite filter_cons. rewrite Forall_forall in Hx. destruct j as [|j].
  - injection Hj as ->. case_decide; [simpl; split; [lia|done]|]. split; [done|]. intros Hlt. exfalso.
    assert (filter (λ e, N.to_nat (e_to e) ≤ i) l = []) as E.
    { apply elem_of_nil_inv. intros y [Hy Hin]%list_elem_of_filter. specialize (Hx y Hin).
      apply edges_by_to_le in Hx. lia. }
    rewrite E in Hlt. simpl in Hlt. lia.
  - simpl in Hj. assert (N.to_nat (e_to x) ≤ N.to_nat (e_to e)) as Hle.
    { assert (e ∈ l) as Hin by (apply list_elem_of_lookup; eauto).
      specialize (Hx e Hin). apply edges_by_to_le in Hx. lia. }
    specialize (IH j Hj). case_decide; simpl; [rewrite IH; lia|]. split; [lia|]. intros Hj'.
    assert (N.to_nat (e_to e) ≤ i) by (apply IH; lia). lia.
Qed.

Lemma upto_app es e i : upto (es ++ [e]) i = upto es i + if decide (N.to_nat (e_to e) ≤ i) then 1 else 0.
Proof. unfold upto. rewrite filter_app, length_app, filter_cons, filter_nil. by case_decide. Qed.

Lemma upto_all es i : (∀ e, e ∈ es → N.to_nat (e_to e) ≤ i) → upto es i = length es.
Proof.
  intros Hall. unfold upto. induction es as [|x l IH]; [done|]. rewrite filter_cons, decide_True by (apply Hall; left).
  simpl. rewrite IH; [done|]. intros; apply Hall. by right.
Qed.

Lemma upto_gap es i : (∀ e, e ∈ es → N.to_nat (e_to e) ≠ S i) → upto es (S i) = upto es i.
Proof. intros Hno. apply length_filter_ext. intros e He. specialize (Hno e He). lia. Qed.

Lemma upto_none es : (∀ e, e ∈ es → N.to_nat (e_to e) ≠ 0) → upto es 0 = 0.
Proof.
  intros Hno. unfold upto. rewrite (elem_of_nil_inv (filter _ es)); [done|].
  intros y [Hy Hin]%list_elem_of_filter. specialize (Hno y Hin). lia.
Qed.

Definition leads (es : list edge) (i : nat) : Prop := Exists (λ e, N.to_nat (e_to e) = i) es.

Lemma leads_elem es i : leads es i ↔ ∃ e, e ∈ es ∧ N.to_nat (e_to e) = i.
Proof. apply Exists_exists. Qed.

(** Each state with an edge to it has the index after its last one. *)
Lemma set_offsets_spec es n :
  StronglySorted edges_by_to es → (∀ e, e ∈ es → N.to_nat (e_to e) < n) →
  length (set_offsets es n) = n ∧
  ∀ i, i < n → set_offsets es n !! i = Some (if decide (leads es i) then upto es i else 0).
Proof.
  unfold set_offsets. induction es as [|e es IH] using rev_ind; intros Hs Hlt.
  { split; [apply length_replicate|]. intros i Hi. cbn. by rewrite lookup_replicate_2. }
  apply StronglySorted_app in Hs as (Hle & Hs & _).
  assert (∀ e0, e0 ∈ es → (e_to e0 ≤ e_to e)%N) as Hle'.
  { intros e0 He0. apply edges_by_to_le, (Hle e0 e); [done|left]. }
  destruct IH as [IHl IH]; [done|intros; apply Hlt, elem_of_app; by left|].
  assert (N.to_nat (e_to e) < n) as He by (apply Hlt, elem_of_app; right; left).
  rewrite imap_app, foldl_app. cbn [imap foldl]. change (pair ∘ ?g) with (λ i, @pair nat edge (g i)).
  set (o := foldl _ _ (imap pair es)) in *.
  split; [cbn; by rewrite length_insert|]. intros i Hi. cbn.
  destruct (decide (N.to_nat (e_to e) = i)) as [<-|Hne].
  - rewrite list_lookup_insert_eq by lia. rewrite decide_True; [|apply leads_elem; exists e; split; [set_solver|done]].
    rewrite upto_all; [rewrite length_app; simpl; f_equal; lia|].
    intros e0 [He0| ->%list_elem_of_singleton]%elem_of_app; [specialize (Hle' e0 He0); lia|lia].
  - rewrite list_lookup_insert_ne by done. rewrite IH by done. f_equal.
    assert (leads (es ++ [e]) i ↔ leads es i) as Hl.
    { rewrite !leads_elem. split; [|intros (e0 & ? & ?); exists e0; set_solver].
      intros (e0 & [?| ->%list_elem_of_singleton]%elem_of_app & ?); [eauto|done]. }
    destruct (decide (leads es i)) as [H1|H1]; destruct (decide (leads (es ++ [e]) i)) as [H2|H2]; try tauto.
    rewrite upto_app, decide_False; [lia|]. apply leads_elem in H1 as (e0 & H0 & <-). specialize (Hle' e0 H0). lia.
Qed.

Lemma fill_gaps_spec es n o k :
  length o = n → (∀ i, i < n → o !! i = Some (if decide (leads es i) then upto es i else 0)) → k ≤ n →
  length (foldl fill_gap o (seq 0 k)) = n ∧
  ∀ i, i < n → foldl fill_gap o (seq 0 k) !! i =
    Some (if decide (i < k) then upto es i else if decide (leads es i) then upto es i else 0).
Proof.
  intros Hlen Ho. induction k as [|k IH]; intros Hk.
  { split; [done|]. intros i Hi. cbn [seq foldl]. rewrite decide_False by lia. auto. }
  destruct IH as [IHl IH]; [lia|]. rewrite seq_S, foldl_app. cbn [foldl].
  set (o1 := foldl fill_gap o (seq 0 k)) in *. unfold fill_gap.
  assert (o1 !!! k = if decide (leads es k) then upto es k else 0) as Hk0.
  { apply list_lookup_total_correct. rewrite IH by lia. by rewrite decide_False by lia. }
  rewrite Nat.add_0_l, Hk0.
  assert (¬ leads es k → ∀ e, e ∈ es → N.to_nat (e_to e) ≠ k) as Hno.
  { intros Hn e He E. apply Hn, leads_elem. eauto. }
  destruct ((0 <? k) && _) eqn:E.
  - apply andb_true_iff in E as [E1%Nat.ltb_lt E2%Nat.eqb_eq]. split; [by rewrite length_insert|]. intros i Hi.
    destruct (decide (i = k)) as [->|Hne].
    + rewrite list_lookup_insert_eq, (decide_True (P := k < S k)) by lia. f_equal.
      rewrite (list_lookup_total_correct _ _ (upto es (k - 1))).
      * destruct (decide (leads es k)) as [Hl|Hl].
        -- rewrite E2. symmetry in E2. destruct k as [|k]; [lia|]. cbn. rewrite Nat.sub_0_r.
           assert (upto es k ≤ upto es (S k)) as Hm; [|lia].
           unfold upto. clear. induction es as [|x l IH]; [done|]. rewrite !filter_cons. repeat case_decide; simpl; lia.
        -- destruct k as [|k]; [lia|]. rewrite upto_gap by auto. f_equal. lia.
      * rewrite IH, decide_True by lia. done.
    + rewrite list_lookup_insert_ne by done. rewrite IH by done. repeat case_decide; try done; lia.
  - split; [done|]. intros i Hi. rewrite IH by done. destruct (decide (i = k)) as [->|Hne].
    + rewrite decide_False, (decide_True (P := k < S k)) by lia. f_equal. case_decide as Hl; [done|].
      apply andb_false_iff in E as [E|E]; split_bool; [|done]. replace k with 0 in * by lia. symmetry. apply upto_none. auto.
    + repeat case_decide; try done; lia.
Qed.

Lemma build_offsets_spec es n max_to :
  StronglySorted edges_by_to es → (∀ e, e ∈ es → N.to_nat (e_to e) ≤ max_to) → max_to < n →
  length (build_offsets es n max_to) = n ∧
  ∀ i, i < n → build_offsets es n max_to !!! i = if decide (i ≤ max_to) then upto es i else 0.
Proof.
  intros Hs Hmax Hn. destruct (set_offsets_spec es n) as [Hl Ho]; [done|intros e He; specialize (Hmax e He); lia|].
  destruct (fill_gaps_spec es n (set_offsets es n) (max_to + 1)) as [Hl' Ho']; [done|done|lia|].
  split; [done|]. intros i Hi. apply list_lookup_total_correct. unfold build_offsets. rewrite Ho' by done. f_equal.
  repeat case_decide; try lia; try done. exfalso.
  match goal with H : leads es i |- _ => apply leads_elem in H as (e & He & <-) end. specialize (Hmax e He). lia.
Qed.

(** The entries between two offsets are the edges to one state. *)
Lemma elem_of_edges_to es n max_to s e :
  StronglySorted edges_by_to es → (∀ e, e ∈ es → N.to_nat (e_to e) ≤ max_to) → max_to < n → N.to_nat s < n →
  e ∈ edges_to es (build_offsets es n max_to) s ↔ e ∈ es ∧ e_to e = s.
Proof.
  intros Hs Hmax Hn Hsn. destruct (build_offsets_spec es n max_to) as [Hl Ho]; [done..|]. unfold edges_to.
  set (base := if (s =? 0)%N then 0 else build_offsets es n max_to !!! (N.to_nat s - 1)).
  rewrite Ho by done. destruct (decide (N.to_nat s ≤ max_to)) as [Hle|Hgt].
  2: { cbn [take Nat.sub]. split; [by intros ?%not_elem_of_nil|]. intros [He <-]. specialize (Hmax e He). lia. }
  assert (∀ j e, es !! j = Some e → j < base ↔ (e_to e < s)%N) as Hbase.
  { intros j e0 Hj. unfold base. destruct (s =? 0)%N eqn:E; split_bool; [lia|].
    rewrite Ho, decide_True by lia. rewrite <-(upto_index es j e0) by done. lia. }
  assert (∀ j e, es !! j = Some e → j < upto es (N.to_nat s) ↔ (e_to e ≤ s)%N) as Hlim.
  { intros j e0 Hj. rewrite <-(upto_index es j e0) by done. lia. }
  rewrite (list_elem_of_lookup (take _ _)), (list_elem_of_lookup es). split.
  - intros [j [Hj Hlt]%lookup_take_Some]. rewrite lookup_drop in Hj. split; [eauto|].
    specialize (Hbase _ _ Hj). specialize (Hlim _ _ Hj). lia.
  - intros [[j Hj] <-]. specialize (Hbase _ _ Hj). specialize (Hlim _ _ Hj).
    exists (j - base). apply lookup_take_Some. rewrite lookup_drop.
    replace (base + (j - base)) with j by lia. split; [done|]. lia.
Qed.

(** ** Lemmas: the second walk *)

Section Backward.
Context `{allocator, !alloc_total} (f0 : fsm) (es : list edge) (ends : list N).
Hypothesis Hwf : fsm_wf f0.
Hypothesis Hes : ∀ e, e ∈ es → live f0 (e_from e) ∧ live f0 (e_to e).
Hypothesis Hends : NoDup ends ∧ ∀ s, s ∈ ends → live f0 s.

(** Against the edges. *)
Definition back (t s : N) : Prop := mk_edge s t ∈ es.

(** The table of distances holds [D] for the states in [l]. *)
Definition sed_ok (D : N → nat) (l : list N) (sed : option (list N)) : Prop :=
  match sed with
  | None => True
  | Some d => length d = f_statecount f0 ∧
      ∀ s, live f0 s → d !!! N.to_nat s = if decide (s ∈ l) then N.of_nat (D s) else NO_END_DISTANCE
  end.

Lemma sed_ok_perm D l l' sed : l ≡ₚ l' → sed_ok D l sed → sed_ok D l' sed.
Proof.
  intros Hp. destruct sed as [d|]; [|done]. intros [Hl Hd]. split; [done|]. intros s Hs. rewrite (Hd s Hs).
  pose proof (elem_of_Permutation_proper s l l' Hp). repeat case_decide; tauto.
Qed.

Lemma sed_ok_insert D D' l sed t v :
  sed_ok D l sed → live f0 t → (∀ s, s ∈ l → s ≠ t → D' s = D s) → v = N.of_nat (D' t) →
  sed_ok D' (t :: l) ((λ d, <[N.to_nat t := v]> d) <$> sed).
Proof.
  destruct sed as [d|]; [|done]. intros [Hl Hd] Ht HD ->. split; [by rewrite length_insert|].
  intros s Hs. destruct (decide (s = t)) as [->|Hne].
  - rewrite list_lookup_total_insert_eq by (unfold live in Ht; lia). rewrite decide_True; [done|left].
  - rewrite list_lookup_total_insert_ne by (intros ?; apply Hne; lia). rewrite (Hd s Hs).
    pose proof (elem_of_cons l s t). repeat case_decide; try naive_solver.
Qed.

Lemma seed_ends_spec l : ∀ pre f q sed,
  ends = pre ++ l → same_graph f0 f → queue_wf q → q_capacity q = f_statecount f0 → queue_elems q = pre →
  flags f pre → sed_ok (λ _, 0) pre sed →
  ∃ f' q' sed', seed_ends l f q sed = Some (true, f', q', sed') ∧ same_graph f0 f' ∧ queue_wf q' ∧
    q_capacity q' = f_statecount f0 ∧ queue_elems q' = ends ∧ flags f' ends ∧ sed_ok (λ _, 0) ends sed' ∧
    (sed' = None ↔ sed = None).
Proof.
  induction l as [|t l IH]; intros pre f q sed He Hsg Hq Hc Hel Hfl Hsed; cbn [seed_ends].
  { rewrite app_nil_r in He. subst. exists f, q, sed. done. }
  destruct Hends as [Hnd Hlive]. assert (live f0 t) as Ht by (apply Hlive; rewrite He; set_solver).
  assert (live f t) as Htf by (by rewrite (same_graph_live f0)).
  replace (t <? N.of_nat (f_statecount f))%N with true by (symmetry; apply N.ltb_lt; unfold live in Htf; lia).
  assert (length pre < q_capacity q) as Hroom.
  { rewrite Hc. assert (pre ++ t :: l ⊆ (N.of_nat <$> seq 0 (f_statecount f0))) as Hsub.
    { rewrite <-He. intros s Hs. apply (elem_of_live_ids f0), Hlive, Hs. }
    rewrite He in Hnd. pose proof (submseteq_length _ _ (NoDup_submseteq _ _ Hnd Hsub)) as Hlen.
    rewrite length_fmap, length_seq, length_app in Hlen. simpl in Hlen. lia. }
  destruct (queue_push_room q t Hq) as [q1 Hpush]; [by rewrite Hel|]. rewrite Hpush.
  destruct (queue_push_spec _ _ _ _ Hq Hpush) as (Hq1 & Hc1 & He1 & _). specialize (He1 eq_refl).
  destruct (IH (pre ++ [t]) (upd_state f t (set_visited true)) q1 ((λ sed, <[N.to_nat t := 0%N]> sed) <$> sed))
    as (f' & q' & sed' & -> & K1 & K2 & K3 & K4 & K5 & K6 & K7).
  - by rewrite <-app_assoc.
  - etrans; [done|apply same_graph_visited].
  - done.
  - congruence.
  - by rewrite He1, Hel.
  - eapply flags_perm; [|apply flags_mark; [by eapply same_graph_wf|done|done]]. by rewrite (Permutation_app_comm pre).
  - eapply sed_ok_perm; [|by eapply (sed_ok_insert (λ _, 0))]. by rewrite (Permutation_app_comm pre).
  - exists f', q', sed'. split; [done|]. rewrite K7. split; [done|]. split; [done|]. split; [done|]. split; [done|].
    split; [done|]. split; [done|]. by destruct sed.
Qed.

(** The second walk with [s] the state being visited. *)
Record backing (D : N → nat) (s : N) (dn : list N) (f : fsm) (q : queue) (sed : option (list N)) : Prop := {
  bk_graph : same_graph f0 f;
  bk_queue : queue_wf q;
  bk_cap : q_capacity q = f_statecount f0;
  bk_inv : bfs_inv back (f_statecount f0) ends D dn (s :: queue_elems q);
  bk_flags : flags f (dn ++ s :: queue_elems q);
  bk_sed : sed_ok D (dn ++ s :: queue_elems q) sed;
  bk_small u : u ∈ dn ++ s :: queue_elems q → D u ≤ S (length dn);
  bk_head : D s ≤ length dn;
}.

(** The table after an edge from [from]: the distance of a state that was
    visited before does not change. *)
Definition sed_step (s from : N) (sed : option (list N)) : option (list N) :=
  match sed with
  | None => None
  | Some d =>
      let end_distance := d !!! N.to_nat s in
      if (d !!! N.to_nat from =? NO_END_DISTANCE)%N || (end_distance <? d !!! N.to_nat from)%N then
        Some (<[N.to_nat from := (end_distance +32 1)%cint]> d)
      else Some d
  end.

(** Distances stay below the number of states, so below [NO_END_DISTANCE]. *)
Lemma backing_bound D s dn f q sed u :
  backing D s dn f q sed → u ∈ dn ++ s :: queue_elems q → D u < f_statecount f0.
Proof.
  intros [B1 B2 B3 B4 B5 B6 B7 B8] Hu. pose proof (bfs_bound _ _ _ _ _ _ B4) as Hl. simpl in Hl.
  pose proof (B7 u Hu) as Hsm. apply elem_of_app in Hu as [Hu|[->|Hu]%elem_of_cons]; [|lia|].
  - pose proof (bf_done _ _ _ _ _ _ B4 u s Hu ltac:(left)). lia.
  - destruct (queue_elems q); [by apply not_elem_of_nil in Hu|]. simpl in Hl. lia.
Qed.

Lemma mark_from_spec D s dn f q sed from :
  backing D s dn f q sed → back s from →
  ∃ D' f' q' sed', sed' = sed_step s from sed ∧
    (if visited f from then (true, f, q)
     else let '(ok, q) := queue_push q from in (ok, upd_state f from (set_visited true), q)) = (true, f', q') ∧
    backing D' s dn f' q' sed' ∧ from ∈ dn ++ s :: queue_elems q' ∧
    (∀ u, u ∈ dn ++ s :: queue_elems q → u ∈ dn ++ s :: queue_elems q').
Proof.
  intros Hb Hst. pose proof Hb as [B1 B2 B3 B4 B5 B6 B7 B8].
  assert (live f0 from) as Hf0 by (by apply (Hes (mk_edge from s))).
  assert (live f from) as Hf by (by rewrite (same_graph_live f0)).
  assert (live f0 s) as Hs0 by (by apply (Hes (mk_edge from s))).
  pose proof (bfs_bound _ _ _ _ _ _ B4) as Hbd. simpl in Hbd. pose proof (wf_count32 _ Hwf) as Hcount.
  pose proof (B5 from Hf) as Hv. destruct (visited f from).
  - assert (from ∈ dn ++ s :: queue_elems q) as Hin by (by apply Hv).
    exists D, f, q, (sed_step s from sed). split; [done|]. split; [done|]. split; [|done].
    split; try done. unfold sed_step. destruct sed as [d|]; [|done]. destruct B6 as [Bl Bd].
    pose proof (Bd from Hf0) as Ef. pose proof (Bd s Hs0) as Es. rewrite decide_True in Ef by done.
    rewrite decide_True in Es by set_solver. pose proof (bfs_visited _ _ _ _ _ _ _ _ B4 Hin) as Hle.
    destruct (_ || _) eqn:E; [|done]. rewrite Ef, Es in E. rewrite Es.
    apply orb_true_iff in E as [E|E]; split_bool.
    + exfalso. pose proof (backing_bound _ _ _ _ _ _ _ Hb Hin). unfold NO_END_DISTANCE in E. lia.
    + split; [by rewrite length_insert|]. intros u Hu. rewrite <-(Bd u Hu).
      destruct (decide (u = from)) as [->|Hne]; [|rewrite list_lookup_total_insert_ne by (intros ?; apply Hne; lia); done].
      rewrite list_lookup_total_insert_eq by (unfold live in Hf0; lia). rewrite Ef. rewrite u32_small by lia. lia.
  - assert (from ∉ dn ++ s :: queue_elems q) as Hnin by (intros Hin; discriminate (proj2 Hv Hin)).
    destruct (queue_push_room q from B2 ltac:(lia)) as [q1 Hpush]. rewrite Hpush.
    destruct (queue_push_spec _ _ _ _ B2 Hpush) as (Hq1 & Hc1 & He1 & _). specialize (He1 eq_refl).
    assert (s :: queue_elems q1 ≡ₚ from :: s :: queue_elems q) as Hperm.
    { rewrite He1, (Permutation_app_comm _ [from]). simpl. constructor. }
    set (D' := λ u, if decide (u = from) then S (D s) else D u).
    assert (∀ u, u ∈ dn ++ s :: queue_elems q → D' u = D u) as HD'.
    { intros u Hu. unfold D'. rewrite decide_False; [done|]. by intros ->. }
    assert (D' s = D s) as HDs by (apply HD'; set_solver).
    assert (D' from = S (D s)) as HDf by (unfold D'; by rewrite decide_True).
    exists D', (upd_state f from (set_visited true)), q1, (sed_step s from sed). split; [done|]. split; [done|].
    assert (∀ u, u ∈ dn ++ s :: queue_elems q1 ↔ u = from ∨ u ∈ dn ++ s :: queue_elems q) as Hel.
    { intros u. rewrite Hperm. set_solver. }
    split; [|split; [apply Hel; by left|intros u Hu; apply Hel; by right]]. split.
    + etrans; [done|apply same_graph_visited].
    + done.
    + congruence.
    + rewrite He1. apply bfs_push; [by eapply bfs_ext|done|done|done|congruence].
    + eapply flags_perm; [|apply flags_mark; [by eapply same_graph_wf|done|done]].
      rewrite Hperm. by rewrite Permutation_middle.
    + eapply sed_ok_perm; [rewrite Hperm, <-Permutation_middle; reflexivity|]. unfold sed_step.
      destruct sed as [d|]; [|done]. pose proof B6 as [Bl Bd].
      rewrite (Bd from Hf0), decide_False, N.eqb_refl by done. cbn [orb].
      apply (sed_ok_insert D D' _ (Some d)); [done|done|intros; by apply HD'|].
      rewrite (Bd s Hs0), decide_True by set_solver. rewrite u32_small by lia. lia.
    + intros u [->|Hu]%Hel; [lia|]. rewrite HD' by done. auto.
    + lia.
Qed.

Lemma sed_step_none s from sed : sed_step s from sed = None ↔ sed = None.
Proof. destruct sed; cbn; [|done]. destruct (_ || _); done. Qed.

Lemma mark_froms_spec s dn l : ∀ D f q sed,
  backing D s dn f q sed → (∀ e, e ∈ l → e ∈ es ∧ e_to e = s) →
  ∃ D' f' q' sed', mark_froms l s f q sed = Some (true, f', q', sed') ∧ backing D' s dn f' q' sed' ∧
    (∀ e, e ∈ l → e_from e ∈ dn ++ s :: queue_elems q') ∧
    (∀ u, u ∈ dn ++ s :: queue_elems q → u ∈ dn ++ s :: queue_elems q') ∧ (sed' = None ↔ sed = None).
Proof.
  induction l as [|e l IH]; intros D f q sed Hb Hl; cbn [mark_froms].
  { exists D, f, q, sed. split; [done|]. split; [done|]. split; [by intros e ?%not_elem_of_nil|]. done. }
  destruct (Hl e ltac:(left)) as [Hin Hto]. destruct e as [from to]; cbn in Hto; subst to. cbn [e_from].
  destruct (mark_from_spec D s dn f q sed from Hb Hin) as (D1 & f1 & q1 & sed1 & E1 & E2 & Hb1 & Hi1 & Hm1).
  destruct (Hes _ Hin) as [Hfl _]. cbn in Hfl.
  replace (from <? N.of_nat (f_statecount f))%N with true.
  2: { symmetry. apply N.ltb_lt. destruct (bk_graph _ _ _ _ _ _ Hb) as (-> & _). unfold live in Hfl. lia. }
  change (match sed with None => None | Some d => _ end) with (sed_step s from sed). rewrite <-E1.
  destruct (IH D1 f1 q1 sed1) as (D2 & f2 & q2 & sed2 & E3 & Hb2 & Hi2 & Hm2 & Hn2); [done|intros; apply Hl; by right|].
  exists D2, f2, q2, sed2. split; [|split; [done|split; [|split]]].
  - destruct (visited f from); [by simplify_eq|]. destruct (queue_push q from) as [ok q3]. by simplify_eq.
  - intros e [->|He]%elem_of_cons; [cbn; auto|auto].
  - auto.
  - rewrite Hn2, E1. apply sed_step_none.
Qed.

Lemma mark_back_loop_spec offsets fuel : ∀ D dn f q sed,
  (∀ s e, live f0 s → e ∈ edges_to es offsets s ↔ e ∈ es ∧ e_to e = s) →
  same_graph f0 f → queue_wf q → q_capacity q = f_statecount f0 →
  bfs_inv back (f_statecount f0) ends D dn (queue_elems q) → flags f (dn ++ queue_elems q) →
  sed_ok D (dn ++ queue_elems q) sed → (∀ u, u ∈ dn ++ queue_elems q → D u ≤ length dn) →
  f_statecount f0 < fuel + length dn →
  ∃ D' dn' f' sed', mark_back_loop fuel es offsets f q sed = Some (true, f', sed') ∧ same_graph f0 f' ∧
    bfs_inv back (f_statecount f0) ends D' dn' [] ∧ flags f' dn' ∧ sed_ok D' dn' sed' ∧ (sed' = None ↔ sed = None).
Proof.
  induction fuel as [|fuel IH]; intros D dn f q sed Hoff Hsg Hq Hc Hinv Hfl Hsed Hsm Hf.
  { pose proof (bfs_bound _ _ _ _ _ _ Hinv). lia. }
  cbn [mark_back_loop]. pose proof (queue_pop_spec q Hq) as Hpop. destruct (queue_pop q) as [[s q1]|].
  2: { rewrite Hpop, app_nil_r in *. exists D, dn, f, sed. done. }
  destruct Hpop as (K1 & K2 & K3). rewrite K3 in *.
  assert (s ∈ dn ++ s :: queue_elems q1) as Hin by set_solver.
  assert (live f0 s) as Hs by (by apply (bf_lt _ _ _ _ _ _ Hinv)).
  replace (visited f s) with true by (symmetry; apply Hfl; [by rewrite (same_graph_live f0)|done]).
  destruct (mark_froms_spec s dn (edges_to es offsets s) D f q1 sed) as (D1 & f1 & q2 & sed1 & E & Hb & H1 & H2 & H3).
  { split; try done; [congruence| |auto]. intros u Hu. specialize (Hsm u Hu). lia. }
  { intros e He. by apply Hoff. }
  rewrite E. cbn [mbind option_bind]. destruct Hb as [B1 B2 B3 B4 B5 B6 B7 B8].
  assert (s :: dn ++ queue_elems q2 ≡ₚ dn ++ s :: queue_elems q2) as Hp by (by rewrite Permutation_middle).
  destruct (IH D1 (s :: dn) f1 q2 sed1) as (D2 & dn2 & f2 & sed2 & E2 & G1 & G2 & G3 & G4 & G5); try done.
  - apply bfs_pop; [done|]. intros t Ht. apply (H1 (mk_edge t s)). by apply Hoff.
  - eapply flags_perm; [symmetry; exact Hp|done].
  - eapply sed_ok_perm; [symmetry; exact Hp|done].
  - intros u Hu. apply B7. by rewrite <-Hp.
  - simpl. lia.
  - exists D2, dn2, f2, sed2. rewrite G5. done.
Qed.
End Backward.

Lemma sorted_edges es : StronglySorted edges_by_to (merge_sort edges_by_to es).
Proof. apply (StronglySorted_merge_sort _). Qed.

Lemma last_edge_max es e e' :
  StronglySorted edges_by_to es → last es = Some e → e' ∈ es → (e_to e' ≤ e_to e)%N.
Proof.
  intros Hs [l ->]%last_Some He'. apply StronglySorted_app in Hs as (Hle & _ & _).
  apply elem_of_app in He' as [He'|He'%list_elem_of_singleton]; [|by subst].
  apply edges_by_to_le, (Hle e' e); [done|left].
Qed.

Section Marks.
Context `{allocator, !alloc_total} (f0 : fsm).
Hypothesis Hwf : fsm_wf f0.

Lemma mark_back_spec f q es ends sed :
  same_graph f0 f → queue_wf q → q_capacity q = f_statecount f0 → queue_elems q = [] →
  (∀ e, e ∈ es → live f0 (e_from e) ∧ live f0 (e_to e)) → NoDup ends → (∀ s, s ∈ ends → live f0 s) →
  sed_ok f0 (λ _, 0) [] sed →
  ∃ D dn f' sed', mark_back f q es ends sed = Some (true, f', sed') ∧ same_graph f0 f' ∧
    bfs_inv (back (merge_sort edges_by_to es)) (f_statecount f0) ends D dn [] ∧ flags f' dn ∧
    sed_ok f0 D dn sed' ∧ (sed' = None ↔ sed = None).
Proof.
  intros Hsg Hq Hc Hel Hes Hnd Hends Hsed. unfold mark_back.
  set (es' := merge_sort edges_by_to es). pose proof (sorted_edges es : StronglySorted _ es') as Hs.
  assert (∀ e, e ∈ es' → live f0 (e_from e) ∧ live f0 (e_to e)) as Hes'.
  { intros e He. apply Hes. unfold es' in He. by rewrite merge_sort_Permutation in He. }
  destruct (clear_visited_spec f) as [Hcl Hfl]; [by eapply same_graph_wf|].
  destruct (seed_ends_spec f0 es' ends Hwf Hes' (conj Hnd Hends) ends [] (clear_visited f) q sed)
    as (f1 & q1 & sed1 & -> & K1 & K2 & K3 & K4 & K5 & K6 & K7); try done; [by etrans|].
  cbn [mbind option_bind].
  assert (bfs_inv (back es') (f_statecount f0) ends (λ _, 0) [] ends) as Hstart.
  { apply bfs_start; [done|]. intros r Hr. split; [by apply Hends|done]. }
  destruct (last es') as [e|] eqn:El.
  - assert (fsm_countstates f1 = N.of_nat (f_statecount f0)) as ->.
    { unfold fsm_countstates. destruct K1 as (-> & _). pose proof (wf_count32 _ Hwf). by apply u32_small. }
    rewrite f_calloc_total, Nat2N.id.
    assert (e ∈ es') as He by (apply last_Some in El as [l ->]; set_solver).
    destruct (Hes' e He) as [_ Hto]. unfold live in Hto.
    rewrite (proj2 (Nat.ltb_lt _ _) Hto).
    assert (∀ e', e' ∈ es' → N.to_nat (e_to e') ≤ N.to_nat (e_to e)) as Hmax.
    { intros e' He'. pose proof (last_edge_max es' e e' Hs El He'). lia. }
    destruct (build_offsets_spec es' (f_statecount f0) (N.to_nat (e_to e))) as [_ Ho]; [done..|].
    rewrite Ho, decide_True, upto_all, Nat.eqb_refl by done.
    destruct (mark_back_loop_spec f0 es' ends Hwf Hes' (conj Hnd Hends) (build_offsets es' (f_statecount f0) (N.to_nat (e_to e)))
      (f_statecount f1 + 1) (λ _, 0) [] f1 q1 sed1) as (D & dn & f2 & sed2 & E & G1 & G2 & G3 & G4 & G5); try done.
    + intros s e' Hse. by apply elem_of_edges_to.
    + by rewrite K4.
    + by rewrite K4.
    + by rewrite K4.
    + destruct K1 as (-> & _). simpl. lia.
    + exists D, dn, f2, sed2. rewrite G5. done.
  - exists (λ _, 0), ends, f1, sed1. split; [done|]. split; [done|]. split; [|done].
    apply last_None in El. destruct Hstart as [S1 S2 S3 S4 S5 S6 S7]. split; rewrite ?app_nil_r; try done.
    + intros s t _ Hb. unfold back in Hb. rewrite El in Hb. by apply not_elem_of_nil in Hb.
    + constructor.
Qed.

(** ** What the marks mean *)

Definition reachable (f : fsm) (s : N) : Prop := ∃ s0, fsm_getstart f = Some s0 ∧ rtc (f_step f) s0 s.

(** [s] leads to an end state in [k] steps at the least. *)
Definition end_distance (f : fsm) (s : N) (k : nat) : Prop :=
  (∃ t, f_end f t ∧ nsteps (f_step f) k s t) ∧ ∀ j t, f_end f t → nsteps (f_step f) j s t → k ≤ j.

Definition useful (f : fsm) (mode : fsm_trim_mode) (s : N) : Prop :=
  reachable f s ∧
  match mode with
  | FSM_TRIM_START_REACHABLE => True
  | FSM_TRIM_START_AND_END_REACHABLE => ∃ t, f_end f t ∧ rtc (f_step f) s t
  end.

Lemma reachable_live s : reachable f0 s → live f0 s.
Proof.
  intros (s0 & Hs0 & Hr). apply (wf_start _ Hwf) in Hs0. clear -Hwf Hs0 Hr.
  induction Hr as [|x y z Hx Hy IH]; [done|]. apply IH. by eapply f_step_live.
Qed.

(** Going back along the edges of reachable states from a reachable state is
    going forward from a state that is reachable too. *)
Lemma back_nsteps es k s t :
  (∀ e, e ∈ es ↔ reachable f0 (e_from e) ∧ f_step f0 (e_from e) (e_to e)) →
  reachable f0 t → nsteps (back es) k t s ↔ reachable f0 s ∧ nsteps (f_step f0) k s t.
Proof.
  intros Hes. revert s. induction k as [|k IH]; intros s Ht.
  { split; [intros Hn; inversion Hn; subst; split; [done|constructor]|]. intros [_ Hn]. inversion Hn; subst. constructor. }
  split.
  - intros (u & Hu & Hb)%nsteps_inv_r. apply IH in Hu as [Hru Hu]; [|done].
    apply Hes in Hb as [Hrs Hb]; cbn in *. split; [done|]. by econstructor.
  - intros [Hrs Hn]. inversion Hn as [|? ? u ? Hsu Hut]; subst.
    assert (reachable f0 u) as Hru by (destruct Hrs as (s0 & ? & ?); exists s0; split; [done|]; by eapply rtc_r).
    eapply nsteps_r; [by apply IH|]. by apply Hes.
Qed.

Lemma mark_states_spec mode sed :
  flags f0 [] → sed_ok f0 (λ _, 0) [] sed →
  ∃ D f' sed' l, mark_states f0 mode sed = Some (true, f', sed') ∧ same_graph f0 f' ∧ flags f' l ∧
    (∀ s, s ∈ l ↔ useful f0 mode s) ∧ sed_ok f0 D (match mode with FSM_TRIM_START_REACHABLE => [] | _ => l end) sed' ∧
    (mode = FSM_TRIM_START_AND_END_REACHABLE → ∀ s, s ∈ l → end_distance f0 s (D s)) ∧ (sed' = None ↔ sed = None).
Proof.
  intros Hfl Hsed. unfold mark_states. destruct (fsm_getstart f0) as [start|] eqn:Est.
  2: { exists (λ _, 0), f0, sed, []. split; [done|]. split; [done|]. split; [done|]. split; [|split; [by destruct mode|split; [by intros _ s ?%not_elem_of_nil|done]]].
       intros s. split; [by intros ?%not_elem_of_nil|]. intros [(s0 & ? & _) _]. congruence. }
  assert (live f0 start) as Hst by (by apply (wf_start _ Hwf)).
  destruct (queue_new_total (f_alloc f0) (f_statecount f0)) as [q Hq]; [unfold live in Hst; lia|]. rewrite Hq.
  destruct (queue_new_spec _ _ _ Hq) as (Hqw & Hqe & Hqc).
  set (oe := match mode with FSM_TRIM_START_REACHABLE => None | _ => Some (mk_growing (@nil edge) DEF_EDGES_CEIL) end).
  set (os := match mode with FSM_TRIM_START_REACHABLE => None | _ => Some (mk_growing (@nil N) DEF_ENDS_CEIL) end).
  replace (match mode with
    | FSM_TRIM_START_REACHABLE => (true, None, None)
    | FSM_TRIM_START_AND_END_REACHABLE => _ end) with (true, oe, os) by (by destruct mode; rewrite ?f_malloc_total).
  destruct (queue_push_room q start Hqw) as [q1 Hpush]; [rewrite Hqe, Hqc; unfold live in Hst; simpl; lia|].
  rewrite Hpush. destruct (queue_push_spec _ _ _ _ Hqw Hpush) as (Hq1 & Hc1 & He1 & _).
  specialize (He1 eq_refl). rewrite Hqe in He1. cbn [app] in He1.
  set (f1 := upd_state f0 start (set_visited true)).
  destruct (mark_loop_spec f0 start Hwf (f_statecount f1 + 1) [] (mk_mark f1 q1 oe os))
    as (m & dn & -> & Hw & Hem & Hne & Hns); [|cbn; lia|].
  { split; cbn; try done.
    - apply same_graph_visited.
    - congruence.
    - rewrite He1. by apply search_start.
    - rewrite He1. by apply flags_mark.
    - intros g e Hg. destruct mode; [done|]. injection Hg as <-. cbn. split; [by intros ?%not_elem_of_nil|].
      by intros [?%not_elem_of_nil _].
    - intros g Hg. destruct mode; [done|]. injection Hg as <-. cbn. split; [constructor|].
      intros s. split; [by intros ?%not_elem_of_nil|]. by intros [?%not_elem_of_nil _]. }
  cbn [mbind option_bind]. destruct Hw as [W1 W2 W3 W4 W5 W6 W7]. rewrite Hem in *. rewrite app_nil_r in W5.
  assert (∀ s, s ∈ dn ↔ reachable f0 s) as Hdn.
  { intros s. rewrite (search_end _ _ _ _ _ W4). unfold reachable. rewrite Est. naive_solver. }
  destruct mode.
  { exists (λ _, 0), (ms_fsm m), sed, dn. split; [done|]. split; [done|]. split; [done|]. split; [|done].
    intros s. rewrite Hdn. unfold useful. naive_solver. }
  destruct (ms_edges m) as [ge|] eqn:Ege; [|by discriminate (proj1 Hne eq_refl)].
  destruct (ms_ends m) as [gs|] eqn:Egs; [|by discriminate (proj1 Hns eq_refl)]. cbn [fmap option_fmap option_map default].
  destruct (W7 gs eq_refl) as [Hgnd Hgs].
  assert (∀ s, s ∈ g_items gs ↔ reachable f0 s ∧ f_end f0 s) as Hgs'.
  { intros s. rewrite Hgs, Hdn. unfold f_end. pose proof (reachable_live s). naive_solver. }
  assert (∀ e, e ∈ g_items ge ↔ reachable f0 (e_from e) ∧ f_step f0 (e_from e) (e_to e)) as Hge.
  { intros e. by rewrite (W6 ge e eq_refl), Hdn. }
  destruct (mark_back_spec (ms_fsm m) (ms_queue m) (g_items ge) (g_items gs) sed)
    as (D & l & f2 & sed2 & E & G1 & G2 & G3 & G4 & G5); try done.
  { intros e [He1' He2']%Hge. split; [by apply reachable_live|by eapply f_step_live]. }
  { intros s [Hr _]%Hgs'. by apply reachable_live. }
  exists D, f2, sed2, l. split; [exact E|]. split; [done|]. split; [done|].
  set (es := merge_sort edges_by_to (g_items ge)) in *.
  assert (∀ e, e ∈ es ↔ reachable f0 (e_from e) ∧ f_step f0 (e_from e) (e_to e)) as Hge'.
  { intros e. unfold es. by rewrite merge_sort_Permutation. }
  split; [|split; [done|split; [|done]]].
  - intros s. rewrite (proj1 (bfs_end _ _ _ D l s G2)). unfold useful. split.
    + intros (r & [Hr He]%Hgs' & (k & Hk)%rtc_nsteps_1). apply back_nsteps in Hk as [Hrs Hk]; [|done|done].
      split; [done|]. exists r. split; [done|]. by eapply rtc_nsteps_2.
    + intros [Hrs (t & Ht & (k & Hk)%rtc_nsteps_1)]. exists t.
      assert (reachable f0 t) as Hrt.
      { destruct Hrs as (s0 & ? & ?). exists s0. split; [done|]. etrans; [done|by eapply rtc_nsteps_2]. }
      split; [by apply Hgs'|]. eapply rtc_nsteps_2, back_nsteps; done.
  - intros _ s Hs. destruct (bfs_end _ _ _ D l s G2) as [Hl Hd]. specialize (Hd Hs).
    destruct Hd as [(r & [Hr He]%Hgs' & Hk) Hmin].
    apply back_nsteps in Hk as [Hrs Hk]; [|done|done]. split; [eauto|].
    intros j t Ht Hj. assert (reachable f0 t) as Hrt.
    { destruct Hrs as (s0 & ? & ?). exists s0. split; [done|]. etrans; [done|by eapply rtc_nsteps_2]. }
    apply (Hmin j t); [by apply Hgs'|]. by apply back_nsteps.
Qed.
End Marks.

(** ** Lemmas: sweeping *)

Lemma compact_sed_loop_spec f n m : ∀ i dst sed,
  i + m = n → dst ≤ i → length sed = n →
  (∀ s, i ≤ N.to_nat s < n → visited f s = false → sed !!! N.to_nat s = NO_END_DISTANCE) →
  let ids := filter (λ t, visited f t = true) (N.of_nat <$> seq i m) in
  ∃ sed', compact_sed_loop (N.of_nat <$> seq i m) f dst sed = Some sed' ∧ length sed' = n ∧
    take (dst + length ids) sed' = take dst sed ++ ((λ s, sed !!! N.to_nat s) <$> ids).
Proof.
  induction m as [|m IH]; intros i dst sed Him Hd Hlen Hno; cbn [seq fmap list_fmap compact_sed_loop].
  { exists sed. cbn. by rewrite Nat.add_0_r, app_nil_r. }
  rewrite filter_cons, Nat2N.id. destruct (visited f (N.of_nat i)) eqn:Ev.
  - rewrite decide_True by done. set (sed1 := if dst <? i then <[dst:=sed !!! i]> sed else sed).
    assert (length sed1 = n ∧ take (dst + 1) sed1 = take dst sed ++ [sed !!! i] ∧
      (∀ j, i < j → sed1 !!! j = sed !!! j)) as (E1 & E2 & E3).
    { assert (sed !! i = Some (sed !!! i)) as Hi by (apply list_lookup_lookup_total_lt; lia).
      unfold sed1. destruct (dst <? i) eqn:Ed; split_bool.
      - split; [by rewrite length_insert|]. split.
        + rewrite Nat.add_1_r, (take_S_r _ _ (sed !!! i)) by (apply list_lookup_insert_eq; lia). by rewrite take_insert_ge.
        + intros j Hj. rewrite list_lookup_total_insert_ne by lia. done.
      - replace dst with i by lia. split; [done|]. split; [|done]. rewrite Nat.add_1_r. by apply take_S_r. }
    clearbody sed1. destruct (IH (S i) (dst + 1) sed1) as (sed' & K1 & K2 & K3); [lia|lia|done| |].
    { intros s Hs Hv. rewrite E3 by lia. apply Hno; [lia|done]. }
    exists sed'. split; [exact K1|]. split; [done|]. cbn [length fmap list_fmap]. rewrite Nat2N.id.
    replace (dst + S (length _)) with (dst + 1 + length (filter (λ t, visited f t = true) (N.of_nat <$> seq (S i) m))) by lia.
    rewrite K3, E2, <-app_assoc. f_equal. cbn [app]. f_equal. apply list_fmap_ext. intros k t Ht. apply E3.
    assert (t ∈ filter (λ t, visited f t = true) (N.of_nat <$> seq (S i) m)) as
      (_ & (j & -> & Hj%elem_of_seq)%list_elem_of_fmap)%list_elem_of_filter by (apply list_elem_of_lookup; eauto).
    lia.
  - rewrite decide_False by done. assert (sed !!! i = NO_END_DISTANCE) as ->.
    { specialize (Hno (N.of_nat i)). rewrite Nat2N.id in Hno. apply Hno; [lia|done]. }
    rewrite N.eqb_refl. apply IH; [lia|lia|done|]. intros s Hs. apply Hno. lia.
Qed.

Section Sweep.
Context `{allocator, !alloc_total} (keep : N → bool) (f f' : fsm) (mode : fsm_trim_mode).
Hypothesis Hwf : fsm_wf f.
Hypothesis Hblank : blanks_ok f.
Hypothesis Hc : compacts keep f f'.
Hypothesis Hkeep : ∀ s, live f s → keep s = true ↔ useful f mode s.

Lemma useful_live s : useful f mode s → live f s.
Proof. intros [Hr _]. by apply (reachable_live f). Qed.

Lemma useful_keep s : useful f mode s → keep s = true.
Proof. intros Hu. apply Hkeep; [by apply useful_live|done]. Qed.

(** The steps of a kept state are those to kept states. *)
Lemma step_kept s t' :
  useful f mode s → f_step f' (rank keep s) t' ↔ ∃ t, f_step f s t ∧ useful f mode t ∧ t' = rank keep t.
Proof.
  intros Hu. pose proof (useful_live s Hu) as Hl. pose proof (useful_keep s Hu) as Hk.
  pose proof (compacts_renames keep f f' Hwf Hblank Hc) as Hr.
  pose proof (λ c t, ren_edge _ _ _ _ Hr s c t (conj Hl Hk)) as He.
  pose proof (λ t, ren_eps _ _ _ _ Hr s t (conj Hl Hk)) as Hp. cbn in He, Hp.
  assert (∀ t, f_step f s t → live f t) as Hlt by (intros t; by apply f_step_live).
  unfold f_step in *. setoid_rewrite He. rewrite Hp. split.
  - intros [(c & t & (H1 & _ & H2) & ->)|(t & (H1 & _ & H2) & ->)]; exists t.
    + split; [eauto|]. split; [apply Hkeep; [by eapply f_edge_live|done]|done].
    + split; [eauto|]. split; [apply Hkeep; [by eapply f_eps_live|done]|done].
  - intros (t & [[c H1]|H1] & H2 & ->); [left; exists c, t|right; exists t];
      (split; [split; [done|split; [done|by apply useful_keep]]|done]).
Qed.

Lemma nsteps_kept k : ∀ s t',
  useful f mode s → nsteps (f_step f') k (rank keep s) t' ↔
  ∃ t, nsteps (λ s t, f_step f s t ∧ useful f mode t) k s t ∧ t' = rank keep t ∧ useful f mode t.
Proof.
  induction k as [|k IH]; intros s t' Hu.
  { split.
    - intros Hn. inversion Hn; subst. exists s. split; [constructor|done].
    - intros (t & Hn & -> & _). inversion Hn; subst. constructor. }
  split.
  - intros Hn. inversion Hn as [|? ? u' ? Hsu Hut]; subst. apply step_kept in Hsu as (u & Hsu & Huu & ->); [|done].
    apply IH in Hut as (t & Ht & -> & Htu); [|done]. exists t. split; [by econstructor|done].
  - intros (t & Hn & -> & Htu). inversion Hn as [|? ? u ? [Hsu Huu] Hut]; subst.
    econstructor; [apply step_kept; eauto|]. apply IH; [done|]. eauto.
Qed.

(** A path from a useful state to a useful state runs through useful
    states. *)
Lemma nsteps_useful k : ∀ s t,
  useful f mode s → useful f mode t → nsteps (f_step f) k s t → nsteps (λ s t, f_step f s t ∧ useful f mode t) k s t.
Proof.
  induction k as [|k IH]; intros s t Hs Ht Hn; inversion Hn as [|? ? u ? Hsu Hut]; subst; [constructor|].
  assert (useful f mode u) as Hu.
  { destruct Hs as [(s0 & Hs0 & Hr) _]. split; [exists s0; split; [done|by eapply rtc_r]|].
    destruct mode; [done|]. destruct Ht as [_ (e & He & Hte)]. exists e. split; [done|].
    etrans; [by eapply rtc_nsteps_2|done]. }
  econstructor; [done|]. by apply IH.
Qed.

Lemma nsteps_weaken k : ∀ s t, nsteps (λ s t, f_step f s t ∧ useful f mode t) k s t → nsteps (f_step f) k s t.
Proof. induction k as [|k IH]; intros s t Hn; inversion Hn; subst; [constructor|]. econstructor; [naive_solver|by apply IH]. Qed.

Lemma f_end_kept s : useful f mode s → f_end f' (rank keep s) ↔ f_end f s.
Proof.
  intros Hu. pose proof (compacts_renames keep f f' Hwf Hblank Hc) as Hr.
  pose proof (ren_end _ _ _ _ Hr s (conj (useful_live s Hu) (useful_keep s Hu))) as He. cbn in He. rewrite He.
  pose proof (useful_keep s Hu). naive_solver.
Qed.

Lemma useful_end s : useful f FSM_TRIM_START_REACHABLE s → f_end f s → useful f mode s.
Proof. intros [Hr _] He. split; [done|]. destruct mode; [done|]. exists s. split; [done|]. apply rtc_refl. Qed.

Lemma end_distance_kept s k : useful f mode s → end_distance f s k → end_distance f' (rank keep s) k.
Proof.
  intros Hu [(t & He & Hn) Hmin]. split.
  - assert (useful f mode t) as Ht.
    { apply useful_end; [|done]. split; [|done]. destruct Hu as [(s0 & ? & ?) _]. exists s0. split; [done|].
      etrans; [done|by eapply rtc_nsteps_2]. }
    exists (rank keep t). split; [by apply f_end_kept|]. apply nsteps_kept; [done|]. exists t.
    split; [by apply nsteps_useful|done].
  - intros j t' He' Hj. apply nsteps_kept in Hj as (u & Hj & -> & Hu'); [|done].
    apply (Hmin j u); [by apply f_end_kept|by apply nsteps_weaken].
Qed.

Lemma kept_useful s : useful f mode s → useful f' mode (rank keep s).
Proof.
  intros Hu. split.
  - pose proof Hu as [(s0 & Hs0 & (k & Hk)%rtc_nsteps_1) Hm].
    assert (useful f mode s0) as Hu0.
    { split; [exists s0; split; [done|apply rtc_refl]|]. destruct mode; [done|]. destruct Hm as (t & He & Ht).
      exists t. split; [done|]. etrans; [by eapply rtc_nsteps_2|done]. }
    exists (rank keep s0). split; [apply (cp_start _ _ _ Hc); exists s0; split; [done|]; split; [by apply useful_keep|done]|].
    eapply rtc_nsteps_2, nsteps_kept; [done|]. exists s. split; [by apply nsteps_useful|done].
  - assert (∀ t, f_end f t → rtc (f_step f) s t → ∃ t', f_end f' t' ∧ rtc (f_step f') (rank keep s) t') as Hm.
    { intros t He (k & Hk)%rtc_nsteps_1. assert (useful f mode t) as Ht.
      { apply useful_end; [|done]. split; [|done]. destruct Hu as [(s0 & ? & ?) _]. exists s0. split; [done|].
        etrans; [done|by eapply rtc_nsteps_2]. }
      exists (rank keep t). split; [by apply f_end_kept|]. eapply rtc_nsteps_2, nsteps_kept; [done|]. exists t.
      split; [by apply nsteps_useful|done]. }
    destruct Hu as [_ Hu]. destruct mode; [done|]. naive_solver.
Qed.

Lemma sweep_language w : language f' w ↔ language f w.
Proof.
  eapply compacts_language; try done. intros s0 u s v t Hs0 Hu Hv He. apply useful_keep. split.
  - exists s0. split; [done|]. apply f_step_rtc_path. eauto.
  - destruct mode; [done|]. exists t. split; [done|]. apply f_step_rtc_path. eauto.
Qed.
End Sweep.

(** ** The flags do not matter to the meaning *)

Lemma same_graph_step f f' s t : same_graph f f' → f_step f' s t ↔ f_step f s t.
Proof.
  intros Hs. destruct (same_graph_nfa _ _ Hs) as (H1 & H2 & _). cbn in *. unfold f_step.
  setoid_rewrite H1. by rewrite H2.
Qed.

Lemma same_graph_nsteps f f' k s t : same_graph f f' → nsteps (f_step f) k s t → nsteps (f_step f') k s t.
Proof.
  intros Hs. revert s. induction k as [|k IH]; intros s Hn; inversion Hn; subst; [constructor|].
  econstructor; [by apply (same_graph_step f f')|by apply IH].
Qed.

Lemma same_graph_end f f' s : same_graph f f' → f_end f' s ↔ f_end f s.
Proof. intros Hs. apply (same_graph_nfa _ _ Hs). Qed.

Lemma same_graph_useful f f' mode s : same_graph f f' → useful f mode s → useful f' mode s.
Proof.
  intros Hs [(s0 & Hs0 & (k & Hk)%rtc_nsteps_1) Hm]. split.
  - exists s0. split; [by apply (same_graph_nfa _ _ Hs)|]. by eapply rtc_nsteps_2, same_graph_nsteps.
  - destruct mode; [done|]. destruct Hm as (t & He & (j & Hj)%rtc_nsteps_1). exists t.
    split; [by apply (same_graph_end f)|]. by eapply rtc_nsteps_2, same_graph_nsteps.
Qed.

Lemma same_graph_distance f f' s k : same_graph f f' → end_distance f s k → end_distance f' s k.
Proof.
  intros Hs [(t & He & Hn) Hmin]. split.
  - exists t. split; [by apply (same_graph_end f)|by apply (same_graph_nsteps f)].
  - intros j u Hu Hj. apply (Hmin j u); [by apply (same_graph_end f f')|]. by apply (same_graph_nsteps f' f).
Qed.

Lemma same_graph_meta f f' : same_graph f f' → fsm_meta f → fsm_meta f'.
Proof.
  intros Hs. pose proof Hs as (H1 & _ & _ & _ & _ & _ & _ & H8 & H9 & _). unfold fsm_meta, live. by rewrite H1, H8, H9.
Qed.

Lemma same_graph_blanks f f' : same_graph f f' → blanks_ok f → blanks_ok f'.
Proof.
  intros Hs Hb s Hl. rewrite (same_graph_live f) in Hl by done. destruct (same_graph_state _ _ s Hs) as (-> & _). auto.
Qed.

Section Trim.
Context `{allocator, !alloc_total}.

(** The table of distances, as [fsm_trim] returns it. *)
Definition distances_ok (f : fsm) (sed : option (list N)) : Prop :=
  match sed with
  | None => True
  | Some d => ∀ s, live f s → ∃ k, d !! N.to_nat s = Some (N.of_nat k) ∧ end_distance f s k
  end.

(** Compacting the table as the states will be. *)
Lemma compact_sed_spec f D l d :
  fsm_wf f → flags f l → sed_ok f D l (Some d) →
  ∃ d', compact_shortest_end_distance f d = Some d' ∧
    ∀ s, live f s → visited f s = true → d' !! N.to_nat (rank (visited f) s) = Some (N.of_nat (D s)).
Proof.
  intros Hwf Hfl [Hlen Hd]. destruct (compact_sed_loop_spec f (f_statecount f) (f_statecount f) 0 0 d) as (d' & E & H1 & H2).
  - done.
  - done.
  - done.
  - intros s [_ Hs] Hv. rewrite (Hd s Hs), decide_False; [done|]. intros Hin%(Hfl s Hs). congruence.
  - exists d'. split; [exact E|]. intros s Hs Hv.
    fold (kept_ids (visited f) (f_statecount f)) in H2. cbn [take app] in H2. rewrite Nat.add_0_l in H2.
    rewrite <-(lookup_take_lt _ (length (kept_ids (visited f) (f_statecount f)))) by (by apply rank_lt_length).
    rewrite H2, take_0, app_nil_l, list_lookup_fmap, kept_at_rank by done. cbn.
    rewrite (Hd s Hs), decide_True; [done|]. by apply Hfl.
Qed.

Lemma fsm_trim_compacts f mode want_sed :
  fsm_wf f → fsm_meta f → blanks_ok f → flags f [] → 0 < f_statecount f →
  ∃ f1 f2 sed, fsm_trim f mode want_sed = Some (Z.of_nat (f_statecount f - f_statecount f2), clear_visited f2, sed) ∧
    same_graph f f1 ∧ (∀ s, live f1 s → visited f1 s = true ↔ useful f1 mode s) ∧ compacts (visited f1) f1 f2 ∧
    match sed with None => True | Some d =>
      ∀ s, live f1 s → visited f1 s = true → ∃ k, d !! N.to_nat (rank (visited f1) s) = Some (N.of_nat k) ∧ end_distance f1 s k end ∧
    (is_Some sed ↔ want_sed = true ∧ mode = FSM_TRIM_START_AND_END_REACHABLE).
Proof.
  intros Hwf Hmeta Hbl Hfl Hpos. unfold fsm_trim. destruct (f_statecount f =? 0) eqn:E0; split_bool; [lia|].
  set (sed0 := match want_sed, mode with
    | true, FSM_TRIM_START_AND_END_REACHABLE => Some (replicate (f_statecount f) NO_END_DISTANCE) | _, _ => None end).
  replace (match want_sed with true => _ | false => _ end) with (true, sed0) by (by destruct want_sed, mode; rewrite ?f_malloc_total).
  assert (sed_ok f (λ _, 0) [] sed0) as Hsed0.
  { unfold sed0. destruct want_sed, mode; try done. split; [by rewrite length_replicate|]. intros s Hs.
    rewrite list_lookup_total_alt, lookup_replicate_2 by done. cbn. rewrite decide_False; [done|apply not_elem_of_nil]. }
  destruct (mark_states_spec f Hwf mode sed0 Hfl Hsed0) as (D & f1 & sed1 & l & -> & M1 & M2 & M3 & M4 & M5 & M6).
  cbn [mbind option_bind]. pose proof (same_graph_wf _ _ M1 Hwf) as Hwf1.
  assert (∀ s, live f1 s → visited f1 s = true ↔ useful f1 mode s) as Hkeep.
  { intros s Hs. rewrite (M2 s Hs), M3. split; apply same_graph_useful; [done|by symmetry]. }
  assert (is_Some sed1 ↔ want_sed = true ∧ mode = FSM_TRIM_START_AND_END_REACHABLE) as Hsome.
  { rewrite <-not_eq_None_Some, M6. unfold sed0. destruct want_sed, mode; naive_solver. }
  assert (∃ sed2, (match sed1 with None => Some None | Some d => Some <$> compact_shortest_end_distance f1 d end) = Some sed2 ∧
    (is_Some sed2 ↔ is_Some sed1) ∧ match sed2 with None => True | Some d =>
      ∀ s, live f1 s → visited f1 s = true → ∃ k, d !! N.to_nat (rank (visited f1) s) = Some (N.of_nat k) ∧ end_distance f1 s k end)
    as (sed2 & -> & S1 & S2).
  { destruct sed1 as [d|]; [|exists None; done]. destruct (proj1 Hsome ltac:(eauto)) as [_ ->].
    destruct (compact_sed_spec f1 D l d) as (d' & E & Hd'); [done|done| |].
    { destruct M1 as (Hc & _). unfold sed_ok, live in M4 |- *. by rewrite Hc. }
    exists (Some d'). rewrite E. split; [done|]. split; [split; eauto|]. intros s Hs Hv. exists (D s).
    split; [by apply Hd'|]. apply (same_graph_distance f); [done|]. apply M5; [done|]. by apply (M2 s Hs). }
  cbn [mbind option_bind].
  destruct (fsm_compact_states_spec (visited f1) f1) as (f2 & E2 & Hc);
    [done|by eapply same_graph_meta|by eapply same_graph_blanks|].
  unfold sweep_states. change (marks_filter_cb f1) with (visited f1). rewrite E2. cbn [mbind option_bind].
  rewrite (proj2 (Z.ltb_ge _ _)) by lia.
  exists f1, f2, sed2. split.
  { by destruct M1 as (-> & _). }
  by rewrite S1.
Qed.

Lemma fsm_trim_correct f mode want_sed :
  fsm_wf f → fsm_meta f → blanks_ok f → flags f [] → 0 < f_statecount f →
  ∃ f' sed, fsm_trim f mode want_sed = Some (Z.of_nat (f_statecount f - f_statecount f'), f', sed) ∧
    fsm_wf f' ∧ fsm_meta f' ∧ blanks_ok f' ∧ flags f' [] ∧ f_statecount f' ≤ f_statecount f ∧
    (∀ w, language f' w ↔ language f w) ∧ (∀ s, live f' s → useful f' mode s) ∧
    distances_ok f' sed ∧ (is_Some sed ↔ want_sed = true ∧ mode = FSM_TRIM_START_AND_END_REACHABLE).
Proof.
  intros Hwf Hmeta Hbl Hfl Hpos.
  destruct (fsm_trim_compacts f mode want_sed Hwf Hmeta Hbl Hfl Hpos) as (f1 & f2 & sed2 & E & M1 & Hkeep & Hc & S2 & Hsome).
  pose proof (same_graph_wf _ _ M1 Hwf) as Hwf1.
  pose proof (cp_wf _ _ _ Hc) as Hwf2. destruct (clear_visited_spec f2 Hwf2) as [C1 C2].
  pose proof (same_graph_blanks _ _ M1 Hbl) as Hbl1.
  exists (clear_visited f2), sed2. split; [by destruct C1 as (-> & _)|].
  split; [by eapply same_graph_wf|]. split; [eapply same_graph_meta; [done|apply Hc]|].
  split; [eapply same_graph_blanks; [done|apply Hc]|]. split; [done|].
  split; [destruct C1 as (-> & _), M1 as (<- & _); rewrite (cp_count _ _ _ Hc); apply length_kept_ids|].
  assert (∀ s, live (clear_visited f2) s → ∃ s0, live f1 s0 ∧ visited f1 s0 = true ∧ s = rank (visited f1) s0) as Hl2.
  { intros s. rewrite (same_graph_live f2) by done. by apply live_kept, Hc. }
  split; [|split; [|split; [|exact Hsome]]].
  - intros w. unfold language. rewrite (same_graph_nfa _ _ C1).
    etrans; [by apply (sweep_language (visited f1) f1 f2 mode)|]. unfold language. by rewrite (same_graph_nfa _ _ M1).
  - intros s (s0 & Hs0 & Hv & ->)%Hl2. apply (same_graph_useful f2); [done|].
    apply (kept_useful (visited f1) f1); try done. by apply Hkeep.
  - destruct sed2 as [d|]; [|done]. intros s (s0 & Hs0 & Hv & ->)%Hl2. destruct (S2 s0 Hs0 Hv) as (k & Hk & He).
    exists k. split; [done|]. apply (same_graph_distance f2); [done|].
    apply (end_distance_kept (visited f1) f1 f2 mode); try done. by apply Hkeep.
Qed.

(** What trimming leaves: the states [kept], under the names [ρ] gives them. *)
Record trimmed (f : fsm) (mode : fsm_trim_mode) (f' : fsm) (kept : N → Prop) (ρ : N → N) : Prop := {
  tr_useful s : live f s → kept s ↔ useful f mode s;
  tr_renames : renames (restrict (nfa_of f) kept) (nfa_of f') (λ s, live f s ∧ kept s) ρ;
  tr_live s' : live f' s' ↔ ∃ s, live f s ∧ kept s ∧ s' = ρ s;
  tr_start s' : fsm_getstart f' = Some s' ↔ ∃ s, fsm_getstart f = Some s ∧ kept s ∧ s' = ρ s;
  tr_captures : f_capture_info f' = f_capture_info f;
  tr_endids s : live f s → kept s → endids (f_endid_info f') (ρ s) = endids (f_endid_info f) s;
  tr_eager s : live f s → kept s → eager_outputs (f_eager_output_info f') (ρ s) = eager_outputs (f_eager_output_info f) s;
  tr_flag s : live f s → kept s → st_has_eager_outputs (get_state f' (ρ s)) = st_has_eager_outputs (get_state f s);
}.

Lemma fsm_trim_trimmed f mode want_sed r f' sed :
  fsm_inv f → 0 < f_statecount f → fsm_trim f mode want_sed = Some (r, f', sed) → ∃ kept ρ, trimmed f mode f' kept ρ.
Proof.
  intros [Hwf Hmeta Hbl Hfl] Hpos E'.
  destruct (fsm_trim_compacts f mode want_sed Hwf Hmeta Hbl Hfl Hpos) as (f1 & f2 & sed2 & E & M1 & Hkeep & Hc & _).
  rewrite E in E'. injection E' as <- <- <-. pose proof (same_graph_wf _ _ M1 Hwf) as Hwf1. pose proof (same_graph_blanks _ _ M1 Hbl) as Hbl1.
  destruct (clear_visited_spec f2 (cp_wf _ _ _ Hc)) as [C1 _]. pose proof (compacts_renames (visited f1) f1 f2 Hwf1 Hbl1 Hc) as [R1 R2 R3 R4 R5 R6].
  destruct (same_graph_nfa _ _ M1) as (N1 & N2 & N3 & N4). destruct (same_graph_nfa _ _ C1) as (P1 & P2 & P3 & P4).
  pose proof M1 as (_ & _ & _ & _ & _ & _ & G7 & G8 & G9 & _). pose proof C1 as (_ & _ & _ & _ & _ & _ & D7 & D8 & D9 & _).
  assert (∀ s, live f1 s ↔ live f s) as Hlive by (intros s; by apply same_graph_live).
  exists (λ s, visited f1 s = true), (rank (visited f1)). cbn in *. split.
  - intros s Hs. rewrite Hkeep by (by apply Hlive). split; apply same_graph_useful; [by symmetry|done].
  - setoid_rewrite Hlive in R1. setoid_rewrite Hlive in R2. setoid_rewrite Hlive in R3. setoid_rewrite Hlive in R4. setoid_rewrite Hlive in R5.
    setoid_rewrite Hlive in R6. split; cbn; [done|..]; intros.
    + eapply R2; [|done]. by rewrite N1.
    + eapply R3; [|done]. by rewrite N2.
    + rewrite P1, R4 by done. by setoid_rewrite N1.
    + rewrite P2, R5 by done. by setoid_rewrite N2.
    + rewrite P3, R6 by done. by rewrite N3.
  - intros s'. rewrite (same_graph_live f2) by done. rewrite (live_kept (visited f1) f1 f2) by apply Hc. by setoid_rewrite Hlive.
  - intros s'. etrans; [apply P4|]. rewrite (cp_start _ _ _ Hc). by setoid_rewrite N4.
  - rewrite D7, (cp_captures _ _ _ Hc). done.
  - intros s Hs Hk. rewrite D8, (cp_endids _ _ _ Hc), G8; [done|by apply Hlive|done].
  - intros s Hs Hk. rewrite D9, (cp_eager _ _ _ Hc), G9; [done|by apply Hlive|done].
  - intros s Hs Hk. destruct (same_graph_state _ _ (rank (visited f1) s) C1) as (_ & _ & _ & _ & ->).
    rewrite (cp_state _ _ _ Hc) by (done || by apply Hlive). by destruct (same_graph_state _ _ s M1) as (_ & _ & _ & _ & <-).
Qed.

(** ** Properties *)

(** C3. Trimming never fails with enough memory and keeps the language: it
    returns the number of states removed, and every state left can be reached
    from the start state and, in the mode that asks for it, leads to an end
    state. Both searches end within one iteration per state, no queue
    overflows, and no assertion fails; the invariant of the automaton holds
    again. *)
Theorem fsm_trim_language f mode want_sed :
  fsm_inv f → 0 < f_statecount f →
  ∃ f' sed, fsm_trim f mode want_sed = Some (Z.of_nat (f_statecount f - f_statecount f'), f', sed) ∧
    fsm_inv f' ∧ f_statecount f' ≤ f_statecount f ∧
    (∀ w, language f' w ↔ language f w) ∧ (∀ s, live f' s → useful f' mode s).
Proof.
  intros [H1 H2 H3 H4] Hpos.
  destruct (fsm_trim_correct f mode want_sed H1 H2 H3 H4 Hpos) as (f' & sed & E & K1 & K2 & K3 & K4 & K5 & K6 & K7 & _).
  exists f', sed. split; [done|]. split; [by split|]. done.
Qed.

(** C18. The table [fsm_trim] returns holds, for every state left, the length of
    the shortest path from it to an end state, epsilon transitions counted as
    steps. *)
Theorem fsm_trim_end_distances f :
  fsm_inv f → 0 < f_statecount f →
  ∃ r f' d, fsm_trim f FSM_TRIM_START_AND_END_REACHABLE true = Some (r, f', Some d) ∧
    ∀ s, live f' s → ∃ k, d !! N.to_nat s = Some (N.of_nat k) ∧ end_distance f' s k.
Proof.
  intros [H1 H2 H3 H4] Hpos.
  destruct (fsm_trim_correct f FSM_TRIM_START_AND_END_REACHABLE true H1 H2 H3 H4 Hpos)
    as (f' & sed & E & _ & _ & _ & _ & _ & _ & _ & Hd & Hs).
  destruct (proj2 Hs) as [d ->]; [done|]. eauto.
Qed.
End Trim.

(** The calls that change an automaton, with what their arguments must
    satisfy. Every call has an allocator of its own, so that memory may run out
    in any of them and be there again in the next. A [fsm_trim] is only a step
    when its memory suffices: one that fails leaves flags set. End ids are set
    while no state with ids has been removed ([endid_wf]), since renumbering
    leaves [buckets_used] too large. *)
Inductive api_step : fsm → fsm → Prop :=
  | api_build (A : allocator) f op b f' :
      build_op_ok (f_statecount f) op → build_exec f op = (b, f') → api_step f f'
  | api_setendid (A : allocator) f id b f' :
      endid_wf (f_endid_info f) → id_ok id →
      (N.of_nat (ei_buckets_used (f_endid_info f) + f_statecount f) < 1073741824)%N →
      fsm_setendid f id = Some (b, f') → api_step f f'
  | api_eager (A : allocator) f s id b f' :
      live f s → id_ok id → eager_room (f_eager_output_info f) → eager_set f s id = Some (b, f') → api_step f f'
  | api_trim (A : allocator) f mode want_sed r f' sed :
      alloc_total → fsm_trim f mode want_sed = Some (r, f', sed) → api_step f f'.

(** C17. The invariant holds after any sequence of calls on a new automaton:
    adding states and edges, setting end states, the start state, end ids and
    eager outputs, whether they succeed or run out of memory, and trims with
    enough memory, in any order. A trim that runs out of memory is not a step,
    as it leaves flags set, and end ids are only set before a trim has removed
    a state with ids. *)
Theorem fsm_inv_reachable `{allocator} al f0 f :
  fsm_new al = Some f0 → rtc api_step f0 f → fsm_inv f.
Proof.
  intros Hnew Hr. pose proof (inv_new al f0 Hnew) as Hi. clear Hnew.
  induction Hr as [|f f1 f2 Hs Hr IH]; [done|]. apply IH.
  destruct Hs as [A f op b f' Hok E|A f id b f' Hw Hid Hroom E|A f s id b f' Hs Hid Hroom E|A f mode want r f' sed Ht E].
  - by eapply (@inv_build_exec A).
  - apply (@inv_setendid A (live_ids f) id f b f'); [done|done| |intros s; apply elem_of_live_ids|done|exact E].
    unfold live_ids. by rewrite length_fmap, length_seq.
  - exact (@inv_eager_set A f s id b f' Hi Hroom Hs Hid E).
  - destruct (decide (0 < f_statecount f)) as [Hpos|Hz].
    + destruct Hi as [H1 H2 H3 H4].
      destruct (@fsm_trim_correct A Ht f mode want H1 H2 H3 H4 Hpos) as (f2' & sed' & E' & K1 & K2 & K3 & K4 & _).
      rewrite E in E'. injection E' as -> -> ->. by split.
    + unfold fsm_trim in E. rewrite (proj2 (Nat.eqb_eq _ _)) in E by lia. by injection E as <- <- <-.
Qed.

(** ** Witnesses *)

(** State 2 leads nowhere and nothing leads to state 3. *)
Definition trim_ops : list build_op :=
  [BAddState; BAddState; BAddState; BAddState; BStart 0%N; BLiteral 0%N 1%N 97; BLiteral 0%N 2%N 98;
   BLiteral 3%N 1%N 99; BEpsilon 1%N 0%N; BEnd 1%N true].

Lemma fsm_trim_language_witness :
  ∃ f' sed, @fsm_trim always (@build_from_new always trim_ops) FSM_TRIM_START_AND_END_REACHABLE false = Some (2%Z, f', sed) ∧
    fsm_inv f' ∧ ∀ w, language f' w ↔ language (@build_from_new always trim_ops) w.
Proof.
  destruct (@fsm_trim_language always always_total (@build_from_new always trim_ops) FSM_TRIM_START_AND_END_REACHABLE false)
    as (f' & sed & E & Hi & _ & Hl & _).
  - apply inv_build_from_new. reflexivity.
  - vm_compute. lia.
  - assert (f_statecount f' = 2) as Hc by (vm_compute in E; by injection E as _ <- _).
    exists f', sed. split; [|split; [exact Hi|exact Hl]]. rewrite E, Hc. reflexivity.
Defined.

Lemma fsm_trim_end_distances_witness :
  ∃ r f', @fsm_trim always (@build_from_new always trim_ops) FSM_TRIM_START_AND_END_REACHABLE true =
      Some (r, f', Some [1; 0; 4294967295; 4294967295]%N) ∧ end_distance f' 0%N 1 ∧ end_distance f' 1%N 0.
Proof.
  destruct (@fsm_trim_end_distances always always_total (@build_from_new always trim_ops)) as (r & f' & d & E & Hd).
  - apply inv_build_from_new. reflexivity.
  - vm_compute. lia.
  - assert (d = [1; 0; 4294967295; 4294967295]%N ∧ f_statecount f' = 2) as [-> Hc].
    { vm_compute in E. by injection E as _ <- <-. }
    exists r, f'. split; [exact E|]. split.
    + destruct (Hd 0%N) as (k & [= Hk] & Hk'); [unfold live; rewrite Hc; lia|]. by replace 1 with k by lia.
    + destruct (Hd 1%N) as (k & [= Hk] & Hk'); [unfold live; rewrite Hc; lia|]. by replace 0 with k by lia.
Defined.

(** No memory at all. *)
Definition no_memory : allocator := {|
  libc_malloc _ := false; libc_calloc _ _ := false; libc_realloc _ := false;
  hook_malloc _ _ := false; hook_calloc _ _ _ := false; hook_realloc _ _ := false;
|}.

(** Two states are added; an edge fails for want of memory and is added again;
    an end id and an eager output are set; the automaton is trimmed. *)
Lemma fsm_inv_reachable_witness :
  ∃ f0 f, @fsm_new always 0%N = Some f0 ∧ rtc api_step f0 f ∧ f_statecount f = 2 ∧ endids (f_endid_info f) 1 = [7]%N ∧ fsm_inv f.
Proof.
  assert (∃ f0 f, @fsm_new always 0%N = Some f0 ∧ rtc api_step f0 f ∧ f_statecount f = 2 ∧ endids (f_endid_info f) 1 = [7]%N)
    as (f0 & f & E & Hr & Hc & He).
  { eexists _, _. split; [vm_compute; reflexivity|]. split.
    - eapply rtc_l; [apply (api_build always _ BAddState true); [by_compute|vm_compute; reflexivity]|].
      eapply rtc_l; [apply (api_build always _ BAddState true); [by_compute|vm_compute; reflexivity]|].
      eapply rtc_l; [apply (api_build always _ (BStart 0%N) true); [by_compute|vm_compute; reflexivity]|].
      eapply rtc_l; [apply (api_build always _ (BEnd 1%N true) true); [by_compute|vm_compute; reflexivity]|].
      eapply rtc_l; [apply (api_build no_memory _ (BLiteral 0%N 1%N 97) false); [by_compute|vm_compute; reflexivity]|].
      eapply rtc_l; [apply (api_build always _ (BLiteral 0%N 1%N 97) true); [by_compute|vm_compute; reflexivity]|].
      eapply rtc_l; [apply (api_setendid always _ 7%N true); [exact fresh_endid_wf|reflexivity|reflexivity|vm_compute; reflexivity]|].
      eapply rtc_l; [apply (api_eager always _ 0%N 3%N true); [by_compute|reflexivity|reflexivity|vm_compute; reflexivity]|].
      eapply rtc_l; [eapply (api_trim always _ FSM_TRIM_START_AND_END_REACHABLE false); [exact always_total|vm_compute; reflexivity]|].
      apply rtc_refl.
    - split; vm_compute; reflexivity. }
  exists f0, f. split; [exact E|]. split; [exact Hr|]. split; [exact Hc|]. split; [exact He|].
  exact (@fsm_inv_reachable always 0%N f0 _ E Hr).
Defined.

(** ** Out of memory *)

(** Memory for everything but the offset table. *)
Definition no_offsets : allocator := {|
  libc_malloc _ := true; libc_calloc _ sz := negb (sz =? 8)%N; libc_realloc _ := true;
  hook_malloc _ _ := true; hook_calloc _ _ _ := true; hook_realloc _ _ := true;
|}.

Definition retry_ops : list build_op := [BAddState; BAddState; BStart 0%N; BLiteral 0%N 1%N 97; BEnd 1%N true].

(** A [fsm_trim] that runs out of memory in the second walk returns -1 but
    leaves visited flags set, so that calling it again, with memory, takes the
    states for visited, finds no end state and removes them all: an automaton
    that accepts "a" is emptied. *)
Theorem fsm_trim_failure_leaves_marks :
  let f := @build_from_new always retry_ops in
  ∃ f1 f2, @fsm_trim no_offsets f FSM_TRIM_START_AND_END_REACHABLE false = Some ((-1)%Z, f1, None) ∧
    @fsm_trim always f1 FSM_TRIM_START_AND_END_REACHABLE false = Some (2%Z, f2, None) ∧
    language f [97] ∧ ∀ w, ¬ language f2 w.
Proof.
  intros f. eexists _, _. split; [vm_compute; reflexivity|]. split; [vm_compute; reflexivity|]. split.
  - exists 0%N, 1%N. split; [reflexivity|]. split.
    + eapply path_step; [|constructor]. split; [by_compute|]. eexists. split; [left|]. split; reflexivity.
    + split; [by_compute|reflexivity].
  - intros w (s & t & Hs & _). by vm_compute in Hs.
Qed.
