(* ===== verification/Capture.v ===== *)
(** * Capture actions: src/libfsm/capture.c

    Capture actions are kept in an add-only hash table with linear probing,
    keyed by the state they are on; a state may have several. While an input is
    matched, [fsm_capture_update_captures] runs the actions of the state that
    is left. The table is a multimap: its invariant is that no empty bucket
    comes before an entry on the probe sequence of its state.

    The depth-first search of [fsm_capture_set_path] that decides which actions
    to add is not modelled. *)

From S2P Require Import Prelude StateSet Bits EdgeSet EdgeIter EdgeCompact Probe Endids EagerOutput Fsm FsmSpec.

#[export] Instance capture_action_type_eq_dec : EqDecision capture_action_type.
Proof. solve_decision. Defined.
#[export] Instance fsm_capture_action_eq_dec : EqDecision fsm_capture_action.
Proof. solve_decision. Defined.

Definition FSM_CAPTURE_NO_POS : N := 18446744073709551615.
Definition COMMITTED_CAPTURE_FLAG : N := 9223372036854775808.
Definition CAPTURE_NO_STATE : N := 4294967295.
Definition NEXT_STATE_END : N := 4294967295.
Definition DEF_CAPTURE_ACTION_BUCKET_COUNT : nat := 32.
Definition FSM_CAPTURE_MAX : N := 2147483647.

Abbreviation ctable := (list (option (N * fsm_capture_action))).

Definition fsm_countcaptures (f : fsm) : N :=
  if ci_buckets_used (f_capture_info f) =? 0 then 0%N
  else (ci_max_capture_id (f_capture_info f) +32 1)%cint.

Definition fsm_capture_has_captures (f : fsm) : bool := 0 <? ci_buckets_used (f_capture_info f).

Definition fsm_capture_has_capture_actions (f : fsm) (state : N) : bool :=
  st_has_capture_actions (get_state f state).

(** ** Adding actions *)

Section Ops.
Context `{allocator}.

Definition init_capture_action_htab (al : fsm_alloc) (ci : fsm_capture_info) : bool * fsm_capture_info :=
  if 0 <? length (ci_buckets ci) then (true, ci)
  else if f_malloc al (N.of_nat DEF_CAPTURE_ACTION_BUCKET_COUNT * 16) then
    (true, mk_capture (ci_max_capture_id ci) (ci_buckets_used ci) (replicate DEF_CAPTURE_ACTION_BUCKET_COUNT None))
  else (false, ci).

(** Moving every entry to a table of twice the size, computed in 32 bits. An
    entry that finds no bucket would be dropped; [None] where an assertion on
    the count fails. *)
Fixpoint move_entries (l : ctable) (t : ctable) (nused : nat) : ctable * nat :=
  match l with
  | [] => (t, nused)
  | None :: l => move_entries l t nused
  | Some (k, v) :: l =>
      match place t k v with
      | Some t => move_entries l t (nused + 1)
      | None => move_entries l t nused
      end
  end.

Definition grow_capture_action_buckets (al : fsm_alloc) (ci : fsm_capture_info) : option (bool * fsm_capture_info) :=
  let ncount := u32n (2 * length (ci_buckets ci)) in
  if ncount =? 0 then None
  else if f_malloc al (N.of_nat ncount * 16) then
    let '(nbuckets, nused) := move_entries (ci_buckets ci) (replicate ncount None) 0 in
    if nused =? ci_buckets_used ci then
      Some (true, mk_capture (ci_max_capture_id ci) (ci_buckets_used ci) nbuckets)
    else None
  else Some (false, ci).

(** The probe loop: the index of the bucket that is empty ([true]) or has the
    action already ([false]). *)
Fixpoint find_action (n i : nat) (t : ctable) (state : N) (action : fsm_capture_action) : option (nat * bool) :=
  match n with
  | 0 => None
  | S n =>
      match t !! slot t state i with
      | Some None => Some (slot t state i, true)
      | Some (Some (k, v)) =>
          if (k =? state)%N && bool_decide (action = v) then Some (slot t state i, false)
          else find_action n (i + 1) t state action
      | None => None
      end
  end.

(** The result is the return value and the automaton; [None] where an
    assertion fails. *)
Definition add_capture_action (f : fsm) (state : N) (action : fsm_capture_action) : option (bool * fsm) :=
  let ci := f_capture_info f in
  if (state <? N.of_nat (f_statecount f))%N &&
     ((ca_to action =? CAPTURE_NO_STATE)%N || (ca_to action <? N.of_nat (f_statecount f))%N) then
    '(ok, ci) ←
      (if length (ci_buckets ci) =? 0 then Some (init_capture_action_htab (f_alloc f) ci)
       else if length (ci_buckets ci) / 2 <=? ci_buckets_used ci then grow_capture_action_buckets (f_alloc f) ci
       else Some (true, ci));
    if (ok : bool) then
      '(j, fresh) ← find_action (length (ci_buckets ci)) 0 (ci_buckets ci) state action;
      if (fresh : bool) then
        let ci := mk_capture
          (if (ci_max_capture_id ci <? ca_id action)%N then ca_id action else ci_max_capture_id ci)
          (ci_buckets_used ci + 1) (<[j := Some (state, action)]> (ci_buckets ci)) in
        Some (true, upd_state (with_capture_info f ci) state (set_has_capture true))
      else if st_has_capture_actions (get_state f state) && (ca_id action <=? ci_max_capture_id ci)%N then
        Some (true, with_capture_info f ci)
      else None
    else Some (false, with_capture_info f ci)
  else None.

Definition fsm_capture_add_action (f : fsm) (state : N) (type : capture_action_type) (id to : N) : option (bool * fsm) :=
  add_capture_action f state (mk_action id type to).

(** ** Renumbering *)

Definition rebase_id (base : N) (acc : N * ctable) (b : option (N * fsm_capture_action)) : N * ctable :=
  let '(max, t) := acc in
  match b with
  | None => (max, t ++ [None])
  | Some (s, a) =>
      let id := (ca_id a +32 base)%cint in
      (if (max <? id)%N then id else max, t ++ [Some (s, mk_action id (ca_type a) (ca_to a))])
  end.

Definition fsm_capture_rebase_capture_id (ci : fsm_capture_info) (base : N) : fsm_capture_info :=
  let '(max, t) := foldl (rebase_id base) (ci_max_capture_id ci, []) (ci_buckets ci) in
  mk_capture max (ci_buckets_used ci) t.

Definition rebase_states (base : N) (b : option (N * fsm_capture_action)) : option (N * fsm_capture_action) :=
  match b with
  | None => None
  | Some (s, a) =>
      Some ((s +32 base)%cint, mk_action (ca_id a) (ca_type a)
        (if (ca_to a =? CAPTURE_NO_STATE)%N then ca_to a else (ca_to a +32 base)%cint))
  end.

Definition fsm_capture_rebase_capture_action_states (ci : fsm_capture_info) (base : N) : fsm_capture_info :=
  mk_capture (ci_max_capture_id ci) (ci_buckets_used ci) (rebase_states base <$> ci_buckets ci).

(** The actions [fsm_capture_action_iter] passes to its callback. *)
Definition fsm_capture_action_iter (ci : fsm_capture_info) : list (N * fsm_capture_action) := entries (ci_buckets ci).

(** Adding a list of actions, as the callbacks that copy actions do. *)
Fixpoint add_actions (l : list (N * fsm_capture_action)) (f : fsm) : option (bool * fsm) :=
  match l with
  | [] => Some (true, f)
  | (s, a) :: l =>
      '(ok, f) ← fsm_capture_add_action f s (ca_type a) (ca_id a) (ca_to a);
      if (ok : bool) then add_actions l f else Some (false, f)
  end.
End Ops.

(** ** Running actions *)

(** [struct fsm_capture]: the two positions. *)
Abbreviation fsm_capture := (N * N)%type.

(** One action, on the positions of its capture. *)
Definition run_action (next_state offset : N) (a : fsm_capture_action) (c : fsm_capture) : fsm_capture :=
  match ca_type a with
  | CAPTURE_ACTION_START =>
      if (next_state =? ca_to a)%N && (c.1 =? FSM_CAPTURE_NO_POS)%N then (offset, c.2) else c
  | CAPTURE_ACTION_EXTEND =>
      if negb (c.1 =? FSM_CAPTURE_NO_POS)%N && (N.land c.2 COMMITTED_CAPTURE_FLAG =? 0)%N then
        if (next_state =? ca_to a)%N then (c.1, offset) else c
      else c
  | CAPTURE_ACTION_COMMIT_ZERO_STEP =>
      if (c.1 =? FSM_CAPTURE_NO_POS)%N then (offset, N.lor offset COMMITTED_CAPTURE_FLAG)
      else (c.1, N.lor offset COMMITTED_CAPTURE_FLAG)
  | CAPTURE_ACTION_COMMIT => (c.1, N.lor offset COMMITTED_CAPTURE_FLAG)
  end.

(** [None] where the capture is outside the caller's array. *)
Definition apply_action (next_state offset : N) (captures : list fsm_capture) (a : fsm_capture_action)
    : option (list fsm_capture) :=
  c ← captures !! N.to_nat (ca_id a);
  Some (<[N.to_nat (ca_id a) := run_action next_state offset a c]> captures).

Fixpoint update_loop (n i : nat) (t : ctable) (cur_state next_state offset : N) (captures : list fsm_capture)
    : option (list fsm_capture) :=
  match n with
  | 0 => Some captures
  | S n =>
      match t !! slot t cur_state i with
      | Some (Some (k, a)) =>
          if (k =? cur_state)%N then
            captures ← apply_action next_state offset captures a;
            update_loop n (i + 1) t cur_state next_state offset captures
          else update_loop n (i + 1) t cur_state next_state offset captures
      | _ => Some captures
      end
  end.

Definition fsm_capture_update_captures (f : fsm) (cur_state next_state offset : N) (captures : list fsm_capture)
    : option (list fsm_capture) :=
  let t := ci_buckets (f_capture_info f) in
  if st_has_capture_actions (get_state f cur_state) then
    update_loop (length t) 0 t cur_state next_state offset captures
  else None.

Definition finalize_capture (c : fsm_capture) : fsm_capture :=
  if (c.1 =? FSM_CAPTURE_NO_POS)%N || (c.2 =? FSM_CAPTURE_NO_POS)%N || (N.land c.2 COMMITTED_CAPTURE_FLAG =? 0)%N then
    (FSM_CAPTURE_NO_POS, FSM_CAPTURE_NO_POS)
  else if negb (N.land c.2 COMMITTED_CAPTURE_FLAG =? 0)%N then (c.1, N.ldiff c.2 COMMITTED_CAPTURE_FLAG)
  else c.

(** The first [capture_count] entries of the array; [None] where it is
    shorter. *)
Definition fsm_capture_finalize_captures (capture_count : nat) (captures : list fsm_capture)
    : option (list fsm_capture) :=
  if capture_count <=? length captures then
    Some ((finalize_capture <$> take capture_count captures) ++ drop capture_count captures)
  else None.

(** ** Invariant *)

Definition mtable_ok (t : ctable) : Prop :=
  pow2_size t ∧
  ∀ j k v, t !! j = Some (Some (k, v)) →
    ∃ d, d < length t ∧ slot t k d = j ∧ ∀ i, i < d → t !! slot t k i ≠ Some None.

(** The actions of a state, in the order probing meets them. *)
Fixpoint chain_loop (n i : nat) (t : ctable) (key : N) : list fsm_capture_action :=
  match n with
  | 0 => []
  | S n =>
      match t !! slot t key i with
      | Some (Some (k, a)) => if (k =? key)%N then a :: chain_loop n (i + 1) t key else chain_loop n (i + 1) t key
      | _ => []
      end
  end.

Definition chain (t : ctable) (key : N) : list fsm_capture_action := chain_loop (length t) 0 t key.

(** Half the buckets are free, the entries are distinct and the maximum is one. *)
Definition capture_wf (ci : fsm_capture_info) : Prop :=
  ci_buckets_used ci = length (entries (ci_buckets ci)) ∧ NoDup (entries (ci_buckets ci)) ∧
  (∀ s a, (s, a) ∈ entries (ci_buckets ci) → (ca_id a ≤ ci_max_capture_id ci)%N) ∧
  (ci_buckets ci = [] ∨ mtable_ok (ci_buckets ci) ∧ 32 ≤ length (ci_buckets ci) ∧
     ci_buckets_used ci ≤ length (ci_buckets ci) / 2).

(** Room to double the table: [bucket_count] is a 32-bit number. *)
Definition capture_room (ci : fsm_capture_info) : Prop := (N.of_nat (length (ci_buckets ci)) < 2147483648)%N.

(** The actions stored for a state. *)
Definition capture_actions (ci : fsm_capture_info) (s : N) (a : fsm_capture_action) : Prop :=
  (s, a) ∈ entries (ci_buckets ci).

(** A state with actions is marked. *)
Definition capture_inv (f : fsm) : Prop :=
  capture_wf (f_capture_info f) ∧
  ∀ s a, capture_actions (f_capture_info f) s a → st_has_capture_actions (get_state f s) = true.

(** ** Lemmas: probing *)

Lemma slot_inj (t : ctable) key i j :
  pow2_size t → i < length t → j < length t → slot t key i = slot t key j → i = j.
Proof.
  intros (m & Hm & Hl) Hi Hj. rewrite !(slot_mod t key _ m) by done.
  set (n := length t) in *. set (h := N.to_nat _). intros E. assert (n ≠ 0) as Hn by lia.
  assert (∀ a b, a ≤ b → b < n → (h + a) mod n = (h + b) mod n → a = b) as Hg.
  { intros a b Hab Hb Heq. pose proof (Nat.div_mod (h + a) n Hn) as H1. pose proof (Nat.div_mod (h + b) n Hn) as H2.
    rewrite <-Heq in H2. assert (b - a = n * ((h + b) / n) - n * ((h + a) / n)) as Hd by lia.
    rewrite <-Nat.mul_sub_distr_l in Hd. destruct ((h + b) / n - (h + a) / n) as [|q]; [lia|].
    rewrite Nat.mul_succ_r in Hd. lia. }
  destruct (decide (i ≤ j)); [apply Hg|symmetry; apply Hg]; lia || done.
Qed.

Lemma chain_loop_sound t key n : ∀ i a,
  a ∈ chain_loop n i t key → ∃ d, i ≤ d < i + n ∧ t !! slot t key d = Some (Some (key, a)).
Proof.
  induction n as [|n IH]; intros i a Ha; cbn [chain_loop] in Ha; [by apply not_elem_of_nil in Ha|].
  destruct (t !! slot t key i) as [[[k v]|]|] eqn:E; [|by apply not_elem_of_nil in Ha..].
  assert (a ∈ chain_loop n (i + 1) t key → ∃ d, i ≤ d < i + S n ∧ t !! slot t key d = Some (Some (key, a))) as Hr.
  { intros (d & Hd & Ht)%IH. exists d. split; [lia|done]. }
  destruct (k =? key)%N eqn:Ek; [|auto]. apply N.eqb_eq in Ek as ->.
  apply elem_of_cons in Ha as [->|Ha]; [|auto]. exists i. split; [lia|done].
Qed.

Lemma chain_loop_complete t key a d n : ∀ i,
  i ≤ d < i + n → t !! slot t key d = Some (Some (key, a)) →
  (∀ i', i ≤ i' < d → slot t key i' < length t ∧ t !! slot t key i' ≠ Some None) → a ∈ chain_loop n i t key.
Proof.
  induction n as [|n IH]; intros i Hi Hd Hne; [lia|]. cbn [chain_loop].
  destruct (decide (i = d)) as [->|Hid].
  { rewrite Hd, N.eqb_refl. left. }
  destruct (Hne i ltac:(lia)) as [Hlt Hn]. destruct (lookup_lt_is_Some_2 _ _ Hlt) as [b Hb]. rewrite Hb in *.
  destruct b as [[k v]|]; [|done].
  assert (a ∈ chain_loop n (i + 1) t key) as Hr by (apply IH; [lia|done|]; intros; apply Hne; lia).
  destruct (k =? key)%N; [by right|done].
Qed.

Lemma elem_of_chain t key a : mtable_ok t → a ∈ chain t key ↔ Some (key, a) ∈ t.
Proof.
  intros [Hp Hm]. split.
  - intros (d & _ & Hd)%chain_loop_sound. apply list_elem_of_lookup. eauto.
  - intros [j Hj]%list_elem_of_lookup. destruct (Hm _ _ _ Hj) as (d & Hd & Hs & Hne). subst j.
    apply (chain_loop_complete t key a d); [lia|done|]. intros i' Hi'. split; [by apply slot_in|apply Hne; lia].
Qed.

Lemma NoDup_lookup_entries (t : ctable) i j b :
  NoDup (entries t) → t !! i = Some (Some b) → t !! j = Some (Some b) → i = j.
Proof.
  revert i j; induction t as [|x t IH]; intros [|i] [|j] Hnd Hi Hj; try done; rewrite entries_cons in Hnd; simpl in Hi, Hj.
  - injection Hi as ->. apply NoDup_cons in Hnd as [Hn _]. destruct Hn. apply elem_of_entries, list_elem_of_lookup. eauto.
  - injection Hj as ->. apply NoDup_cons in Hnd as [Hn _]. destruct Hn. apply elem_of_entries, list_elem_of_lookup. eauto.
  - f_equal. apply IH; [|done|done]. destruct x; [by apply NoDup_cons in Hnd as [_ ?]|done].
Qed.

Lemma NoDup_chain t key : mtable_ok t → NoDup (entries t) → NoDup (chain t key).
Proof.
  intros [Hp _] Hnd. unfold chain.
  assert (∀ n i, i + n ≤ length t → NoDup (chain_loop n i t key)) as Hg; [|apply Hg; lia].
  induction n as [|n IH]; intros i Hi; cbn [chain_loop]; [constructor|].
  specialize (IH (i + 1) ltac:(lia)).
  destruct (t !! slot t key i) as [[[k v]|]|] eqn:E; [|constructor..].
  destruct (k =? key)%N eqn:Ek; [|done]. apply N.eqb_eq in Ek as ->. constructor; [|done].
  intros (d & Hd & Ht)%chain_loop_sound. pose proof (NoDup_lookup_entries _ _ _ _ Hnd E Ht) as Heq.
  apply slot_inj in Heq; [lia|done|lia|lia].
Qed.

(** The update loop runs the actions of the chain. *)
Definition run_actions (next_state offset : N) (l : list fsm_capture_action) (captures : list fsm_capture)
    : option (list fsm_capture) :=
  foldl (λ acc a, captures ← acc; apply_action next_state offset captures a) (Some captures) l.

Lemma run_actions_none next_state offset l :
  foldl (λ acc a, captures ← acc; apply_action next_state offset captures a) None l = None.
Proof. induction l; [done|]. cbn [foldl]. done. Qed.

Lemma update_loop_chain t cur next offset n : ∀ i captures,
  update_loop n i t cur next offset captures = run_actions next offset (chain_loop n i t cur) captures.
Proof.
  induction n as [|n IH]; intros i captures; [done|]. cbn [update_loop chain_loop].
  destruct (t !! slot t cur i) as [[[k a]|]|]; [|done|done]. destruct (k =? cur)%N; [|apply IH].
  unfold run_actions. cbn [foldl mbind option_bind].
  destruct (apply_action next offset captures a) as [c|]; [apply IH|]. symmetry. apply run_actions_none.
Qed.

(** The actions of a state run on an array large enough for their ids. *)
Lemma run_actions_cons next offset a l captures :
  run_actions next offset (a :: l) captures =
  (captures ← apply_action next offset captures a; run_actions next offset l captures).
Proof.
  unfold run_actions. cbn [foldl mbind option_bind].
  destruct (apply_action next offset captures a); [done|]. apply run_actions_none.
Qed.

Lemma run_actions_total next offset l : ∀ captures,
  (∀ a, a ∈ l → N.to_nat (ca_id a) < length captures) →
  ∃ captures', run_actions next offset l captures = Some captures' ∧ length captures' = length captures.
Proof.
  induction l as [|a l IH]; intros captures Hl; [eauto|]. rewrite run_actions_cons. unfold apply_action.
  destruct (lookup_lt_is_Some_2 captures (N.to_nat (ca_id a))) as [c Hc]; [apply Hl; left|].
  rewrite Hc. cbn [mbind option_bind].
  destruct (IH (<[N.to_nat (ca_id a) := run_action next offset a c]> captures)) as (c' & -> & Hlen).
  { intros a' Ha'. rewrite length_insert. apply Hl. by right. }
  exists c'. split; [done|]. by rewrite Hlen, length_insert.
Qed.

(** ** Lemmas: adding *)

Lemma find_action_spec t state action n : ∀ i,
  pow2_size t → i + n = length t → (∀ i', i' < i → t !! slot t state i' ≠ Some None) →
  match find_action n i t state action with
  | Some (j, true) =>
      t !! j = Some None ∧ ∃ d, d < length t ∧ slot t state d = j ∧ ∀ i', i' < d → t !! slot t state i' ≠ Some None ∧
        (i ≤ i' → t !! slot t state i' ≠ Some (Some (state, action)))
  | Some (j, false) => t !! j = Some (Some (state, action))
  | None => ∀ i', i' < length t → t !! slot t state i' ≠ Some None
  end.
Proof.
  induction n as [|n IH]; intros i Hp Hi Hne; cbn [find_action].
  { intros i' Hi'. apply Hne. lia. }
  destruct (lookup_lt_is_Some_2 t (slot t state i)) as [b Hb]; [by apply slot_in|]. rewrite Hb.
  assert (∀ i', i' < i + 1 → b ≠ None → t !! slot t state i' ≠ Some None) as Hne'.
  { intros i' Hi' Hbn. destruct (decide (i' = i)) as [->|]; [congruence|apply Hne; lia]. }
  destruct b as [[k v]|].
  - specialize (IH (i + 1) Hp ltac:(lia) ltac:(intros; by apply Hne')).
    destruct ((k =? state)%N && bool_decide (action = v)) eqn:E.
    + apply andb_true_iff in E as [->%N.eqb_eq ->%bool_decide_eq_true]. done.
    + destruct (find_action n (i + 1) t state action) as [[j []]|]; [|done|done].
      destruct IH as (H1 & d & H2 & H3 & H4). split; [done|]. exists d. split_and!; [done|done|].
      intros i' Hi'. split; [by apply H4|]. intros Hii Hx. destruct (decide (i' = i)) as [->|].
      * rewrite Hb in Hx. injection Hx as -> ->. rewrite N.eqb_refl, bool_decide_eq_true_2 in E; done.
      * destruct (H4 i' Hi') as [_ H5]. apply H5; [lia|done].
  - split; [done|]. exists i. split_and!; [lia|done|]. intros i' Hi'. split; [by apply Hne|lia].
Qed.

Lemma slot_insert (t : ctable) j b k i : slot (<[j := b]> t) k i = slot t k i.
Proof. apply slot_length. by rewrite length_insert. Qed.

(** Filling the first empty bucket on the probe sequence of its key. *)
Lemma mtable_ok_insert t j d k v :
  mtable_ok t → d < length t → slot t k d = j → (∀ i, i < d → t !! slot t k i ≠ Some None) →
  mtable_ok (<[j := Some (k, v)]> t).
Proof.
  intros [Hp Hm] Hd Hs Hne. assert (j < length t) as Hj by (subst j; by apply slot_in).
  assert (∀ i', t !! i' ≠ Some None → <[j := Some (k, v)]> t !! i' ≠ Some None) as Hmono.
  { intros i' Hi'. destruct (decide (j = i')) as [->|]; [by rewrite list_lookup_insert_eq|by rewrite list_lookup_insert_ne]. }
  split; [unfold pow2_size; by rewrite length_insert|]. intros j' k' v' Hj'. rewrite length_insert.
  setoid_rewrite slot_insert. destruct (decide (j' = j)) as [->|Hne'].
  - rewrite list_lookup_insert_eq in Hj' by done. injection Hj' as <- <-. exists d. split_and!; [done|done|]. eauto.
  - rewrite list_lookup_insert_ne in Hj' by done. destruct (Hm _ _ _ Hj') as (d' & H1 & H2 & H3). exists d'. eauto.
Qed.

Lemma entries_insert_perm (t : ctable) j b :
  t !! j = Some None → entries (<[j := Some b]> t) ≡ₚ b :: entries t.
Proof.
  revert j; induction t as [|x t IH]; intros [|j] Hj; [done|done| |].
  - injection Hj as ->. change (<[0 := Some b]> (None :: t)) with (Some b :: t). by rewrite !entries_cons.
  - change (<[S j := Some b]> (x :: t)) with (x :: <[j := Some b]> t). rewrite !entries_cons.
    specialize (IH j Hj). destruct x as [kv|]; [|done]. rewrite IH. apply perm_swap.
Qed.

Lemma place_loop_spec (t : ctable) k n : ∀ i,
  pow2_size t → i + n = length t → (∀ i', i' < i → t !! slot t k i' ≠ Some None) →
  match place_loop n i t k with
  | Some j => t !! j = Some None ∧ ∃ d, d < length t ∧ slot t k d = j ∧ ∀ i', i' < d → t !! slot t k i' ≠ Some None
  | None => ∀ i', i' < length t → t !! slot t k i' ≠ Some None
  end.
Proof.
  induction n as [|n IH]; intros i Hp Hi Hne; cbn [place_loop].
  { intros i' Hi'. apply Hne. lia. }
  destruct (lookup_lt_is_Some_2 t (slot t k i)) as [b Hb]; [by apply slot_in|]. rewrite Hb. destruct b as [kv|].
  - apply IH; [done|lia|]. intros i' Hi'. destruct (decide (i' = i)) as [->|]; [by rewrite Hb|apply Hne; lia].
  - split; [done|]. exists i. split_and!; [lia|done|done].
Qed.

Lemma mplace_spec (t : ctable) k v :
  mtable_ok t → length (entries t) < length t →
  ∃ t', place t k v = Some t' ∧ mtable_ok t' ∧ length t' = length t ∧ entries t' ≡ₚ (k, v) :: entries t.
Proof.
  intros Hok Hlt. unfold place. pose proof (place_loop_spec t k (length t) 0 (proj1 Hok) ltac:(lia) ltac:(lia)) as Hp.
  destruct (place_loop (length t) 0 t k) as [j|].
  - destruct Hp as (H1 & d & H2 & H3 & H4). cbn [mbind option_bind]. eexists; split; [done|]. split_and!.
    + by eapply mtable_ok_insert.
    + by rewrite length_insert.
    + by apply entries_insert_perm.
  - destruct (entries_empty_slot t Hlt) as [i Hi].
    destruct (slot_onto t k i (proj1 Hok)) as (d & Hd & <-); [by apply lookup_lt_Some in Hi|].
    by destruct (Hp d Hd).
Qed.

Lemma move_entries_spec l : ∀ t nused,
  mtable_ok t → length (entries t) + length (entries l) ≤ length t →
  ∃ t', move_entries l t nused = (t', nused + length (entries l)) ∧ mtable_ok t' ∧ length t' = length t ∧
    entries t' ≡ₚ entries l ++ entries t.
Proof.
  induction l as [|b l IH]; intros t nused Hok Hlen; cbn [move_entries].
  { exists t. split_and!; [f_equal; simpl; lia|done|done|done]. }
  rewrite entries_cons in *. destruct b as [[k v]|]; [|by apply IH]. simpl length in Hlen.
  destruct (mplace_spec t k v Hok ltac:(lia)) as (t1 & -> & H1 & H2 & H3).
  destruct (IH t1 (nused + 1) H1) as (t' & -> & K1 & K2 & K3).
  { rewrite H3, H2. simpl. lia. }
  exists t'. split_and!; [f_equal; simpl; lia|done|by rewrite K2|]. rewrite K3, H3. simpl. by rewrite Permutation_middle.
Qed.

Section Spec.
Context `{allocator}.

Lemma capture_empty_slot ci t :
  ci_buckets ci = t → ci_buckets_used ci = length (entries t) → 32 ≤ length t → ci_buckets_used ci ≤ length t / 2 →
  length (entries t) < length t.
Proof. intros _ Hu H32 Hh. rewrite <-Hu. pose proof (Nat.div_lt (length t) 2). lia. Qed.

(** The table as it is when the action is stored: with room. *)
Lemma capture_prepare_spec al ci :
  capture_wf ci → capture_room ci →
  ∃ ok ci', (if length (ci_buckets ci) =? 0 then Some (init_capture_action_htab al ci)
      else if length (ci_buckets ci) / 2 <=? ci_buckets_used ci then grow_capture_action_buckets al ci
      else Some (true, ci)) = Some (ok, ci') ∧
    (alloc_total → ok = true) ∧ (ok = false → ci' = ci) ∧
    (ok = true → ci_max_capture_id ci' = ci_max_capture_id ci ∧ ci_buckets_used ci' = ci_buckets_used ci ∧
      entries (ci_buckets ci') ≡ₚ entries (ci_buckets ci) ∧ mtable_ok (ci_buckets ci') ∧
      32 ≤ length (ci_buckets ci') ∧ ci_buckets_used ci' < length (ci_buckets ci') / 2).
Proof.
  intros (Hu & Hnd & Hmax & Ht) Hroom. destruct (length (ci_buckets ci) =? 0) eqn:E0; split_bool.
  - apply length_zero_iff_nil in E0. unfold init_capture_action_htab. rewrite E0 in *. cbn [length Nat.ltb Nat.leb].
    destruct (f_malloc al _) eqn:Em.
    + eexists _, _. split_and!; [done|done|done|]. intros _. cbn [ci_max_capture_id ci_buckets_used ci_buckets].
      simpl in Hu. rewrite Hu, entries_replicate. split_and!; try done.
      * split; [exists 5; rewrite length_replicate; split; [lia|done]|]. intros j k v [[=] _]%lookup_replicate.
      * rewrite length_replicate. change (0 < 16). lia.
    + eexists _, _. split_and!; [done| |done|done]. intros Ht'. by rewrite f_malloc_total in Em.
  - destruct Ht as [Ht|(Hok & H32 & Hhalf)]; [by rewrite Ht in E0|].
    destruct (length (ci_buckets ci) / 2 <=? ci_buckets_used ci) eqn:Eg; split_bool.
    + unfold grow_capture_action_buckets. unfold capture_room in Hroom. rewrite u32n_small by lia.
      rewrite (proj2 (Nat.eqb_neq _ _)) by lia. destruct (f_malloc al _) eqn:Em.
      2:{ eexists _, _. split_and!; [done| |done|done]. intros Ht'. by rewrite f_malloc_total in Em. }
      set (n := length (ci_buckets ci)) in *. pose proof Hok as [(m & Hm & Hlm) _]. fold n in Hlm.
      assert (m < 32) as Hm32.
      { rewrite Hlm, Nat2N.inj_pow in Hroom. change 2147483648%N with (2 ^ 31)%N in Hroom. apply N.pow_lt_mono_r_iff in Hroom; lia. }
      destruct (move_entries_spec (ci_buckets ci) (replicate (2 * n) None) 0) as (t' & -> & H1 & H2 & H3).
      * split; [|by intros j k v [[=] _]%lookup_replicate]. exists (S m). rewrite length_replicate, Nat.pow_succ_r'. lia.
      * rewrite entries_replicate, length_replicate. pose proof (length_entries_le (ci_buckets ci)). fold n in H. simpl. lia.
      * rewrite Nat.add_0_l, <-Hu, Nat.eqb_refl. eexists _, _. split_and!; [done|done|done|]. intros _. cbn [ci_max_capture_id ci_buckets_used ci_buckets].
        rewrite entries_replicate, app_nil_r in H3. rewrite length_replicate in H2. split_and!; [done|done|done|done|lia|].
        rewrite H2. rewrite Nat.mul_comm, Nat.div_mul by lia. pose proof (Nat.div_lt n 2). lia.
    + exists true, ci. split_and!; [done|done|done|]. intros _. split_and!; done || lia.
Qed.

(** Adding an action stores it once, marks its state, and changes the actions of
    no other state. *)
Lemma add_capture_action_spec f state action :
  capture_inv f → capture_room (f_capture_info f) → fsm_wf f → live f state →
  (ca_to action = CAPTURE_NO_STATE ∨ live f (ca_to action)) →
  ∃ b f', add_capture_action f state action = Some (b, f') ∧ (alloc_total → b = true) ∧
    capture_inv f' ∧
    (∀ s a, capture_actions (f_capture_info f') s a ↔
      capture_actions (f_capture_info f) s a ∨ (b = true ∧ s = state ∧ a = action)).
Proof.
  intros [Hwf Hmark] Hroom Hfw Hs Hto. unfold add_capture_action.
  assert ((state <? N.of_nat (f_statecount f))%N && ((ca_to action =? CAPTURE_NO_STATE)%N
    || (ca_to action <? N.of_nat (f_statecount f))%N) = true) as ->.
  { apply andb_true_iff. unfold live in *. split; [apply N.ltb_lt; lia|].
    apply orb_true_iff. destruct Hto as [->|Hto]; [by left|right; apply N.ltb_lt; lia]. }
  destruct (capture_prepare_spec (f_alloc f) (f_capture_info f) Hwf Hroom) as (ok & ci & -> & Htot & Hf & Hok).
  cbn [mbind option_bind]. destruct Hwf as (Hu & Hnd & Hmax & Ht).
  destruct ok; [destruct (Hok eq_refl) as (K1 & K2 & K3 & K4 & K5 & K6)|].
  2:{ specialize (Hf eq_refl) as ->. eexists false, _. split_and!; [done|done|by split; [split_and!|]|]. intros s a. naive_solver. }
  pose proof (find_action_spec (ci_buckets ci) state action (length (ci_buckets ci)) 0 (proj1 K4) ltac:(lia) ltac:(lia)) as Hfa.
  assert (∀ s a, (s, a) ∈ entries (ci_buckets ci) ↔ capture_actions (f_capture_info f) s a) as Hent.
  { intros s a. by rewrite K3. }
  assert (length (entries (ci_buckets ci)) = ci_buckets_used ci) as Hlen by (rewrite K3; lia).
  destruct (find_action _ 0 (ci_buckets ci) state action) as [[j []]|]; cbn [mbind option_bind].
  - destruct Hfa as (H1 & d & H2 & H3 & H4).
    assert ((state, action) ∉ entries (ci_buckets ci)) as Hfresh.
    { intros Hin%elem_of_entries%elem_of_chain; [|done]. apply chain_loop_sound in Hin as (d' & Hd' & Hx).
      destruct (decide (d' < d)) as [Hlt|Hge]; [destruct (H4 d' Hlt) as [_ Hy]; by apply Hy; [lia|]|].
      destruct (decide (d' = d)) as [->|Hne]; [congruence|].
      destruct K4 as [Hp Hm]. destruct (Hm _ _ _ Hx) as (d2 & Hd2 & Hs2 & Hn2).
      apply slot_inj in Hs2; [|done|done|lia]. subst d2. apply (Hn2 d); [lia|congruence]. }
    pose proof (entries_insert_perm (ci_buckets ci) j (state, action) H1) as Hp.
    assert (∀ s a, (s, a) ∈ entries (<[j := Some (state, action)]> (ci_buckets ci)) ↔
      capture_actions (f_capture_info f) s a ∨ (true = true ∧ s = state ∧ a = action)) as Hent'.
    { intros s a. rewrite Hp, elem_of_cons, Hent. naive_solver. }
    eexists true, _. split_and!; [done|done| |exact Hent'].
    split; [|intros s a Ha%Hent'; rewrite get_upd by (pose proof (wf_alloc _ Hfw); unfold live in Hs; cbn; lia); case_decide;
      [done|apply (Hmark s a); naive_solver]].
    + cbn [upd_state with_states with_capture_info f_capture_info]. split_and!; cbn [ci_buckets_used ci_buckets ci_max_capture_id].
      * rewrite Hp. simpl. lia.
      * rewrite Hp. constructor; [done|]. by rewrite K3.
      * intros s a. rewrite Hp, elem_of_cons, Hent. intros [[= -> ->]|Hin].
        -- destruct (ci_max_capture_id ci <? ca_id action)%N eqn:E; split_bool; lia.
        -- apply Hmax in Hin. rewrite K1. destruct (_ <? _)%N eqn:E; split_bool; lia.
      * right. split_and!; [by eapply mtable_ok_insert; [..|intros; by apply H4]|by rewrite length_insert|rewrite length_insert; lia].
  - assert (capture_actions (f_capture_info f) state action) as Hin.
    { apply Hent, elem_of_entries, list_elem_of_lookup. eauto. }
    rewrite (Hmark _ _ Hin). assert ((ca_id action <=? ci_max_capture_id ci)%N = true) as ->.
    { apply N.leb_le. rewrite K1. by eapply Hmax. }
    eexists true, _. split_and!; [done|done| |].
    + split; [|intros s a; unfold capture_actions; cbn [with_capture_info f_capture_info]; rewrite Hent; apply Hmark].
      cbn [with_capture_info f_capture_info]. split_and!; [done|by rewrite K3| |right; split_and!; [done|done|lia]].
      intros s a. rewrite Hent, K1. apply Hmax.
    + intros s a. cbn [with_capture_info f_capture_info]. unfold capture_actions at 1. rewrite Hent. naive_solver.
  - exfalso. destruct (entries_empty_slot (ci_buckets ci)) as [i Hi].
    { eapply capture_empty_slot; [done|done|done|lia]. }
    destruct (slot_onto (ci_buckets ci) state i (proj1 K4)) as (d & Hd & <-); [by apply lookup_lt_Some in Hi|].
    by destruct (Hfa d Hd).
Qed.
End Spec.

(** The actions of a marked state are run once each. *)
Lemma update_captures_spec f s next offset captures :
  capture_wf (f_capture_info f) → st_has_capture_actions (get_state f s) = true →
  ∃ l, NoDup l ∧ (∀ a, a ∈ l ↔ capture_actions (f_capture_info f) s a) ∧
    fsm_capture_update_captures f s next offset captures = run_actions next offset l captures.
Proof.
  intros (_ & Hnd & _ & Ht) Hm. unfold fsm_capture_update_captures. rewrite Hm.
  destruct Ht as [Ht|(Hok & _)].
  - exists []. rewrite Ht in *. split_and!; [constructor| |done].
    intros a. unfold capture_actions. rewrite Ht. split; intros []%not_elem_of_nil.
  - exists (chain (ci_buckets (f_capture_info f)) s). split_and!.
    + by apply NoDup_chain.
    + intros a. rewrite elem_of_chain by done. unfold capture_actions. by rewrite elem_of_entries.
    + apply update_loop_chain.
Qed.

(** ** Properties *)

(** C28. After an action is added, leaving a state while matching runs exactly the
    actions stored for it, each once and the new one included: collisions and
    growth of the table neither lose nor repeat an action. The table has fewer
    than 2^31 buckets, so that doubling its [unsigned] size does not wrap. *)
Theorem capture_add_then_update `{allocator, !alloc_total} f state type id to s next offset captures :
  capture_inv f → capture_room (f_capture_info f) → fsm_wf f → live f state →
  to = CAPTURE_NO_STATE ∨ live f to →
  ∃ f', fsm_capture_add_action f state type id to = Some (true, f') ∧ capture_inv f' ∧
    (st_has_capture_actions (get_state f' s) = true → ∃ l, NoDup l ∧
      (∀ a, a ∈ l ↔ capture_actions (f_capture_info f) s a ∨ (s = state ∧ a = mk_action id type to)) ∧
      fsm_capture_update_captures f' s next offset captures = run_actions next offset l captures).
Proof.
  intros Hinv Hroom Hwf Hs Hto. unfold fsm_capture_add_action.
  destruct (add_capture_action_spec f state (mk_action id type to) Hinv Hroom Hwf Hs Hto)
    as (b & f' & -> & Hb & Hinv' & Hact). rewrite Hb in Hact |- * by done.
  exists f'. split_and!; [done|done|]. intros Hm.
  destruct (update_captures_spec f' s next offset captures (proj1 Hinv') Hm) as (l & H1 & H2 & H3).
  exists l. split_and!; [done| |done]. intros a. rewrite H2, Hact. naive_solver.
Qed.

Lemma capture_add_then_update_witness :
  ∃ f', @fsm_capture_add_action always (@build_from_new always sample_ops) 0 CAPTURE_ACTION_START 0 1 = Some (true, f') ∧
    fsm_capture_update_captures f' 0 1 7 [(FSM_CAPTURE_NO_POS, FSM_CAPTURE_NO_POS)] = Some [(7%N, FSM_CAPTURE_NO_POS)].
Proof.
  destruct (@capture_add_then_update always always_total (@build_from_new always sample_ops) 0%N CAPTURE_ACTION_START 0%N 1%N
    0%N 1%N 7%N [(FSM_CAPTURE_NO_POS, FSM_CAPTURE_NO_POS)]) as (f' & H1 & _ & _).
  - split; [|intros s a Hin; vm_compute in Hin; inversion Hin].
    split; [reflexivity|]. split; [by_compute|]. split; [intros s a Hin; vm_compute in Hin; inversion Hin|left; reflexivity].
  - reflexivity.
  - by_compute.
  - by_compute.
  - right. by_compute.
  - exists f'. split; [exact H1|]. vm_compute in H1. injection H1 as <-. vm_compute. reflexivity.
Defined.

Lemma committed_flag off :
  (off < COMMITTED_CAPTURE_FLAG - 1)%N →
  (N.lor off COMMITTED_CAPTURE_FLAG =? FSM_CAPTURE_NO_POS)%N = false ∧
  (N.land (N.lor off COMMITTED_CAPTURE_FLAG) COMMITTED_CAPTURE_FLAG =? 0)%N = false ∧
  N.ldiff (N.lor off COMMITTED_CAPTURE_FLAG) COMMITTED_CAPTURE_FLAG = off.
Proof.
  intros Hoff. change COMMITTED_CAPTURE_FLAG with (2 ^ 63)%N in *.
  assert (N.ldiff (N.lor off (2 ^ 63)) (2 ^ 63) = off) as E.
  { apply N.bits_inj. intros k. rewrite N.ldiff_spec, N.lor_spec, N.pow2_bits_eqb.
    destruct (N.eqb_spec 63 k) as [<-|]; [|by rewrite orb_false_r, andb_true_r].
    rewrite andb_false_r. symmetry. destruct (decide (off = 0%N)) as [->|]; [done|].
    apply N.bits_above_log2, N.log2_lt_pow2; lia. }
  split_and!; [| |done].
  - apply N.eqb_neq. intros E'. rewrite E' in E. change (N.ldiff FSM_CAPTURE_NO_POS (2 ^ 63)) with (2 ^ 63 - 1)%N in E. lia.
  - apply N.eqb_neq. intros E'. assert (N.testbit (N.land (N.lor off (2 ^ 63)) (2 ^ 63)) 63 = false) as Eb by (by rewrite E').
    by rewrite N.land_spec, N.lor_spec, N.pow2_bits_true, orb_true_r in Eb.
Qed.

(** When a match ends, a capture whose end was committed keeps its start and
    gets its end without the flag; every other capture is reported as absent.
    The flag is the top bit of a 64-bit position, so offsets below 2^63 come
    back unchanged. *)
Theorem capture_finalize_spec n captures i c :
  n ≤ length captures → captures !! i = Some c →
  ∃ captures', fsm_capture_finalize_captures n captures = Some captures' ∧
    length captures' = length captures ∧
    (n ≤ i → captures' !! i = Some c) ∧
    (i < n → ∀ start off, c = (start, N.lor off COMMITTED_CAPTURE_FLAG) → (off < COMMITTED_CAPTURE_FLAG - 1)%N →
      captures' !! i = Some (if (start =? FSM_CAPTURE_NO_POS)%N then (FSM_CAPTURE_NO_POS, FSM_CAPTURE_NO_POS) else (start, off))) ∧
    (i < n → N.land c.2 COMMITTED_CAPTURE_FLAG = 0%N → captures' !! i = Some (FSM_CAPTURE_NO_POS, FSM_CAPTURE_NO_POS)).
Proof.
  intros Hn Hi. unfold fsm_capture_finalize_captures. rewrite (proj2 (Nat.leb_le _ _) Hn).
  eexists; split; [done|]. rewrite length_app, length_fmap, length_take, length_drop.
  assert (i < n → ((finalize_capture <$> take n captures) ++ drop n captures) !! i = Some (finalize_capture c)) as Hlk.
  { intros Hlt. rewrite lookup_app_l by (rewrite length_fmap, length_take; lia).
    by rewrite list_lookup_fmap, lookup_take_lt, Hi. }
  split_and!; [lia| | |].
  - intros Hge. rewrite lookup_app_r by (rewrite length_fmap, length_take; lia).
    rewrite length_fmap, length_take, lookup_drop, <-Hi. f_equal. lia.
  - intros Hlt start off -> Hoff. rewrite Hlk by done. f_equal. unfold finalize_capture. cbn [fst snd].
    destruct (committed_flag off Hoff) as (E1 & E2 & E3). rewrite E1, E2, E3, !orb_false_r.
    by destruct (start =? FSM_CAPTURE_NO_POS)%N.
  - intros Hlt Hc. rewrite Hlk by done. unfold finalize_capture. by rewrite Hc, N.eqb_refl, !orb_true_r.
Qed.

Lemma capture_finalize_spec_witness :
  fsm_capture_finalize_captures 1 [(3, N.lor 8 COMMITTED_CAPTURE_FLAG)]%N = Some [(3, 8)]%N.
Proof.
  destruct (capture_finalize_spec 1 [(3, N.lor 8 COMMITTED_CAPTURE_FLAG)]%N 0 (3, N.lor 8 COMMITTED_CAPTURE_FLAG)%N)
    as (c & H1 & H2 & _ & H3 & _); [apply Nat.le_refl|reflexivity|].
  specialize (H3 Nat.lt_0_1 3%N 8%N eq_refl eq_refl). rewrite H1. destruct c as [|x [|]]; [discriminate H2| |discriminate H2].
  injection H3 as ->. reflexivity.
Defined.
