(* ===== verification/Combine.v ===== *)
(** * Combining automata: src/libfsm/merge.c, clone.c, union.c, concat.c, collate.c

    [merge] appends the states of one automaton to another's, with its ids
    shifted, and copies the metadata over. [fsm_union] and [fsm_concat] link
    the two parts by epsilon transitions. The operands are consumed: the model
    returns the result only.

    The outer [option] of a result is [None] where an assertion fails, the
    inner one is [None] for NULL. *)

From S2P Require Import Prelude StateSet Bits EdgeSet EdgeIter EdgeCompact Probe Endids EagerOutput.
From S2P Require Import Lang Fsm FsmSpec Queue Search FsmCompact FsmInv Pred Capture.

Record fsm_combine_info := mk_combine {
  base_a : N;
  base_b : N;
  capture_base_a : N;
  capture_base_b : N;
}.

Section Ops.
Context `{allocator}.

(** ** Copying metadata

    The environment of the callbacks is the automaton copied to and the flag
    [ok], [None] once an assertion has failed. *)

Definition copy_env : Type := option (bool * fsm).

Definition copy_capture_actions (dst : fsm) (src : fsm_capture_info) : option (bool * fsm) :=
  add_actions (fsm_capture_action_iter src) dst.

(** merge.c: a state's ids at once, at its new number. *)
Definition merge_end_ids_cb (base_src : N) (state : N) (ids : list N) (env : copy_env) : bool * copy_env :=
  match env with
  | Some (ok, dst) =>
      match fsm_endid_set_bulk (f_alloc dst) (f_endid_info dst) (state +32 base_src)%cint ids FSM_ENDID_BULK_REPLACE with
      | Some (ok, ei) => (ok, Some (ok, with_endid_info dst ei))
      | None => (false, None)
      end
  | None => (false, None)
  end.

Definition merge_end_ids (dst : fsm) (src : endid_info) (base_src : N) : option (bool * fsm) :=
  (fsm_endid_iter_bulk src (merge_end_ids_cb base_src) (Some (true, dst))).2.

(** clone.c: one id at a time, at the same number. *)
Definition clone_end_ids_cb (state id : N) (env : copy_env) : bool * copy_env :=
  match env with
  | Some (ok, dst) =>
      match fsm_endid_set (f_alloc dst) (f_endid_info dst) state id with
      | Some (set, ei) => (set, Some (ok && set, with_endid_info dst ei))
      | None => (false, None)
      end
  | None => (false, None)
  end.

Definition clone_end_ids (dst : fsm) (src : endid_info) : option (bool * fsm) :=
  fsm_endid_iter src clone_end_ids_cb (Some (true, dst)).

(** Both: one eager output at a time; [fsm_clone] has a base of 0. *)
Definition copy_eager_output_ids_cb (base_src : N) (state id : N) (env : copy_env) : bool * copy_env :=
  match env with
  | Some (ok, dst) =>
      match eager_set dst (state +32 base_src)%cint id with
      | Some (set, dst) => (set, Some (ok && set, dst))
      | None => (false, None)
      end
  | None => (false, None)
  end.

Definition copy_eager_output_ids (dst : fsm) (src : eager_output_info) (base_src : N) : option (bool * fsm) :=
  fsm_eager_output_iter_all src (copy_eager_output_ids_cb base_src) (Some (true, dst)).

(** ** merge.c *)

Definition rebase_state (base : N) (st : fsm_state) : fsm_state :=
  set_edges (edge_set_rebase (st_edges st) base) (set_epsilons (state_set_rebase (st_epsilons st) base) st).

(** The result is the automaton, [base_src] and [capture_base_src]; the bases
    of [dst] are 0. *)
Definition merge (dst src : fsm) : option (option (fsm * N * N)) :=
  let nd := f_statecount dst in
  let ns := f_statecount src in
  let newalloc := ns + nd in
  let '(ok, states) :=
    if length (f_states dst) <? newalloc then
      if f_realloc (f_alloc dst) (N.of_nat newalloc * sizeof_fsm_state) then
        (true, f_states dst ++ replicate (newalloc - length (f_states dst)) inhabitant)
      else (false, f_states dst)
    else (true, f_states dst) in
  if ok then
    let base_src := u32 (N.of_nat nd) in
    let capture_base_src := fsm_countcaptures dst in
    let src_states := rebase_state base_src <$> take ns (f_states src) in
    let src_captures :=
      fsm_capture_rebase_capture_action_states
        (fsm_capture_rebase_capture_id (f_capture_info src) capture_base_src) base_src in
    let dst := with_states dst (take nd states ++ src_states ++ drop (nd + ns) states) in
    let dst := with_endcount (with_statecount dst (nd + ns)) (u31 (N.of_nat (f_endcount dst) + N.of_nat (f_endcount src))) in
    '(ok, dst) ← copy_capture_actions dst src_captures;
    if (ok : bool) then
      '(ok, dst) ← merge_end_ids dst (f_endid_info src) base_src;
      if (ok : bool) then
        '(ok, dst) ← copy_eager_output_ids dst (f_eager_output_info src) base_src;
        if (ok : bool) then Some (Some (fsm_clearstart dst, base_src, capture_base_src))
        else Some None
      else Some None
    else Some None
  else Some None.

Definition fsm_mergeab (a b : fsm) : option (option (fsm * N)) :=
  if negb (f_alloc a =? f_alloc b)%N then Some None
  else
    r ← merge a b;
    Some ('(q, base_b, _) ← r; Some (q, base_b)).

(** Whether [a] is the one merged into. *)
Definition merge_into_a (a b : fsm) : bool :=
  if length (f_states b) <? length (f_states a) then true
  else if length (f_states a) <? length (f_states b) then false
  else if f_statecount b <? f_statecount a then true
  else if f_statecount a <? f_statecount b then false
  else true.

Definition fsm_merge (a b : fsm) : option (option (fsm * fsm_combine_info)) :=
  if merge_into_a a b then
    r ← merge a b;
    Some ('(q, base, cbase) ← r; Some (q, mk_combine 0 base 0 cbase))
  else
    r ← merge b a;
    Some ('(q, base, cbase) ← r; Some (q, mk_combine base 0 cbase 0)).

(** ** union.c *)

Definition fsm_union (a b : fsm) : option (option (fsm * fsm_combine_info)) :=
  let info := mk_combine 0 0 0 0 in
  if negb (f_alloc a =? f_alloc b)%N then Some None
  else if f_statecount a =? 0 then Some (Some (b, info))
  else if f_statecount b =? 0 then Some (Some (a, info))
  else
    match fsm_getstart a, fsm_getstart b with
    | Some sa, Some sb =>
        r ← fsm_merge a b;
        '(q, info) ← r;
        let sa := (sa +32 base_a info)%cint in
        let sb := (sb +32 base_b info)%cint in
        let '(ok, q, sq) := fsm_addstate q in
        if ok then
          let q := fsm_setstart q sq in
          let '(ok, q) := if negb (sq =? sa)%N then fsm_addedge_epsilon q sq sa else (true, q) in
          if (ok : bool) then
            let '(ok, q) := if negb (sq =? sb)%N then fsm_addedge_epsilon q sq sb else (true, q) in
            if (ok : bool) then Some (Some (q, info)) else Some None
          else Some None
        else Some None
    | _, _ => Some None
    end.

(** The bases of the automata combined so far, shifted when a later one's
    states came first and it has captures. *)
Definition shift_bases (info : fsm_combine_info) (bases : list (N * N)) : list (N * N) :=
  if (0 <? capture_base_a info)%N then
    (λ '(s, c), ((s +32 base_a info)%cint, (c +32 capture_base_a info)%cint)) <$> bases
  else bases.

(** The bases of the automata combined, in order. *)
Fixpoint union_array_loop (l : list fsm) (res : fsm) (bases : list (N * N)) : option (option (fsm * list (N * N))) :=
  match l with
  | [] => Some (Some (res, bases))
  | f :: l =>
      r ← fsm_union res f;
      match r with
      | None => Some None
      | Some (res, info) => union_array_loop l res (shift_bases info bases ++ [(base_b info, capture_base_b info)])
      end
  end.

(** [None] also for an empty array, whose first element is read. *)
Definition fsm_union_array (fsms : list fsm) : option (option (fsm * list (N * N))) :=
  match fsms with
  | [] => None
  | f :: l => union_array_loop l f [(0, 0)%N]
  end.

(** ** collate.c *)

(** The first state that satisfies the predicate; [None] past the end. *)
Fixpoint first_state (l : list N) (f : fsm) (predicate : fsm → N → bool) : option N :=
  match l with
  | [] => None
  | i :: l => if predicate f i then Some i else first_state l f predicate
  end.

Fixpoint collate_loop (l : list N) (f : fsm) (predicate : fsm → N → bool) (new : N) : bool * fsm :=
  match l with
  | [] => (true, f)
  | i :: l =>
      if (i =? new)%N then collate_loop l f predicate new
      else if negb (predicate f i) then collate_loop l f predicate new
      else
        let '(ok, f) := fsm_addedge_epsilon f i new in
        if ok then collate_loop l f predicate new else (false, f)
  end.

Definition fsm_collate (f : fsm) (predicate : fsm → N → bool) : option (bool * fsm * N) :=
  let count := fsm_count f predicate in
  if (count =? 0)%N then Some (false, f, 0%N)
  else if (count =? 1)%N then
    i ← first_state (live_ids f) f predicate;
    Some (true, f, i)
  else
    let '(ok, f, new) := fsm_addstate f in
    if ok then
      let '(ok, f) := collate_loop (live_ids f) f predicate new in
      Some (ok, f, new)
    else Some (false, f, 0%N).

(** ** concat.c *)

(** [combine_info] is left as it was, here zero, when there is nothing to
    merge. *)
Definition fsm_concat (a b : fsm) : option (option (fsm * fsm_combine_info)) :=
  let info := mk_combine 0 0 0 0 in
  if negb (f_alloc a =? f_alloc b)%N then Some None
  else if f_statecount a =? 0 then Some (Some (b, info))
  else if f_statecount b =? 0 then Some (Some (a, info))
  else if negb (fsm_has a fsm_isend) then Some None
  else
    match fsm_getstart a, fsm_getstart b with
    | Some sq, Some sb =>
        '(ok, a, ea) ← fsm_collate a fsm_isend;
        if (ok : bool) then
          let a := fsm_setend a ea true in
          r ← fsm_merge a b;
          '(q, info) ← r;
          let sq := (sq +32 base_a info)%cint in
          let ea := (ea +32 base_a info)%cint in
          let sb := (sb +32 base_b info)%cint in
          let q := fsm_setend q ea false in
          let '(ok, q) := fsm_addedge_epsilon q ea sb in
          if (ok : bool) then Some (Some (fsm_setstart q sq, info)) else Some None
        else Some None
    | _, _ => Some None
    end.

(** ** clone.c *)

Fixpoint clone_states (l : list N) (new f : fsm) : option (bool * fsm) :=
  match l with
  | [] => Some (true, new)
  | i :: l =>
      let new := if fsm_isend f i then fsm_setend new i true else new in
      let '(ok, eps) := state_set_copy (st_epsilons (get_state new i)) (f_alloc new) (st_epsilons (get_state f i)) in
      let new := upd_state new i (set_epsilons eps) in
      if ok then
        '(ok, p) ← edge_set_copy (st_edges (get_state new i)) (f_alloc new) (st_edges (get_state f i));
        let new := upd_state new i (set_edges p) in
        if (ok : bool) then clone_states l new f else Some (false, new)
      else Some (false, new)
  end.

Definition fsm_clone (f : fsm) : option (option fsm) :=
  match fsm_new_statealloc (f_alloc f) (f_statecount f) with
  | None => Some None
  | Some new =>
      let '(ok, new) := fsm_addstate_bulk new (f_statecount f) in
      if ok then
        '(ok, new) ← clone_states (live_ids f) new f;
        if (ok : bool) then
          let new := match fsm_getstart f with Some start => fsm_setstart new start | None => new end in
          '(ok, new) ← copy_capture_actions new (f_capture_info f);
          if (ok : bool) then
            '(ok, new) ← clone_end_ids new (f_endid_info f);
            if (ok : bool) then
              '(ok, new) ← copy_eager_output_ids new (f_eager_output_info f) 0;
              if (ok : bool) then Some (Some new) else Some None
            else Some None
          else Some None
        else Some None
      else Some None
  end.
End Ops.

(** ** Lemmas: what copying metadata leaves alone *)

Definition same_core (f f' : fsm) : Prop :=
  f_statecount f' = f_statecount f ∧ f_alloc f' = f_alloc f ∧ length (f_states f') = length (f_states f) ∧
  f_endcount f' = f_endcount f ∧ f_start f' = f_start f ∧ f_hasstart f' = f_hasstart f ∧
  ∀ s, st_edges (get_state f' s) = st_edges (get_state f s) ∧
    st_epsilons (get_state f' s) = st_epsilons (get_state f s) ∧
    st_end (get_state f' s) = st_end (get_state f s) ∧ st_visited (get_state f' s) = st_visited (get_state f s).

#[export] Instance same_core_preorder : PreOrder same_core.
Proof.
  split.
  - intros f. by split_and!.
  - intros f g h (H1 & H2 & H3 & H4 & H5 & H6 & H7) (K1 & K2 & K3 & K4 & K5 & K6 & K7).
    split; [congruence|]. split; [congruence|]. split; [congruence|]. split; [congruence|]. split; [congruence|].
    split; [congruence|]. intros s. destruct (H7 s) as (A1 & A2 & A3 & A4), (K7 s) as (B1 & B2 & B3 & B4).
    split_and!; congruence.
Qed.

Lemma same_core_upd f s g :
  (∀ st, st_edges (g st) = st_edges st ∧ st_epsilons (g st) = st_epsilons st ∧ st_end (g st) = st_end st ∧
    st_visited (g st) = st_visited st) → same_core f (upd_state f s g).
Proof.
  intros Hg. do 2 (split; [done|]). split; [cbn; apply length_alter|]. do 3 (split; [done|]).
  intros t. unfold get_state, upd_state. cbn [with_states f_states]. rewrite !list_lookup_total_alt.
  destruct (decide (N.to_nat s = N.to_nat t)) as [E|Hne].
  - rewrite E, list_lookup_alter_eq. destruct (f_states f !! N.to_nat t); [|done]. apply Hg.
  - by rewrite list_lookup_alter_ne.
Qed.

Lemma same_core_live f f' s : same_core f f' → live f' s ↔ live f s.
Proof. intros (Hc & _). unfold live. by rewrite Hc. Qed.

Lemma same_core_wf f f' : same_core f f' → fsm_wf f → fsm_wf f'.
Proof.
  intros Hs Hwf. pose proof Hs as (H1 & H2 & H3 & H4 & H5 & H6 & H7). split.
  - rewrite H1, H3. apply Hwf.
  - rewrite H3. apply Hwf.
  - rewrite H1. apply Hwf.
  - intros s Hl. rewrite (same_core_live f f') in Hl by done. rewrite H1.
    destruct (H7 s) as (E1 & E2 & _). unfold state_ok. rewrite E1, E2. by apply Hwf.
  - rewrite H4, (wf_endcount _ Hwf), !end_states_count, H1, H3. f_equal.
    apply list_fmap_ext. intros i j _. destruct (H7 (N.of_nat j)) as (_ & _ & E & _).
    unfold get_state in E. rewrite Nat2N.id in E. by rewrite E.
  - intros s. unfold fsm_getstart. rewrite H5, H6, (same_core_live f f') by done. apply Hwf.
Qed.

Lemma same_core_nfa f f' : same_core f f' → nfa_of f' ≡ nfa_of f.
Proof.
  intros Hs. pose proof Hs as (_ & _ & _ & _ & H5 & H6 & H7). split_and!; cbn; intros.
  - unfold f_edge. rewrite same_core_live by done. by destruct (H7 s) as (-> & _).
  - unfold f_eps. rewrite same_core_live by done. by destruct (H7 s) as (_ & -> & _).
  - unfold f_end, fsm_isend. rewrite same_core_live by done. by destruct (H7 s) as (_ & _ & -> & _).
  - unfold fsm_getstart. by rewrite H5, H6.
Qed.

Lemma same_core_flags f f' : same_core f f' → flags f [] → flags f' [].
Proof.
  intros Hs. rewrite !flags_nil. intros Hf s Hl. rewrite (same_core_live f) in Hl by done.
  unfold visited. destruct Hs as (_ & _ & _ & _ & _ & _ & Hs). destruct (Hs s) as (_ & _ & _ & ->). by apply Hf.
Qed.

Lemma same_core_blanks f f' : same_core f f' → blanks_ok f → blanks_ok f'.
Proof.
  intros Hs Hb s Hl. rewrite (same_core_live f) in Hl by done.
  destruct Hs as (_ & _ & _ & _ & _ & _ & Hs). destruct (Hs s) as (-> & _). by apply Hb.
Qed.

Section CopyLemmas.
Context `{allocator}.

Lemma add_capture_action_core f s a b f' :
  add_capture_action f s a = Some (b, f') →
  same_core f f' ∧ f_endid_info f' = f_endid_info f ∧ f_eager_output_info f' = f_eager_output_info f.
Proof.
  unfold add_capture_action. destruct (_ && _); [|done]. destruct (if _ =? 0 then _ else _) as [[ok ci]|]; [|done].
  cbn [mbind option_bind]. destruct ok; [|by intros [= <- <-]].
  destruct (find_action _ _ _ _ _) as [[j []]|]; cbn [mbind option_bind]; [| |done].
  - intros [= <- <-]. split; [|done]. etrans; [|by apply same_core_upd]. done.
  - destruct (_ && _); [|done]. by intros [= <- <-].
Qed.

Lemma add_actions_core l : ∀ f b f',
  add_actions l f = Some (b, f') →
  same_core f f' ∧ f_endid_info f' = f_endid_info f ∧ f_eager_output_info f' = f_eager_output_info f.
Proof.
  induction l as [|[s a] l IH]; intros f b f'; cbn [add_actions]; [by intros [= <- <-]|].
  unfold fsm_capture_add_action. destruct (add_capture_action f s _) as [[ok f1]|] eqn:E; [|done].
  apply add_capture_action_core in E as (E1 & E2 & E3). cbn [mbind option_bind]. destruct ok; [|by intros [= <- <-]].
  intros (K1 & K2 & K3)%IH. split; [by etrans|]. split; congruence.
Qed.

Lemma eager_set_core f s id b f' :
  eager_set f s id = Some (b, f') →
  same_core f f' ∧ f_endid_info f' = f_endid_info f ∧ f_capture_info f' = f_capture_info f ∧
  ∃ mark, fsm_eager_output_set (f_alloc f) (f_eager_output_info f) s id = Some (b, f_eager_output_info f', mark).
Proof.
  unfold eager_set. destruct (fsm_eager_output_set _ _ _ _) as [[[ok eo] mark]|]; [|done]. cbn [mbind option_bind].
  intros [= <- <-]. destruct mark.
  - split; [etrans; [|by apply same_core_upd]; done|]. split; [done|]. split; [done|]. by exists true.
  - split; [done|]. split; [done|]. split; [done|]. by exists false.
Qed.

(** ** Lemmas: end ids *)

Lemma fsm_endid_set_bulk_used al ei state ids op b ei' :
  endid_wf ei → endid_room ei → state ≠ BUCKET_NO_STATE → fsm_endid_set_bulk al ei state ids op = Some (b, ei') →
  ei_buckets_used ei' ≤ ei_buckets_used ei + 1.
Proof.
  intros Hwf Hroom Hno. unfold fsm_endid_set_bulk.
  destruct (endid_find_bucket_spec al ei state Hwf Hroom Hno) as (c & ei1 & Hf & _ & Hu & _).
  rewrite Hf. cbn [mbind option_bind]. destruct c as [i|]; [|intros; simplify_eq/=; lia].
  destruct (ei_buckets ei1 !! i) as [[[s e]|]|]; [| |done].
  - destruct (s =? state)%N; [|done]. repeat case_match; try (intros; simplify_eq/=; lia);
      destruct (sort_ids _ _ _); cbn [mbind option_bind]; try done; intros; simplify_eq/=; lia.
  - repeat case_match; try (intros; simplify_eq/=; lia).
    destruct (sort_ids _ _ _); cbn [mbind option_bind]; try done; intros; simplify_eq/=; lia.
Qed.
End CopyLemmas.

(** What the tables of the two automata must have room for. *)
Definition endids_fit (dst src : endid_info) : Prop :=
  (N.of_nat (ei_buckets_used dst + length (entries (ei_buckets src))) < 1073741824)%N.

Section EndidLemmas.
Context `{alloc_total} (base : N).

Lemma merge_end_ids_loop bs : ∀ dst,
  endid_wf (f_endid_info dst) → NoDup (entries bs).*1 →
  (∀ k e, Some (k, e) ∈ bs → ids_wf e ∧ (k + base < 4294967295)%N ∧ endids (f_endid_info dst) (k + base) = []) →
  (N.of_nat (ei_buckets_used (f_endid_info dst) + length (entries bs)) < 1073741824)%N →
  ∃ ei', iter_bulk_loop bs (merge_end_ids_cb base) (Some (true, dst)) = (true, Some (true, with_endid_info dst ei')) ∧
    endid_wf ei' ∧
    (∀ k x, x ∈ endids ei' k ↔ x ∈ endids (f_endid_info dst) k ∨ ∃ k' e, Some (k', e) ∈ bs ∧ k = (k' + base)%N ∧ x ∈ eii_ids e).
Proof.
  induction bs as [|[[k e]|] bs IH]; intros dst Hw Hnd Hbs Hroom; cbn [iter_bulk_loop].
  - exists (f_endid_info dst). split; [by destruct dst|]. split; [done|]. intros k x. split; [by left|].
    intros [?|(? & ? & ?%not_elem_of_nil & _)]; done.
  - rewrite entries_cons in Hnd, Hroom. cbn [fmap list_fmap length] in Hnd, Hroom. apply NoDup_cons in Hnd as [Hni Hnd].
    destruct (Hbs k e ltac:(left)) as (He & Hlt & Hnil).
    assert (endid_room (f_endid_info dst)) as Hr by (unfold endid_room; lia).
    unfold merge_end_ids_cb at 1. rewrite u32_small by lia.
    assert (k + base ≠ BUCKET_NO_STATE)%N as Hno by (unfold BUCKET_NO_STATE; lia).
    assert (eii_ids e ≠ []) as Hne by (destruct He as [_ [Hp _]]; destruct (eii_ids e); [simpl in Hp; lia|done]).
    destruct (fsm_endid_set_bulk_spec (f_alloc dst) (f_endid_info dst) (k + base) (eii_ids e) FSM_ENDID_BULK_REPLACE)
      as (ei1 & E1 & W1 & K1 & K2); [done|done|done|done|apply He| |].
    { rewrite Hnil, Nat.add_0_r. pose proof (ids_few _ (proj1 He) (proj2 (proj2 He))). lia. }
    rewrite E1. destruct (IH (with_endid_info dst ei1)) as (ei' & E' & W' & K').
    + done.
    + done.
    + intros k' e' Hin. destruct (Hbs k' e' ltac:(by right)) as (A1 & A2 & A4). split; [done|]. split; [done|].
      cbn. rewrite K1; [done|]. intros E. assert (k' = k) as -> by lia. apply Hni.
      apply list_elem_of_fmap. exists (k, e'). split; [done|]. by apply elem_of_entries.
    + cbn. pose proof (fsm_endid_set_bulk_used _ _ _ _ _ _ _ Hw Hr Hno E1). lia.
    + cbn in *. exists ei'. split; [done|]. split; [done|]. intros j x. rewrite K'.
      destruct (decide (j = k + base)%N) as [->|Hj].
      * rewrite K2, Hnil. split.
        -- intros [[Hx|[[=] _]]|(k' & e' & Hin & Hk & Hx)]; right; [exists k, e|exists k', e']; (split; [|done]); [left|by right].
        -- intros [?%not_elem_of_nil|(k' & e' & [E|Hin]%elem_of_cons & Hk & Hx)]; [done| |].
           ++ injection E as -> ->. by left; left.
           ++ right. eauto.
      * rewrite K1 by done. split.
        -- intros [?|(k' & e' & Hin & Hk & Hx)]; [by left|]. right. exists k', e'. split; [by right|done].
        -- intros [?|(k' & e' & [E|Hin]%elem_of_cons & Hk & Hx)]; [by left| |right; eauto]. injection E as -> ->. done.
  - destruct (IH dst) as (ei' & E' & W' & K'); [done|done|intros k e Hin; apply Hbs; by right|done|].
    exists ei'. split; [done|]. split; [done|]. intros k x. rewrite K'. split.
    + intros [?|(k' & e' & Hin & ?)]; [by left|]. right. exists k', e'. split; [by right|done].
    + intros [?|(k' & e' & [?|Hin]%elem_of_cons & ?)]; [by left|done|]. right. eauto.
Qed.

Lemma merge_end_ids_spec dst src :
  endid_wf (f_endid_info dst) → endid_wf src → endids_fit (f_endid_info dst) src →
  (∀ k e, Some (k, e) ∈ ei_buckets src → (k + base < 4294967295)%N) →
  (∀ k, (base ≤ k)%N → endids (f_endid_info dst) k = []) →
  ∃ ei', merge_end_ids dst src base = Some (true, with_endid_info dst ei') ∧ endid_wf ei' ∧
    (∀ k, (k < base)%N → endids ei' k = endids (f_endid_info dst) k) ∧ (∀ k, endids ei' (k + base) = endids src k).
Proof.
  intros Hw Hws Hr Hlt Hnil. pose proof Hws as (Hok & _ & _ & _ & Hids).
  destruct (merge_end_ids_loop (ei_buckets src) dst) as (ei' & E & W & K).
  - done.
  - by apply NoDup_keys.
  - intros k e Hin. split; [by eapply Hids|]. split; [by eapply Hlt|]. apply Hnil. lia.
  - done.
  - exists ei'. unfold merge_end_ids, fsm_endid_iter_bulk. rewrite E. split; [done|]. split; [done|]. split.
    + intros k Hk. apply increasing_ext; [by apply endids_increasing|by apply endids_increasing|]. intros x. rewrite K.
      split; [|by left]. intros [?|(k' & e & _ & -> & _)]; [done|lia].
    + intros k. apply increasing_ext; [by apply endids_increasing|by apply endids_increasing|]. intros x.
      rewrite K, Hnil by lia. unfold endids. destruct (table_get (ei_buckets src) k) as [e|] eqn:Eg.
      * apply table_get_spec in Eg; [|done]. split.
        -- intros [?%not_elem_of_nil|(k' & e' & Hin & Hk & Hx)]; [done|]. assert (k' = k) as -> by lia.
           apply (table_get_spec _ k e' Hok) in Hin. apply (table_get_spec _ k e Hok) in Eg. congruence.
        -- intros Hx. right. eauto.
      * split; [|by intros ?%not_elem_of_nil]. intros [?%not_elem_of_nil|(k' & e' & Hin & Hk & Hx)]; [done|].
        assert (k' = k) as -> by lia. apply (table_get_spec _ k e' Hok) in Hin. congruence.
Qed.
End EndidLemmas.

(** ** Lemmas: eager outputs *)

Lemma fsm_eager_output_set_used `{allocator} al info state id b info' mark :
  eager_wf info → eager_room info → fsm_eager_output_set al info state id = Some (b, info', mark) →
  eo_buckets_used info' ≤ eo_buckets_used info + 1.
Proof.
  intros Hwf Hroom. unfold fsm_eager_output_set.
  assert (∃ ok info1, (if length (eo_buckets info) / 2 <=? eo_buckets_used info then grow_htab al info
      else Some (true, info)) = Some (ok, info1) ∧ eo_buckets_used info1 = eo_buckets_used info) as (ok & info1 & -> & Hu).
  { destruct (_ <=? _) eqn:E; split_bool; [|by eexists _, _].
    destruct (grow_htab_spec al info Hwf Hroom E) as (ok & info1 & Hg & _ & ? & _). eauto. }
  cbn [mbind option_bind]. destruct ok; [|intros; simplify_eq/=; lia].
  destruct (probe (eo_buckets info1) state) as [[i [e|]]|]; [| |intros; simplify_eq/=; lia].
  - destruct (entry_add al e id) as [[[ok1 e1] m1]|]; [|done]. cbn [mbind option_bind]. intros; simplify_eq/=; lia.
  - destruct (f_calloc _ _ _); [|intros; simplify_eq/=; lia].
    destruct (entry_add al _ id) as [[[ok1 e1] m1]|]; [|done]. cbn [mbind option_bind]. intros; simplify_eq/=; lia.
Qed.

Definition eager_total (bs : eager_buckets) : nat := sum_list ((λ b, match b with Some (_, e) => length (eoe_ids e) | None => 0 end) <$> bs).

Definition eager_fit (dst src : eager_output_info) : Prop :=
  (N.of_nat (eo_buckets_used dst + eager_total (eo_buckets src)) < 1073741824)%N.

Section EagerLemmas.
Context `{alloc_total} (base : N).

(** What copying the ids of one state does. *)
Lemma copy_eager_ids state ids : ∀ dst,
  eager_wf (f_eager_output_info dst) → (state + base < 4294967296)%N → NoDup ids → Forall id_ok ids →
  (∀ x, x ∈ ids → x ∉ eager_outputs (f_eager_output_info dst) (state + base)) →
  (N.of_nat (eo_buckets_used (f_eager_output_info dst) + length ids) < 1073741824)%N →
  ∃ dst', iter_ids (copy_eager_output_ids_cb base) state ids (Some (true, dst)) = (true, Some (true, dst')) ∧
    same_core dst dst' ∧ f_endid_info dst' = f_endid_info dst ∧ f_capture_info dst' = f_capture_info dst ∧
    eager_wf (f_eager_output_info dst') ∧
    eo_buckets_used (f_eager_output_info dst') ≤ eo_buckets_used (f_eager_output_info dst) + length ids ∧
    (∀ k, eager_outputs (f_eager_output_info dst') k = eager_outputs (f_eager_output_info dst) k ++
       if decide (k = state + base)%N then ids else []) ∧
    (∀ k e, Some (k, e) ∈ eo_buckets (f_eager_output_info dst') → k = (state + base)%N ∨
       ∃ e', Some (k, e') ∈ eo_buckets (f_eager_output_info dst)).
Proof.
  induction ids as [|id ids IH]; intros dst Hw Hlt Hnd Hok Hni Hr; cbn [iter_ids].
  { exists dst. do 5 (split; [done|]). split; [simpl; lia|]. split; [|eauto]. intros k. case_decide; by rewrite app_nil_r. }
  apply NoDup_cons in Hnd as [Hid Hnd]. apply Forall_cons in Hok as [Hok1 Hok]. simpl in Hr.
  assert (eager_room (f_eager_output_info dst)) as Hroom by (unfold eager_room; lia).
  unfold copy_eager_output_ids_cb at 1. rewrite u32_small by done.
  destruct (fsm_eager_output_set_spec (f_alloc dst) (f_eager_output_info dst) (state + base) id Hw Hroom Hok1)
    as (b & eo & mark & E & W & K1 & K2 & _ & Ht). assert (b = true) as -> by auto.
  destruct (eager_set dst (state + base) id) as [[ok d1]|] eqn:Es; [|unfold eager_set in Es; by rewrite E in Es].
  destruct (eager_set_core _ _ _ _ _ Es) as (C1 & C2 & C3 & (m & C4)). rewrite E in C4. injection C4 as <- Heo <-.
  destruct (K2 eq_refl) as [K3 K4]. assert (mark = true) as ->.
  { destruct mark; [done|]. destruct (Hni id ltac:(left)). by apply K4. }
  cbn [andb]. pose proof (fsm_eager_output_set_used _ _ _ _ _ _ _ Hw Hroom E) as Hu.
  assert (∀ k, eager_outputs eo k = eager_outputs (f_eager_output_info dst) k ++ if decide (k = state + base)%N then [id] else []) as Ho.
  { intros k. case_decide as Hk; [by rewrite Hk|]. by rewrite K1, app_nil_r. }
  destruct (IH d1) as (d2 & E2 & S1 & S2 & S3 & S4 & S5 & S6 & S7).
  - by rewrite <-Heo.
  - done.
  - done.
  - done.
  - rewrite <-Heo, Ho, decide_True by done. intros x Hx. rewrite not_elem_of_app. split; [apply Hni; by right|].
    rewrite list_elem_of_singleton. by intros ->.
  - rewrite <-Heo. lia.
  - exists d2. split; [exact E2|]. split; [by etrans|]. split; [congruence|]. split; [congruence|]. split; [done|].
    rewrite <-Heo in S5, S6, S7. split; [simpl; lia|]. split.
    + intros k. rewrite S6, Ho, <-app_assoc. f_equal. by case_decide.
    + intros k e Hk. destruct (S7 k e Hk) as [->|[e' He']]; [by left|].
      eapply (fsm_eager_output_set_keys (f_alloc dst)); [exact Hw|exact Hroom|exact E|exact He'].
Qed.

Lemma copy_eager_loop bs : ∀ dst,
  eager_wf (f_eager_output_info dst) → NoDup (entries bs).*1 →
  (∀ k e, Some (k, e) ∈ bs → entry_wf e ∧ (k + base < 4294967296)%N ∧ eager_outputs (f_eager_output_info dst) (k + base) = []) →
  (N.of_nat (eo_buckets_used (f_eager_output_info dst) + eager_total bs) < 1073741824)%N →
  ∃ dst', iter_all_loop bs (copy_eager_output_ids_cb base) (Some (true, dst)) = Some (true, dst') ∧
    same_core dst dst' ∧ f_endid_info dst' = f_endid_info dst ∧ f_capture_info dst' = f_capture_info dst ∧
    eager_wf (f_eager_output_info dst') ∧
    (∀ k, (∀ k' e, Some (k', e) ∈ bs → k ≠ (k' + base)%N) →
       eager_outputs (f_eager_output_info dst') k = eager_outputs (f_eager_output_info dst) k) ∧
    (∀ k e, Some (k, e) ∈ bs → eager_outputs (f_eager_output_info dst') (k + base) = eoe_ids e) ∧
    (∀ k e, Some (k, e) ∈ eo_buckets (f_eager_output_info dst') →
       (∃ k' e', Some (k', e') ∈ bs ∧ k = (k' + base)%N) ∨ ∃ e', Some (k, e') ∈ eo_buckets (f_eager_output_info dst)) ∧
    eo_buckets_used (f_eager_output_info dst') ≤ eo_buckets_used (f_eager_output_info dst) + eager_total bs.
Proof.
  induction bs as [|[[k e]|] bs IH]; intros dst Hw Hnd Hbs Hr; cbn [iter_all_loop].
  - exists dst. do 5 (split; [done|]). split; [done|]. split; [by intros k e ?%not_elem_of_nil|]. split; [eauto|cbn; lia].
  - rewrite entries_cons in Hnd. apply NoDup_cons in Hnd as [Hni Hnd].
    change (eager_total (Some (k, e) :: bs)) with (length (eoe_ids e) + eager_total bs) in Hr |- *.
    destruct (Hbs k e ltac:(left)) as ((Hids & _ & _ & Hok) & Hlt & Hnil).
    destruct (copy_eager_ids k (eoe_ids e) dst) as (d1 & -> & S1 & S2 & S3 & S4 & S5 & S6 & S7); [done|done|done|done| |lia|].
    { intros x _. rewrite Hnil. apply not_elem_of_nil. }
    assert (∀ k' e', Some (k', e') ∈ bs → (k' + base)%N ≠ (k + base)%N) as Hne.
    { intros k' e' Hin E. assert (k' = k) as -> by lia. apply Hni, list_elem_of_fmap. exists (k, e').
      split; [done|]. by apply elem_of_entries. }
    destruct (IH d1) as (d2 & E2 & T1 & T2 & T3 & T4 & T5 & T6 & T7 & T8); [done|done| |lia|].
    { intros k' e' Hin. destruct (Hbs k' e' ltac:(by right)) as (A1 & A2 & A3). split; [done|]. split; [done|].
      rewrite S6, A3, decide_False by eauto. done. }
    exists d2. split; [exact E2|]. split; [by etrans|]. split; [congruence|]. split; [congruence|]. split; [done|].
    split; [|split; [|split; [|lia]]].
    + intros j Hj. rewrite T5 by (intros k' e' Hin; apply (Hj k' e'); by right).
      rewrite S6, decide_False; [by rewrite app_nil_r|]. apply (Hj k e). left.
    + intros j e' [E|Hin]%elem_of_cons; [|by apply T6]. injection E as -> ->.
      rewrite T5 by (intros k' e' Hin; intros E; by apply (Hne k' e' Hin)). by rewrite S6, Hnil, decide_True.
    + intros j e' Hj. destruct (T7 j e' Hj) as [(k' & e'' & Hin & ->)|[e'' He'']].
      * left. exists k', e''. split; [by right|done].
      * destruct (S7 j e'' He'') as [->|?]; [|by right]. left. exists k, e. split; [left|done].
  - destruct (IH dst) as (d2 & E2 & T1 & T2 & T3 & T4 & T5 & T6 & T7 & T8); [done|done|intros; apply Hbs; by right|done|].
    exists d2. do 5 (split; [done|]). split; [|split; [|split; [|exact T8]]].
    + intros j Hj. apply T5. intros k' e' Hin. apply (Hj k' e'). by right.
    + intros j e' [?|Hin]%elem_of_cons; [done|by apply T6].
    + intros j e' Hj. destruct (T7 j e' Hj) as [(k' & e'' & Hin & ->)|?]; [|by right]. left. exists k', e''. split; [by right|done].
Qed.
End EagerLemmas.

(** ** Lemmas: the states of a merged automaton *)

Definition no_captures (f : fsm) : Prop := ci_buckets (f_capture_info f) = [].

(** No group of edges is without symbols. *)
Definition no_blanks (f : fsm) : Prop :=
  ∀ s k, live f s → k ∈ edge_keys (st_edges (get_state f s)) → ∃ sym, has_edge (st_edges (get_state f s)) sym k.

Lemma no_blanks_ok f : no_blanks f → blanks_ok f.
Proof. intros Hn s Hs k Hk. right. by apply Hn. Qed.

(** The rebased transitions of a state of [src]. *)
Lemma rebase_state_spec nd ns st :
  (N.of_nat (nd + ns) < 2147483648)%N → state_ok ns st →
  state_ok (nd + ns) (rebase_state (N.of_nat nd) st) ∧
  (∀ c t, has_edge (st_edges (rebase_state (N.of_nat nd) st)) c t ↔ ∃ t', has_edge (st_edges st) c t' ∧ t = (t' + N.of_nat nd)%N) ∧
  (∀ t, ss_has (st_epsilons (rebase_state (N.of_nat nd) st)) t ↔ ∃ t', ss_has (st_epsilons st) t' ∧ t = (t' + N.of_nat nd)%N) ∧
  ((∀ k, k ∈ edge_keys (st_edges st) → ∃ sym, has_edge (st_edges st) sym k) →
    ∀ k, k ∈ edge_keys (st_edges (rebase_state (N.of_nat nd) st)) → ∃ sym, has_edge (st_edges (rebase_state (N.of_nat nd) st)) sym k).
Proof.
  intros Hfit (H1 & H2 & H3 & H4). cbn.
  assert (∀ g, g ∈ set_groups (st_edges st) → (eg_to g + N.of_nat nd < 4294967296)%N) as Hno.
  { intros g Hg. specialize (H3 (eg_to g) ltac:(by apply list_elem_of_fmap_2)). lia. }
  destruct (edge_set_rebase_spec (st_edges st) (N.of_nat nd) H1 Hno) as [E1 E2].
  destruct (state_set_rebase_spec (st_epsilons st) (N.of_nat nd) H2) as [S1 S2].
  { apply Forall_forall. intros t Ht. specialize (H4 t Ht). lia. }
  assert (∀ t, ss_has (state_set_rebase (st_epsilons st) (N.of_nat nd)) t ↔ ∃ t', ss_has (st_epsilons st) t' ∧ t = (t' + N.of_nat nd)%N) as S3.
  { intros t. unfold ss_has. rewrite S2, list_elem_of_fmap. naive_solver. }
  assert (∀ k, k ∈ edge_keys (edge_set_rebase (st_edges st) (N.of_nat nd)) →
    (edge_set_empty (st_edges st) = true ∧ k ∈ edge_keys (st_edges st)) ∨ ∃ k', k' ∈ edge_keys (st_edges st) ∧ k = (k' + N.of_nat nd)%N) as Hk.
  { intros k. unfold edge_set_rebase. destruct (edge_set_empty (st_edges st)) eqn:E; [by left|].
    destruct (st_edges st) as [p|]; [|by intros ?%not_elem_of_nil]. cbn [mbind option_bind]. unfold edge_keys. cbn [set_groups es_groups].
    rewrite <-list_fmap_compose. intros (g & -> & Hg)%list_elem_of_fmap. right. exists (eg_to g).
    split; [by apply list_elem_of_fmap_2|]. cbn. rewrite u32_small; [done|]. by apply Hno. }
  split; [|split; [done|split; [done|]]].
  - split; [done|]. split; [done|]. split.
    + intros k [[_ Hin]|(k' & Hin & ->)]%Hk; specialize (H3 _ Hin); lia.
    + intros t (t' & Ht & ->)%S3. specialize (H4 _ Ht). lia.
  - intros Hn k [[He Hin]|(k' & Hin & ->)]%Hk.
    + destruct (Hn k Hin) as [sym Hs']. by apply edge_set_empty_edge in Hs'.
    + destruct (Hn k' Hin) as [sym Hs']. exists sym. apply E2. eauto.
Qed.

Section States.
Context (dst src : fsm) (states : list fsm_state).
Let nd := f_statecount dst.
Let ns := f_statecount src.
Hypothesis Hd : fsm_wf dst.
Hypothesis Hs : fsm_wf src.
Hypothesis Hfit : (N.of_nat (nd + ns) < 2147483648)%N.
Hypothesis Hstates : ∃ ext, states = f_states dst ++ ext.
Hypothesis Hlen : nd + ns ≤ length states.

Definition appended_states : list fsm_state :=
  take nd states ++ (rebase_state (N.of_nat nd) <$> take ns (f_states src)) ++ drop (nd + ns) states.

Definition appended_fsm : fsm :=
  with_endcount (with_statecount (with_states dst appended_states) (nd + ns)) (u31 (N.of_nat (f_endcount dst) + N.of_nat (f_endcount src))).

Lemma take_dst : take nd states = take nd (f_states dst).
Proof. destruct Hstates as [ext ->]. rewrite take_app_le; [done|apply Hd]. Qed.

Lemma length_appended : length appended_states = length states.
Proof.
  unfold appended_states. rewrite !length_app, length_fmap, !length_take, length_drop.
  pose proof (wf_alloc _ Hd). pose proof (wf_alloc _ Hs). unfold nd, ns in *. lia.
Qed.

Lemma appended_dst s : live dst s → get_state appended_fsm s = get_state dst s.
Proof.
  intros Hl. unfold live in Hl. fold nd in Hl. pose proof (wf_alloc _ Hd) as Ha. fold nd in Ha.
  unfold get_state. cbn. unfold appended_states. rewrite take_dst, !list_lookup_total_alt.
  rewrite lookup_app_l by (rewrite length_take; lia). by rewrite lookup_take_lt.
Qed.

Lemma appended_src s : live src s → get_state appended_fsm (s + N.of_nat nd) = rebase_state (N.of_nat nd) (get_state src s).
Proof.
  intros Hl. pose proof (live_lookup _ _ Hs Hl) as Hg. unfold live in Hl. fold ns in Hl.
  pose proof (wf_alloc _ Hd) as Ha. fold nd in Ha. pose proof (wf_alloc _ Hs) as Ha'. fold ns in Ha'.
  unfold get_state at 1. cbn. unfold appended_states. rewrite take_dst. apply list_lookup_total_correct.
  rewrite lookup_app_r by (rewrite length_take; lia). rewrite length_take, Nat.min_l by lia.
  replace (N.to_nat (s + N.of_nat nd) - nd) with (N.to_nat s) by lia.
  rewrite lookup_app_l by (rewrite length_fmap, length_take; lia).
  by rewrite list_lookup_fmap, lookup_take_lt, Hg by lia.
Qed.

Lemma appended_live s : live appended_fsm s ↔ live dst s ∨ ∃ s', live src s' ∧ s = (s' + N.of_nat nd)%N.
Proof.
  unfold live. cbn. fold nd ns. split.
  - intros Hl. destruct (decide (N.to_nat s < nd)); [by left|]. right. exists (s - N.of_nat nd)%N. lia.
  - intros [?|(s' & ? & ->)]; lia.
Qed.

Lemma appended_wf : fsm_wf (fsm_clearstart appended_fsm).
Proof.
  pose proof (wf_alloc _ Hd) as Ha. fold nd in Ha. pose proof (wf_alloc_pos _ Hd) as Hp.
  pose proof (wf_alloc _ Hs) as Ha'. fold ns in Ha'. split; cbn.
  - rewrite length_appended. exact Hlen.
  - rewrite length_appended. destruct Hstates as [ext ->]. rewrite length_app. lia.
  - exact Hfit.
  - intros s [Hl|(s' & Hl & ->)]%appended_live; change (get_state (fsm_clearstart appended_fsm)) with (get_state appended_fsm).
    + rewrite appended_dst by done. eapply state_ok_mono; [|by apply (wf_states _ Hd)]. fold nd. lia.
    + rewrite appended_src by done. apply rebase_state_spec; [done|]. by apply (wf_states _ Hs).
  - rewrite (wf_endcount _ Hd), (wf_endcount _ Hs). unfold end_states. cbn. fold nd ns. unfold appended_states.
    rewrite take_dst, app_assoc, take_app_le by (rewrite length_app, length_fmap, !length_take; lia).
    rewrite (take_ge (take nd (f_states dst) ++ _)) by (rewrite length_app, length_fmap, !length_take; lia).
    rewrite filter_app, length_app, length_filter_fmap. cbn.
    pose proof (length_filter (λ st, st_end st = true) (take nd (f_states dst))) as L1.
    pose proof (length_filter (λ st, st_end st = true) (take ns (f_states src))) as L2.
    rewrite length_take in L1, L2. rewrite u31_small by lia. lia.
  - done.
Qed.
End States.

(** ** Lemmas: merging *)

(** What [merge] needs of its operands: the invariant, no captures to copy, and
    ids and tables that do not overflow. *)
Record merge_ready (dst src : fsm) : Prop := {
  mr_dst : fsm_inv dst;
  mr_src : fsm_inv src;
  mr_endid_dst : endid_wf (f_endid_info dst);
  mr_endid_src : endid_wf (f_endid_info src);
  mr_captures : no_captures src;
  mr_count : (N.of_nat (f_statecount dst + f_statecount src) < 2147483648)%N;
  mr_endids : endids_fit (f_endid_info dst) (f_endid_info src);
  mr_eager : eager_fit (f_eager_output_info dst) (f_eager_output_info src);
}.

(** The merged automaton: the states of [dst], then those of [src]. *)
Record merges (dst src q : fsm) : Prop := {
  mg_wf : fsm_wf q;
  mg_meta : fsm_meta q;
  mg_endid : endid_wf (f_endid_info q);
  mg_flags : flags q [];
  mg_blanks : no_blanks dst → no_blanks src → no_blanks q;
  mg_count : f_statecount q = f_statecount dst + f_statecount src;
  mg_alloc : f_alloc q = f_alloc dst;
  mg_start : fsm_getstart q = None;
  mg_edge_dst s c t : live dst s → f_edge q s c t ↔ f_edge dst s c t;
  mg_eps_dst s t : live dst s → f_eps q s t ↔ f_eps dst s t;
  mg_end_dst s : live dst s → f_end q s ↔ f_end dst s;
  mg_edge_src s c t : live src s →
    f_edge q (s + N.of_nat (f_statecount dst)) c t ↔ ∃ t', f_edge src s c t' ∧ t = (t' + N.of_nat (f_statecount dst))%N;
  mg_eps_src s t : live src s →
    f_eps q (s + N.of_nat (f_statecount dst)) t ↔ ∃ t', f_eps src s t' ∧ t = (t' + N.of_nat (f_statecount dst))%N;
  mg_end_src s : live src s → f_end q (s + N.of_nat (f_statecount dst)) ↔ f_end src s;
  mg_endids_dst s : live dst s → endids (f_endid_info q) s = endids (f_endid_info dst) s;
  mg_endids_src s : live src s →
    endids (f_endid_info q) (s + N.of_nat (f_statecount dst)) = endids (f_endid_info src) s;
  mg_eager_dst s : live dst s → eager_outputs (f_eager_output_info q) s = eager_outputs (f_eager_output_info dst) s;
  mg_eager_src s : live src s →
    eager_outputs (f_eager_output_info q) (s + N.of_nat (f_statecount dst)) = eager_outputs (f_eager_output_info src) s;
}.

Lemma same_core_clearstart f f' : same_core f f' → same_core (fsm_clearstart f) (fsm_clearstart f').
Proof. intros (H1 & H2 & H3 & H4 & H5 & H6 & H7). split_and!; done. Qed.

Lemma eager_no_key info k : eager_wf info → (∀ e, Some (k, e) ∉ eo_buckets info) → eager_outputs info k = [].
Proof.
  intros (Hok & _) Hno. unfold eager_outputs. destruct (table_get _ k) as [e|] eqn:E; [|done].
  apply table_get_spec in E; [|done]. by apply Hno in E.
Qed.

Lemma appended_merges dst src states q :
  merge_ready dst src → (∃ ext, states = f_states dst ++ ext) → f_statecount dst + f_statecount src ≤ length states →
  same_core (fsm_clearstart (appended_fsm dst src states)) q →
  endid_wf (f_endid_info q) → eager_wf (f_eager_output_info q) →
  (∀ k, (k < N.of_nat (f_statecount dst))%N → endids (f_endid_info q) k = endids (f_endid_info dst) k) →
  (∀ k, endids (f_endid_info q) (k + N.of_nat (f_statecount dst)) = endids (f_endid_info src) k) →
  (∀ s, live dst s → eager_outputs (f_eager_output_info q) s = eager_outputs (f_eager_output_info dst) s) →
  (∀ s, live src s →
    eager_outputs (f_eager_output_info q) (s + N.of_nat (f_statecount dst)) = eager_outputs (f_eager_output_info src) s) →
  (∀ k e, Some (k, e) ∈ eo_buckets (f_eager_output_info q) → live q k) → merges dst src q.
Proof.
  intros [R1 R2 R3 R4 R5 R6 R7 R8] Hst Hlen Hc Hwe Hwo E1 E2 O1 O2 Okey.
  set (nd := f_statecount dst) in *. set (ns := f_statecount src) in *.
  set (f1 := appended_fsm dst src states) in *.
  pose proof (inv_wf _ R1) as Wd. pose proof (inv_wf _ R2) as Ws.
  assert (∀ s, live f1 s ↔ live dst s ∨ ∃ s', live src s' ∧ s = (s' + N.of_nat nd)%N) as Hl
    by (intros s; by apply appended_live).
  assert (∀ s, live dst s → get_state f1 s = get_state dst s) as Gd by (intros s Hs; by apply appended_dst).
  assert (∀ s, live src s → get_state f1 (s + N.of_nat nd) = rebase_state (N.of_nat nd) (get_state src s)) as Gs
    by (intros s Hs; by apply appended_src).
  assert (∀ s, live src s → state_ok ns (get_state src s)) as Hok by (intros s Hs; by apply (wf_states _ Ws)).
  pose proof (λ s Hs, rebase_state_spec nd ns (get_state src s) R6 (Hok s Hs)) as Hr.
  pose proof Hc as (C1 & C2 & _ & _ & _ & C6 & C7). change (get_state (fsm_clearstart f1)) with (get_state f1) in C7.
  assert (∀ s, live q s ↔ live f1 s) as Hlq by (intros s; by rewrite (same_core_live _ _ s Hc)).
  assert (∀ s, live dst s → live q s) as Hld by (intros; apply Hlq, Hl; by left).
  assert (∀ s, live src s → live q (s + N.of_nat nd)) as Hls by (intros; apply Hlq, Hl; eauto).
  split; try done.
  - eapply same_core_wf; [exact Hc|]. by apply appended_wf.
  - split; [by apply endid_wf_weak|]. split; [done|]. split; [|done]. intros k e Hk.
    assert (endids (f_endid_info q) k ≠ []) as Hn by (apply endid_key; eauto).
    destruct (decide (k < N.of_nat nd)%N) as [Hlt|Hge].
    + rewrite E1 in Hn by done. apply endid_key in Hn as [e' He']; [|done].
      apply Hld. destruct (inv_meta _ R1) as (_ & _ & M & _). by eapply M.
    + replace k with ((k - N.of_nat nd) + N.of_nat nd)%N in Hn |- * by lia.
      rewrite E2 in Hn. apply endid_key in Hn as [e' He']; [|done].
      apply Hls. destruct (inv_meta _ R2) as (_ & _ & M & _). by eapply M.
  - rewrite flags_nil. intros s Hs. unfold visited. destruct (C7 s) as (_ & _ & _ & ->).
    apply Hlq, Hl in Hs as [Hs|(s' & Hs & ->)].
    + rewrite Gd by done. pose proof (inv_flags _ R1) as F. rewrite flags_nil in F. by apply F.
    + rewrite Gs by done. pose proof (inv_flags _ R2) as F. rewrite flags_nil in F. by apply F.
  - intros Nd Ns s k Hs. destruct (C7 s) as (-> & _). apply Hlq, Hl in Hs as [Hs|(s' & Hs & ->)].
    + rewrite Gd by done. by apply Nd.
    + rewrite Gs by done. apply (Hr s' Hs). intros k' Hk'. by apply Ns.
  - unfold fsm_getstart. by rewrite C6.
  - intros s c t Hs. unfold f_edge. destruct (C7 s) as (-> & _). rewrite Gd by done. naive_solver.
  - intros s t Hs. unfold f_eps. destruct (C7 s) as (_ & -> & _). rewrite Gd by done. naive_solver.
  - intros s Hs. unfold f_end, fsm_isend. destruct (C7 s) as (_ & _ & -> & _). rewrite Gd by done. naive_solver.
  - intros s c t Hs. fold nd. unfold f_edge. destruct (C7 (s + N.of_nat nd)%N) as (-> & _). rewrite Gs by done.
    destruct (Hr s Hs) as (_ & H2 & _). rewrite H2. naive_solver.
  - intros s t Hs. fold nd. unfold f_eps. destruct (C7 (s + N.of_nat nd)%N) as (_ & -> & _). rewrite Gs by done.
    destruct (Hr s Hs) as (_ & _ & H2 & _). rewrite H2. naive_solver.
  - intros s Hs. fold nd. unfold f_end, fsm_isend. destruct (C7 (s + N.of_nat nd)%N) as (_ & _ & -> & _). rewrite Gs by done.
    cbn. naive_solver.
  - intros s Hs. apply E1. unfold live in Hs. fold nd in Hs. lia.
Qed.

Lemma merge_spec `{alloc_total} dst src :
  merge_ready dst src →
  ∃ q cbase, merge dst src = Some (Some (q, N.of_nat (f_statecount dst), cbase)) ∧ merges dst src q.
Proof.
  intros Hready. pose proof Hready as [R1 R2 R3 R4 R5 R6 R7 R8]. unfold merge.
  set (nd := f_statecount dst) in *. set (ns := f_statecount src) in *.
  pose proof (wf_alloc _ (inv_wf _ R1)) as Ha. fold nd in Ha.
  assert (∃ states, (if length (f_states dst) <? ns + nd then
      if f_realloc (f_alloc dst) (N.of_nat (ns + nd) * sizeof_fsm_state) then
        (true, f_states dst ++ replicate (ns + nd - length (f_states dst)) inhabitant)
      else (false, f_states dst) else (true, f_states dst)) = (true, states) ∧
    (∃ ext, states = f_states dst ++ ext) ∧ nd + ns ≤ length states) as (states & -> & Hst & Hlen).
  { rewrite f_realloc_total. destruct (_ <? _) eqn:E; split_bool.
    - eexists. split; [done|]. split; [eauto|]. rewrite length_app, length_replicate. lia.
    - eexists. split; [done|]. split; [exists []; by rewrite app_nil_r|lia]. }
  rewrite u32_small by lia.
  assert (fsm_capture_action_iter (fsm_capture_rebase_capture_action_states
    (fsm_capture_rebase_capture_id (f_capture_info src) (fsm_countcaptures dst)) (N.of_nat nd)) = []) as Hcap.
  { unfold fsm_capture_rebase_capture_id. by rewrite R5. }
  unfold copy_capture_actions. rewrite Hcap. cbn [add_actions mbind option_bind].
  match goal with |- context [merge_end_ids ?g _ _] => change g with (appended_fsm dst src states) end.
  set (f1 := appended_fsm dst src states).
  destruct (inv_meta _ R1) as (Md1 & Md2 & Md3 & Md4). destruct (inv_meta _ R2) as (Ms1 & Ms2 & Ms3 & Ms4).
  destruct (merge_end_ids_spec (N.of_nat nd) f1 (f_endid_info src)) as (ei & -> & W1 & W2 & W3); try done.
  { intros k e Hk. specialize (Ms3 k e Hk). unfold live in Ms3. fold ns in Ms3. lia. }
  { intros k Hk. destruct (endids (f_endid_info f1) k) eqn:E; [done|].
    assert (endids (f_endid_info dst) k ≠ []) as Hn by (by intros Hn; change (f_endid_info f1) with (f_endid_info dst) in E; rewrite E in Hn).
    apply endid_key in Hn as [e He]; [|done]. specialize (Md3 k e He). unfold live in Md3. fold nd in Md3. lia. }
  cbn [mbind option_bind]. unfold copy_eager_output_ids, fsm_eager_output_iter_all.
  assert (∀ k, live src k → eager_outputs (f_eager_output_info dst) (k + N.of_nat nd) = []) as Hno.
  { intros k Hk. apply eager_no_key; [done|]. intros e He. specialize (Md4 _ e He). unfold live in Md4. fold nd in Md4. lia. }
  destruct (copy_eager_loop (N.of_nat nd) (eo_buckets (f_eager_output_info src)) (with_endid_info f1 ei))
    as (f3 & -> & T1 & T2 & T3 & T4 & T5 & T6 & T7 & _); try done.
  { apply NoDup_keys, Ms2. }
  { intros k e Hk. pose proof (Ms4 k e Hk) as Hk'. destruct Ms2 as (_ & _ & _ & Ms2). split; [by eapply Ms2|].
    split; [unfold live in Hk'; fold ns in Hk'; lia|]. by apply Hno. }
  cbn [mbind option_bind]. change (f_eager_output_info (with_endid_info f1 ei)) with (f_eager_output_info dst) in *.
  eexists _, _. split; [done|].
  assert (same_core (fsm_clearstart f1) (fsm_clearstart f3)) as Hcore.
  { apply same_core_clearstart. etrans; [|exact T1]. done. }
  apply (appended_merges dst src states); try done.
  - cbn. by rewrite T2.
  - cbn. by rewrite T2.
  - cbn. by rewrite T2.
  - intros s Hs. apply T5. intros k' e' _ ->. unfold live in Hs. fold nd in Hs. lia.
  - intros s Hs. cbn. fold nd. destruct (table_get (eo_buckets (f_eager_output_info src)) s) as [e|] eqn:Eg.
    + pose proof Eg as Hin. apply table_get_spec in Hin; [|apply Ms2]. rewrite (T6 s e Hin). unfold eager_outputs. by rewrite Eg.
    + rewrite T5; [rewrite Hno by done; unfold eager_outputs; by rewrite Eg|].
      intros k' e' Hin E. assert (k' = s) as -> by lia. apply (table_get_spec _ s e') in Hin; [congruence|apply Ms2].
  - intros k e Hk. rewrite (same_core_live _ _ k Hcore). change (live (fsm_clearstart f1) k) with (live f1 k).
    apply appended_live; [done|done|]. destruct (T7 k e Hk) as [(k' & e' & Hin & ->)|[e' He']]; [right; eauto|left; eauto].
Qed.

(** ** Lemmas: the two parts of a merged automaton *)

Record merged (a b q : fsm) (info : fsm_combine_info) : Prop := {
  md_wf : fsm_wf q;
  md_meta : fsm_meta q;
  md_endid : endid_wf (f_endid_info q);
  md_flags : flags q [];
  md_blanks : no_blanks a → no_blanks b → no_blanks q;
  md_count : f_statecount q = f_statecount a + f_statecount b;
  md_start : fsm_getstart q = None;
  md_live s : live q s ↔ (∃ s', live a s' ∧ s = (s' + base_a info)%N) ∨ (∃ s', live b s' ∧ s = (s' + base_b info)%N);
  md_apart s s' : live a s → live b s' → (s + base_a info)%N ≠ (s' + base_b info)%N;
  md_a : renames (nfa_of a) (nfa_of q) (live a) (λ s, s + base_a info)%N;
  md_b : renames (nfa_of b) (nfa_of q) (live b) (λ s, s + base_b info)%N;
  md_endids_a s : live a s → endids (f_endid_info q) (s + base_a info) = endids (f_endid_info a) s;
  md_endids_b s : live b s → endids (f_endid_info q) (s + base_b info) = endids (f_endid_info b) s;
  md_eager_a s : live a s → eager_outputs (f_eager_output_info q) (s + base_a info) = eager_outputs (f_eager_output_info a) s;
  md_eager_b s : live b s → eager_outputs (f_eager_output_info q) (s + base_b info) = eager_outputs (f_eager_output_info b) s;
}.

Lemma merges_renames_dst dst src q :
  fsm_wf dst → merges dst src q → renames (nfa_of dst) (nfa_of q) (live dst) (λ s, s + 0)%N.
Proof.
  intros Hw Hm. split.
  - intros; lia.
  - intros s c t He _. exact (f_edge_live dst s c t Hw He).
  - intros s t He _. exact (f_eps_live dst s t Hw He).
  - intros s c t Hs. rewrite N.add_0_r. cbn. rewrite (mg_edge_dst _ _ _ Hm) by done. setoid_rewrite N.add_0_r. naive_solver.
  - intros s t Hs. rewrite N.add_0_r. cbn. rewrite (mg_eps_dst _ _ _ Hm) by done. setoid_rewrite N.add_0_r. naive_solver.
  - intros s Hs. rewrite N.add_0_r. by apply (mg_end_dst _ _ _ Hm).
Qed.

Lemma merges_renames_src dst src q :
  fsm_wf src → merges dst src q → renames (nfa_of src) (nfa_of q) (live src) (λ s, s + N.of_nat (f_statecount dst))%N.
Proof.
  intros Hw Hm. split.
  - intros; lia.
  - intros s c t He _. exact (f_edge_live src s c t Hw He).
  - intros s t He _. exact (f_eps_live src s t Hw He).
  - intros s c t Hs. by apply (mg_edge_src _ _ _ Hm).
  - intros s t Hs. by apply (mg_eps_src _ _ _ Hm).
  - intros s Hs. by apply (mg_end_src _ _ _ Hm).
Qed.

(** Merged the way round that [fsm_merge] chose. *)
Lemma merges_merged dst src q cbase :
  fsm_wf dst → fsm_wf src → merges dst src q →
  merged dst src q (mk_combine 0 (N.of_nat (f_statecount dst)) 0 cbase) ∧
  merged src dst q (mk_combine (N.of_nat (f_statecount dst)) 0 cbase 0).
Proof.
  intros Wd Ws Hm. pose proof (merges_renames_dst _ _ _ Wd Hm) as Rd. pose proof (merges_renames_src _ _ _ Ws Hm) as Rs.
  pose proof (mg_count _ _ _ Hm) as Hc.
  assert (∀ s, live q s ↔ (∃ s', live dst s' ∧ s = (s' + 0)%N) ∨ (∃ s', live src s' ∧ s = (s' + N.of_nat (f_statecount dst))%N)) as Hl.
  { intros s. unfold live. rewrite Hc. split.
    - intros Hs. destruct (decide (N.to_nat s < f_statecount dst)); [left; exists s; lia|].
      right. exists (s - N.of_nat (f_statecount dst))%N. lia.
    - intros [(s' & ? & ->)|(s' & ? & ->)]; lia. }
  destruct Hm as [M1 M2 M3 M4 M5 M6 M7 M8 M9 M10 M11 M12 M13 M14 M15 M16 M17 M18].
  split; split; cbn; try done; try lia; try (intros; rewrite N.add_0_r; auto; fail).
  - unfold live. intros; lia.
  - intros. auto.
  - intros s. rewrite Hl. tauto.
  - unfold live. intros; lia.
Qed.

Lemma fsm_merge_spec `{alloc_total} a b :
  merge_ready a b → merge_ready b a →
  ∃ q info, fsm_merge a b = Some (Some (q, info)) ∧ merged a b q info.
Proof.
  intros Hab Hba. unfold fsm_merge. pose proof (inv_wf _ (mr_dst _ _ Hab)) as Wa. pose proof (inv_wf _ (mr_src _ _ Hab)) as Wb.
  destruct (merge_into_a a b).
  - destruct (merge_spec a b Hab) as (q & cbase & -> & Hm). eexists _, _. split; [done|]. by apply merges_merged.
  - destruct (merge_spec b a Hba) as (q & cbase & -> & Hm). eexists _, _. split; [done|]. by apply merges_merged.
Qed.

(** ** Lemmas: linking the parts *)

(** A state of one part, at its number in [q]. *)
Lemma merged_shift_a a b q info s :
  merged a b q info → live a s → (s +32 base_a info)%cint = (s + base_a info)%N ∧ live q (s + base_a info).
Proof.
  intros Hm Hs. assert (live q (s + base_a info)) as Hl by (apply (md_live _ _ _ _ Hm); left; eauto).
  split; [|done]. apply u32_small. by eapply live_lt32, Hl; apply Hm.
Qed.

Lemma merged_shift_b a b q info s :
  merged a b q info → live b s → (s +32 base_b info)%cint = (s + base_b info)%N ∧ live q (s + base_b info).
Proof.
  intros Hm Hs. assert (live q (s + base_b info)) as Hl by (apply (md_live _ _ _ _ Hm); right; eauto).
  split; [|done]. apply u32_small. by eapply live_lt32, Hl; apply Hm.
Qed.

(** Renaming survives what is added to other states. *)
Lemma renames_extend A B B' live f :
  renames A B live f →
  (∀ s c t, live s → n_edge B' (f s) c t ↔ n_edge B (f s) c t) →
  (∀ s t, live s → n_eps B' (f s) t ↔ n_eps B (f s) t) →
  (∀ s, live s → n_end B' (f s) ↔ n_end B (f s)) → renames A B' live f.
Proof.
  intros [R1 R2 R3 R4 R5 R6] He Hp Hn. split; try done.
  - intros s c t Hs. rewrite He by done. by apply R4.
  - intros s t Hs. rewrite Hp by done. by apply R5.
  - intros s Hs. rewrite Hn by done. by apply R6.
Qed.

Lemma fsm_addedge_epsilon_info `{allocator} f from to b f' :
  fsm_addedge_epsilon f from to = (b, f') →
  f_endid_info f' = f_endid_info f ∧ f_eager_output_info f' = f_eager_output_info f ∧ f_alloc f' = f_alloc f.
Proof. unfold fsm_addedge_epsilon. destruct (state_set_add _ _ _). by intros [= <- <-]. Qed.

(** Linking a new start state to two states. *)
Lemma link_start `{alloc_total} q s1 s2 :
  fsm_wf q → live q s1 → live q s2 → (N.of_nat (f_statecount q) < 2147483647)%N →
  ∃ q1 q2 q3, fsm_addstate q = (true, q1, N.of_nat (f_statecount q)) ∧
    fsm_addedge_epsilon (fsm_setstart q1 (N.of_nat (f_statecount q))) (N.of_nat (f_statecount q)) s1 = (true, q2) ∧
    fsm_addedge_epsilon q2 (N.of_nat (f_statecount q)) s2 = (true, q3) ∧ fsm_wf q3 ∧ (fsm_inv q → fsm_inv q3) ∧
    f_statecount q3 = f_statecount q + 1 ∧ f_endid_info q3 = f_endid_info q ∧
    f_eager_output_info q3 = f_eager_output_info q ∧
    nfa_of q3 ≡ mk_nfa (f_edge q) (λ s t, f_eps q s t ∨ s = N.of_nat (f_statecount q) ∧ (t = s1 ∨ t = s2)) (f_end q)
      (λ s, s = N.of_nat (f_statecount q)).
Proof.
  intros Hw H1 H2 Hn. set (sq := N.of_nat (f_statecount q)).
  destruct (fsm_addstate q) as [[b q1] s] eqn:E1. destruct (fsm_addstate_spec q b q1 s Hw Hn E1) as (_ & Hb & Hs).
  assert (b = true) as -> by auto. destruct (Hs eq_refl) as (W1 & C1 & -> & N1 & _). fold sq in E1 |- *.
  destruct (fsm_addstate_frame q true q1 sq Hw E1) as (F1 & F2 & _).
  assert (live q1 sq) as Lq by (unfold live, sq; lia).
  assert (live q1 s1) as L1 by (unfold live in *; lia). assert (live q1 s2) as L2 by (unfold live in *; lia).
  destruct (fsm_setstart_spec q1 sq W1 Lq) as [W1' N1'].
  destruct (fsm_addedge_epsilon (fsm_setstart q1 sq) sq s1) as [b2 q2] eqn:E2.
  destruct (fsm_addedge_epsilon_spec (fsm_setstart q1 sq) sq s1 b2 q2 W1' Lq L1 E2) as (W2 & C2 & B2 & N2).
  assert (b2 = true) as -> by auto. cbn in C2.
  destruct (fsm_addedge_epsilon_info _ _ _ _ _ E2) as (G1 & G2 & _).
  assert (live q2 sq) as Lq2 by (unfold live in *; lia). assert (live q2 s2) as L22 by (unfold live in *; lia).
  destruct (fsm_addedge_epsilon q2 sq s2) as [b3 q3] eqn:E3.
  destruct (fsm_addedge_epsilon_spec q2 sq s2 b3 q3 W2 Lq2 L22 E3) as (W3 & C3 & B3 & N3).
  assert (b3 = true) as -> by auto. destruct (fsm_addedge_epsilon_info _ _ _ _ _ E3) as (K1 & K2 & _).
  exists q1, q2, q3. do 3 (split; [done|]). split; [done|]. split.
  { intros Hi. eapply inv_addedge_epsilon; [|exact Lq2|exact L22|exact E3].
    eapply (inv_addedge_epsilon (fsm_setstart q1 sq)); [|exact Lq|exact L1|exact E2]. apply inv_setstart; [|done]. by eapply inv_addstate. }
  split; [lia|]. split; [cbn in *; congruence|]. split; [cbn in *; congruence|].
  rewrite N3 by done. destruct (N2 eq_refl) as (A1 & A2 & A3 & A4), N1' as (B1 & B2' & B3' & B4), N1 as (D1 & D2 & D3 & _).
  cbn in A1, A2, A3, A4, B1, B2', B3', B4, D1, D2, D3. split; [|split; [|split]]; cbn.
  - intros s c t. by rewrite A1, B1, D1.
  - intros s t. rewrite A2, B2', D2. naive_solver.
  - intros s. by rewrite A3, B3', D3.
  - intros s. by rewrite A4, B4.
Qed.

(** ** Automata just built

    Operands without end ids, eager outputs or captures. *)

Definition fresh_meta (f : fsm) : Prop :=
  f_endid_info f = mk_endid_info (replicate DEF_BUCKET_COUNT None) 0 ∧
  f_eager_output_info f = mk_eager 0 0 (replicate DEF_BUCKET_COUNT None) 0 ∧ f_capture_info f = mk_capture 0 0 [].

Lemma fresh_ready a b :
  fsm_inv a → fsm_inv b → fresh_meta a → fresh_meta b →
  (N.of_nat (f_statecount a + f_statecount b) < 2147483648)%N → merge_ready a b.
Proof.
  intros Ia Ib (A1 & A2 & A3) (B1 & B2 & B3) Hc.
  pose proof fresh_endid_wf. split; rewrite ?A1, ?B1; try done; try (unfold no_captures; by rewrite ?A3, ?B3).
  - unfold eager_fit. rewrite A2, B2. cbn. lia.
Qed.

(** ** Union *)

Definition startable (f : fsm) : Prop := f_statecount f = 0 ∨ is_Some (fsm_getstart f).

Lemma language_no_states f w : fsm_wf f → f_statecount f = 0 → ¬ language f w.
Proof. intros Hw Hz (s & t & Hs & _). apply (wf_start _ Hw) in Hs. unfold live in Hs. lia. Qed.

Lemma language_start f s w : fsm_getstart f = Some s → language f w ↔ reaches_end (nfa_of f) s w.
Proof.
  intros Hs. unfold language. rewrite accepts_reaches. cbn. rewrite Hs. naive_solver.
Qed.

Section Union.
Context `{allocator, !alloc_total}.

End Union.

(** Two automata for the witnesses: [a] with one end state, and [b|c] with two. *)
Definition one_end_ops : list build_op := [BAddState; BAddState; BStart 0%N; BLiteral 0%N 1%N 97; BEnd 1%N true].

Definition two_ends_ops : list build_op :=
  [BAddState; BAddState; BAddState; BStart 0%N; BLiteral 0%N 1%N 98; BEnd 1%N true; BLiteral 0%N 2%N 99; BEnd 2%N true].

Definition one_end : fsm := @build_from_new always one_end_ops.
Definition two_ends : fsm := @build_from_new always two_ends_ops.

Lemma samples_ready : merge_ready one_end two_ends ∧ merge_ready two_ends one_end.
Proof.
  assert (fsm_inv one_end) by (by apply inv_build_from_new). assert (fsm_inv two_ends) by (by apply inv_build_from_new).
  split; apply fresh_ready; try done.
Qed.


(** Combining an array of automata without captures reports a wrong base
    for those whose states did not come first: the states of [one_end] are at 3
    in the union, but its reported base is 0. *)
Theorem fsm_union_array_base_not_shifted :
  ∃ q info, @fsm_union always one_end two_ends = Some (Some (q, info)) ∧ base_a info = 3%N ∧
    @fsm_union_array always [one_end; two_ends] = Some (Some (q, [(0, 0); (0, 0)]%N)).
Proof. eexists _, _. vm_compute. split; [reflexivity|]. split; reflexivity. Qed.
