(* ===== verification/Concat.v ===== *)
(** * Concatenation and its language: src/libfsm/concat.c, collate.c

    What [Combine.fsm_collate] and [Combine.fsm_concat] do to the language:
    several end states are led to one new state, which is then linked to the
    start of the second automaton. *)

From S2P Require Import Prelude StateSet Bits EdgeSet EdgeIter EdgeCompact Probe Endids EagerOutput.
From S2P Require Import Lang Fsm FsmSpec Queue Search FsmCompact FsmInv Pred Capture Combine.

(** What the building operations used here leave alone. *)
Definition same_meta (f f' : fsm) : Prop :=
  f_endid_info f' = f_endid_info f ∧ f_eager_output_info f' = f_eager_output_info f ∧
  f_capture_info f' = f_capture_info f.

#[export] Instance same_meta_preorder : PreOrder same_meta.
Proof. split; [by intros f|]. intros f g h (H1 & H2 & H3) (K1 & K2 & K3). split_and!; congruence. Qed.

Lemma same_meta_setend f s b : same_meta f (fsm_setend f s b).
Proof. destruct (same_frame_setend f s b) as [-> _]. done. Qed.

Lemma same_meta_addedge_epsilon `{allocator} f from to b f' : fsm_addedge_epsilon f from to = (b, f') → same_meta f f'.
Proof. unfold fsm_addedge_epsilon. destruct (state_set_add _ _ _). by intros [= <- <-]. Qed.

Lemma same_meta_ready a a' b :
  same_meta a a' → fsm_inv a' → (N.of_nat (f_statecount a' + f_statecount b) < 2147483648)%N →
  merge_ready a b → merge_ready b a → merge_ready a' b ∧ merge_ready b a'.
Proof.
  intros (E1 & E2 & E3) Hi Hc [A1 A2 A3 A4 A5 A6 A7 A8] [B1 B2 B3 B4 B5 B6 B7 B8]. unfold no_captures in *.
  split; split; unfold no_captures; rewrite ?E1, ?E2, ?E3; try done. by rewrite Nat.add_comm.
Qed.

#[export] Instance add_eps_proper : Proper ((≡) ==> (=) ==> (=) ==> (≡)) add_eps.
Proof.
  intros A B (H1 & H2 & H3 & H4) s ? <- t ? <-. split_and!; cbn; intros; try done. by rewrite H2.
Qed.

#[export] Instance with_start_at_proper : Proper ((≡) ==> (=) ==> (≡)) with_start_at.
Proof. intros A B (H1 & H2 & H3 & H4) s ? <-. by split_and!. Qed.

(** ** Collating end states *)

Section Collate.
Context `{allocator, !alloc_total}.

Lemma collate_loop_spec new l : ∀ f,
  fsm_inv f → live f new → (∀ i, i ∈ l → live f i) →
  ∃ f', collate_loop l f fsm_isend new = (true, f') ∧ fsm_inv f' ∧ same_meta f f' ∧
    f_statecount f' = f_statecount f ∧
    nfa_of f' ≡ mk_nfa (f_edge f) (λ s t, f_eps f s t ∨ t = new ∧ s ≠ new ∧ s ∈ l ∧ f_end f s) (f_end f)
      (n_start (nfa_of f)).
Proof.
  induction l as [|i l IH]; intros f Hi Hn Hl; cbn [collate_loop].
  { exists f. split_and!; try done. split_and!; cbn; intros; set_solver. }
  assert (live f i) as Hli by (apply Hl; left). assert (∀ j, j ∈ l → live f j) as Hll by (intros; apply Hl; by right).
  assert (n_same : (i = new ∨ ¬ f_end f i) → ∃ f', collate_loop l f fsm_isend new = (true, f') ∧ fsm_inv f' ∧ same_meta f f' ∧
    f_statecount f' = f_statecount f ∧
    nfa_of f' ≡ mk_nfa (f_edge f) (λ s t, f_eps f s t ∨ t = new ∧ s ≠ new ∧ s ∈ i :: l ∧ f_end f s) (f_end f)
      (n_start (nfa_of f))).
  { intros Hor. destruct (IH f Hi Hn Hll) as (f' & E & I & M & C & N1). exists f'. split_and!; try done.
    rewrite N1. split_and!; cbn; intros; try done. rewrite elem_of_cons. naive_solver. }
  destruct (i =? new)%N eqn:Ei; split_bool; [by apply n_same; left|].
  destruct (fsm_isend f i) eqn:Ee; cbn [negb]; [|apply n_same; right; unfold f_end; rewrite Ee; by intros [_ ?]].
  destruct (fsm_addedge_epsilon f i new) as [b f1] eqn:E1.
  destruct (fsm_addedge_epsilon_spec f i new b f1 (inv_wf _ Hi) Hli Hn E1) as (W1 & C1 & B1 & N1).
  assert (b = true) as -> by auto. pose proof (inv_addedge_epsilon _ _ _ _ _ Hi Hli Hn E1) as I1.
  destruct (IH f1) as (f' & E & I & M & C & N2); [done|unfold live in *; lia|intros j Hj; specialize (Hll j Hj); unfold live in *; lia|].
  exists f'. split; [done|]. split; [done|].
  split; [etrans; [by eapply same_meta_addedge_epsilon|done]|]. split; [lia|].
  rewrite N2. destruct (N1 eq_refl) as (A1 & A2 & A3 & A4). cbn in A1, A2, A3, A4.
  split_and!; cbn; intros; rewrite ?A1, ?A2, ?A3, ?A4; try done. rewrite elem_of_cons.
  assert (f_end f i) by done. naive_solver.
Qed.

(** The number of ends. *)
Lemma ends_count f : fsm_wf f → fsm_count f fsm_isend = N.of_nat (length (filter (λ i, fsm_isend f i = true) (live_ids f))).
Proof. intros Hw. by rewrite fsm_count_spec. Qed.

Lemma first_state_spec l f : 
  (∃ i, i ∈ l ∧ fsm_isend f i = true) → ∃ i, first_state l f fsm_isend = Some i ∧ i ∈ l ∧ fsm_isend f i = true.
Proof.
  induction l as [|x l IH]; cbn [first_state]; [by intros (i & ?%not_elem_of_nil & _)|].
  destruct (fsm_isend f x) eqn:E; [intros _; exists x; split; [done|]; split; [left|done]|].
  intros (i & [->|Hi]%elem_of_cons & Hx); [congruence|]. destruct IH as (j & ? & ? & ?); [eauto|].
  exists j. split; [done|]. split; [by right|done].
Qed.

(** After collation the words that lead to [e] are those that led to an end
    state; the ends it was collated from stay ends. *)
Lemma fsm_collate_spec f :
  fsm_inv f → fsm_has f fsm_isend = true → (N.of_nat (f_statecount f) < 2147483647)%N →
  ∃ f' e, fsm_collate f fsm_isend = Some (true, f', e) ∧ fsm_inv f' ∧ same_meta f f' ∧ live f' e ∧
    f_statecount f ≤ f_statecount f' ≤ f_statecount f + 1 ∧
    ∀ s w, live f s →
      (path (nfa_of f') s w e ↔ reaches_end (nfa_of f) s w) ∧
      ((∃ t, path (nfa_of f') s w t ∧ f_end f' t ∧ t ≠ e) ↔
        (1 < fsm_count f fsm_isend)%N ∧ reaches_end (nfa_of f) s w).
Proof.
  intros Hi Hh Hn. pose proof (inv_wf _ Hi) as Hw. unfold fsm_collate. rewrite ends_count by done.
  apply existsb_exists in Hh as (x & Hx%list_elem_of_In & Ex).
  set (ends := filter (λ i, fsm_isend f i = true) (live_ids f)).
  assert (∀ i, i ∈ ends ↔ f_end f i) as Hends by (intros i; unfold ends; rewrite list_elem_of_filter, elem_of_live_ids; unfold f_end; tauto).
  assert (x ∈ ends) as Hxe by (apply Hends; split; [by apply elem_of_live_ids|done]).
  assert (length ends ≠ 0) as Hnz by (destruct ends; [by apply not_elem_of_nil in Hxe|done]).
  rewrite (proj2 (N.eqb_neq _ 0)) by lia. destruct (N.of_nat (length ends) =? 1)%N eqn:E1; split_bool.
  - destruct (first_state_spec (live_ids f) f) as (e & -> & He & Ee); [eauto|]. cbn [mbind option_bind].
    assert (∀ t, f_end f t → t = e) as Huniq.
    { intros t Ht%Hends. assert (e ∈ ends) as Hee by (apply Hends; split; [by apply elem_of_live_ids|done]).
      destruct ends as [|y [|]]; cbn in E1; [lia| |lia]. apply list_elem_of_singleton in Ht, Hee. congruence. }
    assert (f_end f e) as Hfe by (split; [by apply elem_of_live_ids|done]).
    exists f, e. do 3 (split; [done|]). split; [apply Hfe|]. split; [lia|]. intros s w Hs. split; [split|].
    + intros Hp. by exists e.
    + intros (t & Hp & Ht). by rewrite <-(Huniq t Ht).
    + split; [intros (t & _ & Ht & Hne); by destruct (Hne (Huniq t Ht))|]. lia.
  - destruct (fsm_addstate f) as [[b f1] new] eqn:Ea.
    destruct (fsm_addstate_spec f b f1 new Hw ltac:(done) Ea) as (_ & Hb & Hs). assert (b = true) as -> by auto.
    destruct (Hs eq_refl) as (W1 & C1 & -> & N1 & _ & _ & _ & _ & Z1 & Z2 & Z3).
    pose proof (fsm_addstate_frame f true f1 _ Hw Ea) as (F1 & F2 & F3 & _).
    set (new := N.of_nat (f_statecount f)) in *.
    destruct (collate_loop_spec new (live_ids f1) f1) as (f' & -> & I & M & C & N2);
      [by eapply inv_addstate|unfold live, new; lia|by intros i ?%elem_of_live_ids|].
    assert (∀ s, live f s → s ≠ new) as Hnew by (intros s Hs' ->; unfold live, new in Hs'; lia).
    exists f', new. do 2 (split; [done|]). split; [by etrans; [|exact M]|].
    split; [unfold live, new; lia|]. split; [lia|].
    pose proof N1 as (D1 & D2 & D3 & _). cbn in D1, D2, D3.
    assert (∀ s, f_end f s → s ≠ new) as Hne by (intros s [? _]; auto).
    assert (∀ s w t, live f s → path (nfa_of f') s w t ↔ t ≠ new ∧ path (nfa_of f) s w t ∨ t = new ∧ reaches_end (nfa_of f) s w) as Hpath.
    { intros s w t Hls. rewrite N2. apply path_collated; cbn.
      - intros s' c t'. by rewrite D1.
      - intros s' t'. rewrite D2, D3, elem_of_live_ids. split; [naive_solver|].
        intros [?|[-> Hse]]; [by left|right]. split; [done|]. split; [by apply Hne|]. split; [|done].
        destruct Hse as [Hse _]. unfold live in *. lia.
      - intros c t' [Hx' _]. by apply (Hnew _ Hx').
      - intros t' [Hx' _]. by apply (Hnew _ Hx').
      - intros [Hx' _]. by apply (Hnew _ Hx').
      - intros s' c Hx'. apply (Hnew new); [|done]. by eapply f_edge_live.
      - intros s' Hx'. apply (Hnew new); [|done]. by eapply f_eps_live.
      - by apply Hnew. }
    destruct N2 as (_ & _ & G3 & _). cbn in G3.
    intros s w Hls. split; [rewrite Hpath by done; naive_solver|]. split.
    + intros (t & Hp & Ht & Hte). apply Hpath in Hp as [[_ Hp]|[? _]]; [|done|done]. split; [lia|].
      exists t. split; [done|]. by apply D3, G3.
    + intros (_ & t & Hp & Ht). exists t. assert (t ≠ new) by (by apply Hne). split; [apply Hpath; auto|].
      split; [|done]. by apply G3, D3.
Qed.
End Collate.

(** ** Concatenation *)

(** The words of the concatenation, for operands with states. *)
Definition concat_words (a b : fsm) (w : list nat) : Prop :=
  (∃ u v, w = u ++ v ∧ language a u ∧ language b v) ∨ (1 < fsm_count a fsm_isend)%N ∧ language a w.

Section Concat.
Context `{allocator, !alloc_total}.

(** The end state [ea] of the first part linked to the second. *)
Lemma link_parts a b q info ea sa sb :
  merged a b q info → fsm_wf a → live a ea → live a sa → live b sb →
  ∃ q', fsm_addedge_epsilon (fsm_setend q (ea + base_a info) false) (ea + base_a info) (sb + base_b info) = (true, q') ∧
    fsm_wf (fsm_setstart q' (sa + base_a info)) ∧
    ∀ w, language (fsm_setstart q' (sa + base_a info)) w ↔
      (∃ t, path (nfa_of a) sa w t ∧ f_end a t ∧ t ≠ ea) ∨
      ∃ u v, w = u ++ v ∧ path (nfa_of a) sa u ea ∧ reaches_end (nfa_of b) sb v.
Proof.
  intros Hm Wa Le La Lb. pose proof (md_wf _ _ _ _ Hm) as Wq.
  destruct (merged_shift_a _ _ _ _ ea Hm Le) as [_ Lqe]. destruct (merged_shift_a _ _ _ _ sa Hm La) as [_ Lqa].
  destruct (merged_shift_b _ _ _ _ sb Hm Lb) as [_ Lqb].
  destruct (fsm_setend_spec q (ea + base_a info) false Wq Lqe) as (W1 & N1 & C1 & _).
  set (q1 := fsm_setend q (ea + base_a info) false) in *.
  assert (∀ s, live q s → live q1 s) as L1 by (intros s; unfold live; by rewrite C1).
  destruct (fsm_addedge_epsilon q1 (ea + base_a info) (sb + base_b info)) as [ok q2] eqn:E2.
  destruct (fsm_addedge_epsilon_spec q1 _ _ ok q2 W1 (L1 _ Lqe) (L1 _ Lqb) E2) as (W2 & C2 & B2 & N2).
  assert (ok = true) as -> by auto. exists q2. split; [done|].
  destruct (fsm_setstart_spec q2 (sa + base_a info)) as [W3 N3]; [done|unfold live; rewrite C2; by apply L1|].
  split; [done|]. intros w. rewrite (language_start _ (sa + base_a info)) by done.
  rewrite (N2 eq_refl), N1 in N3.
  set (C := with_start_at (add_eps (with_end (nfa_of q) (ea + base_a info) false) (ea + base_a info) (sb + base_b info)) (sa + base_a info)) in *.
  pose proof (md_a _ _ _ _ Hm) as Ra. rewrite N3.
  rewrite (reaches_join (nfa_of a) C (live a) (λ s, s + base_a info)%N ea (sb + base_b info) sa w); cbn.
  - assert (renames (nfa_of b) C (live b) (λ s, s + base_b info)%N) as Rb.
    { eapply renames_extend; [apply (md_b _ _ _ _ Hm)|..]; cbn; intros s *; try done; intros Hs;
        pose proof (md_apart _ _ _ _ Hm ea s Le Hs).
      - naive_solver.
      - rewrite decide_False by congruence. done. }
    by setoid_rewrite (reaches_renames _ _ _ _ sb _ Rb Lb).
  - intros s c t _. by apply f_edge_live.
  - intros s t _. by apply f_eps_live.
  - apply (ren_edge _ _ _ _ Ra).
  - intros s t Hs. pose proof (ren_eps _ _ _ _ Ra s t Hs) as Hr. cbn in Hr. rewrite <-Hr. split; (intros [?|[E ->]]; [by left|right; split; [lia|done]]).
  - intros s Hs. pose proof (ren_end _ _ _ _ Ra s Hs) as Hr. cbn in Hr. case_decide as Ed.
    + split; [done|]. intros [_ Hne]. destruct Hne. lia.
    + rewrite Hr. split; [|by intros [? _]]. intros ?. split; [done|]. by intros ->.
  - done.
Qed.

End Concat.

