(* ===== verification/Clone.v ===== *)
(** * Copying an automaton: src/libfsm/clone.c

    [Combine.fsm_clone] allocates the states, copies their edges one by one
    and then the end ids and eager outputs; the copy cannot be told apart from
    the original. *)

From S2P Require Import Prelude StateSet Bits EdgeSet EdgeIter EdgeCompact Probe Endids EagerOutput.
From S2P Require Import Lang Fsm FsmSpec Queue Search FsmCompact FsmInv Pred Capture Combine.

(** ** Lemmas: a new automaton with blank states *)

Definition blank_state : fsm_state := mk_state None SSNull false false false false.

Lemma upd_blank_loop l : ∀ f,
  (∀ s, get_state f s = blank_state) →
  let f' := foldl (λ f i, upd_state f (N.of_nat (f_statecount f + i)) init_slot) f l in
  same_frame f f' ∧ f_endcount f' = f_endcount f ∧ ∀ s, get_state f' s = blank_state.
Proof.
  induction l as [|i l IH]; intros f Hf; cbn [foldl]; [split; [apply same_frame_refl|]; done|].
  set (f1 := upd_state f (N.of_nat (f_statecount f + i)) init_slot).
  assert (∀ s, get_state f1 s = blank_state) as H1.
  { intros s. destruct (decide (N.to_nat (N.of_nat (f_statecount f + i)) < length (f_states f))) as [Hl|Hl].
    - unfold f1. rewrite get_upd by done. case_decide; [by rewrite Hf|done].
    - unfold f1, get_state, upd_state. cbn [with_states f_states].
      replace (alter init_slot _ (f_states f)) with (f_states f); [apply Hf|].
      apply list_eq. intros j. destruct (decide (N.to_nat (N.of_nat (f_statecount f + i)) = j)) as [<-|Hj].
      + rewrite list_lookup_alter_eq. by rewrite lookup_ge_None_2 by lia.
      + by rewrite list_lookup_alter_ne. }
  destruct (IH f1 H1) as (Hs & He & Hb). split; [|done]. eapply same_frame_trans; [apply same_frame_upd|exact Hs].
Qed.

Lemma addstate_bulk_blank `{allocator} f n :
  (∀ s, get_state f s = blank_state) → f_statecount f = 0 → f_endcount f = 0 → fsm_getstart f = None →
  n ≤ length (f_states f) → 0 < length (f_states f) → (N.of_nat n < 2147483648)%N →
  ∃ f', fsm_addstate_bulk f n = (true, f') ∧ f' = with_statecount (with_states f (f_states f')) n ∧ fsm_wf f' ∧
    ∀ s, get_state f' s = blank_state.
Proof.
  intros Hf Hc He Hst Hn Hp Hlt. unfold fsm_addstate_bulk. rewrite (proj2 (Nat.leb_le (f_statecount f + n) _)) by lia.
  destruct (upd_blank_loop (seq 0 n) f Hf) as ([Hs Hl] & He' & Hb). cbv zeta in Hs, Hl, He', Hb.
  set (f1 := foldl _ f (seq 0 n)) in *. clearbody f1. eexists. split; [done|].
  assert (f_statecount f1 = 0) as Hc1 by (by rewrite Hs). rewrite Hc1, Nat.add_0_l. split; [|split; [split|]].
  - rewrite Hs, He'. by destruct f.
  - cbn. by rewrite Hl.
  - cbn. by rewrite Hl.
  - done.
  - intros s _. change (get_state (with_statecount f1 n)) with (get_state f1). rewrite Hb. split; [done|]. split; [apply state_set_wf_null|].
    split; by intros t ?%not_elem_of_nil.
  - cbn. rewrite He', He. unfold end_states. cbn. destruct (filter _ _) as [|st l] eqn:E; [done|].
    assert (st ∈ filter (λ st, st_end st = true) (take n (f_states f1))) as [Hst' Hin]%list_elem_of_filter by (rewrite E; left).
    apply list_elem_of_lookup in Hin as [i Hi]. rewrite lookup_take_Some in Hi. destruct Hi as [Hi _].
    specialize (Hb (N.of_nat i)). unfold get_state in Hb. rewrite Nat2N.id in Hb.
    rewrite (list_lookup_total_correct _ _ _ Hi) in Hb. by subst st.
  - intros s. unfold fsm_getstart in *. cbn. rewrite Hs. cbn. by rewrite Hst.
  - done.
Qed.

Lemma blank_automaton `{alloc_total} al n :
  (N.of_nat n < 2147483648)%N →
  ∃ new new1, fsm_new_statealloc al n = Some new ∧ fsm_addstate_bulk new n = (true, new1) ∧ fsm_wf new1 ∧
    fresh_meta new1 ∧ f_statecount new1 = n ∧ f_alloc new1 = al ∧ fsm_getstart new1 = None ∧
    ∀ s, get_state new1 s = blank_state.
Proof.
  intros Hn. unfold fsm_new_statealloc, fsm_endid_init, fsm_eager_output_init.
  rewrite !f_malloc_total, !f_calloc_total. cbn [mbind option_bind].
  set (m := if n =? 0 then FSM_DEFAULT_STATEALLOC else n).
  assert (n ≤ m ∧ 0 < m) as [Hm Hm0] by (unfold m; destruct (n =? 0) eqn:E; split_bool; unfold FSM_DEFAULT_STATEALLOC; lia).
  match goal with |- context [Some ?f0 = Some _] => destruct (addstate_bulk_blank f0 n) as (f1 & Hb & Hf & Hw & Hs) end;
    try done; try (cbn; by rewrite length_replicate).
  - intros s. unfold get_state. cbn [f_states]. rewrite list_lookup_total_alt.
    destruct (replicate m (inhabitant : fsm_state) !! N.to_nat s) as [x|] eqn:E; [|done].
    by apply lookup_replicate in E as [-> _].
  - eexists _, f1. do 3 (split; [done|]). rewrite Hf. do 4 (split; [done|]). by rewrite <-Hf.
Qed.

(** ** Lemmas: the loop over the states *)

(** What a copied state has of the original. *)
Definition copy_of (st st' : fsm_state) : Prop :=
  (∀ c t, has_edge (st_edges st') c t ↔ has_edge (st_edges st) c t) ∧
  (∀ t, ss_has (st_epsilons st') t ↔ ss_has (st_epsilons st) t) ∧
  (∀ k, k ∈ edge_keys (st_edges st') → k ∈ edge_keys (st_edges st)) ∧
  st_end st' = st_end st ∧ st_visited st' = false.

Section States.
Context `{allocator, !alloc_total} (f : fsm) (Hwf : fsm_wf f).

Lemma clone_states_spec l : ∀ new,
  fsm_wf new → f_statecount new = f_statecount f → NoDup l → (∀ i, i ∈ l → live f i ∧ get_state new i = blank_state) →
  ∃ new', clone_states l new f = Some (true, new') ∧ fsm_wf new' ∧ same_frame new new' ∧
    ∀ t, if decide (t ∈ l) then copy_of (get_state f t) (get_state new' t) else get_state new' t = get_state new t.
Proof.
  induction l as [|i l IH]; intros new Hw Hc Hnd Hl; cbn [clone_states].
  { exists new. split; [done|]. split; [done|]. split; [apply same_frame_refl|]. intros t. rewrite decide_False; [done|]. apply not_elem_of_nil. }
  apply NoDup_cons in Hnd as [Hni Hnd]. destruct (Hl i ltac:(left)) as [Hi Hb].
  assert (live new i) as Hin by (unfold live in *; lia).
  set (new1 := if fsm_isend f i then fsm_setend new i true else new).
  assert (fsm_wf new1 ∧ same_frame new new1 ∧ (∀ t, get_state new1 t =
    if decide (t = i) then mk_state None SSNull (fsm_isend f i) false false false else get_state new t)) as (W1 & F1 & G1).
  { pose proof (wf_alloc _ Hw). unfold new1. destruct (fsm_isend f i).
    - split; [by apply fsm_setend_spec|]. split; [apply same_frame_setend|]. intros t.
      rewrite get_state_setend by (unfold live in Hin; lia). by rewrite Hb.
    - split; [done|]. split; [apply same_frame_refl|]. intros t. case_decide; [by subst|done]. }
  clearbody new1. pose proof (G1 i) as Gi. rewrite decide_True in Gi by done.
  assert (N.to_nat i < length (f_states new1)) as Hlen.
  { destruct F1 as [_ ->]. pose proof (wf_alloc _ Hw). unfold live in Hin. lia. }
  destruct (wf_states _ Hwf i Hi) as (S1 & S2 & S3 & S4).
  destruct (state_set_copy_total (st_epsilons (get_state new1 i)) (f_alloc new1) (st_epsilons (get_state f i))) as [eps Ee].
  rewrite Ee. rewrite Gi in Ee. destruct (state_set_copy_extends SSNull _ _ eps state_set_wf_null S2 Ee) as [We He].
  set (new2 := upd_state new1 i (set_epsilons eps)).
  assert (get_state new2 i = set_epsilons eps (get_state new1 i)) as G2 by (unfold new2; rewrite get_upd, decide_True by done; done).
  assert (st_edges (get_state new2 i) = None) as G2e by (rewrite G2, Gi; done). rewrite G2e.
  destruct (edge_set_copy_spec (f_alloc new2) None (st_edges (get_state f i))) as (b & p & Ep & Wp & Hp & Hb2); [done|done|done|].
  assert (∀ k, k ∈ edge_keys p → k ∈ edge_keys (st_edges (get_state f i))) as Hk.
  { intros k Hk. destruct (edge_set_copy_keys _ _ _ _ _ k Ep Hk) as [?%not_elem_of_nil|?]; done. }
  assert (b = true) as -> by auto. rewrite Ep. cbn [mbind option_bind].
  set (new3 := upd_state new2 i (set_edges p)).
  assert (∀ t, get_state new3 t = if decide (t = i) then mk_state p eps (fsm_isend f i) false false false else get_state new t) as G3.
  { intros t. unfold new3. rewrite get_upd by (cbn; by rewrite length_alter). rewrite G2, Gi.
    case_decide; [done|]. unfold new2. by rewrite get_upd, decide_False, G1, decide_False. }
  assert (same_frame new new3) as F3.
  { eapply same_frame_trans; [exact F1|]. eapply same_frame_trans; [apply same_frame_upd|apply same_frame_upd]. }
  pose proof (same_frame_count _ _ F1) as C1.
  assert (live new1 i) as Hi1 by (unfold live in *; lia).
  assert (∀ t, t ∈ ss_elems eps → N.to_nat t < f_statecount new1) as Heps.
  { intros t Ht. apply He in Ht as [?%not_elem_of_nil|Ht]; [done|]. rewrite C1, Hc. by apply S4. }
  assert (fsm_wf new3) as W3.
  { apply fsm_wf_upd; [apply fsm_wf_upd| | |]; try done; rewrite ?G2, ?Gi; cbn.
    - split; [done|]. split; [done|]. split; [by intros t ?%not_elem_of_nil|done].
    - split; [done|]. split; [done|]. split; [|done]. intros t Ht. cbn in Ht. rewrite C1, Hc. by apply S3, Hk. }
  destruct (IH new3) as (new' & E & W & F & G); [done|by rewrite (same_frame_count _ _ F3)|done| |].
  { intros j Hj. destruct (Hl j ltac:(by right)) as [? ?]. split; [done|]. rewrite G3, decide_False by (by intros ->). done. }
  exists new'. split; [done|]. split; [done|]. split; [by eapply same_frame_trans|]. intros t. specialize (G t).
  destruct (decide (t = i)) as [->|Hti].
  - rewrite decide_True by left. rewrite decide_False in G by done. rewrite G, G3, decide_True by done.
    split; [|split; [|split; [done|split; done]]]; cbn.
    + intros c t. rewrite Hp by done. split; [|by right]. by intros [?%groups_edge_nil|?].
    + intros t. unfold ss_has in *. rewrite He. split; [|by right]. by intros [?%not_elem_of_nil|?].
  - destruct (decide (t ∈ l)) as [Ht|Ht].
    + by rewrite decide_True by (by right).
    + rewrite decide_False by (rewrite elem_of_cons; naive_solver). by rewrite G, G3, decide_False.
Qed.
End States.

(** ** Lemmas: copying end ids one by one *)

Definition endid_total (bs : endid_buckets) : nat :=
  sum_list ((λ b, match b with Some (_, e) => length (eii_ids e) | None => 0 end) <$> bs).

Section CloneEndids.
Context `{alloc_total}.

Lemma clone_ids state ids : state ≠ BUCKET_NO_STATE → Forall id_ok ids → ∀ dst,
  endid_wf (f_endid_info dst) →
  (N.of_nat (ei_buckets_used (f_endid_info dst) + length ids) < 1073741824)%N →
  ∃ ei', iter_ids clone_end_ids_cb state ids (Some (true, dst)) = (true, Some (true, with_endid_info dst ei')) ∧
    endid_wf ei' ∧ ei_buckets_used ei' ≤ ei_buckets_used (f_endid_info dst) + length ids ∧
    ∀ k x, x ∈ endids ei' k ↔ x ∈ endids (f_endid_info dst) k ∨ k = state ∧ x ∈ ids.
Proof.
  intros Hno. induction ids as [|id ids IH]; intros Hall dst Hw Hr; cbn [iter_ids clone_end_ids_cb].
  { exists (f_endid_info dst). split; [by destruct dst|]. split; [done|]. split; [simpl; lia|]. intros k x.
    split; [by left|]. by intros [?|[_ ?%not_elem_of_nil]]. }
  apply Forall_cons in Hall as [Hid Hall]. simpl in Hr. assert (endid_room (f_endid_info dst)) as Hroom by (unfold endid_room; lia).
  destruct (fsm_endid_set_spec (f_alloc dst) (f_endid_info dst) state id Hw Hroom Hno Hid) as (b & ei & E & W & K1 & K2 & _ & Hb).
  assert (b = true) as -> by auto. rewrite E. cbn [andb].
  pose proof (fsm_endid_set_used _ _ _ _ _ _ Hw Hroom Hno E) as Hu.
  destruct (IH Hall (with_endid_info dst ei)) as (ei' & E' & W' & U' & K'); [done|cbn; lia|].
  exists ei'. split; [exact E'|]. split; [done|]. split; [cbn in *; lia|]. intros k x. rewrite K'. cbn.
  destruct (decide (k = state)) as [->|Hk]; [rewrite K2 by done|rewrite K1 by done]; rewrite ?elem_of_cons; naive_solver.
Qed.

Lemma clone_end_ids_spec src dst :
  endid_wf (f_endid_info dst) → endid_weak src → (∀ k e, Some (k, e) ∈ ei_buckets src → k ≠ BUCKET_NO_STATE) →
  (∀ k, endids (f_endid_info dst) k = []) →
  (N.of_nat (ei_buckets_used (f_endid_info dst) + endid_total (ei_buckets src)) < 1073741824)%N →
  ∃ ei', clone_end_ids dst src = Some (true, with_endid_info dst ei') ∧ endid_wf ei' ∧ ∀ k, endids ei' k = endids src k.
Proof.
  intros Hw (Hok & _ & _ & Hids) Hkeys Hnil Hr.
  assert (∀ bs dst, (∀ k e, Some (k, e) ∈ bs → ids_wf e ∧ k ≠ BUCKET_NO_STATE) → endid_wf (f_endid_info dst) →
    (N.of_nat (ei_buckets_used (f_endid_info dst) + endid_total bs) < 1073741824)%N →
    ∃ ei', foldl (λ env b, match b with
      | None => env
      | Some (s, e) => (iter_ids clone_end_ids_cb s (eii_ids e) env).2
      end) (Some (true, dst)) bs = Some (true, with_endid_info dst ei') ∧ endid_wf ei' ∧
      ∀ k x, x ∈ endids ei' k ↔ x ∈ endids (f_endid_info dst) k ∨ ∃ e, Some (k, e) ∈ bs ∧ x ∈ eii_ids e) as Hloop.
  { clear Hw Hnil Hr. induction bs as [|[[k e]|] bs IH]; intros d Hbs Hw Hr; cbn [foldl].
    - exists (f_endid_info d). split; [by destruct d|]. split; [done|]. intros k x. split; [by left|].
      by intros [?|(e & ?%not_elem_of_nil & _)].
    - change (endid_total (Some (k, e) :: bs)) with (length (eii_ids e) + endid_total bs) in Hr.
      destruct (Hbs k e ltac:(left)) as [(_ & _ & Hok') Hno].
      destruct (clone_ids k (eii_ids e) Hno Hok' d Hw ltac:(lia)) as (ei1 & -> & W1 & U1 & K1). cbn [snd].
      destruct (IH (with_endid_info d ei1) ltac:(intros k' e' Hin; apply Hbs; by right) W1 ltac:(cbn; lia)) as (ei2 & E2 & W2 & K2).
      exists ei2. split; [exact E2|]. split; [done|]. intros j x. rewrite K2. cbn. rewrite K1.
      setoid_rewrite elem_of_cons. naive_solver.
    - destruct (IH d ltac:(intros k' e' Hin; apply Hbs; by right) Hw Hr) as (ei2 & E2 & W2 & K2). exists ei2. split; [exact E2|]. split; [done|].
      intros j x. rewrite K2. setoid_rewrite elem_of_cons. naive_solver. }
  destruct (Hloop (ei_buckets src) dst ltac:(intros k e Hin; split; [by eapply Hids|by eapply Hkeys]) Hw Hr) as (ei' & E & W & K). exists ei'. split; [exact E|]. split; [done|].
  intros k. unfold endids at 2. destruct (table_get (ei_buckets src) k) as [e|] eqn:Eg.
  - pose proof Eg as Hin. apply table_get_spec in Hin; [|done].
    apply increasing_ext; [by apply endids_increasing|by apply (Hids k e)|]. intros x. rewrite K, Hnil.
    split; [|by right; exists e]. intros [?%not_elem_of_nil|(e' & Hin' & Hx)]; [done|].
    apply (table_get_spec _ k e' Hok) in Hin'. congruence.
  - destruct (endids ei' k) as [|x l] eqn:El; [done|]. exfalso.
    assert (x ∈ endids ei' k) as Hx by (rewrite El; left). apply K in Hx as [Hx|(e & Hin & _)].
    + by rewrite Hnil, elem_of_nil in Hx.
    + apply (table_get_spec _ k e Hok) in Hin. congruence.
Qed.
End CloneEndids.

(** ** The copy *)

Section Clone.
Context `{allocator, !alloc_total}.

(** The states of the copy, before its metadata. *)
Lemma clone_graph f :
  fsm_inv f →
  ∃ new new1 new2, fsm_new_statealloc (f_alloc f) (f_statecount f) = Some new ∧
    fsm_addstate_bulk new (f_statecount f) = (true, new1) ∧ clone_states (live_ids f) new1 f = Some (true, new2) ∧
    let f' := match fsm_getstart f with Some start => fsm_setstart new2 start | None => new2 end in
    fsm_inv f' ∧ fresh_meta f' ∧ f_statecount f' = f_statecount f ∧ f_alloc f' = f_alloc f ∧ nfa_of f' ≡ nfa_of f.
Proof.
  intros Hi. pose proof (inv_wf _ Hi) as Hw.
  destruct (blank_automaton (f_alloc f) (f_statecount f)) as (new & new1 & E1 & E2 & W1 & M1 & C1 & A1 & S1 & B1); [apply Hw|].
  destruct (clone_states_spec f Hw (live_ids f) new1) as (new2 & E3 & W2 & F2 & G2); [done|done| | |].
  { unfold live_ids. apply NoDup_fmap; [apply _|]. apply NoDup_seq. }
  { intros i Hl%elem_of_live_ids. by split. }
  pose proof (same_frame_count _ _ F2) as C2. rewrite C1 in C2.
  assert (fresh_meta new2) as M2 by (destruct F2 as [-> _]; exact M1).
  assert (f_alloc new2 = f_alloc f) as A2 by (destruct F2 as [-> _]; exact A1).
  assert (∀ s, live new2 s ↔ live f s) as Hlv by (intros s; unfold live; by rewrite C2).
  assert (∀ s, live f s → copy_of (get_state f s) (get_state new2 s)) as Hcp.
  { intros s Hs. specialize (G2 s). rewrite decide_True in G2 by (by apply elem_of_live_ids). done. }
  assert (fsm_inv new2) as I2.
  { destruct M2 as (Me & Mo & _). split; [done| | |].
    - unfold fsm_meta. rewrite Me, Mo. split; [apply endid_wf_weak, fresh_endid_wf|]. split; [apply fresh_eager_wf|].
      split; intros k e Hk; by destruct (not_elem_of_empty_table DEF_BUCKET_COUNT k e).
    - intros s Hs%Hlv k Hk. destruct (Hcp s Hs) as (P1 & _ & P3 & _). destruct (inv_blanks _ Hi s Hs k (P3 k Hk)) as [?|[sym ?]]; [by left|].
      right. exists sym. by apply P1.
    - rewrite flags_nil. intros s Hs%Hlv. by apply Hcp. }
  assert (nfa_of new2 ≡ mk_nfa (f_edge f) (f_eps f) (f_end f) (λ _, False)) as N2.
  { split_and!; cbn.
    - intros s c t. unfold f_edge. rewrite Hlv. split; (intros [Hs He]; split; [done|]; by apply (Hcp s Hs)).
    - intros s t. unfold f_eps. rewrite Hlv. split; (intros [Hs He]; split; [done|]; by apply (Hcp s Hs)).
    - intros s. unfold f_end, fsm_isend. rewrite Hlv. split; intros [Hs He]; (split; [done|]);
        destruct (Hcp s Hs) as (_ & _ & _ & E & _); congruence.
    - intros s. destruct F2 as [-> _]. unfold fsm_getstart in *. cbn. by rewrite S1. }
  exists new, new1, new2. do 3 (split; [done|]). cbv zeta. destruct (fsm_getstart f) as [s|] eqn:Es.
  - assert (live new2 s) as Hs by (apply Hlv, (wf_start _ Hw), Es).
    split; [by apply inv_setstart|]. split; [done|]. split; [done|]. split; [done|].
    destruct (fsm_setstart_spec new2 s W2 Hs) as [_ N3]. rewrite N3. destruct N2 as (N4 & N5 & N6 & _).
    split_and!; cbn; try done. intros t. rewrite Es. split; [by intros ->|by intros [= ->]].
  - split; [done|]. split; [done|]. split; [done|]. split; [done|]. rewrite N2. split_and!; cbn; try done.
    intros t. by rewrite Es.
Qed.

Lemma clone_copies f :
  fsm_inv f → no_captures f →
  (N.of_nat (endid_total (ei_buckets (f_endid_info f))) < 1073741824)%N →
  (N.of_nat (eager_total (eo_buckets (f_eager_output_info f))) < 1073741824)%N →
  ∃ f', fsm_clone f = Some (Some f') ∧ fsm_inv f' ∧ endid_wf (f_endid_info f') ∧
    f_statecount f' = f_statecount f ∧ nfa_of f' ≡ nfa_of f ∧ f_alloc f' = f_alloc f ∧ f_capture_info f' = mk_capture 0 0 [] ∧
    eo_buckets_used (f_eager_output_info f') ≤ eager_total (eo_buckets (f_eager_output_info f)) ∧
    ∀ s, endids (f_endid_info f') s = endids (f_endid_info f) s ∧
      eager_outputs (f_eager_output_info f') s = eager_outputs (f_eager_output_info f) s.
Proof.
  intros Hi Hc Hre Hro. destruct (clone_graph f Hi) as (new & new1 & new2 & E1 & E2 & E3 & Hg). cbv zeta in Hg.
  unfold fsm_clone. rewrite E1, E2, E3. cbn [mbind option_bind].
  set (f1 := match fsm_getstart f with Some start => _ | None => _ end) in *. clearbody f1.
  destruct Hg as (I1 & M1 & C1 & A1 & N1). pose proof M1 as (Me & Mo & Mc).
  assert (fsm_capture_action_iter (f_capture_info f) = []) as Hcap by (unfold fsm_capture_action_iter; by rewrite Hc).
  unfold copy_capture_actions. rewrite Hcap. cbn [add_actions mbind option_bind].
  destruct (inv_meta _ Hi) as (X1 & X2 & X3 & X4). pose proof (inv_wf _ Hi) as Hw.
  destruct (clone_end_ids_spec (f_endid_info f) f1) as (ei & -> & We & Ke); [rewrite Me; apply fresh_endid_wf|done| | | |].
  { intros k e Hk. eapply live_bucket; [exact Hw|by eapply X3]. }
  { intros k. rewrite Me. destruct (endids _ k) eqn:E; [done|].
    assert (endids (mk_endid_info (replicate DEF_BUCKET_COUNT None) 0) k ≠ []) as [e He]%(endid_key _ _ fresh_endid_wf) by congruence.
    by destruct (not_elem_of_empty_table DEF_BUCKET_COUNT k e). }
  { rewrite Me. exact Hre. }
  assert (∀ k, eager_outputs (f_eager_output_info f1) k = []) as Hno.
  { intros k. rewrite Mo. apply eager_no_key; [apply fresh_eager_wf|]. intros e. apply not_elem_of_empty_table. }
  cbn [mbind option_bind]. unfold copy_eager_output_ids, fsm_eager_output_iter_all.
  destruct (copy_eager_loop 0 (eo_buckets (f_eager_output_info f)) (with_endid_info f1 ei))
    as (f' & -> & T1 & T2 & T3 & T4 & T5 & T6 & T7 & T8); cbn [with_endid_info f_eager_output_info]; try (rewrite Mo; done || apply fresh_eager_wf).
  { apply NoDup_keys, X2. }
  { intros k e Hk. pose proof (live_lt32 _ _ Hw (X4 k e Hk)). destruct X2 as (_ & _ & _ & X2). split; [by eapply X2|]. split; [lia|]. apply Hno. }
  cbn [mbind option_bind]. exists f'. split; [done|]. cbn [with_endid_info f_endid_info f_eager_output_info] in *.
  assert (∀ s, eager_outputs (f_eager_output_info f') s = eager_outputs (f_eager_output_info f) s) as Ko.
  { intros s. unfold eager_outputs at 2. destruct (table_get (eo_buckets (f_eager_output_info f)) s) as [e|] eqn:Eg.
    - apply table_get_spec in Eg; [|apply X2]. rewrite <-(T6 s e Eg). by rewrite N.add_0_r.
    - rewrite T5; [apply Hno|]. intros k' e Hin ->. apply (table_get_spec _ k' e) in Hin; [|apply X2].
      rewrite N.add_0_r in Eg. congruence. }
  assert (same_core f1 f') as Hcore by (etrans; [|exact T1]; done). pose proof Hcore as (Hsc & _ & _ & _ & _ & _ & Hst).
  assert (∀ s, live f' s ↔ live f s) as Hlv by (intros s; unfold live; by rewrite Hsc, C1).
  split; [split|split; [by rewrite T2|]; split; [congruence|]; split; [|split; [|split; [|split; [|by rewrite T2]]]]].
  - by eapply same_core_wf, inv_wf.
  - split; [rewrite T2; by apply endid_wf_weak|]. split; [done|]. split.
    + intros k e Hk. rewrite T2 in Hk. apply Hlv. assert (endids ei k ≠ []) as Hn by (apply endid_key; eauto).
      rewrite Ke in Hn. unfold endids in Hn. destruct (table_get _ k) as [e'|] eqn:Eg; [|done].
      apply table_get_spec in Eg; [|apply X1]. by eapply X3.
    + intros k e Hk. apply Hlv. destruct (T7 k e Hk) as [(k' & e' & Hin & ->)|[e' He']].
      * rewrite N.add_0_r. by eapply X4.
      * rewrite Mo in He'. by destruct (not_elem_of_empty_table DEF_BUCKET_COUNT k e').
  - by eapply same_core_blanks, inv_blanks.
  - by eapply same_core_flags, inv_flags.
  - rewrite <-N1. by apply same_core_nfa.
  - rewrite <-A1. apply Hcore.
  - rewrite T3. exact Mc.
  - rewrite Mo in T8. exact T8.
Qed.

End Clone.

(** [two_ends] with the id 7 at both ends. *)
Definition tagged : fsm :=
  match @fsm_setendid always two_ends 7%N with Some (_, f) => f | None => two_ends end.

Lemma tagged_inv : fsm_inv tagged.
Proof.
  unfold tagged. destruct (@fsm_setendid always two_ends 7%N) as [[b f]|] eqn:E; [|by apply inv_build_from_new].
  apply (@inv_setendid always (live_ids two_ends) 7%N two_ends b f); [by apply inv_build_from_new| | | |by_compute|exact E].
  - change (f_endid_info two_ends) with (f_endid_info (@build_from_new always two_ends_ops)).
    replace (f_endid_info _) with (mk_endid_info (replicate DEF_BUCKET_COUNT None) 0); [apply fresh_endid_wf|].
    vm_compute. reflexivity.
  - vm_compute. reflexivity.
  - intros s. apply elem_of_live_ids.
Qed.

