(* ===== verification/Reverse.v ===== *)
(** * Reversing an automaton: src/libfsm/reverse.c

    [fsm_reverse] turns every transition around, makes the start state the
    only end, and starts from the previous end states: from the single one, or
    from a new state that leads to all of them by epsilon transitions, or by
    copies of their edges when the automaton has no epsilon transitions. *)

From S2P Require Import Prelude StateSet Bits EdgeSet EdgeIter EdgeCompact Probe Endids EagerOutput.
From S2P Require Import Lang Fsm FsmSpec Queue Search FsmCompact FsmInv Pred Capture Combine Clone.

Section Ops.
Context `{allocator}.

Definition is_null_set (set : state_set) : bool := match set with SSNull => true | _ => false end.

(** The set of end states; [None] when it cannot be allocated. *)
Fixpoint collect_ends (l : list N) (f : fsm) (endset : state_set) : option state_set :=
  match l with
  | [] => Some endset
  | i :: l =>
      if negb (fsm_isend f i) then collect_ends l f endset
      else
        let '(ok, endset) := state_set_add endset (f_alloc f) i in
        if ok then collect_ends l f endset else None
  end.

(** The arrays of new edges and epsilon transitions, by destination. *)
Record rev_arrays := mk_rev { r_edges : list edge_set_ptr; r_epsilons : list state_set }.

Definition set_r_edges (r : rev_arrays) (s : N) (p : edge_set_ptr) : rev_arrays :=
  mk_rev (<[N.to_nat s := p]> (r_edges r)) (r_epsilons r).
Definition set_r_epsilons (r : rev_arrays) (s : N) (e : state_set) : rev_arrays :=
  mk_rev (r_edges r) (<[N.to_nat s := e]> (r_epsilons r)).

(** How a part of the work ends: normally, by a jump to [error1], where the
    arrays are installed, or by a return without them. *)
Inductive rev_exit :=
  | RevOk (r : rev_arrays)
  | RevError1 (r : rev_arrays)
  | RevReturn.

Definition rev_bind (x : option rev_exit) (k : rev_arrays → option rev_exit) : option rev_exit :=
  r ← x;
  match r with RevOk r => k r | _ => Some r end.

(** [None] where an array is written past its end. *)
Fixpoint rev_epsilons_loop (l : list N) (al : fsm_alloc) (i : N) (r : rev_arrays) : option rev_exit :=
  match l with
  | [] => Some (RevOk r)
  | se :: l =>
      e ← r_epsilons r !! N.to_nat se;
      let '(ok, e) := state_set_add e al i in
      let r := set_r_epsilons r se e in
      if ok then rev_epsilons_loop l al i r else Some (RevError1 r)
  end.

Fixpoint rev_edges_loop (l : list fsm_edge) (al : fsm_alloc) (i : N) (r : rev_arrays) : option rev_exit :=
  match l with
  | [] => Some (RevOk r)
  | e :: l =>
      p ← r_edges r !! N.to_nat (fe_state e);
      let '(ok, p) := edge_set_add p al (fe_symbol e) i in
      let r := set_r_edges r (fe_state e) p in
      if ok then rev_edges_loop l al i r else Some RevReturn
  end.

Fixpoint rev_states_loop (l : list N) (f : fsm) (r : rev_arrays) : option rev_exit :=
  match l with
  | [] => Some (RevOk r)
  | i :: l =>
      rev_bind (rev_epsilons_loop (state_loop (st_epsilons (get_state f i))) (f_alloc f) i r) (λ r,
      rev_bind (rev_edges_loop (edge_loop (st_edges (get_state f i))) (f_alloc f) i r) (λ r,
      rev_states_loop l f r))
  end.

Definition rev_hasepsilons (f : fsm) : bool :=
  existsb (λ i, negb (is_null_set (st_epsilons (get_state f i)))) (live_ids f).

(** The transitions of a new start state. *)
Fixpoint start_epsilons_loop (l : list N) (al : fsm_alloc) (start : N) (r : rev_arrays) : option rev_exit :=
  match l with
  | [] => Some (RevOk r)
  | s :: l =>
      if (s =? start)%N then start_epsilons_loop l al start r
      else
        e ← r_epsilons r !! N.to_nat start;
        let '(ok, e) := state_set_add e al s in
        let r := set_r_epsilons r start e in
        if ok then start_epsilons_loop l al start r else Some (RevError1 r)
  end.

Fixpoint start_edges_loop (l : list N) (al : fsm_alloc) (start : N) (r : rev_arrays) : option rev_exit :=
  match l with
  | [] => Some (RevOk r)
  | s :: l =>
      if (s =? start)%N then start_edges_loop l al start r
      else
        src ← r_edges r !! N.to_nat s;
        match src with
        | None => start_edges_loop l al start r
        | Some _ =>
            dst ← r_edges r !! N.to_nat start;
            '(ok, p) ← edge_set_copy dst al src;
            let r := set_r_edges r start p in
            if (ok : bool) then start_edges_loop l al start r else Some RevReturn
        end
  end.

Definition rev_start (f : fsm) (endset : state_set) (hasepsilons : bool) (start : N) (r : rev_arrays) : option rev_exit :=
  if f_endcount f =? 1 then Some (RevOk r)
  else if hasepsilons then start_epsilons_loop (state_loop endset) (f_alloc f) start r
  else start_edges_loop (state_loop endset) (f_alloc f) start r.

(** The end flags; [None] where an assertion fails. *)
Definition rev_ends (f : fsm) (endset : state_set) (hasepsilons : bool) (start end_ : N) : option fsm :=
  f ← (if negb (state_set_contains endset end_) then
         if fsm_isend f end_ then None else Some (fsm_setend f end_ true)
       else Some f);
  let f := foldl (λ f s, if (s =? end_)%N then f else fsm_setend f s false) f (state_loop endset) in
  if (1 <? state_set_count endset) && negb hasepsilons && state_set_has endset (fsm_isend f) then
    if fsm_isend f start then None else Some (fsm_setend f start true)
  else Some f.

(** The new transitions take the place of the old ones. *)
Definition rev_install (f : fsm) (r : rev_arrays) : fsm :=
  foldl (λ f i, upd_state f i (λ st, set_edges (r_edges r !!! N.to_nat i) (set_epsilons (r_epsilons r !!! N.to_nat i) st)))
    f (live_ids f).

(** An automaton that matches nothing: one state, no start (the id is stored,
    but [hasstart] is not set). *)
Definition reverse_empty (f : fsm) : bool * fsm :=
  match fsm_new_statealloc (f_alloc f) 1 with
  | None => (false, f)
  | Some new =>
      let '(ok, new, s) := fsm_addstate new in
      if ok then (true, fsm_move f (with_start new (f_hasstart new) s)) else (false, f)
  end.

Definition reverse_graph (f : fsm) (prevstart : N) : option (bool * fsm) :=
  match collect_ends (live_ids f) f SSNull with
  | None => Some (false, f)
  | Some endset =>
      if negb (state_set_count endset =? f_endcount f) then None
      else
        '(ok, f, start) ←
          (if f_endcount f =? 1 then start ← state_set_only endset; Some (true, f, start)
           else Some (fsm_addstate f));
        if (ok : bool) then
          let f := fsm_setstart f start in
          if f_malloc (f_alloc f) (8 * N.of_nat (f_statecount f)) then
            (* a failure to allocate [epsilons] is not noticed *)
            if f_malloc (f_alloc f) (8 * N.of_nat (f_statecount f)) then
              let r := mk_rev (replicate (f_statecount f) None) (replicate (f_statecount f) SSNull) in
              let hasepsilons := rev_hasepsilons f in
              res ← rev_bind (rev_states_loop (live_ids f) f r) (rev_start f endset hasepsilons start);
              match res with
              | RevOk r =>
                  f ← rev_ends f endset hasepsilons start prevstart;
                  Some (true, rev_install f r)
              | RevError1 r => Some (false, rev_install f r)
              | RevReturn => Some (false, f)
              end
            else None
          else Some (false, f)
        else Some (false, f)
  end.

Definition fsm_reverse (f : fsm) : option (bool * fsm) :=
  match fsm_getstart f with
  | Some prevstart => if f_endcount f =? 0 then Some (reverse_empty f) else reverse_graph f prevstart
  | None => Some (reverse_empty f)
  end.
End Ops.

(** ** Lemmas: the arrays *)

(** Arrays of [n] well-formed sets whose members are the pairs [E] and [P]. *)
Record arrays_are (n : nat) (E : N → nat → N → Prop) (P : N → N → Prop) (r : rev_arrays) : Prop := {
  ar_edges_len : length (r_edges r) = n;
  ar_eps_len : length (r_epsilons r) = n;
  ar_edges t p : r_edges r !! N.to_nat t = Some p →
    edge_set_wf p ∧ (∀ k, k ∈ edge_keys p → ∃ c, has_edge p c k) ∧ ∀ c s, has_edge p c s ↔ E t c s;
  ar_eps t e : r_epsilons r !! N.to_nat t = Some e → state_set_wf e ∧ ∀ s, ss_has e s ↔ P t s;
}.

Lemma arrays_ext n E E' P P' r :
  (∀ t c s, N.to_nat t < n → E t c s ↔ E' t c s) → (∀ t s, N.to_nat t < n → P t s ↔ P' t s) →
  arrays_are n E P r → arrays_are n E' P' r.
Proof.
  intros HE HP [H1 H2 H3 H4]. split; [done|done| |].
  - intros t p Hp. destruct (H3 t p Hp) as (A1 & A2 & A3). do 2 (split; [done|]). intros c s. rewrite A3. apply HE.
    apply lookup_lt_Some in Hp. lia.
  - intros t e He. destruct (H4 t e He) as (A1 & A2). split; [done|]. intros s. rewrite A2. apply HP.
    apply lookup_lt_Some in He. lia.
Qed.

Lemma arrays_empty n : arrays_are n (λ _ _ _, False) (λ _ _, False) (mk_rev (replicate n None) (replicate n SSNull)).
Proof.
  split; cbn.
  - apply length_replicate.
  - apply length_replicate.
  - intros t p [-> _]%lookup_replicate. split; [done|]. split; [by intros k ?%not_elem_of_nil|].
    intros c s. split; [intros ?%groups_edge_nil; done|done].
  - intros t e [-> _]%lookup_replicate. split; [apply state_set_wf_null|]. intros s. split; [intros ?%not_elem_of_nil; done|done].
Qed.

(** Replacing one set. *)
Lemma arrays_set_edges n E P r t p (new : nat → N → Prop) :
  arrays_are n E P r → N.to_nat t < n → edge_set_wf p → (∀ k, k ∈ edge_keys p → ∃ c, has_edge p c k) →
  (∀ c s, has_edge p c s ↔ E t c s ∨ new c s) →
  arrays_are n (λ t' c s, E t' c s ∨ t' = t ∧ new c s) P (set_r_edges r t p).
Proof.
  intros [H1 H2 H3 H4] Ht Hw Hk Hp. split; cbn; [by rewrite length_insert|done| |done].
  intros t' p' Hl. destruct (decide (t' = t)) as [->|Hne].
  - rewrite list_lookup_insert_eq in Hl by lia. injection Hl as <-. do 2 (split; [done|]). intros c s. rewrite Hp. naive_solver.
  - rewrite list_lookup_insert_ne in Hl by lia. destruct (H3 t' p' Hl) as (A1 & A2 & A3). do 2 (split; [done|]).
    intros c s. rewrite A3. naive_solver.
Qed.

Lemma arrays_set_eps n E P r t e (new : N → Prop) :
  arrays_are n E P r → N.to_nat t < n → state_set_wf e → (∀ s, ss_has e s ↔ P t s ∨ new s) →
  arrays_are n E (λ t' s, P t' s ∨ t' = t ∧ new s) (set_r_epsilons r t e).
Proof.
  intros [H1 H2 H3 H4] Ht Hw Hp. split; cbn; [done|by rewrite length_insert|done|].
  intros t' e' Hl. destruct (decide (t' = t)) as [->|Hne].
  - rewrite list_lookup_insert_eq in Hl by lia. injection Hl as <-. split; [done|]. intros s. rewrite Hp. naive_solver.
  - rewrite list_lookup_insert_ne in Hl by lia. destruct (H4 t' e' Hl) as (A1 & A2). split; [done|].
    intros s. rewrite A2. naive_solver.
Qed.

Lemma arrays_lookup_eps n E P r t : arrays_are n E P r → N.to_nat t < n →
  ∃ e, r_epsilons r !! N.to_nat t = Some e ∧ state_set_wf e ∧ ∀ s, ss_has e s ↔ P t s.
Proof.
  intros Hr Ht. destruct (lookup_lt_is_Some_2 (r_epsilons r) (N.to_nat t)) as [e He]; [by rewrite (ar_eps_len _ _ _ _ Hr)|].
  exists e. split; [done|]. by apply (ar_eps _ _ _ _ Hr).
Qed.

Lemma arrays_lookup_edges n E P r t : arrays_are n E P r → N.to_nat t < n →
  ∃ p, r_edges r !! N.to_nat t = Some p ∧ edge_set_wf p ∧ (∀ k, k ∈ edge_keys p → ∃ c, has_edge p c k) ∧
    ∀ c s, has_edge p c s ↔ E t c s.
Proof.
  intros Hr Ht. destruct (lookup_lt_is_Some_2 (r_edges r) (N.to_nat t)) as [e He]; [by rewrite (ar_edges_len _ _ _ _ Hr)|].
  exists e. split; [done|]. by apply (ar_edges _ _ _ _ Hr).
Qed.

(** ** Lemmas: the loops *)

Section Loops.
Context `{allocator, !alloc_total} (n : nat) (al : fsm_alloc).

Lemma add_total set x : ∃ set', state_set_add set al x = (true, set').
Proof. pose proof (state_set_add_total set al x) as Ht. destruct (state_set_add set al x) as [b s']. cbn in Ht. subst. eauto. Qed.

Lemma rev_epsilons_loop_spec i l : ∀ E P r,
  arrays_are n E P r → (i < 4294967296)%N → (∀ t, t ∈ l → N.to_nat t < n) →
  ∃ r', rev_epsilons_loop l al i r = Some (RevOk r') ∧ arrays_are n E (λ t s, P t s ∨ t ∈ l ∧ s = i) r'.
Proof.
  induction l as [|t l IH]; intros E P r Hr Hi Hl; cbn [rev_epsilons_loop].
  { exists r. split; [done|]. eapply arrays_ext; [| |exact Hr]; [done|]. intros t s _. rewrite elem_of_nil. naive_solver. }
  destruct (arrays_lookup_eps _ _ _ _ t Hr (Hl t ltac:(left))) as (e & -> & We & He). cbn [mbind option_bind].
  destruct (add_total e i) as [e' Ea]. rewrite Ea. destruct (state_set_add_extends _ _ _ _ We Hi Ea) as [We' He'].
  assert (arrays_are n E (λ t' s, P t' s ∨ t' = t ∧ s = i) (set_r_epsilons r t e')) as Hr1.
  { apply arrays_set_eps; [done|apply Hl; left|done|]. intros s. rewrite He', He. by rewrite list_elem_of_singleton. }
  destruct (IH _ _ _ Hr1 Hi) as (r' & E' & Hr'); [intros t' Ht'; apply Hl; by right|].
  exists r'. split; [exact E'|]. eapply arrays_ext; [| |exact Hr']; [done|]. intros t' s _. rewrite elem_of_cons. naive_solver.
Qed.

(** Adding one edge keeps every key with a symbol. *)
Lemma add_edge_keys p c s p' :
  edge_set_wf p → c < 256 → (s < 4294967296)%N → edge_set_add p al c s = (true, p') →
  (∀ k, k ∈ edge_keys p → ∃ c, has_edge p c k) → ∀ k, k ∈ edge_keys p' → ∃ c, has_edge p' c k.
Proof.
  intros Hw Hc Hs E Hk k Hk'. destruct (edge_set_add_spec _ _ _ _ _ _ Hw Hc Hs E) as [_ Ha].
  destruct (edge_set_add_keys _ _ _ _ _ _ _ E Hk') as [Hk''| ->].
  - destruct (Hk k Hk'') as [c' Hc']. exists c'. apply Ha. by left.
  - exists c. apply Ha. by right.
Qed.

Lemma rev_edges_loop_spec i l : ∀ E P r,
  arrays_are n E P r → (i < 4294967296)%N → (∀ e, e ∈ l → N.to_nat (fe_state e) < n ∧ fe_symbol e < 256) →
  ∃ r', rev_edges_loop l al i r = Some (RevOk r') ∧
    arrays_are n (λ t c s, E t c s ∨ s = i ∧ ∃ e, e ∈ l ∧ fe_state e = t ∧ fe_symbol e = c) P r'.
Proof.
  induction l as [|e l IH]; intros E P r Hr Hi Hl; cbn [rev_edges_loop].
  { exists r. split; [done|]. eapply arrays_ext; [| |exact Hr]; [|done]. intros t c s _. split; [by left|].
    by intros [?|(_ & e & ?%not_elem_of_nil & _)]. }
  destruct (Hl e ltac:(left)) as [He Hc].
  destruct (arrays_lookup_edges _ _ _ _ (fe_state e) Hr He) as (p & -> & Wp & Kp & Hp). cbn [mbind option_bind].
  pose proof (edge_set_add_total p al (fe_symbol e) i) as Ht.
  destruct (edge_set_add p al (fe_symbol e) i) as [b p'] eqn:Ea. cbn in Ht. subst b.
  destruct (edge_set_add_spec _ _ _ _ _ _ Wp Hc Hi Ea) as [Wp' Hp'].
  assert (arrays_are n (λ t c s, E t c s ∨ t = fe_state e ∧ s = i ∧ c = fe_symbol e) P (set_r_edges r (fe_state e) p')) as Hr1.
  { apply (arrays_set_edges _ _ _ _ _ _ (λ c s, s = i ∧ c = fe_symbol e)); [done|done|done|exact (add_edge_keys p (fe_symbol e) i p' Wp Hc Hi Ea Kp)|].
    intros c s. by rewrite Hp', Hp. }
  destruct (IH _ _ _ Hr1 Hi) as (r' & E' & Hr'); [intros e' He'; apply Hl; by right|].
  exists r'. split; [exact E'|]. eapply arrays_ext; [| |exact Hr']; [|done]. intros t c s _.
  setoid_rewrite elem_of_cons. naive_solver.
Qed.

(** All states: the arrays hold the transitions of [l] turned around. *)
Lemma rev_states_loop_spec f l : ∀ E P r,
  n = f_statecount f → al = f_alloc f → fsm_wf f → ids_fit f → (∀ i, i ∈ l → live f i) → arrays_are n E P r →
  ∃ r', rev_states_loop l f r = Some (RevOk r') ∧
    arrays_are n (λ t c s, E t c s ∨ s ∈ l ∧ f_edge f s c t) (λ t s, P t s ∨ s ∈ l ∧ f_eps f s t) r'.
Proof.
  intros E P r Hn Hal Hw Hfit. revert E P r. induction l as [|i l IH]; intros E P r Hl Hr; cbn [rev_states_loop].
  { exists r. split; [done|]. eapply arrays_ext; [| |exact Hr]; intros; rewrite elem_of_nil; naive_solver. }
  assert (live f i) as Hi by (apply Hl; left). pose proof (live_lt32 _ _ Hw Hi) as Hi32.
  destruct (wf_states _ Hw i Hi) as (We & Wp & He & Hp). rewrite state_loop_elems, edge_loop_edges by done. rewrite <-Hal.
  destruct (rev_epsilons_loop_spec i (ss_elems (st_epsilons (get_state f i))) E P r Hr Hi32) as (r1 & -> & Hr1).
  { intros t Ht. rewrite Hn. by apply Hp. }
  assert (∀ e, e ∈ edge_of <$> edge_list (st_edges (get_state f i)) ↔
    has_edge (st_edges (get_state f i)) (fe_symbol e) (fe_state e)) as Hel.
  { intros e. rewrite list_elem_of_fmap. split.
    - intros ([c t] & -> & Hin). apply elem_of_edge_list in Hin; [|done]. cbn. rewrite (ids_fit_u24 f t Hfit); [done|].
      by apply (f_edge_live f i c t Hw).
    - intros Hh. exists (fe_symbol e, fe_state e). split; [|by apply elem_of_edge_list]. destruct e as [c t]. cbn in *.
      unfold edge_of, set_fsm_edge. cbn. f_equal. symmetry. apply (ids_fit_u24 f t Hfit). by apply (f_edge_live f i c t Hw). }
  cbn [rev_bind mbind option_bind].
  destruct (rev_edges_loop_spec i (edge_of <$> edge_list (st_edges (get_state f i))) _ _ r1 Hr1 Hi32) as (r2 & -> & Hr2).
  { intros e Hin%Hel. split; [rewrite Hn; by apply (f_edge_live f i (fe_symbol e) (fe_state e) Hw)|]. by eapply has_edge_symbol. }
  cbn [rev_bind mbind option_bind].
  destruct (IH _ _ r2 ltac:(intros; apply Hl; by right) Hr2) as (r3 & E3 & Hr3).
  exists r3. split; [exact E3|]. eapply arrays_ext; [| |exact Hr3]; cbn.
  - intros t c s _. rewrite elem_of_cons. setoid_rewrite Hel. unfold f_edge. split.
    + intros [[?|(-> & e & He' & <- & <-)]|[? ?]]; auto.
    + intros [?|[[->|?] [? ?]]]; auto. left. right. split; [done|]. by exists (mk_edge c t).
  - intros t s _. rewrite elem_of_cons. unfold f_eps, ss_has. naive_solver.
Qed.

Lemma start_epsilons_loop_spec start l : ∀ E P r,
  arrays_are n E P r → N.to_nat start < n → (∀ s, s ∈ l → (s < 4294967296)%N ∧ s ≠ start) →
  ∃ r', start_epsilons_loop l al start r = Some (RevOk r') ∧ arrays_are n E (λ t s, P t s ∨ t = start ∧ s ∈ l) r'.
Proof.
  induction l as [|x l IH]; intros E P r Hr Hs Hl; cbn [start_epsilons_loop].
  { exists r. split; [done|]. eapply arrays_ext; [| |exact Hr]; [done|]. intros t s _. rewrite elem_of_nil. naive_solver. }
  destruct (Hl x ltac:(left)) as [Hx Hne]. rewrite (proj2 (N.eqb_neq x start) Hne).
  destruct (arrays_lookup_eps _ _ _ _ start Hr Hs) as (e & -> & We & He). cbn [mbind option_bind].
  destruct (add_total e x) as [e' Ea]. rewrite Ea. destruct (state_set_add_extends _ _ _ _ We Hx Ea) as [We' He'].
  assert (arrays_are n E (λ t' s, P t' s ∨ t' = start ∧ s = x) (set_r_epsilons r start e')) as Hr1.
  { apply arrays_set_eps; [done|done|done|]. intros s. rewrite He', He. by rewrite list_elem_of_singleton. }
  destruct (IH _ _ _ Hr1 Hs) as (r' & E' & Hr'); [intros; apply Hl; by right|].
  exists r'. split; [exact E'|]. eapply arrays_ext; [| |exact Hr']; [done|]. intros t' s _. rewrite elem_of_cons. naive_solver.
Qed.

Lemma start_edges_loop_spec start l : ∀ E P r,
  arrays_are n E P r → N.to_nat start < n → (∀ s, s ∈ l → N.to_nat s < n ∧ s ≠ start) →
  ∃ r', start_edges_loop l al start r = Some (RevOk r') ∧
    arrays_are n (λ t c s, E t c s ∨ t = start ∧ ∃ x, x ∈ l ∧ E x c s) P r'.
Proof.
  induction l as [|x l IH]; intros E P r Hr Hs Hl; cbn [start_edges_loop].
  { exists r. split; [done|]. eapply arrays_ext; [| |exact Hr]; [|done]. intros t c s _. setoid_rewrite elem_of_nil. naive_solver. }
  destruct (Hl x ltac:(left)) as [Hx Hne]. rewrite (proj2 (N.eqb_neq x start) Hne).
  destruct (arrays_lookup_edges _ _ _ _ x Hr Hx) as (src & -> & Wsrc & Ksrc & Hsrc). cbn [mbind option_bind].
  assert (∀ s, s ∈ l → N.to_nat s < n ∧ s ≠ start) as Hl' by (intros; apply Hl; by right).
  destruct src as [src|].
  - destruct (arrays_lookup_edges _ _ _ _ start Hr Hs) as (dst & -> & Wdst & Kdst & Hdst). cbn [mbind option_bind].
    destruct (edge_set_copy_spec al dst (Some src)) as (b & p & Ep & Wp & Hp & Hb); [done|done|done|].
    assert (b = true) as -> by auto. rewrite Ep. cbn [mbind option_bind].
    assert (arrays_are n (λ t c s, E t c s ∨ t = start ∧ E x c s) P (set_r_edges r start p)) as Hr1.
    { apply (arrays_set_edges _ _ _ _ _ _ (λ c s, E x c s)); [done|done|done| |].
      - intros k Hk. destruct (edge_set_copy_keys _ _ _ _ _ k Ep Hk) as [Hk'|Hk'].
        + destruct (Kdst k Hk') as [c ?]. exists c. apply Hp; [done|]. by left.
        + destruct (Ksrc k Hk') as [c ?]. exists c. apply Hp; [done|]. by right.
      - intros c s. rewrite Hp by done. by rewrite Hdst, Hsrc. }
    destruct (IH _ _ _ Hr1 Hs Hl') as (r' & E' & Hr').
    exists r'. split; [exact E'|]. eapply arrays_ext; [| |exact Hr']; [|done]. intros t c s _. cbn.
    setoid_rewrite elem_of_cons. split.
    + intros [[?|[-> ?]]|(-> & y & Hy & [?|[-> ?]])]; [by left|right; eauto..].
    + intros [?|(-> & y & [->|Hy] & ?)]; [by left; left|left; by right|]. right. split; [done|]. exists y. auto.
  - destruct (IH _ _ _ Hr Hs Hl') as (r' & E' & Hr'). exists r'. split; [exact E'|].
    eapply arrays_ext; [| |exact Hr']; [|done]. intros t c s _. cbn. setoid_rewrite elem_of_cons.
    assert (∀ c s, ¬ E x c s) by (intros ? ? ?%Hsrc%groups_edge_nil; done). naive_solver.
Qed.
End Loops.

(** ** Lemmas: the end states *)

(** The states in use that are ends. *)
Definition ends_of (f : fsm) : list N := filter (λ i, fsm_isend f i = true) (live_ids f).

Lemma elem_of_ends_of f s : s ∈ ends_of f ↔ f_end f s.
Proof. unfold ends_of, f_end. rewrite list_elem_of_filter, elem_of_live_ids. tauto. Qed.

Lemma NoDup_live_ids f : NoDup (live_ids f).
Proof. unfold live_ids. apply NoDup_fmap; [apply _|]. apply NoDup_seq. Qed.

Lemma endcount_ends_of f : fsm_wf f → f_endcount f = length (ends_of f).
Proof.
  intros Hw. rewrite (wf_endcount _ Hw). unfold end_states. rewrite take_states by apply Hw. apply length_filter_fmap.
Qed.

Section Ends.
Context `{allocator, !alloc_total}.

Lemma collect_ends_spec f l : ∀ endset,
  state_set_wf endset → (∀ i, i ∈ l → (i < 4294967296)%N) →
  ∃ endset', collect_ends l f endset = Some endset' ∧ state_set_wf endset' ∧
    ∀ s, ss_has endset' s ↔ ss_has endset s ∨ s ∈ l ∧ fsm_isend f s = true.
Proof.
  induction l as [|i l IH]; intros endset Hw Hl; cbn [collect_ends].
  { exists endset. split; [done|]. split; [done|]. intros s. rewrite elem_of_nil. naive_solver. }
  assert (∀ j, j ∈ l → (j < 4294967296)%N) as Hl' by (intros; apply Hl; by right).
  destruct (fsm_isend f i) eqn:Ee; cbn [negb].
  - destruct (add_total (f_alloc f) endset i) as [e' Ea]. rewrite Ea.
    destruct (state_set_add_extends _ _ _ _ Hw (Hl i ltac:(left)) Ea) as [We' He'].
    destruct (IH e' We' Hl') as (e2 & -> & W2 & K2). exists e2. split; [done|]. split; [done|].
    intros s. rewrite K2, He', list_elem_of_singleton, elem_of_cons. split.
    + intros [[?| ->]|[? ?]]; auto.
    + intros [?|[[->|?] ?]]; auto.
  - destruct (IH endset Hw Hl') as (e2 & -> & W2 & K2). exists e2. split; [done|]. split; [done|].
    intros s. rewrite K2, elem_of_cons. split; [intros [?|[? ?]]; auto|].
    intros [?|[[->|?] ?]]; auto. congruence.
Qed.

Lemma collect_ends_all f :
  fsm_wf f →
  ∃ endset, collect_ends (live_ids f) f SSNull = Some endset ∧ state_set_wf endset ∧ (∀ s, ss_has endset s ↔ f_end f s) ∧
    state_set_count endset = f_endcount f.
Proof.
  intros Hw. destruct (collect_ends_spec f (live_ids f) SSNull) as (e & E & We & Ke).
  { apply state_set_wf_null. }
  { intros i Hi%elem_of_live_ids. by eapply live_lt32. }
  exists e. split; [done|]. split; [done|].
  assert (∀ s, ss_has e s ↔ f_end f s) as Hs.
  { intros s. rewrite Ke, elem_of_live_ids. unfold f_end. split; [|by right]. by intros [?%not_elem_of_nil|?]. }
  split; [done|]. rewrite state_set_count_spec, endcount_ends_of by done. apply Permutation_length, NoDup_Permutation.
  - apply increasing_NoDup, We.
  - apply NoDup_filter, NoDup_live_ids.
  - intros s. rewrite elem_of_ends_of. apply Hs.
Qed.

(** The end flags after the reversal, over the states of [f]. *)
Lemma rev_ends_spec f endset hasepsilons start end_ :
  fsm_wf f → state_set_wf endset → (∀ s, ss_has endset s ↔ f_end f s) → live f end_ → live f start →
  (1 < state_set_count endset → start ≠ end_ ∧ ¬ f_end f start) →
  ∃ f', rev_ends f endset hasepsilons start end_ = Some f' ∧ fsm_wf f' ∧ same_frame f f' ∧
    ∀ s, live f s → get_state f' s = set_end (fsm_isend f' s) (get_state f s) ∧
      (fsm_isend f' s = true ↔ s = end_ ∨ s = start ∧ 1 < state_set_count endset ∧ hasepsilons = false ∧ f_end f end_).
Proof.
  intros Hw Hws Hs Le Ls Hst. unfold rev_ends. rewrite state_set_contains_bool by done.
  assert (∃ f1, (if negb (bool_decide (ss_has endset end_)) then if fsm_isend f end_ then None else Some (fsm_setend f end_ true)
    else Some f) = Some f1 ∧ fsm_wf f1 ∧ same_frame f f1 ∧
    ∀ s, live f s → get_state f1 s = if decide (s = end_) then set_end true (get_state f s) else get_state f s) as (f1 & -> & W1 & F1 & G1).
  { case_bool_decide as Hc; cbn [negb].
    - exists f. split; [done|]. split; [done|]. split; [apply same_frame_refl|]. intros s _. case_decide; [|done]. subst.
      apply Hs in Hc as [_ He]. unfold fsm_isend in He. destruct (get_state f end_). cbn in *. by subst.
    - destruct (fsm_isend f end_) eqn:Ee; [exfalso; apply Hc, Hs; by split|]. eexists. split; [done|].
      split; [by apply fsm_setend_spec|]. split; [apply same_frame_setend|]. intros s Hl.
      rewrite get_state_setend by (pose proof (wf_alloc _ Hw); unfold live in Le; lia). case_decide; [by subst|done]. }
  cbn [mbind option_bind]. rewrite state_loop_elems.
  assert (∀ s, live f1 s ↔ live f s) as Hlv1 by (intros s; unfold live; by rewrite (same_frame_count _ _ F1)).
  destruct (drop_ends_spec (λ s, (s =? end_)%N) (ss_elems endset) f1 W1) as (W2 & F2 & G2).
  { intros i Hi. apply Hlv1. by apply Hs in Hi as [? _]. }
  unfold drop_end in W2, F2, G2. set (f2 := foldl _ f1 (ss_elems endset)) in *.
  assert (∀ s, live f s → fsm_isend f2 s = (s =? end_)%N) as E2.
  { intros s Hl. unfold fsm_isend. rewrite G2, G1 by done.
    destruct (decide (s = end_)) as [->|Hne]; [rewrite decide_False by (rewrite N.eqb_refl; by intros [_ ?]); by rewrite N.eqb_refl|].
    rewrite (proj2 (N.eqb_neq s end_) Hne). case_decide as Hd; [done|]. destruct (st_end (get_state f s)) eqn:Ee; [|done].
    destruct Hd. split; [|done]. by apply Hs. }
  assert (same_frame f f2) as F02 by (by eapply same_frame_trans).
  assert (∀ s, live f2 s ↔ live f s) as Hlv2 by (intros s; unfold live; by rewrite (same_frame_count _ _ F02)).
  assert (∀ s, live f s → get_state f2 s = set_end (fsm_isend f2 s) (get_state f s)) as G02.
  { intros s Hl. unfold fsm_isend. rewrite G2, G1 by done. repeat case_decide; cbn; try done; by destruct (get_state f s). }
  assert (state_set_has endset (fsm_isend f2) = bool_decide (f_end f end_)) as Hhas.
  { unfold state_set_has. rewrite state_iter_run_elems by lia. apply eq_true_iff_eq. rewrite bool_decide_eq_true, existsb_exists. split.
    - intros (x & Hx%list_elem_of_In & Ex). apply Hs in Hx as Hx'. rewrite E2 in Ex by apply Hx'. apply N.eqb_eq in Ex. by subst x.
    - intros He. exists end_. split; [by apply list_elem_of_In, Hs|]. rewrite E2 by done. apply N.eqb_refl. }
  rewrite Hhas. destruct ((1 <? state_set_count endset) && negb hasepsilons && bool_decide (f_end f end_)) eqn:Ec.
  - apply andb_true_iff in Ec as [[Ec Eh]%andb_true_iff Ee%bool_decide_eq_true]. apply negb_true_iff in Eh. split_bool.
    destruct (Hst Ec) as [Hne Hnf]. rewrite E2, (proj2 (N.eqb_neq start end_) Hne) by done. eexists. split; [done|].
    split; [apply fsm_setend_spec; [done|by apply Hlv2]|]. split; [eapply same_frame_trans; [exact F02|apply same_frame_setend]|].
    intros s Hl. assert (N.to_nat start < length (f_states f2)) as Hlen by (pose proof (wf_alloc _ W2); apply Hlv2 in Ls; unfold live in Ls; lia).
    unfold fsm_isend. rewrite get_state_setend by done. destruct (decide (s = start)) as [->|Hd].
    + rewrite G02 by done. split; [done|]. cbn. naive_solver.
    + split; [by rewrite G02|]. fold (fsm_isend f2 s). rewrite E2, N.eqb_eq by done. naive_solver.
  - exists f2. split; [done|]. split; [done|]. split; [done|]. intros s Hl. split; [by apply G02|].
    rewrite E2, N.eqb_eq by done. split; [by left|]. intros [?|(-> & H1 & -> & H2)]; [done|].
    rewrite (proj2 (Nat.ltb_lt _ _) H1), bool_decide_true in Ec by done. done.
Qed.
End Ends.

(** ** Lemmas: installing the arrays *)

Lemma foldl_upd_spec (g : N → fsm_state → fsm_state) l : ∀ f,
  fsm_wf f → NoDup l → (∀ i st, st_end (g i st) = st_end st) →
  (∀ i, i ∈ l → live f i ∧ ∀ st, state_ok (f_statecount f) (g i st)) →
  let f' := foldl (λ f i, upd_state f i (g i)) f l in
  fsm_wf f' ∧ same_frame f f' ∧ f_endcount f' = f_endcount f ∧
  ∀ t, get_state f' t = if decide (t ∈ l) then g t (get_state f t) else get_state f t.
Proof.
  induction l as [|i l IH]; intros f Hw Hnd He Hl; cbn [foldl].
  { split; [done|]. split; [apply same_frame_refl|]. split; [done|]. intros t. by rewrite decide_False by apply not_elem_of_nil. }
  apply NoDup_cons in Hnd as [Hni Hnd]. destruct (Hl i ltac:(left)) as [Hi Hok].
  assert (N.to_nat i < length (f_states f)) as Hlen by (pose proof (wf_alloc _ Hw); unfold live in Hi; lia).
  destruct (IH (upd_state f i (g i))) as (W & F & C & G); [by apply fsm_wf_upd|done|done| |].
  { intros j Hj. apply Hl. by right. }
  split; [done|]. split; [eapply same_frame_trans; [apply same_frame_upd|exact F]|]. split; [done|].
  intros t. rewrite G, get_upd by done. destruct (decide (t = i)) as [->|Hne].
  - rewrite decide_False by done. by rewrite decide_True by left.
  - destruct (decide (t ∈ l)); [by rewrite decide_True by (by right)|]. rewrite decide_False; [done|]. rewrite elem_of_cons. naive_solver.
Qed.

Lemma rev_install_spec f E P r :
  fsm_wf f → arrays_are (f_statecount f) E P r → (∀ t c s, E t c s → live f s) → (∀ t s, P t s → live f s) →
  fsm_wf (rev_install f r) ∧ same_frame f (rev_install f r) ∧
  ∀ t, live f t →
    (∀ c s, has_edge (st_edges (get_state (rev_install f r) t)) c s ↔ E t c s) ∧
    (∀ s, ss_has (st_epsilons (get_state (rev_install f r) t)) s ↔ P t s) ∧
    blank_zero (st_edges (get_state (rev_install f r) t)) ∧
    st_end (get_state (rev_install f r) t) = st_end (get_state f t) ∧
    st_visited (get_state (rev_install f r) t) = st_visited (get_state f t).
Proof.
  intros Hw Hr HE HP.
  assert (∀ t, live f t → ∃ p e, r_edges r !!! N.to_nat t = p ∧ r_epsilons r !!! N.to_nat t = e ∧
    edge_set_wf p ∧ (∀ k, k ∈ edge_keys p → ∃ c, has_edge p c k) ∧ (∀ c s, has_edge p c s ↔ E t c s) ∧
    state_set_wf e ∧ (∀ s, ss_has e s ↔ P t s)) as Hlook.
  { intros t Ht. destruct (arrays_lookup_edges _ _ _ _ t Hr Ht) as (p & Hp & ? & ? & ?).
    destruct (arrays_lookup_eps _ _ _ _ t Hr Ht) as (e & He & ? & ?). exists p, e.
    split; [by apply list_lookup_total_correct|]. split; [by apply list_lookup_total_correct|]. done. }
  destruct (foldl_upd_spec (λ i st, set_edges (r_edges r !!! N.to_nat i) (set_epsilons (r_epsilons r !!! N.to_nat i) st)) (live_ids f) f)
    as (W & F & _ & G); [done|apply NoDup_live_ids|done| |].
  { intros i Hi%elem_of_live_ids. split; [done|]. intros st. destruct (Hlook i Hi) as (p & e & Ep & Ee & Wp & Kp & Hp & We & He).
    split; cbn; rewrite ?Ep, ?Ee; [done|]. split; [done|]. split.
    - intros t Ht. destruct (Kp t Ht) as [c Hc]. apply Hp in Hc. by apply HE in Hc.
    - intros t Ht. apply He in Ht. by apply HP in Ht. }
  split; [exact W|]. split; [exact F|]. intros t Ht. unfold rev_install. cbv zeta in G. rewrite G.
  rewrite decide_True by (by apply elem_of_live_ids). cbn.
  destruct (Hlook t Ht) as (p & e & -> & -> & Wp & Kp & Hp & We & He). split; [done|]. split; [done|].
  split; [|done]. intros k Hk. right. by apply Kp.
Qed.

(** ** The reversed automaton *)

Section Reverse.
Context `{allocator, !alloc_total}.

(** Choosing the new start state. *)
Lemma rev_choose_start f endset :
  fsm_inv f → (N.of_nat (f_statecount f) < 16777216)%N → state_set_wf endset → (∀ s, ss_has endset s ↔ f_end f s) →
  state_set_count endset = f_endcount f → f_endcount f ≠ 0 →
  ∃ f1 start, (if f_endcount f =? 1 then start ← state_set_only endset; Some (true, f, start) else Some (fsm_addstate f)) = Some (true, f1, start) ∧
    fsm_inv f1 ∧ live f1 start ∧ ids_fit f1 ∧ nfa_of f1 ≡ nfa_of f ∧ f_endcount f1 = f_endcount f ∧
    (∀ s, live f s → live f1 s) ∧ (f_endcount f = 1 → ∀ s, f_end f s ↔ s = start) ∧
    (f_endcount f ≠ 1 → ¬ live f start).
Proof.
  intros Hi Hn Hws Hs Hc Hz. pose proof (inv_wf _ Hi) as Hw. destruct (f_endcount f =? 1) eqn:E1; split_bool.
  - rewrite state_set_count_spec in Hc. destruct (ss_elems endset) as [|x [|]] eqn:El; cbn in Hc; [lia| |lia].
    assert (state_set_only endset = Some x) as ->.
    { destruct Hws as (_ & _ & Hws). destruct endset as [|y|a l m]; cbn in *; [done|by injection El as ->|]. subst l. cbn in *.
      by destruct m; [lia|]. }
    assert (∀ s, f_end f s ↔ s = x) as Hx by (intros s; rewrite <-Hs; unfold ss_has; rewrite El; apply list_elem_of_singleton).
    exists f, x. split; [done|]. split; [done|]. split; [by apply Hx|]. split; [unfold ids_fit; lia|].
    do 3 (split; [done|]). split; [done|]. by intros ?.
  - destruct (fsm_addstate f) as [[b f1] start] eqn:Ea.
    destruct (fsm_addstate_spec f b f1 start Hw ltac:(lia) Ea) as (_ & Hb & Ht). assert (b = true) as -> by (by apply Hb).
    destruct (Ht eq_refl) as (W1 & C1 & -> & N1 & _). destruct (fsm_addstate_frame f true f1 _ Hw Ea) as (_ & _ & _ & Fe & _).
    eexists f1, _. split; [done|]. split; [eapply inv_addstate; [done| |done]; lia|]. split; [unfold live; lia|]. split; [unfold ids_fit; lia|].
    split; [done|]. split; [done|]. split; [unfold live; intros; lia|]. split; [done|]. intros _. unfold live. lia.
Qed.

(** The graph of the result: [multi] when a start state was added, [he] when
    there were epsilon transitions. *)
Definition reversed_nfa (f : fsm) (s0 start : N) (multi he : bool) : nfa := {|
  n_edge t c s := f_edge f s c t ∨ multi = true ∧ he = false ∧ t = start ∧ ∃ e, f_end f e ∧ f_edge f s c e;
  n_eps t s := f_eps f s t ∨ multi = true ∧ he = true ∧ t = start ∧ f_end f s;
  n_end s := s = s0 ∨ multi = true ∧ he = false ∧ s = start ∧ f_end f s0;
  n_start s := s = start;
|}.

Lemma rev_no_epsilons f : rev_hasepsilons f = false → ∀ s t, ¬ f_eps f s t.
Proof.
  intros He s t [Hs Ht]. apply not_true_iff_false in He. apply He. unfold rev_hasepsilons. apply existsb_exists.
  exists s. split; [by apply list_elem_of_In, elem_of_live_ids|]. by destruct (st_epsilons (get_state f s)); [apply not_elem_of_nil in Ht|..].
Qed.

Lemma reverse_graph_spec f s0 :
  fsm_inv f → (N.of_nat (f_statecount f) < 16777216)%N → fsm_getstart f = Some s0 → f_endcount f ≠ 0 →
  ∃ f' start he, reverse_graph f s0 = Some (true, f') ∧ fsm_inv f' ∧
    nfa_of f' ≡ reversed_nfa f s0 start (negb (f_endcount f =? 1)) he ∧ (he = false → ∀ s t, ¬ f_eps f s t) ∧
    (if f_endcount f =? 1 then ∀ s, f_end f s ↔ s = start else ¬ live f start).
Proof.
  intros Hi Hn Es0 Hz. pose proof (inv_wf _ Hi) as Hw. pose proof (wf_start _ Hw s0 Es0) as Ls0.
  unfold reverse_graph. destruct (collect_ends_all f Hw) as (endset & -> & Hws & Hs & Hc).
  rewrite Hc, Nat.eqb_refl. cbn [negb].
  destruct (rev_choose_start f endset Hi Hn Hws Hs Hc Hz) as (f1 & start & -> & I1 & Ls1 & Fit1 & N1 & C1 & L1 & Hone & Hmul).
  cbn [mbind option_bind]. pose proof (inv_setstart f1 start I1 Ls1) as I2. set (f2 := fsm_setstart f1 start) in *.
  pose proof (inv_wf _ I2) as W2. rewrite !f_malloc_total.
  assert (∀ s, live f2 s ↔ live f1 s) as Hlv2 by done. assert (f_endcount f2 = f_endcount f) as C2 by exact C1.
  pose proof N1 as (D1 & D2 & D3 & _). cbn in D1, D2, D3.
  change (f_edge f1) with (f_edge f2) in D1. change (f_eps f1) with (f_eps f2) in D2. change (f_end f1) with (f_end f2) in D3.
  set (he := rev_hasepsilons f2) in *. set (multi := negb (f_endcount f =? 1)).
  destruct (rev_states_loop_spec (f_statecount f2) (f_alloc f2) f2 (live_ids f2) _ _ _ eq_refl eq_refl W2 Fit1
    (λ i, proj1 (elem_of_live_ids f2 i)) (arrays_empty (f_statecount f2))) as (r1 & -> & Hr1).
  cbn [rev_bind mbind option_bind].
  assert (arrays_are (f_statecount f2) (λ t c s, f_edge f s c t) (λ t s, f_eps f s t) r1) as Hr1'.
  { eapply arrays_ext; [| |exact Hr1]; cbn beta.
    - intros t c s _. rewrite elem_of_live_ids, <-D1. split; [by intros [?|[_ ?]]|]. intros Hx. right. split; [apply Hx|done].
    - intros t s _. rewrite elem_of_live_ids, <-D2. split; [by intros [?|[_ ?]]|]. intros Hx. right. split; [apply Hx|done]. }
  assert (∀ s, s ∈ ss_elems endset → f_endcount f ≠ 1 → live f s ∧ s ≠ start) as Hes.
  { intros s Hx Hm. apply Hs in Hx as [Hx _]. split; [done|]. intros ->. by apply Hmul. }
  assert (∃ r2, rev_start f2 endset he start r1 = Some (RevOk r2) ∧
    arrays_are (f_statecount f2) (n_edge (reversed_nfa f s0 start multi he)) (n_eps (reversed_nfa f s0 start multi he)) r2) as (r2 & -> & Hr2).
  { unfold rev_start. rewrite C2, state_loop_elems. unfold multi. destruct (f_endcount f =? 1) eqn:E1; cbn [negb]; split_bool.
    - exists r1. split; [done|]. eapply arrays_ext; [| |exact Hr1']; cbn; naive_solver.
    - destruct he eqn:Ehe.
      + destruct (start_epsilons_loop_spec (f_statecount f2) (f_alloc f2) start (ss_elems endset) _ _ _ Hr1') as (r2 & E & Hr2); [done| |].
        { intros s Hx. destruct (Hes s Hx E1). split; [by apply (live_lt32 f)|done]. }
        exists r2. split; [exact E|]. eapply arrays_ext; [| |exact Hr2]; cbn; [naive_solver|]. intros t s _.
        change (s ∈ ss_elems endset) with (ss_has endset s). rewrite Hs. naive_solver.
      + destruct (start_edges_loop_spec (f_statecount f2) (f_alloc f2) start (ss_elems endset) _ _ _ Hr1') as (r2 & E & Hr2); [done| |].
        { intros s Hx. destruct (Hes s Hx E1). split; [by apply Hlv2, L1|done]. }
        exists r2. split; [exact E|]. eapply arrays_ext; [| |exact Hr2]; cbn; [|naive_solver]. intros t c s _.
        change (∃ x, x ∈ ss_elems endset ∧ f_edge f s c x) with (∃ x, ss_has endset x ∧ f_edge f s c x).
        setoid_rewrite Hs. naive_solver. }
  cbn [mbind option_bind].
  destruct (rev_ends_spec f2 endset he start s0) as (f3 & -> & W3 & F3 & G3); [done|done| |by apply L1|done| |].
  { intros s. by rewrite Hs, D3. }
  { rewrite Hc. intros Hgt. assert (¬ live f start) as Hnl by (apply Hmul; lia). split; [by intros ->|].
    rewrite D3. by intros [? _]. }
  cbn [mbind option_bind]. pose proof (same_frame_count _ _ F3) as C3.
  destruct (rev_install_spec f3 (n_edge (reversed_nfa f s0 start multi he)) (n_eps (reversed_nfa f s0 start multi he)) r2)
    as (W4 & F4 & G4); [done|by rewrite C3| | |].
  { intros t c s Hx. unfold live. rewrite C3. apply (L1 s). by destruct Hx as [[? _]|(_ & _ & _ & e & _ & [? _])]. }
  { intros t s Hx. unfold live. rewrite C3. apply (L1 s). by destruct Hx as [[? _]|(_ & _ & _ & [? _])]. }
  set (f4 := rev_install f3 r2) in *. pose proof (same_frame_trans _ _ _ F3 F4) as F24.
  assert (∀ s, live f4 s ↔ live f2 s) as Hlv4 by (intros s; unfold live; by rewrite (same_frame_count _ _ F24)).
  assert (∀ s, live f3 s ↔ live f2 s) as Hlv3 by (intros s; unfold live; by rewrite C3).
  exists f4, start, he. split; [done|]. split; [|split; [|split]].
  - split; [done| | |].
    + destruct F24 as [-> _]. exact (inv_meta _ I2).
    + intros s Hx%Hlv4%Hlv3. by apply (G4 s).
    + pose proof (inv_flags _ I2) as Fl. rewrite flags_nil in Fl |- *. intros s Hx%Hlv4. unfold visited.
      destruct (G4 s (proj2 (Hlv3 s) Hx)) as (_ & _ & _ & _ & ->). destruct (G3 s Hx) as [-> _]. by apply Fl.
  - assert (∀ t c s, n_edge (reversed_nfa f s0 start multi he) t c s → live f2 t) as HE.
    { intros t c s [Hx|(_ & _ & -> & _)]; [|done]. apply Hlv2, L1. by eapply f_edge_live. }
    assert (∀ t s, n_eps (reversed_nfa f s0 start multi he) t s → live f2 t) as HP.
    { intros t s [Hx|(_ & _ & -> & _)]; [|done]. apply Hlv2, L1. by eapply f_eps_live. }
    split; [|split; [|split]]; cbn [nfa_of n_edge n_eps n_end n_start].
    + intros t c s. unfold f_edge at 1. rewrite Hlv4. split; [intros [Hx Hy]; by apply (G4 t) in Hy; [|apply Hlv3]|].
      intros Hx. pose proof (HE t c s Hx). split; [done|]. apply (G4 t); [by apply Hlv3|exact Hx].
    + intros t s. unfold f_eps at 1. rewrite Hlv4. split; [intros [Hx Hy]; by apply (G4 t) in Hy; [|apply Hlv3]|].
      intros Hx. pose proof (HP t s Hx). split; [done|]. apply (G4 t); [by apply Hlv3|exact Hx].
    + intros s. unfold f_end at 1, fsm_isend. rewrite Hlv4.
      assert (1 < state_set_count endset ↔ multi = true) as Hm.
      { rewrite Hc. unfold multi. rewrite negb_true_iff, Nat.eqb_neq. lia. }
      assert (f_end f2 s0 ↔ f_end f s0) as He0 by apply D3. cbn. split.
      * intros [Hx Hy]. destruct (G4 s (proj2 (Hlv3 s) Hx)) as (_ & _ & _ & Hz4 & _). rewrite Hz4 in Hy. apply (G3 s Hx) in Hy. naive_solver.
      * intros Hx. assert (live f2 s) as Hl2 by (destruct Hx as [->|(_ & _ & -> & _)]; [by apply Hlv2, L1|done]). split; [done|].
        destruct (G4 s (proj2 (Hlv3 s) Hl2)) as (_ & _ & _ & -> & _). apply (G3 s Hl2). naive_solver.
    + intros s. destruct F24 as [-> _]. cbn. split; [by intros [= ->]|by intros ->].
  - intros Hhe s t Hx. apply (rev_no_epsilons f2 Hhe s t). by apply D2.
  - unfold multi. destruct (f_endcount f =? 1) eqn:E1; split_bool; [by apply Hone|by apply Hmul].
Qed.

(** A start state that was added stands for the previous end states. *)
Lemma reversed_start f s0 start he w :
  fsm_wf f → live f s0 → (he = false → ∀ s t, ¬ f_eps f s t) → ¬ live f start →
  reaches_end (reversed_nfa f s0 start true he) start w ↔
  ∃ e, f_end f e ∧ reaches_end (reversed_nfa f s0 start true he) e w.
Proof.
  intros Hw Ls0 Hhe Hst. destruct he.
  - rewrite reaches_eps_only; cbn.
    + split; intros (t & Ht & Hr); exists t; (split; [|done]); [|by right].
      destruct Ht as [Hx|(_ & _ & _ & Hx)]; [|done]. destruct Hst. by eapply f_eps_live.
    + intros c t [Hx|(_ & [=] & _)]. destruct Hst. by eapply f_edge_live.
    + intros [->|(_ & [=] & _)]. done.
  - specialize (Hhe eq_refl). unfold reaches_end. split.
    + intros (t & Hp & Ht). inversion Hp as [|? s' ? ? Hx|? c s' w' ? Hx Hp']; subst; cbn in *.
      * destruct Ht as [->|(_ & _ & _ & Ht)]; [done|]. exists s0. split; [done|]. exists s0. split; [constructor|by left].
      * destruct Hx as [Hx|(_ & [=] & _)]. by apply Hhe in Hx.
      * destruct Hx as [Hx|(_ & _ & _ & e & He & Hx)]; [destruct Hst; by eapply f_edge_live|].
        exists e. split; [done|]. exists t. split; [|done]. eapply path_step; [left; exact Hx|done].
    + intros (e & He & t & Hp & Ht). inversion Hp as [|? s' ? ? Hx|? c s' w' ? Hx Hp']; subst; cbn in *.
      * exists start. split; [constructor|]. right. destruct Ht as [->|(_ & _ & -> & _)]; [done|]. destruct Hst. apply He.
      * destruct Hx as [Hx|(_ & [=] & _)]. by apply Hhe in Hx.
      * exists t. split; [|done]. eapply path_step; [|exact Hp']. right. do 3 (split; [done|]). exists e. split; [done|].
        destruct Hx as [Hx|(_ & _ & -> & _)]; [done|]. destruct Hst. apply He.
Qed.

(** The language of the reversed graph. *)
Lemma reversed_language f s0 start (multi he : bool) w :
  fsm_wf f → fsm_getstart f = Some s0 → (he = false → ∀ s t, ¬ f_eps f s t) →
  (if multi then ¬ live f start else ∀ s, f_end f s ↔ s = start) →
  accepts (reversed_nfa f s0 start multi he) w ↔ language f (reverse w).
Proof.
  intros Hw Es0 Hhe Hst. rewrite (language_start f s0 _ Es0), accepts_reaches. pose proof (wf_start _ Hw s0 Es0) as Ls0.
  set (B := reversed_nfa f s0 start multi he).
  assert (∀ t, live f t → reaches_end B t w ↔ path (nfa_of f) s0 (reverse w) t) as Hold.
  { set (R := mk_nfa (λ t c s, f_edge f s c t) (λ t s, f_eps f s t) (λ s, s = s0) (λ _, False)). intros t Ht.
    assert (multi = true → ∀ s, live f s → s ≠ start) as Hns by (intros -> s Hs ->; done).
    assert (renames R B (live f) (λ s, s)) as Hr.
    { split; cbn.
      - done.
      - intros s c u Hx _. apply Hx.
      - intros s u Hx _. apply Hx.
      - intros s c u Hl. split; [|intros (u' & Hx & ->); by left].
        intros [Hx|(Hm & _ & -> & _)]; [by exists u|]. by destruct (Hns Hm _ Hl).
      - intros s u Hl. split; [|intros (u' & Hx & ->); by left].
        intros [Hx|(Hm & _ & -> & _)]; [by exists u|]. by destruct (Hns Hm _ Hl).
      - intros s Hl. split; [|by left]. intros [Hx|(Hm & _ & -> & _)]; [done|]. by destruct (Hns Hm _ Hl). }
    rewrite (reaches_renames R B (live f) (λ s, s) t w Hr Ht). unfold reaches_end. rewrite <-(path_reverse (nfa_of f) R) by done.
    cbn. naive_solver. }
  transitivity (reaches_end B start w); [cbn; naive_solver|]. unfold reaches_end at 2. destruct multi.
  - unfold B. rewrite reversed_start by done. fold B. split.
    + intros (e & He & Hr). exists e. split; [|done]. by apply Hold; [apply He|].
    + intros (e & Hp & He). exists e. split; [done|]. by apply Hold; [apply He|].
  - rewrite Hold by (by apply Hst). cbn. setoid_rewrite Hst. naive_solver.
Qed.

(** C11. Reversing an automaton keeps the invariant and gives the words read
    backwards: the result accepts a word exactly when the original accepts its
    reverse, whatever the number of end states. *)
Theorem fsm_reverse_language f :
  fsm_inv f → (N.of_nat (f_statecount f) < 16777216)%N →
  ∃ f', fsm_reverse f = Some (true, f') ∧ fsm_inv f' ∧ ∀ w, language f' w ↔ language f (reverse w).
Proof.
  intros Hi Hn. pose proof (inv_wf _ Hi) as Hw.
  assert (fsm_getstart f = None ∨ f_endcount f = 0 → ∃ f', reverse_empty f = (true, f') ∧ fsm_inv f' ∧
    ∀ w, language f' w ↔ language f (reverse w)) as Hempty.
  { intros Hor. unfold reverse_empty. destruct (fsm_new_statealloc (f_alloc f) 1) as [new|] eqn:En.
    2: { unfold fsm_new_statealloc, fsm_endid_init, fsm_eager_output_init in En. by rewrite !f_malloc_total, !f_calloc_total in En. }
    destruct (inv_new_statealloc _ _ _ En) as (Ni & Nc & Na & Ns & _).
    destruct (fsm_addstate new) as [[b new1] s] eqn:Ea.
    destruct (fsm_addstate_spec new b new1 s (inv_wf _ Ni) ltac:(lia) Ea) as (_ & Hb & Ht).
    assert (b = true) as -> by (by apply Hb). destruct (Ht eq_refl) as (_ & _ & _ & _ & _ & A1 & S1 & S2 & _).
    pose proof (inv_addstate _ _ _ _ Ni ltac:(lia) Ea) as [W M B F]. unfold fsm_move. cbn [with_start f_alloc]. rewrite A1, Na, N.eqb_refl.
    assert (f_hasstart new1 = false) as Hs by (rewrite S2; unfold fsm_getstart in Ns; by destruct (f_hasstart new)).
    eexists. split; [done|]. split.
    - split; [|exact M|exact B|exact F]. destruct W as [W1 W2 W3 W4 W5 W6]. split; try done.
      intros t. unfold fsm_getstart. cbn. by rewrite Hs.
    - intros w. split.
      + intros (t & u & Hx & _). cbn in Hx. unfold fsm_getstart in Hx. cbn in Hx. by rewrite Hs in Hx.
      + intros (t & u & Hx & _ & Hy). cbn in Hx, Hy. destruct Hor as [?|Hz]; [congruence|].
        rewrite endcount_ends_of in Hz by done. apply elem_of_ends_of in Hy. by destruct (ends_of f); [apply not_elem_of_nil in Hy|]. }
  unfold fsm_reverse. destruct (fsm_getstart f) as [s0|] eqn:Es0.
  - destruct (f_endcount f =? 0) eqn:Ez; split_bool.
    + destruct Hempty as (f' & -> & ? & ?); [by right|]. eauto.
    + destruct (reverse_graph_spec f s0 Hi Hn Es0 Ez) as (f' & start & he & -> & Hi' & Hnfa & Hhe & Hst).
      exists f'. split; [done|]. split; [done|]. intros w. unfold language at 1. rewrite Hnfa.
      apply reversed_language; [done|done|done|]. by destruct (f_endcount f =? 1).
  - destruct Hempty as (f' & -> & ? & ?); [by left|]. eauto.
Qed.
End Reverse.

(** [two_ends] accepts [b] and [c]; its reversal needs a new start state. *)
Lemma fsm_reverse_language_witness :
  ∃ f', @fsm_reverse always two_ends = Some (true, f') ∧ f_statecount f' = 4 ∧
    ∀ w, language f' w ↔ language two_ends (reverse w).
Proof.
  destruct (@fsm_reverse_language always always_total two_ends) as (f' & E & _ & Hl);
    [by apply inv_build_from_new|vm_compute; reflexivity|].
  exists f'. split; [exact E|]. split; [|exact Hl]. vm_compute in E. injection E as <-. reflexivity.
Defined.
