(* ===== verification/TupleSet.v ===== *)
(** * Ordered sets of items: src/adt/set.inc, src/adt/tupleset.c

    [set.inc] is a sorted array of items under a comparison function, included
    by the containers that give it an item type; [tupleset.c] gives it the
    pairs of states of [walk2.c]. The class [KeyedCmp] is what the set needs of
    its comparison: it is the comparison of a numeric key. *)

From S2P Require Import Prelude StateSet.

Record set (item : Type) := mk_set { set_a : list item; set_n : nat }.
Arguments mk_set {item}.
Arguments set_a {item}.
Arguments set_n {item}.

Section SetInc.
Context {item : Type} `{Inhabited item} (cmp : item → item → Z).

Definition set_empty (s : set item) : bool := length (set_a s) =? 0.

Fixpoint set_search_loop (fuel : nat) (a : list item) (x : item) (start end_ mid : nat) : nat :=
  match fuel with
  | 0 => mid
  | S fuel =>
      if start <? end_ then
        let mid := start + (end_ - start) / 2 in
        let r := cmp x (a !!! mid) in
        if (r <? 0)%Z then set_search_loop fuel a x start mid mid
        else if (0 <? r)%Z then set_search_loop fuel a x (mid + 1) end_ mid
        else mid
      else mid
  end.

Definition set_search (s : set item) (x : item) : nat :=
  set_search_loop (S (length (set_a s))) (set_a s) x 0 (length (set_a s)) 0.

Definition set_contains (s : set item) (x : item) : option item :=
  if set_empty s then None
  else
    let i := set_search s x in
    if (cmp x (set_a s !!! i) =? 0)%Z then Some (set_a s !!! i) else None.

Definition set_create `{allocator} (al : fsm_alloc) : option (set item) :=
  if f_malloc al 40 then
    if f_malloc al (N.of_nat SET_INITIAL * 8) then Some (mk_set [] SET_INITIAL) else None
  else None.

(** Whether the item is in the set afterwards; [None] where the assertion at
    the end fails. *)
Definition set_add `{allocator} (al : fsm_alloc) (s : set item) (x : item) : option (bool * set item) :=
  let i := if set_empty s then 0 else set_search s x in
  if negb (set_empty s) && (cmp x (set_a s !!! i) =? 0)%Z then Some (true, s)
  else
    let '(ok, s) :=
      if negb (set_empty s) then
        let '(ok, n) :=
          if length (set_a s) =? set_n s then
            if f_realloc al (8 * (N.of_nat (set_n s) * 2)) then (true, set_n s * 2) else (false, set_n s)
          else (true, set_n s) in
        if (ok : bool) then
          let i := if (0 <? cmp x (set_a s !!! i))%Z then i + 1 else i in
          (true, mk_set (insert_at i x (set_a s)) n)
        else (false, s)
      else (true, mk_set [x] (set_n s)) in
    if (ok : bool) then
      match set_contains s x with
      | Some _ => Some (true, s)
      | None => None
      end
    else Some (false, s).
End SetInc.

(** ** The interface of the comparison *)

Class KeyedCmp {item : Type} (cmp : item → item → Z) (key : item → N) (ok : item → Prop) : Prop :=
  cmp_key x y : ok x → ok y → cmp x y = state_set_cmpval (key x) (key y).

Section Lemmas.
Context {item : Type} `{Inhabited item} (cmp : item → item → Z) (key : item → N) (ok : item → Prop) `{!KeyedCmp cmp key ok}.

Definition set_wf (s : set item) : Prop :=
  increasing (key <$> set_a s) ∧ Forall ok (set_a s) ∧ length (set_a s) ≤ set_n s ∧ 0 < set_n s.

(** The loop ends at an element with the key, or at the last one tried, next to
    where the key would be. *)
Lemma set_search_loop_spec fuel a x : ∀ s e m,
  increasing (key <$> a) → Forall ok a → ok x → s ≤ e ≤ length a → e - s < fuel → m < length a →
  (∀ i y, a !! i = Some y → i < s → (key y < key x)%N) →
  (∀ i y, a !! i = Some y → e ≤ i → (key x < key y)%N) →
  (s = e → m = s ∧ m < length a ∨ S m = s) →
  set_search_loop cmp fuel a x s e m < length a ∧
  ∀ y, a !! set_search_loop cmp fuel a x s e m = Some y → key y = key x ∨
    (key x ∉ (key <$> a)) ∧ lower_bound (key <$> a) (key x) =
      if (key y <? key x)%N then set_search_loop cmp fuel a x s e m + 1 else set_search_loop cmp fuel a x s e m.
Proof.
  induction fuel as [|fuel IH]; intros s e m Hs Hok Hx Hse Hf Hm Hlo Hhi Hend; [lia|]. cbn [set_search_loop].
  destruct (s <? e) eqn:E1; split_bool.
  2: { assert (s = e) as <- by lia. split; [done|]. intros y Hy. right.
    assert (key x ∉ (key <$> a)) as Hni.
    { intros (z & Ez & [i Hi]%list_elem_of_lookup)%list_elem_of_fmap. destruct (decide (i < s)) as [Hlt|Hge].
      - specialize (Hlo i z Hi Hlt). lia.
      - specialize (Hhi i z Hi ltac:(lia)). lia. }
    assert (lower_bound (key <$> a) (key x) = s) as ->.
    { apply lower_bound_unique; [rewrite length_fmap; lia| |].
      - intros i k Hk Hi. rewrite list_lookup_fmap in Hk. destruct (a !! i) as [z|] eqn:Ez; [|done]. injection Hk as <-. eauto.
      - intros k Hk. rewrite list_lookup_fmap in Hk. destruct (a !! s) as [z|] eqn:Ez; [|done]. injection Hk as <-.
        specialize (Hhi s z Ez ltac:(lia)). lia. }
    split; [done|]. destruct (Hend eq_refl) as [[-> _]|<-].
    - specialize (Hhi s y Hy ltac:(lia)). destruct (key y <? key x)%N eqn:E; split_bool; lia.
    - specialize (Hlo m y Hy ltac:(lia)). destruct (key y <? key x)%N eqn:E; split_bool; lia. }
  pose proof (half_between s e E1) as Hmid. set (mid := s + (e - s) / 2) in *.
  destruct (lookup_lt_is_Some_2 a mid) as [z Hz]; [lia|].
  rewrite (list_lookup_total_correct _ _ _ Hz), cmp_key by (done || by eapply Forall_lookup_1).
  assert (∀ i j y y', a !! i = Some y → a !! j = Some y' → i < j → (key y < key y')%N) as Hinc.
  { intros i j y y' Hi Hj Hij. eapply increasing_lookup; [exact Hs|exact Hij|..]; rewrite list_lookup_fmap; [by rewrite Hi|by rewrite Hj]. }
  destruct (state_set_cmpval_spec (key x) (key z)) as [[? ->]|[[Exz ->]|[? ->]]]; cbn [Z.ltb Z.compare].
  - apply IH; [done|done|done|lia|lia|lia|exact Hlo| |intros; left; lia]. intros i y Hi Hle. destruct (decide (i = mid)) as [->|]; [by simplify_eq|].
    pose proof (Hinc mid i z y Hz Hi ltac:(lia)). lia.
  - split; [lia|]. intros y Hy. left. by simplify_eq.
  - apply IH; [done|done|done|lia|lia|lia| |exact Hhi|intros; right; lia]. intros i y Hi Hlt. destruct (decide (i = mid)) as [->|]; [by simplify_eq|].
    pose proof (Hinc i mid y z Hi Hz ltac:(lia)). lia.
Qed.

Lemma set_search_spec s x :
  increasing (key <$> set_a s) → Forall ok (set_a s) → ok x → set_a s ≠ [] →
  ∃ y, set_a s !! set_search cmp s x = Some y ∧ (key y = key x ∨
    (key x ∉ (key <$> set_a s)) ∧ lower_bound (key <$> set_a s) (key x) =
      if (key y <? key x)%N then set_search cmp s x + 1 else set_search cmp s x).
Proof.
  intros Hs Hok Hx Hne. unfold set_search.
  assert (0 < length (set_a s)) as Hlen by (destruct (set_a s); [done|cbn; lia]).
  destruct (set_search_loop_spec (S (length (set_a s))) (set_a s) x 0 (length (set_a s)) 0) as [Hlt Hy];
    [done|done|done|lia|lia|done|lia| |lia|].
  { intros i y Hi. apply lookup_lt_Some in Hi. lia. }
  destruct (lookup_lt_is_Some_2 _ _ Hlt) as [y Ey]. exists y. split; [done|]. by apply Hy.
Qed.

Lemma key_inj s y y' : increasing (key <$> set_a s) → y ∈ set_a s → y' ∈ set_a s → key y = key y' → y = y'.
Proof.
  intros Hs [i Hi]%list_elem_of_lookup [j Hj]%list_elem_of_lookup E.
  assert (∀ i j y y', set_a s !! i = Some y → set_a s !! j = Some y' → key y = key y' → ¬ i < j) as Hlt.
  { intros i' j' z z' Hi' Hj' Ez Hlt. enough (key z < key z')%N by lia.
    eapply increasing_lookup; [exact Hs|exact Hlt|..]; rewrite list_lookup_fmap; [by rewrite Hi'|by rewrite Hj']. }
  assert (i = j) as -> by (pose proof (Hlt i j y y' Hi Hj E); pose proof (Hlt j i y' y Hj Hi ltac:(done)); lia). congruence.
Qed.

(** Lookup by key. *)
Lemma set_contains_spec s x y :
  set_wf s → ok x → set_contains cmp s x = Some y ↔ y ∈ set_a s ∧ key y = key x.
Proof.
  intros (Hs & Hok & _ & _) Hx. unfold set_contains, set_empty. destruct (length (set_a s) =? 0) eqn:E; split_bool.
  { apply nil_length_inv in E. rewrite E. split; [done|]. by intros [?%not_elem_of_nil _]. }
  destruct (set_search_spec s x Hs Hok Hx) as (z & Hz & Hor); [by destruct (set_a s)|].
  rewrite (list_lookup_total_correct _ _ _ Hz), cmp_key by (done || by eapply Forall_lookup_1).
  destruct (state_set_cmpval_spec (key x) (key z)) as [[? ->]|[[Exz ->]|[? ->]]]; cbn.
  2: { assert (z ∈ set_a s) by (apply list_elem_of_lookup; eauto). split; [intros [= <-]; done|].
    intros [Hy Ey]. f_equal. eapply key_inj; [exact Hs|done|done|congruence]. }
  all: split; [done|]; intros [Hy Ey]; destruct Hor as [?|[Hni _]]; [lia|].
  all: destruct Hni; rewrite <-Ey; by apply list_elem_of_fmap_2.
Qed.

Lemma set_create_spec `{alloc_total} al : ∃ s : set item, set_create al = Some s ∧ set_wf s ∧ set_a s = [].
Proof.
  unfold set_create. rewrite !f_malloc_total. eexists. split; [done|]. split; [|done].
  split; [constructor|]. split; [constructor|]. cbn. unfold SET_INITIAL. lia.
Qed.

(** Adding an item whose key is new. *)
Lemma set_add_spec `{alloc_total} al s x :
  set_wf s → ok x → (∀ y, y ∈ set_a s → key y ≠ key x) →
  ∃ s', set_add cmp al s x = Some (true, s') ∧ set_wf s' ∧ ∀ y, y ∈ set_a s' ↔ y ∈ set_a s ∨ y = x.
Proof.
  intros Hwf Hx Hnew. pose proof Hwf as (Hs & Hok & Hn & Hp).
  assert (∀ s', set_wf s' → x ∈ set_a s' → set_contains cmp s' x ≠ None) as Hc.
  { intros s' Hw Hin E. by rewrite (proj2 (set_contains_spec s' x x Hw Hx)) in E by done. }
  unfold set_add. rewrite f_realloc_total. destruct (set_empty s) eqn:Ee; unfold set_empty in Ee; cbn [negb andb]; split_bool.
  - apply nil_length_inv in Ee.
    assert (set_wf (mk_set [x] (set_n s))) as Hw1 by (split; [repeat constructor|]; split; [by repeat constructor|cbn; lia]).
    destruct (set_contains cmp (mk_set [x] (set_n s)) x) eqn:Ec; [|by destruct (Hc _ Hw1 ltac:(cbn; left))].
    eexists. split; [done|]. split; [done|]. intros y. cbn. rewrite Ee, elem_of_nil, list_elem_of_singleton. naive_solver.
  - destruct (set_search_spec s x Hs Hok Hx) as (z & Hz & Hor); [by destruct (set_a s)|].
    rewrite (list_lookup_total_correct _ _ _ Hz), cmp_key by (done || by eapply Forall_lookup_1).
    assert (key z ≠ key x) as Hzx by (apply Hnew, list_elem_of_lookup; eauto).
    destruct Hor as [?|[Hni Hlb]]; [done|].
    assert (state_set_cmpval (key x) (key z) ≠ 0%Z) as Hc0.
    { destruct (state_set_cmpval_spec (key x) (key z)) as [[? ->]|[[? ->]|[? ->]]]; congruence. }
    rewrite (proj2 (Z.eqb_neq _ _) Hc0).
    set (n' := if length (set_a s) =? set_n s then set_n s * 2 else set_n s).
    assert ((if length (set_a s) =? set_n s then (true, set_n s * 2) else (true, set_n s)) = (true, n')) as ->
      by (unfold n'; by destruct (_ =? _)).
    assert ((if (0 <? state_set_cmpval (key x) (key z))%Z then set_search cmp s x + 1 else set_search cmp s x) =
      lower_bound (key <$> set_a s) (key x)) as ->.
    { rewrite Hlb. destruct (state_set_cmpval_spec (key x) (key z)) as [[? ->]|[[? ->]|[? ->]]]; cbn; [|done|].
      - rewrite (proj2 (N.ltb_ge _ _)) by lia. done.
      - rewrite (proj2 (N.ltb_lt _ _)) by lia. done. }
    set (s' := mk_set _ n').
    assert (set_wf s') as Hw1.
    { split; [|split; [|split]]; cbn.
      - rewrite fmap_insert_at. by apply increasing_insert_at.
      - apply Forall_forall. intros y [->|Hy]%elem_of_insert_at; [done|]. rewrite Forall_forall in Hok. by apply Hok.
      - rewrite length_insert_at; [unfold n'; destruct (_ =? _) eqn:En; split_bool; lia|].
        pose proof (lower_bound_le (key <$> set_a s) (key x)) as Hl. by rewrite length_fmap in Hl.
      - unfold n'. destruct (_ =? _); lia. }
    assert (∀ y, y ∈ set_a s' ↔ y ∈ set_a s ∨ y = x) as Hin by (intros y; cbn; rewrite elem_of_insert_at; tauto).
    destruct (set_contains cmp s' x) eqn:Ec; [|destruct (Hc _ Hw1); [apply Hin; by right|done]].
    exists s'. split; [done|]. split; [done|]. exact Hin.
Qed.
End Lemmas.
