(* ===== verification/Walk2.v ===== *)
(** * The product of two automata: src/libfsm/walk2.c

    [fsm_walk2] walks two DFAs together by a depth-first search and builds the
    automaton of the pairs of states it meets. Two masks say which
    combinations of edges are followed and which pairs are end states, so that
    one walk gives intersection and subtraction. *)

From S2P Require Import Prelude StateSet Bits EdgeSet EdgeIter EdgeCompact Probe Endids EagerOutput.
From S2P Require Import Lang Fsm FsmSpec Queue Search FsmCompact FsmInv Pred Capture Combine Clone TupleSet.

Definition FSM_WALK2_NEITHER : N := 1.
Definition FSM_WALK2_ONLYB : N := 2.
Definition FSM_WALK2_ONLYA : N := 4.
Definition FSM_WALK2_BOTH : N := 8.

Definition FSM_SIGMA_MAX : nat := 255.
Definition FSM_WALK2_TUPLE_POOL_SIZE : nat := 1024.

(** A pair of states with its state in the result; [None] where [have_a] or
    [have_b] is 0. *)
Record fsm_walk2_tuple := mk_tuple { tu_a : option N; tu_b : option N; tu_comb : N }.

#[export] Instance tuple_eq_dec : EqDecision fsm_walk2_tuple.
Proof. solve_decision. Defined.

#[export] Instance tuple_inhabited : Inhabited fsm_walk2_tuple := populate (mk_tuple None None 0).

Definition cmp_part (pa pb : option N) : Z :=
  match pa, pb with
  | Some a, Some b => state_set_cmpval a b
  | None, None => 0
  | Some _, None => 1
  | None, Some _ => -1
  end.

Definition cmp_walk2_tuple (pa pb : fsm_walk2_tuple) : Z :=
  let delta := cmp_part (tu_a pa) (tu_a pb) in
  if negb (delta =? 0)%Z then delta else cmp_part (tu_b pa) (tu_b pb).

(** [wd_head] counts the pools of the list. *)
Record fsm_walk2_data := mk_data {
  wd_head : nat;
  wd_top : nat;
  wd_new : fsm;
  wd_states : set fsm_walk2_tuple;
  wd_endmask : N;
  wd_edgemask : N;
}.

Definition wd_with_new (d : fsm_walk2_data) (f : fsm) : fsm_walk2_data :=
  mk_data (wd_head d) (wd_top d) f (wd_states d) (wd_endmask d) (wd_edgemask d).
Definition wd_with_states (d : fsm_walk2_data) (s : set fsm_walk2_tuple) : fsm_walk2_data :=
  mk_data (wd_head d) (wd_top d) (wd_new d) s (wd_endmask d) (wd_edgemask d).
Definition wd_with_pool (d : fsm_walk2_data) (head top : nat) : fsm_walk2_data :=
  mk_data head top (wd_new d) (wd_states d) (wd_endmask d) (wd_edgemask d).

Definition masked (mask bits : N) : bool := negb (N.land mask bits =? 0)%N.

Definition walk2mask (has_a has_b : bool) : N :=
  if has_a then if has_b then FSM_WALK2_BOTH else FSM_WALK2_ONLYA
  else if has_b then FSM_WALK2_ONLYB else FSM_WALK2_NEITHER.

Section Ops.
Context `{allocator}.

Definition alloc_walk2_tuple (d : fsm_walk2_data) : bool * fsm_walk2_data :=
  if (wd_head d =? 0) || (FSM_WALK2_TUPLE_POOL_SIZE <=? wd_top d) then
    if f_malloc (f_alloc (wd_new d)) (16 * N.of_nat FSM_WALK2_TUPLE_POOL_SIZE + 8) then
      (true, wd_with_pool d (wd_head d + 1) 1)
    else (false, d)
  else (true, wd_with_pool d (wd_head d) (wd_top d + 1)).

Definition walk2_comb_state (dst_fsm : fsm) (is_end : bool) : bool * fsm * N :=
  let '(ok, dst_fsm, comb) := fsm_addstate dst_fsm in
  if ok then (true, if is_end then fsm_setend dst_fsm comb true else dst_fsm, comb)
  else (false, dst_fsm, comb).

(** The state of one automaton and the ids it has when it is an end. *)
Definition part_isend (f : fsm) (q : option N) : bool :=
  match q with Some s => fsm_isend f s | None => false end.

Definition part_count (f : fsm) (q : option N) : option nat :=
  match q with
  | Some s => if fsm_isend f s then fsm_endid_count (f_endid_info f) s else Some 0
  | None => Some 0
  end.

Definition part_ids (f : fsm) (q : option N) (count : nat) : option (list N) :=
  match q with
  | Some s =>
      if 0 <? count then
        '(ret, ids) ← fsm_endid_get (f_endid_info f) s count;
        if (ret : bool) then Some ids else None
      else Some []
  | None => Some []
  end.

(** The end ids of a new pair: those of its end states. *)
Definition copy_pair_ids (a b : fsm) (qa qb : option N) (new : fsm) (comb : N) : option (bool * fsm) :=
  count_a ← part_count a qa;
  count_b ← part_count b qb;
  if 0 <? count_a + count_b then
    if f_malloc (match qa with Some _ => f_alloc a | None => f_alloc b end) (N.of_nat (count_a + count_b) * 4) then
      ids_a ← part_ids a qa count_a;
      ids_b ← part_ids b qb count_b;
      '(ret, ei) ← fsm_endid_set_bulk (f_alloc new) (f_endid_info new) comb (ids_a ++ ids_b) FSM_ENDID_BULK_REPLACE;
      Some (ret, with_endid_info new ei)
    else Some (false, new)
  else Some (true, new).

(** The tuple of a pair, made when it is not in the set. The outer [option] is
    [None] where an assertion fails, the inner one is [None] for NULL. *)
Definition fsm_walk2_tuple_new (d : fsm_walk2_data) (a b : fsm) (qa qb : option N)
    : option (option fsm_walk2_tuple * fsm_walk2_data) :=
  match qa, qb with
  | None, None => None
  | _, _ =>
      match set_contains cmp_walk2_tuple (wd_states d) (mk_tuple qa qb 0) with
      | Some q => Some (Some q, d)
      | None =>
          let '(ok, d) := alloc_walk2_tuple d in
          if ok then
            let is_end := masked (wd_endmask d) (walk2mask (part_isend a qa) (part_isend b qb)) in
            let '(ok, new, comb) := walk2_comb_state (wd_new d) is_end in
            if ok then
              '(ok, new) ← (if is_end then copy_pair_ids a b qa qb new comb else Some (true, new));
              if (ok : bool) then
                if st_visited (get_state new comb) then None
                else
                  let p := mk_tuple qa qb comb in
                  '(ok, states) ← set_add cmp_walk2_tuple (f_alloc new) (wd_states d) p;
                  let d := wd_with_states (wd_with_new d new) states in
                  Some (if (ok : bool) then Some p else None, d)
              else Some (None, wd_with_new d new)
            else Some (None, wd_with_new d new)
          else Some (None, d)
      end
  end.

(** The pair a symbol leads to in the first loop (only A, or both) and in the
    second one (only B). *)
Definition follow_a (edgemask : N) (a b : fsm) (qa qb : option N) (i : nat) : option (option N * option N) :=
  match qa with
  | None => None
  | Some qa =>
      match edge_set_transition (st_edges (get_state a qa)) i with
      | None => None
      | Some eas =>
          match qb ≫= (λ qb, edge_set_transition (st_edges (get_state b qb)) i) with
          | None => if masked edgemask FSM_WALK2_ONLYA then Some (Some eas, None) else None
          | Some ebs => Some (Some eas, Some ebs)
          end
      end
  end.

Definition follow_b (a b : fsm) (qa qb : option N) (i : nat) : option (option N * option N) :=
  match qb with
  | None => None
  | Some qb =>
      match edge_set_transition (st_edges (get_state b qb)) i with
      | None => None
      | Some ebs =>
          match qa with
          | Some qa => if edge_set_contains (st_edges (get_state a qa)) i then None else Some (None, Some ebs)
          | None => Some (None, Some ebs)
          end
      end
  end.

(** The loop over the symbols, which both have in common: the pair is made, an
    edge is added, and the walk goes on from a pair not yet visited. *)
Fixpoint walk2_loop (rec : fsm_walk2_data → fsm_walk2_tuple → option (bool * fsm_walk2_data)) (a b : fsm)
    (follow : nat → option (option N * option N)) (qc : N) (l : list nat) (d : fsm_walk2_data)
    : option (bool * fsm_walk2_data) :=
  match l with
  | [] => Some (true, d)
  | i :: l =>
      match follow i with
      | None => walk2_loop rec a b follow qc l d
      | Some (qa, qb) =>
          '(dst, d) ← fsm_walk2_tuple_new d a b qa qb;
          match dst with
          | None => Some (false, d)
          | Some dst =>
              if negb (N.to_nat (tu_comb dst) <? f_statecount (wd_new d)) then None
              else
                let '(ok, new) := fsm_addedge_literal (wd_new d) qc (tu_comb dst) i in
                let d := wd_with_new d new in
                if (ok : bool) then
                  if st_visited (get_state (wd_new d) (tu_comb dst)) then walk2_loop rec a b follow qc l d
                  else
                    '(ok, d) ← rec d dst;
                    if (ok : bool) then walk2_loop rec a b follow qc l d else Some (false, d)
                else Some (false, d)
          end
      end
  end.

Definition in_range (f : fsm) (q : option N) : bool :=
  match q with Some s => N.to_nat s <? f_statecount f | None => true end.

(** [None] where an assertion fails, or when the fuel, which bounds the depth
    of the recursion, runs out. *)
Fixpoint fsm_walk2_edges (fuel : nat) (a b : fsm) (d : fsm_walk2_data) (start : fsm_walk2_tuple)
    : option (bool * fsm_walk2_data) :=
  match fuel with
  | 0 => None
  | S fuel =>
      let qa := tu_a start in
      let qb := tu_b start in
      let qc := tu_comb start in
      if negb (in_range a qa && in_range b qb && (N.to_nat qc <? f_statecount (wd_new d))) then None
      else if st_visited (get_state (wd_new d) qc) then Some (true, d)
      else
        let d := wd_with_new d (upd_state (wd_new d) qc (set_visited true)) in
        let em := wd_edgemask d in
        let symbols := seq 0 (FSM_SIGMA_MAX + 1) in
        if negb (bool_decide (is_Some qb)) && negb (masked em FSM_WALK2_ONLYA) then Some (true, d)
        else
          '(ok, d) ←
            (if bool_decide (is_Some qa) && masked em (N.lor FSM_WALK2_BOTH FSM_WALK2_ONLYA) then
               walk2_loop (fsm_walk2_edges fuel a b) a b (follow_a em a b qa qb) qc symbols d
             else Some (true, d));
          if negb (ok : bool) then Some (false, d)
          else if negb (bool_decide (is_Some qb)) || negb (masked em FSM_WALK2_ONLYB) then Some (true, d)
          else walk2_loop (fsm_walk2_edges fuel a b) a b (follow_b a b qa qb) qc symbols d
  end.

(** One call for each pair of states at most. *)
Definition walk2_fuel (a b : fsm) : nat := S ((f_statecount a + 1) * (f_statecount b + 1)).

Definition fsm_walk2 (a b : fsm) (edgemask endmask : N) : option (option fsm) :=
  if negb (fsm_all a fsm_isdfa && fsm_all b fsm_isdfa) then None
  else
    match fsm_getstart a, fsm_getstart b with
    | None, None => Some (fsm_new (f_alloc a))
    | Some _, None => if masked endmask FSM_WALK2_ONLYA then fsm_clone a else Some (fsm_new (f_alloc a))
    | None, Some _ => if masked endmask FSM_WALK2_ONLYB then fsm_clone b else Some (fsm_new (f_alloc a))
    | Some sa, Some sb =>
        match fsm_new (f_alloc a) with
        | None => Some None
        | Some new =>
            match set_create (f_alloc new) with
            | None => Some None
            | Some states =>
                let d := mk_data 0 0 new states endmask edgemask in
                '(tup0, d) ← fsm_walk2_tuple_new d a b (Some sa) (Some sb);
                match tup0 with
                | None => Some None
                | Some tup0 =>
                    if st_visited (get_state (wd_new d) (tu_comb tup0)) then None
                    else
                      let d := wd_with_new d (fsm_setstart (wd_new d) (tu_comb tup0)) in
                      '(ok, d) ← fsm_walk2_edges (walk2_fuel a b) a b d tup0;
                      if (ok : bool) then Some (Some (wd_new d)) else Some None
                end
            end
        end
    end.
End Ops.

(** ** Lemmas: the order of tuples *)

Definition part_key (q : option N) : N := match q with Some s => s + 1 | None => 0 end.
Definition tuple_key (t : fsm_walk2_tuple) : N := part_key (tu_a t) * 8589934592 + part_key (tu_b t).
Definition part_ok (q : option N) : Prop := match q with Some s => (s < 4294967296)%N | None => True end.
Definition tuple_ok (t : fsm_walk2_tuple) : Prop := part_ok (tu_a t) ∧ part_ok (tu_b t).

Lemma part_key_lt q : part_ok q → (part_key q < 8589934592)%N.
Proof. destruct q; cbn; lia. Qed.

Lemma cmp_part_key p q : cmp_part p q = state_set_cmpval (part_key p) (part_key q).
Proof.
  destruct p as [x|], q as [y|]; cbn [cmp_part part_key]; unfold state_set_cmpval.
  - destruct (y <? x)%N eqn:E1, (x <? y)%N eqn:E2, (y + 1 <? x + 1)%N eqn:E3, (x + 1 <? y + 1)%N eqn:E4; split_bool; try done; lia.
  - rewrite (proj2 (N.ltb_lt 0 (x + 1))) by lia. done.
  - rewrite (proj2 (N.ltb_ge (y + 1) 0)), (proj2 (N.ltb_lt 0 (y + 1))) by lia. done.
  - done.
Qed.

#[export] Instance cmp_walk2_keyed : KeyedCmp cmp_walk2_tuple tuple_key tuple_ok.
Proof.
  intros [xa xb xc] [ya yb yc] [Hxa Hxb] [Hya Hyb]. unfold cmp_walk2_tuple, tuple_key. cbn [tu_a tu_b] in *.
  rewrite !cmp_part_key. pose proof (part_key_lt _ Hxb). pose proof (part_key_lt _ Hyb).
  destruct (state_set_cmpval_spec (part_key xa) (part_key ya)) as [[? ->]|[[-> ->]|[? ->]]]; cbn [negb Z.eqb].
  - destruct (state_set_cmpval_spec (part_key xa * 8589934592 + part_key xb) (part_key ya * 8589934592 + part_key yb))
      as [[? ->]|[[? ->]|[? ->]]]; [done|lia|lia].
  - destruct (state_set_cmpval_spec (part_key ya * 8589934592 + part_key xb) (part_key ya * 8589934592 + part_key yb))
      as [[? ->]|[[? ->]|[? ->]]];
    destruct (state_set_cmpval_spec (part_key xb) (part_key yb)) as [[? ->]|[[? ->]|[? ->]]]; done || lia.
  - destruct (state_set_cmpval_spec (part_key xa * 8589934592 + part_key xb) (part_key ya * 8589934592 + part_key yb))
      as [[? ->]|[[? ->]|[? ->]]]; [lia|lia|done].
Qed.

Definition pair_of (t : fsm_walk2_tuple) : option N * option N := (tu_a t, tu_b t).

Lemma tuple_key_pair t t' : tuple_ok t → tuple_ok t' → tuple_key t = tuple_key t' ↔ pair_of t = pair_of t'.
Proof.
  intros [Ha Hb] [Ha' Hb']. unfold tuple_key, pair_of. split; [|by intros [= -> ->]].
  pose proof (part_key_lt _ Hb). pose proof (part_key_lt _ Hb'). intros E.
  assert (part_key (tu_a t) = part_key (tu_a t') ∧ part_key (tu_b t) = part_key (tu_b t')) as [E1 E2] by nia.
  f_equal; destruct (tu_a t), (tu_a t'), (tu_b t), (tu_b t'); cbn in *; f_equal; lia.
Qed.
