(* ===== verification/Walk2Spec.v ===== *)
(** * What the product of two automata accepts

    The walk of [Walk2] builds the automaton of the reachable pairs: its edges
    are the steps [pstep] of the product, its ends the pairs the mask selects.
    The invariant of the walk says so of every pair whose visit has ended. *)

From S2P Require Import Prelude StateSet Bits EdgeSet EdgeIter EdgeCompact Probe Endids EagerOutput.
From S2P Require Import Lang Fsm FsmSpec Queue Search FsmCompact FsmInv Pred Trim Capture Combine Concat Clone TupleSet Walk2.

(** ** The product walk2.h describes *)

(** The steps from a pair, where a part may be absent: an edge that both
    automata have needs bit 3 of the mask ([FSM_WALK2_BOTH]), one that only A
    has bit 2, one that only B has bit 1. *)
Inductive walks (mask : N) (a b : fsm) : option N * option N → nat → option N * option N → Prop :=
  | walks_both x y c x' y' :
      N.testbit mask 3 = true → f_edge a x c x' → f_edge b y c y' → walks mask a b (Some x, Some y) c (Some x', Some y')
  | walks_only_a x q c x' :
      N.testbit mask 2 = true → f_edge a x c x' → (∀ y y', q = Some y → ¬ f_edge b y c y') →
      walks mask a b (Some x, q) c (Some x', None)
  | walks_only_b q y c y' :
      N.testbit mask 1 = true → f_edge b y c y' → (∀ x x', q = Some x → ¬ f_edge a x c x') →
      walks mask a b (q, Some y) c (None, Some y').

(** The pairs a word leads to. *)
Inductive walk (mask : N) (a b : fsm) : option N * option N → list nat → option N * option N → Prop :=
  | walk_nil p : walk mask a b p [] p
  | walk_cons p c p' w q : walks mask a b p c p' → walk mask a b p' w q → walk mask a b p (c :: w) q.

(** The mask whose edges the code follows: with [FSM_WALK2_ONLYA] it follows the
    edges that both have as well, which the header has a bit of its own for. *)
Definition widened (mask : N) : N := if N.testbit mask 2 then N.setbit mask 3 else mask.

(** Whether a pair is an end state: bit 3 where both parts are end states, bit 2
    where only A's is, bit 1 where only B's is, bit 0 where neither is. *)
Definition part_ends (f : fsm) (q : option N) : Prop := ∃ s, q = Some s ∧ n_end (nfa_of f) s.

Definition selected (mask : N) (A B : Prop) : Prop :=
  A ∧ B ∧ N.testbit mask 3 = true ∨ A ∧ ¬ B ∧ N.testbit mask 2 = true ∨
  ¬ A ∧ B ∧ N.testbit mask 1 = true ∨ ¬ A ∧ ¬ B ∧ N.testbit mask 0 = true.

(** ** The steps of the walk *)

Definition pstep (em : N) (a b : fsm) (p : option N * option N) (c : nat) : option (option N * option N) :=
  if negb (bool_decide (is_Some p.2)) && negb (masked em FSM_WALK2_ONLYA) then None
  else
    match (if bool_decide (is_Some p.1) && masked em (N.lor FSM_WALK2_BOTH FSM_WALK2_ONLYA)
           then follow_a em a b p.1 p.2 c else None) with
    | Some p' => Some p'
    | None => if bool_decide (is_Some p.2) && masked em FSM_WALK2_ONLYB then follow_b a b p.1 p.2 c else None
    end.

Definition pend (endmask : N) (a b : fsm) (p : option N * option N) : bool :=
  masked endmask (walk2mask (part_isend a p.1) (part_isend b p.2)).

Fixpoint prun (em : N) (a b : fsm) (p : option N * option N) (w : list nat) : option (option N * option N) :=
  match w with
  | [] => Some p
  | c :: w => p' ← pstep em a b p c; prun em a b p' w
  end.

Definition pair_live (a b : fsm) (p : option N * option N) : Prop :=
  (∀ s, p.1 = Some s → live a s) ∧ (∀ s, p.2 = Some s → live b s) ∧ (is_Some p.1 ∨ is_Some p.2).

(** The ids of a pair. *)
Definition part_has_id (f : fsm) (q : option N) (x : N) : Prop :=
  ∃ s, q = Some s ∧ fsm_isend f s = true ∧ x ∈ endids (f_endid_info f) s.

Definition pair_ids (a b : fsm) (p : option N * option N) (x : N) : Prop :=
  part_has_id a p.1 x ∨ part_has_id b p.2 x.

Record operand (f : fsm) : Prop := {
  op_wf : fsm_wf f;
  op_fit : ids_fit f;
  op_endid : endid_wf (f_endid_info f);
}.

Section Product.
Context (em endmask : N) (a b : fsm) (Ha : operand a) (Hb : operand b).

Lemma transition_edge f s c t :
  operand f → live f s → edge_set_transition (st_edges (get_state f s)) c = Some t → f_edge f s c t ∧ c < 256.
Proof.
  intros [Hw Hf _] Hs E. pose proof (edge_set_transition_spec (st_edges (get_state f s)) c) as Ht. rewrite E in Ht.
  destruct Ht as (t' & Ht & ->). assert (f_edge f s c t') as He by done.
  rewrite (ids_fit_u24 f t' Hf) by (by eapply f_edge_live). split; [done|]. eapply has_edge_symbol; [|exact Ht].
  by apply wf_edges.
Qed.

Lemma transition_none f s c :
  edge_set_transition (st_edges (get_state f s)) c = None → ∀ t, ¬ f_edge f s c t.
Proof.
  intros E t [_ He]. pose proof (edge_set_transition_spec (st_edges (get_state f s)) c) as Ht. rewrite E in Ht. by apply (Ht t).
Qed.

Lemma follow_a_live qa qb c p' :
  pair_live a b (qa, qb) → follow_a em a b qa qb c = Some p' → pair_live a b p' ∧ c < 256.
Proof.
  intros (La & Lb & _). unfold follow_a. destruct qa as [qa|]; [|done].
  destruct (edge_set_transition _ c) as [eas|] eqn:E; [|done].
  destruct (transition_edge a qa c eas Ha (La _ eq_refl) E) as [He Hc]. pose proof (f_edge_live _ _ _ _ (op_wf _ Ha) He) as Hl.
  destruct (qb ≫= _) as [ebs|] eqn:Eb.
  - intros [= <-]. destruct qb as [qb|]; [|done]. cbn in Eb.
    destruct (transition_edge b qb c ebs Hb (Lb _ eq_refl) Eb) as [He' _]. split; [|done].
    split; [by intros ? [= <-]|]. split; [intros ? [= <-]; by eapply f_edge_live, He'; apply Hb|eauto].
  - destruct (masked _ _); [|done]. intros [= <-]. split; [|done]. split; [by intros ? [= <-]|]. split; [done|eauto].
Qed.

Lemma follow_b_live qa qb c p' :
  pair_live a b (qa, qb) → follow_b a b qa qb c = Some p' → pair_live a b p' ∧ c < 256.
Proof.
  intros (La & Lb & _). unfold follow_b. destruct qb as [qb|]; [|done].
  destruct (edge_set_transition _ c) as [ebs|] eqn:E; [|done].
  destruct (transition_edge b qb c ebs Hb (Lb _ eq_refl) E) as [He Hc]. pose proof (f_edge_live _ _ _ _ (op_wf _ Hb) He) as Hl.
  intros Hf. assert (p' = (None, Some ebs)) as -> by (repeat case_match; congruence). split; [|done].
  split; [done|]. split; [by intros ? [= <-]|eauto].
Qed.

(** The two loops follow different symbols. *)
Lemma follow_disjoint qa qb c p' : pair_live a b (qa, qb) → follow_a em a b qa qb c = Some p' → follow_b a b qa qb c = None.
Proof.
  intros (La & Lb & _). unfold follow_a, follow_b. destruct qa as [qa|]; [|done].
  destruct (edge_set_transition _ c) as [eas|] eqn:E; [|done]. intros _.
  destruct (transition_edge a qa c eas Ha (La _ eq_refl) E) as [[_ He] _].
  destruct qb as [qb|]; [|done]. destruct (edge_set_transition (st_edges (get_state b qb)) c); [|done].
  rewrite (proj2 (edge_set_contains_spec _ c (wf_edges _ _ (op_wf _ Ha) (La _ eq_refl))) (ex_intro _ _ He)). done.
Qed.

Lemma pstep_live p c p' : pair_live a b p → pstep em a b p c = Some p' → pair_live a b p' ∧ c < 256.
Proof.
  destruct p as [qa qb]. intros Hl. unfold pstep. cbn [fst snd]. destruct (negb _ && negb _); [done|].
  destruct (if bool_decide (is_Some qa) && _ then _ else None) as [p1|] eqn:E1.
  - intros [= <-]. revert E1. destruct (_ && _); [|done]. by apply follow_a_live.
  - clear E1. destruct (_ && _); [|done]. by apply follow_b_live.
Qed.
End Product.

(** ** The invariant of the walk *)

Local Notation "'tuples' d" := (set_a (wd_states d)) (at level 10, d at level 9).

Section Walk.
Context `{allocator, !alloc_total} (em endmask : N) (a b : fsm) (Ha : operand a) (Hb : operand b).

Definition total : nat := (f_statecount a + 1) * (f_statecount b + 1).
Context (Htotal : (N.of_nat total < 1073741824)%N).

Record winv (d : fsm_walk2_data) : Prop := {
  wi_set : set_wf tuple_key tuple_ok (wd_states d);
  wi_pair t : t ∈ tuples d → pair_live a b (pair_of t);
  wi_wf : fsm_wf (wd_new d);
  wi_endid : endid_wf (f_endid_info (wd_new d));
  wi_used : ei_buckets_used (f_endid_info (wd_new d)) ≤ length (tuples d);
  wi_count : f_statecount (wd_new d) = length (tuples d);
  wi_live t : t ∈ tuples d → live (wd_new d) (tu_comb t);
  wi_inj t t' : t ∈ tuples d → t' ∈ tuples d → tu_comb t = tu_comb t' → t = t';
  wi_end t : t ∈ tuples d → fsm_isend (wd_new d) (tu_comb t) = pend endmask a b (pair_of t);
  wi_ids t x : t ∈ tuples d → x ∈ endids (f_endid_info (wd_new d)) (tu_comb t) ↔
    pend endmask a b (pair_of t) = true ∧ pair_ids a b (pair_of t) x;
  wi_keys k : endids (f_endid_info (wd_new d)) k ≠ [] → live (wd_new d) k;
  wi_eps s t : ¬ f_eps (wd_new d) s t;
  wi_endmask : wd_endmask d = endmask;
  wi_edgemask : wd_edgemask d = em;
}.

(** The tuples are different pairs, so there are at most [total]. *)
Lemma tuples_bound d : winv d → length (tuples d) ≤ total.
Proof.
  intros Hi. destruct (wi_set _ Hi) as (Hs & Hok & _).
  assert (NoDup (pair_of <$> tuples d)) as Hnd.
  { apply NoDup_fmap_2_strong; [|by eapply NoDup_fmap_1, increasing_NoDup].
    intros t t' Ht Ht' E. eapply key_inj; [exact Hs|done|done|]. rewrite Forall_forall in Hok. by apply tuple_key_pair; auto. }
  set (all := λ f : fsm, None :: (Some <$> live_ids f)).
  assert (∀ f, length (all f) = f_statecount f + 1) as Hlen.
  { intros f. cbn. unfold live_ids. rewrite !length_fmap, length_seq. lia. }
  transitivity (length (list_prod (all a) (all b))); [|by rewrite length_prod, !Hlen].
  rewrite <-(length_fmap pair_of). apply NoDup_incl_length; [by apply NoDup_ListNoDup|].
  intros [qa qb] Hin%list_elem_of_In. apply list_elem_of_fmap in Hin as (t & E & Ht). destruct (wi_pair _ Hi t Ht) as (La & Lb & _).
  rewrite <-E in La, Lb. cbn in La, Lb.
  assert (∀ f q, (∀ s, q = Some s → live f s) → In q (all f)) as Hin.
  { intros f q Hq. apply list_elem_of_In. unfold all. apply elem_of_cons. destruct q as [s|]; [right|by left].
    apply list_elem_of_fmap_2, elem_of_live_ids. by apply Hq. }
  apply in_prod; by apply Hin.
Qed.

(** Replacing the automaton by one with other edges. *)
Lemma winv_new d new :
  winv d → fsm_wf new → f_statecount new = f_statecount (wd_new d) → f_endid_info new = f_endid_info (wd_new d) →
  (∀ s, live (wd_new d) s → fsm_isend new s = fsm_isend (wd_new d) s) → (∀ s t, ¬ f_eps new s t) → winv (wd_with_new d new).
Proof.
  intros [I1 I2 I3 I4 I5 I6 I7 I8 I9 I10 I11 I12 I13 I14] Hw Hc He Hend Heps.
  split; cbn [wd_with_new wd_states wd_new wd_endmask wd_edgemask]; rewrite ?He, ?Hc; try done.
  - intros t Ht. unfold live. rewrite Hc. by apply I7.
  - intros t Ht. rewrite Hend by (by apply I7). by apply I9.
  - intros k Hk. unfold live. rewrite Hc. by apply I11.
Qed.

(** A pair not yet in the set. *)
Lemma copy_pair_ids_spec qa qb new comb :
  pair_live a b (qa, qb) → endid_wf (f_endid_info new) → endid_room (f_endid_info new) →
  endids (f_endid_info new) comb = [] → comb ≠ BUCKET_NO_STATE →
  ∃ ei', copy_pair_ids a b qa qb new comb = Some (true, with_endid_info new ei') ∧ endid_wf ei' ∧
    ei_buckets_used ei' ≤ ei_buckets_used (f_endid_info new) + 1 ∧
    (∀ k, k ≠ comb → endids ei' k = endids (f_endid_info new) k) ∧
    ∀ x, x ∈ endids ei' comb ↔ pair_ids a b (qa, qb) x.
Proof.
  intros (La & Lb & _) Hw Hr Hnil Hno. cbn in La, Lb.
  assert (∀ f q, operand f → (∀ s, q = Some s → live f s) → ∃ ids, part_count f q = Some (length ids) ∧
    part_ids f q (length ids) = Some ids ∧ (N.of_nat (length ids) ≤ 1073741824)%N ∧ Forall id_ok ids ∧ ∀ x, x ∈ ids ↔ part_has_id f q x) as Hpart.
  { intros f q [Fw _ Fe] Hl. destruct q as [s|]; cbn [part_count part_ids].
    - destruct (fsm_isend f s) eqn:Ee.
      + exists (endids (f_endid_info f) s). rewrite fsm_endid_count_spec, fsm_endid_get_spec by done.
        rewrite Nat.ltb_irrefl. cbn [mbind option_bind]. split; [done|]. split.
        { destruct (endids _ s); [done|]. done. }
        assert (Forall id_ok (endids (f_endid_info f) s)) as Hall.
        { apply Forall_forall. intros x. apply endids_ok. by apply endid_wf_weak. }
        split; [by apply ids_few; [apply endids_increasing|]|]. split; [done|]. intros x. unfold part_has_id. naive_solver.
      + exists []. split; [done|]. split; [done|]. split; [cbn; lia|]. split; [done|]. intros x. rewrite elem_of_nil.
        split; [done|]. intros (s' & [= <-] & E' & _). congruence.
    - exists []. split; [done|]. split; [done|]. split; [cbn; lia|]. split; [done|]. intros x. rewrite elem_of_nil.
      split; [done|]. by intros (s' & [=] & _). }
  destruct (Hpart a qa Ha La) as (ids_a & Ca & Ia & Na & Oa & Xa). destruct (Hpart b qb Hb Lb) as (ids_b & Cb & Ib & Nb & Ob & Xb).
  unfold copy_pair_ids. rewrite Ca, Cb. cbn [mbind option_bind]. rewrite f_malloc_total, Ia, Ib. cbn [mbind option_bind].
  assert (∀ x, x ∈ ids_a ++ ids_b ↔ pair_ids a b (qa, qb) x) as Hx by (intros x; rewrite elem_of_app, Xa, Xb; done).
  destruct (0 <? length ids_a + length ids_b) eqn:E; split_bool.
  - destruct (fsm_endid_set_bulk_spec (f_alloc new) (f_endid_info new) comb (ids_a ++ ids_b) FSM_ENDID_BULK_REPLACE)
      as (ei' & Es & W & K1 & K2); [done|done|done| |by apply Forall_app|rewrite Hnil, length_app; cbn; lia|].
    { intros En. rewrite <-length_app, En in E. cbn in E. lia. }
    rewrite Es. cbn [mbind option_bind]. exists ei'. split; [done|]. split; [done|].
    split; [by eapply fsm_endid_set_bulk_used|]. split; [done|]. intros x. rewrite K2, Hx. split; [intros [?|[[=] _]]; done|by left].
  - exists (f_endid_info new). split; [by destruct new|]. split; [done|]. split; [lia|]. split; [done|].
    intros x. rewrite Hnil, elem_of_nil, <-Hx. destruct ids_a, ids_b; cbn in *; try lia. by rewrite elem_of_nil.
Qed.

Lemma tuples_NoDup d : winv d → NoDup (tuples d).
Proof. intros Hi. destruct (wi_set _ Hi) as (Hs & _). by eapply NoDup_fmap_1, increasing_NoDup. Qed.

Lemma pair_live_ok qa qb comb : pair_live a b (qa, qb) → tuple_ok (mk_tuple qa qb comb).
Proof.
  intros (La & Lb & _). cbn in La, Lb. split; [destruct qa as [s|]|destruct qb as [s|]]; cbn; try done.
  - eapply live_lt32; [apply Ha|by apply La].
  - eapply live_lt32; [apply Hb|by apply Lb].
Qed.

Lemma winv_inj d t t' : winv d → t ∈ tuples d → t' ∈ tuples d → pair_of t = pair_of t' → t = t'.
Proof.
  intros Hi Ht Ht' E. destruct (wi_set _ Hi) as (Hs & Hok & _). rewrite Forall_forall in Hok.
  eapply key_inj; [exact Hs|done|done|]. apply tuple_key_pair; auto.
Qed.

(** The state of a new pair. *)
Lemma comb_state_spec new is_end :
  fsm_wf new → (N.of_nat (f_statecount new) < 2147483647)%N →
  ∃ new' comb, walk2_comb_state new is_end = (true, new', comb) ∧ fsm_wf new' ∧ comb = N.of_nat (f_statecount new) ∧
    f_statecount new' = f_statecount new + 1 ∧ f_endid_info new' = f_endid_info new ∧ fsm_getstart new' = fsm_getstart new ∧
    (∀ s, live new s → get_state new' s = get_state new s) ∧ st_visited (get_state new' comb) = false ∧
    fsm_isend new' comb = is_end ∧ (∀ c s, ¬ f_edge new' comb c s) ∧ (∀ s, ¬ f_eps new' comb s).
Proof.
  intros Hw Hn. unfold walk2_comb_state. destruct (fsm_addstate new) as [[ok n1] comb] eqn:E.
  destruct (fsm_addstate_spec new ok n1 comb Hw Hn E) as (_ & Hok & Ht). assert (ok = true) as -> by (by apply Hok).
  destruct (Ht eq_refl) as (W1 & C1 & Ec & _ & G1 & _ & S1 & S2 & Z1 & Z2 & Z3).
  destruct (fsm_addstate_frame new true n1 comb Hw E) as (F1 & _ & _ & _ & F2). destruct (F2 eq_refl) as (_ & _ & F3).
  assert (live n1 comb) as Hl by (unfold live; lia).
  assert (fsm_getstart n1 = fsm_getstart new) as Hst by (unfold fsm_getstart; by rewrite S1, S2).
  exists (if is_end then fsm_setend n1 comb true else n1), comb. split; [done|]. destruct is_end.
  - destruct (fsm_setend_spec n1 comb true W1 Hl) as (W2 & (N1 & N2 & _ & _) & C2 & _ & (S3 & S4) & _).
    destruct (same_meta_setend n1 comb true) as (M1 & _).
    assert (N.to_nat comb < length (f_states n1)) as Hlen by (pose proof (wf_alloc _ W1); unfold live in Hl; lia).
    split; [done|]. split; [done|]. split; [by rewrite C2|]. split; [by rewrite M1|].
    split; [unfold fsm_getstart in *; by rewrite S3, S4|]. split.
    { intros s Hs. rewrite get_state_setend, decide_False by (done || (intros ->; unfold live in Hs; lia)). by apply G1. }
    split; [rewrite get_state_setend, decide_True by done; exact F3|].
    split; [unfold fsm_isend; by rewrite get_state_setend, decide_True|].
    split; [intros c s Hx; apply (Z1 c s); by apply N1|]. intros s Hx. apply (Z2 s). by apply N2.
  - do 6 (split; [done|]). split; [exact F3|]. done.
Qed.

Lemma tuple_new_spec d qa qb :
  winv d → pair_live a b (qa, qb) →
  ∃ t d', fsm_walk2_tuple_new d a b qa qb = Some (Some t, d') ∧ winv d' ∧ pair_of t = (qa, qb) ∧
    (t ∈ tuples d ∧ d' = d ∨
     (∀ u, u ∈ tuples d' ↔ u ∈ tuples d ∨ u = t) ∧ length (tuples d') = S (length (tuples d)) ∧
     (∀ s, live (wd_new d) s → get_state (wd_new d') s = get_state (wd_new d) s) ∧
     ¬ live (wd_new d) (tu_comb t) ∧ st_visited (get_state (wd_new d') (tu_comb t)) = false ∧
     (∀ c s, ¬ f_edge (wd_new d') (tu_comb t) c s) ∧ fsm_getstart (wd_new d') = fsm_getstart (wd_new d)).
Proof.
  intros Hi Hl. pose proof (pair_live_ok qa qb 0 Hl) as Hok0. unfold fsm_walk2_tuple_new.
  assert (∀ (A : Type) (x y : A), (match qa, qb with None, None => x | _, _ => y end) = y) as Hm.
  { intros A x y. destruct Hl as (_ & _ & [[? E]|[? E]]); cbn in E; rewrite E; [done|]. by destruct qa. }
  rewrite Hm. clear Hm. destruct (set_contains cmp_walk2_tuple (wd_states d) (mk_tuple qa qb 0)) as [t|] eqn:Ec.
  { pose proof Ec as [Ht Hk]%(set_contains_spec cmp_walk2_tuple tuple_key tuple_ok); [|apply Hi|done].
    exists t, d. split; [done|]. split; [done|]. split; [|by left].
    destruct (wi_set _ Hi) as (_ & Hok & _). rewrite Forall_forall in Hok. apply tuple_key_pair in Hk; auto. }
  assert (∀ t, t ∈ tuples d → pair_of t ≠ (qa, qb)) as Hnew.
  { intros t Ht E. destruct (wi_set _ Hi) as (_ & Hok & _). rewrite Forall_forall in Hok.
    rewrite (proj2 (set_contains_spec cmp_walk2_tuple tuple_key tuple_ok (wd_states d) (mk_tuple qa qb 0) t (wi_set _ Hi) Hok0)) in Ec; [done|].
    split; [done|]. apply tuple_key_pair; auto. }
  pose proof (tuples_bound d Hi) as Hbound. pose proof (wi_count _ Hi) as Hcnt.
  assert (∃ h t, alloc_walk2_tuple d = (true, wd_with_pool d h t)) as (h & tp & ->).
  { unfold alloc_walk2_tuple. rewrite f_malloc_total. destruct (_ || _); eauto. }
  cbn [wd_with_pool wd_endmask wd_new wd_states]. rewrite (wi_endmask _ Hi).
  change (masked endmask (walk2mask (part_isend a qa) (part_isend b qb))) with (pend endmask a b (qa, qb)). set (is_end := pend endmask a b (qa, qb)).
  destruct (comb_state_spec (wd_new d) is_end (wi_wf _ Hi)) as (n1 & comb & -> & W1 & Ec1 & C1 & M1 & S1 & G1 & V1 & E1 & Z1 & Z2); [lia|].
  assert (¬ live (wd_new d) comb) as Hnl by (unfold live; lia).
  assert (endids (f_endid_info (wd_new d)) comb = []) as Hnil.
  { destruct (endids _ comb) eqn:E; [done|]. destruct Hnl. apply (wi_keys _ Hi). by rewrite E. }
  assert (∃ ei, (if is_end then copy_pair_ids a b qa qb n1 comb else Some (true, n1)) = Some (true, with_endid_info n1 ei) ∧
    endid_wf ei ∧ ei_buckets_used ei ≤ ei_buckets_used (f_endid_info (wd_new d)) + 1 ∧
    (∀ k, k ≠ comb → endids ei k = endids (f_endid_info (wd_new d)) k) ∧
    ∀ x, x ∈ endids ei comb ↔ is_end = true ∧ pair_ids a b (qa, qb) x) as (ei & -> & We & Ue & Ke & Xe).
  { pose proof (wi_endid _ Hi) as Hwe. pose proof (wi_used _ Hi) as Hu. destruct is_end.
    - destruct (copy_pair_ids_spec qa qb n1 comb Hl) as (ei & ? & ? & ? & ? & ?);
        [by rewrite M1|unfold endid_room; rewrite M1; lia|by rewrite M1|unfold BUCKET_NO_STATE; lia|]. exists ei. rewrite <-M1. split; [done|].
      do 3 (split; [done|]). intros x. naive_solver.
    - exists (f_endid_info n1). rewrite M1. split; [rewrite <-M1; by destruct n1|]. split; [done|]. split; [lia|]. split; [done|].
      intros x. rewrite Hnil, elem_of_nil. naive_solver. }
  cbn [mbind option_bind]. change (get_state (with_endid_info n1 ei)) with (get_state n1). rewrite V1.
  set (t := mk_tuple qa qb comb). assert (tuple_ok t) as Hok by (by apply pair_live_ok).
  destruct (set_add_spec cmp_walk2_tuple tuple_key tuple_ok (f_alloc (with_endid_info n1 ei)) (wd_states d) t)
    as (st & -> & Wst & Hst); [apply Hi|done| |].
  { intros u Hu Ek. destruct (wi_set _ Hi) as (_ & Hoks & _). rewrite Forall_forall in Hoks.
    apply tuple_key_pair in Ek; [|auto|done]. by apply (Hnew u Hu). }
  cbn [mbind option_bind]. eexists t, _. split; [done|].
  assert (t ∉ tuples d) as Htn by (intros Ht; by apply (Hnew t Ht)).
  assert (length (set_a st) = S (length (tuples d))) as Hlen.
  { change (S (length (tuples d))) with (length (t :: tuples d)). apply Permutation_length, NoDup_Permutation.
    - destruct Wst as (Hs & _). by eapply NoDup_fmap_1, increasing_NoDup.
    - constructor; [done|by apply tuples_NoDup].
    - intros u. rewrite Hst, elem_of_cons. tauto. }
  split; [|split; [done|right]].
  - split; cbn [wd_with_states wd_with_new wd_with_pool wd_states wd_new wd_endmask wd_edgemask].
    + done.
    + intros u [Hu| ->]%Hst; [by apply (wi_pair _ Hi)|done].
    + destruct W1. by split.
    + done.
    + cbn. pose proof (wi_used _ Hi). lia.
    + cbn. lia.
    + intros u [Hu| ->]%Hst; [pose proof (wi_live _ Hi u Hu)|]; unfold live in *; cbn; lia.
    + intros u u' [Hu| ->]%Hst [Hu'| ->]%Hst E; [by apply (wi_inj _ Hi)|..|done]; destruct Hnl; [rewrite <-(E : tu_comb u = comb)|rewrite (E : comb = tu_comb u')];
        by apply (wi_live _ Hi).
    + intros u [Hu| ->]%Hst; [|exact E1]. rewrite <-(wi_end _ Hi u Hu). unfold fsm_isend.
      change (get_state (with_endid_info n1 ei)) with (get_state n1). by rewrite G1 by (by apply (wi_live _ Hi)).
    + intros u x [Hu| ->]%Hst; [|apply Xe]. rewrite <-(wi_ids _ Hi u x Hu). cbn. rewrite Ke; [done|].
      intros E. apply Hnl. rewrite <-E. by apply (wi_live _ Hi).
    + intros k Hk. cbn in Hk. unfold live. cbn. destruct (decide (k = comb)) as [->|Hne]; [lia|].
      rewrite Ke in Hk by done. apply (wi_keys _ Hi) in Hk. unfold live in Hk. lia.
    + intros s u [Hs Hx]. change (get_state (with_endid_info n1 ei)) with (get_state n1) in Hx.
      destruct (decide (live (wd_new d) s)) as [Hls|Hls].
      * rewrite G1 in Hx by done. by apply (wi_eps _ Hi s u).
      * assert (s = comb) as -> by (unfold live in *; cbn in *; lia). by apply (Z2 u).
    + apply (wi_endmask _ Hi).
    + apply (wi_edgemask _ Hi).
  - split; [exact Hst|]. split; [exact Hlen|]. split; [exact G1|]. split; [done|]. split; [exact V1|]. split; [|exact S1].
    intros c s Hx. by apply (Z1 c s).
Qed.

(** ** The depth-first search *)

(** A pair whose edges are all there. *)
Definition complete (d : fsm_walk2_data) (u : fsm_walk2_tuple) : Prop :=
  (∀ c s, f_edge (wd_new d) (tu_comb u) c s ↔ ∃ t, t ∈ tuples d ∧ pstep em a b (pair_of u) c = Some (pair_of t) ∧ s = tu_comb t) ∧
  (∀ c p, pstep em a b (pair_of u) c = Some p → ∃ t, t ∈ tuples d ∧ pair_of t = p).

Definition seen (d : fsm_walk2_data) (u : fsm_walk2_tuple) : Prop := st_visited (get_state (wd_new d) (tu_comb u)) = true.

(** What a part of the walk that works on the tuple [t] does: other tuples keep
    their state, and the tuples it makes are complete when it ends. *)
Record walked (t : fsm_walk2_tuple) (d d' : fsm_walk2_data) : Prop := {
  wk_inv : winv d';
  wk_mono u : u ∈ tuples d → u ∈ tuples d';
  wk_seen u : u ∈ tuples d' → seen d' u;
  wk_frame u : u ∈ tuples d → u ≠ t → get_state (wd_new d') (tu_comb u) = get_state (wd_new d) (tu_comb u);
  wk_complete u : u ∈ tuples d' → u ∉ tuples d → complete d' u;
  wk_start : fsm_getstart (wd_new d') = fsm_getstart (wd_new d);
}.

Lemma walked_length t d d' : winv d → walked t d d' → length (tuples d) ≤ length (tuples d').
Proof.
  intros Hi Hk. apply NoDup_incl_length; [by apply NoDup_ListNoDup, tuples_NoDup|].
  intros u Hu%list_elem_of_In. apply list_elem_of_In. by apply (wk_mono _ _ _ Hk).
Qed.

Lemma complete_frame d d' u :
  winv d → winv d' → (∀ t, t ∈ tuples d → t ∈ tuples d') → u ∈ tuples d →
  get_state (wd_new d') (tu_comb u) = get_state (wd_new d) (tu_comb u) → complete d u → complete d' u.
Proof.
  intros Hi Hi' Hm Hu Hg [K1 K2]. split; [|intros c p Hp; destruct (K2 c p Hp) as (t & ? & ?); eauto].
  intros c s. assert (f_edge (wd_new d') (tu_comb u) c s ↔ f_edge (wd_new d) (tu_comb u) c s) as ->.
  { unfold f_edge. rewrite Hg. pose proof (wi_live _ Hi u Hu). pose proof (wi_live _ Hi' u (Hm u Hu)). tauto. }
  rewrite K1. split; [naive_solver|]. intros (t & Ht & Hp & ->). destruct (K2 c _ Hp) as (t' & Ht' & Et).
  assert (t = t') as -> by (eapply (winv_inj d'); [done|done|by apply Hm|done]). by exists t'.
Qed.

Lemma walked_trans t d1 d2 d3 : winv d1 → t ∈ tuples d1 → walked t d1 d2 → walked t d2 d3 → walked t d1 d3.
Proof.
  intros Hi Ht [I2 M2 S2 F2 C2 B2] [I3 M3 S3 F3 C3 B3]. split; [done|auto|done| | |congruence].
  - intros u Hu Hne. rewrite F3, F2; auto.
  - intros u Hu Hn. destruct (decide (u ∈ tuples d2)) as [H2|H2]; [|by apply C3].
    eapply (complete_frame d2); [done|done|done|done| |by apply C2]. apply F3; [done|]. by intros ->.
Qed.

(** Adding an edge to the tuple being worked on. *)
Lemma add_edge_walked d t u c :
  winv d → t ∈ tuples d → u ∈ tuples d → c < 256 →
  ∃ new, fsm_addedge_literal (wd_new d) (tu_comb t) (tu_comb u) c = (true, new) ∧ winv (wd_with_new d new) ∧
    (∀ s, s ≠ tu_comb t → get_state new s = get_state (wd_new d) s) ∧
    st_visited (get_state new (tu_comb t)) = st_visited (get_state (wd_new d) (tu_comb t)) ∧
    fsm_getstart new = fsm_getstart (wd_new d) ∧
    (∀ s c' s', f_edge new s c' s' ↔ f_edge (wd_new d) s c' s' ∨ s = tu_comb t ∧ c' = c ∧ s' = tu_comb u).
Proof.
  intros Hi Ht Hu Hc. pose proof (wi_live _ Hi t Ht) as Lt. pose proof (wi_live _ Hi u Hu) as Lu.
  destruct (fsm_addedge_literal (wd_new d) (tu_comb t) (tu_comb u) c) as [ok new] eqn:E.
  destruct (fsm_addedge_literal_spec _ _ _ _ _ _ (wi_wf _ Hi) Lt Lu Hc E) as (W & C & Hok & N1).
  assert (ok = true) as -> by auto. destruct (N1 eq_refl) as (N2 & N3 & _ & _). cbn in N2, N3.
  unfold fsm_addedge_literal in E. destruct (edge_set_add _ _ _ _) as [ok p]. injection E as -> <-. exists (upd_state (wd_new d) (tu_comb t) (set_edges p)).
  assert (N.to_nat (tu_comb t) < length (f_states (wd_new d))) as Hlen by (pose proof (wf_alloc _ (wi_wf _ Hi)); unfold live in Lt; lia).
  assert (∀ s, get_state (upd_state (wd_new d) (tu_comb t) (set_edges p)) s =
    if decide (s = tu_comb t) then set_edges p (get_state (wd_new d) (tu_comb t)) else get_state (wd_new d) s) as Hg by (intros; by apply get_upd).
  split; [done|]. split; [|split; [|split; [|split]]].
  - apply winv_new; [done|done|done|done| |].
    + intros s _. unfold fsm_isend. rewrite Hg. case_decide; [by subst|done].
    + intros s s' Hx. apply (wi_eps _ Hi s s'). by apply N3.
  - intros s Hs. by rewrite Hg, decide_False.
  - by rewrite Hg, decide_True.
  - done.
  - exact N2.
Qed.

Definition rec_ok (n : nat) (rec : fsm_walk2_data → fsm_walk2_tuple → option (bool * fsm_walk2_data)) : Prop :=
  ∀ d t, winv d → t ∈ tuples d → ¬ seen d t → (∀ c s, ¬ f_edge (wd_new d) (tu_comb t) c s) →
    (∀ u, u ∈ tuples d → u ≠ t → seen d u) → total - length (tuples d) < n →
    ∃ d', rec d t = Some (true, d') ∧ walked t d d' ∧ complete d' t.

Lemma walked_same t d d' :
  winv d' → tuples d' = tuples d → (∀ u, u ∈ tuples d' → seen d' u) →
  (∀ u, u ∈ tuples d → u ≠ t → get_state (wd_new d') (tu_comb u) = get_state (wd_new d) (tu_comb u)) →
  fsm_getstart (wd_new d') = fsm_getstart (wd_new d) → walked t d d'.
Proof. intros Hi Ht Hs Hf Hst. split; [done|by rewrite Ht|done|done|by rewrite Ht|done]. Qed.

(** One symbol that is followed: the loop goes on with the data [dm]. *)
Lemma walk2_follow n rec t p i d (k : fsm_walk2_data → option (bool * fsm_walk2_data)) :
  rec_ok n rec → winv d → t ∈ tuples d → (∀ u, u ∈ tuples d → seen d u) → total - length (tuples d) ≤ n →
  pair_live a b p → i < 256 →
  ∃ dm u, ('(dst, d) ← fsm_walk2_tuple_new d a b p.1 p.2;
      match dst with
      | None => Some (false, d)
      | Some dst =>
          if negb (N.to_nat (tu_comb dst) <? f_statecount (wd_new d)) then None
          else
            let '(ok, new) := fsm_addedge_literal (wd_new d) (tu_comb t) (tu_comb dst) i in
            let d := wd_with_new d new in
            if (ok : bool) then
              if st_visited (get_state (wd_new d) (tu_comb dst)) then k d
              else '(ok, d) ← rec d dst; if (ok : bool) then k d else Some (false, d)
            else Some (false, d)
      end) = k dm ∧ walked t d dm ∧ u ∈ tuples dm ∧ pair_of u = p ∧
    ∀ c s, f_edge (wd_new dm) (tu_comb t) c s ↔ f_edge (wd_new d) (tu_comb t) c s ∨ c = i ∧ s = tu_comb u.
Proof.
  intros Hrec Hi Ht Hseen Hn Hp Hi256. destruct p as [qa qb]. cbn [fst snd].
  destruct (tuple_new_spec d qa qb Hi Hp) as (u & d1 & -> & I1 & Hu & Hor). cbn [mbind option_bind].
  assert (u ∈ tuples d1 ∧ t ∈ tuples d1) as [Hu1 Ht1].
  { destruct Hor as [[? ->]|(Hin & _)]; [done|]. split; apply Hin; auto. }
  pose proof (wi_live _ I1 u Hu1) as Lu. rewrite (proj2 (Nat.ltb_lt _ _)) by exact Lu. cbn [negb].
  destruct (add_edge_walked d1 t u i I1 Ht1 Hu1 Hi256) as (new & -> & I2 & G2 & V2 & B2 & E2).
  set (d2 := wd_with_new d1 new) in *. change (wd_new d2) with new. destruct Hor as [[Hud ->]|(Hin & Hlen & G1 & Hnl & V1 & Z1 & B1)].
  - assert (∀ v, v ∈ tuples d → seen d2 v) as Hs2.
    { intros v Hv. unfold seen. change (wd_new d2) with new. destruct (decide (tu_comb v = tu_comb t)) as [Ev|Ev].
      - rewrite Ev, V2. by apply Hseen.
      - rewrite G2 by done. by apply Hseen. }
    pose proof (Hs2 u Hud) as Hs2u. unfold seen in Hs2u. change (wd_new d2) with new in Hs2u. rewrite Hs2u.
    exists d2, u. split; [done|]. split; [|split; [done|split; [done|]]].
    + apply walked_same; [done|done|done| |done]. intros v Hv Hne. apply G2. intros E. by apply Hne, (wi_inj _ Hi).
    + intros c s. change (wd_new d2) with new. rewrite E2. naive_solver.
  - assert (u ∉ tuples d) as Hun by (intros Hu'; apply Hnl; by apply (wi_live _ Hi)).
    assert (tu_comb u ≠ tu_comb t) as Hut.
    { intros E. apply Hun. by rewrite (wi_inj _ I1 u t Hu1 Ht1 E). }
    rewrite (G2 _ Hut), V1.
    assert (∀ v, v ∈ tuples d → seen d2 v) as Hs2.
    { intros v Hv. unfold seen. change (wd_new d2) with new. pose proof (Hseen v Hv) as Hsv. unfold seen in Hsv.
      destruct (decide (tu_comb v = tu_comb t)) as [Ev|Ev]; [rewrite Ev, V2, <-Ev|rewrite G2 by done];
        by rewrite G1 by (by apply (wi_live _ Hi)). }
    pose proof (tuples_bound d1 I1) as Hb1.
    destruct (Hrec d2 u I2 Hu1) as (d3 & -> & Hw & Hc).
    { unfold seen. change (wd_new d2) with new. rewrite (G2 _ Hut), V1. done. }
    { intros c s Hx. change (wd_new d2) with new in Hx. apply E2 in Hx as [Hx|[? _]]; [by apply (Z1 c s)|done]. }
    { intros v Hv Hne. change (tuples d2) with (tuples d1) in Hv. apply Hin in Hv as [Hv| ->]; [by apply Hs2|done]. }
    { change (tuples d2) with (tuples d1). lia. }
    cbn [mbind option_bind]. exists d3, u. split; [done|].
    assert (∀ v, v ∈ tuples d → v ∈ tuples d2 ∧ v ≠ u) as Hv2.
    { intros v Hv. split; [apply Hin; by left|]. by intros ->. }
    split; [|split; [by apply (wk_mono _ _ _ Hw)|split; [done|]]].
    + split.
      * apply Hw.
      * intros v Hv. apply (wk_mono _ _ _ Hw). by apply Hv2.
      * apply Hw.
      * intros v Hv Hne. destruct (Hv2 v Hv) as [Hv' Hvu]. rewrite (wk_frame _ _ _ Hw v Hv' Hvu). change (wd_new d2) with new.
        rewrite G2 by (intros E; by apply Hne, (wi_inj _ Hi)). by rewrite G1 by (by apply (wi_live _ Hi)).
      * intros v Hv Hn'. destruct (decide (v ∈ tuples d2)) as [Hv'|Hv']; [|by apply (wk_complete _ _ _ Hw)].
        change (tuples d2) with (tuples d1) in Hv'. apply Hin in Hv' as [?| ->]; done.
      * rewrite (wk_start _ _ _ Hw). change (wd_new d2) with new. by rewrite B2.
    + intros c s. destruct (Hv2 t Ht) as [Ht2 Htu].
      assert (f_edge (wd_new d3) (tu_comb t) c s ↔ f_edge new (tu_comb t) c s) as ->.
      { unfold f_edge. rewrite (wk_frame _ _ _ Hw t Ht2 Htu). change (wd_new d2) with new.
        pose proof (wi_live _ (wk_inv _ _ _ Hw) t (wk_mono _ _ _ Hw t Ht2)). pose proof (wi_live _ I2 t Ht2). tauto. }
      rewrite E2. assert (f_edge (wd_new d1) (tu_comb t) c s ↔ f_edge (wd_new d) (tu_comb t) c s) as ->; [|naive_solver].
      unfold f_edge. pose proof (wi_live _ Hi t Ht). pose proof (wi_live _ I1 t Ht1). rewrite G1 by done. tauto.
Qed.

(** What a loop over the symbols [l] adds to the tuple [t]. *)
Definition follows (follow : nat → option (option N * option N)) (l : list nat) (t : fsm_walk2_tuple) (d d' : fsm_walk2_data) : Prop :=
  (∀ c s, f_edge (wd_new d') (tu_comb t) c s ↔ f_edge (wd_new d) (tu_comb t) c s ∨
     c ∈ l ∧ ∃ u, u ∈ tuples d' ∧ follow c = Some (pair_of u) ∧ s = tu_comb u) ∧
  (∀ c p, c ∈ l → follow c = Some p → ∃ u, u ∈ tuples d' ∧ pair_of u = p).

Lemma walk2_loop_spec n rec follow t l : ∀ d,
  rec_ok n rec → (∀ c p, follow c = Some p → pair_live a b p ∧ c < 256) →
  winv d → t ∈ tuples d → (∀ u, u ∈ tuples d → seen d u) → total - length (tuples d) ≤ n →
  ∃ d', walk2_loop rec a b follow (tu_comb t) l d = Some (true, d') ∧ walked t d d' ∧ follows follow l t d d'.
Proof.
  induction l as [|i l IH]; intros d Hrec Hf Hi Ht Hseen Hn; cbn [walk2_loop].
  { exists d. split; [done|]. split; [by apply walked_same|]. split; [|by intros c p ?%not_elem_of_nil].
    intros c s. rewrite elem_of_nil. naive_solver. }
  destruct (follow i) as [[qa qb]|] eqn:Ef.
  - destruct (Hf _ _ Ef) as [Hp Hi256].
    destruct (walk2_follow n rec t (qa, qb) i d (walk2_loop rec a b follow (tu_comb t) l) Hrec Hi Ht Hseen Hn Hp Hi256)
      as (dm & u & Heq & Hw & Hu & Eu & He).
    cbn [fst snd] in Heq. rewrite Heq. pose proof (walked_length _ _ _ Hi Hw) as Hlen.
    destruct (IH dm Hrec Hf (wk_inv _ _ _ Hw) (wk_mono _ _ _ Hw t Ht) (wk_seen _ _ _ Hw) ltac:(lia)) as (d' & E & Hw' & F1 & F2).
    exists d'. split; [exact E|]. split; [by eapply walked_trans|].
    assert (u ∈ tuples d') as Hu' by (by apply (wk_mono _ _ _ Hw')). split.
    + intros c s. rewrite F1, He, elem_of_cons. split.
      * intros [[?|[-> ->]]|[? ?]]; [by left|right; split; [by left|]; exists u; by rewrite Eu|right; auto].
      * intros [?|[[->|?] (v & Hv & Ev & ->)]]; [by left; left| |right; eauto].
        left. right. split; [done|]. f_equal. eapply (winv_inj d'); [apply Hw'|done|done|]. congruence.
    + intros c p [->|Hc]%elem_of_cons Ep; [exists u; split; [done|congruence]|by eapply F2].
  - destruct (IH d Hrec Hf Hi Ht Hseen Hn) as (d' & E & Hw & F1 & F2). exists d'. split; [exact E|]. split; [done|]. split.
    + intros c s. rewrite F1, elem_of_cons. split; [naive_solver|].
      intros [?|[[->|?] (v & Hv & Ev & ->)]]; [by left|congruence|right; eauto].
    + intros c p [->|Hc]%elem_of_cons Ep; [congruence|by eapply F2].
Qed.

Lemma in_range_live f q : (∀ s, q = Some s → live f s) → in_range f q = true.
Proof. intros Hq. destruct q as [s|]; [|done]. apply Nat.ltb_lt. by apply Hq. Qed.

(** The walk from a pair not yet seen: it ends, and everything it meets is
    complete. *)
Lemma fsm_walk2_edges_spec n : rec_ok n (fsm_walk2_edges n a b).
Proof.
  induction n as [|n IH]; intros d t Hi Ht Hns Hno Hseen Hn; [lia|]. cbn [fsm_walk2_edges].
  pose proof (wi_pair _ Hi t Ht) as Hp. pose proof Hp as (La & Lb & _). cbn in La, Lb. pose proof (wi_live _ Hi t Ht) as Lt.
  rewrite !in_range_live by done. rewrite (proj2 (Nat.ltb_lt _ _)) by exact Lt. cbn [andb negb].
  unfold seen in Hns. destruct (st_visited (get_state (wd_new d) (tu_comb t))); [done|]. clear Hns.
  set (new1 := upd_state (wd_new d) (tu_comb t) (set_visited true)).
  assert (N.to_nat (tu_comb t) < length (f_states (wd_new d))) as Hlen by (pose proof (wf_alloc _ (wi_wf _ Hi)); unfold live in Lt; lia).
  assert (∀ s, get_state new1 s = if decide (s = tu_comb t) then set_visited true (get_state (wd_new d) (tu_comb t)) else get_state (wd_new d) s)
    as Hg by (intros; by apply get_upd).
  assert (∀ s, st_edges (get_state new1 s) = st_edges (get_state (wd_new d) s) ∧ st_epsilons (get_state new1 s) = st_epsilons (get_state (wd_new d) s) ∧
    st_end (get_state new1 s) = st_end (get_state (wd_new d) s)) as Hst by (intros s; rewrite Hg; case_decide; by subst).
  assert (winv (wd_with_new d new1)) as I1.
  { apply winv_new; [done| |done|done| |].
    - apply fsm_wf_upd; [apply Hi|done| |done]. exact (wf_states _ (wi_wf _ Hi) _ Lt).
    - intros s _. apply Hst.
    - intros s s' [Hs Hx]. destruct (Hst s) as (_ & E & _). rewrite E in Hx. by apply (wi_eps _ Hi s s'). }
  set (d1 := wd_with_new d new1) in *.
  assert (∀ u, u ∈ tuples d1 → seen d1 u) as Hseen1.
  { intros u Hu. unfold seen. change (wd_new d1) with new1. rewrite Hg. case_decide as E; [done|].
    apply Hseen; [done|]. by intros ->. }
  assert (walked t d d1) as Hw1.
  { apply walked_same; [done|done|done| |done]. intros u Hu Hne. change (wd_new d1) with new1. rewrite Hg, decide_False; [done|].
    intros E. by apply Hne, (wi_inj _ Hi). }
  assert (∀ c s, ¬ f_edge (wd_new d1) (tu_comb t) c s) as Hno1.
  { intros c s [_ Hx]. change (wd_new d1) with new1 in Hx. rewrite (proj1 (Hst _)) in Hx. by apply (Hno c s). }
  change (wd_edgemask d1) with (wd_edgemask d). rewrite (wi_edgemask _ Hi). change (FSM_SIGMA_MAX + 1) with 256.
  pose proof (follow_a_live em a b Ha Hb (tu_a t) (tu_b t)) as Hfa. pose proof (follow_b_live a b Hb (tu_a t) (tu_b t)) as Hfb.
  pose proof (follow_disjoint em a b Ha (tu_a t) (tu_b t)) as Hdis.
  assert (∀ c, c < 256 → c ∈ seq 0 256) as Hsym by (intros c Hc; apply elem_of_seq; lia).
  destruct (negb (bool_decide (is_Some (tu_b t))) && negb (masked em FSM_WALK2_ONLYA)) eqn:Eearly.
  { exists d1. split; [done|]. split; [done|]. unfold complete, pstep. cbn [pair_of fst snd]. rewrite Eearly. split; [|done].
    intros c s. split; [intros Hx; by apply Hno1 in Hx|naive_solver]. }
  set (ca := bool_decide (is_Some (tu_a t)) && masked em (N.lor FSM_WALK2_BOTH FSM_WALK2_ONLYA)).
  set (cb := bool_decide (is_Some (tu_b t)) && masked em FSM_WALK2_ONLYB).
  set (fa := λ c, if ca then follow_a em a b (tu_a t) (tu_b t) c else None).
  set (fb := λ c, if cb then follow_b a b (tu_a t) (tu_b t) c else None).
  assert (∀ c, pstep em a b (pair_of t) c = match fa c with Some p => Some p | None => fb c end) as Hstep.
  { intros c. unfold pstep. cbn [pair_of fst snd]. by rewrite Eearly. }
  assert (∃ d2, (if ca then walk2_loop (fsm_walk2_edges n a b) a b (follow_a em a b (tu_a t) (tu_b t)) (tu_comb t) (seq 0 256) d1
    else Some (true, d1)) = Some (true, d2) ∧ walked t d1 d2 ∧ follows fa (seq 0 256) t d1 d2) as (d2 & -> & Hw2 & A1 & A2).
  { unfold fa. destruct ca.
    - apply (walk2_loop_spec n); [done| |done|done|done|change (tuples d1) with (tuples d); lia]. intros c p Hc. by apply Hfa.
    - exists d1. split; [done|]. split; [by apply walked_same|]. split; [naive_solver|done]. }
  cbn [mbind option_bind negb].
  assert ((negb (bool_decide (is_Some (tu_b t))) || negb (masked em FSM_WALK2_ONLYB)) = negb cb) as -> by (unfold cb; by rewrite negb_andb).
  pose proof (walked_length _ _ _ I1 Hw2) as Hlen2. change (tuples d1) with (tuples d) in Hlen2.
  assert (t ∈ tuples d2) as Ht2 by (by apply (wk_mono _ _ _ Hw2)).
  assert (∃ d3, (if negb cb then Some (true, d2) else
      walk2_loop (fsm_walk2_edges n a b) a b (follow_b a b (tu_a t) (tu_b t)) (tu_comb t) (seq 0 256) d2) = Some (true, d3) ∧
    walked t d2 d3 ∧ follows fb (seq 0 256) t d2 d3) as (d3 & -> & Hw3 & B1 & B2).
  { unfold fb. destruct cb; cbn [negb].
    - apply (walk2_loop_spec n); [done| |apply Hw2|done|apply Hw2|lia]. intros c p Hc. by apply Hfb.
    - exists d2. split; [done|]. split; [apply walked_same; [apply Hw2|done|apply Hw2|done|done]|]. split; [naive_solver|done]. }
  exists d3. split; [done|]. split.
  { eapply walked_trans; [done|done|exact Hw1|]. by eapply walked_trans. }
  assert (∀ c p, fa c = Some p → c < 256 ∧ fb c = None) as Ha'.
  { intros c p. unfold fa, fb. destruct ca; [|done]. intros E. split; [by apply (Hfa c p)|]. destruct cb; [|done]. by eapply Hdis. }
  assert (∀ c p, fb c = Some p → c < 256) as Hb'.
  { intros c p. unfold fb. destruct cb; [|done]. intros E. by apply (Hfb c p). }
  split.
  - intros c s. rewrite B1, A1, Hstep. split.
    + intros [[Hx|(_ & u & Hu & Eu & ->)]|(_ & u & Hu & Eu & ->)]; [by apply Hno1 in Hx| |].
      * exists u. rewrite Eu. split; [by apply (wk_mono _ _ _ Hw3)|done].
      * exists u. split; [done|]. destruct (fa c) as [p|] eqn:Ea; [|done]. destruct (Ha' c p Ea). congruence.
    + intros (u & Hu & Eu & ->). destruct (fa c) as [p|] eqn:Ea.
      * injection Eu as ->. left. right. destruct (Ha' _ _ Ea) as [Hc _]. split; [by apply Hsym|].
        destruct (A2 c _ (Hsym c Hc) Ea) as (v & Hv & Ev). exists v. split; [done|]. split; [congruence|]. f_equal.
        eapply (winv_inj d3); [apply Hw3|done|by apply (wk_mono _ _ _ Hw3)|done].
      * right. split; [apply Hsym; by eapply Hb'|]. by exists u.
  - intros c p. rewrite Hstep. destruct (fa c) as [p'|] eqn:Ea.
    + intros [= <-]. destruct (Ha' _ _ Ea) as [Hc _]. destruct (A2 c _ (Hsym c Hc) Ea) as (v & Hv & Ev).
      exists v. split; [by apply (wk_mono _ _ _ Hw3)|done].
    + intros Eb. apply (B2 c p); [apply Hsym; by eapply Hb'|done].
Qed.

(** ** The automaton of the walk *)

Lemma walk_path d t w s :
  winv d → (∀ u, u ∈ tuples d → complete d u) → t ∈ tuples d →
  path (nfa_of (wd_new d)) (tu_comb t) w s ↔ ∃ u, u ∈ tuples d ∧ prun em a b (pair_of t) w = Some (pair_of u) ∧ s = tu_comb u.
Proof.
  intros Hi Hc. revert t. induction w as [|c w IH]; intros t Ht; cbn [prun].
  - rewrite path_nil_rtc. split.
    + intros Hx. inversion Hx as [|? ? ? He]; [by exists t|]. by apply (wi_eps _ Hi) in He.
    + intros (u & Hu & [= Ea Eb] & ->). rewrite (winv_inj d t u Hi Ht Hu); [done|]. unfold pair_of. congruence.
  - split.
    + intros (s1 & s2 & H1 & H2 & H3)%path_cons_inv. inversion H1 as [|? ? ? He]; subst; [|by apply (wi_eps _ Hi) in He].
      apply (proj1 (Hc t Ht)) in H2 as (u & Hu & Hs & ->). apply IH in H3 as (v & Hv & Hr & ->); [|done].
      exists v. split; [done|]. split; [|done]. by rewrite Hs.
    + intros (v & Hv & Hr & ->). destruct (pstep em a b (pair_of t) c) as [p|] eqn:Es; [|done]. cbn in Hr.
      destruct (proj2 (Hc t Ht) c p Es) as (u & Hu & Eu). subst p. eapply path_step; [apply (proj1 (Hc t Ht)); by eauto|].
      apply IH; [done|]. by exists v.
Qed.

(** Every state of the result is that of a pair. *)
Lemma comb_surj d s : winv d → live (wd_new d) s → ∃ u, u ∈ tuples d ∧ s = tu_comb u.
Proof.
  intros Hi Hs. enough (s ∈ tu_comb <$> tuples d) as (u & -> & Hu)%list_elem_of_fmap by eauto.
  apply list_elem_of_In. apply (List.NoDup_length_incl (l := tu_comb <$> tuples d) (l' := live_ids (wd_new d))).
  - apply NoDup_ListNoDup, NoDup_fmap_2_strong; [|by apply tuples_NoDup]. intros t t' Ht Ht' E. by apply (wi_inj _ Hi).
  - unfold live_ids. rewrite !length_fmap, length_seq. by rewrite (wi_count _ Hi).
  - intros x Hx%list_elem_of_In. apply list_elem_of_fmap in Hx as (u & -> & Hu). apply list_elem_of_In, elem_of_live_ids. by apply (wi_live _ Hi).
  - by apply list_elem_of_In, elem_of_live_ids.
Qed.

Lemma prun_tuples d w : (∀ u, u ∈ tuples d → complete d u) → ∀ t p,
  t ∈ tuples d → prun em a b (pair_of t) w = Some p → ∃ u, u ∈ tuples d ∧ pair_of u = p.
Proof.
  intros Hc. induction w as [|c w IH]; intros t p Ht; cbn [prun]; [intros [= <-]; by exists t|].
  destruct (pstep em a b (pair_of t) c) as [p'|] eqn:Es; [|done]. cbn. intros Hr.
  destruct (proj2 (Hc t Ht) c p' Es) as (u & Hu & <-). by apply (IH u).
Qed.

(** The walk starts with no pairs. *)
Lemma winv_start new states :
  fsm_new (f_alloc a) = Some new → set_wf tuple_key tuple_ok states → set_a states = [] →
  winv (mk_data 0 0 new states endmask em).
Proof.
  intros En Hw Hnil. destruct (inv_new_statealloc _ _ _ En) as ([W _ _ _] & C & _ & _ & M).
  assert (∀ s, ¬ live new s) as Hno by (intros s; unfold live; lia).
  split; cbn [wd_states wd_new wd_endmask wd_edgemask]; rewrite ?Hnil, ?M; try done; try (intros *; by rewrite elem_of_nil).
  - apply fresh_endid_wf.
  - intros k Hk. apply (endid_key _ _ fresh_endid_wf) in Hk as [e He]. by destruct (not_elem_of_empty_table DEF_BUCKET_COUNT k e).
  - intros s t [Hs _]. by apply (Hno s).
Qed.

(** The product automaton of two DFAs with start states: its runs are those of
    the product, and the state reached is an end, with the ids, as the mask
    says. *)
Lemma fsm_walk2_runs sa sb :
  fsm_all a fsm_isdfa = true → fsm_all b fsm_isdfa = true → fsm_getstart a = Some sa → fsm_getstart b = Some sb →
  ∃ q s0, fsm_walk2 a b em endmask = Some (Some q) ∧ fsm_wf q ∧ f_statecount q ≤ total ∧
    deterministic (nfa_of q) ∧ fsm_getstart q = Some s0 ∧
    (∀ w p, prun em a b (Some sa, Some sb) w = Some p → ∃ s, path (nfa_of q) s0 w s) ∧
    (∀ w s, path (nfa_of q) s0 w s → ∃ p, prun em a b (Some sa, Some sb) w = Some p ∧ live q s ∧
       st_visited (get_state q s) = true ∧ fsm_isend q s = pend endmask a b p ∧
       ∀ x, x ∈ endids (f_endid_info q) s ↔ pend endmask a b p = true ∧ pair_ids a b p x).
Proof.
  intros Da Db Sa Sb. unfold fsm_walk2. rewrite Da, Db, Sa, Sb. cbn [andb negb].
  destruct (fsm_new (f_alloc a)) as [new|] eqn:En.
  2: { unfold fsm_new, fsm_new_statealloc, fsm_endid_init, fsm_eager_output_init in En. by rewrite !f_malloc_total, !f_calloc_total in En. }
  destruct (set_create_spec tuple_key tuple_ok (f_alloc new)) as (st & -> & Wst & Est).
  pose proof (winv_start new st En Wst Est) as I0. set (d0 := mk_data 0 0 new st endmask em) in *.
  assert (pair_live a b (Some sa, Some sb)) as Hp.
  { split; [intros s [= <-]; by apply (wf_start _ (op_wf _ Ha))|]. split; [intros s [= <-]; by apply (wf_start _ (op_wf _ Hb))|eauto]. }
  destruct (tuple_new_spec d0 (Some sa) (Some sb) I0 Hp) as (t & d1 & -> & I1 & Et & Hor). cbn [mbind option_bind].
  change (tuples d0) with (set_a st) in Hor. rewrite Est in Hor.
  destruct Hor as [[?%not_elem_of_nil _]|(Hin & Hlen & _ & _ & V1 & Z1 & _)]; [done|]. rewrite V1.
  assert (t ∈ tuples d1) as Ht1 by (apply Hin; by right). pose proof (wi_live _ I1 t Ht1) as Lt.
  destruct (fsm_setstart_spec (wd_new d1) (tu_comb t) (wi_wf _ I1) Lt) as [W2 _].
  assert (winv (wd_with_new d1 (fsm_setstart (wd_new d1) (tu_comb t)))) as I2 by (apply winv_new; try done; apply (wi_eps _ I1)).
  set (d2 := wd_with_new d1 (fsm_setstart (wd_new d1) (tu_comb t))) in *.
  destruct (fsm_walk2_edges_spec (walk2_fuel a b) d2 t I2 Ht1) as (d3 & -> & Hw & Hc).
  { unfold seen. change (get_state (wd_new d2)) with (get_state (wd_new d1)). by rewrite V1. }
  { intros c s Hx. by apply (Z1 c s). }
  { intros u Hu Hne. apply Hin in Hu as [?%not_elem_of_nil|?]; done. }
  { unfold walk2_fuel, total. lia. }
  cbn [mbind option_bind]. pose proof (wk_inv _ _ _ Hw) as I3.
  assert (∀ u, u ∈ tuples d3 → complete d3 u) as Hcomp.
  { intros u Hu. destruct (decide (u = t)) as [->|Hne]; [done|]. apply (wk_complete _ _ _ Hw); [done|].
    intros Hu2. apply Hin in Hu2 as [?%not_elem_of_nil|?]; done. }
  assert (t ∈ tuples d3) as Ht3 by (by apply (wk_mono _ _ _ Hw)).
  exists (wd_new d3), (tu_comb t). split; [done|]. split; [apply I3|]. split; [rewrite (wi_count _ I3); by apply tuples_bound|].
  assert (fsm_getstart (wd_new d3) = Some (tu_comb t)) as Hst by (by rewrite (wk_start _ _ _ Hw)).
  split; [|split; [done|split]].
  - split; [intros s s' Hx; by apply (wi_eps _ I3) in Hx|]. split; [|cbn; congruence].
    intros s c s1 s2 H1 H2. assert (∃ u, u ∈ tuples d3 ∧ s = tu_comb u) as (u & Hu & ->) by (apply comb_surj; [done|apply H1]).
    apply (proj1 (Hcomp u Hu)) in H1 as (u1 & Hu1 & E1 & ->). apply (proj1 (Hcomp u Hu)) in H2 as (u2 & Hu2 & E2 & ->).
    f_equal. eapply (winv_inj d3); [done|done|done|congruence].
  - intros w p Hr. rewrite <-Et in Hr.
    assert (∃ u, u ∈ tuples d3 ∧ pair_of u = p) as (u & Hu & Eu).
    { by eapply prun_tuples. }
    exists (tu_comb u). apply (walk_path d3 t w); [done|done|done|]. exists u. by rewrite Eu.
  - intros w s Hx. apply (walk_path d3 t w) in Hx as (u & Hu & Hr & ->); [|done|done|done]. rewrite Et in Hr. exists (pair_of u).
    split; [done|]. split; [by apply (wi_live _ I3)|]. split; [by apply (wk_seen _ _ _ Hw)|].
    split; [by apply (wi_end _ I3)|]. intros x. by apply (wi_ids _ I3).
Qed.
End Walk.

(** ** Runs of a DFA *)

Lemma dfa_reaches_nil f s : deterministic (nfa_of f) → live f s → reaches_end (nfa_of f) s [] ↔ fsm_isend f s = true.
Proof.
  intros (He & _) Hs. unfold reaches_end. setoid_rewrite path_nil_rtc. split.
  - intros (t & Hx & [_ Ht]). inversion Hx as [|? ? ? Hy]; subst; [done|]. by apply He in Hy.
  - intros Ht. exists s. split; [done|]. by split.
Qed.

Lemma dfa_reaches_cons f s c w :
  operand f → deterministic (nfa_of f) → live f s →
  reaches_end (nfa_of f) s (c :: w) ↔
  ∃ t, edge_set_transition (st_edges (get_state f s)) c = Some t ∧ live f t ∧ reaches_end (nfa_of f) t w.
Proof.
  intros Hf (He & Hd & _) Hs. split.
  - intros (u & (s1 & s2 & H1 & H2 & H3)%path_cons_inv & Hu). inversion H1 as [|? ? ? Hy]; subst; [|by apply He in Hy].
    destruct (edge_set_transition (st_edges (get_state f s1)) c) as [t|] eqn:E; [|by apply (transition_none f s1 c E) in H2].
    destruct (transition_edge f s1 c t Hf Hs E) as [Ht _]. exists t. split; [done|].
    split; [by eapply f_edge_live, Ht; apply Hf|]. assert (t = s2) as -> by (by eapply Hd). by exists u.
  - intros (t & E & _ & u & Hp & Hu). destruct (transition_edge f s c t Hf Hs E) as [Ht _]. exists u. split; [|done].
    by eapply path_step.
Qed.

(** The words the product accepts from a pair. *)
Definition pacc (em endmask : N) (a b : fsm) (p : option N * option N) (w : list nat) : Prop :=
  ∃ p', prun em a b p w = Some p' ∧ pend endmask a b p' = true.

Section Masks.
Context (a b : fsm) (Ha : operand a) (Hb : operand b) (Da : deterministic (nfa_of a)) (Db : deterministic (nfa_of b)).

Lemma pacc_cons em endmask p c w :
  pacc em endmask a b p (c :: w) ↔ ∃ p', pstep em a b p c = Some p' ∧ pacc em endmask a b p' w.
Proof. unfold pacc. cbn [prun]. destruct (pstep em a b p c); cbn; naive_solver. Qed.

Lemma pacc_nil em endmask p : pacc em endmask a b p [] ↔ pend endmask a b p = true.
Proof. unfold pacc. cbn. naive_solver. Qed.

(** The steps under the masks of [fsm_intersect] and of [fsm_subtract]. *)
Lemma pstep_both x y c :
  pstep FSM_WALK2_BOTH a b (Some x, Some y) c =
  match edge_set_transition (st_edges (get_state a x)) c, edge_set_transition (st_edges (get_state b y)) c with
  | Some x', Some y' => Some (Some x', Some y')
  | _, _ => None
  end.
Proof.
  unfold pstep, follow_a. change (masked FSM_WALK2_BOTH FSM_WALK2_ONLYA) with false. change (masked FSM_WALK2_BOTH FSM_WALK2_ONLYB) with false.
  change (masked FSM_WALK2_BOTH (N.lor FSM_WALK2_BOTH FSM_WALK2_ONLYA)) with true. cbn [fst snd].
  rewrite !bool_decide_true by eauto. cbn.
  destruct (edge_set_transition (st_edges (get_state a x)) c); [|done]. by destruct (edge_set_transition _ c).
Qed.

Lemma pstep_subtract x q c :
  pstep (N.lor FSM_WALK2_ONLYA FSM_WALK2_BOTH) a b (Some x, q) c =
  match edge_set_transition (st_edges (get_state a x)) c with
  | Some x' => Some (Some x', q ≫= (λ y, edge_set_transition (st_edges (get_state b y)) c))
  | None => None
  end.
Proof.
  unfold pstep, follow_a. set (m := N.lor FSM_WALK2_ONLYA FSM_WALK2_BOTH).
  change (masked m FSM_WALK2_ONLYA) with true. change (masked m FSM_WALK2_ONLYB) with false.
  change (masked m (N.lor FSM_WALK2_BOTH FSM_WALK2_ONLYA)) with true. cbn [fst snd negb]. rewrite !andb_false_r.
  rewrite (bool_decide_true (is_Some (Some x))) by eauto. cbn [andb].
  destruct (edge_set_transition (st_edges (get_state a x)) c); [|done]. by destruct (q ≫= _).
Qed.

Lemma mask_both ia ib : masked FSM_WALK2_BOTH (walk2mask ia ib) = ia && ib.
Proof. by destruct ia, ib. Qed.

Lemma mask_onlya ia ib : masked FSM_WALK2_ONLYA (walk2mask ia ib) = ia && negb ib.
Proof. by destruct ia, ib. Qed.

(** Both masks [FSM_WALK2_BOTH]: intersection. *)
Lemma pacc_both w : ∀ x y, live a x → live b y →
  pacc FSM_WALK2_BOTH FSM_WALK2_BOTH a b (Some x, Some y) w ↔ reaches_end (nfa_of a) x w ∧ reaches_end (nfa_of b) y w.
Proof.
  induction w as [|c w IH]; intros x y Hx Hy.
  - rewrite pacc_nil, !dfa_reaches_nil by done. unfold pend. cbn [fst snd part_isend]. by rewrite mask_both, andb_true_iff.
  - rewrite pacc_cons, !dfa_reaches_cons, pstep_both by done.
    destruct (edge_set_transition (st_edges (get_state a x)) c) as [x'|] eqn:Ex; [|naive_solver].
    destruct (edge_set_transition (st_edges (get_state b y)) c) as [y'|] eqn:Ey; [|naive_solver].
    destruct (transition_edge a x c x' Ha Hx Ex) as [Tx%(f_edge_live _ _ _ _ (op_wf _ Ha)) _].
    destruct (transition_edge b y c y' Hb Hy Ey) as [Ty%(f_edge_live _ _ _ _ (op_wf _ Hb)) _].
    specialize (IH x' y' Tx Ty). split.
    + intros (p & [= <-] & Hp). apply IH in Hp as [? ?]. eauto 10.
    + intros [(x'' & [= <-] & _ & ?) (y'' & [= <-] & _ & ?)]. eexists. split; [done|]. by apply IH.
Qed.

(** The masks of [fsm_subtract]. *)
Lemma pacc_subtract w : ∀ x q, live a x → (∀ y, q = Some y → live b y) →
  pacc (N.lor FSM_WALK2_ONLYA FSM_WALK2_BOTH) FSM_WALK2_ONLYA a b (Some x, q) w ↔
  reaches_end (nfa_of a) x w ∧ ¬ ∃ y, q = Some y ∧ reaches_end (nfa_of b) y w.
Proof.
  induction w as [|c w IH]; intros x q Hx Hq.
  - rewrite pacc_nil, dfa_reaches_nil by done. unfold pend. cbn [fst snd part_isend].
    rewrite mask_onlya, andb_true_iff, negb_true_iff. destruct q as [y|]; cbn [part_isend].
    + assert ((∃ y0, Some y = Some y0 ∧ reaches_end (nfa_of b) y0 []) ↔ fsm_isend b y = true) as ->.
      { rewrite <-dfa_reaches_nil by auto. naive_solver. }
      by rewrite not_true_iff_false.
    + naive_solver.
  - rewrite pacc_cons, dfa_reaches_cons, pstep_subtract by done.
    destruct (edge_set_transition (st_edges (get_state a x)) c) as [x'|] eqn:Ex; [|naive_solver].
    destruct (transition_edge a x c x' Ha Hx Ex) as [Tx%(f_edge_live _ _ _ _ (op_wf _ Ha)) _].
    set (q' := q ≫= (λ y, edge_set_transition (st_edges (get_state b y)) c)).
    assert (∀ y, q' = Some y → live b y) as Hq'.
    { intros y' E. unfold q' in E. destruct q as [y|]; [|done]. cbn in E.
      destruct (transition_edge b y c y' Hb (Hq y eq_refl) E) as [Ty _]. by eapply f_edge_live, Ty; apply Hb. }
    assert ((∃ y, q = Some y ∧ reaches_end (nfa_of b) y (c :: w)) ↔ ∃ y, q' = Some y ∧ reaches_end (nfa_of b) y w) as ->.
    { unfold q'. destruct q as [y|]; cbn; [|naive_solver]. split.
      - intros (y0 & [= <-] & Hr). apply dfa_reaches_cons in Hr as (t & ? & _ & ?); eauto.
      - intros (t & E & Hr). exists y. split; [done|]. apply dfa_reaches_cons; [done|done|by apply Hq|]. exists t.
        split; [done|]. split; [|done]. by apply Hq'. }
    specialize (IH x' q' Tx Hq'). split.
    + intros (p & [= <-] & Hp). apply IH in Hp as [? ?]. eauto 10.
    + intros [(x'' & [= <-] & _ & ?) ?]. eexists. split; [done|]. by apply IH.
Qed.
End Masks.

(** ** The steps of the walk are those the header describes *)

Lemma masked_bit m k : masked m (2 ^ k) = N.testbit m k.
Proof.
  unfold masked. destruct (N.testbit m k) eqn:E.
  - apply negb_true_iff, N.eqb_neq. intros Hz. apply (f_equal (λ x, N.testbit x k)) in Hz.
    rewrite N.land_spec, N.pow2_bits_true, E, N.bits_0 in Hz. done.
  - apply negb_false_iff, N.eqb_eq. apply N.bits_inj_0. intros j. rewrite N.land_spec.
    destruct (N.eq_dec k j) as [<-|Hne]; [by rewrite E|]. by rewrite N.pow2_bits_false, andb_false_r.
Qed.

Lemma masked_lor m x y : masked m (N.lor x y) = masked m x || masked m y.
Proof.
  unfold masked. rewrite N.land_lor_distr_r. destruct (N.eqb_spec (N.land m x) 0) as [->|Hx]; [by rewrite N.lor_0_l|].
  cbn. apply negb_true_iff, N.eqb_neq. by intros [? _]%N.lor_eq_0_iff.
Qed.

Lemma widened_bits em :
  N.testbit (widened em) 1 = masked em FSM_WALK2_ONLYB ∧ N.testbit (widened em) 2 = masked em FSM_WALK2_ONLYA ∧
  N.testbit (widened em) 3 = masked em (N.lor FSM_WALK2_BOTH FSM_WALK2_ONLYA).
Proof.
  rewrite masked_lor. change FSM_WALK2_ONLYB with (2 ^ 1)%N. change FSM_WALK2_ONLYA with (2 ^ 2)%N. change FSM_WALK2_BOTH with (2 ^ 3)%N.
  rewrite !masked_bit. unfold widened. destruct (N.testbit em 2) eqn:E.
  - rewrite !N.setbit_neq, N.setbit_eq, orb_true_r by done. done.
  - by rewrite E, orb_false_r.
Qed.

Lemma pend_selected mask a b p :
  pair_live a b p → pend mask a b p = true ↔ selected mask (part_ends a p.1) (part_ends b p.2).
Proof.
  intros (La & Lb & _).
  assert (∀ f q, (∀ s, q = Some s → live f s) → part_isend f q = true ↔ part_ends f q) as Hq.
  { intros f [s|] Hl; unfold part_ends; cbn; [|split; [done|by intros (? & ? & _)]].
    split; [intros He; exists s; by specialize (Hl s eq_refl)|]. by intros (? & [= <-] & _ & ?). }
  unfold selected, pend. rewrite <-(Hq a), <-(Hq b) by done.
  destruct (part_isend a p.1), (part_isend b p.2); cbn [walk2mask].
  - change FSM_WALK2_BOTH with (2 ^ 3)%N. rewrite masked_bit. intuition congruence.
  - change FSM_WALK2_ONLYA with (2 ^ 2)%N. rewrite masked_bit. intuition congruence.
  - change FSM_WALK2_ONLYB with (2 ^ 1)%N. rewrite masked_bit. intuition congruence.
  - change FSM_WALK2_NEITHER with (2 ^ 0)%N. rewrite masked_bit. intuition congruence.
Qed.

Section Documented.
Context (a b : fsm) (Ha : operand a) (Hb : operand b) (Da : deterministic (nfa_of a)) (Db : deterministic (nfa_of b)).

Lemma transition_iff f s c t :
  operand f → deterministic (nfa_of f) → live f s → edge_set_transition (st_edges (get_state f s)) c = Some t ↔ f_edge f s c t.
Proof.
  intros Hf (_ & Hd & _) Hs. split; [intros E; by apply transition_edge|]. intros He.
  destruct (edge_set_transition _ c) as [u|] eqn:E; [|by apply (transition_none f s c E) in He].
  f_equal. eapply Hd; [|exact He]. by apply transition_edge.
Qed.

(** Where a symbol leads a part of a pair. *)
Lemma part_transition f q c t :
  operand f → deterministic (nfa_of f) → (∀ s, q = Some s → live f s) →
  q ≫= (λ s, edge_set_transition (st_edges (get_state f s)) c) = Some t ↔ ∃ s, q = Some s ∧ f_edge f s c t.
Proof.
  intros Hf Hd Hl. destruct q as [s|]; cbn; [|naive_solver]. rewrite transition_iff by auto. naive_solver.
Qed.

(** A step as a table of where the parts lead and of the bits. *)
Lemma pstep_table em qa qb c :
  (∀ x, qa = Some x → live a x) →
  pstep em a b (qa, qb) c =
  match qa ≫= (λ x, edge_set_transition (st_edges (get_state a x)) c), qb ≫= (λ y, edge_set_transition (st_edges (get_state b y)) c) with
  | Some x, Some y => if N.testbit (widened em) 3 then Some (Some x, Some y) else None
  | Some x, None => if N.testbit (widened em) 2 then Some (Some x, None) else None
  | None, Some y => if N.testbit (widened em) 1 then Some (None, Some y) else None
  | None, None => None
  end.
Proof.
  intros La. destruct (widened_bits em) as (M1 & M2 & M3).
  assert (N.testbit (widened em) 2 = true → N.testbit (widened em) 3 = true) as Himp.
  { rewrite M2, M3, masked_lor. intros ->. apply orb_true_r. }
  unfold pstep, follow_a, follow_b. rewrite <-M1, <-M2, <-M3. cbn [fst snd].
  destruct qa as [x|]; [assert (edge_set_contains (st_edges (get_state a x)) c = bool_decide (is_Some (edge_set_transition (st_edges (get_state a x)) c))) as ->|].
  { apply eq_true_iff_eq. rewrite edge_set_contains_spec, bool_decide_eq_true by (by apply (wf_edges _ _ (op_wf _ Ha)), La).
    pose proof (edge_set_transition_spec (st_edges (get_state a x)) c) as Ht. destruct (edge_set_transition _ c) as [t|].
    - split; [eauto|]. intros _. destruct Ht as (t' & ? & _). eauto.
    - split; [|by intros [? ?]]. intros (t & Hx). by destruct (Ht t). }
  all: destruct qb as [y|]; cbn [mbind option_bind].
  all: repeat rewrite bool_decide_true by eauto.
  all: rewrite ?(bool_decide_false (is_Some (@None N))) by (by intros [? ?]).
  all: try destruct (edge_set_transition (st_edges (get_state a _)) c) eqn:E1; try destruct (edge_set_transition (st_edges (get_state b _)) c) eqn:E2.
  all: rewrite ?(bool_decide_false (is_Some (@None N))) by (by intros [? ?]).
  all: repeat rewrite bool_decide_true by eauto.
  all: destruct (N.testbit (widened em) 1), (N.testbit (widened em) 2), (N.testbit (widened em) 3); try done; by discriminate (Himp eq_refl).
Qed.

Lemma pstep_walks em p c p' : pair_live a b p → pstep em a b p c = Some p' ↔ walks (widened em) a b p c p'.
Proof.
  destruct p as [qa qb]. intros (La & Lb & _). cbn [fst snd] in La, Lb. destruct (widened_bits em) as (M1 & M2 & M3).
  set (ta := qa ≫= (λ x, edge_set_transition (st_edges (get_state a x)) c)).
  set (tb := qb ≫= (λ y, edge_set_transition (st_edges (get_state b y)) c)).
  pose proof (λ t, part_transition a qa c t Ha Da La) as Ta. pose proof (λ t, part_transition b qb c t Hb Db Lb) as Tb.
  fold ta in Ta. fold tb in Tb.
  assert (pstep em a b (qa, qb) c = match ta, tb with
    | Some x, Some y => if N.testbit (widened em) 3 then Some (Some x, Some y) else None
    | Some x, None => if N.testbit (widened em) 2 then Some (Some x, None) else None
    | None, Some y => if N.testbit (widened em) 1 then Some (None, Some y) else None
    | None, None => None
    end) as ->.
  { by apply pstep_table. }
  split.
  - destruct ta as [x|] eqn:Ea, tb as [y|] eqn:Eb; [| | |done].
    + destruct (N.testbit (widened em) 3) eqn:E; [|done]. intros [= <-]. destruct (proj1 (Ta x) eq_refl) as (s & -> & Hs).
      destruct (proj1 (Tb y) eq_refl) as (t & -> & Ht). by apply walks_both.
    + destruct (N.testbit (widened em) 2) eqn:E; [|done]. intros [= <-]. destruct (proj1 (Ta x) eq_refl) as (s & -> & Hs).
      apply walks_only_a; [done|done|]. intros t u -> Ht. discriminate (proj2 (Tb u)). by exists t.
    + destruct (N.testbit (widened em) 1) eqn:E; [|done]. intros [= <-]. destruct (proj1 (Tb y) eq_refl) as (s & -> & Hs).
      apply walks_only_b; [done|done|]. intros t u -> Ht. discriminate (proj2 (Ta u)). by exists t.
  - intros Hw. inversion Hw as [x y c' x' y' Hm H1 H2|x q c' x' Hm H1 H2|q y c' y' Hm H1 H2]; subst.
    + rewrite (proj2 (Ta x')), (proj2 (Tb y')), Hm by eauto. done.
    + rewrite (proj2 (Ta x')), Hm by eauto. destruct tb as [y|]; [|done].
      destruct (proj1 (Tb y) eq_refl) as (t & -> & Ht). by destruct (H2 t y).
    + rewrite (proj2 (Tb y')), Hm by eauto. destruct ta as [x|]; [|done].
      destruct (proj1 (Ta x) eq_refl) as (t & -> & Ht). by destruct (H2 t x).
Qed.
Lemma prun_walk em w : ∀ p p', pair_live a b p → prun em a b p w = Some p' ↔ walk (widened em) a b p w p'.
Proof.
  induction w as [|c w IH]; intros p p' Hl; cbn [prun].
  { split; [intros [= <-]; constructor|]. inversion 1; by subst. }
  split.
  - intros Hp. destruct (pstep em a b p c) as [p1|] eqn:E; [|done]. cbn [mbind option_bind] in Hp.
    destruct (pstep_live em a b Ha Hb p c p1 Hl E) as [Hl1 _]. eapply walk_cons; [by apply pstep_walks|by apply IH].
  - inversion 1 as [|? ? p1 ? ? H1 H2]; subst. apply pstep_walks in H1; [|done]. rewrite H1. cbn [mbind option_bind].
    destruct (pstep_live em a b Ha Hb p c p1 Hl H1) as [Hl1 _]. by apply IH.
Qed.

Lemma walk_live mask p w p' : pair_live a b p → walk mask a b p w p' → pair_live a b p'.
Proof.
  intros Hl Hw. induction Hw as [|p c p1 w q H1 _ IH]; [done|]. apply IH.
  inversion H1 as [x y c' x' y' _ E1 E2|x y c' x' _ E1 _|x y c' y' _ E1 _]; subst;
    (split; [|split]); cbn; try done; eauto using f_edge_live, op_wf.
  all: intros ? [= <-]; eauto using f_edge_live, op_wf.
Qed.
End Documented.

(** ** The theorems *)

Section Theorems.
Context `{allocator, !alloc_total} (a b : fsm) (sa sb : N).

(** DFAs with start states, small enough for the table of end ids. *)
Record factors : Prop := {
  fa_a : operand a;
  fa_b : operand b;
  fa_dfa_a : fsm_all a fsm_isdfa = true;
  fa_dfa_b : fsm_all b fsm_isdfa = true;
  fa_start_a : fsm_getstart a = Some sa;
  fa_start_b : fsm_getstart b = Some sb;
  fa_total : (N.of_nat ((f_statecount a + 1) * (f_statecount b + 1)) < 1073741824)%N;
}.

Lemma walk2_language em endmask :
  factors → ∃ q, fsm_walk2 a b em endmask = Some (Some q) ∧ fsm_wf q ∧ deterministic (nfa_of q) ∧
    f_statecount q ≤ (f_statecount a + 1) * (f_statecount b + 1) ∧ is_Some (fsm_getstart q) ∧
    ∀ w, language q w ↔ pacc em endmask a b (Some sa, Some sb) w.
Proof.
  intros [Ha Hb Da Db Sa Sb Ht].
  destruct (fsm_walk2_runs em endmask a b Ha Hb Ht sa sb Da Db Sa Sb) as (q & s0 & E & W & C & D & S0 & R1 & R2).
  exists q. split; [done|]. split; [done|]. split; [done|]. split; [done|]. split; [by eexists|]. intros w. rewrite (language_start q s0 w S0). unfold pacc. split.
  - intros (s & Hp & Hs). destruct (R2 w s Hp) as (p & Hr & _ & _ & He & _). exists p. split; [done|]. rewrite <-He. apply Hs.
  - intros (p & Hr & He). destruct (R1 w p Hr) as (s & Hp). exists s. split; [done|].
    destruct (R2 w s Hp) as (p' & Hr' & Hl & _ & He' & _). split; [done|]. rewrite He'. congruence.
Qed.

Lemma factors_det : factors → deterministic (nfa_of a) ∧ deterministic (nfa_of b).
Proof. intros [Ha Hb Da Db _ _ _]. apply fsm_all_isdfa in Da, Db; [|apply Hb|apply Ha]. naive_solver. Qed.

Lemma start_pair_live : factors → pair_live a b (Some sa, Some sb).
Proof.
  intros [Ha Hb _ _ Sa Sb _]. split; [|split]; cbn; [intros ? [= <-]|intros ? [= <-]|eauto].
  - by apply (wf_start _ (op_wf _ Ha)).
  - by apply (wf_start _ (op_wf _ Hb)).
Qed.

(** C16. The walk implements the product of two DFAs with start states that walk2.h
    describes: it ends within one call for each pair of states, the result is a
    DFA whose words are those of the product, and the state a word leads to is
    an end state, with the end ids of both parts, exactly when the mask selects
    the pair. The edges are those of the mask with one exception, which
    [widened] states: with ONLYA the edges that both automata have are followed
    even without BOTH. *)
Theorem fsm_walk2_product em endmask :
  factors →
  ∃ q s0, fsm_walk2 a b em endmask = Some (Some q) ∧ fsm_wf q ∧ deterministic (nfa_of q) ∧ fsm_getstart q = Some s0 ∧
    (∀ w p, walk (widened em) a b (Some sa, Some sb) w p → ∃ s, path (nfa_of q) s0 w s) ∧
    (∀ w s, path (nfa_of q) s0 w s → ∃ p, walk (widened em) a b (Some sa, Some sb) w p ∧
       (n_end (nfa_of q) s ↔ selected endmask (part_ends a p.1) (part_ends b p.2)) ∧
       ∀ x, x ∈ endids (f_endid_info q) s ↔ selected endmask (part_ends a p.1) (part_ends b p.2) ∧ pair_ids a b p x).
Proof.
  intros Hf. pose proof (start_pair_live Hf) as Hp0. destruct (factors_det Hf) as [Ta Tb]. destruct Hf as [Ha Hb Da Db Sa Sb Ht].
  destruct (fsm_walk2_runs em endmask a b Ha Hb Ht sa sb Da Db Sa Sb) as (q & s0 & E & W & _ & D & S0 & R1 & R2).
  exists q, s0. do 4 (split; [done|]). split.
  - intros w p Hp. apply (R1 w p). by apply prun_walk.
  - intros w s Hp. destruct (R2 w s Hp) as (p & Hr & Hl & _ & He & Hx). apply prun_walk in Hr; [|done..].
    pose proof (pend_selected endmask a b p (walk_live a b Ha Hb _ _ _ _ Hp0 Hr)) as Hsel. exists p. split; [done|].
    split; [|intros x; by rewrite Hx, Hsel]. rewrite <-Hsel, <-He. split; [by intros [_ ?]|]. intros Hend. exact (conj Hl Hend).
Qed.

(** C40. The walk leaves the visited flag of every state that a word leads to set,
    whatever the masks: what it returns is not as the searches expect their
    automata. *)
Theorem fsm_walk2_leaves_marks em endmask :
  factors →
  ∃ q s0, fsm_walk2 a b em endmask = Some (Some q) ∧ fsm_getstart q = Some s0 ∧
    (∀ w s, path (nfa_of q) s0 w s → visited q s = true) ∧ ¬ flags q [].
Proof.
  intros [Ha Hb Da Db Sa Sb Ht].
  destruct (fsm_walk2_runs em endmask a b Ha Hb Ht sa sb Da Db Sa Sb) as (q & s0 & E & W & _ & _ & S0 & _ & R2).
  assert (∀ w s, path (nfa_of q) s0 w s → visited q s = true) as Hv.
  { intros w s Hp. by destruct (R2 w s Hp) as (p & _ & _ & ? & _). }
  exists q, s0. do 3 (split; [done|]). rewrite flags_nil. intros Hfl.
  specialize (Hfl s0 (wf_start _ W s0 S0)). rewrite (Hv [] s0) in Hfl; [done|constructor].
Qed.

(** The masks of [fsm_intersect] and of [fsm_subtract]. *)
Lemma walk2_intersects :
  factors → ∃ q, fsm_walk2 a b FSM_WALK2_BOTH FSM_WALK2_BOTH = Some (Some q) ∧ fsm_wf q ∧ deterministic (nfa_of q) ∧
    f_statecount q ≤ (f_statecount a + 1) * (f_statecount b + 1) ∧ is_Some (fsm_getstart q) ∧
    ∀ w, language q w ↔ language a w ∧ language b w.
Proof.
  intros Hf. destruct (walk2_language FSM_WALK2_BOTH FSM_WALK2_BOTH Hf) as (q & E & W & D & C & S & Hl).
  destruct (factors_det Hf) as [Ta Tb]. destruct Hf as [Ha Hb _ _ Sa Sb _]. exists q. do 5 (split; [done|]). intros w.
  rewrite Hl, pacc_both, (language_start a sa w Sa), (language_start b sb w Sb); try done.
  - by apply (wf_start _ (op_wf _ Ha)).
  - by apply (wf_start _ (op_wf _ Hb)).
Qed.

Lemma walk2_subtracts :
  factors → ∃ q, fsm_walk2 a b (N.lor FSM_WALK2_ONLYA FSM_WALK2_BOTH) FSM_WALK2_ONLYA = Some (Some q) ∧ fsm_wf q ∧
    deterministic (nfa_of q) ∧ f_statecount q ≤ (f_statecount a + 1) * (f_statecount b + 1) ∧ is_Some (fsm_getstart q) ∧
    ∀ w, language q w ↔ language a w ∧ ¬ language b w.
Proof.
  intros Hf. destruct (walk2_language (N.lor FSM_WALK2_ONLYA FSM_WALK2_BOTH) FSM_WALK2_ONLYA Hf) as (q & E & W & D & C & S & Hl).
  destruct (factors_det Hf) as [Ta Tb]. destruct Hf as [Ha Hb _ _ Sa Sb _]. exists q. do 5 (split; [done|]). intros w.
  rewrite Hl, pacc_subtract, (language_start a sa w Sa), (language_start b sb w Sb); try done.
  - naive_solver.
  - by apply (wf_start _ (op_wf _ Ha)).
  - intros y [= <-]. by apply (wf_start _ (op_wf _ Hb)).
Qed.
End Theorems.

(** [b|c] and [(a|b)*], both deterministic. *)
Definition star_ops : list build_op :=
  [BAddState; BStart 0%N; BLiteral 0%N 0%N 97; BLiteral 0%N 0%N 98; BEnd 0%N true].
Definition star : fsm := @build_from_new always star_ops.

Lemma fresh_operand f : fsm_inv f → ids_fit f → fresh_meta f → operand f.
Proof.
  intros Hi Hf (M & _). split; [apply Hi|done|rewrite M; apply fresh_endid_wf].
Qed.

Lemma sample_factors : factors two_ends star 0%N 0%N.
Proof.
  split; try (vm_compute; reflexivity).
  - apply fresh_operand; [by apply inv_build_from_new|by_compute|split_and!; vm_compute; reflexivity].
  - apply fresh_operand; [by apply inv_build_from_new|by_compute|split_and!; vm_compute; reflexivity].
Qed.

Lemma fsm_walk2_product_witness :
  ∃ q s0, @fsm_walk2 always two_ends star FSM_WALK2_BOTH FSM_WALK2_BOTH = Some (Some q) ∧ f_statecount q = 2 ∧
    fsm_getstart q = Some s0 ∧ ∃ s, path (nfa_of q) s0 [98] s.
Proof.
  destruct (@fsm_walk2_product always always_total two_ends star 0%N 0%N FSM_WALK2_BOTH FSM_WALK2_BOTH sample_factors)
    as (q & s0 & E & _ & _ & S0 & R & _).
  exists q, s0. split; [exact E|]. split; [vm_compute in E; injection E as <-; reflexivity|]. split; [exact S0|].
  apply (R [98] (Some 1%N, Some 0%N)). eapply walk_cons; [|constructor].
  apply walks_both; [reflexivity| |].
  - apply (transition_edge two_ends 0 98 1 (fa_a _ _ _ _ sample_factors)); [by_compute|vm_compute; reflexivity].
  - apply (transition_edge star 0 98 0 (fa_b _ _ _ _ sample_factors)); [by_compute|vm_compute; reflexivity].
Defined.

Lemma fsm_walk2_leaves_marks_witness :
  ∃ q s0, @fsm_walk2 always two_ends star FSM_WALK2_BOTH FSM_WALK2_BOTH = Some (Some q) ∧ fsm_getstart q = Some s0 ∧ ¬ flags q [].
Proof.
  destruct (@fsm_walk2_leaves_marks always always_total two_ends star 0%N 0%N FSM_WALK2_BOTH FSM_WALK2_BOTH sample_factors)
    as (q & s0 & E & S0 & _ & Hf).
  exists q, s0. split; [exact E|]. split; [exact S0|exact Hf].
Defined.

(** A search that trusts the flags goes wrong: trimming the intersection of [b|c]
    and [(a|b)*], which is [b], removes all its states. *)
Example trim_after_walk2 :
  ∃ q f sed, @fsm_walk2 always two_ends star FSM_WALK2_BOTH FSM_WALK2_BOTH = Some (Some q) ∧ f_statecount q = 2 ∧
    @fsm_trim always q FSM_TRIM_START_AND_END_REACHABLE false = Some (2%Z, f, sed) ∧ f_statecount f = 0.
Proof. do 3 eexists. do 3 (split; [vm_compute; reflexivity|]). vm_compute. reflexivity. Qed.
