(* ===== verification/Exec.v ===== *)
(** * Matching an input: src/libfsm/exec.c

    [fsm_exec] runs a deterministic automaton on the characters a callback
    returns until it returns EOF: the model takes the characters as a list of
    octets. The ids passed to the eager-output callback are the trace of the
    run. The array of captures is the caller's, [None] for NULL. *)

From S2P Require Import Prelude StateSet Bits Bitmap EdgeSet EdgeIter EdgeCompact Probe Endids EagerOutput.
From S2P Require Import Lang Fsm FsmSpec Search Pred Capture.

Abbreviation captures_ptr := (option (list fsm_capture)).

(** ** Operations *)

(** [None] where the capture actions go out of bounds, [Some (None, _)] where
    there is no transition. *)
Definition transition (f : fsm) (state : N) (c : nat) (offset : N) (captures : captures_ptr)
    : option (option N * captures_ptr) :=
  match edge_set_transition (st_edges (get_state f state)) c with
  | None => Some (None, captures)
  | Some next =>
      match captures with
      | Some l =>
          if fsm_capture_has_capture_actions f state then
            l ← fsm_capture_update_captures f state next offset l; Some (Some next, Some l)
          else Some (Some next, captures)
      | None => Some (Some next, captures)
      end
  end.

Definition match_eager_outputs_for_state_cb (state id : N) (trace : list N) : bool * list N := (true, trace ++ [id]).

Definition match_eager_outputs_for_state (f : fsm) (state : N) (trace : list N) : list N :=
  let '(cb, _) := fsm_eager_output_get_cb (f_eager_output_info f) in
  if (cb =? 0)%N then trace
  else fsm_eager_output_iter_state (f_eager_output_info f) state match_eager_outputs_for_state_cb trace.

(** The outputs of a state that is entered. *)
Definition eager_on_entry (f : fsm) (state : N) (trace : list N) : list N :=
  if st_has_eager_outputs (get_state f state) then match_eager_outputs_for_state f state trace else trace.

(** The loop over the input: the state it ends in, or [None] where it returns 0
    for want of a transition. *)
Fixpoint exec_loop (w : list nat) (f : fsm) (state offset : N) (captures : captures_ptr) (trace : list N)
    : option (option N * N * captures_ptr * list N) :=
  match w with
  | [] => Some (Some state, offset, captures, trace)
  | c :: w =>
      '(next, captures) ← transition f state c offset captures;
      match next with
      | None => Some (None, offset, captures, trace)
      | Some state => exec_loop w f state (offset +64 1)%cint captures (eager_on_entry f state trace)
      end
  end.

(** Writing [FSM_CAPTURE_NO_POS] to the first [capture_count] captures. *)
Definition init_captures (capture_count : nat) (captures : captures_ptr) : option captures_ptr :=
  if capture_count =? 0 then Some captures
  else
    l ← captures;
    if capture_count <=? length l then
      Some (Some (replicate capture_count (FSM_CAPTURE_NO_POS, FSM_CAPTURE_NO_POS) ++ drop capture_count l))
    else None.

Record exec_result := mk_result {
  er_ret : Z;
  er_end : option N; (* [*end], where written *)
  er_captures : captures_ptr;
  er_trace : list N;
}.

Definition finish_captures (f : fsm) (capture_count : nat) (state offset : N) (captures : captures_ptr)
    : option captures_ptr :=
  match captures with
  | Some l =>
      l ← (if fsm_capture_has_capture_actions f state then
             fsm_capture_update_captures f state NEXT_STATE_END offset l
           else Some l);
      l ← fsm_capture_finalize_captures capture_count l; Some (Some l)
  | None => if capture_count =? 0 then Some None else None
  end.

(** [None] where memory is accessed out of bounds. *)
Definition fsm_exec (f : fsm) (w : list nat) (captures : captures_ptr) : option exec_result :=
  let capture_count := N.to_nat (fsm_countcaptures f) in
  if negb (fsm_all f fsm_isdfa) then Some (mk_result (-1) None captures [])
  else
    match fsm_getstart f with
    | None => Some (mk_result (-1) None captures [])
    | Some state =>
        captures ← init_captures capture_count captures;
        let trace := eager_on_entry f state [] in
        '(r, offset, captures, trace) ← exec_loop w f state 0 captures trace;
        match r with
        | None => Some (mk_result 0 None captures trace)
        | Some state =>
            if negb (fsm_isend f state) then Some (mk_result 0 None captures trace)
            else
              captures ← finish_captures f capture_count state offset captures;
              Some (mk_result 1 (Some state) captures trace)
        end
    end.

(** ** Specification *)

(** [run A s w l t]: reading [w] from [s] enters the states [l] and ends in
    [t]. *)
Inductive run (A : nfa) : N → list nat → list N → N → Prop :=
  | run_nil s : run A s [] [] s
  | run_cons s c s' w l t : n_edge A s c s' → run A s' w l t → run A s (c :: w) (s' :: l) t.

(** What the callback receives when a state is entered. *)
Definition state_outputs (f : fsm) (s : N) : list N :=
  if st_has_eager_outputs (get_state f s) && negb (eo_cb (f_eager_output_info f) =? 0)%N
  then eager_outputs (f_eager_output_info f) s else [].

(** The array is large enough for the captures of the automaton. *)
Definition captures_ok (f : fsm) (captures : captures_ptr) : Prop :=
  capture_wf (f_capture_info f) ∧ (ci_max_capture_id (f_capture_info f) < 4294967295)%N ∧
  match captures with
  | Some l => N.to_nat (fsm_countcaptures f) ≤ length l
  | None => ci_buckets_used (f_capture_info f) = 0
  end.

(** ** Lemmas *)

Lemma run_path A s w l t : run A s w l t → path A s w t.
Proof. induction 1; eauto with fsm. Qed.

Lemma path_run A s w t : deterministic A → path A s w t → ∃ l, run A s w l t.
Proof.
  intros (He & _) Hp. induction Hp as [s|s u w t Hs|s c u w t Hs _ [l Hl]].
  - exists []. constructor.
  - by apply He in Hs.
  - exists (u :: l). by econstructor.
Qed.

Lemma eager_on_entry_spec f s trace : eager_on_entry f s trace = trace ++ state_outputs f s.
Proof.
  unfold eager_on_entry, match_eager_outputs_for_state, state_outputs.
  destruct (st_has_eager_outputs _); [|by rewrite app_nil_r]. cbn [fsm_eager_output_get_cb andb].
  destruct (eo_cb _ =? 0)%N; cbn [negb]; [by rewrite app_nil_r|].
  rewrite eager_iter_state. generalize (eager_outputs (f_eager_output_info f) s). intros ids. revert trace.
  induction ids as [|x ids IH]; intros trace; simpl; [by rewrite app_nil_r|]. rewrite IH, <-app_assoc. done.
Qed.

Lemma captures_ok_ids f l s a :
  captures_ok f (Some l) → capture_actions (f_capture_info f) s a → N.to_nat (ca_id a) < length l.
Proof.
  intros ((Hu & _ & Hmax & _) & Hlt & Hl) Ha. pose proof (Hmax _ _ Ha) as Hid. unfold fsm_countcaptures in Hl.
  destruct (ci_buckets_used (f_capture_info f) =? 0) eqn:E; split_bool.
  - rewrite E in Hu. symmetry in Hu. apply length_zero_iff_nil in Hu. unfold capture_actions in Ha.
    rewrite Hu in Ha. by apply not_elem_of_nil in Ha.
  - rewrite u32_small in Hl by lia. lia.
Qed.

Lemma update_captures_total f s next offset l :
  captures_ok f (Some l) → st_has_capture_actions (get_state f s) = true →
  ∃ l', fsm_capture_update_captures f s next offset l = Some l' ∧ length l' = length l.
Proof.
  intros Hok Hm. destruct (update_captures_spec f s next offset l (proj1 Hok) Hm) as (acts & _ & Ha & ->).
  apply run_actions_total. intros a Hin. by eapply captures_ok_ids; [|apply Ha].
Qed.

Lemma captures_ok_length f l l' : captures_ok f (Some l) → length l' = length l → captures_ok f (Some l').
Proof. intros (H1 & H2 & H3) Hl. split_and!; [done|done|]. by rewrite Hl. Qed.

Lemma transition_spec f s c offset captures :
  fsm_wf f → ids_fit f → live f s → captures_ok f captures →
  ∃ r captures', transition f s c offset captures = Some (r, captures') ∧ captures_ok f captures' ∧
    match r with Some t => f_edge f s c t | None => ∀ t, ¬ f_edge f s c t end.
Proof.
  intros Hwf Hfit Hs Hok. unfold transition.
  pose proof (edge_set_transition_spec (st_edges (get_state f s)) c) as Ht.
  destruct (edge_set_transition (st_edges (get_state f s)) c) as [t|].
  2:{ exists None, captures. split_and!; [done|done|]. intros t [_ Hx]. by apply (Ht t). }
  destruct Ht as (t' & He & ->). assert (f_edge f s c t') as He' by done.
  rewrite (ids_fit_u24 f t') by (done || by eapply f_edge_live).
  destruct captures as [l|]; [|by exists (Some t'), None].
  unfold fsm_capture_has_capture_actions. destruct (st_has_capture_actions (get_state f s)) eqn:Em; [|by exists (Some t'), (Some l)].
  destruct (update_captures_total f s t' offset l Hok Em) as (l' & -> & Hl). cbn [mbind option_bind].
  exists (Some t'), (Some l'). split_and!; [done|by eapply captures_ok_length|done].
Qed.

(** The loop reads the longest prefix of the input that has a run. *)
Lemma exec_loop_spec f w : ∀ s offset captures trace,
  fsm_wf f → ids_fit f → live f s → captures_ok f captures →
  ∃ r offset' captures' trace', exec_loop w f s offset captures trace = Some (r, offset', captures', trace') ∧
    captures_ok f captures' ∧
    ∃ w1 w2 l t, w = w1 ++ w2 ∧ run (nfa_of f) s w1 l t ∧ trace' = trace ++ (l ≫= state_outputs f) ∧ live f t ∧
      match r with
      | Some t' => w2 = [] ∧ t' = t
      | None => ∃ c w3, w2 = c :: w3 ∧ ∀ u, ¬ f_edge f t c u
      end.
Proof.
  induction w as [|c w IH]; intros s offset captures trace Hwf Hfit Hs Hok; cbn [exec_loop].
  { eexists _, _, _, _. split; [done|]. split; [done|]. exists [], [], [], s. split_and!; try done; [constructor|]. by rewrite app_nil_r. }
  destruct (transition_spec f s c offset captures Hwf Hfit Hs Hok) as (r & captures1 & -> & Hok1 & Hr).
  cbn [mbind option_bind]. destruct r as [s'|].
  - destruct (IH s' (offset +64 1)%cint captures1 (eager_on_entry f s' trace)) as
      (r & off' & cap' & tr' & -> & Hok' & w1 & w2 & l & t & -> & Hrun & -> & Hlt & Hres);
      [done|done|by eapply f_edge_live|done|].
    eexists _, _, _, _. split; [done|]. split; [done|]. exists (c :: w1), w2, (s' :: l), t.
    split_and!; [done|by econstructor| |done|done]. by rewrite eager_on_entry_spec, <-app_assoc.
  - eexists _, _, _, _. split; [done|]. split; [done|]. exists [], (c :: w), [], s.
    split_and!; [done|constructor|by rewrite app_nil_r|done|]. eauto.
Qed.

Lemma init_captures_ok f captures :
  captures_ok f captures →
  ∃ captures', init_captures (N.to_nat (fsm_countcaptures f)) captures = Some captures' ∧ captures_ok f captures'.
Proof.
  intros Hok. unfold init_captures. destruct (N.to_nat (fsm_countcaptures f) =? 0) eqn:E; [eauto|]. split_bool.
  destruct captures as [l|]; cbn [mbind option_bind].
  - pose proof Hok as (H1 & H2 & H3). rewrite (proj2 (Nat.leb_le _ _) H3). eexists; split; [done|].
    eapply captures_ok_length; [done|]. rewrite length_app, length_replicate, length_drop. lia.
  - destruct Hok as (_ & _ & H0). unfold fsm_countcaptures in E. by rewrite H0 in E.
Qed.

Lemma finish_captures_ok f s offset captures :
  captures_ok f captures →
  ∃ captures', finish_captures f (N.to_nat (fsm_countcaptures f)) s offset captures = Some captures'.
Proof.
  intros Hok. unfold finish_captures. destruct captures as [l|].
  - assert (∃ l1, (if fsm_capture_has_capture_actions f s then fsm_capture_update_captures f s NEXT_STATE_END offset l
      else Some l) = Some l1 ∧ length l1 = length l) as (l1 & -> & Hl).
    { unfold fsm_capture_has_capture_actions. destruct (st_has_capture_actions _) eqn:E; [|eauto]. by apply update_captures_total. }
    cbn [mbind option_bind]. destruct Hok as (_ & _ & H3). unfold fsm_capture_finalize_captures.
    rewrite <-Hl in H3. rewrite (proj2 (Nat.leb_le _ _) H3). cbn [mbind option_bind]. eauto.
  - destruct Hok as (_ & _ & H0). unfold fsm_countcaptures. rewrite H0. cbn. eauto.
Qed.

Lemma fsm_exec_spec f w captures :
  fsm_wf f → ids_fit f → captures_ok f captures →
  ∃ r, fsm_exec f w captures = Some r ∧
    (er_ret r = (-1)%Z ∧ ¬ (deterministic (nfa_of f) ∧ is_Some (fsm_getstart f)) ∨
     ∃ s, fsm_getstart f = Some s ∧ deterministic (nfa_of f) ∧
       (er_ret r = 1%Z ∧ language f w ∧ (∃ t, er_end r = Some t ∧ path (nfa_of f) s w t ∧ f_end f t) ∨
        er_ret r = 0%Z ∧ ¬ language f w) ∧
       ∃ w1 w2 l t, w = w1 ++ w2 ∧ run (nfa_of f) s w1 l t ∧
         (∀ c w3, w2 = c :: w3 → ∀ u, ¬ f_edge f t c u) ∧
         er_trace r = state_outputs f s ++ (l ≫= state_outputs f)).
Proof.
  intros Hwf Hfit Hok. pose proof (fsm_all_isdfa f Hwf) as Hdfa. unfold fsm_exec.
  destruct (fsm_all f fsm_isdfa); cbn [negb].
  2:{ eexists; split; [done|]. left. split; [done|]. intros [Hd Hs]. discriminate (proj2 Hdfa). auto. }
  destruct (proj1 Hdfa eq_refl) as [Hd _]. destruct (fsm_getstart f) as [s|] eqn:Es.
  2:{ eexists; split; [done|]. left. split; [done|]. by intros [_ [? ?]]. }
  pose proof (wf_start _ Hwf s Es) as Hs.
  destruct (init_captures_ok f captures Hok) as (cap1 & -> & Hok1). cbn [mbind option_bind].
  destruct (exec_loop_spec f w s 0 cap1 (eager_on_entry f s [])) as
    (r & off & cap2 & trace & -> & Hok2 & w1 & w2 & l & t & -> & Hrun & -> & Hlt & Hr); [done..|].
  cbn [mbind option_bind]. rewrite eager_on_entry_spec, app_nil_l.
  assert (∀ w', language f w' ↔ ∃ t', path (nfa_of f) s w' t' ∧ f_end f t') as Hlang.
  { intros w'. unfold language, accepts. cbn. rewrite Es. split; [intros (? & ? & [= <-] & ? & ?); eauto|].
    intros (t' & ? & ?). eauto. }
  destruct r as [t'|].
  - destruct Hr as [-> ->]. rewrite app_nil_r in *. pose proof (run_path _ _ _ _ _ Hrun) as Hp.
    assert (∃ w1' w2' l' t', w1 = w1' ++ w2' ∧ run (nfa_of f) s w1' l' t' ∧
         (∀ c w3, w2' = c :: w3 → ∀ u, ¬ f_edge f t' c u) ∧
         state_outputs f s ++ (l ≫= state_outputs f) = state_outputs f s ++ (l' ≫= state_outputs f)) as Htr.
    { exists w1, [], l, t. split_and!; [by rewrite app_nil_r|done|done|done]. }
    destruct (fsm_isend f t) eqn:Ee; cbn [negb].
    + destruct (finish_captures_ok f t off cap2 Hok2) as (cap3 & ->). cbn [mbind option_bind].
      eexists; split; [done|]. right. exists s. split_and!; [done|done| |done]. left.
      split_and!; [done|apply Hlang; by exists t|by exists t].
    + eexists; split; [done|]. right. exists s. split_and!; [done|done| |done]. right. split; [done|].
      rewrite Hlang. intros (t' & Hp' & [_ He]). rewrite (path_det _ _ _ _ _ Hd Hp' Hp) in He. congruence.
  - destruct Hr as (c & w3 & -> & Hno). eexists; split; [done|]. right. exists s. split_and!; [done|done| |].
    + right. split; [done|]. rewrite Hlang. intros (t' & Hp' & _).
      apply path_app_inv in Hp' as (u & Hp1 & Hp2).
      rewrite (path_det _ _ _ _ _ Hd Hp1 (run_path _ _ _ _ _ Hrun)) in Hp2.
      apply path_cons_inv in Hp2 as (s1 & s2 & Hr1 & He & _).
      inversion Hr1 as [|? ? ? Hx]; subst; [by apply (Hno s2)|by apply (proj1 Hd) in Hx].
    + exists w1, (c :: w3), l, t. split_and!; [done|done| |done]. intros c' w3' [= <- <-]. done.
Qed.

(** ** Properties *)

(** C4. [fsm_exec] decides the language of a deterministic automaton: it accesses
    no memory out of bounds, returns -1 exactly for an automaton that is not
    deterministic or has no start state, 1 exactly when the input is in the
    language, with the end state the input leads to, and otherwise 0. The
    callback receives the eager outputs of the start state and of every state
    entered on the longest prefix of the input that has transitions, in
    order. *)
Theorem fsm_exec_decides_language f w captures :
  fsm_wf f → ids_fit f → captures_ok f captures →
  ∃ r, fsm_exec f w captures = Some r ∧
    (er_ret r = (-1)%Z ∧ ¬ (deterministic (nfa_of f) ∧ is_Some (fsm_getstart f)) ∨
     ∃ s, fsm_getstart f = Some s ∧ deterministic (nfa_of f) ∧
       (er_ret r = 1%Z ∧ language f w ∧ (∃ t, er_end r = Some t ∧ path (nfa_of f) s w t ∧ f_end f t) ∨
        er_ret r = 0%Z ∧ ¬ language f w) ∧
       ∃ w1 w2 l t, w = w1 ++ w2 ∧ run (nfa_of f) s w1 l t ∧
         (∀ c w3, w2 = c :: w3 → ∀ u, ¬ f_edge f t c u) ∧
         er_trace r = state_outputs f s ++ (l ≫= state_outputs f)).
Proof. apply fsm_exec_spec. Qed.

Lemma fsm_exec_decides_language_witness :
  option_map er_ret (fsm_exec (@build_from_new always sample_ops) [97; 98; 99; 98] None) = Some 1%Z ∧
  language (@build_from_new always sample_ops) [97; 98; 99; 98].
Proof.
  split; [vm_compute; reflexivity|].
  destruct (fsm_exec_decides_language (@build_from_new always sample_ops) [97; 98; 99; 98] None
    ltac:(by_compute) ltac:(by_compute)) as (r & H1 & H2).
  - split; [|split; reflexivity].
    split; [reflexivity|]. split; [by_compute|]. split; [intros s a Hin; vm_compute in Hin; inversion Hin|left; reflexivity].
  - destruct H2 as [[H2 _]|(s & _ & _ & [(_ & H2 & _)|[H2 _]] & _)]; [|exact H2|];
      vm_compute in H1; injection H1 as <-; discriminate H2.
Defined.

(** The number of captures the array of the caller has room for. *)
Definition capture_slots (captures : captures_ptr) : nat := match captures with Some l => length l | None => 0 end.

(** C39. Running an automaton stays within bounds exactly when the array of captures
    has room for all the captures of the automaton, whatever the input: with a
    NULL, which both command-line tools pass, every run of an automaton that
    has captures writes through it. *)
Theorem fsm_exec_bounds f w captures start :
  fsm_wf f → ids_fit f → capture_wf (f_capture_info f) → (ci_max_capture_id (f_capture_info f) < 4294967295)%N →
  fsm_all f fsm_isdfa = true → fsm_getstart f = Some start →
  is_Some (fsm_exec f w captures) ↔ N.to_nat (fsm_countcaptures f) ≤ capture_slots captures.
Proof.
  intros Hwf Hfit Hc Hm Hd Hs. split.
  - unfold fsm_exec. rewrite Hd, Hs. cbn [negb]. unfold init_captures. destruct (N.to_nat (fsm_countcaptures f) =? 0) eqn:E; split_bool; [lia|].
    destruct captures as [l|]; cbn [mbind option_bind]; [|by intros [? ?]].
    destruct (_ <=? length l) eqn:El; split_bool; [done|by intros [? ?]].
  - intros Hr. destruct (fsm_exec_spec f w captures) as (r & -> & _); [done|done| |by eexists].
    split; [done|]. split; [done|]. destruct captures as [l|]; cbn in Hr; [done|].
    unfold fsm_countcaptures in Hr. destruct (ci_buckets_used (f_capture_info f) =? 0) eqn:E; split_bool; [done|].
    rewrite u32_small in Hr by lia. lia.
Qed.

Definition captured : fsm :=
  match @fsm_capture_add_action always (@build_from_new always sample_ops) 0 CAPTURE_ACTION_START 0 1 with
  | Some (_, f) => f
  | None => @build_from_new always sample_ops
  end.

Lemma captured_wf : capture_wf (f_capture_info captured).
Proof.
  unfold captured, fsm_capture_add_action.
  destruct (@add_capture_action_spec always (@build_from_new always sample_ops) 0%N (mk_action 0%N CAPTURE_ACTION_START 1%N))
    as (b & f' & -> & _ & Hinv & _).
  - split; [|intros s a Hin; vm_compute in Hin; inversion Hin].
    split; [reflexivity|]. split; [by_compute|]. split; [intros s a Hin; vm_compute in Hin; inversion Hin|left; reflexivity].
  - reflexivity.
  - by_compute.
  - by_compute.
  - right. by_compute.
  - apply Hinv.
Qed.

Lemma fsm_exec_bounds_witness :
  ¬ is_Some (fsm_exec captured [97] None) ∧ is_Some (fsm_exec captured [97] (Some [(0, 0)]%N)).
Proof.
  split.
  - rewrite (fsm_exec_bounds captured [97] None 0%N); [vm_compute; lia|by_compute|by_compute|exact captured_wf| | |]; vm_compute; reflexivity.
  - rewrite (fsm_exec_bounds captured [97] (Some [(0, 0)]%N) 0%N); [vm_compute; lia|by_compute|by_compute|exact captured_wf| | |]; vm_compute; reflexivity.
Defined.
