(* ===== verification/Closure.v ===== *)
(** * Epsilon closures: src/libfsm/closure.c

    [epsilon_closure] computes, for every state, the set of the states it
    reaches by epsilon transitions, by a breadth-first search per state that
    reuses the closures found so far. The array of closures is the list
    [closures]; a NULL entry is [SSNull]. *)

From S2P Require Import Prelude StateSet Bits EdgeSet EdgeCompact Probe Endids EagerOutput.
From S2P Require Import Lang Fsm FsmSpec Search Queue.

Definition is_null (set : state_set) : bool := match set with SSNull => true | _ => false end.

Section Ops.
Context `{allocator}.

(** ** Operations *)

(** The loop over the epsilon transitions of a state; false where the queue is
    full. *)
Fixpoint enqueue_unvisited (l : list N) (f : fsm) (q : queue) : bool * fsm * queue :=
  match l with
  | [] => (true, f, q)
  | es :: l =>
      if visited f es then enqueue_unvisited l f q
      else
        let '(ok, q) := queue_push q es in
        if ok then enqueue_unvisited l (upd_state f es (set_visited true)) q else (false, f, q)
  end.

(** The body of the search, from the label [start]. *)
Definition closure_visit (s p : N) (f : fsm) (closures : list state_set) (q : queue)
    : bool * fsm * list state_set * queue :=
  let cs := closures !!! N.to_nat s in
  let cp := closures !!! N.to_nat p in
  let '(ok, cs) := if negb (p =? s)%N && negb (is_null cp) then state_set_copy cs (f_alloc f) cp else (true, cs) in
  if ok then
    let '(ok, cs) := state_set_add cs (f_alloc f) p in
    let closures := <[N.to_nat s := cs]> closures in
    if ok then
      let '(ok, f, q) := enqueue_unvisited (state_loop (st_epsilons (get_state f p))) f q in
      (ok, f, closures, q)
    else (false, f, closures, q)
  else (false, f, <[N.to_nat s := cs]> closures, q).

(** [None] when [fuel] iterations are not enough. *)
Fixpoint closure_loop (fuel : nat) (s p : N) (f : fsm) (closures : list state_set) (q : queue)
    : option (bool * fsm * list state_set) :=
  match fuel with
  | 0 => None
  | S fuel =>
      let '(ok, f, closures, q) := closure_visit s p f closures q in
      if ok then
        match queue_pop q with
        | None => Some (true, f, closures)
        | Some (p, q) => closure_loop fuel s p f closures q
        end
      else Some (false, f, closures)
  end.

Definition epsilon_closure_single (f : fsm) (closures : list state_set) (s : N)
    : option (bool * fsm * list state_set) :=
  match queue_new (f_alloc f) (f_statecount f) with
  | None => Some (true, f, closures)
  | Some q =>
      let f := upd_state f s (set_visited true) in
      '(ok, f, closures) ← closure_loop (f_statecount f) s s f closures q;
      if (ok : bool) then
        Some (true, foldl (λ f p, upd_state f p (set_visited false)) f (state_loop (closures !!! N.to_nat s)), closures)
      else Some (false, f, closures)
  end.

(** The first loop: clearing the flags and the simplest closures. *)
Fixpoint closure_init (l : list N) (f : fsm) (closures : list state_set) : bool * fsm * list state_set :=
  match l with
  | [] => (true, f, closures)
  | s :: l =>
      let f := upd_state f s (set_visited false) in
      if is_null (st_epsilons (get_state f s)) then
        let '(ok, c) := state_set_add SSNull (f_alloc f) s in
        let closures := <[N.to_nat s := c]> closures in
        if ok then closure_init l f closures else (false, f, closures)
      else closure_init l f (<[N.to_nat s := SSNull]> closures)
  end.

(** The second loop, which ignores what [epsilon_closure_single] returns. *)
Fixpoint closure_all (l : list N) (f : fsm) (closures : list state_set) : option (fsm * list state_set) :=
  match l with
  | [] => Some (f, closures)
  | s :: l =>
      if negb (is_null (closures !!! N.to_nat s)) then closure_all l f closures
      else
        '(_, f, closures) ← epsilon_closure_single f closures s;
        closure_all l f closures
  end.

(** The inner [None] is NULL; the outer one is the assertion that there is a
    state. *)
Definition epsilon_closure (f : fsm) : option (option (list state_set) * fsm) :=
  if f_statecount f =? 0 then None
  else if f_malloc (f_alloc f) (N.of_nat (f_statecount f) * 8) then
    let '(ok, f, closures) := closure_init (live_ids f) f (replicate (f_statecount f) SSNull) in
    if ok then
      '(f, closures) ← closure_all (live_ids f) f closures;
      Some (Some closures, f)
    else Some (None, f)
  else Some (None, f).
End Ops.

(** ** Lemmas *)

Section Lemmas.
Context `{allocator, !alloc_total}.

Lemma enqueue_unvisited_spec R root p dn n l : ∀ f q,
  fsm_wf f → n = f_statecount f → queue_wf q → q_capacity q = n → (∀ t, t ∈ l → R p t ∧ live f t) →
  search_inv R n root dn (p :: queue_elems q) → flags f (dn ++ p :: queue_elems q) →
  ∃ f' q', enqueue_unvisited l f q = (true, f', q') ∧ same_graph f f' ∧ queue_wf q' ∧ q_capacity q' = n ∧
    search_inv R n root dn (p :: queue_elems q') ∧ flags f' (dn ++ p :: queue_elems q') ∧
    (∀ t, t ∈ l → t ∈ dn ++ p :: queue_elems q') ∧
    (∀ t, t ∈ dn ++ p :: queue_elems q → t ∈ dn ++ p :: queue_elems q').
Proof.
  induction l as [|t l IH]; intros f q Hwf Hn Hq Hcap Hl Hinv Hfl; cbn [enqueue_unvisited].
  { exists f, q. split_and!; try done. by intros t ?%not_elem_of_nil. }
  destruct (Hl t ltac:(by left)) as [Hpt Htl]. pose proof (Hfl t Htl) as Hv. destruct (visited f t).
  - destruct (IH f q Hwf) as (f' & q' & -> & H1 & H2 & H3 & H4 & H5 & H6 & H7); try done.
    { intros; apply Hl; by right. }
    exists f', q'. split_and!; try done. intros u [->|Hu]%elem_of_cons; [apply H7; by apply Hv|auto].
  - pose proof (search_bound _ _ _ _ _ Hinv) as Hb. simpl in Hb.
    destruct (queue_push_room q t Hq ltac:(lia)) as [q1 Hpush]. rewrite Hpush.
    destruct (queue_push_spec _ _ _ _ Hq Hpush) as (Hq1 & Hc1 & He1 & _). specialize (He1 eq_refl).
    assert (p :: queue_elems q1 ≡ₚ t :: p :: queue_elems q) as Hperm.
    { rewrite He1. rewrite (Permutation_app_comm (queue_elems q) [t]). simpl. constructor. }
    destruct (IH (upd_state f t (set_visited true)) q1) as (f' & q' & -> & H1 & H2 & H3 & H4 & H5 & H6 & H7).
    + eapply same_graph_wf; [apply same_graph_visited|done].
    + done.
    + done.
    + congruence.
    + intros u Hu. apply Hl. by right.
    + eapply search_perm; [symmetry; exact Hperm|]. eapply (search_push _ _ _ _ _ p); [done| |done|unfold live in Htl; lia|].
      * apply elem_of_app. right. left.
      * intros Hin. discriminate (proj2 Hv Hin).
    + eapply flags_perm; [|by apply flags_mark]. rewrite Hperm. by rewrite Permutation_middle.
    + exists f', q'. split_and!; try done; [by etrans; [apply same_graph_visited|]| |].
      * intros u [->|Hu]%elem_of_cons; [|auto]. apply H7. rewrite Hperm. set_solver.
      * intros u Hu. apply H7. rewrite Hperm. set_solver.
Qed.

(** The closure of a state, exactly. *)
Definition closure_of (f : fsm) (s : N) (c : state_set) : Prop :=
  state_set_wf c ∧ ∀ t, ss_has c t ↔ rtc (f_eps f) s t.

(** A set on its way to being the closure of [s]. *)
Definition partial_closure (f : fsm) (s : N) (dn : list N) (c : state_set) : Prop :=
  state_set_wf c ∧ (∀ t, t ∈ dn → ss_has c t) ∧ (∀ t, ss_has c t → rtc (f_eps f) s t).

(** The closures other than that of [s] are done or NULL. *)
Definition closures_ok (f : fsm) (closures : list state_set) : Prop :=
  length closures = f_statecount f ∧
  ∀ p, live f p → is_null (closures !!! N.to_nat p) = false → closure_of f p (closures !!! N.to_nat p).

Lemma closure_of_live f s c t : fsm_wf f → live f s → closure_of f s c → ss_has c t → live f t.
Proof.
  intros Hwf Hs [_ Hc] Ht%Hc. clear Hc. induction Ht as [|x y z Hx Hy IH]; [done|]. apply IH. by eapply f_eps_live.
Qed.

Lemma f_eps_same f f' : same_graph f f' → ∀ s t, f_eps f' s t ↔ f_eps f s t.
Proof. intros Hs. apply (same_graph_nfa _ _ Hs). Qed.

(** Adding what the closure of [p] has and [p] itself. *)
Lemma closure_merge f s p dn cs cp al :
  fsm_wf f → live f s → rtc (f_eps f) s p → live f p → partial_closure f s dn cs →
  (negb (p =? s)%N && negb (is_null cp) = true → closure_of f p cp) →
  ∃ c1 c2, (if negb (p =? s)%N && negb (is_null cp) then state_set_copy cs al cp else (true, cs)) = (true, c1) ∧
    state_set_add c1 al p = (true, c2) ∧ partial_closure f s (p :: dn) c2.
Proof.
  intros Hwf Hs Hr Hp (H1 & H2 & H3) Hcp.
  assert (∃ c1, (if negb (p =? s)%N && negb (is_null cp) then state_set_copy cs al cp else (true, cs)) = (true, c1) ∧
    partial_closure f s dn c1) as (c1 & -> & K1 & K2 & K3).
  { destruct (negb (p =? s)%N && negb (is_null cp)); [|exists cs; done].
    specialize (Hcp eq_refl). destruct (state_set_copy_total cs al cp) as [c1 Hc1]. exists c1. split; [done|].
    destruct (state_set_copy_extends cs al cp c1) as [Hw Hx]; [done|apply Hcp|done|].
    unfold ss_has in *. split_and!; [done| |].
    - intros t Ht. apply Hx. left. auto.
    - intros t [Ht|Ht]%Hx; [auto|]. etrans; [done|]. by apply Hcp. }
  destruct (state_set_add_total c1 al p) as [c2 Hc2]. exists c1, c2. split_and!; [done|done|].
  destruct (state_set_add_extends _ _ _ _ K1 (live_lt32 _ _ Hwf Hp) Hc2) as [Hw Hx]. unfold ss_has in *.
  split_and!; [done| |].
  - intros t [->|Ht]%elem_of_cons; apply Hx; [right; by apply list_elem_of_singleton|left; auto].
  - intros t [Ht|Ht]%Hx; [auto|]. by apply list_elem_of_singleton in Ht as ->.
Qed.

(** One iteration of the search. *)
Lemma closure_visit_spec f0 s p f closures q dn :
  fsm_wf f0 → live f0 s → same_graph f0 f → length closures = f_statecount f0 →
  (∀ p, live f0 p → p ≠ s → is_null (closures !!! N.to_nat p) = false → closure_of f0 p (closures !!! N.to_nat p)) →
  queue_wf q → q_capacity q = f_statecount f0 →
  search_inv (f_eps f0) (f_statecount f0) s dn (p :: queue_elems q) → flags f (dn ++ p :: queue_elems q) →
  partial_closure f0 s dn (closures !!! N.to_nat s) →
  ∃ f' c q', closure_visit s p f closures q = (true, f', <[N.to_nat s := c]> closures, q') ∧ same_graph f0 f' ∧
    queue_wf q' ∧ q_capacity q' = f_statecount f0 ∧
    search_inv (f_eps f0) (f_statecount f0) s (p :: dn) (queue_elems q') ∧ flags f' ((p :: dn) ++ queue_elems q') ∧
    partial_closure f0 s (p :: dn) c.
Proof.
  intros Hwf Hs Hsg Hlen Hcl Hq Hcap Hinv Hfl Hpc.
  assert (p ∈ dn ++ p :: queue_elems q) as Hpin by set_solver.
  assert (live f0 p) as Hp by (by apply (se_lt _ _ _ _ _ Hinv)).
  destruct (closure_merge f0 s p dn (closures !!! N.to_nat s) (closures !!! N.to_nat p) (f_alloc f))
    as (c1 & c2 & E1 & E2 & Hpc2); [done|done|by apply (se_reach _ _ _ _ _ Hinv)|done|done| |].
  { intros [Hne Hnn]%andb_true_iff. apply Hcl; [done| |by apply negb_true_iff]. intros ->. by rewrite N.eqb_refl in Hne. }
  unfold closure_visit. rewrite E1, E2. rewrite state_loop_elems.
  pose proof Hsg as (Esc & _). destruct (same_graph_state _ _ p Hsg) as (_ & Eeps & _). rewrite Eeps.
  destruct (enqueue_unvisited_spec (f_eps f0) s p dn (f_statecount f0) (ss_elems (st_epsilons (get_state f0 p))) f q)
    as (f' & q' & -> & H1 & H2 & H3 & H4 & H5 & H6 & H7); try done.
  - by eapply same_graph_wf.
  - intros t Ht. assert (f_eps f0 p t) as He by done. split; [done|].
    rewrite (same_graph_live f0 f) by done. by eapply f_eps_live.
  - exists f', c2, q'. split_and!; try done; [by etrans| |].
    + apply search_done; [done|]. intros t [_ Ht]. auto.
    + eapply flags_perm; [|done]. by rewrite <-Permutation_middle.
Qed.

Lemma closure_loop_spec f0 s fuel : ∀ p f closures q dn,
  fsm_wf f0 → live f0 s → same_graph f0 f → length closures = f_statecount f0 →
  (∀ p, live f0 p → p ≠ s → is_null (closures !!! N.to_nat p) = false → closure_of f0 p (closures !!! N.to_nat p)) →
  queue_wf q → q_capacity q = f_statecount f0 →
  search_inv (f_eps f0) (f_statecount f0) s dn (p :: queue_elems q) → flags f (dn ++ p :: queue_elems q) →
  partial_closure f0 s dn (closures !!! N.to_nat s) → f_statecount f0 ≤ fuel + length dn →
  ∃ f' c, closure_loop fuel s p f closures q = Some (true, f', <[N.to_nat s := c]> closures) ∧ same_graph f0 f' ∧
    closure_of f0 s c ∧ ∃ l, flags f' l ∧ ∀ t, t ∈ l → ss_has c t.
Proof.
  induction fuel as [|fuel IH]; intros p f closures q dn Hwf Hs Hsg Hlen Hcl Hq Hcap Hinv Hfl Hpc Hf.
  { pose proof (search_bound _ _ _ _ _ Hinv) as Hb. simpl in Hb. lia. }
  destruct (closure_visit_spec f0 s p f closures q dn) as (f1 & c & q1 & E & H1 & H2 & H3 & H4 & H5 & H6); try done.
  cbn [closure_loop]. rewrite E. pose proof (queue_pop_spec q1 H2) as Hpop.
  assert (N.to_nat s < length closures) as Hsl by (unfold live in Hs; lia).
  destruct (queue_pop q1) as [[p' q']|].
  - destruct Hpop as (K1 & K2 & K3). rewrite K3 in H4, H5.
    destruct (IH p' f1 (<[N.to_nat s := c]> closures) q' (p :: dn)) as (f' & c' & -> & L1 & L2 & L3); try done.
    + by rewrite length_insert.
    + intros u Hu Hus. rewrite list_lookup_total_insert_ne by (intros ?; apply Hus; lia). by apply Hcl.
    + congruence.
    + by rewrite list_lookup_total_insert_eq.
    + simpl. lia.
    + exists f', c'. split_and!; [by rewrite list_insert_insert_eq|done|done|done].
  - rewrite Hpop in *. exists f1, c. split_and!; [done|done| |].
    + destruct H6 as (K1 & K2 & K3). split; [done|]. intros t. split; [auto|].
      intros Ht. apply K2. by apply (search_end _ _ _ _ _ H4).
    + exists (p :: dn). rewrite app_nil_r in H5. split; [done|apply H6].
Qed.

Lemma epsilon_closure_single_spec f0 s f closures :
  fsm_wf f0 → live f0 s → same_graph f0 f → flags f [] → closures_ok f0 closures →
  is_null (closures !!! N.to_nat s) = true →
  ∃ f' closures', epsilon_closure_single f closures s = Some (true, f', closures') ∧ same_graph f0 f' ∧ flags f' [] ∧
    closures_ok f0 closures' ∧ is_null (closures' !!! N.to_nat s) = false ∧
    (∀ p, p ≠ s → closures' !!! N.to_nat p = closures !!! N.to_nat p).
Proof.
  intros Hwf Hs Hsg Hfl [Hlen Hcl] Hnull. pose proof Hsg as (Esc & _).
  assert (N.to_nat s < length closures) as Hsl by (unfold live in Hs; lia).
  unfold epsilon_closure_single. rewrite Esc.
  destruct (queue_new_total (f_alloc f) (f_statecount f0)) as [q Hq]; [unfold live in Hs; lia|]. rewrite Hq.
  destruct (queue_new_spec _ _ _ Hq) as (Hqw & Hqe & Hqc).
  change (f_statecount (upd_state f s (set_visited true))) with (f_statecount f). rewrite Esc.
  pose proof (same_graph_wf _ _ Hsg Hwf) as Hwff.
  assert (live f s) as Hsf by (by rewrite (same_graph_live f0)).
  destruct (closure_loop_spec f0 s (f_statecount f0) s (upd_state f s (set_visited true)) closures q [])
    as (f1 & c & -> & H1 & H2 & l & H3 & H4).
  - done.
  - done.
  - etrans; [done|apply same_graph_visited].
  - done.
  - intros p Hp _. by apply Hcl.
  - done.
  - done.
  - rewrite Hqe. by apply search_start.
  - rewrite Hqe. by apply flags_mark.
  - destruct (closures !!! N.to_nat s); [|done..]. split_and!; [apply state_set_wf_null|by intros t ?%not_elem_of_nil..].
  - simpl. lia.
  - cbn [mbind option_bind]. rewrite list_lookup_total_insert_eq by done. rewrite state_loop_elems.
    pose proof H1 as (Esc1 & _ & Elen1 & _). pose proof (wf_alloc _ Hwf) as Ha.
    destruct (clear_list_spec (ss_elems c) f1) as [K1 K2].
    { intros t Ht. pose proof (closure_of_live f0 s c t Hwf Hs H2 Ht) as Hl. unfold live in Hl. lia. }
    eexists _, _. split; [done|]. split_and!.
    + by etrans.
    + intros t Ht. rewrite (same_graph_live f1) in Ht by done. rewrite K2. case_decide as Hd.
      * split; [done|by intros ?%not_elem_of_nil].
      * rewrite (H3 t Ht). split; [intros Hin; by apply H4 in Hin|by intros ?%not_elem_of_nil].
    + split; [by rewrite length_insert|]. intros p Hp Hnn. destruct (decide (p = s)) as [->|Hne].
      * by rewrite list_lookup_total_insert_eq.
      * rewrite list_lookup_total_insert_ne in Hnn |- * by (intros ?; apply Hne; lia). by apply Hcl.
    + rewrite list_lookup_total_insert_eq by done. destruct c; try done.
      destruct H2 as [_ H2]. specialize (H2 s). exfalso. apply (not_elem_of_nil s), H2, rtc_refl.
    + intros p Hne. rewrite list_lookup_total_insert_ne; [done|]. intros ?. apply Hne. lia.
Qed.

Lemma closure_init_spec f0 l : ∀ f closures,
  fsm_wf f0 → same_graph f0 f → (∀ s, s ∈ l → live f0 s) → closures_ok f0 closures →
  (∀ s, live f0 s → s ∉ l → visited f s = false) →
  ∃ f' closures', closure_init l f closures = (true, f', closures') ∧ same_graph f0 f' ∧ flags f' [] ∧ closures_ok f0 closures'.
Proof.
  induction l as [|s l IH]; intros f closures Hwf Hsg Hl Hcl Hv; cbn [closure_init].
  { exists f, closures. split_and!; [done|done| |apply Hcl..]. intros s Hs. rewrite (same_graph_live f0) in Hs by done.
    rewrite Hv; [|done|apply not_elem_of_nil]. split; [done|by intros ?%not_elem_of_nil]. }
  assert (live f0 s) as Hs by (apply Hl; left). destruct Hcl as [Hlen Hcl].
  assert (same_graph f0 (upd_state f s (set_visited false))) as Hsg1 by (etrans; [done|apply same_graph_visited]).
  pose proof Hsg as (_ & _ & Elen & _). pose proof (wf_alloc _ Hwf) as Ha.
  assert (∀ t, live f0 t → t ∉ l → visited (upd_state f s (set_visited false)) t = false) as Hv1.
  { intros t Ht Hnl. rewrite visited_upd by (unfold live in Hs; lia). case_decide; [done|]. apply Hv; [done|]. set_solver. }
  assert (∀ c, closure_of f0 s c ∨ c = SSNull → closures_ok f0 (<[N.to_nat s := c]> closures)) as Hins.
  { intros c Hc. split; [by rewrite length_insert|]. intros p Hp Hnn. destruct (decide (p = s)) as [->|Hne].
    - rewrite list_lookup_total_insert_eq in Hnn |- * by (unfold live in Hs; lia). destruct Hc as [?| ->]; done.
    - rewrite list_lookup_total_insert_ne in Hnn |- * by (intros ?; apply Hne; lia). by apply Hcl. }
  destruct (same_graph_state _ _ s Hsg1) as (_ & -> & _).
  destruct (is_null (st_epsilons (get_state f0 s))) eqn:En.
  - change (state_set_add SSNull ?al s) with (true, SSSingle s).
    apply IH; [done|done|intros; apply Hl; by right| |done]. apply Hins. left. split; [apply state_set_wf_single; by eapply live_lt32|].
    intros t. unfold ss_has. cbn [ss_elems]. rewrite list_elem_of_singleton. split; [by intros ->|].
    intros Hr. inversion Hr as [|? u ? [_ Hx]]; [done|]. destruct (st_epsilons (get_state f0 s)); [|done..]. by apply not_elem_of_nil in Hx.
  - apply IH; [done|done|intros; apply Hl; by right| |done]. apply Hins. by right.
Qed.

Lemma closure_all_spec f0 l : ∀ f closures,
  fsm_wf f0 → same_graph f0 f → flags f [] → (∀ s, s ∈ l → live f0 s) → closures_ok f0 closures →
  ∃ f' closures', closure_all l f closures = Some (f', closures') ∧ same_graph f0 f' ∧ flags f' [] ∧
    closures_ok f0 closures' ∧
    (∀ s, s ∈ l ∨ is_null (closures !!! N.to_nat s) = false → is_null (closures' !!! N.to_nat s) = false).
Proof.
  induction l as [|s l IH]; intros f closures Hwf Hsg Hfl Hl Hcl; cbn [closure_all].
  { exists f, closures. split_and!; try done; [apply Hcl..|]. intros s [?%not_elem_of_nil|?]; done. }
  assert (live f0 s) as Hs by (apply Hl; left).
  destruct (is_null (closures !!! N.to_nat s)) eqn:En; cbn [negb].
  - destruct (epsilon_closure_single_spec f0 s f closures) as (f1 & cl1 & -> & H1 & H2 & H3 & H4 & H5); try done.
    cbn [mbind option_bind]. destruct (IH f1 cl1) as (f' & cl' & -> & K1 & K2 & K3 & K4); try done.
    { intros; apply Hl; by right. }
    exists f', cl'. split_and!; try done; [apply K3..|]. intros t Ht. apply K4.
    destruct (decide (t = s)) as [->|Hne]; [by right|]. rewrite H5 by done.
    destruct Ht as [[?|?]%elem_of_cons|?]; [done|by left|by right].
  - destruct (IH f closures) as (f' & cl' & -> & K1 & K2 & K3 & K4); try done.
    { intros; apply Hl; by right. }
    exists f', cl'. split_and!; try done; [apply K3..|]. intros t [[->|?]%elem_of_cons|?]; apply K4; auto.
Qed.

(** The search of every state ends with its closure. *)
Lemma epsilon_closure_total f :
  fsm_wf f → 0 < f_statecount f →
  ∃ closures f', epsilon_closure f = Some (Some closures, f') ∧ same_graph f f' ∧ flags f' [] ∧
    length closures = f_statecount f ∧
    ∀ s, live f s → closure_of f s (closures !!! N.to_nat s).
Proof.
  intros Hwf Hpos. unfold epsilon_closure. rewrite (proj2 (Nat.eqb_neq _ _)), f_malloc_total by lia.
  destruct (closure_init_spec f (live_ids f) f (replicate (f_statecount f) SSNull)) as (f1 & cl1 & -> & H1 & H2 & H3).
  - done.
  - reflexivity.
  - intros s. apply elem_of_live_ids.
  - split; [by rewrite length_replicate|]. intros p Hp Hn. exfalso. revert Hn.
    rewrite list_lookup_total_alt, lookup_replicate_2; [done|]. exact Hp.
  - intros s Hs Hn. destruct Hn. by apply elem_of_live_ids.
  - destruct (closure_all_spec f (live_ids f) f1 cl1) as (f2 & cl2 & E & K1 & K2 & K3 & K4); try done.
    { intros s. apply elem_of_live_ids. }
    assert (live_ids f = live_ids f1) as <- by (unfold live_ids; by destruct H1 as (-> & _)).
    rewrite E. cbn [mbind option_bind]. exists cl2, f2. split_and!; [done|done|done|apply K3|].
    intros s Hs. apply K3; [done|]. apply K4. left. by apply elem_of_live_ids.
Qed.

(** ** Property *)

(** C5. On an automaton that has a state, as the code asserts, [epsilon_closure]
    returns, for every state, exactly the set of the states its epsilon
    transitions lead to in any number of steps, itself included:
    the search of each state ends, its queue never overflows, and reusing the
    closures already computed changes nothing. It leaves the automaton as it
    was, with the visited flags clear. *)
Theorem epsilon_closure_spec f :
  fsm_wf f → 0 < f_statecount f →
  ∃ closures f', epsilon_closure f = Some (Some closures, f') ∧ same_graph f f' ∧ flags f' [] ∧
    length closures = f_statecount f ∧
    ∀ s, live f s → closure_of f s (closures !!! N.to_nat s).
Proof. exact (epsilon_closure_total f). Qed.
End Lemmas.

Lemma epsilon_closure_spec_witness :
  ∃ closures f', @epsilon_closure always (@build_from_new always
      [BAddState; BAddState; BAddState; BEpsilon 0%N 1%N; BEpsilon 1%N 2%N; BEpsilon 2%N 1%N]) = Some (Some closures, f') ∧
    ss_elems (closures !!! 0) = [0; 1; 2]%N ∧ closure_of (@build_from_new always
      [BAddState; BAddState; BAddState; BEpsilon 0%N 1%N; BEpsilon 1%N 2%N; BEpsilon 2%N 1%N]) 1 (closures !!! 1).
Proof.
  destruct (@epsilon_closure_spec always always_total (@build_from_new always
    [BAddState; BAddState; BAddState; BEpsilon 0%N 1%N; BEpsilon 1%N 2%N; BEpsilon 2%N 1%N]) ltac:(by_compute) ltac:(by_compute))
    as (cl & f' & H1 & _ & _ & _ & H2).
  exists cl, f'. split; [exact H1|]. split; [vm_compute in H1; injection H1 as <- _; reflexivity|].
  apply (H2 1%N). by_compute.
Defined.
