(* ===== verification/Epsilons.v ===== *)
(** * Removing epsilon transitions: src/libfsm/epsilons.c

    [fsm_remove_epsilons] gives every state that a symbol leads to, and the
    start state, the edges, the end mark, the end ids and the eager outputs of
    the states of its epsilon closure, then drops all the epsilon transitions
    and copies the capture actions. The automaton is changed in place while it
    is read: a state handled early already has the edges of its closure when a
    later closure that contains it is copied. *)

From S2P Require Import Prelude StateSet Bits EdgeSet EdgeIter EdgeCompact Probe Endids EagerOutput.
From S2P Require Import Lang Fsm FsmSpec Queue Search FsmCompact FsmInv Pred Trim Capture Combine Closure.

Definition DEF_PENDING_CAPTURE_ACTIONS_CEIL : nat := 2.
Definition DEF_CARRY_ENDIDS_COUNT : nat := 2.
Definition DEF_EAGER_OUTPUT_BUF_CEIL : nat := 8.

(** [used] is the length of [eb_ids]. *)
Record eager_output_buf := mk_eager_buf { eb_ok : bool; eb_ceil : nat; eb_ids : list N }.

(** [count] is the length of [ce_ids]. *)
Record collect_env := mk_collect { ce_ok : bool; ce_ceil : nat; ce_ids : list N }.

(** [count] is the length of [re_actions]. *)
Record remap_env := mk_remap_env {
  re_ok : bool;
  re_ceil : nat;
  re_actions : list (N * fsm_capture_action);
}.

Section Ops.
Context `{allocator}.

(** ** Eager outputs *)

(** The buffer grows before the search for a duplicate. *)
Definition append_eager_output_id (al : fsm_alloc) (buf : eager_output_buf) (id : N) : bool * eager_output_buf :=
  let '(ok, buf) :=
    if length (eb_ids buf) =? eb_ceil buf then
      let nceil := if eb_ceil buf =? 0 then DEF_EAGER_OUTPUT_BUF_CEIL else 2 * eb_ceil buf in
      if f_realloc al (N.of_nat nceil * 4) then (true, mk_eager_buf (eb_ok buf) nceil (eb_ids buf))
      else (false, mk_eager_buf false (eb_ceil buf) (eb_ids buf))
    else (true, buf) in
  if ok then
    if existsb (N.eqb id) (eb_ids buf) then (true, buf)
    else (true, mk_eager_buf (eb_ok buf) (eb_ceil buf) (eb_ids buf ++ [id]))
  else (false, buf).

Definition collect_eager_output_ids_cb (al : fsm_alloc) (state id : N) (buf : eager_output_buf)
    : bool * eager_output_buf :=
  append_eager_output_id al buf id.

(** ** End ids *)

Definition collect_cb (al : fsm_alloc) (state id : N) (env : collect_env) : bool * collect_env :=
  let '(ok, env) :=
    if length (ce_ids env) =? ce_ceil env then
      let nceil := 2 * ce_ceil env in
      if f_realloc al (N.of_nat nceil * 4) then (true, mk_collect (ce_ok env) nceil (ce_ids env))
      else (false, mk_collect false (ce_ceil env) (ce_ids env))
    else (true, env) in
  if ok then (true, mk_collect (ce_ok env) (ce_ceil env) (ce_ids env ++ [id])) else (false, env).

(** The first loop of [carry_endids]. *)
Fixpoint collect_endids (l : list N) (f : fsm) (env : collect_env) : option collect_env :=
  match l with
  | [] => Some env
  | s :: l =>
      if fsm_isend f s then
        env ← fsm_endid_iter_state (f_endid_info f) s (collect_cb (f_alloc f)) env;
        if ce_ok env then collect_endids l f env else Some env
      else collect_endids l f env
  end.

(** The second loop. *)
Fixpoint add_endids (ids : list N) (f : fsm) (dst_state : N) : option (bool * fsm) :=
  match ids with
  | [] => Some (true, f)
  | id :: ids =>
      '(ok, ei) ← fsm_endid_set (f_alloc f) (f_endid_info f) dst_state id;
      let f := with_endid_info f ei in
      if (ok : bool) then add_endids ids f dst_state else Some (false, f)
  end.

Definition carry_endids (f : fsm) (states : state_set) (dst_state : N) : option (bool * fsm) :=
  if f_malloc (f_alloc f) (N.of_nat DEF_CARRY_ENDIDS_COUNT * 4) then
    env ← collect_endids (state_loop states) f (mk_collect true DEF_CARRY_ENDIDS_COUNT []);
    if ce_ok env then add_endids (ce_ids env) f dst_state else Some (false, f)
  else Some (false, f).

(** ** States that a label leads to *)

(** [None] where the assertion that no visited flag is set fails. *)
Fixpoint mark_loop (l : list N) (f : fsm) (words : list N) : option (list N) :=
  match l with
  | [] => Some words
  | s :: l =>
      if visited f s then None
      else mark_loop l f (foldl (λ words info, u64bitset_set words (N.to_nat (egii_to info))) words
             (group_loop (st_edges (get_state f s))))
  end.

Definition mark_states_reachable_by_label (f : fsm) (words : list N) : option (list N) :=
  match fsm_getstart f with
  | None => Some words
  | Some start => mark_loop (live_ids f) f (u64bitset_set words (N.to_nat start))
  end.

(** ** Copying a closure *)

(** The loop over the groups of [es], which are read again at every step since
    [es] may be [s]. [None] when [fuel] steps are not enough. *)
Fixpoint copy_groups (fuel : nat) (egi : edge_group_iter) (es s : N) (f : fsm) : option (bool * fsm) :=
  match fuel with
  | 0 => None
  | S fuel =>
      let egi := {| egi_set := st_edges (get_state f es); egi_flag := egi_flag egi;
        egi_i := egi_i egi; egi_internal := egi_internal egi |} in
      match edge_set_group_iter_next egi with
      | None => Some (true, f)
      | Some (info, egi) =>
          let '(ok, p) := edge_set_add_bulk (st_edges (get_state f s)) (f_alloc f) (egii_symbols info) (egii_to info) in
          let f := upd_state f s (set_edges p) in
          if ok then copy_groups fuel egi es s f else Some (false, f)
      end
  end.

(** One state [es] of the closure [cl] of [s]. *)
Definition copy_state (f : fsm) (cl : state_set) (s es : N) (buf : eager_output_buf)
    : option (bool * fsm * eager_output_buf) :=
  '(ok, f) ← (if fsm_isend f es then carry_endids (fsm_setend f s true) cl s else Some (true, f));
  if (ok : bool) then
    let buf :=
      if 0 <? fsm_eager_output_count (f_eager_output_info f) es then
        fsm_eager_output_iter_state (f_eager_output_info f) es (collect_eager_output_ids_cb (f_alloc f)) buf
      else buf in
    if eb_ok buf then
      let p := st_edges (get_state f es) in
      '(ok, f) ← copy_groups (S (length (set_groups p))) (edge_set_group_iter_reset p EDGE_GROUP_ITER_ALL) es s f;
      Some (ok, f, buf)
    else Some (false, f, buf)
  else Some (false, f, buf).

Fixpoint copy_closure (l : list N) (f : fsm) (cl : state_set) (s : N) (buf : eager_output_buf)
    : option (bool * fsm * eager_output_buf) :=
  match l with
  | [] => Some (true, f, buf)
  | es :: l =>
      '(ok, f, buf) ← copy_state f cl s es buf;
      if (ok : bool) then copy_closure l f cl s buf else Some (false, f, buf)
  end.

(** The ids collected for [s]. *)
Fixpoint set_eager_ids (ids : list N) (f : fsm) (s : N) : option (bool * fsm) :=
  match ids with
  | [] => Some (true, f)
  | id :: ids =>
      '(ok, f) ← eager_set f s id;
      if (ok : bool) then set_eager_ids ids f s else Some (false, f)
  end.

(** The loop over the states. *)
Fixpoint remove_loop (l : list N) (f : fsm) (closures : list state_set) (words : list N) (start : N)
    (buf : eager_output_buf) : option (bool * fsm) :=
  match l with
  | [] => Some (true, f)
  | s :: l =>
      if negb (bs_get words (N.to_nat s)) && negb (s =? start)%N then
        remove_loop l f closures words start buf
      else
        let cl := closures !!! N.to_nat s in
        '(ok, f, buf) ← copy_closure (state_loop cl) f cl s buf;
        if (ok : bool) then
          '(ok, f) ← set_eager_ids (eb_ids buf) f s;
          if (ok : bool) then
            remove_loop l f closures words start (mk_eager_buf (eb_ok buf) (eb_ceil buf) [])
          else Some (false, f)
        else Some (false, f)
  end.

(** ** Capture actions *)

Definition add_pending_capture_action (al : fsm_alloc) (env : remap_env) (state : N)
    (type : capture_action_type) (capture_id to : N) : bool * remap_env :=
  let '(ok, env) :=
    if length (re_actions env) =? re_ceil env then
      let nceil := if re_ceil env =? 0 then DEF_PENDING_CAPTURE_ACTIONS_CEIL else 2 * re_ceil env in
      if f_realloc al (N.of_nat nceil * 16) then (true, mk_remap_env (re_ok env) nceil (re_actions env))
      else (false, env)
    else (true, env) in
  if ok then
    (true, mk_remap_env (re_ok env) (re_ceil env) (re_actions env ++ [(state, mk_action capture_id type to)]))
  else (false, env).

(** The inner loop of the callback: its iterator is set on [rmap[to]], but the
    loop advances the iterator of the outer loop, whose remaining states are [l]. *)
Fixpoint remap_inner (al : fsm_alloc) (l : list N) (a : fsm_capture_action) (env : remap_env) : bool * remap_env :=
  match l with
  | [] => (true, env)
  | si_tos :: l =>
      let '(ok, env) := add_pending_capture_action al env si_tos (ca_type a) (ca_id a) (ca_to a) in
      if ok then remap_inner al l a env else (false, env)
  end.

Fixpoint remap_outer (al : fsm_alloc) (l : list N) (a : fsm_capture_action) (env : remap_env) : bool * remap_env :=
  match l with
  | [] => (true, env)
  | si_s :: l =>
      let '(ok, env) := add_pending_capture_action al env si_s (ca_type a) (ca_id a) (ca_to a) in
      if ok then
        if (ca_to a =? CAPTURE_NO_STATE)%N then remap_outer al l a env
        else remap_inner al l a env (* the iterator of this loop is then at its end *)
      else (false, env)
  end.

Definition remap_capture_action_cb (al : fsm_alloc) (rmap : list state_set) (state : N) (a : fsm_capture_action)
    (env : remap_env) : bool * remap_env :=
  let '(ok, env) := remap_outer al (state_loop (rmap !!! N.to_nat state)) a env in
  if ok then (true, env) else (false, mk_remap_env false (re_ceil env) (re_actions env)).

Fixpoint remap_iter (al : fsm_alloc) (rmap : list state_set) (l : list (N * fsm_capture_action)) (env : remap_env)
    : remap_env :=
  match l with
  | [] => env
  | (s, a) :: l =>
      let '(ok, env) := remap_capture_action_cb al rmap s a env in
      if ok then remap_iter al rmap l env else env
  end.

(** The reverse mapping. *)
Fixpoint rmap_add (al : fsm_alloc) (l : list N) (s : N) (rmap : list state_set) : bool * list state_set :=
  match l with
  | [] => (true, rmap)
  | si_s :: l =>
      if (si_s =? s)%N then rmap_add al l s rmap
      else
        let '(ok, c) := state_set_add (rmap !!! N.to_nat si_s) al s in
        let rmap := <[N.to_nat si_s := c]> rmap in
        if ok then rmap_add al l s rmap else (false, rmap)
  end.

Fixpoint build_rmap (al : fsm_alloc) (l : list N) (closures rmap : list state_set) : bool * list state_set :=
  match l with
  | [] => (true, rmap)
  | s :: l =>
      let cl := closures !!! N.to_nat s in
      if is_null cl then build_rmap al l closures rmap
      else
        let '(ok, rmap) := rmap_add al (state_loop cl) s rmap in
        if ok then build_rmap al l closures rmap else (false, rmap)
  end.

(** The result of the callbacks, [env.ok], is not tested. *)
Definition remap_capture_actions (f : fsm) (closures : list state_set) : option (bool * fsm) :=
  if f_calloc (f_alloc f) (N.of_nat (f_statecount f)) 8 then
    let '(ok, rmap) := build_rmap (f_alloc f) (live_ids f) closures (replicate (f_statecount f) SSNull) in
    if ok then
      let env := remap_iter (f_alloc f) rmap (fsm_capture_action_iter (f_capture_info f)) (mk_remap_env true 0 []) in
      add_actions (re_actions env) f
    else Some (false, f)
  else Some (false, f).

(** ** The whole function *)

Definition fsm_remove_epsilons (f : fsm) : option (bool * fsm) :=
  '(closures, f) ← epsilon_closure f;
  match closures with
  | None => Some (false, f)
  | Some closures =>
      let state_words := u64bitset_words (f_statecount f) in
      if f_calloc (f_alloc f) (N.of_nat state_words) 8 then
        words ← mark_states_reachable_by_label f (replicate state_words 0%N);
        match fsm_getstart f with
        | None => Some (false, f)
        | Some start =>
            '(ok, f) ← remove_loop (live_ids f) f closures words start (mk_eager_buf true 0 []);
            if (ok : bool) then
              let f := foldl (λ f s, upd_state f s (set_epsilons SSNull)) f (live_ids f) in
              remap_capture_actions f closures
            else Some (false, f)
        end
      else Some (false, f)
  end.
End Ops.
