(* ===== verification/EpsilonsSpec.v ===== *)
(** * What [fsm_remove_epsilons] computes

    What can be observed at a state (its edges, whether it is an end state, its
    end ids and eager outputs) is gathered in one relation. Every step of the
    function adds observations to one state; an observation added to a state is
    always one of a state of its epsilon closure, so that the order in which
    the states are handled does not matter. *)

From S2P Require Import Prelude StateSet Bits EdgeSet EdgeIter EdgeCompact Probe Endids EagerOutput.
From S2P Require Import Lang Fsm FsmSpec Queue Search FsmCompact FsmInv Pred Trim Capture Combine Closure Epsilons.

Inductive observation := OEdge (c : nat) (t : N) | OEnd | OEndid (x : N) | OEager (x : N).

Definition observes (f : fsm) (s : N) (o : observation) : Prop :=
  live f s ∧
  match o with
  | OEdge c t => has_edge (st_edges (get_state f s)) c t
  | OEnd => fsm_isend f s = true
  | OEndid x => x ∈ endids (f_endid_info f) s
  | OEager x => x ∈ eager_outputs (f_eager_output_info f) s
  end.

(** What is observed in the epsilon closure of a state. *)
Definition lifted (f : fsm) (s : N) (o : observation) : Prop := ∃ e, rtc (f_eps f) s e ∧ observes f e o.

(** The fields that copying a closure does not change. *)
Definition keeps_frame (f g : fsm) : Prop :=
  f_statecount g = f_statecount f ∧ f_alloc g = f_alloc f ∧ fsm_getstart g = fsm_getstart f ∧
  f_capture_info g = f_capture_info f ∧ f_linkage_info g = f_linkage_info f ∧
  ∀ s, live f s → st_epsilons (get_state g s) = st_epsilons (get_state f s).

#[export] Instance keeps_frame_preorder : PreOrder keeps_frame.
Proof.
  split.
  - intros f. by repeat split.
  - intros f g h (H1 & H2 & H3 & H4 & H5 & H6) (K1 & K2 & K3 & K4 & K5 & K6).
    do 5 (split; [congruence|]). intros s Hs. rewrite K6, H6; [done|done|]. unfold live in *. by rewrite H1.
Qed.

Lemma keeps_frame_live f g s : keeps_frame f g → live g s ↔ live f s.
Proof. intros (H1 & _). unfold live. by rewrite H1. Qed.

(** [g'] is [g] with the observations [P] added to the state [s]. *)
Record gains (s : N) (P : observation → Prop) (g g' : fsm) : Prop := {
  gn_inv : fsm_inv g';
  gn_endid : endid_wf (f_endid_info g');
  gn_frame : keeps_frame g g';
  gn_obs : ∀ t o, observes g' t o ↔ observes g t o ∨ (t = s ∧ P o);
}.

Lemma gains_refl s g : fsm_inv g → endid_wf (f_endid_info g) → gains s (λ _, False) g g.
Proof. intros Hi He. split; [done|done|done|]. naive_solver. Qed.

Lemma gains_trans s P Q g g' g'' :
  gains s P g g' → gains s Q g' g'' → gains s (λ o, P o ∨ Q o) g g''.
Proof.
  intros [H1 H2 H3 H4] [K1 K2 K3 K4]. split; [done|done|by etrans|].
  intros t o. rewrite K4, H4. tauto.
Qed.

Lemma gains_iff s P Q g g' : (∀ o, P o ↔ Q o) → gains s P g g' → gains s Q g g'.
Proof.
  intros E [H1 H2 H3 H4]. split; [done|done|done|]. intros t o. by rewrite H4, E.
Qed.

(** ** One step *)

Section Steps.
Context `{allocator, !alloc_total}.

Lemma gains_set_edges g s p (new : nat → N → Prop) :
  fsm_inv g → endid_wf (f_endid_info g) → live g s → edge_set_wf p → (∀ k, k ∈ edge_keys p → live g k) → blank_zero p →
  (∀ c t, has_edge p c t ↔ has_edge (st_edges (get_state g s)) c t ∨ new c t) →
  gains s (λ o, ∃ c t, o = OEdge c t ∧ new c t) g (upd_state g s (set_edges p)).
Proof.
  intros Hi He Hs Hw Hk Hb Ha. pose proof (inv_wf _ Hi) as Hwf.
  assert (N.to_nat s < length (f_states g)) as Hl by (pose proof (wf_alloc _ Hwf); unfold live in Hs; lia).
  assert (fsm_inv (upd_state g s (set_edges p))) as Hi'.
  { apply inv_upd; [done|done| |done|done].
    apply fsm_wf_upd; [done|done| |done]. destruct (wf_states _ Hwf s Hs) as (S1 & S2 & S3 & S4). by split_and!. }
  split; [done|done| |].
  - do 5 (split; [done|]). intros t _. rewrite get_upd by done. by case_decide; subst.
  - intros t o. unfold observes, fsm_isend. change (live (upd_state g s (set_edges p)) t) with (live g t).
    rewrite get_upd by done. destruct (decide (t = s)) as [->|Hne].
    + destruct o as [c' t'| |x|x]; cbn.
      * rewrite Ha. naive_solver.
      * split; [by left|]. intros [?|(_ & c' & t' & [=] & _)]. done.
      * split; [by left|]. intros [?|(_ & c' & t' & [=] & _)]. done.
      * split; [by left|]. intros [?|(_ & c' & t' & [=] & _)]. done.
    + split; [by left|]. intros [?|[? _]]; done.
Qed.

Lemma gains_upd_edges g s p al symbols to :
  fsm_inv g → endid_wf (f_endid_info g) → live g s → live g to → words_ok 4 symbols →
  (∃ c, c < 256 ∧ bs_get symbols c = true) →
  edge_set_add_bulk (st_edges (get_state g s)) al symbols to = (true, p) →
  gains s (λ o, ∃ c, o = OEdge c to ∧ bs_get symbols c = true) g (upd_state g s (set_edges p)).
Proof.
  intros Hi He Hs Ht Hw (c & Hc & Hcs) E. pose proof (inv_wf _ Hi) as Hwf.
  pose proof (edge_set_add_bulk_spec _ _ _ _ _ _ (wf_edges g s Hwf Hs) Hw (live_lt32 g to Hwf Ht) E) as [W Ha].
  eapply gains_iff; [|apply (gains_set_edges g s p (λ c t, t = to ∧ bs_get symbols c = true)); try done].
  - intros o. naive_solver.
  - intros k [Hk| ->]%(edge_set_add_bulk_keys _ _ _ _ _ _ _ E); [|done]. destruct (wf_states _ Hwf s Hs) as (_ & _ & S3 & _). by apply S3.
  - intros k [Hk| ->]%(edge_set_add_bulk_keys _ _ _ _ _ _ _ E).
    + destruct (inv_blanks _ Hi s Hs k Hk) as [->|[sym Hsym]]; [by left|]. right. exists sym. apply Ha. by left.
    + right. exists c. apply Ha. by right.
Qed.

Lemma gains_setend g s :
  fsm_inv g → endid_wf (f_endid_info g) → live g s → gains s (λ o, o = OEnd) g (fsm_setend g s true).
Proof.
  intros Hi He Hs. pose proof (inv_wf _ Hi) as Hwf. pose proof (same_frame_setend g s true) as [Hfr _].
  assert (N.to_nat s < length (f_states g)) as Hl by (pose proof (wf_alloc _ Hwf); unfold live in Hs; lia).
  pose proof (inv_setend g s true Hi Hs) as Hi'.
  destruct (fsm_setend_spec g s true Hwf Hs) as (_ & _ & C1 & C2 & [C3 C4] & C5).
  assert (f_endid_info (fsm_setend g s true) = f_endid_info g ∧
    f_eager_output_info (fsm_setend g s true) = f_eager_output_info g ∧
    f_capture_info (fsm_setend g s true) = f_capture_info g ∧
    f_linkage_info (fsm_setend g s true) = f_linkage_info g) as (D1 & D2 & D3 & D4)
    by (unfold fsm_setend; by destruct (eqb _ _)).
  split; [done|by rewrite D1| |].
  - split; [done|]. split; [done|]. split; [unfold fsm_getstart; by rewrite C3, C4|].
    split; [done|]. split; [done|]. intros t _. apply C5.
  - intros t o. unfold observes, fsm_isend. rewrite D1, D2.
    assert (live (fsm_setend g s true) t ↔ live g t) as -> by (unfold live; by rewrite C1).
    rewrite get_state_setend by done. destruct (decide (t = s)) as [->|Hne].
    + destruct o; cbn; naive_solver.
    + split; [by left|]. intros [?|[? _]]; done.
Qed.

(** The entries of the table are states, so there is always room. *)
Lemma endid_room_states g :
  fsm_meta g → endid_wf (f_endid_info g) → (N.of_nat (f_statecount g) < 1073741824)%N → endid_room (f_endid_info g).
Proof.
  intros (_ & _ & M3 & _) He Hn. unfold endid_room. pose proof He as (Hok & _ & <- & _).
  enough (length (entries (ei_buckets (f_endid_info g))) ≤ f_statecount g) by lia.
  rewrite <-(length_fmap fst), <-(length_seq (f_statecount g) 0), <-(length_fmap N.of_nat).
  apply submseteq_length, NoDup_submseteq; [by apply NoDup_keys|].
  intros k ([k' e] & -> & Hin%elem_of_entries)%list_elem_of_fmap. apply M3 in Hin. cbn. unfold live in Hin.
  apply list_elem_of_fmap. exists (N.to_nat k'). split; [lia|]. apply elem_of_seq. lia.
Qed.

Lemma gains_endid g s id :
  fsm_inv g → endid_wf (f_endid_info g) → (N.of_nat (f_statecount g) < 1073741824)%N → live g s → id_ok id →
  ∃ ei, fsm_endid_set (f_alloc g) (f_endid_info g) s id = Some (true, ei) ∧
    gains s (λ o, o = OEndid id) g (with_endid_info g ei).
Proof.
  intros Hi He Hn Hs Hid. pose proof (endid_room_states g (inv_meta _ Hi) He Hn) as Hr.
  destruct (fsm_endid_set_spec (f_alloc g) (f_endid_info g) s id He Hr (live_bucket _ _ (inv_wf _ Hi) Hs) Hid) as (b & ei & E & W & K1 & K2 & _ & Hb).
  rewrite (Hb ltac:(done)) in E, K2. exists ei. split; [done|].
  destruct (inv_endid_set g s id true ei Hi He Hr Hs Hid E) as [Hi' _]. split; [done|done| |].
  - by repeat split.
  - intros t o. unfold observes. change (live (with_endid_info g ei) t) with (live g t).
    change (fsm_isend (with_endid_info g ei) t) with (fsm_isend g t).
    destruct (decide (t = s)) as [->|Hne].
    + destruct o as [| |x|]; cbn; [naive_solver|naive_solver| |naive_solver].
      rewrite (K2 eq_refl). naive_solver.
    + destruct o as [| |x|]; cbn; [naive_solver|naive_solver| |naive_solver]. rewrite K1 by done. naive_solver.
Qed.

Lemma eager_used_present al info state id b info' mark :
  eager_wf info → eager_room info → eager_outputs info state ≠ [] →
  fsm_eager_output_set al info state id = Some (b, info', mark) → eo_buckets_used info' = eo_buckets_used info.
Proof.
  intros Hwf Hroom Hne. unfold fsm_eager_output_set.
  assert (∃ ok info1, (if length (eo_buckets info) / 2 <=? eo_buckets_used info then grow_htab al info
      else Some (true, info)) = Some (ok, info1) ∧ eo_buckets_used info1 = eo_buckets_used info ∧ eager_wf info1 ∧
      ∀ k e, Some (k, e) ∈ eo_buckets info1 ↔ Some (k, e) ∈ eo_buckets info) as (ok & info1 & -> & Hu & Hw1 & Hin).
  { destruct (_ <=? _) eqn:E; split_bool; [|by eexists _, _].
    destruct (grow_htab_spec al info Hwf Hroom E) as (ok & info1 & Hg & ? & ? & ? & _). eauto 10. }
  cbn [mbind option_bind]. destruct ok; [|intros; by simplify_eq].
  unfold eager_outputs in Hne. destruct (table_get (eo_buckets info) state) as [e|] eqn:Eg; [|done].
  apply table_get_spec in Eg; [|apply Hwf]. apply Hin, list_elem_of_lookup in Eg as [j Hj].
  rewrite (probe_found _ _ _ _ (proj1 Hw1) Hj). destruct (entry_add al e id) as [[[ok e'] m]|]; [|done].
  intros [= _ <- _]. done.
Qed.

Lemma gains_eager g s id :
  fsm_inv g → endid_wf (f_endid_info g) → eager_room (f_eager_output_info g) → live g s → id_ok id →
  ∃ g', eager_set g s id = Some (true, g') ∧ gains s (λ o, o = OEager id) g g' ∧
    eo_buckets_used (f_eager_output_info g') ≤ eo_buckets_used (f_eager_output_info g) + 1 ∧
    (eager_outputs (f_eager_output_info g) s ≠ [] →
      eo_buckets_used (f_eager_output_info g') = eo_buckets_used (f_eager_output_info g)) ∧
    eager_outputs (f_eager_output_info g') s ≠ [].
Proof.
  intros Hi He Hr Hs Hid. pose proof (inv_meta _ Hi) as (_ & M2 & _).
  destruct (fsm_eager_output_set_spec (f_alloc g) (f_eager_output_info g) s id M2 Hr Hid)
    as (b & eo & mark & E & W & K1 & K2 & _ & Hb).
  rewrite (Hb ltac:(done)) in E, K2. destruct (K2 eq_refl) as [K3 K4]. clear K2.
  destruct (eager_set g s id) as [[b' g']|] eqn:Eg.
  2:{ unfold eager_set in Eg. by rewrite E in Eg. }
  pose proof (inv_eager_set g s id b' g' Hi Hr Hs Hid Eg) as Hi'.
  destruct (eager_set_core _ _ _ _ _ Eg) as (Hc & E1 & E2 & mark' & E3). rewrite E in E3. injection E3 as <- -> <-.
  assert (f_linkage_info g' = f_linkage_info g) as E4.
  { unfold eager_set in Eg. rewrite E in Eg. cbn [mbind option_bind] in Eg. by destruct mark; injection Eg as <-. }
  pose proof Hc as (C1 & C2 & _ & _ & C5 & C6 & C7).
  assert (∀ x, x ∈ eager_outputs (f_eager_output_info g') s ↔ x ∈ eager_outputs (f_eager_output_info g) s ∨ x = id) as Hx.
  { intros x. rewrite K3. destruct mark; [rewrite elem_of_app, list_elem_of_singleton; done|].
    split; [by left|]. intros [?| ->]; [done|by apply K4]. }
  exists g'. split; [done|]. split; [split|].
  - done.
  - by rewrite E1.
  - split; [done|]. split; [done|]. split; [unfold fsm_getstart; by rewrite C5, C6|]. split; [done|].
    split; [done|]. intros t _. apply C7.
  - intros t o. unfold observes, fsm_isend. destruct (C7 t) as (-> & _ & -> & _). rewrite E1, (same_core_live _ _ _ Hc).
    destruct (decide (t = s)) as [->|Hne].
    + destruct o as [| | |x]; cbn; [naive_solver..|]. rewrite Hx. naive_solver.
    + destruct o as [| | |x]; cbn; [naive_solver..|]. rewrite K1 by done. naive_solver.
  - split; [by eapply fsm_eager_output_set_used|]. split.
    + intros Hne. eapply eager_used_present; [exact M2|exact Hr|exact Hne|exact E].
    + assert (id ∈ eager_outputs (f_eager_output_info g') s) as Hin by (apply Hx; by right).
      intros Hnil. rewrite Hnil in Hin. by apply not_elem_of_nil in Hin.
Qed.
End Steps.

(** ** Copying the edges of a state *)

Lemma words_or_diag l : words_or l l = l.
Proof. unfold words_or. induction l as [|x l IH]; simpl; [done|]. by rewrite IH, N.lor_diag. Qed.

(** Adding a group to the set it is in changes nothing. *)
Lemma edge_set_add_bulk_self `{allocator} s al g :
  edge_set_wf (Some s) → g ∈ es_groups s →
  edge_set_add_bulk (Some s) al (eg_symbols g) (eg_to g) = (true, Some s).
Proof.
  intros (Hg & Hlen & Hpos) Hin. unfold edge_set_add_bulk. rewrite find_state_position_spec by done.
  rewrite bool_decide_eq_true_2 by (by apply list_elem_of_fmap_2). f_equal. f_equal.
  destruct (lookup_lower_bound (eg_to <$> es_groups s) (eg_to g)) as [_ Hlb]; [apply Hg|].
  specialize (Hlb ltac:(by apply list_elem_of_fmap_2)). set (i := lower_bound _ _) in *.
  rewrite list_lookup_fmap in Hlb. destruct (es_groups s !! i) as [g'|] eqn:Ei; simplify_eq/=.
  assert (g' = g) as ->.
  { apply list_elem_of_lookup in Hin as [j Hj]. destruct Hg as [Hinc _].
    assert (j = i) as ->; [|congruence].
    eapply (NoDup_lookup (eg_to <$> es_groups s)); [by apply increasing_NoDup| |].
    - by rewrite list_lookup_fmap, Hj.
    - rewrite list_lookup_fmap, Ei. cbn. congruence. }
  destruct s as [gs ceil]. cbn in *. f_equal. apply list_eq. intros j.
  destruct (decide (i = j)) as [<-|Hne]; [|by rewrite list_lookup_alter_ne].
  rewrite list_lookup_alter_eq, Ei. cbn. f_equal. unfold group_or. destruct g as [syms to]. cbn. by rewrite words_or_diag.
Qed.

Section Copy.
Context `{allocator, !alloc_total}.

Lemma copy_groups_loop es s p fuel : ∀ egi g,
  fsm_inv g → endid_wf (f_endid_info g) → live g s → live g es →
  egi_set egi = p → st_edges (get_state g es) = p → egi_flag egi ≤ 2 → egi_i egi ≤ length (set_groups p) →
  length (infos_from egi) < fuel →
  (∀ info, info ∈ infos_from egi → ∃ gr, gr ∈ set_groups p ∧ info = all_info gr ∧ any_word (eg_symbols gr) = true) →
  ∃ g', copy_groups fuel egi es s g = Some (true, g') ∧
    gains s (λ o, ∃ info c, info ∈ infos_from egi ∧ o = OEdge c (egii_to info) ∧ bs_get (egii_symbols info) c = true) g g' ∧
    f_eager_output_info g' = f_eager_output_info g.
Proof.
  induction fuel as [|fuel IH]; intros egi g Hi He Hs Hes Hset Hp Hf Hle Hlen Hall; [lia|]. cbn [copy_groups].
  assert ({| egi_set := st_edges (get_state g es); egi_flag := egi_flag egi; egi_i := egi_i egi;
    egi_internal := egi_internal egi |} = egi) as -> by (rewrite Hp, <-Hset; by destruct egi).
  pose proof (group_iter_advance_spec (S (length (set_groups p))) p (egi_internal egi) (egi_flag egi) (egi_i egi) Hf Hle ltac:(lia)) as Hadv.
  assert (egi_at p (egi_internal egi) (egi_flag egi) (egi_i egi) = egi) as E by (rewrite <-Hset; by destruct egi).
  rewrite E in Hadv. unfold edge_set_group_iter_next. rewrite Hset.
  destruct (group_iter_advance _ egi) as [[info egi']|].
  2:{ exists g. split; [done|]. split; [|done]. eapply gains_iff; [|by apply gains_refl]. intros o.
      split; [done|]. intros (info & c & Hin & _). cbn in Hadv. rewrite Hadv in Hin. by apply not_elem_of_nil in Hin. }
  destruct Hadv as (Heq & Hf' & Hset' & Hle'). rewrite Hset in Hset', Hle'. rewrite Heq in *. simpl in Hlen.
  destruct (Hall info ltac:(left)) as (gr & Hgr & -> & Hany). cbn [egii_symbols egii_to all_info].
  pose proof (inv_wf _ Hi) as Hwf. pose proof (wf_edges g es Hwf Hes) as Hwe. rewrite Hp in Hwe.
  destruct p as [ps|]; [|by apply not_elem_of_nil in Hgr]. cbn in Hgr.
  assert (group_ok gr) as [Hok _] by (destruct Hwe as ([_ Hfa] & _); by apply (proj1 (Forall_forall _ _) Hfa)).
  assert (live g (eg_to gr)) as Hto.
  { destruct (wf_states _ Hwf es Hes) as (_ & _ & Hk & _). apply Hk. rewrite Hp. by apply list_elem_of_fmap_2. }
  apply any_word_spec in Hany as [c0 Hc0]; [|done].
  destruct (edge_set_add_bulk (st_edges (get_state g s)) (f_alloc g) (eg_symbols gr) (eg_to gr)) as [ok p'] eqn:Ea.
  pose proof (edge_set_add_bulk_total (st_edges (get_state g s)) (f_alloc g) (eg_symbols gr) (eg_to gr)) as Ht.
  rewrite Ea in Ht. cbn in Ht. subst ok.
  assert (gains s (λ o, ∃ c, o = OEdge c (eg_to gr) ∧ bs_get (eg_symbols gr) c = true) g (upd_state g s (set_edges p'))) as Hg.
  { eapply gains_upd_edges; [done|done|done|done|done| |exact Ea]. exists c0. split; [|done].
    destruct (decide (c0 < 256)) as [|Hge]; [done|]. rewrite bs_get_ge in Hc0; [done|]. destruct Hok as [-> _].
    apply Nat.div_le_lower_bound; lia. }
  assert (N.to_nat s < length (f_states g)) as Hl by (pose proof (wf_alloc _ Hwf); unfold live in Hs; lia).
  destruct (IH egi' (upd_state g s (set_edges p'))) as (g' & E' & Hg' & Heo).
  - apply Hg.
  - apply Hg.
  - done.
  - done.
  - done.
  - rewrite get_upd by done. case_decide as Hd; [|done]. subst es. cbn. rewrite Hp in Ea.
    rewrite edge_set_add_bulk_self in Ea by done. by injection Ea as <-.
  - done.
  - done.
  - lia.
  - intros info Hin. apply Hall. by right.
  - exists g'. split; [done|]. split; [|by rewrite Heo].
    eapply gains_iff; [|eapply gains_trans; [exact Hg|exact Hg']]. intros o. split.
    + intros [(c & -> & Hc)|(info & c & Hin & -> & Hc)].
      * exists (all_info gr), c. split; [left|done].
      * exists info, c. split; [by right|done].
    + intros (info & c & [->|Hin]%elem_of_cons & -> & Hc); [left; by exists c|right; by exists info, c].
Qed.

Lemma copy_groups_spec es s g :
  fsm_inv g → endid_wf (f_endid_info g) → live g s → live g es →
  ∃ g', copy_groups (S (length (set_groups (st_edges (get_state g es)))))
      (edge_set_group_iter_reset (st_edges (get_state g es)) EDGE_GROUP_ITER_ALL) es s g = Some (true, g') ∧
    gains s (λ o, ∃ c t, o = OEdge c t ∧ has_edge (st_edges (get_state g es)) c t) g g' ∧
    f_eager_output_info g' = f_eager_output_info g.
Proof.
  intros Hi He Hs Hes. set (p := st_edges (get_state g es)).
  assert (infos_from (edge_set_group_iter_reset p EDGE_GROUP_ITER_ALL) = group_loop p) as Einf.
  { rewrite group_loop_infos. unfold infos_from. cbn [edge_set_group_iter_reset egi_i egi_set egi_flag]. by rewrite drop_0. }
  destruct (copy_groups_loop es s p (S (length (set_groups p))) (edge_set_group_iter_reset p EDGE_GROUP_ITER_ALL) g)
    as (g' & E & Hg & Heo); try done.
  - cbn. lia.
  - cbn. lia.
  - rewrite Einf, group_loop_infos, length_fmap.
    pose proof (length_filter (λ g, any_word (eg_symbols g) = true) (set_groups p)). lia.
  - intros info. rewrite Einf, group_loop_infos. intros (gr & -> & [Ha Hin]%list_elem_of_filter)%list_elem_of_fmap. eauto.
  - exists g'. split; [done|]. split; [|done]. eapply gains_iff; [|exact Hg]. intros o. rewrite Einf.
    pose proof (wf_edges g es (inv_wf _ Hi) Hes) as Hwe. fold p in Hwe. split.
    + intros (info & c & Hin & -> & Hc). exists c, (egii_to info). split; [done|].
      apply group_loop_spec; [done|]. eauto.
    + intros (c & t & -> & Hh). apply group_loop_spec in Hh as (info & Hin & <- & Hc); [|done]. eauto.
Qed.
End Copy.

(** ** Collecting ids *)

Lemma endid_iter_state {E} ei state cb (env : E) :
  state ≠ BUCKET_NO_STATE → fsm_endid_iter_state ei state cb env = Some (iter_ids cb state (endids ei state) env).2.
Proof.
  intros Hno. unfold fsm_endid_iter_state, endids, table_get. rewrite (proj2 (N.eqb_neq _ _) Hno). by destruct (probe (ei_buckets ei) state) as [[i [e|]]|].
Qed.

Section Collect.
Context `{allocator, !alloc_total}.

Lemma collect_cb_total al state id env :
  ∃ ceil, collect_cb al state id env = (true, mk_collect (ce_ok env) ceil (ce_ids env ++ [id])).
Proof.
  unfold collect_cb. rewrite f_realloc_total. destruct (_ =? _); cbn; by eexists.
Qed.

Lemma iter_ids_collect al state ids : ∀ env,
  ∃ ceil, (iter_ids (collect_cb al) state ids env).2 = mk_collect (ce_ok env) ceil (ce_ids env ++ ids).
Proof.
  induction ids as [|id ids IH]; intros env; cbn [iter_ids].
  { exists (ce_ceil env). rewrite app_nil_r. by destruct env. }
  destruct (collect_cb_total al state id env) as [ceil ->].
  destruct (IH (mk_collect (ce_ok env) ceil (ce_ids env ++ [id]))) as [ceil' ->]. exists ceil'. cbn.
  by rewrite <-(assoc app).
Qed.

Lemma collect_endids_spec f l : Forall (λ e, e ≠ BUCKET_NO_STATE) l → ∀ env,
  ce_ok env = true → ∃ env', collect_endids l f env = Some env' ∧ ce_ok env' = true ∧
  ∀ x, x ∈ ce_ids env' ↔
    x ∈ ce_ids env ∨ ∃ e, e ∈ l ∧ fsm_isend f e = true ∧ x ∈ endids (f_endid_info f) e.
Proof.
  induction l as [|e l IH]; intros Hl env Hok; cbn [collect_endids].
  { exists env. split; [done|]. split; [done|]. intros x. split; [by left|]. intros [?|(e & He%not_elem_of_nil & _)]; done. }
  apply Forall_cons in Hl as [Hno Hl]. specialize (IH Hl). destruct (fsm_isend f e) eqn:Ee.
  - rewrite endid_iter_state by done. cbn [mbind option_bind]. destruct (iter_ids_collect (f_alloc f) e (endids (f_endid_info f) e) env) as [ceil ->].
    cbn [ce_ok]. rewrite Hok. destruct (IH (mk_collect true ceil (ce_ids env ++ endids (f_endid_info f) e)) eq_refl) as (env' & E & I1 & I2).
    exists env'. split; [exact E|]. split; [done|]. intros x. rewrite I2. cbn [ce_ids]. rewrite elem_of_app. setoid_rewrite elem_of_cons. naive_solver.
  - destruct (IH env Hok) as (env' & E & I1 & I2). exists env'. split; [exact E|]. split; [done|]. intros x. rewrite I2. setoid_rewrite elem_of_cons.
    split; [naive_solver|]. intros [?|(e' & [->|Hin] & H1 & H2)]; [by left|congruence|right; eauto].
Qed.

Lemma add_endids_spec s ids : Forall id_ok ids → ∀ g,
  fsm_inv g → endid_wf (f_endid_info g) → (N.of_nat (f_statecount g) < 1073741824)%N → live g s →
  ∃ g', add_endids ids g s = Some (true, g') ∧ gains s (λ o, ∃ x, x ∈ ids ∧ o = OEndid x) g g' ∧
    f_eager_output_info g' = f_eager_output_info g ∧ f_states g' = f_states g.
Proof.
  induction ids as [|id ids IH]; intros Hall g Hi He Hn Hs; cbn [add_endids].
  { exists g. split; [done|]. split; [|done]. eapply gains_iff; [|by apply gains_refl].
    intros o. split; [done|]. by intros (x & Hx%not_elem_of_nil & _). }
  apply Forall_cons in Hall as [Hid Hall]. destruct (gains_endid g s id Hi He Hn Hs Hid) as (ei & -> & Hg). cbn [mbind option_bind].
  destruct (IH Hall (with_endid_info g ei)) as (g' & E & Hg' & Heo & Hst); [apply Hg|apply Hg|done|done|].
  exists g'. split; [done|]. split; [|by rewrite Heo, Hst]. eapply gains_iff; [|eapply gains_trans; [exact Hg|exact Hg']].
  intros o. setoid_rewrite elem_of_cons. naive_solver.
Qed.

Lemma carry_endids_spec g cl s :
  fsm_inv g → endid_wf (f_endid_info g) → (N.of_nat (f_statecount g) < 1073741824)%N → live g s →
  Forall (λ e, e ≠ BUCKET_NO_STATE) (state_loop cl) →
  ∃ g', carry_endids g cl s = Some (true, g') ∧
    gains s (λ o, ∃ e x, e ∈ state_loop cl ∧ fsm_isend g e = true ∧ x ∈ endids (f_endid_info g) e ∧ o = OEndid x) g g' ∧
    f_eager_output_info g' = f_eager_output_info g ∧ f_states g' = f_states g.
Proof.
  intros Hi He Hn Hs Hcl. unfold carry_endids. rewrite f_malloc_total.
  destruct (collect_endids_spec g (state_loop cl) Hcl (mk_collect true DEF_CARRY_ENDIDS_COUNT []) eq_refl) as (env & -> & Ho & Hc).
  cbn [mbind option_bind]. rewrite Ho. set (ids := ce_ids env) in *. assert (Forall id_ok ids) as Hall.
  { apply Forall_forall. intros x [?%not_elem_of_nil|(e & _ & _ & Hx)]%Hc; [done|]. eapply endids_ok; [by apply endid_wf_weak|exact Hx]. }
  destruct (add_endids_spec s ids Hall g Hi He Hn Hs) as (g' & E & Hg & Heo). exists g'. split; [exact E|]. split; [|done].
  eapply gains_iff; [|exact Hg]. intros o. setoid_rewrite Hc. cbn [ce_ids]. split.
  - intros (x & [Hx%not_elem_of_nil|(e & H1 & H2 & H3)] & ->); [done|]. eauto 10.
  - intros (e & x & H1 & H2 & H3 & ->). exists x. split; [|done]. right. eauto.
Qed.

Lemma append_eager_total al buf id :
  ∃ buf', append_eager_output_id al buf id = (true, buf') ∧ eb_ok buf' = eb_ok buf ∧
    ∀ x, x ∈ eb_ids buf' ↔ x ∈ eb_ids buf ∨ x = id.
Proof.
  unfold append_eager_output_id. rewrite f_realloc_total.
  set (r := if length (eb_ids buf) =? eb_ceil buf then _ else _).
  assert (∃ ceil, r = (true, mk_eager_buf (eb_ok buf) ceil (eb_ids buf))) as [ceil ->].
  { unfold r. destruct (_ =? _); [by eexists|]. exists (eb_ceil buf). by destruct buf. }
  cbn. destruct (existsb (N.eqb id) (eb_ids buf)) eqn:Ex; eexists; split; [done| |done|]; (split; [done|]); intros x; cbn.
  - split; [by left|]. intros [?| ->]; [done|]. apply existsb_exists in Ex as (y & Hy & ->%N.eqb_eq). by apply list_elem_of_In.
  - by rewrite elem_of_app, list_elem_of_singleton.
Qed.

Lemma iter_ids_eager al state ids : ∀ buf,
  ∃ buf', (iter_ids (collect_eager_output_ids_cb al) state ids buf).2 = buf' ∧ eb_ok buf' = eb_ok buf ∧
    ∀ x, x ∈ eb_ids buf' ↔ x ∈ eb_ids buf ∨ x ∈ ids.
Proof.
  induction ids as [|id ids IH]; intros buf; cbn [iter_ids].
  { exists buf. split; [done|]. split; [done|]. intros x. rewrite elem_of_nil. tauto. }
  unfold collect_eager_output_ids_cb at 1. destruct (append_eager_total al buf id) as (buf1 & -> & Hok & Hx).
  destruct (IH buf1) as (buf2 & E & Hok2 & Hx2). exists buf2. split; [done|]. split; [congruence|].
  intros x. rewrite Hx2, Hx, elem_of_cons. tauto.
Qed.

(** The buffer after a state of the closure. *)
Lemma collect_eager_spec al info es buf :
  ∃ buf', (if 0 <? fsm_eager_output_count info es then
      fsm_eager_output_iter_state info es (collect_eager_output_ids_cb al) buf else buf) = buf' ∧
    eb_ok buf' = eb_ok buf ∧ ∀ x, x ∈ eb_ids buf' ↔ x ∈ eb_ids buf ∨ x ∈ eager_outputs info es.
Proof.
  unfold fsm_eager_output_count. rewrite !eager_iter_state, iter_ids_inc.
  destruct (0 <? _) eqn:E; split_bool.
  - apply iter_ids_eager.
  - exists buf. split; [done|]. split; [done|]. intros x.
    destruct (eager_outputs info es); [rewrite elem_of_nil; tauto|]. cbn in E. lia.
Qed.

Lemma copy_state_spec g cl s es buf :
  fsm_inv g → endid_wf (f_endid_info g) → (N.of_nat (f_statecount g) < 1073741824)%N → live g s → live g es →
  Forall (λ e, e ≠ BUCKET_NO_STATE) (state_loop cl) → eb_ok buf = true →
  ∃ g' buf', copy_state g cl s es buf = Some (true, g', buf') ∧
    gains s (λ o, (fsm_isend g es = true ∧ (o = OEnd ∨ ∃ e x, e ∈ state_loop cl ∧ (fsm_isend g e = true ∨ e = s) ∧
        x ∈ endids (f_endid_info g) e ∧ o = OEndid x)) ∨
      ∃ c t, o = OEdge c t ∧ has_edge (st_edges (get_state g es)) c t) g g' ∧
    f_eager_output_info g' = f_eager_output_info g ∧ eb_ok buf' = true ∧
    ∀ x, x ∈ eb_ids buf' ↔ x ∈ eb_ids buf ∨ x ∈ eager_outputs (f_eager_output_info g) es.
Proof.
  intros Hi He Hn Hs Hes Hcl Hb. unfold copy_state.
  assert (∃ g1, (if fsm_isend g es then carry_endids (fsm_setend g s true) cl s else Some (true, g)) = Some (true, g1) ∧
    gains s (λ o, fsm_isend g es = true ∧ (o = OEnd ∨ ∃ e x, e ∈ state_loop cl ∧ (fsm_isend g e = true ∨ e = s) ∧
        x ∈ endids (f_endid_info g) e ∧ o = OEndid x)) g g1 ∧
    f_eager_output_info g1 = f_eager_output_info g ∧ st_edges (get_state g1 es) = st_edges (get_state g es))
    as (g1 & -> & Hg1 & Heo1 & Hed1).
  { destruct (fsm_isend g es) eqn:Ees.
    2:{ exists g. split; [done|]. split; [|done]. eapply gains_iff; [|by apply gains_refl]. naive_solver. }
    pose proof (gains_setend g s Hi He Hs) as G1. pose proof (gn_frame _ _ _ _ G1) as Hfr.
    assert (N.to_nat s < length (f_states g)) as Hl by (pose proof (wf_alloc _ (inv_wf _ Hi)); unfold live in Hs; lia).
    destruct (carry_endids_spec (fsm_setend g s true) cl s) as (g1 & E1 & G2 & Heo & Hst);
      [apply G1|apply G1|by rewrite (proj1 Hfr)|by apply (keeps_frame_live g)|done|].
    assert (f_endid_info (fsm_setend g s true) = f_endid_info g ∧
      f_eager_output_info (fsm_setend g s true) = f_eager_output_info g) as [D1 D2] by (unfold fsm_setend; by destruct (eqb _ _)).
    exists g1. split; [done|]. split; [|split].
    - eapply gains_iff; [|eapply gains_trans; [exact G1|exact G2]]. intros o. rewrite D1.
      assert (∀ e, fsm_isend (fsm_setend g s true) e = true ↔ fsm_isend g e = true ∨ e = s) as Hend.
      { intros e. unfold fsm_isend. rewrite get_state_setend by done. case_decide; [subst; cbn; naive_solver|naive_solver]. }
      setoid_rewrite Hend. naive_solver.
    - congruence.
    - unfold get_state at 1. rewrite Hst. fold (get_state (fsm_setend g s true) es).
      rewrite get_state_setend by done. case_decide; by subst. }
  cbn [mbind option_bind]. destruct (collect_eager_spec (f_alloc g1) (f_eager_output_info g1) es buf) as (buf' & -> & Hok & Hx).
  rewrite Hok, Hb. destruct (copy_groups_spec es s g1) as (g2 & E2 & Hg2 & Heo2).
  { apply Hg1. }
  { apply Hg1. }
  { by apply (keeps_frame_live g g1), Hs; apply Hg1. }
  { by apply (keeps_frame_live g g1), Hes; apply Hg1. }
  rewrite E2. cbn [mbind option_bind]. exists g2, buf'. split; [done|].
  split; [|split; [congruence|split; [congruence|intros x; by rewrite Hx, Heo1]]].
  rewrite Hed1 in Hg2. by eapply gains_trans.
Qed.

Lemma set_eager_ids_spec s ids : Forall id_ok ids → ∀ g,
  fsm_inv g → endid_wf (f_endid_info g) → live g s →
  (N.of_nat (eo_buckets_used (f_eager_output_info g) +
    if decide (eager_outputs (f_eager_output_info g) s = []) then 1 else 0) < 1073741824)%N →
  ∃ g', set_eager_ids ids g s = Some (true, g') ∧ gains s (λ o, ∃ x, x ∈ ids ∧ o = OEager x) g g' ∧
    eo_buckets_used (f_eager_output_info g') ≤ eo_buckets_used (f_eager_output_info g) +
      if decide (eager_outputs (f_eager_output_info g) s = []) then 1 else 0.
Proof.
  induction ids as [|id ids IH]; intros Hall g Hi He Hs Hr; cbn [set_eager_ids].
  { exists g. split; [done|]. split; [|lia]. eapply gains_iff; [|by apply gains_refl].
    intros o. split; [done|]. by intros (x & Hx%not_elem_of_nil & _). }
  apply Forall_cons in Hall as [Hid Hall]. destruct (gains_eager g s id Hi He ltac:(unfold eager_room; lia) Hs Hid) as (g1 & -> & G1 & U1 & U2 & U3).
  cbn [mbind option_bind].
  assert (eo_buckets_used (f_eager_output_info g1) ≤ eo_buckets_used (f_eager_output_info g) +
    if decide (eager_outputs (f_eager_output_info g) s = []) then 1 else 0) as Hu by (case_decide; [lia|rewrite U2 by done; lia]).
  destruct (IH Hall g1) as (g2 & E & G2 & U4).
  { apply G1. }
  { apply G1. }
  { by apply (keeps_frame_live g), Hs; apply G1. }
  { rewrite (decide_False (P := eager_outputs _ _ = [])) by done. lia. }
  rewrite (decide_False (P := eager_outputs (f_eager_output_info g1) s = [])) in U4 by done.
  exists g2. split; [done|]. split; [|lia]. eapply gains_iff; [|eapply gains_trans; [exact G1|exact G2]].
  intros o. setoid_rewrite elem_of_cons. naive_solver.
Qed.

End Collect.

(** ** All the states *)

Section Sandwich.
Context `{allocator, !alloc_total} (f : fsm).

(** The states whose closure is copied. *)
Definition handled (s : N) : Prop := fsm_getstart f = Some s ∨ ∃ p c, f_edge f p c s.

(** Between the automaton and its closure, and equal to the closure on [dn]. *)
Record between (dn : list N) (g : fsm) : Prop := {
  bw_inv : fsm_inv g;
  bw_endid : endid_wf (f_endid_info g);
  bw_frame : keeps_frame f g;
  bw_low : ∀ t o, observes f t o → observes g t o;
  bw_up : ∀ t o, observes g t o → lifted f t o;
  bw_done : ∀ t o, t ∈ dn → lifted f t o → observes g t o;
  bw_rest : ∀ t o, ¬ handled t → observes g t o → observes f t o;
}.

Hypothesis Hwf : fsm_wf f.

Lemma eps_rtc_live s e : live f s → rtc (f_eps f) s e → live f e.
Proof. intros Hs Hr. induction Hr as [|s s' e He _ IH]; [done|]. apply IH. by eapply f_eps_live. Qed.

Lemma lifted_rtc s e o : rtc (f_eps f) s e → lifted f e o → lifted f s o.
Proof. intros Hse (e' & He & Ho). exists e'. split; [by etrans|done]. Qed.

Lemma between_gains dn s P g g' :
  between dn g → handled s → gains s P g g' → (∀ o, P o → lifted f s o) → between dn g'.
Proof.
  intros [B1 B2 B3 B4 B5 B6 B7] Hh [G1 G2 G3 G4] HP. split; try done.
  - by etrans.
  - intros t o Ho. apply G4. left. by apply B4.
  - intros t o [Ho|[-> Ho]]%G4; auto.
  - intros t o Ht Ho. apply G4. left. by apply B6.
  - intros t o Ht [Ho|[-> Ho]]%G4; [by apply B7|done].
Qed.

Lemma between_eager_ok dn g s x : between dn g → lifted f s (OEager x) → id_ok x.
Proof.
  intros Hb (e & _ & Ho). apply (bw_low _ _ Hb) in Ho as [_ Hx].
  by eapply eager_outputs_ok; [apply (inv_meta _ (bw_inv _ _ Hb))|exact Hx].
Qed.

(** Ids are on end states only. *)
Definition ids_on_ends : Prop := ∀ s x, live f s → x ∈ endids (f_endid_info f) s → fsm_isend f s = true.

Hypothesis Hids : ids_on_ends.
Hypothesis Hfew : (N.of_nat (f_statecount f) < 1073741824)%N.

(** What is left for the end of the state's turn. *)
Definition copied (g : fsm) (buf : eager_output_buf) (s : N) (o : observation) : Prop :=
  match o with OEager x => x ∈ eb_ids buf | _ => observes g s o end.

Lemma copy_state_between dn g cl s es buf :
  between dn g → handled s → live f s → (∀ e, e ∈ state_loop cl ↔ rtc (f_eps f) s e) → es ∈ state_loop cl → live f es →
  eb_ok buf = true → (∀ x, x ∈ eb_ids buf → lifted f s (OEager x)) →
  ∃ g' buf', copy_state g cl s es buf = Some (true, g', buf') ∧ between dn g' ∧
    f_eager_output_info g' = f_eager_output_info g ∧ eb_ok buf' = true ∧
    (∀ x, x ∈ eb_ids buf' → lifted f s (OEager x)) ∧ (∀ o, copied g buf s o → copied g' buf' s o) ∧
    (∀ o, observes f es o → copied g' buf' s o).
Proof.
  intros Hb Hh Hs Hcl Hes Hles Hok Hbuf. pose proof Hb as [B1 B2 B3 B4 B5 B6 B7].
  assert (rtc (f_eps f) s es) as Hse by (by apply Hcl).
  assert (Forall (λ e, e ≠ BUCKET_NO_STATE) (state_loop cl)) as Hnos.
  { apply Forall_forall. intros e He. apply (live_bucket f); [done|]. apply (eps_rtc_live s); [done|]. by apply Hcl. }
  destruct (copy_state_spec g cl s es buf) as (g' & buf' & E & G & Heo & Hok' & Hx); try done.
  { by rewrite (proj1 B3). }
  { by apply (keeps_frame_live f). }
  { by apply (keeps_frame_live f). }
  assert (live g es) as Hes' by (by apply (keeps_frame_live f)).
  exists g', buf'. split; [done|]. split; [|split; [done|split; [done|split; [|split]]]].
  - eapply between_gains; [exact Hb|exact Hh|exact G|].
    intros o [(He & [->|(e & x & H1 & H2 & H3 & ->)])|(c & t & -> & Hed)].
    + eapply lifted_rtc; [exact Hse|]. apply B5. by split.
    + apply Hcl in H1. eapply lifted_rtc; [exact H1|]. apply B5. split; [|done].
      apply (keeps_frame_live f); [done|]. by apply (eps_rtc_live s).
    + eapply lifted_rtc; [exact Hse|]. apply B5. by split.
  - intros x [?|Hin]%Hx; [by apply Hbuf|]. eapply lifted_rtc; [exact Hse|]. apply B5. by split.
  - intros o Ho. destruct o; cbn in *; try (apply G; by left). apply Hx. by left.
  - intros o Ho. pose proof (B4 _ _ Ho) as Ho'. destruct o as [c t| |x|x]; cbn.
    + apply G. right. split; [done|]. right. exists c, t. split; [done|]. apply Ho'.
    + apply G. right. split; [done|]. left. split; [apply Ho'|by left].
    + apply G. right. split; [done|]. left.
      assert (fsm_isend g es = true) as Hend.
      { destruct (B4 es OEnd) as [_ ?]; [|done]. split; [done|]. eapply Hids; [done|apply Ho]. }
      split; [done|]. right. exists es, x. split; [done|]. split; [by left|]. split; [apply Ho'|done].
    + apply Hx. right. apply Ho'.
Qed.

Lemma copy_closure_between dn cl s l : ∀ g buf,
  between dn g → handled s → live f s → (∀ e, e ∈ state_loop cl ↔ rtc (f_eps f) s e) →
  (∀ e, e ∈ l → e ∈ state_loop cl) → eb_ok buf = true → (∀ x, x ∈ eb_ids buf → lifted f s (OEager x)) →
  ∃ g' buf', copy_closure l g cl s buf = Some (true, g', buf') ∧ between dn g' ∧
    f_eager_output_info g' = f_eager_output_info g ∧ eb_ok buf' = true ∧
    (∀ x, x ∈ eb_ids buf' → lifted f s (OEager x)) ∧ (∀ o, copied g buf s o → copied g' buf' s o) ∧
    (∀ e o, e ∈ l → observes f e o → copied g' buf' s o).
Proof.
  induction l as [|es l IH]; intros g buf Hb Hh Hs Hcl Hl Hok Hbuf; cbn [copy_closure].
  { exists g, buf. do 6 (split; [done|]). by intros e o ?%not_elem_of_nil. }
  destruct (copy_state_between dn g cl s es buf) as (g1 & buf1 & -> & B1 & E1 & O1 & L1 & C1 & D1); try done.
  { apply Hl. left. }
  { eapply eps_rtc_live; [done|]. apply Hcl, Hl. left. }
  cbn [mbind option_bind].
  destruct (IH g1 buf1) as (g2 & buf2 & -> & B2 & E2 & O2 & L2 & C2 & D2); try done.
  { intros e He. apply Hl. by right. }
  exists g2, buf2. split; [done|]. split; [done|]. split; [congruence|]. split; [done|]. split; [done|].
  split; [by auto|]. intros e o [->|He]%elem_of_cons Ho; eauto.
Qed.

Lemma between_done dn s g :
  between dn g → (∀ o, lifted f s o → observes g s o) → between (s :: dn) g.
Proof.
  intros [B1 B2 B3 B4 B5 B6 B7] Hs. split; try done. intros t o [->|Ht]%elem_of_cons; auto.
Qed.

Lemma remove_loop_spec closures words start l : ∀ g dn buf,
  between dn g → fsm_getstart f = Some start → (∀ s, s ∈ l → live f s) →
  (∀ s, live f s → closure_of f s (closures !!! N.to_nat s)) →
  (∀ s, live f s → bs_get words (N.to_nat s) = true ↔ handled s) →
  (N.of_nat (eo_buckets_used (f_eager_output_info g) + length l) < 1073741824)%N →
  eb_ok buf = true → eb_ids buf = [] →
  ∃ g' dn', remove_loop l g closures words start buf = Some (true, g') ∧ between dn' g' ∧
    (∀ s, s ∈ dn → s ∈ dn') ∧ ∀ s, s ∈ l → handled s → s ∈ dn'.
Proof.
  induction l as [|s l IH]; intros g dn buf Hb Hst Hl Hcl Hw Hr Hok Hnil; cbn [remove_loop].
  { exists g, dn. split; [done|]. split; [done|]. split; [done|]. by intros s ?%not_elem_of_nil. }
  pose proof (Hl s ltac:(left)) as Hs. assert (∀ s', s' ∈ l → live f s') as Hl' by (intros; apply Hl; by right).
  destruct (negb (bs_get words (N.to_nat s)) && negb (s =? start)%N) eqn:Eskip.
  { destruct (IH g dn buf) as (g' & dn' & E & B & D1 & D2); try done; [cbn in Hr; lia|].
    exists g', dn'. split; [done|]. split; [done|]. split; [done|]. intros t [->|Ht]%elem_of_cons Hh; [|by apply D2].
    apply Hw in Hh; [|done]. apply andb_true_iff in Eskip as [Ew _]. rewrite Hh in Ew. done. }
  assert (handled s) as Hh.
  { apply andb_false_iff in Eskip as [Ew|Es].
    - apply Hw; [done|]. by apply negb_false_iff in Ew.
    - left. apply negb_false_iff, N.eqb_eq in Es. by subst. }
  destruct (Hcl s Hs) as [Wc Hc]. set (cl := closures !!! N.to_nat s) in *.
  assert (∀ e, e ∈ state_loop cl ↔ rtc (f_eps f) s e) as Hc' by (intros e; rewrite state_loop_elems; apply Hc).
  destruct (copy_closure_between dn cl s (state_loop cl) g buf) as (g1 & buf1 & -> & B1 & E1 & O1 & L1 & C1 & D1); try done.
  { rewrite Hnil. by intros x ?%not_elem_of_nil. }
  cbn [mbind option_bind].
  assert (eo_buckets_used (f_eager_output_info g1) + 1 + length l =
    eo_buckets_used (f_eager_output_info g) + length (s :: l)) as Hu by (rewrite E1; cbn; lia).
  destruct (set_eager_ids_spec s (eb_ids buf1)) with (g := g1) as (g2 & -> & G2 & U2).
  { apply Forall_forall. intros x Hx. exact (between_eager_ok _ _ _ _ B1 (L1 x Hx)). }
  { apply B1. }
  { apply B1. }
  { apply (keeps_frame_live f); [apply B1|done]. }
  { case_decide; lia. }
  cbn [mbind option_bind].
  assert (between dn g2) as B2.
  { eapply between_gains; [exact B1|exact Hh|exact G2|]. intros o (x & Hx & ->). by apply L1. }
  assert (between (s :: dn) g2) as B3.
  { apply between_done; [done|]. intros o (e & He & Ho). apply Hc' in He. specialize (D1 e o He Ho).
    destruct o; cbn in D1; try (apply G2; by left). apply G2. right. split; [done|]. eauto. }
  destruct (IH g2 (s :: dn) (mk_eager_buf (eb_ok buf1) (eb_ceil buf1) [])) as (g' & dn' & E & B & D2 & D3); try done.
  { cbn [length] in Hu, Hr. destruct (decide _) in U2; lia. }
  exists g', dn'. split; [done|]. split; [done|]. split; [intros t Ht; apply D2; by right|].
  intros t [->|Ht]%elem_of_cons Hht; [apply D2; left|by apply D3].
Qed.
End Sandwich.

(** ** Marking, and dropping the transitions *)

Lemma mark_infos_spec f l : ∀ words,
  (∀ i, i ∈ l → N.to_nat (egii_to i) < f_statecount f) → u64bitset_words (f_statecount f) ≤ length words →
  length (foldl (λ words info, u64bitset_set words (N.to_nat (egii_to info))) words l) = length words ∧
  ∀ s, bs_get (foldl (λ words info, u64bitset_set words (N.to_nat (egii_to info))) words l) (N.to_nat s) = true ↔
    bs_get words (N.to_nat s) = true ∨ ∃ i, i ∈ l ∧ egii_to i = s.
Proof.
  induction l as [|i l IH]; intros words Hl Hw; cbn [foldl].
  { split; [done|]. intros s. split; [by left|]. intros [?|(i & Hi%not_elem_of_nil & _)]; done. }
  pose proof (words_index _ _ (Hl i ltac:(left))) as Hlt.
  assert (length (u64bitset_set words (N.to_nat (egii_to i))) = length words) as Hlen
    by (unfold u64bitset_set; by rewrite length_insert).
  destruct (IH (u64bitset_set words (N.to_nat (egii_to i)))) as [I1 I2].
  { intros j Hj. apply Hl. by right. }
  { by rewrite Hlen. }
  split; [congruence|]. intros s. rewrite I2, bs_get_set by lia. setoid_rewrite elem_of_cons.
  rewrite orb_true_iff, Nat.eqb_eq, N2Nat.inj_iff. split.
  - intros [[?|?]|(j & Hj & <-)]; [by left|right; exists i; split; [by left|done]|right; exists j; split; [by right|done]].
  - intros [?|(j & [->|Hj] & <-)]; [left; by left|left; by right|right; eauto].
Qed.

Lemma mark_labels_spec f l : ∀ words,
  fsm_wf f → flags f [] → (∀ s, s ∈ l → live f s) → u64bitset_words (f_statecount f) ≤ length words →
  ∃ words', mark_loop l f words = Some words' ∧
    ∀ s, bs_get words' (N.to_nat s) = true ↔ bs_get words (N.to_nat s) = true ∨ ∃ p c, p ∈ l ∧ f_edge f p c s.
Proof.
  induction l as [|p l IH]; intros words Hwf Hfl Hl Hw; cbn [mark_loop].
  { exists words. split; [done|]. intros s. split; [by left|]. intros [?|(p & c & Hi%not_elem_of_nil & _)]; done. }
  pose proof (Hl p ltac:(left)) as Hp. pose proof (wf_edges f p Hwf Hp) as We.
  rewrite flags_nil in Hfl. rewrite (Hfl p Hp). rewrite <-flags_nil in Hfl.
  destruct (mark_infos_spec f (group_loop (st_edges (get_state f p))) words) as [M1 M2].
  { intros i Hi. destruct (proj1 (elem_of_group_loop _ (egii_to i) We)) as [c Hc]; [eauto|].
    by eapply (f_edge_live f p c). }
  { done. }
  destruct (IH (foldl (λ words info, u64bitset_set words (N.to_nat (egii_to info))) words
    (group_loop (st_edges (get_state f p))))) as (words' & -> & Hx); [done|done| |by rewrite M1|].
  { intros s Hs. apply Hl. by right. }
  exists words'. split; [done|]. intros s. rewrite Hx, M2, elem_of_group_loop by done. setoid_rewrite elem_of_cons.
  split.
  - intros [[?|[c Hc]]|(q & c & Hq & He)]; [by left| |right; exists q, c; split; [by right|done]].
    right. exists p, c. split; [by left|]. by split.
  - intros [?|(q & c & [->|Hq] & He)]; [by left; left| |right; eauto]. left. right. exists c. apply He.
Qed.

Lemma mark_spec f start :
  fsm_wf f → flags f [] → fsm_getstart f = Some start →
  ∃ words, mark_states_reachable_by_label f (replicate (u64bitset_words (f_statecount f)) 0%N) = Some words ∧
    ∀ s, bs_get words (N.to_nat s) = true ↔ handled f s.
Proof.
  intros Hwf Hfl Hst. unfold mark_states_reachable_by_label. rewrite Hst.
  set (w0 := u64bitset_set _ (N.to_nat start)).
  assert (length w0 = u64bitset_words (f_statecount f)) as Hlen
    by (unfold w0, u64bitset_set; by rewrite length_insert, length_replicate).
  destruct (mark_labels_spec f (live_ids f) w0) as (words & -> & Hx); [done|done| |lia|].
  { intros s. apply elem_of_live_ids. }
  exists words. split; [done|]. intros s. rewrite Hx. unfold w0.
  rewrite bs_get_set, bs_get_zero.
  2:{ rewrite length_replicate. apply words_index. by apply (wf_start _ Hwf). }
  cbn [orb]. rewrite Nat.eqb_eq, N2Nat.inj_iff. unfold handled. rewrite Hst. split.
  - intros [->|(p & c & _ & Hp)]; [by left|right; eauto].
  - intros [[= ->]|(p & c & Hp)]; [by left|]. right. exists p, c. split; [|done]. apply elem_of_live_ids. apply Hp.
Qed.

(** The automaton without its epsilon transitions. *)
Lemma drop_epsilons_spec l : ∀ g,
  fsm_inv g → (∀ s, s ∈ l → live g s) →
  let h := foldl (λ f s, upd_state f s (set_epsilons SSNull)) g l in
  fsm_inv h ∧ same_frame g h ∧ f_endid_info h = f_endid_info g ∧
  (∀ s o, observes h s o ↔ observes g s o) ∧
  ∀ s, live g s → st_epsilons (get_state h s) = if decide (s ∈ l) then SSNull else st_epsilons (get_state g s).
Proof.
  induction l as [|x l IH]; intros g Hi Hl; cbn [foldl].
  { split; [done|]. split; [apply same_frame_refl|]. do 2 (split; [done|]). intros s _. rewrite decide_False; [done|apply not_elem_of_nil]. }
  pose proof (Hl x ltac:(left)) as Hx. pose proof (inv_wf _ Hi) as Hwf.
  assert (N.to_nat x < length (f_states g)) as Hlen by (pose proof (wf_alloc _ Hwf); unfold live in Hx; lia).
  assert (fsm_inv (upd_state g x (set_epsilons SSNull))) as Hi1.
  { apply inv_upd; [done|done| |by apply (inv_blanks _ Hi)|done].
    apply fsm_wf_upd; [done|done| |done]. destruct (wf_states _ Hwf x Hx) as (S1 & S2 & S3 & S4).
    split_and!; [done|apply state_set_wf_null|done|]. by intros t ?%not_elem_of_nil. }
  destruct (IH (upd_state g x (set_epsilons SSNull)) Hi1) as (I1 & I2 & I3 & I4 & I5).
  { intros s Hs. apply (Hl s). by right. }
  split; [done|]. split; [eapply same_frame_trans; [apply same_frame_upd|done]|]. split; [done|]. split.
  - intros s o. rewrite I4. unfold observes, fsm_isend. rewrite get_upd by done.
    destruct (decide (s = x)) as [->|]; [|done]. by destruct o.
  - intros s Hs. rewrite I5 by done. rewrite get_upd by done. destruct (decide (s ∈ l)) as [Hin|Hnin].
    + rewrite decide_True by (by right). done.
    + destruct (decide (s = x)) as [->|Hne]; [rewrite decide_True by left; done|].
      rewrite decide_False; [done|]. by intros [?|?]%elem_of_cons.
Qed.

Section Remap.
Context `{allocator, !alloc_total}.

Lemma rmap_add_total al l s : ∀ rmap, (rmap_add al l s rmap).1 = true.
Proof.
  induction l as [|x l IH]; intros rmap; cbn [rmap_add]; [done|]. destruct (x =? s)%N; [done|].
  destruct (state_set_add_total (rmap !!! N.to_nat x) al s) as [c ->]. apply IH.
Qed.

Lemma build_rmap_total al l closures : ∀ rmap, (build_rmap al l closures rmap).1 = true.
Proof.
  induction l as [|s l IH]; intros rmap; cbn [build_rmap]; [done|]. destruct (is_null _); [done|].
  pose proof (rmap_add_total al (state_loop (closures !!! N.to_nat s)) s rmap) as Ht.
  destruct (rmap_add _ _ _ _) as [ok r]. cbn in Ht. subst ok. apply IH.
Qed.

Lemma remap_no_captures g closures : no_captures g → remap_capture_actions g closures = Some (true, g).
Proof.
  intros Hc. unfold remap_capture_actions. rewrite f_calloc_total.
  pose proof (build_rmap_total (f_alloc g) (live_ids g) closures (replicate (f_statecount g) SSNull)) as Ht.
  destruct (build_rmap _ _ _ _) as [ok r]. cbn in Ht. subst ok.
  unfold fsm_capture_action_iter. by rewrite Hc.
Qed.
End Remap.

(** ** Languages *)

Lemma accepts_without_eps (A B : nfa) (h : N → Prop) w :
  (∀ s t, ¬ n_eps B s t) → (∀ s, n_start B s ↔ n_start A s) → (∀ s, n_start A s → h s) →
  (∀ s c t, n_edge A s c t → h t) →
  (∀ s c t, h s → n_edge B s c t ↔ ∃ e, rtc (n_eps A) s e ∧ n_edge A e c t) →
  (∀ s, h s → n_end B s ↔ ∃ e, rtc (n_eps A) s e ∧ n_end A e) →
  accepts B w ↔ accepts A w.
Proof.
  intros Hno Hst Hsh Hh Hed Hend.
  assert (∀ w s, h s → reaches_end B s w ↔ reaches_end A s w) as Hr.
  { clear w. induction w as [|c w IH]; intros s Hs; unfold reaches_end.
    - setoid_rewrite path_nil_rtc. split.
      + intros (t & Hp & He). inversion Hp as [|? y]; subst; [by apply Hend|]. by destruct (Hno s y).
      + intros He. exists s. split; [done|]. by apply Hend.
    - split.
      + intros (t & (s1 & s2 & H1 & H2 & H3)%path_cons_inv & He).
        inversion H1 as [|? y]; subst; [|by destruct (Hno s y)]. apply Hed in H2 as (e & H2 & H4); [|done].
        destruct (proj1 (IH s2 (Hh _ _ _ H4))) as (t' & H5 & H6); [by exists t|].
        exists t'. split; [|done]. by eapply path_cons.
      + intros (t & (s1 & s2 & H1 & H2 & H3)%path_cons_inv & He).
        destruct (proj2 (IH s2 (Hh _ _ _ H2))) as (t' & H5 & H6); [by exists t|].
        exists t'. split; [|done]. eapply path_step; [|exact H5]. apply Hed; eauto. }
  rewrite !accepts_reaches. setoid_rewrite Hst. split; intros (s & H1 & H2); exists s; (split; [done|]); apply Hr; auto.
Qed.

Lemma observes_same_graph f g s o : same_graph f g → observes g s o ↔ observes f s o.
Proof.
  intros Hg. pose proof Hg as (_ & _ & _ & _ & _ & _ & _ & E1 & E2 & _ & E3). specialize (E3 s).
  assert (st_edges (get_state g s) = st_edges (get_state f s) ∧ st_end (get_state g s) = st_end (get_state f s)) as [D1 D2].
  { destruct (get_state g s), (get_state f s). by injection E3. }
  unfold observes, fsm_isend. by rewrite (same_graph_live f g), D1, D2, E1, E2.
Qed.

Lemma inv_same_graph f g : same_graph f g → flags g [] → fsm_inv f → fsm_inv g.
Proof.
  intros Hg Hfl [H1 (M1 & M2 & M3 & M4) H3 _]. pose proof Hg as (_ & _ & _ & _ & _ & _ & _ & E1 & E2 & _ & E3). split.
  - by eapply same_graph_wf.
  - unfold fsm_meta. rewrite E1, E2. split; [done|]. split; [done|].
    split; intros k e Hk; apply (same_graph_live f g); eauto.
  - intros s Hs. rewrite (same_graph_live f g) in Hs by done. specialize (E3 s).
    assert (st_edges (get_state g s) = st_edges (get_state f s)) as ->; [|by apply H3].
    destruct (get_state g s), (get_state f s). by injection E3.
  - done.
Qed.

Record removes_epsilons (f f' : fsm) : Prop := {
  rm_inv : fsm_inv f';
  rm_endid : endid_wf (f_endid_info f');
  rm_count : f_statecount f' = f_statecount f;
  rm_alloc : f_alloc f' = f_alloc f;
  rm_start : fsm_getstart f' = fsm_getstart f;
  rm_captures : f_capture_info f' = f_capture_info f;
  rm_eps : ∀ s t, ¬ f_eps f' s t;
  rm_obs : ∀ s o, handled f s → observes f' s o ↔ lifted f s o;
  rm_rest : ∀ s o, ¬ handled f s → observes f' s o ↔ observes f s o;
}.

Lemma removes_language f f' w : fsm_wf f → removes_epsilons f f' → language f' w ↔ language f w.
Proof.
  intros Hwf R. unfold language. apply (accepts_without_eps (nfa_of f) (nfa_of f') (handled f)); cbn.
  - apply R.
  - intros s. by rewrite (rm_start _ _ R).
  - intros s Hs. by left.
  - intros s c t He. right. eauto.
  - intros s c t Hs. change (f_edge f' s c t) with (observes f' s (OEdge c t)). rewrite (rm_obs _ _ R) by done. done.
  - intros s Hs. change (f_end f' s) with (observes f' s OEnd). rewrite (rm_obs _ _ R) by done. done.
Qed.

Section Main.
Context `{allocator, !alloc_total}.

Lemma fsm_remove_epsilons_total f start :
  fsm_inv f → endid_wf (f_endid_info f) → no_captures f → ids_on_ends f → fsm_getstart f = Some start →
  (N.of_nat (f_statecount f + eo_buckets_used (f_eager_output_info f)) < 1073741824)%N →
  ∃ f', fsm_remove_epsilons f = Some (true, f') ∧ removes_epsilons f f'.
Proof.
  intros Hi He Hc Hids Hst Hn. unfold fsm_remove_epsilons.
  assert (0 < f_statecount f) as Hpos by (pose proof (wf_start _ (inv_wf _ Hi) start Hst) as Hl; unfold live in Hl; lia).
  destruct (epsilon_closure_total f (inv_wf _ Hi) Hpos) as (cl & f1 & -> & Hg & Hfl & Hlen & Hcl). cbn [mbind option_bind].
  pose proof (inv_same_graph f f1 Hg Hfl Hi) as Hi1. pose proof (λ s o, observes_same_graph f f1 s o Hg) as Hobs.
  pose proof (f_eps_same f f1 Hg) as Heps.
  pose proof Hg as (G1 & G2 & _ & _ & G5 & G6 & G7 & G8 & G9 & _ & _).
  assert (∀ s t, rtc (f_eps f1) s t ↔ rtc (f_eps f) s t) as Hrtc.
  { intros s t. split; apply rtc_subrel; intros x y; apply Heps. }
  assert (fsm_getstart f1 = Some start) as Hst1 by (unfold fsm_getstart in *; by rewrite G5, G6).
  assert (∀ s, handled f1 s ↔ handled f s) as Hhd.
  { intros s. unfold handled. rewrite Hst, Hst1. split; intros [?|(p & c & Hp)]; [by left| |by left|];
      right; exists p, c; [apply (Hobs p (OEdge c s)) in Hp|apply (Hobs p (OEdge c s))]; exact Hp. }
  assert (∀ s o, lifted f1 s o ↔ lifted f s o) as Hlift.
  { intros s o. unfold lifted. setoid_rewrite Hrtc. by setoid_rewrite Hobs. }
  rewrite f_calloc_total. destruct (mark_spec f1 start (inv_wf _ Hi1) Hfl Hst1) as (words & -> & Hw).
  cbn [mbind option_bind]. rewrite Hst1.
  destruct (remove_loop_spec f1) with (closures := cl) (words := words) (start := start) (l := live_ids f1)
    (g := f1) (dn := @nil N) (buf := mk_eager_buf true 0 []) as (g & dn & -> & B & _ & Hdn).
  { apply Hi1. }
  { intros s x Hs Hx. destruct (proj1 (Hobs s (OEndid x)) (conj Hs Hx)) as [Hs' Hx'].
    apply (proj2 (Hobs s OEnd)). split; [done|]. by eapply Hids. }
  { rewrite G1. lia. }
  { split; try done; [by rewrite G8|intros t o Ho; exists t; by split|by intros t o ?%not_elem_of_nil]. }
  { done. }
  { intros s. apply elem_of_live_ids. }
  { intros s Hs. rewrite (same_graph_live f f1) in Hs by done. destruct (Hcl s Hs) as [W Hx].
    split; [done|]. intros t. by rewrite Hrtc. }
  { intros s _. apply Hw. }
  { unfold live_ids. rewrite length_fmap, length_seq, G1, G9. lia. }
  { done. }
  { done. }
  cbn [mbind option_bind]. pose proof B as [B1 B2 B3 B4 B5 B6 B7]. pose proof B3 as (F1 & F2 & F3 & F4 & F5 & F6).
  assert (∀ s, live g s ↔ live f1 s) as Hlv by (intros; by apply keeps_frame_live).
  destruct (drop_epsilons_spec (live_ids g) g B1) as (D1 & D2 & D3 & D4 & D5).
  { intros s. apply elem_of_live_ids. }
  set (h := foldl _ _ _) in *. destruct D2 as [D2 _].
  rewrite remap_no_captures by (unfold no_captures; rewrite D2; cbn; by rewrite F4, G7).
  exists h. split; [done|].
  assert (f_statecount h = f_statecount g) as Hch by (by rewrite D2).
  split.
  - done.
  - by rewrite D3.
  - congruence.
  - rewrite D2. cbn. congruence.
  - rewrite D2. change (fsm_getstart g = fsm_getstart f). congruence.
  - rewrite D2. cbn. congruence.
  - intros s t [Hs Ht]. assert (live g s) as Hs' by (unfold live in *; by rewrite <-Hch).
    rewrite D5, decide_True in Ht; [by apply not_elem_of_nil in Ht|by apply elem_of_live_ids|done].
  - intros s o Hs%Hhd. rewrite D4, <-Hlift. split; [apply B5|]. intros Ho. apply B6; [|done]. apply Hdn; [|done].
    apply elem_of_live_ids. destruct Hs as [Hs|(p & c & Hp)]; [|by eapply f_edge_live; [apply Hi1|]].
    by apply (wf_start _ (inv_wf _ Hi1)).
  - intros s o Hs. rewrite <-Hhd in Hs. rewrite D4, <-Hobs. split; [by apply B7|apply B4].
Qed.

(** ** Properties *)


(** [fsm_remove_epsilons] fails on an automaton without a start state, which it
    leaves unchanged. *)
Lemma remove_epsilons_no_start f :
  fsm_wf f → 0 < f_statecount f → fsm_getstart f = None → ∃ f', fsm_remove_epsilons f = Some (false, f') ∧ same_graph f f'.
Proof.
  intros Hwf Hpos Hst. unfold fsm_remove_epsilons.
  destruct (epsilon_closure_total f Hwf Hpos) as (cl & f1 & -> & Hg & _). cbn [mbind option_bind].
  pose proof Hg as (_ & _ & _ & _ & G5 & G6 & _).
  assert (fsm_getstart f1 = None) as Hst1 by (unfold fsm_getstart in *; by rewrite G5, G6).
  rewrite f_calloc_total. unfold mark_states_reachable_by_label. rewrite Hst1. cbn [mbind option_bind]. eauto.
Qed.

(** An action is copied once to every state of [rmap[state]] and to no other:
    the states of [rmap[to]], which the callback sets out to go through, play
    no part. *)
Lemma add_pending_total al env s type id to :
  ∃ ceil, add_pending_capture_action al env s type id to =
    (true, mk_remap_env (re_ok env) ceil (re_actions env ++ [(s, mk_action id type to)])).
Proof.
  unfold add_pending_capture_action. rewrite f_realloc_total. destruct (_ =? re_ceil env); cbn; by eexists.
Qed.

Lemma remap_inner_total al a l : ∀ env,
  ∃ ceil, remap_inner al l a env = (true, mk_remap_env (re_ok env) ceil (re_actions env ++ ((λ s, (s, a)) <$> l))).
Proof.
  induction l as [|s l IH]; intros env; cbn [remap_inner].
  { exists (re_ceil env). rewrite app_nil_r. by destruct env. }
  destruct (add_pending_total al env s (ca_type a) (ca_id a) (ca_to a)) as [ceil ->].
  destruct (IH (mk_remap_env (re_ok env) ceil (re_actions env ++ [(s, mk_action (ca_id a) (ca_type a) (ca_to a))]))) as [ceil' ->].
  exists ceil'. cbn. rewrite <-(assoc app). by destruct a.
Qed.

Lemma remap_capture_action_ignores_to al rmap state a env :
  ∃ ceil, remap_capture_action_cb al rmap state a env =
    (true, mk_remap_env (re_ok env) ceil (re_actions env ++ ((λ s, (s, a)) <$> state_loop (rmap !!! N.to_nat state)))).
Proof.
  unfold remap_capture_action_cb. generalize (state_loop (rmap !!! N.to_nat state)). intros l.
  enough (∃ ceil, remap_outer al l a env =
    (true, mk_remap_env (re_ok env) ceil (re_actions env ++ ((λ s, (s, a)) <$> l)))) as [ceil ->] by (by exists ceil).
  revert env. induction l as [|s l IH]; intros env; cbn [remap_outer].
  { exists (re_ceil env). rewrite app_nil_r. by destruct env. }
  destruct (add_pending_total al env s (ca_type a) (ca_id a) (ca_to a)) as [ceil ->].
  set (env1 := mk_remap_env _ _ _).
  assert (re_actions env1 ++ ((λ s, (s, a)) <$> l) = re_actions env ++ ((λ s, (s, a)) <$> (s :: l))) as <-.
  { unfold env1. cbn. rewrite <-(assoc app). by destruct a. }
  destruct (ca_to a =? CAPTURE_NO_STATE)%N; [apply (IH env1)|apply (remap_inner_total al a l env1)].
Qed.
End Main.

(** An automaton for "a" with epsilon transitions on both sides of its edge and
    the id 7 on its end state. *)
Definition eps_ops : list build_op :=
  [BAddState; BAddState; BAddState; BAddState; BEpsilon 0%N 1%N; BLiteral 1%N 2%N 97; BEpsilon 2%N 3%N;
   BEnd 3%N true; BStart 0%N].
Definition eps_plain : fsm := @build_from_new always eps_ops.
Definition eps_tagged : fsm :=
  match @fsm_endid_set always (f_alloc eps_plain) (f_endid_info eps_plain) 3%N 7%N with
  | Some (_, ei) => with_endid_info eps_plain ei
  | None => eps_plain
  end.

Lemma eps_plain_endids : f_endid_info eps_plain = mk_endid_info (replicate DEF_BUCKET_COUNT None) 0.
Proof. vm_compute. reflexivity. Qed.

Lemma eps_tagged_ready : fsm_inv eps_tagged ∧ endid_wf (f_endid_info eps_tagged) ∧ ids_on_ends eps_tagged.
Proof.
  assert (fsm_inv eps_plain) as Hi by (by apply inv_build_from_new).
  destruct (@gains_endid always always_total eps_plain 3%N 7%N) as (ei & E & G).
  { done. }
  { rewrite eps_plain_endids. apply fresh_endid_wf. }
  { vm_compute. reflexivity. }
  { vm_compute. lia. }
  { by_compute. }
  unfold eps_tagged. rewrite E. split; [apply G|]. split; [apply G|].
  intros s x Hs Hx. destruct (proj1 (gn_obs _ _ _ _ G s (OEndid x))) as [[_ Hin]|[-> _]].
  - by split.
  - rewrite eps_plain_endids in Hin. exfalso. revert Hin. cbn. unfold endids.
    destruct (table_get _ s) as [e|] eqn:Eg; [|by intros ?%not_elem_of_nil].
    apply table_get_spec in Eg; [|apply fresh_endid_wf]. by destruct (not_elem_of_empty_table DEF_BUCKET_COUNT s e).
  - vm_compute. reflexivity.
Qed.

