(* ===== verification/HashView.v ===== *)
(** * Hash tables of records

    The tables of the determiniser and of the pool of interned sets are arrays
    of records (a number, an offset, a pair of identifiers) whose key is found
    elsewhere. This file relates such an array to the tables of [Probe]: [entry]
    gives the key and the value of a bucket, [free] is the test for an empty
    one. *)

From S2P Require Import Prelude Probe.

#[export] Instance hashed_ids : Hashed (list N) := hash_ids.

(** The bucket of the [i]-th probe, of [count]. *)
Definition bucket_index (h : N) (count i : nat) : nat :=
  N.to_nat (N.land (h +64 N.of_nat i)%cint (N.of_nat count - 1)).

(** The first bucket that [free] accepts. *)
Fixpoint first_free {A} (free : A → bool) (n i : nat) (h : N) (buckets : list A) : option nat :=
  match n with
  | 0 => None
  | S n =>
      let j := bucket_index h (length buckets) i in
      match buckets !! j with
      | Some b => if free b then Some j else first_free free n (i + 1) h buckets
      | None => None
      end
  end.

(** ** Lemmas *)

(** A loop for an empty bucket over buckets that stand for the entries of a
    table. *)
Lemma first_free_place {A K V} `{EqDecision K, Hashed K} (entry : A → option (K * V)) (free : A → bool) (key : K) buckets n : ∀ i,
  pow2_size (entry <$> buckets) → (∀ b, free b = true ↔ entry b = None) →
  first_free free n i (hash_key key) buckets = place_loop n i (entry <$> buckets) key.
Proof.
  induction n as [|n IH]; intros i Hp Hf; cbn [first_free place_loop]; [done|].
  change (slot (entry <$> buckets) key i) with (bucket_index (hash_key key) (length (entry <$> buckets)) i).
  rewrite length_fmap, list_lookup_fmap.
  destruct (buckets !! _) as [b|] eqn:E; cbn.
  - destruct (free b) eqn:Eb.
    + apply Hf in Eb. by rewrite Eb.
    + destruct (entry b) as [kv|] eqn:Ee; [by apply IH|]. apply Hf in Ee. congruence.
  - exfalso. apply lookup_ge_None in E. pose proof (slot_in (entry <$> buckets) key i Hp) as Hs.
    change (slot (entry <$> buckets) key i) with (bucket_index (hash_key key) (length (entry <$> buckets)) i) in Hs.
    rewrite length_fmap in Hs. lia.
Qed.


Section View.
Context {A K V : Type} `{!EqDecision K, !Hashed K} (entry : A → option (K * V)) (free : A → bool).
Hypothesis Hfree : ∀ b, free b = true ↔ entry b = None.

(** Moving a bucket to a new array; it is dropped when there is no room. *)
Definition view_move (nb : list A) (b : A) : list A :=
  match entry b with
  | None => nb
  | Some (k, _) =>
      match first_free free (length nb) 0 (hash_key k) nb with
      | Some j => <[j := b]> nb
      | None => nb
      end
  end.

Lemma view_move_rehash l : ∀ nb t,
  pow2_size (entry <$> nb) →
  foldl (rehash_step Some) (Some (entry <$> nb)) (entry <$> l) = Some t →
  entry <$> foldl view_move nb l = t.
Proof.
  induction l as [|b l IH]; intros nb t Hp2 E; cbn [foldl fmap list_fmap] in *; [by injection E|].
  cbn [rehash_step mbind option_bind] in E. unfold view_move at 2.
  destruct (entry b) as [[k v]|] eqn:Ee; [|by apply IH]. unfold place in E.
  rewrite length_fmap, <-(first_free_place entry free) in E by done.
  destruct (first_free _ _ _ _ _) as [j|]; cbn [mbind option_bind] in E.
  - apply IH.
    + unfold pow2_size in *. by rewrite length_fmap, length_insert, <-(length_fmap entry).
    + by rewrite list_fmap_insert, Ee.
  - exfalso. clear -E. induction l as [|c l IH]; [done|]. apply IH. exact E.
Qed.

Lemma view_move_elem l : ∀ nb b, b ∈ foldl view_move nb l → b ∈ nb ∨ b ∈ l.
Proof.
  induction l as [|c l IH]; intros nb b; cbn [foldl]; [by left|]. intros [Hin|Hin]%IH; [|right; by right].
  unfold view_move in Hin. destruct (entry c) as [[k v]|]; [|by left].
  destruct (first_free _ _ _ _ _) as [j|]; [|by left]. apply list_elem_of_lookup in Hin as [i Hi].
  destruct (decide (i = j)) as [->|Hne].
  - destruct (decide (j < length nb)) as [Hlt|Hge].
    + rewrite list_lookup_insert_eq in Hi by done. injection Hi as ->. right. left.
    + rewrite list_insert_ge in Hi by lia. left. apply list_elem_of_lookup. eauto.
  - rewrite list_lookup_insert_ne in Hi by done. left. apply list_elem_of_lookup. eauto.
Qed.

(** A larger array has the same entries. *)
Lemma view_grow buckets empty m :
  entry empty = None → NoDup (entries (entry <$> buckets)).*1 → m ≤ 32 → length (entries (entry <$> buckets)) ≤ 2 ^ m →
  let nb := foldl view_move (replicate (2 ^ m) empty) buckets in
  table_ok (entry <$> nb) ∧ length nb = 2 ^ m ∧
  length (entries (entry <$> nb)) = length (entries (entry <$> buckets)) ∧
  (∀ k v, Some (k, v) ∈ entry <$> nb ↔ Some (k, v) ∈ entry <$> buckets) ∧
  ∀ b, b ∈ nb → b = empty ∨ b ∈ buckets.
Proof.
  intros Hemp Hnd Hm Hle nb.
  destruct (rehash_spec Some (2 ^ m) m (entry <$> buckets)) as (t & Et & T1 & T2 & T3 & T4); [done|done|done|done| |].
  { intros k1 k2 k' _ _. congruence. }
  assert (entry <$> nb = t) as E.
  { apply view_move_rehash.
    - exists m. by rewrite length_fmap, length_replicate.
    - by rewrite fmap_replicate, Hemp. }
  rewrite E. split; [done|]. split; [by rewrite <-(length_fmap entry), E|]. split; [|split].
  - rewrite T3, filter_all; [done|eauto].
  - intros k v. rewrite T4. split; [|eauto]. by intros (k' & ? & [= ->]).
  - intros b [[-> _]%elem_of_replicate|?]%view_move_elem; [by left|by right].
Qed.

(** Where an empty bucket is found for a key that is not in the table. *)
Lemma first_free_probe buckets key :
  table_ok (entry <$> buckets) → (∀ v, Some (key, v) ∉ entry <$> buckets) →
  length (entries (entry <$> buckets)) < length buckets →
  ∃ j, first_free free (length buckets) 0 (hash_key key) buckets = Some j ∧ probe (entry <$> buckets) key = Some (j, None) ∧
    j < length buckets.
Proof.
  intros Hok Hno Hlt. rewrite <-(length_fmap entry) in Hlt. destruct (entries_empty_slot _ Hlt) as [i Hi].
  destruct (probe_total _ key i Hok Hi) as [[j o] Hp]. pose proof (probe_spec _ key Hok) as Hs. rewrite Hp in Hs.
  destruct Hs as (_ & _ & _ & _ & Hj).
  destruct o as [v|]; [destruct (Hno v); apply list_elem_of_lookup; eauto|]. exists j. split; [|split; [done|]].
  - rewrite (first_free_place entry free) by (done || apply Hok). rewrite <-(length_fmap entry buckets).
    rewrite place_loop_probe by done. unfold probe in Hp. by rewrite Hp.
  - apply lookup_lt_Some in Hj. by rewrite length_fmap in Hj.
Qed.

(** Storing there a bucket with that key. *)
Lemma view_insert buckets key v j b :
  table_ok (entry <$> buckets) → probe (entry <$> buckets) key = Some (j, None) → entry b = Some (key, v) →
  table_ok (entry <$> <[j := b]> buckets) ∧
  length (entries (entry <$> <[j := b]> buckets)) = S (length (entries (entry <$> buckets))) ∧
  ∀ k v', Some (k, v') ∈ entry <$> <[j := b]> buckets ↔ (k = key ∧ v' = v) ∨ Some (k, v') ∈ entry <$> buckets.
Proof.
  intros Hok Hp Hb. rewrite list_fmap_insert, Hb. pose proof (probe_spec _ key Hok) as Hs. rewrite Hp in Hs.
  destruct Hs as (_ & _ & _ & _ & Hj). split; [by eapply table_ok_insert|]. split.
  - pose proof (length_entries_insert (entry <$> buckets) j (Some (key, v)) None Hj) as E. cbn in E. lia.
  - intros k v'. rewrite (elem_of_insert_slot _ key j None) by done. split; [tauto|].
    intros [?|Hin]; [by left|]. destruct (decide (k = key)) as [->|]; [|by right].
    by destruct (probe_fresh _ _ _ v' Hok Hp).
Qed.
End View.
