(* ===== verification/InternedSet.v ===== *)
(** * Interned state sets: src/adt/internedstateset.c

    A pool gives every set of two or more states one identifier: equal sets get
    the same one, so that sets are compared by their identifiers. The states of
    all the sets are in one buffer; a hash table of identifiers, probed
    linearly, finds the set again. A set of one state is its own identifier,
    marked by the top bit. Each set has a [state_set] built on demand.

    The buffers are lists of the elements in use, with their capacity. *)

From S2P Require Import Prelude StateSet Bits Probe HashView.

Definition NO_ID : N := 4294967295.
Definition DEF_SETS : nat := 8.
Definition DEF_BUF : nat := 64.
Definition DEF_BUCKETS : nat := 256.
Definition SINGLETON_BIT : N := 9223372036854775808.

Definition iss_is_singleton (x : N) : bool := negb (N.land x SINGLETON_BIT =? 0)%N.
Definition iss_mask_singleton (x : N) : N := N.ldiff x SINGLETON_BIT.

(** A NULL [ss] is [SSNull]. *)
Record issp_set := mk_issp_set { is_buf_offset : nat; is_length : nat; is_ss : state_set }.

#[export] Instance issp_set_inhabited : Inhabited issp_set := populate (mk_issp_set 0 0 SSNull).

(** [ip_buf_null]: the buffer of states is NULL, whatever its capacity says. *)
Record interned_state_set_pool := mk_pool {
  ip_alloc : fsm_alloc;
  ip_buf : list N;
  ip_buf_ceil : nat;
  ip_buf_null : bool;
  ip_sets : list issp_set;
  ip_sets_ceil : nat;
  ip_buckets : list N;
  ip_used : nat;
}.

(** [count] states from an offset of a buffer. *)
Definition ids_at (buf : list N) (offset count : nat) : list N := take count (drop offset buf).

Section Ops.
Context `{allocator}.

(** The test after the allocation of [buf] is on [sets]. *)
Definition interned_state_set_pool_alloc (a : fsm_alloc) : option interned_state_set_pool :=
  if f_malloc a 80 then
    if f_malloc a (N.of_nat DEF_SETS * 24) then
      let buf_null := negb (f_malloc a (N.of_nat DEF_BUF * 4)) in
      if f_malloc a (N.of_nat DEF_BUCKETS * 4) then
        Some (mk_pool a [] DEF_BUF buf_null [] DEF_SETS (replicate DEF_BUCKETS NO_ID) 0)
      else None
    else None
  else None.

Definition hash_state_ids (ids : list N) : N := hash_ids ids.

(** One old bucket moved to the new table; [None] where an assertion fails. A
    set that finds no bucket is dropped. *)
Definition move_bucket (p : interned_state_set_pool) (acc : option (list N)) (id : N) : option (list N) :=
  nbuckets ← acc;
  if (id =? NO_ID)%N then Some nbuckets
  else
    s ← ip_sets p !! N.to_nat id;
    if is_buf_offset s + is_length s <=? length (ip_buf p) then
      let h := hash_state_ids (ids_at (ip_buf p) (is_buf_offset s) (is_length s)) in
      match first_free (N.eqb NO_ID) (length nbuckets) 0 h nbuckets with
      | Some j => Some (<[j := id]> nbuckets)
      | None => Some nbuckets
      end
    else None.

Definition grow_htab (p : interned_state_set_pool) : option (bool * interned_state_set_pool) :=
  let ncount := 2 * length (ip_buckets p) in
  if f_malloc (ip_alloc p) (N.of_nat ncount * 4) then
    nbuckets ← foldl (move_bucket p) (Some (replicate ncount NO_ID)) (ip_buckets p);
    Some (true, mk_pool (ip_alloc p) (ip_buf p) (ip_buf_ceil p) (ip_buf_null p) (ip_sets p) (ip_sets_ceil p) nbuckets (ip_used p))
  else Some (false, p).

(** The probe loop: the bucket to use, or the identifier found; [None] where an
    assertion fails. *)
Fixpoint intern_probe (n i : nat) (h : N) (p : interned_state_set_pool) (states : list N) : option (nat + N) :=
  match n with
  | 0 => None
  | S n =>
      let j := bucket_index h (length (ip_buckets p)) i in
      id ← ip_buckets p !! j;
      if (id =? NO_ID)%N then Some (inl j)
      else
        s ← ip_sets p !! N.to_nat id;
        if negb (is_length s =? length states) then intern_probe n (i + 1) h p states
        else if is_buf_offset s + is_length s <=? length (ip_buf p) then
          if bool_decide (states = ids_at (ip_buf p) (is_buf_offset s) (is_length s)) then Some (inr id)
          else intern_probe n (i + 1) h p states
        else None
  end.

(** [while (nceil < target) nceil *= 2]; [fuel] doublings are enough. *)
Fixpoint double_to (fuel nceil target : nat) : nat :=
  match fuel with
  | 0 => nceil
  | S fuel => if nceil <? target then double_to fuel (2 * nceil) target else nceil
  end.

Definition grow_sets (p : interned_state_set_pool) : bool * interned_state_set_pool :=
  if length (ip_sets p) =? ip_sets_ceil p then
    let nceil := 2 * ip_sets_ceil p in
    if f_realloc (ip_alloc p) (N.of_nat nceil * 24) then
      (true, mk_pool (ip_alloc p) (ip_buf p) (ip_buf_ceil p) (ip_buf_null p) (ip_sets p) nceil (ip_buckets p) (ip_used p))
    else (false, p)
  else (true, p).

Definition grow_buf (p : interned_state_set_pool) (count : nat) : bool * interned_state_set_pool :=
  if ip_buf_ceil p <? length (ip_buf p) + count then
    let target := length (ip_buf p) + count in
    let nceil := double_to target (2 * ip_buf_ceil p) target in
    if f_realloc (ip_alloc p) (N.of_nat nceil * 4) then
      (true, mk_pool (ip_alloc p) (ip_buf p) nceil false (ip_sets p) (ip_sets_ceil p) (ip_buckets p) (ip_used p))
    else (false, p)
  else (true, p).

(** The result is the return value, the pool and the identifier written when it
    is [true]; [None] where an assertion fails or a NULL buffer is written. *)
Definition interned_state_set_intern_set (p : interned_state_set_pool) (states : list N)
    : option (bool * interned_state_set_pool * N) :=
  match states with
  | [] => None
  | [s] => Some (true, p, N.lor s SINGLETON_BIT)
  | _ =>
      '(ok, p) ← (if length (ip_buckets p) / 2 <? ip_used p then grow_htab p else Some (true, p));
      if (ok : bool) then
        r ← intern_probe (length (ip_buckets p)) 0 (hash_state_ids states) p states;
        match r with
        | inr id => Some (true, p, id)
        | inl j =>
            let dst := N.of_nat (length (ip_sets p)) in
            let '(ok, p) := grow_sets p in
            if ok then
              let '(ok, p) := grow_buf p (length states) in
              if ok then
                if ip_buf_null p then None
                else
                  let s := mk_issp_set (length (ip_buf p)) (length states) SSNull in
                  Some (true, mk_pool (ip_alloc p) (ip_buf p ++ states) (ip_buf_ceil p) (ip_buf_null p)
                    (ip_sets p ++ [s]) (ip_sets_ceil p) (<[j := u32 dst]> (ip_buckets p)) (ip_used p + 1), dst)
              else Some (false, p, 0%N)
            else Some (false, p, 0%N)
        end
      else Some (false, p, 0%N)
  end.

(** The states passed to the callback; [None] where an assertion fails. *)
Definition iter_interned_state_set (p : interned_state_set_pool) (iss_id : N) : option (list N) :=
  if iss_is_singleton iss_id then Some [iss_mask_singleton iss_id]
  else
    s ← ip_sets p !! N.to_nat iss_id;
    if is_buf_offset s + is_length s <=? length (ip_buf p) then
      Some (ids_at (ip_buf p) (is_buf_offset s) (is_length s))
    else None.

(** The callback goes on after a failure. *)
Definition mk_state_set_cb (al : fsm_alloc) (env : bool * state_set) (s : N) : bool * state_set :=
  let '(ok, dst) := env in
  let '(added, dst) := state_set_add dst al s in
  (ok && added, dst).

(** The set and the pool, where it is kept; a failure gives NULL. *)
Definition interned_state_set_get_state_set (p : interned_state_set_pool) (iss_id : N)
    : option (state_set * interned_state_set_pool) :=
  if iss_is_singleton iss_id then
    let '(ok, dst) := state_set_add SSNull (ip_alloc p) (u32 (iss_mask_singleton iss_id)) in
    Some (if ok then dst else SSNull, p)
  else
    s ← ip_sets p !! N.to_nat iss_id;
    match is_ss s with
    | SSNull =>
        states ← iter_interned_state_set p iss_id;
        let '(ok, dst) := foldl (mk_state_set_cb (ip_alloc p)) (true, SSNull) states in
        let ss := if ok then dst else SSNull in
        Some (ss, mk_pool (ip_alloc p) (ip_buf p) (ip_buf_ceil p) (ip_buf_null p)
          (<[N.to_nat iss_id := mk_issp_set (is_buf_offset s) (is_length s) ss]> (ip_sets p)) (ip_sets_ceil p)
          (ip_buckets p) (ip_used p))
    | ss => Some (ss, p)
    end.
End Ops.

(** ** Meaning and invariant *)

Definition set_ids (p : interned_state_set_pool) (id : N) : list N :=
  let s := ip_sets p !!! N.to_nat id in ids_at (ip_buf p) (is_buf_offset s) (is_length s).

(** The table as a map from sets to identifiers. *)
Definition id_entry (p : interned_state_set_pool) (id : N) : option (list N * N) :=
  if (id =? NO_ID)%N then None else Some (set_ids p id, id).
Definition ip_table (p : interned_state_set_pool) : list (option (list N * N)) := id_entry p <$> ip_buckets p.

(** The states of an identifier. *)
Definition iss_states (p : interned_state_set_pool) (id : N) : list N :=
  if iss_is_singleton id then [iss_mask_singleton id] else set_ids p id.

Definition iss_valid (p : interned_state_set_pool) (id : N) : Prop :=
  (∃ s, (s < 4294967296)%N ∧ id = N.lor s SINGLETON_BIT) ∨ N.to_nat id < length (ip_sets p).

Definition set_ok (buf : list N) (s : issp_set) : Prop :=
  let ids := ids_at buf (is_buf_offset s) (is_length s) in
  is_buf_offset s + is_length s ≤ length buf ∧ 2 ≤ is_length s ∧ increasing ids ∧
  Forall (λ x, (x < 4294967296)%N) ids ∧
  (is_ss s = SSNull ∨ state_set_wf (is_ss s) ∧ ss_elems (is_ss s) = ids).

Record pool_ok (p : interned_state_set_pool) : Prop := {
  po_table : table_ok (ip_table p);
  po_entries : length (entries (ip_table p)) = ip_used p;
  po_used : ip_used p = length (ip_sets p);
  po_size : 4 ≤ length (ip_buckets p);
  po_half : ip_used p ≤ length (ip_buckets p) / 2 + 1;
  po_ids : ∀ id, id ∈ ip_buckets p → id ≠ NO_ID → N.to_nat id < length (ip_sets p);
  po_all : ∀ i, i < length (ip_sets p) → N.of_nat i ∈ ip_buckets p;
  po_sets : Forall (set_ok (ip_buf p)) (ip_sets p);
  po_buf : ip_buf_null p = false;
  po_few : (N.of_nat (length (ip_sets p)) <= 1073741824)%N;
}.

(** ** Lemmas: probing *)

Lemma length_ids_at buf o n : o + n ≤ length buf → length (ids_at buf o n) = n.
Proof. intros Hl. unfold ids_at. rewrite length_take, length_drop. lia. Qed.

Lemma ids_at_app buf l o n : o + n ≤ length buf → ids_at (buf ++ l) o n = ids_at buf o n.
Proof. intros Hl. unfold ids_at. rewrite drop_app_le, take_app_le; [done|rewrite length_drop; lia|lia]. Qed.

Lemma ids_at_end buf l : ids_at (buf ++ l) (length buf) (length l) = l.
Proof. unfold ids_at. by rewrite drop_app_length, firstn_all. Qed.

Lemma id_entry_None p id : (NO_ID =? id)%N = true ↔ id_entry p id = None.
Proof. unfold id_entry. rewrite N.eqb_sym. by destruct (id =? NO_ID)%N. Qed.

Section Lemmas.
Context `{allocator}.

Lemma pool_set p id : pool_ok p → id ∈ ip_buckets p → id ≠ NO_ID →
  ∃ s, ip_sets p !! N.to_nat id = Some s ∧ set_ok (ip_buf p) s ∧ set_ids p id = ids_at (ip_buf p) (is_buf_offset s) (is_length s).
Proof.
  intros Hp Hin Hne. pose proof (po_ids _ Hp id Hin Hne) as Hlt.
  destruct (lookup_lt_is_Some_2 _ _ Hlt) as [s Hs]. exists s. split; [done|]. split.
  - eapply Forall_lookup_1; [apply (po_sets _ Hp)|exact Hs].
  - unfold set_ids. by rewrite (list_lookup_total_correct _ _ _ Hs).
Qed.

Lemma intern_probe_loop p states n : ∀ i,
  pool_ok p →
  intern_probe n i (hash_state_ids states) p states =
  match probe_loop n i (ip_table p) states with
  | Some (j, None) => Some (inl j)
  | Some (_, Some id) => Some (inr id)
  | None => None
  end.
Proof.
  induction n as [|n IH]; intros i Hp; cbn [intern_probe probe_loop]; [done|].
  pose proof (slot_lt (ip_table p) states i (po_table _ Hp)) as Hlt.
  change (slot (ip_table p) states i) with (bucket_index (hash_state_ids states) (length (ip_table p)) i) in *.
  unfold ip_table in Hlt |- *. rewrite length_fmap in *. rewrite list_lookup_fmap.
  destruct (lookup_lt_is_Some_2 _ _ Hlt) as [id Hid]. rewrite Hid. cbn [fmap option_fmap option_map mbind option_bind].
  unfold id_entry at 1. destruct (id =? NO_ID)%N eqn:En; split_bool; [done|].
  destruct (pool_set p id Hp) as (s & Hs & (Hl & _) & Eids); [by apply list_elem_of_lookup; eauto|done|].
  rewrite Hs. cbn [mbind option_bind]. rewrite Eids, (proj2 (Nat.leb_le _ _) Hl).
  pose proof (length_ids_at _ _ _ Hl) as Hlen.
  destruct (decide (states = ids_at (ip_buf p) (is_buf_offset s) (is_length s))) as [Hk|Hk].
  - rewrite !bool_decide_eq_true_2 by done. rewrite Hk, Hlen, Nat.eqb_refl. done.
  - rewrite !bool_decide_eq_false_2 by done. destruct (negb _); by apply IH.
Qed.

(** Moving the buckets is moving the entries. *)
Lemma move_buckets_rehash p l : ∀ nb t,
  (∀ id, id ∈ l → id ≠ NO_ID → ∃ s, ip_sets p !! N.to_nat id = Some s ∧ is_buf_offset s + is_length s ≤ length (ip_buf p)) →
  pow2_size (id_entry p <$> nb) →
  foldl (rehash_step Some) (Some (id_entry p <$> nb)) (id_entry p <$> l) = Some t →
  ∃ nb', foldl (move_bucket p) (Some nb) l = Some nb' ∧ id_entry p <$> nb' = t.
Proof.
  induction l as [|id l IH]; intros nb t Hl Hp2 E; cbn [foldl fmap list_fmap] in *.
  { injection E as <-. eauto. }
  assert (∀ id, id ∈ l → id ≠ NO_ID → ∃ s, ip_sets p !! N.to_nat id = Some s ∧ is_buf_offset s + is_length s ≤ length (ip_buf p)) as Hl'
    by (intros; apply Hl; [by right|done]).
  cbn [move_bucket rehash_step mbind option_bind] in *.
  destruct (id =? NO_ID)%N eqn:En.
  { assert (id_entry p id = None) as Ee by (unfold id_entry; by rewrite En). rewrite Ee in E. by apply IH. }
  apply N.eqb_neq in En. destruct (Hl id ltac:(left) En) as (s & Hs & Hle).
  assert (id_entry p id = Some (ids_at (ip_buf p) (is_buf_offset s) (is_length s), id)) as Ee.
  { unfold id_entry, set_ids. rewrite (proj2 (N.eqb_neq _ _) En). by rewrite (list_lookup_total_correct _ _ _ Hs). }
  rewrite Ee in E. rewrite Hs. cbn [mbind option_bind]. rewrite (proj2 (Nat.leb_le _ _) Hle).
  set (key := ids_at _ _ _) in *. unfold place in E.
  assert (place_loop (length (id_entry p <$> nb)) 0 (id_entry p <$> nb) key =
    first_free (N.eqb NO_ID) (length nb) 0 (hash_state_ids key) nb) as Epl.
  { rewrite length_fmap. symmetry. apply (first_free_place (id_entry p)); [done|apply id_entry_None]. }
  rewrite Epl in E. destruct (first_free _ _ _ _ _) as [j|]; cbn [mbind option_bind] in E.
  - apply IH; [done| |].
    + unfold pow2_size in *. by rewrite length_fmap, length_insert, <-(length_fmap (id_entry p)).
    + by rewrite list_fmap_insert, Ee.
  - exfalso. clear -E. induction l as [|b l IH]; [done|]. apply IH. exact E.
Qed.

Lemma elem_of_id_entries p (bs : list N) k v :
  Some (k, v) ∈ id_entry p <$> bs ↔ v ∈ bs ∧ v ≠ NO_ID ∧ k = set_ids p v.
Proof.
  rewrite list_elem_of_fmap. unfold id_entry. split.
  - intros (id & E & Hin). destruct (id =? NO_ID)%N eqn:En; split_bool; by simplify_eq.
  - intros (Hin & Hne & ->). exists v. by rewrite (proj2 (N.eqb_neq _ _) Hne).
Qed.

Lemma id_entry_same p p' id :
  ip_buf p' = ip_buf p → ip_sets p' = ip_sets p → id_entry p' id = id_entry p id.
Proof. unfold id_entry, set_ids. by intros -> ->. Qed.

Lemma intern_grow_spec `{!alloc_total} p :
  pool_ok p → length (ip_buckets p) / 2 < ip_used p →
  ∃ p', grow_htab p = Some (true, p') ∧ pool_ok p' ∧ ip_used p' ≤ length (ip_buckets p') / 2 ∧
    ip_buf p' = ip_buf p ∧ ip_sets p' = ip_sets p ∧ ip_alloc p' = ip_alloc p.
Proof.
  intros Hp Hused. pose proof Hp as [P1 P2 P3 P4 P5 P6 P7 P8 P9 P10]. unfold grow_htab. rewrite f_malloc_total.
  pose proof P1 as [(m & Hm & Hl) _]. unfold ip_table in Hl. rewrite length_fmap in Hl.
  assert (m ≤ 31) as Hm31.
  { destruct (decide (m ≤ 31)); [done|]. replace m with 32 in Hl by lia.
    assert (N.of_nat (length (ip_buckets p)) = 4294967296)%N by (rewrite Hl, Nat2N.inj_pow; reflexivity).
    pose proof (Nat.div_mod_eq (length (ip_buckets p)) 2). pose proof (Nat.mod_upper_bound (length (ip_buckets p)) 2). lia. }
  destruct (rehash_spec Some (2 ^ S m) (S m) (ip_table p)) as (t & Et & T1 & T2 & T3 & T4).
  { lia. }
  { done. }
  { rewrite P2. pose proof (length_entries_le (ip_table p)). unfold ip_table in *. rewrite length_fmap in *.
    rewrite Nat.pow_succ_r'. lia. }
  { by apply NoDup_keys. }
  { intros k1 k2 k' _ _. congruence. }
  assert (2 * length (ip_buckets p) = 2 ^ S m) as Hn by (rewrite Hl, Nat.pow_succ_r'; lia).
  destruct (move_buckets_rehash p (ip_buckets p) (replicate (2 ^ S m) NO_ID) t) as (nb & Enb & Eid).
  { intros id Hin Hne. destruct (pool_set p id Hp Hin Hne) as (s & Hs & (Hle & _) & _). eauto. }
  { exists (S m). rewrite length_fmap, length_replicate. split; [lia|done]. }
  { rewrite fmap_replicate. exact Et. }
  rewrite Hn, Enb. cbn [mbind option_bind]. eexists. split; [done|].
  set (p' := mk_pool _ _ _ _ _ _ _ _).
  assert (ip_table p' = t) as Etab.
  { unfold ip_table. rewrite <-Eid. apply list_fmap_ext. intros i x _. by apply id_entry_same. }
  assert (length nb = 2 ^ S m) as Hnb by (by rewrite <-(length_fmap (id_entry p)), Eid).
  assert (∀ v, v ≠ NO_ID → v ∈ nb ↔ v ∈ ip_buckets p) as Hmem.
  { intros v Hv. specialize (T4 (set_ids p v) v). rewrite <-Eid in T4. rewrite elem_of_id_entries in T4.
    unfold ip_table in T4. setoid_rewrite elem_of_id_entries in T4. split.
    - intros Hin. destruct (proj1 T4) as (k & (? & _) & _); done.
    - intros Hin. apply T4. exists (set_ids p v). done. }
  assert (ip_used p ≤ length nb / 2) as Hhalf.
  { rewrite Hnb, Nat.pow_succ_r', (Nat.mul_comm 2), Nat.div_mul by done. rewrite <-Hl.
    pose proof (Nat.div_mod_eq (length (ip_buckets p)) 2). lia. }
  split; [|split; [|done]].
  2:{ change (ip_used p ≤ length nb / 2). lia. }
  split.
  - by rewrite Etab.
  - rewrite Etab, T3, filter_all; [done|eauto].
  - done.
  - cbn. lia.
  - change (ip_used p ≤ length nb / 2 + 1). lia.
  - intros id Hin Hne. apply Hmem in Hin; [|done]. by apply P6.
  - intros i Hi. cbn in Hi. apply Hmem; [unfold NO_ID; lia|]. by apply P7.
  - done.
  - done.
  - done.
Qed.
End Lemmas.

(** ** Lemmas: identifiers *)

Lemma singleton_bit_is s : (s < 4294967296)%N → iss_is_singleton (N.lor s SINGLETON_BIT) = true.
Proof.
  intros Hs. unfold iss_is_singleton. apply negb_true_iff, N.eqb_neq. intros E.
  assert (N.testbit (N.land (N.lor s SINGLETON_BIT) SINGLETON_BIT) 63 = true) as Ht.
  { rewrite N.land_spec, N.lor_spec. change (N.testbit SINGLETON_BIT 63) with true. by rewrite orb_true_r. }
  rewrite E in Ht. by rewrite N.bits_0 in Ht.
Qed.

Lemma singleton_mask s : (s < 4294967296)%N → iss_mask_singleton (N.lor s SINGLETON_BIT) = s.
Proof.
  intros Hs. unfold iss_mask_singleton. apply N.bits_inj. intros k. rewrite N.ldiff_spec, N.lor_spec.
  change SINGLETON_BIT with (2 ^ 63)%N. rewrite N.pow2_bits_eqb. destruct (63 =? k)%N eqn:E.
  - apply N.eqb_eq in E. subst k. rewrite andb_false_r. symmetry. apply N.bits_above_log2.
    destruct (decide (s = 0%N)) as [->|]; [done|]. apply N.log2_lt_pow2; [lia|]. lia.
  - by rewrite orb_false_r, andb_true_r.
Qed.

Lemma not_singleton id : (id < 4294967296)%N → iss_is_singleton id = false.
Proof.
  intros Hid. unfold iss_is_singleton. apply negb_false_iff, N.eqb_eq. change SINGLETON_BIT with (2 ^ 63)%N.
  apply N.bits_inj. intros k. rewrite N.land_spec, N.pow2_bits_eqb, N.bits_0.
  destruct (63 =? k)%N eqn:E; [|by rewrite andb_false_r]. apply N.eqb_eq in E. subst k. rewrite andb_true_r.
  apply N.bits_above_log2. destruct (decide (id = 0%N)) as [->|]; [done|]. apply N.log2_lt_pow2; lia.
Qed.

(** What interning leaves of the sets interned before. *)
Definition pool_extends (p p' : interned_state_set_pool) : Prop :=
  ip_alloc p' = ip_alloc p ∧ ∀ id, iss_valid p id → iss_valid p' id ∧ iss_states p' id = iss_states p id.

#[export] Instance pool_extends_preorder : PreOrder pool_extends.
Proof.
  split.
  - intros p. by split.
  - intros p q r [H1 H2] [K1 K2]. split; [congruence|]. intros id Hid. destruct (H2 id Hid) as [A B].
    destruct (K2 id A) as [C D]. split; [done|congruence].
Qed.

Lemma pool_extends_sets p p' :
  pool_ok p → ip_alloc p' = ip_alloc p → length (ip_sets p) ≤ length (ip_sets p') →
  (∀ i, i < length (ip_sets p) → set_ids p' (N.of_nat i) = set_ids p (N.of_nat i)) → pool_extends p p'.
Proof.
  intros Hp Ha Hl Hs. split; [done|]. intros id [(s & Hs1 & ->)|Hid].
  - split; [left; eauto|]. unfold iss_states. by rewrite singleton_bit_is.
  - split; [right; lia|]. unfold iss_states. pose proof (po_few _ Hp). rewrite not_singleton by lia.
    specialize (Hs _ Hid). by rewrite N2Nat.id in Hs.
Qed.

Lemma iss_states_ok p id :
  pool_ok p → iss_valid p id →
  iss_states p id ≠ [] ∧ increasing (iss_states p id) ∧ Forall (λ x, (x < 4294967296)%N) (iss_states p id).
Proof.
  intros Hp [(s & Hs & ->)|Hid]; unfold iss_states.
  - rewrite singleton_bit_is, singleton_mask by done. split; [done|]. split; [repeat constructor|]. by constructor.
  - pose proof (po_few _ Hp). rewrite not_singleton by lia. unfold set_ids.
    destruct (lookup_lt_is_Some_2 _ _ Hid) as [s Hs]. rewrite (list_lookup_total_correct _ _ _ Hs).
    pose proof (proj1 (Forall_lookup _ _) (po_sets _ Hp) _ _ Hs) as (H1 & H2 & H3 & H4 & _). split; [|done].
    intros E. pose proof (length_ids_at _ _ _ H1) as Hlen. rewrite E in Hlen. cbn in Hlen. lia.
Qed.

(** Equal sets have one identifier. *)
Lemma iss_states_inj p id id' :
  pool_ok p → iss_valid p id → iss_valid p id' → iss_states p id = iss_states p id' → id = id'.
Proof.
  intros Hp Hv Hv'. pose proof (po_few _ Hp) as Hfew.
  assert (∀ i, N.to_nat i < length (ip_sets p) → 2 ≤ length (set_ids p i) ∧ Some (set_ids p i, i) ∈ ip_table p) as Hset.
  { intros i Hi. destruct (lookup_lt_is_Some_2 _ _ Hi) as [s Hs].
    pose proof (proj1 (Forall_lookup _ _) (po_sets _ Hp) _ _ Hs) as (H1 & H2 & _). split.
    - unfold set_ids. rewrite (list_lookup_total_correct _ _ _ Hs), length_ids_at by done. done.
    - apply elem_of_id_entries. pose proof (po_all _ Hp _ Hi) as Hin. rewrite N2Nat.id in Hin.
      split; [done|]. split; [unfold NO_ID; lia|done]. }
  destruct Hv as [(s & Hs & ->)|Hv], Hv' as [(s' & Hs' & ->)|Hv']; unfold iss_states;
    rewrite ?singleton_bit_is, ?singleton_mask by done; rewrite ?not_singleton by lia.
  - by intros [= ->].
  - intros E. destruct (Hset _ Hv') as [Hl _]. rewrite <-E in Hl. cbn in Hl. lia.
  - intros E. destruct (Hset _ Hv) as [Hl _]. rewrite E in Hl. cbn in Hl. lia.
  - intros E. destruct (Hset _ Hv) as [_ [i Hi]%list_elem_of_lookup]. destruct (Hset _ Hv') as [_ [j Hj]%list_elem_of_lookup].
    rewrite E in Hi. pose proof (table_key_unique _ _ _ _ _ _ (po_table _ Hp) Hi Hj) as ->. congruence.
Qed.

(** ** Lemmas: operations *)

Section OpLemmas.
Context `{allocator, !alloc_total}.

Lemma pool_alloc_spec a :
  ∃ p, interned_state_set_pool_alloc a = Some p ∧ pool_ok p ∧ ip_sets p = [] ∧ ip_alloc p = a.
Proof.
  unfold interned_state_set_pool_alloc. rewrite !f_malloc_total. cbn [negb]. eexists. split; [done|]. split; [|done].
  set (p := mk_pool _ _ _ _ _ _ _ _).
  assert (ip_table p = replicate DEF_BUCKETS None) as E by (unfold ip_table, p; cbn [ip_buckets]; by rewrite fmap_replicate).
  split.
  - rewrite E. apply (table_ok_empty 8). lia.
  - rewrite E. by rewrite entries_replicate.
  - done.
  - cbn. lia.
  - cbn. lia.
  - intros id [-> _]%elem_of_replicate. done.
  - cbn. lia.
  - constructor.
  - done.
  - cbn. lia.
Qed.

Lemma grow_sets_spec p :
  ∃ ceil, grow_sets p = (true, mk_pool (ip_alloc p) (ip_buf p) (ip_buf_ceil p) (ip_buf_null p) (ip_sets p) ceil (ip_buckets p) (ip_used p)).
Proof.
  unfold grow_sets. rewrite f_realloc_total. destruct (_ =? _); [by eexists|]. exists (ip_sets_ceil p). by destruct p.
Qed.

Lemma grow_buf_spec p n :
  ip_buf_null p = false →
  ∃ ceil, grow_buf p n = (true, mk_pool (ip_alloc p) (ip_buf p) ceil false (ip_sets p) (ip_sets_ceil p) (ip_buckets p) (ip_used p)).
Proof.
  intros Hn. unfold grow_buf. rewrite f_realloc_total. destruct (_ <? _); [by eexists|]. exists (ip_buf_ceil p).
  rewrite <-Hn. by destruct p.
Qed.

(** Storing a new set in the bucket that probing found. *)
Lemma intern_store p states j ceil1 ceil2 :
  pool_ok p → 2 ≤ length states → increasing states → Forall (λ x, (x < 4294967296)%N) states →
  (N.of_nat (length (ip_sets p)) < 1073741824)%N → ip_used p ≤ length (ip_buckets p) / 2 →
  probe (ip_table p) states = Some (j, None) →
  let dst := N.of_nat (length (ip_sets p)) in
  let p' := mk_pool (ip_alloc p) (ip_buf p ++ states) ceil1 false
    (ip_sets p ++ [mk_issp_set (length (ip_buf p)) (length states) SSNull]) ceil2 (<[j := dst]> (ip_buckets p)) (ip_used p + 1) in
  pool_ok p' ∧ set_ids p' dst = states ∧ ∀ i, i < length (ip_sets p) → set_ids p' (N.of_nat i) = set_ids p (N.of_nat i).
Proof.
  intros Hp Hlen Hinc H32 Hfew Hhalf Hprobe dst p'. pose proof Hp as [P1 P2 P3 P4 P5 P6 P7 P8 P9 P10].
  assert (set_ids p' dst = states) as Edst.
  { unfold set_ids, p', dst. cbn [ip_sets ip_buf]. rewrite Nat2N.id, list_lookup_total_middle by done. cbn. apply ids_at_end. }
  assert (∀ i, i < length (ip_sets p) → set_ids p' (N.of_nat i) = set_ids p (N.of_nat i)) as Eold.
  { intros i Hi. unfold set_ids, p'. cbn [ip_sets ip_buf]. rewrite Nat2N.id. destruct (lookup_lt_is_Some_2 _ _ Hi) as [s Hs].
    rewrite (list_lookup_total_correct (ip_sets p ++ _) i s) by (by rewrite lookup_app_l).
    rewrite (list_lookup_total_correct _ _ _ Hs).
    pose proof (proj1 (Forall_lookup _ _) P8 _ _ Hs) as (Hle & _). by apply ids_at_app. }
  assert (dst ≠ NO_ID) as Hdst by (unfold dst, NO_ID; lia).
  assert (ip_table p' = <[j := Some (states, dst)]> (ip_table p)) as Etab.
  { unfold ip_table, p' at 2. cbn [ip_buckets]. rewrite list_fmap_insert. f_equal.
    - unfold id_entry. rewrite (proj2 (N.eqb_neq _ _) Hdst). by rewrite Edst.
    - apply list_fmap_ext. intros i id Hid. unfold id_entry. destruct (id =? NO_ID)%N eqn:En; [done|].
      apply N.eqb_neq in En. pose proof (P6 id ltac:(apply list_elem_of_lookup; eauto) En) as Hlt.
      specialize (Eold _ Hlt). rewrite N2Nat.id in Eold. by rewrite Eold. }
  pose proof (probe_spec _ states P1) as Hs. rewrite Hprobe in Hs. destruct Hs as (_ & _ & _ & _ & Hj). cbn in Hj.
  assert (ip_buckets p !! j = Some NO_ID) as Hbj.
  { unfold ip_table in Hj. rewrite list_lookup_fmap in Hj. destruct (ip_buckets p !! j) as [id|] eqn:E; [|done].
    cbn in Hj. unfold id_entry in Hj. destruct (id =? NO_ID)%N eqn:En; split_bool; by simplify_eq. }
  assert (j < length (ip_buckets p)) as Hjl by (by apply lookup_lt_Some in Hbj).
  split; [|done]. split.
  - rewrite Etab. by eapply table_ok_insert.
  - rewrite Etab. pose proof (length_entries_insert (ip_table p) j (Some (states, dst)) None Hj) as E. cbn in E |- *. lia.
  - unfold p'. cbn [ip_used ip_sets]. rewrite length_app. cbn. lia.
  - unfold p'. cbn [ip_buckets]. by rewrite length_insert.
  - unfold p'. cbn [ip_buckets ip_used]. rewrite length_insert. lia.
  - intros id Hin Hne. unfold p' in *. cbn [ip_buckets ip_sets] in *. rewrite length_app. cbn.
    apply list_elem_of_lookup in Hin as [i Hi]. destruct (decide (i = j)) as [->|Hij].
    + rewrite list_lookup_insert_eq in Hi by done. injection Hi as <-. unfold dst. lia.
    + rewrite list_lookup_insert_ne in Hi by done. pose proof (P6 id ltac:(apply list_elem_of_lookup; eauto) Hne). lia.
  - intros i. unfold p'. cbn [ip_buckets ip_sets]. rewrite length_app. cbn. intros Hi.
    destruct (decide (i = length (ip_sets p))) as [->|Hne].
    + apply list_elem_of_lookup. exists j. by apply list_lookup_insert_eq.
    + destruct (proj1 (list_elem_of_lookup _ _) (P7 i ltac:(lia))) as [k Hk]. apply list_elem_of_lookup. exists k.
      rewrite list_lookup_insert_ne; [done|]. intros ->. rewrite Hbj in Hk. unfold NO_ID in Hk. simplify_eq. lia.
  - unfold p'. cbn [ip_buf ip_sets]. apply Forall_app. split.
    + eapply Forall_impl; [exact P8|]. intros s (S1 & S2 & S3 & S4 & S5). unfold set_ok. cbv zeta.
      rewrite ids_at_app by done. rewrite length_app. split; [lia|done].
    + constructor; [|done]. unfold set_ok. cbn [is_buf_offset is_length is_ss]. rewrite ids_at_end, length_app.
      split; [lia|]. split; [done|]. split; [done|]. split; [done|by left].
  - done.
  - unfold p'. cbn [ip_sets]. rewrite length_app. cbn. lia.
Qed.

(** Interning gives the set an identifier, and keeps those given before. *)
Lemma intern_set_spec p states :
  pool_ok p → states ≠ [] → increasing states → Forall (λ x, (x < 4294967296)%N) states →
  (N.of_nat (length (ip_sets p)) < 1073741824)%N →
  ∃ p' id, interned_state_set_intern_set p states = Some (true, p', id) ∧ pool_ok p' ∧ pool_extends p p' ∧
    iss_valid p' id ∧ iss_states p' id = states ∧ length (ip_sets p') ≤ length (ip_sets p) + 1 ∧
    (length (ip_sets p') = length (ip_sets p) ∨
      id = N.of_nat (length (ip_sets p)) ∧ ∀ id, iss_valid p id → iss_states p id ≠ states).
Proof.
  intros Hp Hne Hinc H32 Hfew. destruct states as [|x [|y l]]; [done| |]; cbn [interned_state_set_intern_set].
  { exists p, (N.lor x SINGLETON_BIT). apply Forall_cons in H32 as [Hx _]. split; [done|]. split; [done|]. split; [done|].
    split; [left; eauto|]. unfold iss_states. rewrite singleton_bit_is, singleton_mask by done. split; [done|]. split; [lia|by left]. }
  set (states := x :: y :: l) in *.
  assert (∃ p1, (if length (ip_buckets p) / 2 <? ip_used p then grow_htab p else Some (true, p)) = Some (true, p1) ∧
    pool_ok p1 ∧ ip_used p1 ≤ length (ip_buckets p1) / 2 ∧
    ip_buf p1 = ip_buf p ∧ ip_sets p1 = ip_sets p ∧ ip_alloc p1 = ip_alloc p) as (p1 & -> & Hp1 & Hhalf & Eb & Es & Ea).
  { destruct (_ <? _) eqn:E; split_bool; [by apply intern_grow_spec|]. by exists p. }
  cbn [mbind option_bind].
  assert (pool_extends p p1) as Hext1.
  { apply pool_extends_sets; [done|done|by rewrite Es|]. intros i Hi. unfold set_ids. by rewrite Es, Eb. }
  rewrite intern_probe_loop by done.
  assert (length (entries (ip_table p1)) < length (ip_table p1)) as Hfree.
  { rewrite (po_entries _ Hp1). unfold ip_table. rewrite length_fmap. pose proof (po_size _ Hp1).
    pose proof (Nat.div_mod_eq (length (ip_buckets p1)) 2). lia. }
  destruct (entries_empty_slot _ Hfree) as [i Hi].
  destruct (probe_total _ states i (po_table _ Hp1) Hi) as [[j o] Hpr]. pose proof Hpr as Hpr'.
  unfold probe in Hpr. unfold ip_table in Hpr at 1. rewrite length_fmap in Hpr. rewrite Hpr. cbn [mbind option_bind].
  destruct o as [id|].
  - pose proof (probe_spec _ states (po_table _ Hp1)) as Hs. rewrite Hpr' in Hs. destruct Hs as (_ & _ & _ & _ & Hj).
    cbn in Hj. pose proof (proj2 (list_elem_of_lookup _ _) (ex_intro _ j Hj)) as Hin.
    apply elem_of_id_entries in Hin as (Hin & Hid & Est). pose proof (po_ids _ Hp1 id Hin Hid) as Hlt.
    pose proof (po_few _ Hp1). exists p1, id. split; [done|]. split; [done|]. split; [done|]. split; [by right|].
    split; [unfold iss_states; by rewrite not_singleton by lia|]. rewrite Es. split; [lia|by left].
  - destruct (grow_sets_spec p1) as [ceil1 ->]. destruct (grow_buf_spec (mk_pool (ip_alloc p1) (ip_buf p1) (ip_buf_ceil p1)
      (ip_buf_null p1) (ip_sets p1) ceil1 (ip_buckets p1) (ip_used p1)) (length states) (po_buf _ Hp1)) as [ceil2 ->].
    cbn [ip_buf_null ip_alloc ip_buf ip_buf_ceil ip_sets ip_sets_ceil ip_buckets ip_used].
    assert (u32 (N.of_nat (length (ip_sets p1))) = N.of_nat (length (ip_sets p1))) as -> by (apply u32_small; rewrite Es; lia).
    destruct (intern_store p1 states j ceil2 ceil1) as (Hp' & Edst & Eold); try done.
    { cbn. lia. }
    { by rewrite Es. }
    set (p' := mk_pool _ _ _ _ _ _ _ _) in *. exists p', (N.of_nat (length (ip_sets p1))). split; [done|]. split; [done|].
    assert (length (ip_sets p') = S (length (ip_sets p1))) as Hl' by (unfold p'; cbn [ip_sets]; rewrite length_app; cbn; lia).
    split; [etrans; [exact Hext1|]; apply pool_extends_sets; [done|done|lia|done]|].
    split; [right; rewrite Nat2N.id; lia|]. split; [|split].
    + unfold iss_states. rewrite not_singleton; [done|]. rewrite Es. lia.
    + rewrite Hl', Es. lia.
    + right. rewrite Es. split; [done|]. intros id Hid Estates. destruct (proj2 Hext1 id Hid) as [Hid1 E1]. rewrite <-E1 in Estates.
      destruct Hid1 as [(s & Hs & ->)|Hlt].
      * unfold iss_states in Estates. by rewrite singleton_bit_is in Estates.
      * pose proof (po_few _ Hp1). unfold iss_states in Estates. rewrite not_singleton in Estates by lia.
        eapply (probe_fresh (ip_table p1) states j id); [apply Hp1|done|]. apply elem_of_id_entries.
        pose proof (po_all _ Hp1 _ Hlt) as Hin. rewrite N2Nat.id in Hin. split; [done|]. split; [unfold NO_ID; lia|done].
Qed.

Lemma mk_state_set_spec al l : ∀ set,
  state_set_wf set → Forall (λ x, (x < 4294967296)%N) l →
  ∃ set', foldl (mk_state_set_cb al) (true, set) l = (true, set') ∧ state_set_wf set' ∧
    ∀ x, ss_has set' x ↔ ss_has set x ∨ x ∈ l.
Proof.
  induction l as [|x l IH]; intros set Hwf Hl; cbn [foldl].
  { exists set. split; [done|]. split; [done|]. intros x. rewrite elem_of_nil. tauto. }
  apply Forall_cons in Hl as [Hx Hl]. unfold mk_state_set_cb at 2.
  destruct (state_set_add_total set al x) as [set1 E]. rewrite E. cbn [andb].
  destruct (state_set_add_extends _ _ _ _ Hwf Hx E) as [W1 H1].
  destruct (IH set1 W1 Hl) as (set2 & E2 & W2 & H2). exists set2. split; [done|]. split; [done|].
  intros y. rewrite H2, H1, list_elem_of_singleton, elem_of_cons. tauto.
Qed.

(** The [state_set] of an identifier has its states; building it changes no
    identifier. *)
Lemma get_state_set_spec p id :
  pool_ok p → iss_valid p id →
  ∃ ss p', interned_state_set_get_state_set p id = Some (ss, p') ∧ pool_ok p' ∧ pool_extends p p' ∧
    length (ip_sets p') = length (ip_sets p) ∧ state_set_wf ss ∧ ss_elems ss = iss_states p id.
Proof.
  intros Hp Hv. unfold interned_state_set_get_state_set, iss_states. destruct Hv as [(s & Hs & ->)|Hid].
  { rewrite singleton_bit_is, singleton_mask, u32_small by done. cbn. eexists _, p. split; [done|].
    split; [done|]. split; [done|]. split; [done|]. split; [by apply state_set_wf_single|done]. }
  pose proof (po_few _ Hp) as Hfew. unfold iter_interned_state_set. rewrite not_singleton by lia.
  destruct (lookup_lt_is_Some_2 _ _ Hid) as [s Hs]. rewrite Hs. cbn [mbind option_bind].
  pose proof (proj1 (Forall_lookup _ _) (po_sets _ Hp) _ _ Hs) as (H1 & H2 & H3 & H4 & H5).
  assert (set_ids p id = ids_at (ip_buf p) (is_buf_offset s) (is_length s)) as Eids
    by (unfold set_ids; by rewrite (list_lookup_total_correct _ _ _ Hs)).
  rewrite Eids. assert (is_ss s = SSNull ∨ is_ss s ≠ SSNull) as [Enull|Hnn] by (destruct (is_ss s); [by left|by right|by right]).
  2:{ assert (state_set_wf (is_ss s) ∧ ss_elems (is_ss s) = ids_at (ip_buf p) (is_buf_offset s) (is_length s)) as [W E]
        by (by destruct H5). exists (is_ss s), p. split; [by destruct (is_ss s)|done]. }
  rewrite Enull, (proj2 (Nat.leb_le _ _) H1). cbn [mbind option_bind].
  destruct (mk_state_set_spec (ip_alloc p) _ SSNull state_set_wf_null H4) as (ss & -> & W & Hx).
  assert (ss_elems ss = ids_at (ip_buf p) (is_buf_offset s) (is_length s)) as Eel.
  { apply increasing_ext; [apply W|done|]. intros x. specialize (Hx x). unfold ss_has in Hx. rewrite Hx. cbn.
    rewrite elem_of_nil. tauto. }
  eexists ss, _. split; [done|]. set (p' := mk_pool _ _ _ _ _ _ _ _).
  assert (∀ i, set_ids p' i = set_ids p i) as Esame.
  { intros i. unfold set_ids, p'. cbn [ip_sets ip_buf]. destruct (decide (N.to_nat i = N.to_nat id)) as [Ei|Hne].
    - rewrite Ei, list_lookup_total_insert_eq by done. cbn. by rewrite (list_lookup_total_correct _ _ _ Hs).
    - by rewrite list_lookup_total_insert_ne by done. }
  assert (ip_table p' = ip_table p) as Etab.
  { unfold ip_table. apply list_fmap_ext. intros i x _. unfold id_entry. by rewrite Esame. }
  assert (length (ip_sets p') = length (ip_sets p)) as Elen by (unfold p'; cbn [ip_sets]; by rewrite length_insert).
  split; [|split; [|done]].
  - pose proof Hp as [P1 P2 P3 P4 P5 P6 P7 P8 P9 P10]. split; rewrite ?Etab, ?Elen; try done.
    unfold p'. cbn [ip_buf ip_sets]. apply Forall_insert; [done|]. unfold set_ok. cbn [is_buf_offset is_length is_ss].
    split; [done|]. split; [done|]. split; [done|]. split; [done|]. by right.
  - apply pool_extends_sets; [done|done|lia|]. intros i _. apply Esame.
Qed.
End OpLemmas.

(** ** Property *)

(** A client that interns one set after another. *)
Fixpoint intern_all `{allocator} (p : interned_state_set_pool) (l : list (list N))
    : option (interned_state_set_pool * list N) :=
  match l with
  | [] => Some (p, [])
  | states :: l =>
      '(ok, p, id) ← interned_state_set_intern_set p states;
      if (ok : bool) then '(p, ids) ← intern_all p l; Some (p, id :: ids) else None
  end.

Lemma intern_all_spec `{allocator, !alloc_total} l : ∀ p,
  pool_ok p → Forall (λ states, states ≠ [] ∧ increasing states ∧ Forall (λ x, (x < 4294967296)%N) states) l →
  (N.of_nat (length (ip_sets p) + length l) <= 1073741824)%N →
  ∃ p' ids, intern_all p l = Some (p', ids) ∧ pool_ok p' ∧ pool_extends p p' ∧ length ids = length l ∧
    ∀ i id states, ids !! i = Some id → l !! i = Some states → iss_valid p' id ∧ iss_states p' id = states.
Proof.
  induction l as [|states l IH]; intros p Hp Hl Hn; cbn [intern_all].
  { exists p, []. split; [done|]. split; [done|]. split; [done|]. split; [done|]. done. }
  apply Forall_cons in Hl as [(H1 & H2 & H3) Hl]. cbn [length] in Hn.
  destruct (intern_set_spec p states Hp H1 H2 H3 ltac:(lia)) as (p1 & id & -> & Hp1 & X1 & V1 & E1 & L1 & _).
  cbn [mbind option_bind]. destruct (IH p1 Hp1 Hl ltac:(lia)) as (p2 & ids & -> & Hp2 & X2 & L2 & K2).
  cbn [mbind option_bind]. exists p2, (id :: ids). split; [done|]. split; [done|]. split; [by etrans|].
  split; [cbn; lia|]. intros [|i] id' states' Hi Hs; cbn in Hi, Hs; [|by eapply K2]. simplify_eq.
  destruct (proj2 X2 id' V1) as [V2 E2]. split; [done|congruence].
Qed.

(** C23. Interning identifies sets: from an empty pool, two sets get the same
    identifier exactly when they are equal, whatever was interned before,
    between and after and however often the hash table grew; and an identifier
    gives back the [state_set] of its states. *)
Theorem intern_set_identifies `{allocator, !alloc_total} al l :
  Forall (λ states, states ≠ [] ∧ increasing states ∧ Forall (λ x, (x < 4294967296)%N) states) l →
  (N.of_nat (length l) <= 1073741824)%N →
  ∃ p0 p ids, interned_state_set_pool_alloc al = Some p0 ∧ intern_all p0 l = Some (p, ids) ∧ length ids = length l ∧
    (∀ i j id id' states states', ids !! i = Some id → ids !! j = Some id' → l !! i = Some states → l !! j = Some states' →
      id = id' ↔ states = states') ∧
    ∀ i id states, ids !! i = Some id → l !! i = Some states →
      ∃ ss p', interned_state_set_get_state_set p id = Some (ss, p') ∧ state_set_wf ss ∧ ss_elems ss = states.
Proof.
  intros Hl Hn. destruct (pool_alloc_spec al) as (p0 & E0 & Hp0 & Es & _).
  destruct (intern_all_spec l p0 Hp0 Hl) as (p & ids & E & Hp & _ & Hlen & K); [rewrite Es; exact Hn|].
  exists p0, p, ids. split; [done|]. split; [done|]. split; [done|]. split.
  - intros i j id id' s s' Hi Hj Hsi Hsj. destruct (K i id s Hi Hsi) as [V1 E1]. destruct (K j id' s' Hj Hsj) as [V2 E2].
    split; [intros ->; congruence|]. intros ->. apply (iss_states_inj p); [done|done|done|congruence].
  - intros i id s Hi Hs. destruct (K i id s Hi Hs) as [V1 E1].
    destruct (get_state_set_spec p id Hp V1) as (ss & p' & Eg & _ & _ & _ & W & Eel). exists ss, p'. by rewrite E1 in Eel.
Qed.

Lemma intern_set_identifies_witness :
  ∃ p0 p ids, @interned_state_set_pool_alloc always 0%N = Some p0 ∧
    @intern_all always p0 [[1; 2]; [3]; [1; 4]; [1; 2]]%N = Some (p, ids) ∧ ids !! 0 = ids !! 3 ∧ ids !! 0 ≠ ids !! 2.
Proof.
  destruct (@intern_set_identifies always always_total 0%N [[1; 2]; [3]; [1; 4]; [1; 2]]%N) as (p0 & p & ids & E0 & E & Hl & K & _).
  { repeat constructor; by_compute. }
  { vm_compute. discriminate. }
  exists p0, p, ids. split; [exact E0|]. split; [exact E|].
  destruct ids as [|a [|b [|c [|d [|]]]]]; try discriminate Hl. split.
  - cbn. f_equal. apply (K 0 3 a d [1; 2]%N [1; 2]%N); reflexivity.
  - cbn. intros [= Hac]. apply (proj1 (K 0 2 a c [1; 2]%N [1; 4]%N eq_refl eq_refl eq_refl eq_refl)) in Hac. discriminate Hac.
Defined.

(** An allocator that refuses the buffer of states only. *)
Definition no_buf : allocator := {|
  libc_malloc sz := negb (sz =? 256)%N; libc_calloc _ _ := true; libc_realloc _ := true;
  hook_malloc _ _ := true; hook_calloc _ _ _ := true; hook_realloc _ _ := true;
|}.

(** The pool is created even when its buffer could not be allocated: the
    test that follows that allocation is on another pointer. The first set of
    two states then writes through a NULL pointer. *)
Lemma pool_alloc_null_buffer :
  ∃ p, @interned_state_set_pool_alloc no_buf 0%N = Some p ∧ ip_buf_null p = true ∧
    @interned_state_set_intern_set no_buf p [1; 2]%N = None.
Proof. eexists. split; [vm_compute; reflexivity|]. split; vm_compute; reflexivity. Qed.
