(* ===== verification/DetSort.v ===== *)
(** * Sorting destination sets: src/libfsm/determinise.c

    The determiniser collects the destinations of a label as a list of states
    that may repeat and be out of order, and needs it ascending and unique to
    intern it. [sort_and_dedup_dst_buf] has three ways of doing it: insertion
    for short lists, a bitset where the states are close together, and [qsort]
    with a sweep otherwise. *)

From S2P Require Import Prelude Bits.

Definition SMALL_INPUT_LIMIT : nat := 255.
Definition QSORT_CUTOFF : N := 81920.
Definition MOVED : N := 4294967295.

(** ** Short lists *)

(** The first pass over the rest of the buffer: values above the last one of
    [tmp] are appended to it and marked in the buffer. *)
Fixpoint small_ascending (l tmp : list N) : list N * list N :=
  match l with
  | [] => ([], tmp)
  | cur :: l =>
      if (default 0 (last tmp) <? cur)%N then
        let '(buf, tmp) := small_ascending l (tmp ++ [cur]) in (MOVED :: buf, tmp)
      else
        let '(buf, tmp) := small_ascending l tmp in (cur :: buf, tmp)
  end.

(** The inner loop of the second pass: a value goes before the first larger one;
    nothing is done for a duplicate, or past the end. *)
Fixpoint small_insert (cur : N) (tmp : list N) : list N :=
  match tmp with
  | [] => []
  | other :: rest =>
      if (cur <? other)%N then cur :: other :: rest
      else if (cur =? other)%N then other :: rest
      else other :: small_insert cur rest
  end.

Definition small_second (tmp : list N) (cur : N) : list N :=
  if (cur =? MOVED)%N then tmp else small_insert cur tmp.

(** [None] where the assertion on the length fails. *)
Definition small_input_sort_and_dedup (buf : list N) : option (list N) :=
  match buf with
  | [] => None
  | x :: l =>
      if length buf <=? SMALL_INPUT_LIMIT then
        let '(rest, tmp) := small_ascending l [x] in
        Some (foldl small_second tmp rest)
      else None
  end.

(** ** Long lists *)

(** Minimum, maximum and whether the values are ascending and unique. *)
Fixpoint scan_loop (l : list N) (prev : option N) (min max : N) (sorted : bool) : N * N * bool :=
  match l with
  | [] => (min, max, sorted)
  | cur :: l =>
      let min := if (cur <? min)%N then cur else min in
      let max := if (max <? cur)%N then cur else max in
      let sorted := match prev with Some p => if (cur <=? p)%N then false else sorted | None => sorted end in
      scan_loop l (Some cur) min max sorted
  end.

(** The sweep that squashes duplicates of a sorted buffer. *)
Fixpoint squash_loop (n rd wr : nat) (buf : list N) : nat * list N :=
  match n with
  | 0 => (wr, buf)
  | S n =>
      if N.eqb (buf !!! (rd - 1)) (buf !!! rd) then squash_loop n (rd + 1) wr buf
      else squash_loop n (rd + 1) (wr + 1) (<[wr := buf !!! rd]> buf)
  end.

Definition sort_by_qsort (buf : list N) : list N :=
  let buf := qsort_N buf in
  let '(wr, buf) := squash_loop (length buf - 1) 1 1 buf in
  take wr buf.

(** The states of one word. *)
Definition word_states (min : N) (bitset : list N) (i : nat) : list N :=
  let w := word bitset i in
  if (w =? 0)%N then []
  else (λ b, (64 * N.of_nat i + N.of_nat b + min)%N) <$>
    filter (λ b, N.land w (N.shiftl 1 (N.of_nat b)) ≠ 0%N) (seq 0 64).

Definition sort_by_bitset (min max : N) (buf : list N) : list N :=
  let words := u64bitset_words (N.to_nat (max - min + 1)) in
  let bitset := foldl (λ bs x, u64bitset_set bs (N.to_nat (x - min))) (replicate words 0%N) buf in
  seq 0 words ≫= word_states min bitset.

Definition sort_and_dedup_dst_buf (buf : list N) : option (list N) :=
  if length buf <=? 1 then Some buf
  else if length buf <=? SMALL_INPUT_LIMIT then small_input_sort_and_dedup buf
  else
    let '(min, max, sorted) := scan_loop buf None 4294967295 0 true in
    if sorted then Some buf
    else if (min =? max)%N then Some [min]
    else if (QSORT_CUTOFF <? max - min)%N then Some (sort_by_qsort buf)
    else Some (sort_by_bitset min max buf).

(** ** Lemmas: short lists *)

Lemma small_insert_spec cur tmp :
  increasing tmp → (∃ y, y ∈ tmp ∧ (cur <= y)%N) →
  increasing (small_insert cur tmp) ∧ ∀ x, x ∈ small_insert cur tmp ↔ x = cur ∨ x ∈ tmp.
Proof.
  induction tmp as [|other rest IH]; intros Hinc (y & Hy & Hle); [by apply not_elem_of_nil in Hy|].
  pose proof Hinc as Hinc'. apply StronglySorted_cons in Hinc' as [Hall Hrest]. rewrite Forall_forall in Hall. cbn.
  destruct (cur <? other)%N eqn:E1; [|destruct (cur =? other)%N eqn:E2]; split_bool.
  - split; [|intros x; rewrite elem_of_cons; done].
    apply StronglySorted_cons. split; [|done]. apply Forall_forall. intros z [->|Hz]%elem_of_cons; [done|]. specialize (Hall z Hz). lia.
  - subst cur. split; [done|]. intros x. rewrite elem_of_cons. tauto.
  - apply elem_of_cons in Hy as [->|Hy]; [lia|]. destruct IH as [I1 I2]; [done|eauto|]. split.
    + apply StronglySorted_cons. split; [|done]. apply Forall_forall. intros z [->|Hz]%I2; [lia|]. by apply Hall.
    + intros x. rewrite !elem_of_cons, I2. tauto.
Qed.

Lemma increasing_snoc tmp x :
  increasing tmp → tmp ≠ [] → (default 0 (last tmp) < x)%N → increasing (tmp ++ [x]).
Proof.
  induction tmp as [|y tmp IH]; intros Hinc Hne Hx; [done|]. cbn. apply StronglySorted_cons in Hinc as [Hall Hinc].
  destruct tmp as [|z tmp].
  - repeat constructor. exact Hx.
  - apply StronglySorted_cons. split; [|by apply IH].
    pose proof Hall as Hall'. rewrite Forall_forall in Hall. apply Forall_forall. intros w [Hw|Hw]%elem_of_app; [by apply Hall|].
    apply list_elem_of_singleton in Hw as ->. destruct (last_is_Some (z :: tmp)) as [_ Hl].
    destruct Hl as [lst Hlst]; [done|]. change (last (y :: z :: tmp)) with (last (z :: tmp)) in Hx. rewrite Hlst in Hx. cbn in Hx.
    specialize (Hall lst (last_Some_elem_of _ _ Hlst)). lia.
Qed.

(** After the first pass every value is in [tmp] or still in the buffer, below
    the last value of [tmp]. *)
Lemma small_ascending_spec l : ∀ tmp,
  increasing tmp → tmp ≠ [] → Forall (λ x, (x < MOVED)%N) l →
  let '(buf, tmp') := small_ascending l tmp in
  increasing tmp' ∧ (∀ x, x ∈ tmp → x ∈ tmp') ∧
  (∀ x, x ∈ tmp' ∨ (x ∈ buf ∧ x ≠ MOVED) ↔ x ∈ tmp ∨ x ∈ l) ∧
  (∀ x, x ∈ buf → x = MOVED ∨ ∃ y, y ∈ tmp' ∧ (x <= y)%N).
Proof.
  induction l as [|cur l IH]; intros tmp Hinc Hne Hl; cbn [small_ascending].
  { split; [done|]. split; [done|]. split; [intros x; rewrite elem_of_nil; tauto|]. by intros x ?%not_elem_of_nil. }
  apply Forall_cons in Hl as [Hcur Hl]. destruct (_ <? cur)%N eqn:E; split_bool.
  - specialize (IH (tmp ++ [cur])). destruct (small_ascending l (tmp ++ [cur])) as [buf tmp'].
    destruct IH as (I1 & I2 & I3 & I4); [by apply increasing_snoc|by destruct tmp|done|].
    split; [done|]. split; [intros x Hx; apply I2, elem_of_app; by left|]. split.
    + intros x. specialize (I3 x). rewrite elem_of_app, list_elem_of_singleton in I3. rewrite !elem_of_cons. naive_solver.
    + intros x [->|Hx]%elem_of_cons; [by left|by apply I4].
  - specialize (IH tmp). destruct (small_ascending l tmp) as [buf tmp'].
    destruct IH as (I1 & I2 & I3 & I4); [done|done|done|].
    destruct (last tmp) as [lst|] eqn:El; [|by apply last_None in El]. cbn in E. apply last_Some_elem_of in El.
    split; [done|]. split; [done|]. split.
    + intros x. specialize (I3 x). rewrite !elem_of_cons. split; [|].
      * intros [?|[[->|?] ?]]; [|by right; left|]; [destruct (proj1 I3 ltac:(by left))|destruct (proj1 I3 ltac:(by right))]; auto.
      * intros [?|[->|?]]; [|right; split; [by left|lia]|]; [destruct (proj2 I3 ltac:(by left)) as [?|[? ?]]|destruct (proj2 I3 ltac:(by right)) as [?|[? ?]]]; auto.
    + intros x [->|Hx]%elem_of_cons; [|by apply I4]. right. exists lst. split; [by apply I2|done].
Qed.

Lemma small_second_spec l : ∀ tmp,
  increasing tmp → (∀ x, x ∈ l → x = MOVED ∨ ∃ y, y ∈ tmp ∧ (x <= y)%N) →
  increasing (foldl small_second tmp l) ∧
  ∀ x, x ∈ foldl small_second tmp l ↔ x ∈ tmp ∨ (x ∈ l ∧ x ≠ MOVED).
Proof.
  induction l as [|cur l IH]; intros tmp Hinc Hl; cbn [foldl].
  { split; [done|]. intros x. rewrite elem_of_nil. tauto. }
  unfold small_second at 2 4. destruct (cur =? MOVED)%N eqn:E; split_bool.
  - destruct (IH tmp Hinc) as [I1 I2]; [intros x Hx; apply Hl; by right|]. split; [done|].
    intros x. rewrite I2, elem_of_cons. naive_solver.
  - destruct (Hl cur ltac:(left)) as [?|Hy]; [done|]. destruct (small_insert_spec cur tmp Hinc Hy) as [S1 S2].
    destruct (IH (small_insert cur tmp) S1) as [I1 I2].
    { intros x Hx. destruct (Hl x ltac:(by right)) as [?|(y & Hy' & Hle)]; [by left|right]. exists y. split; [|done]. apply S2. by right. }
    split; [done|]. intros x. rewrite I2, S2, elem_of_cons. naive_solver.
Qed.

Lemma small_input_spec buf :
  buf ≠ [] → length buf ≤ SMALL_INPUT_LIMIT → Forall (λ x, (x < MOVED)%N) buf →
  ∃ l, small_input_sort_and_dedup buf = Some l ∧ increasing l ∧ ∀ x, x ∈ l ↔ x ∈ buf.
Proof.
  intros Hne Hlen Hl. destruct buf as [|x l]; [done|]. unfold small_input_sort_and_dedup.
  rewrite (proj2 (Nat.leb_le _ _) Hlen). apply Forall_cons in Hl as [Hx Hl].
  pose proof (small_ascending_spec l [x]) as Ha. destruct (small_ascending l [x]) as [rest tmp].
  destruct Ha as (A1 & A2 & A3 & A4); [repeat constructor|done|done|].
  destruct (small_second_spec rest tmp A1 A4) as [S1 S2]. eexists. split; [done|]. split; [done|].
  intros y. rewrite S2, A3, list_elem_of_singleton, elem_of_cons. done.
Qed.

(** ** Lemmas: long lists *)

Lemma scan_loop_spec l : ∀ prev min max sorted,
  let '(mn, mx, st) := scan_loop l prev min max sorted in
  (mn <= min)%N ∧ (max <= mx)%N ∧ (∀ x, x ∈ l → (mn <= x <= mx)%N) ∧
  (mn = min ∨ mn ∈ l) ∧ (mx = max ∨ mx ∈ l) ∧
  (st = true → sorted = true ∧ match prev with Some p => increasing (p :: l) | None => increasing l end).
Proof.
  induction l as [|cur l IH]; intros prev min max sorted; cbn [scan_loop].
  { split; [done|]. split; [done|]. split; [by intros x ?%not_elem_of_nil|]. split; [by left|]. split; [by left|].
    intros ->. split; [done|]. destruct prev; repeat constructor. }
  set (mn0 := if (cur <? min)%N then cur else min). set (mx0 := if (max <? cur)%N then cur else max).
  set (st0 := match prev with Some p => _ | None => _ end).
  specialize (IH (Some cur) mn0 mx0 st0). destruct (scan_loop l (Some cur) mn0 mx0 st0) as [[mn mx] st].
  destruct IH as (I1 & I2 & I3 & I4 & I5 & I6).
  assert (mn0 <= min ∧ mn0 <= cur)%N as [M1 M2] by (unfold mn0; destruct (cur <? min)%N eqn:E; split_bool; lia).
  assert (max <= mx0 ∧ cur <= mx0)%N as [M3 M4] by (unfold mx0; destruct (max <? cur)%N eqn:E; split_bool; lia).
  split; [lia|]. split; [lia|]. split; [|split; [|split]].
  - intros x [->|Hx]%elem_of_cons; [lia|by apply I3].
  - rewrite elem_of_cons. destruct I4 as [->|?]; [|by right; right]. unfold mn0. destruct (cur <? min)%N; auto.
  - rewrite elem_of_cons. destruct I5 as [->|?]; [|by right; right]. unfold mx0. destruct (max <? cur)%N; auto.
  - intros Hst. destruct (I6 Hst) as [H1 H2]. unfold st0 in H1. destruct prev as [p|]; [|done].
    destruct (cur <=? p)%N eqn:E; split_bool; [done|]. split; [done|]. apply StronglySorted_cons. split; [|done].
    apply StronglySorted_cons in H2 as [H2 _]. rewrite Forall_forall in H2. apply Forall_forall.
    intros z [->|Hz]%elem_of_cons; [done|]. specialize (H2 z Hz). lia.
Qed.

Lemma squash_loop_dedup n : ∀ rd wr buf,
  squash_loop n rd wr buf = let '(a, c) := dedup_loop n rd wr buf in (c, a).
Proof.
  induction n as [|n IH]; intros rd wr buf; cbn [squash_loop dedup_loop]; [done|].
  rewrite !Nat.add_1_r. destruct (N.eqb _ _); apply IH.
Qed.

Lemma sort_by_qsort_spec buf :
  increasing (sort_by_qsort buf) ∧ ∀ x, x ∈ sort_by_qsort buf ↔ x ∈ buf.
Proof.
  assert (sort_by_qsort buf = dedup_inplace (qsort_N buf)) as ->.
  { unfold sort_by_qsort. rewrite squash_loop_dedup. unfold dedup_inplace. destruct (qsort_N buf) as [|y l]; [done|].
    by destruct (dedup_loop _ _ _ _). }
  split; [apply sort_dedup_increasing|]. intros x. apply elem_of_sort_dedup.
Qed.

Lemma word_states_bits min bs i :
  word_states min bs i = (λ k, (N.of_nat k + min)%N) <$> filter (λ k, bs_get bs k = true) (seq (64 * i) 64).
Proof.
  assert (∀ b, b < 64 → (N.land (word bs i) (N.shiftl 1 (N.of_nat b)) ≠ 0%N ↔ bs_get bs (64 * i + b) = true)) as Hb.
  { intros b Hb. rewrite bs_get_word by done. rewrite N.shiftl_1_l. pose proof (land_pow2_zero (word bs i) (N.of_nat b)) as E.
    destruct (N.testbit _ _); cbn in E; split_bool; naive_solver. }
  assert (∀ l, Forall (λ b, b < 64) l →
    (λ b, (64 * N.of_nat i + N.of_nat b + min)%N) <$> filter (λ b, N.land (word bs i) (N.shiftl 1 (N.of_nat b)) ≠ 0%N) l =
    (λ k, (N.of_nat k + min)%N) <$> filter (λ k, bs_get bs k = true) (Nat.add (64 * i) <$> l)) as Hl.
  { induction l as [|b l IH]; intros Hf; [done|]. apply Forall_cons in Hf as [Hb64 Hf]. rewrite fmap_cons, !filter_cons.
    specialize (Hb b Hb64). destruct (decide (N.land _ _ ≠ 0%N)) as [Hd|Hd].
    - rewrite decide_True by (by apply Hb). rewrite !fmap_cons. f_equal; [lia|by apply IH].
    - rewrite decide_False by (by rewrite <-Hb). by apply IH. }
  assert (seq (64 * i) 64 = Nat.add (64 * i) <$> seq 0 64) as -> by (by rewrite fmap_add_seq, Nat.add_0_r).
  rewrite <-Hl by (apply Forall_forall; intros b ?%elem_of_seq; lia). unfold word_states.
  destruct (word bs i =? 0)%N eqn:E; [|done]. apply N.eqb_eq in E. rewrite E.
  symmetry. clear. induction (seq 0 64) as [|b l IH]; [done|]. rewrite filter_cons, decide_False; [exact IH|].
  intros Hn. by rewrite N.land_0_l in Hn.
Qed.

Lemma bitset_states min bs n :
  seq 0 n ≫= word_states min bs = (λ k, (N.of_nat k + min)%N) <$> filter (λ k, bs_get bs k = true) (seq 0 (64 * n)).
Proof.
  induction n as [|n IH]; [done|]. rewrite seq_S, bind_app, IH. cbn [mbind list_bind]. rewrite app_nil_r, word_states_bits.
  replace (64 * S n) with (64 * n + 64) by lia. rewrite seq_app, filter_app, fmap_app. done.
Qed.

Lemma set_all_bits min l : ∀ bs,
  (∀ x, x ∈ l → N.to_nat (x - min) / 64 < length bs) →
  let bs' := foldl (λ bs x, u64bitset_set bs (N.to_nat (x - min))) bs l in
  length bs' = length bs ∧ ∀ k, bs_get bs' k = true ↔ bs_get bs k = true ∨ ∃ x, x ∈ l ∧ k = N.to_nat (x - min).
Proof.
  induction l as [|y l IH]; intros bs Hl; cbn [foldl].
  { split; [done|]. intros k. split; [by left|]. intros [?|(x & ?%not_elem_of_nil & _)]; done. }
  assert (length (u64bitset_set bs (N.to_nat (y - min))) = length bs) as E by (unfold u64bitset_set; by rewrite length_insert).
  destruct (IH (u64bitset_set bs (N.to_nat (y - min)))) as [I1 I2]; [intros x Hx; rewrite E; apply Hl; by right|].
  split; [congruence|]. intros k. rewrite I2, bs_get_set, orb_true_iff, Nat.eqb_eq by (apply Hl; left).
  setoid_rewrite elem_of_cons. naive_solver.
Qed.

Lemma increasing_filter_seq (P : nat → Prop) `{∀ k, Decision (P k)} min a n :
  increasing ((λ k, (N.of_nat k + min)%N) <$> filter P (seq a n)).
Proof.
  revert a. induction n as [|n IH]; intros a; [constructor|]. cbn [seq]. rewrite filter_cons. case_decide; [|apply IH].
  rewrite fmap_cons. apply StronglySorted_cons. split; [|apply IH]. apply Forall_forall.
  intros x (k & -> & [_ Hk%elem_of_seq]%list_elem_of_filter)%list_elem_of_fmap. lia.
Qed.

Lemma sort_by_bitset_spec min max buf :
  (∀ x, x ∈ buf → (min <= x <= max)%N) →
  increasing (sort_by_bitset min max buf) ∧ ∀ x, x ∈ sort_by_bitset min max buf ↔ x ∈ buf.
Proof.
  intros Hb. unfold sort_by_bitset. set (n := u64bitset_words _). rewrite bitset_states.
  split; [apply increasing_filter_seq|]. intros x.
  assert (∀ y, y ∈ buf → N.to_nat (y - min) / 64 < length (replicate n 0%N)) as Hidx.
  { intros y Hy. rewrite length_replicate. apply words_index. specialize (Hb y Hy). lia. }
  destruct (set_all_bits min buf (replicate n 0%N) Hidx) as [L1 L2].
  rewrite list_elem_of_fmap. split.
  - intros (k & -> & [Hk _]%list_elem_of_filter). apply L2 in Hk as [Hk|(y & Hy & ->)]; [by rewrite bs_get_zero in Hk|].
    specialize (Hb y Hy). by replace (N.of_nat (N.to_nat (y - min)) + min)%N with y by lia.
  - intros Hx. pose proof (Hb x Hx). exists (N.to_nat (x - min)). split; [lia|]. apply list_elem_of_filter. split.
    + apply L2. right. eauto.
    + apply elem_of_seq. specialize (Hidx x Hx). rewrite length_replicate in Hidx.
      pose proof (Nat.div_mod_eq (N.to_nat (x - min)) 64). pose proof (Nat.mod_upper_bound (N.to_nat (x - min)) 64). lia.
Qed.

Lemma sort_and_dedup_spec buf :
  Forall (λ x, (x < MOVED)%N) buf →
  ∃ l, sort_and_dedup_dst_buf buf = Some l ∧ increasing l ∧ ∀ x, x ∈ l ↔ x ∈ buf.
Proof.
  intros Hl. unfold sort_and_dedup_dst_buf. destruct (length buf <=? 1) eqn:E1; split_bool.
  { exists buf. split; [done|]. split; [|done]. destruct buf as [|x [|y l]]; [constructor|repeat constructor|cbn in E1; lia]. }
  destruct (length buf <=? SMALL_INPUT_LIMIT) eqn:E2; split_bool.
  { apply small_input_spec; [intros ->; cbn in E1; lia|done|done]. }
  pose proof (scan_loop_spec buf None 4294967295 0 true) as Hs.
  destruct (scan_loop buf None 4294967295 0 true) as [[mn mx] st]. destruct Hs as (_ & _ & S3 & S4 & S5 & S6).
  destruct st; [exists buf; split; [done|]; split; [by apply S6|done]|].
  destruct (mn =? mx)%N eqn:E3; split_bool.
  { subst mx. exists [mn]. split; [done|]. split; [repeat constructor|]. intros x. rewrite list_elem_of_singleton. split.
    - intros ->. destruct buf as [|y l]; [cbn in E1; lia|]. specialize (S3 y ltac:(left)). replace mn with y by lia. left.
    - intros Hx. specialize (S3 x Hx). lia. }
  destruct (_ <? _)%N; eexists; (split; [done|]); [apply sort_by_qsort_spec|by apply sort_by_bitset_spec].
Qed.

(** ** Property *)

(** C24. Whatever way it takes, by insertion, by a bitset or by [qsort] and a
    sweep, [sort_and_dedup_dst_buf] gives what sorting the buffer and dropping
    repeated values gives: the same states, each once, in ascending order. *)
Theorem sort_and_dedup_agrees buf :
  Forall (λ x, (x < MOVED)%N) buf → sort_and_dedup_dst_buf buf = Some (dedup_inplace (qsort_N buf)).
Proof.
  intros Hl. destruct (sort_and_dedup_spec buf Hl) as (l & -> & Hinc & Hx). f_equal.
  apply increasing_ext; [done|apply sort_dedup_increasing|]. intros x. by rewrite Hx, elem_of_sort_dedup.
Qed.

Lemma sort_and_dedup_agrees_witness :
  sort_and_dedup_dst_buf [5; 1; 5; 9; 3]%N = Some (dedup_inplace (qsort_N [5; 1; 5; 9; 3]%N)) ∧
  sort_and_dedup_dst_buf [5; 1; 5; 9; 3]%N = Some [1; 3; 5; 9]%N.
Proof.
  split; [|vm_compute; reflexivity]. apply sort_and_dedup_agrees. repeat constructor; by_compute.
Defined.
