(* ===== verification/DetCache.v ===== *)
(** * The caches of the determiniser: src/libfsm/determinise.c

    Determinising asks over and over where the labels of a set of states lead.
    The answers are kept as results, arrays of entries (a set of labels and the
    set of states they lead to), with

    - one buffer of destination sets, which entries refer to by offset and
      length, and a hash table to find a set that is already there;
    - a hash table from a state, or from a pair of results, to the result that
      combines them. An identifier is a state, or a result when [RESULT_BIT] is
      set. *)

From S2P Require Import Prelude StateSet Bits EdgeSet Probe HashView InternedSet DetSort.

Definition RESULT_BIT : N := 2147483648.
Definition AC_NO_STATE : N := 4294967295.
Definition DEF_GROUP_BUFFER_CEIL : nat := 4.
Definition DEF_TO_SET_CEIL : nat := 4.
Definition DEF_GROUP_GS : nat := 4.
Definition DEF_PAIR_CACHE_HTAB_BUCKET_COUNT : nat := 64.
Definition DEF_DST_TMP_CEIL : nat := 4.
Definition DEF_TO_SET_HTAB_BUCKET_COUNT : nat := 64.

Definition is_result (id : N) : bool := negb (N.land id RESULT_BIT =? 0)%N.
Definition result_mask (id : N) : N := N.ldiff id RESULT_BIT.

(** A count of 0 is an unused bucket. *)
Record to_set_bucket := mk_tsb { tb_count : N; tb_offset : N }.

(** [to_sets] and [to_set_htab]; [used] is the length of [ts_buf]. *)
Record to_sets := mk_to_sets {
  ts_buf : list N;
  ts_ceil : nat;
  ts_buckets : list to_set_bucket;
  ts_buckets_used : nat;
}.

Record result_entry := mk_re {
  re_to_set_offset : N;
  re_to_set_count : N;
  re_words_used : N;
  re_labels : list N;
}.

Abbreviation analysis_result := (list result_entry).

(** [results]: the committed results and the buffer for the current one. *)
Record results := mk_results {
  rs_rs : list analysis_result;
  rs_ceil : nat;
  rb_entries : list result_entry;
  rb_ceil : nat;
}.

Inductive result_pair_bucket_type := RPBT_UNUSED | RPBT_SINGLE_STATE | RPBT_PAIR.

Record result_pair_bucket := mk_rpb {
  pb_t : result_pair_bucket_type;
  pb_id0 : N;
  pb_id1 : N;
  pb_result_id : N;
}.

Record result_pair_htab := mk_htab { ph_buckets : list result_pair_bucket; ph_used : nat }.

Definition unused_pair : result_pair_bucket := mk_rpb RPBT_UNUSED 0 0 0.

Section Ops.
Context `{allocator}.

(** ** Destination sets *)

Definition to_set_hash (ids : list N) : N := hash_ids ids.

(** The probe loop: the offset of the set, if it is there; the outer [None] is
    a failed assertion. *)
Fixpoint to_set_probe (n i : nat) (h : N) (ts : to_sets) (dst : list N) : option (option N) :=
  match n with
  | 0 => Some None
  | S n =>
      b ← ts_buckets ts !! bucket_index h (length (ts_buckets ts)) i;
      if (tb_count b =? 0)%N then Some None
      else if (tb_count b =? N.of_nat (length dst))%N then
        if negb (ts_ceil ts =? 0) && (N.to_nat (tb_offset b) + length dst <=? length (ts_buf ts)) then
          if bool_decide (ids_at (ts_buf ts) (N.to_nat (tb_offset b)) (length dst) = dst) then Some (Some (tb_offset b))
          else to_set_probe n (i + 1) h ts dst
        else None
      else to_set_probe n (i + 1) h ts dst
  end.

(** The hash is also a result. *)
Definition to_set_htab_check (ts : to_sets) (dst : list N) : N * option (option N) :=
  let h := to_set_hash dst in
  (h, if length (ts_buckets ts) =? 0 then Some None else to_set_probe (length (ts_buckets ts)) 0 h ts dst).

(** One bucket moved to a larger table; a set that finds no bucket is dropped. *)
Definition to_set_move (ts : to_sets) (acc : option (list to_set_bucket)) (ob : to_set_bucket)
    : option (list to_set_bucket) :=
  nbuckets ← acc;
  if (tb_count ob =? 0)%N then Some nbuckets
  else if N.to_nat (tb_offset ob) + N.to_nat (tb_count ob) <=? length (ts_buf ts) then
    let h := to_set_hash (ids_at (ts_buf ts) (N.to_nat (tb_offset ob)) (N.to_nat (tb_count ob))) in
    match first_free (λ b, (tb_count b =? 0)%N) (length nbuckets) 0 h nbuckets with
    | Some j => Some (<[j := ob]> nbuckets)
    | None => Some nbuckets
    end
  else None.

(** The loop that stores a new set; [None] where an assertion fails. *)
Fixpoint to_set_store (n i : nat) (hash : N) (buckets : list to_set_bucket) (count offset : N)
    : option (list to_set_bucket) :=
  match n with
  | 0 => None
  | S n =>
      let j := bucket_index hash (length buckets) i in
      b ← buckets !! j;
      if (tb_count b =? 0)%N then Some (<[j := mk_tsb count offset]> buckets)
      else if (tb_count b =? count)%N && (tb_offset b =? offset)%N then None
      else to_set_store n (i + 1) hash buckets count offset
  end.

(** The first part of [to_set_htab_save]: a larger table when it is half full. *)
Definition to_set_htab_grow (al : fsm_alloc) (ts : to_sets) : option (bool * to_sets) :=
  if length (ts_buckets ts) / 2 <=? ts_buckets_used ts then
    let ocount := length (ts_buckets ts) in
    let ncount := if ocount =? 0 then DEF_TO_SET_HTAB_BUCKET_COUNT else 2 * ocount in
    if f_calloc al (N.of_nat ncount) 8 then
      nbuckets ← foldl (to_set_move ts) (Some (replicate ncount (mk_tsb 0 0))) (ts_buckets ts);
      Some (true, mk_to_sets (ts_buf ts) (ts_ceil ts) nbuckets (ts_buckets_used ts))
    else Some (false, ts)
  else Some (true, ts).

Definition to_set_htab_save (al : fsm_alloc) (ts : to_sets) (count hash offset : N) : option (bool * to_sets) :=
  '(ok, ts) ← to_set_htab_grow al ts;
  if (ok : bool) then
    if (ts_buckets_used ts <=? length (ts_buckets ts) / 2) && (1 <? length (ts_buckets ts)) then
      buckets ← to_set_store (length (ts_buckets ts)) 0 hash (ts_buckets ts) count offset;
      Some (true, mk_to_sets (ts_buf ts) (ts_ceil ts) buckets (ts_buckets_used ts + 1))
    else None
  else Some (false, ts).

(** The offset of a set of states, stored if it is new. [None] also where the
    offset does not fit its 32 bits: the buffer is then overwritten from a
    wrapped offset. *)
Definition save_to_set (al : fsm_alloc) (ts : to_sets) (dst : list N) : option (bool * to_sets * N) :=
  let '(hash, found) := to_set_htab_check ts dst in
  hit ← found;
  match hit with
  | Some offset => Some (true, ts, offset)
  | None =>
      let count := length dst in
      let used := length (ts_buf ts) in
      let '(ok, ts) :=
        if ts_ceil ts <=? used + count then
          let nceil := if ts_ceil ts =? 0 then DEF_TO_SET_CEIL else 2 * ts_ceil ts in
          let nceil := double_to (used + count) nceil (used + count) in
          if f_realloc al (N.of_nat nceil * 4) then (true, mk_to_sets (ts_buf ts) nceil (ts_buckets ts) (ts_buckets_used ts))
          else (false, ts)
        else (true, ts) in
      if ok then
        if (N.of_nat used <? 4294967296)%N && (used + count <=? ts_ceil ts) then
          let offset := N.of_nat used in
          let ts := mk_to_sets (ts_buf ts ++ dst) (ts_ceil ts) (ts_buckets ts) (ts_buckets_used ts) in
          '(ok, ts) ← to_set_htab_save al ts (N.of_nat count) hash offset;
          Some (ok, ts, offset)
        else None
      else Some (false, ts, 0%N)
  end.

(** ** Results *)

(** The bits of the words of [labels] that are not 0. *)
Definition words_used_mask (labels : list N) : N :=
  foldl (λ m i, if (word labels i =? 0)%N then m else N.lor m (N.shiftl 1 (N.of_nat i))) 0%N (seq 0 4).

Definition add_group_dst_info_to_buffer (al : fsm_alloc) (ts : to_sets) (rs : results) (dst labels : list N)
    : option (bool * to_sets * results) :=
  let '(ok, rs) :=
    if length (rb_entries rs) =? rb_ceil rs then
      let nceil := if rb_ceil rs =? 0 then DEF_GROUP_BUFFER_CEIL else 2 * rb_ceil rs in
      if f_realloc al (N.of_nat nceil * 48) then (true, mk_results (rs_rs rs) (rs_ceil rs) (rb_entries rs) nceil)
      else (false, rs)
    else (true, rs) in
  if ok then
    '(ok, ts, offset) ← save_to_set al ts dst;
    if (ok : bool) then
      let ge := mk_re offset (u32 (N.of_nat (length dst))) (words_used_mask labels) labels in
      Some (true, ts, mk_results (rs_rs rs) (rs_ceil rs) (rb_entries rs ++ [ge]) (rb_ceil rs))
    else Some (false, ts, rs)
  else Some (false, ts, rs).

(** The identifier of the new result is its index. *)
Definition commit_buffered_result (al : fsm_alloc) (rs : results) : bool * results * N :=
  let '(ok, rs) :=
    if length (rs_rs rs) =? rs_ceil rs then
      let nceil := if rs_ceil rs =? 0 then DEF_GROUP_GS else 2 * rs_ceil rs in
      if f_realloc al (N.of_nat nceil * 8) then (true, mk_results (rs_rs rs) nceil (rb_entries rs) (rb_ceil rs))
      else (false, rs)
    else (true, rs) in
  if ok then
    if f_malloc al (8 + N.of_nat (length (rb_entries rs)) * 48) then
      (true, mk_results (rs_rs rs ++ [rb_entries rs]) (rs_ceil rs) [] (rb_ceil rs), u32 (N.of_nat (length (rs_rs rs))))
    else (false, rs, 0%N)
  else (false, rs, 0%N).

(** ** States and pairs *)

(** [None] where an assertion fails. *)
Definition hash_pair (a b : N) : option N :=
  let ma := result_mask a in
  let mb := result_mask b in
  if negb (a =? b)%N && is_result a && is_result b && negb (ma =? mb)%N then
    Some (hash_id (if (ma <? mb)%N then N.lor (u64 (N.shiftl ma 32)) mb else N.lor (u64 (N.shiftl mb 32)) ma))
  else None.

Definition eq_bucket_pair (b : result_pair_bucket) (pa pb : N) : bool :=
  if (result_mask pa <? result_mask pb)%N then (pb_id0 b =? pa)%N && (pb_id1 b =? pb)%N
  else (pb_id0 b =? pb)%N && (pb_id1 b =? pa)%N.

(** The two lookups: the bucket a predicate accepts before an unused one. *)
Fixpoint pair_probe (n i : nat) (h : N) (hit : result_pair_bucket → bool) (buckets : list result_pair_bucket)
    : option result_pair_bucket :=
  match n with
  | 0 => None
  | S n =>
      match buckets !! bucket_index h (length buckets) i with
      | None => None
      | Some b =>
          match pb_t b with
          | RPBT_UNUSED => None
          | _ => if hit b then Some b else pair_probe n (i + 1) h hit buckets
          end
      end
  end.

Definition is_pair (b : result_pair_bucket) : bool := match pb_t b with RPBT_PAIR => true | _ => false end.
Definition is_single (b : result_pair_bucket) : bool := match pb_t b with RPBT_SINGLE_STATE => true | _ => false end.
Definition is_unused (b : result_pair_bucket) : bool := match pb_t b with RPBT_UNUSED => true | _ => false end.

(** The result cached for a pair, if there is one; the outer [None] is a failed
    assertion. *)
Definition analysis_cache_check_pair (htab : result_pair_htab) (pa pb : N) : option (option N) :=
  if is_result pa && is_result pb then
    if length (ph_buckets htab) =? 0 then Some None
    else
      h ← hash_pair pa pb;
      Some (pb_result_id <$> pair_probe (length (ph_buckets htab)) 0 h (λ b, is_pair b && eq_bucket_pair b pa pb) (ph_buckets htab))
  else None.

Definition analysis_cache_check_single_state (htab : result_pair_htab) (id : N) : option (option N) :=
  if negb (is_result id) then
    if length (ph_buckets htab) =? 0 then Some None
    else
      match pair_probe (length (ph_buckets htab)) 0 (hash_id id) (λ b, is_single b && (pb_id0 b =? id)%N) (ph_buckets htab) with
      | Some b => if (pb_id1 b =? id)%N then Some (Some (pb_result_id b)) else None
      | None => Some None
      end
  else None.

Definition pair_move (acc : option (list result_pair_bucket)) (ob : result_pair_bucket) : option (list result_pair_bucket) :=
  nbuckets ← acc;
  match pb_t ob with
  | RPBT_UNUSED => Some nbuckets
  | t =>
      h ← match t with RPBT_SINGLE_STATE => Some (hash_id (pb_id0 ob)) | _ => hash_pair (pb_id0 ob) (pb_id1 ob) end;
      if match t with
         | RPBT_SINGLE_STATE => (pb_id0 ob =? pb_id1 ob)%N
         | _ => (result_mask (pb_id0 ob) <? result_mask (pb_id1 ob))%N
         end
      then
        match first_free is_unused (length nbuckets) 0 h nbuckets with
        | Some j => Some (<[j := ob]> nbuckets)
        | None => Some nbuckets
        end
      else None
  end.

(** The first part of [pair_cache_save]. *)
Definition pair_cache_grow (al : fsm_alloc) (htab : result_pair_htab) : option (bool * result_pair_htab) :=
  if length (ph_buckets htab) / 2 <=? ph_used htab then
    let ncount := if length (ph_buckets htab) =? 0 then DEF_PAIR_CACHE_HTAB_BUCKET_COUNT else 2 * length (ph_buckets htab) in
    if f_calloc al (N.of_nat ncount) 16 then
      nbuckets ← foldl pair_move (Some (replicate ncount unused_pair)) (ph_buckets htab);
      Some (true, mk_htab nbuckets (ph_used htab))
    else Some (false, htab)
  else Some (true, htab).

Fixpoint pair_store (n i : nat) (h : N) (buckets : list result_pair_bucket) (type : result_pair_bucket_type)
    (pa pb result_id : N) : option (list result_pair_bucket) :=
  match n with
  | 0 => None
  | S n =>
      let j := bucket_index h (length buckets) i in
      b ← buckets !! j;
      if is_unused b then
        Some (<[j := mk_rpb type (if (pa <? pb)%N then pa else pb) (if (pa <? pb)%N then pb else pa) result_id]> buckets)
      else if (pb_id0 b =? pa)%N && (pb_id1 b =? pb)%N then None
      else pair_store n (i + 1) h buckets type pa pb result_id
  end.

Definition pair_cache_save (al : fsm_alloc) (htab : result_pair_htab) (type : result_pair_bucket_type) (pa pb result_id : N)
    : option (bool * result_pair_htab) :=
  if match type with
     | RPBT_SINGLE_STATE => (pa =? pb)%N && negb (is_result pa)
     | RPBT_PAIR => negb (pa =? pb)%N && is_result pa && is_result pb && (result_mask pa <? result_mask pb)%N
     | RPBT_UNUSED => false
     end
  then
    '(ok, htab) ← pair_cache_grow al htab;
    if (ok : bool) then
      h ← if (pa =? pb)%N then Some (hash_id pa) else hash_pair pa pb;
      buckets ← pair_store (length (ph_buckets htab)) 0 h (ph_buckets htab) type pa pb result_id;
      Some (true, mk_htab buckets (ph_used htab + 1))
    else Some (false, htab)
  else None.

Definition analysis_cache_save_single_state (al : fsm_alloc) (htab : result_pair_htab) (state_id result_id : N)
    : option (bool * result_pair_htab) :=
  if negb (is_result state_id) then pair_cache_save al htab RPBT_SINGLE_STATE state_id state_id result_id else None.

Definition analysis_cache_save_pair (al : fsm_alloc) (htab : result_pair_htab) (a b result_id : N)
    : option (bool * result_pair_htab) :=
  if negb (a =? b)%N && negb (is_result a) && negb (is_result b) then
    let '(a, b) := if (b <? a)%N then (b, a) else (a, b) in
    if (a <? b)%N then pair_cache_save al htab RPBT_PAIR (N.lor a RESULT_BIT) (N.lor b RESULT_BIT) result_id
    else None
  else None.
End Ops.

(** ** Meaning and invariant: destination sets *)

Definition ts_entry (buf : list N) (b : to_set_bucket) : option (list N * N) :=
  if (tb_count b =? 0)%N then None
  else Some (ids_at buf (N.to_nat (tb_offset b)) (N.to_nat (tb_count b)), tb_offset b).

Record ts_ok (ts : to_sets) : Prop := {
  to_table : ts_buckets ts = [] ∨ table_ok (ts_entry (ts_buf ts) <$> ts_buckets ts);
  to_entries : length (entries (ts_entry (ts_buf ts) <$> ts_buckets ts)) = ts_buckets_used ts;
  to_half : ts_buckets_used ts ≤ length (ts_buckets ts) / 2;
  to_size : ts_buckets ts = [] ∨ 64 ≤ length (ts_buckets ts);
  to_in : ∀ b, b ∈ ts_buckets ts → tb_count b ≠ 0%N → N.to_nat (tb_offset b) + N.to_nat (tb_count b) ≤ length (ts_buf ts);
  to_ceil : length (ts_buf ts) ≤ ts_ceil ts;
}.

Lemma ts_entry_None buf b : (tb_count b =? 0)%N = true ↔ ts_entry buf b = None.
Proof. unfold ts_entry. by destruct (tb_count b =? 0)%N. Qed.

(** More states at the end of the buffer change no set. *)
Lemma ts_entry_app buf l b :
  (tb_count b ≠ 0%N → N.to_nat (tb_offset b) + N.to_nat (tb_count b) ≤ length buf) →
  ts_entry (buf ++ l) b = ts_entry buf b.
Proof.
  intros Hb. unfold ts_entry. destruct (tb_count b =? 0)%N eqn:E; split_bool; [done|]. by rewrite ids_at_app by auto.
Qed.

Lemma ts_view_app ts l :
  ts_ok ts → ts_entry (ts_buf ts ++ l) <$> ts_buckets ts = ts_entry (ts_buf ts) <$> ts_buckets ts.
Proof.
  intros Hts. apply list_fmap_ext. intros i b Hb. apply ts_entry_app, (to_in _ Hts), list_elem_of_lookup. eauto.
Qed.

Section ToSetLemmas.
Context `{allocator, !alloc_total}.

Lemma to_set_probe_loop ts dst n : ∀ i,
  ts_ok ts → table_ok (ts_entry (ts_buf ts) <$> ts_buckets ts) → dst ≠ [] →
  to_set_probe n i (to_set_hash dst) ts dst =
  Some (match probe_loop n i (ts_entry (ts_buf ts) <$> ts_buckets ts) dst with Some (_, o) => o | None => None end).
Proof.
  induction n as [|n IH]; intros i Hts Hok Hne; cbn [to_set_probe probe_loop]; [done|].
  pose proof (slot_lt _ dst i Hok) as Hlt.
  change (slot (ts_entry (ts_buf ts) <$> ts_buckets ts) dst i) with
    (bucket_index (to_set_hash dst) (length (ts_entry (ts_buf ts) <$> ts_buckets ts)) i) in *.
  rewrite length_fmap in *. rewrite list_lookup_fmap. destruct (lookup_lt_is_Some_2 _ _ Hlt) as [b Hb]. rewrite Hb.
  cbn [fmap option_fmap option_map mbind option_bind]. unfold ts_entry at 1.
  destruct (tb_count b =? 0)%N eqn:E0; [done|]. apply N.eqb_neq in E0.
  pose proof (to_in _ Hts b ltac:(apply list_elem_of_lookup; eauto) E0) as Hin. pose proof (to_ceil _ Hts) as Hceil.
  destruct (tb_count b =? N.of_nat (length dst))%N eqn:Ec; split_bool.
  - assert (N.to_nat (tb_count b) = length dst) as Ec' by lia. rewrite Ec' in Hin |- *.
    assert (length dst ≠ 0) by (by destruct dst).
    rewrite (proj2 (Nat.leb_le _ _) Hin), (proj2 (Nat.eqb_neq (ts_ceil ts) 0)) by lia. cbn [negb andb].
    destruct (bool_decide _); [done|by apply IH].
  - rewrite bool_decide_eq_false_2; [by apply IH|]. intros Heq. apply (f_equal length) in Heq.
    rewrite length_ids_at in Heq by done. lia.
Qed.

(** A set is found exactly when it is there. *)
Lemma to_set_check_spec ts dst :
  ts_ok ts → dst ≠ [] →
  ∃ o, to_set_htab_check ts dst = (hash_ids dst, Some o) ∧
    match o with
    | Some off => Some (dst, off) ∈ ts_entry (ts_buf ts) <$> ts_buckets ts
    | None => ∀ off, Some (dst, off) ∉ ts_entry (ts_buf ts) <$> ts_buckets ts
    end.
Proof.
  intros Hts Hne. unfold to_set_htab_check. destruct (to_table _ Hts) as [Enil|Hok].
  { rewrite Enil. cbn. exists None. split; [done|]. intros off ?%not_elem_of_nil. done. }
  destruct (length (ts_buckets ts) =? 0) eqn:E0; split_bool.
  { apply length_zero_iff_nil in E0. rewrite E0. exists None. split; [done|]. intros off ?%not_elem_of_nil. done. }
  rewrite to_set_probe_loop by done. eexists. split; [done|].
  rewrite <-(length_fmap (ts_entry (ts_buf ts))). fold (probe (ts_entry (ts_buf ts) <$> ts_buckets ts) dst).
  fold (table_get (ts_entry (ts_buf ts) <$> ts_buckets ts) dst).
  destruct (table_get _ dst) as [off|] eqn:Eg; [by apply table_get_spec|].
  intros off Hin. apply table_get_spec in Hin; [|done]. congruence.
Qed.

Lemma to_set_move_view ts l : ∀ nb,
  (∀ b, b ∈ l → tb_count b ≠ 0%N → N.to_nat (tb_offset b) + N.to_nat (tb_count b) ≤ length (ts_buf ts)) →
  foldl (to_set_move ts) (Some nb) l =
  Some (foldl (view_move (ts_entry (ts_buf ts)) (λ b, (tb_count b =? 0)%N)) nb l).
Proof.
  induction l as [|b l IH]; intros nb Hl; cbn [foldl]; [done|].
  assert (to_set_move ts (Some nb) b = Some (view_move (ts_entry (ts_buf ts)) (λ b, (tb_count b =? 0)%N) nb b)) as ->.
  { unfold to_set_move, view_move, ts_entry at 1. cbn [mbind option_bind]. destruct (tb_count b =? 0)%N eqn:E; [done|].
    split_bool. rewrite (proj2 (Nat.leb_le _ _) (Hl b ltac:(left) E)).
    change (hash_key (ids_at (ts_buf ts) (N.to_nat (tb_offset b)) (N.to_nat (tb_count b)))) with
      (to_set_hash (ids_at (ts_buf ts) (N.to_nat (tb_offset b)) (N.to_nat (tb_count b)))).
    by destruct (first_free _ _ _ _ _). }
  apply IH. intros c Hc. apply Hl. by right.
Qed.

Lemma to_set_store_first count offset hash buckets n : ∀ i j,
  (∀ b, b ∈ buckets → tb_count b ≠ 0%N → tb_offset b ≠ offset) →
  first_free (λ b, (tb_count b =? 0)%N) n i hash buckets = Some j →
  to_set_store n i hash buckets count offset = Some (<[j := mk_tsb count offset]> buckets).
Proof.
  induction n as [|n IH]; intros i j Hno; cbn [first_free to_set_store]; [done|].
  destruct (buckets !! _) as [b|] eqn:Eb; [|done]. cbn [mbind option_bind].
  destruct (tb_count b =? 0)%N eqn:E0; [by intros [= <-]|]. split_bool. intros Hf.
  assert (tb_offset b ≠ offset) as Hoff by (apply Hno; [apply list_elem_of_lookup; eauto|done]).
  rewrite (proj2 (N.eqb_neq _ _) Hoff), andb_false_r. by apply IH.
Qed.

(** The size of a table that grows: a power of two of at least twice the
    number of buckets. *)
Lemma grown_size {B} (buckets : list B) used (ok : Prop) :
  (ok → ∃ m, m ≤ 32 ∧ length buckets = 2 ^ m) → (buckets = [] ∨ 64 ≤ length buckets ∧ ok) →
  length buckets / 2 ≤ used → (N.of_nat used < 1073741824)%N →
  ∃ m, m ≤ 32 ∧ (if length buckets =? 0 then 64 else 2 * length buckets) = 2 ^ m ∧ 64 ≤ 2 ^ m ∧
    length buckets ≤ 2 ^ m / 2 ∧ length buckets / 2 < 2 ^ m / 2 ∧ length buckets ≤ 2 ^ m.
Proof.
  intros Hpow Hsz Hhalf Hfew. destruct Hsz as [->|[Hsz Hok]].
  { exists 6. cbn. lia. }
  destruct (Hpow Hok) as (m & Hm & Hl). rewrite (proj2 (Nat.eqb_neq _ _)) by lia. exists (S m).
  assert (2 ^ S m = 2 * length buckets) as E by (rewrite Nat.pow_succ_r', Hl; done).
  assert (2 ^ S m / 2 = length buckets) as E2 by (rewrite E, Nat.mul_comm; by apply Nat.div_mul).
  rewrite E2, E. pose proof (Nat.div_lt (length buckets) 2 ltac:(lia) ltac:(lia)). split; [|lia].
  destruct (decide (S m ≤ 32)); [done|]. replace m with 32 in Hl by lia.
  assert (N.of_nat (length buckets) = 4294967296)%N by (rewrite Hl, Nat2N.inj_pow; reflexivity).
  pose proof (Nat.div_mod_eq (length buckets) 2). pose proof (Nat.mod_upper_bound (length buckets) 2). lia.
Qed.

Lemma to_set_htab_grow_spec al ts :
  ts_ok ts → (N.of_nat (ts_buckets_used ts) < 1073741824)%N →
  ∃ bs, to_set_htab_grow al ts = Some (true, mk_to_sets (ts_buf ts) (ts_ceil ts) bs (ts_buckets_used ts)) ∧
    table_ok (ts_entry (ts_buf ts) <$> bs) ∧ ts_buckets_used ts < length bs / 2 ∧ 64 ≤ length bs ∧
    length (entries (ts_entry (ts_buf ts) <$> bs)) = ts_buckets_used ts ∧
    (∀ k v, Some (k, v) ∈ ts_entry (ts_buf ts) <$> bs ↔ Some (k, v) ∈ ts_entry (ts_buf ts) <$> ts_buckets ts) ∧
    ∀ b, b ∈ bs → tb_count b ≠ 0%N → b ∈ ts_buckets ts.
Proof.
  intros Hts Hfew. unfold to_set_htab_grow. pose proof (to_half _ Hts) as Hhalf.
  destruct (_ <=? _) eqn:Eg; split_bool.
  - rewrite f_calloc_total. cbv zeta.
    destruct (grown_size (ts_buckets ts) (ts_buckets_used ts) (table_ok (ts_entry (ts_buf ts) <$> ts_buckets ts)))
      as (m & Hm & E & H64 & Hbig & Hlt & Hle); [intros [(m & Hm & Hl) _]; rewrite length_fmap in Hl; eauto| |done|done|].
    { destruct (to_table _ Hts) as [?|?]; [by left|]. destruct (to_size _ Hts); [by left|by right]. }
    unfold DEF_TO_SET_HTAB_BUCKET_COUNT. rewrite E, to_set_move_view by apply (to_in _ Hts). cbn [mbind option_bind].
    assert (NoDup (entries (ts_entry (ts_buf ts) <$> ts_buckets ts)).*1) as Hnd.
    { destruct (to_table _ Hts) as [->|Hok]; [constructor|by apply NoDup_keys]. }
    destruct (view_grow (ts_entry (ts_buf ts)) (λ b, (tb_count b =? 0)%N) (ts_entry_None (ts_buf ts))
      (ts_buckets ts) (mk_tsb 0 0) m eq_refl Hnd Hm) as (V1 & V2 & V3 & V4 & V5).
    { rewrite (to_entries _ Hts). pose proof (Nat.div_mod_eq (length (ts_buckets ts)) 2). lia. }
    eexists. split; [done|]. rewrite V2. split; [exact V1|]. split; [lia|]. split; [done|].
    split; [by rewrite V3, (to_entries _ Hts)|]. split; [exact V4|].
    intros b Hb Hc. by destruct (V5 b Hb) as [->|].
  - assert (ts_buckets ts ≠ []) as Hnn by (intros En; rewrite En in Eg; cbn in Eg; lia).
    exists (ts_buckets ts). split; [by destruct ts|]. split; [by destruct (to_table _ Hts)|]. split; [done|].
    split; [by destruct (to_size _ Hts)|]. split; [apply Hts|done].
Qed.

(** A new set of the buffer enters the table. *)
Lemma to_set_htab_save_spec al ts dst off :
  ts_ok ts → dst ≠ [] → (N.of_nat (ts_buckets_used ts) < 1073741824)%N →
  (∀ off, Some (dst, off) ∉ ts_entry (ts_buf ts) <$> ts_buckets ts) →
  N.to_nat off + length dst ≤ length (ts_buf ts) → ids_at (ts_buf ts) (N.to_nat off) (length dst) = dst →
  (∀ b, b ∈ ts_buckets ts → tb_count b ≠ 0%N → tb_offset b ≠ off) →
  ∃ ts', to_set_htab_save al ts (N.of_nat (length dst)) (hash_ids dst) off = Some (true, ts') ∧ ts_ok ts' ∧
    ts_buf ts' = ts_buf ts ∧ ts_ceil ts' = ts_ceil ts ∧ ts_buckets_used ts' = ts_buckets_used ts + 1.
Proof.
  intros Hts Hne Hfew Hno Hoff Hids Hdup. unfold to_set_htab_save.
  assert (length dst ≠ 0) as Hl0 by (by destruct dst).
  destruct (to_set_htab_grow_spec al ts Hts Hfew) as (bs & -> & T1 & T5 & T6 & T7 & T8 & T9).
  cbn [mbind option_bind ts_buckets ts_buf ts_ceil ts_buckets_used].
  rewrite (proj2 (Nat.leb_le _ _)) by lia. rewrite (proj2 (Nat.ltb_lt _ _)) by lia. cbn [andb].
  destruct (first_free_probe (ts_entry (ts_buf ts)) (λ b, (tb_count b =? 0)%N) (ts_entry_None (ts_buf ts)) bs dst)
    as (j & Ef & Ep & Hj); [exact T1|intros v Hv%T8; by apply (Hno v)| |].
  { rewrite T7. pose proof (Nat.div_mod_eq (length bs) 2). lia. }
  rewrite (to_set_store_first _ _ _ _ _ _ j); [|intros b Hb Hc; apply Hdup; [by apply T9|done]|exact Ef].
  cbn [mbind option_bind]. eexists. split; [done|]. cbn [ts_buf ts_ceil ts_buckets_used]. split; [|done].
  destruct (view_insert (ts_entry (ts_buf ts)) bs dst off j (mk_tsb (N.of_nat (length dst)) off)) as (I1 & I2 & I3).
  { exact T1. }
  { exact Ep. }
  { unfold ts_entry. cbn [tb_count tb_offset]. rewrite (proj2 (N.eqb_neq _ _)) by lia. by rewrite Nat2N.id, Hids. }
  split; cbn [ts_buf ts_ceil ts_buckets ts_buckets_used].
  - by right.
  - rewrite I2, T7. lia.
  - rewrite length_insert. lia.
  - right. by rewrite length_insert.
  - intros b Hb Hc. apply list_elem_of_lookup in Hb as [i Hi]. destruct (decide (i = j)) as [->|Hne'].
    + rewrite list_lookup_insert_eq in Hi by done. injection Hi as <-. cbn. by rewrite Nat2N.id.
    + rewrite list_lookup_insert_ne in Hi by done. apply (to_in _ Hts); [|done]. apply T9; [|done]. apply list_elem_of_lookup. eauto.
  - apply Hts.
Qed.

Lemma double_to_ge fuel : ∀ nceil target, 0 < nceil → target ≤ nceil + fuel → target ≤ double_to fuel nceil target.
Proof.
  induction fuel as [|fuel IH]; intros nceil target Hn Ht; cbn [double_to]; [lia|].
  destruct (nceil <? target) eqn:E; split_bool; [|lia]. apply IH; lia.
Qed.

(** The states of an entry. *)
Definition saved (ts : to_sets) (off : N) (dst : list N) : Prop :=
  N.to_nat off + length dst ≤ length (ts_buf ts) ∧ ids_at (ts_buf ts) (N.to_nat off) (length dst) = dst.

Lemma save_to_set_spec al ts dst :
  ts_ok ts → dst ≠ [] → (N.of_nat (ts_buckets_used ts) < 1073741824)%N →
  (N.of_nat (length (ts_buf ts)) < 4294967296)%N →
  ∃ ts' off, save_to_set al ts dst = Some (true, ts', off) ∧ ts_ok ts' ∧ saved ts' off dst ∧
    ts_buf ts `prefix_of` ts_buf ts' ∧ length (ts_buf ts') ≤ length (ts_buf ts) + length dst ∧
    ts_buckets_used ts' ≤ ts_buckets_used ts + 1.
Proof.
  intros Hts Hne Hfew Hlen. unfold save_to_set.
  destruct (to_set_check_spec ts dst Hts Hne) as ([off|] & -> & Ho); cbn [mbind option_bind].
  { apply list_elem_of_fmap in Ho as (b & Eb & Hb). unfold ts_entry in Eb.
    destruct (tb_count b =? 0)%N eqn:E0; [done|]. injection Eb as Eids ->. split_bool.
    pose proof (to_in _ Hts b Hb E0) as Hin. exists ts, (tb_offset b). split; [done|]. split; [done|].
    assert (length dst = N.to_nat (tb_count b)) as El by (rewrite Eids; by apply length_ids_at).
    split; [split; rewrite El; [done|by rewrite <-Eids]|]. split; [done|]. lia. }
  set (n := length (ts_buf ts) + length dst). rewrite f_realloc_total.
  set (r := if ts_ceil ts <=? n then _ else _).
  assert (∃ ceil, r = (true, mk_to_sets (ts_buf ts) ceil (ts_buckets ts) (ts_buckets_used ts)) ∧ n ≤ ceil) as (ceil & -> & Hceil).
  { unfold r. destruct (ts_ceil ts <=? n) eqn:E; split_bool.
    - eexists. split; [done|]. apply double_to_ge; [|lia]. unfold DEF_TO_SET_CEIL. destruct (ts_ceil ts =? 0) eqn:E0; split_bool; lia.
    - exists (ts_ceil ts). split; [by destruct ts|lia]. }
  cbn [ts_buf ts_ceil ts_buckets ts_buckets_used].
  rewrite (proj2 (N.ltb_lt _ _) Hlen), (proj2 (Nat.leb_le _ _) Hceil). cbn [andb].
  set (ts1 := mk_to_sets (ts_buf ts ++ dst) ceil (ts_buckets ts) (ts_buckets_used ts)).
  assert (ts_entry (ts_buf ts1) <$> ts_buckets ts1 = ts_entry (ts_buf ts) <$> ts_buckets ts) as Ev by exact (ts_view_app ts dst Hts).
  assert (ts_ok ts1) as Hts1.
  { destruct Hts as [O1 O2 O3 O4 O5 O6]. split; rewrite ?Ev; try done.
    - intros b Hb Hc. specialize (O5 b Hb Hc). cbn. rewrite length_app. lia.
    - cbn. rewrite length_app. lia. }
  destruct (to_set_htab_save_spec al ts1 dst (N.of_nat (length (ts_buf ts)))) as (ts2 & -> & H2 & E1 & E2 & E3).
  { done. }
  { done. }
  { done. }
  { by rewrite Ev. }
  { cbn. rewrite length_app. lia. }
  { cbn. rewrite Nat2N.id. apply ids_at_end. }
  { intros b Hb Hc Eo. pose proof (to_in _ Hts b Hb Hc). lia. }
  cbn [mbind option_bind]. exists ts2, (N.of_nat (length (ts_buf ts))). split; [done|]. split; [done|].
  unfold saved. rewrite E1, E3. cbn [ts_buf ts1 ts_buckets_used]. rewrite length_app, Nat2N.id. split; [split; [lia|apply ids_at_end]|].
  split; [by apply prefix_app_r|]. lia.
Qed.

Lemma saved_prefix ts ts' off dst : ts_buf ts `prefix_of` ts_buf ts' → saved ts off dst → saved ts' off dst.
Proof.
  intros [l El] [H1 H2]. unfold saved. rewrite El, length_app. split; [lia|]. by rewrite ids_at_app.
Qed.
End ToSetLemmas.

(** ** Results *)

Definition entry_ids (ts : to_sets) (e : result_entry) : list N :=
  ids_at (ts_buf ts) (N.to_nat (re_to_set_offset e)) (N.to_nat (re_to_set_count e)).

(** An entry leads the labels of a non-empty set to a non-empty set of states. *)
Definition entry_ok (ts : to_sets) (e : result_entry) : Prop :=
  words_ok 4 (re_labels e) ∧ re_words_used e = words_used_mask (re_labels e) ∧
  (∃ c, c < 256 ∧ bs_get (re_labels e) c = true) ∧
  N.to_nat (re_to_set_offset e) + N.to_nat (re_to_set_count e) ≤ length (ts_buf ts) ∧ (re_to_set_count e ≠ 0)%N.

Lemma words_used_bit labels i :
  i < 4 → N.testbit (words_used_mask labels) (N.of_nat i) = negb (word labels i =? 0)%N.
Proof.
  intros Hi. unfold words_used_mask. cbn [foldl seq].
  destruct i as [|[|[|[|i]]]]; [| | | |lia];
    destruct (word labels 0 =? 0)%N, (word labels 1 =? 0)%N, (word labels 2 =? 0)%N, (word labels 3 =? 0)%N; reflexivity.
Qed.

Section ResultLemmas.
Context `{allocator, !alloc_total}.

Lemma add_group_dst_info_spec al ts rs dst labels :
  ts_ok ts → dst ≠ [] → (N.of_nat (ts_buckets_used ts) < 1073741824)%N →
  (N.of_nat (length (ts_buf ts) + length dst) < 4294967296)%N →
  words_ok 4 labels → (∃ c, c < 256 ∧ bs_get labels c = true) →
  ∃ ts' ceil e, add_group_dst_info_to_buffer al ts rs dst labels =
      Some (true, ts', mk_results (rs_rs rs) (rs_ceil rs) (rb_entries rs ++ [e]) ceil) ∧ ts_ok ts' ∧
    entry_ok ts' e ∧ re_labels e = labels ∧ entry_ids ts' e = dst ∧
    ts_buf ts `prefix_of` ts_buf ts' ∧ length (ts_buf ts') ≤ length (ts_buf ts) + length dst ∧
    ts_buckets_used ts' ≤ ts_buckets_used ts + 1.
Proof.
  intros Hts Hne Hfew Hlen Hw Hc. unfold add_group_dst_info_to_buffer. rewrite f_realloc_total.
  set (r := if _ =? rb_ceil rs then _ else _).
  assert (∃ ceil, r = (true, mk_results (rs_rs rs) (rs_ceil rs) (rb_entries rs) ceil)) as [ceil ->].
  { unfold r. destruct (_ =? _); [by eexists|]. exists (rb_ceil rs). by destruct rs. }
  destruct (save_to_set_spec al ts dst Hts Hne Hfew ltac:(lia)) as (ts' & off & -> & Hts' & [S1 S2] & Hp & Hl & Hu).
  cbn [mbind option_bind rs_rs rs_ceil rb_entries rb_ceil].
  rewrite u32_small by lia. eexists ts', ceil, _. split; [done|]. split; [done|]. split; [|split; [done|split]].
  - unfold entry_ok. cbn. rewrite Nat2N.id. split; [done|]. split; [done|]. split; [done|]. split; [done|].
    destruct dst; [done|cbn; lia].
  - unfold entry_ids. cbn. by rewrite Nat2N.id.
  - done.
Qed.

Lemma commit_buffered_result_spec al rs :
  (N.of_nat (length (rs_rs rs)) < 4294967296)%N →
  ∃ ceil, commit_buffered_result al rs =
    (true, mk_results (rs_rs rs ++ [rb_entries rs]) ceil [] (rb_ceil rs), N.of_nat (length (rs_rs rs))).
Proof.
  intros Hn. unfold commit_buffered_result. rewrite f_realloc_total.
  set (r := if _ =? rs_ceil rs then _ else _).
  assert (∃ ceil, r = (true, mk_results (rs_rs rs) ceil (rb_entries rs) (rb_ceil rs))) as [ceil ->].
  { unfold r. destruct (_ =? _); [by eexists|]. exists (rs_ceil rs). by destruct rs. }
  cbn [rs_rs rs_ceil rb_entries rb_ceil]. exists ceil. rewrite f_malloc_total. by rewrite u32_small.
Qed.
End ResultLemmas.

Lemma entry_ok_prefix ts ts' e : ts_buf ts `prefix_of` ts_buf ts' → entry_ok ts e → entry_ok ts' e.
Proof. intros [l El] (H1 & H2 & H3 & H4 & H5). unfold entry_ok. rewrite El, length_app. split_and!; try done. lia. Qed.

Lemma entry_ids_prefix ts ts' e : ts_buf ts `prefix_of` ts_buf ts' → entry_ok ts e → entry_ids ts' e = entry_ids ts e.
Proof. intros [l El] (H1 & H2 & H3 & H4 & H5). unfold entry_ids. rewrite El. by apply ids_at_app. Qed.

(** ** Meaning and invariant: states and pairs *)

(** What is analysed: a state, or two results, the smaller identifier first. *)
Inductive pair_key := KSingle (s : N) | KPair (a b : N).

#[export] Instance pair_key_eq_dec : EqDecision pair_key.
Proof. solve_decision. Defined.

#[export] Instance hashed_pair : Hashed pair_key := λ k,
  match k with KSingle s => hash_id s | KPair a b => hash_id (N.lor (u64 (N.shiftl a 32)) b) end.

Definition pair_entry (b : result_pair_bucket) : option (pair_key * N) :=
  match pb_t b with
  | RPBT_UNUSED => None
  | RPBT_SINGLE_STATE => Some (KSingle (pb_id0 b), pb_result_id b)
  | RPBT_PAIR => Some (KPair (result_mask (pb_id0 b)) (result_mask (pb_id1 b)), pb_result_id b)
  end.

Definition bucket_ok (b : result_pair_bucket) : Prop :=
  match pb_t b with
  | RPBT_UNUSED => True
  | RPBT_SINGLE_STATE => pb_id0 b = pb_id1 b ∧ (pb_id0 b < RESULT_BIT)%N
  | RPBT_PAIR => ∃ a c, (a < c)%N ∧ (c < RESULT_BIT)%N ∧ pb_id0 b = N.lor a RESULT_BIT ∧ pb_id1 b = N.lor c RESULT_BIT
  end.

Record htab_ok (h : result_pair_htab) : Prop := {
  ho_table : ph_buckets h = [] ∨ table_ok (pair_entry <$> ph_buckets h);
  ho_entries : length (entries (pair_entry <$> ph_buckets h)) = ph_used h;
  ho_half : ph_used h ≤ length (ph_buckets h) / 2;
  ho_size : ph_buckets h = [] ∨ 64 ≤ length (ph_buckets h);
  ho_ok : Forall bucket_ok (ph_buckets h);
}.

(** The result cached for a key. *)
Definition cached (h : result_pair_htab) (k : pair_key) (r : N) : Prop := Some (k, r) ∈ pair_entry <$> ph_buckets h.

(** *** Marked identifiers *)

Lemma result_land a : (a < RESULT_BIT)%N → N.land a RESULT_BIT = 0%N.
Proof.
  intros Ha. apply N.bits_inj. intros k. rewrite N.land_spec, N.bits_0. change RESULT_BIT with (2 ^ 31)%N in *.
  rewrite N.pow2_bits_eqb. destruct (31 =? k)%N eqn:E; [|by rewrite andb_false_r]. apply N.eqb_eq in E. subst k.
  rewrite andb_true_r. destruct (decide (a = 0%N)) as [->|]; [done|]. apply N.bits_above_log2, N.log2_lt_pow2; lia.
Qed.

Lemma result_add a : (a < RESULT_BIT)%N → N.lor a RESULT_BIT = (a + RESULT_BIT)%N.
Proof. intros Ha. rewrite N.add_nocarry_lxor by (by apply result_land). by rewrite N.lxor_lor by (by apply result_land). Qed.

Lemma is_result_state a : (a < RESULT_BIT)%N → is_result a = false.
Proof. intros Ha. unfold is_result. by rewrite result_land. Qed.

Lemma is_result_lor a : is_result (N.lor a RESULT_BIT) = true.
Proof.
  unfold is_result. rewrite N.land_lor_distr_l, N.land_diag. apply negb_true_iff, N.eqb_neq. intros E.
  by apply N.lor_eq_0_iff in E as [_ E].
Qed.

Lemma result_mask_lor a : (a < RESULT_BIT)%N → result_mask (N.lor a RESULT_BIT) = a.
Proof.
  intros Ha. unfold result_mask. apply N.bits_inj. intros k. rewrite N.ldiff_spec, N.lor_spec.
  destruct (N.testbit RESULT_BIT k) eqn:E; [|by rewrite orb_false_r, andb_true_r].
  rewrite andb_false_r. pose proof (f_equal (λ x, N.testbit x k) (result_land a Ha)) as Hk.
  cbv beta in Hk. by rewrite N.land_spec, E, N.bits_0, andb_true_r in Hk.
Qed.

Lemma hash_pair_spec a b :
  (a < b)%N → (b < RESULT_BIT)%N →
  hash_pair (N.lor a RESULT_BIT) (N.lor b RESULT_BIT) = Some (hash_key (KPair a b)) ∧
  hash_pair (N.lor b RESULT_BIT) (N.lor a RESULT_BIT) = Some (hash_key (KPair a b)).
Proof.
  intros Hab Hb. unfold hash_pair. rewrite !is_result_lor, !result_mask_lor, !result_add by lia.
  rewrite !(proj2 (N.eqb_neq _ _)) by lia. cbn [negb andb]. rewrite (proj2 (N.ltb_lt _ _) Hab).
  rewrite (proj2 (N.ltb_ge b a)) by lia. done.
Qed.

Lemma pair_entry_None b : is_unused b = true ↔ pair_entry b = None.
Proof. unfold is_unused, pair_entry. by destruct (pb_t b). Qed.

Section PairLemmas.
Context `{allocator, !alloc_total}.

Lemma pair_probe_loop key hit (buckets : list result_pair_bucket) n : ∀ i,
  table_ok (pair_entry <$> buckets) → (∀ b, b ∈ buckets → hit b = true ↔ ∃ v, pair_entry b = Some (key, v)) →
  match pair_probe n i (hash_key key) hit buckets, probe_loop n i (pair_entry <$> buckets) key with
  | Some b, Some (_, Some v) => b ∈ buckets ∧ pair_entry b = Some (key, v) ∧ pb_result_id b = v
  | None, Some (_, None) | None, None => True
  | _, _ => False
  end.
Proof.
  induction n as [|n IH]; intros i Hok Hhit; cbn [pair_probe probe_loop]; [done|].
  pose proof (slot_lt _ key i Hok) as Hlt.
  change (slot (pair_entry <$> buckets) key i) with (bucket_index (hash_key key) (length (pair_entry <$> buckets)) i) in *.
  rewrite length_fmap in *. rewrite list_lookup_fmap. destruct (lookup_lt_is_Some_2 _ _ Hlt) as [b Hb]. rewrite Hb.
  cbn [fmap option_fmap option_map]. assert (b ∈ buckets) as Hin by (apply list_elem_of_lookup; eauto).
  specialize (Hhit b Hin) as Hb'. specialize (IH (i + 1) Hok Hhit).
  destruct (pair_entry b) as [[k v]|] eqn:Ee.
  - assert (pb_t b ≠ RPBT_UNUSED ∧ pb_result_id b = v) as [Hu Hv] by (unfold pair_entry in Ee; destruct (pb_t b); simplify_eq; done).
    destruct (hit b); case_bool_decide as Ek.
    + subst k. by destruct (pb_t b).
    + destruct (proj1 Hb' eq_refl) as (v' & [= -> ->]). done.
    + subst k. enough (false = true) by done. apply Hb'. eauto.
    + by destruct (pb_t b).
  - unfold pair_entry in Ee. by destruct (pb_t b).
Qed.

Lemma hit_single b s : (s < RESULT_BIT)%N → bucket_ok b →
  is_single b && (pb_id0 b =? s)%N = true ↔ ∃ v, pair_entry b = Some (KSingle s, v).
Proof.
  intros Hs Hb. unfold is_single, pair_entry. unfold bucket_ok in Hb. destruct (pb_t b); cbn [andb].
  - split; [done|]. by intros (v & [=]).
  - rewrite N.eqb_eq. split; [intros ->; eauto|]. by intros (v & [= ->]).
  - split; [done|]. by intros (v & [=]).
Qed.

Lemma eq_bucket_pair_spec b a c pa pb :
  (a < c)%N → (c < RESULT_BIT)%N → (pa = N.lor a RESULT_BIT ∧ pb = N.lor c RESULT_BIT ∨ pa = N.lor c RESULT_BIT ∧ pb = N.lor a RESULT_BIT) →
  bucket_ok b → is_pair b && eq_bucket_pair b pa pb = true ↔ ∃ v, pair_entry b = Some (KPair a c, v).
Proof.
  intros Hac Hc Hp Hb. unfold is_pair, pair_entry. unfold bucket_ok in Hb. destruct (pb_t b); cbn [andb].
  - split; [done|]. by intros (v & [=]).
  - split; [done|]. by intros (v & [=]).
  - assert (eq_bucket_pair b pa pb = (pb_id0 b =? N.lor a RESULT_BIT)%N && (pb_id1 b =? N.lor c RESULT_BIT)%N) as ->.
    { unfold eq_bucket_pair. destruct Hp as [[-> ->]|[-> ->]]; rewrite !result_mask_lor by lia.
      - by rewrite (proj2 (N.ltb_lt _ _) Hac).
      - by rewrite (proj2 (N.ltb_ge c a)) by lia. }
    destruct Hb as (a' & c' & H1 & H2 & -> & ->). rewrite andb_true_iff, !N.eqb_eq, !result_mask_lor by lia. split.
    + rewrite !result_add by lia. intros [E1 E2]. replace a' with a by lia. replace c' with c by lia. eauto.
    + by intros (v & [= -> ->]).
Qed.

Definition cached_opt (h : result_pair_htab) (k : pair_key) (o : option N) : Prop :=
  match o with Some r => cached h k r | None => ∀ r, ¬ cached h k r end.

Lemma pair_lookup h key hit :
  htab_ok h → (∀ b, b ∈ ph_buckets h → hit b = true ↔ ∃ v, pair_entry b = Some (key, v)) →
  match pair_probe (length (ph_buckets h)) 0 (hash_key key) hit (ph_buckets h) with
  | Some b => b ∈ ph_buckets h ∧ pair_entry b = Some (key, pb_result_id b)
  | None => ∀ r, ¬ cached h key r
  end.
Proof.
  intros Hh Hhit. destruct (ho_table _ Hh) as [E|Hok].
  { unfold cached. rewrite E. cbn. intros r ?%not_elem_of_nil. done. }
  pose proof (pair_probe_loop key hit (ph_buckets h) (length (ph_buckets h)) 0 Hok Hhit) as Hp.
  assert (match probe_loop (length (ph_buckets h)) 0 (pair_entry <$> ph_buckets h) key with Some (_, o) => o | None => None end
    = table_get (pair_entry <$> ph_buckets h) key) as Eg by (unfold table_get, probe; by rewrite length_fmap).
  destruct (pair_probe _ _ _ _ _) as [b|], (probe_loop _ _ _ _) as [[j [v|]]|]; try done.
  - by destruct Hp as (? & ? & ->).
  - intros r Hr%table_get_spec; [congruence|done].
  - intros r Hr%table_get_spec; [congruence|done].
Qed.

Lemma check_single_spec h s :
  htab_ok h → (s < RESULT_BIT)%N → ∃ o, analysis_cache_check_single_state h s = Some o ∧ cached_opt h (KSingle s) o.
Proof.
  intros Hh Hs. unfold analysis_cache_check_single_state. rewrite is_result_state by done. cbn [negb].
  pose proof (pair_lookup h (KSingle s) (λ b, is_single b && (pb_id0 b =? s)%N) Hh) as Hl.
  destruct (length (ph_buckets h) =? 0) eqn:E0.
  { split_bool. apply length_zero_iff_nil in E0. exists None. split; [done|]. unfold cached_opt, cached. rewrite E0.
    intros r ?%not_elem_of_nil. done. }
  assert (∀ b, b ∈ ph_buckets h → bucket_ok b) as Hok by (intros b; apply (proj1 (Forall_forall _ _) (ho_ok _ Hh))).
  specialize (Hl (λ b Hb, hit_single b s Hs (Hok b Hb))).
  change (hash_key (KSingle s)) with (hash_id s) in Hl. destruct (pair_probe _ _ _ _ _) as [b|]; [|by exists None].
  destruct Hl as [Hin He]. pose proof (Hok b Hin) as Hb. unfold bucket_ok in Hb. unfold pair_entry in He.
  destruct (pb_t b) eqn:Et; [done| |done]. injection He as <-. destruct Hb as [E _]. rewrite <-E, N.eqb_refl. eexists. split; [done|].
  apply list_elem_of_fmap. exists b. split; [|done]. unfold pair_entry. rewrite Et. done.
Qed.

Lemma check_pair_spec h a c pa pb :
  htab_ok h → (a < c)%N → (c < RESULT_BIT)%N →
  (pa = N.lor a RESULT_BIT ∧ pb = N.lor c RESULT_BIT ∨ pa = N.lor c RESULT_BIT ∧ pb = N.lor a RESULT_BIT) →
  ∃ o, analysis_cache_check_pair h pa pb = Some o ∧ cached_opt h (KPair a c) o.
Proof.
  intros Hh Hac Hc Hp. unfold analysis_cache_check_pair.
  assert (is_result pa = true ∧ is_result pb = true) as [-> ->] by (destruct Hp as [[-> ->]|[-> ->]]; by rewrite !is_result_lor).
  assert (hash_pair pa pb = Some (hash_key (KPair a c))) as -> by (destruct Hp as [[-> ->]|[-> ->]]; by apply hash_pair_spec).
  cbn [andb mbind option_bind]. destruct (length (ph_buckets h) =? 0) eqn:E0.
  { split_bool. apply length_zero_iff_nil in E0. exists None. split; [done|]. unfold cached_opt, cached. rewrite E0.
    intros r ?%not_elem_of_nil. done. }
  assert (∀ b, b ∈ ph_buckets h → bucket_ok b) as Hok by (intros b; apply (proj1 (Forall_forall _ _) (ho_ok _ Hh))).
  pose proof (pair_lookup h (KPair a c) _ Hh (λ b Hb, eq_bucket_pair_spec b a c pa pb Hac Hc Hp (Hok b Hb))) as Hl.
  eexists. split; [done|]. destruct (pair_probe _ _ _ _ _) as [b|]; cbn; [|exact Hl]. destruct Hl as [Hin He].
  apply list_elem_of_fmap. by exists b.
Qed.

Lemma pair_move_view l : ∀ nb,
  Forall bucket_ok l → foldl pair_move (Some nb) l = Some (foldl (view_move pair_entry is_unused) nb l).
Proof.
  induction l as [|b l IH]; intros nb Hl; cbn [foldl]; [done|]. apply Forall_cons in Hl as [Hb Hl].
  assert (pair_move (Some nb) b = Some (view_move pair_entry is_unused nb b)) as ->; [|by apply IH].
  unfold pair_move, view_move, pair_entry. unfold bucket_ok in Hb. cbn [mbind option_bind]. destruct (pb_t b).
  - done.
  - destruct Hb as [E _]. rewrite E, N.eqb_refl. change (hash_key (KSingle (pb_id1 b))) with (hash_id (pb_id1 b)).
    by destruct (first_free _ _ _ _ _).
  - destruct Hb as (a & c & Hac & Hc & -> & ->). destruct (hash_pair_spec a c Hac Hc) as [-> _]. cbn [mbind option_bind].
    rewrite !result_mask_lor by lia. rewrite (proj2 (N.ltb_lt _ _) Hac). by destruct (first_free _ _ _ _ _).
Qed.

Lemma pair_cache_grow_spec al h :
  htab_ok h → (N.of_nat (ph_used h) < 1073741824)%N →
  ∃ bs, pair_cache_grow al h = Some (true, mk_htab bs (ph_used h)) ∧
    table_ok (pair_entry <$> bs) ∧ ph_used h < length bs / 2 ∧ 64 ≤ length bs ∧
    length (entries (pair_entry <$> bs)) = ph_used h ∧
    (∀ k v, Some (k, v) ∈ pair_entry <$> bs ↔ cached h k v) ∧ Forall bucket_ok bs.
Proof.
  intros Hh Hfew. unfold pair_cache_grow. pose proof (ho_half _ Hh) as Hhalf.
  destruct (_ <=? _) eqn:Eg; split_bool.
  - rewrite f_calloc_total. cbv zeta.
    destruct (grown_size (ph_buckets h) (ph_used h) (table_ok (pair_entry <$> ph_buckets h)))
      as (m & Hm & E & H64 & Hbig & Hlt & Hle); [intros [(m & Hm & Hl) _]; rewrite length_fmap in Hl; eauto| |done|done|].
    { destruct (ho_table _ Hh) as [?|?]; [by left|]. destruct (ho_size _ Hh); [by left|by right]. }
    unfold DEF_PAIR_CACHE_HTAB_BUCKET_COUNT. rewrite E, pair_move_view by apply Hh. cbn [mbind option_bind].
    assert (NoDup (entries (pair_entry <$> ph_buckets h)).*1) as Hnd.
    { destruct (ho_table _ Hh) as [->|Hok]; [constructor|by apply NoDup_keys]. }
    destruct (view_grow pair_entry is_unused pair_entry_None (ph_buckets h) unused_pair m eq_refl Hnd Hm) as (V1 & V2 & V3 & V4 & V5).
    { rewrite (ho_entries _ Hh). pose proof (Nat.div_mod_eq (length (ph_buckets h)) 2). lia. }
    eexists. split; [done|]. rewrite V2. split; [exact V1|]. split; [lia|]. split; [done|].
    split; [by rewrite V3, (ho_entries _ Hh)|]. split; [exact V4|].
    apply Forall_forall. intros b Hb. destruct (V5 b Hb) as [->|Hin]; [done|]. by apply (proj1 (Forall_forall _ _) (ho_ok _ Hh)).
  - assert (ph_buckets h ≠ []) as Hnn by (intros En; rewrite En in Eg; cbn in Eg; lia).
    exists (ph_buckets h). split; [by destruct h|]. split; [by destruct (ho_table _ Hh)|]. split; [done|].
    split; [by destruct (ho_size _ Hh)|]. split; [apply Hh|]. split; [done|apply Hh].
Qed.

Lemma pair_store_first t pa pb rid hash buckets n : ∀ i j,
  (∀ b, b ∈ buckets → is_unused b = false → pb_id0 b = pa → pb_id1 b = pb → False) →
  first_free is_unused n i hash buckets = Some j →
  pair_store n i hash buckets t pa pb rid =
    Some (<[j := mk_rpb t (if (pa <? pb)%N then pa else pb) (if (pa <? pb)%N then pb else pa) rid]> buckets).
Proof.
  induction n as [|n IH]; intros i j Hno; cbn [first_free pair_store]; [done|].
  destruct (buckets !! _) as [b|] eqn:Eb; [|done]. cbn [mbind option_bind].
  destruct (is_unused b) eqn:E0; [by intros [= <-]|]. intros Hf.
  destruct ((pb_id0 b =? pa)%N && (pb_id1 b =? pb)%N) eqn:Ee; [|by apply IH]. split_bool.
  exfalso. eapply Hno; [apply list_elem_of_lookup; eauto|done..].
Qed.

(** What is saved is found again; a bucket with the two identifiers would be
    one with the key. *)
Lemma pair_cache_save_spec al h t pa pb rid key :
  htab_ok h → (N.of_nat (ph_used h) < 1073741824)%N → (∀ r, ¬ cached h key r) →
  (match t with
   | RPBT_SINGLE_STATE => key = KSingle pa ∧ pb = pa ∧ (pa < RESULT_BIT)%N
   | RPBT_PAIR => ∃ a c, (a < c)%N ∧ (c < RESULT_BIT)%N ∧ pa = N.lor a RESULT_BIT ∧ pb = N.lor c RESULT_BIT ∧ key = KPair a c
   | RPBT_UNUSED => False
   end) →
  ∃ h', pair_cache_save al h t pa pb rid = Some (true, h') ∧ htab_ok h' ∧ ph_used h' = ph_used h + 1 ∧
    ∀ k r, cached h' k r ↔ (k = key ∧ r = rid) ∨ cached h k r.
Proof.
  intros Hh Hfew Hno Ht. unfold pair_cache_save.
  assert (match t with
     | RPBT_SINGLE_STATE => (pa =? pb)%N && negb (is_result pa)
     | RPBT_PAIR => negb (pa =? pb)%N && is_result pa && is_result pb && (result_mask pa <? result_mask pb)%N
     | RPBT_UNUSED => false
     end = true ∧ (if (pa =? pb)%N then Some (hash_id pa) else hash_pair pa pb) = Some (hash_key key) ∧
     let b := mk_rpb t (if (pa <? pb)%N then pa else pb) (if (pa <? pb)%N then pb else pa) rid in
     bucket_ok b ∧ pair_entry b = Some (key, rid)) as (-> & -> & Hb & Eb).
  { destruct t; [done| |].
    - destruct Ht as (-> & -> & Hs). rewrite N.eqb_refl, N.ltb_irrefl, is_result_state by done. done.
    - destruct Ht as (a & c & Hac & Hc & -> & -> & ->). rewrite !is_result_lor, !result_mask_lor by lia.
      rewrite (proj2 (N.ltb_lt _ _) Hac). assert (N.lor a RESULT_BIT < N.lor c RESULT_BIT)%N as Hlt by (rewrite !result_add; lia).
      rewrite (proj2 (N.ltb_lt _ _) Hlt), (proj2 (N.eqb_neq _ _)) by lia. split; [done|]. split; [by apply hash_pair_spec|].
      split; [exists a, c; done|]. unfold pair_entry. cbn. by rewrite !result_mask_lor by lia. }
  destruct (pair_cache_grow_spec al h Hh Hfew) as (bs & -> & T1 & T5 & T6 & T7 & T8 & T9).
  cbn [mbind option_bind ph_buckets ph_used].
  destruct (first_free_probe pair_entry is_unused pair_entry_None bs key) as (j & Ef & Ep & Hj); [exact T1|intros v Hv%T8; by apply (Hno v)| |].
  { rewrite T7. pose proof (Nat.div_mod_eq (length bs) 2). lia. }
  rewrite (pair_store_first _ _ _ _ _ _ _ _ j); [| |exact Ef].
  2:{ intros b Hin Hu E1 E2. assert (∃ r, pair_entry b = Some (key, r)) as (r & Er).
      { pose proof (proj1 (Forall_forall _ _) T9 b Hin) as Hok. unfold bucket_ok in Hok. unfold pair_entry, is_unused in *.
        rewrite E1, E2 in *. destruct (pb_t b); [done| |]; destruct t; try done.
        - destruct Ht as (-> & -> & _). eauto.
        - destruct Ht as (a & c & Hac & Hc & -> & -> & _), Hok as [Hok _]. rewrite !result_add in Hok by lia. lia.
        - destruct Ht as (-> & -> & Hs), Hok as (a & c & Hac & Hc & E & _). rewrite result_add in E by lia. lia.
        - destruct Ht as (a & c & Hac & Hc & -> & -> & ->). rewrite !result_mask_lor by lia. eauto. }
      apply (Hno r), T8, list_elem_of_fmap. eauto. }
  cbn [mbind option_bind]. eexists. split; [done|].
  destruct (view_insert pair_entry bs key rid j _ T1 Ep Eb) as (I1 & I2 & I3).
  split; [|split; [done|]].
  - split; cbn [ph_buckets ph_used].
    + by right.
    + rewrite I2, T7. lia.
    + rewrite length_insert. lia.
    + right. by rewrite length_insert.
    + by apply Forall_insert.
  - intros k r. unfold cached at 1. cbn [ph_buckets]. rewrite I3, T8. done.
Qed.
End PairLemmas.
