(* ===== verification/DetAnalysis.v ===== *)
(** * Where the labels of a set of states lead: src/libfsm/determinise.c

    [analyze_closures__pairwise_grouping] computes, for a set of states, the
    sets of labels that lead to the same set of states. A state alone is
    analysed by [cache_single_state_analysis]; two analyses are combined by
    [combine_result_pair_and_commit]; a set is reduced to one result by pairs,
    round after round, and every result on the way is cached.

    The functions work on one environment. They are written in a monad whose
    computations either reach undefined behaviour or a failed assertion, or
    return an environment with a value, or with none where the C function
    returns 0. The contents of the scratch buffers (groups, destinations, the
    clearing vector, the two buffers of identifiers) are values of the functions
    that fill them; their capacities are in the environment. The counters and
    timers for logging are left out. *)

From S2P Require Import Prelude StateSet Bits EdgeSet EdgeIter Probe Fsm InternedSet DetSort DetCache.

Definition DEF_CVECT_CEIL : nat := 4.
Definition DEF_GROUP_CEIL : nat := 4.
Definition DEF_OUTPUT_CEIL : nat := 4.
Definition DEF_DST_CEIL : nat := 4.
Definition DEF_PBUF_CEIL : nat := 4.

Record ac_group := mk_group { g_to : N; g_words_used : N; g_labels : list N }.
Record ac_output := mk_output { o_labels : list N; o_iss : N }.

(** The capacities of the buffers. *)
Record ac_caps := mk_caps {
  ac_group_ceil : nat;
  ac_output_ceil : nat;
  ac_cvect_ceil : nat;
  ac_pbuf_ceil : nat;
  ac_dst_tmp_ceil : nat;
  ac_dst_ceil : nat;
}.

Record analyze_closures_env := mk_env {
  ae_alloc : fsm_alloc;
  ae_fsm : fsm;
  ae_issp : interned_state_set_pool;
  ae_caps : ac_caps;
  ae_outputs : list ac_output;
  ae_to_sets : to_sets;
  ae_htab : result_pair_htab;
  ae_results : results;
}.

Abbreviation ac_env := analyze_closures_env.

Definition with_caps (c : ac_caps) (e : ac_env) : ac_env :=
  mk_env (ae_alloc e) (ae_fsm e) (ae_issp e) c (ae_outputs e) (ae_to_sets e) (ae_htab e) (ae_results e).
Definition with_outputs (o : list ac_output) (e : ac_env) : ac_env :=
  mk_env (ae_alloc e) (ae_fsm e) (ae_issp e) (ae_caps e) o (ae_to_sets e) (ae_htab e) (ae_results e).
Definition with_issp (p : interned_state_set_pool) (e : ac_env) : ac_env :=
  mk_env (ae_alloc e) (ae_fsm e) p (ae_caps e) (ae_outputs e) (ae_to_sets e) (ae_htab e) (ae_results e).
Definition with_sets (ts : to_sets) (rs : results) (e : ac_env) : ac_env :=
  mk_env (ae_alloc e) (ae_fsm e) (ae_issp e) (ae_caps e) (ae_outputs e) ts (ae_htab e) rs.
Definition with_htab (h : result_pair_htab) (e : ac_env) : ac_env :=
  mk_env (ae_alloc e) (ae_fsm e) (ae_issp e) (ae_caps e) (ae_outputs e) (ae_to_sets e) h (ae_results e).

(** ** The monad *)

Definition M (A : Type) : Type := ac_env → option (option A * ac_env).

#[export] Instance M_ret : MRet M := λ A a e, Some (Some a, e).
#[export] Instance M_bind : MBind M := λ A B f m e,
  match m e with
  | None => None
  | Some (None, e) => Some (None, e)
  | Some (Some a, e) => f a e
  end.

Definition undef {A} : M A := λ _, None.
Definition return0 {A} : M A := λ e, Some (None, e).
Definition asserts (b : bool) : M () := if b then mret tt else undef.
Definition asks {A} (f : ac_env → A) : M A := λ e, Some (Some (f e), e).
Definition puts (f : ac_env → ac_env) : M () := λ e, Some (Some tt, f e).

(** A value that a pointer out of bounds does not have. *)
Definition the {A} (o : option A) : M A := match o with Some a => mret a | None => undef end.

(** A call that returns 0 or 1. *)
Definition call {A B} (run : ac_env → option (bool * A)) (put : A → ac_env → ac_env) (out : A → B) : M B := λ e,
  match run e with
  | None => None
  | Some (true, a) => Some (Some (out a), put a e)
  | Some (false, a) => Some (None, put a e)
  end.

Fixpoint foldM {A B} (f : A → B → M A) (a : A) (l : list B) : M A :=
  match l with
  | [] => mret a
  | b :: l => a ← f a b; foldM f a l
  end.

(** ** Sets of labels *)

Definition group_labels_overlap (a b : ac_group) : bool :=
  negb (N.land (g_words_used a) (g_words_used b) =? 0)%N &&
  existsb (λ i, let wa := word (g_labels a) i in
    negb (wa =? 0)%N && negb (N.land wa (word (g_labels b) i) =? 0)%N) (seq 0 4).

Definition intersect_with (a b : list N) : list N :=
  zip_with (λ aw bw, if (aw =? 0)%N then aw else N.land aw bw) a b.

Definition union_with (a b : list N) : list N :=
  zip_with (λ aw bw, if (bw =? 0)%N then aw else N.lor aw bw) a b.

(** The words whose bit of [words_used] is set lose the labels of [b]; the bit
    of a word that becomes empty is cleared. *)
Definition clear_word (b : list N) (g : ac_group) (i : nat) : ac_group :=
  let bit := N.shiftl 1 (N.of_nat i) in
  if (N.land (g_words_used g) bit =? 0)%N then g
  else
    let w := N.ldiff (word (g_labels g) i) (word b i) in
    mk_group (g_to g) (if (w =? 0)%N then N.ldiff (g_words_used g) bit else g_words_used g) (<[i := w]> (g_labels g)).

Definition clear_group_labels (g : ac_group) (b : list N) : ac_group := foldl (clear_word b) g (seq 0 4).

Section Ops.
Context `{allocator}.

(** ** Buffers *)

(** [f_realloc] to twice the capacity, or to [def] at first. *)
Definition grow_cap (get : ac_caps → nat) (set : nat → ac_caps → ac_caps) (def : nat) (size : N) : M () := λ e,
  let nceil := if get (ae_caps e) =? 0 then def else 2 * get (ae_caps e) in
  if f_realloc (ae_alloc e) (N.of_nat nceil * size) then Some (Some tt, with_caps (set nceil (ae_caps e)) e)
  else Some (None, e).

Definition set_group_ceil (n : nat) (c : ac_caps) : ac_caps :=
  mk_caps n (ac_output_ceil c) (ac_cvect_ceil c) (ac_pbuf_ceil c) (ac_dst_tmp_ceil c) (ac_dst_ceil c).
Definition set_output_ceil (n : nat) (c : ac_caps) : ac_caps :=
  mk_caps (ac_group_ceil c) n (ac_cvect_ceil c) (ac_pbuf_ceil c) (ac_dst_tmp_ceil c) (ac_dst_ceil c).
Definition set_cvect_ceil (n : nat) (c : ac_caps) : ac_caps :=
  mk_caps (ac_group_ceil c) (ac_output_ceil c) n (ac_pbuf_ceil c) (ac_dst_tmp_ceil c) (ac_dst_ceil c).
Definition set_pbuf_ceil (n : nat) (c : ac_caps) : ac_caps :=
  mk_caps (ac_group_ceil c) (ac_output_ceil c) (ac_cvect_ceil c) n (ac_dst_tmp_ceil c) (ac_dst_ceil c).
Definition set_dst_tmp_ceil (n : nat) (c : ac_caps) : ac_caps :=
  mk_caps (ac_group_ceil c) (ac_output_ceil c) (ac_cvect_ceil c) (ac_pbuf_ceil c) n (ac_dst_ceil c).
Definition set_dst_ceil (n : nat) (c : ac_caps) : ac_caps :=
  mk_caps (ac_group_ceil c) (ac_output_ceil c) (ac_cvect_ceil c) (ac_pbuf_ceil c) (ac_dst_tmp_ceil c) n.

Definition analyze_closures__grow_groups : M () := grow_cap ac_group_ceil set_group_ceil 0 40.
Definition analyze_closures__grow_dst : M () := grow_cap ac_dst_ceil set_dst_ceil DEF_DST_CEIL 4.
Definition analyze_closures__grow_outputs : M () := grow_cap ac_output_ceil set_output_ceil DEF_OUTPUT_CEIL 40.
Definition grow_clearing_vector : M () := grow_cap ac_cvect_ceil set_cvect_ceil DEF_CVECT_CEIL 4.

Definition when (b : bool) (m : M ()) : M () := if b then m else mret tt.

Definition capacity (get : ac_caps → nat) : M nat := asks (get ∘ ae_caps).

Definition analyze_closures__init_groups (e : ac_env) : bool * ac_env :=
  if ac_group_ceil (ae_caps e) =? 0 then
    if f_malloc (ae_alloc e) (N.of_nat DEF_GROUP_CEIL * 40) then
      (true, with_caps (set_group_ceil DEF_GROUP_CEIL (ae_caps e)) e)
    else (false, e)
  else (true, e).

(** Room for the group at [count]. *)
Definition room_for_group (count : nat) : M () :=
  ceil ← capacity ac_group_ceil;
  when (count + 1 =? ceil) analyze_closures__grow_groups ;;
  ceil ← capacity ac_group_ceil;
  asserts (count <? ceil).

(** Room for [dst[count]]; the write is in bounds. *)
Definition room_for_dst (count : nat) : M () :=
  ceil ← capacity ac_dst_ceil;
  when (count + 1 =? ceil) analyze_closures__grow_dst ;;
  ceil ← capacity ac_dst_ceil;
  asserts (count <? ceil).

Definition room_for_id (count : nat) : M () :=
  ceil ← capacity ac_cvect_ceil;
  when (count =? ceil) grow_clearing_vector ;;
  ceil ← capacity ac_cvect_ceil;
  asserts (count <? ceil).

(** The first check of a pass over the groups is for an empty vector. *)
Definition room_for_first_id : M () :=
  ceil ← capacity ac_cvect_ceil;
  when (ceil =? 0) grow_clearing_vector.

(** [dst_tmp_buf_append] to [count] elements. *)
Definition dst_tmp_buf_append (dst : list N) (id : N) : M (list N) :=
  ceil ← capacity ac_dst_tmp_ceil;
  when (length dst =? ceil) (grow_cap ac_dst_tmp_ceil set_dst_tmp_ceil DEF_DST_TMP_CEIL 4) ;;
  mret (dst ++ [id]).

(** ** Calls on the caches *)

Definition add_group (dst labels : list N) : M () :=
  call (λ e, '(ok, ts, rs) ← add_group_dst_info_to_buffer (ae_alloc e) (ae_to_sets e) (ae_results e) dst labels;
             Some (ok, (ts, rs)))
    (λ '(ts, rs), with_sets ts rs) (λ _, tt).

Definition commit : M N :=
  call (λ e, let '(ok, rs, id) := commit_buffered_result (ae_alloc e) (ae_results e) in Some (ok, (rs, id)))
    (λ '(rs, _) e, with_sets (ae_to_sets e) rs e) snd.

Definition save_single (state_id result_id : N) : M () :=
  call (λ e, analysis_cache_save_single_state (ae_alloc e) (ae_htab e) state_id result_id) with_htab (λ _, tt).

Definition save_pair (a b result_id : N) : M () :=
  call (λ e, analysis_cache_save_pair (ae_alloc e) (ae_htab e) a b result_id) with_htab (λ _, tt).

Definition check_single (id : N) : M (option N) := λ e,
  o ← analysis_cache_check_single_state (ae_htab e) id; Some (Some o, e).

Definition check_pair (pa pb : N) : M (option N) := λ e,
  o ← analysis_cache_check_pair (ae_htab e) pa pb; Some (Some o, e).

Definition clear_buffer : M () :=
  puts (λ e, with_sets (ae_to_sets e)
    (mk_results (rs_rs (ae_results e)) (rs_ceil (ae_results e)) [] (rb_ceil (ae_results e))) e).

(** [to_sets.buf[offset]], [count] states. *)
Definition entry_states (re : result_entry) : M (list N) :=
  ts ← asks ae_to_sets;
  asserts (N.to_nat (re_to_set_offset re) + N.to_nat (re_to_set_count re) <=? length (ts_buf ts)) ;;
  mret (ids_at (ts_buf ts) (N.to_nat (re_to_set_offset re)) (N.to_nat (re_to_set_count re))).

Definition append_states (dst : list N) (re : result_entry) : M (list N) :=
  ids ← entry_states re;
  foldM dst_tmp_buf_append dst ids.

(** ** A state alone *)

(** The groups that are complete and the current one, [groups[group_count]]. *)
Definition collect_group (st : list ac_group * ac_group) (info : edge_group_iter_info) : M (list ac_group * ac_group) :=
  let '(prev, g) := st in
  room_for_group (length prev) ;;
  if (g_to g =? AC_NO_STATE)%N then
    mret (prev, mk_group (egii_to info) 0 (union_with (replicate 4 0%N) (egii_symbols info)))
  else if (g_to g =? egii_to info)%N then
    mret (prev, mk_group (g_to g) (g_words_used g) (union_with (g_labels g) (egii_symbols info)))
  else
    asserts (g_to g <? egii_to info)%N ;;
    room_for_group (length prev + 1) ;;
    mret (prev ++ [g], mk_group (egii_to info) 0 (union_with (replicate 4 0%N) (egii_symbols info))).

Definition collect_groups (edges : edge_set_ptr) : M (list ac_group) :=
  '(prev, g) ← foldM collect_group ([], mk_group AC_NO_STATE 0 (replicate 4 0%N)) (group_loop edges);
  mret ((λ g, mk_group (g_to g) (words_used_mask (g_labels g)) (g_labels g)) <$>
    (if (g_to g =? AC_NO_STATE)%N then prev else prev ++ [g])).

(** A later group that has some of the labels: they are reduced to the ones
    shared, and its state is added. The labels are kept with the [words_used]
    of the base group. *)
Definition absorb_group (gs : list ac_group) (base : ac_group) (st : list N * list N * list N) (o_i : nat)
    : M (list N * list N * list N) :=
  let '(labels, dst, ids) := st in
  og ← the (gs !! o_i);
  if (g_words_used og =? 0)%N then mret st
  else if group_labels_overlap (mk_group (g_to base) (g_words_used base) labels) og then
    room_for_dst (length dst) ;;
    room_for_id (length ids) ;;
    mret (intersect_with labels (g_labels og), dst ++ [g_to og], ids ++ [u32 (N.of_nat o_i)])
  else mret st.

Definition clear_group (labels : list N) (gs : list ac_group) (g_id : N) : M (list ac_group) :=
  g ← the (gs !! N.to_nat g_id);
  mret (<[N.to_nat g_id := clear_group_labels g labels]> gs).

(** How many groups at the front are empty. *)
Fixpoint empty_groups (gs : list ac_group) : nat :=
  match gs with
  | g :: gs => if (g_words_used g =? 0)%N then S (empty_groups gs) else 0
  | [] => 0
  end.

(** The loop on [base_i]. *)
Fixpoint group_passes (fuel base_i : nat) (gs : list ac_group) : M () :=
  match fuel with
  | 0 => undef
  | S fuel =>
      if base_i <? length gs then
        bg ← the (gs !! base_i);
        asserts (any_word (g_labels bg)) ;;
        room_for_dst 0 ;;
        room_for_first_id ;;
        '(labels, dst, ids) ← foldM (absorb_group gs bg) (g_labels bg, [g_to bg], [u32 (N.of_nat base_i)])
          (seq (base_i + 1) (length gs - (base_i + 1)));
        asserts (any_word labels) ;;
        gs ← foldM (clear_group labels) gs ids;
        add_group dst labels ;;
        group_passes fuel (base_i + empty_groups (drop base_i gs)) gs
      else mret tt
  end.

(** Each pass takes at least one of the 256 labels. *)
Definition passes_fuel : nat := 257.

(** Without groups the passes are skipped. *)
Definition build_groups (gs : list ac_group) : M () :=
  if length gs =? 0 then mret tt
  else
    puts (with_outputs []) ;;
    ceil ← capacity ac_dst_ceil;
    when (ceil =? 0) analyze_closures__grow_dst ;;
    group_passes passes_fuel 0 gs.

(** When the first allocation of the groups fails, [groups[0]] is NULL. *)
Definition cache_single_state_analysis (state_id : N) : M N := λ e,
  let '(ok, e) := analyze_closures__init_groups e in
  if ok then
    (gs ← collect_groups (st_edges (get_state (ae_fsm e) state_id));
     build_groups gs ;;
     id ← commit;
     save_single state_id id ;;
     mret id) e
  else None.

(** The result for a state, from the cache if it is there. *)
Definition single_result (id : N) : M N :=
  found ← check_single id;
  match found with
  | Some r => mret r
  | None => cache_single_state_analysis id
  end.

(** ** Two results *)

(** An entry of the right result that has some of the labels. *)
Definition absorb_entry (st : list N * N * list N) (er : result_entry) : M (list N * N * list N) :=
  let '(labels, wu, dst) := st in
  asserts (negb (re_words_used er =? 0)%N) ;;
  if (N.land (re_words_used er) wu =? 0)%N then mret st
  else if existsb (λ i, negb (N.land (word labels i) (word (re_labels er) i) =? 0)%N) (seq 0 4) then
    let labels := words_and labels (re_labels er) in
    let wu := foldl (λ wu i, if (word labels i =? 0)%N then N.ldiff wu (N.shiftl 1 (N.of_nat i)) else wu) wu (seq 0 4) in
    dst ← append_states dst er;
    mret (labels, wu, dst)
  else mret st.

(** The loop on the entries of the left result: the labels checked. *)
Fixpoint left_pass (fuel rl_i : nat) (rl rr : analysis_result) (checked : list N) : M (list N) :=
  match fuel with
  | 0 => undef
  | S fuel =>
      match rl !! rl_i with
      | None => mret checked
      | Some el =>
          let labels := words_diff (re_labels el) checked in
          let wu := words_used_mask labels in
          if (wu =? 0)%N then left_pass fuel (rl_i + 1) rl rr checked
          else
            dst ← append_states [] el;
            '(labels, _, dst) ← foldM absorb_entry (labels, wu, dst) rr;
            asserts (any_word labels) ;;
            dst ← the (sort_and_dedup_dst_buf dst);
            add_group dst labels ;;
            left_pass fuel rl_i rl rr (words_or checked labels)
      end
  end.

(** The labels of an entry of the right result that are left. *)
Definition right_entry (checked : list N) (er : result_entry) : M () :=
  if existsb (λ i, negb (N.ldiff (word (re_labels er) i) (word checked i) =? 0)%N) (seq 0 4) then
    let labels := words_diff (re_labels er) checked in
    dst ← append_states [] er;
    add_group dst labels
  else mret tt.

(** An entry is passed, or takes some of the 256 labels. *)
Definition left_fuel (rl : analysis_result) : nat := 257 + length rl.

Definition combine_result_pair_and_commit (result_id_a result_id_b : N) : M N :=
  rs ← asks (rs_rs ∘ ae_results);
  ra ← the (rs !! N.to_nat result_id_a);
  rb ← the (rs !! N.to_nat result_id_b);
  let rl := if length ra <=? length rb then ra else rb in
  let rr := if length rb <? length ra then ra else rb in
  asserts (negb (result_id_a =? result_id_b)%N) ;;
  clear_buffer ;;
  checked ← left_pass (left_fuel rl) 0 rl rr (replicate 4 0%N);
  foldM (λ _ er, right_entry checked er) tt rr ;;
  commit.

Definition as_result (id : N) : M N :=
  if is_result id then mret id else r ← single_result id; mret (N.lor r RESULT_BIT).

Definition combine_pair (pa pb : N) : M N :=
  pa ← as_result pa;
  pb ← as_result pb;
  found ← check_pair pa pb;
  match found with
  | Some r => mret r
  | None =>
      asserts (is_result pa && is_result pb) ;;
      let pa := result_mask pa in
      let pb := result_mask pb in
      r ← combine_result_pair_and_commit pa pb;
      save_pair pa pb r ;;
      mret r
  end.

(** ** A set of states *)

Definition analyze_closures__save_output (labels : list N) (iss : N) : M () :=
  outputs ← asks ae_outputs;
  ceil ← capacity ac_output_ceil;
  when (ceil <=? length outputs + 1) analyze_closures__grow_outputs ;;
  puts (with_outputs (outputs ++ [mk_output labels iss])).

Definition output_entry (re : result_entry) : M () :=
  dst ← entry_states re;
  iss ← call (λ e, '(ok, p, id) ← interned_state_set_intern_set (ae_issp e) dst; Some (ok, (p, id)))
    (λ '(p, _), with_issp p) snd;
  analyze_closures__save_output (re_labels re) iss.

Definition build_output_from_cached_analysis (cached_result_id : N) : M () :=
  rs ← asks (rs_rs ∘ ae_results);
  r ← the (rs !! N.to_nat cached_result_id);
  foldM (λ _ re, output_entry re) tt r.

Definition analyze_single_state (id : N) : M () :=
  f ← asks ae_fsm;
  asserts (N.to_nat id <? f_statecount f) ;;
  r ← single_result id;
  build_output_from_cached_analysis r.

(** The rounds: [cbuf] from [cur_i] on is to be paired, the results are put in
    [nbuf]. *)
Fixpoint pairwise (fuel : nat) (cbuf : list N) (cur_i : nat) (nbuf : list N) : M (list N) :=
  match fuel with
  | 0 => undef
  | S fuel =>
      let cur_used := length cbuf in
      if 1 <? cur_used then
        if cur_i =? cur_used then pairwise fuel nbuf 0 []
        else if Nat.odd cur_used && (cur_i =? cur_used - 1) then
          ceil ← capacity ac_pbuf_ceil;
          asserts (length nbuf + 1 <? ceil) ;;
          id ← the (cbuf !! cur_i);
          pairwise fuel cbuf (cur_i + 1) (nbuf ++ [id])
        else
          asserts (cur_i + 2 <=? cur_used) ;;
          a ← the (cbuf !! cur_i);
          b ← the (cbuf !! (cur_i + 1));
          r ← combine_pair a b;
          let result_id := N.lor r RESULT_BIT in
          asserts (negb (result_id =? a)%N && negb (result_id =? b)%N) ;;
          ceil ← capacity ac_pbuf_ceil;
          asserts (length nbuf <? ceil) ;;
          pairwise fuel cbuf (cur_i + 2) (nbuf ++ [result_id])
      else mret cbuf
  end.

(** A round takes at most a step for each identifier and one to end, and leaves
    fewer of them. *)
Definition pairwise_fuel (n : nat) : nat := (n + 1) * (n + 1) + 1.

Definition grow_pbufs (set_count : nat) : M () := λ e,
  let ceil := ac_pbuf_ceil (ae_caps e) in
  if ceil <? set_count then
    let nceil := double_to set_count (if ceil =? 0 then DEF_PBUF_CEIL else 2 * ceil) set_count in
    if f_realloc (ae_alloc e) (N.of_nat nceil * 8) then
      Some (Some tt, with_caps (set_pbuf_ceil nceil (ae_caps e)) e)
    else Some (None, e)
  else Some (Some tt, e).

Definition get_state_set (iss_id : N) : M state_set := λ e,
  '(ss, p) ← interned_state_set_get_state_set (ae_issp e) iss_id; Some (Some ss, with_issp p e).

(** The result of [analyze_closures__init_groups] is not looked at. *)
Definition analyze_closures__pairwise_grouping (iss_id : N) : M () :=
  puts (λ e, (analyze_closures__init_groups e).2) ;;
  ss ← get_state_set iss_id;
  let set_count := state_set_count ss in
  grow_pbufs set_count ;;
  ceil ← capacity ac_pbuf_ceil;
  asserts (length (state_loop ss) <=? ceil) ;;
  if set_count =? 1 then
    id ← the (state_loop ss !! 0);
    asserts (negb (is_result id)) ;;
    analyze_single_state id
  else
    ids ← pairwise (pairwise_fuel set_count) (state_loop ss) 0 [];
    asserts (length ids =? 1) ;;
    id ← the (ids !! 0);
    asserts (is_result id) ;;
    rs ← asks (rs_rs ∘ ae_results);
    asserts (N.to_nat (result_mask id) <? length rs) ;;
    build_output_from_cached_analysis (result_mask id).
End Ops.
