(* ===== verification/DetResults.v ===== *)
(** * Results of the determiniser's analysis

    What a result means: a partition of labels, each part with the states it
    leads to. The analysis of a state alone means the edges of the state, the
    combination of two results the union of what they mean. *)

From S2P Require Import Prelude StateSet Bits EdgeSet EdgeIter Probe Fsm InternedSet DetSort DetCache DetAnalysis.

(** ** Computations that return a value *)

Definition runs {A} (m : M A) (e : ac_env) (Q : A → ac_env → Prop) : Prop :=
  ∃ a e', m e = Some (Some a, e') ∧ Q a e'.

Lemma runs_mono {A} (m : M A) e (P Q : A → ac_env → Prop) : runs m e P → (∀ a e', P a e' → Q a e') → runs m e Q.
Proof. intros (a & e' & E & HP) HQ. exists a, e'. auto. Qed.

Lemma runs_ret {A} (a : A) e (Q : A → ac_env → Prop) : Q a e → runs (mret a) e Q.
Proof. intros HQ. by exists a, e. Qed.

Lemma runs_bind {A B} (m : M A) (k : A → M B) e Q : runs m e (λ a e, runs (k a) e Q) → runs (m ≫= k) e Q.
Proof.
  intros (a & e' & E & b & e'' & E' & HQ). exists b, e''. split; [|done].
  unfold mbind, M_bind. by rewrite E.
Qed.

Lemma runs_asserts b e (Q : () → ac_env → Prop) : b = true → Q tt e → runs (asserts b) e Q.
Proof. intros -> HQ. by apply runs_ret. Qed.

Lemma runs_asks {A} (f : ac_env → A) e (Q : A → ac_env → Prop) : Q (f e) e → runs (asks f) e Q.
Proof. intros HQ. by exists (f e), e. Qed.

Lemma runs_capacity get e (Q : nat → ac_env → Prop) : Q (get (ae_caps e)) e → runs (capacity get) e Q.
Proof. intros HQ. by apply runs_asks. Qed.

Lemma runs_puts f e (Q : () → ac_env → Prop) : Q tt (f e) → runs (puts f) e Q.
Proof. intros HQ. by exists tt, (f e). Qed.

Lemma runs_the {A} (o : option A) a e (Q : A → ac_env → Prop) : o = Some a → Q a e → runs (the o) e Q.
Proof. intros -> HQ. by apply runs_ret. Qed.

Lemma runs_when b m e (Q : () → ac_env → Prop) : (b = true → runs m e Q) → (b = false → Q tt e) → runs (when b m) e Q.
Proof. intros H1 H2. destruct b; cbn [when]; [by apply H1|]. by apply runs_ret, H2. Qed.

(** A loop keeps an invariant on what it has gone through. *)
Lemma runs_foldM {A B} (f : A → B → M A) (Inv : list B → A → ac_env → Prop) l : ∀ pre a e,
  (∀ p b q a e, pre ++ l = p ++ b :: q → Inv p a e → runs (f a b) e (λ a e, Inv (p ++ [b]) a e)) →
  Inv pre a e → runs (foldM f a l) e (λ a e, Inv (pre ++ l) a e).
Proof.
  induction l as [|b l IH]; intros pre a e Hf HI; cbn [foldM].
  { apply runs_ret. by rewrite app_nil_r. }
  apply runs_bind. eapply runs_mono; [by eapply Hf|]. cbv beta. intros a' e' HI'.
  replace (pre ++ b :: l) with ((pre ++ [b]) ++ l) in * by (by rewrite <-app_assoc). by apply IH.
Qed.

Ltac run_step :=
  cbv beta; match goal with
  | |- runs (_ ≫= _) _ _ => apply runs_bind
  | |- runs (asks _) _ _ => apply runs_asks
  | |- runs (puts _) _ _ => apply runs_puts
  | |- runs (mret _) _ _ => apply runs_ret
  | |- runs (capacity _) _ _ => apply runs_capacity
  end; cbv beta.

(** ** Words *)

Lemma length4 (s : list N) : length s = 4 → ∃ a b c d, s = [a; b; c; d].
Proof. destruct s as [|a [|b [|c [|d [|]]]]]; cbn; try lia. eauto. Qed.

Lemma intersect_with_and a b : intersect_with a b = words_and a b.
Proof.
  unfold intersect_with, words_and. revert b. induction a as [|x a IH]; intros [|y b]; cbn; try done. rewrite IH. f_equal.
  destruct (x =? 0)%N eqn:E; [|done]. apply N.eqb_eq in E. by subst.
Qed.

Lemma union_with_or a b : union_with a b = words_or a b.
Proof.
  unfold union_with, words_or. revert b. induction a as [|x a IH]; intros [|y b]; cbn; try done. rewrite IH. f_equal.
  destruct (y =? 0)%N eqn:E; [|done]. apply N.eqb_eq in E. subst. by rewrite N.lor_0_r.
Qed.

Lemma any_and a b :
  length a = 4 → length b = 4 →
  existsb (λ i, negb (N.land (word a i) (word b i) =? 0)%N) (seq 0 4) = any_word (words_and a b).
Proof. intros (? & ? & ? & ? & ->)%length4 (? & ? & ? & ? & ->)%length4. reflexivity. Qed.

Lemma any_diff a b :
  length a = 4 → length b = 4 →
  existsb (λ i, negb (N.ldiff (word a i) (word b i) =? 0)%N) (seq 0 4) = any_word (words_diff a b).
Proof. intros (? & ? & ? & ? & ->)%length4 (? & ? & ? & ? & ->)%length4. reflexivity. Qed.

Lemma words_used_high labels i : (4 ≤ i)%N → N.testbit (words_used_mask labels) i = false.
Proof.
  intros Hi. assert (words_used_mask labels < 16)%N as Hlt.
  { unfold words_used_mask. cbn [foldl seq].
    destruct (word labels 0 =? 0)%N, (word labels 1 =? 0)%N, (word labels 2 =? 0)%N, (word labels 3 =? 0)%N; reflexivity. }
  destruct (decide (words_used_mask labels = 0%N)) as [->|Hz]; [apply N.bits_0|].
  apply N.bits_above_log2. eapply N.lt_le_trans; [|exact Hi]. apply N.log2_lt_pow2; [lia|]. exact Hlt.
Qed.

Lemma words_used_zero labels : length labels = 4 → (words_used_mask labels =? 0)%N = negb (any_word labels).
Proof.
  intros (a & b & c & d & ->)%length4. unfold words_used_mask, any_word. cbn [foldl seq existsb word].
  change (word [a; b; c; d] 0) with a. change (word [a; b; c; d] 1) with b. change (word [a; b; c; d] 2) with c.
  change (word [a; b; c; d] 3) with d. by destruct (a =? 0)%N, (b =? 0)%N, (c =? 0)%N, (d =? 0)%N.
Qed.

(** Sets with a label in common have a word in common. *)
Lemma words_used_common a b c :
  words_ok 4 a → words_ok 4 b → bs_get a c = true → bs_get b c = true →
  (N.land (words_used_mask a) (words_used_mask b) =? 0)%N = false.
Proof.
  intros Wa Wb Ha Hb. apply N.eqb_neq. intros E. pose proof (bs_get_lt 4 a c Wa Ha) as Hc.
  assert (c / 64 < 4) as Hi by (apply Nat.Div0.div_lt_upper_bound; lia).
  apply (f_equal (λ n, N.testbit n (N.of_nat (c / 64)))) in E. cbv beta in E.
  rewrite N.land_spec, N.bits_0, !words_used_bit in E by done. rewrite bs_get_testbit in Ha, Hb.
  destruct (word a (c / 64) =? 0)%N eqn:E1.
  { apply N.eqb_eq in E1. by rewrite E1, N.bits_0 in Ha. }
  destruct (word b (c / 64) =? 0)%N eqn:E2; [|done]. apply N.eqb_eq in E2. by rewrite E2, N.bits_0 in Hb.
Qed.

(** A bit for each word that is not empty. *)
Lemma words_used_ext w labels :
  (∀ i, i < 4 → N.testbit w (N.of_nat i) = negb (word labels i =? 0)%N) → (∀ i, (4 ≤ i)%N → N.testbit w i = false) →
  w = words_used_mask labels.
Proof.
  intros Hlo Hhi. apply N.bits_inj. intros j. destruct (decide (4 ≤ j)%N) as [Hj|Hj].
  - by rewrite Hhi, words_used_high.
  - replace j with (N.of_nat (N.to_nat j)) by lia. rewrite Hlo, words_used_bit by lia. done.
Qed.

Lemma overlap_spec to wu labels og :
  words_ok 4 labels → words_ok 4 (g_labels og) → g_words_used og = words_used_mask (g_labels og) →
  (∃ base, words_ok 4 base ∧ wu = words_used_mask base ∧ ∀ c, bs_get labels c = true → bs_get base c = true) →
  group_labels_overlap (mk_group to wu labels) og = true ↔ ∃ c, bs_get labels c = true ∧ bs_get (g_labels og) c = true.
Proof.
  intros Wl Wo Eo (base & Wb & -> & Hbase). unfold group_labels_overlap. cbn [g_words_used g_labels]. rewrite Eo.
  assert (existsb (λ i, negb (word labels i =? 0)%N && negb (N.land (word labels i) (word (g_labels og) i) =? 0)%N) (seq 0 4)
    = any_word (words_and labels (g_labels og))) as ->.
  { rewrite <-any_and by (apply Wl || apply Wo). induction (seq 0 4) as [|i l IH]; [done|]. cbn [existsb].
    rewrite IH. f_equal. destruct (word labels i =? 0)%N eqn:E; [|done]. apply N.eqb_eq in E. by rewrite E. }
  assert (length labels = length (g_labels og)) as El by (by rewrite (proj1 Wl), (proj1 Wo)).
  rewrite andb_true_iff, any_word_spec by auto with fsm_bits. setoid_rewrite bs_get_and; [|done].
  setoid_rewrite andb_true_iff. split; [by intros [_ ?]|]. intros (c & H1 & H2). split; [|eauto].
  rewrite (words_used_common base (g_labels og) c); auto.
Qed.

Lemma clear_word_spec b to labels i :
  length labels = 4 → i < 4 →
  clear_word b (mk_group to (words_used_mask labels) labels) i =
  let labels' := <[i := N.ldiff (word labels i) (word b i)]> labels in mk_group to (words_used_mask labels') labels'.
Proof.
  intros Hl Hi. unfold clear_word. cbn [g_words_used g_labels g_to]. cbv zeta. rewrite N.shiftl_1_l, land_pow2_zero, words_used_bit by done.
  rewrite negb_involutive. destruct (word labels i =? 0)%N eqn:E.
  { apply N.eqb_eq in E. rewrite E. change (N.ldiff 0 (word b i)) with 0%N. rewrite list_insert_id; [done|].
    destruct (lookup_lt_is_Some_2 labels i ltac:(lia)) as [w Hw]. rewrite Hw. f_equal. rewrite (word_Some _ _ _ Hw) in E. done. }
  f_equal. set (w := N.ldiff _ _). apply words_used_ext.
  - intros j Hj. destruct (decide (i = j)) as [->|Hne].
    + rewrite word_insert_eq by lia. destruct (w =? 0)%N; rewrite ?N.ldiff_spec, ?N.pow2_bits_true, words_used_bit, E by done; done.
    + rewrite word_insert_ne by done. destruct (w =? 0)%N; rewrite ?N.ldiff_spec, ?N.pow2_bits_false, words_used_bit by (done || lia);
        by rewrite ?andb_true_r.
  - intros j Hj. destruct (w =? 0)%N; rewrite ?N.ldiff_spec, words_used_high by done; done.
Qed.

Lemma clear_group_spec g b :
  length (g_labels g) = 4 → length b = 4 → g_words_used g = words_used_mask (g_labels g) →
  clear_group_labels g b = mk_group (g_to g) (words_used_mask (words_diff (g_labels g) b)) (words_diff (g_labels g) b).
Proof.
  destruct g as [to wu labels]. cbn [g_labels g_words_used g_to]. intros Hl (w & x & y & z & ->)%length4 ->.
  unfold clear_group_labels. cbn [seq foldl]. rewrite !clear_word_spec by (rewrite ?length_insert; lia). cbv zeta.
  apply length4 in Hl as (p & q & r & s & ->). reflexivity.
Qed.

(** The update of [wu] in [combine_result_pair_and_commit]. *)
Lemma clear_bits_testbit (zero : nat → bool) l : ∀ wu j,
  N.testbit (foldl (λ wu i, if zero i then N.ldiff wu (N.shiftl 1 (N.of_nat i)) else wu) wu l) j =
  N.testbit wu j && forallb (λ i, negb (zero i) || negb (N.of_nat i =? j)%N) l.
Proof.
  induction l as [|i l IH]; intros wu j; cbn [foldl forallb]; [by rewrite andb_true_r|]. rewrite IH. destruct (zero i); cbn [negb orb].
  - rewrite N.ldiff_spec, N.shiftl_1_l, N.pow2_bits_eqb, <-andb_assoc. done.
  - done.
Qed.

Lemma words_and_used a b :
  length a = 4 → length b = 4 →
  foldl (λ wu i, if (word (words_and a b) i =? 0)%N then N.ldiff wu (N.shiftl 1 (N.of_nat i)) else wu) (words_used_mask a) (seq 0 4)
  = words_used_mask (words_and a b).
Proof.
  intros Ha Hb. apply words_used_ext.
  - intros i Hi. rewrite (clear_bits_testbit (λ i, (word (words_and a b) i =? 0)%N)), words_used_bit by done.
    assert (word a i = 0%N → word (words_and a b) i = 0%N) as Hz.
    { intros E. unfold words_and. rewrite word_zip_with by (done || lia). by rewrite E. }
    destruct (word a i =? 0)%N eqn:E.
    + apply N.eqb_eq, Hz in E. by rewrite E.
    + cbn [negb andb]. destruct i as [|[|[|[|i]]]]; [| | | |lia]; cbn [seq forallb]; cbn [N.of_nat];
        repeat match goal with |- context [(word (words_and a b) ?k =? 0)%N] => destruct (word (words_and a b) k =? 0)%N end; reflexivity.
  - intros i Hi. by rewrite (clear_bits_testbit (λ i, (word (words_and a b) i =? 0)%N)), words_used_high.
Qed.

(** ** What results mean *)

Definition entry_edge (ts : to_sets) (re : result_entry) (c : nat) (t : N) : Prop :=
  bs_get (re_labels re) c = true ∧ t ∈ entry_ids ts re.

Definition res_edge (ts : to_sets) (r : analysis_result) (c : nat) (t : N) : Prop := ∃ re, re ∈ r ∧ entry_edge ts re c t.

Definition has_label (r : analysis_result) (c : nat) : Prop := ∃ re, re ∈ r ∧ bs_get (re_labels re) c = true.

Definition entry_fine (n : nat) (ts : to_sets) (re : result_entry) : Prop :=
  entry_ok ts re ∧ increasing (entry_ids ts re) ∧ Forall (λ x, N.to_nat x < n) (entry_ids ts re).

Definition labels_disjoint (r : analysis_result) : Prop :=
  ∀ i j x y c, r !! i = Some x → r !! j = Some y → bs_get (re_labels x) c = true → bs_get (re_labels y) c = true → i = j.

Definition result_ok (n : nat) (ts : to_sets) (r : analysis_result) : Prop := Forall (entry_fine n ts) r ∧ labels_disjoint r.

Lemma labels_disjoint_snoc r re :
  labels_disjoint r → (∀ c, bs_get (re_labels re) c = true → ¬ has_label r c) → labels_disjoint (r ++ [re]).
Proof.
  intros Hr Hno i j x y c Hx Hy Hcx Hcy.
  apply lookup_snoc_Some in Hx as [[Hi Hx]|[-> <-]], Hy as [[Hj Hy]|[-> <-]].
  - by eapply Hr.
  - exfalso. apply (Hno c Hcy). exists x. split; [|done]. apply list_elem_of_lookup. eauto.
  - exfalso. apply (Hno c Hcx). exists y. split; [|done]. apply list_elem_of_lookup. eauto.
  - done.
Qed.

(** A result has at most one entry for each label. *)
Lemma labels_few r : labels_disjoint r → (∀ x, x ∈ r → ∃ c, c < 256 ∧ bs_get (re_labels x) c = true) → length r ≤ 256.
Proof.
  intros Hd Hl.
  assert (∃ l, length l = length r ∧ ∀ i c x, l !! i = Some c → r !! i = Some x → c < 256 ∧ bs_get (re_labels x) c = true) as (l & El & Hlx).
  { clear Hd. induction r as [|x r IH]; [by exists []|]. destruct IH as (l & El & Hlx).
    { intros y Hy. apply Hl. by right. }
    destruct (Hl x ltac:(left)) as (c & Hc). exists (c :: l). split; [cbn; lia|].
    intros [|i] d y; cbn; [intros [= <-] [= <-]; done|]. apply Hlx. }
  rewrite <-El, <-(length_seq 256 0). apply submseteq_length, NoDup_submseteq.
  - apply NoDup_alt. intros i j c Hi Hj.
    destruct (lookup_lt_is_Some_2 r i) as [x Hx]; [apply lookup_lt_Some in Hi; lia|].
    destruct (lookup_lt_is_Some_2 r j) as [y Hy]; [apply lookup_lt_Some in Hj; lia|].
    exact (Hd i j x y c Hx Hy (proj2 (Hlx i c x Hi Hx)) (proj2 (Hlx j c y Hj Hy))).
  - intros c (i & Hi)%list_elem_of_lookup. destruct (lookup_lt_is_Some_2 r i) as [x Hx]; [apply lookup_lt_Some in Hi; lia|].
    apply elem_of_seq. pose proof (Hlx i c x Hi Hx). lia.
Qed.

Lemma result_few n ts r : result_ok n ts r → length r ≤ 256.
Proof.
  intros [Hf Hd]. apply labels_few; [done|]. intros x Hx. rewrite Forall_forall in Hf.
  by destruct (Hf x Hx) as ((_ & _ & ? & _) & _).
Qed.

Lemma entry_fine_prefix n ts ts' re : ts_buf ts `prefix_of` ts_buf ts' → entry_fine n ts re → entry_fine n ts' re.
Proof.
  intros Hp (H1 & H2 & H3). split; [by eapply entry_ok_prefix|]. by rewrite (entry_ids_prefix ts ts').
Qed.

Lemma result_ok_prefix n ts ts' r : ts_buf ts `prefix_of` ts_buf ts' → result_ok n ts r → result_ok n ts' r.
Proof. intros Hp [Hf Hd]. split; [|done]. eapply Forall_impl; [exact Hf|]. intros re. by apply entry_fine_prefix. Qed.

Lemma res_edge_prefix n ts ts' r c t :
  ts_buf ts `prefix_of` ts_buf ts' → result_ok n ts r → res_edge ts' r c t ↔ res_edge ts r c t.
Proof.
  intros Hp [Hf _]. rewrite Forall_forall in Hf. unfold res_edge, entry_edge. split; intros (re & Hin & Hc & Ht); exists re.
  - split; [done|]. split; [done|]. rewrite <-(entry_ids_prefix ts ts'); [done|done|]. apply (Hf re Hin).
  - split; [done|]. split; [done|]. rewrite (entry_ids_prefix ts ts'); [done|done|]. apply (Hf re Hin).
Qed.

Lemma res_edge_snoc ts r re c t : res_edge ts (r ++ [re]) c t ↔ res_edge ts r c t ∨ entry_edge ts re c t.
Proof.
  unfold res_edge. setoid_rewrite elem_of_app. setoid_rewrite list_elem_of_singleton. split.
  - intros (x & [Hx| ->] & He); [left; eauto|by right].
  - intros [(x & Hx & He)|He]; [exists x|exists re]; auto.
Qed.

Lemma has_label_snoc r re c : has_label (r ++ [re]) c ↔ has_label r c ∨ bs_get (re_labels re) c = true.
Proof.
  unfold has_label. setoid_rewrite elem_of_app. setoid_rewrite list_elem_of_singleton. split.
  - intros (x & [Hx| ->] & He); [left; eauto|by right].
  - intros [(x & Hx & He)|He]; [exists x|exists re]; auto.
Qed.

(** States of a set below [n]. *)
Lemma increasing_few n l : increasing l → Forall (λ x, N.to_nat x < n) l → length l ≤ n.
Proof.
  intros Hi%increasing_NoDup Hl. rewrite <-(length_fmap N.to_nat), <-(length_seq n 0). apply submseteq_length, NoDup_submseteq.
  - apply NoDup_fmap_2; [|done]. intros x y. lia.
  - intros x (y & -> & Hy)%list_elem_of_fmap. rewrite Forall_forall in Hl. apply elem_of_seq. specialize (Hl y Hy). cbn in Hl. lia.
Qed.

(** ** Building a result *)

(** Room for one more result: 256 sets of at most [n] states. *)
Definition room (n : nat) (ts : to_sets) : Prop :=
  (N.of_nat (length (ts_buf ts) + 256 * n) < 4294967296)%N ∧ (N.of_nat (ts_buckets_used ts + 256) < 1073741824)%N.

(** The environment in the middle of building the result [out]; [e0] is the one
    at the start. *)
Record building (n : nat) (e0 : ac_env) (out : analysis_result) (e : ac_env) : Prop := {
  bd_env : e = mk_env (ae_alloc e0) (ae_fsm e0) (ae_issp e0) (ae_caps e) (ae_outputs e0) (ae_to_sets e) (ae_htab e0) (ae_results e);
  bd_rs : rs_rs (ae_results e) = rs_rs (ae_results e0);
  bd_out : rb_entries (ae_results e) = out;
  bd_ts : ts_ok (ae_to_sets e);
  bd_prefix : ts_buf (ae_to_sets e0) `prefix_of` ts_buf (ae_to_sets e);
  bd_len : length (ts_buf (ae_to_sets e)) ≤ length (ts_buf (ae_to_sets e0)) + n * length out;
  bd_used : ts_buckets_used (ae_to_sets e) ≤ ts_buckets_used (ae_to_sets e0) + length out;
  bd_ok : result_ok n (ae_to_sets e) out;
  bd_pbuf : ac_pbuf_ceil (ae_caps e) = ac_pbuf_ceil (ae_caps e0);
}.

Lemma building_caps n e0 out e c :
  building n e0 out e → ac_pbuf_ceil c = ac_pbuf_ceil (ae_caps e) → building n e0 out (with_caps c e).
Proof. intros [B1 B2 B3 B4 B5 B6 B7 B8 B9] Hc. split; try done; [rewrite B1; done|]. cbn. congruence. Qed.

Section Lemmas.
Context `{allocator, !alloc_total}.

Lemma add_group_run n e0 out e dst labels :
  building n e0 out e → room n (ae_to_sets e0) → dst ≠ [] → increasing dst → Forall (λ x, N.to_nat x < n) dst →
  words_ok 4 labels → (∃ c, bs_get labels c = true) → (∀ c, bs_get labels c = true → ¬ has_label out c) →
  runs (add_group dst labels) e (λ _ e', ∃ re, building n e0 (out ++ [re]) e' ∧ ae_caps e' = ae_caps e ∧
    (∀ c, has_label (out ++ [re]) c ↔ has_label out c ∨ bs_get labels c = true) ∧
    ∀ c t, res_edge (ae_to_sets e') (out ++ [re]) c t ↔ res_edge (ae_to_sets e) out c t ∨ bs_get labels c = true ∧ t ∈ dst).
Proof.
  intros [B1 B2 B3 B4 B5 B6 B7 B8 B9] [R1 R2] Hne Hinc Hn Hw [c0 Hc0] Hno. pose proof (increasing_few n dst Hinc Hn) as Hdn.
  pose proof (bs_get_lt 4 _ _ Hw Hc0) as Hc256.
  assert (length out < 256) as Hout.
  { set (re := mk_re 0 0 (words_used_mask labels) labels).
    enough (length (out ++ [re]) ≤ 256) as Hle by (rewrite length_app in Hle; cbn in Hle; lia).
    destruct B8 as [Hf Hd]. rewrite Forall_forall in Hf. apply labels_few; [by apply labels_disjoint_snoc|].
    intros x [Hx| ->%list_elem_of_singleton]%elem_of_app; [|by exists c0]. by destruct (Hf x Hx) as ((_ & _ & ? & _) & _). }
  destruct (add_group_dst_info_spec (ae_alloc e) (ae_to_sets e) (ae_results e) dst labels) as
    (ts' & ceil & re & Ea & T1 & T2 & T3 & T4 & T5 & T6 & T7); [done|done| | |done|by exists c0|].
  { lia. }
  { nia. }
  eexists tt, (with_sets ts' _ e). split; [unfold add_group, call; rewrite Ea; done|]. rewrite B3 in *. exists re.
  assert (result_ok n ts' (out ++ [re])) as Hok.
  { destruct (result_ok_prefix n _ _ _ T5 B8) as [Hf Hd]. split.
    - apply Forall_app. split; [done|]. constructor; [|done]. split; [done|]. by rewrite T4.
    - apply labels_disjoint_snoc; [done|]. by rewrite T3. }
  split; [|split; [done|split]].
  - rewrite B1. split; cbn; try done.
    + by trans (ts_buf (ae_to_sets e)).
    + rewrite length_app. cbn. lia.
    + rewrite length_app. cbn. lia.
  - intros c. by rewrite has_label_snoc, T3.
  - intros c t. rewrite res_edge_snoc. unfold entry_edge. rewrite T3. cbn [ae_to_sets with_sets]. rewrite T4.
    by rewrite (res_edge_prefix n (ae_to_sets e)).
Qed.

(** *** Capacities *)

Lemma grow_run get set def size e (Q : () → ac_env → Prop) :
  Q tt (with_caps (set (if get (ae_caps e) =? 0 then def else 2 * get (ae_caps e)) (ae_caps e)) e) →
  runs (grow_cap get set def size) e Q.
Proof. intros HQ. eexists tt, _. split; [|exact HQ]. unfold grow_cap. by rewrite f_realloc_total. Qed.

Lemma with_caps_id e : with_caps (ae_caps e) e = e.
Proof. by destruct e. Qed.

Lemma set_group_ceil_id c : set_group_ceil (ac_group_ceil c) c = c. Proof. by destruct c. Qed.
Lemma set_dst_ceil_id c : set_dst_ceil (ac_dst_ceil c) c = c. Proof. by destruct c. Qed.
Lemma set_cvect_ceil_id c : set_cvect_ceil (ac_cvect_ceil c) c = c. Proof. by destruct c. Qed.
Lemma set_dst_tmp_ceil_id c : set_dst_tmp_ceil (ac_dst_tmp_ceil c) c = c. Proof. by destruct c. Qed.
Lemma set_output_ceil_id c : set_output_ceil (ac_output_ceil c) c = c. Proof. by destruct c. Qed.

Lemma room_for_group_run count e (Q : () → ac_env → Prop) :
  count < ac_group_ceil (ae_caps e) →
  (∀ m, count + 1 < m → Q tt (with_caps (set_group_ceil m (ae_caps e)) e)) → runs (room_for_group count) e Q.
Proof.
  intros Hc HQ. unfold room_for_group. do 2 run_step. run_step. apply runs_when; intros E; split_bool.
  - apply grow_run. do 2 run_step. cbn. rewrite (proj2 (Nat.eqb_neq _ _)) by lia.
    apply runs_asserts; [apply Nat.ltb_lt; lia|]. apply HQ. lia.
  - do 2 run_step. cbn. apply runs_asserts; [by apply Nat.ltb_lt|].
    rewrite <-(with_caps_id e), <-(set_group_ceil_id (ae_caps e)). apply HQ. lia.
Qed.

Lemma room_for_dst_run count e (Q : () → ac_env → Prop) :
  count < ac_dst_ceil (ae_caps e) →
  (∀ m, count + 1 < m → Q tt (with_caps (set_dst_ceil m (ae_caps e)) e)) → runs (room_for_dst count) e Q.
Proof.
  intros Hc HQ. unfold room_for_dst. do 2 run_step. run_step. apply runs_when; intros E; split_bool.
  - apply grow_run. do 2 run_step. cbn. rewrite (proj2 (Nat.eqb_neq _ _)) by lia.
    apply runs_asserts; [apply Nat.ltb_lt; lia|]. apply HQ. lia.
  - do 2 run_step. cbn. apply runs_asserts; [by apply Nat.ltb_lt|].
    rewrite <-(with_caps_id e), <-(set_dst_ceil_id (ae_caps e)). apply HQ. lia.
Qed.

Lemma room_for_id_run count e (Q : () → ac_env → Prop) :
  0 < ac_cvect_ceil (ae_caps e) → count ≤ ac_cvect_ceil (ae_caps e) →
  (∀ m, count < m → Q tt (with_caps (set_cvect_ceil m (ae_caps e)) e)) → runs (room_for_id count) e Q.
Proof.
  intros Hz Hc HQ. unfold room_for_id. do 2 run_step. run_step. apply runs_when; intros E; split_bool.
  - apply grow_run. do 2 run_step. cbn. rewrite (proj2 (Nat.eqb_neq _ _)) by lia.
    apply runs_asserts; [apply Nat.ltb_lt; lia|]. apply HQ. lia.
  - do 2 run_step. cbn. apply runs_asserts; [apply Nat.ltb_lt; lia|].
    rewrite <-(with_caps_id e), <-(set_cvect_ceil_id (ae_caps e)). apply HQ. lia.
Qed.

Lemma room_for_first_id_run e (Q : () → ac_env → Prop) :
  (∀ m, 0 < m → Q tt (with_caps (set_cvect_ceil m (ae_caps e)) e)) → runs room_for_first_id e Q.
Proof.
  intros HQ. unfold room_for_first_id. do 2 run_step. apply runs_when; intros E; split_bool.
  - apply grow_run. rewrite E. apply HQ. unfold DEF_CVECT_CEIL. cbn. lia.
  - rewrite <-(with_caps_id e), <-(set_cvect_ceil_id (ae_caps e)). apply HQ. lia.
Qed.
End Lemmas.
