(* ===== verification/DetSingle.v ===== *)
(** * The analysis of a state alone

    [cache_single_state_analysis] collects a group for each destination of the
    state and splits the groups into entries whose labels are disjoint: the
    result means the edges of the state. *)

From S2P Require Import Prelude StateSet Bits EdgeSet EdgeIter Probe Lang Fsm FsmSpec InternedSet DetSort DetCache DetAnalysis DetResults.

Lemma increasing_sublist l k : l `sublist_of` k → increasing k → increasing l.
Proof.
  induction 1 as [|x l k Hs IH|x l k Hs IH]; intros Hk.
  - constructor.
  - apply StronglySorted_cons in Hk as [Hx Hk]. apply StronglySorted_cons. split; [|by apply IH].
    rewrite Forall_forall in *. intros y Hy. apply Hx. by eapply elem_of_submseteq, sublist_submseteq.
  - apply StronglySorted_cons in Hk as [Hx Hk]. by apply IH.
Qed.

(** ** Groups *)

Definition group_fine (g : ac_group) : Prop :=
  words_ok 4 (g_labels g) ∧ g_words_used g = words_used_mask (g_labels g).

Definition group_label (gs : list ac_group) (i c : nat) : Prop := ∃ g, gs !! i = Some g ∧ bs_get (g_labels g) c = true.

Lemma group_empty g : group_fine g → (g_words_used g =? 0)%N = true ↔ ∀ c, bs_get (g_labels g) c = false.
Proof.
  intros [Hw ->]. rewrite words_used_zero by apply Hw. rewrite negb_true_iff. split.
  - intros E c. apply not_true_iff_false. intros Hc. apply not_true_iff_false in E. apply E, any_word_spec; eauto.
  - intros Hc. apply not_true_iff_false. intros [c E]%any_word_spec; [|done]. by rewrite Hc in E.
Qed.

(** The groups [ids] of [gs] have lost the labels. *)
Definition cleared (labels : list N) (gs : list ac_group) (ids : list N) (gs' : list ac_group) : Prop :=
  length gs' = length gs ∧
  ∀ i g0, gs !! i = Some g0 → ∃ g, gs' !! i = Some g ∧ g_to g = g_to g0 ∧ group_fine g ∧
    ∀ c, bs_get (g_labels g) c = bs_get (g_labels g0) c && negb (bs_get labels c && bool_decide (N.of_nat i ∈ ids)).

(** The state of the loop over the later groups: which groups [js] it has
    taken. *)
Record absorbed (gs : list ac_group) (bg : ac_group) (base : nat) (e0 : ac_env) (p : list nat)
    (st : list N * list N * list N) (e : ac_env) : Prop := {
  ab_env : ∃ c, e = with_caps c e0 ∧ ac_pbuf_ceil c = ac_pbuf_ceil (ae_caps e0);
  ab_labels : words_ok 4 st.1.1;
  ab_bg : ∀ c, bs_get st.1.1 c = true → bs_get (g_labels bg) c = true;
  ab_some : ∃ c, bs_get st.1.1 c = true;
  ab_dst : st.1.2 `sublist_of` (g_to <$> take (S (length p)) (drop base gs));
  ab_js : ∃ js, st.2 = (λ j, u32 (N.of_nat j)) <$> js ∧
    (∀ t, t ∈ st.1.2 ↔ ∃ j g, j ∈ js ∧ gs !! j = Some g ∧ g_to g = t) ∧
    (∀ j, j ∈ js → base ≤ j ≤ base + length p ∧ j < length gs) ∧
    ∀ c j, bs_get st.1.1 c = true → base ≤ j ≤ base + length p → (j ∈ js ↔ group_label gs j c);
  ab_dst_cap : length st.1.2 < ac_dst_ceil (ae_caps e);
  ab_id_cap : 0 < ac_cvect_ceil (ae_caps e) ∧ length st.2 ≤ ac_cvect_ceil (ae_caps e);
}.

Section Lemmas.
Context `{allocator, !alloc_total}.

Lemma absorb_group_run gs bg base e0 p o_i q st e :
  Forall group_fine gs → gs !! base = Some bg → seq (base + 1) (length gs - (base + 1)) = p ++ o_i :: q →
  absorbed gs bg base e0 p st e →
  runs (absorb_group gs bg st o_i) e (λ st e, absorbed gs bg base e0 (p ++ [o_i]) st e).
Proof.
  intros Hgs Hbg Hp [(cp & -> & Ecp) A1 A2 A3 A4 (js & E1 & J1 & J2 & J3) A6 A7]. destruct st as [[labels dst] ids].
  cbn [fst snd ae_caps with_caps] in *.
  assert (o_i = base + 1 + length p ∧ o_i < length gs) as [Eo Hlt].
  { assert (seq (base + 1) (length gs - (base + 1)) !! length p = Some o_i) as Hl by (by rewrite Hp, list_lookup_middle).
    apply lookup_seq in Hl. lia. }
  destruct (lookup_lt_is_Some_2 _ _ Hlt) as [og Hog].
  assert (group_fine og) as Fo by (by eapply Forall_lookup_1). assert (group_fine bg) as Fb by (by eapply Forall_lookup_1).
  assert (take (S (length (p ++ [o_i]))) (drop base gs) = take (S (length p)) (drop base gs) ++ [og]) as Etake.
  { rewrite length_app. cbn [length]. rewrite Nat.add_1_r. apply take_S_r. rewrite lookup_drop.
    by replace (base + S (length p)) with o_i by lia. }
  assert ((∀ c, bs_get labels c = true → bs_get (g_labels og) c = false) →
    absorbed gs bg base e0 (p ++ [o_i]) (labels, dst, ids) (with_caps cp e0)) as Hskip.
  { intros Hno. split; cbn [fst snd ae_caps with_caps]; try done; [by eexists| |].
    - rewrite Etake, fmap_app. by apply sublist_inserts_r.
    - exists js. do 2 (split; [done|]). rewrite length_app. cbn [length]. split.
      { intros j Hj. specialize (J2 j Hj). lia. }
      intros c j Hc Hj. destruct (decide (j = o_i)) as [->|]; [|apply J3; [done|lia]]. split.
      + intros Hin. specialize (J2 _ Hin). lia.
      + intros (g & Hg & Hgc). rewrite Hog in Hg. injection Hg as <-. by rewrite (Hno c Hc) in Hgc. }
  unfold absorb_group. apply runs_bind, (runs_the _ og); [done|].
  destruct (g_words_used og =? 0)%N eqn:Ez.
  { apply runs_ret, Hskip. intros c _. by apply (group_empty og Fo). }
  destruct (group_labels_overlap _ og) eqn:Eov.
  - apply overlap_spec in Eov as (c0 & Hc0 & Hc0'); [|done|apply Fo|apply Fo|exists (g_labels bg); split; [apply Fb|]; split; [apply Fb|done]].
    assert (words_ok 4 (intersect_with labels (g_labels og))) as Wi
      by (rewrite intersect_with_and; apply words_ok_and; [done|apply Fo]).
    assert (∀ c, bs_get (intersect_with labels (g_labels og)) c = true ↔ bs_get labels c = true ∧ bs_get (g_labels og) c = true) as Hi.
    { intros c. rewrite intersect_with_and, bs_get_and, andb_true_iff; [done|]. by rewrite (proj1 A1), (proj1 (proj1 Fo)). }
    apply runs_bind, room_for_dst_run; [done|]. intros m1 Hm1. apply runs_bind, room_for_id_run; [apply A7..|].
    intros m2 Hm2. apply runs_ret. split; cbn [fst snd ae_caps with_caps set_cvect_ceil set_dst_ceil ac_dst_ceil ac_cvect_ceil].
    + eexists. done.
    + done.
    + intros c [Hc _]%Hi. by apply A2.
    + exists c0. by apply Hi.
    + rewrite Etake, fmap_app. by apply sublist_app.
    + exists (js ++ [o_i]). rewrite fmap_app, E1. split; [done|]. rewrite length_app. cbn [length]. split; [|split].
      * intros t. rewrite elem_of_app, list_elem_of_singleton, J1. setoid_rewrite elem_of_app. setoid_rewrite list_elem_of_singleton. split.
        -- intros [(j & g & Hj & Hg & Ht)| ->]; [exists j, g; auto|exists o_i, og; auto].
        -- intros (j & g & [Hj| ->] & Hg & Ht); [left; eauto|]. rewrite Hog in Hg. injection Hg as <-. by right.
      * intros j [Hj| ->%list_elem_of_singleton]%elem_of_app; [specialize (J2 j Hj); lia|lia].
      * intros c j [Hc Hoc]%Hi Hj. rewrite elem_of_app, list_elem_of_singleton. destruct (decide (j = o_i)) as [->|].
        -- split; [|by right]. intros _. exists og. done.
        -- rewrite <-(J3 c j Hc) by lia. tauto.
    + rewrite length_app. cbn. lia.
    + rewrite length_app. cbn. lia.
  - apply runs_ret, Hskip. intros c Hc. apply not_true_iff_false. intros Hoc. apply not_true_iff_false in Eov. apply Eov.
    apply overlap_spec; [done|apply Fo|apply Fo| |eauto]. exists (g_labels bg). split; [apply Fb|]. split; [apply Fb|done].
Qed.

Lemma clear_groups_run labels gs ids e :
  words_ok 4 labels → Forall group_fine gs → (∀ id, id ∈ ids → N.to_nat id < length gs) →
  runs (foldM (clear_group labels) gs ids) e (λ gs' e', e' = e ∧ cleared labels gs ids gs').
Proof.
  intros Wl Hgs Hids. apply (runs_foldM _ (λ pre gs' e', e' = e ∧ cleared labels gs pre gs') ids []).
  2:{ do 2 (split; [done|]). intros i g0 Hg0. exists g0. split; [done|]. split; [done|]. split; [by eapply Forall_lookup_1|].
      intros c. rewrite bool_decide_eq_false_2 by apply not_elem_of_nil. by rewrite andb_false_r, andb_true_r. }
  intros p id q gs' e' Hpq (-> & Hl & Hgs'). cbn [app] in Hpq. unfold clear_group.
  assert (N.to_nat id < length gs) as Hid by (apply Hids; rewrite Hpq; apply elem_of_app; right; left).
  destruct (lookup_lt_is_Some_2 gs (N.to_nat id) Hid) as [g0 Hg0]. destruct (Hgs' _ _ Hg0) as (g & Hg & Et & [Fw Fu] & Hb).
  apply runs_bind, (runs_the _ g); [done|]. apply runs_ret. split; [done|]. split; [by rewrite length_insert|].
  intros i g1 Hg1. destruct (decide (i = N.to_nat id)) as [->|Hne].
  - rewrite Hg0 in Hg1. injection Hg1 as <-. exists (clear_group_labels g labels).
    rewrite list_lookup_insert_eq by lia. split; [done|]. rewrite clear_group_spec; [|apply Fw|apply Wl|done]. cbn [g_to].
    split; [done|]. split; [split; [by apply words_ok_diff|done]|]. intros c. cbn [g_labels].
    rewrite bs_get_diff by (by rewrite (proj1 Fw), (proj1 Wl)). rewrite Hb, N2Nat.id.
    rewrite (bool_decide_eq_true_2 (id ∈ p ++ [id])) by (apply elem_of_app; right; left).
    destruct (bs_get (g_labels g0) c), (bs_get labels c), (bool_decide (id ∈ p)); done.
  - destruct (Hgs' _ _ Hg1) as (g' & Hg' & Et' & F' & Hb'). exists g'. rewrite list_lookup_insert_ne by done.
    do 3 (split; [done|]). intros c. rewrite Hb'. do 3 f_equal. apply bool_decide_ext. rewrite elem_of_app, list_elem_of_singleton.
    split; [by left|]. intros [?|E]; [done|lia].
Qed.

(** What the passes have done of the groups [gs0]. *)
Record passed (n : nat) (gs0 : list ac_group) (e0 : ac_env) (out : analysis_result) (base : nat) (gs : list ac_group) (e : ac_env) : Prop := {
  pa_build : building n e0 out e;
  pa_len : length gs = length gs0;
  pa_gs : ∀ i g0, gs0 !! i = Some g0 → ∃ g, gs !! i = Some g ∧ g_to g = g_to g0 ∧ group_fine g ∧
    ∀ c, bs_get (g_labels g) c = true ↔ bs_get (g_labels g0) c = true ∧ ¬ has_label out c;
  pa_base : ∀ i c, i < base → ¬ group_label gs i c;
  pa_cur : base < length gs → ∃ c, group_label gs base c;
  pa_out : ∀ c t, res_edge (ae_to_sets e) out c t ↔
    has_label out c ∧ ∃ g0, g0 ∈ gs0 ∧ g_to g0 = t ∧ bs_get (g_labels g0) c = true;
  pa_cap : 0 < ac_dst_ceil (ae_caps e);
}.

Definition groups_fine (n : nat) (gs : list ac_group) : Prop :=
  Forall group_fine gs ∧ increasing (g_to <$> gs) ∧ Forall (λ g, N.to_nat (g_to g) < n) gs ∧ (N.of_nat n < 4294967296)%N.

Lemma passed_fine n gs0 e0 out base gs e :
  groups_fine n gs0 → passed n gs0 e0 out base gs e →
  groups_fine n gs.
Proof.
  intros (F1 & F2 & F3 & F4) [_ P2 P3 _ _ _ _].
  assert (g_to <$> gs = g_to <$> gs0) as Eto.
  { apply list_eq_same_length with (length gs0); [by rewrite length_fmap|by rewrite length_fmap|].
    intros i x y _ Hx Hy. apply list_lookup_fmap_Some in Hx as (g & -> & Hg), Hy as (g0 & -> & Hg0).
    destruct (P3 _ _ Hg0) as (g' & Hg' & E & _). congruence. }
  split; [|split; [by rewrite Eto|split; [|done]]].
  - apply Forall_lookup. intros i g Hg. destruct (lookup_lt_is_Some_2 gs0 i) as [g0 Hg0]; [apply lookup_lt_Some in Hg; lia|].
    destruct (P3 _ _ Hg0) as (g' & Hg' & _ & F & _). congruence.
  - rewrite <-(Forall_fmap g_to (λ x, N.to_nat x < n)), Eto. by apply Forall_fmap.
Qed.

Lemma groups_few n gs : groups_fine n gs → length gs ≤ n.
Proof.
  intros (_ & F2 & F3 & _). rewrite <-(length_fmap g_to). apply increasing_few; [done|]. by apply Forall_fmap.
Qed.

Lemma empty_groups_spec gs : ∀ base,
  Forall group_fine gs → base ≤ length gs → (∀ i c, i < base → ¬ group_label gs i c) →
  let base' := base + empty_groups (drop base gs) in
  (∀ i c, i < base' → ¬ group_label gs i c) ∧ (base' < length gs → ∃ c, group_label gs base' c).
Proof.
  intros base Hgs Hb Hno. remember (drop base gs) as l eqn:El. revert base Hb Hno El.
  induction l as [|g l IH]; intros base Hb Hno El; cbn [empty_groups].
  { rewrite Nat.add_0_r. split; [done|]. intros Hlt. apply (f_equal length) in El. rewrite length_drop in El. cbn in El. lia. }
  assert (gs !! base = Some g) as Hg.
  { rewrite <-(Nat.add_0_r base), <-lookup_drop, <-El. done. }
  assert (drop (S base) gs = l) as Ed by (by rewrite (drop_S _ _ _ Hg) in El; injection El).
  assert (group_fine g) as F by (by eapply Forall_lookup_1). pose proof (lookup_lt_Some _ _ _ Hg) as Hlt.
  destruct (g_words_used g =? 0)%N eqn:Ez.
  - destruct (IH (S base)) as [H1 H2]; [lia| |done|].
    + intros i c Hi (g' & Hg' & Hc). destruct (decide (i = base)) as [->|]; [|apply (Hno i c); [lia|by exists g']].
      rewrite Hg in Hg'. injection Hg' as <-. by rewrite (proj1 (group_empty g F) Ez) in Hc.
    + rewrite Nat.add_succ_r. split; [exact H1|exact H2].
  - rewrite Nat.add_0_r. split; [done|]. intros _. destruct F as [Fw Fu]. rewrite Fu, words_used_zero in Ez by apply Fw.
    apply negb_false_iff, any_word_spec in Ez as [c Hc]; [|done]. exists c, g. done.
Qed.

(** One pass: the labels it takes, with all the groups that have them. *)
Lemma absorb_groups_run n gs base bg e :
  groups_fine n gs → gs !! base = Some bg → (∃ c, bs_get (g_labels bg) c = true) →
  1 < ac_dst_ceil (ae_caps e) → 0 < ac_cvect_ceil (ae_caps e) →
  runs (foldM (absorb_group gs bg) (g_labels bg, [g_to bg], [u32 (N.of_nat base)]) (seq (base + 1) (length gs - (base + 1)))) e
    (λ st e', let '(labels, dst, ids) := st in
      (∃ c, e' = with_caps c e ∧ ac_pbuf_ceil c = ac_pbuf_ceil (ae_caps e)) ∧ 0 < ac_dst_ceil (ae_caps e') ∧ words_ok 4 labels ∧ (∃ c, bs_get labels c = true) ∧
      (∀ c, bs_get labels c = true → bs_get (g_labels bg) c = true) ∧
      dst ≠ [] ∧ increasing dst ∧ (∀ id, id ∈ ids → N.to_nat id < length gs) ∧
      (∀ c i, bs_get labels c = true → base ≤ i < length gs → N.of_nat i ∈ ids ↔ group_label gs i c) ∧
      (∀ i, N.of_nat i ∈ ids → base ≤ i) ∧
      ∀ c t, bs_get labels c = true → t ∈ dst ↔ ∃ i g, base ≤ i ∧ gs !! i = Some g ∧ g_to g = t ∧ bs_get (g_labels g) c = true).
Proof.
  intros Hfine Hbg Hsome Hc1 Hc2. pose proof Hfine as (F1 & F2 & F3 & F4). pose proof (groups_few n gs Hfine) as Hfew.
  pose proof (lookup_lt_Some _ _ _ Hbg) as Hlt. assert (group_fine bg) as Fb by (by eapply Forall_lookup_1).
  eapply runs_mono; [apply (runs_foldM _ (absorbed gs bg base e) _ [])|].
  { intros p o_i q st e1 Hp Ha. cbn [app] in Hp. by eapply absorb_group_run. }
  { split; cbn [fst snd length]; [exists (ae_caps e); by rewrite with_caps_id|apply Fb|done|done| | |lia|lia].
    - rewrite (drop_S _ _ _ Hbg). done.
    - exists [base]. split; [done|]. split; [|split].
      + intros t. rewrite list_elem_of_singleton. split.
        * intros ->. exists base, bg. split; [left|done].
        * intros (j & g & ->%list_elem_of_singleton & Hg & <-). congruence.
      + intros j ->%list_elem_of_singleton. lia.
      + intros c j Hc Hj. replace j with base by lia. rewrite list_elem_of_singleton. split; [|done]. intros _. exists bg. done. }
  cbn [app]. intros [[labels dst] ids] e' [A0 A1 A2 A3 A4 (js & E1 & J1 & J2 & J3) A6 A7]. cbn [fst snd] in *.
  rewrite length_seq in *.
  assert (∀ i, N.of_nat i ∈ ids ↔ i ∈ js) as Hids.
  { intros i. rewrite E1, list_elem_of_fmap. split.
    - intros (j & E & Hj). specialize (J2 j Hj) as ?. rewrite u32_small in E by lia. by replace i with j by lia.
    - intros Hi. exists i. split; [|done]. specialize (J2 i Hi). rewrite u32_small by lia. done. }
  assert (∀ c i, bs_get labels c = true → base ≤ i < length gs → i ∈ js ↔ group_label gs i c) as Hjs.
  { intros c i Hc Hi. apply J3; [done|lia]. }
  assert (∀ c t, bs_get labels c = true → t ∈ dst ↔ ∃ i g, base ≤ i ∧ gs !! i = Some g ∧ g_to g = t ∧ bs_get (g_labels g) c = true) as Hdst.
  { intros c t Hc. rewrite J1. split.
    - intros (j & g & Hj & Hg & Ht). specialize (J2 j Hj) as ?. apply (Hjs c) in Hj as (g' & Hg' & Hgc); [|done|lia].
      exists j, g. replace g with g' by congruence. split; [lia|]. split; [done|]. split; [congruence|done].
    - intros (j & g & Hj & Hg & Ht & Hgc). exists j, g. split; [|done]. apply (Hjs c); [done|apply lookup_lt_Some in Hg; lia|by exists g]. }
  split; [done|]. split; [lia|]. do 3 (split; [done|]). split; [|split; [|split; [|split; [|split]]]].
  - destruct A3 as [c Hc]. intros ->. apply (not_elem_of_nil (g_to bg)), (Hdst c); [done|]. exists base, bg.
    split; [lia|]. split; [done|]. split; [done|]. by apply A2.
  - eapply increasing_sublist; [exact A4|]. rewrite fmap_take, fmap_drop.
    apply (increasing_sublist _ (g_to <$> gs)); [|done]. trans (drop base (g_to <$> gs)); [apply sublist_take|apply sublist_drop].
  - intros id Hid. rewrite E1 in Hid. apply list_elem_of_fmap in Hid as (j & -> & Hj). specialize (J2 j Hj).
    rewrite u32_small by lia. lia.
  - intros c i Hc Hi. by rewrite Hids, (Hjs c).
  - intros i Hi%Hids. specialize (J2 i Hi). lia.
  - exact Hdst.
Qed.

Definition groups_edge (gs : list ac_group) (c : nat) (t : N) : Prop :=
  ∃ g, g ∈ gs ∧ g_to g = t ∧ bs_get (g_labels g) c = true.

(** A pass keeps the invariant and has one more entry. *)
Lemma passed_step n gs0 e0 out base gs e labels (dst ids : list N) gs' e' re :
  groups_fine n gs0 → passed n gs0 e0 out base gs e →
  words_ok 4 labels → (∀ id, id ∈ ids → N.to_nat id < length gs) →
  (∀ c i, bs_get labels c = true → base ≤ i < length gs → N.of_nat i ∈ ids ↔ group_label gs i c) →
  (∀ i, N.of_nat i ∈ ids → base ≤ i) → base < length gs →
  (∀ c t, bs_get labels c = true → t ∈ dst ↔ ∃ i g, base ≤ i ∧ gs !! i = Some g ∧ g_to g = t ∧ bs_get (g_labels g) c = true) →
  (∀ c, bs_get labels c = true → ¬ has_label out c) →
  cleared labels gs ids gs' → building n e0 (out ++ [re]) e' → 0 < ac_dst_ceil (ae_caps e') →
  (∀ c, has_label (out ++ [re]) c ↔ has_label out c ∨ bs_get labels c = true) →
  (∀ c t, res_edge (ae_to_sets e') (out ++ [re]) c t ↔ res_edge (ae_to_sets e) out c t ∨ bs_get labels c = true ∧ t ∈ dst) →
  passed n gs0 e0 (out ++ [re]) (base + empty_groups (drop base gs')) gs' e'.
Proof.
  intros Hfine Hpass Wl Hids Hin Hge Hlt Hdst Hnew [Hlen Hcl] Hb Hcap Hlab Hedge.
  pose proof Hpass as [_ P2 P3 P4 _ P6 _].
  assert (∀ i g0, gs0 !! i = Some g0 → ∃ g, gs' !! i = Some g ∧ g_to g = g_to g0 ∧ group_fine g ∧
    ∀ c, bs_get (g_labels g) c = true ↔ bs_get (g_labels g0) c = true ∧ ¬ has_label (out ++ [re]) c) as Hgs'.
  { intros i g0 Hg0. destruct (P3 _ _ Hg0) as (g & Hg & Et & _ & Hc). destruct (Hcl _ _ Hg) as (g' & Hg' & Et' & F' & Hc').
    exists g'. split; [done|]. split; [congruence|]. split; [done|]. intros c. rewrite Hlab, Hc', andb_true_iff, Hc.
    destruct (bs_get labels c) eqn:El; cbn [andb]; [|cbn; clear -El; intuition congruence].
    split; [|tauto]. intros [[Hg0c Hno] Hnd]. exfalso. rewrite negb_true_iff, bool_decide_eq_false in Hnd. apply Hnd.
    assert (group_label gs i c) as Hgl by (exists g; split; [done|]; by apply Hc).
    apply (Hin c i El); [|done]. split; [|by eapply lookup_lt_Some].
    destruct (decide (base ≤ i)); [done|]. exfalso. eapply (P4 i c); [lia|done]. }
  assert (Forall group_fine gs') as Fgs'.
  { apply Forall_lookup. intros i g Hg. destruct (lookup_lt_is_Some_2 gs i) as [g0 Hg0]; [apply lookup_lt_Some in Hg; lia|].
    destruct (Hcl _ _ Hg0) as (g' & Hg' & _ & F & _). congruence. }
  destruct (empty_groups_spec gs' base Fgs') as [H1 H2]; [lia| |].
  { intros i c Hi (g' & Hg' & Hc'). destruct (lookup_lt_is_Some_2 gs i) as [g0 Hg0]; [lia|].
    destruct (Hcl _ _ Hg0) as (g'' & Hg'' & _ & _ & Hc). rewrite Hg' in Hg''. injection Hg'' as <-. rewrite Hc in Hc'.
    apply andb_true_iff in Hc' as [Hc' _]. eapply (P4 i c); [done|]. exists g0. done. }
  split; try done; [lia|].
  intros c t. rewrite Hedge, P6, Hlab. split.
  - intros [(Ho & Hg)|[Hc Ht]]; [tauto|]. split; [by right|]. apply (Hdst c t Hc) in Ht as (i & g & _ & Hg & Ht & Hgc).
    destruct (lookup_lt_is_Some_2 gs0 i) as [g0 Hg0]; [apply lookup_lt_Some in Hg; lia|].
    destruct (P3 _ _ Hg0) as (g' & Hg' & Et & _ & Hc'). rewrite Hg in Hg'. injection Hg' as <-. exists g0.
    split; [apply list_elem_of_lookup; eauto|]. split; [congruence|]. by apply Hc'.
  - intros [[Ho|Hc] (g0 & [i Hg0]%list_elem_of_lookup & Ht & Hgc)].
    + left. split; [done|]. exists g0. split; [apply list_elem_of_lookup; eauto|done].
    + right. split; [done|]. destruct (P3 _ _ Hg0) as (g & Hg & Et & _ & Hc'). apply (Hdst c t Hc). exists i, g.
      assert (bs_get (g_labels g) c = true) as Hgc' by (apply Hc'; auto).
      split; [|split; [done|split; [congruence|done]]].
      destruct (decide (base ≤ i)); [done|]. exfalso. eapply (P4 i c); [lia|]. by exists g.
Qed.

Lemma has_label_dec r c : has_label r c ∨ ¬ has_label r c.
Proof.
  unfold has_label. destruct (decide (Exists (λ re, bs_get (re_labels re) c = true) r)) as [He|He]; rewrite Exists_exists in He; auto.
Qed.

Lemma group_passes_run n gs0 e0 : groups_fine n gs0 → room n (ae_to_sets e0) → ∀ fuel out base gs e,
  passed n gs0 e0 out base gs e → 257 ≤ fuel + length out →
  runs (group_passes fuel base gs) e (λ _ e', ∃ out', building n e0 out' e' ∧
    ∀ c t, res_edge (ae_to_sets e') out' c t ↔ groups_edge gs0 c t).
Proof.
  intros Hfine Hroom. induction fuel as [|fuel IH]; intros out base gs e Hp Hfuel.
  { pose proof (result_few _ _ _ (bd_ok _ _ _ _ (pa_build _ _ _ _ _ _ _ Hp))). lia. }
  cbn [group_passes]. destruct (base <? length gs) eqn:Eb; split_bool.
  2:{ apply runs_ret. exists out. split; [apply Hp|]. intros c t. rewrite (pa_out _ _ _ _ _ _ _ Hp). split; [by intros [_ ?]|].
      intros (g0 & [i Hg0]%list_elem_of_lookup & Ht & Hc). split; [|exists g0; split; [apply list_elem_of_lookup; eauto|done]].
      destruct (has_label_dec out c) as [|Hno]; [done|]. exfalso. destruct (pa_gs _ _ _ _ _ _ _ Hp _ _ Hg0) as (g & Hg & _ & _ & Hgc).
      eapply (pa_base _ _ _ _ _ _ _ Hp i c); [apply lookup_lt_Some in Hg; lia|]. exists g. split; [done|]. by apply Hgc. }
  destruct (pa_cur _ _ _ _ _ _ _ Hp Eb) as (c0 & bg & Hbg & Hc0).
  pose proof (passed_fine _ _ _ _ _ _ _ Hfine Hp) as Hgs. pose proof Hgs as (F1 & F2 & F3 & F4).
  assert (group_fine bg) as Fb by (by eapply Forall_lookup_1).
  apply runs_bind, (runs_the _ bg); [done|]. apply runs_bind, runs_asserts; [apply any_word_spec; [apply Fb|eauto]|].
  apply runs_bind, room_for_dst_run; [apply Hp|]. intros m1 Hm1. apply runs_bind, room_for_first_id_run. intros m2 Hm2.
  apply runs_bind. eapply runs_mono; [apply (absorb_groups_run n); [done|done|eauto|cbn; lia|cbn; lia]|].
  cbv beta. intros [[labels dst] ids] e' ((cp & -> & Ecp) & Hcap & Wl & [c1 Hc1] & Hsub & Hne & Hinc & Hids & Hin & Hge & Hdst).
  apply runs_bind, runs_asserts; [apply any_word_spec; eauto|].
  apply runs_bind. eapply runs_mono; [by apply clear_groups_run|]. cbv beta. intros gs' ? [-> Hcl].
  assert (∀ c, bs_get labels c = true → ¬ has_label out c) as Hnew.
  { intros c Hc. destruct (lookup_lt_is_Some_2 gs0 base) as [g0 Hg0]; [rewrite <-(pa_len _ _ _ _ _ _ _ Hp); done|].
    destruct (pa_gs _ _ _ _ _ _ _ Hp _ _ Hg0) as (g & Hg & _ & _ & Hgc). rewrite Hbg in Hg. injection Hg as <-. by apply Hgc, Hsub. }
  apply runs_bind. eapply runs_mono; [apply (add_group_run n e0 out); [repeat (apply building_caps; [|done]); apply Hp|done|done|done| |done|eauto|done]|].
  { apply Forall_forall. intros t Ht. apply (Hdst c1 t Hc1) in Ht as (i & g & _ & Hg & <- & _).
    exact (Forall_lookup_1 _ _ _ _ F3 Hg). }
  cbv beta. intros _ e2 (re & Hb & Ec & Hlab & Hedge). apply (IH (out ++ [re])).
  - eapply (passed_step n gs0 e0 out base gs _ labels dst ids); try done. by rewrite Ec.
  - rewrite length_app. cbn. lia.
Qed.

(** *** Collecting the groups *)

Definition info_group (i : edge_group_iter_info) : ac_group := mk_group (egii_to i) 0 (egii_symbols i).

Lemma union_with_zero s : words_ok 4 s → union_with (replicate 4 0%N) s = s.
Proof.
  intros Hs. rewrite union_with_or. apply (words_ext 4); [by apply words_ok_or; [apply words_ok_zero|]|done|].
  intros j _. rewrite bs_get_or, bs_get_zero; [done|]. by rewrite (proj1 Hs).
Qed.

Record infos_ok (n : nat) (l : list edge_group_iter_info) : Prop := {
  io_words : Forall (λ i, words_ok 4 (egii_symbols i)) l;
  io_to : increasing (egii_to <$> l);
  io_small : Forall (λ i, N.to_nat (egii_to i) < n) l;
}.

Lemma group_loop_ok n p :
  edge_set_wf p → (∀ c t, has_edge p c t → N.to_nat t < n) → infos_ok n (group_loop p).
Proof.
  intros Hwf Hn. assert (∀ i, i ∈ group_loop p → words_ok 4 (egii_symbols i)) as Hw.
  { intros i Hi. rewrite group_loop_infos in Hi. apply list_elem_of_fmap in Hi as (g & -> & [_ Hin]%list_elem_of_filter).
    destruct p as [s|]; [|by apply not_elem_of_nil in Hin]. destruct Hwf as ([_ Hf] & _).
    by apply (proj1 (Forall_forall _ _) Hf). }
  split.
  - by apply Forall_forall.
  - rewrite group_loop_infos, <-list_fmap_compose.
    apply (increasing_filter_fmap (λ g, any_word (eg_symbols g) = true)). destruct p as [s|]; [apply Hwf|constructor].
  - apply Forall_forall. intros i Hi. destruct (proj1 (elem_of_group_loop p (egii_to i) Hwf)) as [c Hc]; [eauto|]. by eapply Hn.
Qed.

Lemma collect_group_run n e l p info q st e' :
  infos_ok n l → (N.of_nat n < AC_NO_STATE)%N → l = p ++ info :: q →
  (∃ m, e' = with_caps (set_group_ceil m (ae_caps e)) e ∧ length st.1 < m) →
  (if decide (p = []) then st.1 = [] ∧ g_to st.2 = AC_NO_STATE else st.1 ++ [st.2] = info_group <$> p) →
  runs (collect_group st info) e' (λ st e', (∃ m, e' = with_caps (set_group_ceil m (ae_caps e)) e ∧ length st.1 < m) ∧
    st.1 ++ [st.2] = info_group <$> (p ++ [info])).
Proof.
  intros [I1 I2 I3] Hn -> (m & -> & Hm) Hst. destruct st as [prev g]. cbn [fst snd] in *. unfold collect_group.
  apply Forall_app in I1 as [I1p I1]. apply Forall_cons in I1 as [Wi _].
  apply Forall_app in I3 as [I3p I3]. apply Forall_cons in I3 as [Hi _].
  apply runs_bind, room_for_group_run; [done|]. intros m1 Hm1.
  rewrite !union_with_zero by done. fold (info_group info). destruct (decide (p = [])) as [->|Hp].
  - destruct Hst as [-> ->]. rewrite N.eqb_refl. apply runs_ret. cbn [fst snd]. split; [|done].
    exists m1. split; [done|]. cbn in *. lia.
  - destruct (exists_last Hp) as (p' & i0 & ->). rewrite fmap_app in Hst. apply app_inj_tail in Hst as [Hprev ->].
    apply Forall_app in I3p as [_ I3p]. apply Forall_cons in I3p as [Hi0 _].
    cbn [info_group g_to]. rewrite (proj2 (N.eqb_neq _ _)) by (unfold AC_NO_STATE in *; lia).
    assert (egii_to i0 < egii_to info)%N as Hlt.
    { apply (increasing_lookup _ (length p') (S (length p')) _ _ I2); [lia| |];
        rewrite list_lookup_fmap, <-app_assoc; cbn [app];
        [rewrite lookup_app_r, Nat.sub_diag by lia|rewrite lookup_app_r, Nat.sub_succ_l, Nat.sub_diag by lia]; done. }
    rewrite (proj2 (N.eqb_neq _ _)) by lia. apply runs_bind, runs_asserts; [by apply N.ltb_lt|].
    apply runs_bind, room_for_group_run; [cbn; lia|]. intros m2 Hm2. apply runs_ret. cbn [fst snd]. split.
    + exists m2. split; [done|]. rewrite length_app. cbn. lia.
    + rewrite !fmap_app, Hprev. done.
Qed.

Lemma collect_groups_run n p e :
  edge_set_wf p → (∀ c t, has_edge p c t → N.to_nat t < n) → (N.of_nat n < AC_NO_STATE)%N → 0 < ac_group_ceil (ae_caps e) →
  runs (collect_groups p) e (λ gs e', (∃ m, e' = with_caps (set_group_ceil m (ae_caps e)) e) ∧ groups_fine n gs ∧
    (∀ i, i < length gs → ∃ c, group_label gs i c) ∧ ∀ c t, groups_edge gs c t ↔ has_edge p c t).
Proof.
  intros Hwf Hsmall Hn Hcap. pose proof (group_loop_ok n p Hwf Hsmall) as Hok. unfold collect_groups. apply runs_bind.
  eapply runs_mono; [apply (runs_foldM _ (λ q st e', (∃ m, e' = with_caps (set_group_ceil m (ae_caps e)) e ∧ length st.1 < m) ∧
    (if decide (q = []) then st.1 = [] ∧ g_to st.2 = AC_NO_STATE else st.1 ++ [st.2] = info_group <$> q)) (group_loop p) [])|].
  { intros q i r st e' Eq [Hm Hst]. cbn [app] in Eq. eapply runs_mono; [by eapply (collect_group_run n e (group_loop p))|].
    cbv beta. intros st' e2 [Hm' Hst']. split; [done|]. rewrite decide_False; [done|]. by destruct q. }
  { split; [|by rewrite decide_True]. exists (ac_group_ceil (ae_caps e)). by rewrite set_group_ceil_id, with_caps_id. }
  cbn [app]. intros [prev g] e' ((m & -> & _) & Hst). cbn [fst snd] in Hst. apply runs_ret. split; [by eexists|].
  assert ((if (g_to g =? AC_NO_STATE)%N then prev else prev ++ [g]) = info_group <$> group_loop p) as ->.
  { destruct (decide (group_loop p = [])) as [->|Hne].
    - destruct Hst as [-> ->]. by rewrite N.eqb_refl.
    - rewrite Hst. destruct (exists_last Hne) as (l & i & El). rewrite El, fmap_app in Hst.
      apply app_inj_tail in Hst as [_ ->]. cbn [info_group g_to].
      pose proof (io_small _ _ Hok) as Hs. rewrite El in Hs. apply Forall_app in Hs as [_ Hs]. apply Forall_cons in Hs as [Hi _].
      rewrite (proj2 (N.eqb_neq _ _)) by (unfold AC_NO_STATE in *; lia). done. }
  rewrite <-list_fmap_compose. destruct Hok as [I1 I2 I3]. unfold groups_fine.
  split; [split; [|split; [|split]]|split].
  - apply Forall_fmap. eapply Forall_impl; [exact I1|]. intros i Hi. split; [done|]. done.
  - rewrite <-list_fmap_compose. exact I2.
  - apply Forall_fmap. exact I3.
  - unfold AC_NO_STATE in Hn. lia.
  - intros i Hi. rewrite length_fmap in Hi. destruct (lookup_lt_is_Some_2 _ _ Hi) as [x Hx].
    assert (x ∈ group_loop p) as Hin by (apply list_elem_of_lookup; eauto). pose proof Hin as Hin2.
    rewrite group_loop_infos in Hin2. apply list_elem_of_fmap in Hin2 as (g' & -> & [Ha Hg']%list_elem_of_filter).
    rewrite Forall_forall in I1. specialize (I1 _ Hin). apply any_word_spec in Ha as [c Hc]; [|done].
    exists c. eexists. split; [by rewrite list_lookup_fmap, Hx|]. done.
  - intros c t. rewrite <-(group_loop_spec p c t Hwf). unfold groups_edge. split.
    + intros (x & (i & -> & Hi)%list_elem_of_fmap & Ht & Hc). exists i. done.
    + intros (i & Hi & Ht & Hc). eexists. split; [apply list_elem_of_fmap; exists i; done|]. done.
Qed.
End Lemmas.

(** ** The environment *)

(** Results for [k] sets of states fit the buffers. *)
Definition fits (n k : nat) : Prop :=
  (N.of_nat (256 * n * k) < 4294967296)%N ∧ (N.of_nat (256 * k) < 1073741824)%N.

Lemma fits_le n k m : k ≤ m → fits n m → fits n k.
Proof. unfold fits. intros Hkm [H1 H2]. split; nia. Qed.

(** A result means the edges of its [leaves], the states it was made from. *)
Definition means (f : fsm) (ts : to_sets) (r : analysis_result) (L : list N) : Prop :=
  result_ok (f_statecount f) ts r ∧ L ≠ [] ∧ Forall (live f) L ∧ NoDup L ∧
  ∀ c t, res_edge ts r c t ↔ ∃ s, s ∈ L ∧ f_edge f s c t.

Lemma means_prefix f ts ts' r L : ts_buf ts `prefix_of` ts_buf ts' → means f ts r L → means f ts' r L.
Proof.
  intros Hp (H1 & H2 & H3 & H4 & H5). split; [by eapply result_ok_prefix|]. do 3 (split; [done|]).
  intros c t. by rewrite (res_edge_prefix (f_statecount f) ts ts').
Qed.

(** What is cached for a key was made from its states. *)
Definition key_leaves (leaves : list (list N)) (k : pair_key) (r : N) : Prop :=
  match k with
  | KSingle s => leaves !! N.to_nat r = Some [s]
  | KPair a b => ∃ La Lb L, leaves !! N.to_nat a = Some La ∧ leaves !! N.to_nat b = Some Lb ∧
      leaves !! N.to_nat r = Some L ∧ L ≡ₚ La ++ Lb
  end.

Record env_ok (f : fsm) (leaves : list (list N)) (e : ac_env) : Prop := {
  eo_fsm : ae_fsm e = f;
  eo_ts : ts_ok (ae_to_sets e);
  eo_htab : htab_ok (ae_htab e);
  eo_pool : pool_ok (ae_issp e);
  eo_buf : rb_entries (ae_results e) = [];
  eo_rs : Forall2 (means f (ae_to_sets e)) (rs_rs (ae_results e)) leaves;
  eo_cached : ∀ k r, cached (ae_htab e) k r → key_leaves leaves k r;
  eo_len : length (ts_buf (ae_to_sets e)) ≤ 256 * f_statecount f * length leaves;
  eo_used : ts_buckets_used (ae_to_sets e) ≤ 256 * length leaves;
  eo_htused : ph_used (ae_htab e) ≤ length leaves;
}.

(** What the analysis keeps. *)
Definition same_env (e e' : ac_env) : Prop :=
  ae_alloc e' = ae_alloc e ∧ ae_issp e' = ae_issp e ∧ ac_pbuf_ceil (ae_caps e') = ac_pbuf_ceil (ae_caps e) ∧
  (ae_outputs e = [] → ae_outputs e' = []).

#[export] Instance same_env_preorder : PreOrder same_env.
Proof.
  split; [done|]. intros e1 e2 e3 (A1 & A2 & A3 & A4) (B1 & B2 & B3 & B4). unfold same_env.
  split; [congruence|]. split; [congruence|]. split; [congruence|]. auto.
Qed.

Lemma env_room f leaves e :
  env_ok f leaves e → fits (f_statecount f) (S (length leaves)) → room (f_statecount f) (ae_to_sets e).
Proof. intros He [H1 H2]. pose proof (eo_len _ _ _ He). pose proof (eo_used _ _ _ He). unfold room. split; lia. Qed.

Lemma key_leaves_app leaves l k r : key_leaves leaves k r → key_leaves (leaves ++ l) k r.
Proof.
  assert (∀ i (L : list N), leaves !! i = Some L → (leaves ++ l) !! i = Some L) as Hl by (intros; by apply lookup_app_l_Some).
  destruct k; cbn [key_leaves]; [apply Hl|]. intros (La & Lb & L & H1 & H2 & H3 & H4). exists La, Lb, L. auto.
Qed.

Section EnvLemmas.
Context `{allocator, !alloc_total}.

Lemma commit_run e :
  (N.of_nat (length (rs_rs (ae_results e))) < 4294967296)%N →
  ∃ ceil, commit e = Some (Some (N.of_nat (length (rs_rs (ae_results e)))),
    with_sets (ae_to_sets e) (mk_results (rs_rs (ae_results e) ++ [rb_entries (ae_results e)]) ceil [] (rb_ceil (ae_results e))) e).
Proof.
  intros Hlt. destruct (commit_buffered_result_spec (ae_alloc e) (ae_results e) Hlt) as [ceil E]. exists ceil.
  unfold commit, call. rewrite E. done.
Qed.

(** A result that has been built, committed and cached under a new key. *)
Lemma committed_ok f leaves e0 e out key r L h ceil :
  env_ok f leaves e0 → building (f_statecount f) e0 out e → length out ≤ 256 → means f (ae_to_sets e) out L →
  htab_ok h → ph_used h = ph_used (ae_htab e0) + 1 →
  (∀ k r', cached h k r' ↔ k = key ∧ r' = r ∨ cached (ae_htab e0) k r') →
  key_leaves (leaves ++ [L]) key r →
  env_ok f (leaves ++ [L]) (with_htab h (with_sets (ae_to_sets e)
    (mk_results (rs_rs (ae_results e) ++ [rb_entries (ae_results e)]) ceil [] (rb_ceil (ae_results e))) e)).
Proof.
  intros [E1 E2 E3 E4 E5 E6 E7 E8 E9 E10] [B1 B2 B3 B4 B5 B6 B7 B8 B9] Hout Hm Hh Hu Hc Hk.
  split; cbn [ae_fsm ae_to_sets ae_htab ae_issp ae_results rb_entries rs_rs with_htab with_sets].
  - by rewrite B1.
  - done.
  - done.
  - by rewrite B1.
  - done.
  - rewrite B2, B3. apply Forall2_app; [|by constructor]. eapply Forall2_impl; [exact E6|]. intros r' L'. by apply means_prefix.
  - intros k r' [[-> ->]|Hc']%Hc; [done|]. by apply key_leaves_app, E7.
  - rewrite length_app. cbn. nia.
  - rewrite length_app. cbn. lia.
  - rewrite length_app, Hu. cbn. lia.
Qed.

Lemma building_start f leaves e : env_ok f leaves e → building (f_statecount f) e [] e.
Proof.
  intros He. pose proof He as [E1 E2 E3 E4 E5 E6 E7 E8 E9 E10]. split; try done; [by destruct e|cbn; lia|cbn; lia].
Qed.

(** Saving the result that has just been committed. *)
Lemma save_single_run f leaves e0 e out s :
  env_ok f leaves e0 → building (f_statecount f) e0 out e → means f (ae_to_sets e) out [s] → (s < RESULT_BIT)%N →
  fits (f_statecount f) (S (length leaves)) → (∀ r, ¬ cached (ae_htab e0) (KSingle s) r) → same_env e0 e →
  runs (id ← commit; save_single s id ;; mret id) e (λ r e', r = N.of_nat (length leaves) ∧
    env_ok f (leaves ++ [[s]]) e' ∧ same_env e0 e').
Proof.
  intros He Hb Hm Hs [Hf1 Hf2] Hno Hsame. pose proof (Forall2_length _ _ _ (eo_rs _ _ _ He)) as Hlen.
  pose proof (bd_rs _ _ _ _ Hb) as Hrs.
  destruct (commit_run e) as [ceil Ec]; [rewrite Hrs, Hlen; lia|]. apply runs_bind. eexists _, _. split; [exact Ec|].
  cbv beta. rewrite Hrs, Hlen. apply runs_bind. unfold save_single, call.
  assert (ae_htab e = ae_htab e0) as Eh by (by rewrite (bd_env _ _ _ _ Hb)).
  destruct (pair_cache_save_spec (ae_alloc e) (ae_htab e0) RPBT_SINGLE_STATE s s (N.of_nat (length leaves)) (KSingle s)) as (h & Eq & Hh & Hu & Hc);
    [apply He|pose proof (eo_htused _ _ _ He); lia|done|done|].
  eexists tt, _. split.
  { unfold analysis_cache_save_single_state. cbn [ae_alloc ae_htab with_sets]. rewrite is_result_state, Eh by done. cbn [negb].
    rewrite Eq. done. }
  cbv beta. apply runs_ret. split; [done|]. split; [|done]. rewrite <-Hrs.
  eapply (committed_ok f leaves e0 e out (KSingle s)); try done; [eapply result_few, Hm|]. cbn [key_leaves].
  rewrite Nat2N.id, lookup_app_r, Nat.sub_diag by lia. done.
Qed.

Lemma init_groups_run e :
  ∃ m, analyze_closures__init_groups e = (true, with_caps (set_group_ceil m (ae_caps e)) e) ∧ 0 < m.
Proof.
  unfold analyze_closures__init_groups. rewrite f_malloc_total. destruct (_ =? 0) eqn:E; split_bool.
  - exists DEF_GROUP_CEIL. split; [done|]. unfold DEF_GROUP_CEIL. lia.
  - exists (ac_group_ceil (ae_caps e)). rewrite set_group_ceil_id, with_caps_id. split; [done|lia].
Qed.

Lemma env_ok_same f leaves e c o : env_ok f leaves e → env_ok f leaves (with_outputs o (with_caps c e)).
Proof. intros [E1 E2 E3 E4 E5 E6 E7 E8 E9 E10]. by split. Qed.

Lemma build_groups_run f leaves e gs :
  env_ok f leaves e → groups_fine (f_statecount f) gs → (∀ i, i < length gs → ∃ c, group_label gs i c) →
  fits (f_statecount f) (S (length leaves)) →
  runs (build_groups gs) e (λ _ e', ∃ out e0, env_ok f leaves e0 ∧ building (f_statecount f) e0 out e' ∧ same_env e e0 ∧
    ae_htab e0 = ae_htab e ∧ same_env e e' ∧ ∀ c t, res_edge (ae_to_sets e') out c t ↔ groups_edge gs c t).
Proof.
  intros He Hgs Hlab Hfit. unfold build_groups. destruct (length gs =? 0) eqn:E0; split_bool.
  { apply length_zero_iff_nil in E0 as ->. apply runs_ret. exists [], e. split; [done|]. split; [by eapply building_start|].
    split; [done|]. split; [done|]. split; [done|]. intros c t. split; [intros (? & ?%not_elem_of_nil & _)|intros (? & ?%not_elem_of_nil & _)]; done. }
  apply runs_bind, runs_puts. set (e0 := with_outputs [] e).
  assert (env_ok f leaves e0) as He0 by (rewrite <-(with_caps_id e0); unfold e0; by apply (env_ok_same f leaves e (ae_caps e) [])).
  do 2 run_step. run_step.
  assert (∀ c, 0 < ac_dst_ceil c → ac_pbuf_ceil c = ac_pbuf_ceil (ae_caps e) →
    runs (group_passes passes_fuel 0 gs) (with_caps c e0) (λ _ e', ∃ out e0, env_ok f leaves e0 ∧ building (f_statecount f) e0 out e' ∧
      same_env e e0 ∧ ae_htab e0 = ae_htab e ∧ same_env e e' ∧ ∀ c t, res_edge (ae_to_sets e') out c t ↔ groups_edge gs c t)) as Hgo.
  { intros c Hc Hpb. assert (env_ok f leaves (with_caps c e0)) as Hec by (by apply (env_ok_same f leaves e0 c [])).
    eapply runs_mono; [apply (group_passes_run (f_statecount f) gs (with_caps c e0) Hgs) with (out := [])|].
    - by eapply env_room.
    - split; [by eapply building_start|done| | | | |done].
      + intros i g0 Hg0. exists g0. do 2 (split; [done|]). destruct Hgs as [Hf _]. split; [exact (Forall_lookup_1 _ _ _ _ Hf Hg0)|].
        intros d. split; [|tauto]. intros Hd. split; [done|]. intros (re & Hre & _). by apply not_elem_of_nil in Hre.
      + intros i d Hi. lia.
      + intros Hl. by apply Hlab.
      + intros d t. split; [intros (re & Hre & _)|intros [(re & Hre & _) _]]; by apply not_elem_of_nil in Hre.
    - unfold passes_fuel. cbn. lia.
    - cbv beta. intros _ e' (out & Hb & Hed). exists out, (with_caps c e0). split; [done|]. split; [done|]. split; [done|].
      split; [done|]. split; [|done]. rewrite (bd_env _ _ _ _ Hb). split; [done|]. split; [done|].
      split; [|done]. cbn. rewrite (bd_pbuf _ _ _ _ Hb). done. }
  apply runs_when; intros E1; split_bool.
  - apply grow_run. apply Hgo; [|done]. rewrite E1. unfold DEF_DST_CEIL. cbn. lia.
  - rewrite <-(with_caps_id e0). apply Hgo; [|done]. change (ac_dst_ceil (ae_caps e0)) with (ac_dst_ceil (ae_caps e)) in *. clear -E1. lia.
Qed.

(** The result for a state alone means its edges. *)
Lemma cache_single_run f leaves e s :
  fsm_wf f → env_ok f leaves e → live f s → (N.of_nat (f_statecount f) < RESULT_BIT)%N →
  fits (f_statecount f) (S (length leaves)) → (∀ r, ¬ cached (ae_htab e) (KSingle s) r) →
  runs (cache_single_state_analysis s) e (λ r e', r = N.of_nat (length leaves) ∧
    env_ok f (leaves ++ [[s]]) e' ∧ same_env e e').
Proof.
  intros Hwf He Hs Hn Hfit Hno. destruct (wf_states _ Hwf s Hs) as (We & _ & Hk & _).
  destruct (init_groups_run e) as (m & Ei & Hm). set (e1 := with_caps (set_group_ceil m (ae_caps e)) e) in *.
  assert (∀ Q, runs (gs ← collect_groups (st_edges (get_state (ae_fsm e1) s)); build_groups gs ;;
      id ← commit; save_single s id ;; mret id) e1 Q → runs (cache_single_state_analysis s) e Q) as Hgo.
  { intros Q (a & e' & E & HQ). exists a, e'. split; [|done]. unfold cache_single_state_analysis. rewrite Ei. exact E. }
  assert (∀ c, env_ok f leaves (with_caps c e)) as Hec.
  { intros c. destruct He as [E1 E2 E3 E4 E5 E6 E7 E8 E9 E10]. by split. }
  apply Hgo. clear Hgo. change (ae_fsm e1) with (ae_fsm e). rewrite (eo_fsm _ _ _ He). apply runs_bind.
  eapply runs_mono; [apply (collect_groups_run (f_statecount f)); [done| | |done]|].
  { intros c t Hc. eapply Hk, has_edge_key. exact Hc. }
  { unfold AC_NO_STATE, RESULT_BIT in *. lia. }
  cbv beta. intros gs e2 ((m2 & ->) & Hgs & Hlab & Hedge). apply runs_bind.
  eapply runs_mono; [apply (build_groups_run f leaves); [apply Hec|done..]|].
  cbv beta. intros _ e3 (out & e0 & He0 & Hb & S1 & Eh & S2 & Hed).
  eapply runs_mono; [apply (save_single_run f leaves e0 e3 out s He0 Hb)|]; try done.
  - split; [apply Hb|]. split; [done|]. split; [by constructor|]. split; [apply NoDup_singleton|].
    intros c t. rewrite Hed, Hedge. split.
    + intros Hc. exists s. split; [left|done].
    + by intros (s' & ->%list_elem_of_singleton & _ & ?).
  - unfold live in Hs. unfold RESULT_BIT in *. lia.
  - by rewrite Eh.
  - destruct S1 as (A1 & A2 & A3 & A4), S2 as (B1 & B2 & B3 & B4). rewrite (bd_env _ _ _ _ Hb). split; [done|]. split; [done|].
    split; [cbn; apply Hb|done].
  - cbv beta. intros r e4 (-> & H1 & H2). split; [done|]. split; [done|]. by trans e0.
Qed.
End EnvLemmas.
