(* ===== verification/DetPairs.v ===== *)
(** * Combining results

    [combine_result_pair_and_commit] makes of two results the one that means
    the union of what they mean. [combine_pair] makes, or finds in the cache,
    the result for two identifiers, and the rounds of pairs the result for a
    set of states. *)

From S2P Require Import Prelude StateSet Bits EdgeSet EdgeIter Probe Lang Fsm FsmSpec InternedSet DetSort DetCache.
From S2P Require Import DetAnalysis DetResults DetSingle.

(** The loop over the entries of the right result. *)
Record overlaid (n : nat) (ts : to_sets) (labels0 dst0 : list N) (e0 : ac_env) (p : analysis_result)
    (st : list N * N * list N) (e : ac_env) : Prop := {
  ol_env : ∃ c, e = with_caps c e0 ∧ ac_pbuf_ceil c = ac_pbuf_ceil (ae_caps e0);
  ol_words : words_ok 4 st.1.1;
  ol_used : st.1.2 = words_used_mask st.1.1;
  ol_some : ∃ c, bs_get st.1.1 c = true;
  ol_sub : ∀ c, bs_get st.1.1 c = true → bs_get labels0 c = true;
  ol_dst : ∀ c t, bs_get st.1.1 c = true → t ∈ st.2 ↔ t ∈ dst0 ∨ res_edge ts p c t;
  ol_small : Forall (λ x, N.to_nat x < n) st.2;
}.

Section Lemmas.
Context `{allocator, !alloc_total}.

Lemma dst_tmp_append_run dst id e (Q : list N → ac_env → Prop) :
  (∀ m, Q (dst ++ [id]) (with_caps (set_dst_tmp_ceil m (ae_caps e)) e)) → runs (dst_tmp_buf_append dst id) e Q.
Proof.
  intros HQ. unfold dst_tmp_buf_append. do 2 run_step. run_step. apply runs_when; intros E.
  - apply grow_run. apply runs_ret, HQ.
  - apply runs_ret. rewrite <-(with_caps_id e), <-(set_dst_tmp_ceil_id (ae_caps e)). apply HQ.
Qed.

Lemma append_states_run dst re e :
  entry_ok (ae_to_sets e) re →
  runs (append_states dst re) e (λ dst' e', dst' = dst ++ entry_ids (ae_to_sets e) re ∧
    ∃ c, e' = with_caps c e ∧ ac_pbuf_ceil c = ac_pbuf_ceil (ae_caps e)).
Proof.
  intros (_ & _ & _ & Hin & _). unfold append_states, entry_states. run_step. do 2 run_step. run_step.
  apply runs_asserts; [by apply Nat.leb_le|]. apply runs_ret. cbv beta. fold (entry_ids (ae_to_sets e) re).
  generalize (entry_ids (ae_to_sets e) re) as ids. intros ids.
  apply (runs_foldM _ (λ p dst' e', dst' = dst ++ p ∧ ∃ c, e' = with_caps c e ∧ ac_pbuf_ceil c = ac_pbuf_ceil (ae_caps e)) ids []).
  - intros p x q dst' e' _ (-> & c & -> & Hc). apply dst_tmp_append_run. intros m. rewrite <-app_assoc. split; [done|]. by eexists.
  - rewrite app_nil_r. split; [done|]. exists (ae_caps e). by rewrite with_caps_id.
Qed.

Lemma entry_label_unique n ts r i re c :
  result_ok n ts r → r !! i = Some re → bs_get (re_labels re) c = true → ∀ t, res_edge ts r c t ↔ t ∈ entry_ids ts re.
Proof.
  intros [_ Hd] Hi Hc t. split.
  - intros (re' & [j Hj]%list_elem_of_lookup & Hc' & Ht). replace re' with re in Ht; [done|].
    assert (i = j) as -> by (by eapply Hd). congruence.
  - intros Ht. exists re. split; [apply list_elem_of_lookup; eauto|]. done.
Qed.

Lemma absorb_entry_run n ts labels0 dst0 e0 p er st e :
  ae_to_sets e0 = ts → entry_fine n ts er → overlaid n ts labels0 dst0 e0 p st e →
  runs (absorb_entry st er) e (λ st e, overlaid n ts labels0 dst0 e0 (p ++ [er]) st e).
Proof.
  intros Ets (Hok & _ & Hn) [(cp & -> & Ecp) O1 O2 O3 O4 O5 O6]. destruct st as [[labels wu] dst]. cbn [fst snd] in *.
  pose proof Hok as (Wr & Er & (c0 & _ & Hc0) & _). subst wu.
  assert ((∀ c, bs_get labels c = true → bs_get (re_labels er) c = false) →
    overlaid n ts labels0 dst0 e0 (p ++ [er]) (labels, words_used_mask labels, dst) (with_caps cp e0)) as Hskip.
  { intros Hno. split; cbn [fst snd]; try done; [by eexists|]. intros c t Hc. rewrite (O5 c t Hc), res_edge_snoc. unfold entry_edge.
    rewrite (Hno c Hc). clear. intuition congruence. }
  unfold absorb_entry. apply runs_bind, runs_asserts.
  { rewrite Er, words_used_zero by apply Wr. rewrite negb_involutive. apply any_word_spec; eauto. }
  destruct (N.land (re_words_used er) (words_used_mask labels) =? 0)%N eqn:El.
  { apply runs_ret, Hskip. intros c Hc. apply not_true_iff_false. intros Hc'. rewrite Er in El.
    by rewrite (words_used_common (re_labels er) labels c) in El. }
  rewrite any_and by (apply O1 || apply Wr).
  assert (∀ c, bs_get (words_and labels (re_labels er)) c = true ↔ bs_get labels c = true ∧ bs_get (re_labels er) c = true) as Hand.
  { intros c. rewrite bs_get_and, andb_true_iff; [done|]. by rewrite (proj1 O1), (proj1 Wr). }
  destruct (any_word (words_and labels (re_labels er))) eqn:Ea.
  - apply any_word_spec in Ea as [c1 Hc1]; [|by apply words_ok_and]. apply runs_bind.
    eapply runs_mono; [apply append_states_run; cbn; by rewrite Ets|]. cbn [ae_to_sets with_caps ae_caps]. rewrite Ets.
    intros dst' e' (-> & cp' & -> & Ecp'). apply runs_ret. rewrite words_and_used by (apply O1 || apply Wr).
    split; cbn [fst snd].
    + exists cp'. split; [done|]. congruence.
    + by apply words_ok_and.
    + done.
    + eauto.
    + intros c [Hc _]%Hand. by apply O4.
    + intros c t [Hc Hrc]%Hand. rewrite elem_of_app, (O5 c t Hc), res_edge_snoc. unfold entry_edge. tauto.
    + by apply Forall_app.
  - apply runs_ret, Hskip. intros c Hc. apply not_true_iff_false. intros Hc'. apply not_true_iff_false in Ea. apply Ea.
    apply any_word_spec; [by apply words_ok_and|]. exists c. by apply Hand.
Qed.

(** ** The entries of the left result *)

Record left_done (n : nat) (e0 : ac_env) (rl rr : analysis_result) (rl_i : nat) (checked : list N) (out : analysis_result) (e : ac_env) : Prop := {
  ld_build : building n e0 out e;
  ld_words : words_ok 4 checked;
  ld_checked : ∀ c, bs_get checked c = true ↔ has_label out c;
  ld_sub : ∀ c, has_label out c → has_label rl c;
  ld_done : ∀ i re c, i < rl_i → rl !! i = Some re → bs_get (re_labels re) c = true → has_label out c;
  ld_out : ∀ c t, res_edge (ae_to_sets e) out c t ↔
    has_label out c ∧ (res_edge (ae_to_sets e0) rl c t ∨ res_edge (ae_to_sets e0) rr c t);
}.

(** One entry of the left result, with the labels not yet checked. *)
Lemma overlay_run {B} n e0 rr el labels0 out e (K : list N → list N → M B) Q :
  building n e0 out e → result_ok n (ae_to_sets e0) rr → entry_fine n (ae_to_sets e0) el →
  words_ok 4 labels0 → (∃ c, bs_get labels0 c = true) → (N.of_nat n < MOVED)%N →
  (∀ labels dst cp, ac_pbuf_ceil cp = ac_pbuf_ceil (ae_caps e) → words_ok 4 labels →
    (∃ c, bs_get labels c = true) → (∀ c, bs_get labels c = true → bs_get labels0 c = true) →
    dst ≠ [] → increasing dst → Forall (λ x, N.to_nat x < n) dst →
    (∀ c t, bs_get labels c = true → t ∈ dst ↔ t ∈ entry_ids (ae_to_sets e0) el ∨ res_edge (ae_to_sets e0) rr c t) →
    runs (K labels dst) (with_caps cp e) Q) →
  runs (dst ← append_states [] el;
        '(labels, _, dst) ← foldM absorb_entry (labels0, words_used_mask labels0, dst) rr;
        asserts (any_word labels) ;;
        dst ← the (sort_and_dedup_dst_buf dst);
        K labels dst) e Q.
Proof.
  intros Hb Hrr Hel Wl Hsome Hn HK. pose proof (bd_prefix _ _ _ _ Hb) as Hp.
  pose proof (entry_fine_prefix _ _ _ _ Hp Hel) as (Hel1 & _ & Hel3).
  apply runs_bind. eapply runs_mono; [by apply append_states_run|]. cbv beta. cbn [app]. intros dst1 e1 (-> & c1 & -> & Ec1).
  rewrite (entry_ids_prefix (ae_to_sets e0)) in * by (done || apply Hel).
  apply runs_bind. eapply runs_mono.
  { apply (runs_foldM _ (overlaid n (ae_to_sets e) labels0 (entry_ids (ae_to_sets e0) el) e) rr []).
    - intros p er q st e2 Hpq Ho. cbn [app] in Hpq. apply absorb_entry_run; [done| |done].
      apply (entry_fine_prefix n _ _ _ Hp). destruct Hrr as [Hf _]. rewrite Forall_forall in Hf. apply Hf. rewrite Hpq.
      apply elem_of_app. right. left.
    - split; cbn [fst snd]; try done; [by eexists|]. intros c t _. split; [by left|]. intros [?|(re & Hre & _)]; [done|].
      by apply not_elem_of_nil in Hre. }
  cbv beta. cbn [app]. intros [[labels wu] dst] e2 [O0 O1 O2 O3 O4 O5 O6]. cbn [fst snd] in *.
  apply runs_bind, runs_asserts; [by apply any_word_spec|].
  destruct (sort_and_dedup_spec dst) as (l & Es & Hinc & Hl).
  { eapply Forall_impl; [exact O6|]. cbn. lia. }
  apply runs_bind, (runs_the _ l); [done|]. destruct O0 as (cp & -> & Ecp).
  assert (∀ c t, bs_get labels c = true → t ∈ l ↔ t ∈ entry_ids (ae_to_sets e0) el ∨ res_edge (ae_to_sets e0) rr c t) as Hin.
  { intros c t Hc. rewrite Hl, (O5 c t Hc). by rewrite (res_edge_prefix n (ae_to_sets e0)). }
  apply HK; try done.
  - destruct O3 as [c Hc]. intros ->. destruct Hel1 as (_ & _ & _ & Hle & Hne).
    destruct (entry_ids (ae_to_sets e0) el) as [|t ids] eqn:Eids.
    + rewrite <-(entry_ids_prefix (ae_to_sets e0) (ae_to_sets e)) in Eids by (done || apply Hel). unfold entry_ids in Eids.
      apply (f_equal length) in Eids. rewrite length_ids_at in Eids by done. cbn in Eids. lia.
    + apply (not_elem_of_nil t), (Hin c t Hc). left. left.
  - apply Forall_forall. intros x Hx%Hl. by apply (proj1 (Forall_forall _ _) O6).
Qed.

Lemma left_pass_step n e0 rl rr rl_i checked out e el labels (dst : list N) e1 re :
  result_ok n (ae_to_sets e0) rl → left_done n e0 rl rr rl_i checked out e → rl !! rl_i = Some el →
  words_ok 4 labels → (∀ c, bs_get labels c = true → bs_get (words_diff (re_labels el) checked) c = true) →
  (∀ c t, bs_get labels c = true → t ∈ dst ↔ t ∈ entry_ids (ae_to_sets e0) el ∨ res_edge (ae_to_sets e0) rr c t) →
  building n e0 (out ++ [re]) e1 →
  (∀ c, has_label (out ++ [re]) c ↔ has_label out c ∨ bs_get labels c = true) →
  (∀ c t, res_edge (ae_to_sets e1) (out ++ [re]) c t ↔ res_edge (ae_to_sets e) out c t ∨ bs_get labels c = true ∧ t ∈ dst) →
  left_done n e0 rl rr rl_i (words_or checked labels) (out ++ [re]) e1.
Proof.
  intros Hrl [L1 L2 L3 L4 L5 L6] Hel Wl Hsub Hdst Hb Hlab Hedge.
  assert (words_ok 4 (re_labels el)) as We.
  { destruct Hrl as [Hf _]. by destruct (Forall_lookup_1 _ _ _ _ Hf Hel) as [(? & _) _]. }
  assert (∀ c, bs_get labels c = true → bs_get (re_labels el) c = true) as Hel_c.
  { intros c Hc%Hsub. rewrite bs_get_diff, andb_true_iff in Hc by (by rewrite (proj1 We), (proj1 L2)). apply Hc. }
  split; [done|by apply words_ok_or| | | |].
  - intros c. rewrite bs_get_or, orb_true_iff, Hlab, L3; [done|]. by rewrite (proj1 Wl), (proj1 L2).
  - intros c [Hc|Hc]%Hlab; [by apply L4|]. exists el. split; [apply list_elem_of_lookup; eauto|]. by apply Hel_c.
  - intros i x c Hi Hx Hc. apply Hlab. left. by eapply L5.
  - intros c t. rewrite Hedge, L6, Hlab. split.
    + intros [[H1 H2]|[Hc Ht]]; [tauto|]. split; [by right|]. rewrite (entry_label_unique n _ rl rl_i el) by auto.
      by apply (Hdst c t Hc).
    + intros [[H1|Hc] H2]; [tauto|]. right. split; [done|]. apply (Hdst c t Hc).
      rewrite (entry_label_unique n _ rl rl_i el) in H2 by auto. done.
Qed.

Lemma left_pass_run n e0 rl rr :
  result_ok n (ae_to_sets e0) rl → result_ok n (ae_to_sets e0) rr → room n (ae_to_sets e0) → (N.of_nat n < MOVED)%N →
  ∀ fuel rl_i checked out e,
  left_done n e0 rl rr rl_i checked out e → rl_i ≤ length rl → 257 + length rl ≤ fuel + length out + rl_i →
  runs (left_pass fuel rl_i rl rr checked) e (λ checked' e', ∃ out', left_done n e0 rl rr (length rl) checked' out' e').
Proof.
  intros Hrl Hrr Hroom Hn. induction fuel as [|fuel IH]; intros rl_i checked out e Hd Hi Hfuel.
  { pose proof (result_few _ _ _ (bd_ok _ _ _ _ (ld_build _ _ _ _ _ _ _ _ Hd))). lia. }
  cbn [left_pass]. destruct (rl !! rl_i) as [el|] eqn:Eel.
  2:{ apply lookup_ge_None in Eel. apply runs_ret. exists out. by replace (length rl) with rl_i by lia. }
  pose proof (lookup_lt_Some _ _ _ Eel) as Hlt. pose proof Hd as [L1 L2 L3 L4 L5 L6].
  assert (entry_fine n (ae_to_sets e0) el) as Fel by (destruct Hrl as [Hf _]; exact (Forall_lookup_1 _ _ _ _ Hf Eel)).
  assert (words_ok 4 (re_labels el)) as We by apply Fel.
  assert (∀ c, bs_get (words_diff (re_labels el) checked) c = true ↔ bs_get (re_labels el) c = true ∧ ¬ has_label out c) as Hdiff.
  { intros c. rewrite bs_get_diff, andb_true_iff, negb_true_iff, <-not_true_iff_false, L3; [done|]. by rewrite (proj1 We), (proj1 L2). }
  cbv zeta. destruct (words_used_mask (words_diff (re_labels el) checked) =? 0)%N eqn:Ez.
  - apply (IH _ _ out); [|lia|lia]. split; try done. intros i re c Hi' Hre Hc.
    destruct (decide (i = rl_i)) as [->|]; [|eapply (L5 i); [lia|done..]]. rewrite Eel in Hre. injection Hre as <-.
    destruct (has_label_dec out c) as [|Hno]; [done|]. exfalso.
    rewrite words_used_zero in Ez by (by apply words_ok_diff). apply negb_true_iff, not_true_iff_false in Ez. apply Ez.
    apply any_word_spec; [by apply words_ok_diff|]. exists c. by apply Hdiff.
  - rewrite words_used_zero in Ez by (by apply words_ok_diff).
    apply negb_false_iff, any_word_spec in Ez; [|by apply words_ok_diff].
    apply (overlay_run n e0 rr el _ out); try done; [by apply words_ok_diff|].
    intros labels dst cp Ecp Wl Hsome Hsub Hne Hinc Hsmall Hdst. apply runs_bind.
    eapply runs_mono; [apply (add_group_run n e0 out); try done; [by apply building_caps|intros c Hc%Hsub%Hdiff; apply Hc]|].
    cbv beta. cbn [ae_to_sets with_caps]. intros _ e2 (re & Hb & _ & Hlab & Hedge). apply (IH _ _ (out ++ [re])); [|done|].
    + by eapply left_pass_step.
    + rewrite length_app. cbn. lia.
Qed.

(** ** The entries of the right result *)

Lemma right_pass_run n e0 rl rr checked out e :
  result_ok n (ae_to_sets e0) rl → result_ok n (ae_to_sets e0) rr → room n (ae_to_sets e0) →
  left_done n e0 rl rr (length rl) checked out e →
  runs (foldM (λ _ er, right_entry checked er) tt rr) e (λ _ e', ∃ out', building n e0 out' e' ∧
    ∀ c t, res_edge (ae_to_sets e') out' c t ↔ res_edge (ae_to_sets e0) rl c t ∨ res_edge (ae_to_sets e0) rr c t).
Proof.
  intros Hrl Hrr Hroom [L1 L2 L3 L4 L5 L6].
  assert (∀ c, bs_get checked c = true ↔ has_label rl c) as Hck.
  { intros c. rewrite L3. split; [apply L4|]. intros (re & [i Hi]%list_elem_of_lookup & Hc).
    eapply (L5 i); [by eapply lookup_lt_Some|done..]. }
  eapply runs_mono; [apply (runs_foldM _ (λ p _ e', ∃ out', building n e0 out' e' ∧
    (∀ c, has_label out' c ↔ bs_get checked c = true ∨ has_label p c) ∧
    ∀ c t, res_edge (ae_to_sets e') out' c t ↔
      bs_get checked c = true ∧ (res_edge (ae_to_sets e0) rl c t ∨ res_edge (ae_to_sets e0) rr c t) ∨
      bs_get checked c = false ∧ res_edge (ae_to_sets e0) p c t) rr [])|].
  - intros p er q [] e1 Hpq (out1 & Hb & Hlab & Hed). cbn [app] in Hpq. unfold right_entry.
    assert (rr !! length p = Some er) as Her by (rewrite Hpq; by apply list_lookup_middle).
    assert (entry_fine n (ae_to_sets e0) er) as Fer by (destruct Hrr as [Hf _]; exact (Forall_lookup_1 _ _ _ _ Hf Her)).
    assert (words_ok 4 (re_labels er)) as We by apply Fer.
    assert (∀ c, bs_get (words_diff (re_labels er) checked) c = true ↔ bs_get (re_labels er) c = true ∧ bs_get checked c = false) as Hdiff.
    { intros c. rewrite bs_get_diff, andb_true_iff, negb_true_iff; [done|]. by rewrite (proj1 We), (proj1 L2). }
    rewrite any_diff by (apply We || apply L2). destruct (any_word _) eqn:Ea.
    + apply any_word_spec in Ea; [|by apply words_ok_diff].
      pose proof (bd_prefix _ _ _ _ Hb) as Hp. pose proof (entry_fine_prefix _ _ _ _ Hp Fer) as (F1 & F2 & F3).
      apply runs_bind. eapply runs_mono; [by apply append_states_run|]. cbv beta. cbn [app]. intros dst e2 (-> & cp & -> & Ecp).
      eapply runs_mono; [apply (add_group_run n e0 out1); [by apply building_caps|done| |done|done|by apply words_ok_diff|done|]|].
      * destruct F1 as (_ & _ & _ & F1 & Fne). intros E. apply (f_equal length) in E. unfold entry_ids in E.
        rewrite length_ids_at in E by done. cbn in E. lia.
      * intros c [Hc Hck']%Hdiff [Hl|(re & [i Hi]%list_elem_of_lookup & Hre)]%Hlab; [congruence|].
        assert (i = length p) as ->; [|apply lookup_lt_Some in Hi; lia]. destruct Hrr as [_ Hd]. eapply (Hd i _ re er c); [|done..].
        rewrite Hpq. by apply lookup_app_l_Some.
      * cbv beta. cbn [ae_to_sets with_caps]. intros _ e3 (re & Hb' & _ & Hlab' & Hed'). exists (out1 ++ [re]). split; [done|]. split.
        -- intros c. rewrite Hlab', Hlab, has_label_snoc, Hdiff. destruct (bs_get checked c); clear; intuition congruence.
        -- intros c t. rewrite Hed', Hed, res_edge_snoc, Hdiff. unfold entry_edge.
           rewrite (entry_ids_prefix (ae_to_sets e0)) by (done || apply Fer). clear. tauto.
    + apply runs_ret. exists out1. split; [done|].
      assert (∀ c, bs_get (re_labels er) c = true → bs_get checked c = true) as Hno.
      { intros c Hc. apply not_false_iff_true. intros Hf. apply not_true_iff_false in Ea. apply Ea.
        apply any_word_spec; [by apply words_ok_diff|]. exists c. by apply Hdiff. }
      split.
      * intros c. rewrite Hlab, has_label_snoc. specialize (Hno c). clear -Hno. tauto.
      * intros c t. rewrite Hed, res_edge_snoc. unfold entry_edge. specialize (Hno c). clear -Hno. intuition congruence.
  - exists out. split; [done|]. split.
    + intros c. rewrite L3. split; [by left|]. intros [?|(re & Hre & _)]; [done|]. by apply not_elem_of_nil in Hre.
    + intros c t. rewrite L6, <-L3. split; [tauto|]. intros [?|[_ (re & Hre & _)]]; [done|]. by apply not_elem_of_nil in Hre.
  - cbn [app]. intros _ e' (out' & Hb & Hlab & Hed). exists out'. split; [done|]. intros c t. rewrite Hed. specialize (Hck c).
    destruct (bs_get checked c) eqn:Ec.
    + clear. intuition congruence.
    + split; [tauto|]. intros [(re & Hre & Hc & _)|?]; [|tauto].
      assert (has_label rl c) as Hl%Hck by (by exists re). done.
Qed.

(** ** Two results *)

Definition pair_of (a b : N) : pair_key := if (a <? b)%N then KPair a b else KPair b a.

Lemma save_pair_run e a b r :
  htab_ok (ae_htab e) → a ≠ b → (a < RESULT_BIT)%N → (b < RESULT_BIT)%N →
  (N.of_nat (ph_used (ae_htab e)) < 1073741824)%N → (∀ r, ¬ cached (ae_htab e) (pair_of a b) r) →
  ∃ h, save_pair a b r e = Some (Some tt, with_htab h e) ∧ htab_ok h ∧ ph_used h = ph_used (ae_htab e) + 1 ∧
    ∀ k r', cached h k r' ↔ k = pair_of a b ∧ r' = r ∨ cached (ae_htab e) k r'.
Proof.
  intros Hh Hne Ha Hb Hfew Hno. unfold save_pair, call, analysis_cache_save_pair.
  rewrite !is_result_state, (proj2 (N.eqb_neq _ _) Hne) by done. cbn [negb andb].
  set (lo := if (b <? a)%N then b else a). set (hi := if (b <? a)%N then a else b).
  assert ((if (b <? a)%N then (b, a) else (a, b)) = (lo, hi)) as -> by (unfold lo, hi; by destruct (b <? a)%N).
  assert (lo < hi ∧ hi < RESULT_BIT ∧ pair_of a b = KPair lo hi)%N as (H1 & H2 & Ek).
  { unfold lo, hi, pair_of. destruct (b <? a)%N eqn:E; split_bool.
    - rewrite (proj2 (N.ltb_ge a b)) by lia. done.
    - rewrite (proj2 (N.ltb_lt a b)) by lia. split; [lia|done]. }
  rewrite (proj2 (N.ltb_lt _ _) H1), Ek in *.
  destruct (pair_cache_save_spec (ae_alloc e) (ae_htab e) RPBT_PAIR (N.lor lo RESULT_BIT) (N.lor hi RESULT_BIT) r (KPair lo hi))
    as (h & -> & K1 & K2 & K3); [done|done|done|exists lo, hi; done|]. by exists h.
Qed.

Lemma lookup_means f ts (rs : list analysis_result) leaves i L :
  Forall2 (means f ts) rs leaves → leaves !! i = Some L → ∃ r, rs !! i = Some r ∧ means f ts r L.
Proof. intros HF HL. exact (Forall2_lookup_r _ _ _ _ _ HF HL). Qed.

(** A new result for two results whose states are disjoint. *)
Lemma combine_save_run f leaves e a b La Lb :
  env_ok f leaves e → fits (f_statecount f) (S (length leaves)) → (N.of_nat (f_statecount f) < RESULT_BIT)%N →
  leaves !! N.to_nat a = Some La → leaves !! N.to_nat b = Some Lb → NoDup (La ++ Lb) →
  (∀ r, ¬ cached (ae_htab e) (pair_of a b) r) →
  runs (r ← combine_result_pair_and_commit a b; save_pair a b r ;; mret r) e (λ r e',
    r = N.of_nat (length leaves) ∧ env_ok f (leaves ++ [La ++ Lb]) e' ∧ same_env e e').
Proof.
  intros He Hfit Hn Ha Hb Hnd Hno. pose proof Hfit as [Hf1 Hf2].
  pose proof (eo_rs _ _ _ He) as Hrs. pose proof (Forall2_length _ _ _ Hrs) as Hlen.
  destruct (lookup_means _ _ _ _ _ _ Hrs Ha) as (ra & Hra & Ma). destruct (lookup_means _ _ _ _ _ _ Hrs Hb) as (rb & Hrb & Mb).
  assert (a ≠ b) as Hab.
  { intros ->. assert (La = Lb) as -> by congruence. destruct Mb as (_ & Hne & _). apply NoDup_app in Hnd as (_ & Hd & _).
    destruct Lb as [|x Lb]; [done|]. apply (Hd x); left. }
  apply lookup_lt_Some in Ha as Hlta. apply lookup_lt_Some in Hb as Hltb.
  apply runs_bind. unfold combine_result_pair_and_commit. do 2 run_step. cbn [compose].
  apply runs_bind, (runs_the _ ra); [done|]. apply runs_bind, (runs_the _ rb); [done|]. cbv zeta.
  set (rl := if length ra <=? length rb then ra else rb). set (rr := if length rb <? length ra then ra else rb).
  assert (rl = ra ∧ rr = rb ∨ rl = rb ∧ rr = ra) as Hlr.
  { unfold rl, rr. destruct (length ra <=? length rb) eqn:E; split_bool.
    - rewrite (proj2 (Nat.ltb_ge _ _)) by lia. by left.
    - rewrite (proj2 (Nat.ltb_lt _ _)) by lia. by right. }
  apply runs_bind, runs_asserts; [apply negb_true_iff; by apply N.eqb_neq|].
  apply runs_bind, runs_puts. rewrite <-(eo_buf _ _ _ He).
  assert (with_sets (ae_to_sets e) (mk_results (rs_rs (ae_results e)) (rs_ceil (ae_results e)) (rb_entries (ae_results e))
    (rb_ceil (ae_results e))) e = e) as -> by (by destruct e as [? ? ? ? ? ? ? []]).
  assert (result_ok (f_statecount f) (ae_to_sets e) rl ∧ result_ok (f_statecount f) (ae_to_sets e) rr) as [Ol Or]
    by (destruct Hlr as [[-> ->]|[-> ->]]; split; apply Ma || apply Mb).
  apply runs_bind. eapply runs_mono; [apply (left_pass_run (f_statecount f) e rl rr) with (out := []); try done|].
  { by eapply env_room. }
  { unfold MOVED, RESULT_BIT in *. lia. }
  { split; [by eapply building_start|apply words_ok_zero| | | |].
    - intros c. rewrite bs_get_zero. split; [done|]. intros (re & Hre & _). by apply not_elem_of_nil in Hre.
    - intros c (re & Hre & _). by apply not_elem_of_nil in Hre.
    - lia.
    - intros c t. split; [intros (re & Hre & _)|intros [(re & Hre & _) _]]; by apply not_elem_of_nil in Hre. }
  { lia. }
  { unfold left_fuel. cbn. lia. }
  cbv beta. intros checked e1 (out & Hd). apply runs_bind.
  eapply runs_mono; [eapply (right_pass_run (f_statecount f) e rl rr); [done|done|by eapply env_room|done]|].
  cbv beta. intros _ e2 (out2 & Hbd & Hed). pose proof (bd_rs _ _ _ _ Hbd) as Ers.
  destruct (commit_run e2) as [ceil Ec]; [rewrite Ers, Hlen; lia|]. eexists _, _. split; [exact Ec|].
  cbv beta. rewrite Ers, Hlen. set (e3 := with_sets _ _ e2).
  assert (ae_htab e3 = ae_htab e) as Eh by (unfold e3; by rewrite (bd_env _ _ _ _ Hbd)).
  destruct (save_pair_run e3 a b (N.of_nat (length leaves))) as (h & Es & Hh & Hu & Hc);
    rewrite ?Eh; try done; [apply He|unfold RESULT_BIT; lia|unfold RESULT_BIT; lia|pose proof (eo_htused _ _ _ He); lia|].
  rewrite Eh in Hu, Hc. apply runs_bind. eexists _, _. split; [exact Es|]. apply runs_ret. split; [done|].
  assert (means f (ae_to_sets e2) out2 (La ++ Lb)) as Hm.
  { split; [apply Hbd|]. destruct Ma as (_ & Na & Fa & _ & Ea), Mb as (_ & Nb & Fb & _ & Eb).
    split; [by destruct La|]. split; [by apply Forall_app|]. split; [done|]. intros c t. rewrite Hed.
    setoid_rewrite elem_of_app. destruct Hlr as [[-> ->]|[-> ->]]; rewrite Ea, Eb; clear; naive_solver. }
  split.
  - unfold e3. rewrite <-Ers. eapply (committed_ok f leaves e e2 out2 (pair_of a b)); try done; [eapply result_few, Hm|].
    assert ((leaves ++ [La ++ Lb]) !! length leaves = Some (La ++ Lb)) as El by (by apply list_lookup_middle).
    assert (∀ i L, leaves !! i = Some L → (leaves ++ [La ++ Lb]) !! i = Some L) as Hl by (intros; by apply lookup_app_l_Some).
    unfold pair_of. destruct (a <? b)%N; cbn [key_leaves]; rewrite Nat2N.id.
    + exists La, Lb, (La ++ Lb). auto.
    + exists Lb, La, (La ++ Lb). split; [by apply Hl|]. split; [by apply Hl|]. split; [done|]. apply Permutation_app_comm.
  - unfold e3. rewrite (bd_env _ _ _ _ Hbd). split; [done|]. split; [done|]. split; [apply Hbd|done].
Qed.

(** ** Identifiers *)

Definition result_leaves (leaves : list (list N)) (id : N) (L : list N) : Prop :=
  ∃ i L', id = N.lor i RESULT_BIT ∧ leaves !! N.to_nat i = Some L' ∧ L' ≡ₚ L.

(** A state, or a result made from [L]. *)
Definition id_leaves (f : fsm) (leaves : list (list N)) (id : N) (L : list N) : Prop :=
  live f id ∧ L = [id] ∨ result_leaves leaves id L.

Lemma result_leaves_app leaves l id L : result_leaves leaves id L → result_leaves (leaves ++ l) id L.
Proof. intros (i & L' & H1 & H2 & H3). exists i, L'. split; [done|]. split; [by apply lookup_app_l_Some|done]. Qed.

Lemma id_leaves_app f leaves l id L : id_leaves f leaves id L → id_leaves f (leaves ++ l) id L.
Proof. intros [?|?]; [by left|right; by apply result_leaves_app]. Qed.

Lemma single_result_run f leaves e s :
  fsm_wf f → env_ok f leaves e → live f s → (N.of_nat (f_statecount f) < RESULT_BIT)%N →
  fits (f_statecount f) (S (length leaves)) →
  runs (single_result s) e (λ r e', ∃ l, env_ok f (leaves ++ l) e' ∧ length l ≤ 1 ∧
    (leaves ++ l) !! N.to_nat r = Some [s] ∧ same_env e e').
Proof.
  intros Hwf He Hs Hn Hfit. unfold single_result. apply runs_bind.
  destruct (check_single_spec (ae_htab e) s) as (o & Eo & Ho); [apply He|unfold live in Hs; lia|].
  eexists o, e. split; [unfold check_single; by rewrite Eo|]. destruct o as [r|].
  - apply runs_ret. exists []. rewrite app_nil_r. split; [done|]. split; [cbn; lia|]. split; [|done].
    apply (eo_cached _ _ _ He _ _ Ho).
  - eapply runs_mono; [by apply (cache_single_run f leaves)|]. cbv beta. intros r e' (-> & He' & Hsame). exists [[s]].
    split; [done|]. split; [cbn; lia|]. split; [|done]. rewrite Nat2N.id. by apply list_lookup_middle.
Qed.

Lemma as_result_run f leaves e id L :
  fsm_wf f → env_ok f leaves e → id_leaves f leaves id L → (N.of_nat (f_statecount f) < RESULT_BIT)%N →
  fits (f_statecount f) (S (length leaves)) →
  runs (as_result id) e (λ id' e', ∃ l, env_ok f (leaves ++ l) e' ∧ length l ≤ 1 ∧ result_leaves (leaves ++ l) id' L ∧ same_env e e').
Proof.
  intros Hwf He Hid Hn Hfit. unfold as_result. destruct Hid as [[Hs ->]|(i & L' & -> & Hi & HL)].
  - rewrite is_result_state by (unfold live in Hs; lia). apply runs_bind.
    eapply runs_mono; [by apply (single_result_run f leaves)|]. cbv beta. intros r e' (l & He' & Hl & Hr & Hsame). apply runs_ret.
    exists l. split; [done|]. split; [done|]. split; [|done]. exists r, [id]. done.
  - rewrite is_result_lor. apply runs_ret. exists []. rewrite app_nil_r. split; [done|]. split; [cbn; lia|]. split; [|done].
    exists i, L'. done.
Qed.

Lemma fits_result leaves n (i : N) (L : list N) : fits n (length leaves) → leaves !! N.to_nat i = Some L → (i < RESULT_BIT)%N.
Proof. intros [H1 H2] Hi%lookup_lt_Some. unfold RESULT_BIT. lia. Qed.

Lemma combine_pair_run f leaves e a b La Lb :
  fsm_wf f → env_ok f leaves e → id_leaves f leaves a La → id_leaves f leaves b Lb → NoDup (La ++ Lb) →
  (N.of_nat (f_statecount f) < RESULT_BIT)%N → fits (f_statecount f) (3 + length leaves) →
  runs (combine_pair a b) e (λ r e', ∃ l, env_ok f (leaves ++ l) e' ∧ length l ≤ 3 ∧
    result_leaves (leaves ++ l) (N.lor r RESULT_BIT) (La ++ Lb) ∧ same_env e e').
Proof.
  intros Hwf He Ha Hb Hnd Hn Hfit. unfold combine_pair. apply runs_bind.
  eapply runs_mono; [eapply (as_result_run f leaves e a La); try done; eapply fits_le; [|exact Hfit]; lia|].
  cbv beta. intros pa e1 (l1 & He1 & Hl1 & Ha1 & S1). apply runs_bind.
  eapply runs_mono; [eapply (as_result_run f (leaves ++ l1) e1 b Lb); try done; [by apply id_leaves_app|]|].
  { eapply fits_le; [|exact Hfit]. rewrite length_app. lia. }
  cbv beta. intros pb e2 (l2 & He2 & Hl2 & Hb2 & S2). apply (result_leaves_app _ l2) in Ha1.
  rewrite <-!app_assoc in *. set (lv := leaves ++ l1 ++ l2) in *.
  assert (length lv ≤ 2 + length leaves) as Hlv by (unfold lv; rewrite !length_app; lia).
  assert (fits (f_statecount f) (length lv)) as Hfit2 by (eapply fits_le; [|exact Hfit]; lia).
  destruct Ha1 as (i & L1 & -> & Hi & P1), Hb2 as (j & L2 & -> & Hj & P2).
  pose proof (fits_result _ _ _ _ Hfit2 Hi) as Hib. pose proof (fits_result _ _ _ _ Hfit2 Hj) as Hjb.
  assert (NoDup (L1 ++ L2)) as Hnd' by (by rewrite P1, P2).
  assert (i ≠ j) as Hij.
  { intros ->. assert (L1 = L2) as -> by congruence. destruct (lookup_means _ _ _ _ _ _ (eo_rs _ _ _ He2) Hj) as (r & _ & _ & Hne & _).
    apply NoDup_app in Hnd' as (_ & Hd & _). destruct L2 as [|x L2]; [done|]. apply (Hd x); left. }
  assert (∃ o, analysis_cache_check_pair (ae_htab e2) (N.lor i RESULT_BIT) (N.lor j RESULT_BIT) = Some o ∧
    cached_opt (ae_htab e2) (pair_of i j) o) as (o & Eo & Ho).
  { unfold pair_of. destruct (i <? j)%N eqn:E; split_bool.
    - apply (check_pair_spec _ i j); [apply He2|done|done|by left].
    - apply (check_pair_spec _ j i); [apply He2|lia|done|by right]. }
  apply runs_bind. eexists o, e2. split; [unfold check_pair; by rewrite Eo|]. destruct o as [r|].
  - apply runs_ret. exists (l1 ++ l2). split; [done|]. split; [rewrite length_app; lia|]. split; [|by trans e1].
    apply (eo_cached _ _ _ He2) in Ho. exists r. unfold pair_of in Ho. destruct (i <? j)%N; cbn [key_leaves] in Ho;
      destruct Ho as (X & Y & L & HX & HY & HL & HP); exists L; split; [done| |done|]; (split; [done|]); rewrite HP.
    + rewrite Hi in HX. rewrite Hj in HY. injection HX as <-. injection HY as <-. by rewrite P1, P2.
    + rewrite Hj in HX. rewrite Hi in HY. injection HX as <-. injection HY as <-. rewrite P1, P2. apply Permutation_app_comm.
  - apply runs_bind, runs_asserts; [by rewrite !is_result_lor|]. cbv zeta. rewrite !result_mask_lor by done.
    eapply runs_mono; [eapply (combine_save_run f lv e2 i j L1 L2); try done; eapply fits_le; [|exact Hfit]; lia|].
    cbv beta. intros r e3 (-> & He3 & S3). exists (l1 ++ l2 ++ [L1 ++ L2]). rewrite !app_assoc. unfold lv in *. rewrite app_assoc in He3.
    split; [done|]. split; [rewrite !length_app; cbn; lia|]. split; [|trans e1; [done|]; by trans e2].
    exists (N.of_nat (length (leaves ++ l1 ++ l2))), (L1 ++ L2). split; [done|]. rewrite Nat2N.id, <-(app_assoc leaves). split.
    + by apply list_lookup_middle.
    + by rewrite P1, P2.
Qed.

Lemma id_leaves_some f leaves e id L : env_ok f leaves e → id_leaves f leaves id L → L ≠ [].
Proof.
  intros He [[_ ->]|(i & L' & _ & Hi & HP)]; [done|].
  destruct (lookup_means _ _ _ _ _ _ (eo_rs _ _ _ He) Hi) as (r & _ & _ & Hne & _). intros ->.
  by apply Permutation_nil_r in HP.
Qed.

(** Two results for one identifier are made from the same states. *)
Lemma result_leaves_same n leaves id L L' :
  fits n (length leaves) → result_leaves leaves id L → result_leaves leaves id L' → L ≡ₚ L'.
Proof.
  intros Hfit (i & X & -> & Hi & P1) (j & Y & E & Hj & P2).
  pose proof (fits_result _ _ _ _ Hfit Hi). pose proof (fits_result _ _ _ _ Hfit Hj).
  assert (i = j) as -> by (rewrite <-(result_mask_lor i), E, result_mask_lor by done; done).
  assert (X = Y) as -> by congruence. by rewrite <-P1.
Qed.

(** The result of a pair is neither of its identifiers. *)
Lemma pair_fresh f leaves e id other L L' r :
  env_ok f leaves e → (N.of_nat (f_statecount f) < RESULT_BIT)%N → fits (f_statecount f) (length leaves) →
  id_leaves f leaves id L → L' ≠ [] → other ≡ₚ L ++ L' →
  result_leaves leaves (N.lor r RESULT_BIT) other → N.lor r RESULT_BIT ≠ id.
Proof.
  intros He Hn Hfit Hid Hne HP Hr E. rewrite E in Hr. destruct Hid as [[Hs _]|Hid].
  - assert (is_result id = true) as Ht by (by rewrite <-E, is_result_lor). by rewrite is_result_state in Ht by (unfold live in Hs; lia).
  - pose proof (result_leaves_same _ _ _ _ _ Hfit Hr Hid) as HP2. rewrite HP in HP2. apply Permutation_length in HP2.
    rewrite length_app in HP2. destruct L'; [done|]. cbn in HP2. lia.
Qed.

(** ** Rounds *)

Record rounds (f : fsm) (leaves : list (list N)) (cbuf : list N) (cur_i : nat) (nbuf : list N) (S : list N) : Prop := {
  rd_idx : cur_i ≤ length cbuf;
  rd_len : 2 * length nbuf = cur_i ∨ cur_i = length cbuf ∧ 2 * length nbuf = cur_i + 1;
  rd_leaves : ∃ Ls Ms, Forall2 (id_leaves f leaves) (drop cur_i cbuf) Ls ∧ Forall2 (id_leaves f leaves) nbuf Ms ∧
    concat Ms ++ concat Ls ≡ₚ S;
  rd_nhead : ∀ id, nbuf !! 0 = Some id → is_result id = true;
  rd_chead : length cbuf = 1 → ∀ id, cbuf !! 0 = Some id → is_result id = true;
  rd_zero : cur_i = 0 ∨ 1 < length cbuf;
}.

Lemma rounds_one f leaves cbuf cur_i nbuf S :
  (N.of_nat (f_statecount f) < RESULT_BIT)%N → rounds f leaves cbuf cur_i nbuf S → S ≠ [] → length cbuf ≤ 1 →
  ∃ id, cbuf = [id] ∧ is_result id = true ∧ result_leaves leaves id S ∧ cur_i = 0.
Proof.
  intros Hn [R1 R2 (Ls & Ms & H1 & H2 & HP) R4 R5 R6] Hne Hle. assert (cur_i = 0) as -> by lia.
  assert (nbuf = []) as -> by (destruct nbuf; [done|cbn in R2; lia]). apply Forall2_nil_inv_l in H2 as ->. rewrite drop_0 in H1.
  destruct cbuf as [|id [|]]; [|clear Hle|cbn in Hle; lia].
  { apply Forall2_nil_inv_l in H1 as ->. cbn in HP. by apply Permutation_nil_l in HP. }
  specialize (R5 eq_refl id eq_refl). exists id. split; [done|]. split; [done|]. split; [|done].
  apply Forall2_cons_inv_l in H1 as (L & Ls' & Hid & H1 & ->). apply Forall2_nil_inv_l in H1 as ->. cbn in HP. rewrite app_nil_r in HP.
  destruct Hid as [[Hs ->]|(i & L' & -> & Hi & HPL)].
  - by rewrite is_result_state in R5 by (unfold live in Hs; lia).
  - exists i, L'. split; [done|]. split; [done|]. by trans L.
Qed.

Lemma rounds_flip f leaves cbuf nbuf S :
  rounds f leaves cbuf (length cbuf) nbuf S → 1 < length cbuf → rounds f leaves nbuf 0 [] S.
Proof.
  intros [R1 R2 (Ls & Ms & H1 & H2 & HP) R4 R5 R6] Hlt. split; try done; [cbn; lia|by left| |by left].
  exists Ms, []. rewrite drop_0. split; [done|]. split; [done|]. rewrite drop_ge in H1 by done. apply Forall2_nil_inv_l in H1 as ->.
  cbn in *. by rewrite app_nil_r in HP.
Qed.

Lemma rounds_bounce f leaves cbuf cur_i nbuf S id :
  rounds f leaves cbuf cur_i nbuf S → Nat.odd (length cbuf) = true → 1 < length cbuf → cur_i = length cbuf - 1 → cbuf !! cur_i = Some id →
  rounds f leaves cbuf (cur_i + 1) (nbuf ++ [id]) S.
Proof.
  intros [R1 R2 (Ls & Ms & H1 & H2 & HP) R4 R5 R6] Hodd Hlt Ei Hid. apply Nat.odd_spec in Hodd as [k Ek].
  rewrite (drop_S _ _ _ Hid) in H1. apply Forall2_cons_inv_l in H1 as (L & Ls' & Hid' & H1 & ->).
  split; [lia| | | |done|by right].
  - rewrite length_app. cbn. lia.
  - exists Ls', (Ms ++ [L]). rewrite Nat.add_1_r. split; [done|]. split; [apply Forall2_app; [done|by constructor]|].
    rewrite concat_app. cbn [concat]. rewrite app_nil_r, <-app_assoc. exact HP.
  - intros x Hx. apply R4. destruct nbuf; [cbn in R2; lia|done].
Qed.

Lemma rounds_pair f leaves cbuf cur_i nbuf S a b :
  rounds f leaves cbuf cur_i nbuf S → 1 < length cbuf → cbuf !! cur_i = Some a → cbuf !! (cur_i + 1) = Some b →
  ∃ La Lb, id_leaves f leaves a La ∧ id_leaves f leaves b Lb ∧ (∃ rest, La ++ Lb ++ rest ≡ₚ S) ∧
  ∀ r l, result_leaves (leaves ++ l) (N.lor r RESULT_BIT) (La ++ Lb) →
    rounds f (leaves ++ l) cbuf (cur_i + 2) (nbuf ++ [N.lor r RESULT_BIT]) S.
Proof.
  intros [R1 R2 (Ls & Ms & H1 & H2 & HP) R4 R5 R6] Hlt Ha Hb. pose proof (lookup_lt_Some _ _ _ Hb) as Hlb.
  rewrite (drop_S _ _ _ Ha) in H1. apply Forall2_cons_inv_l in H1 as (La & Ls1 & HLa & H1 & ->).
  rewrite <-Nat.add_1_r, (drop_S _ _ _ Hb) in H1. apply Forall2_cons_inv_l in H1 as (Lb & Ls2 & HLb & H1 & ->).
  exists La, Lb. split; [done|]. split; [done|]. split.
  { exists (concat Ms ++ concat Ls2). rewrite <-HP. cbn [concat]. rewrite !app_assoc.
    rewrite <-(app_assoc (concat Ms) La Lb). apply Permutation_app_tail, Permutation_app_comm. }
  intros r l Hr. split; [lia| | | |done|by right].
  - rewrite length_app. cbn. lia.
  - exists Ls2, (Ms ++ [La ++ Lb]). replace (cur_i + 2) with (Datatypes.S (cur_i + 1)) by lia. split; [|split].
    + eapply Forall2_impl; [exact H1|]. intros. by apply id_leaves_app.
    + apply Forall2_app; [eapply Forall2_impl; [exact H2|]; intros; by apply id_leaves_app|]. constructor; [by right|constructor].
    + rewrite concat_app. cbn [concat] in *. rewrite app_nil_r, <-HP, <-!app_assoc. done.
  - intros x Hx. destruct nbuf as [|y nbuf]; [|by apply R4]. cbn in Hx. injection Hx as <-. apply is_result_lor.
Qed.

Lemma pairwise_fuel_step m : 2 ≤ m → m + 1 + pairwise_fuel ((m + 1) / 2) ≤ pairwise_fuel m.
Proof.
  intros Hm. assert ((m + 1) / 2 ≤ m - 1) as Hle by (pose proof (Nat.div_mod_eq (m + 1) 2); lia).
  unfold pairwise_fuel. nia.
Qed.

Lemma pairwise_run f X : fsm_wf f → NoDup X → X ≠ [] → (N.of_nat (f_statecount f) < RESULT_BIT)%N →
  ∀ fuel leaves cbuf cur_i nbuf e,
  env_ok f leaves e → rounds f leaves cbuf cur_i nbuf X → length cbuf ≤ ac_pbuf_ceil (ae_caps e) →
  fits (f_statecount f) (length leaves + 3 * (length nbuf + (length cbuf - cur_i))) →
  (length cbuf ≤ 1 → 1 ≤ fuel) →
  (1 < length cbuf → length cbuf - cur_i + 1 + pairwise_fuel ((length cbuf + 1) / 2) ≤ fuel) →
  runs (pairwise fuel cbuf cur_i nbuf) e (λ ids e', ∃ l id, env_ok f (leaves ++ l) e' ∧
    length l + 3 ≤ 3 * (length nbuf + (length cbuf - cur_i)) ∧
    ids = [id] ∧ is_result id = true ∧ result_leaves (leaves ++ l) id X ∧ same_env e e').
Proof.
  intros Hwf Hnd Hne Hn. induction fuel as [|fuel IH]; intros leaves cbuf cur_i nbuf e He Hr Hcap Hfit F1 F2.
  { destruct (decide (1 < length cbuf)); [specialize (F2 ltac:(lia))|specialize (F1 ltac:(lia))]; unfold pairwise_fuel in *; lia. }
  cbn [pairwise]. destruct (1 <? length cbuf) eqn:E1; split_bool.
  2:{ destruct (rounds_one _ _ _ _ _ _ Hn Hr Hne ltac:(lia)) as (id & -> & Hres & Hl & ->). apply runs_ret. exists [], id.
      rewrite app_nil_r. split; [done|]. cbn. split; [lia|]. split; [done|]. split; [done|]. by split. }
  pose proof (rd_idx _ _ _ _ _ _ Hr) as Hidx. pose proof (rd_len _ _ _ _ _ _ Hr) as Hlen. specialize (F2 E1). clear F1.
  destruct (cur_i =? length cbuf) eqn:E2; split_bool.
  - subst cur_i. assert (length nbuf = (length cbuf + 1) / 2) as Enb by (pose proof (Nat.div_mod_eq (length cbuf + 1) 2);
      pose proof (Nat.mod_upper_bound (length cbuf + 1) 2); lia).
    rewrite <-Enb in F2.
    eapply runs_mono; [apply (IH leaves nbuf 0 [] e He); [by eapply rounds_flip|lia| |unfold pairwise_fuel in F2; lia|]|].
    + eapply fits_le; [|exact Hfit]. cbn. lia.
    + intros Hgt. pose proof (pairwise_fuel_step (length nbuf) ltac:(lia)). lia.
    + cbv beta. intros ids e' (l & id & K1 & K2 & K3). exists l, id. cbn in K2. split; [done|]. split; [lia|]. done.
  - destruct (Nat.odd (length cbuf) && (cur_i =? length cbuf - 1)) eqn:E3.
    + split_bool. do 2 run_step. apply runs_bind, runs_asserts; [apply Nat.ltb_lt; lia|].
      destruct (lookup_lt_is_Some_2 cbuf cur_i ltac:(lia)) as [id Hid]. apply runs_bind, (runs_the _ id); [done|].
      eapply runs_mono; [apply (IH leaves cbuf (cur_i + 1) (nbuf ++ [id]) e He); [by apply rounds_bounce|done| |lia|lia]|].
      * eapply fits_le; [|exact Hfit]. rewrite length_app. cbn. lia.
      * cbv beta. rewrite length_app. cbn [length]. intros ids e' (l & id' & K1 & K2 & K3). exists l, id'. split; [done|]. split; [lia|done].
    + assert (cur_i + 2 ≤ length cbuf) as Hle.
      { destruct Hlen as [Hlen|[? _]]; [|lia]. destruct (decide (cur_i = length cbuf - 1)) as [Ei|]; [exfalso|lia].
        rewrite (proj2 (Nat.eqb_eq _ _) Ei), andb_true_r in E3. apply not_true_iff_false in E3. apply E3, Nat.odd_spec.
        exists (length nbuf). lia. }
      apply runs_bind, runs_asserts; [by apply Nat.leb_le|].
      destruct (lookup_lt_is_Some_2 cbuf cur_i ltac:(lia)) as [a Ha]. apply runs_bind, (runs_the _ a); [done|].
      destruct (lookup_lt_is_Some_2 cbuf (cur_i + 1) ltac:(lia)) as [b Hb]. apply runs_bind, (runs_the _ b); [done|].
      destruct (rounds_pair f leaves cbuf cur_i nbuf X a b Hr E1 Ha Hb) as (La & Lb & HLa & HLb & (rest & HX) & Hnext).
      apply runs_bind. eapply runs_mono; [apply (combine_pair_run f leaves e a b La Lb); try done|].
      { rewrite <-HX, app_assoc in Hnd. by apply NoDup_app in Hnd as [? _]. }
      { eapply fits_le; [|exact Hfit]. lia. }
      cbv beta. intros r e1 (l & He1 & Hl & Hres & S1).
      assert (fits (f_statecount f) (length (leaves ++ l))) as Hfit1 by (eapply fits_le; [|exact Hfit]; rewrite length_app; lia).
      apply runs_bind, runs_asserts.
      { apply andb_true_iff. rewrite !negb_true_iff, !N.eqb_neq. split.
        - eapply (pair_fresh f (leaves ++ l) e1 a (La ++ Lb) La Lb); try done; [by apply id_leaves_app|exact (id_leaves_some f leaves e b Lb He HLb)].
        - eapply (pair_fresh f (leaves ++ l) e1 b (La ++ Lb) Lb La); try done; [by apply id_leaves_app|exact (id_leaves_some f leaves e a La He HLa)|].
          apply Permutation_app_comm. }
      do 2 run_step. assert (ac_pbuf_ceil (ae_caps e1) = ac_pbuf_ceil (ae_caps e)) as Ecap by apply S1. rewrite Ecap.
      apply runs_bind, runs_asserts; [apply Nat.ltb_lt; lia|].
      eapply runs_mono; [apply (IH (leaves ++ l) cbuf (cur_i + 2) (nbuf ++ [N.lor r RESULT_BIT]) e1 He1); [|by rewrite Ecap| |lia|lia]|].
      * by apply Hnext.
      * eapply fits_le; [|exact Hfit]. rewrite !length_app. cbn. lia.
      * cbv beta. rewrite length_app. cbn [length]. intros ids e' (l2 & id' & K1 & K2 & K3 & K4 & K5 & K6). exists (l ++ l2), id'.
        rewrite app_assoc. split; [done|]. split; [rewrite length_app; lia|]. do 3 (split; [done|]). by trans e1.
Qed.
End Lemmas.
