(* ===== verification/DetAnalysisSpec.v ===== *)
(** * The analysis of a set of states

    [analyze_closures__pairwise_grouping] returns the sets of labels of the
    edges of a set of states, disjoint, each with the interned set of states it
    leads to. *)

From S2P Require Import Prelude StateSet Bits EdgeSet EdgeIter Probe Lang Fsm FsmSpec InternedSet DetSort DetCache.
From S2P Require Import DetAnalysis DetResults DetSingle DetPairs.

(** The sets a pool has interned, besides those of one state. *)
Definition pool_in (P : list N → Prop) (p : interned_state_set_pool) : Prop :=
  ∀ i, i < length (ip_sets p) → P (set_ids p (N.of_nat i)).

(** At most [D] sets have the property. *)
Definition at_most (D : nat) (P : list N → Prop) : Prop := ∀ l, NoDup l → Forall P l → length l ≤ D.

Lemma pool_few D P p : pool_ok p → pool_in P p → at_most D P → length (ip_sets p) ≤ D.
Proof.
  intros Hp Hin HD. pose proof (po_few _ Hp) as Hfew.
  rewrite <-(length_seq (length (ip_sets p)) 0), <-(length_fmap (λ i, set_ids p (N.of_nat i))). apply HD.
  - apply NoDup_fmap_2_strong; [|apply NoDup_seq]. intros i j Hi%elem_of_seq Hj%elem_of_seq E.
    enough (N.of_nat i = N.of_nat j) by lia. apply (iss_states_inj p); [done|right; lia|right; lia|].
    unfold iss_states. by rewrite !not_singleton by lia.
  - apply Forall_fmap, Forall_forall. intros i Hi%elem_of_seq. apply Hin. lia.
Qed.

(** The states that the states of [X] reach by a label. *)
Definition step_set (f : fsm) (X : list N) (c : nat) (Y : list N) : Prop :=
  Y ≠ [] ∧ increasing Y ∧ ∀ t, t ∈ Y ↔ ∃ s, s ∈ X ∧ f_edge f s c t.

(** What the outputs say of the set [X]. *)
Record outputs_ok (f : fsm) (X : list N) (p : interned_state_set_pool) (outs : list ac_output) : Prop := {
  ou_words : Forall (λ o, words_ok 4 (o_labels o)) outs;
  ou_iss : Forall (λ o, iss_valid p (o_iss o)) outs;
  ou_some : Forall (λ o, ∃ c, bs_get (o_labels o) c = true) outs;
  ou_step : ∀ o c, o ∈ outs → bs_get (o_labels o) c = true → step_set f X c (iss_states p (o_iss o));
  ou_all : ∀ s c t, s ∈ X → f_edge f s c t → ∃ o, o ∈ outs ∧ bs_get (o_labels o) c = true;
  ou_disjoint : ∀ i j x y c, outs !! i = Some x → outs !! j = Some y →
    bs_get (o_labels x) c = true → bs_get (o_labels y) c = true → i = j;
}.

Section Lemmas.
Context `{allocator, !alloc_total}.

Lemma save_output_run labels iss e :
  runs (analyze_closures__save_output labels iss) e
    (λ _ e', ∃ c, e' = with_outputs (ae_outputs e ++ [mk_output labels iss]) (with_caps c e)).
Proof.
  unfold analyze_closures__save_output. do 2 run_step. do 2 run_step. run_step. apply runs_when; intros E.
  - apply grow_run. apply runs_puts. by eexists.
  - apply runs_puts. exists (ae_caps e). by rewrite with_caps_id.
Qed.

(** The entries of a result, one by one. *)
Definition entry_output (ts : to_sets) (p : interned_state_set_pool) (re : result_entry) (o : ac_output) : Prop :=
  o_labels o = re_labels re ∧ iss_valid p (o_iss o) ∧ iss_states p (o_iss o) = entry_ids ts re.

Lemma entry_output_extends ts p p' re o : pool_extends p p' → entry_output ts p re o → entry_output ts p' re o.
Proof. intros [_ Hx] (H1 & H2 & H3). destruct (Hx _ H2) as [H4 H5]. split; [done|]. split; [done|]. congruence. Qed.

Lemma env_ok_pool f leaves e p c o : env_ok f leaves e → pool_ok p → env_ok f leaves (with_outputs o (with_caps c (with_issp p e))).
Proof. intros [E1 E2 E3 E4 E5 E6 E7 E8 E9 E10] Hp. by split. Qed.

Lemma output_entry_run n D P e re :
  pool_ok (ae_issp e) → pool_in P (ae_issp e) → at_most D P → (N.of_nat D < 1073741824)%N → (N.of_nat n < 4294967296)%N →
  entry_fine n (ae_to_sets e) re → P (entry_ids (ae_to_sets e) re) →
  runs (output_entry re) e (λ _ e', ∃ p c o, e' = with_outputs (ae_outputs e ++ [o]) (with_caps c (with_issp p e)) ∧
    pool_ok p ∧ pool_extends (ae_issp e) p ∧ pool_in P p ∧ entry_output (ae_to_sets e) p re o).
Proof.
  intros Hp Hin HD Hfew Hn (Hok & Hinc & Hsmall) HP. pose proof (pool_few D P _ Hp Hin HD) as Hlen.
  pose proof Hok as (_ & _ & _ & Hle & Hne).
  unfold output_entry, entry_states. run_step. do 2 run_step. run_step. apply runs_asserts; [by apply Nat.leb_le|]. apply runs_ret.
  cbv beta. fold (entry_ids (ae_to_sets e) re).
  destruct (intern_set_spec (ae_issp e) (entry_ids (ae_to_sets e) re)) as (p & id & Ei & P1 & P2 & P3 & P4 & P5 & P6).
  { done. }
  { intros E. apply (f_equal length) in E. unfold entry_ids in E. rewrite length_ids_at in E by done. cbn in E. lia. }
  { done. }
  { eapply Forall_impl; [exact Hsmall|]. cbn. lia. }
  { lia. }
  apply runs_bind. unfold call. eexists _, _. split; [rewrite Ei; cbn [mbind option_bind]; done|]. cbv beta. cbn [snd].
  eapply runs_mono; [apply save_output_run|]. cbv beta. intros _ e' (c & ->). exists p, c, (mk_output (re_labels re) id).
  split; [done|]. split; [done|]. split; [done|]. split; [|done].
  intros i Hi. destruct (decide (i < length (ip_sets (ae_issp e)))) as [Hlt|Hge].
  - destruct (proj2 P2 (N.of_nat i)) as [V E]; [right; lia|]. pose proof (po_few _ Hp) as Hf1. pose proof (po_few _ P1) as Hf2.
    unfold iss_states in E. rewrite !not_singleton in E by lia. rewrite E. by apply Hin.
  - destruct P6 as [?|[-> _]]; [lia|]. pose proof (po_few _ P1) as Hf2. unfold iss_states in P4.
    rewrite not_singleton in P4 by lia. replace i with (length (ip_sets (ae_issp e))) by lia. by rewrite P4.
Qed.

Lemma build_output_run f leaves D P e id L :
  env_ok f leaves e → fits (f_statecount f) (length leaves) → leaves !! N.to_nat id = Some L → ae_outputs e = [] →
  pool_in P (ae_issp e) → at_most D P → (N.of_nat D < 1073741824)%N → (N.of_nat (f_statecount f) < 4294967296)%N →
  (∀ c Y, step_set f L c Y → P Y) →
  runs (build_output_from_cached_analysis id) e (λ _ e', env_ok f leaves e' ∧ ae_alloc e' = ae_alloc e ∧
    pool_extends (ae_issp e) (ae_issp e') ∧ pool_in P (ae_issp e') ∧ outputs_ok f L (ae_issp e') (ae_outputs e')).
Proof.
  intros He Hfit HL Ho Hin HD Hfew Hn HP. destruct (lookup_means _ _ _ _ _ _ (eo_rs _ _ _ He) HL) as (r & Hr & Hm).
  destruct Hm as (Hok & _ & _ & _ & Hed). pose proof Hok as [Hf Hdis].
  assert (∀ re c, re ∈ r → bs_get (re_labels re) c = true → step_set f L c (entry_ids (ae_to_sets e) re)) as Hstep.
  { intros re c [i Hi]%list_elem_of_lookup Hc. destruct (Forall_lookup_1 _ _ _ _ Hf Hi) as ((_ & _ & _ & Hle & Hne) & Hinc & _).
    split; [|split; [done|]].
    - intros E. apply (f_equal length) in E. unfold entry_ids in E. rewrite length_ids_at in E by done. cbn in E. lia.
    - intros t. by rewrite <-(entry_label_unique _ _ r i re c Hok Hi Hc), Hed. }
  unfold build_output_from_cached_analysis. do 2 run_step. cbn [compose]. apply runs_bind, (runs_the _ r); [done|].
  eapply runs_mono; [apply (runs_foldM _ (λ p _ e', env_ok f leaves e' ∧ ae_alloc e' = ae_alloc e ∧ ae_to_sets e' = ae_to_sets e ∧
    pool_extends (ae_issp e) (ae_issp e') ∧ pool_in P (ae_issp e') ∧ Forall2 (entry_output (ae_to_sets e) (ae_issp e')) p (ae_outputs e')) r [])|].
  - intros p re q [] e' Hpq (H1 & H2 & H3 & H4 & H5 & H6). cbn [app] in Hpq.
    assert (re ∈ r) as Hre by (rewrite Hpq; apply elem_of_app; right; left).
    assert (entry_fine (f_statecount f) (ae_to_sets e) re) as Hfine by (by apply (proj1 (Forall_forall _ _) Hf)).
    eapply runs_mono; [apply (output_entry_run (f_statecount f) D P); [apply H1|done|done|done|done|by rewrite H3|]|].
    + rewrite H3. destruct Hfine as [(_ & _ & (c & _ & Hc) & _) _]. by eapply HP, Hstep.
    + cbv beta. intros _ e2 (pl & c & o & -> & Q1 & Q2 & Q3 & Q4). rewrite H3 in Q4. cbn [ae_issp ae_outputs with_outputs with_caps with_issp].
      split; [by apply env_ok_pool|]. do 2 (split; [done|]). split; [by trans (ae_issp e')|]. split; [done|].
      apply Forall2_app; [|by constructor]. eapply Forall2_impl; [exact H6|]. intros. by eapply entry_output_extends.
  - rewrite Ho. by split.
  - cbn [app]. intros _ e' (H1 & H2 & H3 & H4 & H5 & H6). do 4 (split; [done|]).
    assert (∀ i o, ae_outputs e' !! i = Some o → ∃ re, r !! i = Some re ∧ entry_output (ae_to_sets e) (ae_issp e') re o) as Hout
      by (intros i o Hi; exact (Forall2_lookup_r _ _ _ _ _ H6 Hi)).
    assert (∀ o, o ∈ ae_outputs e' → ∃ re, re ∈ r ∧ entry_fine (f_statecount f) (ae_to_sets e) re ∧ entry_output (ae_to_sets e) (ae_issp e') re o) as Hin'.
    { intros o (i & Hi)%list_elem_of_lookup. destruct (Hout i o Hi) as (re & Hre & Hx). exists re.
      split; [apply list_elem_of_lookup; eauto|]. split; [exact (Forall_lookup_1 _ _ _ _ Hf Hre)|done]. }
    split.
    + apply Forall_forall. intros o (re & _ & [(Hw & _) _] & [-> _])%Hin'. done.
    + apply Forall_forall. intros o (re & _ & _ & (_ & ? & _))%Hin'. done.
    + apply Forall_forall. intros o (re & _ & [(_ & _ & (c & _ & Hc) & _) _] & [-> _])%Hin'. eauto.
    + intros o c (re & Hre & _ & (El & _ & ->))%Hin' Hc. rewrite El in Hc. by apply Hstep.
    + intros s c t Hs Hsct. destruct (proj2 (Hed c t)) as (re & [i Hi]%list_elem_of_lookup & Hc & _); [eauto|].
      destruct (Forall2_lookup_l _ _ _ _ _ H6 Hi) as (o & Ho' & (El & _)). exists o. rewrite El. split; [apply list_elem_of_lookup; eauto|done].
    + intros i j x y c Hx Hy Hcx Hcy. destruct (Hout i x Hx) as (re & Hre & (E1 & _)). destruct (Hout j y Hy) as (re' & Hre' & (E2 & _)).
      rewrite E1 in Hcx. rewrite E2 in Hcy. by eapply (Hdis i j re re' c).
Qed.

Lemma step_set_perm f L X c Y : L ≡ₚ X → step_set f L c Y ↔ step_set f X c Y.
Proof. intros HP. unfold step_set. by setoid_rewrite HP. Qed.

Lemma outputs_ok_perm f L X p outs : L ≡ₚ X → outputs_ok f L p outs → outputs_ok f X p outs.
Proof.
  intros HP [O1 O2 O3 O4 O5 O6]. split; try done.
  - intros o c Ho Hc. apply (step_set_perm f L X c _ HP). by apply O4.
  - intros s c t Hs. apply O5. by rewrite HP.
Qed.

Lemma pool_in_extends P p p' :
  pool_ok p → pool_ok p' → pool_extends p p' → length (ip_sets p') = length (ip_sets p) → pool_in P p → pool_in P p'.
Proof.
  intros Hp Hp' [_ Hx] El Hin i Hi. destruct (Hx (N.of_nat i)) as [_ E]; [right; lia|].
  pose proof (po_few _ Hp). unfold iss_states in E. rewrite !not_singleton in E by lia. rewrite E. apply Hin. lia.
Qed.

Lemma grow_pbufs_run n e :
  runs (grow_pbufs n) e (λ _ e', ∃ c, e' = with_caps c e ∧ n ≤ ac_pbuf_ceil c).
Proof.
  unfold grow_pbufs, runs. cbv zeta. destruct (_ <? n) eqn:E; split_bool.
  - rewrite f_realloc_total. eexists tt, _. split; [done|]. eexists. split; [done|]. cbn [ac_pbuf_ceil set_pbuf_ceil].
    apply double_to_ge; [|lia]. unfold DEF_PBUF_CEIL. destruct (_ =? 0) eqn:E0; split_bool; lia.
  - exists tt, e. split; [done|]. exists (ae_caps e). rewrite with_caps_id. split; [done|lia].
Qed.

Lemma env_ok_caps f leaves e c : env_ok f leaves e → env_ok f leaves (with_caps c e).
Proof. intros [E1 E2 E3 E4 E5 E6 E7 E8 E9 E10]. by split. Qed.

(** The analysis of a set [X] of states, from the sets [P] already known. *)
Lemma analyze_run f leaves D P e iss :
  fsm_wf f → env_ok f leaves e → iss_valid (ae_issp e) iss → Forall (live f) (iss_states (ae_issp e) iss) →
  pool_in P (ae_issp e) → at_most D P → (N.of_nat D < 1073741824)%N → (N.of_nat (f_statecount f) < RESULT_BIT)%N →
  fits (f_statecount f) (length leaves + 3 * length (iss_states (ae_issp e) iss)) → ae_outputs e = [] →
  (∀ c Y, step_set f (iss_states (ae_issp e) iss) c Y → P Y) →
  runs (analyze_closures__pairwise_grouping iss) e (λ _ e', ∃ leaves', env_ok f leaves' e' ∧
    length leaves' ≤ length leaves + 3 * length (iss_states (ae_issp e) iss) ∧ ae_alloc e' = ae_alloc e ∧
    pool_extends (ae_issp e) (ae_issp e') ∧ pool_in P (ae_issp e') ∧
    outputs_ok f (iss_states (ae_issp e) iss) (ae_issp e') (ae_outputs e')).
Proof.
  intros Hwf He Hv Hlive Hin HD HfewD Hn Hfit Ho HP. set (X := iss_states (ae_issp e) iss) in *.
  destruct (iss_states_ok _ _ (eo_pool _ _ _ He) Hv) as (Hne & Hinc & _). fold X in Hne, Hinc.
  unfold analyze_closures__pairwise_grouping. apply runs_bind, runs_puts.
  destruct (init_groups_run e) as (m & -> & _). cbn [snd]. apply runs_bind.
  destruct (get_state_set_spec (ae_issp e) iss (eo_pool _ _ _ He) Hv) as (ss & p & Eg & P1 & P2 & P3 & P4 & P5). fold X in P5.
  eexists ss, _. split; [unfold get_state_set; cbn [ae_issp with_caps]; rewrite Eg; done|]. cbv beta zeta.
  rewrite state_loop_elems, state_set_count_spec, P5. apply runs_bind.
  eapply runs_mono; [apply grow_pbufs_run|]. cbv beta. intros _ e1 (c & -> & Hc).
  set (e1 := with_caps c _).
  assert (env_ok f leaves e1) as He1.
  { unfold e1. apply env_ok_caps. change (with_issp p (with_caps ?c e)) with (with_outputs (ae_outputs e) (with_caps c (with_issp p e))).
    by apply env_ok_pool. }
  assert (pool_in P (ae_issp e1)) as Hin1 by (eapply (pool_in_extends P (ae_issp e)); try done; apply He).
  assert (ae_issp e1 = p ∧ ae_outputs e1 = [] ∧ ae_alloc e1 = ae_alloc e ∧ ac_pbuf_ceil (ae_caps e1) = ac_pbuf_ceil c)
    as (Ep & Eo & Ea & Ec) by done. clearbody e1.
  do 2 run_step. apply runs_bind, runs_asserts; [rewrite Ec; by apply Nat.leb_le|].
  assert (∀ l id L e2, env_ok f (leaves ++ l) e2 → length l ≤ 3 * length X → (leaves ++ l) !! N.to_nat id = Some L → L ≡ₚ X →
    same_env e1 e2 → runs (build_output_from_cached_analysis id) e2 (λ _ e', ∃ leaves', env_ok f leaves' e' ∧
    length leaves' ≤ length leaves + 3 * length X ∧ ae_alloc e' = ae_alloc e ∧
    pool_extends (ae_issp e) (ae_issp e') ∧ pool_in P (ae_issp e') ∧ outputs_ok f X (ae_issp e') (ae_outputs e'))) as Hbuild.
  { intros l id L e2 He2 Hl HL HPL (S1 & S2 & _ & S4). eapply runs_mono; [apply (build_output_run f (leaves ++ l) D P e2 id L)|]; try done.
    - eapply fits_le; [|exact Hfit]. rewrite length_app. lia.
    - by apply S4.
    - by rewrite S2.
    - unfold RESULT_BIT in Hn. lia.
    - intros d Y HY. apply (HP d). by apply (step_set_perm f L X).
    - cbv beta. intros _ e3 (H1 & H2 & H3 & H4 & H5). exists (leaves ++ l). split; [done|]. split; [rewrite length_app; lia|].
      split; [congruence|]. split; [|split; [done|by eapply outputs_ok_perm]]. rewrite S2, Ep in H3. by trans p. }
  destruct (length X =? 1) eqn:E1; split_bool.
  - destruct X as [|s [|]] eqn:EX; [done| |cbn in E1; lia]. clear E1. apply Forall_cons in Hlive as [Hs _].
    apply runs_bind, (runs_the _ s); [done|]. apply runs_bind, runs_asserts.
    { rewrite is_result_state; [done|]. unfold live in Hs. lia. }
    unfold analyze_single_state. do 2 run_step. rewrite (eo_fsm _ _ _ He1). apply runs_bind, runs_asserts; [by apply Nat.ltb_lt|].
    apply runs_bind. eapply runs_mono; [apply (single_result_run f leaves e1 s); try done; eapply fits_le; [|exact Hfit]; cbn; lia|].
    cbv beta. intros r e2 (l & He2 & Hl & Hr & S2). eapply Hbuild; [exact He2|cbn; lia|exact Hr|done|done].
  - assert (1 < length X) as H1 by (destruct X as [|? [|]]; cbn in *; [done|lia|lia]).
    apply runs_bind. eapply runs_mono; [apply (pairwise_run f X Hwf (increasing_NoDup _ Hinc) Hne Hn _ leaves X 0 [] e1 He1)|].
    + split; [lia|by left| |done|lia|by left]. exists ((λ s, [s]) <$> X), []. rewrite drop_0. split; [|split; [done|]].
      * apply Forall2_fmap_r. apply Forall_Forall2_diag. eapply Forall_impl; [exact Hlive|]. intros s Hs. by left.
      * cbn [concat app]. clear. induction X as [|x X IH]; [done|]. cbn. by rewrite IH.
    + by rewrite Ec.
    + cbn [length]. rewrite Nat.sub_0_r. exact Hfit.
    + unfold pairwise_fuel. lia.
    + intros _. rewrite Nat.sub_0_r. apply pairwise_fuel_step. lia.
    + cbn [length]. intros ids e2 (l & id & He2 & Hl & -> & Hid & (i & L & -> & Hi & HPL) & S2).
      apply runs_bind, runs_asserts; [done|]. apply runs_bind, (runs_the _ (N.lor i RESULT_BIT)); [done|].
      apply runs_bind, runs_asserts; [apply is_result_lor|]. do 2 run_step.
      assert (fits (f_statecount f) (length (leaves ++ l))) as Hfit2 by (eapply fits_le; [|exact Hfit]; rewrite length_app; lia).
      rewrite result_mask_lor by (by eapply fits_result). apply runs_bind, runs_asserts.
      { apply Nat.ltb_lt. cbn [compose]. rewrite (Forall2_length _ _ _ (eo_rs _ _ _ He2)). by eapply lookup_lt_Some. }
      eapply Hbuild; [exact He2|lia|exact Hi|done|done].
Qed.
End Lemmas.
