(* ===== verification/DetMap.v ===== *)
(** * The states of the result: src/libfsm/determinise.c

    A mapping is a state of the result: the interned set of states it stands
    for, its number and its edges. Mappings are allocated one by one and
    referred to by address from the buckets of a hash table (on the identifier
    of the set) and from the stack of mappings still to be analysed. The
    addresses are the indices of the list [mp_heap]. *)

From S2P Require Import Prelude EdgeSet Probe HashView InternedSet DetCache.

Definition DEF_MAP_BUCKET_CEIL : nat := 4.
Definition MAPPINGSTACK_DEF_CEIL : nat := 16.

Record mapping := mk_mapping { m_iss : N; m_dfastate : N; m_edges : edge_set_ptr }.

(** [count] is the length of the buckets; no bucket is a NULL array. *)
Record det_map := mk_map { mp_used : nat; mp_buckets : list (option nat); mp_heap : list mapping }.

Record mappingstack := mk_stack { sk_ceil : nat; sk_s : list nat }.

Definition is_null {A} (b : option A) : bool := match b with None => true | Some _ => false end.

Definition hash_iss (iss : N) : N := hash_id iss.

Section Ops.
Context `{allocator}.

(** One mapping moved to the larger table, where the loop stops one short of
    all the buckets; [None] where the assertion that a bucket was found fails. *)
Definition move_mapping (heap : list mapping) (nmask : nat) (acc : option (list (option nat))) (ob : option nat)
    : option (list (option nat)) :=
  nbuckets ← acc;
  match ob with
  | None => Some nbuckets
  | Some p =>
      m ← heap !! p;
      j ← first_free is_null nmask 0 (hash_iss (m_iss m)) nbuckets;
      Some (<[j := ob]> nbuckets)
  end.

Definition grow_map (al : fsm_alloc) (map : det_map) : option (bool * det_map) :=
  let nceil := 2 * length (mp_buckets map) in
  let nmask := nceil - 1 in
  if 0 <? nceil then
    if f_calloc al (N.of_nat nceil) 8 then
      nbuckets ← foldl (move_mapping (mp_heap map) nmask) (Some (replicate nceil None)) (mp_buckets map);
      Some (true, mk_map (mp_used map) nbuckets (mp_heap map))
    else Some (false, map)
  else None.

(** The first part of [map_add]: the first buckets, then a larger table when
    half of them are used. *)
Definition map_reserve (al : fsm_alloc) (map : det_map) : option (bool * det_map) :=
  '(ok, map) ←
    (if length (mp_buckets map) =? 0 then
       if mp_used map =? 0 then
         if f_calloc al (N.of_nat DEF_MAP_BUCKET_CEIL) 8 then
           Some (true, mk_map (mp_used map) (replicate DEF_MAP_BUCKET_CEIL None) (mp_heap map))
         else Some (false, map)
       else None
     else Some (true, map));
  if (ok : bool) then
    if mp_used map =? length (mp_buckets map) / 2 then grow_map al map else Some (true, map)
  else Some (false, map).

(** The address of the new mapping. *)
Definition map_add (al : fsm_alloc) (map : det_map) (dfastate : nat) (iss : N) : option (bool * det_map * nat) :=
  '(ok, map) ← map_reserve al map;
  if (ok : bool) then
    j ← first_free is_null (length (mp_buckets map)) 0 (hash_iss iss) (mp_buckets map);
    let p := length (mp_heap map) in
    if f_malloc al 24 then
      Some (true, mk_map (mp_used map + 1) (<[j := Some p]> (mp_buckets map))
        (mp_heap map ++ [mk_mapping iss (u32 (N.of_nat dfastate)) None]), p)
    else Some (false, map, 0)
  else Some (false, map, 0).

(** The mapping of a set, if there is one; the outer [None] is the assertion
    after the loop. *)
Fixpoint map_probe (n i : nat) (h : N) (map : det_map) (iss : N) : option (option nat) :=
  match n with
  | 0 => None
  | S n =>
      b ← mp_buckets map !! bucket_index h (length (mp_buckets map)) i;
      match b with
      | None => Some None
      | Some p =>
          m ← mp_heap map !! p;
          if (m_iss m =? iss)%N then Some (Some p) else map_probe n (i + 1) h map iss
      end
  end.

Definition map_find (map : det_map) (iss : N) : option (option nat) :=
  if length (mp_buckets map) =? 0 then Some None
  else map_probe (length (mp_buckets map)) 0 (hash_iss iss) map iss.

(** [map_first] and [map_next]: the addresses a loop over the map visits. *)
Definition map_iter (map : det_map) : list nat := omap id (mp_buckets map).

(** [&curr->edges] *)
Definition set_map_edges (map : det_map) (p : nat) (edges : edge_set_ptr) : det_map :=
  mk_map (mp_used map) (mp_buckets map)
    (alter (λ m, mk_mapping (m_iss m) (m_dfastate m) edges) p (mp_heap map)).

Definition stack_init (al : fsm_alloc) : option mappingstack :=
  if f_malloc al 32 then
    if f_malloc al (N.of_nat MAPPINGSTACK_DEF_CEIL * 8) then Some (mk_stack MAPPINGSTACK_DEF_CEIL []) else None
  else None.

(** The top of the stack is the last element. *)
Definition stack_push (al : fsm_alloc) (stack : mappingstack) (item : nat) : bool * mappingstack :=
  if length (sk_s stack) + 1 =? sk_ceil stack then
    let nceil := 2 * sk_ceil stack in
    if f_realloc al (N.of_nat nceil * 8) then (true, mk_stack nceil (sk_s stack ++ [item])) else (false, stack)
  else (true, mk_stack (sk_ceil stack) (sk_s stack ++ [item])).

Definition stack_pop (stack : mappingstack) : option (nat * mappingstack) :=
  item ← last (sk_s stack);
  Some (item, mk_stack (sk_ceil stack) (removelast (sk_s stack))).
End Ops.

(** ** Meaning and invariant *)

Definition map_entry (isss : list N) (b : option nat) : option (N * nat) :=
  match b with None => None | Some p => Some (default 0%N (isss !! p), p) end.

Definition map_isss (map : det_map) : list N := m_iss <$> mp_heap map.

Record map_ok (map : det_map) : Prop := {
  mo_table : mp_buckets map = [] ∨ table_ok (map_entry (map_isss map) <$> mp_buckets map);
  mo_entries : length (entries (map_entry (map_isss map) <$> mp_buckets map)) = mp_used map;
  mo_half : mp_used map ≤ length (mp_buckets map) / 2;
  mo_size : mp_buckets map = [] ∨ 4 ≤ length (mp_buckets map);
  mo_heap : ∀ p, Some p ∈ mp_buckets map ↔ p < length (mp_heap map);
  mo_used : mp_used map = length (mp_heap map);
}.

Lemma map_ok_empty : map_ok (mk_map 0 [] []).
Proof. split; cbn; try lia; [by left|by left|]. intros p. split; [by intros ?%not_elem_of_nil|lia]. Qed.

Lemma map_entry_None isss b : is_null b = true ↔ map_entry isss b = None.
Proof. by destruct b. Qed.

(** ** A loop that stops one short *)

Lemma first_free_found {A K V} `{!EqDecision K, !Hashed K} (entry : A → option (K * V)) (free : A → bool) (key : K) buckets n : ∀ i d,
  (∀ b, free b = true ↔ entry b = None) → pow2_size (entry <$> buckets) →
  d < n → (entry <$> buckets) !! slot (entry <$> buckets) key (i + d) = Some None →
  is_Some (first_free free n i (hash_key key) buckets).
Proof.
  induction n as [|n IH]; intros i d Hf Hp Hd Hs; [lia|]. cbn [first_free].
  pose proof (slot_in _ key i Hp) as Hlt. rewrite length_fmap in Hlt.
  change (slot (entry <$> buckets) key i) with (bucket_index (hash_key key) (length (entry <$> buckets)) i) in *.
  rewrite length_fmap in *. destruct (lookup_lt_is_Some_2 _ _ Hlt) as [b Hb]. rewrite Hb. destruct (free b) eqn:Eb; [by eexists|].
  destruct d as [|d].
  - exfalso. rewrite Nat.add_0_r in Hs. rewrite list_lookup_fmap in Hs.
    change (slot (entry <$> buckets) key i) with (bucket_index (hash_key key) (length (entry <$> buckets)) i) in Hs.
    rewrite length_fmap, Hb in Hs. cbn in Hs. injection Hs as Hs. apply Hf in Hs. congruence.
  - apply (IH (i + 1) d); [done|done|lia|]. by replace (i + 1 + d) with (i + S d) by lia.
Qed.

Lemma first_free_more {A} (free : A → bool) h buckets n : ∀ i j,
  first_free free n i h buckets = Some j → first_free free (S n) i h buckets = Some j.
Proof.
  induction n as [|n IH]; intros i j; [done|]. remember (S n) as k eqn:Ek. cbn [first_free]. subst k. cbn [first_free].
  destruct (buckets !! _) as [b|]; [|done]. destruct (free b); [done|]. apply IH.
Qed.

Lemma entries_two_empty {K V} (t : list (option (K * V))) :
  length (entries t) + 2 ≤ length t → ∃ i j, i ≠ j ∧ t !! i = Some None ∧ t !! j = Some None.
Proof.
  induction t as [|b t IH]; [cbn; lia|]. rewrite entries_cons. destruct b as [kv|]; cbn [length]; intros Hl.
  - destruct IH as (i & j & Hij & Hi & Hj); [lia|]. exists (S i), (S j). split; [lia|done].
  - destruct (entries_empty_slot t) as [j Hj]; [lia|]. exists 0, (S j). done.
Qed.

(** With two empty buckets, one probe fewer is enough. *)
Lemma first_free_short {A K V} `{!EqDecision K, !Hashed K} (entry : A → option (K * V)) (free : A → bool) (key : K) buckets n :
  (∀ b, free b = true ↔ entry b = None) → pow2_size (entry <$> buckets) →
  length (entries (entry <$> buckets)) + 2 ≤ length buckets → S n = length buckets →
  ∃ j, first_free free n 0 (hash_key key) buckets = Some j ∧ first_free free (length buckets) 0 (hash_key key) buckets = Some j.
Proof.
  intros Hf Hp Hle Hn. set (t := entry <$> buckets) in *. assert (length t = length buckets) as Hl by (by unfold t; rewrite length_fmap).
  destruct (entries_two_empty t) as (i1 & i2 & Hne & Hi1 & Hi2); [lia|].
  destruct (slot_onto t key i1 Hp (lookup_lt_Some _ _ _ Hi1)) as (d1 & Hd1 & E1).
  destruct (slot_onto t key i2 Hp (lookup_lt_Some _ _ _ Hi2)) as (d2 & Hd2 & E2).
  assert (d1 ≠ d2) as Hd by (intros ->; congruence).
  assert (is_Some (first_free free n 0 (hash_key key) buckets)) as [j Hj].
  { destruct (decide (d1 < d2)).
    - apply (first_free_found entry free key buckets n 0 d1); [done|done|lia|]. cbn [Nat.add]. by fold t; rewrite E1.
    - apply (first_free_found entry free key buckets n 0 d2); [done|done|lia|]. cbn [Nat.add]. by fold t; rewrite E2. }
  exists j. split; [done|]. rewrite <-Hn. by apply first_free_more.
Qed.

Section Lemmas.
Context `{allocator, !alloc_total}.

Lemma map_entry_key heap p (m : mapping) :
  heap !! p = Some m → map_entry (m_iss <$> heap) (Some p) = Some (m_iss m, p).
Proof. intros Hm. cbn [map_entry]. by rewrite list_lookup_fmap, Hm. Qed.

(** Moving the mappings of [l], with room for all of them. *)
Lemma move_mapping_view heap nmask l : ∀ nb,
  (∀ p, Some p ∈ l → p < length heap) → pow2_size (map_entry (m_iss <$> heap) <$> nb) → S nmask = length nb →
  length (entries (map_entry (m_iss <$> heap) <$> nb)) + length (entries (map_entry (m_iss <$> heap) <$> l)) + 2 ≤ length nb →
  foldl (move_mapping heap nmask) (Some nb) l = Some (foldl (view_move (map_entry (m_iss <$> heap)) is_null) nb l).
Proof.
  induction l as [|ob l IH]; intros nb Hl Hp Hn Hroom; cbn [foldl]; [done|].
  cbn [fmap list_fmap] in Hroom. rewrite entries_cons in Hroom. destruct ob as [p|].
  - destruct (lookup_lt_is_Some_2 heap p) as [m Hm]; [apply Hl; left|]. rewrite (map_entry_key heap p m Hm) in Hroom. cbn [length] in Hroom.
    destruct (first_free_short (map_entry (m_iss <$> heap)) is_null (m_iss m) nb nmask (map_entry_None _) Hp) as (j & Ej & Ej'); [lia|done|].
    assert (move_mapping heap nmask (Some nb) (Some p) = Some (<[j := Some p]> nb)) as ->.
    { unfold move_mapping. cbn [mbind option_bind]. rewrite Hm. cbn [mbind option_bind]. unfold hash_iss.
      change (hash_id (m_iss m)) with (hash_key (m_iss m)). by rewrite Ej. }
    assert (view_move (map_entry (m_iss <$> heap)) is_null nb (Some p) = <[j := Some p]> nb) as ->.
    { unfold view_move. rewrite (map_entry_key heap p m Hm), Ej'. done. }
    apply IH.
    + intros q Hq. apply Hl. by right.
    + unfold pow2_size in *. rewrite length_fmap, length_insert in *. done.
    + by rewrite length_insert.
    + rewrite length_insert. rewrite list_fmap_insert.
      destruct (lookup_lt_is_Some_2 (map_entry (m_iss <$> heap) <$> nb) j) as [c Hc].
      { rewrite length_fmap. clear -Ej. revert Ej. generalize 0. induction nmask as [|k IHk]; intros i; cbn [first_free]; [done|].
        destruct (nb !! _) as [b|] eqn:Eb; [|done]. destruct (is_null b); [intros [= <-]; by eapply lookup_lt_Some|apply IHk]. }
      pose proof (length_entries_insert _ j (map_entry (m_iss <$> heap) (Some p)) c Hc) as E. rewrite (map_entry_key heap p m Hm) in *.
      cbn [occupied] in E. destruct c; cbn [occupied] in E; lia.
  - cbn [move_mapping mbind option_bind]. change (view_move (map_entry (m_iss <$> heap)) is_null nb None) with nb.
    cbn [map_entry] in Hroom. apply IH; [|done|done|done]. intros q Hq. apply Hl. by right.
Qed.

Lemma grow_map_spec al map :
  map_ok map → 4 ≤ length (mp_buckets map) → (N.of_nat (mp_used map) < 1073741824)%N →
  mp_used map = length (mp_buckets map) / 2 →
  ∃ bs, grow_map al map = Some (true, mk_map (mp_used map) bs (mp_heap map)) ∧
    map_ok (mk_map (mp_used map) bs (mp_heap map)) ∧ mp_used map < length bs / 2 ∧ 4 ≤ length bs.
Proof.
  intros Hok H4 Hfew Hused. pose proof Hok as [M1 M2 M3 M4 M5 M6]. unfold grow_map. cbv zeta.
  destruct M1 as [E|Htab]; [rewrite E in H4; cbn in H4; lia|]. pose proof Htab as [(m & Hm & Hl) _]. rewrite length_fmap in Hl.
  pose proof (Nat.div_mod_eq (length (mp_buckets map)) 2) as Hdm. pose proof (Nat.mod_upper_bound (length (mp_buckets map)) 2 ltac:(lia)) as Hmu.
  assert (2 * length (mp_buckets map) = 2 ^ S m) as Epow by (rewrite Nat.pow_succ_r'; lia).
  assert (S m ≤ 32) as Hm32.
  { destruct (decide (S m ≤ 32)); [done|]. replace m with 32 in Hl by lia.
    assert (N.of_nat (length (mp_buckets map)) = 4294967296)%N by (rewrite Hl, Nat2N.inj_pow; reflexivity). lia. }
  rewrite (proj2 (Nat.ltb_lt _ _)) by lia. rewrite f_calloc_total.
  rewrite move_mapping_view.
  2:{ intros p Hp. by apply M5. }
  2:{ exists (S m). rewrite length_fmap, length_replicate. done. }
  2:{ rewrite length_replicate. lia. }
  2:{ rewrite fmap_replicate, length_replicate. cbn [map_entry]. rewrite entries_replicate. fold (map_isss map). rewrite M2. cbn. lia. }
  cbn [mbind option_bind]. fold (map_isss map). rewrite Epow.
  destruct (view_grow (map_entry (map_isss map)) is_null (map_entry_None _) (mp_buckets map) None (S m) eq_refl) as (V1 & V2 & V3 & V4 & V5).
  { by apply NoDup_keys. }
  { done. }
  { rewrite M2. lia. }
  eexists. split; [done|]. split; [|rewrite V2, <-Epow, Nat.mul_comm, Nat.div_mul by done; lia].
  split; cbn [mp_buckets mp_used mp_heap]; unfold map_isss in *; cbn [mp_heap] in *.
  - by right.
  - by rewrite V3, M2.
  - rewrite V2, <-Epow, Nat.mul_comm, Nat.div_mul by done. lia.
  - right. rewrite V2. lia.
  - intros p. rewrite <-M5. pose proof (V4 (default 0%N ((m_iss <$> mp_heap map) !! p)) p) as Hv.
    rewrite !list_elem_of_fmap in Hv. split.
    + intros Hin. destruct (proj1 Hv) as ([q|] & Eq & Hq); [exists (Some p); done| |done]. cbn in Eq. injection Eq as _ ->. done.
    + intros Hin. destruct (proj2 Hv) as ([q|] & Eq & Hq); [exists (Some p); done| |done]. cbn in Eq. injection Eq as _ ->. done.
  - done.
Qed.

Lemma map_reserve_spec al map :
  map_ok map → (N.of_nat (mp_used map) < 1073741824)%N →
  ∃ bs, map_reserve al map = Some (true, mk_map (mp_used map) bs (mp_heap map)) ∧
    map_ok (mk_map (mp_used map) bs (mp_heap map)) ∧ mp_used map < length bs / 2 ∧ 4 ≤ length bs.
Proof.
  intros Hok Hfew. unfold map_reserve. pose proof Hok as [M1 M2 M3 M4 M5 M6].
  destruct (length (mp_buckets map) =? 0) eqn:E0; split_bool.
  - apply length_zero_iff_nil in E0. assert (mp_used map = 0) as Eu by (rewrite E0 in M3; cbn in M3; lia).
    rewrite Eu, f_calloc_total. cbn [Nat.eqb mbind option_bind mp_used mp_buckets]. exists (replicate DEF_MAP_BUCKET_CEIL None).
    cbn [DEF_MAP_BUCKET_CEIL length replicate]. split; [done|]. split; [|cbn; lia]. assert (mp_heap map = []) as Eh by (destruct (mp_heap map); [done|cbn in M6; lia]).
    rewrite Eh. split; cbn [mp_buckets mp_used mp_heap]; [right; change (table_ok (replicate (2 ^ 2) (@None (N * nat)))); apply table_ok_empty; lia|done|cbn; lia|right; cbn; lia| |done].
    intros p. split; [|cbn; lia]. intros Hin. exfalso. cbn in Hin. rewrite !elem_of_cons in Hin. destruct Hin as [|[|[|[|Hin]]]]; try done.
    by apply not_elem_of_nil in Hin.
  - destruct M4 as [E|H4]; [rewrite E in E0; cbn in E0; lia|]. cbn [mbind option_bind].
    destruct (mp_used map =? length (mp_buckets map) / 2) eqn:Eh; split_bool.
    + by apply grow_map_spec.
    + exists (mp_buckets map). destruct map as [u bs hp]. cbn in *. split; [done|]. split; [done|]. lia.
Qed.

Lemma map_entry_app isss x (bs : list (option nat)) :
  (∀ p, Some p ∈ bs → p < length isss) → map_entry (isss ++ [x]) <$> bs = map_entry isss <$> bs.
Proof.
  intros Hp. apply list_fmap_ext. intros i b Hb. destruct b as [p|]; [|done]. cbn [map_entry].
  rewrite lookup_app_l; [done|]. apply Hp, list_elem_of_lookup. eauto.
Qed.

Lemma map_add_spec al map dfastate iss :
  map_ok map → iss ∉ map_isss map → (N.of_nat (mp_used map) < 1073741824)%N →
  ∃ map', map_add al map dfastate iss = Some (true, map', length (mp_heap map)) ∧ map_ok map' ∧
    mp_heap map' = mp_heap map ++ [mk_mapping iss (u32 (N.of_nat dfastate)) None].
Proof.
  intros Hok Hno Hfew. destruct (map_reserve_spec al map Hok Hfew) as (bs & Er & Hok1 & Hlt & H4). unfold map_add. rewrite Er.
  cbn [mbind option_bind mp_buckets mp_used mp_heap]. pose proof Hok1 as [M1 M2 M3 M4 M5 M6]. unfold map_isss in *. cbn [mp_buckets mp_used mp_heap] in *.
  destruct M1 as [E|Htab]; [rewrite E in H4; cbn in H4; lia|].
  destruct (first_free_probe (map_entry (m_iss <$> mp_heap map)) is_null (map_entry_None _) bs iss Htab) as (j & Ef & Ep & Hj).
  { intros p Hp. apply list_elem_of_fmap in Hp as ([q|] & Eq & Hq); [|done]. cbn [map_entry] in Eq. injection Eq as Eq ->.
    apply M5 in Hq. destruct (lookup_lt_is_Some_2 _ _ Hq) as [m Hm]. apply Hno. rewrite list_lookup_fmap, Hm in Eq. cbn in Eq. subst iss.
    apply list_elem_of_fmap. exists m. split; [done|]. apply list_elem_of_lookup. eauto. }
  { rewrite M2. pose proof (Nat.div_mod_eq (length bs) 2). lia. }
  change (hash_iss iss) with (hash_key iss). rewrite Ef. cbn [mbind option_bind]. rewrite f_malloc_total.
  eexists. split; [done|]. split; [|done].
  set (isss := m_iss <$> mp_heap map) in *. assert (length isss = length (mp_heap map)) as Elen by (unfold isss; by rewrite length_fmap).
  assert (map_entry (isss ++ [iss]) <$> bs = map_entry isss <$> bs) as Eapp by (apply map_entry_app; intros p Hp; rewrite Elen; by apply M5).
  rewrite <-Eapp in Htab, Ep, M2.
  destruct (view_insert (map_entry (isss ++ [iss])) bs iss (length (mp_heap map)) j (Some (length (mp_heap map))) Htab Ep) as (I1 & I2 & I3).
  { cbn [map_entry]. rewrite <-Elen, lookup_app_r, Nat.sub_diag by lia. done. }
  assert (bs !! j = Some None) as Hjn.
  { pose proof (probe_spec _ iss Htab) as Hs. rewrite Ep in Hs. destruct Hs as (_ & _ & _ & _ & Hs). rewrite list_lookup_fmap in Hs.
    destruct (bs !! j) as [[q|]|]; done. }
  split; cbn [mp_buckets mp_used mp_heap]; unfold map_isss; cbn [mp_heap]; rewrite ?fmap_app; cbn [fmap list_fmap m_iss]; fold isss.
  - by right.
  - rewrite I2, M2. lia.
  - rewrite length_insert. lia.
  - right. by rewrite length_insert.
  - intros p. rewrite length_app. cbn [length]. rewrite list_elem_of_lookup. split.
    + intros [i Hi]. destruct (decide (i = j)) as [->|Hne].
      * rewrite list_lookup_insert_eq in Hi by done. injection Hi as <-. lia.
      * rewrite list_lookup_insert_ne in Hi by done. assert (p < length (mp_heap map)); [|lia]. apply M5, list_elem_of_lookup. eauto.
    + intros Hp. destruct (decide (p = length (mp_heap map))) as [->|Hne]; [exists j; by rewrite list_lookup_insert_eq|].
      assert (Some p ∈ bs) as [i Hi]%list_elem_of_lookup by (apply M5; lia). exists i. rewrite list_lookup_insert_ne; [done|]. intros ->. congruence.
  - rewrite length_app. cbn [length]. lia.
Qed.

Lemma map_probe_loop map iss n : ∀ i,
  map_ok map → table_ok (map_entry (map_isss map) <$> mp_buckets map) →
  map_probe n i (hash_iss iss) map iss =
  match probe_loop n i (map_entry (map_isss map) <$> mp_buckets map) iss with Some (_, o) => Some o | None => None end.
Proof.
  induction n as [|n IH]; intros i Hok Htab; cbn [map_probe probe_loop]; [done|].
  pose proof (slot_lt _ iss i Htab) as Hlt.
  change (slot (map_entry (map_isss map) <$> mp_buckets map) iss i) with
    (bucket_index (hash_iss iss) (length (map_entry (map_isss map) <$> mp_buckets map)) i) in *.
  rewrite length_fmap in *. rewrite list_lookup_fmap. destruct (lookup_lt_is_Some_2 _ _ Hlt) as [b Hb]. rewrite Hb.
  cbn [fmap option_fmap option_map mbind option_bind]. destruct b as [p|]; cbn [map_entry]; [|done].
  assert (p < length (mp_heap map)) as Hp by (apply (mo_heap _ Hok), list_elem_of_lookup; eauto).
  destruct (lookup_lt_is_Some_2 _ _ Hp) as [m Hm].
  assert (map_isss map !! p = Some (m_iss m)) as -> by (unfold map_isss; by rewrite list_lookup_fmap, Hm). rewrite Hm.
  cbn [fmap option_fmap option_map mbind option_bind default from_option id].
  destruct (m_iss m =? iss)%N eqn:E; split_bool.
  - by rewrite bool_decide_eq_true_2.
  - rewrite bool_decide_eq_false_2 by done. by apply IH.
Qed.

Lemma map_find_spec map iss :
  map_ok map → ∃ o, map_find map iss = Some o ∧
    match o with Some p => ∃ m, mp_heap map !! p = Some m ∧ m_iss m = iss | None => iss ∉ map_isss map end.
Proof.
  intros Hok. pose proof Hok as [M1 M2 M3 M4 M5 M6]. unfold map_find. destruct (length (mp_buckets map) =? 0) eqn:E0; split_bool.
  { exists None. split; [done|]. unfold map_isss. destruct (mp_heap map) as [|m hp]; [apply not_elem_of_nil|].
    rewrite E0 in M3. cbn in M3, M6. lia. }
  destruct M1 as [E|Htab]; [rewrite E in E0; done|]. rewrite map_probe_loop by done.
  rewrite <-(length_fmap (map_entry (map_isss map))). fold (probe (map_entry (map_isss map) <$> mp_buckets map) iss).
  destruct (entries_empty_slot (map_entry (map_isss map) <$> mp_buckets map)) as [i Hi].
  { rewrite M2, length_fmap. pose proof (Nat.div_mod_eq (length (mp_buckets map)) 2). lia. }
  destruct (probe_total _ iss i Htab Hi) as [[j o] Hp]. rewrite Hp. exists o. split; [done|].
  pose proof (probe_spec _ iss Htab) as Hs. rewrite Hp in Hs. destruct Hs as (_ & _ & _ & _ & Hj). destruct o as [p|].
  - rewrite list_lookup_fmap in Hj. destruct (mp_buckets map !! j) as [[q|]|] eqn:Eb; [|done|done].
    cbn [fmap option_fmap option_map map_entry] in Hj. injection Hj as Hj ->.
    assert (p < length (mp_heap map)) as Hlt by (apply M5, list_elem_of_lookup; eauto). destruct (lookup_lt_is_Some_2 _ _ Hlt) as [m Hm].
    exists m. split; [done|]. unfold map_isss in Hj. by rewrite list_lookup_fmap, Hm in Hj.
  - intros (m & -> & [p Hm]%list_elem_of_lookup)%list_elem_of_fmap. apply (probe_fresh _ _ _ p Htab Hp).
    apply list_elem_of_fmap. exists (Some p). split; [|apply M5; by eapply lookup_lt_Some].
    unfold map_isss. by rewrite (map_entry_key _ p m Hm).
Qed.

Lemma map_ok_edges map p edges : map_ok map → map_ok (set_map_edges map p edges).
Proof.
  intros [M1 M2 M3 M4 M5 M6].
  assert (map_isss (set_map_edges map p edges) = map_isss map) as E.
  { unfold map_isss, set_map_edges. cbn [mp_heap]. apply list_eq. intros i. rewrite !list_lookup_fmap.
    destruct (decide (i = p)) as [->|Hne]; [rewrite list_lookup_alter_eq|by rewrite list_lookup_alter_ne]. by destruct (mp_heap map !! p). }
  split; rewrite ?E; try done; unfold set_map_edges; cbn [mp_heap mp_buckets mp_used]; by rewrite length_alter.
Qed.

(** A loop over the map visits every mapping once. *)
Lemma map_iter_spec map : map_ok map → map_iter map ≡ₚ seq 0 (length (mp_heap map)).
Proof.
  intros Hok. pose proof Hok as [M1 M2 M3 M4 M5 M6]. unfold map_iter.
  assert ((entries (map_entry (map_isss map) <$> mp_buckets map)).*2 = omap id (mp_buckets map)) as E.
  { clear. induction (mp_buckets map) as [|[p|] l IH]; [done| |]; cbn [fmap list_fmap]; rewrite entries_cons; cbn [map_entry]; cbn; by rewrite <-?IH. }
  apply submseteq_length_Permutation; [apply NoDup_submseteq|].
  - rewrite <-E. destruct M1 as [->|Htab]; [constructor|].
    apply (NoDup_fmap_1 (λ p, default 0%N (map_isss map !! p))).
    assert ((λ p, default 0%N (map_isss map !! p)) <$> (entries (map_entry (map_isss map) <$> mp_buckets map)).*2 =
      (entries (map_entry (map_isss map) <$> mp_buckets map)).*1) as ->; [|by apply NoDup_keys].
    clear. induction (mp_buckets map) as [|[p|] l IH]; [done| |]; cbn [fmap list_fmap]; rewrite entries_cons; cbn [map_entry]; cbn; by rewrite <-?IH.
  - intros p Hp. apply elem_of_seq. apply list_elem_of_omap in Hp as ([q|] & Hq & Eq); [|done]. cbn in Eq. injection Eq as ->.
    apply M5 in Hq. lia.
  - rewrite length_seq, <-E, length_fmap, M2. lia.
Qed.

Lemma stack_push_total al stack item : ∃ ceil, stack_push al stack item = (true, mk_stack ceil (sk_s stack ++ [item])).
Proof. unfold stack_push. rewrite f_realloc_total. destruct (_ =? _); by eexists. Qed.

Lemma stack_pop_spec stack :
  match stack_pop stack with
  | Some (item, stack') => sk_s stack = sk_s stack' ++ [item]
  | None => sk_s stack = []
  end.
Proof.
  unfold stack_pop. destruct (sk_s stack) as [|x l] eqn:E using rev_ind; [done|]. rewrite last_snoc. cbn. by rewrite removelast_last.
Qed.
End Lemmas.
