(* ===== verification/Determinise.v ===== *)
(** * Determinisation: src/libfsm/determinise.c

    [fsm_determinise_with_config]: the subset construction. From the set of the
    start state, every set of states that is reached gets a mapping; the sets
    still to be analysed are on a stack. Then the automaton is built from the
    mappings, and the end ids, the capture actions and the eager outputs are
    carried over. [endids.c:fsm_endid_carry] is here too. *)

From S2P Require Import Prelude StateSet Bits EdgeSet EdgeIter Probe Endids EagerOutput Fsm Pred Capture Epsilons.
From S2P Require Import InternedSet DetCache DetAnalysis DetMap.

Inductive fsm_determinise_with_config_res :=
  | FSM_DETERMINISE_WITH_CONFIG_OK
  | FSM_DETERMINISE_WITH_CONFIG_STATE_LIMIT_REACHED
  | FSM_DETERMINISE_WITH_CONFIG_ERRNO.

Abbreviation det_res := fsm_determinise_with_config_res.

(** What the main loop works on. *)
Record det_state := mk_det {
  dt_env : analyze_closures_env;
  dt_map : det_map;
  dt_stack : mappingstack;
  dfacount : nat;
}.

Definition with_map (m : det_map) (st : det_state) : det_state := mk_det (dt_env st) m (dt_stack st) (dfacount st).
Definition with_env (e : analyze_closures_env) (st : det_state) : det_state := mk_det e (dt_map st) (dt_stack st) (dfacount st).
Definition with_stack (s : mappingstack) (st : det_state) : det_state := mk_det (dt_env st) (dt_map st) s (dfacount st).

Section Ops.
Context `{allocator}.

(** ** The main loop *)

(** The mapping for an interned set, made and pushed if it is new; an early end
    of the function is on the left. *)
Definition find_mapping (al : fsm_alloc) (state_limit : N) (st : det_state) (iss : N) : option (det_res + nat * det_state) :=
  found ← map_find (dt_map st) iss;
  match found with
  | Some p =>
      m ← mp_heap (dt_map st) !! p;
      if (m_dfastate m <? N.of_nat (dfacount st))%N then Some (inr (p, st)) else None
  | None =>
      if negb (state_limit =? 0)%N && (state_limit <? N.of_nat (dfacount st))%N then
        Some (inl FSM_DETERMINISE_WITH_CONFIG_STATE_LIMIT_REACHED)
      else
        '(ok, map, p) ← map_add al (dt_map st) (dfacount st) iss;
        if (ok : bool) then
          let '(ok, stack) := stack_push al (dt_stack st) p in
          if (ok : bool) then Some (inr (p, mk_det (dt_env st) map stack (dfacount st + 1)))
          else Some (inl FSM_DETERMINISE_WITH_CONFIG_ERRNO)
        else Some (inl FSM_DETERMINISE_WITH_CONFIG_ERRNO)
  end.

Definition add_output (al : fsm_alloc) (state_limit : N) (curr : nat) (st : det_state) (output : ac_output)
    : option (det_res + det_state) :=
  r ← find_mapping al state_limit st (o_iss output);
  match r with
  | inl res => Some (inl res)
  | inr (p, st) =>
      m ← mp_heap (dt_map st) !! p;
      c ← mp_heap (dt_map st) !! curr;
      let '(ok, edges) := edge_set_add_bulk (m_edges c) al (o_labels output) (u32 (m_dfastate m)) in
      if (ok : bool) then Some (inr (with_map (set_map_edges (dt_map st) curr edges) st))
      else Some (inl FSM_DETERMINISE_WITH_CONFIG_ERRNO)
  end.

Fixpoint add_outputs (al : fsm_alloc) (state_limit : N) (curr : nat) (st : det_state) (outputs : list ac_output)
    : option (det_res + det_state) :=
  match outputs with
  | [] => Some (inr st)
  | output :: outputs =>
      r ← add_output al state_limit curr st output;
      match r with
      | inl res => Some (inl res)
      | inr st => add_outputs al state_limit curr st outputs
      end
  end.

(** The body of the loop for one mapping. *)
Definition det_step (al : fsm_alloc) (state_limit : N) (curr : nat) (st : det_state) : option (det_res + det_state) :=
  m ← mp_heap (dt_map st) !! curr;
  '(ok, env) ← analyze_closures__pairwise_grouping (m_iss m) (dt_env st);
  match ok with
  | None => Some (inl FSM_DETERMINISE_WITH_CONFIG_ERRNO)
  | Some _ =>
      let '(ok, edges) := edge_set_advise_growth (m_edges m) al (length (ae_outputs env)) in
      if (ok : bool) then
        let st := with_env env (with_map (set_map_edges (dt_map st) curr edges) st) in
        r ← add_outputs al state_limit curr st (ae_outputs env);
        match r with
        | inl res => Some (inl res)
        | inr st => Some (inr (with_env (with_outputs [] (dt_env st)) st))
        end
      else Some (inl FSM_DETERMINISE_WITH_CONFIG_ERRNO)
  end.

Fixpoint det_loop (fuel : nat) (al : fsm_alloc) (state_limit : N) (curr : nat) (st : det_state)
    : option (det_res + det_state) :=
  match fuel with
  | 0 => None
  | S fuel =>
      r ← det_step al state_limit curr st;
      match r with
      | inl res => Some (inl res)
      | inr st =>
          match stack_pop (dt_stack st) with
          | None => Some (inr st)
          | Some (curr, stack) => det_loop fuel al state_limit curr (with_stack stack st)
          end
      end
  end.

(** ** End ids *)

Definition carry_iter_cb (al : fsm_alloc) (dst_state : N) (state id : N) (env : option (bool * endid_info))
    : bool * option (bool * endid_info) :=
  match env with
  | None => (false, None)
  | Some (ok, ei) =>
      match fsm_endid_set al ei dst_state id with
      | None => (false, None)
      | Some (true, ei) => (true, Some (ok, ei))
      | Some (false, ei) => (false, Some (false, ei))
      end
  end.

Fixpoint endid_carry_loop (l : list N) (src_fsm dst_fsm : fsm) (dst_state : N) : option (bool * fsm) :=
  match l with
  | [] => Some (true, dst_fsm)
  | s :: l =>
      if fsm_isend src_fsm s then
        env ← fsm_endid_iter_state (f_endid_info src_fsm) s (carry_iter_cb (f_alloc dst_fsm) dst_state)
          (Some (true, f_endid_info dst_fsm));
        '(ok, ei) ← env;
        let dst_fsm := with_endid_info dst_fsm ei in
        if (ok : bool) then endid_carry_loop l src_fsm dst_fsm dst_state else Some (false, dst_fsm)
      else endid_carry_loop l src_fsm dst_fsm dst_state
  end.

Definition fsm_endid_carry (src_fsm : fsm) (src_set : state_set) (dst_fsm : fsm) (dst_state : N) : option (bool * fsm) :=
  endid_carry_loop (state_loop src_set) src_fsm dst_fsm dst_state.

(** ** The automaton from the mappings *)

(** One mapping: its edges, whether it is an end state, its end ids. The edges
    move to the automaton: the pointer of the mapping is not used again. *)
Definition install_mapping (nfa : fsm) (m : mapping) (dfa : fsm) (issp : interned_state_set_pool)
    : option (bool * fsm * interned_state_set_pool) :=
  let d := m_dfastate m in
  if (d <? N.of_nat (f_statecount dfa))%N && is_null (st_edges (get_state dfa d)) then
    let dfa := upd_state dfa d (set_edges (m_edges m)) in
    '(ss, issp) ← interned_state_set_get_state_set issp (m_iss m);
    if state_set_has ss (fsm_isend nfa) then
      let dfa := fsm_setend dfa (u32 d) true in
      '(ok, dfa) ← fsm_endid_carry nfa ss dfa (u32 d);
      Some (ok, dfa, issp)
    else Some (true, dfa, issp)
  else None.

Fixpoint install_mappings (l : list nat) (nfa : fsm) (map : det_map) (dfa : fsm) (issp : interned_state_set_pool)
    : option (bool * fsm * interned_state_set_pool) :=
  match l with
  | [] => Some (true, dfa, issp)
  | p :: l =>
      m ← mp_heap map !! p;
      '(ok, dfa, issp) ← install_mapping nfa m dfa issp;
      if (ok : bool) then install_mappings l nfa map dfa issp else Some (false, dfa, issp)
  end.

(** ** Eager outputs *)

Definition remap_eager_output_cb (dst_state : N) (state id : N) (env : option (bool * fsm)) : bool * option (bool * fsm) :=
  match env with
  | None => (false, None)
  | Some (ok, dst) =>
      match eager_set dst dst_state id with
      | None => (false, None)
      | Some (true, dst) => (true, Some (ok, dst))
      | Some (false, dst) => (false, Some (false, dst))
      end
  end.

Fixpoint remap_eager_states (l : list N) (src_nfa : fsm) (dst_state : N) (dst : fsm) : option (bool * fsm) :=
  match l with
  | [] => Some (true, dst)
  | s :: l =>
      '(ok, dst) ← fsm_eager_output_iter_state (f_eager_output_info src_nfa) s (remap_eager_output_cb dst_state) (Some (true, dst));
      if (ok : bool) then remap_eager_states l src_nfa dst_state dst else Some (false, dst)
  end.

Fixpoint remap_eager_loop (l : list nat) (map : det_map) (issp : interned_state_set_pool) (dst_dfa src_nfa : fsm)
    : option (bool * fsm * interned_state_set_pool) :=
  match l with
  | [] => Some (true, dst_dfa, issp)
  | p :: l =>
      m ← mp_heap map !! p;
      '(ss, issp) ← interned_state_set_get_state_set issp (m_iss m);
      match ss with
      | SSNull => None
      | _ =>
          '(ok, dst_dfa) ← remap_eager_states (state_loop ss) src_nfa (u32 (m_dfastate m)) dst_dfa;
          if (ok : bool) then remap_eager_loop l map issp dst_dfa src_nfa else Some (false, dst_dfa, issp)
      end
  end.

Definition remap_eager_outputs (map : det_map) (issp : interned_state_set_pool) (dst_dfa src_nfa : fsm)
    : option (bool * fsm * interned_state_set_pool) :=
  remap_eager_loop (map_iter map) map issp dst_dfa src_nfa.

(** ** Capture actions *)

Record reverse_mapping := mk_rm { rm_ceil : nat; rm_list : list N }.

(** [None] where the state is out of the array. *)
Definition add_reverse_mapping (al : fsm_alloc) (rms : list reverse_mapping) (dfastate nfa_state : N)
    : option (bool * list reverse_mapping) :=
  rm ← rms !! N.to_nat nfa_state;
  let nceil := if rm_ceil rm =? 0 then 2 else 2 * rm_ceil rm in
  if length (rm_list rm) =? rm_ceil rm then
    if f_realloc al (N.of_nat nceil * 8) then
      Some (true, <[N.to_nat nfa_state := mk_rm nceil (rm_list rm ++ [dfastate])]> rms)
    else Some (false, rms)
  else Some (true, <[N.to_nat nfa_state := mk_rm (rm_ceil rm) (rm_list rm ++ [dfastate])]> rms).

Fixpoint add_reverse_mappings (al : fsm_alloc) (l : list N) (rms : list reverse_mapping) (dfastate : N)
    : option (bool * list reverse_mapping) :=
  match l with
  | [] => Some (true, rms)
  | s :: l =>
      '(ok, rms) ← add_reverse_mapping al rms dfastate s;
      if (ok : bool) then add_reverse_mappings al l rms dfastate else Some (false, rms)
  end.

Fixpoint reverse_mappings_loop (al : fsm_alloc) (l : list nat) (map : det_map) (issp : interned_state_set_pool)
    (dst_dfa : fsm) (rms : list reverse_mapping) : option (bool * list reverse_mapping * interned_state_set_pool) :=
  match l with
  | [] => Some (true, rms, issp)
  | p :: l =>
      m ← mp_heap map !! p;
      if (m_dfastate m <? N.of_nat (f_statecount dst_dfa))%N then
        '(ss, issp) ← interned_state_set_get_state_set issp (m_iss m);
        '(ok, rms) ← add_reverse_mappings al (state_loop ss) rms (u32 (m_dfastate m));
        if (ok : bool) then reverse_mappings_loop al l map issp dst_dfa rms else Some (false, rms, issp)
      else None
  end.

Definition build_reverse_mappings (map : det_map) (issp : interned_state_set_pool) (dst_dfa src_nfa : fsm)
    : option (option (list reverse_mapping) * interned_state_set_pool) :=
  if f_calloc (f_alloc dst_dfa) (N.of_nat (f_statecount src_nfa)) 16 then
    '(ok, rms, issp) ← reverse_mappings_loop (f_alloc dst_dfa) (map_iter map) map issp dst_dfa
      (replicate (f_statecount src_nfa) (mk_rm 0 []));
    Some (if (ok : bool) then Some rms else None, issp)
  else Some (None, issp).

(** An action of a state is added to every state that stands for it, for every
    state that stands for its destination. *)
Definition det_copy_capture_actions_cb (rms : list reverse_mapping) (state : N) (a : fsm_capture_action)
    : option (list (N * fsm_capture_action)) :=
  rm_s ← rms !! N.to_nat state;
  if (ca_to a =? CAPTURE_NO_STATE)%N then
    Some ((λ s, (s, mk_action (ca_id a) (ca_type a) CAPTURE_NO_STATE)) <$> rm_list rm_s)
  else if length (rm_list rm_s) =? 0 then Some []
  else
    rm_t ← rms !! N.to_nat (ca_to a);
    Some (rm_list rm_s ≫= λ s, (λ t, (s, mk_action (ca_id a) (ca_type a) t)) <$> rm_list rm_t).

Fixpoint det_copy_capture_actions (rms : list reverse_mapping) (l : list (N * fsm_capture_action)) (dst : fsm)
    : option (bool * fsm) :=
  match l with
  | [] => Some (true, dst)
  | (state, a) :: l =>
      actions ← det_copy_capture_actions_cb rms state a;
      '(ok, dst) ← add_actions actions dst;
      if (ok : bool) then det_copy_capture_actions rms l dst else Some (false, dst)
  end.

(** [remap_capture_actions] of determinise.c *)
Definition det_remap_capture_actions (map : det_map) (issp : interned_state_set_pool) (dst_dfa src_nfa : fsm)
    : option (bool * fsm * interned_state_set_pool) :=
  if (fsm_countcaptures src_nfa =? 0)%N then Some (true, dst_dfa, issp)
  else
    '(orms, issp) ← build_reverse_mappings map issp dst_dfa src_nfa;
    match orms with
    | None => Some (false, dst_dfa, issp)
    | Some rms =>
        '(ok, dst_dfa) ← det_copy_capture_actions rms (fsm_capture_action_iter (f_capture_info src_nfa)) dst_dfa;
        Some (ok, dst_dfa, issp)
    end.

(** ** [fsm_determinise] *)

(** The last part: the automaton from the mappings; [None] at the right is a
    failure. *)
Definition build_dfa (nfa : fsm) (st : det_state) : option (option fsm) :=
  match fsm_new (f_alloc nfa) with
  | None => Some None
  | Some dfa =>
      let '(ok, dfa) := fsm_addstate_bulk dfa (dfacount st) in
      if ok then
        if f_statecount dfa =? dfacount st then
          let dfa := fsm_setstart dfa 0 in
          '(ok, dfa, issp) ← install_mappings (map_iter (dt_map st)) nfa (dt_map st) dfa (ae_issp (dt_env st));
          if (ok : bool) then
            '(ok, dfa, issp) ← det_remap_capture_actions (dt_map st) issp dfa nfa;
            if (ok : bool) then
              '(ok, dfa, issp) ← remap_eager_outputs (dt_map st) issp dfa nfa;
              Some (if (ok : bool) then Some dfa else None)
            else Some None
          else Some None
        else None
      else Some None
  end.

Definition empty_env (nfa : fsm) (issp : interned_state_set_pool) : analyze_closures_env :=
  mk_env (f_alloc nfa) nfa issp (mk_caps 0 0 0 0 0 0) [] (mk_to_sets [] 0 [] 0) (mk_htab [] 0) (mk_results [] 0 [] 0).

(** The automaton without epsilons: from the check of the limit on. *)
Definition determinise_dfa (fuel : nat) (nfa : fsm) (state_limit : N) (issp : interned_state_set_pool)
    : option (det_res * fsm) :=
  if negb (state_limit =? 0)%N && (state_limit <? fsm_countstates nfa)%N then
    Some (FSM_DETERMINISE_WITH_CONFIG_STATE_LIMIT_REACHED, nfa)
  else
    match fsm_getstart nfa with
    | None => Some (FSM_DETERMINISE_WITH_CONFIG_OK, nfa)
    | Some start =>
        '(ok, issp, start_set) ← interned_state_set_intern_set issp [start];
        if (ok : bool) then
          '(ok, map, curr) ← map_add (f_alloc nfa) (mk_map 0 [] []) 0 start_set;
          if (ok : bool) then
            match stack_init (f_alloc nfa) with
            | None => Some (FSM_DETERMINISE_WITH_CONFIG_ERRNO, nfa)
            | Some stack =>
                r ← det_loop fuel (f_alloc nfa) state_limit curr (mk_det (empty_env nfa issp) map stack 1);
                match r with
                | inl res => Some (res, nfa)
                | inr st =>
                    o ← build_dfa nfa st;
                    match o with
                    | None => Some (FSM_DETERMINISE_WITH_CONFIG_ERRNO, nfa)
                    | Some dfa =>
                        let nfa := fsm_move nfa dfa in
                        match f_linkage_info nfa with
                        | None => Some (FSM_DETERMINISE_WITH_CONFIG_OK, nfa)
                        | Some _ => None
                        end
                    end
                end
            end
          else Some (FSM_DETERMINISE_WITH_CONFIG_ERRNO, nfa)
        else Some (FSM_DETERMINISE_WITH_CONFIG_ERRNO, nfa)
    end.

(** [fuel] bounds the iterations of the main loop, one for each state of the
    result. *)
Definition fsm_determinise_with_config (fuel : nat) (nfa : fsm) (state_limit : N) : option (det_res * fsm) :=
  '(ok, nfa) ← (if fsm_has nfa fsm_hasepsilons then fsm_remove_epsilons nfa else Some (true, nfa));
  if (ok : bool) then
    match interned_state_set_pool_alloc (f_alloc nfa) with
    | None => Some (FSM_DETERMINISE_WITH_CONFIG_ERRNO, nfa)
    | Some issp => determinise_dfa fuel nfa state_limit issp
    end
  else Some (FSM_DETERMINISE_WITH_CONFIG_ERRNO, nfa).

Definition fsm_determinise (fuel : nat) (nfa : fsm) : option (bool * fsm) :=
  '(res, nfa) ← fsm_determinise_with_config fuel nfa 0;
  Some (match res with FSM_DETERMINISE_WITH_CONFIG_OK => true | _ => false end, nfa).
End Ops.
