(* ===== verification/DetLoop.v ===== *)
(** * The subset construction

    The main loop of [fsm_determinise_with_config] gives a mapping to every
    set of states that a word leads to from the start state, and to each
    mapping the edges between those sets. It ends after one iteration for each
    of them. *)

From S2P Require Import Prelude StateSet Bits EdgeSet EdgeIter Probe Lang Fsm FsmSpec InternedSet DetCache DetAnalysis.
From S2P Require Import DetResults DetSingle DetPairs DetAnalysisSpec DetMap Determinise.

(** The sets of states reached from the start state. *)
Inductive reached (f : fsm) : list N → Prop :=
  | reached_start s : fsm_getstart f = Some s → reached f [s]
  | reached_step X c Y : reached f X → step_set f X c Y → reached f Y.

Lemma step_set_unique f X c Y Z : step_set f X c Y → step_set f X c Z → Y = Z.
Proof. intros (_ & I1 & H1) (_ & I2 & H2). apply increasing_ext; [done|done|]. intros x. by rewrite H1, H2. Qed.

Lemma reached_ok f X : fsm_wf f → reached f X → X ≠ [] ∧ increasing X ∧ Forall (live f) X.
Proof.
  intros Hwf. induction 1 as [s Hs|X c Y _ IH (H1 & H2 & H3)].
  - split; [done|]. split; [repeat constructor|]. constructor; [|done]. by apply wf_start.
  - split; [done|]. split; [done|]. apply Forall_forall. intros t (s & _ & He)%H3. by eapply f_edge_live.
Qed.

(** Edges of a mapping for the set [X], complete for the labels [lab]. A
    destination is the number of the mapping whose set the label leads to. *)
Record edges_part (f : fsm) (p : interned_state_set_pool) (isss : list N) (X : list N) (lab : nat → Prop) (es : edge_set_ptr) : Prop := {
  ep_wf : edge_set_wf es;
  ep_keys : ∀ k, k ∈ edge_keys es → N.to_nat k < length isss ∧ ∃ c, has_edge es c k;
  ep_fwd : ∀ c t, has_edge es c t → ∃ iss, isss !! N.to_nat t = Some iss ∧ step_set f X c (iss_states p iss);
  ep_bwd : ∀ c, lab c → ∃ t, has_edge es c t;
}.

(** The labels of the edges of a set. *)
Definition set_label (f : fsm) (X : list N) (c : nat) : Prop := ∃ s t, s ∈ X ∧ f_edge f s c t.

Lemma edges_part_none f p isss X : edges_part f p isss X (λ _, False) None.
Proof.
  split; [done|by intros k ?%not_elem_of_nil| |done]. intros c t (g & Hg & _). by apply not_elem_of_nil in Hg.
Qed.

Lemma edges_part_app f p isss l X lab es : edges_part f p isss X lab es → edges_part f p (isss ++ l) X lab es.
Proof.
  intros [E1 E2 E3 E4]. split; try done.
  - intros k [Hk Hc]%E2. rewrite length_app. split; [lia|done].
  - intros c t (iss & Hi & Hs)%E3. exists iss. split; [by apply lookup_app_l_Some|done].
Qed.

Lemma edges_part_extends f p p' isss X lab es :
  pool_extends p p' → Forall (iss_valid p) isss → edges_part f p isss X lab es → edges_part f p' isss X lab es.
Proof.
  intros [_ Hx] Hv [E1 E2 E3 E4]. split; try done. intros c t (iss & Hi & Hs)%E3. exists iss. split; [done|].
  destruct (Hx iss) as [_ ->]; [exact (Forall_lookup_1 _ _ _ _ Hv Hi)|done].
Qed.

Abbreviation dt_pool st := (ae_issp (dt_env st)).
Abbreviation dt_heap st := (mp_heap (dt_map st)).
Abbreviation dt_isss st := (map_isss (dt_map st)).

Record working (f : fsm) (start : N) (dn : list nat) (curr : nat) (lab : nat → Prop) (st : det_state) : Prop := {
  wk_pool : pool_ok (dt_pool st);
  wk_map : map_ok (dt_map st);
  wk_count : dfacount st = length (dt_heap st);
  wk_heap : ∀ p m, dt_heap st !! p = Some m → m_dfastate m = N.of_nat p ∧ iss_valid (dt_pool st) (m_iss m) ∧
    reached f (iss_states (dt_pool st) (m_iss m));
  wk_start : ∃ m, dt_heap st !! 0 = Some m ∧ iss_states (dt_pool st) (m_iss m) = [start];
  wk_perm : dn ++ curr :: sk_s (dt_stack st) ≡ₚ seq 0 (length (dt_heap st));
  wk_done : ∀ p m, p ∈ dn → dt_heap st !! p = Some m →
    edges_part f (dt_pool st) (dt_isss st) (iss_states (dt_pool st) (m_iss m)) (set_label f (iss_states (dt_pool st) (m_iss m))) (m_edges m);
  wk_curr : ∀ m, dt_heap st !! curr = Some m →
    edges_part f (dt_pool st) (dt_isss st) (iss_states (dt_pool st) (m_iss m)) lab (m_edges m);
  wk_todo : ∀ p m, p ∈ sk_s (dt_stack st) → dt_heap st !! p = Some m → m_edges m = None;
}.

Lemma map_isss_NoDup map : map_ok map → NoDup (map_isss map).
Proof.
  intros Hok. destruct (mo_table _ Hok) as [E|Htab].
  { pose proof (mo_used _ Hok). pose proof (mo_half _ Hok) as Hh. rewrite E in Hh. cbn in Hh. unfold map_isss.
    destruct (mp_heap map); [constructor|cbn in *; lia]. }
  apply NoDup_alt. intros i j x Hi Hj.
  assert (∀ p, map_isss map !! p = Some x → ∃ b, mp_buckets map !! b = Some (Some p)) as Hb.
  { intros p Hp. assert (Some p ∈ mp_buckets map) as Hin; [|by apply list_elem_of_lookup in Hin].
    apply (mo_heap _ Hok). apply lookup_lt_Some in Hp. unfold map_isss in Hp. by rewrite length_fmap in Hp. }
  destruct (Hb i Hi) as [bi Hbi]. destruct (Hb j Hj) as [bj Hbj].
  assert (bi = bj) as ->; [|congruence].
  eapply (table_key_unique (map_entry (map_isss map) <$> mp_buckets map) x i j bi bj Htab);
    rewrite list_lookup_fmap; [rewrite Hbi|rewrite Hbj]; cbn; [by rewrite Hi|by rewrite Hj].
Qed.

(** There are at most as many mappings as sets reached. *)
Lemma mappings_few f p map D :
  pool_ok p → map_ok map → (∀ q m, mp_heap map !! q = Some m → iss_valid p (m_iss m) ∧ reached f (iss_states p (m_iss m))) →
  at_most D (reached f) → length (mp_heap map) ≤ D.
Proof.
  intros Hp Hm Hh HD. rewrite <-(length_fmap m_iss), <-(length_fmap (iss_states p)). apply HD.
  - apply NoDup_fmap_2_strong; [|by apply map_isss_NoDup].
    intros x y (m & -> & [i Hi]%list_elem_of_lookup)%list_elem_of_fmap (m' & -> & [j Hj]%list_elem_of_lookup)%list_elem_of_fmap E.
    apply (iss_states_inj p); [done|by apply (Hh i)|by apply (Hh j)|done].
  - apply Forall_fmap, Forall_fmap, Forall_forall. intros m [i Hi]%list_elem_of_lookup. cbn. by apply (Hh i).
Qed.

Lemma working_few f start dn curr lab st D :
  working f start dn curr lab st → at_most D (reached f) → length (dt_heap st) ≤ D.
Proof. intros W. apply (mappings_few f (dt_pool st)); [apply W|apply W|]. intros q m Hm. by apply (wk_heap _ _ _ _ _ _ W q). Qed.

Section Lemmas.
Context `{allocator, !alloc_total}.

(** A mapping for a set, found or new. *)
Lemma find_mapping_run f start dn curr lab st iss al :
  working f start dn curr lab st → iss_valid (dt_pool st) iss → reached f (iss_states (dt_pool st) iss) →
  (N.of_nat (length (dt_heap st)) < 1073741824)%N →
  ∃ p st', find_mapping al 0 st iss = Some (inr (p, st')) ∧ working f start dn curr lab st' ∧ dt_env st' = dt_env st ∧
    dfacount st' ≤ S (dfacount st) ∧ (∀ q m, dt_heap st !! q = Some m → dt_heap st' !! q = Some m) ∧ ∃ m, dt_heap st' !! p = Some m ∧ m_iss m = iss.
Proof.
  intros W Hv Hr Hfew. pose proof W as [W1 W2 W3 W4 W5 W6 W7 W8 W9]. unfold find_mapping.
  destruct (map_find_spec (dt_map st) iss W2) as (o & -> & Ho). cbn [mbind option_bind]. destruct o as [p|].
  - destruct Ho as (m & Hm & Em). rewrite Hm. cbn [mbind option_bind]. destruct (W4 _ _ Hm) as (Ed & _).
    rewrite (proj2 (N.ltb_lt _ _)) by (rewrite Ed, W3; apply lookup_lt_Some in Hm; lia). exists p, st. eauto 10.
  - cbn [N.eqb negb andb]. destruct (map_add_spec al (dt_map st) (dfacount st) iss W2 Ho) as (map' & -> & M1 & M2).
    { rewrite (mo_used _ W2). done. }
    cbn [mbind option_bind]. destruct (stack_push_total al (dt_stack st) (length (dt_heap st))) as (ceil & ->).
    eexists _, _. split; [done|].
    assert (map_isss map' = dt_isss st ++ [iss]) as Eiss by (unfold map_isss; by rewrite M2, fmap_app).
    assert (∀ p m, mp_heap map' !! p = Some m → dt_heap st !! p = Some m ∨
      p = length (dt_heap st) ∧ m = mk_mapping iss (N.of_nat (length (dt_heap st))) None) as Hnew.
    { intros p m Hp. rewrite M2 in Hp. apply lookup_snoc_Some in Hp as [[_ ?]|[-> <-]]; [by left|]. right. split; [done|].
      f_equal. rewrite W3. apply u32_small. lia. }
    assert (∀ p, p ∈ dn ++ curr :: sk_s (dt_stack st) → p ≠ length (dt_heap st)) as Hold.
    { intros p Hp. rewrite W6 in Hp. apply elem_of_seq in Hp. lia. }
    split; [|split; [done|split; [cbn [dfacount]; lia|split; [intros q m Hq; cbn [dt_map]; rewrite M2; by apply lookup_app_l_Some|]]]].
    2:{ exists (mk_mapping iss (u32 (N.of_nat (dfacount st))) None). split; [|done]. cbn [dt_map]. rewrite M2. by apply list_lookup_middle. }
    split; cbn [dt_env dt_map dt_stack dfacount sk_s]; rewrite ?Eiss; try done.
    + rewrite M2, length_app, W3. cbn. lia.
    + intros p m [Hp|[-> ->]]%Hnew; [by apply W4|]. done.
    + destruct W5 as (m & Hm & Es). exists m. rewrite M2. split; [by apply lookup_app_l_Some|done].
    + rewrite M2, length_app. cbn [length]. rewrite Nat.add_1_r, seq_S. cbn [Nat.add]. rewrite <-W6, <-app_assoc. done.
    + intros p m Hp [Hm|[-> _]]%Hnew; [apply edges_part_app; exact (W7 p m Hp Hm)|]. exfalso. apply (Hold (length (dt_heap st))); [|done].
      apply elem_of_app. by left.
    + intros m [Hm|[E _]]%Hnew; [apply edges_part_app; exact (W8 m Hm)|]. exfalso. apply (Hold curr); [|done].
      apply elem_of_app. right. left.
    + intros p m Hp [Hm|[-> ->]]%Hnew; [|done]. apply elem_of_app in Hp as [Hp| ->%list_elem_of_singleton]; [exact (W9 p m Hp Hm)|].
      apply lookup_lt_Some in Hm. lia.
Qed.

Lemma working_lt f start dn curr lab st p :
  working f start dn curr lab st → p ∈ dn ++ curr :: sk_s (dt_stack st) → p < length (dt_heap st).
Proof. intros W Hp. rewrite (wk_perm _ _ _ _ _ _ W) in Hp. apply elem_of_seq in Hp. lia. Qed.

Lemma working_other f start dn curr lab st p :
  working f start dn curr lab st → p ∈ dn ∨ p ∈ sk_s (dt_stack st) → p ≠ curr.
Proof.
  intros W Hp ->. pose proof (NoDup_seq 0 (length (dt_heap st))) as Hnd. rewrite <-(wk_perm _ _ _ _ _ _ W) in Hnd.
  apply NoDup_app in Hnd as (_ & Hd & [Hc _]%NoDup_cons). destruct Hp as [Hp|Hp]; [|done]. apply (Hd curr Hp). left.
Qed.

Lemma working_labels f start dn curr (lab lab' : nat → Prop) st :
  (∀ c, lab' c → lab c) → working f start dn curr lab st → working f start dn curr lab' st.
Proof.
  intros Hl [W1 W2 W3 W4 W5 W6 W7 W8 W9]. split; try done. intros m Hm. destruct (W8 m Hm) as [E1 E2 E3 E4]. split; eauto.
Qed.

(** New edges for the current mapping. *)
Lemma working_edges f start dn curr lab lab' st c es :
  working f start dn curr lab st → dt_heap st !! curr = Some c →
  edges_part f (dt_pool st) (dt_isss st) (iss_states (dt_pool st) (m_iss c)) lab' es →
  working f start dn curr lab' (with_map (set_map_edges (dt_map st) curr es) st).
Proof.
  intros W Hc He. pose proof W as [W1 W2 W3 W4 W5 W6 W7 W8 W9].
  assert (∀ p m, mp_heap (set_map_edges (dt_map st) curr es) !! p = Some m →
    p ≠ curr ∧ dt_heap st !! p = Some m ∨ p = curr ∧ m = mk_mapping (m_iss c) (m_dfastate c) es) as Hl.
  { intros p m. unfold set_map_edges. cbn [mp_heap]. destruct (decide (p = curr)) as [->|Hne].
    - rewrite list_lookup_alter_eq, Hc. cbn. intros [= <-]. by right.
    - rewrite list_lookup_alter_ne by done. by left. }
  assert (map_isss (set_map_edges (dt_map st) curr es) = dt_isss st) as Ei.
  { unfold map_isss, set_map_edges. cbn [mp_heap]. apply list_eq. intros i. rewrite !list_lookup_fmap.
    destruct (decide (i = curr)) as [->|Hne]; [rewrite list_lookup_alter_eq|by rewrite list_lookup_alter_ne]. by rewrite Hc. }
  split; cbn [dt_env dt_map dt_stack dfacount with_map]; rewrite ?Ei; try done.
  - by apply map_ok_edges.
  - unfold set_map_edges. cbn [mp_heap]. by rewrite length_alter.
  - intros p m [[_ Hm]|[-> ->]]%Hl; [by apply W4|]. cbn [m_iss m_dfastate]. by apply W4.
  - destruct W5 as (m & Hm & Es). unfold set_map_edges. cbn [mp_heap]. destruct (decide (curr = 0)) as [->|Hne].
    + rewrite list_lookup_alter_eq, Hm. eexists. split; [done|]. done.
    + rewrite list_lookup_alter_ne by done. eauto.
  - unfold set_map_edges. cbn [mp_heap]. by rewrite length_alter.
  - intros p m Hp [[_ Hm]|[-> _]]%Hl; [exact (W7 p m Hp Hm)|]. exfalso. by apply (working_other _ _ _ _ _ _ curr W (or_introl Hp)).
  - intros m [[? _]|[_ ->]]%Hl; [done|]. exact He.
  - intros p m Hp [[_ Hm]|[-> _]]%Hl; [exact (W9 p m Hp Hm)|]. exfalso. by apply (working_other _ _ _ _ _ _ curr W (or_intror Hp)).
Qed.

Lemma add_output_run f start dn curr lab st al o c X :
  fsm_wf f → working f start dn curr lab st → dt_heap st !! curr = Some c → X = iss_states (dt_pool st) (m_iss c) →
  iss_valid (dt_pool st) (o_iss o) → words_ok 4 (o_labels o) → (∃ c, bs_get (o_labels o) c = true) →
  (∀ c, bs_get (o_labels o) c = true → step_set f X c (iss_states (dt_pool st) (o_iss o))) →
  (N.of_nat (length (dt_heap st)) < 1073741824)%N →
  ∃ st', add_output al 0 curr st o = Some (inr st') ∧ dt_env st' = dt_env st ∧
    working f start dn curr (λ c, lab c ∨ bs_get (o_labels o) c = true) st' ∧
    ∃ c', dt_heap st' !! curr = Some c' ∧ m_iss c' = m_iss c.
Proof.
  intros Hwf W Hc EX Hv Hw [c0 Hc0] Hstep Hfew.
  assert (reached f X) as HrX by (subst X; apply (wk_heap _ _ _ _ _ _ W _ _ Hc)).
  destruct (find_mapping_run f start dn curr lab st (o_iss o) al W Hv) as (p & st1 & Ef & W1 & Ee & Hcount & Hkeep & m & Hm & Em).
  { eapply reached_step; [exact HrX|]. by apply Hstep. }
  { done. }
  unfold add_output. rewrite Ef. cbn [mbind option_bind]. rewrite Hm. cbn [mbind option_bind].
  assert (dt_heap st1 !! curr = Some c) as Hc1 by (by apply Hkeep). rewrite Hc1. cbn [mbind option_bind].
  destruct (wk_heap _ _ _ _ _ _ W1 _ _ Hm) as (Ed & _). pose proof (lookup_lt_Some _ _ _ Hm) as Hp.
  assert (length (dt_heap st1) ≤ S (length (dt_heap st))) as Hlen by (rewrite <-(wk_count _ _ _ _ _ _ W), <-(wk_count _ _ _ _ _ _ W1); exact Hcount).
  rewrite Ed, u32_small by lia.
  pose proof (wk_curr _ _ _ _ _ _ W1 _ Hc1) as [E1 E2 E3 E4]. rewrite Ee in E3. rewrite <-EX in E3.
  pose proof (edge_set_add_bulk_total (m_edges c) al (o_labels o) (N.of_nat p)) as Ht.
  destruct (edge_set_add_bulk _ _ _ _) as [ok es] eqn:Eb. cbn in Ht. subst ok.
  assert (N.of_nat p < 4294967296)%N as Hp32 by lia.
  pose proof (edge_set_add_bulk_spec _ _ _ _ _ _ E1 Hw Hp32 Eb) as [A1 A2].
  eexists. split; [done|]. split; [done|]. split.
  - apply (working_edges f start dn curr lab _ st1 c); [done|done|]. rewrite Ee, <-EX. split; [done| | |].
    + intros k [Hk| ->]%(edge_set_add_bulk_keys _ _ _ _ _ _ _ Eb).
      * destruct (E2 k Hk) as (Hlt & d & Hd). split; [done|]. exists d. apply A2. by left.
      * unfold map_isss. rewrite length_fmap. split; [lia|]. exists c0. apply A2. by right.
    + intros d t [Hd|[-> Hd]]%A2; [by apply E3|]. exists (o_iss o). split; [|by apply Hstep].
      rewrite Nat2N.id. unfold map_isss. rewrite list_lookup_fmap, Hm. cbn. by rewrite Em.
    + intros d [Hd|Hd]; [destruct (E4 d Hd) as [t Ht]; exists t; apply A2; by left|]. exists (N.of_nat p). apply A2. by right.
  - eexists. cbn [dt_map with_map]. split; [unfold set_map_edges; cbn [mp_heap]; by rewrite list_lookup_alter_eq, Hc1|]. done.
Qed.

Lemma add_outputs_run f start dn curr al D X : fsm_wf f → at_most D (reached f) → (N.of_nat D < 1073741824)%N → ∀ outs lab st c,
  working f start dn curr lab st → dt_heap st !! curr = Some c → X = iss_states (dt_pool st) (m_iss c) →
  Forall (λ o, iss_valid (dt_pool st) (o_iss o)) outs → Forall (λ o, words_ok 4 (o_labels o)) outs →
  Forall (λ o, ∃ c, bs_get (o_labels o) c = true) outs →
  (∀ o c, o ∈ outs → bs_get (o_labels o) c = true → step_set f X c (iss_states (dt_pool st) (o_iss o))) →
  ∃ st', add_outputs al 0 curr st outs = Some (inr st') ∧ dt_env st' = dt_env st ∧
    working f start dn curr (λ c, lab c ∨ ∃ o, o ∈ outs ∧ bs_get (o_labels o) c = true) st' ∧
    ∃ c', dt_heap st' !! curr = Some c' ∧ m_iss c' = m_iss c.
Proof.
  intros Hwf HD Hfew. induction outs as [|o outs IH]; intros lab st c W Hc EX Hv Hw Hs Hstep.
  { exists st. split; [done|]. split; [done|]. split; [|by eauto]. eapply working_labels; [|exact W]. intros d [?|(o & ?%not_elem_of_nil & _)]; done. }
  inversion_clear Hv as [|? ? Hv1 Hv2]. inversion_clear Hw as [|? ? Hw1 Hw2]. inversion_clear Hs as [|? ? Hs1 Hs2].
  destruct (add_output_run f start dn curr lab st al o c X) as (st1 & E1 & Ee1 & W1 & c1 & Hc1 & Ei1); try done.
  { intros d Hd. apply Hstep; [left|done]. }
  { pose proof (working_few _ _ _ _ _ _ _ W HD). lia. }
  cbn [add_outputs]. rewrite E1. cbn [mbind option_bind].
  destruct (IH _ st1 c1 W1 Hc1) as (st2 & E2 & Ee2 & W2 & Hc2); rewrite ?Ee1, ?Ei1; try done.
  { intros o' d Ho. apply Hstep. by right. }
  exists st2. split; [done|]. split; [congruence|]. split; [|destruct Hc2 as (c2 & ? & ?); exists c2; split; [done|congruence]].
  eapply working_labels; [|exact W2].
  intros d [?|(o' & [->|Ho]%elem_of_cons & Hd)]; eauto.
Qed.

Lemma nceil_loop_ge fuel : ∀ nceil target, 0 < nceil → target ≤ nceil + fuel → target ≤ nceil_loop fuel nceil target.
Proof.
  induction fuel as [|fuel IH]; intros nceil target Hn Ht; cbn [nceil_loop]; [lia|].
  destruct (nceil <? target) eqn:E; split_bool; [|lia]. apply IH; lia.
Qed.

Lemma advise_growth_run p al n :
  edge_set_wf p → ∃ p', edge_set_advise_growth p al n = (true, p') ∧ edge_set_wf p' ∧ set_groups p' = set_groups p.
Proof.
  intros Hp. unfold edge_set_advise_growth, init_empty. alloc_ok. destruct p as [s|].
  - cbn zeta beta iota. alloc_ok. eexists. split; [done|]. split; [|done]. destruct Hp as (H1 & H2 & H3).
    pose proof (nceil_loop_ge (es_ceil s + n) 1 (es_ceil s + n)). cbn [edge_set_wf es_groups es_ceil]. split; [done|lia].
  - cbn zeta beta iota. alloc_ok. eexists. split; [done|]. split; [|done]. pose proof (nceil_loop_ge (1 + n) 1 (1 + n)).
    cbn [edge_set_wf es_groups es_ceil]. unfold DEF_EDGE_GROUP_CEIL. split; [|cbn [length]; lia]. split; [constructor|constructor].
Qed.

Lemma edges_part_groups f p isss X lab es es' :
  edge_set_wf es' → set_groups es' = set_groups es → edges_part f p isss X lab es → edges_part f p isss X lab es'.
Proof. intros Hw Eg [E1 E2 E3 E4]. unfold has_edge, edge_keys in *. by split; unfold has_edge, edge_keys; rewrite ?Eg. Qed.

Lemma working_env f start dn curr lab st e :
  working f start dn curr lab st → pool_ok (ae_issp e) → pool_extends (dt_pool st) (ae_issp e) →
  working f start dn curr lab (with_env e st).
Proof.
  intros [W1 W2 W3 W4 W5 W6 W7 W8 W9] Hp Hx.
  assert (Forall (iss_valid (dt_pool st)) (dt_isss st)) as Hv.
  { apply Forall_fmap, Forall_forall. intros m [p Hm]%list_elem_of_lookup. by apply (W4 _ _ Hm). }
  assert (∀ p m, dt_heap st !! p = Some m → iss_valid (ae_issp e) (m_iss m) ∧
    iss_states (ae_issp e) (m_iss m) = iss_states (dt_pool st) (m_iss m)) as Hs.
  { intros p m (_ & Hm & _)%W4. by apply Hx. }
  split; cbn [dt_env dt_map dt_stack dfacount with_env]; try done.
  - intros p m Hm. destruct (W4 p m Hm) as (? & _ & ?). destruct (Hs p m Hm) as [? ->]. done.
  - destruct W5 as (m & Hm & Es). exists m. destruct (Hs 0 m Hm) as [_ ->]. done.
  - intros p m Hp' Hm. destruct (Hs p m Hm) as [_ ->]. eapply edges_part_extends; [exact Hx|done|]. exact (W7 p m Hp' Hm).
  - intros m Hm. destruct (Hs _ m Hm) as [_ ->]. eapply edges_part_extends; [exact Hx|done|]. exact (W8 m Hm).
Qed.

(** ** The loop *)

(** The bounds of the construction: [D] sets are reached. *)
Record bounds_ok (f : fsm) (D : nat) : Prop := {
  bo_most : at_most D (reached f);
  bo_few : (N.of_nat D < 1073741824)%N;
  bo_states : (N.of_nat (f_statecount f) < RESULT_BIT)%N;
  bo_fits : fits (f_statecount f) (3 * f_statecount f * D);
}.

(** What the analysis has when [k] sets are done. *)
Definition env_at (f : fsm) (k : nat) (e : analyze_closures_env) : Prop :=
  ∃ leaves, env_ok f leaves e ∧ length leaves ≤ 3 * f_statecount f * k ∧ pool_in (reached f) (ae_issp e) ∧ ae_outputs e = [].

Lemma det_step_run f start dn curr st al D :
  fsm_wf f → bounds_ok f D → working f start dn curr (λ _, False) st → env_at f (length dn) (dt_env st) →
  ∃ st', det_step al 0 curr st = Some (inr st') ∧ env_at f (S (length dn)) (dt_env st') ∧ (∃ c, dt_heap st' !! curr = Some c) ∧
    ∀ m, dt_heap st' !! curr = Some m → working f start dn curr (set_label f (iss_states (dt_pool st') (m_iss m))) st'.
Proof.
  intros Hwf [HD Hfew Hn Hfit] W (leaves & He & Hll & Hin & Ho).
  assert (curr < length (dt_heap st)) as [c Hc]%lookup_lt_is_Some
    by (apply (working_lt _ _ _ _ _ _ _ W), elem_of_app; right; left).
  destruct (wk_heap _ _ _ _ _ _ W _ _ Hc) as (_ & Hv & Hr). set (X := iss_states (dt_pool st) (m_iss c)) in *.
  destruct (reached_ok f X Hwf Hr) as (Hne & Hinc & Hlive).
  assert (length X ≤ f_statecount f) as HX by (apply increasing_few; [done|]; eapply Forall_impl; [exact Hlive|]; done).
  assert (S (length dn) ≤ D) as Hdn.
  { pose proof (working_few _ _ _ _ _ _ D W HD). pose proof (Permutation_length (wk_perm _ _ _ _ _ _ W)) as E.
    rewrite length_app, length_seq in E. cbn [length] in E. lia. }
  destruct (analyze_run f leaves D (reached f) (dt_env st) (m_iss c)) as (u & e & Ea & leaves' & He' & Hl' & Hal & Hx & Hin' & [O1 O2 O3 O4 O5 _]); try done.
  { eapply fits_le; [|exact Hfit]. fold X. nia. }
  { intros d Y. by apply reached_step. }
  fold X in Hl', O4, O5. unfold det_step. rewrite Hc. cbn [mbind option_bind]. rewrite Ea. cbn [mbind option_bind].
  destruct (advise_growth_run (m_edges c) al (length (ae_outputs e))) as (es & -> & Hes & Eg); [apply (wk_curr _ _ _ _ _ _ W _ Hc)|].
  cbn beta iota zeta. change (with_env e (with_map ?m st)) with (with_map m (with_env e st)).
  pose proof (working_env _ _ _ _ _ _ e W (eo_pool _ _ _ He') Hx) as W1.
  assert (iss_states (ae_issp e) (m_iss c) = X) as EX by (by apply Hx).
  assert (working f start dn curr (λ _, False) (with_map (set_map_edges (dt_map st) curr es) (with_env e st))) as W2
    by exact (working_edges _ _ _ _ _ (λ _, False) _ c es W1 Hc
      (edges_part_groups _ _ _ _ _ _ _ Hes Eg (wk_curr _ _ _ _ _ _ W1 _ Hc))).
  destruct (add_outputs_run f start dn curr al D X Hwf HD Hfew (ae_outputs e) (λ _, False) _ (mk_mapping (m_iss c) (m_dfastate c) es) W2)
    as (st' & -> & Ee & W3 & c' & Hc' & Ec'); try done.
  { cbn [dt_map with_map set_map_edges mp_heap with_env]. by rewrite list_lookup_alter_eq, Hc. }
  cbn [mbind option_bind]. eexists. split; [done|]. cbn [dt_env with_env dt_map with_map] in Ee |- *. split; [|split].
  - exists leaves'. rewrite Ee. cbn [with_outputs ae_issp ae_outputs]. split; [|split; [nia|done]].
    change (with_outputs [] e) with (with_outputs [] (with_caps (ae_caps e) e)). rewrite <-(with_caps_id e) at 1. by apply env_ok_same.
  - by exists c'.
  - intros m Hm. rewrite Hc' in Hm. injection Hm as <-. rewrite Ee, Ec'. cbn [with_outputs ae_issp m_iss]. rewrite EX.
    apply working_env; [|apply He'|by rewrite Ee].
    eapply working_labels; [|exact W3]. intros d (s & t & Hs & Hst). right. by apply (O5 s d t).
Qed.

(** The mappings when the loop ends: all of them have all of their edges. *)
Record finished (f : fsm) (start : N) (st : det_state) : Prop := {
  fi_pool : pool_ok (dt_pool st);
  fi_map : map_ok (dt_map st);
  fi_count : dfacount st = length (dt_heap st);
  fi_heap : ∀ p m, dt_heap st !! p = Some m → m_dfastate m = N.of_nat p ∧ iss_valid (dt_pool st) (m_iss m) ∧
    reached f (iss_states (dt_pool st) (m_iss m)) ∧
    edges_part f (dt_pool st) (dt_isss st) (iss_states (dt_pool st) (m_iss m)) (set_label f (iss_states (dt_pool st) (m_iss m))) (m_edges m);
  fi_start : ∃ m, dt_heap st !! 0 = Some m ∧ iss_states (dt_pool st) (m_iss m) = [start];
}.

Lemma finished_few f start st D : finished f start st → at_most D (reached f) → length (dt_heap st) ≤ D.
Proof.
  intros W. apply (mappings_few f (dt_pool st)); [apply W|apply W|]. intros q m Hm. by destruct (fi_heap _ _ _ W q m Hm) as (_ & ? & ? & _).
Qed.

(** The current mapping is done and the next one is popped, or all are done. *)
Lemma working_next f start dn curr st :
  (∀ m, dt_heap st !! curr = Some m → working f start dn curr (set_label f (iss_states (dt_pool st) (m_iss m))) st) →
  (∃ m, dt_heap st !! curr = Some m) →
  match stack_pop (dt_stack st) with
  | None => finished f start st
  | Some (next, stack) => working f start (dn ++ [curr]) next (λ _, False) (with_stack stack st)
  end.
Proof.
  intros HW (c & Hc). pose proof (HW c Hc) as [W1 W2 W3 W4 W5 W6 W7 W8 W9]. pose proof (stack_pop_spec (dt_stack st)) as Hp.
  destruct (stack_pop (dt_stack st)) as [[next stack]|].
  - split; cbn [dt_env dt_map dt_stack dfacount with_stack]; try done.
    + rewrite <-W6, Hp, <-app_assoc. cbn [app]. apply Permutation_app_head. constructor. by rewrite Permutation_cons_append.
    + intros p m [Hin| ->%list_elem_of_singleton]%elem_of_app Hm; [exact (W7 p m Hin Hm)|]. rewrite Hc in Hm. injection Hm as <-. exact (W8 c Hc).
    + intros m Hm. rewrite (W9 next m); [apply edges_part_none|rewrite Hp; apply elem_of_app; right; left|done].
    + intros p m Hin. apply W9. rewrite Hp. apply elem_of_app. by left.
  - rewrite Hp in W6. split; try done. intros p m Hm. destruct (W4 p m Hm) as (? & ? & ?). do 3 (split; [done|]).
    assert (p ∈ seq 0 (length (dt_heap st))) as Hin by (apply elem_of_seq; apply lookup_lt_Some in Hm; lia).
    rewrite <-W6 in Hin. apply elem_of_app in Hin as [Hin| ->%list_elem_of_singleton]; [exact (W7 p m Hin Hm)|].
    rewrite Hc in Hm. injection Hm as <-. exact (W8 c Hc).
Qed.

(** One iteration for each set reached is enough. *)
Lemma det_loop_run f start al D : fsm_wf f → bounds_ok f D → ∀ fuel dn curr st,
  working f start dn curr (λ _, False) st → env_at f (length dn) (dt_env st) → D ≤ fuel + length dn →
  ∃ st', det_loop fuel al 0 curr st = Some (inr st') ∧ finished f start st'.
Proof.
  intros Hwf HB. induction fuel as [|fuel IH]; intros dn curr st W He Hfuel.
  { exfalso. pose proof (working_few _ _ _ _ _ _ D W (bo_most _ _ HB)). pose proof (Permutation_length (wk_perm _ _ _ _ _ _ W)) as E.
    rewrite length_app, length_seq in E. cbn [length] in E. lia. }
  cbn [det_loop]. destruct (det_step_run f start dn curr st al D Hwf HB W He) as (st1 & -> & He1 & (c & Hc) & W1).
  cbn [mbind option_bind]. pose proof (working_next f start dn curr st1 W1 (ex_intro _ c Hc)) as Hn.
  destruct (stack_pop (dt_stack st1)) as [[next stack]|]; [|by eauto].
  apply (IH (dn ++ [curr])); [done| |].
  - rewrite length_app, Nat.add_1_r. exact He1.
  - rewrite length_app. cbn [length]. lia.
Qed.
End Lemmas.
