(* ===== verification/DetBuild.v ===== *)
(** * The automaton from the mappings

    [build_dfa] makes a new automaton with a state for each mapping: it takes
    over the edges, and what is observed of a state (end mark, end ids, eager
    outputs) is what is observed of the states of its set. *)

From S2P Require Import Prelude StateSet Bits EdgeSet EdgeIter EdgeCompact Probe Endids EagerOutput.
From S2P Require Import Lang Fsm FsmSpec Queue Search FsmCompact FsmInv Pred Trim Capture Combine Clone Closure Epsilons EpsilonsSpec.
From S2P Require Import InternedSet DetCache DetAnalysis DetSingle DetAnalysisSpec DetMap Determinise DetLoop.

(** ** A new automaton with blank states *)

(** An automaton of [n] states, as they are when they are added. *)
Record blank_fsm (al : fsm_alloc) (n : nat) (f : fsm) : Prop := {
  bf_inv : fsm_inv f;
  bf_meta : fresh_meta f;
  bf_capture : f_capture_info f = mk_capture 0 0 [];
  bf_count : f_statecount f = n;
  bf_alloc : f_alloc f = al;
  bf_start : fsm_getstart f = None;
  bf_linkage : f_linkage_info f = None;
  bf_states : ∀ s, live f s → st_edges (get_state f s) = None ∧ st_epsilons (get_state f s) = SSNull ∧ fsm_isend f s = false;
}.

Section Blank.
Context `{allocator, !alloc_total}.

Lemma blank_new al : ∃ f, fsm_new al = Some f ∧ blank_fsm al 0 f ∧ ∀ s, get_state f s = blank_state.
Proof.
  destruct (fsm_new al) as [f|] eqn:E.
  2:{ exfalso. destruct (fsm_new_spec al) as (f & E' & _). congruence. }
  exists f. split; [done|]. destruct (inv_new_statealloc al FSM_DEFAULT_STATEALLOC f E) as (I1 & I2 & I3 & I4 & I5).
  unfold fsm_new, fsm_new_statealloc, fsm_endid_init, fsm_eager_output_init in E.
  rewrite !f_malloc_total, !f_calloc_total in E. cbn [mbind option_bind] in E. apply (inj Some) in E. symmetry in E. subst f. split.
  - split; try done. intros s Hs. unfold live in Hs. cbn in Hs. lia.
  - intros s. unfold get_state. cbn [f_states]. rewrite list_lookup_total_alt.
    destruct (replicate _ _ !! N.to_nat s) as [x|] eqn:E; [|done]. by apply lookup_replicate in E as [-> _].
Qed.

Lemma fsm_addstate_linkage f : f_linkage_info (fsm_addstate f).1.2 = f_linkage_info f.
Proof.
  unfold fsm_addstate. rewrite f_realloc_total. destruct (_ =? 4294967295)%N; [done|]. by destruct (_ =? _).
Qed.

Lemma addstate_loop_blank al n : ∀ k f,
  blank_fsm al k f → (N.of_nat (k + n) < 2147483648)%N →
  ∃ f', addstate_loop n f = (true, f') ∧ blank_fsm al (k + n) f'.
Proof.
  induction n as [|n IH]; intros k f B Hn; cbn [addstate_loop].
  { exists f. by rewrite Nat.add_0_r. }
  pose proof B as [B1 (M1 & M2 & M3) BC B3 B4 B5 B6 B7].
  pose proof (fsm_addstate_linkage f) as L. destruct (fsm_addstate f) as [[b f1] s] eqn:E. cbn in L.
  destruct (fsm_addstate_spec f b f1 s (inv_wf _ B1) ltac:(lia) E) as (_ & Hb & Ht). assert (b = true) as -> by (by apply Hb).
  destruct (Ht eq_refl) as (T1 & T2 & -> & _ & T5 & T6 & T7 & T8 & _ & _ & T11).
  destruct (fsm_addstate_frame f true f1 _ (inv_wf _ B1) E) as (F1 & F2 & F3 & _ & F5). destruct (F5 eq_refl) as (F6 & F7 & _).
  pose proof (inv_addstate f true f1 _ B1 ltac:(lia) E) as I1.
  replace (k + S n) with (S k + n) in * by lia. apply IH; [|done]. split.
  - done.
  - unfold fresh_meta, no_captures. rewrite F1, F2, F3. done.
  - congruence.
  - lia.
  - congruence.
  - unfold fsm_getstart in *. by rewrite T7, T8.
  - congruence.
  - intros s Hs. destruct (decide (s = N.of_nat (f_statecount f))) as [->|Hne]; [done|].
    assert (live f s) as Hs' by (unfold live in *; lia). unfold fsm_isend. rewrite (T5 s Hs'). by apply B7.
Qed.

Lemma blank_bulk al n :
  (N.of_nat n < 2147483648)%N →
  ∃ f f', fsm_new al = Some f ∧ fsm_addstate_bulk f n = (true, f') ∧ blank_fsm al n f'.
Proof.
  intros Hn. destruct (blank_new al) as (f & E & B & Hs). pose proof B as [B1 (M1 & M2 & M3) BC B3 B4 B5 B6 B7].
  destruct (decide (n ≤ length (f_states f))) as [Hle|Hgt].
  - destruct (addstate_bulk_blank f n) as (f' & Eb & Ef & Hw & Hb); try done.
    { pose proof (inv_wf _ B1) as Hwf. rewrite (wf_endcount _ Hwf). unfold end_states. by rewrite B3, take_0. }
    { apply (inv_wf _ B1). }
    exists f, f'. do 2 (split; [done|]). rewrite Ef in Hw, Hb |- *. split; try done.
    + split; [done| | |].
      * split; [apply B1|]. split; [apply B1|]. cbn [f_endid_info f_eager_output_info with_statecount with_states]. rewrite M1, M2. split; intros k e Hk;
          by destruct (not_elem_of_empty_table DEF_BUCKET_COUNT k e).
      * intros s _. rewrite Hb. by intros k ?%not_elem_of_nil.
      * apply flags_nil. intros s _. unfold visited. by rewrite Hb.
    + intros s _. unfold fsm_isend. by rewrite Hb.
  - destruct (addstate_loop_blank al n 0 f B Hn) as (f' & El & B'). exists f, f'. split; [done|]. split; [|done].
    unfold fsm_addstate_bulk. by rewrite (proj2 (Nat.leb_gt _ _)) by (rewrite B3; lia).
Qed.
End Blank.

(** ** What the steps add *)

(** [g'] is [g] with the observations [P] added. *)
Record grows (P : N → observation → Prop) (g g' : fsm) : Prop := {
  gw_inv : fsm_inv g';
  gw_endid : endid_wf (f_endid_info g');
  gw_frame : keeps_frame g g';
  gw_obs : ∀ t o, observes g' t o ↔ observes g t o ∨ P t o;
}.

Lemma grows_refl g : fsm_inv g → endid_wf (f_endid_info g) → grows (λ _ _, False) g g.
Proof. intros Hi He. split; [done|done|done|]. naive_solver. Qed.

Lemma grows_trans P Q g g' g'' : grows P g g' → grows Q g' g'' → grows (λ t o, P t o ∨ Q t o) g g''.
Proof. intros [H1 H2 H3 H4] [K1 K2 K3 K4]. split; [done|done|by etrans|]. intros t o. rewrite K4, H4. tauto. Qed.

Lemma grows_iff P Q g g' : (∀ t o, P t o ↔ Q t o) → grows P g g' → grows Q g g'.
Proof. intros E [H1 H2 H3 H4]. split; [done|done|done|]. intros t o. by rewrite H4, E. Qed.

Lemma gains_grows s P g g' : gains s P g g' → grows (λ t o, t = s ∧ P o) g g'.
Proof. intros [H1 H2 H3 H4]. by split. Qed.

(** The edges, end mark and ids of a set of states. *)
Definition subset_obs (f : fsm) (X : list N) (es : edge_set_ptr) (o : observation) : Prop :=
  match o with
  | OEdge c t => has_edge es c t
  | OEnd => ∃ s, s ∈ X ∧ fsm_isend f s = true
  | OEndid x => ∃ s, s ∈ X ∧ fsm_isend f s = true ∧ x ∈ endids (f_endid_info f) s
  | OEager x => ∃ s, s ∈ X ∧ x ∈ eager_outputs (f_eager_output_info f) s
  end.

(** All but the eager outputs, which are added last. *)
Definition plain_obs (f : fsm) (X : list N) (es : edge_set_ptr) (o : observation) : Prop :=
  match o with OEager _ => False | _ => subset_obs f X es o end.

Section Carry.
Context `{allocator, !alloc_total}.

Lemma carry_ids al d s ids : ∀ g g',
  f_alloc g = al → add_endids ids g d = Some (true, g') →
  (iter_ids (carry_iter_cb al d) s ids (Some (true, f_endid_info g))).2 = Some (true, f_endid_info g') ∧
  g' = with_endid_info g (f_endid_info g').
Proof.
  induction ids as [|id ids IH]; intros g g' Ha; cbn [add_endids iter_ids].
  { intros [= <-]. split; [done|]. by destruct g. }
  unfold carry_iter_cb at 1. rewrite <-Ha. destruct (fsm_endid_set _ _ d id) as [[[] ei]|]; cbn [mbind option_bind]; [|done|done].
  intros E. destruct (IH (with_endid_info g ei) g' Ha E) as [I1 I2]. rewrite Ha. split; [done|]. by rewrite I2 at 1.
Qed.

Lemma endid_carry_run f d l : endid_weak (f_endid_info f) → Forall (λ s, s ≠ BUCKET_NO_STATE) l → ∀ g,
  fsm_inv g → endid_wf (f_endid_info g) → (N.of_nat (f_statecount g) < 1073741824)%N → live g d →
  ∃ g', endid_carry_loop l f g d = Some (true, g') ∧
    gains d (λ o, ∃ s x, s ∈ l ∧ fsm_isend f s = true ∧ x ∈ endids (f_endid_info f) s ∧ o = OEndid x) g g' ∧
    f_eager_output_info g' = f_eager_output_info g ∧ f_states g' = f_states g.
Proof.
  intros Hw. induction l as [|s l IH]; intros Hno g Hi He Hn Hd; cbn [endid_carry_loop].
  { exists g. split; [done|]. split; [|done]. eapply gains_iff; [|by apply gains_refl].
    intros o. split; [done|]. by intros (s & x & Hs%not_elem_of_nil & _). }
  apply Forall_cons in Hno as [Hs Hno]. destruct (fsm_isend f s) eqn:Es.
  2:{ destruct (IH Hno g Hi He Hn Hd) as (g' & E & G & F1 & F2). exists g'. split; [done|]. split; [|done].
      eapply gains_iff; [|exact G]. intros o. setoid_rewrite elem_of_cons. split; [naive_solver|].
      intros (t & x & [->|Ht] & H1 & H2 & ->); [congruence|eauto 10]. }
  assert (Forall id_ok (endids (f_endid_info f) s)) as Hok by (apply Forall_forall; intros x; by apply endids_ok).
  destruct (add_endids_spec d (endids (f_endid_info f) s) Hok g Hi He Hn Hd) as (g1 & E1 & G1 & F1 & F2).
  rewrite endid_iter_state by done. cbn [mbind option_bind].
  destruct (carry_ids (f_alloc g) d s _ g g1 eq_refl E1) as [-> Eg]. cbn [mbind option_bind]. rewrite <-Eg.
  destruct (IH Hno g1) as (g' & E & G & F3 & F4); [apply G1|apply G1| | |].
  { by rewrite (proj1 (gn_frame _ _ _ _ G1)). }
  { apply (keeps_frame_live g); [apply G1|done]. }
  exists g'. split; [done|]. split; [|split; congruence]. eapply gains_iff; [|eapply gains_trans; [exact G1|exact G]].
  intros o. setoid_rewrite elem_of_cons. split; [naive_solver|]. intros (t & x & [->|Ht] & H1 & H2 & ->); eauto 10.
Qed.

Lemma eager_ids d s ids : ∀ g g',
  set_eager_ids ids g d = Some (true, g') → (iter_ids (remap_eager_output_cb d) s ids (Some (true, g))).2 = Some (true, g').
Proof.
  induction ids as [|id ids IH]; intros g g'; cbn [set_eager_ids iter_ids]; [by intros [= <-]|].
  unfold remap_eager_output_cb at 1. destruct (eager_set g d id) as [[[] g1]|]; cbn [mbind option_bind]; [|done|done]. apply IH.
Qed.

(** The buckets used and those still needed for the state. *)
Definition eager_need (g : fsm) (d : N) : nat :=
  eo_buckets_used (f_eager_output_info g) + if decide (eager_outputs (f_eager_output_info g) d = []) then 1 else 0.

Lemma eager_ids_run d ids g :
  Forall id_ok ids → fsm_inv g → endid_wf (f_endid_info g) → live g d → (N.of_nat (eager_need g d) < 1073741824)%N →
  ∃ g', set_eager_ids ids g d = Some (true, g') ∧ gains d (λ o, ∃ x, x ∈ ids ∧ o = OEager x) g g' ∧ eager_need g' d ≤ eager_need g d.
Proof.
  intros Hok Hi He Hd Hr. destruct ids as [|id ids].
  { exists g. split; [done|]. split; [|lia]. eapply gains_iff; [|by apply gains_refl].
    intros o. split; [done|]. by intros (x & Hx%not_elem_of_nil & _). }
  destruct (set_eager_ids_spec d (id :: ids) Hok g Hi He Hd Hr) as (g' & E & G & U). exists g'. split; [done|]. split; [done|].
  unfold eager_need at 1. rewrite decide_False; [unfold eager_need; lia|]. intros Hnil.
  destruct (proj2 (gn_obs _ _ _ _ G d (OEager id))) as [_ Hin]; [right; split; [done|]; exists id; split; [left|done]|].
  rewrite Hnil in Hin. by apply not_elem_of_nil in Hin.
Qed.

Lemma eager_states_run f d l : eager_wf (f_eager_output_info f) → ∀ g,
  fsm_inv g → endid_wf (f_endid_info g) → live g d → (N.of_nat (eager_need g d) < 1073741824)%N →
  ∃ g', remap_eager_states l f d g = Some (true, g') ∧
    gains d (λ o, ∃ s x, s ∈ l ∧ x ∈ eager_outputs (f_eager_output_info f) s ∧ o = OEager x) g g' ∧ eager_need g' d ≤ eager_need g d.
Proof.
  intros Hw. induction l as [|s l IH]; intros g Hi He Hd Hr; cbn [remap_eager_states].
  { exists g. split; [done|]. split; [|lia]. eapply gains_iff; [|by apply gains_refl].
    intros o. split; [done|]. by intros (s & x & Hs%not_elem_of_nil & _). }
  assert (Forall id_ok (eager_outputs (f_eager_output_info f) s)) as Hok by (apply Forall_forall; intros x; by apply eager_outputs_ok).
  destruct (eager_ids_run d (eager_outputs (f_eager_output_info f) s) g Hok Hi He Hd Hr) as (g1 & E1 & G1 & U1).
  rewrite eager_iter_state, (eager_ids d s _ g g1 E1). cbn [mbind option_bind].
  destruct (IH g1) as (g' & E & G & U); [apply G1|apply G1| |lia|].
  { apply (keeps_frame_live g); [apply G1|done]. }
  exists g'. split; [done|]. split; [|lia]. eapply gains_iff; [|eapply gains_trans; [exact G1|exact G]].
  intros o. setoid_rewrite elem_of_cons. split; [naive_solver|]. intros (t & x & [->|Ht] & H2 & ->); eauto 10.
Qed.
End Carry.

(** ** The mappings one by one *)

Lemma state_set_has_spec set p : state_set_has set p = true ↔ ∃ s, s ∈ ss_elems set ∧ p s = true.
Proof.
  rewrite <-state_loop_elems. unfold state_set_has. rewrite existsb_exists. by setoid_rewrite list_elem_of_In.
Qed.

Section Build.
Context `{allocator, !alloc_total} (f : fsm) (start : N) (st : det_state).
Hypothesis Hfin : finished f start st.
Hypothesis Hwf : fsm_wf f.
Hypothesis Hmeta : fsm_meta f.
Hypothesis Hfew : (N.of_nat (length (dt_heap st)) < 1073741824)%N.

(** The set a mapping stands for. *)
Definition set_of (m : mapping) : list N := iss_states (dt_pool st) (m_iss m).

(** The automaton under construction. *)
Definition has_states (g : fsm) : Prop :=
  fsm_inv g ∧ endid_wf (f_endid_info g) ∧ f_statecount g = length (dt_heap st).

Lemma has_states_grows P g g' : has_states g → grows P g g' → has_states g'.
Proof. intros (H1 & H2 & H3) [G1 G2 (G3 & _) _]. split; [done|]. split; [done|congruence]. Qed.

Lemma heap_live g p m : has_states g → dt_heap st !! p = Some m → live g (N.of_nat p).
Proof. intros (_ & _ & E) Hp%lookup_lt_Some. unfold live. lia. Qed.

(** Its set, from a pool that extends the one of the construction. *)
Lemma heap_set issp p m :
  pool_ok issp → pool_extends (dt_pool st) issp → dt_heap st !! p = Some m →
  ∃ ss issp', interned_state_set_get_state_set issp (m_iss m) = Some (ss, issp') ∧ pool_ok issp' ∧
    pool_extends (dt_pool st) issp' ∧ state_loop ss = set_of m ∧ ss_elems ss = set_of m ∧ set_of m ≠ [] ∧ Forall (live f) (set_of m).
Proof.
  intros Hp Hx Hm. destruct (fi_heap _ _ _ Hfin p m Hm) as (_ & Hv & Hr & _). destruct (proj2 Hx _ Hv) as [Hv' Ev].
  destruct (get_state_set_spec issp (m_iss m) Hp Hv') as (ss & issp' & E & P1 & P2 & _ & _ & Eel).
  exists ss, issp'. split; [done|]. split; [done|]. split; [by trans issp|]. rewrite state_loop_elems, Eel, Ev.
  split; [done|]. split; [done|]. by destruct (reached_ok f _ Hwf Hr) as (? & _ & ?).
Qed.

Lemma install_mapping_run g issp p m :
  has_states g → dt_heap st !! p = Some m → st_edges (get_state g (N.of_nat p)) = None →
  pool_ok issp → pool_extends (dt_pool st) issp →
  ∃ g' issp', install_mapping f m g issp = Some (true, g', issp') ∧ pool_ok issp' ∧ pool_extends (dt_pool st) issp' ∧
    gains (N.of_nat p) (plain_obs f (set_of m) (m_edges m)) g g' ∧ f_eager_output_info g' = f_eager_output_info g ∧
    ∀ t, t ≠ N.of_nat p → st_edges (get_state g' t) = st_edges (get_state g t).
Proof.
  intros Hg Hm Hnull Hp Hx. pose proof Hg as (Hi & He & Hc). pose proof (heap_live g p m Hg Hm) as Hd.
  destruct (fi_heap _ _ _ Hfin p m Hm) as (Ed & _ & _ & [E1 E2 E3 E4]). pose proof (lookup_lt_Some _ _ _ Hm) as Hlt.
  assert (N.to_nat (N.of_nat p) < length (f_states g)) as Hl by (pose proof (wf_alloc _ (inv_wf _ Hi)); unfold live in Hd; lia).
  destruct (heap_set issp p m Hp Hx Hm) as (ss & issp' & Es & P1 & P2 & Eloop & Eel & _ & Hlive).
  unfold install_mapping. rewrite Ed, Hnull, (proj2 (N.ltb_lt _ _)) by lia. cbn [is_null andb]. rewrite Es. cbn [mbind option_bind].
  rewrite u32_small by lia. set (g1 := upd_state g (N.of_nat p) (set_edges (m_edges m))).
  assert (gains (N.of_nat p) (λ o, ∃ c t, o = OEdge c t ∧ has_edge (m_edges m) c t) g g1) as G1.
  { apply gains_set_edges; try done.
    - intros k [Hk _]%E2. unfold live. unfold map_isss in Hk. rewrite length_fmap in Hk. lia.
    - intros k [_ Hk]%E2. by right.
    - intros c t. rewrite Hnull. split; [by right|]. intros [(gr & Hgr%not_elem_of_nil & _)|?]; done. }
  assert (∀ t, t ≠ N.of_nat p → st_edges (get_state g1 t) = st_edges (get_state g t)) as F1.
  { intros t Ht. unfold g1. by rewrite get_upd, decide_False by done. }
  pose proof (state_set_has_spec ss (fsm_isend f)) as Hhas. rewrite Eel in Hhas. destruct (state_set_has ss (fsm_isend f)).
  - assert (live g1 (N.of_nat p)) as Hd1 by done.
    pose proof (gains_setend g1 (N.of_nat p) (gn_inv _ _ _ _ G1) (gn_endid _ _ _ _ G1) Hd1) as G2.
    destruct (endid_carry_run f (N.of_nat p) (state_loop ss) (proj1 Hmeta)) with (g := fsm_setend g1 (N.of_nat p) true)
      as (g2 & E & G3 & F2 & F3).
    { rewrite Eloop. eapply Forall_impl; [exact Hlive|]. intros s. by apply live_bucket. }
    { apply G2. }
    { apply G2. }
    { rewrite (proj1 (gn_frame _ _ _ _ G2)). cbn. lia. }
    { apply (keeps_frame_live g1); [apply G2|done]. }
    unfold fsm_endid_carry. rewrite E. cbn [mbind option_bind]. exists g2, issp'. do 3 (split; [done|]). split; [|split].
    + eapply gains_iff; [|eapply gains_trans; [eapply gains_trans; [exact G1|exact G2]|exact G3]]. intros o. rewrite Eloop.
      destruct (proj1 Hhas eq_refl) as (s0 & Hs0 & He0). destruct o as [c t| |x|x]; cbn; split.
      * intros [[(c' & t' & [= -> ->] & ?)|?]|(s & x & _ & _ & _ & ?)]; done.
      * intros ?. left. left. eauto.
      * eauto.
      * intros _. left. by right.
      * intros [[(c' & t' & ? & ?)|?]|(s & x' & H1 & H2 & H3 & [= ->])]; [done|done|eauto].
      * intros (s & H1 & H2 & H3). right. eauto 10.
      * intros [[(c' & t' & ? & ?)|?]|(s & x' & H1 & H2 & H3 & ?)]; done.
      * done.
    + rewrite F2. unfold fsm_setend. by destruct (eqb _ _).
    + intros t Ht. unfold get_state at 1. rewrite F3. fold (get_state (fsm_setend g1 (N.of_nat p) true) t).
      rewrite get_state_setend, decide_False; [by apply F1|done|]. unfold g1, upd_state. cbn [f_states with_states]. by rewrite length_alter.
  - exists g1, issp'. do 3 (split; [done|]). split; [|by split]. eapply gains_iff; [|exact G1]. intros o.
    assert (∀ s, s ∈ set_of m → fsm_isend f s = true → False) as Hno by (intros s Hs Hs'; enough (false = true) by done; apply Hhas; eauto).
    destruct o as [c t| |x|x]; cbn; split.
    + intros (c' & t' & [= -> ->] & ?); done.
    + eauto.
    + intros (c' & t' & ? & ?); done.
    + intros (s & H1 & H2). by destruct (Hno s).
    + intros (c' & t' & ? & ?); done.
    + intros (s & H1 & H2 & _). by destruct (Hno s).
    + intros (c' & t' & ? & ?); done.
    + done.
Qed.

Lemma install_mappings_run l : ∀ g issp,
  has_states g → NoDup l → (∀ p, p ∈ l → p < length (dt_heap st)) →
  (∀ p, p ∈ l → st_edges (get_state g (N.of_nat p)) = None) → pool_ok issp → pool_extends (dt_pool st) issp →
  ∃ g' issp', install_mappings l f (dt_map st) g issp = Some (true, g', issp') ∧ pool_ok issp' ∧ pool_extends (dt_pool st) issp' ∧
    grows (λ t o, ∃ p m, p ∈ l ∧ dt_heap st !! p = Some m ∧ t = N.of_nat p ∧ plain_obs f (set_of m) (m_edges m) o) g g' ∧
    f_eager_output_info g' = f_eager_output_info g.
Proof.
  induction l as [|p l IH]; intros g issp Hg Hnd Hl Hnull Hp Hx; cbn [install_mappings].
  { exists g, issp. do 3 (split; [done|]). split; [|done]. destruct Hg as (Hi & He & _). eapply grows_iff; [|by apply grows_refl].
    intros t o. split; [done|]. by intros (p & m & Hin%not_elem_of_nil & _). }
  apply NoDup_cons in Hnd as [Hni Hnd]. destruct (lookup_lt_is_Some_2 (dt_heap st) p) as [m Hm]; [apply Hl; left|].
  rewrite Hm. cbn [mbind option_bind].
  destruct (install_mapping_run g issp p m Hg Hm) as (g1 & issp1 & -> & P1 & X1 & G1 & F1 & N1); [apply Hnull; left|done|done|].
  cbn [mbind option_bind]. destruct (IH g1 issp1) as (g' & issp' & -> & P2 & X2 & G2 & F2); try done.
  { eapply has_states_grows; [exact Hg|]. by eapply gains_grows. }
  { intros q Hq. apply Hl. by right. }
  { intros q Hq. rewrite N1; [apply Hnull; by right|]. intros ->%Nat2N.inj. done. }
  exists g', issp'. do 3 (split; [done|]). split; [|congruence].
  eapply grows_iff; [|eapply grows_trans; [eapply gains_grows, G1|exact G2]]. intros t o. setoid_rewrite elem_of_cons. split.
  - intros [[-> Ho]|(q & m' & Hq & Hm' & -> & Ho)]; eauto 10.
  - intros (q & m' & [->|Hq] & Hm' & -> & Ho); [|eauto 10]. rewrite Hm in Hm'. injection Hm' as <-. by left.
Qed.

Lemma remap_eager_run l : ∀ g issp,
  has_states g → (∀ p, p ∈ l → p < length (dt_heap st)) → pool_ok issp → pool_extends (dt_pool st) issp →
  (N.of_nat (eo_buckets_used (f_eager_output_info g) + length l) < 1073741824)%N →
  ∃ g' issp', remap_eager_loop l (dt_map st) issp g f = Some (true, g', issp') ∧
    grows (λ t o, ∃ p m x, p ∈ l ∧ dt_heap st !! p = Some m ∧ t = N.of_nat p ∧ o = OEager x ∧ subset_obs f (set_of m) (m_edges m) o) g g'.
Proof.
  induction l as [|p l IH]; intros g issp Hg Hl Hp Hx Hr; cbn [remap_eager_loop].
  { exists g, issp. split; [done|]. destruct Hg as (Hi & He & _). eapply grows_iff; [|by apply grows_refl].
    intros t o. split; [done|]. by intros (p & m & x & Hin%not_elem_of_nil & _). }
  destruct (lookup_lt_is_Some_2 (dt_heap st) p) as [m Hm]; [apply Hl; left|]. rewrite Hm. cbn [mbind option_bind].
  destruct (heap_set issp p m Hp Hx Hm) as (ss & issp1 & -> & P1 & X1 & Eloop & Eel & Hne & _). cbn [mbind option_bind].
  pose proof (heap_live g p m Hg Hm) as Hd. destruct (fi_heap _ _ _ Hfin p m Hm) as (-> & _). pose proof (lookup_lt_Some _ _ _ Hm).
  rewrite u32_small by lia. cbn [length] in Hr. pose proof Hg as (Hi & He & _).
  assert (eager_need g (N.of_nat p) ≤ S (eo_buckets_used (f_eager_output_info g))) as Hneed by (unfold eager_need; case_decide; lia).
  destruct (eager_states_run f (N.of_nat p) (state_loop ss) (proj1 (proj2 Hmeta)) g Hi He Hd ltac:(lia)) as (g1 & E1 & G1 & U1).
  assert (eo_buckets_used (f_eager_output_info g1) ≤ eager_need g1 (N.of_nat p)) as Hused by (unfold eager_need; lia).
  destruct (IH g1 issp1) as (g' & issp' & E & G2); try done.
  { eapply has_states_grows; [exact Hg|]. by eapply gains_grows. }
  { intros q Hq. apply Hl. by right. }
  { lia. }
  exists g', issp'. split.
  { rewrite E1. cbn [mbind option_bind]. destruct ss; [by cbn in Eel|exact E|exact E]. }
  eapply grows_iff; [|eapply grows_trans; [eapply gains_grows, G1|exact G2]]. intros t o. setoid_rewrite elem_of_cons. rewrite Eloop. split.
  - intros [[-> (s & x & Hs & Hx' & ->)]|(q & m' & x & Hq & Hm' & -> & -> & Ho)]; [|eauto 10].
    exists p, m, x. split; [by left|]. do 3 (split; [done|]). exists s. done.
  - intros (q & m' & x & [->|Hq] & Hm' & -> & -> & Ho); [|eauto 10]. rewrite Hm in Hm'. injection Hm' as <-. left. split; [done|].
    destruct Ho as (s & Ho1 & Ho2). eauto.
Qed.

(** The result: the states are the mappings. *)
Record subset_dfa (dfa : fsm) : Prop := {
  sd_states : has_states dfa;
  sd_alloc : f_alloc dfa = f_alloc f;
  sd_start : fsm_getstart dfa = Some 0%N;
  sd_linkage : f_linkage_info dfa = None;
  sd_captures : f_capture_info dfa = mk_capture 0 0 [];
  sd_eps : ∀ s t, ¬ f_eps dfa s t;
  sd_obs : ∀ p m o, dt_heap st !! p = Some m → observes dfa (N.of_nat p) o ↔ subset_obs f (set_of m) (m_edges m) o;
}.

Lemma fresh_nothing g s o : fresh_meta g → (∀ t, live g t → st_edges (get_state g t) = None ∧ fsm_isend g t = false) → ¬ observes g s o.
Proof.
  intros (M1 & M2 & _) Hb [Hs Ho]. destruct (Hb s Hs) as [B1 B2]. destruct o as [c t| |x|x].
  - rewrite B1 in Ho. destruct Ho as (gr & Hgr%not_elem_of_nil & _). done.
  - congruence.
  - rewrite M1 in Ho. unfold endids in Ho. destruct (table_get _ s) as [e|] eqn:Eg; [|by apply not_elem_of_nil in Ho].
    apply table_get_spec in Eg; [|apply fresh_endid_wf]. by destruct (not_elem_of_empty_table DEF_BUCKET_COUNT s e).
  - rewrite M2 in Ho. unfold eager_outputs in Ho. destruct (table_get _ s) as [e|] eqn:Eg; [|by apply not_elem_of_nil in Ho].
    apply table_get_spec in Eg; [|apply fresh_eager_wf]. by destruct (not_elem_of_empty_table DEF_BUCKET_COUNT s e).
Qed.

Lemma build_dfa_run : fsm_countcaptures f = 0%N → ∃ dfa, build_dfa f st = Some (Some dfa) ∧ subset_dfa dfa.
Proof.
  intros Hcap. unfold build_dfa. pose proof (fi_count _ _ _ Hfin) as Hcount.
  destruct (blank_bulk (f_alloc f) (dfacount st)) as (g0 & g & -> & -> & [B1 B2 BC B3 B4 B5 B6 B7]); [lia|].
  rewrite (proj2 (Nat.eqb_eq _ _)) by done.
  destruct (fi_start _ _ _ Hfin) as (m0 & Hm0 & _). pose proof (lookup_lt_Some _ _ _ Hm0) as Hpos.
  assert (live g 0) as H0live by (unfold live; lia).
  assert (has_states (fsm_setstart g 0)) as Hg1.
  { split; [by apply inv_setstart|]. split; [|cbn; lia]. cbn. rewrite (proj1 B2). apply fresh_endid_wf. }
  assert (∀ p, p ∈ map_iter (dt_map st) ↔ p < length (dt_heap st)) as Hit.
  { intros p. rewrite (map_iter_spec _ (fi_map _ _ _ Hfin)), elem_of_seq. lia. }
  destruct (install_mappings_run (map_iter (dt_map st)) (fsm_setstart g 0) (dt_pool st)) as (g2 & issp2 & -> & P2 & X2 & G2 & F2); try done.
  { rewrite (map_iter_spec _ (fi_map _ _ _ Hfin)). apply NoDup_seq. }
  { intros p. by rewrite Hit. }
  { intros p Hp%Hit. apply (B7 (N.of_nat p)). unfold live. lia. }
  { apply Hfin. }
  cbn [mbind option_bind]. unfold det_remap_capture_actions. rewrite Hcap. cbn [N.eqb mbind option_bind].
  pose proof (has_states_grows _ _ _ Hg1 G2) as Hg2.
  unfold remap_eager_outputs. destruct (remap_eager_run (map_iter (dt_map st)) g2 issp2 Hg2) as (g3 & issp3 & -> & G3); try done.
  { intros p. by rewrite Hit. }
  { rewrite F2. cbn. destruct B2 as (_ & -> & _). cbn. rewrite (map_iter_spec _ (fi_map _ _ _ Hfin)), length_seq. lia. }
  cbn [mbind option_bind]. exists g3. split; [done|].
  pose proof (grows_trans _ _ _ _ _ G2 G3) as G. pose proof (gw_frame _ _ _ G) as (K1 & K2 & K3 & K4 & K5 & K6). split.
  - by eapply has_states_grows.
  - rewrite K2. cbn. done.
  - rewrite K3. done.
  - rewrite K5. done.
  - rewrite K4. exact BC.
  - intros s t [Hs Ht]. assert (live g s) as Hs' by (unfold live in *; rewrite K1 in Hs; done).
    rewrite K6 in Ht by done. destruct (B7 s Hs') as (_ & E & _). change (get_state (fsm_setstart g 0) s) with (get_state g s) in Ht.
    rewrite E in Ht. by apply not_elem_of_nil in Ht.
  - intros p m o Hm. rewrite (gw_obs _ _ _ G). pose proof (lookup_lt_Some _ _ _ Hm) as Hlt. split.
    + intros [Ho|[(q & m' & _ & Hm' & ->%Nat2N.inj & Ho)|(q & m' & x & _ & Hm' & ->%Nat2N.inj & -> & Ho)]].
      * exfalso. revert Ho. apply (fresh_nothing (fsm_setstart g 0)); [done|]. intros t Ht. destruct (B7 t Ht) as (? & _ & ?). done.
      * rewrite Hm in Hm'. injection Hm' as <-. destruct o; done.
      * rewrite Hm in Hm'. injection Hm' as <-. done.
    + intros Ho. right. destruct o as [c t| |x|x]; [left|left|left|right].
      * exists p, m. rewrite Hit. done.
      * exists p, m. rewrite Hit. done.
      * exists p, m. rewrite Hit. done.
      * exists p, m, x. rewrite Hit. done.
Qed.
End Build.
