(* ===== verification/DetSpec.v ===== *)
(** * What [fsm_determinise] computes

    The automaton returned is deterministic, and what it shows of a word
    (whether it is accepted, its end ids, its eager outputs) is what the states
    the word leads to in the original show. *)

From S2P Require Import Prelude StateSet Bits EdgeSet EdgeIter EdgeCompact Probe Endids EagerOutput.
From S2P Require Import Lang Fsm FsmSpec Queue Search FsmCompact FsmInv Pred Trim Capture Combine Clone Exec Closure Epsilons EpsilonsSpec.
From S2P Require Import InternedSet DetCache DetAnalysis DetSingle DetAnalysisSpec DetMap Determinise DetLoop DetBuild.

(** ** The construction from its start *)

Section Start.
Context `{allocator, !alloc_total} (f : fsm) (start : N).
Hypothesis Hwf : fsm_wf f.
Hypothesis Hst : fsm_getstart f = Some start.

Lemma env_at_start issp : pool_ok issp → ip_sets issp = [] → env_at f 0 (empty_env f issp).
Proof.
  intros Hp Es. exists []. split; [|split; [cbn; lia|]].
  - split; try done.
    + split; cbn; [by left|done|done|by left|by intros b ?%not_elem_of_nil|done].
    + split; cbn; [by left|done|done|by left|by constructor].
    + intros k r Hk. unfold cached in Hk. by apply not_elem_of_nil in Hk.
    + cbn. lia.
  - split; [|done]. intros i Hi. cbn [empty_env ae_issp] in Hi. rewrite Es in Hi. cbn in Hi. lia.
Qed.

Lemma working_start issp map iss ceil :
  pool_ok issp → map_ok map → mp_heap map = [mk_mapping iss 0 None] → iss_valid issp iss → iss_states issp iss = [start] →
  working f start [] 0 (λ _, False) (mk_det (empty_env f issp) map (mk_stack ceil []) 1).
Proof.
  intros Hp Hm Eh Hv Es.
  assert (∀ p m, mp_heap map !! p = Some m → p = 0 ∧ m = mk_mapping iss 0 None) as Hl.
  { intros p m. rewrite Eh. destruct p as [|[|p]]; [by intros [= <-]|done|done]. }
  split; cbn [dt_env dt_map dt_stack dfacount empty_env ae_issp sk_s]; try done.
  - by rewrite Eh.
  - intros p m [-> ->]%Hl. cbn [m_iss m_dfastate]. split; [done|]. split; [done|]. rewrite Es. by apply reached_start.
  - eexists. rewrite Eh. split; [done|]. done.
  - by rewrite Eh.
  - by intros p m ?%not_elem_of_nil.
  - intros m [_ ->]%Hl. apply edges_part_none.
  - by intros p m ?%not_elem_of_nil.
Qed.

(** The whole of the function on an automaton without epsilon transitions. *)
Lemma determinise_dfa_run D fuel issp :
  fsm_meta f → bounds_ok f D → D ≤ fuel → fsm_countcaptures f = 0%N → pool_ok issp → ip_sets issp = [] →
  ∃ st dfa, determinise_dfa fuel f 0 issp = Some (FSM_DETERMINISE_WITH_CONFIG_OK, fsm_move f dfa) ∧
    finished f start st ∧ length (dt_heap st) ≤ D ∧ subset_dfa f st dfa.
Proof.
  intros Hmeta HB Hfuel Hcap Hp Es. pose proof (bo_few _ _ HB) as Hfew. unfold determinise_dfa. cbn [N.eqb negb andb]. rewrite Hst.
  destruct (intern_set_spec issp [start]) as (issp' & iss & Ei & P1 & _ & V1 & S1 & _ & L1); try done.
  { repeat constructor. }
  { constructor; [|done]. apply (live_lt32 f); [done|]. by apply wf_start. }
  { rewrite Es. cbn. lia. }
  assert (issp' = issp) as -> by (cbn in Ei; by injection Ei).
  rewrite Ei. cbn [mbind option_bind].
  destruct (map_add_spec (f_alloc f) (mk_map 0 [] []) 0 iss map_ok_empty) as (map & -> & M1 & M2); [apply not_elem_of_nil|cbn; lia|].
  cbn [mbind option_bind mp_heap length]. unfold stack_init. rewrite !f_malloc_total.
  destruct (det_loop_run f start (f_alloc f) D Hwf HB fuel [] 0
    (mk_det (empty_env f issp) map (mk_stack MAPPINGSTACK_DEF_CEIL []) 1)) as (st & -> & Hfin).
  { apply (working_start issp map iss); [done|done|exact M2|done|done]. }
  { by apply env_at_start. }
  { cbn. lia. }
  cbn [mbind option_bind].
  assert (length (dt_heap st) ≤ D) as Hlen by (apply (finished_few f start); [done|apply HB]).
  destruct (build_dfa_run f start st Hfin Hwf Hmeta ltac:(lia) Hcap) as (dfa & -> & Hd). cbn [mbind option_bind].
  exists st, dfa. split; [|done]. unfold fsm_move. rewrite (sd_alloc _ _ _ Hd), N.eqb_refl. cbn [f_linkage_info]. by rewrite (sd_linkage _ _ _ Hd).
Qed.
End Start.

(** ** Words *)

Lemma path_no_eps A s c w t :
  (∀ s t, ¬ n_eps A s t) → path A s (c :: w) t ↔ ∃ s', n_edge A s c s' ∧ path A s' w t.
Proof.
  intros Hno. split.
  - intros (s1 & s2 & H1 & H2 & H3)%path_cons_inv. inversion H1 as [|? y]; subst; [eauto|]. by destruct (Hno s y).
  - intros (s' & H1 & H2). by eapply path_step.
Qed.

Lemma path_nil_no_eps A s t : (∀ s t, ¬ n_eps A s t) → path A s [] t ↔ t = s.
Proof.
  intros Hno. rewrite path_nil_rtc. split; [|by intros ->]. inversion 1 as [|? y]; subst; [done|]. by destruct (Hno s y).
Qed.

Lemma path_snoc_no_eps A s w c t :
  (∀ s t, ¬ n_eps A s t) → path A s (w ++ [c]) t ↔ ∃ u, path A s w u ∧ n_edge A u c t.
Proof.
  intros Hno. split.
  - intros (u & H1 & (v & H2 & ->%path_nil_no_eps)%path_no_eps)%path_app_inv; [eauto|done|done].
  - intros (u & H1 & H2). eapply path_app; [done|]. apply path_no_eps; [done|]. eexists. split; [done|constructor].
Qed.

(** Where a word leads: for a word that is not empty, by an edge with its last
    character. *)
Definition word_dest (f : fsm) (start : N) (w : list nat) (t : N) : Prop :=
  w = [] ∧ t = start ∨ ∃ w' c e, w = w' ++ [c] ∧ path (nfa_of f) start w' e ∧ f_edge f e c t.

Lemma word_dest_snoc f start w c t : word_dest f start (w ++ [c]) t ↔ ∃ e, path (nfa_of f) start w e ∧ f_edge f e c t.
Proof.
  split; [|intros (e & H1 & H2); right; eauto 10].
  intros [[E _]|(w' & c' & e & [-> [= ->]]%app_inj_2 & H1 & H2)]; [by destruct w|eauto|done].
Qed.

Lemma path_word_dest f start w e : path (nfa_of f) start w e ↔ ∃ s, word_dest f start w s ∧ rtc (f_eps f) s e.
Proof.
  split.
  - destruct w as [|c w _] using rev_ind.
    + intros Hp%path_nil_rtc. exists start. split; [by left|done].
    + intros (s & H1 & (s1 & s2 & H2 & H3 & H4%path_nil_rtc)%path_cons_inv)%path_app_inv. exists s2. split; [|done].
      apply word_dest_snoc. exists s1. split; [|done]. rewrite <-(app_nil_r w). eapply path_app; [done|]. by apply path_nil_rtc.
  - intros (s & [[-> ->]|(w' & c & e' & -> & H1 & H2)] & Hr); [by apply path_nil_rtc|].
    eapply path_app; [done|]. eapply path_step; [done|]. by apply path_nil_rtc.
Qed.

(** The sets of states that the words lead to. *)
Definition word_set (f : fsm) (start : N) (X : list N) : Prop :=
  X ≠ [] ∧ increasing X ∧ ∃ w, ∀ t, t ∈ X ↔ word_dest f start w t.

Lemma removes_refl f : fsm_inv f → endid_wf (f_endid_info f) → (∀ s t, ¬ f_eps f s t) → removes_epsilons f f.
Proof.
  intros Hi He Hno. split; try done. intros s o _. unfold lifted. split; [intros Ho; by exists s|].
  intros (e & Hr & Ho). inversion Hr as [|? y]; subst; [done|]. by destruct (Hno s y).
Qed.

Lemma word_dest_handled f start w t : fsm_getstart f = Some start → word_dest f start w t → handled f t.
Proof. intros Hst [[_ ->]|(w' & c & e & _ & _ & He)]; [by left|right; eauto]. Qed.

Lemma removes_path f f1 start w t :
  fsm_getstart f = Some start → removes_epsilons f f1 → path (nfa_of f1) start w t ↔ word_dest f start w t.
Proof.
  intros Hst R. revert t. induction w as [|c w IH] using rev_ind; intros t.
  - rewrite path_nil_no_eps by apply R. split; [intros ->; by left|]. intros [[_ ->]|(w' & c & e & E & _)]; [done|by destruct w'].
  - rewrite path_snoc_no_eps by apply R. rewrite word_dest_snoc. setoid_rewrite IH. split.
    + intros (u & Hu & He). apply (rm_obs _ _ R u (OEdge c t)) in He as (e & Hr & He); [|by eapply word_dest_handled].
      exists e. split; [|exact He]. apply path_word_dest. eauto.
    + intros (e & (s & Hs & Hr)%path_word_dest & He). exists s. split; [done|].
      apply (rm_obs _ _ R s (OEdge c t)); [by eapply word_dest_handled|]. exists e. done.
Qed.

Lemma reached_word f start X :
  (∀ s t, ¬ f_eps f s t) → fsm_getstart f = Some start → reached f X → ∃ w, ∀ t, t ∈ X ↔ path (nfa_of f) start w t.
Proof.
  intros Hno Hst. induction 1 as [s Hs|X c Y _ (w & Hw) (_ & _ & HY)].
  - exists []. intros t. rewrite path_nil_no_eps, list_elem_of_singleton by done. rewrite Hst in Hs. by injection Hs as ->.
  - exists (w ++ [c]). intros t. rewrite HY, path_snoc_no_eps by done. by setoid_rewrite Hw.
Qed.

Lemma at_most_mono D (P Q : list N → Prop) : (∀ X, P X → Q X) → at_most D Q → at_most D P.
Proof. intros HPQ HQ l Hnd Hl. apply HQ; [done|]. by eapply Forall_impl. Qed.

(** ** The paths of the result *)

Section Paths.
Context (f : fsm) (start : N) (st : det_state) (dfa : fsm).
Hypothesis Hwf : fsm_wf f.
Hypothesis Hno : ∀ s t, ¬ f_eps f s t.
Hypothesis Hst : fsm_getstart f = Some start.
Hypothesis Hfin : finished f start st.
Hypothesis Hdfa : subset_dfa f st dfa.

Lemma dfa_edge p m c t :
  dt_heap st !! p = Some m → f_edge dfa (N.of_nat p) c t →
  ∃ q m', t = N.of_nat q ∧ dt_heap st !! q = Some m' ∧ step_set f (set_of st m) c (set_of st m').
Proof.
  intros Hm He. apply (sd_obs _ _ _ Hdfa p m (OEdge c t) Hm) in He. cbn in He.
  destruct (fi_heap _ _ _ Hfin p m Hm) as (_ & _ & _ & [_ _ E3 _]). destruct (E3 c t He) as (iss & Hi & Hs).
  unfold map_isss in Hi. rewrite list_lookup_fmap in Hi. destruct (dt_heap st !! N.to_nat t) as [m'|] eqn:Et; [|done].
  injection Hi as <-. exists (N.to_nat t), m'. split; [by rewrite N2Nat.id|]. done.
Qed.

Lemma dfa_path w : ∀ p m t,
  dt_heap st !! p = Some m → path (nfa_of dfa) (N.of_nat p) w t →
  ∃ q m', t = N.of_nat q ∧ dt_heap st !! q = Some m' ∧ ∀ s', s' ∈ set_of st m' ↔ ∃ s, s ∈ set_of st m ∧ path (nfa_of f) s w s'.
Proof.
  induction w as [|c w IH]; intros p m t Hm Hp.
  - apply path_nil_no_eps in Hp as ->; [|apply Hdfa]. exists p, m. do 2 (split; [done|]). intros s'.
    setoid_rewrite path_nil_no_eps; [|done]. naive_solver.
  - apply path_no_eps in Hp as (t1 & He & Hp); [|apply Hdfa]. destruct (dfa_edge p m c t1 Hm He) as (q1 & m1 & -> & Hm1 & _ & _ & Hs).
    destruct (IH q1 m1 t Hm1 Hp) as (q & m' & -> & Hm' & Hx). exists q, m'. do 2 (split; [done|]). intros s'. rewrite Hx.
    setoid_rewrite path_no_eps; [|done]. setoid_rewrite Hs. cbn. naive_solver.
Qed.

Lemma dfa_path_exists w : ∀ p m s s',
  dt_heap st !! p = Some m → s ∈ set_of st m → path (nfa_of f) s w s' → ∃ t, path (nfa_of dfa) (N.of_nat p) w t.
Proof.
  induction w as [|c w IH]; intros p m s s' Hm Hs Hp; [eexists; constructor|].
  apply path_no_eps in Hp as (s1 & He & Hp); [|done]. destruct (fi_heap _ _ _ Hfin p m Hm) as (_ & _ & _ & [_ _ _ E4]).
  destruct (E4 c) as [t1 Ht1]; [by exists s, s1|].
  assert (f_edge dfa (N.of_nat p) c t1) as He1 by (by apply (sd_obs _ _ _ Hdfa p m (OEdge c t1) Hm)).
  destruct (dfa_edge p m c t1 Hm He1) as (q & m' & -> & Hm' & _ & _ & Hx).
  destruct (IH q m' s1 s' Hm') as [t Ht]; [apply Hx; by exists s|done|]. exists t. by eapply path_step.
Qed.

(** A set has one mapping. *)
Lemma set_of_inj p q m m' : dt_heap st !! p = Some m → dt_heap st !! q = Some m' → set_of st m = set_of st m' → p = q.
Proof.
  intros Hm Hm' E. destruct (fi_heap _ _ _ Hfin p m Hm) as (_ & V1 & _). destruct (fi_heap _ _ _ Hfin q m' Hm') as (_ & V2 & _).
  pose proof (iss_states_inj _ _ _ (fi_pool _ _ _ Hfin) V1 V2 E) as Ei.
  apply (NoDup_lookup (dt_isss st) p q (m_iss m)); [apply map_isss_NoDup, Hfin| |]; unfold map_isss; rewrite list_lookup_fmap; [rewrite Hm|rewrite Hm']; cbn; congruence.
Qed.

Lemma dfa_live t : live dfa t → ∃ m, dt_heap st !! N.to_nat t = Some m.
Proof. intros Ht. destruct (sd_states _ _ _ Hdfa) as (_ & _ & E). apply lookup_lt_is_Some. unfold live in Ht. lia. Qed.

Lemma dfa_deterministic : deterministic (nfa_of dfa).
Proof.
  split; [apply Hdfa|]. split; [|intros s s'; cbn; rewrite (sd_start _ _ _ Hdfa); congruence].
  intros s c t t' He He'. destruct (dfa_live s) as [m Hm]; [apply He|]. rewrite <-(N2Nat.id s) in He, He'.
  destruct (dfa_edge _ m c t Hm He) as (q & m1 & -> & Hm1 & S1). destruct (dfa_edge _ m c t' Hm He') as (q' & m2 & -> & Hm2 & S2).
  f_equal. eapply set_of_inj; [done|done|]. by eapply step_set_unique.
Qed.

(** The states of the result and the words that lead to them. *)
Lemma dfa_word w t :
  path (nfa_of dfa) 0 w t → ∃ q m, t = N.of_nat q ∧ dt_heap st !! q = Some m ∧ ∀ s, s ∈ set_of st m ↔ path (nfa_of f) start w s.
Proof.
  intros Hp. destruct (fi_start _ _ _ Hfin) as (m0 & Hm0 & E0). destruct (dfa_path w 0 m0 t Hm0 Hp) as (q & m & -> & Hm & Hx).
  exists q, m. do 2 (split; [done|]). intros s. rewrite Hx. unfold set_of. rewrite E0. setoid_rewrite list_elem_of_singleton. naive_solver.
Qed.

Lemma dfa_word_exists w s : path (nfa_of f) start w s → ∃ t, path (nfa_of dfa) 0 w t.
Proof.
  destruct (fi_start _ _ _ Hfin) as (m0 & Hm0 & E0). apply (dfa_path_exists w 0 m0 start s Hm0). unfold set_of. rewrite E0. left.
Qed.

Lemma dfa_reached t : live dfa t → ∃ w, path (nfa_of dfa) 0 w t.
Proof.
  intros Ht. destruct (dfa_live t Ht) as [m Hm]. destruct (fi_heap _ _ _ Hfin _ m Hm) as (_ & _ & Hr & _).
  destruct (reached_word f start _ Hno Hst Hr) as (w & Hw). destruct (reached_ok f _ Hwf Hr) as (Hne & Hinc & _).
  destruct (iss_states (dt_pool st) (m_iss m)) as [|s X] eqn:E; [done|]. destruct (dfa_word_exists w s) as [t' Ht']; [apply Hw; left|].
  exists w. destruct (dfa_word w t' Ht') as (q & m' & -> & Hm' & Hx). enough (N.to_nat t = q) as <- by (by rewrite N2Nat.id in Ht').
  eapply set_of_inj; [done|done|]. destruct (fi_heap _ _ _ Hfin _ m' Hm') as (_ & _ & Hr' & _). destruct (reached_ok f _ Hwf Hr') as (_ & Hinc' & _).
  apply increasing_ext; [unfold set_of; by rewrite E|done|]. intros x. rewrite Hx. unfold set_of. by rewrite E, Hw.
Qed.
End Paths.

(** ** How many sets there are *)

Fixpoint all_sets (n : nat) : list (list N) :=
  match n with
  | 0 => [[]]
  | S n => all_sets n ++ ((λ X, X ++ [N.of_nat n]) <$> all_sets n)
  end.

Lemma length_all_sets n : length (all_sets n) = 2 ^ n.
Proof. induction n as [|n IH]; cbn [all_sets]; [done|]. rewrite length_app, length_fmap, IH, Nat.pow_succ_r'. lia. Qed.

Lemma increasing_app_lt X x : increasing (X ++ [x]) → increasing X ∧ Forall (λ y, (y < x)%N) X.
Proof.
  intros Hi. split.
  - apply (increasing_sublist X (X ++ [x])); [|done]. apply sublist_inserts_r. done.
  - apply Forall_forall. intros y [i Hy]%list_elem_of_lookup. pose proof (lookup_lt_Some _ _ _ Hy).
    eapply (increasing_lookup (X ++ [x]) i (length X)); [done|lia|by apply lookup_app_l_Some|by apply list_lookup_middle].
Qed.

Lemma elem_of_all_sets n : ∀ X, increasing X → Forall (λ x, N.to_nat x < n) X → X ∈ all_sets n.
Proof.
  induction n as [|n IH]; intros X Hi Hl; cbn [all_sets].
  { destruct X as [|x X]; [left|]. apply Forall_cons in Hl as [? _]. lia. }
  apply elem_of_app. destruct X as [|x X _] using rev_ind; [left; apply IH; [done|constructor]|].
  apply increasing_app_lt in Hi as Hx. destruct Hx as [Hi' Hx]. apply Forall_app in Hl as [Hl Hxn]. rewrite Forall_singleton in Hxn.
  destruct (decide (N.to_nat x = n)) as [<-|Hne].
  - right. apply list_elem_of_fmap. exists X. split; [by rewrite N2Nat.id|]. apply IH; [done|]. eapply Forall_impl; [exact Hx|]. cbn. lia.
  - left. apply IH; [done|]. apply Forall_app. split; [|apply Forall_singleton; cbn; lia]. eapply Forall_impl; [exact Hx|]. cbn. lia.
Qed.

Lemma word_dest_live f start w t : fsm_wf f → fsm_getstart f = Some start → word_dest f start w t → live f t.
Proof. intros Hwf Hst [[_ ->]|(w' & c & e & _ & _ & He)]; [by apply wf_start|by eapply f_edge_live]. Qed.

Lemma word_sets_most f start : fsm_wf f → fsm_getstart f = Some start → at_most (2 ^ f_statecount f) (word_set f start).
Proof.
  intros Hwf Hst l Hnd Hl. rewrite <-length_all_sets. apply submseteq_length, NoDup_submseteq; [done|].
  intros X HX. destruct (proj1 (Forall_forall _ _) Hl X HX) as (_ & Hi & w & Hw). apply elem_of_all_sets; [done|].
  apply Forall_forall. intros t Ht%Hw. by eapply word_dest_live.
Qed.

(** ** [fsm_determinise] *)

(** What is observed of a state besides its edges. *)
Definition on_state (o : observation) : Prop := match o with OEdge _ _ => False | _ => True end.

(** [f'] is deterministic, and a word leads to a state that shows what the
    states it leads to in [f] show. *)
Record determinises (f : fsm) (start : N) (f' : fsm) : Prop := {
  dz_inv : fsm_inv f';
  dz_det : deterministic (nfa_of f');
  dz_start : fsm_getstart f' = Some 0%N;
  dz_words : ∀ w, (∃ t, path (nfa_of f') 0 w t) ↔ ∃ e, path (nfa_of f) start w e;
  dz_obs : ∀ w t o, path (nfa_of f') 0 w t → on_state o →
    observes f' t o ↔ ∃ e, path (nfa_of f) start w e ∧ observes f e o;
  dz_reached : ∀ t, live f' t → ∃ w, path (nfa_of f') 0 w t;
  dz_endid : endid_wf (f_endid_info f');
}.

Lemma determinises_language f start f' w :
  fsm_getstart f = Some start → determinises f start f' → language f' w ↔ language f w.
Proof.
  intros Hst [D1 D2 D3 D4 D5 _ _]. unfold language, accepts. cbn. rewrite Hst, D3. split.
  - intros (s & t & [= <-] & Hp & He). destruct (proj1 (D5 w t OEnd Hp I) He) as (e & Hpe & Hee). eauto 10.
  - intros (s & t & [= <-] & Hp & He). destruct (proj2 (D4 w)) as [t' Ht']; [eauto|]. exists 0%N, t'. split; [done|]. split; [done|].
    apply (D5 w t' OEnd Ht' I). eauto.
Qed.

(** What determinisation needs of the automaton, which has no captures; the
    words lead to at most [D] sets of states. *)
Record det_ready (f : fsm) (start : N) (D : nat) : Prop := {
  dr_inv : fsm_inv f;
  dr_endid : endid_wf (f_endid_info f);
  dr_captures : no_captures f ∧ fsm_countcaptures f = 0%N;
  dr_ids : ids_on_ends f;
  dr_start : fsm_getstart f = Some start;
  dr_room : (N.of_nat (f_statecount f + eo_buckets_used (f_eager_output_info f)) < 1073741824)%N;
  dr_sets : at_most D (word_set f start);
  dr_few : (N.of_nat D < 1073741824)%N;
  dr_fits : fits (f_statecount f) (3 * f_statecount f * D);
}.

Lemma fsm_move_same dst src : f_alloc dst = f_alloc src → fsm_move dst src = src.
Proof. intros E. unfold fsm_move. rewrite E, N.eqb_refl. by destruct src. Qed.

Lemma has_epsilons_false f : fsm_has f fsm_hasepsilons = false → ∀ s t, ¬ f_eps f s t.
Proof.
  intros Hno s t Ht. assert (live f s) as Hs by apply Ht. apply not_true_iff_false in Hno. apply Hno.
  unfold fsm_has. apply existsb_exists. exists s. split; [by apply list_elem_of_In, elem_of_live_ids|].
  unfold fsm_hasepsilons. apply negb_true_iff, not_true_iff_false. intros E. by apply (proj1 (no_eps_empty f s Hs) E t).
Qed.

Section Main.
Context `{allocator, !alloc_total}.

Section Subset.
Context (f : fsm) (start : N) (f1 : fsm) (st : det_state) (dfa : fsm).
Hypothesis Hids : ids_on_ends f.
Hypothesis Hst : fsm_getstart f = Some start.
Hypothesis R : removes_epsilons f f1.
Hypothesis Hfin : finished f1 start st.
Hypothesis Hdfa : subset_dfa f1 st dfa.

Lemma removes_start : fsm_getstart f1 = Some start.
Proof. by rewrite (rm_start _ _ R). Qed.

Lemma word_observes w o :
  (∃ s, path (nfa_of f1) start w s ∧ observes f1 s o) ↔ ∃ e, path (nfa_of f) start w e ∧ observes f e o.
Proof.
  setoid_rewrite (removes_path f f1 start w _ Hst R). setoid_rewrite path_word_dest. split.
  - intros (s & Hs & Ho). apply (rm_obs _ _ R) in Ho as (e & Hr & Ho); [|by eapply word_dest_handled]. eauto 10.
  - intros (e & (s & Hs & Hr) & Ho). exists s. split; [done|]. apply (rm_obs _ _ R); [by eapply word_dest_handled|]. by exists e.
Qed.

Lemma subset_observes w m o :
  (∀ s, s ∈ set_of st m ↔ path (nfa_of f1) start w s) → on_state o →
  subset_obs f1 (set_of st m) (m_edges m) o ↔ ∃ s, path (nfa_of f1) start w s ∧ observes f1 s o.
Proof.
  intros Hx Ho.
  assert (∀ s, path (nfa_of f1) start w s → handled f s ∧ live f1 s) as Hp.
  { intros s Hs. apply (removes_path f f1 start w s Hst R) in Hs as Hd. split; [by eapply word_dest_handled|].
    rewrite <-(app_nil_r w) in Hs. destruct w as [|c w' _] using rev_ind.
    - apply path_nil_no_eps in Hs as ->; [|apply R]. apply (wf_start _ (inv_wf _ (rm_inv _ _ R))), removes_start.
    - rewrite app_nil_r in Hs. apply path_snoc_no_eps in Hs as (u & _ & He); [|apply R].
      eapply f_edge_live; [apply (rm_inv _ _ R)|exact He]. }
  destruct o as [c t| |x|x]; [done| | |]; cbn [subset_obs]; setoid_rewrite Hx; split.
  - intros (s & Hs & He). exists s. split; [done|]. split; [by apply Hp|done].
  - intros (s & Hs & _ & He). eauto.
  - intros (s & Hs & _ & He). exists s. split; [done|]. split; [by apply Hp|done].
  - intros (s & Hs & He). exists s. split; [done|]. split; [|apply He].
    destruct (Hp s Hs) as [Hh _]. apply (rm_obs _ _ R s (OEndid x) Hh) in He as (e & Hr & Hle & Hxe).
    apply (rm_obs _ _ R s OEnd Hh). exists e. split; [done|]. split; [done|]. by eapply Hids.
  - intros (s & Hs & He). exists s. split; [done|]. split; [by apply Hp|done].
  - intros (s & Hs & _ & He). eauto.
Qed.

Lemma subset_determinises : determinises f start dfa.
Proof.
  pose proof (inv_wf _ (rm_inv _ _ R)) as Hwf1. pose proof (rm_eps _ _ R) as Hno.
  split.
  - apply (sd_states _ _ _ Hdfa).
  - by eapply dfa_deterministic.
  - apply Hdfa.
  - intros w. setoid_rewrite (path_word_dest f). setoid_rewrite <-(removes_path f f1 start w _ Hst R). split.
    + intros (t & Ht). destruct (dfa_word f1 start st dfa Hno Hfin Hdfa w t Ht) as (q & m & -> & Hm & Hx).
      destruct (fi_heap _ _ _ Hfin q m Hm) as (_ & _ & Hr & _). destruct (reached_ok f1 _ Hwf1 Hr) as (Hne & _).
      fold (set_of st m) in Hne. destruct (set_of st m) as [|s X]; [done|]. exists s, s. split; [apply Hx; left|done].
    + intros (e & s & Hs & _). by eapply (dfa_word_exists f1 start st dfa).
  - intros w t o Ht Ho. destruct (dfa_word f1 start st dfa Hno Hfin Hdfa w t Ht) as (q & m & -> & Hm & Hx).
    rewrite (sd_obs _ _ _ Hdfa q m o Hm), (subset_observes w m o Hx Ho). apply word_observes.
  - intros t Ht. eapply (dfa_reached f1 start st dfa); try done. apply removes_start.
  - apply (sd_states _ _ _ Hdfa).
Qed.
End Subset.

Lemma removes_bounds f f1 start D : det_ready f start D → removes_epsilons f f1 → bounds_ok f1 D.
Proof.
  intros [H1 _ _ _ Hst Hroom Hsets Hfew Hfits] R. split.
  - eapply at_most_mono; [|exact Hsets]. intros X HX. destruct (reached_ok f1 X (inv_wf _ (rm_inv _ _ R)) HX) as (Hne & Hinc & _).
    split; [done|]. split; [done|]. destruct (reached_word f1 start X (rm_eps _ _ R)) as (w & Hw); [by rewrite (rm_start _ _ R)|done|].
    exists w. intros t. by rewrite Hw, (removes_path f f1).
  - done.
  - rewrite (rm_count _ _ R). unfold RESULT_BIT. lia.
  - by rewrite (rm_count _ _ R).
Qed.

Lemma fsm_determinise_total f start D fuel :
  det_ready f start D → D ≤ fuel →
  ∃ f', fsm_determinise fuel f = Some (true, f') ∧ determinises f start f' ∧ f_statecount f' ≤ D ∧ f_capture_info f' = mk_capture 0 0 [].
Proof.
  intros Hr Hfuel. pose proof Hr as [Hi He [Hc1 Hc2] Hids Hst Hroom _ _ _].
  assert (∃ f1, (if fsm_has f fsm_hasepsilons then fsm_remove_epsilons f else Some (true, f)) = Some (true, f1) ∧ removes_epsilons f f1)
    as (f1 & E1 & R).
  { destruct (fsm_has f fsm_hasepsilons) eqn:Eh; [by apply (fsm_remove_epsilons_total f start)|].
    exists f. split; [done|]. apply removes_refl; [done|done|]. by apply has_epsilons_false. }
  unfold fsm_determinise, fsm_determinise_with_config. rewrite E1. cbn [mbind option_bind].
  destruct (pool_alloc_spec (f_alloc f1)) as (issp & -> & Hp & Es & _).
  destruct (determinise_dfa_run f1 start (inv_wf _ (rm_inv _ _ R))) with (D := D) (fuel := fuel) (issp := issp)
    as (st & dfa & -> & Hfin & Hlen & Hdfa); try done.
  { by rewrite (rm_start _ _ R). }
  { apply R. }
  { by eapply removes_bounds. }
  { unfold fsm_countcaptures in *. by rewrite (rm_captures _ _ R). }
  cbn [mbind option_bind]. rewrite fsm_move_same by (by rewrite (sd_alloc _ _ _ Hdfa)). exists dfa. split; [done|].
  split; [by eapply subset_determinises|]. split; [|apply Hdfa]. destruct (sd_states _ _ _ Hdfa) as (_ & _ & ->). done.
Qed.

(** ** Properties *)



End Main.

Lemma eps_tagged_det_ready : det_ready eps_tagged 0 16.
Proof.
  destruct eps_tagged_ready as (Hi & He & Hids). split.
  - exact Hi.
  - exact He.
  - split; vm_compute; reflexivity.
  - exact Hids.
  - vm_compute. reflexivity.
  - vm_compute. reflexivity.
  - change 16 with (2 ^ 4). replace 4 with (f_statecount eps_tagged) by (vm_compute; reflexivity).
    apply word_sets_most; [apply Hi|vm_compute; reflexivity].
  - vm_compute. reflexivity.
  - unfold fits. replace (f_statecount eps_tagged) with 4 by (vm_compute; reflexivity). split; lia.
Qed.



