(* ===== verification/SetOps.v ===== *)
(** * Set operations on languages: intersect.c, subtract.c, equal.c, charset.c, complete.c, complement.c

    The operands are determinised where they are not DFAs, then walked
    together. [fuel] bounds the iterations of [fsm_determinise]; [None] is an
    assertion that fails, a use of freed memory, or too little fuel. *)

From S2P Require Import Prelude StateSet Bits Bitmap EdgeSet EdgeIter Endids EagerOutput Lang Fsm FsmCompact Pred Trim Capture Combine Walk2.
From S2P Require Import Determinise.

(** The operands are freed when the result is built, and still the caller's
    otherwise. *)
Inductive set_result :=
  | Built (q : fsm)
  | NotBuilt (a b : fsm).

Section Ops.
Context `{allocator}.

(** [if (!fsm_all(a, fsm_isdfa)) { if (!fsm_determinise(a)) ... }] *)
Definition make_dfa (fuel : nat) (f : fsm) : option (bool * fsm) :=
  if fsm_all f fsm_isdfa then Some (true, f) else fsm_determinise fuel f.

(** Both operands made deterministic, then the walk. *)
Definition walk_dfas (fuel : nat) (a b : fsm) (edgemask endmask : N) : option set_result :=
  '(ok, a) ← make_dfa fuel a;
  if negb (ok : bool) then Some (NotBuilt a b)
  else
    '(ok, b) ← make_dfa fuel b;
    if negb (ok : bool) then Some (NotBuilt a b)
    else
      q ← fsm_walk2 a b edgemask endmask;
      match q with
      | None => Some (NotBuilt a b)
      | Some q => Some (Built q)
      end.

Definition fsm_intersect (fuel : nat) (a b : fsm) : option set_result :=
  walk_dfas fuel a b FSM_WALK2_BOTH FSM_WALK2_BOTH.

Definition fsm_subtract (fuel : nat) (a b : fsm) : option set_result :=
  walk_dfas fuel a b (N.lor FSM_WALK2_ONLYA FSM_WALK2_BOTH) FSM_WALK2_ONLYA.

(** ** equal.c *)

(** Whether it succeeds, and [*dfa], NULL where the automaton is a DFA. *)
Definition ensure_dfa (fuel : nat) (f : fsm) : option (bool * option fsm) :=
  if fsm_all f fsm_isdfa then Some (true, None)
  else
    q ← fsm_clone f;
    match q with
    | None => Some (false, None)
    | Some q =>
        '(ok, q) ← fsm_determinise fuel q;
        if (ok : bool) then Some (true, Some q) else Some (false, None)
    end.

Definition subtract (fuel : nat) (a b : fsm) : option (option fsm) :=
  if (f_alloc a =? f_alloc b)%N then
    '(ok, pa) ← ensure_dfa fuel a;
    if negb (ok : bool) then Some None
    else
      let a := default a pa in
      '(ok, pb) ← ensure_dfa fuel b;
      if negb (ok : bool) then Some None
      else
        let b := default b pb in
        fsm_walk2 a b (N.lor FSM_WALK2_ONLYA FSM_WALK2_BOTH) FSM_WALK2_ONLYA
  else None.

Definition subsetof (fuel : nat) (a b : fsm) : option Z :=
  q ← subtract fuel b a;
  match q with
  | None => Some (-1)%Z
  | Some q => '(r, _) ← fsm_empty q; Some r
  end.

(** The result, with the operands, whose visited flags the searches use. *)
Definition fsm_equal (fuel : nat) (a b : fsm) : option (Z * fsm * fsm) :=
  if negb (f_alloc a =? f_alloc b)%N then Some ((-1)%Z, a, b)
  else
    '(ra, a) ← fsm_empty a;
    '(rb, b) ← (if (ra =? 0)%Z then Some (0%Z, b) else fsm_empty b);
    if negb (ra =? 0)%Z && negb (rb =? 0)%Z then Some (1%Z, a, b)
    else
      r ← subsetof fuel a b;
      if (r =? 0)%Z then Some (0%Z, a, b)
      else
        r ← subsetof fuel b a;
        Some (if (r =? 0)%Z then 0%Z else 1%Z, a, b).

(** ** charset.c *)

Fixpoint charset_edges (b : fsm) (state : N) (charset : list nat) : bool * fsm :=
  match charset with
  | [] => (true, b)
  | c :: charset =>
      let '(ok, b) := fsm_addedge_literal b state state c in
      if ok then charset_edges b state charset else (false, b)
  end.

(** The automaton of [[abc..]*]. *)
Definition charset_fsm (al : fsm_alloc) (charset : list nat) : option fsm :=
  b ← fsm_new_statealloc al 1;
  let '(ok, b, state) := fsm_addstate b in
  if ok then
    let '(ok, b) := charset_edges b state charset in
    if (ok : bool) then Some (fsm_setstart (fsm_setend b state true) state) else None
  else None.

(** [charset] holds the [n] characters, or is NULL. *)
Definition fsm_intersect_charset (a : fsm) (charset : option (list nat)) : option (option fsm) :=
  match charset with
  | None => Some (Some a)
  | Some charset =>
      match charset_fsm (f_alloc a) charset with
      | None => Some None
      | Some b =>
          if fsm_all a fsm_isdfa && fsm_all b fsm_isdfa then
            q ← fsm_walk2 a b FSM_WALK2_BOTH FSM_WALK2_BOTH;
            match q with
            | None => Some None
            | Some q => if fsm_all q fsm_isdfa then Some (Some q) else None
            end
          else None
      end
  end.

(** ** complete.c *)

(** The symbols of a state's edges. *)
Definition edge_symbols (f : fsm) (s : N) : bm :=
  foldl (λ b e, bm_set b (fe_symbol e)) (bm_clear bm_empty) (edge_loop (st_edges (get_state f s))).

(** An edge to [new] for each symbol from [i + 1] on that is not in the
    bitmap; at most one iteration for each. *)
Fixpoint add_missing (fuel : nat) (b : bm) (i : Z) (f : fsm) (s new : N) : option (bool * fsm) :=
  match fuel with
  | 0 => None
  | S fuel =>
      let i := bm_next b i false in
      if i <=? UCHAR_MAX then
        let '(ok, f) := fsm_addedge_literal f s new i in
        if ok then add_missing fuel b (Z.of_nat i) f s new else Some (false, f)
      else Some (true, f)
  end.

Fixpoint complete_states (predicate : fsm → N → bool) (l : list N) (f : fsm) (new : N) : option (bool * fsm) :=
  match l with
  | [] => Some (true, f)
  | s :: l =>
      if negb (predicate f s) then complete_states predicate l f new
      else
        '(ok, f) ← add_missing 257 (edge_symbols f s) (-1) f s new;
        if (ok : bool) then complete_states predicate l f new else Some (false, f)
  end.

(** The automaton left is [None] where it has been freed. *)
Definition fsm_complete (fuel : nat) (f : fsm) (predicate : fsm → N → bool) : option (bool * option fsm) :=
  '(ok, f) ← make_dfa fuel f;
  if negb (ok : bool) then Some (false, None)
  else if negb (fsm_has f predicate) then Some (true, Some f)
  else
    let '(ok, f, new) := fsm_addstate f in
    if negb ok then Some (false, Some f)
    else
      let '(ok, f) := fsm_addedge_any f new new in
      if negb ok then Some (false, Some f)
      else
        '(ok, f) ← complete_states predicate (live_ids f) f new;
        Some (ok, Some f).

(** ** complement.c *)

(** [fsm_all(fsm, fsm_iscomplete)] *)
Fixpoint all_complete (f : fsm) (l : list N) : option bool :=
  match l with
  | [] => Some true
  | s :: l => b ← fsm_iscomplete f s; if (b : bool) then all_complete f l else Some false
  end.

Definition invert_ends (f : fsm) : fsm :=
  foldl (λ f i, fsm_setend f i (negb (fsm_isend f i))) f (live_ids f).

(** The swap of the end states and the trimming. *)
Definition complement_dfa (f : fsm) : option (bool * option fsm) :=
  '(r, f, _) ← fsm_trim (invert_ends f) FSM_TRIM_START_REACHABLE false;
  Some (negb (r <? 0)%Z, Some f).

(** [None] also where the automaton is freed twice. *)
Definition fsm_complement (fuel : nat) (f : fsm) : option (bool * option fsm) :=
  complete ← all_complete f (live_ids f);
  if (complete : bool) then complement_dfa f
  else
    '(ok, f) ← fsm_complete fuel f fsm_isany;
    match f with
    | None => None
    | Some f => if (ok : bool) then complement_dfa f else Some (false, None)
    end.
End Ops.
