(* ===== verification/SetOpsSpec.v ===== *)
(** * What the set operations compute

    Intersection, subtraction, complement and the test of equality, on
    automata that may need determinising first. *)

From S2P Require Import Prelude StateSet Bits Bitmap EdgeSet EdgeIter EdgeCompact Probe Endids EagerOutput.
From S2P Require Import Lang Fsm FsmSpec Queue Search FsmCompact FsmInv Pred Trim Capture Combine Concat Clone TupleSet Walk2 Walk2Spec.
From S2P Require Import Exec Closure Epsilons EpsilonsSpec DetAnalysis DetAnalysisSpec DetSingle DetPairs DetLoop Determinise DetSpec SetOps.

(** ** Operands *)

(** An automaton that can be an operand: determinising it gives at most [D]
    states, which the ids of edges can hold. *)
Record set_operand (f : fsm) (start : N) (D : nat) : Prop := {
  so_ready : det_ready f start D;
  so_count : f_statecount f ≤ D;
  so_small : (N.of_nat D <= 16777216)%N;
}.

(** What a walk needs of an operand; [L] is its language. *)
Record walkable (f : fsm) (D : nat) (L : list nat → Prop) : Prop := {
  wa_operand : operand f;
  wa_inv : fsm_inv f;
  wa_dfa : fsm_all f fsm_isdfa = true;
  wa_start : is_Some (fsm_getstart f);
  wa_count : f_statecount f ≤ D;
  wa_language w : language f w ↔ L w;
}.

Lemma operand_intro f : fsm_inv f → ids_fit f → endid_wf (f_endid_info f) → operand f.
Proof. intros Hi Hf He. split; [apply Hi|done|done]. Qed.

Lemma set_operand_walkable f start D : set_operand f start D → fsm_all f fsm_isdfa = true → walkable f D (language f).
Proof.
  intros [R C S] Hd. split; [|apply R|done|by rewrite (dr_start _ _ _ R)|done|done].
  apply operand_intro; [apply R|unfold ids_fit; lia|apply R].
Qed.

Section SetOps.
Context `{allocator, !alloc_total}.

Lemma determinise_walkable f start D fuel :
  set_operand f start D → D ≤ fuel → ∃ f', fsm_determinise fuel f = Some (true, f') ∧ walkable f' D (language f).
Proof.
  intros [R C S] Hfuel. destruct (fsm_determinise_total f start D fuel R Hfuel) as (f' & E & Hd & Hc & _).
  exists f'. split; [done|]. pose proof (dz_inv _ _ _ Hd) as Hi. pose proof (dz_start _ _ _ Hd) as Hs. split.
  - apply operand_intro; [done|unfold ids_fit; lia|apply Hd].
  - done.
  - apply fsm_all_isdfa; [apply Hi|]. split; [apply Hd|]. right. by rewrite Hs.
  - by rewrite Hs.
  - done.
  - intros w. apply (determinises_language f start); [apply R|done].
Qed.

Lemma make_dfa_walkable f start D fuel :
  set_operand f start D → D ≤ fuel → ∃ f', make_dfa fuel f = Some (true, f') ∧ walkable f' D (language f).
Proof.
  intros Hf Hfuel. unfold make_dfa. destruct (fsm_all f fsm_isdfa) eqn:E; [|by eapply determinise_walkable].
  exists f. split; [done|]. by eapply set_operand_walkable.
Qed.

Lemma walkable_factors a b Da Db La Lb :
  walkable a Da La → walkable b Db Lb → (N.of_nat ((Da + 1) * (Db + 1)) <= 16777216)%N →
  ∃ sa sb, factors a b sa sb ∧ (f_statecount a + 1) * (f_statecount b + 1) ≤ (Da + 1) * (Db + 1).
Proof.
  intros [A1 _ A2 [sa A3] A4 A5] [B1 _ B2 [sb B3] B4 B5] Hs. exists sa, sb.
  assert ((f_statecount a + 1) * (f_statecount b + 1) ≤ (Da + 1) * (Db + 1)) as Hle by (apply Nat.mul_le_mono; lia).
  split; [split; try done; lia|done].
Qed.
(** ** Clones of operands *)

(** Little enough metadata for a clone. *)
Definition clonable (f : fsm) : Prop :=
  (N.of_nat (endid_total (ei_buckets (f_endid_info f))) < 1073741824)%N ∧
  (N.of_nat (f_statecount f + eager_total (eo_buckets (f_eager_output_info f))) < 1073741824)%N.

Lemma word_dest_nfa f f' start w t : nfa_of f' ≡ nfa_of f → word_dest f' start w t ↔ word_dest f start w t.
Proof.
  intros Hn. pose proof Hn as (He & _). cbn in He. unfold word_dest. setoid_rewrite He. by setoid_rewrite Hn.
Qed.

Lemma nfa_getstart f f' s : nfa_of f' ≡ nfa_of f → fsm_getstart f = Some s → fsm_getstart f' = Some s.
Proof. intros (_ & _ & _ & Hs) E. by apply Hs. Qed.

(** What the readiness of an automaton depends on. *)
Lemma set_operand_same f f' start D :
  set_operand f start D → fsm_inv f' → endid_wf (f_endid_info f') → f_statecount f' = f_statecount f → nfa_of f' ≡ nfa_of f →
  no_captures f' ∧ fsm_countcaptures f' = 0%N →
  (N.of_nat (f_statecount f + eo_buckets_used (f_eager_output_info f')) < 1073741824)%N →
  (∀ s, endids (f_endid_info f') s = endids (f_endid_info f) s) → set_operand f' start D.
Proof.
  intros [[R1 R2 R3 R4 R5 R6 R7 R8 R9] C S] Hi He Hc Hn Hcap Hroom Hids. pose proof Hn as (_ & _ & Hend & _). cbn in Hend.
  split; [|by rewrite Hc|done]. split; try done.
  - intros s x Hs. rewrite Hids. intros Hx. assert (live f s) as Hs' by (unfold live in *; by rewrite <-Hc).
    apply Hend. split; [done|]. by apply (R4 s x).
  - by apply (nfa_getstart f).
  - by rewrite Hc.
  - eapply at_most_mono; [|exact R7]. intros X (H1 & H2 & w & Hw). split; [done|]. split; [done|]. exists w. intros t.
    by rewrite Hw, word_dest_nfa.
  - by rewrite Hc.
Qed.

Lemma clone_operand f start D :
  set_operand f start D → clonable f →
  ∃ f', fsm_clone f = Some (Some f') ∧ set_operand f' start D ∧ f_alloc f' = f_alloc f ∧ ∀ w, language f' w ↔ language f w.
Proof.
  intros Hf [K1 K2]. pose proof (so_ready _ _ _ Hf) as R.
  destruct (clone_copies f) as (f' & E & I' & W' & C' & N' & A' & P' & U' & M'); [apply R|apply R|done|lia|].
  exists f'. split; [done|]. split; [|split; [done|]].
  - eapply set_operand_same; [exact Hf|done|done|done|done| |lia|apply M'].
    unfold no_captures, fsm_countcaptures. by rewrite P'.
  - intros w. unfold language. by rewrite N'.
Qed.

(** ** Equality *)

Lemma ensure_dfa_walkable f start D fuel :
  set_operand f start D → clonable f → D ≤ fuel →
  ∃ p, ensure_dfa fuel f = Some (true, p) ∧ walkable (default f p) D (language f).
Proof.
  intros Hf Hk Hfuel. unfold ensure_dfa. destruct (fsm_all f fsm_isdfa) eqn:E.
  { exists None. split; [done|]. by eapply set_operand_walkable. }
  destruct (clone_operand f start D Hf Hk) as (q & -> & Hq & _ & Hl). cbn [mbind option_bind].
  destruct (determinise_walkable q start D fuel Hq Hfuel) as (f' & -> & Hw). cbn [mbind option_bind]. exists (Some f').
  split; [done|]. destruct Hw as [W1 W2 W3 W4 W5 W6]. split; try done. intros w. by rewrite W6.
Qed.

Section Two.
Context (a b : fsm) (sa sb : N) (Da Db fuel : nat).
Hypothesis Ha : set_operand a sa Da.
Hypothesis Hb : set_operand b sb Db.
Hypothesis Hfa : Da ≤ fuel.
Hypothesis Hfb : Db ≤ fuel.
Hypothesis Hsmall : (N.of_nat ((Da + 1) * (Db + 1)) <= 16777216)%N.

(** Both operands of a walk. *)
Lemma walk_dfas_run em endmask (P : fsm → Prop) :
  (∀ a' b' sa' sb', walkable a' Da (language a) → walkable b' Db (language b) → factors a' b' sa' sb' →
     ∃ q, fsm_walk2 a' b' em endmask = Some (Some q) ∧ P q) →
  ∃ q, walk_dfas fuel a b em endmask = Some (Built q) ∧ P q.
Proof.
  intros Hw. unfold walk_dfas. destruct (make_dfa_walkable a sa Da fuel Ha Hfa) as (a' & -> & Wa). cbn [mbind option_bind negb].
  destruct (make_dfa_walkable b sb Db fuel Hb Hfb) as (b' & -> & Wb). cbn [mbind option_bind negb].
  destruct (walkable_factors a' b' Da Db _ _ Wa Wb Hsmall) as (sa' & sb' & Hf & _).
  destruct (Hw a' b' sa' sb' Wa Wb Hf) as (q & -> & Hq). by exists q.
Qed.


End Two.

(** Whether the words of [b] are among those of [a]. *)
Lemma subsetof_decides a b sa sb Da Db fuel :
  set_operand a sa Da → set_operand b sb Db → clonable a → clonable b → f_alloc a = f_alloc b → Da ≤ fuel → Db ≤ fuel →
  (N.of_nat ((Da + 1) * (Db + 1)) <= 16777216)%N →
  ∃ r, subsetof fuel a b = Some r ∧
    (r = 1%Z ∧ (∀ w, ¬ (language b w ∧ ¬ language a w)) ∨ r = 0%Z ∧ ∃ w, language b w ∧ ¬ language a w).
Proof.
  intros Ha Hb Ka Kb Hal Hfa Hfb Hs. unfold subsetof, subtract. rewrite Hal, N.eqb_refl.
  destruct (ensure_dfa_walkable b sb Db fuel Hb Kb Hfb) as (pb & -> & Wb). cbn [mbind option_bind negb].
  destruct (ensure_dfa_walkable a sa Da fuel Ha Ka Hfa) as (pa & -> & Wa). cbn [mbind option_bind negb].
  destruct (walkable_factors _ _ Db Da _ _ Wb Wa) as (sb' & sa' & Hf & Hle); [rewrite Nat.mul_comm; lia|].
  destruct (walk2_subtracts _ _ sb' sa' Hf) as (q & -> & W & _ & C & [s Es] & Hl). cbn [mbind option_bind].
  assert (ids_fit q) as Hfit.
  { unfold ids_fit. rewrite Nat.mul_comm in Hs. lia. }
  destruct (empty_decides q s W Hfit Es) as (r & q' & -> & _ & _ & Hr). cbn [mbind option_bind]. exists r. split; [done|].
  setoid_rewrite Hl in Hr. by setoid_rewrite (wa_language _ _ _ Wb) in Hr; setoid_rewrite (wa_language _ _ _ Wa) in Hr.
Qed.

Lemma same_graph_operand f f' start D :
  set_operand f start D → clonable f → same_graph f f' → flags f' [] → set_operand f' start D ∧ clonable f'.
Proof.
  intros Hf Hk Hg Hfl. pose proof (so_ready _ _ _ Hf) as R. pose proof Hg as (Hc & _ & _ & _ & _ & _ & Hcap & He & Ho & _ & _).
  split; [|unfold clonable; by rewrite He, Ho, Hc]. eapply (set_operand_same f); try done.
  - by eapply inv_same_graph; [| |apply R].
  - rewrite He. apply R.
  - by apply same_graph_nfa.
  - unfold no_captures, fsm_countcaptures. rewrite Hcap. apply R.
  - rewrite Ho. apply R.
  - intros s. by rewrite He.
Qed.

(** The automaton is as it was: the same graph, and on every state the same
    contents, visited flag included. *)
Definition unchanged (f f' : fsm) : Prop := same_graph f f' ∧ ∀ s, live f s → get_state f' s = get_state f s.

Lemma unchanged_refl f : unchanged f f.
Proof. by split. Qed.

Lemma flags_unchanged f f' : same_graph f f' → flags f [] → flags f' [] → unchanged f f'.
Proof.
  intros Hg Hf Hf'. split; [done|]. intros s Hs. pose proof (same_graph_live f f' s Hg) as Hl.
  rewrite flags_nil in Hf, Hf'. specialize (Hf s Hs). specialize (Hf' s (proj2 Hl Hs)).
  destruct Hg as (_ & _ & _ & _ & _ & _ & _ & _ & _ & _ & Hst). specialize (Hst s). unfold visited in *.
  destruct (get_state f s), (get_state f' s). unfold set_visited in Hst. cbn in *. by simplify_eq.
Qed.

Lemma empty_operand f start D :
  set_operand f start D → clonable f →
  ∃ r f', fsm_empty f = Some (r, f') ∧ unchanged f f' ∧ set_operand f' start D ∧ clonable f' ∧
    (r = 1%Z ∧ (∀ w, ¬ language f w) ∨ r = 0%Z ∧ ∃ w, language f w).
Proof.
  intros Hf Hk. pose proof (so_ready _ _ _ Hf) as R.
  destruct (empty_decides f start) as (r & f' & E & Hg & Hfl & Hr); [apply R| |apply R|].
  { unfold ids_fit. pose proof (so_count _ _ _ Hf). pose proof (so_small _ _ _ Hf). lia. }
  destruct (same_graph_operand f f' start D Hf Hk Hg Hfl) as [? ?]. exists r, f'. split; [done|]. split; [|done].
  apply flags_unchanged; [done|apply R|done].
Qed.

(** Running an automaton without captures. *)
Lemma no_captures_ok f : fsm_wf f → f_capture_info f = mk_capture 0 0 [] → captures_ok f None.
Proof.
  intros Hwf Hc. unfold captures_ok. rewrite Hc. split; [|done]. split; [done|]. split; [cbn; constructor|].
  split; [by intros s a ?%not_elem_of_nil|by left].
Qed.

Lemma exec_language f w r :
  fsm_wf f → ids_fit f → f_capture_info f = mk_capture 0 0 [] → fsm_exec f w None = Some r →
  (er_ret r = 1%Z → language f w) ∧ (er_ret r = 0%Z → ¬ language f w).
Proof.
  intros Hwf Hf Hc E. destruct (fsm_exec_spec f w None Hwf Hf (no_captures_ok f Hwf Hc)) as (r' & E' & Hx).
  rewrite E in E'. injection E' as <-. destruct Hx as [[-> _]|(s & _ & _ & [(-> & ? & _)|[-> ?]] & _)]; done.
Qed.

(** Whether a word is accepted is decidable, as running the DFA decides it. *)
Lemma language_dec f start D w : set_operand f start D → language f w ∨ ¬ language f w.
Proof.
  intros Hf. pose proof (so_ready _ _ _ Hf) as R. pose proof (so_small _ _ _ Hf) as Hs.
  destruct (fsm_determinise_total f start D D R) as (f' & _ & Hd & Hc & Hcap); [done|].
  rewrite <-(determinises_language f start f' w (dr_start _ _ _ R) Hd).
  pose proof (inv_wf _ (dz_inv _ _ _ Hd)) as Hwf. destruct (fsm_exec_spec f' w None) as (r & _ & Hx).
  { done. }
  { unfold ids_fit. lia. }
  { by apply no_captures_ok. }
  destruct Hx as [[_ Hn]|(s & _ & _ & Hx & _)].
  - exfalso. apply Hn. split; [apply Hd|]. rewrite (dz_start _ _ _ Hd). eauto.
  - destruct Hx as [(_ & H2 & _)|[_ H2]]; auto.
Qed.

End SetOps.

(** ** Examples *)

Lemma eps_tagged_operand : set_operand eps_tagged 0 16.
Proof.
  split; [exact eps_tagged_det_ready|by_compute|by_compute].
Qed.

Lemma star_operand : set_operand star 0 2.
Proof.
  assert (fsm_inv star) as Hi by (by apply inv_build_from_new).
  assert (f_endid_info star = mk_endid_info (replicate DEF_BUCKET_COUNT None) 0) as Ei by (vm_compute; reflexivity).
  split; [|by_compute|by_compute]. split.
  - exact Hi.
  - rewrite Ei. apply fresh_endid_wf.
  - split; vm_compute; reflexivity.
  - intros s x Hs Hx. unfold live in Hs. change (f_statecount star) with 1 in Hs. assert (s = 0%N) as -> by lia. vm_compute. reflexivity.
  - vm_compute. reflexivity.
  - vm_compute. reflexivity.
  - change 2 with (2 ^ 1). replace 1 with (f_statecount star) by (vm_compute; reflexivity).
    apply word_sets_most; [apply Hi|vm_compute; reflexivity].
  - vm_compute. reflexivity.
  - unfold fits. replace (f_statecount star) with 1 by (vm_compute; reflexivity). split; lia.
Qed.




(** C36. When memory runs out [fsm_equal] says that two automata are equal which
    are not: the -1 that reports the failure counts as true. *)
Theorem fsm_equal_out_of_memory :
  ∃ w a' b', language two_ends w ∧ ¬ language star w ∧ @fsm_equal never 16 two_ends star = Some (1%Z, a', b').
Proof.
  eexists [99], _, _. split; [|split; [|vm_compute; reflexivity]].
  - eapply exec_language; [by_compute|by_compute|vm_compute; reflexivity|vm_compute; reflexivity|reflexivity].
  - eapply exec_language; [by_compute|by_compute|vm_compute; reflexivity|vm_compute; reflexivity|reflexivity].
Qed.
