(* ===== verification/ComplementSpec.v ===== *)
(** * What [fsm_complete] and [fsm_complement] compute

    A DFA is completed by a state that no end is reached from; then the end
    states are swapped. *)

From S2P Require Import Prelude StateSet Bits Bitmap EdgeSet EdgeIter EdgeCompact Probe Endids EagerOutput.
From S2P Require Import Lang Fsm FsmSpec Queue Search FsmCompact FsmInv Pred Trim Capture Combine Concat Clone TupleSet Walk2 Walk2Spec.
From S2P Require Import Exec Closure Epsilons EpsilonsSpec DetAnalysis DetLoop Determinise DetSpec SetOps SetOpsSpec.

(** ** Missing symbols *)

Lemma bm_sets_spec l : ∀ b c, Forall (λ e, fe_symbol e < 256) l →
  bm_wf b → bm_get (foldl (λ b e, bm_set b (fe_symbol e)) b l) c = true ↔ bm_get b c = true ∨ ∃ e, e ∈ l ∧ fe_symbol e = c.
Proof.
  induction l as [|e l IH]; intros b c Hl Hb; cbn [foldl]; [split; [by left|]; intros [?|(e & He%not_elem_of_nil & _)]; done|].
  apply Forall_cons in Hl as [He Hl]. rewrite IH; [|done|apply bm_wf_set; [done|lia]]. rewrite bm_get_set by (done || lia).
  rewrite orb_true_iff, Nat.eqb_eq. setoid_rewrite elem_of_cons. naive_solver.
Qed.

Lemma edge_symbols_spec f s c :
  fsm_wf f → live f s → bm_get (edge_symbols f s) c = true ↔ ∃ t, f_edge f s c t.
Proof.
  intros Hwf Hs. pose proof (wf_edges f s Hwf Hs) as Hw. unfold edge_symbols. rewrite edge_loop_edges by done.
  rewrite bm_sets_spec; [| |apply bm_wf_clear].
  - rewrite bm_get_clear. split.
    + intros [?|(e & ([c' t] & -> & Hin)%list_elem_of_fmap & <-)]; [done|]. exists t. split; [done|]. by apply elem_of_edge_list.
    + intros (t & _ & He). right. exists (edge_of (c, t)). split; [|done]. apply list_elem_of_fmap_2. by apply elem_of_edge_list.
  - apply Forall_forall. intros e ([c' t] & -> & Hin)%list_elem_of_fmap. apply elem_of_edge_list in Hin; [|done]. by eapply has_edge_symbol.
Qed.

Section Complete.
Context `{allocator, !alloc_total}.

(** [f] with more edges: those of [P]. *)
Record adds_edges (P : N → nat → N → Prop) (f f' : fsm) : Prop := {
  ae_inv : fsm_inv f';
  ae_count : f_statecount f' = f_statecount f;
  ae_endid : f_endid_info f' = f_endid_info f;
  ae_nfa : nfa_of f' ≡ mk_nfa (λ s c t, f_edge f s c t ∨ P s c t) (f_eps f) (f_end f) (λ s, fsm_getstart f = Some s);
}.

Lemma adds_nothing P f : fsm_inv f → (∀ s c t, ¬ P s c t) → adds_edges P f f.
Proof. intros Hi Hn. split; [done|done|done|]. split_and!; cbn; try done. naive_solver. Qed.

Lemma adds_edges_trans P Q R f g h :
  (∀ s c t, R s c t ↔ P s c t ∨ Q s c t) → adds_edges P f g → adds_edges Q g h → adds_edges R f h.
Proof.
  intros HR [A1 A2 A7 (A3 & A4 & A5 & A6)] [B1 B2 B7 (B3 & B4 & B5 & B6)]. cbn in *. split; [done|congruence|congruence|].
  split_and!; cbn.
  - intros s c t. rewrite B3, A3, HR. tauto.
  - intros s t. by rewrite B4.
  - intros s. by rewrite B5.
  - intros s. by rewrite B6.
Qed.

Lemma adds_literal f s t c b f' :
  fsm_inv f → live f s → live f t → c < 256 → fsm_addedge_literal f s t c = (b, f') →
  b = true ∧ adds_edges (λ s' c' t', s' = s ∧ c' = c ∧ t' = t) f f'.
Proof.
  intros Hi Hs Ht Hc E. destruct (fsm_addedge_literal_spec f s t c b f' (inv_wf _ Hi) Hs Ht Hc E) as (_ & C & B & N).
  assert (b = true) as -> by auto. split; [done|]. split; [exact (inv_addedge_literal f s t c true f' Hi Hs Ht Hc E)|done| |by rewrite (N eq_refl)].
  unfold fsm_addedge_literal in E. destruct (edge_set_add _ _ _ _). by injection E as _ <-.
Qed.

Lemma add_missing_spec fuel b s new : ∀ i f,
  fsm_inv f → live f s → live f new → (-1 <= i < 256)%Z → (256 - i < Z.of_nat (fuel + 1))%Z →
  ∃ f', add_missing fuel b i f s new = Some (true, f') ∧
    adds_edges (λ s' c t, s' = s ∧ t = new ∧ (i < Z.of_nat c)%Z ∧ c < 256 ∧ bm_get b c = false) f f'.
Proof.
  induction fuel as [|fuel IH]; intros i f Hi Hs Hn Hr Hf; [lia|]. cbn [add_missing].
  pose proof (bm_next_loop_spec (S (UCHAR_MAX + 1 - Z.to_nat (i + 1))) b (Z.to_nat (i + 1)) false) as Hnext.
  fold (bm_next b i false) in Hnext. cbv zeta in Hnext. destruct Hnext as (N1 & N2 & N3); [lia|].
  set (j := bm_next b i false) in *. clearbody j. destruct (j <=? UCHAR_MAX) eqn:Ej; split_bool.
  - destruct (N2 Ej) as [Nj Hj]. destruct (fsm_addedge_literal f s new j) as [ok f1] eqn:E.
    destruct (adds_literal f s new j ok f1) as [-> A1]; [done|done|done|lia|done|].
    destruct (IH (Z.of_nat j) f1) as (f' & -> & A2); [apply A1| | |lia|lia|].
    { unfold live in *. by rewrite (ae_count _ _ _ A1). }
    { unfold live in *. by rewrite (ae_count _ _ _ A1). }
    exists f'. split; [done|]. eapply adds_edges_trans; [|exact A1|exact A2]. cbn. intros s' c t. split.
    + intros (-> & -> & H1 & H2 & H3). destruct (decide (c = j)) as [->|Hne]; [by left|right].
      do 2 (split; [done|]). split; [|done]. destruct (decide (c < j)) as [Hlt|]; [|lia].
      assert (bm_get b c = true) by (apply N3; lia). congruence.
    + intros [(-> & -> & ->)|(-> & -> & H1 & H2 & H3)]; (do 2 (split; [done|])); (split; [lia|]); split; (done || lia).
  - exists f. split; [done|]. apply adds_nothing; [done|]. intros s' c t (_ & _ & H1 & H2 & H3).
    assert (bm_get b c = true) by (apply N3; lia). congruence.
Qed.

Lemma complete_states_spec l new : ∀ f,
  fsm_inv f → live f new → NoDup l → (∀ s, s ∈ l → live f s) →
  ∃ f', complete_states fsm_isany l f new = Some (true, f') ∧
    adds_edges (λ s c t, s ∈ l ∧ t = new ∧ c < 256 ∧ ¬ ∃ t', f_edge f s c t') f f'.
Proof.
  induction l as [|s l IH]; intros f Hi Hn Hnd Hl; cbn [complete_states].
  { exists f. split; [done|]. apply adds_nothing; [done|]. by intros s c t [?%not_elem_of_nil _]. }
  apply NoDup_cons in Hnd as [Hni Hnd]. cbn [fsm_isany negb].
  assert (live f s) as Hs by (apply Hl; left).
  destruct (add_missing_spec 257 (edge_symbols f s) s new (-1) f Hi Hs Hn) as (f1 & -> & A1); [lia|lia|]. cbn [mbind option_bind].
  assert (∀ t, live f1 t ↔ live f t) as Hlv by (intros t; unfold live; by rewrite (ae_count _ _ _ A1)).
  destruct (IH f1) as (f' & -> & A2); [apply A1|by apply Hlv|done|intros t Ht; apply Hlv, Hl; by right|].
  exists f'. split; [done|]. eapply adds_edges_trans; [|exact A1|exact A2]. cbn. intros s' c t.
  destruct (ae_nfa _ _ _ A1) as (N1 & _). cbn in N1. setoid_rewrite N1. rewrite elem_of_cons.
  pose proof (edge_symbols_spec f s c (inv_wf _ Hi) Hs) as He. rewrite <-not_true_iff_false, He. split.
  - intros ([->|Hs'] & -> & Hc & Hno).
    + left. do 2 (split; [done|]). split; [lia|]. done.
    + right. do 3 (split; [done|]). intros (t' & [Ht'|(-> & _)]); [eauto|done].
  - intros [(-> & -> & _ & Hc & Hno)|(Hs' & -> & Hc & Hno)].
    + split; [by left|]. done.
    + split; [by right|]. do 2 (split; [done|]). intros [t' Ht']. apply Hno. eauto.
Qed.
(** ** A complete DFA *)

Definition complete (f : fsm) : Prop := ∀ s c, live f s → c < 256 → ∃ t, f_edge f s c t.

(** A DFA with the same language in which no symbol is missing. *)
Record completes (f f' : fsm) : Prop := {
  cm_inv : fsm_inv f';
  cm_det : deterministic (nfa_of f');
  cm_complete : complete f';
  cm_start : is_Some (fsm_getstart f');
  cm_language w : language f' w ↔ language f w;
}.

Section Sink.
Context (f : fsm) (new : N) (f' : fsm) (start : N).
Hypothesis Hwf : fsm_wf f.
Hypothesis Hdet : deterministic (nfa_of f).
Hypothesis Hst : fsm_getstart f = Some start.
Hypothesis Hnew : ¬ live f new.
Hypothesis Hlive : ∀ s, live f' s ↔ live f s ∨ s = new.
Hypothesis Hedge : ∀ s c t, f_edge f' s c t ↔ f_edge f s c t ∨ live f' s ∧ t = new ∧ c < 256 ∧ ¬ ∃ t', f_edge f s c t'.
Hypothesis Heps : ∀ s t, ¬ f_eps f' s t.
Hypothesis Hend : ∀ s, f_end f' s ↔ f_end f s.
Hypothesis Hst' : ∀ s, fsm_getstart f' = Some s ↔ fsm_getstart f = Some s.

Lemma sink_det : deterministic (nfa_of f').
Proof.
  destruct Hdet as (D1 & D2 & D3). split; [intros s t; apply Heps|]. split; [|cbn; intros; congruence]. intros s c t t' H1 H2. cbn in H1, H2.
  rewrite Hedge in H1. rewrite Hedge in H2. destruct H1 as [H1|(_ & -> & _ & H1)], H2 as [H2|(_ & -> & _ & H2)]; try done.
  - by eapply D2.
  - destruct H2. eauto.
  - destruct H1. eauto.
Qed.

Lemma sink_complete : complete f'.
Proof.
  intros s c Hs Hc. assert ((∃ t, f_edge f s c t) ∨ ¬ ∃ t, f_edge f s c t) as [[t Ht]|Hno].
  - destruct (proj1 (Hlive s) Hs) as [Hl| ->]; [|right; by intros (t & ? & _)].
    rewrite <-edge_symbols_spec by done. destruct (bm_get _ c); auto.
  - exists t. apply Hedge. by left.
  - exists new. apply Hedge. by right.
Qed.

Lemma sink_stays w : ∀ t, path (nfa_of f') new w t → t = new.
Proof.
  induction w as [|c w IH]; intros t Hp; [by apply path_nil_no_eps in Hp|].
  apply path_no_eps in Hp as (s & He & Hp); [|done]. cbn in He. rewrite Hedge in He.
  destruct He as [[He _]|(_ & -> & _)]; [done|by apply IH].
Qed.

Lemma sink_path w : ∀ s t, live f t → path (nfa_of f') s w t ↔ path (nfa_of f) s w t.
Proof.
  destruct Hdet as (D1 & _). induction w as [|c w IH]; intros s t Ht.
  { rewrite !path_nil_no_eps; [done|apply D1|apply Heps]. }
  rewrite !path_no_eps by (apply D1 || apply Heps). cbn. setoid_rewrite Hedge. split.
  - intros (s' & [He|(_ & -> & _)] & Hp); [exists s'; by rewrite <-IH|]. apply sink_stays in Hp as ->. done.
  - intros (s' & He & Hp). exists s'. rewrite IH by done. split; [by left|done].
Qed.

Lemma sink_language w : language f' w ↔ language f w.
Proof.
  unfold language, accepts. cbn. setoid_rewrite Hst'. setoid_rewrite Hend. split; intros (s & t & Hs & Hp & He); exists s, t; (split; [done|]); (split; [|done]).
  - apply sink_path; [apply He|done].
  - apply sink_path; [apply He|done].
Qed.
End Sink.

Lemma fsm_complete_spec f L D start fuel :
  walkable f D L → fsm_getstart f = Some start → (N.of_nat (f_statecount f) < 2147483647)%N →
  ∃ f', fsm_complete fuel f fsm_isany = Some (true, Some f') ∧ completes f f'.
Proof.
  intros [O I Hd _ _ _] Hst Hn. pose proof (inv_wf _ I) as Hwf. pose proof (wf_start _ Hwf _ Hst) as Hls.
  unfold fsm_complete, make_dfa. rewrite Hd. cbn [mbind option_bind negb].
  assert (fsm_has f fsm_isany = true) as ->.
  { unfold fsm_has. apply existsb_exists. exists start. split; [|done]. by apply list_elem_of_In, elem_of_live_ids. }
  cbn [negb]. destruct (fsm_addstate f) as [[ok f1] new] eqn:E1. pose proof (inv_addstate _ _ _ _ I ltac:(done) E1) as I1.
  destruct (fsm_addstate_spec f ok f1 new Hwf ltac:(done) E1) as (_ & Hok & Ht). assert (ok = true) as -> by (by apply Hok).
  destruct (Ht eq_refl) as (W1 & C1 & Ec & (N1 & N2 & N3 & N4) & _ & _ & _ & _ & Z1 & Z2 & Z3). cbn [negb]. cbn in N1, N2, N3, N4.
  assert (live f1 new) as Hl1 by (unfold live; lia). assert (¬ live f new) as Hnl by (unfold live; lia).
  destruct (addedge_any_loop_spec 256 0 f1 new new W1 Hl1 Hl1) as (f2 & E2 & W2 & C2 & (M1 & M2 & M3 & M4)); [lia|].
  unfold fsm_addedge_any. rewrite E2. cbn [negb]. cbn in M1, M2, M3, M4.
  pose proof (inv_addedge_any 256 0 f1 new new true f2 I1 Hl1 Hl1 ltac:(lia) E2) as I2.
  destruct (complete_states_spec (live_ids f2) new f2 I2) as (f3 & -> & [I3 C3 _ (K1 & K2 & K3 & K4)]).
  { unfold live in *. by rewrite C2. }
  { unfold live_ids. apply NoDup_fmap; [apply _|]. apply NoDup_seq. }
  { intros s. apply elem_of_live_ids. }
  cbn [mbind option_bind]. cbn in K1, K2, K3, K4. exists f3. split; [done|].
  apply fsm_all_isdfa in Hd as [Hdet _]; [|done].
  assert (∀ s, live f3 s ↔ live f s ∨ s = new) as Hlive by (intros s; unfold live; lia).
  assert (∀ s, live f2 s ↔ live f3 s) as Hlive2 by (intros s; unfold live; lia).
  assert (∀ s c t, f_edge f3 s c t ↔ f_edge f s c t ∨ live f3 s ∧ t = new ∧ c < 256 ∧ ¬ ∃ t', f_edge f s c t') as Hedge.
  { intros s c t. rewrite K1. setoid_rewrite M1. setoid_rewrite N1. rewrite elem_of_live_ids, Hlive2. split.
    - intros [[?|(-> & Hc & ->)]|(Hs & -> & Hc & Hno)]; [by left| |].
      + right. split; [apply Hlive; by right|]. split; [done|]. split; [lia|]. by intros (t' & ? & _).
      + right. do 3 (split; [done|]). intros [t' Ht']. eauto.
    - intros [?|(Hs & -> & Hc & Hno)]; [by left; left|]. destruct (decide (s = new)) as [->|Hne].
      + left. right. split; [done|]. split; [lia|done].
      + right. do 3 (split; [done|]). intros (t' & [Ht'|(-> & _)]); [eauto|done]. }
  assert (∀ s t, ¬ f_eps f3 s t) as Heps.
  { intros s t. rewrite K2, M2, N2. destruct Hdet as (D1 & _). apply D1. }
  assert (∀ s, f_end f3 s ↔ f_end f s) as Hend by (intros s; by rewrite K3, M3, N3).
  assert (∀ s, fsm_getstart f3 = Some s ↔ fsm_getstart f = Some s) as Hstart by (intros s; by rewrite K4, M4, N4).
  split.
  - done.
  - by eapply (sink_det f new f3).
  - by eapply (sink_complete f new f3).
  - exists start. by apply Hstart.
  - intros w. by eapply (sink_language f new f3).
Qed.

(** ** Swapping the end states *)

Lemma all_complete_spec f l :
  fsm_wf f → (∀ s, s ∈ l → live f s) →
  ∃ b, all_complete f l = Some b ∧ (b = true ↔ ∀ s, s ∈ l → ∀ c, c < 256 → ∃ t, f_edge f s c t).
Proof.
  intros Hwf. induction l as [|s l IH]; intros Hl; cbn [all_complete].
  { exists true. split; [done|]. split; [|done]. by intros _ s ?%not_elem_of_nil. }
  destruct (fsm_iscomplete_spec f s Hwf) as (b & -> & Hb); [apply Hl; left|]. cbn [mbind option_bind].
  destruct IH as (b' & -> & Hb'); [intros; apply Hl; by right|]. destruct b.
  - exists b'. split; [done|]. rewrite Hb'. setoid_rewrite elem_of_cons. naive_solver.
  - exists false. split; [done|]. setoid_rewrite elem_of_cons. naive_solver.
Qed.

Lemma invert_ends_loop l : ∀ f,
  fsm_inv f → NoDup l → (∀ s, s ∈ l → live f s) →
  let f' := foldl (λ f i, fsm_setend f i (negb (fsm_isend f i))) f l in
  fsm_inv f' ∧ f_statecount f' = f_statecount f ∧
  nfa_of f' ≡ mk_nfa (f_edge f) (f_eps f) (λ s, live f s ∧ fsm_isend f s = negb (bool_decide (s ∈ l))) (λ s, fsm_getstart f = Some s).
Proof.
  induction l as [|i l IH]; intros f Hi Hnd Hl; cbn [foldl].
  { split; [done|]. split; [done|]. split_and!; cbn; done. }
  apply NoDup_cons in Hnd as [Hni Hnd]. assert (live f i) as Hli by (apply Hl; left).
  destruct (fsm_setend_spec f i (negb (fsm_isend f i)) (inv_wf _ Hi) Hli) as (_ & (N1 & N2 & N3 & N4) & C & _).
  pose proof (inv_setend f i (negb (fsm_isend f i)) Hi Hli) as I1. set (f1 := fsm_setend f i _) in *.
  destruct (IH f1) as (I2 & C2 & (M1 & M2 & M3 & M4)); [done|done|intros s Hs; unfold live; rewrite C; apply Hl; by right|].
  cbn in *. split; [done|]. split; [congruence|]. split_and!; cbn.
  - intros s c t. by rewrite M1, N1.
  - intros s t. by rewrite M2, N2.
  - intros s. rewrite M3. specialize (N3 s). unfold f_end in N3. unfold live at 1. rewrite C. fold (live f s).
    rewrite (bool_decide_ext (s ∈ i :: l) (s = i ∨ s ∈ l)) by apply elem_of_cons.
    assert (live f s → fsm_isend f1 s = if decide (s = i) then negb (fsm_isend f i) else fsm_isend f s) as Hend.
    { intros Hs. assert (live f1 s) as Hs1 by (unfold live in *; by rewrite C). apply eq_true_iff_eq. case_decide; naive_solver. }
    split; intros [Hs He]; (split; [done|]); specialize (Hend Hs); rewrite Hend in *; case_decide as Hd;
      [subst; rewrite (bool_decide_true (_ ∨ _)) by auto; rewrite bool_decide_false in He by done; by destruct (fsm_isend f i)
      |rewrite (bool_decide_ext (s = i ∨ s ∈ l) (s ∈ l)) by naive_solver; done
      |subst; rewrite (bool_decide_true (_ ∨ _)) in He by auto; rewrite bool_decide_false by done; by destruct (fsm_isend f i)
      |rewrite (bool_decide_ext (s = i ∨ s ∈ l) (s ∈ l)) in He by naive_solver; done].
  - intros s. by rewrite M4, N4.
Qed.

Lemma complete_path f w : complete f → fsm_wf f → Forall (λ c, c < 256) w → ∀ s, live f s → ∃ t, path (nfa_of f) s w t ∧ live f t.
Proof.
  intros Hc Hwf. induction 1 as [|c w Hlt _ IH]; intros s Hs; [exists s; split; [constructor|done]|].
  destruct (Hc s c Hs Hlt) as [s' He]. destruct (IH s') as (t & Hp & Ht); [by eapply f_edge_live|]. exists t. split; [by eapply path_step|done].
Qed.

(** The result accepts the words that lead to a state that was no end state. *)
Lemma complement_flips f start :
  fsm_inv f → fsm_getstart f = Some start →
  ∃ f', complement_dfa f = Some (true, Some f') ∧ fsm_inv f' ∧
    ∀ w, language f' w ↔ ∃ t, path (nfa_of f) start w t ∧ live f t ∧ fsm_isend f t = false.
Proof.
  intros Hi Hst. pose proof (wf_start _ (inv_wf _ Hi) _ Hst) as Hls.
  destruct (invert_ends_loop (live_ids f) f Hi) as (I1 & C1 & Hn).
  { unfold live_ids. apply NoDup_fmap; [apply _|]. apply NoDup_seq. }
  { intros s. apply elem_of_live_ids. }
  unfold complement_dfa. fold (invert_ends f) in *. destruct I1 as [J1 J2 J3 J4].
  destruct (fsm_trim_correct (invert_ends f) FSM_TRIM_START_REACHABLE false J1 J2 J3 J4) as (f' & sed & -> & K1 & K2 & K3 & K4 & _ & Hl & _).
  { rewrite C1. unfold live in Hls. lia. }
  cbn [mbind option_bind]. exists f'. split; [rewrite (proj2 (Z.ltb_ge _ _)) by lia; done|]. split; [by split|].
  intros w. rewrite Hl. unfold language. rewrite Hn. unfold accepts. cbn [n_start n_end]. split.
  - intros (s & t & Hs & Hp & Ht & He). rewrite Hst in Hs. injection Hs as <-. rewrite bool_decide_true in He by (by apply elem_of_live_ids).
    exists t. split; [|done]. eapply path_mono; [| |exact Hp]; done.
  - intros (t & Hp & Ht & He). exists start, t. split; [done|]. split; [eapply path_mono; [| |exact Hp]; done|]. split; [done|].
    by rewrite bool_decide_true by (by apply elem_of_live_ids).
Qed.

(** A word leads to one state of a complete DFA. *)
Lemma complement_dfa_spec f :
  fsm_inv f → deterministic (nfa_of f) → complete f → is_Some (fsm_getstart f) →
  ∃ f', complement_dfa f = Some (true, Some f') ∧ fsm_inv f' ∧
    ∀ w, Forall (λ c, c < 256) w → language f' w ↔ ¬ language f w.
Proof.
  intros Hi Hd Hc [start Hst]. pose proof (inv_wf _ Hi) as Hwf. pose proof (wf_start _ Hwf _ Hst) as Hls.
  destruct (complement_flips f start Hi Hst) as (f' & E & I' & Hl). exists f'. do 2 (split; [done|]). intros w Hw. rewrite Hl.
  destruct (complete_path f w Hc Hwf Hw start Hls) as (t & Hp & Ht). rewrite (language_start f start w Hst). split.
  - intros (t' & Hp' & _ & He) (u & Hu & _ & He'). rewrite (path_det _ _ _ _ _ Hd Hp' Hu) in He. congruence.
  - intros Hno. exists t. split; [done|]. split; [done|]. apply not_true_iff_false. intros He. apply Hno. exists t. done.
Qed.


(** C37. [fsm_complement] does not determinise an automaton all of whose states
    are complete. Whatever such an automaton, a word that leads both to an end
    state and to a state that is none is accepted by the automaton and by what
    is returned as its complement. *)
Theorem fsm_complement_not_dfa f start fuel w t t' :
  fsm_inv f → complete f → fsm_getstart f = Some start →
  path (nfa_of f) start w t → f_end f t → path (nfa_of f) start w t' → fsm_isend f t' = false →
  ∃ f', fsm_complement fuel f = Some (true, Some f') ∧ language f w ∧ language f' w.
Proof.
  intros Hi Hc Hst Hp He Hp' He'. pose proof (inv_wf _ Hi) as Hwf. pose proof (wf_start _ Hwf _ Hst) as Hls.
  destruct (all_complete_spec f (live_ids f) Hwf) as (b & Eb & Hb); [intros s; apply elem_of_live_ids|].
  setoid_rewrite elem_of_live_ids in Hb. assert (b = true) as -> by (apply Hb; intros s Hs c Hlt; by apply Hc).
  destruct (complement_flips f start Hi Hst) as (f' & E & _ & Hl). exists f'. unfold fsm_complement. rewrite Eb. cbn [mbind option_bind].
  split; [done|]. split; [apply (language_start f start w Hst); by exists t|]. apply Hl. exists t'. split; [done|]. split; [|done].
  by eapply path_states_live.
Qed.

(** ** Character sets *)

Lemma charset_edges_spec st cs : ∀ f,
  fsm_inv f → live f st → Forall (λ c, c < 256) cs →
  ∃ f', charset_edges f st cs = (true, f') ∧ adds_edges (λ s c t, s = st ∧ t = st ∧ c ∈ cs) f f'.
Proof.
  induction cs as [|c cs IH]; intros f Hi Hs Hcs; cbn [charset_edges].
  { exists f. split; [done|]. apply adds_nothing; [done|]. by intros s c t (_ & _ & ?%not_elem_of_nil). }
  apply Forall_cons in Hcs as [Hc Hcs]. destruct (fsm_addedge_literal f st st c) as [ok f1] eqn:E.
  destruct (adds_literal f st st c ok f1 Hi Hs Hs Hc E) as [-> A1].
  destruct (IH f1) as (f' & -> & A2); [apply A1|unfold live in *; by rewrite (ae_count _ _ _ A1)|done|].
  exists f'. split; [done|]. eapply adds_edges_trans; [|exact A1|exact A2]. cbn. intros s c' t. rewrite elem_of_cons. naive_solver.
Qed.

Lemma charset_fsm_spec al cs :
  Forall (λ c, c < 256) cs →
  ∃ b, charset_fsm al cs = Some b ∧ walkable b 1 (Forall (λ c, c ∈ cs)).
Proof.
  intros Hcs. unfold charset_fsm. destruct (fsm_new_statealloc al 1) as [f0|] eqn:E0.
  2: { unfold fsm_new_statealloc, fsm_endid_init, fsm_eager_output_init in E0. by rewrite !f_malloc_total, !f_calloc_total in E0. }
  destruct (inv_new_statealloc _ _ _ E0) as (I0 & C0 & _ & S0 & M0). cbn [mbind option_bind].
  destruct (fsm_addstate f0) as [[ok f1] st] eqn:E1. pose proof (inv_addstate _ _ _ _ I0 ltac:(lia) E1) as I1.
  destruct (fsm_addstate_spec f0 ok f1 st (inv_wf _ I0) ltac:(lia) E1) as (_ & Hok & Ht). assert (ok = true) as -> by (by apply Hok).
  destruct (fsm_addstate_frame f0 true f1 st (inv_wf _ I0) E1) as (F1 & _).
  destruct (Ht eq_refl) as (W1 & C1 & Ec & _ & _ & _ & _ & _ & Z1 & Z2 & Z3).
  assert (live f1 st) as Hl1 by (unfold live; lia).
  destruct (charset_edges_spec st cs f1 I1 Hl1 Hcs) as (f2 & -> & [I2 C2 D2 (N1 & N2 & N3 & N4)]). cbn in N1, N2, N3, N4.
  assert (live f2 st) as Hl2 by (unfold live in *; lia).
  pose proof (inv_setend f2 st true I2 Hl2) as I3. destruct (fsm_setend_spec f2 st true (inv_wf _ I2) Hl2) as (W3 & (P1 & P2 & P3 & P4) & C3 & _).
  destruct (same_meta_setend f2 st true) as (D3 & _). set (f3 := fsm_setend f2 st true) in *.
  assert (live f3 st) as Hl3 by (unfold live in *; lia).
  destruct (fsm_setstart_spec f3 st W3 Hl3) as (W4 & (Q1 & Q2 & Q3 & Q4)). pose proof (inv_setstart f3 st I3 Hl3) as I4.
  exists (fsm_setstart f3 st). split; [done|]. set (f4 := fsm_setstart f3 st) in *. cbn in P1, P2, P3, Q1, Q2, Q3.
  assert (∀ s, live f1 s → s = st) as Hone by (intros s Hs; unfold live in Hs; lia).
  assert (f_statecount f4 = 1) as C4 by (change (f_statecount f4) with (f_statecount f3); lia).
  assert (fsm_getstart f4 = Some st) as S4 by done.
  assert (∀ s c t, f_edge f4 s c t ↔ s = st ∧ t = st ∧ c ∈ cs) as He.
  { intros s c t. rewrite Q1, P1, N1. split; [|by right]. intros [Hx|?]; [|done]. rewrite (Hone s) in Hx by apply Hx. by apply Z1 in Hx. }
  assert (∀ s t, ¬ f_eps f4 s t) as Hno.
  { intros s t. rewrite Q2, P2, N2. intros Hx. rewrite (Hone s) in Hx by apply Hx. by apply Z2 in Hx. }
  assert (f_end f4 st) as Hend by (apply Q3, P3; by rewrite decide_True).
  assert (endid_wf (f_endid_info f4) ∧ ∀ s, endids (f_endid_info f4) s = []) as [He4 Hids].
  { change (f_endid_info f4) with (f_endid_info f3). rewrite D3, D2, F1, M0. split; [apply fresh_endid_wf|]. intros s.
    destruct (endids _ s) eqn:E; [done|].
    assert (endids (mk_endid_info (replicate DEF_BUCKET_COUNT None) 0) s ≠ []) as [e Hx]%(endid_key _ _ fresh_endid_wf) by congruence.
    by destruct (not_elem_of_empty_table DEF_BUCKET_COUNT s e). }
  split; try done.
  - apply operand_intro; [done|unfold ids_fit; lia|done].
  - apply fsm_all_isdfa; [done|]. split; [|right; by rewrite S4]. split; [intros s t; apply Hno|]. split; [|cbn; congruence].
    intros s c t t' H1%He H2%He. naive_solver.
  - lia.
  - intros w. rewrite (language_start f4 st w S4). induction w as [|c w IH].
    + split; [constructor|]. intros _. exists st. split; [constructor|done].
    + unfold reaches_end in *. setoid_rewrite path_no_eps; [|exact Hno]. cbn [n_edge nfa_of]. rewrite Forall_cons, <-IH. setoid_rewrite He. naive_solver.
Qed.

(** [fsm_intersect_charset] keeps the words of the DFA whose characters are all
    in the set. *)
Lemma intersect_charset_language a sa cs :
  operand a → fsm_all a fsm_isdfa = true → fsm_getstart a = Some sa → Forall (λ c, c < 256) cs →
  (N.of_nat (f_statecount a) < 16777216)%N →
  ∃ q, fsm_intersect_charset a (Some cs) = Some (Some q) ∧ fsm_wf q ∧ deterministic (nfa_of q) ∧
    ∀ w, language q w ↔ language a w ∧ Forall (λ c, c ∈ cs) w.
Proof.
  intros Ha Hd Hs Hcs Hn. unfold fsm_intersect_charset. destruct (charset_fsm_spec (f_alloc a) cs Hcs) as (b & -> & [B1 B2 B3 [sb B4] B5 B6]).
  rewrite Hd, B3. cbn [andb]. assert (factors a b sa sb) as Hf.
  { split; try done. assert ((f_statecount a + 1) * (f_statecount b + 1) ≤ (f_statecount a + 1) * 2) by (apply Nat.mul_le_mono; lia). lia. }
  destruct (walk2_intersects a b sa sb Hf) as (q & -> & W & D & _ & S & Hl). cbn [mbind option_bind].
  assert (fsm_all q fsm_isdfa = true) as -> by (apply fsm_all_isdfa; auto). exists q. do 3 (split; [done|]).
  intros w. by rewrite Hl, B6.
Qed.
End Complete.


(** Any string that is not empty, with two edges for each symbol. *)
Definition some_ops : list build_op :=
  [BAddState; BAddState; BAny 0%N 0%N; BAny 0%N 1%N; BAny 1%N 1%N; BEnd 1%N true; BStart 0%N].
Definition some_any : fsm := @build_from_new always some_ops.

Lemma some_any_edge s t :
  live some_any s → Forall (λ c, (c, t) ∈ edge_list (st_edges (get_state some_any s))) (seq 0 256) → ∀ c, c < 256 → f_edge some_any s c t.
Proof.
  intros Hs Hall c Hc. split; [done|]. rewrite Forall_forall in Hall.
  apply elem_of_edge_list; [apply wf_edges; [by_compute|done]|]. apply Hall, elem_of_seq. lia.
Qed.

Lemma some_any_complete : complete some_any.
Proof.
  intros s c Hs Hc. exists 1%N. revert c Hc. apply some_any_edge; [done|].
  assert (s = 0%N ∨ s = 1%N) as [-> | ->] by (unfold live in Hs; change (f_statecount some_any) with 2 in Hs; lia); by_compute.
Qed.

Lemma fsm_complement_not_dfa_witness :
  ∃ f', @fsm_complement always 16 some_any = Some (true, Some f') ∧ language some_any [97] ∧ language f' [97].
Proof.
  apply (@fsm_complement_not_dfa always always_total some_any 0%N 16 [97] 1%N 0%N).
  - by apply inv_build_from_new.
  - exact some_any_complete.
  - vm_compute. reflexivity.
  - eapply path_step; [|constructor]. apply some_any_edge; [by_compute|by_compute|lia].
  - split; [by_compute|vm_compute; reflexivity].
  - eapply path_step; [|constructor]. apply some_any_edge; [by_compute|by_compute|lia].
  - vm_compute. reflexivity.
Defined.
