(* ===== verification/Pv.v ===== *)
(** * Permutation vectors: include/adt/pv.h

    A counting sort that returns the offsets of the values in ascending order.
    The elements are [unsigned]s of an array, so the size of a structure and the
    offset within it play no part. Counters and positions are [unsigned] as well
    and wrap; [None] is an access out of bounds, [Some None] a NULL. *)

From S2P Require Import Prelude.

Section Ops.
Context `{allocator}.

Definition count_values (inp counts : list nat) : option (list nat) :=
  foldl (λ acc value,
    counts ← acc;
    c ← counts !! value;
    Some (<[value := u32n (c + 1)]> counts)) (Some counts) inp.

(** [counts[v]] becomes the number of values up to [v]. *)
Definition cumulate (max_value : nat) (counts : list nat) : list nat :=
  foldl (λ counts i, <[i := u32n (counts !!! i + counts !!! (i - 1))]> counts) counts (seq 1 max_value).

(** [--] on an [unsigned]. *)
Definition decr (c : nat) : nat := match c with 0 => N.to_nat 4294967295 | S c => c end.

(** The sweep backwards. *)
Definition place_step (inp : list nat) (acc : option (list nat * list nat)) (i : nat) : option (list nat * list nat) :=
  '(counts, out) ← acc;
  let pos := u32n (length inp - i - 1) in
  value ← inp !! pos;
  c ← counts !! value;
  let count := decr c in
  if count <? length out then Some (<[value := count]> counts, <[count := pos]> out) else None.

Definition place_values (inp counts out : list nat) : option (list nat) :=
  '(_, out) ← foldl (place_step inp) (Some (counts, out)) (seq 0 (length inp));
  Some out.

Definition permutation_vector (al : fsm_alloc) (max_value : nat) (inp : list nat) : option (option (list nat)) :=
  if f_malloc al (N.of_nat (if length inp =? 0 then 1 else length inp) * 4) then
    if f_calloc al (N.of_nat max_value + 1) 4 then
      counts ← count_values inp (replicate (max_value + 1) 0);
      out ← place_values inp (cumulate max_value counts) (replicate (length inp) 0);
      Some (Some out)
    else Some None
  else Some None.
End Ops.

(** ** Lemmas *)

(** How many values are equal to [v], less than [v], at most [v]. *)
Definition count_eq (l : list nat) (v : nat) : nat := length (filter (λ x, x = v) l).
Definition count_lt (l : list nat) (v : nat) : nat := length (filter (λ x, x < v) l).

Lemma count_eq_app l l' v : count_eq (l ++ l') v = count_eq l v + count_eq l' v.
Proof. unfold count_eq. by rewrite filter_app, length_app. Qed.

Lemma count_eq_one x v : count_eq [x] v = if decide (x = v) then 1 else 0.
Proof. unfold count_eq. rewrite filter_cons, filter_nil. by case_decide. Qed.

Lemma count_lt_S l v : count_lt l (S v) = count_lt l v + count_eq l v.
Proof.
  unfold count_lt, count_eq. induction l as [|x l IH]; [done|]. rewrite !filter_cons.
  repeat case_decide; cbn [length]; lia.
Qed.

Lemma count_lt_mono l v v' : v ≤ v' → count_lt l v ≤ count_lt l v'.
Proof. induction 1 as [|v' _ IH]; [done|]. rewrite count_lt_S. lia. Qed.

Lemma count_lt_eq_length l v : count_lt l v + count_eq l v ≤ length l.
Proof. rewrite <-count_lt_S. apply length_filter. Qed.

Lemma count_eq_length l v : count_eq l v ≤ length l.
Proof. apply length_filter. Qed.

Lemma count_eq_take l i x v : l !! i = Some x → count_eq (take (S i) l) v = count_eq (take i l) v + if decide (x = v) then 1 else 0.
Proof. intros Hx. by rewrite (take_S_r _ _ _ Hx), count_eq_app, count_eq_one. Qed.

Lemma count_eq_take_le l i j v : i ≤ j → count_eq (take i l) v ≤ count_eq (take j l) v.
Proof.
  intros Hij. replace j with (i + (j - i)) by lia. rewrite <-take_take_drop, count_eq_app. lia.
Qed.

Lemma count_eq_take_lt l i v : l !! i = Some v → count_eq (take i l) v < count_eq l v.
Proof.
  intros Hv. rewrite <-(take_drop (S i) l) at 2. rewrite count_eq_app, (count_eq_take l i v v Hv), decide_True by done. lia.
Qed.

(** Where the value at [i] goes. *)
Definition place_of (l : list nat) (i v : nat) : nat := count_lt l v + count_eq (take i l) v.

Lemma place_of_lt l i v : l !! i = Some v → place_of l i v < length l.
Proof. intros Hv. unfold place_of. pose proof (count_eq_take_lt l i v Hv). pose proof (count_lt_eq_length l v). lia. Qed.

Lemma place_of_mono l i j v v' :
  l !! i = Some v → l !! j = Some v' → v < v' ∨ v = v' ∧ i < j → place_of l i v < place_of l j v'.
Proof.
  intros Hi Hj [Hlt|[<- Hlt]]; unfold place_of.
  - pose proof (count_eq_take_lt l i v Hi). pose proof (count_lt_mono l (S v) v' ltac:(lia)). rewrite count_lt_S in *. lia.
  - pose proof (count_eq_take_le l (S i) j v ltac:(lia)) as Hc. rewrite (count_eq_take l i v v Hi), decide_True in Hc by done. lia.
Qed.

Lemma place_of_inj l i j v v' : l !! i = Some v → l !! j = Some v' → place_of l i v = place_of l j v' → i = j.
Proof.
  intros Hi Hj E. destruct (decide (i = j)) as [|Hne]; [done|exfalso].
  assert ((v < v' ∨ v = v' ∧ i < j) ∨ (v' < v ∨ v' = v ∧ j < i)) as [Hx|Hx] by lia.
  - pose proof (place_of_mono l i j v v' Hi Hj Hx). lia.
  - pose proof (place_of_mono l j i v' v Hj Hi Hx). lia.
Qed.

Lemma count_values_spec inp : ∀ counts,
  Forall (λ v, v < length counts) inp → (∀ v c, counts !! v = Some c → (N.of_nat (c + length inp) < 4294967296)%N) →
  ∃ counts', count_values inp counts = Some counts' ∧ length counts' = length counts ∧
    ∀ v c, counts !! v = Some c → counts' !! v = Some (c + count_eq inp v).
Proof.
  induction inp as [|x inp IH] using rev_ind; intros counts Hb Hs.
  { exists counts. do 2 (split; [done|]). intros v c. by rewrite Nat.add_0_r. }
  apply Forall_app in Hb as [Hb Hx]. rewrite Forall_singleton in Hx. setoid_rewrite length_app in Hs. cbn [length] in Hs.
  destruct (IH counts Hb) as (c1 & E & L & Hc); [intros v c Hv; specialize (Hs v c Hv); lia|].
  unfold count_values in *. rewrite foldl_app, E. cbn [foldl mbind option_bind].
  destruct (lookup_lt_is_Some_2 counts x Hx) as [c0 Hc0]. rewrite (Hc x c0 Hc0). cbn [mbind option_bind].
  eexists. split; [done|]. split; [by rewrite length_insert|]. intros v c Hv. rewrite count_eq_app, count_eq_one.
  destruct (decide (x = v)) as [<-|Hne].
  - rewrite list_lookup_insert_eq by lia. rewrite Hc0 in Hv. injection Hv as ->. f_equal. pose proof (count_eq_length inp x). specialize (Hs x c Hc0). rewrite u32n_small by lia. lia.
  - rewrite list_lookup_insert_ne by done. rewrite (Hc v c Hv). f_equal. lia.
Qed.

Lemma cumulate_spec inp counts m :
  m < length counts → (N.of_nat (length inp) < 4294967296)%N → (∀ v, v < length counts → counts !! v = Some (count_eq inp v)) →
  length (cumulate m counts) = length counts ∧
  ∀ v, v < length counts → cumulate m counts !! v = Some (if decide (v ≤ m) then count_lt inp (S v) else count_eq inp v).
Proof.
  intros Hm Hs Hc. induction m as [|m IH].
  { split; [done|]. intros v Hv. cbn. rewrite Hc by done. case_decide; [|done]. assert (v = 0) as -> by lia. f_equal.
    rewrite count_lt_S. enough (count_lt inp 0 = 0) by lia. unfold count_lt. clear. induction inp as [|x l IH]; [done|].
    rewrite filter_cons. case_decide; [lia|done]. }
  destruct IH as [L IH]; [lia|]. unfold cumulate in *. rewrite seq_S, foldl_app. cbn [foldl].
  replace (1 + m - 1) with m by lia. replace (1 + m) with (S m) by lia. set (c1 := foldl _ counts (seq 1 m)) in *.
  split; [by rewrite length_insert|]. intros v Hv. destruct (decide (v = S m)) as [->|Hne].
  - rewrite list_lookup_insert_eq by lia. rewrite !list_lookup_total_alt, !IH by lia. cbn [default].
    rewrite (decide_False (P := S m ≤ m)), (decide_True (P := m ≤ m)), decide_True by lia. cbn. f_equal.
    rewrite (count_lt_S inp (S m)). pose proof (count_lt_eq_length inp (S m)). rewrite u32n_small by lia. lia.
  - rewrite list_lookup_insert_ne, IH by done. by repeat case_decide; try lia.
Qed.

Section Place.
Context (inp : list nat).
Hypothesis Hsmall : (N.of_nat (length inp) < 4294967296)%N.

(** The values from [p] on have been placed. *)
Definition placed (p : nat) (counts out : list nat) : Prop :=
  length out = length inp ∧
  (∀ i v, inp !! i = Some v → counts !! v = Some (place_of inp p v)) ∧
  ∀ i v, p ≤ i → inp !! i = Some v → out !! place_of inp i v = Some i.

Lemma place_loop n : ∀ i p counts out,
  p = length inp - i → i + n = length inp → placed p counts out →
  ∃ counts' out', foldl (place_step inp) (Some (counts, out)) (seq i n) = Some (counts', out') ∧ placed 0 counts' out'.
Proof.
  induction n as [|n IH]; intros i p counts out -> Hn Hp; cbn [seq foldl].
  { replace (length inp - i) with 0 in Hp by lia. eauto. }
  unfold place_step at 2. cbn [mbind option_bind]. rewrite u32n_small by lia. set (pos := length inp - i - 1). destruct (lookup_lt_is_Some_2 inp pos ltac:(lia)) as [v Hv].
  rewrite Hv. cbn [mbind option_bind]. destruct Hp as (L & Hc & Ho). rewrite (Hc pos v Hv). cbn [mbind option_bind].
  replace (length inp - i) with (S pos) in * by lia.
  assert (place_of inp (S pos) v = S (place_of inp pos v)) as E.
  { unfold place_of. rewrite (count_eq_take inp pos v v Hv), decide_True by done. lia. }
  rewrite E. cbn [decr].
  pose proof (place_of_lt inp pos v Hv) as Hlt. rewrite L, (proj2 (Nat.ltb_lt _ _) Hlt).
  apply (IH (S i) pos); [lia|lia|]. split; [by rewrite length_insert|]. split.
  - intros j x Hx. destruct (decide (x = v)) as [->|Hne].
    + rewrite list_lookup_insert_eq; [done|]. by eapply lookup_lt_Some, (Hc pos).
    + rewrite list_lookup_insert_ne by done. rewrite (Hc j x Hx). f_equal. unfold place_of.
      rewrite (count_eq_take inp pos v x Hv), decide_False by done. lia.
  - intros j x Hj Hx. destruct (decide (j = pos)) as [->|Hne].
    + rewrite Hv in Hx. injection Hx as <-. apply list_lookup_insert_eq. lia.
    + rewrite list_lookup_insert_ne; [by apply Ho; [lia|]|]. intros Ex. apply Hne. symmetry. by eapply place_of_inj.
Qed.
End Place.

Section Spec.
Context `{allocator, !alloc_total}.

Lemma permutation_vector_places al m inp :
  Forall (λ v, v ≤ m) inp → (N.of_nat (length inp) < 4294967296)%N →
  ∃ out, permutation_vector al m inp = Some (Some out) ∧ length out = length inp ∧
    ∀ i v, inp !! i = Some v → out !! place_of inp i v = Some i.
Proof.
  intros Hb Hs. unfold permutation_vector. rewrite f_malloc_total, f_calloc_total.
  destruct (count_values_spec inp (replicate (m + 1) 0)) as (c1 & -> & L1 & H1).
  { rewrite length_replicate. eapply Forall_impl; [exact Hb|]. cbn. lia. }
  { by intros v c [-> _]%lookup_replicate. }
  rewrite length_replicate in L1. cbn [mbind option_bind]. destruct (cumulate_spec inp c1 m) as [L2 H2]; [lia|done| |].
  { intros v Hv. rewrite (H1 v 0); [done|]. apply lookup_replicate_2. lia. }
  unfold place_values. destruct (place_loop inp Hs (length inp) 0 (length inp) (cumulate m c1) (replicate (length inp) 0)) as (c3 & out & -> & P);
    [lia|lia| |].
  - split; [by rewrite length_replicate|]. split; [|intros i v Hi Hv%lookup_lt_Some; lia]. intros i v Hv.
    rewrite Forall_lookup in Hb. pose proof (Hb i v Hv). rewrite H2 by lia. rewrite decide_True by done. f_equal.
    unfold place_of. rewrite take_ge by done. apply count_lt_S.
  - cbn [mbind option_bind]. exists out. split; [done|]. destruct P as (P1 & _ & P3). split; [done|]. intros i v Hv. apply P3; [lia|done].
Qed.

Lemma permutation_vector_perm al m inp :
  Forall (λ v, v ≤ m) inp → (N.of_nat (length inp) < 4294967296)%N →
  ∃ out, permutation_vector al m inp = Some (Some out) ∧ out ≡ₚ seq 0 (length inp).
Proof.
  intros Hb Hs. destruct (permutation_vector_places al m inp Hb Hs) as (out & E & L & Ho). exists out. split; [done|].
  symmetry. apply submseteq_length_Permutation; [|rewrite length_seq; lia]. apply NoDup_submseteq; [apply NoDup_seq|].
  intros i Hi%elem_of_seq. destruct (lookup_lt_is_Some_2 inp i ltac:(lia)) as [v Hv]. eapply list_elem_of_lookup_2, Ho, Hv.
Qed.

(** C33. [permutation_vector] returns the offsets of the values in ascending order,
    those of equal values in the order of the array: a stable sort. The array
    has fewer than 2^32 elements, which keeps the counters and the positions
    within an [unsigned]. *)
Theorem permutation_vector_sorts al m inp :
  Forall (λ v, v ≤ m) inp → (N.of_nat (length inp) < 4294967296)%N →
  ∃ out, permutation_vector al m inp = Some (Some out) ∧ out ≡ₚ seq 0 (length inp) ∧
    ∀ a b i j v v', a < b → out !! a = Some i → out !! b = Some j → inp !! i = Some v → inp !! j = Some v' →
      v < v' ∨ v = v' ∧ i < j.
Proof.
  intros Hb Hs. destruct (permutation_vector_perm al m inp Hb Hs) as (out & E & Hp). exists out. split; [done|]. split; [done|].
  destruct (permutation_vector_places al m inp Hb Hs) as (out' & E' & L & Ho). rewrite E in E'. injection E' as <-.
  intros a b i j v v' Hab Ha Hb' Hi Hj. assert (NoDup out) as Hnd by (rewrite Hp; apply NoDup_seq).
  assert (a = place_of inp i v) as -> by (eapply NoDup_lookup; eauto).
  assert (b = place_of inp j v') as -> by (eapply NoDup_lookup; eauto).
  assert ((v < v' ∨ v = v' ∧ i < j) ∨ (v' < v ∨ v' = v ∧ j < i) ∨ i = j) as [?|[Hx|<-]] by lia; [done| |].
  - pose proof (place_of_mono inp j i v' v Hj Hi Hx). lia.
  - rewrite Hi in Hj. injection Hj as <-. lia.
Qed.
End Spec.

Lemma permutation_vector_sorts_witness :
  ∃ out, @permutation_vector always 0%N 3 [3; 3; 0; 1; 3; 1; 1; 3; 2; 2] = Some (Some out) ∧ out = [2; 3; 5; 6; 8; 9; 0; 1; 4; 7].
Proof.
  destruct (@permutation_vector_sorts always always_total 0%N 3 [3; 3; 0; 1; 3; 1; 1; 3; 2; 2]) as (out & E & _ & _); [by_compute|by_compute|].
  exists out. split; [exact E|]. vm_compute in E. injection E as <-. reflexivity.
Defined.
