(* ===== verification/Consolidate.v ===== *)
(** * Consolidation: src/libfsm/consolidate.c

    [fsm_consolidate] makes a new automaton from one and a mapping of its states
    to new ones: the first state mapped to a new one gives it its edges, all of
    them give it their end ids, eager outputs and capture actions. *)

From S2P Require Import Prelude StateSet Bits EdgeSet EdgeIter EdgeCompact Probe Endids EagerOutput Lang Fsm Capture Combine.

Section Ops.
Context `{allocator}.

(** The greatest new state. *)
Definition max_used (mapping : list N) : N := foldl (λ m x, if (m <=? x)%N then x else m) 0%N mapping.

(** [assert(id < closure->count)] *)
Definition in_mapping (mapping ids : list N) : bool := forallb (λ t, (t <? N.of_nat (length mapping))%N) ids.

(** One state taken over; [None] where [mapping_cb] is called on an id that does
    not index the mapping. The result of [edge_set_compact] is not looked at. *)
Definition consolidate_state (mapping : list N) (src dst : fsm) (src_i dst_i : N) : option (bool * fsm) :=
  let st := get_state src src_i in
  let '(ok, eps) := state_set_copy (st_epsilons (get_state dst dst_i)) (f_alloc dst) (st_epsilons st) in
  let dst := upd_state dst dst_i (set_epsilons eps) in
  if negb ok then Some (false, dst)
  else if negb (in_mapping mapping (ss_elems eps)) then None
  else
    eps ← state_set_compact eps (mapping_cb mapping);
    let dst := upd_state dst dst_i (set_epsilons eps) in
    '(ok, p) ← edge_set_copy (st_edges (get_state dst dst_i)) (f_alloc dst) (st_edges st);
    let dst := upd_state dst dst_i (set_edges p) in
    if negb (ok : bool) then Some (false, dst)
    else if negb (edge_set_empty p || in_mapping mapping (edge_keys p)) then None
    else
      let dst := upd_state dst dst_i (set_edges (edge_set_compact p (f_alloc dst) (mapping_cb mapping)).2) in
      Some (true, if fsm_isend src src_i then fsm_setend dst dst_i true else dst).

(** The loop over the states, with the bitset of new states seen. *)
Fixpoint consolidate_states (mapping : list N) (src : fsm) (l : list N) (seen : list N) (dst : fsm) : option (bool * fsm) :=
  match l with
  | [] => Some (true, dst)
  | src_i :: l =>
      dst_i ← mapping !! N.to_nat src_i;
      if N.to_nat dst_i / 64 <? length seen then
        if negb (u64bitset_get seen (N.to_nat dst_i) =? 0)%N then consolidate_states mapping src l seen dst
        else
          '(ok, dst) ← consolidate_state mapping src dst src_i dst_i;
          if (ok : bool) then consolidate_states mapping src l (u64bitset_set seen (N.to_nat dst_i)) dst else Some (false, dst)
      else None
  end.

(** ** Metadata *)

Fixpoint consolidate_actions (mapping : list N) (l : list (N * fsm_capture_action)) (dst : fsm) : option (bool * fsm) :=
  match l with
  | [] => Some (true, dst)
  | (state, a) :: l =>
      s ← mapping !! N.to_nat state;
      t ← (if (ca_to a =? CAPTURE_NO_STATE)%N then Some CAPTURE_NO_STATE else mapping !! N.to_nat (ca_to a));
      '(ok, dst) ← fsm_capture_add_action dst s (ca_type a) (ca_id a) t;
      if (ok : bool) then consolidate_actions mapping l dst else Some (false, dst)
  end.

Definition consolidate_copy_capture_actions (dst src : fsm) (mapping : list N) : option (bool * fsm) :=
  consolidate_actions mapping (fsm_capture_action_iter (f_capture_info src)) dst.

Definition consolidate_end_ids_cb (mapping : list N) (state : N) (ids : list N) (env : copy_env) : bool * copy_env :=
  match env with
  | Some (ok, dst) =>
      match mapping !! N.to_nat state with
      | Some s =>
          match fsm_endid_set_bulk (f_alloc dst) (f_endid_info dst) s ids FSM_ENDID_BULK_APPEND with
          | Some (ok, ei) => (ok, Some (ok, with_endid_info dst ei))
          | None => (false, None)
          end
      | None => (false, None)
      end
  | None => (false, None)
  end.

Definition consolidate_end_ids (dst src : fsm) (mapping : list N) : option (bool * fsm) :=
  (fsm_endid_iter_bulk (f_endid_info src) (consolidate_end_ids_cb mapping) (Some (true, dst))).2.

Definition consolidate_eager_output_ids_cb (mapping : list N) (state id : N) (env : copy_env) : bool * copy_env :=
  match env with
  | Some (ok, dst) =>
      match mapping !! N.to_nat state with
      | Some dst_state =>
          match eager_set dst dst_state id with
          | Some (set, dst) => (set, Some (ok && set, dst))
          | None => (false, None)
          end
      | None => (false, None)
      end
  | None => (false, None)
  end.

Definition consolidate_eager_output_ids (dst src : fsm) (mapping : list N) : option (bool * fsm) :=
  fsm_eager_output_iter_all (f_eager_output_info src) (consolidate_eager_output_ids_cb mapping) (Some (true, dst)).

(** ** The whole function; NULL is [Some None] *)

Definition fsm_consolidate (src : fsm) (mapping : list N) : option (option fsm) :=
  match fsm_new (f_alloc src) with
  | None => Some None
  | Some dst =>
      let n := N.to_nat (max_used mapping) + 1 in
      let '(ok, dst) := fsm_addstate_bulk dst n in
      if negb ok then Some None
      else if negb (f_statecount dst =? n) then None
      else if negb (f_calloc (f_alloc src) (N.of_nat (length mapping / 64 + 1)) 8) then Some None
      else
        let ids := N.of_nat <$> seq 0 (length mapping) in
        '(ok, dst) ← consolidate_states mapping src ids (replicate (length mapping / 64 + 1) 0%N) dst;
        if negb (ok : bool) then Some None
        else
          '(ok, dst) ← consolidate_copy_capture_actions dst src mapping;
          if negb (ok : bool) then Some None
          else
            '(ok, dst) ← consolidate_end_ids dst src mapping;
            if negb (ok : bool) then Some None
            else
              dst ← match fsm_getstart src with
                | Some src_start => dst_start ← mapping !! N.to_nat src_start; Some (fsm_setstart dst dst_start)
                | None => Some dst
                end;
              '(ok, dst) ← consolidate_eager_output_ids dst src mapping;
              Some (if (ok : bool) then Some dst else None)
  end.
End Ops.
