(* ===== verification/Minimise.v ===== *)
(** * Minimisation: src/libfsm/minimise.c, minimise_internal.h

    Moore's algorithm. The states are divided into equivalence classes (ECs):
    [ecs[i]] is the head of the list of the states of the [i]th, [jump] the next
    state in a list, [state_ecs] the number of the class of a state. The classes
    start as the states at the same distance from an end state, are split by
    end metadata, and then by where their labels lead until nothing changes.

    Memory is read before it is written in one place: the label sets that
    [try_partition] compares are not written for a state without an edge set.
    What they hold then is the parameter [stale], which may depend on the attempt
    to partition and on the state. [undef] is what new arrays hold. [None] is an
    access out of bounds or an assertion that fails. The counters of iterations
    are left out; [steps], which numbers the attempts, is not. *)

From S2P Require Import Prelude StateSet Bits Bitmap EdgeSet EdgeIter EdgeCompact Probe Endids EagerOutput Lang Fsm FsmCompact Pred Trim Capture.
From S2P Require Import Combine Pv Consolidate.

Definition NO_ID : N := 4294967295.
Definition DEF_INITIAL_COUNT_CEIL : nat := 8.
Definition SMALL_EC_FLAG : N := 2147483648.
Definition SMALL_EC_THRESHOLD : nat := 16.
Definition DFA_LABELS_THRESHOLD : nat := 4.
Definition SET_SMALL_EC_FLAG (id : N) : N := N.lor id SMALL_EC_FLAG.
Definition MASK_EC_HEAD (ec : N) : N := N.ldiff ec SMALL_EC_FLAG.

(** [struct min_env], without the automaton and its labels. *)
Record min_env := mk_env {
  state_ecs : list N;
  ecs : list N;
  jump : list N;
  ec_count : nat;
  done_ec_offset : nat;
  steps : nat;
}.

Definition with_ecs (env : min_env) (l : list N) : min_env :=
  mk_env (state_ecs env) l (jump env) (ec_count env) (done_ec_offset env) (steps env).
Definition with_jump (env : min_env) (l : list N) : min_env :=
  mk_env (state_ecs env) (ecs env) l (ec_count env) (done_ec_offset env) (steps env).
Definition with_state_ecs (env : min_env) (l : list N) : min_env :=
  mk_env l (ecs env) (jump env) (ec_count env) (done_ec_offset env) (steps env).
Definition with_counts (env : min_env) (count done : nat) : min_env :=
  mk_env (state_ecs env) (ecs env) (jump env) count done (steps env).
Definition step_env (env : min_env) : min_env :=
  mk_env (state_ecs env) (ecs env) (jump env) (ec_count env) (done_ec_offset env) (S (steps env)).

(** A write within the bounds of an array. *)
Definition arr_set {A} (l : list A) (i : nat) (v : A) : option (list A) :=
  if i <? length l then Some (<[i := v]> l) else None.

(** The states of a list from [s] on; [fuel] bounds its length. *)
Fixpoint ec_list (fuel : nat) (jump : list N) (s : N) : option (list N) :=
  if (s =? NO_ID)%N then Some []
  else
    match fuel with
    | 0 => None
    | S fuel => next ← jump !! N.to_nat s; l ← ec_list fuel jump next; Some (s :: l)
    end.

Definition ec_states (env : min_env) (ec : nat) : option (list N) :=
  head ← ecs env !! ec;
  ec_list (length (jump env)) (jump env) (MASK_EC_HEAD head).

(** ** Labels *)

(** The labels of an edge set, added to a set. *)
Definition or_group_labels (label_set : list N) (p : edge_set_ptr) : list N :=
  foldl (λ set info, words_or set (egii_symbols info)) label_set (group_loop p).

(** The loop of [collect_labels]. *)
Fixpoint collect_loop (fuel i : nat) (label_set : list N) : list nat :=
  match fuel with
  | 0 => []
  | S fuel =>
      if i <? 256 then
        if negb (u64bitset_get label_set i =? 0)%N then i :: collect_loop fuel (i + 1) label_set
        else if (Nat.land i 63 =? 0) && (word label_set (i / 64) =? 0)%N then collect_loop fuel (i + 63 + 1) label_set
        else collect_loop fuel (i + 1) label_set
      else []
  end.

Definition collect_labels (f : fsm) : list nat :=
  collect_loop 257 0 (foldl (λ set id, or_group_labels set (st_edges (get_state f id))) (replicate 4 0%N) (live_ids f)).

(** The loop of [init_label_iterator]. *)
Fixpoint ec_labels_loop (fuel i : nat) (label_set : list N) : list nat :=
  match fuel with
  | 0 => []
  | S fuel =>
      if i <? 256 then
        if (Nat.land i 63 =? 0) && (word label_set (i / 64) =? 0)%N then ec_labels_loop fuel (i + 64) label_set
        else if negb (u64bitset_get label_set i =? 0)%N then i :: ec_labels_loop fuel (i + 1) label_set
        else ec_labels_loop fuel (i + 1) label_set
      else []
  end.

(** The labels that the iterator will go through. *)
Definition init_label_iterator (f : fsm) (dfa_labels : list nat) (env : min_env) (ec : nat) (should_gather : bool) : option (list nat) :=
  if should_gather then
    head ← ecs env !! ec;
    if (head =? NO_ID)%N then None
    else
      l ← ec_states env ec;
      Some (ec_labels_loop 257 0 (foldl (λ set s, or_group_labels set (st_edges (get_state f s))) (replicate 4 0%N) l))
  else Some dfa_labels.

(** ** Classes *)

(** The loop of [update_ec_links]. *)
Definition link_states (ec : nat) (l : list N) (state_ecs : list N) : option (list N) :=
  foldl (λ acc s, a ← acc; arr_set a (N.to_nat s) (N.of_nat ec)) (Some state_ecs) l.

Definition update_ec_links (dfa_label_count : nat) (env : min_env) (ec : nat) : option min_env :=
  head ← ecs env !! ec;
  if (head =? NO_ID)%N then None
  else
    l ← ec_states env ec;
    a ← link_states ec l (state_ecs env);
    let env := with_state_ecs env a in
    if (length l <=? SMALL_EC_THRESHOLD) && (DFA_LABELS_THRESHOLD <=? dfa_label_count) then
      Some (with_ecs env (<[ec := SET_SMALL_EC_FLAG head]> (ecs env)))
    else Some env.

Definition swap_ecs (env : min_env) (i j : nat) : option min_env :=
  a ← ecs env !! i;
  b ← ecs env !! j;
  Some (with_ecs env (<[j := a]> (<[i := b]> (ecs env)))).

(** The new class goes to the end, or before the classes of one state. *)
Definition move_dst (dfa_label_count : nat) (env : min_env) (count ec_dst : nat) : option min_env :=
  if count =? 1 then
    if 0 <? done_ec_offset env then update_ec_links dfa_label_count env ec_dst else None
  else
    let ndst := done_ec_offset env in
    env ← swap_ecs env ec_dst ndst;
    env ← update_ec_links dfa_label_count env ec_dst;
    env ← update_ec_links dfa_label_count env ndst;
    Some (with_counts env (ec_count env) (done_ec_offset env + 1)).

(** Whether the class was swapped with another, for the caller to start over;
    [ec_count] is not updated yet. *)
Definition update_after_partition (dfa_label_count : nat) (env : min_env) (pcounts : nat * nat) (ec_src ec_dst : nat)
    : option (bool * min_env) :=
  if negb ((0 <? pcounts.1) && (0 <? pcounts.2)) then None
  else
    env ← move_dst dfa_label_count env pcounts.2 ec_dst;
    if (pcounts.1 =? 1) && (0 <? done_ec_offset env) then
      let nsrc := done_ec_offset env - 1 in
      env ← swap_ecs env ec_src nsrc;
      env ← update_ec_links dfa_label_count env ec_src;
      env ← update_ec_links dfa_label_count env nsrc;
      Some (true, with_counts env (ec_count env) (done_ec_offset env - 1))
    else Some (false, env).

Definition label_sets_match (a b : list N) : bool := bool_decide (a = b).

Section Partition.
Context (stale : nat → N → list N) (f : fsm).

(** The class that the label leads a state to, that of the dead state where
    there is none, and the label set. *)
Definition check_state (env : min_env) (label : nat) (s : N) : option (bool * N * list N) :=
  let p := st_edges (get_state f s) in
  r ← edge_set_check_edges_with_EC_mapping p label (state_ecs env);
  match r with
  | Some (dst, labels) => ec ← state_ecs env !! N.to_nat dst; Some (true, ec, labels)
  | None =>
      dead ← state_ecs env !! f_statecount f;
      Some (false, dead, match p with None => stale (steps env) s | Some _ => replicate 4 0%N end)
  end.

(** The loop over the states after the first; [first] is what the first state
    has. The counts are of the states kept and of those split off. *)
Fixpoint partition_loop (fuel : nat) (label ec_dst : nat) (first : N * list N) (env : min_env) (prev cur : N) (pcounts : nat * nat)
    : option (min_env * (nat * nat)) :=
  if (cur =? NO_ID)%N then Some (env, pcounts)
  else
    match fuel with
    | 0 => None
    | S fuel =>
        '(_, to_ec, labels) ← check_state env label cur;
        next ← jump env !! N.to_nat cur;
        if (to_ec =? first.1)%N && label_sets_match first.2 labels then
          partition_loop fuel label ec_dst first env cur next (pcounts.1 + 1, pcounts.2)
        else
          j ← arr_set (jump env) (N.to_nat prev) next;
          dst ← ecs env !! ec_dst;
          j ← arr_set j (N.to_nat cur) dst;
          partition_loop fuel label ec_dst first (with_ecs (with_jump env j) (<[ec_dst := cur]> (ecs env))) prev next
            (pcounts.1, pcounts.2 + 1)
    end.

(** The environment, the counts and the labels checked. *)
Definition try_partition (env : min_env) (label ec_src ec_dst : nat) (checked : list N)
    : option (bool * min_env * (nat * nat) * list N) :=
  head ← ecs env !! ec_src;
  let cur := MASK_EC_HEAD head in
  '(found, first_ec, labels) ← check_state env label cur;
  let checked := if (found : bool) then words_or checked labels else checked in
  next ← jump env !! N.to_nat cur;
  e ← arr_set (ecs env) ec_dst NO_ID;
  '(env, pcounts) ← partition_loop (length (jump env)) label ec_dst (first_ec, labels) (with_ecs env e) cur next (1, 0);
  Some (0 <? pcounts.2, env, pcounts, checked).

(** ** The main loop *)

(** The labels of a class in turn, until it is to be started over. *)
Fixpoint label_loop (dfa_label_count : nat) (ec_i : nat) (labels : list nat) (checked : list N) (changed : bool) (env : min_env)
    : option (bool * bool * min_env) :=
  match labels with
  | [] => Some (false, changed, env)
  | label :: labels =>
      if negb (u64bitset_get checked label =? 0)%N then label_loop dfa_label_count ec_i labels checked changed env
      else
        let ec_dst := ec_count env in
        '(split, env, pcounts, checked) ← try_partition (step_env env) label ec_i ec_dst checked;
        if (split : bool) then
          '(restart, env) ← update_after_partition dfa_label_count env pcounts ec_i ec_dst;
          let env := with_counts env (ec_count env + 1) (done_ec_offset env) in
          if ec_count env <? done_ec_offset env then None
          else if (restart : bool) then Some (true, true, env)
          else label_loop dfa_label_count ec_i labels checked true env
        else label_loop dfa_label_count ec_i labels checked changed env
  end.

(** One class, started over up to [fuel] times. *)
Fixpoint refine_ec (fuel : nat) (dfa_labels : list nat) (ec_i : nat) (changed : bool) (env : min_env) : option (bool * min_env) :=
  match fuel with
  | 0 => None
  | S fuel =>
      head ← ecs env !! ec_i;
      if (head =? NO_ID)%N then Some (changed, env)
      else
        next ← jump env !! N.to_nat (MASK_EC_HEAD head);
        if (next =? NO_ID)%N then Some (changed, env)
        else
          labels ← init_label_iterator f dfa_labels env ec_i (negb (N.land head SMALL_EC_FLAG =? 0)%N);
          '(restart, changed, env) ← label_loop (length dfa_labels) ec_i labels (replicate 4 0%N) changed env;
          if (restart : bool) then refine_ec fuel dfa_labels ec_i changed env else Some (changed, env)
  end.

(** All active classes. *)
Fixpoint refine_pass (fuel : nat) (dfa_labels : list nat) (ec_i : nat) (changed : bool) (env : min_env) : option (bool * min_env) :=
  if ec_i <? done_ec_offset env then
    match fuel with
    | 0 => None
    | S fuel =>
        '(changed, env) ← refine_ec (f_statecount f + 1) dfa_labels ec_i changed env;
        refine_pass fuel dfa_labels (ec_i + 1) changed env
    end
  else Some (changed, env).

(** Until no further progress can be made. *)
Fixpoint refine_loop (fuel : nat) (dfa_labels : list nat) (env : min_env) : option min_env :=
  match fuel with
  | 0 => None
  | S fuel =>
      '(changed, env) ← refine_pass (f_statecount f + 1) dfa_labels 0 false env;
      if (changed : bool) then refine_loop fuel dfa_labels env else Some env
  end.
End Partition.

Section Initial.
Context `{allocator}.

(** ** The initial classes *)

Fixpoint grow_ceil (fuel sed nceil : nat) : nat :=
  match fuel with
  | 0 => nceil
  | S fuel => if nceil <=? sed then grow_ceil fuel sed (nceil * 2) else nceil
  end.

(** The counts of the distances, with the greatest distance and count. *)
Fixpoint count_distances (al : fsm_alloc) (l : list N) (counts : list nat) (sed_max count_max : nat)
    : option (option (list nat * nat * nat)) :=
  match l with
  | [] => Some (Some (counts, sed_max, count_max))
  | sed :: l =>
      if (sed =? NO_END_DISTANCE)%N then None
      else
        let sed := N.to_nat sed in
        let count_ceil := length counts in
        let nceil := if count_ceil <=? sed then grow_ceil sed sed (2 * count_ceil) else count_ceil in
        if (count_ceil <=? sed) && negb (f_realloc al (N.of_nat nceil * 4)) then Some None
        else
          let counts := counts ++ replicate (nceil - count_ceil) 0 in
          c ← counts !! sed;
          count_distances al l (<[sed := c + 1]> counts) (if sed_max <? sed then sed else sed_max)
            (if count_max <? c + 1 then c + 1 else count_max)
  end.

(** A state goes to the head of its class. *)
Definition assign_state (sed : list N) (ranking : list nat) (acc : option min_env) (i : nat) : option min_env :=
  env ← acc;
  d ← sed !! i;
  ec ← ranking !! N.to_nat d;
  head ← ecs env !! ec;
  a ← arr_set (state_ecs env) i (N.of_nat ec);
  j ← arr_set (jump env) i head;
  Some (mk_env a (<[ec := N.of_nat i]> (ecs env)) j (ec_count env) (done_ec_offset env) (steps env)).

(** The first class with less than two states. *)
Fixpoint first_small (l : list nat) (env : min_env) (sed : list N) (counts : list nat) : option nat :=
  match l with
  | [] => Some (ec_count env)
  | i :: l =>
      head ← ecs env !! i;
      d ← sed !! N.to_nat head;
      c ← counts !! N.to_nat d;
      if c <? 2 then Some i else first_small l env sed counts
  end.

Definition populate_initial_ecs (f : fsm) (sed : list N) (env : min_env) : option (bool * min_env) :=
  let al := f_alloc f in
  if negb (f_calloc al (N.of_nat DEF_INITIAL_COUNT_CEIL) 4) then Some (false, env)
  else
    r ← count_distances al (take (f_statecount f) sed) (replicate DEF_INITIAL_COUNT_CEIL 0) 0 0;
    match r with
    | None => Some (false, env)
    | Some (counts, sed_max, count_max) =>
        let sed_limit := sed_max + 1 in
        pv ← permutation_vector al count_max (take sed_limit counts);
        match pv with
        | None => Some (false, env)
        | Some pv =>
            ranking ← permutation_vector al sed_limit pv;
            match ranking with
            | None => Some (false, env)
            | Some ranking =>
                let ranking := (λ r, sed_max - r) <$> ranking in
                e ← foldl (λ acc i, e ← acc; arr_set e i NO_ID) (Some (ecs env)) (seq 0 sed_limit);
                env ← foldl (assign_state sed ranking) (Some (with_ecs env e)) (seq 0 (f_statecount f));
                let env := with_counts env sed_limit sed_limit in
                done ← first_small (seq 0 sed_limit) env sed counts;
                a ← arr_set (state_ecs env) (f_statecount f) NO_ID;
                Some (true, with_counts (with_state_ecs env a) sed_limit done)
            end
        end
    end.

(** ** End metadata *)

(** [struct end_metadata]: the end ids and the eager outputs, sorted. *)
Abbreviation end_metadata := (list N * list N)%type.

Definition same_end_metadata (a b : end_metadata) : bool := bool_decide (a = b).

(** [None] on the inside where memory runs out. *)
Definition collect_end_ids (f : fsm) (s : N) : option (option (list N)) :=
  count ← fsm_endid_count (f_endid_info f) s;
  if count =? 0 then Some (Some [])
  else if negb (f_malloc (f_alloc f) (N.of_nat count * 4)) then Some None
  else
    '(res, ids) ← fsm_endid_get (f_endid_info f) s count;
    if (res : bool) then Some (Some ids) else None.

Definition collect_cb (state id : N) (ids : list N) : bool * list N := (true, ids ++ [id]).

Definition collect_eager_output_ids (f : fsm) (s : N) : option (list N) :=
  let count := fsm_eager_output_count (f_eager_output_info f) s in
  if count =? 0 then Some []
  else if f_malloc (f_alloc f) (N.of_nat count * 4) then
    Some (qsort_N (fsm_eager_output_iter_state (f_eager_output_info f) s collect_cb []))
  else None.

(** The first pass, for one class: it stops at the first state that is not an
    end state and has no eager outputs. *)
Fixpoint collect_metadata (f : fsm) (l : list N) (md : list end_metadata) : option (bool * list end_metadata) :=
  match l with
  | [] => Some (true, md)
  | s :: l =>
      if negb (fsm_isend f s) && negb (st_has_eager_outputs (get_state f s)) then Some (true, md)
      else
        ids ← collect_end_ids f s;
        match ids with
        | None => Some (false, md)
        | Some ids =>
            match collect_eager_output_ids f s with
            | None => Some (false, md)
            | Some outputs => md ← arr_set md (N.to_nat s) (ids, outputs); collect_metadata f l md
            end
        end
  end.

Fixpoint collect_all_metadata (f : fsm) (env : min_env) (l : list nat) (md : list end_metadata) : option (bool * list end_metadata) :=
  match l with
  | [] => Some (true, md)
  | ec_i :: l =>
      states ← ec_states env ec_i;
      '(ok, md) ← collect_metadata f states md;
      if (ok : bool) then collect_all_metadata f env l md else Some (false, md)
  end.

Definition hash_metadata (md : end_metadata) : N :=
  foldl (λ h id, (h +64 hash_id id)%cint) 0%N (md.1 ++ md.2).

(** The bucket for a state: the first that is empty or holds a state with the
    same metadata. *)
Fixpoint md_probe (fuel b_i : nat) (hash : N) (md : list end_metadata) (s_md : end_metadata) (htab : list N) : option (option nat) :=
  match fuel with
  | 0 => Some None
  | S fuel =>
      let b := N.to_nat (N.land (N.of_nat b_i +64 hash)%cint (N.of_nat (length htab - 1))) in
      other ← htab !! b;
      if (other =? NO_ID)%N then Some (Some b)
      else
        other_md ← md !! N.to_nat other;
        if same_end_metadata s_md other_md then Some (Some b) else md_probe fuel (b_i + 1) hash md s_md htab
  end.

(** The second pass, for one class: states whose metadata differ from that of
    the first go to new classes. *)
Fixpoint split_loop (fuel : nat) (ec_i : nat) (md : list end_metadata) (htab : list N) (env : min_env) (prev s : N) : option min_env :=
  if (s =? NO_ID)%N then Some env
  else
    match fuel with
    | 0 => None
    | S fuel =>
        s_md ← md !! N.to_nat s;
        next ← jump env !! N.to_nat s;
        b ← md_probe (length htab) 0 (hash_metadata s_md) md s_md htab;
        match b with
        | None => split_loop fuel ec_i md htab env prev next
        | Some b =>
            other ← htab !! b;
            if (other =? NO_ID)%N then
              let htab := <[b := s]> htab in
              if (prev =? NO_ID)%N then split_loop fuel ec_i md htab env s next
              else
                j ← arr_set (jump env) (N.to_nat prev) next;
                e ← arr_set (ecs env) (ec_count env) s;
                a ← arr_set (state_ecs env) (N.to_nat s) (N.of_nat (ec_count env));
                j ← arr_set j (N.to_nat s) NO_ID;
                split_loop fuel ec_i md htab (mk_env a e j (ec_count env + 1) (done_ec_offset env) (steps env)) prev next
            else
              other_ec ← state_ecs env !! N.to_nat other;
              if (other_ec =? N.of_nat ec_i)%N then split_loop fuel ec_i md htab env s next
              else if (prev =? NO_ID)%N then None
              else
                j ← arr_set (jump env) (N.to_nat prev) next;
                a ← arr_set (state_ecs env) (N.to_nat s) other_ec;
                other_next ← j !! N.to_nat other;
                j ← arr_set j (N.to_nat s) other_next;
                j ← arr_set j (N.to_nat other) s;
                split_loop fuel ec_i md htab (with_state_ecs (with_jump env j) a) prev next
        end
    end.

Definition split_ec (md : list end_metadata) (bucket_count : nat) (env : min_env) (ec_i : nat) : option min_env :=
  head ← ecs env !! ec_i;
  env ← split_loop (length (jump env)) ec_i md (replicate bucket_count NO_ID) env NO_ID (MASK_EC_HEAD head);
  head ← ecs env !! ec_i;
  next ← jump env !! N.to_nat (MASK_EC_HEAD head);
  Some (if (next =? NO_ID)%N && (ec_i <? done_ec_offset env) then with_counts env (ec_count env) ec_i else env).

(** The sweep that brings the classes of one state to the end. *)
Fixpoint sweep_ecs (dfa_label_count n ec_i : nat) (env : min_env) : option min_env :=
  match n with
  | 0 => Some env
  | S n =>
      head ← ecs env !! ec_i;
      let head := MASK_EC_HEAD head in
      next ← jump env !! N.to_nat head;
      if (next =? NO_ID)%N then
        e ← arr_set (ecs env) ec_i (SET_SMALL_EC_FLAG head);
        sweep_ecs dfa_label_count n (ec_i + 1) (with_ecs env e)
      else
        let n_ec_i := done_ec_offset env in
        env ← swap_ecs env ec_i n_ec_i;
        env ← update_ec_links dfa_label_count env ec_i;
        env ← update_ec_links dfa_label_count env n_ec_i;
        sweep_ecs dfa_label_count n (ec_i + 1) (with_counts env (ec_count env) (done_ec_offset env + 1))
  end.

(** The assertions at the end. *)
Definition ec_in_place (env : min_env) (ec_i : nat) : option bool :=
  head ← ecs env !! ec_i;
  next ← jump env !! N.to_nat (MASK_EC_HEAD head);
  Some (eqb (ec_i <? done_ec_offset env) (negb (next =? NO_ID)%N)).

Fixpoint pow2_ceil (fuel n bucket_count : nat) : nat :=
  match fuel with
  | 0 => bucket_count
  | S fuel => if bucket_count <? n then pow2_ceil fuel n (bucket_count * 2) else bucket_count
  end.

Definition split_ecs_by_end_metadata (f : fsm) (dfa_label_count : nat) (env : min_env) : option (bool * min_env) :=
  let n := f_statecount f in
  if negb (f_calloc (f_alloc f) (N.of_nat n) 32) then Some (false, env)
  else
    let bucket_count := pow2_ceil n n 1 in
    if negb (f_malloc (f_alloc f) (N.of_nat bucket_count * 4)) then Some (false, env)
    else
      '(ok, md) ← collect_all_metadata f env (seq 0 (ec_count env)) (replicate n ([], []));
      if negb (ok : bool) then Some (false, env)
      else
        env ← foldl (λ acc ec_i, env ← acc; split_ec md bucket_count env ec_i) (Some env) (seq 0 (ec_count env));
        env ← sweep_ecs dfa_label_count (ec_count env - done_ec_offset env) (done_ec_offset env) env;
        ok ← foldl (λ acc ec_i, ok ← acc; b ← ec_in_place env ec_i; Some (ok && b)) (Some true) (seq 0 (ec_count env));
        if (ok : bool) then Some (true, env) else None.

(** ** The mapping *)

Definition map_ec (env : min_env) (ec_offset : nat) (acc : option (list N)) (i : nat) : option (list N) :=
  m ← acc;
  l ← ec_states env i;
  foldl (λ acc s, m ← acc; arr_set m (N.to_nat s) (N.of_nat (i - ec_offset))) (Some m) l.

Context (undef : N) (stale : nat → N → list N).

(** The mapping and the number of states, or a failure. *)
Definition build_minimised_mapping (f : fsm) (dfa_labels : list nat) (sed : list N) : option (option (list N * nat)) :=
  let n := f_statecount f in
  let alloc_size := (N.of_nat (n + 1) * 4)%N in
  if negb (f_malloc (f_alloc f) alloc_size) then Some None
  else
    let arr := replicate (n + 1) undef in
    e ← arr_set arr 0 NO_ID;
    e ← arr_set e 1 NO_ID;
    '(ok, env) ← populate_initial_ecs f sed (mk_env arr e arr 2 2 0);
    if negb (ok : bool) then Some None
    else
      '(ok, env) ← split_ecs_by_end_metadata f (length dfa_labels) env;
      if negb (ok : bool) then Some None
      else
        env ← refine_loop stale f (n + 1) dfa_labels env;
        head ← ecs env !! 0;
        let ec_offset := if (head =? NO_ID)%N then 1 else 0 in
        mapping ← foldl (map_ec env ec_offset) (Some (replicate n undef)) (seq ec_offset (ec_count env - ec_offset));
        Some (Some (mapping, ec_count env - ec_offset)).

Definition fsm_minimise (f : fsm) : option (bool * fsm) :=
  if negb (fsm_all f fsm_isdfa) then None
  else
    '(r, f, sed) ← fsm_trim f FSM_TRIM_START_AND_END_REACHABLE true;
    if (r <? 0)%Z then Some (false, f)
    else if f_statecount f =? 0 then Some (true, f)
    else
      let labels := collect_labels f in
      if length labels =? 0 then Some (true, f)
      else if negb (f_malloc (f_alloc f) (N.of_nat (f_statecount f) * 4)) then Some (false, f)
      else
        sed ← sed;
        r ← build_minimised_mapping f labels sed;
        match r with
        | None => Some (false, f)
        | Some (mapping, minimised_states) =>
            if negb (minimised_states <=? f_statecount f) then None
            else if negb (forallb (λ m, (m <? N.of_nat (f_statecount f))%N) mapping) then None
            else
              dst ← fsm_consolidate f mapping;
              match dst with
              | None => Some (false, f)
              | Some dst => Some (fsm_vacuum (fsm_move f dst))
              end
        end.
End Initial.
