(* ===== verification/MinClasses.v ===== *)
(** * Minimisation: equivalence classes as linked lists

    The arrays of [min_env] hold a list of classes, each a nonempty list of
    states: [lists] says which. Swapping classes, numbering their states and
    splitting a class are described by what they do to that list. *)

From S2P Require Import Prelude StateSet Bits EdgeSet EdgeIter EdgeCompact Lang Fsm FsmSpec Search Minimise.

(** ** Arrays and linked lists *)

Lemma arr_set_Some {A} (l : list A) i v : i < length l → arr_set l i v = Some (<[i := v]> l).
Proof. intros Hi. unfold arr_set. by rewrite (proj2 (Nat.ltb_lt _ _) Hi). Qed.

Lemma mask_small h : (h < 2147483648)%N → MASK_EC_HEAD h = h.
Proof.
  intros Hh. unfold MASK_EC_HEAD, SMALL_EC_FLAG. apply N.bits_inj. intros i. rewrite N.ldiff_spec.
  change 2147483648%N with (2 ^ 31)%N in *. rewrite N.pow2_bits_eqb. destruct (N.eqb_spec 31 i) as [<-|]; [|by rewrite andb_true_r].
  cbn [negb]. rewrite andb_false_r. symmetry. destruct (decide (h = 0%N)) as [->|]; [apply N.bits_0|].
  apply N.bits_above_log2, N.log2_lt_pow2; lia.
Qed.

Lemma mask_set h : MASK_EC_HEAD (SET_SMALL_EC_FLAG h) = MASK_EC_HEAD h.
Proof.
  unfold MASK_EC_HEAD, SET_SMALL_EC_FLAG. apply N.bits_inj. intros i. rewrite !N.ldiff_spec, N.lor_spec.
  by destruct (N.testbit h i), (N.testbit SMALL_EC_FLAG i).
Qed.

(** The list from [h] on starts with the states of [l] and goes on at [t]. *)
Fixpoint linked (jump : list N) (h : N) (l : list N) (t : N) : Prop :=
  match l with
  | [] => h = t
  | s :: l => h = s ∧ s ≠ NO_ID ∧ ∃ next, jump !! N.to_nat s = Some next ∧ linked jump next l t
  end.

Lemma linked_app jump h l l' t : linked jump h (l ++ l') t ↔ ∃ m, linked jump h l m ∧ linked jump m l' t.
Proof. revert h. induction l as [|s l IH]; intros h; cbn [app linked]; [naive_solver|]. setoid_rewrite IH. naive_solver. Qed.

Lemma linked_ec_list jump l : ∀ fuel h, linked jump h l NO_ID → length l ≤ fuel → ec_list fuel jump h = Some l.
Proof.
  induction l as [|s l IH]; intros fuel h; cbn [linked length].
  - intros -> _. by destruct fuel.
  - intros (-> & Hs & next & Hn & Hl) Hf. destruct fuel as [|fuel]; [lia|]. cbn [ec_list].
    rewrite (proj2 (N.eqb_neq s NO_ID) Hs), Hn. cbn [mbind option_bind]. by rewrite (IH fuel next Hl) by lia.
Qed.

(** A list depends on the links of its own states only. *)
Lemma linked_frame jump jump' h l t :
  (∀ s, s ∈ l → jump' !! N.to_nat s = jump !! N.to_nat s) → linked jump h l t → linked jump' h l t.
Proof.
  revert h. induction l as [|s l IH]; intros h Hf; cbn [linked]; [done|]. intros (-> & Hs & next & Hj & Hl).
  split; [done|]. split; [done|]. exists next. split; [by rewrite Hf by set_solver|]. apply IH; [set_solver|done].
Qed.

Lemma linked_insert jump h l t s v : s ∉ l → linked jump h l t → linked (<[N.to_nat s := v]> jump) h l t.
Proof.
  intros Hn. apply linked_frame. intros u Hu. apply list_lookup_insert_ne. intros E%N2Nat.inj. by subst.
Qed.

Lemma linked_bound jump h l t s : linked jump h l t → s ∈ l → s ≠ NO_ID ∧ N.to_nat s < length jump.
Proof.
  revert h. induction l as [|u l IH]; intros h; cbn [linked]; [by rewrite elem_of_nil|].
  intros (-> & Hu & next & Hj & Hl) [->|Hs]%elem_of_cons; [|by eapply IH]. by apply lookup_lt_Some in Hj.
Qed.

Lemma linked_cons jump s l v t :
  s ∉ l → s ≠ NO_ID → N.to_nat s < length jump → linked jump v l t → linked (<[N.to_nat s := v]> jump) s (s :: l) t.
Proof.
  intros Hn Hs Hlt Hl. cbn [linked]. split; [done|]. split; [done|]. exists v. split; [by apply list_lookup_insert_eq|]. by apply linked_insert.
Qed.

(** Redirecting the last state of a list. *)
Lemma linked_redirect jump h l s t v :
  s ∉ l → linked jump h (l ++ [s]) t → linked (<[N.to_nat s := v]> jump) h (l ++ [s]) v.
Proof.
  rewrite !linked_app. intros Hn (m & Hl & -> & Hs & next & Hj & _). exists s. split; [by apply linked_insert|].
  apply linked_cons; [set_solver|done|by apply lookup_lt_Some in Hj|done].
Qed.

Lemma linked_nil_inv jump h l : linked jump h l NO_ID → h = NO_ID ↔ l = [].
Proof. destruct l; cbn [linked]; naive_solver. Qed.

(** ** Splitting a list *)

Section Split.
Context (stale : nat → N → list N) (f : fsm) (label : nat).

(** A state has what the first state has. *)
Definition matches (env : min_env) (first : N * list N) (s : N) : bool :=
  match check_state stale f env label s with
  | Some (_, to_ec, labels) => (to_ec =? first.1)%N && label_sets_match first.2 labels
  | None => false
  end.

Lemma check_state_env env env' s :
  state_ecs env' = state_ecs env → steps env' = steps env → check_state stale f env' label s = check_state stale f env label s.
Proof. intros E1 E2. unfold check_state. by rewrite E1, E2. Qed.

Lemma partition_loop_spec ec_dst first rest : ∀ fuel env h k prev cur dst gone pc,
  (∀ s, s ∈ rest → is_Some (check_state stale f env label s)) →
  linked (jump env) h (k ++ [prev]) cur → linked (jump env) cur rest NO_ID →
  ecs env !! ec_dst = Some dst → linked (jump env) dst gone NO_ID →
  NoDup (((k ++ [prev]) ++ rest) ++ gone) → length rest ≤ fuel →
  let kept := filter (λ s, matches env first s = true) rest in
  let split := filter (λ s, matches env first s ≠ true) rest in
  ∃ j d, partition_loop stale f fuel label ec_dst first env prev cur pc =
      Some (with_ecs (with_jump env j) (<[ec_dst := d]> (ecs env)), (pc.1 + length kept, pc.2 + length split)) ∧
    linked j h ((k ++ [prev]) ++ kept) NO_ID ∧ linked j d (reverse split ++ gone) NO_ID ∧ length j = length (jump env) ∧
    ∀ s, s ∉ prev :: rest → j !! N.to_nat s = jump env !! N.to_nat s.
Proof.
  induction rest as [|s rest IH]; intros fuel env h k prev cur dst gone pc Hc Hk Hr Hd Hg Hnd Hf; cbn zeta.
  - cbn in Hr. subst cur. exists (jump env), dst. rewrite !filter_nil. cbn [length]. rewrite !Nat.add_0_r, app_nil_r, reverse_nil. cbn [app].
    split; [|done]. rewrite list_insert_id by done. by destruct fuel, env, pc.
  - cbn [linked] in Hr. destruct Hr as (-> & Hs & next & Hj & Hr). destruct fuel as [|fuel]; [cbn in Hf; lia|]. cbn [partition_loop].
    rewrite (proj2 (N.eqb_neq s NO_ID) Hs). destruct (Hc s ltac:(set_solver)) as [[[b ec] ls] Es]. rewrite Es. cbn [mbind option_bind].
    rewrite Hj. cbn [mbind option_bind]. rewrite !filter_cons.
    assert (matches env first s = (ec =? first.1)%N && label_sets_match first.2 ls) as Em by (unfold matches; by rewrite Es). rewrite <-Em.
    destruct (matches env first s) eqn:Ematch.
    + rewrite decide_True, decide_False by auto.
      destruct (IH fuel env h (k ++ [prev]) s next dst gone (pc.1 + 1, pc.2)) as (j & d & E & L1 & L2 & L3 & L4); [set_solver| |done|done|done| |cbn in Hf; lia|].
      { apply linked_app. exists s. split; [done|]. cbn. naive_solver. }
      { by rewrite <-!(assoc_L (++)) in *. }
      exists j, d. rewrite E. cbn [fst snd length] in *. rewrite <-Nat.add_assoc. cbn [Nat.add]. split; [done|].
      split; [by rewrite <-(assoc_L (++)) in L1|]. split; [done|]. split; [done|]. set_solver.
    + rewrite decide_False, decide_True by auto.
      assert ((s ∉ k ++ [prev]) ∧ (s ∉ rest) ∧ (s ∉ gone) ∧ (prev ∉ k) ∧ (prev ∉ rest) ∧ (prev ∉ gone)) as (N1 & N2 & N3 & N4 & N5 & N6).
      { clear -Hnd. rewrite <-!(assoc_L (++)) in Hnd. cbn [app] in Hnd. apply NoDup_app in Hnd as (_ & D & Hnd).
        apply NoDup_cons in Hnd as [P1 Hnd]. apply NoDup_cons in Hnd as [P2 _]. rewrite elem_of_app, list_elem_of_singleton.
        rewrite not_elem_of_cons, not_elem_of_app in P1. rewrite not_elem_of_app in P2. split_and!; try tauto.
        - intros [Hk| ->]; [apply (D s Hk); set_solver|tauto].
        - intros Hk. apply (D prev Hk). set_solver. }
      destruct (linked_bound _ _ _ _ prev Hk) as [Np Lp]; [set_solver|]. pose proof (lookup_lt_Some _ _ _ Hj) as Ls.
      rewrite arr_set_Some, Hd by done. cbn [mbind option_bind]. rewrite arr_set_Some by (by rewrite length_insert). cbn [mbind option_bind].
      set (j2 := <[N.to_nat s := dst]> (<[N.to_nat prev := next]> (jump env))). set (env2 := with_ecs (with_jump env j2) (<[ec_dst := s]> (ecs env))).
      assert (∀ u, matches env2 first u = matches env first u) as Ematch2 by done.
      destruct (IH fuel env2 h k prev next s (s :: gone) (pc.1, pc.2 + 1)) as (j & d & E & L1 & L2 & L3 & L4).
      * intros u Hu. apply (Hc u). set_solver.
      * apply linked_insert; [done|]. by eapply linked_redirect.
      * do 2 (apply linked_insert; [done|]). done.
      * cbn. apply list_lookup_insert_eq. by apply lookup_lt_Some in Hd.
      * apply linked_cons; [done|done|by rewrite length_insert|]. by apply linked_insert.
      * eapply NoDup_Permutation_proper; [|exact Hnd]. rewrite <-!(assoc_L (++)). do 2 apply Permutation_app_head. cbn [app]. symmetry. apply Permutation_middle.
      * cbn in Hf. lia.
      * rewrite !(list_filter_iff (λ u, matches env2 first u = true) (λ u, matches env first u = true)) in * by done.
        exists j, d. rewrite E. cbn [fst snd length ecs with_ecs with_jump env2] in *. rewrite list_insert_insert_eq.
        rewrite <-Nat.add_assoc. cbn [Nat.add]. split; [done|]. split; [done|].
        split; [by rewrite reverse_cons, <-(assoc_L (++))|]. split; [rewrite L3; unfold env2, j2; cbn; by rewrite !length_insert|].
        intros u Hu. rewrite L4 by set_solver. unfold env2, j2. cbn [jump with_ecs with_jump].
        rewrite !list_lookup_insert_ne; [done| |]; intros X%N2Nat.inj; set_solver.
Qed.
End Split.

(** ** Classes *)

Lemma concat_perm {A} (C C' : list (list A)) : C ≡ₚ C' → concat C ≡ₚ concat C'.
Proof.
  induction 1 as [|l C C' _ IH|l l' C|C C1 C2 _ IH1 _ IH2]; cbn [concat]; [done| | |by etrans].
  - by apply Permutation_app_head.
  - rewrite !(assoc_L (++)). apply Permutation_app_tail, Permutation_app_comm.
Qed.

Lemma elem_of_concat {A} (C : list (list A)) x : x ∈ concat C ↔ ∃ i l, C !! i = Some l ∧ x ∈ l.
Proof.
  rewrite list_elem_of_In, in_concat. setoid_rewrite <-list_elem_of_In. setoid_rewrite list_elem_of_lookup. naive_solver.
Qed.

Definition swap {A} (C : list A) (i j : nat) : list A :=
  match C !! i, C !! j with
  | Some a, Some b => <[j := a]> (<[i := b]> C)
  | _, _ => C
  end.

Lemma swap_perm {A} (C : list A) i j : swap C i j ≡ₚ C.
Proof.
  unfold swap. destruct (C !! i) as [a|] eqn:Ei; [|done]. destruct (C !! j) as [b|] eqn:Ej; [|done].
  by apply Permutation_insert_swap.
Qed.

Lemma swap_lookup {A} (C : list A) i j k a b :
  C !! i = Some a → C !! j = Some b → swap C i j !! k = if decide (k = j) then Some a else if decide (k = i) then Some b else C !! k.
Proof.
  intros Ei Ej. unfold swap. rewrite Ei, Ej. apply lookup_lt_Some in Ei, Ej. case_decide as H1; [subst k|].
  { apply list_lookup_insert_eq. by rewrite length_insert. }
  rewrite list_lookup_insert_ne by done. case_decide as H2; [subst k; by apply list_lookup_insert_eq|]. by apply list_lookup_insert_ne.
Qed.

Lemma swap_length {A} (C : list A) i j : length (swap C i j) = length C.
Proof. unfold swap. repeat case_match; by rewrite ?length_insert. Qed.

Lemma link_states_spec ec l : ∀ a,
  (∀ s, s ∈ l → N.to_nat s < length a) →
  ∃ a', link_states ec l a = Some a' ∧ length a' = length a ∧
    ∀ k, a' !! k = if decide (N.of_nat k ∈ l) then Some (N.of_nat ec) else a !! k.
Proof.
  induction l as [|s l IH] using rev_ind; intros a Hb; [by exists a|].
  destruct (IH a) as (a1 & E & L & Hk); [set_solver|]. unfold link_states in *. rewrite foldl_app, E. cbn [foldl mbind option_bind].
  rewrite arr_set_Some by (rewrite L; set_solver). eexists. split; [done|]. split; [by rewrite length_insert|]. intros k.
  destruct (decide (k = N.to_nat s)) as [->|Hne].
  - rewrite list_lookup_insert_eq by (rewrite L; set_solver). rewrite N2Nat.id, decide_True; [done|set_solver].
  - rewrite list_lookup_insert_ne, Hk by done. apply decide_ext. rewrite elem_of_app, list_elem_of_singleton.
    assert (N.of_nat k ≠ s) by (intros <-; by rewrite Nat2N.id in Hne). naive_solver.
Qed.

Section Classes.
Context (f : fsm).
Abbreviation n := (f_statecount f).

(** The [i]th class of an environment. *)
Definition holds (env : min_env) (i : nat) (l : list N) : Prop :=
  ∃ h s l', l = s :: l' ∧ ecs env !! i = Some h ∧ (h = s ∨ h = SET_SMALL_EC_FLAG s) ∧ linked (jump env) s l NO_ID.

Record lists (env : min_env) (C : list (list N)) : Prop := {
  li_state_ecs : length (state_ecs env) = S n;
  li_ecs : length (ecs env) = S n;
  li_jump : length (jump env) = S n;
  li_class i l : C !! i = Some l → holds env i l;
  li_states : concat C ≡ₚ live_ids f;
}.

(** The states of all classes but those of [skip] have the number of theirs. *)
Definition numbered (env : min_env) (C : list (list N)) (skip : list nat) : Prop :=
  ∀ i l s, i ∉ skip → C !! i = Some l → s ∈ l → state_ecs env !! N.to_nat s = Some (N.of_nat i).

(** What the operations on classes leave alone. *)
Definition same_counts (env env' : min_env) : Prop :=
  ec_count env' = ec_count env ∧ done_ec_offset env' = done_ec_offset env ∧ steps env' = steps env ∧
  state_ecs env' !! n = state_ecs env !! n.

Lemma class_live env C i l s : lists env C → C !! i = Some l → s ∈ l → live f s.
Proof.
  intros Hl Hi Hs. apply elem_of_live_ids. rewrite <-(li_states _ _ Hl). apply elem_of_concat. eauto.
Qed.

Lemma live_class env C s : lists env C → live f s → ∃ i l, C !! i = Some l ∧ s ∈ l.
Proof. intros Hl Hs%elem_of_live_ids. rewrite <-(li_states _ _ Hl) in Hs. by apply elem_of_concat. Qed.

Lemma class_nodup env C : lists env C → NoDup (concat C).
Proof.
  intros Hl. rewrite (li_states _ _ Hl). apply NoDup_fmap_2; [apply _|]. apply NoDup_seq.
Qed.

Lemma concat_split (C : list (list N)) i l : C !! i = Some l → concat C ≡ₚ l ++ concat (delete i C).
Proof. intros Hi. by rewrite (concat_perm _ _ (delete_Permutation C i l Hi)). Qed.

Lemma concat_insert (C : list (list N)) i l : i < length C → concat (<[i := l]> C) ≡ₚ l ++ concat (delete i C).
Proof.
  intros Hi. rewrite (concat_split (<[i := l]> C) i l) by (by apply list_lookup_insert_eq). f_equiv.
  enough (delete i (<[i := l]> C) = delete i C) as -> by done. clear Hi. revert i. induction C as [|x C IH]; intros [|i]; cbn; f_equal; auto.
Qed.

Lemma class_unique env C i j l l' s : lists env C → C !! i = Some l → C !! j = Some l' → s ∈ l → s ∈ l' → i = j.
Proof.
  intros Hl Hi Hj Hs Hs'. destruct (decide (i = j)) as [|Hne]; [done|exfalso]. pose proof (class_nodup _ _ Hl) as Hnd.
  rewrite (concat_split C i l Hi) in Hnd. apply NoDup_app in Hnd as (_ & Hd & _). apply (Hd s Hs). apply elem_of_concat.
  assert (l' ∈ delete i C) as [k Hk]%list_elem_of_lookup; [|eauto]. pose proof (delete_Permutation C i l Hi) as Hp.
  destruct (decide (j < i)).
  - apply (list_elem_of_lookup_2 _ j). by rewrite list_lookup_delete_lt.
  - apply (list_elem_of_lookup_2 _ (j - 1)). rewrite list_lookup_delete_ge by lia. by replace (S (j - 1)) with j by lia.
Qed.

Lemma class_length env C i l : lists env C → C !! i = Some l → length l ≤ n.
Proof.
  intros Hl Hi. pose proof (Permutation_length (li_states _ _ Hl)) as E. rewrite (concat_split C i l Hi), length_app in E.
  unfold live_ids in E. rewrite length_fmap, length_seq in E. lia.
Qed.

Lemma class_count env C : lists env C → length C ≤ n.
Proof.
  intros Hl. pose proof (Permutation_length (li_states _ _ Hl)) as E. unfold live_ids in E. rewrite length_fmap, length_seq in E. rewrite <-E.
  assert (Forall (λ l, l ≠ []) C) as Hne.
  { apply Forall_lookup. intros i l Hi. destruct (li_class _ _ Hl i l Hi) as (h & s & l' & -> & _). done. }
  clear -Hne. induction Hne as [|l C Hl _ IH]; cbn [concat length]; [lia|]. rewrite length_app. destruct l; [done|]. cbn. lia.
Qed.

Hypothesis small : (N.of_nat n < 2147483648)%N.

Lemma head_mask h s : live f s → h = s ∨ h = SET_SMALL_EC_FLAG s → MASK_EC_HEAD h = s ∧ h ≠ NO_ID.
Proof.
  intros Hs Hh. assert (s < 2147483647)%N as Hb by (unfold live in Hs; lia). assert (MASK_EC_HEAD h = s) as E.
  { destruct Hh as [->| ->]; rewrite ?mask_set; apply mask_small; lia. }
  split; [done|]. intros ->. vm_compute in E. subst s. lia.
Qed.

Lemma holds_head env C i l :
  lists env C → C !! i = Some l →
  ∃ h s l', l = s :: l' ∧ ecs env !! i = Some h ∧ h ≠ NO_ID ∧ MASK_EC_HEAD h = s ∧ linked (jump env) s l NO_ID ∧ (h = s ∨ h = SET_SMALL_EC_FLAG s).
Proof.
  intros Hl Hi. destruct (li_class _ _ Hl i l Hi) as (h & s & l' & -> & E & Hh & Hk).
  destruct (head_mask h s) as [E1 E2]; [by eapply class_live; [done|done|left]|done|]. exists h, s, l'. done.
Qed.

Lemma ec_states_spec env C i l : lists env C → C !! i = Some l → ec_states env i = Some l.
Proof.
  intros Hl Hi. destruct (holds_head env C i l Hl Hi) as (h & s & l' & -> & E & _ & Em & Hk & _). unfold ec_states. rewrite E.
  cbn [mbind option_bind]. rewrite Em. apply linked_ec_list; [done|]. rewrite (li_jump _ _ Hl). pose proof (class_length _ _ _ _ Hl Hi). lia.
Qed.

Lemma update_ec_links_spec cnt env C i l skip :
  lists env C → C !! i = Some l → numbered env C (i :: skip) →
  ∃ env', update_ec_links cnt env i = Some env' ∧ lists env' C ∧ numbered env' C skip ∧ same_counts env env' ∧ jump env' = jump env.
Proof.
  intros Hl Hi Hn. destruct (holds_head env C i l Hl Hi) as (h & s & l' & El & E & Hne & Em & Hk & Hh). unfold update_ec_links. rewrite E.
  cbn [mbind option_bind]. rewrite (proj2 (N.eqb_neq _ _) Hne), (ec_states_spec env C i l Hl Hi). cbn [mbind option_bind].
  assert (∀ u, u ∈ l → live f u) as Hlive by (intros u; by eapply class_live).
  destruct (link_states_spec i l (state_ecs env)) as (a & Ea & La & Ha).
  { intros u Hu%Hlive. rewrite (li_state_ecs _ _ Hl). unfold live in Hu. lia. }
  rewrite Ea. cbn [mbind option_bind]. set (env1 := with_state_ecs env a). set (env2 := with_ecs env1 (<[i := SET_SMALL_EC_FLAG h]> (ecs env1))).
  assert (lists env1 C) as L1 by (destruct Hl; split; cbn; try done; lia).
  assert (lists env2 C) as L2.
  { destruct L1 as [K1 K2 K3 K4 K5]. split; try done; [cbn; by rewrite length_insert|]. intros j lj Hj.
    destruct (K4 j lj Hj) as (hj & sj & lj' & -> & Ej & Hhj & Hkj). destruct (decide (j = i)) as [->|Hji].
    - rewrite Hi in Hj. injection Hj as Hj. exists (SET_SMALL_EC_FLAG h), sj, lj'. split; [done|].
      split; [apply list_lookup_insert_eq; by apply lookup_lt_Some in E|]. split; [|done]. right. rewrite El in Hj. injection Hj as <- _.
      destruct Hh as [->| ->]; [done|]. unfold SET_SMALL_EC_FLAG. by rewrite <-N.lor_assoc, N.lor_diag.
    - exists hj, sj, lj'. split; [done|]. split; [|done]. cbn. by rewrite list_lookup_insert_ne. }
  assert (numbered env1 C skip) as N1.
  { intros j lj u Hj Ej Hu. cbn. rewrite Ha, N2Nat.id. case_decide as Hd; [by rewrite (class_unique _ _ _ _ _ _ _ Hl Hi Ej Hd Hu)|].
    apply (Hn j lj u); [|done|done]. rewrite not_elem_of_cons. split; [|done]. intros ->. rewrite Hi in Ej. by injection Ej as ->. }
  assert (same_counts env env1) as S1.
  { split_and!; try done. cbn. rewrite Ha, decide_False; [done|]. intros Hu%Hlive. unfold live in Hu. lia. }
  case_match; eexists; (split; [reflexivity|]); done.
Qed.

Lemma swap_ecs_spec env C i j skip :
  lists env C → i < length C → j < length C → numbered env C skip → (∀ k, k ∈ skip → k = i ∨ k = j) →
  ∃ env', swap_ecs env i j = Some env' ∧ lists env' (swap C i j) ∧ numbered env' (swap C i j) [i; j] ∧ same_counts env env' ∧ jump env' = jump env.
Proof.
  intros Hl [li Hi]%lookup_lt_is_Some_2 [lj Hj]%lookup_lt_is_Some_2 Hn Hskip. pose proof Hl as [L1 L2 L3 L4 L5].
  destruct (L4 i li Hi) as (hi & si & li' & Eli & Ei & Hhi & Hki). destruct (L4 j lj Hj) as (hj & sj & lj' & Elj & Ej & Hhj & Hkj).
  unfold swap_ecs. rewrite Ei, Ej. cbn [mbind option_bind]. eexists. split; [done|].
  split; [split; cbn; rewrite ?length_insert; try done|split; [|done]].
  - intros k lk. rewrite (swap_lookup C i j k li lj) by done. apply lookup_lt_Some in Ei as Li, Ej as Lj. case_decide as D1; [|case_decide as D2].
    + intros [= <-]. subst k. exists hi, si, li'. split; [done|]. split; [|done]. cbn. apply list_lookup_insert_eq. by rewrite length_insert.
    + intros [= <-]. subst k. exists hj, sj, lj'. split; [done|]. split; [|done]. cbn. rewrite list_lookup_insert_ne by done. by apply list_lookup_insert_eq.
    + intros Hk. destruct (L4 k lk Hk) as (hk & sk & lk' & -> & Ek & ?). exists hk, sk, lk'. split; [done|]. split; [|done]. cbn.
      by rewrite !list_lookup_insert_ne by done.
  - by rewrite (concat_perm _ _ (swap_perm C i j)).
  - intros k lk u Hk. rewrite (swap_lookup C i j k li lj) by done. rewrite decide_False, decide_False by set_solver. apply Hn.
    intros Hk'%Hskip. set_solver.
Qed.

(** Two classes change places. *)
Lemma swap_update_spec cnt env C i j skip :
  lists env C → i < length C → j < length C → numbered env C skip → (∀ k, k ∈ skip → k = i ∨ k = j) →
  ∃ env', (env ← swap_ecs env i j; env ← update_ec_links cnt env i; update_ec_links cnt env j) = Some env' ∧
    lists env' (swap C i j) ∧ numbered env' (swap C i j) [] ∧ same_counts env env' ∧ jump env' = jump env.
Proof.
  intros Hl Hi Hj Hn Hskip. destruct (swap_ecs_spec env C i j skip) as (e1 & -> & L1 & N1 & S1 & J1); try done. cbn [mbind option_bind].
  destruct (lookup_lt_is_Some_2 (swap C i j) i) as [l El]; [by rewrite swap_length|].
  destruct (lookup_lt_is_Some_2 (swap C i j) j) as [l' El']; [by rewrite swap_length|].
  destruct (update_ec_links_spec cnt e1 (swap C i j) i l [j]) as (e2 & -> & L2 & N2 & S2 & J2); try done. cbn [mbind option_bind].
  destruct (update_ec_links_spec cnt e2 (swap C i j) j l' []) as (e3 & -> & L3 & N3 & S3 & J3); try done.
  exists e3. split; [done|]. do 2 (split; [done|]). split; [|congruence]. unfold same_counts in *. intuition congruence.
Qed.
End Classes.
