(* ===== verification/MinRefine.v ===== *)
(** * Minimisation: refining the classes

    A class is split when its states are told apart by where a label leads
    ([moore]); when a pass changes nothing, the states of each class agree on
    every label ([stable]). The refinement ends because classes are not empty. *)

From S2P Require Import Prelude StateSet Bits EdgeSet EdgeIter EdgeCompact Lang Fsm FsmSpec Search Minimise MinClasses.

Section Refine.
Context (stale : nat → N → list N) (f : fsm).
Context (Hwf : fsm_wf f) (Hdet : deterministic (nfa_of f)) (small : (N.of_nat (f_statecount f) < 2147483648)%N).
Abbreviation n := (f_statecount f).

Record classes (env : min_env) (C : list (list N)) : Prop := {
  cl_lists : lists f env C;
  cl_numbered : numbered env C [];
  cl_dead : state_ecs env !! n = Some NO_ID;
  cl_count : ec_count env = length C;
  cl_done i l : C !! i = Some l → i < done_ec_offset env ↔ 2 ≤ length l;
  cl_done_le : done_ec_offset env ≤ length C;
}.

(** Two states are in the same class. *)
Definition same (C : list (list N)) (s t : N) : Prop := ∃ l, l ∈ C ∧ s ∈ l ∧ t ∈ l.

(** A label leads two states to the same class, or neither anywhere. *)
Definition agree (C : list (list N)) (c : nat) (s t : N) : Prop :=
  (∀ u, f_edge f s c u → ∃ v, f_edge f t c v ∧ same C u v) ∧ (∀ v, f_edge f t c v → ∃ u, f_edge f s c u ∧ same C u v).

Lemma same_sym C s t : same C s t → same C t s.
Proof. unfold same. naive_solver. Qed.

Lemma agree_sym C c s t : agree C c s t → agree C c t s.
Proof. unfold agree. intros [H1 H2]. split; intros u Hu; [destruct (H2 u Hu) as (v & ? & ?%same_sym)|destruct (H1 u Hu) as (v & ? & ?%same_sym)]; eauto. Qed.

(** ** Where a label leads *)

(** What [edge_set_check_edges_with_EC_mapping] gathers. *)
Lemma gather_labels (se : list N) (ec : N) (gs : list edge_group) : ∀ acc,
  words_ok 4 acc → Forall group_ok gs → (∀ g, g ∈ gs → is_Some (se !! N.to_nat (eg_to g))) →
  ∃ ls, foldl (λ acc g,
      labels ← acc;
      x ← se !! N.to_nat (eg_to g);
      Some (if (x =? ec)%N then words_or labels (eg_symbols g) else labels)) (Some acc) gs = Some ls ∧ words_ok 4 ls ∧
    ∀ c, bs_get ls c = true ↔ bs_get acc c = true ∨ ∃ g, g ∈ gs ∧ se !! N.to_nat (eg_to g) = Some ec ∧ bs_get (eg_symbols g) c = true.
Proof.
  induction gs as [|g gs IH]; intros acc Ha Hg Hb.
  { exists acc. split; [done|]. split; [done|]. intros c. set_solver. }
  apply Forall_cons in Hg as [Hg Hgs]. destruct (Hb g ltac:(set_solver)) as [x Hx]. cbn [foldl mbind option_bind]. rewrite Hx. cbn [mbind option_bind].
  destruct (IH (if (x =? ec)%N then words_or acc (eg_symbols g) else acc)) as (ls & E & W & Hc).
  - destruct (x =? ec)%N; [|done]. apply words_ok_or; [done|apply Hg].
  - done.
  - set_solver.
  - exists ls. split; [done|]. split; [done|]. intros c. rewrite Hc. setoid_rewrite elem_of_cons. destruct (N.eqb_spec x ec) as [->|Hne].
    + rewrite bs_get_or, orb_true_iff by (by rewrite (proj1 Ha), (proj1 (proj1 Hg))).
      split; [intros [[?|?]|(g' & ? & ?)]|intros [?|(g' & [->|?] & ? & ?)]]; eauto 6.
    + split; [intros [?|(g' & ? & ?)]|intros [?|(g' & [->|?] & ? & ?)]]; eauto 6. congruence.
Qed.

Lemma check_state_spec env C label s :
  classes env C → live f s →
  ∃ b ec ls, check_state stale f env label s = Some (b, ec, ls) ∧
    if b : bool then
      ∃ i l u, C !! i = Some l ∧ ec = N.of_nat i ∧ u ∈ l ∧ f_edge f s label u ∧ words_ok 4 ls ∧
        ∀ c, bs_get ls c = true ↔ ∃ v, f_edge f s c v ∧ v ∈ l
    else ec = NO_ID ∧ (∀ u, ¬ f_edge f s label u) ∧
      ls = match st_edges (get_state f s) with None => stale (steps env) s | Some _ => replicate 4 0%N end.
Proof.
  intros Hcl Hs. unfold check_state. destruct (wf_states f Hwf s Hs) as (We & _ & Hk & _).
  destruct (st_edges (get_state f s)) as [es|] eqn:Ep; cbn [edge_set_check_edges_with_EC_mapping].
  2:{ cbn [mbind option_bind]. rewrite (cl_dead _ _ Hcl). cbn [mbind option_bind]. do 3 eexists. split; [done|]. split; [done|]. split; [|done].
      intros u [_ Hu]. rewrite Ep in Hu. by apply groups_edge_nil in Hu. }
  pose proof (find_group_spec (es_groups es) label) as Hf. destruct (find_group (es_groups es) label) as [g|].
  2:{ cbn [mbind option_bind]. rewrite (cl_dead _ _ Hcl). cbn [mbind option_bind]. do 3 eexists. split; [done|]. split; [done|]. split; [|done].
      intros u [_ (g & Hg & _ & Hc)]. rewrite Ep in Hg. by rewrite Hf in Hc. }
  destruct Hf as [Hg Hgl]. destruct We as ([_ Hok] & _).
  assert (∀ g, g ∈ es_groups es → live f (eg_to g)) as Hto.
  { intros g' Hg'. apply Hk. by apply list_elem_of_fmap_2. }
  assert (∀ v, live f v → ∃ i l, C !! i = Some l ∧ v ∈ l ∧ state_ecs env !! N.to_nat v = Some (N.of_nat i)) as Hcls.
  { intros v Hv. destruct (live_class f env C v (cl_lists _ _ Hcl) Hv) as (i & l & Hi & Hl). exists i, l. split; [done|]. split; [done|].
    apply (cl_numbered _ _ Hcl i l v); [set_solver|done|done]. }
  destruct (Hcls _ (Hto g Hg)) as (i & l & Hi & Hl & En). rewrite En. cbn [mbind option_bind].
  destruct (gather_labels (state_ecs env) (N.of_nat i) (es_groups es) (replicate 4 0%N)) as (ls & E & W & Hc).
  { apply words_ok_zero. } { done. } { intros g' Hg'. destruct (Hcls _ (Hto g' Hg')) as (? & ? & _ & _ & ->). done. }
  rewrite E. cbn [mbind option_bind]. rewrite En. cbn [mbind option_bind]. exists true, (N.of_nat i), ls. split; [done|]. exists i, l, (eg_to g).
  do 3 (split; [done|]). split; [split; [done|]; rewrite Ep; by exists g|]. split; [done|]. intros c. rewrite Hc, bs_get_zero. unfold f_edge. rewrite Ep. split.
  - intros [?|(g' & Hg' & Hx & Hb)]; [done|]. exists (eg_to g'). split; [split; [done|by exists g']|].
    destruct (Hcls _ (Hto g' Hg')) as (i' & l' & Hi' & Hl' & E'). rewrite Hx in E'. injection E' as E'%Nat2N.inj. subst i'. by rewrite Hi in Hi'; injection Hi' as ->.
  - intros (v & [_ (g' & Hg' & Ht & Hb)] & Hv). right. exists g'. split; [done|]. rewrite Ht. split; [|done].
    apply (cl_numbered _ _ Hcl i l v); [set_solver|done|done].
Qed.

Lemma check_words env C label s ec ls :
  classes env C → live f s → check_state stale f env label s = Some (true, ec, ls) → words_ok 4 ls.
Proof.
  intros Hcl Hs E. destruct (check_state_spec env C label s Hcl Hs) as (b & x & y & E' & Hx). rewrite E in E'. injection E' as <- <- <-.
  by destruct Hx as (? & ? & ? & _ & _ & _ & _ & Hls & _).
Qed.

Lemma NO_ID_class env C i l : classes env C → C !! i = Some l → N.of_nat i ≠ NO_ID.
Proof. intros Hcl Hi%lookup_lt_Some. pose proof (class_count f env C (cl_lists _ _ Hcl)). unfold NO_ID. lia. Qed.

Lemma edge_det s c u v : f_edge f s c u → f_edge f s c v → u = v.
Proof. apply Hdet. Qed.

Lemma same_at C i l u v : C !! i = Some l → u ∈ l → v ∈ l → same C u v.
Proof. intros Hi Hu Hv. exists l. split; [by eapply list_elem_of_lookup_2|done]. Qed.

(** A state that matches the first agrees with it on the label and on all the
    labels gathered with it. *)
Lemma matches_agree env C label a s b ec ls :
  classes env C → live f a → live f s → check_state stale f env label a = Some (b, ec, ls) →
  matches stale f label env (ec, ls) s = true →
  agree C label a s ∧ (b = true → ∀ c, bs_get ls c = true → agree C c a s).
Proof.
  intros Hcl Ha Hs Ea. destruct (check_state_spec env C label a Hcl Ha) as (b' & ec' & ls' & Ea' & Sa).
  rewrite Ea in Ea'. injection Ea' as <- <- <-. unfold matches. destruct (check_state_spec env C label s Hcl Hs) as (b2 & ec2 & ls2 & -> & Ss).
  cbn [fst snd]. intros [Hec%N.eqb_eq Hls%bool_decide_eq_true]%andb_true_iff. subst ec2 ls2. destruct b, b2.
  - destruct Sa as (i & l & u & Hi & -> & Hu & Hau & W & Hc). destruct Ss as (i2 & l2 & u2 & Hi2 & Ei & Hu2 & Hsu & _ & Hc2).
    apply Nat2N.inj in Ei. subst i2. rewrite Hi in Hi2. injection Hi2 as <-.
    assert (∀ c, bs_get ls c = true → agree C c a s) as Hall.
    { intros c Hb. destruct (proj1 (Hc c) Hb) as (v & Hv & Hvl). destruct (proj1 (Hc2 c) Hb) as (w & Hw & Hwl). split.
      - intros x Hx. rewrite (edge_det _ _ _ _ Hx Hv). exists w. split; [done|]. by eapply same_at.
      - intros x Hx. rewrite (edge_det _ _ _ _ Hx Hw). exists v. split; [done|]. by eapply same_at. }
    split; [|done]. apply Hall, Hc. eauto.
  - destruct Sa as (i & l & u & Hi & -> & _). destruct Ss as (E & _). by apply (NO_ID_class env C i l Hcl) in Hi.
  - destruct Ss as (i & l & u & Hi & E & _). destruct Sa as (-> & _). by apply (NO_ID_class env C i l Hcl) in Hi.
  - split; [|done]. destruct Sa as (_ & Sa & _), Ss as (_ & Ss & _). split; intros u Hu; [by apply Sa in Hu|by apply Ss in Hu].
Qed.

(** The sets of labels that are not written are empty. *)
Definition zeroed : Prop := ∀ k s, stale k s = replicate 4 0%N.

Lemma not_matches_disagree env C label a s b ec ls :
  zeroed → classes env C → live f a → live f s → check_state stale f env label a = Some (b, ec, ls) →
  matches stale f label env (ec, ls) s ≠ true → ∃ c, ¬ agree C c a s.
Proof.
  intros Hz Hcl Ha Hs Ea. destruct (check_state_spec env C label a Hcl Ha) as (b' & ec' & ls' & Ea' & Sa).
  rewrite Ea in Ea'. injection Ea' as <- <- <-. unfold matches. destruct (check_state_spec env C label s Hcl Hs) as (b2 & ec2 & ls2 & -> & Ss).
  cbn [fst snd]. intros Hm. destruct b, b2.
  - destruct Sa as (i & l & u & Hi & -> & Hu & Hau & W & Hc). destruct Ss as (i2 & l2 & u2 & Hi2 & -> & Hu2 & Hsu & W2 & Hc2).
    assert (∀ c, bs_get ls c = true → i = i2 → agree C c a s → bs_get ls2 c = true) as Hsub.
    { intros c (v & Hv & Hvl)%Hc <- [H1 _]. destruct (H1 v Hv) as (w & Hw & l' & (k & Hk)%list_elem_of_lookup & Hvk & Hwk).
      rewrite Hi in Hi2. injection Hi2 as <-. apply Hc2. exists w. split; [done|].
      assert (k = i) as -> by (exact (class_unique f env C k i l' l v (cl_lists _ _ Hcl) Hk Hi Hvk Hvl)). rewrite Hi in Hk. by injection Hk as <-. }
    assert (∀ c, bs_get ls2 c = true → i = i2 → agree C c a s → bs_get ls c = true) as Hsub2.
    { intros c (v & Hv & Hvl)%Hc2 <- [_ H2]. destruct (H2 v Hv) as (w & Hw & l' & (k & Hk)%list_elem_of_lookup & Hwk & Hvk).
      rewrite Hi in Hi2. injection Hi2 as <-. apply Hc. exists w. split; [done|].
      assert (k = i) as -> by (exact (class_unique f env C k i l' l v (cl_lists _ _ Hcl) Hk Hi Hvk Hvl)). rewrite Hi in Hk. by injection Hk as <-. }
    destruct (decide (i = i2)) as [<-|Hne].
    + destruct (decide (Forall (λ c, bs_get ls c = bs_get ls2 c) (seq 0 256))) as [Hall|Hno].
      * exfalso. apply Hm. rewrite N.eqb_refl. cbn [andb]. apply bool_decide_eq_true. apply (words_ext 4); [done|done|].
        intros j Hj. rewrite Forall_forall in Hall. apply Hall, elem_of_seq. lia.
      * apply not_Forall_Exists in Hno; [|apply _]. apply Exists_exists in Hno as (c & _ & Hne). exists c. intros Hag. apply Hne.
        specialize (Hsub c). specialize (Hsub2 c). destruct (bs_get ls c), (bs_get ls2 c); try done; [by rewrite Hsub|by rewrite Hsub2].
    + exists label. intros [H1 _]. destruct (H1 u Hau) as (w & Hw & l' & (k & Hk)%list_elem_of_lookup & Hvk & Hwk).
      rewrite (edge_det _ _ _ _ Hw Hsu) in *. apply Hne.
      transitivity k; [exact (class_unique f env C i k l l' u (cl_lists _ _ Hcl) Hi Hk Hu Hvk)|exact (class_unique f env C k i2 l' l2 u2 (cl_lists _ _ Hcl) Hk Hi2 Hwk Hu2)].
  - destruct Sa as (i & l & u & Hi & -> & Hu & Hau & _). destruct Ss as (_ & Ss & _). exists label. intros [H1 _]. destruct (H1 u Hau) as (w & Hw & _).
    by apply Ss in Hw.
  - destruct Ss as (i & l & u & Hi & E & Hu & Hsu & _). destruct Sa as (_ & Sa & _). exists label. intros [_ H2]. destruct (H2 u Hsu) as (w & Hw & _).
    by apply Sa in Hw.
  - destruct Sa as (-> & _ & ->), Ss as (-> & _ & ->). exfalso. apply Hm. rewrite N.eqb_refl. cbn [andb]. apply bool_decide_eq_true.
    repeat case_match; rewrite ?Hz; done.
Qed.

(** ** Labels *)

Lemma or_group_labels_spec p : ∀ set,
  edge_set_wf p → words_ok 4 set →
  words_ok 4 (or_group_labels set p) ∧
  ∀ c, bs_get (or_group_labels set p) c = true ↔ bs_get set c = true ∨ ∃ t, has_edge p c t.
Proof.
  intros set We Hs. assert (∀ infos set, words_ok 4 set → Forall (λ i, words_ok 4 (egii_symbols i)) infos →
    words_ok 4 (foldl (λ set info, words_or set (egii_symbols info)) set infos) ∧
    ∀ c, bs_get (foldl (λ set info, words_or set (egii_symbols info)) set infos) c = true ↔
      bs_get set c = true ∨ ∃ i, i ∈ infos ∧ bs_get (egii_symbols i) c = true) as Hgen.
  { clear. induction infos as [|x infos IH]; intros set Hs Hi; cbn [foldl].
    - split; [done|]. intros c. split; [auto|]. intros [?|(i & Hi' & _)]; [done|]. by apply elem_of_nil in Hi'.
    - apply Forall_cons in Hi as [Hx Hi]. destruct (IH (words_or set (egii_symbols x))) as [W G]; [by apply words_ok_or|done|]. split; [done|].
      intros c. rewrite G, bs_get_or, orb_true_iff by (by rewrite (proj1 Hs), (proj1 Hx)). setoid_rewrite elem_of_cons.
      split; [intros [[?|?]|(i & ? & ?)]|intros [?|(i & [->|?] & ?)]]; eauto 6. }
  destruct (Hgen (group_loop p) set Hs) as [W G].
  { rewrite group_loop_infos. apply Forall_fmap, Forall_forall. intros g [_ Hg]%list_elem_of_filter. cbn.
    destruct p as [es|]; [|by apply elem_of_nil in Hg]. destruct We as ([_ Hok] & _). rewrite Forall_forall in Hok. by apply Hok. }
  split; [done|]. intros c. unfold or_group_labels. rewrite G. setoid_rewrite <-group_loop_spec; [|done].
  split; (intros [?|Hx]; [by left|right]); [destruct Hx as (i & ? & ?); by exists (egii_to i), i|destruct Hx as (t & i & ? & ? & ?); by exists i].
Qed.

Lemma gather_states_spec l : ∀ set,
  Forall (live f) l → words_ok 4 set →
  let set' := foldl (λ set s, or_group_labels set (st_edges (get_state f s))) set l in
  words_ok 4 set' ∧ ∀ c, bs_get set' c = true ↔ bs_get set c = true ∨ ∃ s t, s ∈ l ∧ f_edge f s c t.
Proof.
  induction l as [|s l IH]; intros set Hl Hs; cbn [foldl].
  - split; [done|]. intros c. split; [auto|]. intros [?|(s & t & Hx & _)]; [done|]. by apply elem_of_nil in Hx.
  - apply Forall_cons in Hl as [Hls Hl]. destruct (or_group_labels_spec (st_edges (get_state f s)) set (proj1 (wf_states f Hwf s Hls)) Hs) as [W G].
    destruct (IH _ Hl W) as [W2 G2]. split; [done|]. intros c. rewrite G2, G. setoid_rewrite elem_of_cons.
    split.
    + intros [[?|(t & Ht)]|(u & t & Hu & Ht)]; [by left|right; exists s, t; split; [by left|by split]|right; exists u, t; split; [by right|done]].
    + intros [?|(u & t & [->|Hu] & Ht)]; [by left; left|left; right; exists t; apply Ht|right; by exists u, t].
Qed.

Lemma zero_word_bits set i c :
  Nat.land i 63 = 0 → word set (i / 64) = 0%N → i ≤ c → c < i + 64 → bs_get set c = false.
Proof.
  intros Hi Hw H1 H2. rewrite land_63 in Hi. rewrite bs_get_testbit. replace (c / 64) with (i / 64); [rewrite Hw; apply N.bits_0|].
  pose proof (Nat.div_mod_eq i 64). apply (Nat.div_unique c 64 (i / 64) (c - i)); lia.
Qed.

Lemma ec_labels_loop_complete fuel : ∀ i set c,
  256 < fuel + i → i ≤ c → c < 256 → bs_get set c = true → c ∈ ec_labels_loop fuel i set.
Proof.
  induction fuel as [|fuel IH]; intros i set c Hf Hi Hc Hb; [lia|]. cbn [ec_labels_loop]. rewrite (proj2 (Nat.ltb_lt i 256)) by lia.
  destruct (Nat.eqb_spec (Nat.land i 63) 0) as [E1|E1]; cbn [andb].
  - destruct (N.eqb_spec (word set (i / 64)) 0) as [E2|E2].
    + apply IH; [lia| |done|done]. destruct (decide (c < i + 64)); [|lia]. by rewrite (zero_word_bits set i c) in Hb.
    + fold (bs_get set i). destruct (decide (c = i)) as [->|]; [rewrite Hb; by left|]. destruct (bs_get set i); [right|]; apply IH; lia || done.
  - fold (bs_get set i). destruct (decide (c = i)) as [->|]; [rewrite Hb; by left|]. destruct (bs_get set i); [right|]; apply IH; lia || done.
Qed.

Lemma collect_loop_complete fuel : ∀ i set c,
  256 < fuel + i → i ≤ c → c < 256 → bs_get set c = true → c ∈ collect_loop fuel i set.
Proof.
  induction fuel as [|fuel IH]; intros i set c Hf Hi Hc Hb; [lia|]. cbn [collect_loop]. rewrite (proj2 (Nat.ltb_lt i 256)) by lia.
  fold (bs_get set i). destruct (decide (c = i)) as [->|]; [rewrite Hb; by left|]. destruct (bs_get set i); [right; apply IH; lia || done|].
  destruct (Nat.eqb_spec (Nat.land i 63) 0) as [E1|E1]; cbn [andb]; [|apply IH; lia || done].
  destruct (N.eqb_spec (word set (i / 64)) 0) as [E2|E2]; [|apply IH; lia || done].
  apply IH; [lia| |done|done]. destruct (decide (c < i + 64)); [|lia]. by rewrite (zero_word_bits set i c) in Hb.
Qed.

Lemma f_edge_label s c t : f_edge f s c t → c < 256.
Proof. intros [Hs He]. by eapply has_edge_symbol; [apply (wf_states f Hwf s Hs)|]. Qed.

Lemma collect_labels_complete s c t : f_edge f s c t → c ∈ collect_labels f.
Proof.
  intros He. pose proof (f_edge_label s c t He). apply collect_loop_complete; [lia|lia|done|].
  apply (gather_states_spec (live_ids f) (replicate 4 0%N)); [|apply words_ok_zero|].
  - apply Forall_forall. intros u. by rewrite elem_of_live_ids.
  - right. exists s, t. split; [|done]. apply elem_of_live_ids, He.
Qed.

(** ** Partitioning a class *)

Definition kept_states (env : min_env) (label : nat) (first : N * list N) (l : list N) : list N :=
  filter (λ s, matches stale f label env first s = true) l.
Definition split_states (env : min_env) (label : nat) (first : N * list N) (l : list N) : list N :=
  filter (λ s, matches stale f label env first s ≠ true) l.

Lemma kept_split_perm env label first l : kept_states env label first l ++ split_states env label first l ≡ₚ l.
Proof. unfold kept_states, split_states. apply (filter_app_complement (λ s, matches stale f label env first s = true)). Qed.

(** The lists after a class has been split. *)
Lemma split_lists env env' C i a rest h kept split d :
  lists f env C → C !! i = Some (a :: rest) → kept ++ split ≡ₚ rest → (split = [] → kept = rest) →
  ecs env !! i = Some h → (h = a ∨ h = SET_SMALL_EC_FLAG a) →
  state_ecs env' = state_ecs env → ecs env' = <[length C := d]> (ecs env) → length (jump env') = length (jump env) →
  linked (jump env') a (a :: kept) NO_ID → linked (jump env') d (reverse split) NO_ID →
  (∀ s, s ∉ a :: rest → jump env' !! N.to_nat s = jump env !! N.to_nat s) →
  lists f env' (if 0 <? length split then <[i := a :: kept]> C ++ [reverse split] else C).
Proof.
  intros Hl Hi Hperm Hnil Eh Hh Es Ee Lj L1 L2 L4. pose proof (class_count f env C Hl) as Hcount. apply lookup_lt_Some in Hi as Hilt.
  assert (∀ k lk, k ≠ i → C !! k = Some lk → holds env' k lk) as H1.
  { intros k lk Hki Hlk. destruct (li_class _ _ _ Hl k lk Hlk) as (hk & sk & lk' & -> & Ek & Hhk & Hkk). exists hk, sk, lk'. split; [done|].
    split; [rewrite Ee, list_lookup_insert_ne; [done|]; apply lookup_lt_Some in Hlk; lia|]. split; [done|]. eapply linked_frame; [|done].
    intros u Hu. apply L4. intros Hin. apply Hki. exact (class_unique f env C k i _ _ u Hl Hlk Hi Hu Hin). }
  assert (holds env' i (a :: kept)) as H2.
  { exists h, a, kept. split; [done|]. split; [|done]. rewrite Ee, list_lookup_insert_ne; [done|lia]. }
  assert (∀ C', (∀ k lk, C' !! k = Some lk → holds env' k lk) → concat C' ≡ₚ concat C → lists f env' C') as Hmk.
  { intros C' Hh' Hp. destruct Hl as [K1 K2 K3 K4 K5]. split; [congruence|by rewrite Ee, length_insert|congruence|done|by rewrite Hp]. }
  destruct (Nat.ltb_spec 0 (length split)) as [Hpos|Hz].
  - apply Hmk.
    + intros k lk [Hlk|[Hge Hlk]]%lookup_app_Some; rewrite ?length_insert in *.
      * destruct (decide (k = i)) as [->|Hki]; [|rewrite list_lookup_insert_ne in Hlk by done; by apply H1].
        rewrite list_lookup_insert_eq in Hlk by done. by injection Hlk as <-.
      * destruct (k - length C) eqn:Ekc; [|done]. injection Hlk as <-. replace k with (length C) by lia.
        destruct (reverse split) as [|x r] eqn:Er; [apply (f_equal length) in Er; rewrite length_reverse in Er; cbn in Er; lia|].
        exists d, x, r. split; [done|]. split; [rewrite Ee; apply list_lookup_insert_eq; rewrite (li_ecs _ _ _ Hl); lia|].
        pose proof L2 as (-> & _). split; [by left|done].
    + rewrite concat_app. cbn [concat]. rewrite app_nil_r, concat_insert by done. rewrite (concat_split C i _ Hi), reverse_Permutation, <-Hperm.
      cbn [app]. apply perm_skip. rewrite <-!(assoc_L (++)). apply Permutation_app_head, Permutation_app_comm.
  - apply Hmk; [|done]. assert (split = []) as E0 by (destruct split; [done|cbn in Hz; lia]).
    intros k lk Hlk. destruct (decide (k = i)) as [->|Hki]; [|by apply H1]. rewrite Hi in Hlk. injection Hlk as <-. by rewrite <-(Hnil E0).
Qed.

Lemma try_partition_spec env C label i a rest checked :
  classes env C → C !! i = Some (a :: rest) →
  ∃ b ec ls env', check_state stale f env label a = Some (b, ec, ls) ∧
    let kept := kept_states env label (ec, ls) rest in
    let split := split_states env label (ec, ls) rest in
    try_partition stale f env label i (length C) checked =
      Some (0 <? length split, env', (S (length kept), length split), if b then words_or checked ls else checked) ∧
    state_ecs env' = state_ecs env ∧ ec_count env' = ec_count env ∧ done_ec_offset env' = done_ec_offset env ∧
    lists f env' (if 0 <? length split then <[i := a :: kept]> C ++ [reverse split] else C).
Proof.
  intros Hcl Hi. pose proof (cl_lists _ _ Hcl) as Hl. pose proof (class_count f env C Hl) as Hcount.
  assert (∀ s, s ∈ a :: rest → live f s) as Hlive by (intros s; by eapply class_live).
  destruct (check_state_spec env C label a Hcl (Hlive a ltac:(left))) as (b & ec & ls & Ea & _).
  destruct (holds_head f small env C i _ Hl Hi) as (h & s & l' & [= <- <-] & Eh & _ & Em & Hk & Hh).
  cbn [linked] in Hk. destruct Hk as (_ & Ha & next & Hj & Hk).
  assert (NoDup (a :: rest)) as Hnd.
  { pose proof (class_nodup f env C Hl) as Hnd. rewrite (concat_split C i _ Hi) in Hnd. by apply NoDup_app in Hnd as (? & _). }
  set (env0 := with_ecs env (<[length C := NO_ID]> (ecs env))).
  destruct (partition_loop_spec stale f label (length C) (ec, ls) rest (length (jump env)) env0 a [] a next NO_ID [] (1, 0))
    as (j & d & E & L1 & L2 & L3 & L4).
  - intros s Hs. destruct (check_state_spec env C label s Hcl (Hlive s ltac:(by right))) as (b1 & e1 & l1 & E & _). by exists (b1, e1, l1).
  - cbn. naive_solver.
  - done.
  - cbn. apply list_lookup_insert_eq. rewrite (li_ecs _ _ _ Hl). lia.
  - done.
  - by rewrite app_nil_r.
  - pose proof (class_length f env C i _ Hl Hi). cbn in *. rewrite (li_jump _ _ _ Hl). lia.
  - cbn zeta. exists b, ec, ls. eexists. split; [done|]. unfold try_partition. rewrite Eh. cbn [mbind option_bind]. rewrite Em, Ea. cbn [mbind option_bind].
    rewrite Hj. cbn [mbind option_bind]. rewrite arr_set_Some by (rewrite (li_ecs _ _ _ Hl); lia). cbn [mbind option_bind]. fold env0. rewrite E.
    cbn [mbind option_bind fst snd Nat.add]. split; [reflexivity|]. do 3 (split; [done|]).
    cbn [app] in L1. rewrite app_nil_r in L2. pose proof (kept_split_perm env label (ec, ls) rest) as Hperm.
    eapply (split_lists env _ C i a rest h _ _ d); try done; [|cbn; apply list_insert_insert_eq]. unfold kept_states, split_states. intros Es.
    apply filter_all. intros u Hu. destruct (matches stale f label env (ec, ls) u) eqn:Eu; [done|]. exfalso. apply (not_elem_of_nil u).
    rewrite <-Es. apply list_elem_of_filter. by rewrite Eu.
Qed.

(** ** After a partition *)

Lemma update_dst_spec cnt env C i done gone :
  let C' := C ++ [gone] in
  lists f env C' → numbered env C' [length C] → i < done → done ≤ length C → done_ec_offset env = done → gone ≠ [] →
  (∀ k l, k ≠ i → C !! k = Some l → k < done ↔ 2 ≤ length l) →
  ∃ env1 C1 done1, move_dst cnt env (length gone) (length C) = Some env1 ∧
    lists f env1 C1 ∧ numbered env1 C1 [] ∧ C1 ≡ₚ C' ∧ C1 !! i = C' !! i ∧ done_ec_offset env1 = done1 ∧ i < done1 ∧ done1 ≤ length C1 ∧
    ec_count env1 = ec_count env ∧ state_ecs env1 !! n = state_ecs env !! n ∧
    (∀ k l, k ≠ i → C1 !! k = Some l → k < done1 ↔ 2 ≤ length l).
Proof.
  intros C' Hl Hn Hi Hd Ed Hg Hdone. assert (C' !! length C = Some gone) as Elast by (by apply list_lookup_middle). unfold move_dst.
  assert (length C' = S (length C)) as EC by (unfold C'; rewrite length_app; cbn; lia). destruct (Nat.eqb_spec (length gone) 1) as [E1|Hne1].
  - rewrite Ed, (proj2 (Nat.ltb_lt 0 done)) by lia. destruct (update_ec_links_spec f small cnt env C' (length C) gone [] Hl Elast Hn) as (e1 & -> & L1 & N1 & (S1 & S2 & S3 & S4) & _).
    exists e1, C', done. split_and!; try done; [congruence|lia|]. intros k l Hk Hlk. unfold C' in Hlk. apply lookup_app_Some in Hlk as [Hlk|[Hge Hlk]]; [by apply Hdone|].
    destruct (k - length C); [|done]. injection Hlk as <-. lia.
  - assert (2 ≤ length gone) as Hlen by (destruct gone as [|? [|]]; cbn in *; [done|lia|lia]). cbn zeta. rewrite Ed.
    destruct (swap_update_spec f small cnt env C' (length C) done [length C]) as (e1 & E & L1 & N1 & (S1 & S2 & S3 & S4) & _); [done|lia|lia|done|set_solver|].
    destruct (swap_ecs env (length C) done) as [x|]; [|done]. cbn [mbind option_bind] in E |- *.
    destruct (update_ec_links cnt x (length C)) as [y|]; [|done]. cbn [mbind option_bind] in E |- *. rewrite E. cbn [mbind option_bind].
    destruct (lookup_lt_is_Some_2 C' done) as [ld Eld]; [lia|]. set (C1 := swap C' (length C) done) in *.
    assert (∀ k, C1 !! k = if decide (k = done) then Some gone else if decide (k = length C) then Some ld else C' !! k) as Hlk.
    { intros k. apply swap_lookup; done. }
    exists (with_counts e1 (ec_count e1) (done_ec_offset e1 + 1)), C1, (done + 1).
    assert (length C1 = S (length C)) as EC1 by (unfold C1; by rewrite swap_length). cbn [done_ec_offset ec_count with_counts state_ecs]. split_and!; try done.
    + by destruct L1.
    + apply swap_perm.
    + rewrite Hlk, decide_False, decide_False by lia. done.
    + lia.
    + lia.
    + lia.
    + intros k l Hk. rewrite Hlk. case_decide as D1; [|case_decide as D2].
      * intros [= <-]. lia.
      * intros [= <-]. subst k. split; [lia|]. unfold C' in Eld. rewrite lookup_app_l in Eld by lia.
        intros Hx. apply (Hdone done ld) in Eld; lia.
      * intros Hx. apply lookup_lt_Some in Hx as Hlt. unfold C' in Hx. rewrite lookup_app_l in Hx by lia. rewrite <-(Hdone k l Hk Hx). lia.
Qed.

Lemma update_after_partition_spec cnt env C i keep gone :
  let C' := C ++ [gone] in
  lists f env C' → numbered env C' [length C] → state_ecs env !! n = Some NO_ID → ec_count env = length C →
  C !! i = Some keep → i < done_ec_offset env → done_ec_offset env ≤ length C → gone ≠ [] →
  (∀ k l, k ≠ i → C !! k = Some l → k < done_ec_offset env ↔ 2 ≤ length l) →
  ∃ restart env1 C1, update_after_partition cnt env (length keep, length gone) i (length C) = Some (restart, env1) ∧
    C1 ≡ₚ C' ∧ classes (with_counts env1 (ec_count env1 + 1) (done_ec_offset env1)) C1 ∧ (restart = false → i < done_ec_offset env1) ∧
    (restart = false → C1 !! i = Some keep).
Proof.
  intros C' Hl Hn Hdead Hec Hi Hid Hdl Hg Hdone. apply lookup_lt_Some in Hi as Hilt.
  assert (C' !! i = Some keep) as Hi' by (unfold C'; by rewrite lookup_app_l).
  assert (keep ≠ []) as Hk by (destruct (li_class _ _ _ Hl i keep Hi') as (? & ? & ? & -> & _); done).
  unfold update_after_partition. cbn [fst snd]. rewrite (proj2 (Nat.ltb_lt 0 (length keep))), (proj2 (Nat.ltb_lt 0 (length gone))) by (destruct keep, gone; cbn; try done; lia).
  cbn [andb negb]. destruct (update_dst_spec cnt env C i _ gone Hl Hn Hid Hdl eq_refl Hg Hdone)
    as (e1 & C1 & done1 & -> & L1 & N1 & P1 & X1 & D1 & I1 & B1 & E1 & S1 & H1). cbn [mbind option_bind]. rewrite D1.
  rewrite (proj2 (Nat.ltb_lt 0 done1)), andb_true_r by lia. fold C' in X1. rewrite Hi' in X1.
  assert (length C1 = S (length C)) as EC1 by (rewrite (Permutation_length P1); unfold C'; rewrite length_app; cbn; lia).
  destruct (Nat.eqb_spec (length keep) 1) as [Hk1|Hk1].
  - destruct (swap_update_spec f small cnt e1 C1 i (done1 - 1) []) as (e2 & E & L2 & N2 & (T1 & T2 & T3 & T4) & _); [done|lia|lia|done|set_solver|].
    destruct (swap_ecs e1 i (done1 - 1)) as [x|]; [|done]. cbn [mbind option_bind] in E |- *.
    destruct (update_ec_links cnt x i) as [y|]; [|done]. cbn [mbind option_bind] in E |- *. rewrite E. cbn [mbind option_bind].
    destruct (lookup_lt_is_Some_2 C1 (done1 - 1)) as [ld Eld]; [lia|].
    exists true. eexists. exists (swap C1 i (done1 - 1)). split; [done|]. split; [by rewrite swap_perm|]. split; [|done]. split; cbn.
    + by destruct L2.
    + done.
    + congruence.
    + rewrite swap_length. lia.
    + intros k l. rewrite (swap_lookup C1 i (done1 - 1) k keep ld) by done. rewrite T2, D1. case_decide as D; [|case_decide as D'].
      * intros [= <-]. lia.
      * intros [= <-]. subst k. assert (done1 - 1 ≠ i) as Hne by lia. pose proof (proj1 (H1 _ _ Hne Eld)). lia.
      * intros Hx. rewrite <-(H1 k l D' Hx). lia.
    + rewrite swap_length. lia.
  - exists false, e1, C1. split; [done|]. split; [done|]. split; [|split; [lia|done]]. split; cbn.
    + by destruct L1.
    + done.
    + congruence.
    + lia.
    + intros k l Hx. rewrite D1. destruct (decide (k = i)) as [->|Hki]; [|by apply H1]. rewrite X1 in Hx. injection Hx as <-.
      destruct keep as [|? [|]]; cbn in *; [done|lia|lia].
    + lia.
Qed.

(** ** Refinement *)

(** [C'] is finer than [C]; states told apart disagree on a label, if label
    sets that are not written are empty. *)
Definition refined (C C' : list (list N)) : Prop :=
  (∀ s t, same C' s t → same C s t) ∧ (zeroed → ∀ s t, same C s t → ¬ same C' s t → ∃ c, ¬ agree C c s t).

(** All states of a class agree on the labels. *)
Definition agree_on (C : list (list N)) (l : list N) (c : nat) : Prop := ∀ s t, s ∈ l → t ∈ l → agree C c s t.

Lemma same_perm C C' s t : C ≡ₚ C' → same C s t → same C' s t.
Proof. intros Hp (l & Hl & ?). exists l. by rewrite <-Hp. Qed.

Lemma refined_perm C C1 C2 : C1 ≡ₚ C2 → refined C C1 → refined C C2.
Proof.
  intros Hp [H1 H2]. split.
  - intros s t Hs. apply H1. by eapply same_perm; [symmetry|].
  - intros Hz s t Hs Hns. apply H2; [done|done|]. intros Hs'. apply Hns. by eapply same_perm.
Qed.

Lemma matches_check env label ec ls x :
  matches stale f label env (ec, ls) x = true ↔ ∃ b, check_state stale f env label x = Some (b, ec, ls).
Proof.
  unfold matches. destruct (check_state stale f env label x) as [[[b ec'] ls']|]; cbn [fst snd]; [|naive_solver].
  rewrite andb_true_iff, N.eqb_eq. unfold label_sets_match. rewrite bool_decide_eq_true. split; [intros [-> ->]; eauto|].
  intros (b' & [= -> -> ->]). done.
Qed.

Lemma split_refined env C label i a rest b ec ls :
  classes env C → C !! i = Some (a :: rest) → check_state stale f env label a = Some (b, ec, ls) →
  refined C (<[i := a :: kept_states env label (ec, ls) rest]> C ++ [reverse (split_states env label (ec, ls) rest)]).
Proof.
  intros Hcl Hi Ea. apply lookup_lt_Some in Hi as Hilt. set (kept := kept_states _ _ _ _). set (split := split_states _ _ _ _).
  assert (∀ x, x ∈ kept ↔ matches stale f label env (ec, ls) x = true ∧ x ∈ rest) as Hkept by (intros; unfold kept, kept_states; by rewrite list_elem_of_filter).
  assert (∀ x, x ∈ split ↔ matches stale f label env (ec, ls) x ≠ true ∧ x ∈ rest) as Hsplit by (intros; unfold split, split_states; by rewrite list_elem_of_filter).
  assert (a :: kept ∈ <[i := a :: kept]> C ++ [reverse split]) as K1.
  { apply elem_of_app. left. apply (list_elem_of_lookup_2 _ i). by apply list_lookup_insert_eq. }
  assert (reverse split ∈ <[i := a :: kept]> C ++ [reverse split]) as K2 by set_solver.
  split.
  - intros s t (l & [Hl|Hl%list_elem_of_singleton]%elem_of_app & Hs & Ht).
    + apply list_elem_of_lookup in Hl as [k Hk]. destruct (decide (k = i)) as [->|Hne].
      * rewrite list_lookup_insert_eq in Hk by done. injection Hk as <-. eapply same_at; [exact Hi| |]; set_solver.
      * rewrite list_lookup_insert_ne in Hk by done. by eapply same_at.
    + subst l. rewrite elem_of_reverse in Hs, Ht. eapply same_at; [exact Hi| |]; set_solver.
  - intros Hz s t (l & [k Hk]%list_elem_of_lookup & Hs & Ht) Hns. destruct (decide (k = i)) as [->|Hne].
    2:{ exfalso. apply Hns. exists l. split; [|done]. apply elem_of_app. left. apply (list_elem_of_lookup_2 _ k). by rewrite list_lookup_insert_ne. }
    rewrite Hi in Hk. injection Hk as <-. assert (∀ x, x ∈ a :: rest → live f x) as Hlive by (intros x; by eapply class_live; [apply Hcl|]).
    assert (∀ x, x ∈ a :: rest → x ∈ a :: kept ∨ x ∈ split) as Hor.
    { intros x [->|Hx]%elem_of_cons; [by left; left|]. destruct (matches stale f label env (ec, ls) x) eqn:Ex.
      - left; right. by apply Hkept.
      - right. apply Hsplit. by rewrite Ex. }
    assert (∀ x, x ∈ a :: kept → ∃ b', check_state stale f env label x = Some (b', ec, ls)) as Hck.
    { intros x [->|Hx]%elem_of_cons; [by exists b|]. by apply Hkept in Hx as [Hm%matches_check _]. }
    assert (∀ x y, x ∈ a :: kept → y ∈ split → ∃ c, ¬ agree C c x y) as Hapart.
    { intros x y Hx [Hy Hyr]%Hsplit. destruct (Hck x Hx) as [b' Ex]. eapply not_matches_disagree; [done|done| | |exact Ex|done]; apply Hlive; set_solver. }
    destruct (Hor s Hs) as [Hs'|Hs'], (Hor t Ht) as [Ht'|Ht'].
    + exfalso. apply Hns. by exists (a :: kept).
    + by apply Hapart.
    + destruct (Hapart t s Ht' Hs') as [c Hc]. exists c. by intros ?%agree_sym.
    + exfalso. apply Hns. exists (reverse split). by rewrite !elem_of_reverse.
Qed.

(** An attempt that splits nothing shows that the class agrees. *)
Lemma unsplit_agree env C label i a rest b ec ls :
  classes env C → C !! i = Some (a :: rest) → check_state stale f env label a = Some (b, ec, ls) →
  split_states env label (ec, ls) rest = [] →
  agree_on C (a :: rest) label ∧ (b = true → ∀ c, bs_get ls c = true → agree_on C (a :: rest) c).
Proof.
  intros Hcl Hi Ea Hnil. assert (∀ x, x ∈ a :: rest → live f x) as Hlive by (intros x; by eapply class_live; [apply Hcl|]).
  assert (∀ x, x ∈ a :: rest → matches stale f label env (ec, ls) x = true) as Hm.
  { intros x [->|Hx]%elem_of_cons; [apply matches_check; eauto|]. destruct (matches stale f label env (ec, ls) x) eqn:Ex; [done|exfalso].
    apply (not_elem_of_nil x). rewrite <-Hnil. apply list_elem_of_filter. by rewrite Ex. }
  assert (∀ s t, s ∈ a :: rest → t ∈ a :: rest → agree C label s t ∧ (b = true → ∀ c, bs_get ls c = true → agree C c s t)) as Hag.
  { intros s t Hs Ht. destruct (proj1 (matches_check _ _ _ _ _) (Hm s Hs)) as [b' Es].
    destruct (matches_agree env C label s t b' ec ls Hcl (Hlive s Hs) (Hlive t Ht) Es (Hm t Ht)) as [G1 G2]. split; [done|].
    intros ->. apply G2. destruct (check_state_spec env C label a Hcl (Hlive a ltac:(left))) as (x & y & z & E & Sx). rewrite Ea in E. injection E as <- <- <-.
    destruct Sx as (i' & l' & u' & Hi' & -> & _). destruct (check_state_spec env C label s Hcl (Hlive s Hs)) as (x & y & z & E & Sy). rewrite Es in E. injection E as <- <- <-.
    destruct b'; [done|]. destruct Sy as [E _]. by apply (NO_ID_class env C i' l' Hcl) in Hi'. }
  split; [intros s t Hs Ht; exact (proj1 (Hag s t Hs Ht))|]. intros Hb c Hc s t Hs Ht. exact (proj2 (Hag s t Hs Ht) Hb c Hc).
Qed.

(** One label. *)
Lemma partition_step cnt env C i l label checked :
  classes env C → i < done_ec_offset env → C !! i = Some l → words_ok 4 checked →
  ∃ split env1 pc checked1, try_partition stale f (step_env env) label i (ec_count env) checked = Some (split, env1, pc, checked1) ∧ words_ok 4 checked1 ∧
    if split : bool then
      ∃ restart env2 C1 l1, update_after_partition cnt env1 pc i (ec_count env) = Some (restart, env2) ∧
        classes (with_counts env2 (ec_count env2 + 1) (done_ec_offset env2)) C1 ∧ refined C C1 ∧ length C1 = S (length C) ∧
        (restart = false → i < done_ec_offset env2 ∧ C1 !! i = Some l1)
    else
      classes env1 C ∧ done_ec_offset env1 = done_ec_offset env ∧ agree_on C l label ∧
      ∀ c, bs_get checked1 c = true → bs_get checked c = true ∨ agree_on C l c.
Proof.
  intros Hcl Hid Hi Hch. assert (classes (step_env env) C) as Hcl0 by (destruct Hcl as [K1 K2 K3 K4 K5 K6]; split; try done; by destruct K1).
  destruct (li_class _ _ _ (cl_lists _ _ Hcl) i l Hi) as (h & a & rest & -> & _). rewrite (cl_count _ _ Hcl).
  destruct (try_partition_spec (step_env env) C label i a rest checked Hcl0 Hi) as (b & ec & ls & env1 & Ea & E & T1 & T2 & T3 & T4).
  set (kept := kept_states _ _ _ _) in *. set (split := split_states _ _ _ _) in *.
  assert (live f a) as Ha by (eapply class_live; [apply Hcl|exact Hi|left]).
  assert (words_ok 4 (if b then words_or checked ls else checked)) as Hw.
  { destruct b; [|done]. apply words_ok_or; [done|]. by eapply check_words. }
  exists (0 <? length split), env1, (S (length kept), length split), (if b then words_or checked ls else checked). split; [done|]. split; [done|].
  destruct (Nat.ltb_spec 0 (length split)) as [Hpos|Hz].
  - apply lookup_lt_Some in Hi as Hilt. set (C1 := <[i := a :: kept]> C) in *.
    assert (length C1 = length C) as EC1 by (unfold C1; apply length_insert).
    assert (C1 !! i = Some (a :: kept)) as Hi1 by (by apply list_lookup_insert_eq).
    assert (∀ x, x ∈ a :: kept → x ∈ a :: rest) as Hsub.
    { intros x [->|Hx]%elem_of_cons; [by left|right]. by apply list_elem_of_filter in Hx as [_ ?]. }
    destruct (update_after_partition_spec cnt env1 C1 i (a :: kept) (reverse split)) as (restart & env2 & C2 & E2 & P2 & Hcl2 & R1 & R2).
    + done.
    + intros k lk s Hk Hlk Hs. rewrite T1. apply lookup_app_Some in Hlk as [Hlk|[Hge Hlk]].
      2:{ destruct (k - length C1) eqn:Ek; [|done]. set_solver by lia. }
      destruct (decide (k = i)) as [->|Hne].
      * rewrite Hi1 in Hlk. injection Hlk as <-. apply (cl_numbered _ _ Hcl i (a :: rest)); [set_solver|done|by apply Hsub].
      * unfold C1 in Hlk. rewrite list_lookup_insert_ne in Hlk by done. apply (cl_numbered _ _ Hcl k lk); [set_solver|done|done].
    + rewrite T1. apply Hcl.
    + rewrite T2, EC1. apply Hcl.
    + done.
    + by rewrite T3.
    + rewrite T3, EC1. apply Hcl.
    + intros Hnil. apply (f_equal length) in Hnil. rewrite length_reverse in Hnil. cbn in Hnil. lia.
    + intros k lk Hk. unfold C1. rewrite list_lookup_insert_ne by done. rewrite T3. apply Hcl.
    + cbn [length] in E2. rewrite length_reverse, EC1 in E2. exists restart, env2, C2, (a :: kept). split; [done|]. split; [done|].
      split; [|split; [rewrite (Permutation_length P2), length_app, EC1; cbn; lia|auto]].
      eapply refined_perm; [symmetry; exact P2|]. by apply split_refined with b.
  - assert (split = []) as Es by (destruct split; [done|cbn in Hz; lia]). destruct (unsplit_agree _ _ _ _ _ _ _ _ _ Hcl0 Hi Ea Es) as [G1 G2].
    split; [|split; [done|split; [done|]]].
    + destruct Hcl0 as [K1 K2 K3 K4 K5 K6]. cbn in *. split; [done|by intros j lj s; rewrite T1; apply K2|by rewrite T1|congruence|intros; rewrite T3; eauto|by rewrite T3].
    + intros c. destruct b; [|auto]. assert (words_ok 4 ls) as Hls by (by eapply check_words).
      rewrite bs_get_or, orb_true_iff by (by rewrite (proj1 Hch), (proj1 Hls)). intros [?|?]; auto.
Qed.

(** ** The loops *)

(** What a part of the main loop does to the classes and to the flag that says
    whether there was a change. *)
Definition progress (C C' : list (list N)) (changed changed' : bool) : Prop :=
  rtc refined C C' ∧ length C ≤ length C' ∧ (changed' = true ↔ changed = true ∨ length C < length C') ∧ (changed' = false → C' = C).

Lemma progress_refl C changed : progress C C changed changed.
Proof. split; [done|]. split; [done|]. split; [|done]. split; [auto|]. intros [?|?]; [done|lia]. Qed.

Lemma progress_trans C C1 C2 b b1 b2 : progress C C1 b b1 → progress C1 C2 b1 b2 → progress C C2 b b2.
Proof.
  intros (H1 & H2 & H3 & H4) (K1 & K2 & K3 & K4). split; [by etrans|]. split; [lia|]. split.
  - rewrite K3, H3. split; [intros [[?|?]|?]|intros [?|?]]; auto; try (right; lia).
    destruct (decide (length C < length C1)); [auto|right; lia].
  - intros ->. assert (b1 = false) as -> by (destruct b1; [|done]; discriminate (proj2 K3 (or_introl eq_refl))). by rewrite K4, H4.
Qed.

Lemma progress_split C C1 C2 b : refined C C1 → length C < length C1 → progress C1 C2 true true → progress C C2 b true.
Proof.
  intros Hr Hl (H1 & H2 & H3 & H4). split; [by eapply rtc_l|]. split; [lia|]. split; [|done]. split; [right; lia|done].
Qed.

Lemma label_loop_spec cnt i labels : ∀ env C l checked changed,
  classes env C → i < done_ec_offset env → C !! i = Some l → words_ok 4 checked →
  (∀ c, bs_get checked c = true → changed = true ∨ agree_on C l c) →
  ∃ restart changed' env' C', label_loop stale f cnt i labels checked changed env = Some (restart, changed', env') ∧
    classes env' C' ∧ progress C C' changed changed' ∧ (restart = true → length C < length C') ∧
    (changed' = false → ∀ c, c ∈ labels → agree_on C l c).
Proof.
  induction labels as [|label labels IH]; intros env C l checked changed Hcl Hid Hi Hw Hch; cbn [label_loop].
  { exists false, changed, env, C. split; [done|]. split; [done|]. split; [apply progress_refl|]. split; [done|]. intros _ c Hc. by apply elem_of_nil in Hc. }
  destruct (negb (u64bitset_get checked label =? 0)%N) eqn:Eb.
  { destruct (IH env C l checked changed Hcl Hid Hi Hw Hch) as (r & c' & env' & C' & E & H1 & H2 & H3 & H4). exists r, c', env', C'. do 4 (split; [done|]).
    intros -> c [->|Hc]%elem_of_cons; [|by apply H4]. destruct (Hch label Eb) as [->|?]; [|done].
    destruct H2 as (_ & _ & H2 & _). discriminate (proj2 H2 (or_introl eq_refl)). }
  destruct (partition_step cnt env C i l label checked Hcl Hid Hi Hw) as (split & env1 & pc & checked1 & -> & Hw1 & Hs). cbn [mbind option_bind].
  destruct split.
  - destruct Hs as (restart & env2 & C1 & l1 & -> & Hcl1 & Hr & Hlen & Hnr). cbn [mbind option_bind].
    set (env3 := with_counts env2 (ec_count env2 + 1) (done_ec_offset env2)) in *.
    rewrite (proj2 (Nat.ltb_ge (ec_count env3) (done_ec_offset env3))).
    2:{ rewrite (cl_count _ _ Hcl1). apply Hcl1. }
    destruct restart.
    + exists true, true, env3, C1. split; [done|]. split; [done|]. split; [|split; [lia|done]]. eapply progress_split; [done|lia|apply progress_refl].
    + destruct (Hnr eq_refl) as [Hid1 Hi1]. destruct (IH env3 C1 l1 checked1 true Hcl1 Hid1 Hi1 Hw1) as (r & c' & env' & C' & E & H1 & H2 & H3 & H4); [auto|].
      assert (c' = true) as -> by (destruct H2 as (_ & _ & H2 & _); apply H2; by left).
      exists r, true, env', C'. split; [done|]. split; [done|]. split; [|split; [intros ?%H3; lia|done]]. eapply progress_split; [done|lia|done].
  - destruct Hs as (Hcl1 & Hd1 & Hag & Hch1). destruct (IH env1 C l checked1 changed Hcl1) as (r & c' & env' & C' & E & H1 & H2 & H3 & H4); [by rewrite Hd1|done|done| |].
    { intros c [Hc|Hc]%Hch1; [by apply Hch|auto]. }
    exists r, c', env', C'. do 4 (split; [done|]). intros -> c [->|Hc]%elem_of_cons; [done|by apply H4].
Qed.

Context (dfa_labels : list nat) (Hlabels : ∀ s c t, f_edge f s c t → c ∈ dfa_labels).

(** The states of a class agree on all labels. *)
Definition stable (C : list (list N)) (i : nat) : Prop := ∀ l c, C !! i = Some l → agree_on C l c.

Lemma agree_refl env C c s : classes env C → live f s → agree C c s s.
Proof.
  intros Hcl Hs. assert (∀ u, f_edge f s c u → same C u u) as Hr.
  { intros u Hu. destruct (live_class f env C u (cl_lists _ _ Hcl)) as (i & l & Hi & Hl); [by eapply f_edge_live|by eapply same_at]. }
  split; intros u Hu; exists u; auto.
Qed.

Lemma agree_outside C l (labels : list nat) c :
  (∀ s t, s ∈ l → f_edge f s c t → c ∈ labels) → (∀ c, c ∈ labels → agree_on C l c) → agree_on C l c.
Proof.
  intros Hcov Hag s t Hs Ht. destruct (decide (c ∈ labels)) as [Hc|Hc]; [by apply Hag|].
  split; intros u Hu; exfalso; apply Hc; [by apply (Hcov s u)|by apply (Hcov t u)].
Qed.

Lemma init_label_iterator_spec env C i l gather :
  classes env C → C !! i = Some l →
  ∃ labels, init_label_iterator f dfa_labels env i gather = Some labels ∧ ∀ c s t, s ∈ l → f_edge f s c t → c ∈ labels.
Proof.
  intros Hcl Hi. unfold init_label_iterator. destruct gather; [|exists dfa_labels; split; [done|]; intros c s t _; apply Hlabels].
  destruct (holds_head f small env C i l (cl_lists _ _ Hcl) Hi) as (h & s & l' & El & E & Hne & _). rewrite E. cbn [mbind option_bind].
  rewrite (proj2 (N.eqb_neq _ _) Hne), (ec_states_spec f small env C i l (cl_lists _ _ Hcl) Hi). cbn [mbind option_bind].
  eexists. split; [done|]. intros c u t Hu He. pose proof (f_edge_label u c t He). apply ec_labels_loop_complete; [lia|lia|done|].
  apply (gather_states_spec l (replicate 4 0%N)); [|apply words_ok_zero|right; eauto].
  apply Forall_forall. intros x. by eapply class_live; [apply Hcl|].
Qed.

Lemma refine_ec_spec fuel : ∀ i changed env C,
  classes env C → i < length C → n < fuel + length C →
  ∃ changed' env' C', refine_ec stale f fuel dfa_labels i changed env = Some (changed', env') ∧
    classes env' C' ∧ progress C C' changed changed' ∧ (changed' = false → stable C i).
Proof.
  induction fuel as [|fuel IH]; intros i changed env C Hcl [l Hi]%lookup_lt_is_Some_2 Hf.
  { pose proof (class_count f env C (cl_lists _ _ Hcl)). lia. }
  cbn [refine_ec]. destruct (holds_head f small env C i l (cl_lists _ _ Hcl) Hi) as (h & s & l' & El & E & Hne & Em & Hk & _). rewrite E.
  cbn [mbind option_bind]. rewrite (proj2 (N.eqb_neq _ _) Hne), Em. rewrite El in Hk. cbn [linked] in Hk. destruct Hk as (_ & Hs & next & Hj & Hk).
  rewrite Hj. cbn [mbind option_bind]. destruct (N.eqb_spec next NO_ID) as [En|En].
  - apply linked_nil_inv in Hk. exists changed, env, C. split; [done|]. split; [done|]. split; [apply progress_refl|]. intros _ l0 c Hi0 x y Hx Hy.
    rewrite Hi in Hi0. injection Hi0 as <-. rewrite El, (proj1 Hk En) in Hx, Hy. apply list_elem_of_singleton in Hx, Hy. subst x y.
    eapply agree_refl; [done|]. eapply class_live; [apply Hcl|exact Hi|]. rewrite El. by left.
  - destruct (init_label_iterator_spec env C i l (negb (N.land h SMALL_EC_FLAG =? 0)%N) Hcl Hi) as (labels & -> & Hcov). cbn [mbind option_bind].
    destruct (label_loop_spec (length dfa_labels) i labels env C l (replicate 4 0%N) changed Hcl) as (r & c1 & e1 & C1 & -> & H1 & H2 & H3 & H4).
    { apply (cl_done _ _ Hcl i l Hi). rewrite El. destruct l'; [by apply linked_nil_inv in Hk; destruct En; apply Hk|cbn; lia]. }
    { done. } { apply words_ok_zero. } { intros c. by rewrite bs_get_zero. }
    cbn [mbind option_bind]. destruct r.
    + specialize (H3 eq_refl). destruct (IH i c1 e1 C1 H1) as (c2 & e2 & C2 & E2 & K1 & K2 & K3); [apply lookup_lt_Some in Hi; lia|lia|].
      exists c2, e2, C2. split; [done|]. split; [done|]. split; [by eapply progress_trans|]. intros ->. destruct H2 as (_ & _ & H2 & _), K2 as (_ & _ & K2 & _).
      discriminate (proj2 K2 (or_introl (proj2 H2 (or_intror H3)))).
    + exists c1, e1, C1. split; [done|]. split; [done|]. split; [done|]. intros Hc l0 c Hi0. rewrite Hi in Hi0. injection Hi0 as <-.
      apply (agree_outside C l labels); [intros u t; apply Hcov|by apply H4].
Qed.

Lemma refine_pass_spec fuel : ∀ i changed env C,
  classes env C → n < fuel + i →
  ∃ changed' env' C', refine_pass stale f fuel dfa_labels i changed env = Some (changed', env') ∧
    classes env' C' ∧ progress C C' changed changed' ∧ (changed' = false → ∀ k, i ≤ k → stable C k).
Proof.
  induction fuel as [|fuel IH]; intros i changed env C Hcl Hf; pose proof (class_count f env C (cl_lists _ _ Hcl)); pose proof (cl_done_le _ _ Hcl).
  all: cbn [refine_pass]; destruct (Nat.ltb_spec i (done_ec_offset env)) as [Hid|Hid]; try lia.
  1, 3: exists changed, env, C; do 2 (split; [done|]); split; [apply progress_refl|]; intros _ k Hik l c Hk x y Hx Hy;
    assert (length l ≤ 1) as Hl1 by (pose proof (proj2 (cl_done _ _ Hcl k l Hk)); lia);
    assert (x = y) as -> by (destruct l as [|? [|]]; cbn in Hl1; [by apply elem_of_nil in Hx|set_solver|lia]);
    eapply agree_refl; [done|]; by eapply class_live; [apply Hcl|..].
  destruct (refine_ec_spec (n + 1) i changed env C Hcl) as (c1 & e1 & C1 & -> & H1 & H2 & H3); [lia|lia|]. cbn [mbind option_bind].
  destruct (IH (i + 1) c1 e1 C1 H1) as (c2 & e2 & C2 & E2 & K1 & K2 & K3); [lia|].
  exists c2, e2, C2. split; [done|]. split; [done|]. split; [by eapply progress_trans|]. intros ->.
  assert (c1 = false) as -> by (destruct K2 as (_ & _ & K2 & _); destruct c1; [discriminate (proj2 K2 (or_introl eq_refl))|done]).
  intros k Hk. destruct (decide (k = i)) as [->|]; [by apply H3|]. destruct H2 as (_ & _ & _ & H2). rewrite <-H2 by done. apply K3; [done|lia].
Qed.

Lemma refine_loop_spec fuel : ∀ env C,
  classes env C → n < fuel + length C →
  ∃ env' C', refine_loop stale f fuel dfa_labels env = Some env' ∧ classes env' C' ∧ rtc refined C C' ∧ ∀ k, stable C' k.
Proof.
  induction fuel as [|fuel IH]; intros env C Hcl Hf; [pose proof (class_count f env C (cl_lists _ _ Hcl)); lia|]. cbn [refine_loop].
  destruct (refine_pass_spec (n + 1) 0 false env C Hcl) as (c1 & e1 & C1 & -> & H1 & (P1 & P2 & P3 & P4) & H3); [lia|]. cbn [mbind option_bind]. destruct c1.
  - destruct (proj1 P3 eq_refl) as [?|Hlt]; [done|]. destruct (IH e1 C1 H1) as (e2 & C2 & E2 & K1 & K2 & K3); [lia|].
    exists e2, C2. split; [done|]. split; [done|]. split; [by etrans|done].
  - exists e1, C1. split; [done|]. split; [done|]. split; [done|]. rewrite (P4 eq_refl). intros k. apply H3; [done|lia].
Qed.
End Refine.
