(* ===== verification/MinInit.v ===== *)
(** * Minimisation: the initial classes

    [populate_initial_ecs] puts states together that are at the same distance
    from an end state. *)

From S2P Require Import Prelude StateSet Bits EdgeSet EdgeIter EdgeCompact Probe Endids EagerOutput Lang Fsm FsmSpec FsmCompact Search Trim Pv Minimise MinClasses MinRefine.

(** ** Counting distances *)

Lemma grow_ceil_spec fuel sed : ∀ nceil, sed < nceil * 2 ^ fuel → sed < grow_ceil fuel sed nceil ∧ nceil ≤ grow_ceil fuel sed nceil.
Proof.
  induction fuel as [|fuel IH]; intros nceil Hs; cbn [grow_ceil]; [cbn in Hs; lia|].
  destruct (Nat.leb_spec nceil sed); [|lia]. rewrite Nat.pow_succ_r' in Hs. destruct (IH (nceil * 2)); [nia|]. lia.
Qed.

Lemma count_eq_none l v : (∀ x, x ∈ l → x ≠ v) → count_eq l v = 0.
Proof.
  intros Hl. unfold count_eq. induction l as [|x l IH]; [done|]. rewrite filter_cons, decide_False by (apply Hl; by left). apply IH. set_solver.
Qed.

Section Count.
Context `{allocator, !alloc_total} (al : fsm_alloc).

(** The counters after the distances [ds]. *)
Record counted (ds counts : list nat) (sed_max count_max : nat) : Prop := {
  co_count d c : counts !! d = Some c → c = count_eq ds d ∧ c ≤ count_max;
  co_max d : d ∈ ds → d ≤ sed_max;
  co_in : sed_max = 0 ∨ sed_max ∈ ds;
  co_len : sed_max < length counts;
}.

Lemma count_distances_spec l : ∀ ds counts sm cm,
  Forall (λ d, (N.of_nat d < NO_END_DISTANCE)%N) l → counted ds counts sm cm →
  ∃ counts' sm' cm', count_distances al (N.of_nat <$> l) counts sm cm = Some (Some (counts', sm', cm')) ∧ counted (ds ++ l) counts' sm' cm'.
Proof.
  induction l as [|d l IH]; intros ds counts sm cm Hl Hc.
  { exists counts, sm, cm. by rewrite app_nil_r. }
  apply Forall_cons in Hl as [Hd Hl]. cbn [fmap list_fmap count_distances]. rewrite (proj2 (N.eqb_neq (N.of_nat d) NO_END_DISTANCE)) by lia.
  rewrite Nat2N.id. destruct Hc as [C1 C2 C3 C4].
  set (nceil := if length counts <=? d then grow_ceil d d (2 * length counts) else length counts).
  assert (d < nceil ∧ length counts ≤ nceil) as [Hn1 Hn2].
  { unfold nceil. destruct (Nat.leb_spec (length counts) d); [|lia]. destruct (grow_ceil_spec d d (2 * length counts)); [|lia].
    pose proof (Nat.pow_gt_lin_r 2 d ltac:(lia)). nia. }
  rewrite f_realloc_total, andb_false_r. set (counts1 := counts ++ replicate (nceil - length counts) 0).
  assert (length counts1 = nceil) as L1 by (unfold counts1; rewrite length_app, length_replicate; lia).
  assert (∀ k c, counts1 !! k = Some c → c = count_eq ds k ∧ c ≤ cm) as C1'.
  { intros k c [Hk|[Hge Hk]]%lookup_app_Some; [by apply C1|]. apply lookup_replicate in Hk as [-> _]. split; [|lia].
    symmetry. apply count_eq_none. intros x Hx%C2. lia. }
  destruct (lookup_lt_is_Some_2 counts1 d ltac:(lia)) as [c Ec]. rewrite Ec. cbn [mbind option_bind]. destruct (C1' d c Ec) as [-> Hcm].
  rewrite (cons_middle d ds l). rewrite (assoc_L (++)). apply IH; [done|]. split.
  - intros k ck. rewrite count_eq_app, count_eq_one. destruct (decide (d = k)) as [<-|Hne].
    + rewrite list_lookup_insert_eq by lia. intros [= <-]. split; [done|]. destruct (Nat.ltb_spec cm (count_eq ds d + 1)); lia.
    + rewrite list_lookup_insert_ne by done. intros [-> ?]%C1'. split; [lia|]. destruct (Nat.ltb_spec cm (count_eq ds d + 1)); lia.
  - intros x [Hx%C2| ->%list_elem_of_singleton]%elem_of_app; destruct (Nat.ltb_spec sm d); lia.
  - destruct (Nat.ltb_spec sm d); [set_solver|]. destruct C3; [by left|set_solver].
  - rewrite length_insert. destruct (Nat.ltb_spec sm d); lia.
Qed.
End Count.

(** ** Assigning states *)

(** The states of [l] by a number, each list in reverse. *)
Definition class_by (g : N → nat) (l : list N) (e : nat) : list N := reverse (filter (λ s, g s = e) l).

Lemma class_by_snoc g l s e : class_by g (l ++ [s]) e = if decide (g s = e) then s :: class_by g l e else class_by g l e.
Proof.
  unfold class_by. rewrite filter_app, filter_cons, filter_nil. case_decide; [by rewrite reverse_app|by rewrite app_nil_r].
Qed.

Lemma elem_of_class_by g l s e : s ∈ class_by g l e ↔ s ∈ l ∧ g s = e.
Proof. unfold class_by. rewrite elem_of_reverse, list_elem_of_filter. naive_solver. Qed.

Lemma concat_class_by g L l : (∀ s, s ∈ l → g s < L) → concat (class_by g l <$> seq 0 L) ≡ₚ l.
Proof.
  induction l as [|s l IH] using rev_ind; intros Hb.
  - clear. induction (seq 0 L) as [|e es IH]; [done|]. cbn. by rewrite IH.
  - assert (g s < L) as Hs by (apply Hb; set_solver). set (C := class_by g l <$> seq 0 L) in *.
    assert (C !! g s = Some (class_by g l (g s))) as Hl by (unfold C; by rewrite list_lookup_fmap, lookup_seq_lt).
    assert (class_by g (l ++ [s]) <$> seq 0 L = <[g s := s :: class_by g l (g s)]> C) as ->.
    { apply list_eq. intros e. rewrite list_lookup_fmap. destruct (decide (e < L)) as [He|He].
      - rewrite lookup_seq_lt by done. cbn. rewrite class_by_snoc. case_decide as E.
        + subst e. rewrite list_lookup_insert_eq; [done|]. by apply lookup_lt_Some in Hl.
        + rewrite list_lookup_insert_ne by done. unfold C. by rewrite list_lookup_fmap, lookup_seq_lt.
      - rewrite lookup_seq_ge by lia. symmetry. apply lookup_ge_None. rewrite length_insert. unfold C. rewrite length_fmap, length_seq. lia. }
    rewrite concat_insert by (by apply lookup_lt_Some in Hl). cbn [app]. rewrite <-(concat_split C (g s) _ Hl), IH by set_solver.
    by rewrite <-Permutation_cons_append.
Qed.

Section Assign.
Context (f : fsm) (D : N → nat) (sed : list N) (ranking : list nat) (L : nat).
Abbreviation n := (f_statecount f).
Context (HD : ∀ s, live f s → sed !! N.to_nat s = Some (N.of_nat (D s))).
Context (Hrank : ∀ s, live f s → ∃ r, ranking !! D s = Some r ∧ r < L).

(** The number of the class of a state. *)
Definition number (s : N) : nat := ranking !!! D s.

Record assigned (m : nat) (env : min_env) : Prop := {
  as_state_ecs : length (state_ecs env) = S n;
  as_ecs : length (ecs env) = S n;
  as_jump : length (jump env) = S n;
  as_class e : e < L → ∃ h, ecs env !! e = Some h ∧ linked (jump env) h (class_by number (N.of_nat <$> seq 0 m) e) NO_ID;
  as_number s : N.to_nat s < m → state_ecs env !! N.to_nat s = Some (N.of_nat (number s));
}.

Lemma assign_states_spec (Hn : (N.of_nat n < NO_ID)%N) m : ∀ env0,
  m ≤ n → assigned 0 env0 →
  ∃ env, foldl (assign_state sed ranking) (Some env0) (seq 0 m) = Some env ∧ assigned m env ∧
    steps env = steps env0.
Proof.
  induction m as [|m IH]; intros env0 Hm H0; [by exists env0|]. destruct (IH env0) as (env & E & [A1 A2 A3 A4 A5] & Es); [lia|done|].
  rewrite seq_S, foldl_app, E. cbn [foldl Nat.add]. set (s := N.of_nat m). assert (live f s) as Hs by (unfold live, s; lia).
  unfold assign_state. cbn [mbind option_bind]. replace (sed !! m) with (Some (N.of_nat (D s))) by (rewrite <-HD by done; unfold s; by rewrite Nat2N.id).
  cbn [mbind option_bind]. rewrite Nat2N.id. destruct (Hrank s Hs) as (r & Hr & HrL). rewrite Hr. cbn [mbind option_bind].
  assert (number s = r) as Enum by (unfold number; by apply list_lookup_total_correct).
  destruct (A4 r HrL) as (h & Hh & Hk). rewrite Hh. cbn [mbind option_bind]. rewrite !arr_set_Some by lia. cbn [mbind option_bind].
  eexists. split; [done|]. split; [|done]. split; cbn [state_ecs ecs jump]; rewrite ?length_insert; try done.
  - intros e He. rewrite seq_S, fmap_app. cbn [fmap list_fmap Nat.add]. rewrite class_by_snoc. fold s. rewrite Enum.
    assert (∀ e, s ∉ class_by number (N.of_nat <$> seq 0 m) e) as Hnin.
    { intros e' [(i & Ei & Hi%elem_of_seq)%list_elem_of_fmap _]%elem_of_class_by. unfold s in Ei. lia. }
    destruct (decide (r = e)) as [<-|Hne].
    + exists s. split; [apply list_lookup_insert_eq; by apply lookup_lt_Some in Hh|]. replace m with (N.to_nat s) at 1 by (unfold s; lia).
      apply linked_cons; [done|unfold s, NO_ID in *; lia|unfold s; lia|done].
    + destruct (A4 e He) as (h' & Hh' & Hk'). exists h'. split; [by rewrite list_lookup_insert_ne|].
      replace m with (N.to_nat s) at 1 by (unfold s; lia). by apply linked_insert.
  - intros t Ht. destruct (decide (N.to_nat t = m)) as [Et|Hne].
    + rewrite Et, list_lookup_insert_eq by lia. replace t with s by (unfold s; lia). by rewrite Enum.
    + rewrite list_lookup_insert_ne by lia. apply A5. lia.
Qed.
End Assign.

(** ** Ranking *)

(** The classes are numbered from the greatest rank down. *)
Lemma ranking_spec (r : list nat) m :
  r ≡ₚ seq 0 (S m) → let ranking := (λ x, m - x) <$> r in
  length ranking = S m ∧ (∀ d x, ranking !! d = Some x → x < S m) ∧
  (∀ d d' x, ranking !! d = Some x → ranking !! d' = Some x → d = d') ∧ ∀ x, x < S m → ∃ d, ranking !! d = Some x.
Proof.
  intros Hp ranking. assert (∀ x, x ∈ r ↔ x < S m) as Hin by (intros x; rewrite Hp, elem_of_seq; lia).
  assert (NoDup r) as Hnd by (rewrite Hp; apply NoDup_seq). unfold ranking. split_and!.
  - by rewrite length_fmap, (Permutation_length Hp), length_seq.
  - intros d x. rewrite list_lookup_fmap, fmap_Some. intros (y & _ & ->). lia.
  - intros d d' x. rewrite !list_lookup_fmap, !fmap_Some. intros (y & Hy & ->) (y' & Hy' & E).
    pose proof (list_elem_of_lookup_2 _ _ _ Hy) as Ly%Hin. pose proof (list_elem_of_lookup_2 _ _ _ Hy') as Ly'%Hin.
    eapply NoDup_lookup; [done|done|]. by replace y with y' by lia.
  - intros x Hx. destruct (list_elem_of_lookup_1 r (m - x)) as [d Hd]; [apply Hin; lia|]. exists d. rewrite list_lookup_fmap, Hd. cbn. f_equal. lia.
Qed.

Lemma clear_ecs_spec L : ∀ e : list N,
  L ≤ length e →
  ∃ e', foldl (λ acc i, e ← acc; arr_set e i NO_ID) (Some e) (seq 0 L) = Some e' ∧ length e' = length e ∧ ∀ i, i < L → e' !! i = Some NO_ID.
Proof.
  induction L as [|L IH]; intros e Hl; [exists e; split; [done|]; split; [done|]; lia|]. destruct (IH e ltac:(lia)) as (e1 & E & El & H1).
  rewrite seq_S, foldl_app, E. cbn [foldl mbind option_bind Nat.add]. rewrite arr_set_Some by lia. eexists. split; [done|]. split; [by rewrite length_insert|].
  intros i Hi. destruct (decide (i = L)) as [->|]; [apply list_lookup_insert_eq; lia|]. rewrite list_lookup_insert_ne by done. apply H1. lia.
Qed.

(** ** The first classes *)

(** What [populate_initial_ecs] and the loop of [split_ecs_by_end_metadata]
    establish: all classes before [done_ec_offset] have several states. *)
Record prepared (f : fsm) (env : min_env) (C : list (list N)) : Prop := {
  pr_lists : lists f env C;
  pr_numbered : numbered env C [];
  pr_dead : state_ecs env !! f_statecount f = Some NO_ID;
  pr_count : ec_count env = length C;
  pr_done : done_ec_offset env ≤ length C;
  pr_many i l : i < done_ec_offset env → C !! i = Some l → 2 ≤ length l;
}.

Section Populate.
Context `{allocator, !alloc_total} (f : fsm) (D : N → nat) (sed : list N).
Abbreviation n := (f_statecount f).
Context (HD : ∀ s, live f s → sed !! N.to_nat s = Some (N.of_nat (D s))).
Context (Hinh : ∀ s k, live f s → k ≤ D s → ∃ t, live f t ∧ D t = k).
Context (small : (N.of_nat n < 2147483648)%N) (Hpos : 0 < n).

Lemma distance_lt s : live f s → D s < n.
Proof.
  intros Hs. enough (S (D s) ≤ length (D <$> live_ids f)) as Hx by (unfold live_ids in Hx; rewrite !length_fmap, length_seq in Hx; lia).
  rewrite <-(length_seq (S (D s)) 0). apply submseteq_length, NoDup_submseteq; [apply NoDup_seq|]. intros k Hk%elem_of_seq.
  destruct (Hinh s k Hs ltac:(lia)) as (t & Ht & <-). apply list_elem_of_fmap_2. by apply elem_of_live_ids.
Qed.

Lemma take_sed : take n sed = N.of_nat <$> (D <$> live_ids f).
Proof.
  apply list_eq. intros i. unfold live_ids. destruct (decide (i < n)) as [Hi|Hi].
  - rewrite lookup_take_lt, !list_lookup_fmap, lookup_seq_lt by done. cbn. rewrite <-HD by (unfold live; lia). by rewrite Nat2N.id.
  - rewrite lookup_take_ge, !list_lookup_fmap, lookup_seq_ge by lia. done.
Qed.

Lemma first_small_spec env counts (C : list (list N)) m : ∀ i,
  i + m = length C → ec_count env = length C →
  (∀ e l, C !! e = Some l → ∃ h, ecs env !! e = Some h ∧ live f h ∧ counts !! D h = Some (length l)) →
  ∃ d, first_small (seq i m) env sed counts = Some d ∧ i ≤ d ∧ d ≤ length C ∧ ∀ e l, i ≤ e → e < d → C !! e = Some l → 2 ≤ length l.
Proof.
  induction m as [|m IH]; intros i Hi Hc Hcls; cbn [seq first_small].
  { exists (length C). rewrite Hc. split; [done|]. split; [lia|]. split; [done|]. intros; lia. }
  destruct (lookup_lt_is_Some_2 C i ltac:(lia)) as [l Hl]. destruct (Hcls i l Hl) as (h & -> & Hh & Hcnt). cbn [mbind option_bind].
  rewrite HD by done. cbn [mbind option_bind]. rewrite Nat2N.id, Hcnt. cbn [mbind option_bind]. destruct (Nat.ltb_spec (length l) 2) as [Hlt|Hge].
  - exists i. split; [done|]. split; [lia|]. split; [lia|]. intros; lia.
  - destruct (IH (S i)) as (d & E & K1 & K2 & K3); [lia|done|done|]. exists d. split; [done|]. split; [lia|]. split; [lia|].
    intros e le He Hed Hle. destruct (decide (e = i)) as [->|]; [|apply (K3 e); [lia|lia|done]]. rewrite Hl in Hle. by injection Hle as <-.
Qed.

(** The classes by a numbering of the distances. *)
Lemma assigned_lists ranking m env :
  (∀ d x, ranking !! d = Some x → x < S m) → (∀ d d' x, ranking !! d = Some x → ranking !! d' = Some x → d = d') →
  (∀ x, x < S m → ∃ d, ranking !! d = Some x) → length ranking = S m →
  (∀ s, live f s → D s ≤ m) → (∃ s, live f s ∧ D s = m) → assigned f D ranking (S m) n env →
  let C := class_by (number D ranking) (live_ids f) <$> seq 0 (S m) in
  lists f env C ∧ numbered env C [] ∧ (∀ s t, same C s t ↔ live f s ∧ live f t ∧ D s = D t) ∧
  ∀ e l, C !! e = Some l → ∃ h, ecs env !! e = Some h ∧ live f h ∧ length l = count_eq (D <$> live_ids f) (D h).
Proof.
  intros Hlt Hinj Hsurj Hlen Hle (smax & Hsm & Em) [A1 A2 A3 A4 A5] C.
  assert (∀ s, live f s → ranking !! D s = Some (number D ranking s)) as Hnum.
  { intros s Hs. unfold number. apply list_lookup_lookup_total_lt. pose proof (Hle s Hs). lia. }
  assert (∀ s t, live f s → live f t → number D ranking s = number D ranking t ↔ D s = D t) as Hsame.
  { intros s t Hs Ht. split; [|unfold number; by intros ->]. intros E. apply (Hinj _ _ (number D ranking s)); [by apply Hnum|]. rewrite E. by apply Hnum. }
  assert (∀ e l, C !! e = Some l → e < S m ∧ l = class_by (number D ranking) (live_ids f) e) as HC.
  { intros e l. unfold C. rewrite list_lookup_fmap, fmap_Some. intros (x & [-> ?]%lookup_seq & ->). done. }
  assert (∀ e, e < S m → ∃ s, live f s ∧ number D ranking s = e) as Hne.
  { intros e He. destruct (Hsurj e He) as [d Hd]. destruct (Hinh smax d Hsm) as (s & Hs & Es).
    { apply lookup_lt_Some in Hd. lia. }
    exists s. split; [done|]. pose proof (Hnum s Hs) as Hx. rewrite Es, Hd in Hx. by injection Hx. }
  assert (∀ e l, C !! e = Some l → ∃ h l', l = h :: l' ∧ ecs env !! e = Some h ∧ linked (jump env) h l NO_ID ∧ live f h ∧ number D ranking h = e) as Hholds.
  { intros e l [He ->]%HC. destruct (A4 e He) as (h & Hh & Hk). fold (live_ids f) in Hk. destruct (Hne e He) as (s & Hs & Es).
    destruct (class_by (number D ranking) (live_ids f) e) as [|x l'] eqn:El.
    { exfalso. apply (not_elem_of_nil s). rewrite <-El. apply elem_of_class_by. by rewrite elem_of_live_ids. }
    pose proof Hk as (-> & _). assert (x ∈ class_by (number D ranking) (live_ids f) e) as [Hx Ex]%elem_of_class_by by (rewrite El; by left).
    exists x, l'. split; [done|]. split; [done|]. split; [done|]. split; [by apply elem_of_live_ids|done]. }
  split_and!.
  - split; try done.
    + intros e l Hel. destruct (Hholds e l Hel) as (h & l' & -> & Hh & Hk & _). exists h, h, l'. auto.
    + apply concat_class_by. intros s Hs%elem_of_live_ids. by eapply Hlt, Hnum.
  - intros e l s _ [He ->]%HC [Hs <-]%elem_of_class_by. apply A5. by apply elem_of_live_ids.
  - intros s t. split.
    + intros (l & [e Hel]%list_elem_of_lookup & Hs & Ht). apply HC in Hel as [_ ->].
      apply elem_of_class_by in Hs as [Hs%elem_of_live_ids Es], Ht as [Ht%elem_of_live_ids Et]. do 2 (split; [done|]). apply Hsame; [done|done|congruence].
    + intros (Hs & Ht & E). exists (class_by (number D ranking) (live_ids f) (number D ranking s)). split.
      * apply list_elem_of_fmap_2, elem_of_seq. pose proof (Hlt _ _ (Hnum s Hs)). lia.
      * rewrite !elem_of_class_by, !elem_of_live_ids. split; [done|]. split; [done|]. symmetry. by apply Hsame.
  - intros e l Hel. destruct (Hholds e l Hel) as (h & l' & _ & Hh & _ & Hlh & Eh). exists h. do 2 (split; [done|]). apply HC in Hel as [_ ->].
    unfold class_by, count_eq. rewrite length_reverse, length_filter_fmap. apply length_filter_ext. intros s Hs%elem_of_live_ids. rewrite <-Eh. by apply Hsame.
Qed.

Lemma populate_initial_ecs_spec env0 :
  length (state_ecs env0) = S n → length (ecs env0) = S n → length (jump env0) = S n →
  ∃ env C, populate_initial_ecs f sed env0 = Some (true, env) ∧ prepared f env C ∧
    ∀ s t, same C s t ↔ live f s ∧ live f t ∧ D s = D t.
Proof.
  intros L1 L2 L3. unfold populate_initial_ecs. rewrite f_calloc_total. cbn [negb]. rewrite take_sed.
  destruct (count_distances_spec (f_alloc f) (D <$> live_ids f) [] (replicate DEF_INITIAL_COUNT_CEIL 0) 0 0) as (counts & m & cm & -> & [C1 C2 C3 C4]).
  { apply Forall_fmap, Forall_forall. intros s Hs%elem_of_live_ids. pose proof (distance_lt s Hs). unfold NO_END_DISTANCE. cbn. lia. }
  { split; [|set_solver|by left|cbn; lia]. intros d c [-> _]%lookup_replicate. done. }
  cbn [app mbind option_bind] in *. replace (m + 1) with (S m) by lia.
  assert (∀ s, live f s → D s ≤ m) as Hle by (intros s Hs; apply C2, list_elem_of_fmap_2; by apply elem_of_live_ids).
  assert (∃ s, live f s ∧ D s = m) as Hmax.
  { destruct C3 as [->|(s & -> & Hs%elem_of_live_ids)%list_elem_of_fmap]; [|eauto]. exists 0%N. assert (live f 0) as H0' by (unfold live; lia).
    split; [done|]. pose proof (Hle _ H0'). lia. }
  assert (S m ≤ n) as Hm by (destruct Hmax as (s & Hs & <-); apply distance_lt in Hs; lia).
  destruct (permutation_vector_perm (f_alloc f) cm (take (S m) counts)) as (pv & -> & Pv).
  { apply Forall_forall. intros c [d Hd]%list_elem_of_lookup. apply lookup_take_Some in Hd as [Hd _]. by apply (C1 d). }
  { rewrite length_take. lia. }
  cbn [mbind option_bind]. rewrite length_take_le in Pv by lia.
  destruct (permutation_vector_perm (f_alloc f) (S m) pv) as (r & -> & Pr).
  { rewrite Pv. apply Forall_forall. intros x Hx%elem_of_seq. lia. }
  { rewrite (Permutation_length Pv), length_seq. lia. }
  cbn [mbind option_bind]. rewrite (Permutation_length Pv), length_seq in Pr. destruct (ranking_spec r m Pr) as (R1 & R2 & R3 & R4).
  set (ranking := (λ x, m - x) <$> r) in *. destruct (clear_ecs_spec (S m) (ecs env0)) as (e & -> & Le & He); [lia|]. cbn [mbind option_bind].
  destruct (assign_states_spec f D sed ranking (S m) HD) with (m := n) (env0 := with_ecs env0 e) as (env & -> & Ha & _).
  { intros s Hs. destruct (lookup_lt_is_Some_2 ranking (D s)) as [x Hx]; [pose proof (Hle s Hs); lia|eauto]. }
  { unfold NO_ID. lia. } { done. }
  { split; cbn [state_ecs ecs jump with_ecs]; [done|lia|done| |lia]. intros k Hk. exists NO_ID. split; [by apply He|]. done. }
  cbn [mbind option_bind]. destruct (assigned_lists ranking m env R2 R3 R4 R1 Hle Hmax Ha) as (B1 & B2 & B3 & B4).
  set (C := class_by _ _ <$> _) in *. assert (length C = S m) as EC by (unfold C; by rewrite length_fmap, length_seq).
  destruct (first_small_spec (with_counts env (S m) (S m)) counts C (S m) 0) as (d & -> & _ & Hd & Hmany); [lia|done| |].
  { intros k l Hk. destruct (B4 k l Hk) as (h & Hh & Hlh & El). exists h. split; [done|]. split; [done|].
    destruct (lookup_lt_is_Some_2 counts (D h)) as [c Hc]; [pose proof (Hle h Hlh); lia|]. by rewrite Hc, El, (proj1 (C1 _ _ Hc)). }
  cbn [mbind option_bind state_ecs with_counts]. rewrite arr_set_Some by (rewrite (li_state_ecs _ _ _ B1); lia). cbn [mbind option_bind].
  eexists. exists C. split; [done|]. split; [|done]. split; cbn; try done.
  - destruct B1 as [K1 K2 K3 K4 K5]. split; cbn; rewrite ?length_insert; done.
  - intros i l s Hi Hl Hs. cbn. rewrite list_lookup_insert_ne; [by apply (B2 i l)|].
    pose proof (class_live f env C i l s B1 Hl Hs) as Hx. unfold live in Hx. lia.
  - apply list_lookup_insert_eq. rewrite (li_state_ecs _ _ _ B1). lia.
  - intros i l Hi. apply Hmany; lia.
Qed.
End Populate.
