(* ===== verification/MinSplit.v ===== *)
(** * Minimisation: splitting the classes by end metadata

    [split_ecs_by_end_metadata] leaves two states together exactly when they
    were together and have the same metadata, as far as it was collected. The
    hash table of representatives is a table of [Probe]. *)

From S2P Require Import Prelude StateSet Bits EdgeSet EdgeIter EdgeCompact Probe Endids EagerOutput Lang Fsm FsmSpec FsmCompact Search Trim Minimise MinClasses MinRefine MinInit.

(** ** Metadata *)

(** The end ids and the eager outputs of a state, sorted. *)
Definition metadata (f : fsm) (s : N) : list N * list N :=
  (endids (f_endid_info f) s, qsort_N (eager_outputs (f_eager_output_info f) s)).

Section Collect.
Context `{allocator, !alloc_total} (f : fsm).
Context (Hends : endid_weak (f_endid_info f)).

(** Reading does not depend on the number of buckets said to be used. *)
Lemma endid_weak_wf ei : endid_weak ei → endid_wf (mk_endid_info (ei_buckets ei) (length (entries (ei_buckets ei)))).
Proof. intros (K1 & K2 & K3 & K4). split_and!; cbn [ei_buckets ei_buckets_used]; try done. lia. Qed.

Lemma collect_end_ids_spec s : collect_end_ids f s = Some (Some (endids (f_endid_info f) s)).
Proof.
  unfold collect_end_ids. pose proof (endid_weak_wf _ Hends) as Hwf. set (ei := mk_endid_info _ _) in Hwf.
  change (fsm_endid_count (f_endid_info f) s) with (fsm_endid_count ei s). change (endids (f_endid_info f) s) with (endids ei s).
  rewrite (fsm_endid_count_spec ei s Hwf). cbn [mbind option_bind]. destruct (Nat.eqb_spec (length (endids ei s)) 0) as [E|E].
  { by apply nil_length_inv in E as ->. }
  rewrite f_malloc_total. cbn [negb]. change (fsm_endid_get (f_endid_info f) s) with (fsm_endid_get ei s). rewrite (fsm_endid_get_spec ei s _ Hwf).
  cbn [mbind option_bind]. by rewrite Nat.ltb_irrefl.
Qed.

Lemma collect_eager_output_ids_spec s : collect_eager_output_ids f s = Some (qsort_N (eager_outputs (f_eager_output_info f) s)).
Proof.
  unfold collect_eager_output_ids, fsm_eager_output_count. rewrite !eager_iter_state, iter_ids_inc. cbn [Nat.add].
  set (ids := eager_outputs _ s). destruct (Nat.eqb_spec (length ids) 0) as [E|E]; [by apply nil_length_inv in E as ->|].
  rewrite f_malloc_total. do 2 f_equal. assert (∀ acc, (iter_ids collect_cb s ids acc).2 = acc ++ ids) as Hi; [|apply Hi].
  clear. induction ids as [|id ids IH]; intros acc; cbn; [by rewrite app_nil_r|]. rewrite IH. by rewrite <-(assoc_L (++)).
Qed.

(** A state for which metadata is collected. *)
Definition has_metadata (s : N) : bool := fsm_isend f s || st_has_eager_outputs (get_state f s).

Lemma collect_metadata_spec l : ∀ md,
  (∀ s, s ∈ l → N.to_nat s < length md) → NoDup l →
  ∃ md', collect_metadata f l md = Some (true, md') ∧ length md' = length md ∧
    (∀ s, s ∉ l → md' !! N.to_nat s = md !! N.to_nat s) ∧
    ((∀ s, s ∈ l → has_metadata s = true) → ∀ s, s ∈ l → md' !! N.to_nat s = Some (metadata f s)) ∧
    ((∀ s, s ∈ l → has_metadata s = false) → md' = md).
Proof.
  induction l as [|s l IH]; intros md Hb Hnd; cbn [collect_metadata].
  { exists md. split_and!; try done. intros _ s Hs. by apply elem_of_nil in Hs. }
  apply NoDup_cons in Hnd as [Hs Hnd]. destruct (has_metadata s) eqn:Em; unfold has_metadata in Em.
  - replace (negb (fsm_isend f s) && negb (st_has_eager_outputs (get_state f s))) with false by (by rewrite <-negb_orb, Em).
    rewrite collect_end_ids_spec, collect_eager_output_ids_spec. cbn [mbind option_bind]. rewrite arr_set_Some by (apply Hb; by left). cbn [mbind option_bind].
    destruct (IH (<[N.to_nat s := metadata f s]> md)) as (md' & E & L & H1 & H2 & _); [intros t Ht; rewrite length_insert; apply Hb; by right|done|].
    exists md'. split; [done|]. split; [by rewrite L, length_insert|]. split_and!.
    + intros t [Hne Ht]%not_elem_of_cons. rewrite H1 by done. apply list_lookup_insert_ne. intros X%N2Nat.inj. by subst.
    + intros Hall t [->|Ht]%elem_of_cons; [|apply H2; [|done]; intros u Hu; apply Hall; by right].
      rewrite H1 by done. apply list_lookup_insert_eq, Hb. by left.
    + intros Hall. specialize (Hall s ltac:(by left)). unfold has_metadata in Hall. congruence.
  - replace (negb (fsm_isend f s) && negb (st_has_eager_outputs (get_state f s))) with true by (by rewrite <-negb_orb, Em).
    exists md. split_and!; try done. intros Hall. specialize (Hall s ltac:(by left)). unfold has_metadata in Hall. congruence.
Qed.

(** What is collected: all metadata of a class whose states all have some, and
    nothing for one whose states have none. *)
Definition collected (C : list (list N)) (md : list (list N * list N)) : Prop :=
  length md = f_statecount f ∧ ∀ i l, C !! i = Some l →
    ((∀ s, s ∈ l → has_metadata s = true) → ∀ s, s ∈ l → md !! N.to_nat s = Some (metadata f s)) ∧
    ((∀ s, s ∈ l → has_metadata s = false) → ∀ s, s ∈ l → md !! N.to_nat s = Some ([], [])).

Lemma collect_all_metadata_spec (small : (N.of_nat (f_statecount f) < 2147483648)%N) env C :
  lists f env C → ∃ md, collect_all_metadata f env (seq 0 (length C)) (replicate (f_statecount f) ([], [])) = Some (true, md) ∧ collected C md.
Proof.
  intros Hl. assert (∀ m i md, i + m = length C → length md = f_statecount f →
    (∀ k l s, i ≤ k → C !! k = Some l → s ∈ l → md !! N.to_nat s = Some ([], [])) →
    ∃ md', collect_all_metadata f env (seq i m) md = Some (true, md') ∧ length md' = f_statecount f ∧
      (∀ s, (∀ k l, i ≤ k → C !! k = Some l → s ∉ l) → md' !! N.to_nat s = md !! N.to_nat s) ∧
      ∀ k l, i ≤ k → C !! k = Some l →
        ((∀ s, s ∈ l → has_metadata s = true) → ∀ s, s ∈ l → md' !! N.to_nat s = Some (metadata f s)) ∧
        ((∀ s, s ∈ l → has_metadata s = false) → ∀ s, s ∈ l → md' !! N.to_nat s = Some ([], []))) as Hgen.
  { induction m as [|m IH]; intros i md Hi Hlen Hnil; cbn [seq collect_all_metadata].
    { exists md. split_and!; try done. intros k l Hk Hx%lookup_lt_Some. lia. }
    destruct (lookup_lt_is_Some_2 C i ltac:(lia)) as [l Hil]. rewrite (ec_states_spec f small env C i l Hl Hil). cbn [mbind option_bind].
    assert (∀ k l' s, i < k → C !! k = Some l' → s ∈ l' → s ∉ l) as Hdis.
    { intros k l' s Hk Hkl Hs Hs'. pose proof (class_unique f env C k i l' l s Hl Hkl Hil Hs Hs'). lia. }
    destruct (collect_metadata_spec l md) as (md1 & -> & L1 & M1 & M2 & M3).
    { intros s Hs. rewrite Hlen. exact (class_live f env C i l s Hl Hil Hs). }
    { pose proof (class_nodup f env C Hl) as Hnd. rewrite (concat_split C i _ Hil) in Hnd. by apply NoDup_app in Hnd as (? & _). }
    cbn [mbind option_bind]. destruct (IH (S i) md1) as (md2 & E & L2 & N1 & N2); [lia|lia| |].
    { intros k l' s Hk Hkl Hs. rewrite M1 by (apply (Hdis k l'); [lia|done|done]). apply (Hnil k l'); [lia|done|done]. }
    exists md2. split; [done|]. split; [done|]. split.
    - intros s Hs. rewrite N1 by (intros k l' Hk; apply Hs; lia). apply M1. by apply (Hs i).
    - intros k l' Hk Hkl. destruct (decide (k = i)) as [->|Hne]; [|apply (N2 k l'); [lia|done]].
      rewrite Hil in Hkl. injection Hkl as <-.
      assert (∀ s, s ∈ l → md2 !! N.to_nat s = md1 !! N.to_nat s) as Hkeep.
      { intros s Hs. apply N1. intros k l' Hk' Hkl Hs'. exact (Hdis k l' s Hk' Hkl Hs' Hs). }
      split; intros Hall s Hs; rewrite Hkeep by done; [by apply M2|]. rewrite (M3 Hall). by apply (Hnil i l). }
  destruct (Hgen (length C) 0 (replicate (f_statecount f) ([], []))) as (md & E & L & _ & Hmd); [lia|apply length_replicate| |].
  - intros k l s _ Hk Hs. apply lookup_replicate_2. exact (class_live f env C k l s Hl Hk Hs).
  - exists md. split; [done|]. split; [done|]. intros k l. apply Hmd. lia.
Qed.
End Collect.

(** ** Moving a state to another class *)

Section Move.
Context (f : fsm) (small : (N.of_nat (f_statecount f) < 2147483648)%N).
Abbreviation n := (f_statecount f).

Lemma class_NoDup env C i l : lists f env C → C !! i = Some l → NoDup l.
Proof.
  intros Hl Hi. pose proof (class_nodup f env C Hl) as Hnd. rewrite (concat_split C i _ Hi) in Hnd. by apply NoDup_app in Hnd as (? & _).
Qed.

(** The links of a class after a state of it has been taken out. *)
Lemma linked_unlink jump h k prev s r v next :
  NoDup (k ++ prev :: s :: r) → linked jump h (k ++ prev :: s :: r) NO_ID → jump !! N.to_nat s = Some next →
  linked (<[N.to_nat s := v]> (<[N.to_nat prev := next]> jump)) h (k ++ prev :: r) NO_ID.
Proof.
  intros Hnd Hk Hs. apply NoDup_app in Hnd as (_ & D & Hnd). apply NoDup_cons in Hnd as [P1 Hnd]. apply NoDup_cons in Hnd as [P2 _].
  rewrite cons_middle, (assoc_L (++)) in Hk. apply linked_app in Hk as (m & H1 & H2). pose proof H2 as (-> & _ & x & Hx & H3). rewrite Hs in Hx. injection Hx as <-.
  apply linked_insert; [rewrite elem_of_app, elem_of_cons; intros [Hi|[->|Hi]]; [apply (D s Hi)|apply P1|apply P2]; set_solver|].
  rewrite cons_middle, (assoc_L (++)). apply linked_app. exists next. split.
  - eapply linked_redirect; [|done]. intros Hi. apply (D prev Hi). by left.
  - apply linked_insert; [set_solver|done].
Qed.

Lemma unlink_perm (k : list N) prev s r : k ++ prev :: s :: r ≡ₚ s :: k ++ prev :: r.
Proof. rewrite !(cons_middle prev), !(assoc_L (++)). symmetry. apply Permutation_middle. Qed.

Lemma others_linked env C i k prev s r j l :
  lists f env C → C !! i = Some (k ++ prev :: s :: r) → C !! j = Some l → j ≠ i → (prev ∉ l) ∧ (s ∉ l).
Proof.
  intros Hl Hi Hj Hne. split; intros Hin; apply Hne; (eapply (class_unique f env C j i); [done|done|exact Hi|exact Hin|set_solver]).
Qed.

(** To a new class. *)
Lemma move_new env C i k prev s r next :
  lists f env C → numbered env C [] → C !! i = Some (k ++ prev :: s :: r) → jump env !! N.to_nat s = Some next →
  let C' := <[i := k ++ prev :: r]> C ++ [[s]] in
  let env' := mk_env (<[N.to_nat s := N.of_nat (length C)]> (state_ecs env)) (<[length C := s]> (ecs env))
    (<[N.to_nat s := NO_ID]> (<[N.to_nat prev := next]> (jump env))) (S (length C)) (done_ec_offset env) (steps env) in
  lists f env' C' ∧ numbered env' C' [].
Proof.
  intros Hl Hn Hi Hs C' env'. pose proof (class_count f env C Hl) as Hcount. apply lookup_lt_Some in Hi as Hilt.
  pose proof (class_NoDup env C i _ Hl Hi) as Hnd. assert (live f s) as Hls by (eapply class_live; [done|exact Hi|set_solver]).
  assert (∀ j l, C' !! j = Some l → j = i ∧ l = k ++ prev :: r ∨ j = length C ∧ l = [s] ∨ j ≠ i ∧ j < length C ∧ C !! j = Some l) as HC'.
  { intros j l [Hj|[Hge Hj]]%lookup_app_Some; rewrite ?length_insert in *.
    - destruct (decide (j = i)) as [->|]; [rewrite list_lookup_insert_eq in Hj by done; injection Hj as <-; auto|].
      rewrite list_lookup_insert_ne in Hj by done. right; right. split; [done|]. split; [by apply lookup_lt_Some in Hj|done].
    - destruct (j - length C) eqn:Ej; [|done]. injection Hj as <-. right; left. split; [lia|done]. }
  split.
  - destruct (Hl) as [K1 K2 K3 K4 K5]. split; cbn [state_ecs ecs jump env']; rewrite ?length_insert; try done.
    + intros j l Hj. destruct (HC' j l Hj) as [[-> ->]|[[-> ->]|(Hne & Hlt & Hx)]].
      * destruct (K4 i _ Hi) as (h & x & l' & El & Eh & Hh & Hk). exists h, x, (tail (k ++ prev :: r)). split; [destruct k; cbn in *; congruence|].
        split; [cbn; rewrite list_lookup_insert_ne by lia; done|]. split; [done|]. by apply (linked_unlink _ _ _ _ s _ _ next).
      * exists s, s, []. split; [done|]. split; [cbn; apply list_lookup_insert_eq; lia|]. split; [by left|]. cbn.
        split; [done|]. split; [unfold live in Hls; unfold NO_ID; lia|]. exists NO_ID. split; [|done]. apply list_lookup_insert_eq. rewrite length_insert. unfold live in Hls. lia.
      * destruct (K4 j l Hx) as (h & x & l' & -> & Eh & Hh & Hk). exists h, x, l'. split; [done|]. split; [cbn; rewrite list_lookup_insert_ne by lia; done|].
        split; [done|]. destruct (others_linked env C i k prev s r j _ Hl Hi Hx Hne). by do 2 (apply linked_insert; [done|]).
    + rewrite <-K5. unfold C'. rewrite concat_app. cbn [concat]. rewrite app_nil_r, concat_insert by done. rewrite (concat_split C i _ Hi).
      by rewrite <-Permutation_cons_append, unlink_perm.
  - intros j l t _ Hj Ht. cbn [state_ecs env']. assert (t = s ∨ t ≠ s) as [->|Hts] by (destruct (decide (t = s)); auto).
    + rewrite list_lookup_insert_eq by (rewrite (li_state_ecs _ _ _ Hl); unfold live in Hls; lia).
      destruct (HC' j l Hj) as [[-> ->]|[[-> ->]|(Hne & Hlt & Hx)]]; [exfalso|done|exfalso].
      * apply NoDup_app in Hnd as (_ & D & Hnd). apply NoDup_cons in Hnd as [P1 Hnd]. apply NoDup_cons in Hnd as [P2 _].
        apply elem_of_app in Ht as [Ht|[->|Ht]%elem_of_cons]; [apply (D s Ht); set_solver|apply P1; by left|done].
      * by destruct (others_linked env C i k prev s r j _ Hl Hi Hx Hne).
    + rewrite list_lookup_insert_ne by (by intros X%N2Nat.inj). destruct (HC' j l Hj) as [[-> ->]|[[-> ->]|(Hne & Hlt & Hx)]].
      * apply (Hn i _ t (not_elem_of_nil _) Hi). set_solver.
      * apply list_elem_of_singleton in Ht. done.
      * exact (Hn j l t (not_elem_of_nil _) Hx Ht).
Qed.

(** To the class of [o], after it. *)
Lemma move_after env C i k prev s r next j l1 o l2 onext :
  lists f env C → numbered env C [] → C !! i = Some (k ++ prev :: s :: r) → jump env !! N.to_nat s = Some next →
  j ≠ i → C !! j = Some (l1 ++ o :: l2) → jump env !! N.to_nat o = Some onext →
  let C' := <[j := l1 ++ o :: s :: l2]> (<[i := k ++ prev :: r]> C) in
  let env' := mk_env (<[N.to_nat s := N.of_nat j]> (state_ecs env)) (ecs env)
    (<[N.to_nat o := s]> (<[N.to_nat s := onext]> (<[N.to_nat prev := next]> (jump env)))) (ec_count env) (done_ec_offset env) (steps env) in
  lists f env' C' ∧ numbered env' C' [].
Proof.
  intros Hl Hn Hi Hs Hji Hj Ho C' env'. apply lookup_lt_Some in Hi as Hilt. apply lookup_lt_Some in Hj as Hjlt.
  pose proof (class_NoDup env C i _ Hl Hi) as Hnd. pose proof (class_NoDup env C j _ Hl Hj) as Hnd2.
  assert (live f s) as Hls by (eapply class_live; [done|exact Hi|set_solver]). assert (live f o) as Hlo by (eapply class_live; [done|exact Hj|set_solver]).
  destruct (others_linked env C i k prev s r j _ Hl Hi Hj Hji) as [Np Ns].
  assert (o ∉ k ++ prev :: s :: r) as No.
  { intros Hin. apply Hji. eapply (class_unique f env C j i); [done|exact Hj|exact Hi| |exact Hin]. set_solver. }
  assert (∀ x l, C' !! x = Some l → x = i ∧ l = k ++ prev :: r ∨ x = j ∧ l = l1 ++ o :: s :: l2 ∨ x ≠ i ∧ x ≠ j ∧ C !! x = Some l) as HC'.
  { intros x l. unfold C'. destruct (decide (x = j)) as [->|Hxj].
    - rewrite list_lookup_insert_eq by (by rewrite length_insert). intros [= <-]. auto.
    - rewrite list_lookup_insert_ne by done. destruct (decide (x = i)) as [->|Hxi].
      + rewrite list_lookup_insert_eq by done. intros [= <-]. auto.
      + rewrite list_lookup_insert_ne by done. auto. }
  split.
  - destruct (Hl) as [K1 K2 K3 K4 K5]. split; cbn [state_ecs ecs jump env']; rewrite ?length_insert; try done.
    + intros x l Hx. destruct (HC' x l Hx) as [[-> ->]|[[-> ->]|(Hxi & Hxj & Hc)]].
      * destruct (K4 i _ Hi) as (h & y & l' & El & Eh & Hh & Hk). exists h, y, (tail (k ++ prev :: r)). split; [destruct k; cbn in *; congruence|].
        split; [done|]. split; [done|]. apply linked_insert; [set_solver|]. by apply (linked_unlink _ _ _ _ s _ _ next).
      * destruct (K4 j _ Hj) as (h & y & l' & El & Eh & Hh & Hk). exists h, y, (tail (l1 ++ o :: s :: l2)). split; [destruct l1; cbn in *; congruence|].
        split; [done|]. split; [done|]. apply linked_app in Hk as (m & M1 & M2). pose proof M2 as (-> & No_id & x & Hx' & M3). rewrite Ho in Hx'. injection Hx' as <-.
        apply NoDup_app in Hnd2 as (_ & D2 & Hnd2). apply NoDup_cons in Hnd2 as [P2 _].
        assert (o ∉ l1) by (intros Hin; apply (D2 o Hin); by left). rewrite !not_elem_of_app, !not_elem_of_cons in Np, Ns. destruct Np as (? & _ & ?), Ns as (? & ? & ?).
        apply linked_app. exists o. split; [by do 3 (apply linked_insert; [done|])|].
        apply linked_cons; [by rewrite not_elem_of_cons|done|rewrite !length_insert; unfold live in Hlo; lia|].
        apply linked_cons; [set_solver|unfold live in Hls; unfold NO_ID; lia|rewrite !length_insert; unfold live in Hls; lia|]. apply linked_insert; [set_solver|done].
      * destruct (K4 x l Hc) as (h & y & l' & -> & Eh & Hh & Hk). exists h, y, l'. do 3 (split; [done|]).
        destruct (others_linked env C i k prev s r x _ Hl Hi Hc Hxi). assert (o ∉ y :: l').
        { intros Hin. apply Hxj. eapply (class_unique f env C x j); [done|exact Hc|exact Hj|exact Hin|set_solver]. }
        by do 3 (apply linked_insert; [done|]).
    + rewrite <-K5. unfold C'. rewrite concat_insert by (by rewrite length_insert). rewrite unlink_perm. cbn [app].
      rewrite (concat_split C i _ Hi), unlink_perm. cbn [app]. apply perm_skip. rewrite <-(concat_insert C i) by done.
      symmetry. apply concat_split. by rewrite list_lookup_insert_ne.
  - intros x l t _ Hx Ht. cbn [state_ecs env']. assert (t = s ∨ t ≠ s) as [->|Hts] by (destruct (decide (t = s)); auto).
    + rewrite list_lookup_insert_eq by (rewrite (li_state_ecs _ _ _ Hl); unfold live in Hls; lia).
      destruct (HC' x l Hx) as [[-> ->]|[[-> ->]|(Hxi & Hxj & Hc)]]; [exfalso|done|exfalso].
      * apply NoDup_app in Hnd as (_ & D & Hnd). apply NoDup_cons in Hnd as [P1 Hnd]. apply NoDup_cons in Hnd as [P2 _].
        apply elem_of_app in Ht as [Ht|[->|Ht]%elem_of_cons]; [apply (D s Ht); set_solver|apply P1; by left|done].
      * by destruct (others_linked env C i k prev s r x _ Hl Hi Hc Hxi).
    + rewrite list_lookup_insert_ne by (by intros X%N2Nat.inj). destruct (HC' x l Hx) as [[-> ->]|[[-> ->]|(Hxi & Hxj & Hc)]].
      * apply (Hn i _ t (not_elem_of_nil _) Hi). set_solver.
      * apply (Hn j _ t (not_elem_of_nil _) Hj). set_solver.
      * exact (Hn x l t (not_elem_of_nil _) Hc Ht).
Qed.
(** The state of a class of one state is its head. *)
Lemma class_single env C i l :
  lists f env C → C !! i = Some l →
  ∃ h next, ecs env !! i = Some h ∧ jump env !! N.to_nat (MASK_EC_HEAD h) = Some next ∧ (next = NO_ID ↔ length l = 1) ∧ 1 ≤ length l.
Proof.
  intros Hl Hi. destruct (holds_head f small env C i l Hl Hi) as (h & s & l' & -> & E & _ & Em & Hk & _). destruct Hk as (_ & _ & next & Hj & Hk).
  exists h, next. rewrite Em. split; [done|]. split; [done|]. split; [|cbn; lia]. rewrite (linked_nil_inv _ _ _ Hk). cbn. destruct l'; cbn; [done|].
  split; [done|lia].
Qed.

End Move.

(** ** The table of representatives *)

#[export] Instance hashed_metadata : Hashed (list N * list N) := hash_metadata.

Section Table.
Context (md : list (list N * list N)).

Definition md_of (s : N) : list N * list N := md !!! N.to_nat s.

(** A bucket holds a state, or [NO_ID]. *)
Definition rep_entry (o : N) : option ((list N * list N) * N) := if (o =? NO_ID)%N then None else Some (md_of o, o).

Abbreviation reps htab := (rep_entry <$> htab).

Lemma md_probe_spec htab key fuel : ∀ i,
  pow2_size (reps htab) → (∀ o, o ∈ htab → o ≠ NO_ID → N.to_nat o < length md) →
  md_probe fuel i (hash_metadata key) md key htab = Some (fst <$> probe_loop fuel i (reps htab) key).
Proof.
  induction fuel as [|fuel IH]; intros i Hp Hmd; cbn [md_probe probe_loop]; [done|].
  assert (N.to_nat (N.land (N.of_nat i +64 hash_metadata key)%cint (N.of_nat (length htab - 1))) = slot (reps htab) key i) as ->.
  { unfold slot, hash_key, hashed_metadata. rewrite length_fmap. f_equal. f_equal; [by rewrite N.add_comm|lia]. }
  pose proof (slot_in (reps htab) key i Hp) as Hs. rewrite length_fmap in Hs. destruct (lookup_lt_is_Some_2 htab _ Hs) as [o Ho].
  rewrite list_lookup_fmap, Ho. cbn [mbind option_bind fmap option_fmap option_map].
  destruct (N.eqb_spec o NO_ID) as [->|Hne]; [done|]. rewrite (list_lookup_lookup_total_lt md (N.to_nat o)).
  2:{ apply Hmd; [by eapply list_elem_of_lookup_2|done]. }
  replace (rep_entry o) with (Some (md_of o, o)) by (unfold rep_entry; by rewrite (proj2 (N.eqb_neq _ _) Hne)).
  cbn [mbind option_bind]. fold (md_of o). unfold same_end_metadata. destruct (decide (key = md_of o)) as [E|E].
  - rewrite !bool_decide_true by done. done.
  - rewrite !bool_decide_false by done. by apply IH.
Qed.
End Table.

(** ** Splitting one class *)

Section Split.
Context (f : fsm) (small : (N.of_nat (f_statecount f) < 2147483648)%N).
Abbreviation n := (f_statecount f).
Context (md : list (list N * list N)) (Hmd : length md = n).
Context (C0 : list (list N)) (i : nat) (l0 : list N) (Hi0 : C0 !! i = Some l0) (Hnd0 : NoDup (concat C0)) (Hlen0 : length l0 ≤ n).
Abbreviation reps htab := (rep_entry md <$> htab).
Abbreviation mdata := (md_of md).

(** The states [done] of the class have been dealt with: those of [kept] stay,
    the others are in new classes; [rest] is left. *)
Record splitting (done rest kept : list N) (htab : list N) (env : min_env) (C : list (list N)) : Prop := {
  sp_lists : lists f env C;
  sp_numbered : numbered env C [];
  sp_count : ec_count env = length C;
  sp_l0 : l0 = done ++ rest;
  sp_class : C !! i = Some (kept ++ rest);
  sp_len : length C0 ≤ length C;
  sp_old k : k < length C0 → k ≠ i → C !! k = C0 !! k;
  sp_new k l : length C0 ≤ k → C !! k = Some l → (∀ x, x ∈ l → x ∈ done) ∧ ∀ x y, x ∈ l → y ∈ l → mdata x = mdata y;
  sp_kept x : x ∈ kept → x ∈ done;
  sp_same x y : x ∈ kept → y ∈ kept → mdata x = mdata y;
  sp_first : done ≠ [] → kept ≠ [];
  sp_table : table_ok (reps htab);
  sp_htab o : o ∈ htab → o ≠ NO_ID → o ∈ done;
  sp_size : length (entries (reps htab)) ≤ length done;
  sp_room : n ≤ length htab;
  sp_rep x : x ∈ done → ∃ o, Some (mdata x, o) ∈ reps htab ∧ o ∈ done ∧ same C x o;
}.

(** Where a state that has been dealt with is. *)
Lemma done_class done rest kept htab env C x k l :
  splitting done rest kept htab env C → x ∈ done → C !! k = Some l → x ∈ l → k = i ∧ x ∈ kept ∨ length C0 ≤ k.
Proof.
  intros Hs Hx Hk Hl. assert (x ∈ l0) as Hx0 by (rewrite (sp_l0 _ _ _ _ _ _ Hs); set_solver).
  destruct (decide (length C0 ≤ k)); [by right|left]. destruct (decide (k = i)) as [->|Hne].
  - split; [done|]. rewrite (sp_class _ _ _ _ _ _ Hs) in Hk. injection Hk as <-. apply elem_of_app in Hl as [Hl|Hl]; [done|exfalso].
    rewrite (concat_split C0 i l0 Hi0), (sp_l0 _ _ _ _ _ _ Hs) in Hnd0. apply NoDup_app in Hnd0 as (Hd & _). apply NoDup_app in Hd as (_ & Hd & _).
    by apply (Hd x).
  - exfalso. rewrite (sp_old _ _ _ _ _ _ Hs) in Hk by lia. clear Hs.
    rewrite (concat_split C0 i l0 Hi0) in Hnd0. apply NoDup_app in Hnd0 as (_ & Hd & _). apply (Hd x Hx0). apply elem_of_concat.
    destruct (decide (k < i)).
    + exists k, l. by rewrite list_lookup_delete_lt.
    + exists (k - 1), l. rewrite list_lookup_delete_ge by lia. by replace (S (k - 1)) with k by lia.
Qed.

(** A state that is found in the table has the same metadata. *)
Lemma rep_found (htab : list N) o key : Some (key, o) ∈ reps htab → o ∈ htab ∧ o ≠ NO_ID ∧ mdata o = key.
Proof.
  intros (x & E & Hx)%list_elem_of_fmap. unfold rep_entry in E. destruct (N.eqb_spec x NO_ID); [done|]. injection E as -> ->. done.
Qed.

Lemma same_insert C x y j l l' : C !! j = Some l → (∀ z, z ∈ l → z = x ∨ z = y → z ∈ l') → same C x y → same (<[j := l']> C) x y.
Proof.
  intros Hj Hsub (m & [k Hk]%list_elem_of_lookup & Hx & Hy). apply lookup_lt_Some in Hj as Hlt. destruct (decide (k = j)) as [->|Hne].
  - rewrite Hj in Hk. injection Hk as <-. eapply (same_at _ j l'); [by apply list_lookup_insert_eq|by apply Hsub; auto|by apply Hsub; auto].
  - eapply (same_at _ k m); [by rewrite list_lookup_insert_ne|done|done].
Qed.

Lemma same_app C l x y : same C x y → same (C ++ [l]) x y.
Proof. intros (m & Hm & ?). exists m. split; [set_solver|done]. Qed.

(** A state that stays. *)
Lemma splitting_keep done rest kept htab env C s o :
  splitting done (s :: rest) kept htab env C → Some (mdata s, o) ∈ reps htab → o ∈ done → o ∈ kept →
  splitting (done ++ [s]) rest (kept ++ [s]) htab env C.
Proof.
  intros Hs Ho Hod Hok. pose proof Hs as [S1 S2 S3 S4 S5 S6 S7 S8 S9 S10 S11 S12 S13 S14 S15 S16]. destruct (rep_found htab o _ Ho) as (_ & _ & Em).
  split; try done.
  - by rewrite S4, <-(assoc_L (++)).
  - by rewrite S5, <-(assoc_L (++)).
  - intros k l Hk Hl. destruct (S8 k l Hk Hl) as [H1 H2]. split; [|done]. intros x Hx. apply elem_of_app. left. by apply H1.
  - intros x [Hx|Hx]%elem_of_app; apply elem_of_app; [left; by apply S9|by right].
  - assert (∀ x, x ∈ kept ++ [s] → mdata x = mdata o) as Hx.
    { intros x [Hx| ->%list_elem_of_singleton]%elem_of_app; [by apply S10|done]. }
    intros x y H1 H2. by rewrite (Hx x H1), (Hx y H2).
  - intros _. destruct kept; done.
  - intros x Hx Hne. apply elem_of_app. left. by apply S13.
  - rewrite length_app. lia.
  - intros x [Hx| ->%list_elem_of_singleton]%elem_of_app.
    + destruct (S16 x Hx) as (o' & H1 & H2 & H3). exists o'. split; [done|]. split; [set_solver|done].
    + exists o. split; [done|]. split; [set_solver|]. eapply same_at; [exact S5|set_solver|set_solver].
Qed.

Lemma next_not_done done s rest kept htab env C : splitting done (s :: rest) kept htab env C → s ∉ done.
Proof.
  intros Hs. rewrite (concat_split C0 i l0 Hi0), (sp_l0 _ _ _ _ _ _ Hs) in Hnd0. apply NoDup_app in Hnd0 as (Hd & _). apply NoDup_app in Hd as (_ & Hd & _).
  intros X. apply (Hd s X). by left.
Qed.

(** A state becomes a representative. *)
Lemma table_insert htab b s :
  table_ok (reps htab) → probe (reps htab) (mdata s) = Some (b, None) → s ≠ NO_ID →
  let htab' := <[b := s]> htab in
  table_ok (reps htab') ∧ length (entries (reps htab')) = S (length (entries (reps htab))) ∧
  (∀ o, o ∈ htab' → o = s ∨ o ∈ htab) ∧ Some (mdata s, s) ∈ reps htab' ∧ (∀ e, Some e ∈ reps htab → Some e ∈ reps htab').
Proof.
  intros Hok Hp Hs htab'. assert (reps htab' = <[b := Some (mdata s, s)]> (reps htab)) as E.
  { unfold htab'. rewrite list_fmap_insert. unfold rep_entry at 1. by rewrite (proj2 (N.eqb_neq s NO_ID) Hs). }
  pose proof (probe_spec (reps htab) (mdata s) Hok) as Hsp. rewrite Hp in Hsp. destruct Hsp as (_ & _ & _ & _ & Hb). cbn in Hb.
  rewrite E. split_and!.
  - by eapply table_ok_insert.
  - pose proof (length_entries_insert (reps htab) b (Some (mdata s, s)) None Hb) as Hl. cbn in Hl. lia.
  - intros o [x Hx]%list_elem_of_lookup. unfold htab' in Hx. apply list_lookup_insert_Some in Hx as [(_ & -> & _)|[_ Hx]]; [by left|right]. by eapply list_elem_of_lookup_2.
  - apply (elem_of_insert_slot _ _ _ _ _ _ _ Hok Hp). auto.
  - intros [k v] He. apply (elem_of_insert_slot _ _ _ _ _ _ _ Hok Hp). right. split; [|done]. intros ->. by apply (probe_fresh _ _ _ v Hok) in Hp.
Qed.

Lemma splitting_first rest htab env C s b :
  splitting [] (s :: rest) [] htab env C → probe (reps htab) (mdata s) = Some (b, None) → s ≠ NO_ID →
  splitting [s] rest [s] (<[b := s]> htab) env C.
Proof.
  intros [S1 S2 S3 S4 S5 S6 S7 S8 S9 S10 S11 S12 S13 S14 S15 S16] Hp Hs. destruct (table_insert htab b s S12 Hp Hs) as (T1 & T2 & T3 & T4 & T5).
  split; try done.
  - intros k l Hk Hl. destruct (S8 k l Hk Hl) as [H1 H2]. split; [|done]. intros x Hx%H1. by apply elem_of_nil in Hx.
  - intros x y ->%list_elem_of_singleton ->%list_elem_of_singleton. done.
  - intros o [->|Ho]%T3 Hne; [by left|]. apply (S13 o Ho) in Hne. by apply elem_of_nil in Hne.
  - rewrite T2. cbn in *. lia.
  - by rewrite length_insert.
  - intros x ->%list_elem_of_singleton. exists s. split; [done|]. split; [by left|]. eapply same_at; [exact S5|by left|by left].
Qed.

Lemma splitting_new done rest k prev htab env C s b next :
  splitting done (s :: rest) (k ++ [prev]) htab env C → probe (reps htab) (mdata s) = Some (b, None) → s ≠ NO_ID →
  jump env !! N.to_nat s = Some next →
  splitting (done ++ [s]) rest (k ++ [prev]) (<[b := s]> htab)
    (mk_env (<[N.to_nat s := N.of_nat (length C)]> (state_ecs env)) (<[length C := s]> (ecs env))
      (<[N.to_nat s := NO_ID]> (<[N.to_nat prev := next]> (jump env))) (S (length C)) (done_ec_offset env) (steps env))
    (<[i := (k ++ [prev]) ++ rest]> C ++ [[s]]).
Proof.
  intros Hsp Hp Hs Hn. pose proof (next_not_done _ _ _ _ _ _ _ Hsp) as Hsd.
  destruct Hsp as [S1 S2 S3 S4 S5 S6 S7 S8 S9 S10 S11 S12 S13 S14 S15 S16]. destruct (table_insert htab b s S12 Hp Hs) as (T1 & T2 & T3 & T4 & T5).
  apply lookup_lt_Some in Hi0 as Hi0lt. rewrite <-(assoc_L (++)) in S5. cbn [app] in S5.
  destruct (move_new f small env C i k prev s rest next S1 S2 S5 Hn) as [M1 M2].
  split; cbn [ec_count]; rewrite <-?(assoc_L (++)) in *; cbn [app] in *; try done.
  - by rewrite length_app, length_insert, Nat.add_1_r.
  - rewrite lookup_app_l by (rewrite length_insert; lia). apply list_lookup_insert_eq. lia.
  - rewrite length_app, length_insert. lia.
  - intros x Hx Hne. rewrite lookup_app_l by (rewrite length_insert; lia). rewrite list_lookup_insert_ne by done. by apply S7.
  - intros x l Hx Hl. apply lookup_app_Some in Hl as [Hl|[Hge Hl]].
    + rewrite list_lookup_insert_ne in Hl by lia. destruct (S8 x l Hx Hl) as [H1 H2]. split; [|done]. intros y Hy. apply elem_of_app. left. by apply H1.
    + rewrite length_insert in *. destruct (x - length C); [|done]. injection Hl as <-. split; [intros y ->%list_elem_of_singleton; set_solver|].
      by intros y z ->%list_elem_of_singleton ->%list_elem_of_singleton.
  - intros x Hx. apply elem_of_app. left. by apply S9.
  - intros _ E. by apply app_nil in E as [_ ?].
  - intros o [->|Ho]%T3 Hne; [set_solver|]. apply elem_of_app. left. by apply S13.
  - rewrite T2, length_app. cbn. lia.
  - by rewrite length_insert.
  - intros x [Hx| ->%list_elem_of_singleton]%elem_of_app.
    + destruct (S16 x Hx) as (o & O1 & O2 & O3). exists o. split; [by apply T5|]. split; [set_solver|]. apply same_app.
      eapply same_insert; [exact S5| |done].
      intros z Hz [->| ->]; rewrite elem_of_app, !elem_of_cons in *; set_solver.
    + exists s. split; [done|]. split; [set_solver|]. exists [s]. set_solver.
Qed.

Lemma splitting_after done rest k prev htab env C s next j l1 o l2 onext :
  splitting done (s :: rest) (k ++ [prev]) htab env C → jump env !! N.to_nat s = Some next →
  Some (mdata s, o) ∈ reps htab → j ≠ i → C !! j = Some (l1 ++ o :: l2) → jump env !! N.to_nat o = Some onext →
  splitting (done ++ [s]) rest (k ++ [prev]) htab
    (mk_env (<[N.to_nat s := N.of_nat j]> (state_ecs env)) (ecs env)
      (<[N.to_nat o := s]> (<[N.to_nat s := onext]> (<[N.to_nat prev := next]> (jump env)))) (ec_count env) (done_ec_offset env) (steps env))
    (<[j := l1 ++ o :: s :: l2]> (<[i := (k ++ [prev]) ++ rest]> C)).
Proof.
  intros Hsp Hn Ho Hji Hj Hon. pose proof (next_not_done _ _ _ _ _ _ _ Hsp) as Hsd.
  assert (length C0 ≤ j) as Hjge.
  { destruct (rep_found htab o _ Ho) as (Ho1 & Ho2 & _).
    destruct (done_class _ _ _ _ _ _ o j _ Hsp (sp_htab _ _ _ _ _ _ Hsp o Ho1 Ho2) Hj) as [[? _]|?]; [set_solver|done|done]. }
  destruct (rep_found htab o _ Ho) as (Ho1 & Ho2 & Em).
  destruct Hsp as [S1 S2 S3 S4 S5 S6 S7 S8 S9 S10 S11 S12 S13 S14 S15 S16]. apply lookup_lt_Some in Hi0 as Hi0lt. apply lookup_lt_Some in Hj as Hjlt.
  rewrite <-(assoc_L (++)) in S5. cbn [app] in S5.
  destruct (move_after f small env C i k prev s rest next j l1 o l2 onext S1 S2 S5 Hn Hji Hj Hon) as [M1 M2].
  split; cbn [ec_count]; rewrite <-?(assoc_L (++)) in *; cbn [app] in *; try done.
  - by rewrite !length_insert.
  - rewrite list_lookup_insert_ne by done. apply list_lookup_insert_eq. lia.
  - by rewrite !length_insert.
  - intros x Hx Hne. rewrite !list_lookup_insert_ne by lia. by apply S7.
  - intros x l Hx Hl. destruct (decide (x = j)) as [->|Hxj].
    + rewrite list_lookup_insert_eq in Hl by (by rewrite length_insert). injection Hl as <-. destruct (S8 j _ Hx Hj) as [H1 H2].
      assert (∀ y, y ∈ l1 ++ o :: s :: l2 → y = s ∨ y ∈ l1 ++ o :: l2) as Hsub by (intros y; rewrite !elem_of_app, !elem_of_cons; tauto).
      assert (∀ y, y ∈ l1 ++ o :: s :: l2 → mdata y = mdata o) as Hall.
      { intros y [->|Hy]%Hsub; [done|]. apply H2; [done|set_solver]. }
      split; [|intros y z Hy Hz; by rewrite (Hall y Hy), (Hall z Hz)]. intros y [->|Hy%H1]%Hsub; set_solver.
    + rewrite list_lookup_insert_ne, list_lookup_insert_ne in Hl by lia. destruct (S8 x l Hx Hl) as [H1 H2]. split; [|done].
      intros y Hy. apply elem_of_app. left. by apply H1.
  - intros x Hx. apply elem_of_app. left. by apply S9.
  - intros _ E. by apply app_nil in E as [_ ?].
  - intros x Hx Hne. apply elem_of_app. left. by apply S13.
  - rewrite length_app. lia.
  - assert (C !! j = Some (l1 ++ o :: l2) → (<[i := k ++ prev :: rest]> C) !! j = Some (l1 ++ o :: l2)) as Hj' by (by rewrite list_lookup_insert_ne).
    intros x [Hx| ->%list_elem_of_singleton]%elem_of_app.
    + destruct (S16 x Hx) as (o' & O1 & O2 & O3). exists o'. split; [done|]. split; [set_solver|].
      eapply same_insert; [by apply Hj'|intros z; rewrite !elem_of_app, !elem_of_cons; tauto|].
      eapply same_insert; [exact S5| |done]. intros z Hz [->| ->]; rewrite elem_of_app, !elem_of_cons in *; set_solver.
    + exists o. split; [done|]. split; [apply elem_of_app; left; by apply S13|].
      eapply (same_at _ j); [apply list_lookup_insert_eq; by rewrite length_insert|set_solver|set_solver].
Qed.

(** The last state kept. *)
Definition last_kept (kept : list N) (prev : N) : Prop := kept = [] ∧ prev = NO_ID ∨ ∃ k, kept = k ++ [prev].

Lemma rest_frame done s rest k prev htab env C x :
  splitting done (s :: rest) (k ++ [prev]) htab env C → x = prev ∨ x = s ∨ x ∈ done → x ∉ rest.
Proof.
  intros Hsp Hx Hr. pose proof (class_NoDup f env C i _ (sp_lists _ _ _ _ _ _ Hsp) (sp_class _ _ _ _ _ _ Hsp)) as Hnd.
  apply NoDup_app in Hnd as (_ & D & Hnd). apply NoDup_cons in Hnd as [Hs _]. destruct Hx as [->|[->|Hx]]; [|done|].
  - apply (D prev); set_solver.
  - rewrite (concat_split C0 i l0 Hi0), (sp_l0 _ _ _ _ _ _ Hsp) in Hnd0. apply NoDup_app in Hnd0 as (Hd & _). apply NoDup_app in Hd as (_ & Hd & _).
    apply (Hd x Hx). by right.
Qed.

Lemma split_loop_spec rest : ∀ fuel done kept htab env C prev cur,
  splitting done rest kept htab env C → last_kept kept prev → linked (jump env) cur rest NO_ID → length rest ≤ fuel →
  ∃ env' C' kept' htab', split_loop fuel i md htab env prev cur = Some env' ∧ splitting l0 [] kept' htab' env' C' ∧
    done_ec_offset env' = done_ec_offset env ∧ steps env' = steps env ∧ state_ecs env' !! n = state_ecs env !! n.
Proof.
  induction rest as [|s rest IH]; intros fuel done kept htab env C prev cur Hsp Hlast Hk Hf.
  { cbn in Hk. subst cur. pose proof (sp_l0 _ _ _ _ _ _ Hsp) as E. rewrite app_nil_r in E. subst done. exists env, C, kept, htab. destruct fuel; done. }
  cbn [linked] in Hk. destruct Hk as (-> & Hs & next & Hj & Hk). destruct fuel as [|fuel]; [cbn in Hf; lia|]. cbn [split_loop length] in *.
  rewrite (proj2 (N.eqb_neq s NO_ID) Hs). pose proof (sp_lists _ _ _ _ _ _ Hsp) as Hl.
  assert (∀ x l k, C !! k = Some l → x ∈ l → live f x) as Hlive by (intros x l k H1 H2; by eapply class_live).
  assert (live f s) as Hls by (eapply Hlive; [apply Hsp|set_solver]).
  assert (∀ x, x ∈ done → live f x) as Hldone.
  { intros x (o & _ & _ & l & [k Hx]%list_elem_of_lookup & Hxl & _)%(sp_rep _ _ _ _ _ _ Hsp). by eapply Hlive. }
  rewrite (list_lookup_lookup_total_lt md (N.to_nat s)) by (unfold live in Hls; lia). cbn [mbind option_bind]. fold (mdata s). rewrite Hj. cbn [mbind option_bind].
  rewrite md_probe_spec.
  2:{ apply (sp_table _ _ _ _ _ _ Hsp). }
  2:{ intros o Ho Hne. rewrite Hmd. apply Hldone. by apply (sp_htab _ _ _ _ _ _ Hsp). }
  assert (length (reps htab) = length htab) as EL by apply length_fmap.
  destruct (entries_empty_slot (reps htab)) as [e He].
  { pose proof (sp_size _ _ _ _ _ _ Hsp). pose proof (sp_room _ _ _ _ _ _ Hsp). rewrite EL.
    enough (length done < n) by lia. rewrite (sp_l0 _ _ _ _ _ _ Hsp), length_app in Hlen0. cbn in Hlen0. lia. }
  destruct (probe_total (reps htab) (mdata s) e (sp_table _ _ _ _ _ _ Hsp) He) as [[b found] Hp].
  pose proof Hp as Hp'. unfold probe in Hp'. rewrite EL in Hp'. rewrite Hp'. cbn [mbind option_bind fmap option_fmap option_map fst]. clear Hp'.
  pose proof (probe_spec (reps htab) (mdata s) (sp_table _ _ _ _ _ _ Hsp)) as Hps. rewrite Hp in Hps. destruct Hps as (_ & _ & _ & _ & Hb).
  rewrite list_lookup_fmap in Hb. destruct (htab !! b) as [o|] eqn:Eb; [|done]. cbn in Hb. injection Hb as Hb.
  cbn [mbind option_bind]. unfold rep_entry in Hb. destruct (N.eqb_spec o NO_ID) as [->|Hone].
  - destruct found; [done|]. destruct Hlast as [[-> ->]|[k ->]].
    + rewrite N.eqb_refl. assert (done = []) as -> by (destruct done; [done|]; by destruct (sp_first _ _ _ _ _ _ Hsp)).
      apply (IH fuel [s] [s] _ env C s next); [by apply splitting_first|right; by exists []|done|lia].
    + assert (live f prev) as Hlp by (eapply Hlive; [apply Hsp|set_solver]). rewrite (proj2 (N.eqb_neq prev NO_ID)) by (unfold live in Hlp; unfold NO_ID; lia).
      rewrite (sp_count _ _ _ _ _ _ Hsp). pose proof (class_count f env C Hl). destruct Hl as [K1 K2 K3 _ _].
      rewrite (arr_set_Some (jump env)) by (unfold live in Hlp; lia). cbn [mbind option_bind]. rewrite (arr_set_Some (ecs env)) by lia. cbn [mbind option_bind].
      rewrite (arr_set_Some (state_ecs env)) by (unfold live in Hls; lia). cbn [mbind option_bind]. rewrite (arr_set_Some (<[_ := _]> (jump env))) by (rewrite length_insert; unfold live in Hls; lia). cbn [mbind option_bind].
      rewrite Nat.add_1_r. edestruct (IH fuel (done ++ [s]) (k ++ [prev])) as (env' & C' & kept' & htab' & E & R1 & R2 & R3 & R4); [by apply (splitting_new done rest k prev htab env C s b next)|right; by exists k| | |].
      * cbn [jump]. do 2 (apply linked_insert; [by apply (rest_frame done s rest k prev htab env C); auto|]). exact Hk.
      * lia.
      * exists env', C', kept', htab'. split; [exact E|]. split; [done|]. split; [done|]. split; [done|]. rewrite R4. cbn [state_ecs].
        apply list_lookup_insert_ne. unfold live in Hls. lia.
  - destruct found as [v|]; [|done]. injection Hb as Em Ev. subst v.
    assert (Some (mdata s, o) ∈ reps htab) as Ho.
    { apply (list_elem_of_lookup_2 _ b). rewrite list_lookup_fmap, Eb. cbn. unfold rep_entry. rewrite (proj2 (N.eqb_neq o NO_ID) Hone). by rewrite Em. }
    assert (o ∈ done) as Hod by (apply (sp_htab _ _ _ _ _ _ Hsp); [by eapply list_elem_of_lookup_2|done]).
    destruct (live_class f env C o Hl (Hldone o Hod)) as (k & l & Hkl & Hol). rewrite (sp_numbered _ _ _ _ _ _ Hsp k l o (not_elem_of_nil _) Hkl Hol). cbn [mbind option_bind].
    destruct (N.eqb_spec (N.of_nat k) (N.of_nat i)) as [E|E].
    + apply Nat2N.inj in E. subst k. rewrite (sp_class _ _ _ _ _ _ Hsp) in Hkl. injection Hkl as <-.
      destruct (done_class _ _ _ _ _ _ o i _ Hsp Hod (sp_class _ _ _ _ _ _ Hsp) Hol) as [[_ Hok]|Hge]; [|apply lookup_lt_Some in Hi0; lia].
      apply (IH fuel (done ++ [s]) (kept ++ [s]) htab env C s next); [by eapply splitting_keep|right; by exists kept|done|lia].
    + assert (k ≠ i) as Hki by congruence. apply list_elem_of_split in Hol as (l1 & l2 & ->). destruct Hlast as [[-> _]|[kk ->]].
      { exfalso. apply (sp_first _ _ _ _ _ _ Hsp); [|done]. by destruct done; [apply elem_of_nil in Hod|]. }
      assert (live f prev) as Hlp by (eapply Hlive; [apply Hsp|set_solver]). rewrite (proj2 (N.eqb_neq prev NO_ID)) by (unfold live in Hlp; unfold NO_ID; lia).
      pose proof (Hldone o Hod) as Hlo. pose proof Hl as [K1 K2 K3 _ _].
      rewrite (arr_set_Some (jump env)) by (unfold live in Hlp; lia). cbn [mbind option_bind]. rewrite (arr_set_Some (state_ecs env)) by (unfold live in Hls; lia). cbn [mbind option_bind].
      assert (prev ≠ o) as Hpo.
      { intros ->. apply Hki. eapply (class_unique f env C k i _ _ o); [done|exact Hkl|exact (sp_class _ _ _ _ _ _ Hsp)| |]; set_solver. }
      rewrite list_lookup_insert_ne by (by intros X%N2Nat.inj). destruct (lookup_lt_is_Some_2 (jump env) (N.to_nat o)) as [onext Hon]; [unfold live in Hlo; lia|].
      rewrite Hon. cbn [mbind option_bind]. rewrite arr_set_Some by (rewrite length_insert; unfold live in Hls; lia). cbn [mbind option_bind].
      rewrite arr_set_Some by (rewrite !length_insert; unfold live in Hlo; lia). cbn [mbind option_bind].
      edestruct (IH fuel (done ++ [s]) (kk ++ [prev])) as (env' & C' & kept' & htab' & E' & R1 & R2 & R3 & R4);
        [by apply (splitting_after done rest kk prev htab env C s next k l1 o l2 onext)|right; by exists kk| | |].
      * cbn [jump]. do 3 (apply linked_insert; [by apply (rest_frame done s rest kk prev htab env C); auto|]). exact Hk.
      * lia.
      * exists env', C', kept', htab'. split; [exact E'|]. split; [done|]. split; [done|]. split; [done|]. rewrite R4. cbn [state_ecs].
        apply list_lookup_insert_ne. unfold live in Hls. lia.
Qed.
End Split.

(** ** All classes *)

Section SplitAll.
Context (f : fsm) (small : (N.of_nat (f_statecount f) < 2147483648)%N).
Abbreviation n := (f_statecount f).
Context (md : list (list N * list N)) (Hmd : length md = n).
Context (m : nat) (Hm : m ≤ 32) (Hroom : n ≤ 2 ^ m).
Abbreviation mdata := (md_of md).

(** [C'] splits classes of [C], states with the same metadata stay together. *)
Definition splits (C C' : list (list N)) : Prop :=
  (∀ x y, same C' x y → same C x y) ∧ (∀ x y, same C x y → mdata x = mdata y → same C' x y).

Definition uniform (l : list N) : Prop := ∀ x y, x ∈ l → y ∈ l → mdata x = mdata y.

Lemma splits_trans C C1 C2 : splits C C1 → splits C1 C2 → splits C C2.
Proof. intros [H1 H2] [K1 K2]. split; auto. Qed.

Lemma split_ec_spec env C i l :
  prepared f env C → C !! i = Some l →
  ∃ env' C', split_ec md (2 ^ m) env i = Some env' ∧ prepared f env' C' ∧ length C ≤ length C' ∧ done_ec_offset env' ≤ length C ∧
    (∀ k, k < length C → k ≠ i → C' !! k = C !! k) ∧ splits C C' ∧
    (∀ k l', k = i ∨ length C ≤ k → C' !! k = Some l' → uniform l').
Proof.
  intros [P1 P2 P3 P4 P5 P6] Hi. pose proof (class_nodup f env C P1) as Hnd. pose proof (class_length f env C i l P1 Hi) as Hlen.
  destruct (holds_head f small env C i l P1 Hi) as (h & s & l' & El & E & _ & Em & Hk & _). unfold split_ec. rewrite E. cbn [mbind option_bind]. rewrite Em.
  assert (rep_entry md <$> replicate (2 ^ m) NO_ID = replicate (2 ^ m) None) as Erep by (by rewrite fmap_replicate).
  destruct (split_loop_spec f small md Hmd C i l Hi Hnd Hlen l (length (jump env)) [] [] (replicate (2 ^ m) NO_ID) env C NO_ID s)
    as (env1 & C1 & kept & htab & -> & Hsp & D1 & S1 & Z1).
  { split; try done; try set_solver by done.
    - intros k lk Hk' Hlk%lookup_lt_Some. lia.
    - rewrite Erep. by apply table_ok_empty.
    - intros o Ho Hne. apply elem_of_replicate_inv in Ho. done.
    - by rewrite Erep, entries_replicate.
    - by rewrite length_replicate. }
  { by left. } { done. } { rewrite (li_jump _ _ _ P1). lia. }
  destruct Hsp as [T1 T2 T3 T4 T5 T6 T7 T8 T9 T10 T11 T12 T13 T14 T15 T16]. rewrite app_nil_r in T5. cbn [mbind option_bind].
  destruct (class_single f small env1 C1 i kept T1 T5) as (h1 & next & -> & Hn & Hnx & Hge). cbn [mbind option_bind]. rewrite Hn. cbn [mbind option_bind].
  apply lookup_lt_Some in Hi as Hilt. eexists. exists C1. split; [done|]. set (env' := if _ : bool then _ else _).
  assert (lists f env' C1 ∧ numbered env' C1 [] ∧ state_ecs env' !! n = Some NO_ID ∧ ec_count env' = length C1 ∧ done_ec_offset env' ≤ done_ec_offset env ∧
    (i < done_ec_offset env' → 2 ≤ length kept)) as (G1 & G2 & G3 & G4 & G5 & G6).
  { unfold env'. destruct (N.eqb_spec next NO_ID) as [En|En]; [destruct (Nat.ltb_spec i (done_ec_offset env1)) as [Hlt|Hge']|]; cbn [andb]; split_and!; try done; cbn; try congruence; try lia.
    all: try (by destruct T1). all: destruct kept as [|? [|]]; cbn in *; lia. }
  split; [split; try done|split; [done|split; [lia|split; [intros k; apply T7|split]]]].
  - lia.
  - intros k lk Hk' Hlk. destruct (decide (k = i)) as [->|Hne]; [|apply (P6 k); [lia|]; rewrite <-(T7 k); [done|lia|done]].
    rewrite T5 in Hlk. injection Hlk as <-. by apply G6.
  - split.
    + intros x y (lk & [k Hlk]%list_elem_of_lookup & Hx & Hy). destruct (decide (k < length C)) as [Hlt|Hge'].
      * destruct (decide (k = i)) as [->|Hne]; [|rewrite T7 in Hlk by done; by eapply same_at]. rewrite T5 in Hlk. injection Hlk as <-.
        eapply same_at; [exact Hi|by apply T9|by apply T9].
      * destruct (T8 k lk ltac:(lia) Hlk) as [K1 _]. eapply same_at; [exact Hi|by apply K1|by apply K1].
    + intros x y (lk & [k Hlk]%list_elem_of_lookup & Hx & Hy) Hxy. destruct (decide (k = i)) as [->|Hne].
      * rewrite Hi in Hlk. injection Hlk as <-. destruct (T16 x Hx) as (o & O1 & _ & O2), (T16 y Hy) as (o' & O1' & _ & O2'). rewrite Hxy in O1.
        apply list_elem_of_lookup in O1 as [a O1], O1' as [b O1']. pose proof (table_key_unique _ _ _ _ _ _ T12 O1 O1') as <-. rewrite O1 in O1'. injection O1' as <-.
        destruct O2 as (la & [ka Ka]%list_elem_of_lookup & Hxa & Hoa), O2' as (lb & [kb Kb]%list_elem_of_lookup & Hyb & Hob).
        pose proof (class_unique f env1 C1 ka kb la lb o T1 Ka Kb Hoa Hob) as <-. rewrite Ka in Kb. injection Kb as <-. by eapply same_at.
      * eapply (same_at _ k lk); [|done|done]. rewrite T7; [done|by apply lookup_lt_Some in Hlk|done].
  - intros k lk [->|Hge'] Hlk; [rewrite T5 in Hlk; injection Hlk as <-; exact T10|]. by destruct (T8 k lk Hge' Hlk).
Qed.

Lemma split_ecs_spec env C k :
  prepared f env C → k ≤ length C →
  ∃ env' C', foldl (λ acc ec_i, env ← acc; split_ec md (2 ^ m) env ec_i) (Some env) (seq 0 k) = Some env' ∧ prepared f env' C' ∧
    length C ≤ length C' ∧ (∀ j, k ≤ j → j < length C → C' !! j = C !! j) ∧ splits C C' ∧
    (∀ j l, j < k ∨ length C ≤ j → C' !! j = Some l → uniform l).
Proof.
  intros Hp. induction k as [|k IH]; intros Hk.
  { exists env, C. split; [done|]. split; [done|]. split; [done|]. split; [done|]. split; [by split|]. intros j l [?|Hj] Hl%lookup_lt_Some; lia. }
  destruct IH as (e1 & C1 & E & Hp1 & L1 & K1 & S1 & U1); [lia|]. rewrite seq_S, foldl_app, E. cbn [foldl mbind option_bind Nat.add].
  destruct (lookup_lt_is_Some_2 C k ltac:(lia)) as [l Hl]. rewrite <-(K1 k ltac:(lia) ltac:(lia)) in Hl.
  destruct (split_ec_spec e1 C1 k l Hp1 Hl) as (e2 & C2 & E2 & Hp2 & L2 & _ & K2 & S2 & U2). exists e2, C2. split; [done|]. split; [done|]. split; [lia|]. split.
  { intros j Hj1 Hj2. rewrite K2 by lia. apply K1; lia. }
  split; [by eapply splits_trans|]. intros j lj Hj Hlj. destruct (decide (j = k ∨ length C1 ≤ j)) as [Hd|Hd]; [by apply (U2 j)|].
  rewrite K2 in Hlj by lia. apply (U1 j); [lia|done].
Qed.
End SplitAll.

(** ** The sweep *)

Section Sweep.
Context (f : fsm) (small : (N.of_nat (f_statecount f) < 2147483648)%N).
Abbreviation n := (f_statecount f).

Lemma flag_lists env C i h s :
  lists f env C → ecs env !! i = Some h → MASK_EC_HEAD h = s → live f s → (h = s ∨ h = SET_SMALL_EC_FLAG s) →
  lists f (with_ecs env (<[i := SET_SMALL_EC_FLAG s]> (ecs env))) C.
Proof.
  intros [K1 K2 K3 K4 K5] E Em Hls Hh. split; cbn; rewrite ?length_insert; try done. intros j l Hj. destruct (K4 j l Hj) as (hj & sj & l' & -> & Ej & Hhj & Hk).
  destruct (decide (j = i)) as [->|Hne].
  - rewrite E in Ej. injection Ej as <-. exists (SET_SMALL_EC_FLAG s), sj, l'. split; [done|]. split; [cbn; apply list_lookup_insert_eq; by apply lookup_lt_Some in E|].
    split; [right|done]. f_equal. assert (live f sj) as Hlj.
    { apply elem_of_live_ids. rewrite <-K5. apply elem_of_concat. exists i, (sj :: l'). split; [done|]. by left. }
    destruct (head_mask f small h sj Hlj Hhj) as [E' _]. congruence.
  - exists hj, sj, l'. split; [done|]. split; [cbn; by rewrite list_lookup_insert_ne|done].
Qed.

Lemma sweep_ecs_spec cnt m : ∀ i env C,
  lists f env C → numbered env C [] → state_ecs env !! n = Some NO_ID → ec_count env = length C → i + m = length C → done_ec_offset env ≤ i →
  (∀ k l, k < done_ec_offset env → C !! k = Some l → 2 ≤ length l) →
  (∀ k l, done_ec_offset env ≤ k → k < i → C !! k = Some l → length l = 1) →
  ∃ env' C', sweep_ecs cnt m i env = Some env' ∧ C' ≡ₚ C ∧ classes f env' C'.
Proof.
  induction m as [|m IH]; intros i env C Hl Hn Hd Hc Hi Hdi H1 H2; cbn [sweep_ecs].
  { exists env, C. split; [done|]. split; [done|]. split; try done; [|lia]. intros k l Hk. apply lookup_lt_Some in Hk as Hlt.
    destruct (decide (k < done_ec_offset env)) as [Hk'|Hk']; [pose proof (H1 k l Hk' Hk)|pose proof (H2 k l ltac:(lia) ltac:(lia) Hk)]; lia. }
  destruct (lookup_lt_is_Some_2 C i ltac:(lia)) as [l Hil]. destruct (class_single f small env C i l Hl Hil) as (h & next & E & Hj & Hnx & Hge). rewrite E.
  destruct (holds_head f small env C i l Hl Hil) as (h' & s & l' & El & E' & _ & Em & _ & Hh). rewrite E in E'. injection E' as <-.
  cbn [mbind option_bind]. rewrite Hj. cbn [mbind option_bind]. assert (live f s) as Hls by (eapply class_live; [done|exact Hil|rewrite El; by left]).
  destruct (N.eqb_spec next NO_ID) as [En|En].
  - rewrite arr_set_Some by (by apply lookup_lt_Some in E). cbn [mbind option_bind]. rewrite Em.
    apply (IH (i + 1) _ C); try done; [by apply (flag_lists env C i h s)|lia|cbn; lia|].
    intros k lk Hk Hk' Hlk. destruct (decide (k = i)) as [->|Hne]; [|apply (H2 k); [done|lia|done]]. rewrite Hil in Hlk. injection Hlk as <-. by apply Hnx.
  - assert (2 ≤ length l) as Hl2.
    { destruct (decide (length l = 1)) as [E1|]; [by apply Hnx in E1|lia]. }
    set (d := done_ec_offset env) in *. destruct (swap_update_spec f small cnt env C i d []) as (e1 & E1 & L1 & N1 & (T1 & T2 & T3 & T4) & _); [done|lia|lia|done|set_solver|].
    destruct (swap_ecs env i d) as [x|]; [|done]. cbn [mbind option_bind] in E1 |- *. destruct (update_ec_links cnt x i) as [y|]; [|done]. cbn [mbind option_bind] in E1 |- *.
    rewrite E1. cbn [mbind option_bind]. fold d in T2. destruct (lookup_lt_is_Some_2 C d ltac:(lia)) as [ld Hld].
    destruct (IH (i + 1) (with_counts e1 (ec_count e1) (done_ec_offset e1 + 1)) (swap C i d)) as (e2 & C2 & E2 & P2 & Hcl); cbn [state_ecs ec_count done_ec_offset with_counts].
    + by destruct L1.
    + done.
    + congruence.
    + rewrite swap_length. congruence.
    + rewrite swap_length. lia.
    + lia.
    + intros k lk Hk. rewrite (swap_lookup C i d k l ld) by done. rewrite T2 in Hk. case_decide as D1; [|case_decide as D2].
      * by intros [= <-].
      * lia.
      * apply H1. lia.
    + intros k lk Hk Hk'. rewrite T2 in Hk. rewrite (swap_lookup C i d k l ld) by done. rewrite decide_False by lia. case_decide as D2.
      * intros [= <-]. subst k. apply (H2 d ld); [lia|lia|done].
      * apply H2; lia.
    + exists e2, C2. split; [done|]. split; [by rewrite P2, swap_perm|done].
Qed.

Lemma in_place_spec env C k :
  classes f env C → k ≤ length C → foldl (λ acc ec_i, ok ← acc; b ← ec_in_place env ec_i; Some (ok && b)) (Some true) (seq 0 k) = Some true.
Proof.
  intros Hcl. induction k as [|k IH]; intros Hk; [done|]. rewrite seq_S, foldl_app, IH by lia. cbn [foldl mbind option_bind Nat.add]. unfold ec_in_place.
  destruct (lookup_lt_is_Some_2 C k ltac:(lia)) as [l Hl]. destruct (class_single f small env C k l (cl_lists _ _ _ Hcl) Hl) as (h & next & -> & Hj & Hnx & Hge).
  cbn [mbind option_bind]. rewrite Hj. cbn [mbind option_bind]. pose proof (cl_done _ _ _ Hcl k l Hl) as Hd. f_equal. cbn [andb].
  destruct (Nat.ltb_spec k (done_ec_offset env)) as [H1|H1], (N.eqb_spec next NO_ID) as [H2|H2]; try done; exfalso.
  - apply Hd in H1. apply Hnx in H2. lia.
  - apply H2, Hnx. destruct (decide (2 ≤ length l)) as [Hx%Hd|]; lia.
Qed.
End Sweep.

Lemma pow2_ceil_spec fuel n : ∀ k,
  n ≤ 2 ^ (k + fuel) → ∃ m, pow2_ceil fuel n (2 ^ k) = 2 ^ m ∧ n ≤ 2 ^ m ∧ (m = k ∨ 2 ^ (m - 1) < n).
Proof.
  induction fuel as [|fuel IH]; intros k Hn; cbn [pow2_ceil]; [rewrite Nat.add_0_r in Hn; by exists k; auto|].
  destruct (Nat.ltb_spec (2 ^ k) n) as [Hlt|Hge]; [|by exists k; auto]. replace (2 ^ k * 2) with (2 ^ S k) by (cbn; lia).
  destruct (IH (S k)) as (m & E & H1 & H2); [by replace (S k + fuel) with (k + S fuel) by lia|]. exists m. split; [done|]. split; [done|]. right.
  destruct H2 as [->|?]; [|done]. by replace (S k - 1) with k by lia.
Qed.

(** ** The whole function *)

Lemma split_ecs_by_end_metadata_spec `{allocator, !alloc_total} f cnt env C :
  (N.of_nat (f_statecount f) < 2147483648)%N → endid_weak (f_endid_info f) → prepared f env C →
  ∃ env' C' md, split_ecs_by_end_metadata f cnt env = Some (true, env') ∧ classes f env' C' ∧ collected f C md ∧
    ∀ s t, same C' s t ↔ same C s t ∧ md_of md s = md_of md t.
Proof.
  intros small Hends Hp. unfold split_ecs_by_end_metadata. rewrite f_calloc_total, f_malloc_total. cbn [negb].
  destruct (pow2_ceil_spec (f_statecount f) (f_statecount f) 0) as (m & Em & Hroom & Hm).
  { cbn [Nat.add]. pose proof (Nat.pow_gt_lin_r 2 (f_statecount f) ltac:(lia)). lia. }
  change 1 with (2 ^ 0) at 1. rewrite Em. assert (m ≤ 32) as Hm32.
  { destruct Hm as [->|Hlt]; [lia|]. destruct (decide (m ≤ 32)) as [|Hgt]; [done|exfalso].
    assert (2 ^ 31 ≤ 2 ^ (m - 1)) by (apply Nat.pow_le_mono_r; lia). assert (N.of_nat (2 ^ 31) = 2147483648%N) by (rewrite Nat2N.inj_pow; done). lia. }
  destruct (collect_all_metadata_spec f Hends small env C (pr_lists _ _ _ Hp)) as (md & Ecol & Hcol). rewrite (pr_count _ _ _ Hp), Ecol. cbn [mbind option_bind negb].
  destruct (split_ecs_spec f small md (proj1 Hcol) m Hm32 Hroom env C (length C) Hp) as (e1 & C1 & -> & Hp1 & L1 & _ & S1 & U1); [done|]. cbn [mbind option_bind].
  destruct Hp1 as [P1 P2 P3 P4 P5 P6]. destruct (sweep_ecs_spec f small cnt (ec_count e1 - done_ec_offset e1) (done_ec_offset e1) e1 C1) as (e2 & C2 & -> & Pm & Hcl); try done.
  { lia. } { intros; lia. }
  cbn [mbind option_bind]. rewrite (cl_count _ _ _ Hcl), (in_place_spec f small e2 C2 (length C2) Hcl) by done. cbn [mbind option_bind].
  exists e2, C2, md. split; [done|]. split; [done|]. split; [done|]. destruct S1 as [S1 S2]. intros s t. split.
  - intros Hs. apply (same_perm C2 C1) in Hs; [|done]. split; [by apply S1|]. destruct Hs as (l & [k Hk]%list_elem_of_lookup & Hs & Ht).
    apply (U1 k l); [lia|done|done|done].
  - intros [Hs E]. apply (same_perm C1 C2); [done|]. by apply S2.
Qed.
