(* ===== verification/MinMapping.v ===== *)
(** * Minimisation: the mapping

    The mapping that [build_minimised_mapping] returns puts states together
    that cannot be told apart, and, where no memory is read before it is
    written, tells apart all others. *)

From S2P Require Import Prelude StateSet Bits EdgeSet EdgeIter EdgeCompact Probe Endids EagerOutput Lang Fsm FsmSpec FsmCompact Pred Search Trim Minimise.
From S2P Require Import MinClasses MinRefine MinInit MinSplit.

(** ** Words from a state *)

Section Words.
Context (f : fsm) (Hwf : fsm_wf f) (Hdet : deterministic (nfa_of f)).

(** The end state that a word leads to shows the end ids [e]. *)
Definition shows (s : N) (w : list nat) (e : list N) : Prop :=
  ∃ u, path (nfa_of f) s w u ∧ f_end f u ∧ endids (f_endid_info f) u = e.

(** A word tells two states apart. *)
Definition apart (s t : N) : Prop := ∃ w, ¬ ∀ e, shows s w e ↔ shows t w e.

Lemma apart_sym s t : apart s t → apart t s.
Proof. intros (w & Hw). exists w. intros Hx. apply Hw. intros e. symmetry. apply Hx. Qed.

Lemma edge_dec s c : (∃ u, f_edge f s c u) ∨ ∀ u, ¬ f_edge f s c u.
Proof.
  destruct (decide (live f s)) as [Hs|Hs]; [|right; intros u [? _]; done]. pose proof (edge_set_transition_spec (st_edges (get_state f s)) c) as Ht.
  destruct (edge_set_transition _ c) as [t|]; [left; destruct Ht as (u & Hu & _); by exists u|]. right. intros u [_ Hu]. by apply (Ht u).
Qed.

Lemma path_cons_det s c w u v : f_edge f s c u → path (nfa_of f) s (c :: w) v ↔ path (nfa_of f) u w v.
Proof.
  intros He. split.
  - intros (s1 & s2 & H1 & H2 & H3)%path_cons_inv. inversion H1 as [|? y ? Hx]; subst; [|by apply (proj1 Hdet) in Hx].
    by rewrite (proj1 (proj2 Hdet) _ _ _ _ He H2).
  - intros Hp. eapply path_step; [exact He|done].
Qed.

Lemma shows_cons s c w u e : f_edge f s c u → shows s (c :: w) e ↔ shows u w e.
Proof. intros He. unfold shows. by setoid_rewrite (path_cons_det s c w u _ He). Qed.

Lemma shows_stuck s c w e : (∀ u, ¬ f_edge f s c u) → ¬ shows s (c :: w) e.
Proof.
  intros Hn (v & (s1 & s2 & H1 & H2 & _)%path_cons_inv & _). inversion H1 as [|? y ? Hx]; subst; [by apply Hn in H2|by apply (proj1 Hdet) in Hx].
Qed.

Lemma apart_step s t c u v : f_edge f s c u → f_edge f t c v → apart u v → apart s t.
Proof.
  intros Hu Hv (w & Hw). exists (c :: w). intros Hx. apply Hw. intros e. by rewrite <-(shows_cons s c w u e Hu), <-(shows_cons t c w v e Hv).
Qed.

Lemma nsteps_word k s t : nsteps (f_step f) k s t ↔ ∃ w, length w = k ∧ path (nfa_of f) s w t.
Proof.
  split.
  - induction 1 as [s|k s s' t Hs _ (w & <- & Hp)]; [exists []; split; [done|constructor]|]. destruct Hs as [[c He]|He]; [|by apply (proj1 Hdet) in He].
    exists (c :: w). split; [done|]. by eapply path_step.
  - intros (w & <- & Hp). induction Hp as [s|s s' w t He|s c s' w t He _ IH]; [constructor|by apply (proj1 Hdet) in He|].
    econstructor; [|exact IH]. left. by exists c.
Qed.

(** States at different distances from an end state. *)
Lemma distance_apart s t j k : end_distance f s j → end_distance f t k → j ≠ k → apart s t.
Proof.
  assert (∀ s t j k, end_distance f s j → end_distance f t k → j < k → apart s t) as Hlt.
  { clear s t j k. intros s t j k [(u & Hu & (w & Hlw & Hw)%nsteps_word) _] [_ Hmin] Hjk. exists w. intros Hx. destruct (proj1 (Hx (endids (f_endid_info f) u))) as (v & Hv & He & _).
    - by exists u.
    - assert (k ≤ length w); [|lia]. apply (Hmin (length w) v He), nsteps_word. eauto. }
  intros Hj Hk Hne. destruct (Nat.lt_gt_cases j k) as [H1 _]. destruct (H1 Hne); [by eapply Hlt|apply apart_sym; by eapply Hlt].
Qed.
End Words.

(** ** From classes to a mapping *)

Section Mapping.
Context `{allocator, !alloc_total} (undef : N) (stale : nat → N → list N) (f : fsm).
Context (Hwf : fsm_wf f) (Hdet : deterministic (nfa_of f)) (Hends : endid_weak (f_endid_info f)).
Abbreviation n := (f_statecount f).
Context (small : (N.of_nat n < 2147483648)%N) (Hpos : 0 < n).

Lemma map_ecs_spec env C k :
  lists f env C → k ≤ length C →
  ∃ mapping, foldl (map_ec env 0) (Some (replicate n undef)) (seq 0 k) = Some mapping ∧ length mapping = n ∧
    ∀ i l s, i < k → C !! i = Some l → s ∈ l → mapping !! N.to_nat s = Some (N.of_nat i).
Proof.
  intros Hl. induction k as [|k IH]; intros Hk.
  { eexists. split; [done|]. split; [apply length_replicate|]. lia. }
  destruct IH as (m1 & E & L1 & H1); [lia|]. rewrite seq_S, foldl_app, E. cbn [foldl Nat.add]. unfold map_ec at 1. cbn [mbind option_bind].
  destruct (lookup_lt_is_Some_2 C k ltac:(lia)) as [l Hkl]. rewrite (ec_states_spec f small env C k l Hl Hkl). cbn [mbind option_bind]. rewrite Nat.sub_0_r.
  destruct (link_states_spec k l m1) as (m2 & E2 & L2 & H2); [intros s Hs; rewrite L1; exact (class_live f env C k l s Hl Hkl Hs)|].
  exists m2. split; [exact E2|]. split; [lia|]. intros i li s Hi Hil Hs. rewrite H2, N2Nat.id. case_decide as Hd.
  - by rewrite (class_unique f env C i k li l s Hl Hil Hkl Hs Hd).
  - apply (H1 i li); [|done|done]. destruct (decide (i = k)) as [->|]; [|lia]. rewrite Hkl in Hil. by injection Hil as ->.
Qed.

(** A mapping that puts together states that behave in the same way. *)
Record bisimilar (mapping : list N) (count : nat) : Prop := {
  bi_length : length mapping = n;
  bi_count : count ≤ n;
  bi_range s : live f s → ∃ i, mapping !! N.to_nat s = Some (N.of_nat i) ∧ i < count;
  bi_onto i : i < count → ∃ s, live f s ∧ mapping !! N.to_nat s = Some (N.of_nat i);
  bi_edge s t c u : live f s → live f t → mapping !! N.to_nat s = mapping !! N.to_nat t → f_edge f s c u →
    ∃ v, f_edge f t c v ∧ mapping !! N.to_nat u = mapping !! N.to_nat v;
  bi_end s t : live f s → live f t → mapping !! N.to_nat s = mapping !! N.to_nat t → f_end f s →
    f_end f t ∧ metadata f s = metadata f t;
}.

Context (sed : list N) (Hsed : distances_ok f (Some sed)).

(** The distance of a state. *)
Definition distance (s : N) : nat := N.to_nat (sed !!! N.to_nat s).

Lemma distance_spec s : live f s → sed !! N.to_nat s = Some (N.of_nat (distance s)) ∧ end_distance f s (distance s).
Proof.
  intros Hs. destruct (Hsed s Hs) as (k & Hk & He). unfold distance. rewrite (list_lookup_total_correct _ _ _ Hk), !Nat2N.id. done.
Qed.

Lemma end_distance_unique s j k : end_distance f s j → end_distance f s k → j = k.
Proof. intros [(t & Ht & Hj) Mj] [(u & Hu & Hk) Mk]. pose proof (Mj k u Hu Hk). pose proof (Mk j t Ht Hj). lia. Qed.

Lemma distance_inhabited s k : live f s → k ≤ distance s → ∃ t, live f t ∧ distance t = k.
Proof.
  intros Hs. remember (distance s) as d eqn:Ed. revert s Hs Ed. induction d as [|d IH]; intros s Hs Ed Hk.
  { exists s. split; [done|]. lia. }
  destruct (decide (k = S d)) as [->|Hne]; [by exists s|]. destruct (proj2 (distance_spec s Hs)) as [(u & Hu & Hn) Hmin]. rewrite <-Ed in *.
  inversion Hn as [|? ? t ? Hst Htu]; subst. assert (live f t) as Ht by (by eapply f_step_live). apply (IH t); [done| |lia].
  apply (end_distance_unique t); [|by apply distance_spec]. split; [eauto|]. intros j v Hv Hj. assert (S d ≤ S j); [|lia]. apply (Hmin (S j) v Hv).
  by econstructor.
Qed.

Lemma distance_zero s : live f s → distance s = 0 ↔ f_end f s.
Proof.
  intros Hs. destruct (distance_spec s Hs) as [_ [(t & Ht & Hn) Hmin]]. split.
  - intros E. rewrite E in Hn. by inversion Hn; subst.
  - intros He. enough (distance s ≤ 0) by lia. apply (Hmin 0 s He). constructor.
Qed.

(** No state has eager outputs. *)
Definition no_outputs : Prop := ∀ s, live f s → st_has_eager_outputs (get_state f s) = false ∧ eager_outputs (f_eager_output_info f) s = [].

(** The classes before the refinement. *)
Definition initial (C0 C1 : list (list N)) (md : list (list N * list N)) : Prop :=
  collected f C0 md ∧ (∀ s t, same C0 s t ↔ live f s ∧ live f t ∧ distance s = distance t) ∧
  (∀ s t, same C1 s t ↔ same C0 s t ∧ md_of md s = md_of md t).

(** An end state has its metadata in the table. *)
Lemma initial_end C0 C1 md s : initial C0 C1 md → f_end f s → md_of md s = metadata f s.
Proof.
  intros (Hcol & H0' & _) He. pose proof He as [Hs _]. destruct (proj2 (H0' s s)) as (l & [i Hi]%list_elem_of_lookup & Hl & _); [done|].
  unfold md_of. apply list_lookup_total_correct. apply (proj1 (proj2 Hcol i l Hi)); [|done]. intros t Ht. unfold has_metadata.
  assert (f_end f t) as [_ ->]; [|done]. destruct (proj1 (H0' s t)) as (_ & Hlt & Hd); [by eapply same_at|].
  apply distance_zero; [done|]. rewrite <-Hd. by apply distance_zero.
Qed.

(** Without eager outputs the other states have none. *)
Lemma initial_other C0 C1 md s : no_outputs → initial C0 C1 md → live f s → ¬ f_end f s → md_of md s = ([], []).
Proof.
  intros Hno (Hcol & H0' & _) Hs He. destruct (proj2 (H0' s s)) as (l & [i Hi]%list_elem_of_lookup & Hl & _); [done|].
  unfold md_of. apply list_lookup_total_correct. apply (proj2 (proj2 Hcol i l Hi)); [|done]. intros t Ht. unfold has_metadata.
  destruct (proj1 (H0' s t)) as (_ & Hlt & Hd); [by eapply same_at|]. rewrite (proj1 (Hno t Hlt)), orb_false_r.
  destruct (fsm_isend f t) eqn:Et; [exfalso|done]. apply He, distance_zero; [done|]. rewrite Hd. by apply distance_zero.
Qed.

Lemma initial_apart C0 C1 md s t : no_outputs → initial C0 C1 md → live f s → live f t → ¬ same C1 s t → apart f s t.
Proof.
  intros Hno Hinit Hs Ht Hns. destruct (decide (distance s = distance t)) as [Ed|Hne].
  2:{ eapply distance_apart; [done|by apply distance_spec|by apply distance_spec|done]. }
  pose proof Hinit as (_ & H0' & H1'). assert (md_of md s ≠ md_of md t) as Hmd.
  { intros E. apply Hns, H1'. split; [|done]. by apply H0'. }
  destruct (decide (distance s = 0)) as [E0|E0].
  - assert (f_end f s) as Es by (by apply distance_zero). assert (f_end f t) as Et by (apply distance_zero; [done|congruence]).
    rewrite (initial_end C0 C1 md s Hinit Es), (initial_end C0 C1 md t Hinit Et) in Hmd. unfold metadata in Hmd.
    rewrite (proj2 (Hno s Hs)), (proj2 (Hno t Ht)) in Hmd. exists []. intros Hx. destruct (proj1 (Hx (endids (f_endid_info f) s))) as (u & Hu & _ & E).
    { exists s. split; [constructor|done]. }
    apply path_nil_rtc in Hu. inversion Hu as [|? y ? Hy]; subst; [|by apply (proj1 Hdet) in Hy]. apply Hmd. by rewrite E.
  - exfalso. apply Hmd. rewrite (initial_other C0 C1 md s), (initial_other C0 C1 md t); try done; intros X%distance_zero; congruence.
Qed.

(** Refining keeps states that are not together apart. *)
Lemma refined_apart C C' :
  zeroed stale → refined stale f C C' → (∀ s t, live f s → live f t → ¬ same C s t → apart f s t) →
  (∀ s t, same C s t ∨ ¬ same C s t) → ∀ s t, live f s → live f t → ¬ same C' s t → apart f s t.
Proof.
  intros Hz [_ Hr] IH Hdec s t Hs Ht Hns. destruct (Hdec s t) as [Hsame|Hn]; [|by apply IH]. destruct (Hr Hz s t Hsame Hns) as [c Hc].
  assert (∀ x y u, live f y → f_edge f x c u → (∀ v, ¬ f_edge f y c v) → apart f x y) as Hdead.
  { intros x y u Hy Hu Hno. assert (live f u) as Hlu by (by eapply f_edge_live). destruct (proj2 (distance_spec u Hlu)) as [(e & He & (w & _ & Hw)%nsteps_word) _]; [|done].
    exists (c :: w). intros Hx. eapply shows_stuck; [done|exact Hno|]. apply Hx, (shows_cons f Hdet x c w u _ Hu). by exists e. }
  destruct (edge_dec f s c) as [[u Hu]|Hu], (edge_dec f t c) as [[v Hv]|Hv].
  - eapply apart_step; [done|exact Hu|exact Hv|]. apply IH; [by eapply f_edge_live|by eapply f_edge_live|]. intros Huv. apply Hc.
    split; intros x Hx; [exists v; split; [done|]|exists u; split; [done|]].
    + by rewrite (proj1 (proj2 Hdet) _ _ _ _ Hx Hu).
    + by rewrite (proj1 (proj2 Hdet) _ _ _ _ Hx Hv).
  - by eapply Hdead.
  - apply apart_sym. by eapply Hdead.
  - exfalso. apply Hc. split; intros x Hx; [by apply Hu in Hx|by apply Hv in Hx].
Qed.

Lemma same_or_not C s t : same C s t ∨ ¬ same C s t.
Proof.
  destruct (decide (Exists (λ l, s ∈ l ∧ t ∈ l) C)) as [Hx|Hx]; [left|right].
  - apply Exists_exists in Hx as (l & ? & ? & ?). by exists l.
  - intros (l & ? & ? & ?). apply Hx, Exists_exists. eauto.
Qed.

Lemma refined_all C C' :
  rtc (refined stale f) C C' → (∀ s t, same C' s t → same C s t) ∧
  (zeroed stale → (∀ s t, live f s → live f t → ¬ same C s t → apart f s t) → ∀ s t, live f s → live f t → ¬ same C' s t → apart f s t).
Proof.
  induction 1 as [C|C C1 C2 Hr _ [IH1 IH2]]; [done|]. split; [intros s t Hs; by apply Hr, IH1|].
  intros Hz Hap. apply IH2; [done|]. eapply refined_apart; [done|done|done|]. intros s t. apply same_or_not.
Qed.

(** Stable classes give a mapping as it should be. *)
Lemma stable_bisimilar env C0 C1 C2 md mapping :
  initial C0 C1 md → classes f env C2 → (∀ s t, same C2 s t → same C1 s t) → (∀ k, stable f C2 k) → length mapping = n →
  (∀ i l s, C2 !! i = Some l → s ∈ l → mapping !! N.to_nat s = Some (N.of_nat i)) →
  bisimilar mapping (length C2) ∧ ∀ s t, live f s → live f t → mapping !! N.to_nat s = mapping !! N.to_nat t ↔ same C2 s t.
Proof.
  intros Hinit Hcl Hsub Hst Hlen Hmap. pose proof (cl_lists _ _ _ Hcl) as Hl.
  assert (∀ s t, live f s → live f t → mapping !! N.to_nat s = mapping !! N.to_nat t ↔ same C2 s t) as Hiff.
  { intros s t Hs Ht. destruct (live_class f env C2 s Hl Hs) as (i & l & Hi & Hsl), (live_class f env C2 t Hl Ht) as (j & l' & Hj & Htl).
    rewrite (Hmap i l s Hi Hsl), (Hmap j l' t Hj Htl). split.
    - intros [= E%Nat2N.inj]. subst j. rewrite Hi in Hj. injection Hj as <-. by eapply same_at.
    - intros (lk & [k Hk]%list_elem_of_lookup & Hsk & Htk). rewrite (class_unique f env C2 i k l lk s Hl Hi Hk Hsl Hsk).
      by rewrite (class_unique f env C2 j k l' lk t Hl Hj Hk Htl Htk). }
  split; [|done]. split.
  - done.
  - by eapply class_count.
  - intros s Hs. destruct (live_class f env C2 s Hl Hs) as (i & l & Hi & Hsl). exists i. split; [by eapply Hmap|by apply lookup_lt_Some in Hi].
  - intros i [l Hi]%lookup_lt_is_Some_2. destruct (li_class _ _ _ Hl i l Hi) as (h & s & l' & -> & _). exists s.
    split; [eapply class_live; [done|exact Hi|by left]|]. eapply Hmap; [exact Hi|by left].
  - intros s t c u Hs Ht (l & [k Hk]%list_elem_of_lookup & Hsl & Htl)%Hiff Hu; [|done|done].
    destruct (proj1 (Hst k l c Hk s t Hsl Htl) u Hu) as (v & Hv & Huv). exists v. split; [done|]. apply Hiff; [by eapply f_edge_live|by eapply f_edge_live|done].
  - intros s t Hs Ht Hst'%Hiff He; [|done|done]. pose proof Hinit as (_ & H0' & H1'). apply Hsub, H1' in Hst' as [Hst' Hmd].
    apply H0' in Hst' as (_ & _ & Hd). assert (f_end f t) as Het by (apply distance_zero; [done|]; rewrite <-Hd; by apply distance_zero). split; [done|].
    by rewrite <-(initial_end C0 C1 md s Hinit He), <-(initial_end C0 C1 md t Hinit Het).
Qed.

Lemma build_minimised_mapping_spec labels :
  (∀ s c t, f_edge f s c t → c ∈ labels) →
  ∃ mapping count, build_minimised_mapping undef stale f labels sed = Some (Some (mapping, count)) ∧ bisimilar mapping count ∧
    (zeroed stale → no_outputs → ∀ s t, live f s → live f t → mapping !! N.to_nat s ≠ mapping !! N.to_nat t → apart f s t).
Proof.
  intros Hlab. unfold build_minimised_mapping. rewrite f_malloc_total. cbn [negb].
  rewrite arr_set_Some by (rewrite length_replicate; lia). cbn [mbind option_bind]. rewrite arr_set_Some by (rewrite length_insert, length_replicate; lia). cbn [mbind option_bind].
  destruct (populate_initial_ecs_spec f distance sed (λ s Hs, proj1 (distance_spec s Hs)) distance_inhabited small Hpos
    (mk_env (replicate (n + 1) undef) (<[1 := NO_ID]> (<[0 := NO_ID]> (replicate (n + 1) undef))) (replicate (n + 1) undef) 2 2 0))
    as (e0 & C0 & -> & Hp0 & H0').
  1, 2, 3: cbn [state_ecs ecs jump]; rewrite ?length_insert, length_replicate; lia.
  cbn [mbind option_bind negb]. destruct (split_ecs_by_end_metadata_spec f (length labels) e0 C0 small Hends Hp0) as (e1 & C1 & md & -> & Hcl1 & Hcol & H1').
  cbn [mbind option_bind negb]. destruct (refine_loop_spec stale f Hwf Hdet small labels Hlab (n + 1) e1 C1 Hcl1) as (e2 & C2 & -> & Hcl2 & Hr & Hst); [lia|].
  cbn [mbind option_bind]. pose proof (cl_lists _ _ _ Hcl2) as Hl2. destruct (live_class f e2 C2 0%N Hl2) as (i0 & l0 & Hi0 & _); [unfold live; lia|].
  destruct (lookup_lt_is_Some_2 C2 0) as [l Hl0]; [apply lookup_lt_Some in Hi0; lia|].
  destruct (holds_head f small e2 C2 0 l Hl2 Hl0) as (h & s & l' & _ & Eh & Hne & _). rewrite Eh. cbn [mbind option_bind]. rewrite (proj2 (N.eqb_neq _ _) Hne), (cl_count _ _ _ Hcl2), Nat.sub_0_r.
  destruct (map_ecs_spec e2 C2 (length C2) Hl2) as (mapping & -> & Lm & Hmap); [done|]. cbn [mbind option_bind].
  exists mapping, (length C2). split; [done|]. destruct (refined_all C1 C2 Hr) as [Hsub Hap]. assert (initial C0 C1 md) as Hinit by done.
  destruct (stable_bisimilar e2 C0 C1 C2 md mapping Hinit Hcl2 Hsub Hst Lm) as [Hb Hiff].
  { intros i li t Hi. apply Hmap; [by apply lookup_lt_Some in Hi|done]. }
  split; [done|]. intros Hz Hno x y Hx Hy Hxy. apply (Hap Hz); [|done|done|].
  - intros u v Hu Hv. by eapply initial_apart.
  - intros Hs. apply Hxy. by apply Hiff.
Qed.
End Mapping.
