(* ===== verification/ConsolidateSpec.v ===== *)
(** * Consolidation: the quotient of a deterministic automaton

    [fsm_consolidate] with a mapping that puts together states whose edges lead
    to states that are put together: the new automaton has their edges and end
    marks, and the end ids and eager outputs of all states mapped to one. *)

From S2P Require Import Prelude StateSet Bits EdgeSet EdgeIter EdgeCompact Probe Endids EagerOutput.
From S2P Require Import Lang Fsm FsmSpec Queue Search FsmCompact FsmInv Pred Trim Capture Combine Clone Closure Epsilons EpsilonsSpec.
From S2P Require Import InternedSet DetCache DetAnalysis DetSingle DetAnalysisSpec DetMap Determinise DetLoop DetBuild Consolidate.

(** ** Destinations after renumbering *)

Section Keys.
Context (remap : N → N) (keys : list N).

Definition info_ok (x : to_info) : Prop := new_to x = remap (old_to x) ∧ old_to x ∈ keys.

Lemma assign_loop_ok l : ∀ prev n, info_ok prev → Forall info_ok l → Forall info_ok (assign_loop prev l n).1.
Proof.
  induction l as [|x l IH]; intros prev n Hp Hl; cbn [assign_loop]; [done|]. apply Forall_cons in Hl as [Hx Hl].
  destruct (new_to x =? FSM_STATE_REMAP_NO_STATE)%N; [by apply Forall_cons|].
  set (y := mk_to_info (old_to x) (new_to x)). destruct (new_to x =? new_to prev)%N.
  - specialize (IH (y (assignment prev)) n Hx Hl). destruct (assign_loop _ l n). by apply Forall_cons.
  - specialize (IH (y (assignment prev +32 1)%cint) (n + 1) Hx Hl). destruct (assign_loop _ l (n + 1)). by apply Forall_cons.
Qed.

Lemma assign_ok l : Forall info_ok l → Forall info_ok (assign l).1.
Proof.
  destruct l as [|x l]; [done|]. intros [Hx Hl]%Forall_cons. cbn [assign]. pose proof (assign_loop_ok l (mk_to_info (old_to x) (new_to x) 0) 1 Hx Hl) as Ha.
  destruct (assign_loop _ l 1). by apply Forall_cons.
Qed.

Definition key_ok (g : edge_group) : Prop := eg_to g = 0%N ∨ ∃ t, t ∈ keys ∧ eg_to g = remap t.

Lemma condense_ok ps : ∀ gs, Forall key_ok gs → Forall (λ p, info_ok p.1) ps → Forall key_ok (foldl condense gs ps).
Proof.
  induction ps as [|[x g] ps IH]; intros gs Hg Hp; cbn [foldl]; [done|]. apply Forall_cons in Hp as [Hx Hp]. apply IH; [|done].
  unfold condense. destruct (new_to x =? FSM_STATE_REMAP_NO_STATE)%N; [done|]. apply Forall_alter; [done|]. intros h _ _. right. exists (old_to x).
  by destruct Hx.
Qed.
End Keys.

Lemma edge_set_compact_keys `{alloc_total} p al remap t :
  edge_set_empty p = false → t ∈ edge_keys (edge_set_compact p al remap).2 → t = 0%N ∨ ∃ t', t' ∈ edge_keys p ∧ t = remap t'.
Proof.
  intros He. unfold edge_set_compact. rewrite He. destruct p as [s|]; [|done]. rewrite f_malloc_total, f_calloc_total.
  set (info0 := (λ eg, mk_to_info (eg_to eg) (remap (eg_to eg)) 4294967295) <$> es_groups s).
  set (ks := edge_keys (Some s)).
  assert (Forall (info_ok remap ks) (assign (merge_sort collate_info_by_new_to info0)).1) as Hok.
  { apply assign_ok. rewrite merge_sort_Permutation. apply Forall_fmap, Forall_forall. intros g Hg. split; [done|]. exact (list_elem_of_fmap_2 eg_to _ _ Hg). }
  destruct (assign _) as [info n]. cbn [fst snd] in *. intros (g & -> & Hg)%list_elem_of_fmap. cbn [set_groups es_groups] in Hg.
  apply list_elem_of_lookup in Hg as [i Hi]. apply lookup_take_Some in Hi as [Hi _].
  assert (Forall (key_ok remap ks) (foldl condense (replicate (es_ceil s) zero_group) (zip (merge_sort collate_info_by_old_to info) (es_groups s)))) as Hall.
  { apply condense_ok; [apply Forall_replicate; by left|]. apply Forall_forall. intros [x h] Hx%elem_of_zip_l. rewrite merge_sort_Permutation in Hx.
    rewrite Forall_forall in Hok. by apply Hok. }
  rewrite Forall_lookup in Hall. by apply (Hall i).
Qed.

(** ** End ids and eager outputs *)

Lemma union_length l l1 l2 : NoDup l → (∀ x : N, x ∈ l → x ∈ l1 ∨ x ∈ l2) → length l ≤ length l1 + length l2.
Proof.
  intros Hn Hu. rewrite <-length_app. apply submseteq_length, NoDup_submseteq; [done|]. intros x Hx. apply elem_of_app. auto.
Qed.

Section Metadata.
Context `{alloc_total} (mapping : list N).
Hypothesis Hmap : ∀ i m, mapping !! i = Some m → m ≠ BUCKET_NO_STATE.

Lemma consolidate_end_ids_loop bs : ∀ dst,
  endid_wf (f_endid_info dst) → (∀ k e, Some (k, e) ∈ bs → ids_wf e ∧ is_Some (mapping !! N.to_nat k)) →
  (∀ k, (N.of_nat (length (endids (f_endid_info dst) k) + endid_total bs) < 1073741824)%N) →
  (N.of_nat (ei_buckets_used (f_endid_info dst) + length (entries bs)) < 1073741824)%N →
  ∃ ei', iter_bulk_loop bs (consolidate_end_ids_cb mapping) (Some (true, dst)) = (true, Some (true, with_endid_info dst ei')) ∧
    endid_wf ei' ∧
    (∀ k x, x ∈ endids ei' k ↔ x ∈ endids (f_endid_info dst) k ∨
       ∃ k' e, Some (k', e) ∈ bs ∧ mapping !! N.to_nat k' = Some k ∧ x ∈ eii_ids e).
Proof.
  induction bs as [|[[k e]|] bs IH]; intros dst Hw Hbs Hlen Hroom; cbn [iter_bulk_loop].
  - exists (f_endid_info dst). split; [by destruct dst|]. split; [done|]. intros k x. split; [by left|].
    intros [?|(? & ? & ?%not_elem_of_nil & _)]; done.
  - rewrite entries_cons in Hroom. cbn [fmap list_fmap length] in Hroom.
    destruct (Hbs k e ltac:(left)) as (He & m & Hm).
    change (endid_total (Some (k, e) :: bs)) with (length (eii_ids e) + endid_total bs) in Hlen.
    assert (endid_room (f_endid_info dst)) as Hr by (unfold endid_room; lia).
    unfold consolidate_end_ids_cb at 1. rewrite Hm.
    assert (eii_ids e ≠ []) as Hne by (destruct He as [_ [Hp _]]; destruct (eii_ids e); [simpl in Hp; lia|done]).
    destruct (fsm_endid_set_bulk_spec (f_alloc dst) (f_endid_info dst) m (eii_ids e) FSM_ENDID_BULK_APPEND)
      as (ei1 & E1 & W1 & K1 & K2); [done|done|by apply (Hmap (N.to_nat k))|done|apply He|specialize (Hlen m); lia|].
    rewrite E1. destruct (IH (with_endid_info dst ei1)) as (ei' & E' & W' & K'); cbn.
    + done.
    + intros k' e' Hin. apply Hbs. by right.
    + intros j. destruct (decide (j = m)) as [->|Hj]; [|rewrite K1 by done; specialize (Hlen j); lia].
      assert (length (endids ei1 m) ≤ length (eii_ids e) + length (endids (f_endid_info dst) m)); [|specialize (Hlen m); lia].
      apply union_length; [by apply increasing_NoDup, endids_increasing|]. intros x Hx%K2. naive_solver.
    + pose proof (fsm_endid_set_bulk_used _ _ _ _ _ _ _ Hw Hr (Hmap _ _ Hm) E1). lia.
    + cbn in *. exists ei'. split; [done|]. split; [done|]. intros j x. rewrite K'.
      assert (x ∈ endids ei1 j ↔ x ∈ endids (f_endid_info dst) j ∨ m = j ∧ x ∈ eii_ids e) as ->.
      { destruct (decide (j = m)) as [->|Hj]; [rewrite K2|rewrite K1 by done]; naive_solver. }
      setoid_rewrite elem_of_cons. split.
      * intros [[?|[-> ?]]|(k' & e' & ?)]; [by left|right; exists k, e; naive_solver|right; exists k', e'; naive_solver].
      * intros [?|(k' & e' & [[= -> ->]|Hin] & Hk & Hx)]; [by left; left|left; right; split; [congruence|done]|right; eauto].
  - destruct (IH dst) as (ei' & E' & W' & K'); [done|intros k e Hin; apply Hbs; by right|done|done|].
    exists ei'. split; [done|]. split; [done|]. intros k x. rewrite K'. setoid_rewrite elem_of_cons. naive_solver.
Qed.

Lemma consolidate_eager_ids k m ids : mapping !! N.to_nat k = Some m → Forall id_ok ids → ∀ dst,
  eager_wf (f_eager_output_info dst) →
  (N.of_nat (eo_buckets_used (f_eager_output_info dst) + length ids) < 1073741824)%N →
  ∃ dst', iter_ids (consolidate_eager_output_ids_cb mapping) k ids (Some (true, dst)) = (true, Some (true, dst')) ∧
    same_core dst dst' ∧ f_endid_info dst' = f_endid_info dst ∧
    eager_wf (f_eager_output_info dst') ∧
    eo_buckets_used (f_eager_output_info dst') ≤ eo_buckets_used (f_eager_output_info dst) + length ids ∧
    (∀ j x, x ∈ eager_outputs (f_eager_output_info dst') j ↔ x ∈ eager_outputs (f_eager_output_info dst) j ∨ m = j ∧ x ∈ ids).
Proof.
  intros Hm. induction ids as [|id ids IH]; intros Hall dst Hw Hr; cbn [iter_ids].
  { exists dst. do 4 (split; [done|]). split; [simpl; lia|]. intros j x. split; [by left|]. by intros [?|[_ ?%not_elem_of_nil]]. }
  apply Forall_cons in Hall as [Hid Hall]. simpl in Hr. assert (eager_room (f_eager_output_info dst)) as Hroom by (unfold eager_room; lia).
  unfold consolidate_eager_output_ids_cb at 1. rewrite Hm.
  destruct (fsm_eager_output_set_spec (f_alloc dst) (f_eager_output_info dst) m id Hw Hroom Hid)
    as (b & eo & mark & E & W & K1 & K2 & _ & Ht). assert (b = true) as -> by auto.
  destruct (eager_set dst m id) as [[ok d1]|] eqn:Es; [|unfold eager_set in Es; by rewrite E in Es].
  destruct (eager_set_core _ _ _ _ _ Es) as (C1 & C2 & C3 & (mk & C4)). rewrite E in C4. injection C4 as <- Heo <-.
  destruct (K2 eq_refl) as [K3 K4]. pose proof (fsm_eager_output_set_used _ _ _ _ _ _ _ Hw Hroom E) as Hu. cbn [andb].
  assert (∀ j x, x ∈ eager_outputs eo j ↔ x ∈ eager_outputs (f_eager_output_info dst) j ∨ m = j ∧ x = id) as Ho.
  { intros j x. destruct (decide (j = m)) as [->|Hj]; [|rewrite K1 by done; naive_solver]. rewrite K3. destruct mark.
    - rewrite elem_of_app, list_elem_of_singleton. naive_solver.
    - split; [by left|]. intros [?|[_ ->]]; [done|by apply K4]. }
  destruct (IH Hall d1) as (d2 & E2 & S1 & S2 & S3 & S4 & S5); [by rewrite <-Heo|rewrite <-Heo; lia|].
  exists d2. split; [exact E2|]. split; [by etrans|]. split; [congruence|]. split; [done|].
  rewrite <-Heo in S4, S5. split; [simpl; lia|]. intros j x. rewrite S5, Ho, elem_of_cons. naive_solver.
Qed.

Lemma consolidate_eager_loop bs : ∀ dst,
  eager_wf (f_eager_output_info dst) → (∀ k e, Some (k, e) ∈ bs → entry_wf e ∧ is_Some (mapping !! N.to_nat k)) →
  (N.of_nat (eo_buckets_used (f_eager_output_info dst) + eager_total bs) < 1073741824)%N →
  ∃ dst', iter_all_loop bs (consolidate_eager_output_ids_cb mapping) (Some (true, dst)) = Some (true, dst') ∧
    same_core dst dst' ∧ f_endid_info dst' = f_endid_info dst ∧ eager_wf (f_eager_output_info dst') ∧
    (∀ k x, x ∈ eager_outputs (f_eager_output_info dst') k ↔ x ∈ eager_outputs (f_eager_output_info dst) k ∨
       ∃ k' e, Some (k', e) ∈ bs ∧ mapping !! N.to_nat k' = Some k ∧ x ∈ eoe_ids e).
Proof.
  induction bs as [|[[k e]|] bs IH]; intros dst Hw Hbs Hr; cbn [iter_all_loop].
  - exists dst. do 4 (split; [done|]). intros k x. split; [by left|]. intros [?|(? & ? & ?%not_elem_of_nil & _)]; done.
  - change (eager_total (Some (k, e) :: bs)) with (length (eoe_ids e) + eager_total bs) in Hr.
    destruct (Hbs k e ltac:(left)) as ((_ & _ & _ & Hids) & m & Hm).
    destruct (consolidate_eager_ids k m (eoe_ids e) Hm Hids dst) as (d1 & -> & S1 & S2 & S3 & S4 & S5); [done|lia|].
    destruct (IH d1) as (d2 & E2 & T1 & T2 & T3 & T4); [done|intros k' e' Hin; apply (Hbs k' e'); by right|lia|].
    exists d2. split; [exact E2|]. split; [by etrans|]. split; [congruence|]. split; [done|].
    intros j x. rewrite T4, S5. setoid_rewrite elem_of_cons. split.
    + intros [[?|[-> ?]]|(k' & e' & ?)]; [by left|right; exists k, e; naive_solver|right; exists k', e'; naive_solver].
    + intros [?|(k' & e' & [[= -> ->]|Hin] & Hk & Hx)]; [by left; left|left; right; split; [congruence|done]|right; eauto].
  - destruct (IH dst) as (d2 & E2 & T1 & T2 & T3 & T4); [done|intros k e Hin; apply (Hbs k e); by right|done|].
    exists d2. do 4 (split; [done|]). intros k x. rewrite T4. setoid_rewrite elem_of_cons. naive_solver.
Qed.
End Metadata.

(** ** One state *)

(** What a state of the new automaton is that takes its edges from [r]. *)
Record taken (mapping : list N) (src : fsm) (n : nat) (st : fsm_state) (r : N) : Prop := {
  tk_ok : state_ok n st;
  tk_eps t : ¬ ss_has (st_epsilons st) t;
  tk_edge c t : has_edge (st_edges st) c t ↔ ∃ u, has_edge (st_edges (get_state src r)) c u ∧ mapping_cb mapping u = t;
  tk_end : st_end st = fsm_isend src r;
}.

Section States.
Context `{allocator, !alloc_total} (mapping : list N) (src : fsm) (n : nat).
Hypothesis Hwf : fsm_wf src.
Hypothesis Hlen : length mapping = f_statecount src.
Hypothesis Hrange : ∀ i m, mapping !! i = Some m → N.to_nat m < n.
Hypothesis Hn : (N.of_nat n < 2147483648)%N.

Lemma mapping_live t : live src t → ∃ m, mapping !! N.to_nat t = Some m ∧ mapping_cb mapping t = m ∧ N.to_nat m < n.
Proof.
  unfold live. rewrite <-Hlen. intros [m Hm]%lookup_lt_is_Some_2. exists m. split; [done|]. unfold mapping_cb. rewrite Hm. eauto.
Qed.

Lemma consolidate_edges al p0 :
  0 < n → edge_set_wf p0 → (∀ t, t ∈ edge_keys p0 → live src t) →
  ∃ p, edge_set_copy None al p0 = Some (true, p) ∧ edge_set_empty p || in_mapping mapping (edge_keys p) = true ∧
    edge_set_wf (edge_set_compact p al (mapping_cb mapping)).2 ∧
    (∀ t, t ∈ edge_keys (edge_set_compact p al (mapping_cb mapping)).2 → N.to_nat t < n) ∧
    (∀ c t, has_edge (edge_set_compact p al (mapping_cb mapping)).2 c t ↔ ∃ u, has_edge p0 c u ∧ mapping_cb mapping u = t).
Proof.
  intros Hpos Hw Hk. destruct (edge_set_copy_spec al None p0) as (b & p & E & Hwp & He & Ht); [done|done|done|].
  rewrite (Ht ltac:(done)) in E, He. specialize (He eq_refl).
  assert (∀ t, t ∈ edge_keys p → live src t) as Hkp.
  { intros t Hin. destruct (edge_set_copy_keys al None p0 _ _ t E Hin) as [[]%not_elem_of_nil|?]. by apply Hk. }
  assert (∀ c t, has_edge p c t ↔ has_edge p0 c t) as He'.
  { intros c t. rewrite He. split; [|by right]. intros [Hx%has_edge_key|?]; [by apply not_elem_of_nil in Hx|done]. }
  exists p. split; [done|]. split.
  { apply orb_true_iff. right. apply forallb_forall. intros t Ht'%list_elem_of_In%Hkp. unfold live in Ht'. apply N.ltb_lt. lia. }
  destruct (edge_set_compact p al (mapping_cb mapping)) as [b' p'] eqn:Ec.
  pose proof (edge_set_compact_total p al (mapping_cb mapping)) as Hb. rewrite Ec in Hb. cbn in Hb. subst b'.
  pose proof (edge_set_compact_spec p al (mapping_cb mapping) true p' Hwp) as Hs. destruct Hs as (W & G & _).
  { intros t Hin. destruct (mapping_live t) as (m & _ & -> & ?); [by apply Hkp|lia]. }
  { done. }
  cbn [snd]. split; [done|]. split.
  - intros t Hin. destruct (edge_set_empty p) eqn:Ee.
    + unfold edge_set_compact in Ec. rewrite Ee in Ec. injection Ec as <-.
      unfold edge_set_copy in E. destruct (edge_set_empty p0) eqn:E0; [injection E as <-; by apply not_elem_of_nil in Hin|].
      exfalso. assert (edge_set_empty p0 = true); [|congruence]. apply edge_set_empty_spec; [done|].
      intros c u Hc%He'. by apply (edge_set_empty_edge p c u).
    + pose proof (edge_set_compact_keys p al (mapping_cb mapping) t Ee) as Hkeys. rewrite Ec in Hkeys.
      destruct (Hkeys Hin) as [->|(t' & Ht' & ->)]; [done|]. by destruct (mapping_live t' (Hkp t' Ht')) as (m & _ & -> & ?).
  - intros c t. rewrite G. setoid_rewrite He'. split; [by intros [_ ?]|]. intros (u & Hu & <-). split; [|by exists u].
    destruct (mapping_live u) as (m & _ & -> & ?); [by eapply Hk, has_edge_key|]. unfold FSM_STATE_REMAP_NO_STATE. lia.
Qed.

Lemma consolidate_eps al e0 :
  state_set_wf e0 → (∀ t, ¬ ss_has e0 t) →
  ∃ e e', state_set_copy SSNull al e0 = (true, e) ∧ in_mapping mapping (ss_elems e) = true ∧
    state_set_compact e (mapping_cb mapping) = Some e' ∧ state_set_wf e' ∧ ∀ t, ¬ ss_has e' t.
Proof.
  intros Hw Hno. destruct (state_set_copy_total SSNull al e0) as [e E].
  destruct (state_set_copy_extends SSNull al e0 e ltac:(by_compute) Hw E) as [We Hx].
  assert (ss_elems e = []) as Hnil.
  { apply elem_of_nil_inv. intros x Hin. apply Hx in Hin as [Hin|Hin]; [by apply not_elem_of_nil in Hin|by apply (Hno x)]. }
  exists e, e. split; [done|]. rewrite Hnil. split; [done|]. split.
  - destruct e as [|s|a l m]; [done|done|]. cbn in Hnil. by subst l.
  - split; [done|]. intros t. unfold ss_has. rewrite Hnil. apply not_elem_of_nil.
Qed.
Definition blank_at (dst : fsm) (k : N) : Prop :=
  st_edges (get_state dst k) = None ∧ st_epsilons (get_state dst k) = SSNull ∧ fsm_isend dst k = false.

Lemma consolidate_state_spec dst r k :
  fsm_wf dst → f_statecount dst = n → live dst k → blank_at dst k → live src r → (∀ t, ¬ ss_has (st_epsilons (get_state src r)) t) →
  ∃ dst', consolidate_state mapping src dst r k = Some (true, dst') ∧ fsm_wf dst' ∧ same_frame dst dst' ∧
    (∀ j, j ≠ k → get_state dst' j = get_state dst j) ∧ taken mapping src n (get_state dst' k) r.
Proof.
  intros Hd Hc Hk (Be & Bp & Bd) Hr Hno. destruct (wf_states _ Hwf r Hr) as (W1 & W2 & W3 & W4).
  destruct (consolidate_eps (f_alloc dst) _ W2 Hno) as (e & e' & E1 & E2 & E3 & We & Ne).
  destruct (consolidate_edges (f_alloc dst) _ ltac:(unfold live in Hk; lia) W1 W3) as (p & P1 & P2 & P3 & P4 & P5).
  set (p' := (edge_set_compact p (f_alloc dst) (mapping_cb mapping)).2) in *.
  pose proof (wf_alloc _ Hd) as Ha. unfold live in Hk.
  unfold consolidate_state. rewrite Bp, E1. cbn [negb]. rewrite E2. cbn [negb]. rewrite E3. cbn [mbind option_bind].
  set (d1 := upd_state dst k (set_epsilons e)). set (d2 := upd_state d1 k (set_epsilons e')).
  assert (length (f_states d1) = length (f_states dst)) as L1 by apply length_alter.
  assert (length (f_states d2) = length (f_states dst)) as L2 by (unfold d2; cbn; by rewrite !length_alter).
  assert (st_edges (get_state d2 k) = None) as ->.
  { unfold d2. rewrite get_upd, decide_True by (done || lia). cbn. unfold d1. by rewrite get_upd, decide_True by (done || lia). }
  change (f_alloc d2) with (f_alloc dst). rewrite P1. cbn [mbind option_bind negb]. rewrite P2. cbn [negb].
  change (f_alloc (upd_state d2 k (set_edges p))) with (f_alloc dst). fold p'.
  set (d3 := upd_state (upd_state d2 k (set_edges p)) k (set_edges p')).
  set (st := mk_state p' e' (st_end (get_state dst k)) (st_has_capture_actions (get_state dst k)) (st_visited (get_state dst k))
    (st_has_eager_outputs (get_state dst k))).
  assert (d3 = upd_state dst k (λ _, st)) as Hd3.
  { unfold d3, d2, d1, upd_state, with_states. cbn. f_equal. rewrite !list_alter_alter_eq. apply list_alter_ext; [|done].
    intros x Hx. unfold st, get_state. by rewrite (list_lookup_total_correct _ _ _ Hx). }
  assert (state_ok n st) as Hst.
  { split; [done|]. split; [done|]. split; [done|]. intros t Ht. by destruct (Ne t). }
  assert (fsm_wf d3) as Hw3.
  { rewrite Hd3. apply fsm_wf_upd; [done|unfold live; lia|by rewrite Hc|done]. }
  assert (∀ j, get_state d3 j = if decide (j = k) then st else get_state dst j) as G3.
  { intros j. rewrite Hd3, get_upd by lia. done. }
  assert (same_frame dst d3) as F3 by (rewrite Hd3; apply same_frame_upd).
  assert (f_statecount d3 = n) as C3 by (by rewrite Hd3). assert (length (f_states d3) = length (f_states dst)) as L3 by apply F3.
  clearbody d3. destruct (fsm_isend src r) eqn:Er.
  - exists (fsm_setend d3 k true). split; [done|]. destruct (fsm_setend_spec d3 k true) as [Hw4 _]; [done|unfold live; lia|].
    split; [done|]. split; [eapply same_frame_trans; [exact F3|apply same_frame_setend]|]. split.
    + intros j Hj. rewrite get_state_setend by lia. by rewrite decide_False, G3, decide_False.
    + rewrite get_state_setend by lia. rewrite decide_True, G3, decide_True by done. split; [exact Hst|exact Ne|exact P5|by rewrite Er].
  - exists d3. split; [done|]. split; [done|]. split; [done|]. split; [intros j Hj; by rewrite G3, decide_False|].
    rewrite G3, decide_True by done. split; [exact Hst|exact Ne|exact P5|by rewrite Er].
Qed.

(** The states of the new automaton after the first [i] states. *)
Record consolidating (i : nat) (seen : list N) (dst0 dst : fsm) : Prop := {
  cg_wf : fsm_wf dst;
  cg_frame : same_frame dst0 dst;
  cg_words : length seen = length mapping / 64 + 1;
  cg_seen k : bs_get seen k = true ↔ ∃ j, j < i ∧ mapping !! j = Some (N.of_nat k);
  cg_blank k : N.to_nat k < n → bs_get seen (N.to_nat k) = false → blank_at dst k;
  cg_taken k : N.to_nat k < n → bs_get seen (N.to_nat k) = true →
    ∃ r, r < i ∧ mapping !! r = Some k ∧ taken mapping src n (get_state dst k) (N.of_nat r);
}.

Lemma consolidate_states_spec dst0 :
  (∀ s t, live src s → ¬ ss_has (st_epsilons (get_state src s)) t) → f_statecount dst0 = n → n ≤ length mapping → ∀ m i seen dst,
  i + m = length mapping → consolidating i seen dst0 dst →
  ∃ seen' dst', consolidate_states mapping src (N.of_nat <$> seq i m) seen dst = Some (true, dst') ∧
    consolidating (length mapping) seen' dst0 dst'.
Proof.
  intros Hno Hc Hnm. induction m as [|m IH]; intros i seen dst Him [Q1 Q2 Q3 Q4 Q5 Q6]; cbn [seq fmap list_fmap consolidate_states].
  { exists seen, dst. split; [done|]. replace (length mapping) with i by lia. by split. }
  assert (live src (N.of_nat i)) as Hi by (unfold live; lia).
  destruct (mapping_live _ Hi) as (k & Hk & _ & Hkn). rewrite Hk. cbn [mbind option_bind]. rewrite Nat2N.id in Hk.
  assert (N.to_nat k / 64 < length seen) as Hw.
  { rewrite Q3. pose proof (Nat.Div0.div_le_mono (N.to_nat k) (length mapping) 64 ltac:(lia)). lia. }
  rewrite (proj2 (Nat.ltb_lt _ _) Hw). fold (bs_get seen (N.to_nat k)). destruct (bs_get seen (N.to_nat k)) eqn:Es.
  - apply (IH (S i)); [lia|]. split; [done|done|done| |done|].
    + intros j. rewrite Q4. split; [intros (a & ? & ?); exists a; split; [lia|done]|]. intros (a & Ha & E).
      destruct (decide (a = i)) as [->|]; [|exists a; split; [lia|done]]. apply Q4. rewrite <-Es. f_equal. rewrite Hk in E. injection E as ->. lia.
    + intros j Hj Hs. destruct (Q6 j Hj Hs) as (r & ? & ?). exists r. split; [lia|done].
  - destruct (consolidate_state_spec dst (N.of_nat i) k) as (d1 & -> & D1 & D2 & D3 & D4); [done| | |by apply Q5|done|intros t; by apply Hno|].
    { by rewrite (same_frame_count _ _ Q2). } { unfold live. by rewrite (same_frame_count _ _ Q2), Hc. }
    cbn [mbind option_bind]. apply (IH (S i)); [lia|].
    assert (∀ j, bs_get (u64bitset_set seen (N.to_nat k)) j = bs_get seen j || (j =? N.to_nat k)) as Hset by (intros; by apply bs_get_set).
    split; [done|by eapply same_frame_trans|unfold u64bitset_set; by rewrite length_insert|..].
    + intros j. rewrite Hset, orb_true_iff, Q4, Nat.eqb_eq. split.
      * intros [(a & ? & ?)| ->]; [exists a; split; [lia|done]|exists i; split; [lia|by rewrite N2Nat.id]].
      * intros (a & Ha & E). destruct (decide (a = i)) as [->|]; [right; rewrite Hk in E; injection E as ->; lia|left; exists a; split; [lia|done]].
    + intros j Hj. rewrite Hset. intros [? Hne%Nat.eqb_neq]%orb_false_iff. unfold blank_at, fsm_isend. rewrite (D3 j) by congruence. by apply Q5.
    + intros j Hj. rewrite Hset. intros Hor. destruct (decide (j = k)) as [->|Hjk].
      * exists i. split; [lia|]. done.
      * apply orb_true_iff in Hor as [Hs|E%Nat.eqb_eq]; [|lia]. destruct (Q6 j Hj Hs) as (r & ? & ? & ?). exists r. rewrite D3 by done.
        split; [lia|done].
Qed.
End States.

(** ** The whole function *)

(** A mapping to [count] states that keeps edges and end marks. *)
Record quotient (src : fsm) (mapping : list N) (count : nat) : Prop := {
  qu_length : length mapping = f_statecount src;
  qu_count : count ≤ f_statecount src;
  qu_range s k : mapping !! N.to_nat s = Some k → N.to_nat k < count;
  qu_onto k : N.to_nat k < count → ∃ s, mapping !! N.to_nat s = Some k;
  qu_edge s t c u : live src s → live src t → mapping !! N.to_nat s = mapping !! N.to_nat t → f_edge src s c u →
    ∃ v, f_edge src t c v ∧ mapping !! N.to_nat u = mapping !! N.to_nat v;
  qu_end s t : live src s → live src t → mapping !! N.to_nat s = mapping !! N.to_nat t → f_end src s → f_end src t;
}.

Record consolidated (src : fsm) (mapping : list N) (count : nat) (dst : fsm) : Prop := {
  co_wf : fsm_wf dst;
  co_count : f_statecount dst = count;
  co_alloc : f_alloc dst = f_alloc src;
  co_edge s k c t : mapping !! N.to_nat s = Some k → f_edge dst k c t ↔ ∃ u, f_edge src s c u ∧ mapping !! N.to_nat u = Some t;
  co_eps s t : ¬ f_eps dst s t;
  co_end s k : mapping !! N.to_nat s = Some k → f_end dst k ↔ f_end src s;
  co_start k : fsm_getstart dst = Some k ↔ ∃ s, fsm_getstart src = Some s ∧ mapping !! N.to_nat s = Some k;
  co_endid_wf : endid_wf (f_endid_info dst);
  co_endids k x : x ∈ endids (f_endid_info dst) k ↔ ∃ s, mapping !! N.to_nat s = Some k ∧ x ∈ endids (f_endid_info src) s;
  co_eager_wf : eager_wf (f_eager_output_info dst);
  co_eager k x : x ∈ eager_outputs (f_eager_output_info dst) k ↔
    ∃ s, mapping !! N.to_nat s = Some k ∧ x ∈ eager_outputs (f_eager_output_info src) s;
}.

Lemma max_used_spec mapping count :
  0 < count → (∀ i k, mapping !! i = Some k → N.to_nat k < count) → (∃ i, mapping !! i = Some (N.of_nat (count - 1))) →
  N.to_nat (max_used mapping) + 1 = count.
Proof.
  intros Hc Hr (i & Hi). unfold max_used.
  assert (∀ l m, (m ≤ foldl (λ m x, if (m <=? x)%N then x else m) m l)%N ∧ (∀ x, x ∈ l → x ≤ foldl (λ m x, if (m <=? x)%N then x else m) m l)%N ∧
    (foldl (λ m x, if (m <=? x)%N then x else m) m l = m ∨ foldl (λ m x, if (m <=? x)%N then x else m) m l ∈ l)) as Hm.
  { induction l as [|y l IH]; intros m; cbn [foldl]; [split; [lia|]; split; [by intros x ?%not_elem_of_nil|by left]|].
    destruct (IH (if (m <=? y)%N then y else m)) as (A & B & D). set (r := foldl _ _ l) in *. clearbody r. clear IH.
    assert (m ≤ r ∧ y ≤ r)%N as [A1 A2] by (destruct (N.leb_spec m y); lia).
    split; [done|]. split; [intros x [->|Hx]%elem_of_cons; [done|by apply B]|]. rewrite elem_of_cons.
    destruct D as [->|?]; [|by right; right]. destruct (m <=? y)%N; [by right; left|by left]. }
  destruct (Hm mapping 0%N) as (_ & A & B). set (r := foldl _ _ mapping) in *. clearbody r.
  specialize (A _ (list_elem_of_lookup_2 _ _ _ Hi)). destruct B as [->|(j & Hj)%list_elem_of_lookup]; [lia|]. specialize (Hr j r Hj). lia.
Qed.

Section Consolidate.
Context `{allocator, !alloc_total} (src : fsm) (mapping : list N) (count : nat).
Hypothesis Hwf : fsm_wf src.
Hypothesis Hmeta : fsm_meta src.
Hypothesis Hcap : no_captures src.
Hypothesis Hq : quotient src mapping count.
Hypothesis Hno : ∀ s t, ¬ f_eps src s t.
Hypothesis Hpos : 0 < count.
Hypothesis Hsmall : (N.of_nat count < 2147483648)%N.
Hypothesis Hids : (N.of_nat (endid_total (ei_buckets (f_endid_info src))) < 1073741824)%N.
Hypothesis Houts : (N.of_nat (eager_total (eo_buckets (f_eager_output_info src))) < 1073741824)%N.

Lemma quotient_live s k : mapping !! N.to_nat s = Some k → live src s.
Proof. intros Hs%lookup_lt_Some. unfold live. by rewrite <-(qu_length _ _ _ Hq). Qed.

Lemma quotient_bucket i k : mapping !! i = Some k → k ≠ BUCKET_NO_STATE.
Proof.
  intros Hi ->. pose proof (qu_range _ _ _ Hq (N.of_nat i) BUCKET_NO_STATE) as Hr. rewrite Nat2N.id in Hr.
  specialize (Hr Hi). unfold BUCKET_NO_STATE in Hr. lia.
Qed.

Lemma quotient_taken dst seen dst0 s k :
  consolidating mapping src count (length mapping) seen dst0 dst → mapping !! N.to_nat s = Some k →
  ∃ r, live src r ∧ mapping !! N.to_nat r = Some k ∧ taken mapping src count (get_state dst k) r.
Proof.
  intros [Q1 Q2 Q3 Q4 Q5 Q6] Hs. destruct (Q6 k (qu_range _ _ _ Hq s k Hs)) as (r & Hr & Hrk & Ht).
  { apply Q4. exists (N.to_nat s). split; [by apply lookup_lt_Some in Hs|by rewrite N2Nat.id]. }
  exists (N.of_nat r). rewrite Nat2N.id. split; [|done]. unfold live. rewrite Nat2N.id. by rewrite <-(qu_length _ _ _ Hq).
Qed.

Lemma consolidated_edge dst seen dst0 s k c t :
  f_statecount dst = count → consolidating mapping src count (length mapping) seen dst0 dst →
  mapping !! N.to_nat s = Some k → f_edge dst k c t ↔ ∃ u, f_edge src s c u ∧ mapping !! N.to_nat u = Some t.
Proof.
  intros Hc Hcg Hs. pose proof (qu_range _ _ _ Hq s k Hs) as Hk. destruct (quotient_taken dst seen dst0 s k Hcg Hs) as (r & Lr & Hr & Ht).
  pose proof (quotient_live s k Hs) as Ls. unfold f_edge at 1. rewrite (tk_edge _ _ _ _ _ Ht). split.
  - intros [_ (u & Hu & <-)]. destruct (qu_edge _ _ _ Hq r s c u Lr Ls ltac:(congruence) (conj Lr Hu)) as (v & Hv & E).
    exists v. split; [done|]. rewrite <-E.
    pose proof (proj1 (proj2 (proj2 (wf_states _ Hwf _ Lr))) u (has_edge_key _ _ _ Hu)) as Lu. rewrite <-(qu_length _ _ _ Hq) in Lu.
    apply lookup_lt_is_Some_2 in Lu as [m Hm]. unfold mapping_cb. by rewrite Hm.
  - intros (u & Hu & E). split; [unfold live; by rewrite Hc|].
    destruct (qu_edge _ _ _ Hq s r c u Ls Lr ltac:(congruence) Hu) as (v & [_ Hv] & E'). exists v. split; [done|].
    unfold mapping_cb. by rewrite <-E', E.
Qed.

Lemma consolidated_end dst seen dst0 s k :
  f_statecount dst = count → consolidating mapping src count (length mapping) seen dst0 dst →
  mapping !! N.to_nat s = Some k → f_end dst k ↔ f_end src s.
Proof.
  intros Hc Hcg Hs. pose proof (qu_range _ _ _ Hq s k Hs) as Hk. destruct (quotient_taken dst seen dst0 s k Hcg Hs) as (r & Lr & Hr & Ht).
  pose proof (quotient_live s k Hs) as Ls. unfold f_end at 1, fsm_isend at 1. rewrite (tk_end _ _ _ _ _ Ht). split.
  - intros [_ He]. eapply (qu_end _ _ _ Hq r s); [done|done|congruence|by split].
  - intros He. split; [unfold live; by rewrite Hc|]. eapply (qu_end _ _ _ Hq s r); [done|done|congruence|done].
Qed.

Lemma consolidated_eps dst seen dst0 k t :
  f_statecount dst = count → consolidating mapping src count (length mapping) seen dst0 dst → ¬ f_eps dst k t.
Proof.
  intros Hc Hcg [Hk Ht]. unfold live in Hk. rewrite Hc in Hk. destruct (qu_onto _ _ _ Hq k Hk) as [s Hs].
  destruct (quotient_taken dst seen dst0 s k Hcg Hs) as (r & Lr & Hr & Htk). by apply (tk_eps _ _ _ _ _ Htk t).
Qed.
Lemma entries_total bs : (∀ k e, Some (k, e) ∈ bs → ids_wf e) → length (entries bs) ≤ endid_total bs.
Proof.
  induction bs as [|[[k e]|] bs IH]; intros Hb; [by cbn| |apply IH; intros k e Hin; apply (Hb k e); by right].
  rewrite entries_cons. change (endid_total (Some (k, e) :: bs)) with (length (eii_ids e) + endid_total bs).
  destruct (Hb k e ltac:(left)) as [_ [Hp _]]. cbn [length]. specialize (IH ltac:(intros k' e' Hin; apply (Hb k' e'); by right)). lia.
Qed.

Lemma consolidate_end_ids_spec dst :
  f_endid_info dst = mk_endid_info (replicate DEF_BUCKET_COUNT None) 0 →
  ∃ ei', consolidate_end_ids dst src mapping = Some (true, with_endid_info dst ei') ∧ endid_wf ei' ∧
    ∀ k x, x ∈ endids ei' k ↔ ∃ s, mapping !! N.to_nat s = Some k ∧ x ∈ endids (f_endid_info src) s.
Proof.
  intros Hd. pose proof Hmeta as ((Hok & _ & _ & Hi) & _ & Hk & _).
  assert (∀ k, endids (f_endid_info dst) k = []) as Hnil.
  { intros k. rewrite Hd. unfold endids. destruct (table_get _ k) as [e|] eqn:E; [|done].
    apply table_get_spec in E; [|apply fresh_endid_wf]. by destruct (not_elem_of_empty_table DEF_BUCKET_COUNT k e). }
  destruct (consolidate_end_ids_loop mapping quotient_bucket (ei_buckets (f_endid_info src)) dst) as (ei & E & W & K).
  - rewrite Hd. apply fresh_endid_wf.
  - intros k e Hin. split; [by eapply Hi|]. apply lookup_lt_is_Some_2. rewrite (qu_length _ _ _ Hq). by eapply Hk.
  - intros k. rewrite Hnil. cbn [length]. lia.
  - rewrite Hd. cbn [ei_buckets_used]. pose proof (entries_total _ Hi). lia.
  - exists ei. unfold consolidate_end_ids, fsm_endid_iter_bulk. rewrite E. split; [done|]. split; [done|]. intros k x. rewrite K, Hnil. split.
    + intros [?%not_elem_of_nil|(s & e & Hin & Hs & Hx)]; [done|]. exists s. split; [done|]. unfold endids.
      apply (table_get_spec _ _ _ Hok) in Hin. by rewrite Hin.
    + intros (s & Hs & Hx). right. unfold endids in Hx. destruct (table_get _ s) as [e|] eqn:Eg; [|by apply not_elem_of_nil in Hx].
      apply table_get_spec in Eg; [|done]. by exists s, e.
Qed.

Lemma consolidate_eager_spec dst :
  f_eager_output_info dst = mk_eager 0 0 (replicate DEF_BUCKET_COUNT None) 0 →
  ∃ dst', consolidate_eager_output_ids dst src mapping = Some (true, dst') ∧ same_core dst dst' ∧ f_endid_info dst' = f_endid_info dst ∧
    eager_wf (f_eager_output_info dst') ∧
    ∀ k x, x ∈ eager_outputs (f_eager_output_info dst') k ↔ ∃ s, mapping !! N.to_nat s = Some k ∧ x ∈ eager_outputs (f_eager_output_info src) s.
Proof.
  intros Hd. pose proof Hmeta as (_ & (Hok & _ & _ & Hew) & _ & Hk).
  assert (∀ k, eager_outputs (f_eager_output_info dst) k = []) as Hnil.
  { intros k. rewrite Hd. unfold eager_outputs. destruct (table_get _ k) as [e|] eqn:E; [|done].
    apply table_get_spec in E; [|apply fresh_eager_wf]. by destruct (not_elem_of_empty_table DEF_BUCKET_COUNT k e). }
  destruct (consolidate_eager_loop mapping (eo_buckets (f_eager_output_info src)) dst) as (d & E & S & Ei & W & K).
  - rewrite Hd. apply fresh_eager_wf.
  - intros k e Hin. split; [by eapply Hew|]. apply lookup_lt_is_Some_2. rewrite (qu_length _ _ _ Hq). by eapply Hk.
  - rewrite Hd. cbn [eo_buckets_used]. lia.
  - exists d. split; [exact E|]. do 3 (split; [done|]). intros k x. rewrite K, Hnil. split.
    + intros [?%not_elem_of_nil|(s & e & Hin & Hs & Hx)]; [done|]. exists s. split; [done|]. unfold eager_outputs.
      apply (table_get_spec _ _ _ Hok) in Hin. by rewrite Hin.
    + intros (s & Hs & Hx). right. unfold eager_outputs in Hx. destruct (table_get _ s) as [e|] eqn:Eg; [|by apply not_elem_of_nil in Hx].
      apply table_get_spec in Eg; [|done]. by exists s, e.
Qed.

Lemma consolidating_blank dst :
  blank_fsm (f_alloc src) count dst →
  consolidating mapping src count 0 (replicate (length mapping / 64 + 1) 0%N) dst dst.
Proof.
  intros [B1 _ _ B3 _ _ _ B7]. assert (∀ k, bs_get (replicate (length mapping / 64 + 1) 0%N) k = false) as Hz.
  { intros k. rewrite bs_get_testbit. unfold word. destruct (replicate _ _ !! _) as [x|] eqn:E; [|apply N.bits_0].
    apply lookup_replicate in E as [-> _]. apply N.bits_0. }
  split; [apply B1|apply same_frame_refl|by rewrite length_replicate|..].
  - intros k. rewrite Hz. split; [done|]. intros (j & ? & _). lia.
  - intros k Hk _. apply B7. unfold live. by rewrite B3.
  - intros k Hk. by rewrite Hz.
Qed.
(** The start state, once the states are there. *)
Lemma consolidate_start dst :
  f_statecount dst = count → fsm_wf dst → fsm_getstart dst = None →
  ∃ dst', match fsm_getstart src with
    | Some src_start => dst_start ← mapping !! N.to_nat src_start; Some (fsm_setstart dst dst_start)
    | None => Some dst end = Some dst' ∧ fsm_wf dst' ∧
    dst' = mk_fsm (f_states dst) (f_alloc dst) (f_statecount dst) (f_endcount dst) (f_hasstart dst') (f_start dst')
      (f_capture_info dst) (f_endid_info dst) (f_eager_output_info dst) (f_linkage_info dst) ∧
    ∀ k, fsm_getstart dst' = Some k ↔ ∃ s, fsm_getstart src = Some s ∧ mapping !! N.to_nat s = Some k.
Proof.
  intros Hc Hw Hn. destruct (fsm_getstart src) as [s|] eqn:Es.
  - pose proof (wf_start _ Hwf s Es) as Hs. unfold live in Hs. rewrite <-(qu_length _ _ _ Hq) in Hs. apply lookup_lt_is_Some_2 in Hs as [k Hk].
    rewrite Hk. cbn [mbind option_bind]. exists (fsm_setstart dst k). split; [done|].
    split; [apply fsm_setstart_spec; [done|]; unfold live; rewrite Hc; by eapply qu_range|]. split; [done|]. intros j. cbn. split.
    + intros [= <-]. by exists s.
    + intros (s' & [= <-] & Hj). congruence.
  - exists dst. split; [done|]. split; [done|]. split; [by destruct dst|]. intros k. rewrite Hn. split; [done|]. by intros (s & ? & _).
Qed.

Lemma fsm_consolidate_spec : ∃ dst, fsm_consolidate src mapping = Some (Some dst) ∧ consolidated src mapping count dst.
Proof.
  assert (∀ i k, mapping !! i = Some k → N.to_nat k < count) as Hr.
  { intros i k Hk. apply (qu_range _ _ _ Hq (N.of_nat i)). by rewrite Nat2N.id. }
  unfold fsm_consolidate. rewrite (max_used_spec mapping count Hpos Hr).
  2:{ destruct (qu_onto _ _ _ Hq (N.of_nat (count - 1)) ltac:(lia)) as [s Hs]. by exists (N.to_nat s). }
  destruct (blank_bulk (f_alloc src) count ltac:(lia)) as (d0 & dst & -> & -> & Hb). pose proof Hb as [B1 (M1 & M2 & M3) B2 B3 B4 B5 B6 B7].
  cbn [negb]. rewrite B3, Nat.eqb_refl, f_calloc_total. cbn [negb].
  destruct (consolidate_states_spec mapping src count Hwf (qu_length _ _ _ Hq) Hr Hsmall dst) with (m := length mapping) (i := 0)
    (seen := replicate (length mapping / 64 + 1) 0%N) (dst := dst) as (seen & d1 & -> & Hcg); [|done| |done|by apply consolidating_blank|].
  { intros s t Hs Ht. by apply (Hno s t). } { rewrite (qu_length _ _ _ Hq). apply Hq. }
  pose proof Hcg as [Q1 [F1 F2] _ _ _ _]. cbn [mbind option_bind negb].
  assert (f_statecount d1 = count ∧ f_alloc d1 = f_alloc src ∧ fsm_getstart d1 = None ∧ f_endid_info d1 = f_endid_info dst ∧
    f_eager_output_info d1 = f_eager_output_info dst) as (C1 & C2 & C3 & C4 & C5).
  { rewrite F1. cbn. done. }
  unfold consolidate_copy_capture_actions, fsm_capture_action_iter. rewrite Hcap. change (entries []) with (@nil (N * fsm_capture_action)). cbn [consolidate_actions mbind option_bind negb].
  destruct (consolidate_end_ids_spec d1 ltac:(congruence)) as (ei & -> & We & Ke). cbn [mbind option_bind negb].
  destruct (consolidate_start (with_endid_info d1 ei)) as (d3 & -> & W3 & E3 & K3); [done|by split; apply Q1|done|]. cbn [mbind option_bind].
  destruct (consolidate_eager_spec d3) as (d4 & -> & S4 & I4 & Wo & Ko); [rewrite E3; cbn [f_eager_output_info with_endid_info]; congruence|].
  cbn [mbind option_bind]. exists d4. split; [done|]. pose proof S4 as (T1 & T2 & _ & _ & T5 & T6 & _).
  destruct (same_core_nfa _ _ S4) as (N1 & N2 & N3 & _). cbn in N1, N2, N3.
  split.
  - by eapply same_core_wf.
  - rewrite T1, E3. done.
  - rewrite T2, E3. done.
  - intros s k c t Hs. rewrite <-(consolidated_edge d1 seen dst s k c t C1 Hcg Hs), N1, E3. done.
  - intros s t. rewrite N2, E3. by apply (consolidated_eps d1 seen dst).
  - intros s k Hs. rewrite <-(consolidated_end d1 seen dst s k C1 Hcg Hs), N3, E3. done.
  - intros k. rewrite <-K3. unfold fsm_getstart. by rewrite T5, T6.
  - rewrite I4, E3. done.
  - intros k x. rewrite I4, E3. apply Ke.
  - done.
  - done.
Qed.
End Consolidate.
