(* ===== verification/MinimiseSpec.v ===== *)
(** * Minimisation: what [fsm_minimise] gives

    The automaton that comes back shows the same end ids for the same words.
    Where no memory is read before it is written and no state has eager outputs,
    no deterministic automaton that shows the same has fewer states. Where the
    code departs from its intent: the label sets it compares may be
    uninitialised, and end metadata is not collected for all states. *)

From S2P Require Import Prelude StateSet Bits Bitmap EdgeSet EdgeIter EdgeCompact Probe Endids EagerOutput Lang Fsm FsmSpec FsmInv FsmCompact.
From S2P Require Import Pred Search Trim Capture Combine Clone Reverse Pv DetSpec Consolidate Minimise MinRefine MinSplit MinMapping ConsolidateSpec.

(** ** Words and what they show *)

(** The end state that a word leads to from the start state shows the end ids
    [e]. *)
Definition word_shows (f : fsm) (w : list nat) (e : list N) : Prop :=
  ∃ s, fsm_getstart f = Some s ∧ shows f s w e.

Lemma language_shows f w : language f w ↔ ∃ e, word_shows f w e.
Proof.
  split.
  - intros (s & t & Hs & Hp & He). eexists. exists s. split; [done|]. exists t. done.
  - intros (e & s & Hs & t & Hp & He & _). exists s, t. done.
Qed.

Lemma word_shows_from f s u x w e :
  deterministic (nfa_of f) → fsm_getstart f = Some s → path (nfa_of f) s u x → word_shows f (u ++ w) e ↔ shows f x w e.
Proof.
  intros Hd Hs Hu. split.
  - intros (s' & Hs' & t & Hp & He). assert (s' = s) as -> by congruence. exists t. split; [|done].
    apply path_app_inv in Hp as (y & Hy & Hp). by rewrite (path_det _ s u x y Hd Hu Hy).
  - intros (t & Hp & He). exists s. split; [done|]. exists t. split; [|done]. by eapply path_app.
Qed.

(** ** Trimming *)

Section Trimmed.
Context (f f' : fsm) (kept : N → Prop) (ρ : N → N).
Hypothesis Hwf : fsm_wf f.
Hypothesis Ht : trimmed f FSM_TRIM_START_AND_END_REACHABLE f' kept ρ.

Lemma trimmed_deterministic : deterministic (nfa_of f) → deterministic (nfa_of f').
Proof.
  intros (D1 & D2 & D3). pose proof (tr_renames _ _ _ _ _ Ht) as Hr. split; [|split]; cbn.
  - intros s t He. pose proof He as [(s0 & Hs & Hk & ->)%(tr_live _ _ _ _ _ Ht) _].
    apply (ren_eps _ _ _ _ Hr) in He as (t' & [He _] & _); [|done]. by apply (D1 s0 t').
  - intros s c t t' He He'. pose proof He as [(s0 & Hs & Hk & ->)%(tr_live _ _ _ _ _ Ht) _].
    apply (ren_edge _ _ _ _ Hr) in He as (u & [He _] & ->); [|done]. apply (ren_edge _ _ _ _ Hr) in He' as (u' & [He' _] & ->); [|done].
    by rewrite (D2 s0 c u u' He He').
  - congruence.
Qed.

Lemma trimmed_shows w e : word_shows f' w e ↔ word_shows f w e.
Proof.
  pose proof (tr_renames _ _ _ _ _ Ht) as Hr. split.
  - intros (s & Hs & t & Hp & He & <-). apply (tr_start _ _ _ _ _ Ht) in Hs as (s0 & Hs & Hk & ->).
    pose proof (wf_start _ Hwf s0 Hs) as Ls. apply (path_renames _ _ _ _ _ _ _ Hr) in Hp as (t0 & Hp & [Lt Kt] & ->); [|done].
    apply (ren_end _ _ _ _ Hr) in He as [He _]; [|done]. exists s0. split; [done|]. exists t0. rewrite (tr_endids _ _ _ _ _ Ht) by done.
    split; [|done]. eapply path_mono; [| |exact Hp]; cbn; naive_solver.
  - intros (s & Hs & t & Hp & He & <-).
    assert (∀ s0 u s v t, fsm_getstart f = Some s0 → path (nfa_of f) s0 u s → path (nfa_of f) s v t → f_end f t → kept s) as Hk.
    { intros s0 u x v y Hs0 Hu Hv Hy. assert (live f x) as Lx by (eapply path_states_live; [exact Hwf|by apply (wf_start _ Hwf)|exact Hu]).
      apply (tr_useful _ _ _ _ _ Ht x Lx). split.
      - exists s0. split; [done|]. apply f_step_rtc_path. eauto.
      - exists y. split; [done|]. apply f_step_rtc_path. eauto. }
    pose proof (wf_start _ Hwf s Hs) as Ls. assert (kept s) as Ks by (eapply (Hk s [] s w t); [done|constructor|done|done]).
    pose proof (path_restrict (nfa_of f) kept s w t Hk Hs Hp He) as Hp'.
    pose proof (path_live _ _ _ _ _ _ _ Hr (conj Ls Ks) Hp') as [Lt Kt].
    exists (ρ s). split; [apply (tr_start _ _ _ _ _ Ht); eauto|]. exists (ρ t). split; [|split].
    + apply (path_renames _ _ _ _ _ _ _ Hr); [done|]. by exists t.
    + apply (ren_end _ _ _ _ Hr); [done|]. by split.
    + by apply (tr_endids _ _ _ _ _ Ht).
Qed.

End Trimmed.

(** ** Consolidating *)

Section Consolidated.
Context (src dst : fsm) (mapping : list N) (count : nat).
Hypothesis Hwf : fsm_wf src.
Hypothesis Hdet : deterministic (nfa_of src).
Hypothesis Hends : endid_weak (f_endid_info src).
Hypothesis Hbi : bisimilar src mapping count.
Hypothesis Hco : consolidated src mapping count dst.

Lemma bisimilar_quotient : quotient src mapping count.
Proof.
  split; try apply Hbi.
  - intros s k Hs. destruct (bi_range _ _ _ Hbi s) as (i & Hi & ?); [|rewrite Hi in Hs; injection Hs as <-; lia].
    apply lookup_lt_Some in Hs. unfold live. by rewrite <-(bi_length _ _ _ Hbi).
  - intros k Hk. destruct (bi_onto _ _ _ Hbi _ Hk) as (s & _ & Hs). exists s. by rewrite Hs, N2Nat.id.
Qed.

Lemma consolidated_path s k w t :
  mapping !! N.to_nat s = Some k → path (nfa_of dst) k w t ↔ ∃ u, path (nfa_of src) s w u ∧ mapping !! N.to_nat u = Some t.
Proof.
  intros Hs. split.
  - intros Hp. revert s Hs. induction Hp as [k|k k' w t He Hp IH|k c k' w t He Hp IH]; intros s Hs.
    + exists s. split; [constructor|done].
    + by apply (co_eps _ _ _ _ Hco) in He.
    + apply (co_edge _ _ _ _ Hco s k c k' Hs) in He as (u & Hu & Hk'). destruct (IH u Hk') as (v & Hv & Hvt).
      exists v. split; [by eapply path_step|done].
  - intros (u & Hp & Hu). revert k Hs. induction Hp as [s|s s' w u He Hp IH|s c s' w u He Hp IH]; intros k Hs.
    + assert (k = t) as -> by congruence. constructor.
    + by apply (proj1 Hdet) in He.
    + assert (live src s') as Ls' by (exact (f_edge_live src s c s' Hwf He)). destruct (bi_range _ _ _ Hbi s' Ls') as (i & Hi & _).
      eapply path_step; [apply (co_edge _ _ _ _ Hco s k c (N.of_nat i) Hs); by exists s'|]. by apply IH.
Qed.

Lemma weak_increasing ei s : endid_weak ei → increasing (endids ei s).
Proof.
  intros (Hok & _ & _ & Hids). unfold endids. destruct (table_get (ei_buckets ei) s) as [e|] eqn:E; [|constructor].
  apply table_get_spec in E; [|done]. by apply (Hids s).
Qed.

(** The end ids of an end state are those of all states put together with it. *)
Lemma consolidated_endids u t : mapping !! N.to_nat u = Some t → f_end src u → endids (f_endid_info dst) t = endids (f_endid_info src) u.
Proof.
  intros Hu He. apply increasing_ext; [apply endids_increasing, Hco|by apply weak_increasing|]. intros x.
  rewrite (co_endids _ _ _ _ Hco). split; [|by exists u]. intros (v & Hv & Hx).
  assert (live src v) as Lv by (apply (quotient_live src mapping count bisimilar_quotient v t Hv)).
  destruct (bi_end _ _ _ Hbi u v) as [_ Hm]; [apply He|done|congruence|done|]. unfold metadata in Hm. congruence.
Qed.

Lemma consolidated_shows s k w e : mapping !! N.to_nat s = Some k → shows dst k w e ↔ shows src s w e.
Proof.
  intros Hs. unfold shows. setoid_rewrite (consolidated_path s k w) at 1; [|done]. split.
  - intros (t & (u & Hp & Hu) & He & <-). apply (co_end _ _ _ _ Hco u t Hu) in He. exists u. by rewrite <-(consolidated_endids u t).
  - intros (u & Hp & He & <-). destruct (bi_range _ _ _ Hbi u) as (i & Hi & _); [apply He|]. exists (N.of_nat i).
    split; [by exists u|]. split; [by apply (co_end _ _ _ _ Hco u)|by apply consolidated_endids].
Qed.

Lemma consolidated_word w e : word_shows dst w e ↔ word_shows src w e.
Proof.
  unfold word_shows. setoid_rewrite (co_start _ _ _ _ Hco). split.
  - intros (k & (s & Hs & Hk) & Hw). exists s. split; [done|]. by apply (consolidated_shows s k).
  - intros (s & Hs & Hw). destruct (bi_range _ _ _ Hbi s (wf_start _ Hwf s Hs)) as (i & Hi & _). exists (N.of_nat i).
    split; [by exists s|]. by apply (consolidated_shows s).
Qed.

Lemma consolidated_deterministic : deterministic (nfa_of dst).
Proof.
  split; [|split]; cbn.
  - apply Hco.
  - intros k c t t' He He'. pose proof He as [Hk _]. unfold live in Hk. rewrite (co_count _ _ _ _ Hco) in Hk.
    destruct (qu_onto _ _ _ bisimilar_quotient k Hk) as [s Hs]. apply (co_edge _ _ _ _ Hco s k c t Hs) in He as (u & Hu & Et).
    apply (co_edge _ _ _ _ Hco s k c t' Hs) in He' as (u' & Hu' & Et'). destruct Hdet as (_ & D2 & _). rewrite (D2 s c u u' Hu Hu') in Et. congruence.
  - congruence.
Qed.
End Consolidated.

(** ** Giving memory back *)

Lemma vacuum_loop_spec fuel statecount : ∀ nceil, vacuum_loop fuel statecount nceil = nceil ∨ (statecount < vacuum_loop fuel statecount nceil ≤ nceil).
Proof.
  induction fuel as [|fuel IH]; intros nceil; cbn [vacuum_loop]; [by left|]. destruct (_ && _) eqn:E; [|by left]. split_bool.
  right. pose proof (Nat.Div0.div_le_upper_bound nceil 2 nceil ltac:(lia)). destruct (IH (nceil / 2)) as [->|?]; lia.
Qed.

Lemma fsm_vacuum_spec `{alloc_total} f :
  fsm_wf f → ∃ f', fsm_vacuum f = (true, f') ∧ fsm_wf f' ∧ nfa_of f' ≡ nfa_of f ∧ f_statecount f' = f_statecount f ∧
    f_endid_info f' = f_endid_info f.
Proof.
  intros Hwf. unfold fsm_vacuum. set (m := vacuum_loop _ _ _). destruct (m =? length (f_states f)) eqn:E; split_bool.
  { exists f. by split_and!. }
  rewrite f_realloc_total. exists (with_states f (take m (f_states f))). split; [done|].
  destruct (vacuum_loop_spec (length (f_states f)) (f_statecount f) (length (f_states f))) as [?|Hm]; [done|]. fold m in Hm.
  assert (∀ s, live f s → get_state (with_states f (take m (f_states f))) s = get_state f s) as Hg.
  { intros s Hs. unfold get_state, live in *. cbn. rewrite !list_lookup_total_alt, lookup_take_lt by lia. done. }
  split; [|split; [|done]].
  - split; cbn; try apply Hwf.
    + rewrite length_take. lia.
    + rewrite length_take. lia.
    + intros s Hs. rewrite Hg by done. by apply Hwf.
    + rewrite (wf_endcount _ Hwf). unfold end_states. cbn. by rewrite take_take, Nat.min_l by lia.
  - split_and!; cbn; unfold f_edge, f_eps, f_end, fsm_isend; intros; try done; split; intros [Hs ?]; (split; [exact Hs|]).
    all: by rewrite Hg in * by exact Hs.
Qed.

(** ** No smaller automaton *)

(** Every state is on the path of a word to an end state, and no two states show
    the same for all words. *)
Record minimal (f : fsm) : Prop := {
  mi_reach s : live f s → ∃ s0 u, fsm_getstart f = Some s0 ∧ path (nfa_of f) s0 u s;
  mi_leads s : live f s → ∃ w e, shows f s w e;
  mi_apart s t : live f s → live f t → s ≠ t → apart f s t;
}.

(** States of two automata that show the same. *)
Definition shows_same (f g : fsm) (s x : N) : Prop := live g x ∧ ∀ w e, shows f s w e ↔ shows g x w e.

Lemma minimal_same f g s :
  minimal f → deterministic (nfa_of f) → fsm_wf g → deterministic (nfa_of g) → (∀ w e, word_shows g w e ↔ word_shows f w e) →
  live f s → ∃ x, shows_same f g s x.
Proof.
  intros [M1 M2 _] Hd Hg Hdg Hsame Hs. destruct (M1 s Hs) as (s0 & u & Hs0 & Hu). destruct (M2 s Hs) as (w & e & Hw).
  assert (word_shows g (u ++ w) e) as (x0 & Hx0 & y & Hp & _) by (apply Hsame; by apply (word_shows_from f s0 u s)).
  apply path_app_inv in Hp as (x & Hx & _). exists x. split; [by eapply path_states_live; [|apply (wf_start _ Hg)|]|].
  intros v d. by rewrite <-(word_shows_from f s0 u s), <-Hsame, (word_shows_from g x0 u x).
Qed.

Lemma minimal_least f g :
  minimal f → deterministic (nfa_of f) → fsm_wf g → deterministic (nfa_of g) → (∀ w e, word_shows g w e ↔ word_shows f w e) →
  f_statecount f ≤ f_statecount g.
Proof.
  intros Hm Hd Hg Hdg Hsame.
  assert (∃ l, Forall2 (shows_same f g) (live_ids f) l) as [l Hl].
  { assert (∀ s, s ∈ live_ids f → live f s) as Hin by (intros s; by rewrite elem_of_live_ids). induction (live_ids f) as [|s ids IH]; [by exists []|].
    destruct IH as [l Hl]; [intros; apply Hin; by right|]. destruct (minimal_same f g s Hm Hd Hg Hdg Hsame ltac:(apply Hin; left)) as [x Hx].
    exists (x :: l). by constructor. }
  assert (NoDup l) as Hn.
  { apply NoDup_alt. intros i j x Hi Hj. destruct (Forall2_lookup_r _ _ _ _ _ Hl Hi) as (s & Hs & _ & Hsx).
    destruct (Forall2_lookup_r _ _ _ _ _ Hl Hj) as (t & Ht & _ & Htx).
    destruct (decide (s = t)) as [->|Hne]; [by eapply (NoDup_lookup (live_ids f)); [apply NoDup_live_ids| |]|].
    destruct (mi_apart _ Hm s t) as (w & Hw); [apply elem_of_live_ids; by eapply list_elem_of_lookup_2..|done|].
    destruct Hw. intros e. by rewrite Hsx, Htx. }
  assert (length l = f_statecount f) as <-.
  { rewrite <-(Forall2_length _ _ _ Hl). unfold live_ids. by rewrite length_fmap, length_seq. }
  assert (f_statecount g = length (live_ids g)) as -> by (unfold live_ids; by rewrite length_fmap, length_seq).
  apply submseteq_length, NoDup_submseteq; [done|]. intros x (i & Hi)%list_elem_of_lookup. apply elem_of_live_ids.
  by destruct (Forall2_lookup_r _ _ _ _ _ Hl Hi) as (s & _ & ? & _).
Qed.

(** ** The whole function *)

(** What minimisation needs: a DFA without captures, where no state has more
    than [B] end ids or eager outputs. *)
Record min_ready (f : fsm) (B : nat) : Prop := {
  mn_inv : fsm_inv f;
  mn_dfa : fsm_all f fsm_isdfa = true;
  mn_captures : no_captures f;
  mn_count : (N.of_nat (f_statecount f) < 2147483648)%N;
  mn_ids s : live f s → length (endids (f_endid_info f) s) ≤ B ∧ length (eager_outputs (f_eager_output_info f) s) ≤ B;
  mn_room : (N.of_nat (f_statecount f * B) < 1073741824)%N;
}.

Record minimises (f f' : fsm) : Prop := {
  ms_wf : fsm_wf f';
  ms_deterministic : deterministic (nfa_of f');
  ms_start : f_statecount f' = 0 ∨ is_Some (fsm_getstart f');
  ms_count : f_statecount f' ≤ f_statecount f;
  ms_words w e : word_shows f' w e ↔ word_shows f w e;
}.

Lemma bucket_keys {V} (bs : list (option (N * V))) f :
  table_ok bs → (∀ k e, Some (k, e) ∈ bs → live f k) → length (entries bs) ≤ f_statecount f.
Proof.
  intros Hok Hl. assert (f_statecount f = length (live_ids f)) as -> by (unfold live_ids; by rewrite length_fmap, length_seq).
  rewrite <-(length_fmap fst (entries bs)). apply submseteq_length, NoDup_submseteq; [by apply NoDup_keys|].
  intros k ([k' e] & -> & He%elem_of_entries)%list_elem_of_fmap. apply elem_of_live_ids. by eapply Hl.
Qed.

Lemma endid_total_bound f B :
  fsm_meta f → (∀ s, live f s → length (endids (f_endid_info f) s) ≤ B) → endid_total (ei_buckets (f_endid_info f)) ≤ f_statecount f * B.
Proof.
  intros ((Hok & _) & _ & Hk & _) HB. pose proof (bucket_keys _ f Hok Hk) as Hlen. transitivity (length (entries (ei_buckets (f_endid_info f))) * B); [|nia].
  assert (∀ k e, Some (k, e) ∈ ei_buckets (f_endid_info f) → length (eii_ids e) ≤ B) as Hb.
  { intros k e He. pose proof (HB k (Hk k e He)) as Hx. unfold endids in Hx. apply (table_get_spec _ _ _ Hok) in He. by rewrite He in Hx. }
  clear -Hb. induction (ei_buckets (f_endid_info f)) as [|[[k e]|] bs IH]; [done| |apply IH; intros k e He; apply (Hb k e); by right].
  rewrite entries_cons. change (endid_total (Some (k, e) :: bs)) with (length (eii_ids e) + endid_total bs). cbn [length].
  specialize (Hb k e ltac:(left)) as Hx. specialize (IH ltac:(intros k' e' He; apply (Hb k' e'); by right)). lia.
Qed.

Lemma eager_total_bound f B :
  fsm_meta f → (∀ s, live f s → length (eager_outputs (f_eager_output_info f) s) ≤ B) →
  eager_total (eo_buckets (f_eager_output_info f)) ≤ f_statecount f * B.
Proof.
  intros (_ & (Hok & _) & _ & Hk) HB. pose proof (bucket_keys _ f Hok Hk) as Hlen. transitivity (length (entries (eo_buckets (f_eager_output_info f))) * B); [|nia].
  assert (∀ k e, Some (k, e) ∈ eo_buckets (f_eager_output_info f) → length (eoe_ids e) ≤ B) as Hb.
  { intros k e He. pose proof (HB k (Hk k e He)) as Hx. unfold eager_outputs in Hx. apply (table_get_spec _ _ _ Hok) in He. by rewrite He in Hx. }
  clear -Hb. induction (eo_buckets (f_eager_output_info f)) as [|[[k e]|] bs IH]; [done| |apply IH; intros k e He; apply (Hb k e); by right].
  rewrite entries_cons. change (eager_total (Some (k, e) :: bs)) with (length (eoe_ids e) + eager_total bs). cbn [length].
  specialize (Hb k e ltac:(left)) as Hx. specialize (IH ltac:(intros k' e' He; apply (Hb k' e'); by right)). lia.
Qed.

Lemma useful_reach f s :
  useful f FSM_TRIM_START_AND_END_REACHABLE s →
  (∃ s0 u, fsm_getstart f = Some s0 ∧ path (nfa_of f) s0 u s) ∧ ∃ w e, shows f s w e.
Proof.
  intros [(s0 & Hs0 & [u Hu]%f_step_rtc_path) (t & Ht & [w Hw]%f_step_rtc_path)]. split; [by exists s0, u|].
  exists w, (endids (f_endid_info f) t), t. done.
Qed.

Lemma consolidated_minimal src dst mapping count :
  fsm_wf src → deterministic (nfa_of src) → endid_weak (f_endid_info src) → bisimilar src mapping count → consolidated src mapping count dst →
  (∀ s, live src s → useful src FSM_TRIM_START_AND_END_REACHABLE s) →
  (∀ s t, live src s → live src t → mapping !! N.to_nat s ≠ mapping !! N.to_nat t → apart src s t) → minimal dst.
Proof.
  intros Hwf Hdet Hends Hbi Hco Hu Hap.
  assert (∀ k, live dst k → ∃ s, live src s ∧ mapping !! N.to_nat s = Some k) as Honto.
  { intros k Hk. unfold live in Hk. rewrite (co_count _ _ _ _ Hco) in Hk. destruct (bi_onto _ _ _ Hbi _ Hk) as (s & Hs & E).
    exists s. by rewrite E, N2Nat.id. }
  split.
  - intros k (s & Hs & Hk)%Honto. destruct (useful_reach _ _ (Hu s Hs)) as [(s0 & u & Hs0 & Hp) _].
    destruct (bi_range _ _ _ Hbi s0 (wf_start _ Hwf s0 Hs0)) as (i & Hi & _). exists (N.of_nat i), u.
    split; [apply (co_start _ _ _ _ Hco); by exists s0|]. apply (consolidated_path src dst mapping count Hwf Hdet Hbi Hco s0); [done|]. by exists s.
  - intros k (s & Hs & Hk)%Honto. destruct (useful_reach _ _ (Hu s Hs)) as [_ (w & e & Hw)]. exists w, e.
    by apply (consolidated_shows src dst mapping count Hwf Hdet Hends Hbi Hco s).
  - intros k k' (s & Hs & Hk)%Honto (s' & Hs' & Hk')%Honto Hne. destruct (Hap s s' Hs Hs') as (w & Hw); [congruence|]. exists w. intros Hx. apply Hw. intros e.
    by rewrite <-(consolidated_shows src dst mapping count Hwf Hdet Hends Hbi Hco s k), Hx, (consolidated_shows src dst mapping count Hwf Hdet Hends Hbi Hco s' k').
Qed.

(** Moving and vacuuming change nothing that words show. *)
Lemma vacuum_shows f f' w e : nfa_of f' ≡ nfa_of f → f_endid_info f' = f_endid_info f → ∀ s, shows f' s w e ↔ shows f s w e.
Proof.
  intros Hn He s. unfold shows. rewrite He. destruct Hn as (N1 & N2 & N3 & N4).
  split; intros (u & Hp & Hu & Hx); exists u; (split; [|split; [by apply N3|done]]); eapply path_mono; [| |exact Hp| | |exact Hp]; intros *; first [by apply N1|by apply N2].
Qed.

Lemma vacuum_minimises g f f' :
  nfa_of f' ≡ nfa_of f → f_endid_info f' = f_endid_info f → f_statecount f' = f_statecount f → fsm_wf f' → minimises g f → minimises g f'.
Proof.
  intros Hn He Hc Hwf [M1 (D1 & D2 & D3) M3 M4 M5]. pose proof Hn as (N1 & N2 & N3 & N4). cbn in N1, N2, N3, N4.
  split; [done| | |lia|].
  - split; [|split]; cbn; [intros s t; rewrite N2; apply D1|intros s c t t'; rewrite !N1; apply D2|congruence].
  - rewrite Hc. destruct M3 as [?|[s Hs]]; [by left|]. right. exists s. by apply N4.
  - intros w e. rewrite <-M5. unfold word_shows. setoid_rewrite N4. by setoid_rewrite (vacuum_shows f f' w e Hn He).
Qed.

Lemma vacuum_minimal f f' :
  nfa_of f' ≡ nfa_of f → f_endid_info f' = f_endid_info f → f_statecount f' = f_statecount f → minimal f → minimal f'.
Proof.
  intros Hn He Hc [M1 M2 M3]. pose proof Hn as (N1 & N2 & N3 & N4). cbn in N1, N2, N3, N4.
  assert (∀ s, live f' s ↔ live f s) as Hl by (intros s; unfold live; by rewrite Hc). split.
  - intros s Hs. destruct (M1 s) as (s0 & u & H0 & Hu); [by apply Hl|]. exists s0, u. split; [by apply N4|]. eapply path_mono; [| |exact Hu]; intros *; first [by apply N1|by apply N2].
  - intros s Hs. destruct (M2 s) as (w & e & Hw); [by apply Hl|]. exists w, e. by apply (vacuum_shows f f').
  - intros s t Hs Ht Hne. destruct (M3 s t) as (w & Hw); [by apply Hl|by apply Hl|done|]. exists w. intros Hx. apply Hw. intros e.
    by rewrite <-!(vacuum_shows f f' w e Hn He).
Qed.

Section Minimise.
Context `{allocator, !alloc_total} (undef : N) (stale : nat → N → list N).

(** What [fsm_minimise] works on once it has trimmed. *)
Record min_trimmed (f f1 : fsm) (sed : list N) (B : nat) : Prop := {
  mt_ready : min_ready f1 B;
  mt_minimises : minimises f f1;
  mt_useful s : live f1 s → useful f1 FSM_TRIM_START_AND_END_REACHABLE s;
  mt_distances : distances_ok f1 (Some sed);
  mt_outputs : no_outputs f → no_outputs f1;
}.

Lemma trim_ready f B :
  min_ready f B → 0 < f_statecount f →
  ∃ r f1 sed, fsm_trim f FSM_TRIM_START_AND_END_REACHABLE true = Some (r, f1, Some sed) ∧ (0 ≤ r)%Z ∧ min_trimmed f f1 sed B.
Proof.
  intros [Hinv Hdfa Hcap Hcnt Hids Hroom] Hpos. pose proof Hinv as [I1 I2 I3 I4].
  destruct (fsm_trim_correct f FSM_TRIM_START_AND_END_REACHABLE true I1 I2 I3 I4 Hpos) as (f1 & osed & E & K1 & K2 & K3 & K4 & K5 & _ & K7 & K8 & K9).
  destruct (proj2 K9 (conj eq_refl eq_refl)) as [sed ->]. destruct (fsm_trim_trimmed _ _ _ _ _ _ Hinv Hpos E) as (kept & ρ & Ht).
  exists (Z.of_nat (f_statecount f - f_statecount f1)), f1, sed. split; [done|]. split; [lia|].
  apply (fsm_all_isdfa f I1) in Hdfa as [Hdet _]. pose proof (trimmed_deterministic f f1 kept ρ Ht Hdet) as Hdet1.
  assert (f_statecount f1 = 0 ∨ is_Some (fsm_getstart f1)) as Hst.
  { destruct (decide (f_statecount f1 = 0)) as [?|Hn]; [by left|]. right. destruct (K7 0%N) as [(s0 & ? & _) _]; [unfold live; lia|]. by exists s0. }
  split.
  - split; [by split|by apply fsm_all_isdfa|unfold no_captures; by rewrite (tr_captures _ _ _ _ _ Ht)|lia| |nia].
    intros s1 (s & Hs & Hk & ->)%(tr_live _ _ _ _ _ Ht). rewrite (tr_endids _ _ _ _ _ Ht), (tr_eager _ _ _ _ _ Ht) by done. by apply Hids.
  - split; [done|done|done|done|]. intros w e. by apply (trimmed_shows f f1 kept ρ).
  - done.
  - done.
  - intros Hno s1 (s & Hs & Hk & ->)%(tr_live _ _ _ _ _ Ht). rewrite (tr_flag _ _ _ _ _ Ht), (tr_eager _ _ _ _ _ Ht) by done. by apply Hno.
Qed.

(** Without edges there is only the start state. *)
Lemma no_labels_minimal f1 :
  (∀ s c t, ¬ f_edge f1 s c t) → deterministic (nfa_of f1) → (∀ s, live f1 s → useful f1 FSM_TRIM_START_AND_END_REACHABLE s) → minimal f1.
Proof.
  intros Hno Hdet Hu. split; [intros s Hs; apply (useful_reach _ _ (Hu s Hs))..|]. intros s t Hs Ht Hne. destruct Hne.
  destruct (useful_reach _ _ (Hu s Hs)) as [(s0 & u & Hs0 & Hp) _]. destruct (useful_reach _ _ (Hu t Ht)) as [(t0 & v & Ht0 & Hq) _].
  assert (∀ a w b, path (nfa_of f1) a w b → a = b) as Hstay.
  { intros a w b [|? ? ? ? He|? ? ? ? ? He]; [done|by apply (proj1 Hdet) in He|by apply Hno in He]. }
  rewrite <-(Hstay _ _ _ Hp), <-(Hstay _ _ _ Hq). congruence.
Qed.

Lemma minimise_merge f f1 sed B :
  min_trimmed f f1 sed B → 0 < f_statecount f1 →
  ∃ mapping count dst f', build_minimised_mapping undef stale f1 (collect_labels f1) sed = Some (Some (mapping, count)) ∧
    count ≤ f_statecount f1 ∧ Forall (λ m, (m < N.of_nat (f_statecount f1))%N) mapping ∧
    fsm_consolidate f1 mapping = Some (Some dst) ∧ fsm_vacuum (fsm_move f1 dst) = (true, f') ∧ minimises f f' ∧
    (zeroed stale → no_outputs f → minimal f').
Proof.
  intros [[Hinv Hdfa Hcap Hcnt Hids Hroom] Hms Hu Hsed Hout] Hpos. pose proof (inv_meta _ Hinv) as (Hends & _). pose proof (inv_wf _ Hinv) as Hwf.
  destruct Hms as [_ Hdet Hst Hle Hwords].
  destruct (build_minimised_mapping_spec undef stale f1 Hwf Hdet Hends Hcnt Hpos sed Hsed (collect_labels f1)) as (mapping & count & Em & Hbi & Hap).
  { intros s c t. by apply collect_labels_complete. }
  pose proof (bisimilar_quotient f1 mapping count Hbi) as Hq.
  assert (0 < count) as Hc0 by (destruct (bi_range _ _ _ Hbi 0%N) as (i & _ & ?); [unfold live; lia|lia]).
  destruct (fsm_consolidate_spec f1 mapping count Hwf (inv_meta _ Hinv) Hcap Hq) as (dst & Ec & Hco).
  - apply Hdet.
  - done.
  - pose proof (bi_count _ _ _ Hbi). lia.
  - pose proof (endid_total_bound f1 B (inv_meta _ Hinv) (λ s Hs, proj1 (Hids s Hs))). lia.
  - pose proof (eager_total_bound f1 B (inv_meta _ Hinv) (λ s Hs, proj2 (Hids s Hs))). lia.
  - destruct (fsm_vacuum_spec dst (co_wf _ _ _ _ Hco)) as (f' & Ev & V1 & V2 & V3 & V4).
    exists mapping, count, dst, f'. split; [done|]. split; [apply Hbi|]. split.
    { apply Forall_lookup. intros i m Hm. pose proof (qu_range _ _ _ Hq (N.of_nat i) m ltac:(by rewrite Nat2N.id)) as Hr. pose proof (bi_count _ _ _ Hbi). lia. }
    split; [done|]. rewrite fsm_move_same by (by rewrite (co_alloc _ _ _ _ Hco)). split; [done|]. split.
    + eapply vacuum_minimises; [exact V2|done|done|done|]. split.
      * apply Hco.
      * exact (consolidated_deterministic f1 dst mapping count Hdet Hbi Hco).
      * right. destruct Hst as [?|[s0 Hs0]]; [lia|]. destruct (bi_range _ _ _ Hbi s0 (wf_start _ Hwf s0 Hs0)) as (i & Hi & _).
        exists (N.of_nat i). apply (co_start _ _ _ _ Hco). by exists s0.
      * rewrite (co_count _ _ _ _ Hco). pose proof (bi_count _ _ _ Hbi). lia.
      * intros w e. by rewrite (consolidated_word f1 dst mapping count).
    + intros Hz Hno. eapply vacuum_minimal; [exact V2|done|done|]. apply (consolidated_minimal f1 dst mapping count Hwf Hdet Hends Hbi Hco Hu). exact (Hap Hz (Hout Hno)).
Qed.

Lemma fsm_minimise_total f B :
  min_ready f B → ∃ f', fsm_minimise undef stale f = Some (true, f') ∧ minimises f f' ∧ (zeroed stale → no_outputs f → minimal f').
Proof.
  intros Hr. unfold fsm_minimise. rewrite (mn_dfa _ _ Hr). cbn [negb].
  destruct (decide (0 < f_statecount f)) as [Hpos|Hz].
  - destruct (trim_ready f B Hr Hpos) as (r & f1 & sed & -> & Hr0 & Ht). cbn [mbind option_bind]. rewrite (proj2 (Z.ltb_ge _ _)) by lia.
    pose proof Ht as [[Hinv Hdfa _ Hcnt _ _] Hms Hu _ _]. destruct (f_statecount f1 =? 0) eqn:E1; split_bool.
    { exists f1. split; [done|]. split; [done|]. intros _ _. split; unfold live; lia. }
    destruct (length (collect_labels f1) =? 0) eqn:E2; split_bool.
    { exists f1. split; [done|]. split; [done|]. intros _ _. apply no_labels_minimal; [|apply Hms|done].
      intros s c t He. apply nil_length_inv in E2. pose proof (collect_labels_complete f1 (inv_wf _ Hinv) Hcnt s c t He) as Hin.
      rewrite E2 in Hin. by apply not_elem_of_nil in Hin. }
    rewrite f_malloc_total. cbn [negb]. destruct (minimise_merge f f1 sed B Ht) as (mapping & count & dst & f' & -> & Hc & Hf & Ec & Ev & M1 & M2); [lia|].
    cbn [mbind option_bind]. rewrite (proj2 (Nat.leb_le _ _)) by done. cbn [negb].
    assert (forallb (λ m, (m <? N.of_nat (f_statecount f1))%N) mapping = true) as ->.
    { apply forallb_forall. intros m Hm%list_elem_of_In. rewrite Forall_forall in Hf. by apply N.ltb_lt, Hf. }
    cbn [negb]. rewrite Ec. cbn [mbind option_bind]. rewrite Ev. by exists f'.
  - unfold fsm_trim. rewrite (proj2 (Nat.eqb_eq (f_statecount f) 0)) by lia. cbn [mbind option_bind]. change (1 <? 0)%Z with false. cbv iota. rewrite (proj2 (Nat.eqb_eq (f_statecount f) 0)) by lia.
    pose proof (inv_wf _ (mn_inv _ _ Hr)) as Hwf. destruct (proj1 (fsm_all_isdfa f Hwf) (mn_dfa _ _ Hr)) as [Hdet Hst].
    exists f. split; [done|]. split; [by split|]. intros _ _. split; unfold live; lia.
Qed.

(** ** Properties *)


End Minimise.

(** ** Examples *)

(** An automaton for [ac|bc] with two end states without edges. *)
Definition two_tails_ops : list build_op :=
  [BAddState; BAddState; BAddState; BAddState; BAddState; BStart 0%N; BLiteral 0%N 1%N 97; BLiteral 0%N 2%N 98;
   BLiteral 1%N 3%N 99; BLiteral 2%N 4%N 99; BEnd 3%N true; BEnd 4%N true].

Definition two_tails : fsm := @build_from_new always two_tails_ops.

Lemma two_tails_ready : min_ready two_tails 0.
Proof.
  split.
  - by apply inv_build_from_new.
  - vm_compute. reflexivity.
  - vm_compute. reflexivity.
  - vm_compute. reflexivity.
  - assert (Forall (λ s, length (endids (f_endid_info two_tails) s) ≤ 0 ∧ length (eager_outputs (f_eager_output_info two_tails) s) ≤ 0)
      (live_ids two_tails)) as Hall by by_compute.
    rewrite Forall_forall in Hall. intros s Hs. by apply Hall, elem_of_live_ids.
  - vm_compute. reflexivity.
Qed.

Lemma two_tails_outputs : no_outputs two_tails.
Proof.
  assert (Forall (λ s, st_has_eager_outputs (get_state two_tails s) = false ∧ eager_outputs (f_eager_output_info two_tails) s = [])
    (live_ids two_tails)) as Hall by by_compute.
  rewrite Forall_forall in Hall. intros s Hs. by apply Hall, elem_of_live_ids.
Qed.



(** The same with an eager output on the state that [a] leads to. *)
Definition tails_output : fsm := match @eager_set always two_tails 1%N 5%N with Some (_, f) => f | None => two_tails end.

(** Without [zeroed] the result need not be minimal:
    [edge_set_check_edges_with_EC_mapping] returns early for a state without an
    edge set and leaves the label set of the caller as it was, so that what
    [try_partition] compares is uninitialised. With label sets that differ the
    two end states are told apart, and five states are left where three are
    enough. *)
Example minimise_uninitialised :
  ∃ f g, @fsm_minimise always 0%N (λ _ _, replicate 4 0%N) two_tails = Some (true, f) ∧ f_statecount f = 3 ∧
    @fsm_minimise always 0%N (λ _ s, [s; 0; 0; 0]%N) two_tails = Some (true, g) ∧ f_statecount g = 5.
Proof. do 2 eexists. do 3 (split; [vm_compute; reflexivity|]). vm_compute. reflexivity. Qed.

(** Eager outputs are not kept: collecting end metadata stops at the first state
    of a class that is no end state and has no eager outputs, as if no later
    state had any. Where [a] leads to a state with the eager output 5 and [b] to
    one without, the two are merged, and the output then belongs to [b] as
    well. *)
Example minimise_merges_outputs :
  ∃ f s, @fsm_minimise always 0%N (λ _ _, replicate 4 0%N) tails_output = Some (true, f) ∧ f_statecount f = 3 ∧
    fsm_eager_output_count (f_eager_output_info tails_output) 2%N = 0 ∧
    edge_set_transition (st_edges (get_state f (default 0%N (fsm_getstart f)))) 98 = Some s ∧
    fsm_eager_output_count (f_eager_output_info f) s = 1.
Proof. do 2 eexists. do 4 (split; [vm_compute; reflexivity|]). vm_compute. reflexivity. Qed.
